(* ===== verification/_CoqProject ===== *)
-Q . S2P
Prelude.v
OrderedDict.v
Paths.v
Ipv4.v
NetworkAllowlist.v
NetworkPolicy.v
Proxy.v
Resources.v
Admission.v
GpuMatching.v
Scheduler.v
Values.v
Json.v
Wire.v
Mesh.v
Hub.v
MemberNetworks.v
ServiceGroups.v
State.v
CpuRates.v
CpuBroker.v
Relay.v
WorkerBridge.v
Ownership.v
Management.v
Sandboxes.v
SandboxRuns.v
SandboxSafety.v
SandboxLife.v
LocalPools.v
Retention.v
InputEvents.v
GuestProcesses.v
ProcessStreams.v
ArtifactImports.v
GuestFiles.v
FileClients.v
DeletionJournal.v
ImageLayers.v
Compose.v
Cluster.v
Connections.v
Lifecycle.v
Artifacts.v
ServiceNetworks.v
Preparation.v
Workers.v
Allocations.v
Pools.v
Jobs.v
Reconcile.v
Evolution.v
Controller.v
Outcomes.v
System.v
