(* ===== verification/Prelude.v ===== *)
(** * Sandweave: a verification development

    Sandweave runs sandboxes (gVisor or container guests) for programs and agents.
    A cluster has one controller ([src/src/sandweave/weave/]) and many workers
    ([src/src/sandweave/sandbox/], [src/scripts/]). The controller keeps every
    record of the cluster in one store, places sandboxes on workers, and drives
    them there by requests; a worker admits, owns and runs the sandboxes, shares
    its CPUs among them and filters their network.

    ** Parts and files

    Below, a file models the source named after it. [Prelude] has exceptions and
    fallible code ([res]), record updates [r <| f := v |>], sorting, first minima
    and bytes; [OrderedDict] is Python's dictionary in order, [Values] the data
    that crosses the wire, [Json] the part of [json] and [Ipv4] the part of
    [ipaddress] in use. [Wire] ([sandbox/wire.py]) frames every request and record.

    The worker:
    - [NetworkAllowlist] ([scripts/network_allowlist.py]): rules, DNS messages and
      TCP reassembly, the addresses guests were given;
    - [NetworkPolicy] ([scripts/network_policy.py]): the decision on every frame of
      a guest, its connection table;
    - [Mesh], [Hub] ([scripts/service_network.py]), [MemberNetworks]
      ([sandbox/networks.py]): private networks between sandboxes: packets, the
      router, and the files it is restored from; [ServiceGroups]
      ([sandbox/services.py]): a sandbox with member sandboxes, their addresses,
      names and volumes, and what their guests send;
    - [Resources] ([sandbox/resources.py]): definitions of sandboxes, sizes;
    - [Proxy] ([sandbox/proxy.py]): which proxy a sandbox gets;
    - [Admission] ([sandbox/admission.py]): memory reservations of a worker;
    - [CpuRates], [CpuBroker] ([scripts/cpu_broker.py]): shares, accounts and
      pauses;
    - [Ownership] ([sandbox/ownership.py]): leases of the processes that own
      sandboxes;
    - [Management] ([sandbox/management.py]): assignments of a worker's sandboxes
      to a controller, and their tokens;
    - [Sandboxes] ([sandbox/worker.py], [deletion.py]): the operations that write
      the record of a sandbox, as programs that ask the runtime; [SandboxRuns]
      executes them against schedules of answers that may end anywhere and has a
      calculus [always] over all schedules, [SandboxSafety] the triples of every
      operation, [SandboxLife] what holds after any history;
    - [LocalPools] ([sandbox/pool.py]): a pool of sandboxes of one process: the
      threads that prepare, hand out and release them, and its closing, interleaved
      between the sections that hold its lock;
    - [Retention] ([sandbox/retention.py], [snapshots.py]): the store of saved
      environments that workers share: revisions, cache names, pins, captures and
      markers, and the release of a pool's files, which may die at every step;
    - [DeletionJournal] ([sandbox/deletion.py]): requests to delete sandboxes that
      survive the worker, and the four jobs that carry them out;
    - [Paths]: parts and texts of paths, writes at an offset; [ArtifactImports]
      ([sandbox/artifacts.py]): the begins, writes and finishes of an import over a
      file tree; [GuestFiles] ([sandbox/guest_agent.py], [Agent.file]): the file
      operation of a guest over inodes and links; [FileClients]
      ([sandbox/files.py]): whole files, trees and file objects over it;
    - [ImageLayers] ([templates/layers.py], [images.py]): the layers of an image
      become one archive;
    - [InputEvents] ([scripts/fast_io.py]): mouse and keyboard actions become events;
    - [GuestProcesses] ([sandbox/guest_agent.py]): the processes of a guest, the
      threads that spool their output and record their end; [ProcessStreams]
      ([sandbox/process.py]): the handles of clients on them, which read by offset
      while the process runs.

    The controller:
    - [GpuMatching], [Scheduler] ([weave/scheduler.py]): placement;
    - [State] ([weave/state.py]): published records, transactions, the writer;
    - [Relay] ([weave/relay.py]): calls to workers that poll for them;
    - [Cluster]: the records of each kind, the store, and transactions over it as
      a state and error monad [txn] with the rules [wp_get], [wp_put], ...;
    - [Connections] ([weave/connections.py]): which endpoints may be used;
    - [Lifecycle] ([weave/lifecycle.py]): programs [prog] that alternate
      transactions and requests to workers, and their interleaved execution
      [runs]: any number of programs start, advance one transaction or reply at
      a time, and the process may end at any moment and start again;
    - [Artifacts], [ServiceNetworks], [Preparation] ([weave/artifacts.py],
      [networks.py], [preparation.py]);
    - [Workers], [Allocations], [Reconcile] ([weave/controller.py]): workers;
      sandboxes and their lifecycles; [tick];
    - [Pools], [Jobs] ([weave/pool.py], [weave/jobs.py]).

    The proofs about the controller:
    - [Evolution]: the invariant [wf] of the store, the order [evolves] of its
      records, and the obligation [good] of a transaction;
    - [Controller]: every transaction meets it ([keeps]), so does every program
      ([safely]); the tactics [keeps] and [safely] take programs apart by hints;
    - [Outcomes]: what single operations achieve;
    - [System]: [dispatch], the programs that may start, and what holds in every
      reachable state and every later one; an execution from the registration of
      a worker to a lease, computed.

    The interfaces between components are type classes: [Table] (a kind of record
    in the store), [Digests] (hashes, injective or not), [Unrelated] (kinds outside
    the invariant), [Decoder] with its laws (incremental decoding of a stream), [Resolver] with its laws
    (how a system follows a path), [FileService] (what a client needs of a guest's
    files, which the agent's operation implements); [Management] is proved against an
    interface of the worker.

    ** What the theorems show

    Placement: no worker is over-committed, GPUs are exclusive, quotas hold, every
    request is decided and none waits that would fit ([Scheduler]); a group of GPU
    requests is matched exactly when it can be ([GpuMatching]). Persistence: a
    commit is durable before it is published, indexes agree with a scan, a restart
    restores what was published, versions only grow ([State]). The controller: in
    every interleaving, with failures and restarts, allocations only move forward
    and are fenced by their generation, a lease and its sandbox are each other's
    alone, results are final, late answers change nothing, the store stays well
    formed ([System]); creation is idempotent, a task's attempts end, launches stay
    within their limit ([Outcomes]). The worker: what the packet policy lets
    through in each mode, bounds of its tables, what DNS answers grant, TCP
    reassembly ([NetworkPolicy], [NetworkAllowlist]); admission within the memory
    budget; fair and work-conserving CPU rates, bounded consumption and sound
    control exchanges ([CpuRates], [CpuBroker]); fenced assignments and token
    scope; final expiry of owners; exactly-once delivery of relayed calls; isolation of
    service networks, valid translated packets, and a router that agrees with its
    files through failed writes and restarts ([Hub], [Mesh], [MemberNetworks]); no
    sandbox runs without an active record, tombstones are final, a failed cleanup is
    recorded and retried ([SandboxLife]); a local pool hands a sandbox to one client,
    loses none and does not deadlock ([LocalPools]); cache names lead to saved
    environments, only what is released is reclaimed, and a release that died is
    finished by the next ([Retention]); typed text arrives as typed, nothing stays
    pressed by accident, drags and scrolls are exact ([InputEvents]); a command runs
    once, its output is spooled within its budget and its end recorded
    ([GuestProcesses]), and readers lose and repeat nothing and stop at the end
    ([ProcessStreams]). Files: an import stays inside its directory and is complete when it
    is verified ([ArtifactImports]); the agent's operation does what its arguments say
    ([GuestFiles]); what a client writes it reads back, a tree that is sent and fetched is
    the tree, an interrupted write leaves a beginning, and no guest makes a download leave
    its destination ([FileClients]). Deletions are bounded, remembered and finished
    ([DeletionJournal]); members of a service group reach exactly the members they share a
    network with ([ServiceGroups]). Images: merged trees are well formed, removal through the
    index is exact, the packed archive reads back as the image, and the agent's interpreter
    stays apart ([ImageLayers]). Frames: [decode] inverts [encode], and canonical encodings identify values ([Wire]).

    Eight theorems show defects: [pool_closure_lost] (a control pass writes back a
    pool it read before a client closed it), [deletion_hides_name],
    [reserve_not_kept] (a local pool whose warm reserve stays empty), [names_escape]
    and [own_file_written] (imports with unusual manifests), [deletion_starves]
    (requests behind eight slow failing ones), [capitals_lost] (aliases with capital
    letters), and [links_lose_places] (an entry of an image below a symbolic link).

    ** Abstractions, bounds and fuel

    - Exact rationals where the code uses floats; times are integers in
      microseconds; a transaction reads the clock once.
    - Messages of exceptions keep their constant part.
    - [uuid4], random choices, digests, the answers of workers, and what is known
      of processes are arguments. Workers may answer anything, except that they
      never report a state only the controller gives ([plausible]).
    - The records of the store are typed, not dictionaries; entries a record may
      lack are options or flags. [State] models the untyped store; [Cluster] uses
      its contract: transactions are atomic and a crash loses at most deferred
      observations of workers ([survives]).
    - Memory the controller shares with other threads (transfers, futures, the
      stop flag) may change at any step ([runs_memory]).
    - The checks of a job's new pool run before the transaction that creates both;
      the connection check of [register] runs just before its transaction.
    - Fuel: [dns_name] has the length of the message; [read_stream] the recorded
      size, each read returning at least a byte; the plan one turn per request;
      [scan] twice the length of the text, and more changes nothing ([scan_fuel]);
      [labels_loop] the length of the query; [carry] one turn per 65535;
      [pick_address] the 65533 turns of the code; [read_from] and [upload_from] a turn
      for each chunk, [download] one for each level of the tree ([fuel_enough],
      [depth_enough]); [remove_loop] one for each name of the index, and [link_rounds] one
      for each link ([link_rounds_enough]); the other recursions are structural or over
      a list.
    - Texts hold characters below 256 and no number has a fraction: JSON outside
      this is refused ([Json]).

    ** Not modelled

    Input and output itself (processes, sockets, mounts, HTTP) and the runtimes, whose
    behaviour is that of gVisor, Apptainer and Modal; client objects that poll the
    operations modelled here; image transfers and the verification of snapshots, which
    copy and hash files; downloads and builds of images with external tools; byte streams,
    recordings and desktops, which pass bytes on; installation, command line, monitor and
    dashboard; benchmarks and operational scripts. The manifest lists each with its reason. *)

From stdpp Require Export base option list gmap sets strings numbers sorting.
From Stdlib Require Export ZArith Lia Ascii.
From Stdlib Require String.
From Stdlib Require Import Permutation Sorting.Sorted OrdersEx.

#[global] Set Default Goal Selector "!".

(** * Python exceptions and fallible code *)

(** The exception classes the modelled code raises or catches. *)
Inductive exn_class :=
  | ValueError | TypeError | RuntimeError | KeyError | IndexError | OSError
  | FileNotFoundError | FileExistsError | PermissionError | StructError
  | UnicodeError | TimeoutError | ResourceUnavailable | OperationUnknown
  | OwnerExpired | UnsupportedFeature | CacheMiss | CacheConflict | ExceptionGroup
  | InterruptedError | ConnectionError | EOFError | IncompatibleSnapshot
  | BrokenPipeError.

#[export] Instance exn_class_eq_dec : EqDecision exn_class.
Proof. solve_decision. Defined.

(** An exception is its class and its message, [str(error)]. *)
Record exn := Exn { exn_kind : exn_class; exn_text : string }.

#[export] Instance exn_eq_dec : EqDecision exn.
Proof. solve_decision. Defined.

(** The outcome of code that returns or raises. *)
Inductive res (A : Type) :=
  | Ok (a : A)
  | Err (e : exn).
Arguments Ok {_} _.
Arguments Err {_} _.

#[export] Instance res_ret : MRet res := λ A a, Ok a.
#[export] Instance res_bind : MBind res := λ A B f m,
  match m with Ok a => f a | Err e => Err e end.
#[export] Instance res_fmap : FMap res := λ A B f m,
  match m with Ok a => Ok (f a) | Err e => Err e end.

Definition raise {A} (k : exn_class) (msg : string) : res A := Err (Exn k msg).

(** [if test: raise k(msg)] *)
Definition raise_if (test : bool) (k : exn_class) (msg : string) : res () :=
  if test then raise k msg else Ok ().

Definition is_ok {A} (r : res A) : bool :=
  match r with Ok _ => true | Err _ => false end.

Definition res_option {A} (r : res A) : option A :=
  match r with Ok a => Some a | Err _ => None end.

Fixpoint res_map {A B} (f : A → res B) (l : list A) : res (list B) :=
  match l with
  | [] => Ok []
  | x :: l => y ← f x; ys ← res_map f l; Ok (y :: ys)
  end.

Fixpoint res_fold {A S} (f : S → A → res S) (s : S) (l : list A) : res S :=
  match l with
  | [] => Ok s
  | x :: l => s' ← f s x; res_fold f s' l
  end.

(** * Record updates *)

(** [r <| p := v |>] is the record [r] with the field [p] replaced by [v], as in
    [{**record, 'p': v}]. A record type declares how it is rebuilt from its fields. *)
Class Updatable (R : Type) := rebuild : R → R.
Class Update {R T : Type} (p : R → T) := update_with : (T → T) → R → R.
Definition update {R T : Type} (p : R → T) {u : Update p} (v : T) : R → R := update_with (λ _, v).
Arguments update {R T} p {u} v / r.
Arguments update_with {R T} p {Update} /.

(** The field is abstracted from the way its record is rebuilt. *)
Ltac derive_update :=
  match goal with
  | |- @Update ?R ?T ?p =>
      match constr:(rebuild (R := R)) with
      | @rebuild _ ?i =>
          let e := eval unfold i in i in
          match eval pattern p in e with
          | ?k _ => exact (λ f, k (λ r, f (p r)))
          end
      end
  end.
#[export] Hint Extern 1 (Update _) => derive_update : typeclass_instances.

Notation "r <| p := v |>" := (update p v r) (at level 1, left associativity, format "r  <| p  :=  v |>").

(** * Time *)

(** Clocks are integers in microseconds; [seconds n] is Python's [n] seconds. *)
Definition seconds (n : Z) : Z := (n * 1000000)%Z.

(** * Python list helpers *)

(** [data[a:b]] for nonnegative bounds. *)
Definition slice {A} (l : list A) (a b : nat) : list A := take (b - a) (drop a l).

(** Python's stable [sort]: [insert_by] puts an element before the first one
    that is strictly greater. *)
Fixpoint insert_by {A} (lt : A → A → bool) (x : A) (l : list A) : list A :=
  match l with
  | [] => [x]
  | y :: l' => if lt x y then x :: l else y :: insert_by lt x l'
  end.

Definition sort_by {A} (lt : A → A → bool) (l : list A) : list A :=
  foldl (λ acc x, insert_by lt x acc) [] l.

(** [min(l, key=...)]: the first element no other one is strictly below. *)
Definition min_by {A} (lt : A → A → bool) (l : list A) : option A :=
  match l with
  | [] => None
  | x :: l => Some (foldl (λ m y, if lt y m then y else m) x l)
  end.

Definition sumZ (l : list Z) : Z := foldr Z.add 0%Z l.

(** * Text: ASCII strings *)

Abbreviation chars := String.list_ascii_of_string.
Abbreviation of_chars := String.string_of_list_ascii.

Definition code (c : ascii) : Z := Z.of_N (N_of_ascii c).

(** [str.isspace] on the ASCII range, which [str.strip] and [\s] use. *)
Definition is_space (c : ascii) : bool :=
  let n := code c in
  ((9 <=? n) && (n <=? 13) || (28 <=? n) && (n <=? 32))%Z.

Definition is_digit (c : ascii) : bool := ((48 <=? code c) && (code c <=? 57))%Z.
Definition is_upper (c : ascii) : bool := ((65 <=? code c) && (code c <=? 90))%Z.
Definition is_lower (c : ascii) : bool := ((97 <=? code c) && (code c <=? 122))%Z.
Definition is_alpha (c : ascii) : bool := is_upper c || is_lower c.
Definition is_alnum (c : ascii) : bool := is_alpha c || is_digit c.

Definition lower_char (c : ascii) : ascii :=
  if is_upper c then ascii_of_N (N_of_ascii c + 32)%N else c.
Definition upper_char (c : ascii) : ascii :=
  if is_lower c then ascii_of_N (N_of_ascii c - 32)%N else c.
Definition str_lower (s : string) : string := of_chars (map lower_char (chars s)).
Definition str_upper (s : string) : string := of_chars (map upper_char (chars s)).

Fixpoint drop_while {A} (p : A → bool) (l : list A) : list A :=
  match l with
  | [] => []
  | x :: l' => if p x then drop_while p l' else l
  end.
Definition rdrop_while {A} (p : A → bool) (l : list A) : list A :=
  reverse (drop_while p (reverse l)).

Definition str_strip (s : string) : string :=
  of_chars (rdrop_while is_space (drop_while is_space (chars s))).
(** [s.rstrip(c)] *)
Definition str_rstrip (c : ascii) (s : string) : string :=
  of_chars (rdrop_while (λ x, bool_decide (x = c)) (chars s)).

(** [s.split(c)]: never empty. *)
Fixpoint split_chars (c : ascii) (l : list ascii) : list (list ascii) :=
  match l with
  | [] => [[]]
  | x :: l' =>
      if bool_decide (x = c) then [] :: split_chars c l'
      else match split_chars c l' with
           | p :: ps => (x :: p) :: ps
           | [] => [[x]]
           end
  end.
Definition str_split (c : ascii) (s : string) : list string :=
  map of_chars (split_chars c (chars s)).

(** [sep.join(parts)] *)
Fixpoint str_join (sep : string) (parts : list string) : string :=
  match parts with
  | [] => EmptyString
  | [p] => p
  | p :: ps => (p ++ sep ++ str_join sep ps)%string
  end.

Definition str_startswith (p s : string) : bool := String.prefix p s.
Definition str_endswith (p s : string) : bool :=
  (String.length p <=? String.length s)
  && bool_decide (drop (String.length s - String.length p) (chars s) = chars p).

Definition str_ltb (a b : string) : bool := String.ltb a b.

(** Digits to a number; [None] on any other character or an empty text. *)
Definition digits_value (l : list ascii) : option Z :=
  if (negb (bool_decide (l = []))) && forallb is_digit l
  then Some (foldl (λ n c, n * 10 + (code c - 48))%Z 0%Z l)
  else None.

(** * Bytes *)

(** A byte string: one integer in [0, 256) per byte. *)
Abbreviation bytes := (list Z).

Definition is_byte (b : Z) : Prop := (0 ≤ b < 256)%Z.
Definition bytes_of_string (s : string) : bytes := map code (chars s).

(** [data[i]], used only where the code has checked the length. *)
Definition u8 (d : bytes) (i : nat) : Z := default 0%Z (d !! i).
(** [struct.unpack_from('!H', d, i)], used only where the length was checked. *)
Definition u16 (d : bytes) (i : nat) : Z := (u8 d i * 256 + u8 d (S i))%Z.
Definition u32 (d : bytes) (i : nat) : Z := (u16 d i * 65536 + u16 d (S (S i)))%Z.

(** [struct.unpack_from] needs [n] bytes at [i]. *)
Definition has_bytes (d : bytes) (i n : nat) : bool := (i + n <=? List.length d)%nat.

(** * Automation *)

Create HintDb py.

(** Splits every [if], [match] and [decide] in hypotheses and goal. *)
Ltac crush_match :=
  repeat first
    [ progress simplify_eq/=
    | case_match
    | case_decide ].

(** Turns boolean tests into propositions. *)
Ltac bool_prop :=
  repeat match goal with
  | H : _ && _ = true |- _ => apply andb_true_iff in H as [? ?]
  | H : _ || _ = false |- _ => apply orb_false_iff in H as [? ?]
  | H : negb _ = true |- _ => apply negb_true_iff in H
  | H : negb _ = false |- _ => apply negb_false_iff in H
  | H : bool_decide _ = true |- _ => apply bool_decide_eq_true in H
  | H : bool_decide _ = false |- _ => apply bool_decide_eq_false in H
  | H : (_ =? _)%Z = true |- _ => apply Z.eqb_eq in H
  | H : (_ =? _)%Z = false |- _ => apply Z.eqb_neq in H
  | H : (_ <=? _)%Z = true |- _ => apply Z.leb_le in H
  | H : (_ <=? _)%Z = false |- _ => apply Z.leb_gt in H
  | H : (_ <? _)%Z = true |- _ => apply Z.ltb_lt in H
  | H : (_ <? _)%Z = false |- _ => apply Z.ltb_ge in H
  | H : (_ <=? _)%nat = true |- _ => apply Nat.leb_le in H
  | H : (_ <=? _)%nat = false |- _ => apply Nat.leb_gt in H
  | H : (_ <? _)%nat = true |- _ => apply Nat.ltb_lt in H
  | H : (_ <? _)%nat = false |- _ => apply Nat.ltb_ge in H
  | H : (_ =? _)%nat = true |- _ => apply Nat.eqb_eq in H
  | H : (_ =? _)%nat = false |- _ => apply Nat.eqb_neq in H
  end.

(** Case split on a true disjunction of tests. *)
Ltac or_cases :=
  repeat match goal with
  | H : _ || _ = true |- _ => apply orb_true_iff in H as [H|H]
  end; bool_prop.

(** * Lemmas on the helpers *)

Lemma bind_ok {A B} (m : res A) (f : A → res B) b :
  m ≫= f = Ok b → ∃ a, m = Ok a ∧ f a = Ok b.
Proof. destruct m; simpl; [eauto | discriminate]. Qed.

Lemma raise_if_ok b k msg x : raise_if b k msg = Ok x → b = false.
Proof. by destruct b. Qed.

Lemma res_fold_app {A S} (f : S → A → res S) s l1 l2 :
  res_fold f s (l1 ++ l2) = (s' ← res_fold f s l1; res_fold f s' l2).
Proof.
  revert s. induction l1 as [|x l1 IH]; intros s; simpl; [done|].
  destruct (f s x); simpl; [apply IH|done].
Qed.

Lemma insert_by_perm {A} (lt : A → A → bool) x l : insert_by lt x l ≡ₚ x :: l.
Proof.
  induction l as [|y l IH]; simpl; [done|].
  destruct (lt x y); [done|]. rewrite IH. constructor.
Qed.

Lemma foldl_insert_by_perm {A} (lt : A → A → bool) l acc :
  foldl (λ acc x, insert_by lt x acc) acc l ≡ₚ l ++ acc.
Proof.
  revert acc. induction l as [|x l IH]; intros acc; simpl; [done|].
  rewrite IH, insert_by_perm. symmetry. apply Permutation_middle.
Qed.

Lemma sort_by_perm {A} (lt : A → A → bool) l : sort_by lt l ≡ₚ l.
Proof. unfold sort_by. rewrite foldl_insert_by_perm. by rewrite app_nil_r. Qed.

Lemma elem_of_sort_by {A} (lt : A → A → bool) l x : x ∈ sort_by lt l ↔ x ∈ l.
Proof. by rewrite sort_by_perm. Qed.

Lemma length_sort_by {A} (lt : A → A → bool) l : length (sort_by lt l) = length l.
Proof. by rewrite sort_by_perm. Qed.

Lemma foldl_min_elem {A} (lt : A → A → bool) l m :
  foldl (λ m y, if lt y m then y else m) m l ∈ m :: l.
Proof.
  revert m. induction l as [|y l IH]; intros m; simpl; [by left|].
  specialize (IH (if lt y m then y else m)).
  rewrite elem_of_cons in IH |- *. rewrite elem_of_cons.
  destruct (lt y m), IH as [->|IH]; auto.
Qed.

Lemma min_by_elem {A} (lt : A → A → bool) l x : min_by lt l = Some x → x ∈ l.
Proof.
  destruct l as [|y l]; simpl; [done|]. intros [= <-]. apply foldl_min_elem.
Qed.

Lemma min_by_none {A} (lt : A → A → bool) l : min_by lt l = None ↔ l = [].
Proof. destruct l; simpl; naive_solver. Qed.

Section ordering.
  Context {A : Type} (lt : A → A → bool).
  Context (lt_trans : ∀ x y z, lt x y = true → lt y z = true → lt x z = true).
  Context (lt_total : ∀ x y z, lt x y = false → lt y z = false → lt x z = false).

  (** No element of [l] is strictly below its [min_by]. *)
Lemma min_by_minimal l x y : (∀ z, lt z z = false) →
    min_by lt l = Some x → y ∈ l → lt y x = false.
  Proof using lt_trans lt_total.
    intros irr. destruct l as [|a l]; simpl; [done|]. intros [= <-].
    revert a y. induction l as [|b l IH]; intros a y Hy; simpl.
    { apply list_elem_of_singleton in Hy as ->. apply irr. }
    assert (Hle : lt (if lt b a then b else a)
                     (foldl (λ m y, if lt y m then y else m) (if lt b a then b else a) l) = false)
      by (apply IH; left).
    apply elem_of_cons in Hy as [->|[->|Hy]%elem_of_cons].
    - destruct (lt b a) eqn:E; [|done].
      eapply lt_total; [|exact Hle].
      destruct (lt a b) eqn:E'; [|done].
      pose proof (lt_trans _ _ _ E E') as F. by rewrite irr in F.
    - destruct (lt b a) eqn:E; [done|]. eapply lt_total; eauto.
    - apply IH. by right.
  Qed.
End ordering.

(** The order of texts is strict and total. *)
Lemma str_compare_order a b : String.compare a b = String_as_OT.compare a b.
Proof. revert b. induction a as [|x a IH]; intros [|y b]; simpl; [done..|]. unfold Ascii.compare. by rewrite IH. Qed.

Lemma str_ltb_lt a b : str_ltb a b = true ↔ String_as_OT.lt a b.
Proof.
  unfold str_ltb, String.ltb, String_as_OT.lt. rewrite str_compare_order.
  by destruct (String_as_OT.compare a b).
Qed.

Lemma str_ltb_trans a b c : str_ltb a b = true → str_ltb b c = true → str_ltb a c = true.
Proof. rewrite !str_ltb_lt. apply (StrictOrder_Transitive (R := String_as_OT.lt)). Qed.

Lemma str_ltb_irrefl a : str_ltb a a = false.
Proof. apply not_true_is_false. rewrite str_ltb_lt. apply (StrictOrder_Irreflexive (R := String_as_OT.lt)). Qed.

Lemma str_ltb_total a b : a ≠ b → str_ltb a b = negb (str_ltb b a).
Proof.
  intros Hab. destruct (str_ltb b a) eqn:E; simpl.
  - apply not_true_is_false. intros F. pose proof (str_ltb_trans _ _ _ E F) as G. by rewrite str_ltb_irrefl in G.
  - apply str_ltb_lt. destruct (String_as_OT.compare_spec a b) as [F|F|F]; [done|done|].
    apply str_ltb_lt in F. congruence.
Qed.

Section insertion.
  Context {A : Type} (lt : A → A → bool).
  Context (lt_trans : ∀ x y z, lt x y = true → lt y z = true → lt x z = true).

  (** Elements in strict order may be inserted in either order. *)
Lemma insert_by_swap x y l : lt x y = true → lt y x = false →
    insert_by lt x (insert_by lt y l) = insert_by lt y (insert_by lt x l).
  Proof using lt_trans.
    intros Hxy Hyx. induction l as [|z l IH]; simpl; [by rewrite Hxy, Hyx|].
    destruct (lt y z) eqn:Hyz; simpl.
    - rewrite (lt_trans _ _ _ Hxy Hyz). simpl. rewrite Hxy, Hyx. simpl. by rewrite Hyz.
    - destruct (lt x z) eqn:Hxz; simpl; rewrite ?Hyx, ?Hyz; simpl; rewrite ?Hyz; [done|]. by rewrite IH.
  Qed.
End insertion.

Lemma size_list_to_set_le `{Countable A} (l : list A) :
  size (list_to_set l : gset A) ≤ length l.
Proof.
  induction l as [|x l IH]; [done|].
  rewrite list_to_set_cons, size_union_alt, size_singleton. simpl.
  pose proof (subseteq_size (list_to_set l ∖ {[x]} : gset A) (list_to_set l) ltac:(set_solver)).
  lia.
Qed.

Lemma filter_true {A} (P : A → Prop) `{∀ x, Decision (P x)} (l : list A) :
  (∀ x, x ∈ l → P x) → filter P l = l.
Proof.
  induction l as [|x l IH]; intros HP; [done|].
  rewrite filter_cons_True by (apply HP; left). rewrite IH; [done|].
  intros y Hy. apply HP. by right.
Qed.

Lemma filter_false {A} (P : A → Prop) `{∀ x, Decision (P x)} (l : list A) :
  (∀ x, x ∈ l → ¬ P x) → filter P l = [].
Proof.
  induction l as [|x l IH]; intros HP; [done|].
  rewrite filter_cons_False by (apply HP; left). apply IH. intros y Hy. apply HP. by right.
Qed.

Lemma filter_ext_in {A} (P Q : A → Prop) `{∀ x, Decision (P x)} `{∀ x, Decision (Q x)} (l : list A) :
  (∀ x, x ∈ l → P x ↔ Q x) → filter P l = filter Q l.
Proof.
  induction l as [|x l IH]; intros HPQ; [done|]. rewrite !filter_cons, IH.
  - pose proof (HPQ x ltac:(by left)). repeat case_decide; tauto.
  - intros y Hy. apply HPQ. by right.
Qed.

Lemma take_imap {A B} (f : nat → A → B) (l : list A) n : take n (imap f l) = imap f (take n l).
Proof.
  revert f n. induction l as [|x l IH]; intros f [|n]; simpl; [done..|]. by rewrite IH.
Qed.

Lemma list_find_last {A} (P : A → Prop) `{∀ x, Decision (P x)} (l : list A) x :
  x ∈ l → P x → ∃ l1 y l2, l = l1 ++ y :: l2 ∧ P y ∧ ∀ z, z ∈ l2 → ¬ P z.
Proof.
  induction l as [|b l IH] using rev_ind; intros Hx HP; [by apply not_elem_of_nil in Hx|].
  destruct (decide (P b)) as [Hb|Hb].
  - exists l, b, []. split; [done|]. split; [done|]. by intros z ?%not_elem_of_nil.
  - apply elem_of_app in Hx as [Hx|Hx%list_elem_of_singleton]; [|by subst].
    destruct (IH Hx HP) as (l1 & c & l2 & -> & Hc & Hl2). exists l1, c, (l2 ++ [b]).
    rewrite <- app_assoc. split; [done|]. split; [done|].
    intros z [?|Hz%list_elem_of_singleton]%elem_of_app; [by apply Hl2|by subst].
Qed.

Lemma NoDup_map_inj {A B} (f : A → B) (l : list A) x y :
  NoDup (map f l) → x ∈ l → y ∈ l → f x = f y → x = y.
Proof.
  induction l as [|a l IH]; intros Hnd Hx Hy E; [by apply not_elem_of_nil in Hx|].
  apply NoDup_cons in Hnd as [Ha Hnd].
  apply elem_of_cons in Hx as [->|Hx]; apply elem_of_cons in Hy as [->|Hy]; [done| | |by apply IH].
  - destruct Ha. apply list_elem_of_fmap. by exists y.
  - destruct Ha. apply list_elem_of_fmap. by exists x.
Qed.

Lemma length_slice {A} (l : list A) a b :
  length (slice l a b) = Nat.min (b - a) (length l - a).
Proof. unfold slice. by rewrite length_take, length_drop. Qed.

Lemma u8_byte d i : Forall is_byte d → is_byte (u8 d i).
Proof.
  intros Hd. unfold u8. destruct (d !! i) eqn:E; simpl; [|unfold is_byte; lia].
  by eapply Forall_lookup_1.
Qed.

Lemma u16_bound d i : Forall is_byte d → (0 ≤ u16 d i < 65536)%Z.
Proof.
  intros Hd. unfold u16. pose proof (u8_byte d i Hd). pose proof (u8_byte d (S i) Hd).
  unfold is_byte in *. lia.
Qed.

#[export] Hint Resolve u8_byte u16_bound : py.
