(* ===== verification/OrderedDict.v ===== *)
(** [collections.OrderedDict] as an association list in iteration order, with
    the operations the packet policy, the DNS allowlist and the relay broker
    use, and the lemmas on keys, lookups and sizes their invariants share. *)

From S2P Require Import Prelude.

Section odict.
  Context {K V : Type} `{EqDecision K}.

Definition keys (d : list (K * V)) : list K := d.*1.

Fixpoint od_get (k : K) (d : list (K * V)) : option V :=
  match d with
  | [] => None
  | (k', v) :: d => if decide (k = k') then Some v else od_get k d
  end.

(** [d[k] = v]: keeps the position of a key that is present. *)
Fixpoint od_set (k : K) (v : V) (d : list (K * V)) : list (K * V) :=
  match d with
  | [] => [(k, v)]
  | (k', v') :: d => if decide (k = k') then (k, v) :: d else (k', v') :: od_set k v d
  end.

(** [d.pop(k, None)] and [del d[k]] *)
Definition od_del (k : K) (d : list (K * V)) : list (K * V) :=
  filter (λ p, p.1 ≠ k) d.

(** [d.move_to_end(k)] *)
Definition od_to_end (k : K) (d : list (K * V)) : list (K * V) :=
  match od_get k d with
  | Some v => od_del k d ++ [(k, v)]
  | None => d
  end.

(** [d.move_to_end(k, last=False)] *)
Definition od_to_front (k : K) (d : list (K * V)) : list (K * V) :=
  match od_get k d with
  | Some v => (k, v) :: od_del k d
  | None => d
  end.

(** [while len(d) > n: d.popitem(last=False)] *)
Definition od_trim (n : nat) (d : list (K * V)) : list (K * V) :=
  drop (length d - n) d.

(** The writes of the bounded tables: set, move to the end. *)
Definition od_touch (k : K) (v : V) (d : list (K * V)) : list (K * V) :=
  od_to_end k (od_set k v d).

Definition od_wf (d : list (K * V)) : Prop := NoDup (keys d).

Lemma od_get_elem k v d : od_get k d = Some v → (k, v) ∈ d.
Proof.
  induction d as [|[k' v'] d IH]; simpl; [done|].
  case_decide; intros; simplify_eq; [left | right; auto].
Qed.

Lemma od_get_elem_keys k d : k ∈ keys d ↔ is_Some (od_get k d).
Proof.
  induction d as [|[k' v'] d IH]; simpl.
  { split; [by intros ?%not_elem_of_nil | by intros [? ?]]. }
  rewrite elem_of_cons, IH. case_decide; subst; split; eauto. by intros [?|?].
Qed.

Lemma od_get_none k d : od_get k d = None ↔ k ∉ keys d.
Proof.
  rewrite od_get_elem_keys. by rewrite eq_None_not_Some.
Qed.

Lemma od_get_wf k v d : od_wf d → (k, v) ∈ d → od_get k d = Some v.
Proof.
  unfold od_wf. induction d as [|[k' v'] d IH]; simpl; [by intros _ ?%not_elem_of_nil|].
  intros [Hk Hd]%NoDup_cons [E|E]%elem_of_cons; [by simplify_eq; rewrite decide_True |].
  case_decide; [subst | auto].
  destruct Hk. apply list_elem_of_fmap. by exists (k', v).
Qed.

Lemma od_get_set k k' v d :
  od_get k (od_set k' v d) = if decide (k = k') then Some v else od_get k d.
Proof.
  induction d as [|[k0 v0] d IH]; simpl; [done|].
  repeat (case_decide; simpl); simplify_eq; try done; rewrite ?IH; repeat case_decide; done.
Qed.

Lemma keys_set k v d : keys (od_set k v d) = if decide (k ∈ keys d) then keys d else keys d ++ [k].
Proof.
  induction d as [|[k' v'] d IH]; simpl; [done|].
  destruct (decide (k = k')) as [->|E]; simpl.
  { by rewrite decide_True by left. }
  rewrite IH. destruct (decide (k ∈ keys d)) as [F|F].
  - by rewrite decide_True by (by right).
  - rewrite decide_False; [done|]. by rewrite elem_of_cons; intros [?|?].
Qed.

Lemma length_od_set k v d : k ∈ keys d → length (od_set k v d) = length d.
Proof.
  intros Hk. pose proof (keys_set k v d) as E. rewrite decide_True in E by done.
  apply (f_equal length) in E. unfold keys in E. by rewrite !length_fmap in E.
Qed.

Lemma od_wf_set k v d : od_wf d → od_wf (od_set k v d).
Proof.
  unfold od_wf. rewrite keys_set. case_decide; [done|]. intros Hd.
  apply NoDup_app; split_and!; [done | | apply NoDup_singleton].
  intros x Hx ->%list_elem_of_singleton. done.
Qed.

Lemma elem_of_od_del p k d : p ∈ od_del k d ↔ p ∈ d ∧ p.1 ≠ k.
Proof. unfold od_del. rewrite list_elem_of_filter. tauto. Qed.

Lemma od_get_del k k' d :
  od_get k (od_del k' d) = if decide (k = k') then None else od_get k d.
Proof.
  unfold od_del. induction d as [|[k0 v0] d IH]; simpl; [by case_decide|].
  rewrite filter_cons. simpl.
  repeat (case_decide; simpl); simplify_eq; try done;
    rewrite IH; repeat case_decide; simplify_eq; done.
Qed.

Lemma od_wf_del k d : od_wf d → od_wf (od_del k d).
Proof.
  unfold od_wf, od_del. induction d as [|[k' v'] d IH]; simpl; [done|].
  intros [Hk Hd]%NoDup_cons. rewrite filter_cons. case_decide; simpl; [|auto].
  apply NoDup_cons; split; [|auto]. intros Hin. apply Hk.
  apply list_elem_of_fmap in Hin as (p & -> & Hp).
  apply list_elem_of_filter in Hp as [_ Hp]. apply list_elem_of_fmap. eauto.
Qed.

Lemma length_od_del k d : length (od_del k d) ≤ length d.
Proof. apply length_filter. Qed.

Lemma length_od_del_lt k d : k ∈ keys d → length (od_del k d) < length d.
Proof.
  unfold od_del. induction d as [|[k' v'] d IH]; simpl; [by intros ?%not_elem_of_nil|].
  intros [->|H]%elem_of_cons; rewrite filter_cons; case_decide; simpl in *.
  - done.
  - pose proof (length_filter (λ p : K * V, p.1 ≠ k') d). lia.
  - specialize (IH H). lia.
  - specialize (IH H). lia.
Qed.

Lemma od_get_app k d1 d2 :
  od_get k (d1 ++ d2) = match od_get k d1 with Some v => Some v | None => od_get k d2 end.
Proof. induction d1 as [|[k' v'] d1 IH]; simpl; [done|]. by case_decide. Qed.

Lemma od_get_to_end k k' d : od_get k (od_to_end k' d) = od_get k d.
Proof.
  unfold od_to_end. destruct (od_get k' d) eqn:E; [|done].
  rewrite od_get_app, od_get_del. simpl. case_decide; [by subst|].
  by destruct (od_get k d).
Qed.

Lemma od_get_to_front k k' d : od_get k (od_to_front k' d) = od_get k d.
Proof.
  unfold od_to_front. destruct (od_get k' d) eqn:E; [|done]. simpl.
  rewrite od_get_del. case_decide; by subst.
Qed.

Lemma not_elem_keys_del k d : k ∉ keys (od_del k d).
Proof. rewrite <- od_get_none, od_get_del. by rewrite decide_True. Qed.

Lemma od_wf_to_end k d : od_wf d → od_wf (od_to_end k d).
Proof.
  unfold od_to_end. destruct (od_get k d) eqn:E; [|done]. intros Hd.
  unfold od_wf, keys. rewrite fmap_app. apply NoDup_app. split_and!.
  - by apply od_wf_del.
  - intros x Hx Hk. simpl in Hk. apply list_elem_of_singleton in Hk as ->.
    by eapply not_elem_keys_del.
  - apply NoDup_singleton.
Qed.

Lemma od_wf_to_front k d : od_wf d → od_wf (od_to_front k d).
Proof.
  unfold od_to_front. destruct (od_get k d) eqn:E; [|done]. intros Hd.
  unfold od_wf. simpl. apply NoDup_cons. split; [apply not_elem_keys_del | by apply od_wf_del].
Qed.

Lemma od_wf_touch k v d : od_wf d → od_wf (od_touch k v d).
Proof. intros. by apply od_wf_to_end, od_wf_set. Qed.

Lemma od_get_touch k k' v d :
  od_get k (od_touch k' v d) = if decide (k = k') then Some v else od_get k d.
Proof. unfold od_touch. by rewrite od_get_to_end, od_get_set. Qed.

Lemma od_wf_drop n d : od_wf d → od_wf (drop n d).
Proof.
  unfold od_wf, keys. intros Hd. rewrite <- (take_drop n d), fmap_app in Hd.
  by apply NoDup_app in Hd as (_ & _ & Hd).
Qed.

Lemma od_wf_trim n d : od_wf d → od_wf (od_trim n d).
Proof. apply od_wf_drop. Qed.

Lemma length_od_trim n d : length (od_trim n d) ≤ n.
Proof. unfold od_trim. rewrite length_drop. lia. Qed.

Lemma elem_of_od_trim p n d : p ∈ od_trim n d → p ∈ d.
Proof.
  unfold od_trim. intros H. rewrite <- (take_drop (length d - n) d). set_solver.
Qed.

Lemma elem_of_od_set p k v d : p ∈ od_set k v d → p = (k, v) ∨ p ∈ d.
Proof.
  induction d as [|[k' v'] d IH]; simpl; [set_solver|].
  case_decide; rewrite !elem_of_cons; intros [?|?]; auto. destruct IH; auto.
Qed.

Lemma elem_of_od_to_end p k d : p ∈ od_to_end k d → p ∈ d.
Proof.
  unfold od_to_end. destruct (od_get k d) eqn:E; [|done].
  rewrite elem_of_app, elem_of_od_del, list_elem_of_singleton.
  intros [[? _]| ->]; [done | by apply od_get_elem].
Qed.

Lemma elem_of_od_touch p k v d : p ∈ od_touch k v d → p = (k, v) ∨ p ∈ d.
Proof. intros ?%elem_of_od_to_end. by apply elem_of_od_set. Qed.

  (** The key just written is the last one, so a trim to at least one entry keeps it. *)
Lemma od_touch_last k v d : ∃ d', od_touch k v d = d' ++ [(k, v)].
Proof.
  unfold od_touch, od_to_end. rewrite od_get_set, decide_True by done. eauto.
Qed.

Lemma od_trim_touch_get k v n d :
  od_wf d → 0 < n → od_get k (od_trim n (od_touch k v d)) = Some v.
Proof.
  intros Hd Hn. apply od_get_wf; [by apply od_wf_trim, od_wf_touch|].
  destruct (od_touch_last k v d) as [d' E]. unfold od_trim. rewrite E, length_app. simpl.
  rewrite drop_app_le by lia. set_solver.
Qed.
End odict.

#[export] Hint Resolve od_wf_set od_wf_del od_wf_to_end od_wf_to_front od_wf_touch
  od_wf_trim length_od_trim : py.
#[export] Hint Extern 1 (od_wf []) => apply NoDup_nil_2 : py.
