(* ===== verification/Paths.v ===== *)
(** Paths and bytes of files, as [pathlib] and the system give them: the parts of a path,
    its text and its parents, and a write at an offset. *)

From S2P Require Import Prelude.

#[local] Open Scope Z_scope.

(** * Paths *)

(** [Path(value).parts], without the root of an absolute path *)
Definition parts_of (value : string) : list string :=
  filter (λ p, p ≠ ""%string ∧ p ≠ "."%string) (str_split "/"%char value).

(** [str(path)] of a relative path *)
Definition path_text (parts : list string) : string :=
  match parts with [] => "." | _ => str_join "/" parts end.

(** [posixpath.normpath] of a relative path without [..] *)
Definition normpath (value : string) : string := path_text (parts_of value).

(** [posixpath.dirname] of a relative path, and of a path [posixpath.basename] *)
Definition dirname (value : string) : string :=
  str_join "/" (rdrop_while (λ c, bool_decide (c = ""%string)) (removelast (str_split "/"%char value))).
Definition basename (value : string) : string := default ""%string (last (str_split "/"%char value)).

(** [posixpath.join(a, b)] *)
Definition posix_join (a b : string) : string :=
  if str_startswith "/" b then b
  else if bool_decide (a = ""%string) || str_endswith "/" a then (a ++ b)%string
  else (a ++ "/" ++ b)%string.

(** [value.removeprefix(p)] *)
Definition remove_prefix (p value : string) : string :=
  if str_startswith p value then of_chars (drop (String.length p) (chars value)) else value.

(** [path.parents], without the path itself *)
Definition proper_prefixes {A} (l : list A) : list (list A) := map (λ n, take n l) (seq 0 (length l)).

Lemma elem_of_proper_prefixes {A} (l q : list A) : q ∈ proper_prefixes l ↔ ∃ r, r ≠ [] ∧ l = q ++ r.
Proof.
  unfold proper_prefixes. rewrite list_elem_of_In, in_map_iff. split.
  - intros (n & <- & Hn%in_seq). exists (drop n l). split; [|by rewrite take_drop].
    intros Hd. apply (f_equal length) in Hd. rewrite length_drop in Hd. simpl in Hd. lia.
  - intros (r & Hr & ->). exists (length q). rewrite take_app_length. split; [done|].
    apply in_seq. rewrite length_app. destruct r; simpl; [done|]. lia.
Qed.

(** * Bytes *)

(** [stream.seek(offset); stream.write(data)]: the gap is filled with zeros; no bytes, no write *)
Definition write_at (b : bytes) (offset : nat) (data : bytes) : bytes :=
  match data with
  | [] => b
  | _ => take offset (b ++ replicate (offset - length b) 0) ++ data ++ drop (offset + length data) b
  end.

(** [stream.truncate(size)] *)
Definition truncate_to (size : nat) (b : bytes) : bytes := take size (b ++ replicate (size - length b) 0).

Lemma lookup_write_at b offset data j : data ≠ [] →
  write_at b offset data !! j =
    if decide (j < offset)%nat then (b ++ replicate (offset - length b) 0) !! j
    else if decide (j < offset + length data)%nat then data !! (j - offset)%nat else b !! j.
Proof.
  intros Hdata. assert (Hw : write_at b offset data =
    take offset (b ++ replicate (offset - length b) 0) ++ data ++ drop (offset + length data) b) by by destruct data.
  rewrite Hw. set (front := b ++ replicate (offset - length b) 0).
  assert (Hf : length (take offset front) = offset)
    by (unfold front; rewrite length_take, length_app, length_replicate; lia).
  destruct (decide (j < offset)%nat) as [Hj|Hj].
  - rewrite lookup_app_l by lia. by rewrite lookup_take_lt.
  - rewrite lookup_app_r, Hf by lia. destruct (decide (j < offset + length data)%nat).
    + by rewrite lookup_app_l by lia.
    + rewrite lookup_app_r, lookup_drop by lia. f_equal. lia.
Qed.

Lemma length_write_at b offset data : data ≠ [] → length (write_at b offset data) = Nat.max (offset + length data) (length b).
Proof.
  intros Hdata. unfold write_at. destruct data as [|x data]; [done|].
  rewrite !length_app, length_take, length_app, length_replicate, length_drop. simpl. lia.
Qed.

(** A write at the end appends. *)
Lemma write_at_end b data : write_at b (length b) data = b ++ data.
Proof.
  destruct data as [|x data]; [by rewrite app_nil_r|]. unfold write_at.
  rewrite Nat.sub_diag. simpl. rewrite app_nil_r, take_ge, drop_ge by (simpl; lia). by rewrite app_nil_r.
Qed.

(** The same write again changes nothing. *)
Lemma write_at_again b offset data : write_at (write_at b offset data) offset data = write_at b offset data.
Proof.
  destruct (decide (data = [])) as [->|Hd]; [done|]. apply list_eq. intros j.
  rewrite (lookup_write_at (write_at b offset data)) by done. pose proof (length_write_at b offset data Hd) as Hl.
  assert (0 < length data)%nat by (destruct data; simpl; [done|lia]).
  rewrite (lookup_write_at b) by done.
  destruct (decide (j < offset)%nat).
  - rewrite lookup_app_l by lia. rewrite lookup_write_at by done. by rewrite decide_True.
  - by destruct (decide (j < offset + length data)%nat).
Qed.

Lemma truncate_to_ge size b : size = length b → truncate_to size b = b.
Proof. intros ->. unfold truncate_to. rewrite Nat.sub_diag. simpl. by rewrite app_nil_r, take_ge. Qed.

(** * Names *)

(** A name that a directory can hold *)
Definition name_ok (c : string) : bool :=
  negb (bool_decide (c = "" ∨ c = "."%string ∨ c = ".."%string)) && forallb (λ x, negb (bool_decide (x = "/"%char))) (chars c).

Lemma chars_append a b : chars (a ++ b)%string = chars a ++ chars b.
Proof. induction a as [|x a IH]; [done|]. change (x :: chars (a ++ b)%string = x :: (chars a ++ chars b)). by rewrite IH. Qed.

Lemma of_chars_chars s : of_chars (chars s) = s.
Proof. apply String.string_of_list_ascii_of_string. Qed.

Lemma split_chars_one c l : forallb (λ x, negb (bool_decide (x = c))) l = true → split_chars c l = [l].
Proof.
  induction l as [|x l IH]; simpl; [done|]. intros [Hx Hl]%andb_true_iff.
  apply negb_true_iff in Hx. by rewrite Hx, (IH Hl).
Qed.

Lemma split_chars_sep c l l' : forallb (λ x, negb (bool_decide (x = c))) l = true →
  split_chars c (l ++ c :: l') = l :: split_chars c l'.
Proof.
  induction l as [|x l IH]; simpl; [by rewrite bool_decide_true by done|]. intros [Hx Hl]%andb_true_iff.
  apply negb_true_iff in Hx. by rewrite Hx, (IH Hl).
Qed.

Lemma filter_name c : name_ok c = true → c ≠ ""%string ∧ c ≠ "."%string.
Proof. unfold name_ok. intros [H%negb_true_iff _]%andb_true_iff. apply bool_decide_eq_false in H. naive_solver. Qed.

Lemma name_slash c : name_ok c = true → forallb (λ x, negb (bool_decide (x = "/"%char))) (chars c) = true.
Proof. unfold name_ok. by intros [_ ?]%andb_true_iff. Qed.

(** The parts of joined names are the names. *)
Lemma parts_of_join ps : forallb name_ok ps = true → parts_of (str_join "/" ps) = ps.
Proof.
  unfold parts_of, str_split. induction ps as [|p ps IH]; intros Hps; [done|]. simpl in Hps.
  apply andb_true_iff in Hps as [Hp Hps]. specialize (IH Hps).
  pose proof (filter_name p Hp) as Hn. pose proof (name_slash p Hp) as Hs.
  destruct ps as [|p' ps].
  - simpl. rewrite split_chars_one by done. simpl map. by rewrite of_chars_chars, filter_cons, decide_True.
  - change (str_join "/" (p :: p' :: ps)) with (p ++ "/" ++ str_join "/" (p' :: ps))%string.
    rewrite !chars_append. change (chars "/" ++ ?l) with ("/"%char :: l). rewrite split_chars_sep by done. simpl map.
    rewrite of_chars_chars, filter_cons, decide_True by done. by f_equal.
Qed.

Lemma parts_of_slash s : parts_of ("/" ++ s)%string = parts_of s.
Proof.
  unfold parts_of, str_split. rewrite chars_append. change (chars "/") with ["/"%char]. simpl map. by rewrite filter_cons, decide_False by (by intros [? _]).
Qed.

(** No part of a path has a slash. *)
Lemma split_chars_none c l p : p ∈ split_chars c l → forallb (λ x, negb (bool_decide (x = c))) p = true.
Proof.
  revert p. induction l as [|x l IH]; simpl; intros p Hp; [by apply list_elem_of_singleton in Hp as ->|].
  case_bool_decide as Hx.
  - apply elem_of_cons in Hp as [->|Hp]; auto.
  - destruct (split_chars c l) as [|q qs] eqn:Es; [apply list_elem_of_singleton in Hp as ->; simpl; by rewrite bool_decide_false|].
    apply elem_of_cons in Hp as [->|Hp]; [|apply IH; by right]. simpl. rewrite bool_decide_false by done. apply IH. by left.
Qed.

Lemma parts_of_slashless s c : c ∈ parts_of s → forallb (λ x, negb (bool_decide (x = "/"%char))) (chars c) = true.
Proof.
  unfold parts_of, str_split. intros [_ Hc]%list_elem_of_filter. apply list_elem_of_In, in_map_iff in Hc as (p & <- & Hp).
  rewrite String.list_ascii_of_string_of_list_ascii. by apply (split_chars_none "/"%char (chars s)), list_elem_of_In.
Qed.

(** A part other than [..] is a name. *)
Lemma parts_of_names s : ".."%string ∉ str_split "/"%char s → forallb name_ok (parts_of s) = true.
Proof.
  intros Hs. apply forallb_forall. intros c Hc%list_elem_of_In. unfold name_ok. rewrite (parts_of_slashless s c Hc), andb_true_r.
  apply negb_true_iff, bool_decide_eq_false. unfold parts_of in Hc. apply list_elem_of_filter in Hc as [[H1 H2] Hc]. intros [?|[?|He]]; [done|done|by subst c].
Qed.

Lemma str_split_join ps : ps ≠ [] → forallb name_ok ps = true → str_split "/"%char (str_join "/" ps) = ps.
Proof.
  unfold str_split. induction ps as [|p ps IH]; intros Hne Hps; [done|]. simpl in Hps. apply andb_true_iff in Hps as [Hp Hps].
  pose proof (name_slash p Hp) as Hs. destruct ps as [|p' ps].
  - simpl. rewrite split_chars_one by done. simpl map. by rewrite of_chars_chars.
  - change (str_join "/" (p :: p' :: ps)) with (p ++ "/" ++ str_join "/" (p' :: ps))%string.
    rewrite !chars_append. change (chars "/" ++ ?l) with ("/"%char :: l). rewrite split_chars_sep by done. simpl map.
    rewrite of_chars_chars. f_equal. by apply IH.
Qed.

Lemma path_split ps : forallb name_ok ps = true → str_split "/"%char (path_text ps) = match ps with [] => ["."%string] | _ => ps end.
Proof. intros Hps. destruct ps as [|p ps]; [done|]. by apply str_split_join. Qed.

Lemma parts_of_path ps : forallb name_ok ps = true → parts_of (path_text ps) = ps.
Proof. intros Hps. destruct ps as [|p ps]; [done|]. by apply parts_of_join. Qed.

Lemma path_text_inj ps qs : forallb name_ok ps = true → forallb name_ok qs = true → path_text ps = path_text qs → ps = qs.
Proof. intros Hp Hq He. by rewrite <- (parts_of_path ps), <- (parts_of_path qs), He. Qed.

Lemma names_app ps qs : forallb name_ok (ps ++ qs) = true ↔ forallb name_ok ps = true ∧ forallb name_ok qs = true.
Proof. by rewrite forallb_app, andb_true_iff. Qed.

Lemma names_one x : forallb name_ok [x] = name_ok x.
Proof. simpl. by rewrite andb_true_r. Qed.

Lemma rdrop_while_none {A} (p : A → bool) l : forallb (λ x, negb (p x)) l = true → rdrop_while p l = l.
Proof.
  intros Hl. unfold rdrop_while. assert (H : drop_while p (reverse l) = reverse l).
  { destruct (reverse l) as [|x r] eqn:E; [done|]. simpl. assert (Hx : x ∈ l) by (apply elem_of_reverse; rewrite E; by left).
    rewrite forallb_forall in Hl. specialize (Hl x). rewrite <- list_elem_of_In in Hl. apply Hl in Hx. by destruct (p x). }
  rewrite H. apply reverse_involutive.
Qed.

(** The directory and the name of a path *)
Lemma dirname_path ps x : forallb name_ok (ps ++ [x]) = true → dirname (path_text (ps ++ [x])) = str_join "/" ps.
Proof.
  intros Hps. unfold dirname. rewrite path_split by done. destruct (ps ++ [x]) as [|q qs] eqn:E; [by destruct ps|]. rewrite <- E, removelast_last.
  f_equal. apply rdrop_while_none. rewrite <- E in Hps. apply names_app in Hps as [Hps _].
  rewrite forallb_forall in *. intros y Hy. specialize (Hps y Hy). apply filter_name in Hps as [? _]. by rewrite bool_decide_false.
Qed.

Lemma basename_path ps x : forallb name_ok (ps ++ [x]) = true → basename (path_text (ps ++ [x])) = x.
Proof.
  intros Hps. unfold basename. rewrite path_split by done. destruct (ps ++ [x]) as [|q qs] eqn:E; [by destruct ps|]. by rewrite <- E, last_snoc.
Qed.

Lemma split_chars_some c l : split_chars c l ≠ [].
Proof. destruct l as [|x l]; simpl; [done|]. destruct (bool_decide _); [done|]. by destruct (split_chars c l). Qed.

Lemma startswith_app p s : str_startswith p s = true → ∃ r, s = (p ++ r)%string.
Proof.
  unfold str_startswith. revert s. induction p as [|c p IH]; intros s; [by exists s|].
  destruct s as [|c' s]; cbn [String.prefix]; [done|]. destruct (ascii_dec c c') as [<-|]; [|done].
  intros [r ->]%IH. by exists r.
Qed.

Lemma path_no_dot ps : forallb name_ok ps = true → remove_prefix "./" (path_text ps) = path_text ps.
Proof.
  intros Hps. unfold remove_prefix. destruct (str_startswith "./" (path_text ps)) eqn:E; [exfalso|done].
  apply startswith_app in E as [r E]. apply (f_equal (str_split "/"%char)) in E. rewrite path_split in E by done.
  unfold str_split in E. change (chars ("./" ++ r)) with ("."%char :: "/"%char :: chars r) in E. simpl in E.
  destruct ps as [|p ps].
  - injection E as E. symmetry in E. apply map_eq_nil in E. by apply split_chars_some in E.
  - injection E as -> ->. done.
Qed.
