(* ===== verification/Ipv4.v ===== *)
(** The part of Python's [ipaddress] the policy uses: dotted-quad and network
    parsing (prefix length, netmask or hostmask), membership, and the address
    classes of the IANA special registry as [IPv4Address] answers them. An
    address is its 32-bit integer. *)

From S2P Require Import Prelude.
Local Open Scope Z_scope.

Record network := Network { net_addr : Z; net_plen : Z }.

#[export] Instance network_eq_dec : EqDecision network.
Proof. solve_decision. Defined.

Definition all_ones : Z := 2 ^ 32 - 1.

(** [_parse_octet] *)
Definition parse_octet (s : string) : option Z :=
  let l := chars s in
  if (3 <? length l)%nat then None
  else if match l with c :: _ :: _ => bool_decide (c = "0"%char) | _ => false end then None
  else n ← digits_value l; if n <=? 255 then Some n else None.

(** [int(IPv4Address(s))] for a string; [None] is [AddressValueError]. *)
Definition ip_of_string (s : string) : option Z :=
  match str_split "." s with
  | [a; b; c; d] =>
      a ← parse_octet a; b ← parse_octet b; c ← parse_octet c; d ← parse_octet d;
      Some (((a * 256 + b) * 256 + c) * 256 + d)
  | _ => None
  end.

Definition netmask (plen : Z) : Z := Z.lxor all_ones (Z.shiftr all_ones plen).

(** [_prefix_from_ip_int]: ones followed by zeroes. *)
Definition prefix_of_mask (mask : Z) : option Z :=
  find (λ p, netmask p =? mask) (map Z.of_nat (seq 0 33)).

(** [_make_netmask]: a prefix length, a netmask or a hostmask. *)
Definition prefix_of_string (s : string) : option Z :=
  match digits_value (chars s) with
  | Some n => if n <=? 32 then Some n else None
  | None =>
      mask ← ip_of_string s;
      match prefix_of_mask mask with
      | Some p => Some p
      | None => prefix_of_mask (Z.lxor mask all_ones)
      end
  end.

(** [IPv4Network(s)]: no host bits. [None] is a [ValueError]. *)
Definition network_of_string (s : string) : option network :=
  match str_split "/" s with
  | [a] => a ← ip_of_string a; Some (Network a 32)
  | [a; m] =>
      a ← ip_of_string a; p ← prefix_of_string m;
      if Z.land a (netmask p) =? a then Some (Network a p) else None
  | _ => None
  end.

(** [addr in network] *)
Definition in_network (a : Z) (n : network) : bool :=
  Z.land a (netmask (net_plen n)) =? net_addr n.

Definition quad (a b c d : Z) : Z := ((a * 256 + b) * 256 + c) * 256 + d.

Definition private_networks : list network :=
  [ Network (quad 0 0 0 0) 8; Network (quad 10 0 0 0) 8; Network (quad 127 0 0 0) 8;
    Network (quad 169 254 0 0) 16; Network (quad 172 16 0 0) 12; Network (quad 192 0 0 0) 24;
    Network (quad 192 0 0 170) 31; Network (quad 192 0 2 0) 24; Network (quad 192 168 0 0) 16;
    Network (quad 198 18 0 0) 15; Network (quad 198 51 100 0) 24; Network (quad 203 0 113 0) 24;
    Network (quad 240 0 0 0) 4; Network (quad 255 255 255 255) 32 ].

Definition private_exceptions : list network :=
  [ Network (quad 192 0 0 9) 32; Network (quad 192 0 0 10) 32 ].

Definition is_private (a : Z) : bool :=
  existsb (in_network a) private_networks && negb (existsb (in_network a) private_exceptions).
Definition is_global (a : Z) : bool :=
  negb (in_network a (Network (quad 100 64 0 0) 10)) && negb (is_private a).
Definition is_loopback (a : Z) : bool := in_network a (Network (quad 127 0 0 0) 8).
Definition is_link_local (a : Z) : bool := in_network a (Network (quad 169 254 0 0) 16).
Definition is_multicast (a : Z) : bool := in_network a (Network (quad 224 0 0 0) 4).
Definition is_reserved (a : Z) : bool := in_network a (Network (quad 240 0 0 0) 4).
Definition is_unspecified (a : Z) : bool := a =? 0.

(** [IPv4Address(packed)] and [.packed] *)
Definition ip_of_bytes (b : bytes) : Z := u32 b 0.
Definition packed (a : Z) : bytes :=
  [Z.land (Z.shiftr a 24) 255; Z.land (Z.shiftr a 16) 255; Z.land (Z.shiftr a 8) 255; Z.land a 255].

Lemma ip_of_bytes_packed a : 0 ≤ a < 2 ^ 32 → ip_of_bytes (packed a) = a.
Proof.
  intros Ha. unfold ip_of_bytes, packed, u32, u16, u8. simpl.
  change 255 with (Z.ones 8). rewrite !Z.land_ones, !Z.shiftr_div_pow2 by lia.
  change (2 ^ 24) with 16777216. change (2 ^ 16) with 65536. change (2 ^ 8) with 256.
  Z.div_mod_to_equations. lia.
Qed.

Lemma packed_ip_of_bytes a b c d :
  Forall is_byte [a; b; c; d] → packed (ip_of_bytes [a; b; c; d]) = [a; b; c; d].
Proof.
  rewrite !Forall_cons. unfold is_byte. intros (Ha & Hb & Hc & Hd & _).
  unfold ip_of_bytes, packed, u32, u16, u8. simpl.
  change 255 with (Z.ones 8). rewrite !Z.land_ones, !Z.shiftr_div_pow2 by lia.
  change (2 ^ 24) with 16777216. change (2 ^ 16) with 65536. change (2 ^ 8) with 256.
  repeat f_equal; Z.div_mod_to_equations; lia.
Qed.

Example ip_of_string_ex : ip_of_string "10.0.2.15" = Some (quad 10 0 2 15).
Proof. reflexivity. Qed.
Example ip_leading_zero : ip_of_string "10.0.02.15" = None.
Proof. reflexivity. Qed.
Example network_netmask_ex : network_of_string "10.0.0.0/255.0.0.0" = Some (Network (quad 10 0 0 0) 8).
Proof. vm_compute. reflexivity. Qed.
Example network_hostmask_ex : network_of_string "10.0.0.0/0.255.255.255" = Some (Network (quad 10 0 0 0) 8).
Proof. vm_compute. reflexivity. Qed.
Example network_host_bits : network_of_string "10.0.0.1/8" = None.
Proof. vm_compute. reflexivity. Qed.
Example global_ex : is_global (quad 8 8 8 8) = true.
Proof. vm_compute. reflexivity. Qed.
