(* ===== verification/NetworkAllowlist.v ===== *)
(** [scripts/network_allowlist.py]: IP admission derived from explicit networks
    and trusted DNS answers. One [Record] is the [Allowlist] object; every method
    is a state-passing function of the clock reading it makes. Each method reads
    the monotonic clock once here; the code reads it again inside the same
    critical section. The background [_resolve] thread is the [resolved] step:
    the addresses the resolver returned are its argument. *)

From S2P Require Import Prelude OrderedDict Ipv4.
Local Open Scope Z_scope.

(** * Rules *)

(** [[a-z0-9](?:[a-z0-9-]{0,61}[a-z0-9])?] on a whole label. *)
Definition lower_alnum (c : ascii) : bool := is_lower c || is_digit c.
Definition hostname_label (l : list ascii) : bool :=
  match l, last l with
  | c :: _, Some z =>
      lower_alnum c && lower_alnum z && (length l <=? 63)%nat
      && forallb (λ c, lower_alnum c || bool_decide (c = "-"%char)) l
  | _, _ => false
  end.

Definition wildcard (name : string) : bool := str_startswith "*." name.

Definition entry (acc : list network * list string) (value : string) : res (list network * list string) :=
  let value := str_rstrip "." (str_lower (str_strip value)) in
  match network_of_string value with
  | Some n => Ok (acc.1 ++ [n], acc.2)
  | None =>
      let hostname := if wildcard value then of_chars (drop 2 (chars value)) else value in
      if negb (bool_decide (hostname = ""%string))
         && forallb hostname_label (split_chars "." (chars hostname))
      then Ok (acc.1, acc.2 ++ [value])
      else raise ValueError ("invalid allowlist hostname: " ++ value)
  end.

(** [entries]. An IPv6 network also ends in a [ValueError]: its text has a colon,
    which no hostname label has. *)
Definition entries (values : list string) : res (list network * list string) :=
  res_fold entry ([], []) values.

(** * DNS names *)

Definition low_byte_char (b : Z) : ascii := ascii_of_N (Z.to_N b).
(** [data.decode('ascii').lower()] *)
Definition decode_label (d : bytes) : res string :=
  if forallb (λ b, b <? 128) d then Ok (str_lower (of_chars (map low_byte_char d)))
  else raise UnicodeError "ascii".

(** The loop of [dns_name]: at most 128 offsets are visited. [None] is running
    out of fuel. *)
Fixpoint dns_name_loop (fuel : nat) (data : bytes) (labels : list string)
    (following : option nat) (seen : list nat) (offset : nat) : option (res (string * nat)) :=
  match fuel with
  | O => None
  | S fuel =>
      if bool_decide (offset ∈ seen) || (length data <=? offset)%nat || (128 <=? length seen)%nat
      then Some (raise ValueError "invalid DNS name")
      else
        let seen := offset :: seen in
        let size := u8 data offset in
        let offset := S offset in
        if Z.land size 192 =? 192 then
          if (length data <=? offset)%nat then Some (raise ValueError "truncated DNS pointer")
          else
            dns_name_loop fuel data labels (Some (default (S offset) following)) seen
              (Z.to_nat (Z.lor (Z.shiftl (Z.land size 63) 8) (u8 data offset)))
        else if negb (Z.land size 192 =? 0) || (length data <? offset + Z.to_nat size)%nat
        then Some (raise ValueError "invalid DNS label")
        else if negb (size =? 0) then
          match decode_label (slice data offset (offset + Z.to_nat size)) with
          | Err e => Some (Err e)
          | Ok label =>
              dns_name_loop fuel data (labels ++ [label]) following seen (offset + Z.to_nat size)
          end
        else Some (Ok (str_join "." labels, default offset following))
  end.

Definition dns_fuel : nat := 130.
Definition dns_name (data : bytes) (offset : nat) : res (string * nat) :=
  match dns_name_loop dns_fuel data [] None [] offset with
  | Some r => r
  | None => raise RuntimeError "out of fuel"
  end.

(** * The allowlist object *)

(** A half-open DNS-over-TCP stream: the next expected sequence number, the
    bytes not yet framed, and the segments that arrived early. *)
Record stream := Stream {
  s_next : Z; s_buffer : bytes; s_pending : list (Z * bytes); s_expires : Z }.

(** [(port, identity, name, kind)] *)
Definition query_key : Type := Z * Z * string * Z.

Record allowlist := Allowlist {
  al_networks : list network;
  al_names : list string;
  al_answers : list (bytes * Z);
  al_queries : list (query_key * Z);
  al_streams : list ((Z * bool) * stream) }.

Definition set_answers (f : list (bytes * Z) → list (bytes * Z)) (a : allowlist) : allowlist :=
  Allowlist (al_networks a) (al_names a) (f (al_answers a)) (al_queries a) (al_streams a).
Definition set_queries (f : list (query_key * Z) → list (query_key * Z)) (a : allowlist) : allowlist :=
  Allowlist (al_networks a) (al_names a) (al_answers a) (f (al_queries a)) (al_streams a).
Definition set_streams (f : list ((Z * bool) * stream) → list ((Z * bool) * stream)) (a : allowlist) : allowlist :=
  Allowlist (al_networks a) (al_names a) (al_answers a) (al_queries a) (f (al_streams a)).

Definition allowlist_init (values : list string) : res allowlist :=
  e ← entries values; Ok (Allowlist e.1 e.2 [] [] []).

Definition rule_matches (name rule : string) : bool :=
  bool_decide (name = rule)
  || (wildcard rule && str_endswith (of_chars (drop 1 (chars rule))) name).
Definition matches (a : allowlist) (name : string) : bool :=
  existsb (rule_matches name) (al_names a).

Definition answers_limit : nat := Z.to_nat 8192.
Definition queries_limit : nat := Z.to_nat 4096.
Definition streams_limit : nat := Z.to_nat 512.
Definition buffer_limit : nat := Z.to_nat 131072.
Arguments answers_limit : simpl never.
Arguments queries_limit : simpl never.
Arguments streams_limit : simpl never.
Arguments buffer_limit : simpl never.

(** [_remember] *)
Definition remember (now : Z) (address : bytes) (ttl : Z) (a : allowlist) : allowlist :=
  set_answers (λ d,
    let expiry := Z.max (default 0 (od_get address d)) (now + seconds (Z.min ttl 86400)) in
    od_trim answers_limit (od_touch address expiry d)) a.

(** One exact name of [_resolve]: the addresses [getaddrinfo] returned for it. *)
Definition resolved (now : Z) (name : string) (addresses : list string) (a : allowlist) : allowlist :=
  if wildcard name then a
  else foldl (λ a s, match ip_of_string s with
                     | Some ip => remember now (packed ip) 60 a
                     | None => a
                     end) a addresses.

Definition allows (now : Z) (address : bytes) (a : allowlist) : bool :=
  existsb (in_network (ip_of_bytes address)) (al_networks a)
  || (now <? default 0 (od_get address (al_answers a))).

(** * DNS messages *)

Inductive rdata :=
  | Cname (target : string)
  | Addr (address : bytes).
Record answer := Answer { an_owner : string; an_ttl : Z; an_data : rdata }.

(** One record of the answer section, and the offset behind it. Records of
    another class or kind are skipped. *)
Definition parse_record (data : bytes) (offset : nat) : res (list answer * nat) :=
  p ← dns_name data offset;
  let '(owner, offset) := p in
  if negb (has_bytes data offset 10) then raise StructError "unpack_from"
  else
    let kind := u16 data offset in
    let klass := u16 data (offset + 2) in
    let ttl := u32 data (offset + 4) in
    let size := Z.to_nat (u16 data (offset + 8)) in
    let offset := (offset + 10)%nat in
    if (length data <? offset + size)%nat then raise ValueError "truncated DNS record"
    else if (klass =? 1) && (kind =? 5) then
      t ← dns_name data offset;
      Ok ([Answer owner ttl (Cname t.1)], (offset + size)%nat)
    else if (klass =? 1) && (kind =? 1) && (size =? 4)%nat then
      Ok ([Answer owner ttl (Addr (slice data offset (offset + size)))], (offset + size)%nat)
    else Ok ([], (offset + size)%nat).

Fixpoint parse_records (count : nat) (data : bytes) (offset : nat) : res (list answer) :=
  match count with
  | O => Ok []
  | S count =>
      p ← parse_record data offset;
      rest ← parse_records count data p.2;
      Ok (p.1 ++ rest)
  end.

(** One pass of the alias loop over the records. *)
Definition alias_step (aliases : gmap string Z) (r : answer) : gmap string Z :=
  match aliases !! an_owner r, an_data r with
  | Some ttl, Cname target =>
      match aliases !! target with
      | None => <[target := Z.min (an_ttl r) ttl]> aliases
      | Some _ => aliases
      end
  | _, _ => aliases
  end.

(** [for _ in range(len(records))], leaving at the first pass that adds nothing. *)
Fixpoint alias_loop (n : nat) (records : list answer) (aliases : gmap string Z) : gmap string Z :=
  match n with
  | O => aliases
  | S n =>
      let aliases' := foldl alias_step aliases records in
      if bool_decide (aliases' = aliases) then aliases else alias_loop n records aliases'
  end.

Definition remember_answer (now : Z) (aliases : gmap string Z) (a : allowlist) (r : answer) : allowlist :=
  match aliases !! an_owner r, an_data r with
  | Some ttl, Addr address => remember now address (Z.min (an_ttl r) ttl) a
  | _, _ => a
  end.

(** The question of a message: [None] where [observe] returns or catches. *)
Definition parse_question (data : bytes) (response : bool) : option (Z * Z * nat * string * Z * nat) :=
  if negb (has_bytes data 0 12) then None
  else
    let identity := u16 data 0 in
    let flags := u16 data 2 in
    let questions := u16 data 4 in
    let count := u16 data 6 in
    if negb (questions =? 1) || xorb (negb (Z.land flags 32768 =? 0)) response
       || negb (Z.land flags 30735 =? 0) || (512 <? count)
    then None
    else
      match dns_name data 12 with
      | Err _ => None
      | Ok (name, offset) =>
          if negb (has_bytes data offset 4) then None
          else
            let kind := u16 data offset in
            let klass := u16 data (offset + 2) in
            if negb (klass =? 1) || negb ((kind =? 1) || (kind =? 255)) then None
            else Some (identity, flags, Z.to_nat count, name, kind, (offset + 4)%nat)
      end.

(** [observe]: a query of the guest is noted for 30 seconds; a response is used
    only if it answers a noted query. Parse errors end the call with the changes
    made so far. *)
Definition observe (now : Z) (data : bytes) (port : Z) (response : bool) (a : allowlist) : allowlist :=
  match parse_question data response with
  | None => a
  | Some (identity, flags, count, name, kind, offset) =>
      let key := (port, identity, name, kind) in
      if negb (matches a name) then a
      else if negb response then
        set_queries (λ d, od_trim queries_limit (od_touch key (now + seconds 30) d)) a
      else
        let expiry := default 0 (od_get key (al_queries a)) in
        let a := set_queries (od_del key) a in
        if (expiry <? now) || negb (Z.land flags 512 =? 0) then a
        else
          match parse_records count data offset with
          | Err _ => a
          | Ok records =>
              let aliases := alias_loop (length records) records {[name := 86400]} in
              foldl (remember_answer now aliases) a records
          end
  end.

(** * DNS over TCP *)

Definition seq_delta (offset next : Z) : Z := (offset - next + 2 ^ 31) mod 2 ^ 32 - 2 ^ 31.

(** The first early segment that starts at or before the next expected byte,
    with the part of it that is new. *)
Fixpoint ready_segment (next : Z) (pending : list (Z * bytes)) : option (Z * bytes) :=
  match pending with
  | [] => None
  | (offset, part) :: rest =>
      let delta := seq_delta offset next in
      if delta <=? 0
      then Some (offset, if delta <? 0 then drop (Z.to_nat (- delta)) part else part)
      else ready_segment next rest
  end.

(** [while state['pending']]: each round removes a segment, so as many rounds as
    segments suffice. *)
Fixpoint drain_pending (fuel : nat) (s : stream) : stream :=
  match fuel with
  | O => s
  | S fuel =>
      match ready_segment (s_next s) (s_pending s) with
      | None => s
      | Some (offset, part) =>
          drain_pending fuel
            (Stream (Z.land (s_next s + Z.of_nat (length part)) 4294967295)
                    (s_buffer s ++ part) (od_del offset (s_pending s)) (s_expires s))
      end
  end.

(** [while len(buffer) >= 2]: complete length-prefixed messages and the rest. *)
Fixpoint deframe_loop (fuel : nat) (buffer : bytes) : list bytes * bytes :=
  match fuel with
  | O => ([], buffer)
  | S fuel =>
      if (length buffer <? 2)%nat then ([], buffer)
      else
        let size := Z.to_nat (u16 buffer 0) in
        if (length buffer <? size + 2)%nat then ([], buffer)
        else
          let '(messages, rest) := deframe_loop fuel (drop (2 + size) buffer) in
          (slice buffer 2 (2 + size) :: messages, rest)
  end.
Definition deframe (buffer : bytes) : list bytes * bytes := deframe_loop (length buffer) buffer.

(** The stream a segment belongs to: a new one on SYN or after expiry. *)
Definition open_stream (now : Z) (sequence : Z) (syn : bool) (old : option stream) : stream :=
  let fresh := Stream (Z.land (sequence + (if syn then 1 else 0)) 4294967295) [] [] (now + seconds 60) in
  match old with
  | Some s => if syn || (s_expires s <? now) then fresh else s
  | None => fresh
  end.

Definition buffered (s : stream) : nat :=
  (sum_list (map (λ p, length p.2) (s_pending s)) + length (s_buffer s))%nat.

(** Adds a segment and consumes everything that is now in order. *)
Definition feed_segment (sequence : Z) (data : bytes) (s : stream) : stream :=
  if bool_decide (data = []) then s
  else Stream (s_next s) (s_buffer s) (od_set sequence data (s_pending s)) (s_expires s).
Definition drain (s : stream) : stream := drain_pending (length (s_pending s)) s.

(** The messages that are complete now; the rest stays in the buffer. *)
Definition take_messages (s : stream) : list bytes * stream :=
  let s := drain s in
  let '(messages, rest) := deframe (s_buffer s) in
  (messages, Stream (s_next s) rest (s_pending s) (s_expires s)).

(** [observe_tcp]. [payload] is a TCP segment whose header the policy checked. *)
Definition observe_tcp (now : Z) (payload : bytes) (port : Z) (response : bool) (a : allowlist) : allowlist :=
  let sequence := u32 payload 4 in
  let flags := u8 payload 13 in
  let data := drop (Z.to_nat (Z.shiftr (u8 payload 12) 4 * 4)) payload in
  let key := (port, response) in
  let syn := negb (Z.land flags 2 =? 0) in
  if negb (Z.land flags 4 =? 0) then set_streams (od_del key) a
  else
    let s := open_stream now sequence syn (od_get key (al_streams a)) in
    let a := set_streams (λ d, od_trim streams_limit (od_touch key s d)) a in
    let sequence := if syn then Z.land (sequence + 1) 4294967295 else sequence in
    let s := feed_segment sequence data s in
    if (buffer_limit <? buffered s)%nat then set_streams (od_del key) a
    else
      let '(messages, s) := take_messages s in
      let a := set_streams (λ d, if negb (Z.land flags 1 =? 0) then od_del key d else od_set key s d) a in
      foldl (λ a m, observe now m port response a) a messages.


(** * Parsing: termination and bounds *)

(** The loop adds one offset to [seen] per round and stops at 128 of them. *)
Lemma dns_name_loop_fuel fuel data labels following seen offset :
  (129 < fuel + length seen)%nat → (length seen ≤ 128)%nat →
  is_Some (dns_name_loop fuel data labels following seen offset).
Proof.
  revert labels following seen offset.
  induction fuel as [|fuel IH]; intros labels following seen offset Hf Hs; [lia|].
  cbn [dns_name_loop].
  destruct (bool_decide (offset ∈ seen) || (length data <=? offset)%nat
            || (128 <=? length seen)%nat) eqn:E; [eauto|].
  bool_prop. repeat case_match; eauto; apply IH; simpl; lia.
Qed.

Lemma dns_name_loop_bounds fuel data labels following seen offset name o :
  dns_name_loop fuel data labels following seen offset = Some (Ok (name, o)) →
  match following with
  | Some f => o = f
  | None => (offset < o ≤ length data)%nat
  end.
Proof.
  revert labels following seen offset.
  induction fuel as [|fuel IH]; intros labels following seen offset H; [done|].
  cbn [dns_name_loop] in H.
  destruct (_ || _ || _) eqn:E; [done|].
  bool_prop. repeat case_match; simplify_eq/=; bool_prop; try lia;
    first [apply IH in H | idtac]; simpl in *; try lia.
  all: destruct following; simpl in *; lia.
Qed.

Lemma dns_name_bounds data offset name o :
  dns_name data offset = Ok (name, o) → (offset < o ≤ length data)%nat.
Proof.
  unfold dns_name. destruct (dns_name_loop _ _ _ _ _ _) eqn:E; [|done].
  intros ->. by apply dns_name_loop_bounds in E.
Qed.

Lemma parse_record_bounds data offset rs o :
  parse_record data offset = Ok (rs, o) → (offset < o ≤ length data)%nat.
Proof.
  unfold parse_record. intros ([owner p] & Hn & H)%bind_ok.
  apply dns_name_bounds in Hn.
  repeat case_match; simplify_eq; bool_prop; try lia.
  apply bind_ok in H as ([t q] & _ & [= <- <-]). lia.
Qed.

(** * DNS over TCP *)

(** The framing a resolver uses: a 16-bit length before each message. *)
Definition frame (m : bytes) : bytes :=
  let n := Z.of_nat (length m) in (n / 256) :: (n mod 256) :: m.

Definition incomplete (rest : bytes) : Prop :=
  (length rest < 2)%nat ∨ (length rest < Z.to_nat (u16 rest 0) + 2)%nat.

Lemma deframe_loop_fuel f1 f2 b :
  (length b ≤ f1)%nat → (length b ≤ f2)%nat → deframe_loop f1 b = deframe_loop f2 b.
Proof.
  revert f2 b. induction f1 as [|f1 IH]; intros f2 b H1 H2.
  { destruct b; [|simpl in H1; lia]. by destruct f2. }
  destruct f2 as [|f2]; [destruct b; [done | simpl in H2; lia]|].
  cbn [deframe_loop]. case_match; [done|]. case_match; [done|]. bool_prop.
  rewrite (IH f2); [done| |]; rewrite length_drop; lia.
Qed.

Lemma deframe_unfold b :
  deframe b =
    if (length b <? 2)%nat then ([], b)
    else
      let size := Z.to_nat (u16 b 0) in
      if (length b <? size + 2)%nat then ([], b)
      else let '(ms, rest) := deframe (drop (2 + size) b) in (slice b 2 (2 + size) :: ms, rest).
Proof.
  unfold deframe at 1. destruct b as [|x b]; [done|]. cbn [deframe_loop length].
  case_match; [done|]. cbv zeta. case_match; [done|]. unfold deframe. bool_prop.
  rewrite (deframe_loop_fuel (length b) (length (drop (2 + Z.to_nat (u16 (x :: b) 0)) (x :: b)))); [done| |];
    rewrite length_drop; simpl in *; lia.
Qed.

Lemma deframe_incomplete rest : incomplete rest → deframe rest = ([], rest).
Proof.
  intros H. rewrite deframe_unfold. cbv zeta.
  case_match; [done|]. case_match; [done|]. bool_prop. destruct H; lia.
Qed.

Lemma u16_app b1 b2 : (2 ≤ length b1)%nat → u16 (b1 ++ b2) 0 = u16 b1 0.
Proof. destruct b1 as [|x [|y b1]]; simpl; intros; [lia|lia|done]. Qed.

Lemma deframe_app_aux n b1 b2 :
  (length b1 ≤ n)%nat →
  deframe (b1 ++ b2) =
    let '(m1, r1) := deframe b1 in let '(m2, r2) := deframe (r1 ++ b2) in (m1 ++ m2, r2).
Proof.
  revert b1. induction n as [|n IH]; intros b1 Hn.
  { destruct b1; [|simpl in Hn; lia]. simpl. by destruct (deframe b2). }
  rewrite (deframe_unfold b1).
  destruct (length b1 <? 2)%nat eqn:E1; [by destruct (deframe (b1 ++ b2))|].
  cbv zeta. destruct (length b1 <? Z.to_nat (u16 b1 0) + 2)%nat eqn:E2;
    [by destruct (deframe (b1 ++ b2))|].
  bool_prop. rewrite (deframe_unfold (b1 ++ b2)), length_app, u16_app by lia.
  destruct (length b1 + length b2 <? 2)%nat eqn:E3; [bool_prop; lia|].
  cbv zeta. destruct (length b1 + length b2 <? _ + 2)%nat eqn:E4; [bool_prop; lia|].
  rewrite drop_app_le by lia. rewrite IH by (rewrite length_drop; lia).
  destruct (deframe (drop _ b1)) as [m1 r1]. destruct (deframe (r1 ++ b2)) as [m2 r2].
  unfold slice. by rewrite drop_app_le, take_app_le by (rewrite ?length_drop; lia).
Qed.

Lemma deframe_frame m rest :
  (Z.of_nat (length m) < 65536) →
  deframe (frame m ++ rest) = let '(ms, r) := deframe rest in (m :: ms, r).
Proof.
  intros Hm. rewrite deframe_unfold. unfold frame. rewrite <- !app_comm_cons. cbv zeta.
  assert (E : Z.to_nat (u16 (Z.of_nat (length m) / 256 :: Z.of_nat (length m) mod 256 :: m ++ rest) 0)
              = length m).
  { unfold u16, u8. simpl. rewrite <- Z.mul_comm, <- Z.div_mod by lia. lia. }
  rewrite E. simpl length. rewrite length_app.
  assert ((S (S (length m + length rest)) <? 2)%nat = false) as -> by (apply Nat.ltb_ge; lia).
  assert ((S (S (length m + length rest)) <? length m + 2)%nat = false) as ->
    by (apply Nat.ltb_ge; lia).
  simpl. rewrite drop_app_length. unfold slice. simpl. rewrite drop_0, Nat.sub_0_r.
  by rewrite take_app_length.
Qed.

Lemma seq_delta_self n k :
  0 ≤ n < 2 ^ 32 → 0 ≤ k ≤ 2 ^ 31 → seq_delta ((n - k) mod 2 ^ 32) n = - k.
Proof.
  intros Hn Hk. unfold seq_delta.
  replace (((n - k) mod 2 ^ 32 - n + 2 ^ 31) mod 2 ^ 32) with ((2 ^ 31 - k) mod 2 ^ 32).
  - rewrite Z.mod_small; lia.
  - change (2 ^ 32) with 4294967296 in *. change (2 ^ 31) with 2147483648 in *.
    Z.div_mod_to_equations. lia.
Qed.

Lemma drain_segment s k data :
  0 ≤ s_next s < 2 ^ 32 → 0 ≤ k ≤ 2 ^ 31 → data ≠ [] → s_pending s = [] →
  drain (feed_segment ((s_next s - k) mod 2 ^ 32) data s) =
    Stream ((s_next s + Z.of_nat (length (drop (Z.to_nat k) data))) mod 2 ^ 32)
           (s_buffer s ++ drop (Z.to_nat k) data) [] (s_expires s).
Proof.
  intros Hn Hk Hd Hp. unfold feed_segment, drain.
  rewrite bool_decide_eq_false_2 by done. simpl. rewrite Hp. simpl.
  rewrite seq_delta_self by done.
  assert (E : (if - k <? 0 then drop (Z.to_nat (- - k)) data else data) = drop (Z.to_nat k) data).
  { destruct (Z.ltb_spec (- k) 0); [by rewrite Z.opp_involutive|].
    replace k with 0 by lia. done. }
  destruct (Z.leb_spec (- k) 0); [|lia]. rewrite E. unfold od_del. simpl.
  rewrite filter_cons_False by (simpl; tauto).
  change 4294967295 with (Z.ones 32). rewrite Z.land_ones by lia. done.
Qed.

(** * Alias resolution *)

(** The names a CNAME chain of the answer reaches from the question. *)
Inductive alias_of (records : list answer) (name : string) : string → Prop :=
  | alias_self : alias_of records name name
  | alias_cname owner ttl target :
      alias_of records name owner → Answer owner ttl (Cname target) ∈ records →
      alias_of records name target.

Definition alias_closed (records : list answer) (m : gmap string Z) : Prop :=
  ∀ owner ttl target, Answer owner ttl (Cname target) ∈ records →
    is_Some (m !! owner) → is_Some (m !! target).

Lemma alias_step_subseteq m r : m ⊆ alias_step m r.
Proof.
  unfold alias_step. repeat case_match; try done.
  by apply insert_subseteq.
Qed.

Lemma alias_fold_subseteq m rs : m ⊆ foldl alias_step m rs.
Proof.
  revert m. induction rs as [|r rs IH]; intros m; simpl; [done|].
  etrans; [apply alias_step_subseteq | apply IH].
Qed.

Lemma alias_fixpoint_closed m rs : foldl alias_step m rs = m → alias_closed rs m.
Proof.
  revert m. induction rs as [|r rs IH]; intros m Hm owner ttl target Hin [v Hv].
  { by apply not_elem_of_nil in Hin. }
  simpl in Hm.
  assert (Hr : alias_step m r = m).
  { apply (anti_symm (⊆)); [|apply alias_step_subseteq].
    trans (foldl alias_step (alias_step m r) rs); [apply alias_fold_subseteq | by rewrite Hm]. }
  rewrite Hr in Hm. apply elem_of_cons in Hin as [<-|Hin].
  - unfold alias_step in Hr. simpl in Hr. rewrite Hv in Hr.
    destruct (m !! target) eqn:E; [eauto|].
    rewrite <- Hr, lookup_insert_eq in E. done.
  - eapply IH; eauto.
Qed.

Definition cname_targets (records : list answer) : gset string :=
  list_to_set (flat_map (λ r, match an_data r with Cname t => [t] | Addr _ => [] end) records).

Lemma alias_step_dom m r :
  dom (alias_step m r) ⊆ dom m ∪ cname_targets [r].
Proof.
  unfold alias_step, cname_targets. simpl.
  destruct (m !! an_owner r); [|set_solver].
  destruct (an_data r) as [t|]; simpl; [|set_solver].
  destruct (m !! t); [set_solver|]. rewrite dom_insert_L. set_solver.
Qed.

Lemma cname_targets_cons r rs : cname_targets (r :: rs) = cname_targets [r] ∪ cname_targets rs.
Proof. unfold cname_targets. simpl. rewrite app_nil_r, list_to_set_app_L. done. Qed.

Lemma alias_fold_dom m rs : dom (foldl alias_step m rs) ⊆ dom m ∪ cname_targets rs.
Proof.
  revert m. induction rs as [|r rs IH]; intros m; simpl; [set_solver|].
  intros x Hx%IH. pose proof (alias_step_dom m r). rewrite cname_targets_cons. set_solver.
Qed.

Lemma size_cname_targets rs : (size (cname_targets rs) ≤ length rs)%nat.
Proof.
  unfold cname_targets. etrans; [apply size_list_to_set_le|].
  induction rs as [|r rs IH]; simpl; [done|].
  rewrite length_app. destruct (an_data r); simpl; lia.
Qed.

(** A pass that changes the map adds a name. *)
Lemma alias_fold_grows m rs :
  foldl alias_step m rs ≠ m → (size (dom m) < size (dom (foldl alias_step m rs)))%nat.
Proof.
  intros Hne. apply subset_size. split.
  - apply subseteq_dom, alias_fold_subseteq.
  - intros Hsub. apply Hne. symmetry.
    apply map_subseteq_size_eq; [apply alias_fold_subseteq|].
    rewrite <- !size_dom. by apply subseteq_size.
Qed.

(** As many passes as records reach every alias: each pass that does not end the
    loop adds one of at most [length records] targets. *)
Lemma alias_loop_closed n rs m :
  (size (dom m ∪ cname_targets rs) ≤ n + size (dom m))%nat →
  alias_closed rs (alias_loop n rs m).
Proof.
  revert m. induction n as [|n IH]; intros m Hsize; simpl.
  - apply alias_fixpoint_closed. destruct (decide (foldl alias_step m rs = m)) as [|Hne]; [done|].
    apply alias_fold_grows in Hne.
    pose proof (subseteq_size _ _ (alias_fold_dom m rs)). lia.
  - case_bool_decide as E; [by apply alias_fixpoint_closed|].
    apply IH. apply alias_fold_grows in E.
    pose proof (subseteq_size (dom (foldl alias_step m rs) ∪ cname_targets rs)
                  (dom m ∪ cname_targets rs)) as Hs.
    pose proof (alias_fold_dom m rs). specialize (Hs ltac:(set_solver)). lia.
Qed.

Lemma alias_loop_subseteq n rs m : m ⊆ alias_loop n rs m.
Proof.
  revert m. induction n as [|n IH]; intros m; simpl; [done|].
  case_bool_decide; [done|]. etrans; [apply alias_fold_subseteq | apply IH].
Qed.

Lemma alias_fold_sound rs rs' name m :
  rs' ⊆ rs → (∀ o, is_Some (m !! o) → alias_of rs name o) →
  ∀ o, is_Some (foldl alias_step m rs' !! o) → alias_of rs name o.
Proof.
  revert m. induction rs' as [|r rs' IH]; intros m Hsub Hm; simpl; [done|].
  apply IH; [set_solver|]. intros o. unfold alias_step.
  destruct (m !! an_owner r) eqn:E; [|auto].
  destruct r as [owner ttl [target|]]; simpl in *; [|auto].
  destruct (m !! target) eqn:E'; [auto|].
  rewrite lookup_insert. case_decide as Ho; [|auto]. subst. intros _.
  eapply alias_cname; [apply Hm; eauto | apply Hsub; left].
Qed.

Lemma alias_loop_sound n rs name m :
  (∀ o, is_Some (m !! o) → alias_of rs name o) →
  ∀ o, is_Some (alias_loop n rs m !! o) → alias_of rs name o.
Proof.
  revert m. induction n as [|n IH]; intros m Hm; simpl; [done|].
  case_bool_decide; [done|]. apply IH. by apply alias_fold_sound.
Qed.

Lemma alias_loop_spec rs name ttl o :
  is_Some (alias_loop (length rs) rs {[name := ttl]} !! o) ↔ alias_of rs name o.
Proof.
  split.
  - apply alias_loop_sound. intros o' [v Hv]. apply lookup_singleton_Some in Hv as [<- _].
    constructor.
  - induction 1 as [|owner t target _ IH Hin].
    + eapply lookup_weaken_is_Some; [|apply alias_loop_subseteq].
      rewrite lookup_singleton_eq. eauto.
    + eapply (alias_loop_closed (length rs) rs {[name := ttl]}); eauto.
      rewrite size_union_alt, dom_singleton_L, size_singleton.
      pose proof (size_cname_targets rs).
      pose proof (subseteq_size (cname_targets rs ∖ {[name]}) (cname_targets rs) ltac:(set_solver)).
      lia.
Qed.

(** * The invariant *)

Definition stream_ok (s : stream) : Prop :=
  (buffered s ≤ buffer_limit)%nat ∧ od_wf (s_pending s).

(** What holds of the object between calls: the tables have unique keys and
    bounded sizes, no answer outlives a day, only names of the rules are
    awaited, and every stream buffers at most 128 KiB. *)
Record al_wf (now : Z) (a : allowlist) : Prop := {
  wf_answers : od_wf (al_answers a) ∧ (length (al_answers a) ≤ answers_limit)%nat;
  wf_queries : od_wf (al_queries a) ∧ (length (al_queries a) ≤ queries_limit)%nat;
  wf_streams : od_wf (al_streams a) ∧ (length (al_streams a) ≤ streams_limit)%nat;
  wf_expiry : ∀ k e, (k, e) ∈ al_answers a → e ≤ Z.max 0 (now + seconds 86400);
  wf_awaited : ∀ p i n k e, (p, i, n, k, e) ∈ al_queries a → matches a n = true;
  wf_buffers : ∀ k s, (k, s) ∈ al_streams a → stream_ok s }.

Lemma allowlist_init_wf now values a : allowlist_init values = Ok a → al_wf now a.
Proof.
  unfold allowlist_init. intros (e & _ & [= <-])%bind_ok. split; simpl.
  1-3: split; [apply NoDup_nil_2 | lia].
  all: intros *; by intros ?%not_elem_of_nil.
Qed.

Lemma al_wf_later now now' a : now ≤ now' → al_wf now a → al_wf now' a.
Proof.
  intros Hle [Ha Hq Hs He Hw Hb]. split; auto. intros k e Hk%He. lia.
Qed.

Lemma remember_wf now address ttl a : al_wf now a → al_wf now (remember now address ttl a).
Proof.
  intros [[Ha Hl] Hq Hs He Hw Hb]. split; simpl; [|done|done| |done|done].
  - split; [auto with py | apply length_od_trim].
  - intros k e [[= -> ->]|Hin]%elem_of_od_trim%elem_of_od_touch; [|eauto].
    assert (default 0 (od_get address (al_answers a)) ≤ Z.max 0 (now + seconds 86400)).
    { destruct (od_get address (al_answers a)) eqn:E; simpl; [|lia].
      eapply He, od_get_elem, E. }
    unfold seconds in *. lia.
Qed.

Lemma remember_matches now address ttl a n : matches (remember now address ttl a) n = matches a n.
Proof. done. Qed.

Lemma remember_answers_wf now aliases records a :
  al_wf now a → al_wf now (foldl (remember_answer now aliases) a records).
Proof.
  revert a. induction records as [|r rs IH]; intros a Ha; simpl; [done|].
  apply IH. unfold remember_answer. repeat case_match; auto using remember_wf.
Qed.

Lemma resolved_wf now name addresses a : al_wf now a → al_wf now (resolved now name addresses a).
Proof.
  unfold resolved. case_match; [done|]. revert a.
  induction addresses as [|s l IH]; intros a Ha; simpl; [done|].
  apply IH. case_match; auto using remember_wf.
Qed.

Lemma set_queries_wf now f a :
  al_wf now a → od_wf (f (al_queries a)) → (length (f (al_queries a)) ≤ queries_limit)%nat →
  (∀ p i n k e, (p, i, n, k, e) ∈ f (al_queries a) → matches a n = true) →
  al_wf now (set_queries f a).
Proof. intros [Ha Hq Hs He Hw Hb] ???. split; simpl; auto. Qed.

Lemma set_streams_wf now f a :
  al_wf now a → od_wf (f (al_streams a)) → (length (f (al_streams a)) ≤ streams_limit)%nat →
  (∀ k s, (k, s) ∈ f (al_streams a) → stream_ok s) → al_wf now (set_streams f a).
Proof. intros [Ha Hq Hs He Hw Hb] ???. split; simpl; auto. Qed.

Lemma observe_wf now data port response a :
  al_wf now a → al_wf now (observe now data port response a).
Proof.
  intros Ha. unfold observe. destruct (parse_question data response) as [q|]; [|done].
  destruct q as [[[[[identity flags] count] name] kind] offset].
  destruct (matches a name) eqn:Hm; simpl; [|done].
  destruct (wf_queries _ _ Ha) as [Hq Hl].
  destruct response; simpl.
  - assert (Hd : al_wf now (set_queries (od_del (port, identity, name, kind)) a)).
    { apply set_queries_wf; auto with py.
      - etrans; [apply length_od_del | done].
      - intros p i n k e [Hin _]%elem_of_od_del. by eapply wf_awaited. }
    destruct (_ || _); [done|]. destruct (parse_records _ _ _); [|done].
    by apply remember_answers_wf.
  - apply set_queries_wf; auto with py.
    intros p i n k e [[= -> -> -> -> ->]|Hin]%elem_of_od_trim%elem_of_od_touch; [done|].
    by eapply wf_awaited.
Qed.

Lemma drain_pending_ok fuel s :
  stream_ok s → stream_ok (drain_pending fuel s).
Proof.
  revert s. induction fuel as [|fuel IH]; intros s Hs; simpl; [done|].
  destruct (ready_segment _ _) as [[offset part]|] eqn:E; [|done]. apply IH.
  destruct Hs as [Hb Hp]. split; simpl; [|auto with py].
  assert (Hlen : ∃ p, (offset, p) ∈ s_pending s ∧ (length part ≤ length p)%nat).
  { clear -E. induction (s_pending s) as [|[o p] l IHl]; simpl in E; [done|].
    destruct (_ <=? 0).
    - simplify_eq. exists p. split; [left|]. case_match; [rewrite length_drop; lia | done].
    - destruct IHl as (p' & ? & ?); [done|]. exists p'. split; [by right | done]. }
  destruct Hlen as (p & Hin & Hlen). unfold buffered in *. simpl. rewrite length_app.
  enough (sum_list (map (λ q, length q.2) (od_del offset (s_pending s))) + length p
          ≤ sum_list (map (λ q, length q.2) (s_pending s)))%nat by lia.
  clear -Hin. induction (s_pending s) as [|[o q] l IHl]; [by apply not_elem_of_nil in Hin|].
  unfold od_del in *. rewrite filter_cons. simpl.
  assert (Hsub : (sum_list (map (λ q, length q.2) (filter (λ p : Z * bytes, p.1 ≠ offset) l))
                  ≤ sum_list (map (λ q, length q.2) l))%nat).
  { clear. induction l as [|[o q] l IH]; [done|]. rewrite filter_cons.
    simpl. case_decide; simpl; lia. }
  apply elem_of_cons in Hin as [[= -> ->]|Hin].
  - rewrite decide_False by (intros H; by apply H). simpl. lia.
  - specialize (IHl Hin). case_decide; simpl; lia.
Qed.

Lemma length_deframe_rest b : (length (deframe b).2 ≤ length b)%nat.
Proof.
  unfold deframe. generalize (length b) at 1. intros n. revert b.
  induction n as [|n IH]; intros b; simpl; [done|].
  repeat case_match; simpl; try done.
  specialize (IH (drop (2 + Z.to_nat (u16 b 0)) b)). simpl in *.
  rewrite H1 in IH. simpl in IH. rewrite length_drop in IH. lia.
Qed.

Lemma take_messages_ok s : stream_ok s → stream_ok (take_messages s).2.
Proof.
  intros Hs. apply drain_pending_ok with (fuel := length (s_pending s)) in Hs.
  unfold take_messages. fold (drain s) in Hs.
  pose proof (length_deframe_rest (s_buffer (drain s))) as Hrest.
  destruct (deframe (s_buffer (drain s))) as [messages rest].
  destruct Hs as [H1 H2]. split; [|done]. unfold buffered in *. simpl in *. lia.
Qed.

Lemma observe_all_wf now messages port response a :
  al_wf now a → al_wf now (foldl (λ a m, observe now m port response a) a messages).
Proof. revert a. induction messages; intros; simpl; auto using observe_wf. Qed.

Lemma open_stream_ok now sequence syn old :
  (∀ s, old = Some s → stream_ok s) → stream_ok (open_stream now sequence syn old).
Proof.
  intros H. unfold open_stream.
  assert (∀ n e, stream_ok (Stream n [] [] e)).
  { intros. split; [unfold buffered; simpl; lia | apply NoDup_nil_2]. }
  destruct old; [|done]. case_match; auto.
Qed.

(** bounded memory. Whatever TCP segment to or from the resolver is
    observed, in whatever order, the allowlist keeps its invariant: unique keys,
    at most 8192 addresses, 4096 awaited queries and 512 half-open streams, no
    stream buffering more than 128 KiB, no address allowed for more than a day,
    and only names the rules cover awaited. *)
Theorem observe_tcp_bounded now payload port response a :
  al_wf now a → al_wf now (observe_tcp now payload port response a).
Proof.
  intros Ha. unfold observe_tcp. cbv zeta. set (key := (port, response)).
  destruct (wf_streams _ _ Ha) as [Hs Hl].
  destruct (negb (Z.land (u8 payload 13) 4 =? 0)).
  { apply set_streams_wf; [done|by auto with py|etrans; [apply length_od_del|done]|].
    intros k s [Hin _]%elem_of_od_del. by eapply wf_buffers. }
  set (s0 := open_stream _ _ _ _).
  assert (Hs0 : stream_ok s0).
  { apply open_stream_ok. intros s E. eapply wf_buffers, od_get_elem, E. done. }
  set (a1 := set_streams _ a).
  assert (Ha1 : al_wf now a1).
  { apply set_streams_wf; [done|by auto with py|apply length_od_trim|].
    intros k s [[= -> ->]|Hin]%elem_of_od_trim%elem_of_od_touch; [done|by eapply wf_buffers]. }
  assert (Hkey : od_get key (al_streams a1) = Some s0).
  { apply od_trim_touch_get; [done | unfold streams_limit; lia]. }
  clearbody a1. destruct (wf_streams _ _ Ha1) as [Hs1 Hl1].
  set (s1 := feed_segment _ _ _). destruct (buffer_limit <? buffered s1)%nat eqn:Hbuf.
  { apply set_streams_wf; [done|by auto with py|etrans; [apply length_od_del|done]|].
    intros k s [Hin _]%elem_of_od_del. by eapply wf_buffers. }
  assert (Hok : stream_ok s1).
  { bool_prop. split; [done|]. unfold s1, feed_segment. destruct Hs0.
    case_bool_decide; [done|]. by apply od_wf_set. }
  apply take_messages_ok in Hok. destruct (take_messages s1) as [messages s2].
  apply observe_all_wf.
  destruct (negb (Z.land (u8 payload 13) 1 =? 0)).
  - apply set_streams_wf; [done|by auto with py|etrans; [apply length_od_del|done]|].
    intros k s [Hin _]%elem_of_od_del. by eapply wf_buffers.
  - apply set_streams_wf; [done|by auto with py| |].
    + rewrite length_od_set by (apply od_get_elem_keys; eauto). done.
    + intros k s [[= -> ->]|Hin]%elem_of_od_set; [done|by eapply wf_buffers].
Qed.

Lemma remember_get now address ttl a k e :
  al_wf now a → od_get k (al_answers (remember now address ttl a)) = Some e →
  k = address ∨ od_get k (al_answers a) = Some e.
Proof.
  intros Ha H%od_get_elem%elem_of_od_trim%elem_of_od_touch.
  destruct H as [[= -> ->]|H]; [by left|right].
  apply od_get_wf; [apply Ha | done].
Qed.

Lemma remember_answers_get now aliases records a k e :
  al_wf now a →
  od_get k (al_answers (foldl (remember_answer now aliases) a records)) = Some e →
  od_get k (al_answers a) = Some e ∨
  ∃ owner ttl, is_Some (aliases !! owner) ∧ Answer owner ttl (Addr k) ∈ records.
Proof.
  revert a. induction records as [|r rs IH]; intros a Ha H; simpl in H; [by left|].
  apply IH in H as [H|(owner & ttl & Ho & Hin)].
  - destruct r as [owner ttl rd]. unfold remember_answer in H. simpl in H.
    destruct (aliases !! owner) eqn:E; [|by left]. destruct rd as [|address]; [by left|].
    apply remember_get in H as [->|H]; [|by left|done].
    right. exists owner, ttl. split; [eauto | left].
  - right. exists owner, ttl. split; [done | by right].
  - unfold remember_answer. repeat case_match; auto using remember_wf.
Qed.

Lemma allows_answers now address a a' :
  al_networks a' = al_networks a → allows now address a = false → allows now address a' = true →
  ∃ e, od_get address (al_answers a') = Some e ∧ od_get address (al_answers a) ≠ Some e ∨ 
       od_get address (al_answers a') = None ∧ e = 0 ∧ now < 0.
Proof.
  unfold allows. intros ->. destruct (existsb _ _); [done|]. simpl. intros H1 H2. bool_prop.
  destruct (od_get address (al_answers a')) as [e|]; simpl in *.
  - exists e. left. split; [done|]. intros E. rewrite E in H1. simpl in H1. lia.
  - exists 0. by right.
Qed.

(** C17: an address becomes reachable only through the operator's rules. If
    observing a DNS message makes the policy allow an address it did not allow
    before, then the message is a response, it answers a query the guest sent
    from the same port with the same transaction identity at most 30 seconds
    ago, the queried name matches a configured rule, and the address is an A
    record of a name the answer's CNAME chain reaches from the queried name. *)
Theorem observe_grants now data port response a address :
  0 < now → al_wf now a →
  allows now address a = false → allows now address (observe now data port response a) = true →
  ∃ identity flags count name kind offset expiry records owner ttl,
    response = true ∧
    parse_question data true = Some (identity, flags, count, name, kind, offset) ∧
    matches a name = true ∧
    od_get (port, identity, name, kind) (al_queries a) = Some expiry ∧ now ≤ expiry ∧
    parse_records count data offset = Ok records ∧
    alias_of records name owner ∧ Answer owner ttl (Addr address) ∈ records.
Proof.
  intros Hnow Ha Hold Hnew. unfold observe in Hnew.
  destruct (parse_question data response) as [q|] eqn:Hq; [|congruence].
  destruct q as [[[[[identity flags] count] name] kind] offset].
  destruct (matches a name) eqn:Hm; simpl in Hnew; [|congruence].
  destruct response; simpl in Hnew; [|by unfold allows in *; simpl in *; congruence].
  set (key := (port, identity, name, kind)) in *.
  destruct (_ || _) eqn:Hexp in Hnew; [by unfold allows in *; simpl in *; congruence|].
  destruct (parse_records count data offset) as [records|] eqn:Hr;
    [|by unfold allows in *; simpl in *; congruence].
  bool_prop.
  destruct (od_get key (al_queries a)) as [expiry|] eqn:Hkey; simpl in *; [|lia].
  set (a0 := set_queries (od_del key) a) in *.
  assert (Ha0 : al_wf now a0).
  { destruct (wf_queries _ _ Ha) as [Hq1 Hq2]. apply set_queries_wf; [done|by auto with py| |].
    - etrans; [apply length_od_del | done].
    - intros p i n k e [Hin _]%elem_of_od_del. by eapply wf_awaited. }
  apply (allows_answers now address a0) in Hnew as (e & [[Hget Hne]|(_ & _ & ?)]); [|lia| |done].
  - apply remember_answers_get in Hget as [?|(owner & ttl & Hin & Hr')]; [done| |done].
    apply alias_loop_spec in Hin. eauto 20 with lia.
  - clear -Ha0. generalize (alias_loop (length records) records {[name := 86400]}). intros m.
    clearbody a0. clear Ha0. revert a0.
    induction records as [|r rs IH]; intros a0; simpl; [done|].
    rewrite IH. unfold remember_answer. by repeat case_match.
Qed.

(** Every query name terminates: whatever the message, the parser visits at
    most 128 offsets. *)
Lemma dns_name_total data offset :
  ∃ r, dns_name_loop dns_fuel data [] None [] offset = Some r ∧ dns_name data offset = r.
Proof.
  destruct (dns_name_loop_fuel dns_fuel data [] None [] offset) as [r Hr];
    [unfold dns_fuel; simpl; lia | simpl; lia |].
  exists r. split; [done|]. unfold dns_name. by rewrite Hr.
Qed.

(** [dns_name] terminates on every message, compression-pointer loops
    included (130 rounds always reach a result), and a name it returns ends
    inside the message and strictly behind the offset it began at, so record
    parsing always makes progress. *)
Theorem dns_name_terminates data offset :
  is_Some (dns_name_loop dns_fuel data [] None [] offset) ∧
  ∀ name o, dns_name data offset = Ok (name, o) → (offset < o ≤ length data)%nat.
Proof.
  split; [|intros; by eapply dns_name_bounds].
  destruct (dns_name_total data offset) as (r & Hr & _). eauto.
Qed.

(** The CNAME loop computes exactly the names a chain of the answer's
    CNAME records reaches from the queried name, for records in any order. *)
Theorem alias_loop_exact records name ttl owner :
  is_Some (alias_loop (length records) records {[name := ttl]} !! owner) ↔ alias_of records name owner.
Proof. apply alias_loop_spec. Qed.

(** What a receiver of consecutive segments sees: [observe_tcp]'s steps on one
    stream, the sequence number advancing by each segment's length. *)
Fixpoint receive (segments : list bytes) (s : stream) : list bytes * stream :=
  match segments with
  | [] => ([], s)
  | d :: ds =>
      let '(ms, s) := take_messages (feed_segment (s_next s) d s) in
      let '(ms', s) := receive ds s in (ms ++ ms', s)
  end.

Lemma receive_deframe ds s :
  0 ≤ s_next s < 2 ^ 32 → s_pending s = [] → Forall (λ d, d ≠ []) ds →
  deframe (s_buffer s) = ([], s_buffer s) →
  (receive ds s).1 = (deframe (s_buffer s ++ concat ds)).1 ∧
  s_buffer (receive ds s).2 = (deframe (s_buffer s ++ concat ds)).2.
Proof.
  revert s. induction ds as [|d ds IH]; intros s Hn Hp Hds Hb; simpl.
  { rewrite app_nil_r. by rewrite Hb. }
  apply Forall_cons in Hds as [Hd Hds].
  pose proof (drain_segment s 0 d Hn ltac:(lia) Hd Hp) as Hdr.
  rewrite Z.sub_0_r, Z.mod_small in Hdr by lia. simpl in Hdr. rewrite drop_0 in Hdr.
  unfold take_messages. rewrite Hdr. simpl.
  rewrite app_assoc, (deframe_app_aux _ (s_buffer s ++ d) (concat ds) (Nat.le_refl _)).
  destruct (deframe (s_buffer s ++ d)) as [m1 r1] eqn:E1.
  set (s' := Stream _ r1 [] _).
  assert (Hr1 : deframe r1 = ([], r1)).
  { pose proof (deframe_app_aux _ (s_buffer s ++ d) [] (Nat.le_refl _)) as H.
    rewrite app_nil_r, E1 in H. destruct (deframe (r1 ++ [])) as [m2 r2] eqn:E2.
    rewrite app_nil_r in E2. injection H as H ->.
    assert (m2 = []) as -> by (apply (app_inv_head m1); by rewrite app_nil_r). done. }
  destruct (IH s') as [H1 H2]; [simpl; apply Z.mod_pos_bound; lia|done|done|done|].
  destruct (receive ds s') as [ms' s'']. simpl in *.
  destruct (deframe (r1 ++ concat ds)) as [m2 r2]. simpl in *. by subst.
Qed.

(** DNS-over-TCP reassembly. However the resolver's length-prefixed
    messages are cut into TCP segments, a fresh stream yields exactly these
    messages, in order, and buffers nothing afterwards; sequence numbers wrap
    at 2^32. *)
Theorem tcp_reassembly ms ds s :
  0 ≤ s_next s < 2 ^ 32 → s_pending s = [] → s_buffer s = [] →
  Forall (λ m, Z.of_nat (length m) < 65536) ms → Forall (λ d, d ≠ []) ds →
  concat ds = concat (map frame ms) →
  (receive ds s).1 = ms ∧ s_buffer (receive ds s).2 = [].
Proof.
  intros Hn Hp Hb Hms Hds Hcat.
  destruct (receive_deframe ds s Hn Hp Hds) as [-> ->]; [by rewrite Hb|].
  rewrite Hb, Hcat. change ([] ++ concat (map frame ms)) with (concat (map frame ms)). clear -Hms.
  induction Hms as [|m ms Hm _ IH]; [done|]. cbn [map concat].
  rewrite deframe_frame by done.
  destruct (deframe (concat (map frame ms))) as [ms' r]. simpl in *. destruct IH. by subst.
Qed.

(** * Witnesses *)

Definition ex_rules : allowlist := Allowlist [] ["a.io"%string] [] [((5353, 1, "a.io"%string, 1), seconds 40)] [].
Definition ex_response : bytes :=
  [0;1;129;128;0;1;0;1;0;0;0;0; 1;97;2;105;111;0; 0;1;0;1; 192;12;0;1;0;1;0;0;0;60;0;4;93;184;216;34].

Lemma ex_rules_wf : al_wf (seconds 20) ex_rules.
Proof.
  split; simpl.
  1-3: split; [apply (bool_decide_unpack _); vm_compute; exact I | vm_compute; lia].
  - intros k e ?%not_elem_of_nil. done.
  - intros p i n k e [= -> -> -> -> ->]%list_elem_of_singleton. reflexivity.
  - intros k s ?%not_elem_of_nil. done.
Qed.

Lemma observe_grants_witness :
  ∃ identity flags count name kind offset expiry records owner ttl,
    true = true ∧
    parse_question ex_response true = Some (identity, flags, count, name, kind, offset) ∧
    matches ex_rules name = true ∧
    od_get (5353, identity, name, kind) (al_queries ex_rules) = Some expiry ∧ seconds 20 ≤ expiry ∧
    parse_records count ex_response offset = Ok records ∧
    alias_of records name owner ∧ Answer owner ttl (Addr [93;184;216;34]) ∈ records.
Proof.
  apply (observe_grants (seconds 20) ex_response 5353 true ex_rules [93;184;216;34]);
    [reflexivity | apply ex_rules_wf | vm_compute; reflexivity | vm_compute; reflexivity].
Defined.

Lemma observe_tcp_bounded_witness :
  al_wf (seconds 20) (observe_tcp (seconds 20) (bytes_of_string "01234567890123456789xyz") 53 true ex_rules).
Proof. apply observe_tcp_bounded. apply ex_rules_wf. Defined.

Lemma tcp_reassembly_witness :
  (receive [[0]; [2; 7; 8; 0]; [1; 9]] (Stream 4294967295 [] [] 0)).1 = [[7; 8]; [9]] ∧
  s_buffer (receive [[0]; [2; 7; 8; 0]; [1; 9]] (Stream 4294967295 [] [] 0)).2 = [].
Proof.
  apply tcp_reassembly; [simpl; lia | reflexivity | reflexivity | | | reflexivity].
  - repeat constructor.
  - repeat constructor; discriminate.
Defined.
