(* ===== verification/NetworkPolicy.v ===== *)
(** [scripts/network_policy.py]: the egress policy outside the guest. A frame is
    its bytes; [allow] is a state-passing function of the frame, its direction
    and the clock, exactly the decision tree of the code. The state is the
    forwarded-connection table, the DNS allowlist and the counters. *)

From S2P Require Import Prelude OrderedDict Ipv4 NetworkAllowlist.
Local Open Scope Z_scope.

(** * Configuration *)

Inductive mode := Internet | Offline | Proxy | AllowMode.

#[export] Instance mode_eq_dec : EqDecision mode.
Proof. solve_decision. Defined.

Definition parse_mode (s : string) : option mode :=
  if bool_decide (s = "internet"%string) then Some Internet
  else if bool_decide (s = "offline"%string) then Some Offline
  else if bool_decide (s = "proxy"%string) then Some Proxy
  else if bool_decide (s = "allowlist"%string) then Some AllowMode
  else None.

(** The JSON configuration; absent lists are empty. *)
Record config := Config {
  c_mode : string; c_allowed_hosts : list string;
  c_guest : string; c_gateway : string; c_dns : string;
  c_host_addresses : list string; c_forwarded_tcp_ports : list Z;
  c_allow_cidrs : list string; c_proxy_endpoints : list string }.

(** [(dport, sport)] of a host connection forwarded to the guest. *)
Definition flow_key : Type := Z * Z.

Record policy := Policy {
  p_mode : mode;
  p_allowlist : allowlist;
  p_guest : bytes; p_gateway : bytes; p_dns : bytes;
  p_hosts : list bytes; p_ports : list Z;
  p_allowed : list network;
  p_proxies : list (bytes * Z);
  p_flows : list (flow_key * Z);
  p_counts : gmap string Z }.

Definition ipv4_address (s : string) : res Z :=
  match ip_of_string s with Some a => Ok a | None => raise ValueError "IPv4 address" end.
Definition ipv4_network (s : string) : res network :=
  match network_of_string s with Some n => Ok n | None => raise ValueError "IPv4 network" end.

(** [int(text)]: spaces around, an optional sign, digits with single
    underscores between them. *)
Fixpoint int_digits (l : list ascii) : option (list ascii) :=
  match l with
  | [] => None
  | [c] => if is_digit c then Some [c] else None
  | c :: ((u :: l2) as l1) =>
      if negb (is_digit c) then None
      else if bool_decide (u = "_"%char) then d ← int_digits l2; Some (c :: d)
      else d ← int_digits l1; Some (c :: d)
  end.
Definition py_int (s : string) : option Z :=
  match chars (str_strip s) with
  | [] => None
  | c :: l =>
      if bool_decide (c = "-"%char) then n ← int_digits l ≫= digits_value; Some (- n)
      else if bool_decide (c = "+"%char) then int_digits l ≫= digits_value
      else int_digits (c :: l) ≫= digits_value
  end.

(** One proxy endpoint, [address:port] split at its last colon. *)
Definition proxy_endpoint (hosts : list bytes) (endpoint : string) : res (bytes * Z) :=
  match reverse (str_split ":" endpoint) with
  | port :: ((_ :: _) as address) =>
      a ← ipv4_address (str_join ":" (reverse address));
      match py_int port with
      | None => raise ValueError "invalid literal for int()"
      | Some port =>
          if negb (is_global a) || negb ((1 <=? port) && (port <=? 65535))
             || bool_decide (packed a ∈ hosts)
          then raise ValueError "proxy endpoint must be a public address outside this host"
          else Ok (packed a, port)
      end
  | _ => raise ValueError "not enough values to unpack"
  end.

(** [NetworkPolicy.__init__] *)
Definition policy_init (c : config) : res policy :=
  match parse_mode (c_mode c) with
  | None => raise ValueError "invalid network mode"
  | Some m =>
      al ← allowlist_init (c_allowed_hosts c);
      guest ← ipv4_address (c_guest c);
      gateway ← ipv4_address (c_gateway c);
      dns ← ipv4_address (c_dns c);
      hosts ← res_map ipv4_address (c_host_addresses c);
      allowed ← res_map ipv4_network (c_allow_cidrs c);
      proxies ← res_map (proxy_endpoint (map packed hosts)) (c_proxy_endpoints c);
      if bool_decide (m = Proxy) && (bool_decide (proxies = []) || negb (bool_decide (allowed = [])))
      then raise ValueError "proxy networking requires endpoints and forbids extra egress rules"
      else Ok (Policy m al (packed guest) (packed gateway) (packed dns) (map packed hosts)
                 (c_forwarded_tcp_ports c) allowed proxies [] ∅)
  end.

(** [update]: new egress rules; connections, counters and addresses stay. *)
Definition policy_update (c : config) (p : policy) : res policy :=
  r ← policy_init c;
  Ok (Policy (p_mode r) (p_allowlist r) (p_guest p) (p_gateway p) (p_dns p) (p_hosts p)
        (p_ports p) (p_allowed r) (p_proxies r) (p_flows p) (p_counts p)).

Definition set_allowlist (al : allowlist) (p : policy) : policy :=
  Policy (p_mode p) al (p_guest p) (p_gateway p) (p_dns p) (p_hosts p) (p_ports p)
    (p_allowed p) (p_proxies p) (p_flows p) (p_counts p).
Definition set_flows (f : list (flow_key * Z)) (p : policy) : policy :=
  Policy (p_mode p) (p_allowlist p) (p_guest p) (p_gateway p) (p_dns p) (p_hosts p) (p_ports p)
    (p_allowed p) (p_proxies p) f (p_counts p).
Definition set_counts (c : gmap string Z) (p : policy) : policy :=
  Policy (p_mode p) (p_allowlist p) (p_guest p) (p_gateway p) (p_dns p) (p_hosts p) (p_ports p)
    (p_allowed p) (p_proxies p) (p_flows p) c.

(** * Frames *)

Record packet := Packet { pk_src : bytes; pk_dst : bytes; pk_proto : Z; pk_payload : bytes }.

(** The transport header of an unfragmented datagram is complete. *)
Definition transport_ok (proto : Z) (payload : bytes) : bool :=
  if proto =? 6 then
    let words := Z.shiftr (u8 payload 12) 4 in
    negb ((length payload <? 20)%nat || (words <? 5) || (Z.of_nat (length payload) <? words * 4))
  else if proto =? 17 then
    negb ((length payload <? 8)%nat
          || negb ((8 <=? u16 payload 4) && (u16 payload 4 <=? Z.of_nat (length payload))))
  else if proto =? 1 then negb (length payload <? 8)%nat
  else false.

(** [NetworkPolicy.ipv4] *)
Definition ipv4 (frame : bytes) : option packet :=
  if (length frame <? 34)%nat || negb (bool_decide (slice frame 12 14 = [8; 0]))
     || negb (u8 frame 14 =? 69)
  then None
  else
    let size := u16 frame 16 in
    let fragment := u16 frame 20 in
    if (size <? 20) || (Z.of_nat (length frame) <? 14 + size) || negb (Z.land fragment 16383 =? 0)
    then None
    else
      let proto := u8 frame 23 in
      let payload := slice frame 34 (14 + Z.to_nat size) in
      if transport_ok proto payload
      then Some (Packet (slice frame 26 30) (slice frame 30 34) proto payload)
      else None.

(** SYN without ACK. *)
Definition opens_connection (payload : bytes) : bool := Z.land (u8 payload 13) 18 =? 2.

(** ARP for the configured addresses only. *)
Definition arp_allowed (p : policy) (frame : bytes) : bool :=
  let arp := slice frame 14 42 in
  bool_decide (slice arp 0 6 = [0; 1; 8; 0; 6; 4])
  && (bool_decide (slice arp 6 8 = [0; 1]) || bool_decide (slice arp 6 8 = [0; 2]))
  && bool_decide (slice arp 14 18 ∈ [p_guest p; [0; 0; 0; 0]])
  && bool_decide (slice arp 24 28 ∈ [p_gateway p; p_dns p; p_guest p]).

(** * Decisions *)

Inductive direction := FromPasst | ToPasst.

Definition flow_limit : nat := Z.to_nat 8192.
Arguments flow_limit : simpl never.

(** [while self.flows and next(iter(self.flows.values())) < now] *)
Definition purge_flows (now : Z) (flows : list (flow_key * Z)) : list (flow_key * Z) :=
  drop_while (λ f, f.2 <? now) flows.

(** A decision, its reason, and the state behind it. *)
Definition decision : Type := bool * string * policy.

Definition touch_flow (now : Z) (key : flow_key) (p : policy) : policy :=
  set_flows (od_touch key (now + seconds 3600) (p_flows p)) p.

(** A frame from the host side to the guest. *)
Definition allow_inbound (now : Z) (p : policy) (pk : option packet) : decision :=
  match pk with
  | None => (true, "inbound", p)%string
  | Some (Packet src dst proto payload) =>
      let sport := u16 payload 0 in
      let dport := u16 payload 2 in
      let host_side := bool_decide (src = p_gateway p) && bool_decide (dst = p_guest p) && (proto =? 6) in
      let forwarded := host_side && bool_decide (dport ∈ p_ports p) in
      let key := (dport, sport) in
      let opening := forwarded && opens_connection payload in
      if opening && negb (bool_decide (is_Some (od_get key (p_flows p))))
         && (flow_limit <=? length (p_flows p))%nat
      then (false, "flow_limit", p)%string
      else
        let p := if opening then touch_flow now key p else p in
        if forwarded then (true, "forward", p)%string
        else match p_mode p with
        | Offline => (false, "offline", p)%string
        | AllowMode =>
            if bool_decide (src = p_dns p) && ((proto =? 6) || (proto =? 17)) && (u16 payload 0 =? 53)
            then
              let al := if proto =? 17
                        then observe now (drop 8 payload) (u16 payload 2) true (p_allowlist p)
                        else observe_tcp now payload (u16 payload 2) true (p_allowlist p) in
              (true, "dns", set_allowlist al p)%string
            else (allows now src (p_allowlist p), "allowlist", p)%string
        | _ => (true, "inbound", p)%string
        end
  end.

(** The last checks, for any egress destination of the modes [internet],
    [allowlist]. *)
Definition allow_egress (now : Z) (p : policy) (pk : packet) : bool * string :=
  let dst := pk_dst pk in
  let addr := ip_of_bytes dst in
  if bool_decide (dst ∈ p_hosts p) || bool_decide (dst ∈ [p_gateway p; p_dns p; p_guest p])
     || is_loopback addr || is_link_local addr
  then (false, "host"%string)
  else if bool_decide (p_mode p = AllowMode) && negb (allows now dst (p_allowlist p))
  then (false, "allowlist"%string)
  else if negb (bool_decide (p_mode p = AllowMode)) && negb (is_global addr)
          && negb (existsb (in_network addr) (p_allowed p))
  then (false, "nonpublic"%string)
  else if is_multicast addr || is_unspecified addr || is_reserved addr
  then (false, "special"%string)
  else if (pk_proto pk =? 1) && negb (bool_decide (take 2 (pk_payload pk) = [8; 0]))
  then (false, "icmp_type"%string)
  else (true, "egress"%string).

(** A frame of the guest. *)
Definition allow_outbound (now : Z) (p : policy) (frame : bytes) (pk : option packet) : decision :=
  if negb (length frame <? 42)%nat && bool_decide (slice frame 12 14 = [8; 6])
  then (arp_allowed p frame, "arp", p)%string
  else match pk with
  | None => (false, "unsupported_or_malformed", p)%string
  | Some pk =>
      let 'Packet src dst proto payload := pk in
      let sport := u16 payload 0 in
      let dport := u16 payload 2 in
      if negb (bool_decide (src = p_guest p)) then (false, "source_spoof", p)%string
      else
        let transport := (proto =? 6) || (proto =? 17) in
        if (proto =? 6) && bool_decide (dst = p_gateway p)
           && bool_decide (is_Some (od_get (sport, dport) (p_flows p)))
           && negb (opens_connection payload)
        then (true, "forward_reply", touch_flow now (sport, dport) p)%string
        else if transport && bool_decide (p_mode p ∈ [Internet; AllowMode])
                && bool_decide (dst = p_dns p) && (dport =? 53)
        then
          let al := if bool_decide (p_mode p = AllowMode)
                    then if proto =? 17
                         then observe now (drop 8 payload) sport false (p_allowlist p)
                         else observe_tcp now payload sport false (p_allowlist p)
                    else p_allowlist p in
          (true, "dns", set_allowlist al p)%string
        else if bool_decide (p_mode p = Offline) then (false, "offline", p)%string
        else if bool_decide (p_mode p = Proxy)
        then ((proto =? 6) && bool_decide ((dst, u16 payload 2) ∈ p_proxies p), "proxy_endpoint"%string, p)
        else (allow_egress now p pk, p)
  end.

(** [NetworkPolicy._allow] *)
Definition allow_decision (now : Z) (frame : bytes) (d : direction) (p : policy) : decision :=
  let p := set_flows (purge_flows now (p_flows p)) p in
  match d with
  | FromPasst => allow_inbound now p (ipv4 frame)
  | ToPasst => allow_outbound now p frame (ipv4 frame)
  end.

Definition count (key : string) (c : gmap string Z) : gmap string Z :=
  <[key := default 0 (c !! key) + 1]> c.

(** [NetworkPolicy.allow] *)
Definition allow (now : Z) (frame : bytes) (d : direction) (p : policy) : bool * policy :=
  let '(ok, reason, p) := allow_decision now frame d p in
  (ok, set_counts (count ((if ok then "allow_" else "deny_") ++ reason) (p_counts p)) p).

(** * Runs *)

Record event := Event { ev_time : Z; ev_frame : bytes; ev_dir : direction; ev_ok : bool }.

(** The policies a relay goes through: [policy_init], then frames in either
    direction at nondecreasing times and rule updates that keep the host
    addresses, as the control socket does. The trace has the latest frame first. *)
Inductive reachable (c : config) (start : Z) : Z → list event → policy → Prop :=
  | reach_init p : policy_init c = Ok p → reachable c start start [] p
  | reach_frame now t tr p frame d ok p' :
      reachable c start t tr p → t ≤ now → allow now frame d p = (ok, p') →
      reachable c start now (Event now frame d ok :: tr) p'
  | reach_update t tr p c' p' :
      reachable c start t tr p → c_host_addresses c' = c_host_addresses c →
      policy_update c' p = Ok p' → reachable c start t tr p'.

(** The host opened this forwarded connection: a SYN from the gateway to a
    forwarded port of the guest was let through. *)
Definition opened (p : policy) (tr : list event) (key : flow_key) : Prop :=
  ∃ now frame pk, Event now frame FromPasst true ∈ tr ∧ ipv4 frame = Some pk ∧
    pk_src pk = p_gateway p ∧ pk_dst pk = p_guest p ∧ pk_proto pk = 6 ∧
    opens_connection (pk_payload pk) = true ∧ u16 (pk_payload pk) 2 ∈ p_ports p ∧
    key = (u16 (pk_payload pk) 2, u16 (pk_payload pk) 0).

(** What no operation changes. *)
Definition same_addresses (p p' : policy) : Prop :=
  p_guest p' = p_guest p ∧ p_gateway p' = p_gateway p ∧ p_dns p' = p_dns p ∧
  p_hosts p' = p_hosts p ∧ p_ports p' = p_ports p.

#[export] Instance same_addresses_refl : Reflexive same_addresses.
Proof. by intros p. Qed.
#[export] Instance same_addresses_trans : Transitive same_addresses.
Proof. unfold same_addresses. intros p q r (?&?&?&?&?) (?&?&?&?&?). split_and!; congruence. Qed.

(** * The connection table *)

(** Entries are ordered by expiry, and none lasts longer than an hour. *)
Definition flows_ok (now : Z) (flows : list (flow_key * Z)) : Prop :=
  od_wf flows ∧ StronglySorted Z.le (map snd flows) ∧
  (∀ k e, (k, e) ∈ flows → e ≤ now + seconds 3600) ∧ (length flows ≤ flow_limit)%nat.

Lemma purge_suffix now flows : ∃ n, purge_flows now flows = drop n flows.
Proof.
  unfold purge_flows. induction flows as [|f l [n IH]]; [by exists 0%nat|]. cbn [drop_while].
  destruct (f.2 <? now); [|exists 0%nat; by rewrite drop_0]. exists (S n). by rewrite IH.
Qed.

Lemma elem_of_purge now flows f : f ∈ purge_flows now flows → f ∈ flows.
Proof.
  destruct (purge_suffix now flows) as [n ->]. intros H.
  rewrite <- (take_drop n flows). set_solver.
Qed.

Lemma purge_filter now flows :
  StronglySorted Z.le (map snd flows) → purge_flows now flows = filter (λ f, now ≤ f.2) flows.
Proof.
  intros Hs. induction flows as [|f l IH]; [done|]. simpl in *.
  inversion Hs as [|? ? Hs' Hall]; subst. rewrite filter_cons.
  change (purge_flows now (f :: l)) with (if f.2 <? now then purge_flows now l else f :: l).
  destruct (Z.ltb_spec (f.2) now).
  - rewrite decide_False by lia. apply IH; done.
  - rewrite decide_True by lia. f_equal. symmetry. apply filter_true.
    intros g Hg. rewrite Forall_forall in Hall.
    assert (f.2 ≤ g.2) by (apply Hall, list_elem_of_fmap; eauto). lia.
Qed.

Lemma sorted_drop (n : nat) (l : list Z) : StronglySorted Z.le l → StronglySorted Z.le (drop n l).
Proof. intros H. rewrite <- (take_drop n l) in H. by eapply StronglySorted_app_1_r. Qed.

Lemma purge_ok now t flows : t ≤ now → flows_ok t flows → flows_ok now (purge_flows now flows).
Proof.
  intros Ht (Hwf & Hs & He & Hl). destruct (purge_suffix now flows) as [n Hn].
  split_and!.
  - rewrite Hn. by apply od_wf_drop.
  - rewrite Hn. change (map snd (drop n flows)) with (snd <$> drop n flows).
    rewrite fmap_drop. by apply sorted_drop.
  - intros k e Hin%elem_of_purge%He. lia.
  - rewrite Hn, length_drop. lia.
Qed.

Lemma sorted_del (k : flow_key) (d : list (flow_key * Z)) :
  StronglySorted Z.le (map snd d) → StronglySorted Z.le (map snd (od_del k d)).
Proof.
  unfold od_del. induction d as [|f d IH]; [done|]. intros H. inversion H as [|? ? Hs Hall]; subst.
  rewrite filter_cons. case_decide; [|auto]. simpl. constructor; [auto|].
  rewrite Forall_forall in *. intros x (g & -> & Hg)%list_elem_of_fmap.
  apply list_elem_of_filter in Hg as [_ Hg].
  apply Hall, list_elem_of_fmap. eauto.
Qed.

Lemma od_del_set k (v : Z) (d : list (flow_key * Z)) : od_del k (od_set k v d) = od_del k d.
Proof.
  unfold od_del. induction d as [|[k' v'] d IH]; simpl.
  - rewrite filter_cons_False; [done | by intros []].
  - destruct (decide (k = k')) as [->|Hk].
    + rewrite !filter_cons_False; [done | by intros [] | by intros []].
    + rewrite !filter_cons_True by (simpl; congruence). by rewrite IH.
Qed.

Lemma od_touch_eq k (v : Z) (d : list (flow_key * Z)) : od_touch k v d = od_del k d ++ [(k, v)].
Proof.
  unfold od_touch, od_to_end. rewrite od_get_set, decide_True by done. by rewrite od_del_set.
Qed.

Lemma touch_ok now key flows :
  flows_ok now flows →
  is_Some (od_get key flows) ∨ (length flows < flow_limit)%nat →
  flows_ok now (od_touch key (now + seconds 3600) flows).
Proof.
  intros (Hwf & Hs & He & Hl) Hroom. split_and!.
  - by apply od_wf_touch.
  - rewrite od_touch_eq, map_app. apply StronglySorted_app. split_and!.
    + intros x1 x2 (f & -> & [Hf _]%elem_of_od_del)%list_elem_of_fmap ->%list_elem_of_singleton.
      destruct f as [k e]. by eapply He.
    + by apply sorted_del.
    + repeat constructor.
  - intros k e [[= -> ->]|Hin]%elem_of_od_touch; [done | by eapply He].
  - rewrite od_touch_eq, length_app. simpl. destruct Hroom as [Hk|Hk].
    + apply od_get_elem_keys, length_od_del_lt in Hk. lia.
    + pose proof (length_od_del key flows). lia.
Qed.

(** * What a decision does to the state *)

Definition opening_frame (p : policy) (frame : bytes) (d : direction) (key : flow_key) : Prop :=
  d = FromPasst ∧ ∃ pk, ipv4 frame = Some pk ∧
    pk_src pk = p_gateway p ∧ pk_dst pk = p_guest p ∧ pk_proto pk = 6 ∧
    opens_connection (pk_payload pk) = true ∧ u16 (pk_payload pk) 2 ∈ p_ports p ∧
    key = (u16 (pk_payload pk) 2, u16 (pk_payload pk) 0).

(** The table is the purged one, or one entry of it was written: a present key
    is refreshed, and a new key is written only for an opening frame that passes. *)
Definition flows_step (now : Z) (p : policy) (frame : bytes) (d : direction) (ok : bool) (p' : policy) : Prop :=
  let purged := purge_flows now (p_flows p) in
  p_flows p' = purged ∨
  ∃ key, p_flows p' = od_touch key (now + seconds 3600) purged ∧
    (is_Some (od_get key purged) ∨
     (length purged < flow_limit)%nat ∧ ok = true ∧ opening_frame p frame d key).

Definition same_rules (p p' : policy) : Prop :=
  p_mode p' = p_mode p ∧ p_allowed p' = p_allowed p ∧ p_proxies p' = p_proxies p.

Lemma allow_decision_step now frame d p ok r p' :
  allow_decision now frame d p = (ok, r, p') →
  same_addresses p p' ∧ same_rules p p' ∧ flows_step now p frame d ok p'.
Proof.
  unfold allow_decision, flows_step. set (p1 := set_flows _ p).
  assert (Hr1 : same_addresses p p1) by done. assert (Hr2 : same_rules p p1) by done.
  assert (Hf : p_flows p1 = purge_flows now (p_flows p)) by done.
  rewrite <- Hf. destruct d.
  - unfold allow_inbound. destruct (ipv4 frame) as [[src dst proto payload]|] eqn:Hpk;
      [|by intros [= <- <- <-]; auto].
    set (port := u16 payload 2). set (sport := u16 payload 0). cbv zeta.
    destruct (bool_decide (src = p_gateway p1) && bool_decide (dst = p_guest p1) && (proto =? 6)) eqn:Hhost;
      cbn [andb]; [|intros; repeat case_match; simplify_eq; auto].
    destruct (bool_decide (port ∈ p_ports p1)) eqn:Hport;
      cbn [andb]; [|intros; repeat case_match; simplify_eq; auto].
    destruct (opens_connection payload) eqn:Hopen; cbn [andb]; [|intros; simplify_eq; auto].
    set (key := (port, sport)).
    destruct (bool_decide (is_Some (od_get key (p_flows p1)))) eqn:Hkey; cbn [andb negb]; intros Hd.
    + simplify_eq. bool_prop. split; [done|]. split; [done|]. right. exists key. eauto.
    + destruct (flow_limit <=? length (p_flows p1))%nat eqn:Hlim; simplify_eq; [auto|].
      split; [done|]. split; [done|]. right. exists key. bool_prop. split; [done|]. right.
      split; [lia|]. split; [done|]. split; [done|]. eexists. split; [done|]. simpl. by bool_prop.
  - unfold allow_outbound. destruct (_ && _); [by intros [= <- <- <-]; auto|].
    destruct (ipv4 frame) as [[src dst proto payload]|]; [|by intros [= <- <- <-]; auto].
    destruct (negb (bool_decide (src = p_guest p1))); [by intros [= <- <- <-]; auto|].
    destruct (_ && _ && _ && _) eqn:Hreply; [|intros; repeat case_match; simplify_eq; auto].
    intros [= <- <- <-]. split; [done|]. split; [done|]. right. eexists. split; [done|].
    left. by bool_prop.
Qed.

Lemma allow_step now frame d p ok p' :
  allow now frame d p = (ok, p') →
  same_addresses p p' ∧ same_rules p p' ∧ flows_step now p frame d ok p'.
Proof.
  unfold allow. destruct (allow_decision now frame d p) as [[ok' r] p1] eqn:E.
  intros [= <- <-]. by apply allow_decision_step in E.
Qed.

Lemma policy_update_addresses c p p' :
  policy_update c p = Ok p' → same_addresses p p' ∧ p_flows p' = p_flows p ∧ p_counts p' = p_counts p.
Proof. unfold policy_update. intros (r & _ & [= <-])%bind_ok. done. Qed.

Lemma opened_weaken p p' e tr key : same_addresses p p' → opened p tr key → opened p' (e :: tr) key.
Proof.
  intros (Eg & Ew & Ed & Eh & Ep) (now & frame & pk & Hin & H1 & H2 & H3 & H4 & H5 & H6 & H7).
  exists now, frame, pk. split_and!; try congruence. by right.
Qed.

(** The invariant of every run. *)
Record run_inv (t : Z) (tr : list event) (p : policy) : Prop := {
  inv_flows : flows_ok t (p_flows p);
  inv_opened : ∀ k, k ∈ keys (p_flows p) → opened p tr k }.

Lemma keys_purge now flows k : k ∈ keys (purge_flows now flows) → k ∈ keys flows.
Proof.
  unfold keys. rewrite !list_elem_of_fmap. intros (f & -> & Hf%elem_of_purge). eauto.
Qed.

Lemma reachable_inv c start t tr p : reachable c start t tr p → run_inv t tr p.
Proof.
  induction 1 as [p Hp|now t tr p frame d ok p' _ [Hf Ho] Ht Hstep|t tr p c' p' _ [Hf Ho] Hhosts Hu].
  - unfold policy_init in Hp. destruct (parse_mode (c_mode c)) as [m|]; [|done].
    repeat (apply bind_ok in Hp as (? & _ & Hp)). case_match; simplify_eq. split; simpl.
    + split_and!; [apply NoDup_nil_2|constructor| |unfold flow_limit; simpl; lia].
      intros ? ? ?%not_elem_of_nil. done.
    + intros k ?%not_elem_of_nil. done.
  - apply allow_step in Hstep as (Ha & _ & Hflow).
    apply purge_ok with (now := now) in Hf; [|done].
    assert (Hold : ∀ k, k ∈ keys (purge_flows now (p_flows p)) → opened p' (Event now frame d ok :: tr) k).
    { intros k Hk%keys_purge%Ho. by eapply opened_weaken. }
    destruct Hflow as [E|(key & E & Hkey)]; split; rewrite E; auto.
    + apply touch_ok; [done|]. destruct Hkey as [?|(? & _ & _)]; auto.
    + intros k Hk. unfold keys in Hk. apply list_elem_of_fmap in Hk as (f & -> & Hf').
      apply elem_of_od_touch in Hf' as [->|Hf']; simpl.
      * destruct Hkey as [Hk|(_ & -> & -> & pk & H1 & H2 & H3 & H4 & H5 & H6 & H7)].
        { apply Hold. by apply od_get_elem_keys. }
        destruct Ha as (Eg & Ew & Ed & Eh & Ep).
        exists now, frame, pk. split_and!; try congruence. left.
      * apply Hold, list_elem_of_fmap. eauto.
  - apply policy_update_addresses in Hu as (Ha & Hfl & _). split; rewrite Hfl; [done|].
    intros k Hk%Ho. destruct Ha as (Eg & Ew & Ed & Eh & Ep).
    destruct Hk as (n & f & pk & ? & ? & ? & ? & ? & ? & ? & ?).
    exists n, f, pk. split_and!; congruence.
Qed.

(** * Egress *)

(** A segment of a connection the host opened. *)
Definition forward_reply (p : policy) (tr : list event) (pk : packet) : Prop :=
  pk_proto pk = 6 ∧ pk_dst pk = p_gateway p ∧ opens_connection (pk_payload pk) = false ∧
  opened p tr (u16 (pk_payload pk) 0, u16 (pk_payload pk) 2).

Definition dns_request (p : policy) (pk : packet) : Prop :=
  (pk_proto pk = 6 ∨ pk_proto pk = 17) ∧ pk_dst pk = p_dns p ∧ u16 (pk_payload pk) 2 = 53.

Definition egress_rule (now : Z) (p : policy) (pk : packet) : Prop :=
  let addr := ip_of_bytes (pk_dst pk) in
  pk_dst pk ∉ p_hosts p ∧ (pk_dst pk ∉ [p_gateway p; p_dns p; p_guest p]) ∧
  is_loopback addr = false ∧ is_link_local addr = false ∧ is_multicast addr = false ∧
  match p_mode p with
  | AllowMode => allows now (pk_dst pk) (p_allowlist p) = true
  | _ => is_global addr = true ∨ existsb (in_network addr) (p_allowed p) = true
  end.

Lemma allow_egress_true now p pk r : allow_egress now p pk = (true, r) → egress_rule now p pk.
Proof.
  unfold allow_egress, egress_rule. cbv zeta. intros H.
  repeat match type of H with (if ?b then _ else _) = _ => destruct b eqn:?; [done|] end.
  bool_prop. split_and!; auto.
  destruct (decide (p_mode p = AllowMode)) as [E|E].
  - rewrite bool_decide_eq_true_2 in * by done. rewrite E. simpl in *. by bool_prop.
  - rewrite bool_decide_eq_false_2 in * by done. simpl in *.
    assert (is_global (ip_of_bytes (pk_dst pk)) = true ∨
            existsb (in_network (ip_of_bytes (pk_dst pk))) (p_allowed p) = true).
    { destruct (is_global _); [by left|]. destruct (existsb _ _); [by right | done]. }
    by destruct (p_mode p).
Qed.

Lemma ipv4_not_arp frame pk : ipv4 frame = Some pk → bool_decide (slice frame 12 14 = [8; 6]) = false.
Proof.
  unfold ipv4. intros H. destruct (_ || _ || _) eqn:E; [done|]. bool_prop.
  apply bool_decide_eq_false. congruence.
Qed.

(** The outbound decision tree, for any run. *)
Lemma outbound_cases c start t tr p now frame pk p' :
  reachable c start t tr p → t ≤ now → ipv4 frame = Some pk →
  allow now frame ToPasst p = (true, p') →
  pk_src pk = p_guest p ∧
  (forward_reply p tr pk ∨
   p_mode p ∈ [Internet; AllowMode] ∧ dns_request p pk ∨
   p_mode p = Proxy ∧ pk_proto pk = 6 ∧ (pk_dst pk, u16 (pk_payload pk) 2) ∈ p_proxies p ∨
   p_mode p ∈ [Internet; AllowMode] ∧ egress_rule now p pk).
Proof.
  intros Hr Ht Hpk H. apply reachable_inv in Hr as [_ Ho].
  unfold allow, allow_decision in H. rewrite Hpk in H.
  set (p1 := set_flows _ p) in *. unfold allow_outbound in H.
  rewrite (ipv4_not_arp _ _ Hpk), andb_false_r in H. destruct pk as [src dst proto payload].
  destruct (bool_decide (src = p_guest p1)) eqn:Hsrc; simpl in H; [|done]. bool_prop.
  split; [done|].
  destruct (_ && _ && _ && _) eqn:Hreply in H.
  { left. bool_prop. split_and!; [done..|]. apply Ho.
    eapply keys_purge, od_get_elem_keys. done. }
  destruct (_ && _ && _ && _) eqn:Hdns in H.
  { right. left. bool_prop. simpl in *. split; [done|]. split_and!; simpl; [|done|done].
    or_cases; auto. }
  destruct (bool_decide (p_mode p = Offline)) eqn:Hoff; [done|].
  destruct (bool_decide (p_mode p = Proxy)) eqn:Hprx.
  { injection H as H _. bool_prop. right. right. left. by bool_prop. }
  destruct (allow_egress now p1 _) as [ok r] eqn:Heg. injection H as -> _.
  right. right. right. split.
  - bool_prop. destruct (p_mode p); set_solver.
  - by apply allow_egress_true in Heg.
Qed.

(** C8: egress confinement. In every run of the policy, an outbound frame that
    is let through is either ARP for the configured gateway, resolver or guest,
    or an IPv4 packet whose source is the guest's own address; and then, in
    [offline] mode it belongs to a connection the host itself opened to a
    forwarded port; in [proxy] mode it belongs to such a connection or is TCP
    to a configured proxy endpoint; in [allowlist] mode it belongs to such a
    connection, is DNS to the configured resolver, or its destination is
    currently allowed. *)
Theorem egress_confined c start t tr p now frame p' :
  reachable c start t tr p → t ≤ now → allow now frame ToPasst p = (true, p') →
  match ipv4 frame with
  | None => arp_allowed p frame = true
  | Some pk =>
      pk_src pk = p_guest p ∧
      match p_mode p with
      | Offline => forward_reply p tr pk
      | Proxy => forward_reply p tr pk ∨
                 pk_proto pk = 6 ∧ (pk_dst pk, u16 (pk_payload pk) 2) ∈ p_proxies p
      | AllowMode => forward_reply p tr pk ∨ dns_request p pk ∨
                     allows now (pk_dst pk) (p_allowlist p) = true
      | Internet => True
      end
  end.
Proof.
  intros Hr Ht H. destruct (ipv4 frame) as [pk|] eqn:Hpk.
  - destruct (outbound_cases _ _ _ _ _ _ _ _ _ Hr Ht Hpk H) as [Hsrc Hc]. split; [done|].
    destruct (p_mode p) eqn:Hm; [done| | |].
    + destruct Hc as [?|[[? _]|[[? _]|[? _]]]]; [done|set_solver|done|set_solver].
    + destruct Hc as [?|[[? _]|[(_ & ? & ?)|[? _]]]]; [by left|set_solver|by right|set_solver].
    + destruct Hc as [?|[[_ ?]|[[? _]|[_ He]]]]; [by left|auto|done|].
      right. right. unfold egress_rule in He. rewrite Hm in He. by destruct He as (_&_&_&_&_&?).
  - unfold allow, allow_decision in H. rewrite Hpk in H. unfold allow_outbound in H.
    destruct (_ && _); [|done]. by injection H.
Qed.

(** The proxy endpoints of a policy are public and none is an address of the host. *)
Definition proxies_ok (c : config) (p : policy) : Prop :=
  ∃ hosts, res_map ipv4_address (c_host_addresses c) = Ok hosts ∧ p_hosts p = map packed hosts ∧
    ∀ a port, (a, port) ∈ p_proxies p → a ∉ p_hosts p ∧ ∃ ip, a = packed ip ∧ is_global ip = true.

Lemma res_map_elem {A B} (f : A → res B) l l' y :
  res_map f l = Ok l' → y ∈ l' → ∃ x, x ∈ l ∧ f x = Ok y.
Proof.
  revert l'. induction l as [|x l IH]; intros l' H Hy; simpl in H.
  - injection H as <-. by apply not_elem_of_nil in Hy.
  - apply bind_ok in H as (z & Hz & (zs & Hzs & [= <-])%bind_ok).
    apply elem_of_cons in Hy as [->|Hy].
    + exists x. split; [left | done].
    + destruct (IH _ Hzs Hy) as (x' & ? & ?). exists x'. split; [by right | done].
Qed.

Lemma proxy_endpoint_ok hosts e a port :
  proxy_endpoint hosts e = Ok (a, port) → a ∉ hosts ∧ ∃ ip, a = packed ip ∧ is_global ip = true.
Proof.
  unfold proxy_endpoint. destruct (reverse _) as [|q [|x l]]; [done..|].
  intros (ip & _ & H)%bind_ok. destruct (py_int q); [|done].
  destruct (_ || _ || _) eqn:E; [done|]. bool_prop. simplify_eq. eauto.
Qed.

Lemma policy_init_proxies c p : policy_init c = Ok p → proxies_ok c p.
Proof.
  unfold policy_init. intros H. destruct (parse_mode (c_mode c)) as [m|]; [|done].
  do 4 apply bind_ok in H as (? & _ & H).
  apply bind_ok in H as (hosts & Hh & H). apply bind_ok in H as (allowed & _ & H).
  apply bind_ok in H as (proxies & Hp & H). destruct (_ && _); [done|]. injection H as <-.
  exists hosts. split_and!; [done|done|]. simpl. intros a port Hin.
  destruct (res_map_elem _ _ _ _ Hp Hin) as (e & _ & He). by apply proxy_endpoint_ok in He.
Qed.

Lemma reachable_proxies c start t tr p : reachable c start t tr p → proxies_ok c p.
Proof.
  induction 1 as [p Hp|now t tr p frame d ok p' _ (hs & H1 & H2 & H3) _ Hstep
                 |t tr p c' p' _ (hs & H1 & H2 & H3) Hhosts Hu].
  - by apply policy_init_proxies.
  - apply allow_step in Hstep as ((_&_&_&Eh&_) & (_&_&Ex) & _). exists hs.
    rewrite Eh, Ex. done.
  - unfold policy_update in Hu. apply bind_ok in Hu as (r & Hr & [= <-]).
    apply policy_init_proxies in Hr as (hs' & H1' & H2' & H3').
    assert (hs' = hs) as -> by congruence. exists hs. split_and!; [done|done|]. simpl.
    intros a port Hin. rewrite H2, <- H2'. eauto.
Qed.

(** The host is out of reach. In every run, in every mode and across rule
    updates, a packet that is let out to one of the host's own addresses belongs
    to a connection the host opened to a forwarded port, or is DNS to the
    configured resolver. In particular no proxy endpoint and no egress rule
    ever leads to the host. *)
Theorem host_protected c start t tr p now frame pk p' :
  reachable c start t tr p → t ≤ now → ipv4 frame = Some pk →
  allow now frame ToPasst p = (true, p') → pk_dst pk ∈ p_hosts p →
  forward_reply p tr pk ∨ dns_request p pk.
Proof.
  intros Hr Ht Hpk H Hdst.
  destruct (outbound_cases _ _ _ _ _ _ _ _ _ Hr Ht Hpk H) as [_ [?|[[_ ?]|[(_ & _ & Hin)|[_ He]]]]];
    [by left|by right| |].
  - destruct (reachable_proxies _ _ _ _ _ Hr) as (hs & _ & _ & Hp). by apply Hp in Hin as [? _].
  - by destruct He.
Qed.

(** The connection table. In every run the table has unique keys and at
    most 8192 entries, every entry stands for a SYN the host sent from the
    gateway to a forwarded port of the guest, and the next decision works on
    exactly the entries that have not expired: the scan that stops at the first
    live entry removes every expired one. *)
Theorem connections_tracked c start t tr p :
  reachable c start t tr p →
  od_wf (p_flows p) ∧ (length (p_flows p) ≤ flow_limit)%nat ∧
  (∀ k, k ∈ keys (p_flows p) → opened p tr k) ∧
  ∀ now, purge_flows now (p_flows p) = filter (λ f, now ≤ f.2) (p_flows p).
Proof.
  intros [(Hwf & Hs & _ & Hl) Ho]%reachable_inv. split_and!; [done..|].
  intros now. by apply purge_filter.
Qed.

(** * Witness: a host connection to port 8080 and the guest's reply *)

Definition ex_config : config :=
  Config "offline" [] "10.0.2.15" "10.0.2.2" "10.0.2.3" ["192.168.1.5"; "10.0.2.2"] [8080] [] [].

Definition ex_tcp (src dst : bytes) (sport dport flags : Z) : bytes :=
  replicate 12 0 ++ [8; 0; 69; 0; 0; 40; 0; 0; 0; 0; 64; 6; 0; 0] ++ src ++ dst ++
  [sport / 256; sport mod 256; dport / 256; dport mod 256; 0; 0; 0; 0; 0; 0; 0; 0; 80; flags; 0; 0; 0; 0; 0; 0].
Definition ex_syn : bytes := ex_tcp [10; 0; 2; 2] [10; 0; 2; 15] 40000 8080 2.
Definition ex_reply : bytes := ex_tcp [10; 0; 2; 15] [10; 0; 2; 2] 8080 40000 18.

Definition ex_p0 : policy := default (Policy Internet (Allowlist [] [] [] [] []) [] [] [] [] [] [] [] [] ∅)
                               (res_option (policy_init ex_config)).
Definition ex_p1 : policy := (allow (seconds 5) ex_syn FromPasst ex_p0).2.

Lemma ex_reachable : reachable ex_config 0 (seconds 5) [Event (seconds 5) ex_syn FromPasst true] ex_p1.
Proof.
  apply (reach_frame _ _ _ 0 [] ex_p0); [apply reach_init; vm_compute; reflexivity | vm_compute; discriminate |].
  vm_compute. reflexivity.
Qed.

Lemma egress_confined_witness :
  allow (seconds 6) ex_reply ToPasst ex_p1 = (true, (allow (seconds 6) ex_reply ToPasst ex_p1).2) ∧
  match ipv4 ex_reply with
  | None => False
  | Some pk => forward_reply ex_p1 [Event (seconds 5) ex_syn FromPasst true] pk
  end.
Proof.
  assert (H : allow (seconds 6) ex_reply ToPasst ex_p1
              = (true, (allow (seconds 6) ex_reply ToPasst ex_p1).2)) by (vm_compute; reflexivity).
  split; [exact H|].
  pose proof (egress_confined _ _ _ _ _ (seconds 6) _ _ ex_reachable
                ltac:(unfold seconds; lia) H) as E.
  exact (proj2 E).
Defined.

Lemma host_protected_witness :
  ∃ pk, ipv4 ex_reply = Some pk ∧ pk_dst pk ∈ p_hosts ex_p1 ∧
    (forward_reply ex_p1 [Event (seconds 5) ex_syn FromPasst true] pk ∨ dns_request ex_p1 pk).
Proof.
  eexists. split; [vm_compute; reflexivity|].
  assert (Hin : [10; 0; 2; 2] ∈ p_hosts ex_p1) by (apply (bool_decide_unpack _); vm_compute; exact I).
  split; [exact Hin|].
  eapply (host_protected ex_config 0 (seconds 5) _ ex_p1 (seconds 6) ex_reply);
    [apply ex_reachable | unfold seconds; lia | vm_compute; reflexivity | vm_compute; reflexivity | exact Hin].
Defined.

Lemma connections_tracked_witness :
  (length (p_flows ex_p1) ≤ flow_limit)%nat ∧ keys (p_flows ex_p1) = [(8080, 40000)].
Proof.
  split; [apply (connections_tracked _ _ _ _ _ ex_reachable) | vm_compute; reflexivity].
Defined.
