(* ===== verification/Proxy.v ===== *)
(** [sandbox/proxy.py]: which proxy of a network a sandbox gets. URLs are those
    [parse] accepted; random choices are an argument. *)

From S2P Require Import Prelude OrderedDict.
Local Open Scope Z_scope.

(** * Networks *)

(** [ProxyPolicy] *)
Record proxy_policy := ProxyPolicy { pp_distribution : string; pp_region : option string }.

(** [ProxyPolicy.__post_init__] *)
Definition policy_check (p : proxy_policy) : res () :=
  _ ← raise_if (negb (bool_decide (pp_distribution p ∈ ["random"; "round_robin"; "same_proxy"; "same_region"]%string)))
        ValueError "proxy distribution must be random, round_robin, same_proxy or same_region";
  match pp_region p with
  | Some r => raise_if (bool_decide (str_strip r = ""%string)) ValueError "proxy region must be a nonempty label"
  | None => Ok ()
  end.

Definition default_policy : proxy_policy := ProxyPolicy "random" None.

(** A list of URLs, or URLs grouped by region. *)
Inductive urls :=
  | Plain (l : list string)
  | Grouped (l : list (string * list string)).

(** The entries of a definition's network. *)
Record network := Network { nw_mode : string; nw_proxy : option urls; nw_policy : option proxy_policy }.

Definition values (l : list string) : res (list string) :=
  _ ← raise_if (bool_decide (l = [])) ValueError "proxy must be a URL or a nonempty list of URLs"; Ok l.

Definition label_lt (a b : string * list string) : bool := str_ltb a.1 b.1.
Definition catalog (v : urls) : res urls :=
  match v with
  | Plain l => Plain <$> values l
  | Grouped l =>
      _ ← raise_if (bool_decide (l = []) || existsb (λ r, bool_decide (str_strip r.1 = ""%string)) l)
            ValueError "proxy regions must be nonempty labels with nonempty URL lists";
      Grouped <$> res_map (λ r, u ← values r.2; Ok (r.1, u)) (sort_by label_lt l)
  end.

Definition entries (v : urls) : res (list (option string * string)) :=
  c ← catalog v;
  Ok match c with
     | Plain l => map (λ u, (None, u)) l
     | Grouped l => concat (map (λ r, map (λ u, (Some r.1, u)) r.2) l)
     end.

(** The indices of a list whose elements satisfy [f]. *)
Definition indices_where {A} (f : A → bool) (l : list A) : list nat :=
  omap (λ p : nat * A, if f p.2 then Some p.1 else None) (imap pair l).

Definition candidates (v : urls) (p : proxy_policy) : res (list (option string * string) * list nat) :=
  available ← entries v;
  _ ← raise_if ((bool_decide (is_Some (pp_region p)) || bool_decide (pp_distribution p = "same_region"%string))
                && match v with Plain _ => true | Grouped _ => false end)
        ValueError "region policies require proxy URLs grouped by region";
  let indices := indices_where (λ e, match pp_region p with
                                     | None => true
                                     | Some r => bool_decide (e.1 = Some r)
                                     end) available in
  _ ← raise_if (bool_decide (indices = [])) ValueError "the requested proxy region has no supplied proxies";
  Ok (available, indices).

(** * Selection *)

(** What a pool remembers between selections. *)
Record proxy_state := ProxyState { ps_region : option string; ps_index : option nat; ps_cursor : option Z }.
Definition no_proxy_state : proxy_state := ProxyState None None None.

Definition region_at (available : list (option string * string)) (i : nat) : option string :=
  match available !! i with Some e => e.1 | None => None end.

#[export] Instance proxy_policy_eq_dec : EqDecision proxy_policy.
Proof. solve_decision. Defined.
#[export] Instance proxy_state_eq_dec : EqDecision proxy_state.
Proof. solve_decision. Defined.
#[export] Instance urls_eq_dec : EqDecision urls.
Proof. solve_decision. Defined.
#[export] Instance network_eq_dec : EqDecision network.
Proof. solve_decision. Defined.

Section select.
  (** [secrets.randbelow] *)
  Context (randbelow : nat → nat).

(** The region step of [same_region]. *)
Definition pin_region (available : list (option string * string)) (indices : list nat) (s : proxy_state)
    : list nat * proxy_state :=
  let regions := sort_by str_ltb (remove_dups (omap (region_at available) indices)) in
  let s := match ps_region s with
           | Some _ => s
           | None => ProxyState (regions !! randbelow (length regions)) (ps_index s) (ps_cursor s)
           end in
  (filter (λ i, region_at available i = ps_region s) indices, s).

Definition select (n : network) (v : urls) (state : option proxy_state) (advance : bool) : res (nat * proxy_state) :=
  let policy := default default_policy (nw_policy n) in
  _ ← policy_check policy;
  c ← candidates v policy;
  let '(available, indices) := c : _ * _ in
  let distribution := pp_distribution policy in
  let standalone := bool_decide (state = None) in
  let s := default no_proxy_state state in
  let '(indices, s) := if bool_decide (distribution = "same_region"%string) then pin_region available indices s
                       else (indices, s) in
  _ ← raise_if (bool_decide (indices = [])) ValueError "saved proxy region no longer has eligible proxies";
  let random := default O (indices !! randbelow (length indices)) in
  let '(index, s) :=
    if bool_decide (distribution = "same_proxy"%string) && negb standalone then
      match ps_index s with
      | Some i => (i, s)
      | None => (random, ProxyState (ps_region s) (Some random) (ps_cursor s))
      end
    else if bool_decide (distribution ∈ ["round_robin"; "same_region"]%string) && negb standalone then
      let cursor := default 0 (ps_cursor s) in
      (default O (indices !! Z.to_nat (cursor mod Z.of_nat (length indices))),
       if advance then ProxyState (ps_region s) (ps_index s) (Some (cursor + 1)) else s)
    else (random, s) in
  _ ← raise_if (negb (bool_decide (index ∈ indices))) ValueError "saved proxy selection no longer matches the policy";
  Ok (index, s).
End select.

Definition requires_policy (n : network) : bool :=
  bool_decide (is_Some (nw_policy n)) || match nw_proxy n with Some (Grouped _) => true | _ => false end.

(** * Correctness *)

(** [k] consecutive selections of a pool. *)
Fixpoint draws (randbelow : nat → nat) (n : network) (v : urls) (k : nat) (s : proxy_state) : res (list nat * proxy_state) :=
  match k with
  | O => Ok ([], s)
  | S k =>
      x ← select randbelow n v (Some s) true;
      y ← draws randbelow n v k x.2;
      Ok (x.1 :: y.1, y.2)
  end.

(** The eligible indices, from the cursor on, wrapping around. *)
Definition rotation (indices : list nat) (cursor : Z) (k : nat) : list nat :=
  map (λ j, default O (indices !! Z.to_nat ((cursor + Z.of_nat j) mod Z.of_nat (length indices)))) (seq 0 k).

Lemma rotation_succ indices cursor k :
  rotation indices cursor (S k) =
    default O (indices !! Z.to_nat (cursor mod Z.of_nat (length indices))) :: rotation indices (cursor + 1) k.
Proof.
  unfold rotation. simpl. f_equal; [by rewrite Z.add_0_r|].
  rewrite <- seq_shift, map_map. apply map_ext. intros j. do 4 f_equal. lia.
Qed.

Lemma map_lookup_seq (l : list nat) a n :
  (a + n ≤ length l)%nat → map (λ j, default O (l !! j)) (seq a n) = take n (drop a l).
Proof.
  revert a. induction n as [|n IH]; intros a Hn; [done|]. simpl.
  destruct (lookup_lt_is_Some_2 l a ltac:(lia)) as [x Hx]. rewrite (drop_S l x a Hx), Hx, IH by lia. done.
Qed.

Lemma seq_from a n : seq a n = map (Nat.add a) (seq 0 n).
Proof. rewrite <- (Nat.add_0_r a) at 1. symmetry. exact (fmap_add_seq a 0 n). Qed.

(** A full turn is a permutation of the eligible indices. *)
Lemma rotation_turn indices cursor :
  indices ≠ [] → rotation indices cursor (length indices) ≡ₚ indices.
Proof.
  intros Hne. set (n := length indices). assert (Hn : (0 < n)%nat) by (destruct indices; [done|simpl in *; lia]).
  set (r := Z.to_nat (cursor mod Z.of_nat n)).
  assert (Hr : 0 ≤ cursor mod Z.of_nat n < Z.of_nat n) by (apply Z.mod_pos_bound; lia).
  assert (E : rotation indices cursor n = drop r indices ++ take r indices).
  { assert (Hseq : seq 0 n = seq 0 (n - r) ++ seq (0 + (n - r)) r) by (rewrite <- seq_app; f_equal; lia).
    unfold rotation. rewrite Hseq, map_app. f_equal.
    - transitivity (map (λ j, default O (indices !! j)) (seq r (n - r))).
      + rewrite (seq_from r), map_map. apply map_ext_in. intros j [_ Hj]%in_seq. do 2 f_equal. fold n.
        rewrite <- Zplus_mod_idemp_l, Z.mod_small by lia. lia.
      + rewrite map_lookup_seq by lia. rewrite take_ge; [done|]. rewrite length_drop. lia.
    - transitivity (map (λ j, default O (indices !! j)) (seq 0 r)).
      + rewrite (seq_from (0 + (n - r))), map_map. apply map_ext_in. intros j [_ Hj]%in_seq. do 2 f_equal. fold n.
        rewrite <- Zplus_mod_idemp_l.
        replace (cursor mod Z.of_nat n + Z.of_nat (0 + (n - r) + j)) with (Z.of_nat j + 1 * Z.of_nat n) by lia.
        rewrite Z_mod_plus_full, Z.mod_small by lia. lia.
      + by rewrite map_lookup_seq by lia. }
  rewrite E, Permutation_app_comm, take_drop. done.
Qed.

Lemma candidates_nonempty v p available indices : candidates v p = Ok (available, indices) → indices ≠ [].
Proof.
  intros Hv. unfold candidates in Hv. apply bind_ok in Hv as (a & _ & Hv). apply bind_ok in Hv as ([] & _ & Hv).
  apply bind_ok in Hv as ([] & Hr & [= _ <-]). unfold raise_if in Hr. by case_bool_decide.
Qed.

Lemma select_round_robin randbelow n v s p available indices :
  nw_policy n = Some p → pp_distribution p = "round_robin"%string → policy_check p = Ok () →
  candidates v p = Ok (available, indices) →
  let cursor := default 0 (ps_cursor s) in
  select randbelow n v (Some s) true =
    Ok (default O (indices !! Z.to_nat (cursor mod Z.of_nat (length indices))),
        ProxyState (ps_region s) (ps_index s) (Some (cursor + 1))).
Proof.
  intros Hp Hd Hc Hv cursor. unfold select. rewrite Hp. cbn [default from_option id]. rewrite Hc, Hv. simpl. rewrite Hd.
  pose proof (candidates_nonempty _ _ _ _ Hv) as Hne. simpl.
  rewrite (bool_decide_eq_false_2 (indices = [])) by done. simpl.
  assert (Hlen : (0 < length indices)%nat) by (destruct indices; [done|simpl; lia]).
  fold cursor. set (i := Z.to_nat (cursor mod Z.of_nat (length indices))).
  assert (Hi : (i < length indices)%nat) by (subst i; pose proof (Z.mod_pos_bound cursor (Z.of_nat (length indices)) ltac:(lia)); lia).
  destruct (lookup_lt_is_Some_2 indices i Hi) as [x Hx]. rewrite Hx. simpl.
  rewrite bool_decide_eq_true_2; [done|]. by apply list_elem_of_lookup_2 in Hx.
Qed.

Lemma draws_round_robin randbelow n v p available indices k s :
  nw_policy n = Some p → pp_distribution p = "round_robin"%string → policy_check p = Ok () →
  candidates v p = Ok (available, indices) →
  ∃ s', draws randbelow n v k s = Ok (rotation indices (default 0 (ps_cursor s)) k, s') ∧
        default 0 (ps_cursor s') = default 0 (ps_cursor s) + Z.of_nat k.
Proof.
  intros Hp Hd Hc Hv. revert s. induction k as [|k IH]; intros s.
  { exists s. split; [done|]. simpl. lia. }
  rewrite rotation_succ. cbn [draws]. rewrite (select_round_robin _ _ _ _ _ _ _ Hp Hd Hc Hv). simpl.
  destruct (IH (ProxyState (ps_region s) (ps_index s) (Some (default 0 (ps_cursor s) + 1)))) as (s' & E & Hs').
  simpl in E, Hs'. rewrite E. simpl. exists s'. split; [done|]. lia.
Qed.

(** rotation. With a round-robin policy, as many consecutive selections as there
    are eligible proxies use each of them exactly once, whatever was selected
    before, and every further turn does so again. *)
Theorem proxy_rotation randbelow n v p available indices s :
  nw_policy n = Some p → pp_distribution p = "round_robin"%string → policy_check p = Ok () →
  candidates v p = Ok (available, indices) →
  ∃ l s', draws randbelow n v (length indices) s = Ok (l, s') ∧ l ≡ₚ indices ∧
    ∃ l' s'', draws randbelow n v (length indices) s' = Ok (l', s'') ∧ l' = l.
Proof.
  intros Hp Hd Hc Hv. destruct (draws_round_robin randbelow n v p available indices (length indices) s Hp Hd Hc Hv) as (s' & E & Hs).
  pose proof (candidates_nonempty _ _ _ _ Hv) as Hne.
  eexists _, s'. split; [exact E|]. split; [by apply rotation_turn|].
  destruct (draws_round_robin randbelow n v p available indices (length indices) s' Hp Hd Hc Hv) as (s'' & E' & _).
  eexists _, s''. split; [exact E'|]. unfold rotation. apply map_ext. intros j. do 3 f_equal. rewrite Hs.
  replace (default 0 (ps_cursor s) + Z.of_nat (length indices) + Z.of_nat j)
    with (default 0 (ps_cursor s) + Z.of_nat j + 1 * Z.of_nat (length indices)) by lia.
  apply Z_mod_plus_full.
Qed.

(** * Witness *)

Definition ex_urls : urls := Grouped [("us", ["http://a:1"; "http://b:1"]); ("eu", ["http://c:1"])]%string.
Definition ex_network : network := Network "proxy" (Some ex_urls) (Some (ProxyPolicy "round_robin" (Some "us"%string))).

Lemma proxy_rotation_witness :
  ∃ l s', draws (λ _, O) ex_network ex_urls 2 (ProxyState None None (Some 7)) = Ok (l, s') ∧ l ≡ₚ [1; 2]%nat ∧
    ∃ l' s'', draws (λ _, O) ex_network ex_urls 2 s' = Ok (l', s'') ∧ l' = l.
Proof.
  apply (proxy_rotation (λ _, O) ex_network ex_urls (ProxyPolicy "round_robin" (Some "us"%string))
    [(Some "eu", "http://c:1"); (Some "us", "http://a:1"); (Some "us", "http://b:1")]%string [1; 2]%nat);
    vm_compute; reflexivity.
Defined.
