(* ===== verification/Resources.v ===== *)
(** [sandbox/resources.py] and [sandbox/admission.py]: the resource values of a
    sandbox definition, their validation, and the memory reservation a worker
    makes for a definition. Numbers that may be floats are rationals; a float
    that is not finite is [VFloat None]. *)

From S2P Require Import Prelude Proxy.
From Stdlib Require Import QArith.
Local Open Scope Z_scope.

(** * Values arriving over the wire *)

Inductive pyval :=
  | VNone
  | VBool (b : bool)
  | VInt (n : Z)
  | VFloat (q : option Q)
  | VStr (s : string)
  | VOther.

#[export] Instance Q_eq_dec : EqDecision Q.
Proof. solve_decision. Defined.
#[export] Instance pyval_eq_dec : EqDecision pyval.
Proof. solve_decision. Defined.

(** Python truth of a value; containers ([VOther]) are nonempty here. *)
Definition truthy (v : pyval) : bool :=
  match v with
  | VNone => false
  | VBool b => b
  | VInt n => negb (n =? 0)
  | VFloat (Some q) => negb (Qeq_bool q 0)
  | VFloat None => true
  | VStr s => negb (bool_decide (s = ""%string))
  | VOther => true
  end.

(** [positive]: booleans are not numbers here; an integer may be required. *)
Definition positive (value : pyval) (name : string) (integer : bool) : res pyval :=
  let error := raise ValueError
    (name ++ " must be a positive " ++ if integer then "integer" else "number") in
  match value with
  | VInt n => if n <=? 0 then error else Ok value
  | VFloat (Some q) => if Qle_bool q 0 || integer then error else Ok value
  | VFloat None => error
  | _ => raise ValueError (name ++ " must be a positive number")
  end.

(** * Memory sizes *)

Definition KiB : Z := 1024.
Definition MiB : Z := 1024 ^ 2.

(** [decimal]'s default context keeps 28 significant digits, rounding half to
    even: the number [c * 10 ^ e] as the product of a [Decimal] and an integer. *)
Fixpoint excess_digits (fuel : nat) (c : Z) : Z :=
  match fuel with
  | O => 0
  | S fuel => if c <? 10 ^ 28 then 0 else 1 + excess_digits fuel (c / 10)
  end.
Definition half_even (c k : Z) : Z :=
  let q := c / 10 ^ k in
  let r := c mod 10 ^ k in
  if (10 ^ k <? 2 * r) || ((2 * r =? 10 ^ k) && Z.odd q) then q + 1 else q.
Definition decimal_round (c e : Z) : Z * Z :=
  let k := excess_digits (S (Z.to_nat (Z.log2 c))) c in
  if k =? 0 then (c, e) else (half_even c k, e + k).

(** [result == int(result)] and its value. *)
Definition decimal_integer (c e : Z) : option Z :=
  if 0 <=? e then Some (c * 10 ^ e)
  else if c mod 10 ^ (- e) =? 0 then Some (c / 10 ^ (- e)) else None.

(** The unit of a size: its base and exponent. *)
Definition size_unit (l : list ascii) : option (Z * Z) :=
  let exponent c :=
    if bool_decide (c = "K"%char) then Some 1 else if bool_decide (c = "M"%char) then Some 2
    else if bool_decide (c = "G"%char) then Some 3 else if bool_decide (c = "T"%char) then Some 4
    else None in
  match map upper_char l with
  | ["B"%char] => Some (1000, 0)
  | [p; "B"%char] => e ← exponent p; Some (1000, e)
  | [p; "I"%char; "B"%char] => e ← exponent p; Some (1024, e)
  | _ => None
  end.

Fixpoint span_digits (l : list ascii) : list ascii * list ascii :=
  match l with
  | [] => ([], [])
  | c :: l' => if is_digit c then let '(d, r) := span_digits l' in (c :: d, r) else ([], l)
  end.

(** [\s*(\d+(?:\.\d+)?)\s*(B|[KMGT]i?B)\s*] on the whole text: the digits, how
    many of them are fractional, and the unit. *)
Definition parse_size (s : string) : option (Z * Z * (Z * Z)) :=
  let l := rdrop_while is_space (drop_while is_space (chars s)) in
  let '(whole, rest) := span_digits l in
  let '(frac, rest) :=
    match rest with
    | "."%char :: r => match span_digits r with ([], _) => ([], rest) | p => p end
    | _ => ([], rest)
    end in
  if bool_decide (whole = []) then None
  else
    n ← digits_value (whole ++ frac);
    u ← size_unit (drop_while is_space rest);
    Some (n, Z.of_nat (length frac), u).

(** [memory_bytes] *)
Definition memory_bytes (value : pyval) : res Z :=
  match value with
  | VInt n => if n <=? 0 then raise ValueError "memory must be a positive integer" else Ok n
  | VStr s =>
      match parse_size s with
      | None => raise ValueError ("invalid memory size: " ++ s)
      | Some (n, f, (base, exponent)) =>
          let '(c, e) := decimal_round (n * base ^ exponent) (- f) in
          match decimal_integer c e with
          | Some b => if b <=? 0 then raise ValueError "memory must resolve to a positive whole byte count"
                      else Ok b
          | None => raise ValueError "memory must resolve to a positive whole byte count"
          end
      end
  | _ => raise ValueError "memory must be bytes or a size"
  end.

(** * Resource classes *)

Record cpu := Cpu { cpu_vcpus : pyval; cpu_weight : pyval; cpu_quota : option pyval }.
(** [CPU.__post_init__] *)
Definition cpu_check (c : cpu) : res () :=
  _ ← positive (cpu_vcpus c) "vcpus" true;
  _ ← positive (cpu_weight c) "weight" true;
  match cpu_quota c with
  | Some q => _ ← positive q "quota" false; Ok ()
  | None => Ok ()
  end.

(** [not path.startswith('/') or any(c in path ...) or '..' in parts] *)
Definition unsafe_path (path : string) : bool :=
  negb (str_startswith "/" path)
  || existsb (λ c, bool_decide (c ∈ ["000"; "010"; "013"; ":"; ","]%char)) (chars path)
  || bool_decide (".."%string ∈ str_split "/" path).

Record storage := Storage { st_mode : string; st_path : option string }.
(** [Storage.__post_init__] *)
Definition storage_check (s : storage) : res () :=
  if negb (bool_decide (st_mode s ∈ ["disk"; "memory"]%string))
  then raise ValueError "storage mode must be disk or memory"
  else match st_path s with
  | None => Ok ()
  | Some p =>
      if negb (bool_decide (st_mode s = "disk"%string)) then raise ValueError "storage path requires disk mode"
      else raise_if (unsafe_path p) ValueError "storage path must be an absolute worker directory"
  end.

Record memory := Memory {
  mem_guest : pyval; mem_runtime : pyval;
  mem_disk : option pyval; mem_disk_path : option string;
  mem_reservation : option pyval; mem_experimental : bool;
  mem_runtime_reservation : option pyval }.

(** One reservation of [Memory.__post_init__]: opt-in, and in [low, full]. *)
Definition reservation_check (m : memory) (r : option pyval) (low : Z) (full : pyval) : res () :=
  match r with
  | None => Ok ()
  | Some v =>
      if negb (mem_experimental m) then raise ValueError "memory sharing requires experimental=True"
      else
        b ← memory_bytes v;
        if negb (low <=? b) then raise ValueError "memory reservation out of range"
        else
          f ← memory_bytes full;
          raise_if (negb (b <=? f)) ValueError "memory reservation out of range"
  end.

(** [Memory.__post_init__] *)
Definition memory_check (m : memory) : res () :=
  g ← memory_bytes (mem_guest m);
  _ ← raise_if (g <? 64 * MiB) ValueError "guest memory must be at least 64MiB";
  r ← memory_bytes (mem_runtime m);
  _ ← raise_if (r <? 32 * MiB) ValueError "runtime memory must be at least 32MiB";
  _ ← reservation_check m (mem_reservation m) (64 * MiB) (mem_guest m);
  _ ← reservation_check m (mem_runtime_reservation m) (32 * MiB) (mem_runtime m);
  match mem_disk m, mem_disk_path m with
  | None, None => Ok ()
  | Some d, Some p =>
      b ← memory_bytes d;
      _ ← raise_if (b <? 64 * MiB) ValueError "disk memory must be at least 64MiB";
      raise_if (unsafe_path p) ValueError "disk_path must be an absolute worker directory"
  | _, _ => raise ValueError "disk memory requires both disk and disk_path"
  end.

(** A GPU request: no model, one name, or a sequence of names. *)
Inductive gpu_model := AnyModel | OneModel (m : string) | Models (l : list string).
Record gpu := Gpu {
  gpu_choice : gpu_model; gpu_sm_chunks : option pyval;
  gpu_client_memory : option pyval; gpu_experimental : bool }.

Definition blank (s : string) : bool := bool_decide (str_strip s = ""%string).

(** [GPU.__post_init__] *)
Definition gpu_check (g : gpu) : res () :=
  let bad := match gpu_choice g with
             | AnyModel => false
             | OneModel m => blank m
             | Models l => bool_decide (l = []) || existsb blank l
             end in
  _ ← raise_if bad ValueError "GPU model must be a nonempty string or sequence of model names";
  _ ← match gpu_sm_chunks g with Some v => positive v "sm_chunks" true | None => Ok VNone end;
  _ ← match gpu_client_memory g with Some v => memory_bytes v | None => Ok 0 end;
  _ ← raise_if ((bool_decide (is_Some (gpu_sm_chunks g)) || bool_decide (is_Some (gpu_client_memory g)))
                && negb (gpu_experimental g)) ValueError "MPS sharing requires experimental=True";
  raise_if (bool_decide (is_Some (gpu_client_memory g)) && bool_decide (gpu_sm_chunks g = None))
    ValueError "client_memory requires an MPS sm_chunks partition".

(** [a in b] for strings *)
Fixpoint is_infix (a b : list ascii) : bool :=
  bool_decide (take (length a) b = a) || match b with [] => false | _ :: b' => is_infix a b' end.
Definition str_contains (a b : string) : bool := is_infix (chars a) (chars b).

(** [gpu_matches] *)
Definition gpu_matches (request : gpu) (model : string) : bool :=
  let accepts choice := str_contains (str_lower choice) (str_lower model) in
  match gpu_choice request with
  | AnyModel => true
  | OneModel m => accepts m
  | Models l => bool_decide (l = []) || existsb accepts l
  end.

(** * Sandbox definitions *)

(** The entries of a definition ([spec]) the control plane reads. The flags are
    the truth of the optional entry of that name. *)
Record fields := Fields {
  f_runtime : string;
  f_memory : memory;
  f_gpu : option gpu;
  f_gpu_uuid : option string;
  f_image_import_memory : option pyval;
  f_kvm : pyval;
  f_name : option string;
  f_detached : bool;
  f_startup_timeout : pyval;
  f_network_id : option string;
  f_recording : bool;
  f_service_group : bool;
  f_audit : bool;
  f_clock : bool;
  f_disk_storage : bool;
  f_discard_workspace : bool;
  f_network : network;
  f_ttl : option pyval;
  f_vr : bool;
  f_keep_on_error : bool;
  f_recording_on_claim : bool;
  f_retention_pool : option string;
  f_proxy_assignment : option nat }.

#[export] Instance fields_updatable : Updatable fields := λ f,
  Fields (f_runtime f) (f_memory f) (f_gpu f) (f_gpu_uuid f) (f_image_import_memory f) (f_kvm f)
    (f_name f) (f_detached f) (f_startup_timeout f) (f_network_id f) (f_recording f)
    (f_service_group f) (f_audit f) (f_clock f) (f_disk_storage f) (f_discard_workspace f)
    (f_network f) (f_ttl f) (f_vr f) (f_keep_on_error f) (f_recording_on_claim f) (f_retention_pool f) (f_proxy_assignment f).

(** A definition and its services: each has a name, an identity and a request
    with a definition of its own and an optional snapshot reference. *)
Inductive spec :=
  Spec (f : fields) (services : list (string * (string * option string * spec))).

Definition spec_fields (s : spec) : fields := let 'Spec f _ := s in f.
Definition spec_services (s : spec) : list (string * (string * option string * spec)) :=
  let 'Spec _ l := s in l.
Definition map_fields (g : fields → fields) (s : spec) : spec := let 'Spec f l := s in Spec (g f) l.
Definition service_spec (s : string * (string * option string * spec)) : spec := s.2.2.

#[export] Instance memory_eq_dec : EqDecision memory.
Proof. solve_decision. Defined.
#[export] Instance gpu_model_eq_dec : EqDecision gpu_model.
Proof. solve_decision. Defined.
#[export] Instance gpu_eq_dec : EqDecision gpu.
Proof. solve_decision. Defined.
#[export] Instance fields_eq_dec : EqDecision fields.
Proof. solve_decision. Defined.

(** Equality of definitions, services included. *)
Fixpoint spec_eqb (a b : spec) {struct a} : bool :=
  let 'Spec f l := a in
  let 'Spec f' l' := b in
  bool_decide (f = f') &&
  (fix go (l l' : list (string * (string * option string * spec))) :=
     match l, l' with
     | [], [] => true
     | (n, (i, c)) :: l, (n', (i', c')) :: l' => bool_decide (n = n') && (bool_decide (i = i') && (spec_eqb c c' && go l l'))
     | _, _ => false
     end) l l'.

Section spec_induction.
  Context (P : spec → Prop).
  Context (step : ∀ f services, Forall (λ s, P (service_spec s)) services → P (Spec f services)).

Fixpoint spec_induction (s : spec) : P s :=
    match s with
    | Spec f services =>
        step f services
          ((fix go (l : list (string * (string * option string * spec))) :
                Forall (λ s, P (service_spec s)) l :=
              match l with
              | [] => Forall_nil_2 _
              | s :: l => Forall_cons_2 _ _ _ (spec_induction (service_spec s)) (go l)
              end) services)
    end.
End spec_induction.

Lemma spec_eqb_eq a b : spec_eqb a b = true ↔ a = b.
Proof.
  revert b. induction a as [f l IH] using spec_induction. intros [f' l']. simpl.
  rewrite andb_true_iff, bool_decide_eq_true.
  enough (H : ∀ l', (fix go (l l' : list (string * (string * option string * spec))) :=
     match l, l' with
     | [], [] => true
     | (n, (i, c)) :: l, (n', (i', c')) :: l' => bool_decide (n = n') && (bool_decide (i = i') && (spec_eqb c c' && go l l'))
     | _, _ => false
     end) l l' = true ↔ l = l').
  { rewrite H. naive_solver. }
  clear l'. induction IH as [|[n [i c]] l Hc _ IHl]; intros [|[n' [i' c']] l']; try done.
  cbn [service_spec snd] in Hc. rewrite !andb_true_iff, !bool_decide_eq_true, Hc, IHl. naive_solver.
Qed.

#[export] Instance spec_eq_dec : EqDecision spec.
Proof.
  intros a b. destruct (spec_eqb a b) eqn:E; [left; by apply spec_eqb_eq|right; intros H].
  apply spec_eqb_eq in H. congruence.
Defined.

(** [restore_resources] on the memory entry: what a snapshot does not capture. *)
Definition restore_memory (m : memory) : memory :=
  Memory (mem_guest m) (mem_runtime m) (mem_disk m) None None false None.

(** [uses_memory_reservations] *)
Fixpoint uses_memory_reservations (runtime_only : bool) (s : spec) {struct s} : bool :=
  let 'Spec f services := s in
  (negb runtime_only && bool_decide (is_Some (mem_reservation (f_memory f))))
  || bool_decide (is_Some (mem_runtime_reservation (f_memory f)))
  || (fix go (l : list (string * (string * option string * spec))) :=
        match l with
        | [] => false
        | (_, (_, child)) :: l => uses_memory_reservations runtime_only child || go l
        end) services.

(** [check_memory_reservations]: [features] is the worker's ping reply. *)
Definition check_memory_reservations (s : spec) (features : string → bool) : res () :=
  _ ← raise_if (uses_memory_reservations true s && negb (features "runtime_memory_reservations"%string))
        UnsupportedFeature "runtime memory reservations require Sandweave 0.2.38 or newer";
  raise_if (uses_memory_reservations false s && negb (features "memory_reservations"%string))
    UnsupportedFeature "memory reservations require Sandweave 0.2.28 or newer".

(** * Reservations *)

Definition round_mib (b : Z) : Z := (b + MiB - 1) / MiB * MiB.

(** The memory a definition reserves for itself, its services left out. *)
Definition own_reservation (m : memory) : res Z :=
  let shared := bool_decide (is_Some (mem_reservation m)) || bool_decide (is_Some (mem_runtime_reservation m)) in
  _ ← (if shared then memory_check m else Ok ());
  let guest := if shared then default (mem_guest m) (mem_reservation m) else mem_guest m in
  let runtime := if shared then default (mem_runtime m) (mem_runtime_reservation m) else mem_runtime m in
  g ← memory_bytes guest;
  r ← memory_bytes runtime;
  match mem_disk m with
  | Some _ => Ok (round_mib g + round_mib r)
  | None => Ok (g + r)
  end.

Definition import_reservation (v : option pyval) : res Z :=
  match v with
  | None => Ok 0
  | Some (VInt n) => if n <? 0 then raise ValueError "invalid image import memory reservation" else Ok n
  | Some _ => raise ValueError "invalid image import memory reservation"
  end.

(** [reservation] *)
Fixpoint reservation (s : spec) {struct s} : res Z :=
  let 'Spec f services := s in
  if bool_decide (f_runtime f = "modal"%string) then Ok 0
  else
    children ← (fix go (l : list (string * (string * option string * spec))) :=
                  match l with
                  | [] => Ok 0
                  | (_, (_, child)) :: l => a ← reservation child; b ← go l; Ok (a + b)
                  end) services;
    extra ← import_reservation (f_image_import_memory f);
    own ← own_reservation (f_memory f);
    Ok (children + extra + own).

Example memory_4gib : memory_bytes (VStr "4GiB") = Ok (4 * 1024 ^ 3).
Proof. vm_compute. reflexivity. Qed.
Example memory_half_kb : memory_bytes (VStr " 1.5 kB ") = Ok 1500.
Proof. vm_compute. reflexivity. Qed.
Example memory_fraction : res_option (memory_bytes (VStr "0.3B")) = None.
Proof. vm_compute. reflexivity. Qed.
Example memory_bare : res_option (memory_bytes (VStr "12")) = None.
Proof. vm_compute. reflexivity. Qed.

(** * Lemmas *)

(** Induction over a definition and its services. *)

(** The sum of the services' reservations, as a map. *)
Definition services_reservation (l : list (string * (string * option string * spec))) : res Z :=
  sumZ <$> res_map (λ s, reservation (service_spec s)) l.

Lemma reservation_unfold f services :
  reservation (Spec f services) =
    if bool_decide (f_runtime f = "modal"%string) then Ok 0
    else
      children ← services_reservation services;
      extra ← import_reservation (f_image_import_memory f);
      own ← own_reservation (f_memory f);
      Ok (children + extra + own).
Proof.
  cbn [reservation]. case_bool_decide; [done|]. f_equal.
  unfold services_reservation. induction services as [|[n [i c]] l IH]; [done|].
  rewrite IH. simpl. unfold service_spec. simpl.
  destruct (reservation c); simpl; [|done].
  by destruct (res_map _ l).
Qed.

Lemma memory_bytes_positive v b : memory_bytes v = Ok b → 0 < b.
Proof.
  unfold memory_bytes. intros H.
  repeat case_match; simplify_eq; bool_prop; lia.
Qed.

Lemma round_mib_ge b : b ≤ round_mib b.
Proof. unfold round_mib, MiB. Z.div_mod_to_equations. lia. Qed.

Lemma own_reservation_positive m b : own_reservation m = Ok b → 0 < b.
Proof.
  unfold own_reservation. intros H.
  apply bind_ok in H as (? & _ & H). apply bind_ok in H as (g & Hg & H).
  apply bind_ok in H as (r & Hr & H).
  apply memory_bytes_positive in Hg, Hr.
  pose proof (round_mib_ge g). pose proof (round_mib_ge r).
  case_match; simplify_eq; lia.
Qed.

Lemma import_reservation_nonneg v b : import_reservation v = Ok b → 0 ≤ b.
Proof. unfold import_reservation. intros. repeat case_match; simplify_eq; bool_prop; lia. Qed.

Lemma reservation_nonneg s b : reservation s = Ok b → 0 ≤ b.
Proof.
  revert b. induction s as [f services IH] using spec_induction. intros b.
  rewrite reservation_unfold. case_bool_decide; [intros [= <-]; lia|].
  intros (c & Hc & (x & Hx & (o & Ho & [= <-])%bind_ok)%bind_ok)%bind_ok.
  apply import_reservation_nonneg in Hx. apply own_reservation_positive in Ho.
  enough (0 ≤ c) by lia. clear -IH Hc. unfold services_reservation in Hc.
  destruct (res_map _ services) as [l|] eqn:E; [|done]. injection Hc as <-.
  revert l E. induction IH as [|s services Hs _ IHs]; intros l E; simpl in E.
  - injection E as <-. simpl. lia.
  - apply bind_ok in E as (a & Ha & (l' & Hl & [= <-])%bind_ok).
    simpl. specialize (Hs a Ha). specialize (IHs l' Hl). lia.
Qed.

(** Validated memory: shared reservations never exceed what they stand for. *)
Lemma reservation_check_le m r low full b f :
  reservation_check m (Some r) low full = Ok () → memory_bytes r = Ok b → memory_bytes full = Ok f →
  low ≤ b ≤ f.
Proof.
  unfold reservation_check. intros H Hb Hf. rewrite Hb, Hf in H. simpl in H.
  destruct (negb (mem_experimental m)); [done|].
  destruct (low <=? b) eqn:E1; simpl in H; [|done].
  unfold raise_if in H. destruct (b <=? f) eqn:E2; simpl in H; [|done]. bool_prop. lia.
Qed.

(** What a definition reserves. Without disk-backed memory the guest's own
    part of a reservation is exactly guest plus runtime memory when no sharing
    was requested, and with validated sharing it is between 96 MiB and guest
    plus runtime memory; disk-backed memory rounds each of the two up to whole
    MiB, never down and never by a MiB or more. *)
Theorem own_reservation_bounds m b g r :
  memory_check m = Ok () → own_reservation m = Ok b →
  memory_bytes (mem_guest m) = Ok g → memory_bytes (mem_runtime m) = Ok r →
  96 * MiB ≤ b ∧
  match mem_reservation m, mem_runtime_reservation m, mem_disk m with
  | None, None, None => b = g + r
  | None, None, Some _ => g + r ≤ b < g + r + 2 * MiB
  | _, _, None => b ≤ g + r
  | _, _, Some _ => b < g + r + 2 * MiB
  end.
Proof.
  unfold memory_check. intros Hc Hb Hg Hr. rewrite Hg in Hc. simpl in Hc.
  apply bind_ok in Hc as ([] & Hg1 & Hc). rewrite Hr in Hc. simpl in Hc.
  apply bind_ok in Hc as ([] & Hr1 & Hc).
  apply bind_ok in Hc as ([] & Hres & Hc). apply bind_ok in Hc as ([] & Hrun & _).
  assert (64 * MiB ≤ g) by (unfold raise_if in Hg1; case_match; [done|]; bool_prop; lia).
  assert (32 * MiB ≤ r) by (unfold raise_if in Hr1; case_match; [done|]; bool_prop; lia).
  unfold own_reservation in Hb. apply bind_ok in Hb as (? & _ & Hb).
  apply bind_ok in Hb as (g' & Hg' & Hb). apply bind_ok in Hb as (r' & Hr' & Hb).
  assert (Hgg : 64 * MiB ≤ g' ≤ g ∧ (mem_reservation m = None → g' = g)).
  { destruct (mem_reservation m) as [v|] eqn:E.
    - split; [|done]. destruct (_ || _) eqn:Es in Hg'; [|by rewrite bool_decide_eq_true_2 in Es by eauto].
      eapply reservation_check_le; eauto.
    - assert (g' = g) as -> by (destruct (_ || _) in Hg'; simpl in Hg'; congruence). split; [lia|done]. }
  assert (Hrr : 32 * MiB ≤ r' ≤ r ∧ (mem_runtime_reservation m = None → r' = r)).
  { destruct (mem_runtime_reservation m) as [v|] eqn:E.
    - split; [|done]. destruct (_ || _) eqn:Es in Hr';
        [|by rewrite orb_comm, bool_decide_eq_true_2 in Es by eauto].
      eapply reservation_check_le; eauto.
    - assert (r' = r) as -> by (destruct (_ || _) in Hr'; simpl in Hr'; congruence). split; [lia|done]. }
  assert (Hround : ∀ x, x ≤ round_mib x < x + MiB).
  { intros y. unfold round_mib, MiB. Z.div_mod_to_equations. lia. }
  pose proof (Hround g'). pose proof (Hround r').
  assert (0 < MiB) by (unfold MiB; lia).
  destruct Hgg as [? Hge], Hrr as [? Hre].
  destruct (mem_reservation m), (mem_runtime_reservation m), (mem_disk m); simplify_eq;
    try specialize (Hge eq_refl); try specialize (Hre eq_refl); lia.
Qed.

Definition ex_memory : memory :=
  Memory (VStr "1GiB") (VStr "512MiB") None None (Some (VStr "256MiB")) true None.
Lemma own_reservation_bounds_witness :
  96 * MiB ≤ 805306368 ∧ 805306368 ≤ 1073741824 + 536870912.
Proof.
  apply (own_reservation_bounds ex_memory 805306368 1073741824 536870912); vm_compute; reflexivity.
Defined.

(** Sizes are exact. For a well-formed size text whose byte count has at
    most 28 digits, [memory_bytes] succeeds exactly when the decimal number
    times its unit is a positive whole number, and returns that number. *)
Theorem memory_bytes_exact s n f base exponent b :
  parse_size s = Some (n, f, (base, exponent)) → 0 ≤ f → 0 ≤ n * base ^ exponent < 10 ^ 28 →
  (memory_bytes (VStr s) = Ok b) ↔ (0 < b ∧ b * 10 ^ f = n * base ^ exponent).
Proof.
  intros Hp Hf Hn. unfold memory_bytes. rewrite Hp. set (c := n * base ^ exponent) in *.
  assert (Hr : decimal_round c (- f) = (c, - f)).
  { unfold decimal_round. cbn [excess_digits].
    assert (c <? 10 ^ 28 = true) as -> by (apply Z.ltb_lt; lia). done. }
  rewrite Hr. unfold decimal_integer.
  assert (Hpow : 0 < 10 ^ f) by (apply Z.pow_pos_nonneg; lia).
  assert (Hd : match (if 0 <=? - f then Some (c * 10 ^ (- f))
                      else if c mod 10 ^ (- - f) =? 0 then Some (c / 10 ^ (- - f)) else None) with
               | Some x => x * 10 ^ f = c
               | None => ∀ x, x * 10 ^ f ≠ c
               end).
  { destruct (Z.leb_spec 0 (- f)).
    - replace f with 0 by lia. simpl. lia.
    - rewrite Z.opp_involutive. destruct (Z.eqb_spec (c mod 10 ^ f) 0) as [E|E].
      + pose proof (Z.div_mod c (10 ^ f)). lia.
      + intros x <-. apply E. apply Z.mod_mul. lia. }
  destruct (if 0 <=? - f then _ else _) as [x|].
  - destruct (Z.leb_spec x 0); split; try done.
    + intros [? ?]. nia.
    + intros [= ->]. lia.
    + intros [? E]. f_equal. nia.
  - split; [done|]. intros [_ E]. by destruct (Hd b).
Qed.

Lemma memory_bytes_exact_witness :
  memory_bytes (VStr "1.5KiB") = Ok 1536 ∧ 0 < 1536 ∧ 1536 * 10 ^ 1 = 15 * 1024 ^ 1.
Proof.
  split; [reflexivity|].
  apply (memory_bytes_exact "1.5KiB" 15 1 1024 1 1536); [reflexivity|lia|lia|reflexivity].
Defined.
