(* ===== verification/Admission.v ===== *)
(** [sandbox/admission.py]: a worker admits a sandbox only if the reservations
    of its live sandboxes leave room. What the runtime reports is an argument:
    [status] of an identity, and [exists_path] for its record directory. *)

From S2P Require Import Prelude Proxy Resources.
Local Open Scope Z_scope.

(** The fields of a worker's sandbox record admission reads. *)
Record sandbox := Sandbox {
  sb_id : string; sb_state : string; sb_name : option string;
  sb_image_imports : list string; sb_services : list string;
  sb_service_parent : bool; sb_spec : spec }.

(** The worker: its records, the identities of active ones in iteration order,
    those whose runtime was seen gone, and its memory budget in bytes. *)
Record worker := Worker {
  w_records : gmap string sandbox;
  w_active : list string;
  w_gone : gset string;
  w_budget : Z }.

Section admission.
  Context (status : string → string) (exists_path : string → bool).

(** [live] *)
Definition live (r : sandbox) : bool :=
  if bool_decide (sb_state r ∈ ["creating"; "preparing"]%string) then true
  else
    existsb (λ i,
      (bool_decide (i = sb_id r) || exists_path i)
      && bool_decide (status i ∈ ["starting"; "running"; "paused"]%string))
      (sb_id r :: sb_image_imports r ++ sb_services r).

(** A record that may hold a reservation: its parent does not hold it, it has
    not ended, and it is settled or its runtime still runs. *)
Definition ended (r : sandbox) : bool := bool_decide (sb_state r ∈ ["terminated"; "stopped"]%string).
Definition settled (r : sandbox) : bool :=
  bool_decide (sb_state r ∈ ["creating"; "preparing"; "ready"; "paused"]%string).

(** The loop of [admit_sandbox] over the active identities: the identities seen gone and
    the bytes reserved so far. An error keeps what was seen gone. *)
Fixpoint admit_loop (records : gmap string sandbox) (name : option string) (active : list string)
    (gone : gset string) (reserved : Z) : res Z * gset string :=
  match active with
  | [] => (Ok reserved, gone)
  | identity :: active =>
      if bool_decide (identity ∈ gone) then admit_loop records name active gone reserved
      else match records !! identity with
      | None => (raise FileNotFoundError identity, gone)
      | Some r =>
          if sb_service_parent r then admit_loop records name active gone reserved
          else if ended r then admit_loop records name active gone reserved
          else if negb (settled r) && negb (live r)
          then admit_loop records name active ({[identity]} ∪ gone) reserved
          else if bool_decide (is_Some name) && bool_decide (name ≠ Some ""%string)
                  && bool_decide (sb_name r = name)
          then (raise FileExistsError ("a live sandbox already has this name: " ++ default "" name), gone)
          else match reservation (sb_spec r) with
          | Err e => (Err e, gone)
          | Ok b => admit_loop records name active gone (reserved + b)
          end
      end
  end.

(** [admit], under the name [admit_sandbox]: the bytes reserved for the new sandbox, and the worker with what was
    seen gone. *)
Definition admit_sandbox (w : worker) (s : spec) : res Z * worker :=
  let gone := w_gone w ∩ list_to_set (w_active w) in
  let '(r, gone) := admit_loop (w_records w) (f_name (spec_fields s)) (w_active w) gone 0 in
  let w := Worker (w_records w) (w_active w) gone (w_budget w) in
  (match r with
   | Err e => Err e
   | Ok reserved =>
       match reservation s with
       | Err e => Err e
       | Ok requested =>
           if w_budget w <? requested + reserved
           then raise ResourceUnavailable "worker memory budget exhausted"
           else Ok requested
       end
   end, w).

(** ** What is reserved *)

Definition holds (gone : gset string) (records : gmap string sandbox) (identity : string) : option sandbox :=
  if bool_decide (identity ∈ gone) then None
  else match records !! identity with
  | Some r => if sb_service_parent r || ended r || (negb (settled r) && negb (live r)) then None else Some r
  | None => None
  end.

(** The records that hold a reservation, as admission counts them. *)
Definition holders (gone : gset string) (records : gmap string sandbox) (active : list string) : list sandbox :=
  omap (holds gone records) active.

Definition reserved_by (r : sandbox) : Z :=
  match reservation (sb_spec r) with Ok b => b | Err _ => 0 end.
Definition reserved_total (gone : gset string) (records : gmap string sandbox) (active : list string) : Z :=
  sumZ (map reserved_by (holders gone records active)).

(** A record the loop may drop for good: not settled, and its runtime is gone. *)
Definition seen_gone (records : gmap string sandbox) (identity : string) : Prop :=
  ∃ r, records !! identity = Some r ∧ settled r = false ∧ live r = false.

Lemma holds_gone_irrelevant gone gone' records identity :
  (∀ i, (i ∈ gone') → (i ∈ gone) ∨ seen_gone records i) → gone ⊆ gone' →
  holds gone records identity = holds gone' records identity.
Proof.
  intros Hseen Hsub. unfold holds.
  destruct (decide (identity ∈ gone)).
  { rewrite !bool_decide_eq_true_2; [done|set_solver|done]. }
  rewrite (bool_decide_eq_false_2 (identity ∈ gone)) by done.
  destruct (decide (identity ∈ gone')) as [H'|H'].
  - rewrite (bool_decide_eq_true_2 (identity ∈ gone')) by done.
    apply Hseen in H' as [?|(r & -> & -> & ->)]; [done|]. simpl. by rewrite orb_true_r.
  - by rewrite (bool_decide_eq_false_2 (identity ∈ gone')).
Qed.

Lemma holders_cons gone records i active :
  holders gone records (i :: active) =
    match holds gone records i with
    | Some r => r :: holders gone records active
    | None => holders gone records active
    end.
Proof. reflexivity. Qed.

Lemma admit_loop_spec records name active gone reserved r gone' :
  admit_loop records name active gone reserved = (r, gone') →
  gone ⊆ gone' ∧ (∀ i, (i ∈ gone') → (i ∈ gone) ∨ seen_gone records i) ∧
  ∀ total, r = Ok total →
    total = reserved + reserved_total gone' records active ∧
    Forall (λ s, is_ok (reservation (sb_spec s)) = true) (holders gone' records active) ∧
    (∀ n s, name = Some n → n ≠ ""%string → s ∈ holders gone' records active → sb_name s ≠ Some n).
Proof.
  revert gone reserved. induction active as [|identity active IH]; intros gone reserved H; simpl in H.
  { injection H as <- <-. split_and!; [done|auto|]. intros total [= <-].
    unfold reserved_total, holders. cbn. split_and!; [lia|constructor|]. intros n s _ _ Hs.
    by apply not_elem_of_nil in Hs. }
  assert (Hskip : ∀ g, admit_loop records name active g reserved = (r, gone') →
    (∀ i, i ∈ g → i ∈ gone ∨ seen_gone records i) → gone ⊆ g →
    holds g records identity = None →
    gone ⊆ gone' ∧ (∀ i, (i ∈ gone') → (i ∈ gone) ∨ seen_gone records i) ∧
    ∀ total, r = Ok total →
      total = reserved + reserved_total gone' records (identity :: active) ∧
      Forall (λ s, is_ok (reservation (sb_spec s)) = true) (holders gone' records (identity :: active)) ∧
      (∀ n s, name = Some n → n ≠ ""%string → s ∈ holders gone' records (identity :: active) → sb_name s ≠ Some n)).
  { intros g Hg Hseen Hsub Hn. apply IH in Hg as (H1 & H2 & H3). split_and!; [set_solver| |].
    - intros i Hi%H2. naive_solver.
    - intros total Htot. unfold reserved_total. rewrite holders_cons.
      rewrite <- (holds_gone_irrelevant g) by done. rewrite Hn. by apply H3. }
  destruct (decide (identity ∈ gone)) as [Hin|Hin].
  { rewrite bool_decide_eq_true_2 in H by done. apply (Hskip gone); auto.
    unfold holds. by rewrite bool_decide_eq_true_2. }
  rewrite (bool_decide_eq_false_2 _ Hin) in H.
  destruct (records !! identity) as [rec|] eqn:Hrec.
  2: { injection H as <- <-. split_and!; [done|auto|done]. }
  assert (Hholds : holds gone records identity =
            if sb_service_parent rec || ended rec || (negb (settled rec) && negb (live rec)) then None else Some rec).
  { unfold holds. by rewrite (bool_decide_eq_false_2 _ Hin), Hrec. }
  destruct (sb_service_parent rec) eqn:Hp; [apply (Hskip gone); auto|].
  destruct (ended rec) eqn:He; [apply (Hskip gone); auto|].
  destruct (negb (settled rec) && negb (live rec)) eqn:Hl.
  { bool_prop. apply (Hskip ({[identity]} ∪ gone)); [done| |set_solver|].
    - intros i [->%elem_of_singleton|Hi]%elem_of_union; [right|by left]. by exists rec.
    - unfold holds. rewrite bool_decide_eq_true_2; [done|set_solver]. }
  simpl in Hholds. destruct (_ && _ && _) eqn:Hname in H.
  { injection H as <- <-. split_and!; [done|auto|done]. }
  destruct (reservation (sb_spec rec)) as [b|] eqn:Hb.
  2: { injection H as <- <-. split_and!; [done|auto|done]. }
  apply IH in H as (H1 & H2 & H3). split_and!; [done|done|].
  intros total Htot. apply H3 in Htot as (-> & Hok & Hnames).
  unfold reserved_total in *. rewrite holders_cons.
  rewrite <- (holds_gone_irrelevant gone gone') by done. rewrite Hholds. cbn [map sumZ foldr].
  split_and!.
  - assert (reserved_by rec = b) as -> by (unfold reserved_by; by rewrite Hb).
    unfold sumZ. lia.
  - constructor; [by rewrite Hb | done].
  - intros n s -> Hne [->|Hs]%elem_of_cons; [|by eapply Hnames].
    intros E. rewrite E in Hname. rewrite !bool_decide_eq_true_2 in Hname; [done|done|congruence|by eexists].
Qed.

(** Memory is never over-committed. When [admit_sandbox] accepts a sandbox, its
    reservation plus the reservations of every active sandbox that still holds
    one stays within the worker's budget; every one of those reservations is
    well defined, no holder has the requested name, and the identities dropped
    from the count are exactly of sandboxes seen without a live runtime. *)
Theorem admit_within_budget w s b w' :
  admit_sandbox w s = (Ok b, w') →
  reservation s = Ok b ∧
  b + reserved_total (w_gone w') (w_records w) (w_active w) ≤ w_budget w ∧
  Forall (λ r, is_ok (reservation (sb_spec r)) = true) (holders (w_gone w') (w_records w) (w_active w)) ∧
  (∀ n r, f_name (spec_fields s) = Some n → n ≠ ""%string →
     r ∈ holders (w_gone w') (w_records w) (w_active w) → sb_name r ≠ Some n) ∧
  (∀ i, i ∈ w_gone w' → i ∈ w_gone w ∨ seen_gone (w_records w) i).
Proof.
  unfold admit_sandbox. destruct (admit_loop _ _ _ _ _) as [r gone'] eqn:E.
  apply admit_loop_spec in E as (Hsub & Hgone & Hspec).
  destruct r as [total|]; [|done]. destruct (Hspec total eq_refl) as (-> & Hok & Hnames).
  destruct (reservation s) as [req|] eqn:Hreq; [|done].
  destruct (_ <? _) eqn:Hlt; intros H; [discriminate H|]. injection H as -> <-. simpl in *.
  bool_prop. split_and!; [done|lia|done|done|].
  intros i [Hi|?]%Hgone; [left; set_solver | by right].
Qed.

(** A refused admission is justified. If [admit_sandbox] reports that the budget is
    exhausted, the requested reservation and the reservations of the counted
    holders really exceed the budget; and a refusal changes nothing but the set
    of identities seen gone. *)
Theorem admit_refusal w s e w' :
  admit_sandbox w s = (Err e, w') →
  w_records w' = w_records w ∧ w_active w' = w_active w ∧ w_budget w' = w_budget w ∧
  (exn_kind e = ResourceUnavailable → is_ok (reservation s) = true →
   (∀ r, r ∈ holders (w_gone w') (w_records w) (w_active w) → is_ok (reservation (sb_spec r)) = true) →
   ∃ b, reservation s = Ok b ∧ w_budget w < b + reserved_total (w_gone w') (w_records w) (w_active w)).
Proof.
  unfold admit_sandbox. destruct (admit_loop _ _ _ _ _) as [r gone'] eqn:E.
  intros H. injection H as H <-. simpl. split_and!; [done..|]. intros Hk Hs Hall.
  destruct r as [total|e'].
  - apply admit_loop_spec in E as (_ & _ & Hspec). destruct (Hspec total eq_refl) as (-> & _ & _).
    destruct (reservation s) as [b|]; [|done]. exists b. split; [done|].
    destruct (_ <? _) eqn:Hlt in H; [|discriminate H]. bool_prop. lia.
  - exfalso. injection H as ->. clear -E Hk Hall.
    revert E. generalize (w_gone w ∩ list_to_set (w_active w)), 0.
    generalize dependent gone'. generalize (w_active w). intros active gone'.
    intros Hall gone reserved E. revert gone reserved E.
    induction active as [|i active IH]; intros gone reserved E; simpl in E; [done|].
    assert (Hrest : ∀ r, r ∈ holders gone' (w_records w) active → is_ok (reservation (sb_spec r)) = true).
    { intros r Hr. apply Hall. unfold holders in *. simpl.
      destruct (holds gone' (w_records w) i); [by right|done]. }
    specialize (IH Hrest).
    destruct (bool_decide (i ∈ gone)) eqn:Hin; [by eapply IH|].
    destruct (w_records w !! i) as [r|] eqn:Hr; [|by injection E as <- <-].
    destruct (sb_service_parent r) eqn:Hp; [by eapply IH|].
    destruct (ended r) eqn:He; [by eapply IH|].
    destruct (negb (settled r) && negb (live r)) eqn:Hl; [by eapply IH|].
    destruct (_ && _ && _); [by injection E as <- <-|].
    destruct (reservation (sb_spec r)) as [b|e0] eqn:Hb; [by eapply IH|].
    injection E as -> <-. bool_prop.
    assert (is_ok (reservation (sb_spec r)) = true); [|by rewrite Hb in *].
    apply Hall. unfold holders. simpl. unfold holds. rewrite bool_decide_eq_false_2 by done.
    rewrite Hr, Hp, He, Hl. left.
Qed.
End admission.

(** * Witnesses *)

Definition ex_fields (name : option string) : fields :=
  Fields "gvisor" ex_memory None None None VNone name false (VInt 300) None
    false false false false false false (Network "internet" None None) None false false false None None.
Definition ex_worker : worker :=
  Worker {["a"%string := Sandbox "a" "ready" (Some "x"%string) [] [] false (Spec (ex_fields (Some "x"%string)) [])]}
    ["a"%string] ∅ (2 * 805306368).

Lemma admit_within_budget_witness :
  let s := Spec (ex_fields (Some "y"%string)) [] in
  admit_sandbox (λ _, "running"%string) (λ _, true) ex_worker s = (Ok 805306368, ex_worker) ∧
  805306368 + reserved_total (λ _, "running"%string) (λ _, true) ∅ (w_records ex_worker) ["a"%string]
    ≤ 2 * 805306368.
Proof.
  assert (H : admit_sandbox (λ _, "running"%string) (λ _, true) ex_worker (Spec (ex_fields (Some "y"%string)) [])
              = (Ok 805306368, ex_worker)) by (vm_compute; reflexivity).
  split; [exact H|]. exact (proj1 (proj2 (admit_within_budget _ _ _ _ _ _ H))).
Defined.

Lemma admit_refusal_witness :
  let w := Worker (w_records ex_worker) ["a"%string] ∅ 805306369 in
  ∃ e, admit_sandbox (λ _, "running"%string) (λ _, true) w (Spec (ex_fields None) []) = (Err e, w) ∧
    w_budget w = w_budget w.
Proof.
  eexists. assert (H : admit_sandbox (λ _, "running"%string) (λ _, true)
      (Worker (w_records ex_worker) ["a"%string] ∅ 805306369) (Spec (ex_fields None) [])
    = (raise ResourceUnavailable "worker memory budget exhausted",
       Worker (w_records ex_worker) ["a"%string] ∅ 805306369)) by (vm_compute; reflexivity).
  split; [exact H|]. exact (proj1 (proj2 (proj2 (admit_refusal _ _ _ _ _ _ H)))).
Defined.
