(* ===== verification/GpuMatching.v ===== *)
(** [weave/scheduler.py], GPU selection: [gpu_specs], [assign_gpus] and
    [match_gpus]. A request with services needs one device per GPU request; the
    code reassigns earlier choices along augmenting paths. The theorems show that
    a selection is a valid matching and that none is reported only when there is
    none. *)

From S2P Require Import Prelude OrderedDict Resources.

(** * The requests of a definition *)

(** [gpu_specs]: the definition itself and its direct services, by name. A
    service called "main" takes the definition's place. *)
Definition gpu_specs (s : spec) : list (string * spec) :=
  foldl (λ d item, od_set (item.1) (service_spec item) d) [("main"%string, s)] (spec_services s).

(** A GPU of a worker. *)
Record device := Device { dev_uuid : string; dev_model : string }.

(** The choices of every GPU request, in the order of [gpu_specs]. *)
Definition choices_of (s : spec) (devices : list device) (occupied : gset string)
    : list (string * list string) :=
  omap (λ item : string * spec,
    match f_gpu (spec_fields item.2) with
    | None => None
    | Some g =>
        Some (item.1, map dev_uuid
          (filter (λ d, (dev_uuid d ∉ occupied) ∧ gpu_matches g (dev_model d) = true) devices))
    end) (gpu_specs s).

(** * Augmenting paths *)

Section matching.
  Context (choices : string → list string).

(** One attempt: [None] when the fuel is spent, else whether the name was placed,
    the devices seen and the owners. *)
Abbreviation attempt := (option (bool * gset string * gmap string string)).

(** The loop of [place] over the choices of [name]; [recur] places the owner of
    a taken device elsewhere. *)
Fixpoint try_devices (recur : string → gset string → gmap string string → attempt)
    (name : string) (l : list string) (seen : gset string) (owners : gmap string string) : attempt :=
  match l with
  | [] => Some (false, seen, owners)
  | device :: l =>
      if bool_decide (device ∈ seen) then try_devices recur name l seen owners
      else
        let seen := {[device]} ∪ seen in
        match owners !! device with
        | None => Some (true, seen, <[device:=name]> owners)
        | Some owner =>
            match recur owner seen owners with
            | None => None
            | Some (true, seen, owners) => Some (true, seen, <[device:=name]> owners)
            | Some (false, seen, owners) => try_devices recur name l seen owners
            end
        end
  end.

(** [place]: the recursion is bounded by the devices not yet seen. *)
Fixpoint place (fuel : nat) (name : string) (seen : gset string) (owners : gmap string string) : attempt :=
  match fuel with
  | O => None
  | S fuel => try_devices (place fuel) name (choices name) seen owners
  end.

(** The loop of [match_gpus] over the names. *)
Fixpoint place_all (fuel : nat) (names : list string) (owners : gmap string string)
    : option (gmap string string) :=
  match names with
  | [] => Some owners
  | name :: names =>
      match place fuel name ∅ owners with
      | Some (true, _, owners) => place_all fuel names owners
      | _ => None
      end
  end.

(** Every owner may use its device. *)
Definition valid_owners (owners : gmap string string) : Prop :=
  ∀ d n, owners !! d = Some n → d ∈ choices n.

(** Outside the devices seen, nobody owns two. *)
Definition inj_out (seen : gset string) (owners : gmap string string) : Prop :=
  ∀ d1 d2 n, d1 ∉ seen → d2 ∉ seen → owners !! d1 = Some n → owners !! d2 = Some n → d1 = d2.

Definition owns_out (seen : gset string) (owners : gmap string string) (n : string) : Prop :=
  ∃ d, (d ∉ seen) ∧ owners !! d = Some n.

(** What an attempt for [name] promises. *)
Definition placed (name : string) (seen : gset string) (owners : gmap string string)
    (seen' : gset string) (owners' : gmap string string) : Prop :=
  seen ⊆ seen' ∧ valid_owners owners' ∧ inj_out seen owners' ∧
  (∀ d, d ∈ seen → owners' !! d = owners !! d) ∧
  (∀ n, owns_out seen owners' n ↔ owns_out seen owners n ∨ n = name).

(** The devices an unsuccessful attempt saw are owned, by names that can use
    no other device. *)
Definition stuck (l : list string) (seen : gset string) (owners : gmap string string) (seen' : gset string) : Prop :=
  seen ⊆ seen' ∧ (∀ d, d ∈ l → d ∈ seen') ∧
  ∀ d, d ∈ seen' → d ∉ seen → ∃ o, owners !! d = Some o ∧ ∀ d', d' ∈ choices o → d' ∈ seen'.

Definition attempt_ok (recur : string → gset string → gmap string string → attempt) : Prop :=
  ∀ name seen owners b seen' owners',
    recur name seen owners = Some (b, seen', owners') →
    if b then
      valid_owners owners → inj_out seen owners → (¬ owns_out seen owners name) →
      placed name seen owners seen' owners'
    else owners' = owners ∧ stuck (choices name) seen owners seen'.

Lemma inj_out_mono seen seen' owners : seen ⊆ seen' → inj_out seen owners → inj_out seen' owners.
Proof. intros Hs H d1 d2 n ???. apply H; set_solver. Qed.

Lemma placed_widen name seen seen1 owners seen' owners' :
  seen ⊆ seen1 → inj_out seen owners → (¬ owns_out seen owners name) →
  placed name seen1 owners seen' owners' →
  placed name seen owners seen' owners'.
Proof.
  intros Hs Hinj Hname (H1 & H2 & H3 & H4 & H5).
  assert (Hout : ∀ n, owns_out seen owners' n ↔ owns_out seen owners n ∨ n = name).
  { intros n. split.
    - intros (d & Hd & Hn). destruct (decide (d ∈ seen1)) as [Hin|Hin].
      + left. exists d. by rewrite <- H4.
      + destruct (proj1 (H5 n)) as [(d' & ? & ?)| ->]; [by exists d| |by right].
        left. exists d'. set_solver.
    - intros [(d & Hd & Hn)| ->].
      + destruct (decide (d ∈ seen1)) as [Hin|Hin].
        * exists d. by rewrite H4.
        * destruct (proj2 (H5 n)) as (d' & ? & ?); [left; by exists d|]. exists d'. set_solver.
      + destruct (proj2 (H5 name)) as (d' & ? & ?); [by right|]. exists d'. set_solver. }
  split; [set_solver|]. split; [done|]. split; [|split; [|done]].
  - intros d1 d2 n Hd1 Hd2 E1 E2.
    destruct (decide (d1 ∈ seen1)) as [I1|I1], (decide (d2 ∈ seen1)) as [I2|I2].
    + rewrite H4 in E1, E2 by done. by eapply Hinj.
    + exfalso. rewrite H4 in E1 by done.
      destruct (proj1 (H5 n)) as [(d' & Hd' & E')| ->]; [by exists d2| |by apply Hname; exists d1].
      assert (d1 = d') as -> by (eapply Hinj; [done|set_solver|done|done]). done.
    + exfalso. rewrite H4 in E2 by done.
      destruct (proj1 (H5 n)) as [(d' & Hd' & E')| ->]; [by exists d1| |by apply Hname; exists d2].
      assert (d2 = d') as -> by (eapply Hinj; [done|set_solver|done|done]). done.
    + by eapply H3.
  - intros d Hd. apply H4. set_solver.
Qed.

(** Giving a free device to [name]. *)
Lemma placed_free name d seen owners seen' owners' :
  d ∈ choices name → d ∉ seen → owners !! d = None → seen ⊆ seen' → owners' = owners →
  valid_owners owners → inj_out seen owners → (¬ owns_out seen owners name) →
  placed name seen owners seen' (<[d:=name]> owners').
Proof.
  intros Hch Hd Hfree Hs -> Hv Hinj Hname. split; [done|]. split; [|split; [|split]].
  - intros d' n [[<- <-]|[? ?]]%lookup_insert_Some; [done|by apply Hv].
  - intros d1 d2 n Hd1 Hd2 [[<- <-]|[N1 E1]]%lookup_insert_Some [[<- E]|[N2 E2]]%lookup_insert_Some;
      try done.
    + destruct Hname. by exists d2.
    + subst. destruct Hname. by exists d1.
    + by eapply Hinj.
  - intros d' Hd'. apply lookup_insert_ne. set_solver.
  - intros n. split.
    + intros (d' & Hd' & [[<- <-]|[? ?]]%lookup_insert_Some); [by right|left; by exists d'].
    + intros [(d' & Hd' & E)| ->].
      * exists d'. split; [done|]. rewrite lookup_insert_ne; [done|congruence].
      * exists d. split; [done|]. by rewrite lookup_insert_eq.
Qed.

(** Taking a device over from an owner that was placed elsewhere. *)
Lemma placed_taken name o d seen owners seen' owners' :
  d ∈ choices name → d ∉ seen → owners !! d = Some o →
  valid_owners owners → inj_out seen owners → (¬ owns_out seen owners name) →
  placed o ({[d]} ∪ seen) owners seen' owners' →
  placed name seen owners seen' (<[d:=name]> owners').
Proof.
  intros Hch Hd Ho Hv Hinj Hname (H1 & H2 & H3 & H4 & H5).
  assert (Hne : o ≠ name) by (intros ->; apply Hname; by exists d).
  assert (Hnoname : ∀ d', d' ∉ {[d]} ∪ seen → owners' !! d' ≠ Some name).
  { intros d' Hd' E. destruct (proj1 (H5 name)) as [(d'' & ? & ?)|]; [by exists d'| |done].
    apply Hname. exists d''. set_solver. }
  split; [set_solver|]. split; [|split; [|split]].
  - intros d' n [[<- <-]|[? ?]]%lookup_insert_Some; [done|by apply H2].
  - intros d1 d2 n Hd1 Hd2 [[<- <-]|[N1 E1]]%lookup_insert_Some [[<- E]|[N2 E2]]%lookup_insert_Some;
      try done.
    + exfalso. eapply Hnoname; [|exact E2]. set_solver.
    + subst. exfalso. eapply Hnoname; [|exact E1]. set_solver.
    + eapply H3; [set_solver|set_solver|done|done].
  - intros d' Hd'. rewrite lookup_insert_ne by set_solver. apply H4. set_solver.
  - intros n. split.
    + intros (d' & Hd' & [[<- <-]|[? E]]%lookup_insert_Some); [by right|].
      destruct (proj1 (H5 n)) as [(d'' & ? & ?)| ->].
      * exists d'. split; [set_solver|done].
      * left. exists d''. set_solver.
      * left. by exists d.
    + intros [(d' & Hd' & E)| ->]; [|exists d; by rewrite lookup_insert_eq].
      destruct (decide (n = o)) as [->|Hno].
      * destruct (proj2 (H5 o)) as (d'' & ? & ?); [by right|].
        exists d''. rewrite lookup_insert_ne by set_solver. set_solver.
      * destruct (proj2 (H5 n)) as (d'' & ? & ?).
        { left. exists d'. split; [|done].
          intros [->%elem_of_singleton|?]%elem_of_union; [congruence|done]. }
        exists d''. rewrite lookup_insert_ne by set_solver. set_solver.
Qed.

Lemma try_devices_ok recur name : attempt_ok recur →
  ∀ l seen owners b seen' owners',
    (∀ d, d ∈ l → d ∈ choices name) →
    try_devices recur name l seen owners = Some (b, seen', owners') →
    if b then
      valid_owners owners → inj_out seen owners → (¬ owns_out seen owners name) →
      placed name seen owners seen' owners'
    else owners' = owners ∧ stuck l seen owners seen'.
Proof.
  intros Hrec l. induction l as [|d l IH]; intros seen owners b seen' owners' Hl H; simpl in H.
  { injection H as <- <- <-. split; [done|]. split; [done|]. split; [set_solver|]. set_solver. }
  destruct (decide (d ∈ seen)) as [Hin|Hin].
  { rewrite bool_decide_eq_true_2 in H by done. apply IH in H; [|set_solver].
    destruct b; [done|]. destruct H as (-> & Hs & Hc & Ho). split; [done|].
    split; [done|]. split; [|done]. intros d' [->|?]%elem_of_cons; [set_solver|auto]. }
  rewrite bool_decide_eq_false_2 in H by done.
  destruct (owners !! d) as [o|] eqn:Ho.
  2: { injection H as <- <- <-. intros. eapply placed_free; eauto; set_solver. }
  destruct (recur o _ owners) as [[[b1 s1] o1]|] eqn:Hr; [|done].
  apply Hrec in Hr. destruct b1.
  - injection H as <- <- <-. intros Hv Hinj Hname.
    eapply placed_taken; eauto; [set_solver|].
    apply Hr; [done|by eapply inj_out_mono; [|done]; set_solver|].
    intros (d' & Hd' & E'). assert (d = d') by (eapply Hinj; [done|set_solver|done|done]). set_solver.
  - destruct Hr as (-> & Hs & Hc & Hown). apply IH in H; [|set_solver]. destruct b.
    + intros Hv Hinj Hname. apply (placed_widen _ _ s1); [set_solver|done|done|].
      apply H; [done|by eapply inj_out_mono; [|done]; set_solver|].
      intros (d' & Hd' & E'). apply Hname. exists d'. set_solver.
    + destruct H as (-> & Hs' & Hc' & Hown'). split; [done|]. split; [set_solver|].
      split; [intros d' [->|?]%elem_of_cons; [set_solver|auto]|].
      intros d' Hd' Hnd'. destruct (decide (d' ∈ s1)) as [H1|H1]; [|by apply Hown'].
      destruct (decide (d' = d)) as [->|Hne].
      * exists o. split; [done|]. intros d'' ?. apply Hs'. auto.
      * destruct (Hown d') as (o' & ? & ?); [done|set_solver|]. exists o'. split; [done|]. auto.
Qed.

Lemma place_ok fuel : attempt_ok (place fuel).
Proof.
  induction fuel as [|fuel IH]; intros name seen owners b seen' owners' H; [done|].
  simpl in H. by eapply try_devices_ok.
Qed.

(** More fuel than unseen devices is enough. *)
Lemma place_total (universe : gset string) :
  (∀ n d, d ∈ choices n → d ∈ universe) →
  ∀ fuel name seen owners, size (universe ∖ seen) < fuel → is_Some (place fuel name seen owners).
Proof.
  intros Hu fuel. induction fuel as [|fuel IH]; intros name seen owners Hf; [lia|]. simpl.
  assert (Hl : ∀ d, d ∈ choices name → d ∈ universe) by eauto.
  revert seen Hf Hl. generalize (choices name). intros l.
  induction l as [|d l IHl]; intros seen Hf Hl; simpl; [by eexists|].
  case_bool_decide as Hd; [apply IHl; [done|set_solver]|].
  destruct (owners !! d) as [o|]; [|by eexists].
  assert (Hlt : size (universe ∖ ({[d]} ∪ seen)) < size (universe ∖ seen)).
  { apply subset_size. split; [set_solver|]. intros H.
    assert (d ∈ universe ∖ seen) by set_solver. set_solver. }
  destruct (IH o ({[d]} ∪ seen) owners) as [[[b s1] o1] E]; [lia|]. rewrite E.
  destruct b; [by eexists|].
  pose proof (place_ok _ _ _ _ _ _ _ E) as [-> [Hs _]].
  apply IHl; [|set_solver].
  assert (size (universe ∖ s1) ≤ size (universe ∖ ({[d]} ∪ seen))) by (apply subseteq_size; set_solver).
  lia.
Qed.

(** A failed attempt on a matching rules out every complete one. *)
Lemma stuck_no_matching name owners seen' (f : string → string) (names : list string) :
  stuck (choices name) ∅ owners seen' → inj_out ∅ owners → (¬ owns_out ∅ owners name) →
  (∀ d n, owners !! d = Some n → n ∈ names) → name ∈ names →
  (∀ n, n ∈ names → f n ∈ choices n) →
  (∀ n1 n2, n1 ∈ names → n2 ∈ names → f n1 = f n2 → n1 = n2) → False.
Proof.
  intros (_ & Hc & Hown) Hinj Hname Hdom Hin Hf Hfinj.
  set (T := elements seen').
  set (N := name :: omap (λ d, owners !! d) T).
  assert (HN : ∀ n, n ∈ N → n ∈ names ∧ ∀ d, d ∈ choices n → d ∈ seen').
  { intros n [->|Hn]%elem_of_cons; [by auto|].
    apply list_elem_of_omap in Hn as (d & Hd & E). apply elem_of_elements in Hd.
    split; [by eapply Hdom|]. destruct (Hown d Hd) as (o & Ho & Hall); [set_solver|].
    rewrite E in Ho. by injection Ho as <-. }
  assert (Hlen : length (omap (λ d, owners !! d) T) = length T).
  { assert (HT : ∀ d, d ∈ T → is_Some (owners !! d)).
    { intros d Hd%elem_of_elements. destruct (Hown d Hd) as (o & Ho & _); [set_solver|]. by eexists. }
    clear -HT. induction T as [|d T IH]; [done|]. simpl.
    destruct (HT d) as [o ->]; [by left|]. simpl. f_equal. apply IH. intros. apply HT. by right. }
  assert (HND : NoDup N).
  { constructor.
    - intros (d & Hd & E)%list_elem_of_omap. apply Hname. exists d. split; [set_solver|done].
    - pose proof (NoDup_elements seen') as HT. fold T in HT. clear -HT Hinj.
      induction T as [|d T IH]; [constructor|]. apply NoDup_cons in HT as [Hd HT]. simpl.
      destruct (owners !! d) as [o|] eqn:E; [|by apply IH].
      constructor; [|by apply IH]. intros (d' & Hd' & E')%list_elem_of_omap.
      assert (d = d') by (eapply Hinj; [set_solver|set_solver|done|done]). congruence. }
  assert (HNDf : NoDup (f <$> N)).
  { clear -HND HN Hfinj. induction HND as [|n N Hn _ IH]; simpl; constructor.
    - intros (n' & E & Hn')%list_elem_of_fmap. apply Hn.
      assert (n = n') as -> by (apply Hfinj; [apply HN; by left|apply HN; by right|done]). done.
    - apply IH. intros. apply HN. by right. }
  assert (Hsub : f <$> N ⊆+ T).
  { apply NoDup_submseteq; [done|]. intros d (n & -> & Hn)%list_elem_of_fmap.
    apply elem_of_elements. apply (HN n Hn). apply Hf. by apply HN. }
  apply submseteq_length in Hsub. rewrite length_fmap in Hsub. unfold N in Hsub.
  simpl in Hsub. lia.
Qed.

(** The invariant of the loop over the names. *)
Definition matching_of (owners : gmap string string) (names : list string) : Prop :=
  valid_owners owners ∧ inj_out ∅ owners ∧ ∀ n, owns_out ∅ owners n ↔ n ∈ names.

Lemma place_all_ok fuel names owners done' owners' :
  matching_of owners done' → NoDup (done' ++ names) →
  place_all fuel names owners = Some owners' → matching_of owners' (done' ++ names).
Proof.
  revert owners done'. induction names as [|n names IH]; intros owners done' Hm Hnd H; simpl in H.
  { injection H as <-. by rewrite app_nil_r. }
  destruct (place fuel n ∅ owners) as [[[[] s1] o1]|] eqn:E; try done.
  apply place_ok in E. destruct Hm as (Hv & Hi & Hn).
  replace (done' ++ n :: names) with ((done' ++ [n]) ++ names) in * by by rewrite <- app_assoc.
  apply (IH o1); [|done|done].
  assert (Hout : ¬ owns_out ∅ owners n).
  { intros Ho%Hn. apply NoDup_app in Hnd as [(_ & Hnd & _)%NoDup_app _].
    apply (Hnd n); [done|by left]. }
  destruct (E Hv Hi Hout) as (_ & ? & ? & _ & Hown).
  split; [done|]. split; [done|]. intros m. rewrite Hown, Hn. set_solver.
Qed.

Lemma place_all_complete (universe : gset string) fuel names owners done' (f : string → string) :
  (∀ n d, d ∈ choices n → d ∈ universe) → size universe < fuel →
  matching_of owners done' → NoDup (done' ++ names) →
  (∀ n, n ∈ done' ++ names → f n ∈ choices n) →
  (∀ n1 n2, n1 ∈ done' ++ names → n2 ∈ done' ++ names → f n1 = f n2 → n1 = n2) →
  is_Some (place_all fuel names owners).
Proof.
  intros Hu Hfuel. revert owners done'. induction names as [|n names IH]; intros owners done' Hm Hnd Hf Hi.
  { by eexists. }
  simpl. assert (Hnd' := Hnd). apply NoDup_app in Hnd' as (_ & Hnot & _).
  destruct (place_total universe Hu fuel n ∅ owners) as [[[b s1] o1] E].
  { rewrite difference_empty_L. done. }
  rewrite E. assert (Hm' := Hm). destruct Hm' as (Hv & Hinj & Hown).
  assert (Hout : ¬ owns_out ∅ owners n).
  { intros Ho%Hown. apply (Hnot n); [done|by left]. }
  destruct b.
  - replace (done' ++ n :: names) with ((done' ++ [n]) ++ names) in * by by rewrite <- app_assoc.
    apply (IH o1 (done' ++ [n])); [|done|done|done].
    apply place_ok in E. destruct (E Hv Hinj Hout) as (_ & ? & ? & _ & Hown').
    split; [done|]. split; [done|]. intros m. rewrite Hown', Hown. set_solver.
  - exfalso. apply place_ok in E as [_ Hst].
    eapply (stuck_no_matching n owners s1 f (done' ++ n :: names)); try done.
    + intros d m E'. apply elem_of_app. left. apply Hown. exists d. split; [set_solver|done].
    + set_solver.
Qed.
End matching.

(** * The selection *)

(** [choices[name]] *)
Definition choice_list (choices : list (string * list string)) (name : string) : list string :=
  default [] (od_get name choices).

(** [sorted(choices, key=lambda name: (len(choices[name]), name))] *)
Definition choice_lt (a b : string * list string) : bool :=
  (length a.2 <? length b.2) || ((length a.2 =? length b.2) && str_ltb a.1 b.1).

(** [{name: device for device, name in owners.items()}] *)
Definition by_name (owners : gmap string string) : gmap string string :=
  list_to_map (map (λ p, (p.2, p.1)) (map_to_list owners)).

Definition match_gpus (s : spec) (devices : list device) (occupied : gset string)
    : option (gmap string string) :=
  let choices := choices_of s devices occupied in
  by_name <$> place_all (choice_list choices) (S (length devices))
                (map fst (sort_by choice_lt choices)) ∅.

(** A selection: none, the definition's own device, or devices by name. *)
Inductive selection :=
  | NoGpu
  | OneGpu (u : string)
  | GroupGpus (m : gmap string string).

Definition selected_for (sel : selection) (name : string) : option string :=
  match sel with
  | NoGpu => None
  | OneGpu u => if bool_decide (name = "main"%string) then Some u else None
  | GroupGpus m => m !! name
  end.

Definition selected_uuids (sel : selection) : gset string :=
  match sel with
  | NoGpu => ∅
  | OneGpu u => {[u]}
  | GroupGpus m => list_to_set (map snd (map_to_list m))
  end.

(** [assign_gpus]: the selection is written into the definition and its services. *)
Definition with_gpu_uuid (u : option string) (s : spec) : spec :=
  match u with
  | None => s
  | Some u =>
      let 'Spec f services := s in
      Spec (f <| f_gpu_uuid := Some u |>) services
  end.

Definition assign_gpus (s : spec) (sel : selection) : spec :=
  let shadowed := existsb (λ item : string * (string * option string * spec),
                             bool_decide (item.1 = "main"%string)) (spec_services s) in
  let 'Spec f services := with_gpu_uuid (if shadowed then None else selected_for sel "main") s in
  Spec f (map (λ item : string * (string * option string * spec),
                 (item.1, (item.2.1, with_gpu_uuid (selected_for sel item.1) item.2.2))) services).

(** ** What a selection promises *)

(** [d] is a free device that serves the GPU request of [child]. *)
Definition serves (devices : list device) (occupied : gset string) (child : spec) (u : string) : Prop :=
  ∃ g d, f_gpu (spec_fields child) = Some g ∧ d ∈ devices ∧ dev_uuid d = u ∧
    gpu_matches g (dev_model d) = true ∧ (u ∉ occupied).

(** Every GPU request has a device of its own that serves it, and nothing else
    is selected. *)
Record gpu_assignment (s : spec) (devices : list device) (occupied : gset string)
    (sel : gmap string string) : Prop := {
  ga_serves : ∀ n u, sel !! n = Some u → ∃ child, (n, child) ∈ gpu_specs s ∧ serves devices occupied child u;
  ga_total : ∀ n child, (n, child) ∈ gpu_specs s → is_Some (f_gpu (spec_fields child)) → is_Some (sel !! n);
  ga_distinct : ∀ n1 n2 u, sel !! n1 = Some u → sel !! n2 = Some u → n1 = n2 }.

Lemma gpu_specs_wf s : od_wf (gpu_specs s).
Proof.
  unfold gpu_specs. assert (H : od_wf [("main"%string, s)]) by (repeat constructor; set_solver).
  revert H. generalize [("main"%string, s)]. induction (spec_services s) as [|i l IH]; intros d H; simpl; [done|].
  apply IH. by apply od_wf_set.
Qed.

Lemma choices_of_wf s devices occupied : od_wf (choices_of s devices occupied).
Proof.
  unfold choices_of. pose proof (gpu_specs_wf s) as H. revert H.
  generalize (gpu_specs s). intros l. unfold od_wf, keys.
  induction l as [|[n c] l IH]; intros H; simpl in *; [constructor|].
  apply NoDup_cons in H as [Hn Hl]. destruct (f_gpu (spec_fields c)); [|by apply IH].
  simpl. constructor; [|by apply IH]. intros (p & E & Hp)%list_elem_of_fmap.
  apply list_elem_of_omap in Hp as ([n' c'] & Hin & E'). simpl in E'.
  destruct (f_gpu (spec_fields c')); [|done]. injection E' as <-. simpl in E. subst n'.
  apply Hn. apply list_elem_of_fmap. by exists (n, c').
Qed.

Lemma elem_of_choices s devices occupied n u :
  u ∈ choice_list (choices_of s devices occupied) n ↔
  ∃ child, (n, child) ∈ gpu_specs s ∧ serves devices occupied child u.
Proof.
  unfold choice_list. split.
  - destruct (od_get n _) as [c|] eqn:E; [|simpl; set_solver].
    simpl. intros Hu. apply od_get_elem, list_elem_of_omap in E as ([n' child] & Hin & E).
    simpl in E. destruct (f_gpu (spec_fields child)) as [g|] eqn:Hg; [|done]. injection E as -> <-.
    apply list_elem_of_fmap in Hu as (d & -> & [[Hocc Hm] Hd]%list_elem_of_filter).
    exists child. split; [done|]. by exists g, d.
  - intros (child & Hin & g & d & Hg & Hd & <- & Hm & Hocc).
    rewrite (od_get_wf n (map dev_uuid (filter (λ d, (dev_uuid d ∉ occupied) ∧
      gpu_matches g (dev_model d) = true) devices))).
    + simpl. apply list_elem_of_fmap. exists d. split; [done|]. by apply list_elem_of_filter.
    + apply choices_of_wf.
    + apply list_elem_of_omap. exists (n, child). split; [done|]. simpl. by rewrite Hg.
Qed.

Lemma elem_of_choice_names s devices occupied n :
  n ∈ map fst (sort_by choice_lt (choices_of s devices occupied)) ↔
  ∃ child, (n, child) ∈ gpu_specs s ∧ is_Some (f_gpu (spec_fields child)).
Proof.
  rewrite (Permutation_map fst (sort_by_perm choice_lt _)). rewrite list_elem_of_fmap. split.
  - intros ([n' c] & -> & ([n'' child] & Hin & E)%list_elem_of_omap). simpl in *.
    destruct (f_gpu (spec_fields child)) eqn:Hg; [|done]. injection E as -> <-.
    exists child. rewrite Hg. eauto.
  - intros (child & Hin & [g Hg]). eexists (n, _). split; [done|].
    apply list_elem_of_omap. exists (n, child). split; [done|]. simpl. by rewrite Hg.
Qed.

Lemma by_name_lookup owners n d :
  inj_out ∅ owners → by_name owners !! n = Some d ↔ owners !! d = Some n.
Proof.
  intros Hi. unfold by_name. rewrite <- elem_of_list_to_map.
  - rewrite list_elem_of_fmap. split.
    + intros ([d' n'] & [= -> ->] & H%elem_of_map_to_list). done.
    + intros H. exists (d, n). split; [done|]. by apply elem_of_map_to_list.
  - rewrite map_map. pose proof (NoDup_map_to_list owners) as H.
    assert (HI : ∀ p, p ∈ map_to_list owners → owners !! p.1 = Some p.2).
    { intros [? ?] ?. by apply elem_of_map_to_list. }
    revert H HI. generalize (map_to_list owners). intros l. induction l as [|p l IH]; intros H HI; [constructor|].
    apply NoDup_cons in H as [Hp Hl]. simpl. constructor.
    + intros ([d' n'] & E & Hin)%list_elem_of_fmap. simpl in E. apply Hp.
      assert (p = (d', n')) as ->; [|done]. destruct p as [d0 n0]. simpl in E. subst n0. f_equal.
      eapply Hi; [set_solver|set_solver| |].
      * apply (HI (d0, n')). by left.
      * apply (HI (d', n')). by right.
    + apply IH; [done|]. intros q Hq. apply HI. by right.
Qed.

Lemma match_gpus_spec s devices occupied :
  match match_gpus s devices occupied with
  | Some sel => gpu_assignment s devices occupied sel
  | None => ∀ sel, ¬ gpu_assignment s devices occupied sel
  end.
Proof.
  unfold match_gpus. set (names := map fst _). set (ch := choice_list _).
  assert (Hnd : NoDup ([] ++ names)).
  { simpl. unfold names. rewrite (Permutation_map fst (sort_by_perm choice_lt _)).
    apply choices_of_wf. }
  assert (H0 : matching_of ch ∅ []).
  { split; [by intros d n|]. split; [by intros d1 d2 n _ _ |].
    intros n. split; [by intros (d & _ & ?)|set_solver]. }
  destruct (place_all ch _ names ∅) as [owners|] eqn:E; simpl.
  - apply (place_all_ok _ _ _ _ []) in E as (Hv & Hi & Hown); [|done|done]. simpl in Hown. split.
    + intros n u H. rewrite by_name_lookup in H by done. apply Hv in H. by apply elem_of_choices.
    + intros n child Hin Hg. destruct (proj2 (Hown n)) as (d & _ & Hd).
      { apply elem_of_choice_names. eauto. }
      exists d. by apply by_name_lookup.
    + intros n1 n2 u H1 H2. rewrite by_name_lookup in H1, H2 by done. congruence.
  - intros sel [Hs Ht Hd].
    assert (HT : ∀ n, n ∈ [] ++ names → ∃ u, sel !! n = Some u ∧ u ∈ ch n).
    { intros n (child & Hin & Hg)%elem_of_choice_names. destruct (Ht _ _ Hin Hg) as [u Hu].
      exists u. split; [done|]. apply elem_of_choices. by apply Hs. }
    destruct (place_all_complete ch (list_to_set (map dev_uuid devices)) (S (length devices)) names ∅ []
      (λ n, default ""%string (sel !! n))) as [o Ho]; [| |done|done| | |by rewrite E in Ho].
    + intros n d (child & _ & g & dev & _ & Hdev & <- & _)%elem_of_choices.
      apply elem_of_list_to_set, list_elem_of_fmap. eauto.
    + pose proof (size_list_to_set_le (map dev_uuid devices)). rewrite length_map in *. lia.
    + intros n (u & -> & Hu)%HT. done.
    + intros n1 n2 (u1 & E1 & _)%HT (u2 & E2 & _)%HT. rewrite E1, E2. simpl.
      intros ->. by eapply Hd.
Qed.

(** C38: GPU selection is sound and complete. [match_gpus] gives every GPU request
    of a group a free device of its own that serves it, and selects nothing else;
    it reports none exactly when no such assignment exists, so a group is never
    rejected because an early choice took the only device of a later one. *)
Theorem match_gpus_correct s devices occupied :
  match match_gpus s devices occupied with
  | Some sel => gpu_assignment s devices occupied sel
  | None => ∀ sel, ¬ gpu_assignment s devices occupied sel
  end.
Proof. apply match_gpus_spec. Qed.

(** Occupying more devices never makes a selection possible. *)
Lemma match_gpus_antimono s devices occ occ' :
  occ ⊆ occ' → match_gpus s devices occ = None → match_gpus s devices occ' = None.
Proof.
  intros Hs Hn. pose proof (match_gpus_spec s devices occ) as H. rewrite Hn in H.
  pose proof (match_gpus_spec s devices occ') as H'.
  destruct (match_gpus s devices occ') as [sel|]; [|done].
  destruct (H sel). destruct H' as [H1 H2 H3]. split; [|done|done].
  intros n u E. destruct (H1 n u E) as (child & Hc & g & d & ? & ? & ? & ? & ?).
  exists child. split; [done|]. exists g, d. split_and!; try done. set_solver.
Qed.
