(* ===== verification/Scheduler.v ===== *)
(** [weave/scheduler.py]: placement planning. [plan] reads the pending requests,
    the workers, the allocations and the pool policies, and returns reservations
    and waiting reasons. Shares and loads are exact rationals. *)

From S2P Require Import Prelude OrderedDict Proxy Resources GpuMatching.
From Stdlib Require Import QArith Qminmax.
Local Open Scope Z_scope.

(** [TERMINAL] *)
Definition TERMINAL : list string :=
  ["terminated"; "stopped"; "failed"; "cancelled"; "succeeded"]%string.

(** * Amounts of the three planned resources *)

Record amount := Amount { a_memory : Z; a_slots : Z; a_gpu : Z }.
Definition zero : amount := Amount 0 0 0.
Definition add_amount (a b : amount) : amount :=
  Amount (a_memory a + a_memory b) (a_slots a + a_slots b) (a_gpu a + a_gpu b).
Definition exceeds (a b : amount) : bool :=
  (a_memory b <? a_memory a) || (a_slots b <? a_slots a) || (a_gpu b <? a_gpu a).

(** * Records *)

(** The fields of a worker record planning reads. *)
Record wrec := WRec {
  wr_id : string; wr_state : string; wr_draining : bool;
  wr_capacity : amount; wr_labels : gmap string string;
  wr_runtimes : option (list string); wr_kvm : bool;
  wr_machine : option string; wr_boot : option string;
  wr_external : amount; wr_external_uuids : list string;
  wr_gpus : list device }.

(** The fields of an allocation record planning reads. *)
Record arec := ARec {
  ar_id : string; ar_parent : option string; ar_worker : option string;
  ar_released : bool; ar_prepared : bool; ar_created : Z; ar_spec : spec }.

(** A pending request. *)
Record request := Request {
  rq_id : string; rq_parent : option string; rq_created : Z; rq_spec : spec;
  rq_only_worker : option string }.

(** A pool's policy; the defaults are those [plan] uses for a missing entry. The
    empty affinity is none. *)
Record policy := Policy {
  po_priority : Z; po_weight : Q; po_quota : option Z;
  po_labels : list (string * string); po_affinity : string; po_placement : string }.
Definition no_policy : policy := Policy 0 1 None [] "" "spread".

(** Python truth of an optional text. *)
Definition text (o : option string) : option string :=
  match o with Some s => if bool_decide (s = ""%string) then None else Some s | None => None end.

(** [machine] of an inventory with this boot ID *)
Definition machine (boot : option string) : option string :=
  match text boot with Some b => Some ("machine-" ++ b)%string | None => None end.

Definition charged (a : arec) : bool :=
  bool_decide (is_Some (text (ar_worker a))) && negb (ar_released a).

(** [requirements] *)
Fixpoint slots_of (s : spec) : Z :=
  let 'Spec f services := s in
  1 + (match f_image_import_memory f with Some v => if truthy v then 1 else 0 | None => 0 end)
  + (fix go (l : list (string * (string * option string * spec))) :=
       match l with [] => 0 | (_, (_, c)) :: l => slots_of c + go l end) services.
Fixpoint gpus_of (s : spec) : Z :=
  let 'Spec f services := s in
  (match f_gpu f with Some _ => 1 | None => 0 end)
  + (fix go (l : list (string * (string * option string * spec))) :=
       match l with [] => 0 | (_, (_, c)) :: l => gpus_of c + go l end) services.

Definition requirements (s : spec) : res amount :=
  m ← reservation s; Ok (Amount m (slots_of s) (gpus_of s)).

(** * Planning state *)

Record planning := Planning {
  pl_usage : gmap string amount;
  pl_shares : gmap string amount;
  pl_devices : gmap string (gset string);
  pl_unknown : gset string;
  pl_localities : gmap (option string) (list (string * nat)) }.

Definition get_amount (k : string) (m : gmap string amount) : amount := default zero (m !! k).
Definition add_to (k : string) (need : amount) (m : gmap string amount) : gmap string amount :=
  <[k := add_amount (get_amount k m) need]> m.
Definition get_set (k : string) (m : gmap string (gset string)) : gset string := default ∅ (m !! k).

Section plan.
  Context (workers : list wrec) (policies : gmap string policy).

Definition policy_of (parent : option string) : policy :=
  match parent with Some p => default no_policy (policies !! p) | None => no_policy end.

Definition share_key (parent : option string) : string := default "default"%string (text parent).

Definition by_worker (i : string) : option wrec :=
  foldl (λ found w, if bool_decide (wr_id w = i) then Some w else found) None workers.

Definition locality (parent : option string) (worker : string) : string :=
  if bool_decide (po_affinity (policy_of parent) = "machine"%string) then
    match by_worker worker with
    | None => worker
    | Some w => default worker (match text (wr_machine w) with
                                | Some m => Some m
                                | None => machine (wr_boot w)
                                end)
    end
  else worker.

Definition localities_of (p : planning) (parent : option string) : list (string * nat) :=
  default [] (pl_localities p !! parent).

(** [remember] *)
Definition remember_place (parent : option string) (worker : string) (p : planning) : planning :=
  if bool_decide (po_affinity (policy_of parent) = ""%string) then p
  else
    let place := locality parent worker in
    let places := localities_of p parent in
    let places' := match od_get place places with
                   | Some _ => places
                   | None => od_set place (length places) places
                   end in
    Planning (pl_usage p) (pl_shares p) (pl_devices p) (pl_unknown p)
      (<[parent := places']> (pl_localities p)).

(** ** The initial state, from the durable allocations *)

(** [(created, id)] *)
Definition age_lt (a b : Z * string) : bool :=
  (a.1 <? b.1) || ((a.1 =? b.1) && str_ltb a.2 b.2).

Abbreviation seen_places := (gmap (option string) (list (string * (Z * string)))).

Definition note_locality (a : arec) (worker : string) (seen : seen_places) : seen_places :=
  let place := locality (ar_parent a) worker in
  let age := (ar_created a, ar_id a) in
  let places := default [] (seen !! ar_parent a) in
  let known := default age (od_get place places) in
  <[ar_parent a := od_set place (if age_lt age known then age else known) places]> seen.

(** The devices a charged allocation occupies: those named in its definition, or
    its whole worker when one is not named. *)
Definition occupy (worker : string) (s : spec) (devices : gmap string (gset string)) (unknown : gset string)
    : gmap string (gset string) * gset string :=
  foldl (λ d (item : string * spec),
    match f_gpu (spec_fields item.2), text (f_gpu_uuid (spec_fields item.2)) with
    | None, _ => d
    | Some _, Some u => (<[worker := {[u]} ∪ get_set worker d.1]> d.1, d.2)
    | Some _, None => (d.1, {[worker]} ∪ d.2)
    end) (devices, unknown) (gpu_specs s).

Definition charge (p : planning) (a : arec) (worker : string) : res planning :=
  need ← requirements (ar_spec a);
  let '(devices, unknown) :=
    if a_gpu need =? 0 then (pl_devices p, pl_unknown p)
    else occupy worker (ar_spec a) (pl_devices p) (pl_unknown p) in
  Ok (Planning (add_to worker need (pl_usage p)) (add_to (share_key (ar_parent a)) need (pl_shares p))
        devices unknown (pl_localities p)).

Definition initial_step (st : planning * seen_places) (a : arec) : res (planning * seen_places) :=
  let '(p, seen) := st in
  let seen := match text (ar_worker a) with
              | Some w =>
                  if negb (bool_decide (po_affinity (policy_of (ar_parent a)) = ""%string))
                     && (charged a || ar_prepared a)
                  then note_locality a w seen else seen
              | None => seen
              end in
  match text (ar_worker a) with
  | Some w => if charged a then p ← charge p a w; Ok (p, seen) else Ok (p, seen)
  | None => Ok (p, seen)
  end.

(** [{place: i for i, place in enumerate(sorted(places, key=places.get))}] *)
Definition rank_places (places : list (string * (Z * string))) : list (string * nat) :=
  imap (λ i p, (p.1, i)) (sort_by (λ a b : string * (Z * string), age_lt a.2 b.2) places).

Definition initial (allocations : list arec) : res planning :=
  st ← res_fold initial_step (Planning ∅ ∅ ∅ ∅ ∅, ∅) allocations;
  let '(p, seen) := st in
  Ok (Planning (pl_usage p) (pl_shares p) (pl_devices p) (pl_unknown p) (rank_places <$> (seen : seen_places))).

(** ** One request *)

Definition available : list wrec :=
  filter (λ w, wr_state w = "ready"%string ∧ wr_draining w = false) workers.

Definition totals : amount :=
  Amount (Z.max 1 (sumZ (map (λ w, a_memory (wr_capacity w)) available)))
         (Z.max 1 (sumZ (map (λ w, a_slots (wr_capacity w)) available)))
         (Z.max 1 (sumZ (map (λ w, a_gpu (wr_capacity w)) available))).

Definition ratio (a b : Z) : Q := (inject_Z a / inject_Z b)%Q.
Definition Qlt_bool (a b : Q) : bool := negb (Qle_bool b a).
Definition max3 (a b c : Q) : Q := Qmax (Qmax a b) c.

Definition dominant (p : planning) (r : request) : Q :=
  let s := get_amount (share_key (rq_parent r)) (pl_shares p) in
  (max3 (ratio (a_memory s) (a_memory totals)) (ratio (a_slots s) (a_slots totals))
        (ratio (a_gpu s) (a_gpu totals)) / po_weight (policy_of (rq_parent r)))%Q.

(** [rank]: priority, then weighted dominant share, then age. *)
Definition rank_lt (p : planning) (a b : request) : bool :=
  let pa := po_priority (policy_of (rq_parent a)) in
  let pb := po_priority (policy_of (rq_parent b)) in
  (pb <? pa) || ((pa =? pb) &&
    (Qlt_bool (dominant p a) (dominant p b) || (Qeq_bool (dominant p a) (dominant p b) &&
      age_lt (rq_created a, rq_id a) (rq_created b, rq_id b)))).

Definition kvm_required (s : spec) : bool := bool_decide (f_kvm (spec_fields s) = VBool true).

(** [max(usage[r] / max(1, capacity[r]) for r in need)] *)
Definition load (u capacity : amount) : Q :=
  max3 (ratio (a_memory u) (Z.max 1 (a_memory capacity))) (ratio (a_slots u) (Z.max 1 (a_slots capacity)))
       (ratio (a_gpu u) (Z.max 1 (a_gpu capacity))).

(** What a request asks of one worker: a reason against it, or the devices it
    would get ([None]: another worker was asked for, no reason is given). *)
Inductive verdict :=
  | Skip
  | Reason (why : string)
  | Candidate (sel : selection).

Definition assess (p : planning) (r : request) (need : amount) (w : wrec) : verdict :=
  let s := rq_spec r in
  let fits sel :=
    if exceeds (add_amount (add_amount need (get_amount (wr_id w) (pl_usage p))) (wr_external w)) (wr_capacity w)
    then Reason "worker resources are reserved" else Candidate sel in
  if match text (rq_only_worker r) with Some o => negb (bool_decide (wr_id w = o)) | None => false end then Skip
  else if existsb (λ kv, negb (bool_decide (wr_labels w !! kv.1 = Some kv.2))) (po_labels (policy_of (rq_parent r)))
  then Reason "worker labels do not match"
  else if negb (bool_decide (f_runtime (spec_fields s) ∈ default ["gvisor"; "apptainer"]%string (wr_runtimes w)))
  then Reason "runtime is unavailable"
  else if kvm_required s && negb (wr_kvm w) then Reason "KVM is unavailable"
  else if a_gpu need =? 0 then fits NoGpu
  else if bool_decide (wr_id w ∈ pl_unknown p)
          || (Z.of_nat (length (wr_external_uuids w)) <? a_gpu (wr_external w))
  then Reason "no unreserved GPU matches the request"
  else
    match match_gpus s (wr_gpus w) (get_set (wr_id w) (pl_devices p) ∪ list_to_set (wr_external_uuids w)) with
    | None => Reason "no unreserved GPU matches the request"
    | Some m =>
        match spec_services s with
        | [] => fits (match m !! "main"%string with Some u => OneGpu u | None => NoGpu end)
        | _ => fits (GroupGpus m)
        end
    end.

Record candidate := Cand {
  c_preference : nat; c_load : Q; c_worker : string; c_selection : selection }.

Definition candidate_of (p : planning) (r : request) (w : wrec) (sel : selection) : candidate :=
  let po := policy_of (rq_parent r) in
  let l := load (get_amount (wr_id w) (pl_usage p)) (wr_capacity w) in
  let places := localities_of p (rq_parent r) in
  Cand (if bool_decide (po_affinity po = ""%string) then O
        else default (length places) (od_get (locality (rq_parent r) (wr_id w)) places))
       (if bool_decide (po_placement po = "spread"%string) then l else (- l)%Q) (wr_id w) sel.

Definition candidates (p : planning) (r : request) (need : amount) : list candidate :=
  omap (λ w, match assess p r need w with
             | Candidate sel => Some (candidate_of p r w sel)
             | _ => None
             end) available.

Definition reasons (p : planning) (r : request) (need : amount) : list string :=
  elements (list_to_set (omap (λ w, match assess p r need w with Reason s => Some s | _ => None end) available) : gset string).

Definition cand_lt (a b : candidate) : bool :=
  (c_preference a <? c_preference b)%nat || ((c_preference a =? c_preference b)%nat &&
    (Qlt_bool (c_load a) (c_load b) || (Qeq_bool (c_load a) (c_load b) && str_ltb (c_worker a) (c_worker b)))).

(** The state after a reservation. *)
Definition reserve (p : planning) (r : request) (need : amount) (worker : string) (sel : selection) : planning :=
  let p := remember_place (rq_parent r) worker p in
  Planning (add_to worker need (pl_usage p)) (add_to (share_key (rq_parent r)) need (pl_shares p))
    (match sel with
     | NoGpu => pl_devices p
     | _ => <[worker := get_set worker (pl_devices p) ∪ selected_uuids sel]> (pl_devices p)
     end) (pl_unknown p) (pl_localities p).

Abbreviation assignment := (string * string * selection)%type.
Abbreviation outcome := (list assignment * list (string * string))%type.

Definition over_quota (p : planning) (r : request) (need : amount) : bool :=
  match po_quota (policy_of (rq_parent r)) with
  | Some limit => limit <? a_slots (get_amount (share_key (rq_parent r)) (pl_shares p)) + a_slots need
  | None => false
  end.

(** What happens to one request. *)
Inductive decision :=
  | Waits (why : string)
  | Placed (worker : string) (sel : selection).

Definition decide_request (p : planning) (r : request) (need : amount) : decision :=
  if over_quota p r need then Waits "pool quota is fully reserved"
  else match min_by cand_lt (candidates p r need) with
       | Some c => Placed (c_worker c) (c_selection c)
       | None =>
           let why := str_join "; " (sort_by str_ltb (reasons p r need)) in
           Waits (if bool_decide (why = ""%string) then "no ready worker matches this request" else why)
       end.

(** The loop: each turn takes the best ranked request, one turn per request. *)
Fixpoint plan_loop (turns : nat) (p : planning) (pending : list request) (done : outcome) : res outcome :=
  match turns, sort_by (rank_lt p) pending with
  | S turns, r :: pending =>
      need ← requirements (rq_spec r);
      match decide_request p r need with
      | Waits why => plan_loop turns p pending (done.1, done.2 ++ [(rq_id r, why)])
      | Placed worker sel =>
          plan_loop turns (reserve p r need worker sel) pending (done.1 ++ [(rq_id r, worker, sel)], done.2)
      end
  | _, _ => Ok done
  end.

Definition plan (requests : list request) (allocations : list arec) : res outcome :=
  p ← initial allocations;
  plan_loop (length requests) p requests ([], []).
End plan.

(** * Amounts *)

Definition fits_in (a b : amount) : Prop :=
  a_memory a ≤ a_memory b ∧ a_slots a ≤ a_slots b ∧ a_gpu a ≤ a_gpu b.

Lemma exceeds_false a b : exceeds a b = false ↔ fits_in a b.
Proof.
  unfold exceeds, fits_in. split.
  - intros H. bool_prop. lia.
  - intros (? & ? & ?). rewrite !orb_false_iff, !Z.ltb_ge. lia.
Qed.

Lemma add_amount_assoc a b c : add_amount a (add_amount b c) = add_amount (add_amount a b) c.
Proof. unfold add_amount. simpl. f_equal; lia. Qed.
Lemma add_amount_comm a b : add_amount a b = add_amount b a.
Proof. unfold add_amount. f_equal; lia. Qed.
Lemma add_amount_zero a : add_amount a zero = a.
Proof. destruct a. unfold add_amount, zero. simpl. f_equal; lia. Qed.

Definition sum_amounts (l : list amount) : amount := foldr add_amount zero l.

Lemma get_add_to k k' need m :
  get_amount k (add_to k' need m) =
    add_amount (get_amount k m) (if bool_decide (k = k') then need else zero).
Proof.
  unfold get_amount, add_to. case_bool_decide as E.
  - subst. by rewrite lookup_insert_eq.
  - rewrite lookup_insert_ne by done. by rewrite add_amount_zero.
Qed.

Lemma slots_of_pos s : 1 ≤ slots_of s.
Proof.
  induction s as [f services IH] using spec_induction. simpl.
  match goal with |- context [?g services] => assert (0 ≤ g services) end.
  { induction IH as [|[n [i c]] l Hc _ IHl]; simpl in *; [lia|]. unfold service_spec in Hc. simpl in Hc. lia. }
  destruct (f_image_import_memory f) as [v|]; [destruct (truthy v)|]; lia.
Qed.
Lemma gpus_of_nonneg s : 0 ≤ gpus_of s.
Proof.
  induction s as [f services IH] using spec_induction. simpl.
  match goal with |- context [?g services] => assert (0 ≤ g services) end.
  { induction IH as [|[n [i c]] l Hc _ IHl]; simpl in *; [lia|]. unfold service_spec in Hc. simpl in Hc. lia. }
  destruct (f_gpu f); lia.
Qed.

Lemma requirements_nonneg s need : requirements s = Ok need → fits_in zero need.
Proof.
  unfold requirements. intros (m & Hm & [= <-])%bind_ok.
  apply reservation_nonneg in Hm. pose proof (slots_of_pos s). pose proof (gpus_of_nonneg s).
  unfold fits_in. simpl. lia.
Qed.

(** * What allocations hold *)

(** The need of an allocation that is charged to a worker. *)
Definition held (key : arec → option string) (k : string) (a : arec) : amount :=
  if charged a && bool_decide (key a = Some k)
  then default zero (res_option (requirements (ar_spec a))) else zero.
Definition on_worker (a : arec) : option string := text (ar_worker a).
Definition of_share (a : arec) : option string := Some (share_key (ar_parent a)).
Definition total_held (key : arec → option string) (k : string) (l : list arec) : amount :=
  sum_amounts (map (held key k) l).

(** The devices the charged allocations of a worker name, and whether one of
    them holds a device it does not name. *)
Definition names_device (w u : string) (a : arec) : Prop :=
  charged a = true ∧ text (ar_worker a) = Some w ∧
  ∃ n child, (n, child) ∈ gpu_specs (ar_spec a) ∧ is_Some (f_gpu (spec_fields child)) ∧
    text (f_gpu_uuid (spec_fields child)) = Some u.
Definition hides_device (w : string) (a : arec) : Prop :=
  charged a = true ∧ text (ar_worker a) = Some w ∧
  ∃ n child, (n, child) ∈ gpu_specs (ar_spec a) ∧ is_Some (f_gpu (spec_fields child)) ∧
    text (f_gpu_uuid (spec_fields child)) = None.

Lemma occupy_spec w s devices unknown w' :
  let d := occupy w s devices unknown in
  (∀ u, u ∈ get_set w' d.1 ↔ u ∈ get_set w' devices ∨
     (w' = w ∧ ∃ n child, (n, child) ∈ gpu_specs s ∧ is_Some (f_gpu (spec_fields child)) ∧
        text (f_gpu_uuid (spec_fields child)) = Some u)) ∧
  (w' ∈ d.2 ↔ w' ∈ unknown ∨
     (w' = w ∧ ∃ n child, (n, child) ∈ gpu_specs s ∧ is_Some (f_gpu (spec_fields child)) ∧
        text (f_gpu_uuid (spec_fields child)) = None)).
Proof.
  unfold occupy. cbv zeta. generalize (gpu_specs s). intros l. revert devices unknown.
  induction l as [|[n c] l IH]; intros devices unknown; simpl.
  { split; [intros u|]; (split; [by left|]); intros [?|(_ & n & c & H & _)]; done || set_solver. }
  destruct (f_gpu (spec_fields c)) as [g|] eqn:Hg.
  2: { destruct (IH devices unknown) as [IH1 IH2]. split; [intros u; rewrite IH1|rewrite IH2];
       (split; intros [?|(-> & n' & c' & H & H')]; [by left| |by left|];
        right; split; [done| |done|]).
       - exists n', c'. set_solver.
       - exists n', c'. apply elem_of_cons in H as [[= -> ->]|H]; [|done]. rewrite Hg in H'. by destruct H' as [[? ?] _].
       - exists n', c'. set_solver.
       - exists n', c'. apply elem_of_cons in H as [[= -> ->]|H]; [|done]. rewrite Hg in H'. by destruct H' as [[? ?] _]. }
  destruct (text (f_gpu_uuid (spec_fields c))) as [u0|] eqn:Hu; simpl.
  - destruct (IH (<[w:={[u0]} ∪ get_set w devices]> devices) unknown) as [IH1 IH2]. split.
    + intros u. rewrite IH1. unfold get_set at 1. split.
      * intros [H|(-> & n' & c' & H & H')]; [|right; split; [done|]; exists n', c'; set_solver].
        destruct (decide (w' = w)) as [->|Hne].
        -- rewrite lookup_insert_eq in H. simpl in H. apply elem_of_union in H as [->%elem_of_singleton|H]; [|by left].
           right. split; [done|]. exists n, c. rewrite Hg. split; [by left|]. split; [by eexists|done].
        -- rewrite lookup_insert_ne in H by done. by left.
      * intros [H|(-> & n' & c' & H & H1 & H2)].
        -- left. destruct (decide (w' = w)) as [->|Hne].
           ++ rewrite lookup_insert_eq. simpl. set_solver.
           ++ by rewrite lookup_insert_ne.
        -- apply elem_of_cons in H as [[= -> ->]|H].
           ++ left. rewrite lookup_insert_eq. simpl. set_solver.
           ++ right. split; [done|]. by exists n', c'.
    + rewrite IH2. split; (intros [?|(-> & n' & c' & H & H1 & H2)]; [by left|]; right; split; [done|]);
        exists n', c'; [set_solver|].
      apply elem_of_cons in H as [[= -> ->]|H]; [congruence|done].
  - destruct (IH devices ({[w]} ∪ unknown)) as [IH1 IH2]. split.
    + intros u. rewrite IH1. split; (intros [?|(-> & n' & c' & H & H1 & H2)]; [by left|]; right; split; [done|]);
        exists n', c'; [set_solver|].
      apply elem_of_cons in H as [[= -> ->]|H]; [congruence|done].
    + rewrite IH2. split.
      * intros [[->%elem_of_singleton|?]%elem_of_union|(-> & n' & c' & H & H')]; [right|by left|].
        -- split; [done|]. exists n, c. rewrite Hg. split; [by left|]. split; [by eexists|done].
        -- right. split; [done|]. exists n', c'. set_solver.
      * intros [?|(-> & n' & c' & H & H1 & H2)]; [set_solver|].
        apply elem_of_cons in H as [[= -> ->]|H]; [set_solver|].
        right. split; [done|]. by exists n', c'.
Qed.

Lemma gpu_specs_elem s n child :
  (n, child) ∈ gpu_specs s → child = s ∨ ∃ item, item ∈ spec_services s ∧ child = service_spec item.
Proof.
  unfold gpu_specs. intros H.
  enough ((n, child) ∈ [("main"%string, s)] ∨ ∃ item, item ∈ spec_services s ∧ child = service_spec item) as [E|E].
  { left. apply list_elem_of_singleton in E. congruence. }
  { by right. }
  revert H. generalize [("main"%string, s)]. induction (spec_services s) as [|i l IH]; intros d H; simpl in *.
  { by left. }
  apply IH in H as [H|(item & ? & ?)].
  - apply elem_of_od_set in H as [[= -> ->]|H]; [|by left]. right. exists i. split; [by left|done].
  - right. exists item. split; [by right|done].
Qed.

Lemma gpu_specs_need s n child :
  (n, child) ∈ gpu_specs s → is_Some (f_gpu (spec_fields child)) → gpus_of s ≠ 0.
Proof.
  intros H [g Hg]. apply gpu_specs_elem in H as [->|([m [i c]] & Hin & ->)]; destruct s as [f services]; simpl in *.
  - rewrite Hg. match goal with |- context [?g services] => assert (0 ≤ g services) end; [|lia].
    induction services as [|[? [? c]] l IH]; simpl; [lia|]. pose proof (gpus_of_nonneg c). lia.
  - match goal with |- context [?g services] => assert (1 ≤ g services) end; [|destruct (f_gpu f); lia].
    unfold service_spec in Hg. simpl in Hg.
    assert (Hc : 1 ≤ gpus_of c).
    { destruct c as [fc sc]. pose proof (gpus_of_nonneg (Spec fc [])) as _. simpl in *. rewrite Hg.
      match goal with |- context [?g sc] => assert (0 ≤ g sc) end; [|lia].
      clear. induction sc as [|[? [? c]] l IH]; simpl; [lia|]. pose proof (gpus_of_nonneg c). lia. }
    clear -Hin Hc. induction services as [|[? [? c']] l IH]; [set_solver|]. simpl.
    apply elem_of_cons in Hin as [[= <- <- <-]|Hin].
    + assert (0 ≤ (fix go (l : list (string * (string * option string * spec))) : Z :=
         match l with [] => 0 | (_, (_, c)) :: l => gpus_of c + go l end) l); [|lia].
      clear. induction l as [|[? [? c']] l IH]; simpl; [lia|]. pose proof (gpus_of_nonneg c'). lia.
    + pose proof (gpus_of_nonneg c'). specialize (IH Hin). lia.
Qed.

Section facts.
  Context (workers : list wrec) (policies : gmap string policy).

(** The planning state accounts exactly for these allocations. *)
Definition accounts (p : planning) (l : list arec) : Prop :=
  (∀ w, get_amount w (pl_usage p) = total_held on_worker w l) ∧
  (∀ k, get_amount k (pl_shares p) = total_held of_share k l) ∧
  (∀ w u, u ∈ get_set w (pl_devices p) ↔ ∃ a, a ∈ l ∧ names_device w u a) ∧
  (∀ w, w ∈ pl_unknown p ↔ ∃ a, a ∈ l ∧ hides_device w a).

Lemma total_held_snoc key k l a :
  total_held key k (l ++ [a]) = add_amount (total_held key k l) (held key k a).
Proof.
  unfold total_held. rewrite map_app. simpl. generalize (map (held key k) l). intros x.
  induction x as [|b x IH]; simpl; [by rewrite add_amount_comm|]. by rewrite IH, add_amount_assoc.
Qed.

Lemma exists_snoc {A} (P : A → Prop) l a :
  (∃ x, x ∈ l ++ [a] ∧ P x) ↔ (∃ x, x ∈ l ∧ P x) ∨ P a.
Proof.
  split.
  - intros (x & [Hx|Hx%list_elem_of_singleton]%elem_of_app & HP); [eauto|subst; auto].
  - intros [(x & Hx & HP)|HP]; [exists x|exists a]; rewrite elem_of_app, list_elem_of_singleton; auto.
Qed.

Lemma charged_worker a : charged a = true → ∃ w, text (ar_worker a) = Some w.
Proof. unfold charged. intros H. bool_prop. done. Qed.

Lemma charge_accounts p l a w p' :
  accounts p l → charged a = true → text (ar_worker a) = Some w →
  charge p a w = Ok p' → accounts p' (l ++ [a]).
Proof.
  intros (H1 & H2 & H3 & H4) Hc Hw H. unfold charge in H.
  apply bind_ok in H as (need & Hneed & H).
  set (d := if a_gpu need =? 0 then _ else _) in H. destruct d as [devices unknown] eqn:Hd. subst d.
  injection H as <-. unfold accounts; cbn [pl_usage pl_shares pl_devices pl_unknown].
  assert (Hocc : ∀ w', (∀ u, u ∈ get_set w' devices ↔ u ∈ get_set w' (pl_devices p) ∨ names_device w' u a) ∧
                       (w' ∈ unknown ↔ (w' ∈ pl_unknown p) ∨ hides_device w' a)).
  { intros w'. unfold names_device, hides_device. rewrite Hc, Hw.
    destruct (Z.eqb_spec (a_gpu need) 0) as [E|E].
    - injection Hd as <- <-.
      assert (Hno : ∀ n child, (n, child) ∈ gpu_specs (ar_spec a) → ¬ is_Some (f_gpu (spec_fields child))).
      { intros n c Hin Hg. apply (gpu_specs_need _ _ _ Hin Hg).
        unfold requirements in Hneed. apply bind_ok in Hneed as (? & _ & [= <-]). done. }
      split; [intros u|]; (split; [by left|]); intros [?|(_ & _ & n & c & Hin & Hg & _)]; [done| |done|];
        by destruct (Hno n c).
    - destruct (occupy_spec w (ar_spec a) (pl_devices p) (pl_unknown p) w') as [O1 O2].
      rewrite Hd in O1, O2. cbn [fst snd] in O1, O2. split; [intros u; rewrite O1|rewrite O2];
        (split; intros [?|H]; [by left| |by left|]; right); naive_solver. }
  assert (Hheld : ∀ key k, held key k a = if bool_decide (key a = Some k) then need else zero).
  { intros key k. unfold held. rewrite Hc. cbn [andb]. case_bool_decide; [|done]. by rewrite Hneed. }
  split_and!.
  - intros w'. rewrite get_add_to, total_held_snoc, H1, Hheld. unfold on_worker. rewrite Hw.
    f_equal. repeat case_bool_decide; congruence.
  - intros k. rewrite get_add_to, total_held_snoc, H2, Hheld. unfold of_share.
    f_equal. repeat case_bool_decide; congruence.
  - intros w' u. by rewrite (proj1 (Hocc w')), H3, exists_snoc.
  - intros w'. by rewrite (proj2 (Hocc w')), H4, exists_snoc.
Qed.

Lemma skip_accounts p l a :
  accounts p l → charged a = false → accounts p (l ++ [a]).
Proof.
  intros (H1 & H2 & H3 & H4) Hc.
  assert (Hheld : ∀ key k, held key k a = zero) by (intros; unfold held; by rewrite Hc).
  split_and!.
  - intros w. by rewrite total_held_snoc, Hheld, add_amount_zero.
  - intros w. by rewrite total_held_snoc, Hheld, add_amount_zero.
  - intros w u. rewrite H3, exists_snoc. unfold names_device at 3. rewrite Hc. naive_solver.
  - intros w. rewrite H4, exists_snoc. unfold hides_device at 3. rewrite Hc. naive_solver.
Qed.

Lemma initial_accounts allocations p :
  initial workers policies allocations = Ok p → accounts p allocations.
Proof.
  unfold initial. intros ([q seen] & H & [= <-])%bind_ok.
  enough (Hg : ∀ l st st' l0, accounts st.1 l0 → res_fold (initial_step workers policies) st l = Ok st' →
            accounts st'.1 (l0 ++ l)).
  { apply (Hg allocations _ _ []) in H; [done|]. split_and!; try done.
    - intros w u. split; [done|]. by intros (? & ?%not_elem_of_nil & _).
    - intros w. split; [done|]. by intros (? & ?%not_elem_of_nil & _). }
  clear H. intros l. induction l as [|a l IH]; intros [p0 s0] st' l0 Ha H; simpl in H.
  { injection H as <-. by rewrite app_nil_r. }
  apply bind_ok in H as ([p1 s1] & H1 & H2).
  replace (l0 ++ a :: l) with ((l0 ++ [a]) ++ l) by by rewrite <- app_assoc.
  eapply IH; [|exact H2]. unfold initial_step in H1. simpl in *.
  destruct (text (ar_worker a)) as [w|] eqn:Hw.
  - destruct (charged a) eqn:Hc.
    + apply bind_ok in H1 as (p2 & H1 & [= <- _]). by eapply charge_accounts.
    + injection H1 as <- _. by apply skip_accounts.
  - injection H1 as <- _. apply skip_accounts; [done|].
    destruct (charged a) eqn:Hc; [|done]. apply charged_worker in Hc as [? ?]. congruence.
Qed.

(** * The run of the loop *)

(** A reservation [plan] made. *)
Record placement := Pm { pm_request : request; pm_need : amount; pm_worker : string; pm_sel : selection }.

Definition show (m : placement) : string * string * selection :=
  (rq_id (pm_request m), pm_worker m, pm_sel m).

Definition reserve_pm (p : planning) (m : placement) : planning :=
  reserve workers policies p (pm_request m) (pm_need m) (pm_worker m) (pm_sel m).

(** A run from [p] on the pending requests: the placements and the waiting
    requests with their reasons, in order, and the final state. *)
Inductive run : planning → list request → list placement → list (request * string) → planning → Prop :=
  | run_done p : run p [] [] [] p
  | run_wait p pending r rest need why placed waiting p' :
      sort_by (rank_lt workers policies p) pending = r :: rest →
      requirements (rq_spec r) = Ok need →
      decide_request workers policies p r need = Waits why →
      run p rest placed waiting p' →
      run p pending placed ((r, why) :: waiting) p'
  | run_place p pending r rest need w sel placed waiting p' :
      sort_by (rank_lt workers policies p) pending = r :: rest →
      requirements (rq_spec r) = Ok need →
      decide_request workers policies p r need = Placed w sel →
      run (reserve workers policies p r need w sel) rest placed waiting p' →
      run p pending (Pm r need w sel :: placed) waiting p'.

Lemma sort_by_cons_length {A} (lt : A → A → bool) l x l' n :
  sort_by lt l = x :: l' → length l = S n → length l' = n.
Proof. intros H Hl. pose proof (length_sort_by lt l) as E. rewrite H in E. simpl in E. lia. Qed.

Lemma plan_loop_run turns p pending done out :
  length pending = turns → plan_loop workers policies turns p pending done = Ok out →
  ∃ placed waiting p', run p pending placed waiting p' ∧
    out = (done.1 ++ map show placed, done.2 ++ map (λ w, (rq_id w.1, w.2)) waiting).
Proof.
  revert p pending done. induction turns as [|turns IH]; intros p pending done Hl H.
  { destruct pending; [|done]. simpl in H. injection H as <-. exists [], [], p.
    split; [constructor|]. simpl. rewrite !app_nil_r. by destruct done. }
  simpl in H. destruct (sort_by (rank_lt workers policies p) pending) as [|r rest] eqn:Hs.
  { apply (f_equal length) in Hs. rewrite length_sort_by in Hs. simpl in Hs. lia. }
  apply bind_ok in H as (need & Hneed & H).
  pose proof (sort_by_cons_length _ _ _ _ _ Hs Hl) as Hl'.
  destruct (decide_request workers policies p r need) as [why|w sel] eqn:Hd.
  - apply IH in H as (placed & waiting & p' & Hr & ->); [|done].
    exists placed, ((r, why) :: waiting), p'. split; [by eapply run_wait|].
    simpl. by rewrite <- app_assoc.
  - apply IH in H as (placed & waiting & p' & Hr & ->); [|done].
    exists (Pm r need w sel :: placed), waiting, p'. split; [by eapply run_place|].
    simpl. by rewrite <- app_assoc.
Qed.

Lemma plan_run requests allocations assigned waiting :
  plan workers policies requests allocations = Ok (assigned, waiting) →
  ∃ p placed wait p', accounts p allocations ∧ run p requests placed wait p' ∧
    assigned = map show placed ∧ waiting = map (λ w, (rq_id w.1, w.2)) wait.
Proof.
  unfold plan. intros (p & Hp & H)%bind_ok. apply initial_accounts in Hp.
  apply plan_loop_run in H as (placed & wait & p' & Hr & [= -> ->]); [|done].
  by exists p, placed, wait, p'.
Qed.

Lemma sort_by_cons_perm {A} (lt : A → A → bool) l x l' : sort_by lt l = x :: l' → l ≡ₚ x :: l'.
Proof. intros <-. by rewrite sort_by_perm. Qed.

Lemma run_partition p pending placed waiting p' :
  run p pending placed waiting p' → map pm_request placed ++ map fst waiting ≡ₚ pending.
Proof.
  induction 1 as [|p pending r rest need why placed waiting p' Hs _ _ _ IH
                 |p pending r rest need w sel placed waiting p' Hs _ _ _ IH]; simpl; [done| |];
    rewrite (sort_by_cons_perm _ _ _ _ Hs), <- IH.
  - symmetry. apply Permutation_middle.
  - done.
Qed.

(** What holds when a request is placed. *)
Lemma decide_placed p r need i sel :
  decide_request workers policies p r need = Placed i sel →
  over_quota policies p r need = false ∧
  ∃ w, w ∈ available workers ∧ wr_id w = i ∧ assess policies p r need w = Candidate sel.
Proof.
  unfold decide_request. destruct (over_quota policies p r need); [done|].
  destruct (min_by cand_lt _) as [c|] eqn:Hc; [|done]. intros [= <- <-]. split; [done|].
  apply min_by_elem, list_elem_of_omap in Hc as (w & Hw & Hc).
  destruct (assess policies p r need w) as [| |sel] eqn:Ha; try done.
  injection Hc as <-. exists w. done.
Qed.

(** The conditions on a worker for a request, its load apart. *)
Definition eligible (r : request) (w : wrec) : Prop :=
  (∀ o, text (rq_only_worker r) = Some o → wr_id w = o) ∧
  (∀ k v, (k, v) ∈ po_labels (policy_of policies (rq_parent r)) → wr_labels w !! k = Some v) ∧
  f_runtime (spec_fields (rq_spec r)) ∈ default ["gvisor"; "apptainer"]%string (wr_runtimes w) ∧
  (kvm_required (rq_spec r) = true → wr_kvm w = true).

Definition gpus_fit (occupied : gset string) (r : request) (w : wrec) (sel : selection) : Prop :=
  ∃ m, gpu_assignment (rq_spec r) (wr_gpus w) occupied m ∧
    match spec_services (rq_spec r) with
    | [] => sel = match m !! "main"%string with Some u => OneGpu u | None => NoGpu end
    | _ => sel = GroupGpus m
    end.

Lemma assess_candidate p r need w sel :
  assess policies p r need w = Candidate sel →
  eligible r w ∧
  fits_in (add_amount (add_amount need (get_amount (wr_id w) (pl_usage p))) (wr_external w)) (wr_capacity w) ∧
  if a_gpu need =? 0 then sel = NoGpu
  else (wr_id w ∉ pl_unknown p) ∧
    a_gpu (wr_external w) ≤ Z.of_nat (length (wr_external_uuids w)) ∧
    gpus_fit (get_set (wr_id w) (pl_devices p) ∪ list_to_set (wr_external_uuids w)) r w sel.
Proof.
  unfold assess. intros H. cbv zeta in H.
  destruct (match text (rq_only_worker r) with Some o => _ | None => false end) eqn:E1; [done|].
  destruct (existsb _ _) eqn:E2; [done|].
  destruct (negb (bool_decide (f_runtime _ ∈ _))) eqn:E3; [done|].
  destruct (kvm_required _ && _) eqn:E4; [done|].
  assert (He : eligible r w).
  { split_and!.
    - intros o Ho. rewrite Ho in E1. by bool_prop.
    - intros k v Hkv.
      destruct (decide (wr_labels w !! k = Some v)) as [|Hn]; [done|]. exfalso.
      assert (Ht : existsb (λ kv : string * string, negb (bool_decide (wr_labels w !! kv.1 = Some kv.2)))
        (po_labels (policy_of policies (rq_parent r))) = true); [|congruence].
      apply existsb_exists. exists (k, v). split; [by apply list_elem_of_In|]. simpl.
      by rewrite bool_decide_eq_false_2.
    - by bool_prop.
    - intros Hk. rewrite Hk in E4. simpl in E4. by bool_prop. }
  split; [exact He|].
  assert (Hfit : ∀ sel', (if exceeds (add_amount (add_amount need (get_amount (wr_id w) (pl_usage p)))
      (wr_external w)) (wr_capacity w) then Reason "worker resources are reserved" else Candidate sel')
      = Candidate sel → fits_in (add_amount (add_amount need (get_amount (wr_id w) (pl_usage p)))
      (wr_external w)) (wr_capacity w) ∧ sel = sel').
  { intros sel'. destruct (exceeds _ _) eqn:Ex; [done|]. intros [= ->]. by apply exceeds_false in Ex. }
  destruct (a_gpu need =? 0); [by apply Hfit in H as [? ->]|].
  destruct (_ || _) eqn:E5 in H; [done|]. bool_prop.
  pose proof (match_gpus_spec (rq_spec r) (wr_gpus w)
    (get_set (wr_id w) (pl_devices p) ∪ list_to_set (wr_external_uuids w))) as Hm.
  destruct (match_gpus _ _ _) as [m|]; [|done]. unfold gpus_fit.
  destruct (spec_services (rq_spec r)) as [|x l] eqn:Es; apply Hfit in H as [Hf ->];
    (split; [done|]; split; [done|]; split; [done|]; by exists m).
Qed.
(** ** The state after placements *)

Definition total_placed (key : placement → string) (k : string) (l : list placement) : amount :=
  sum_amounts (map (λ m, if bool_decide (key m = k) then pm_need m else zero) l).
Definition pm_share (m : placement) : string := share_key (rq_parent (pm_request m)).

Definition state_after (p : planning) (l : list arec) (placed : list placement) : Prop :=
  (∀ w, get_amount w (pl_usage p) = add_amount (total_held on_worker w l) (total_placed pm_worker w placed)) ∧
  (∀ k, get_amount k (pl_shares p) = add_amount (total_held of_share k l) (total_placed pm_share k placed)) ∧
  (∀ w u, u ∈ get_set w (pl_devices p) ↔
     (∃ a, a ∈ l ∧ names_device w u a) ∨
     (∃ m, m ∈ placed ∧ pm_worker m = w ∧ u ∈ selected_uuids (pm_sel m))) ∧
  (∀ w, w ∈ pl_unknown p ↔ ∃ a, a ∈ l ∧ hides_device w a).

Lemma total_placed_cons key k m l :
  total_placed key k (m :: l) = add_amount (if bool_decide (key m = k) then pm_need m else zero) (total_placed key k l).
Proof. done. Qed.
Lemma total_placed_app key k l l' :
  total_placed key k (l ++ l') = add_amount (total_placed key k l) (total_placed key k l').
Proof.
  induction l as [|m l IH]; simpl.
  - rewrite add_amount_comm. by rewrite add_amount_zero.
  - by rewrite !total_placed_cons, IH, add_amount_assoc.
Qed.
Lemma total_placed_none key k l :
  (∀ m, m ∈ l → key m ≠ k) → total_placed key k l = zero.
Proof.
  induction l as [|m l IH]; intros H; [done|]. rewrite total_placed_cons, IH.
  - rewrite bool_decide_eq_false_2; [done|]. apply H. by left.
  - intros m' Hm. apply H. by right.
Qed.

Lemma sum_amounts_snoc l a : sum_amounts (l ++ [a]) = add_amount (sum_amounts l) a.
Proof.
  induction l as [|b l IH]; simpl; [by rewrite add_amount_comm|]. by rewrite IH, add_amount_assoc.
Qed.

Lemma state_after_start p l : accounts p l → state_after p l [].
Proof.
  intros (H1 & H2 & H3 & H4). split_and!.
  - intros w. by rewrite H1, add_amount_zero.
  - intros k. by rewrite H2, add_amount_zero.
  - intros w u. rewrite H3. split; [by left|]. intros [?|(m & ?%not_elem_of_nil & _)]; done.
  - done.
Qed.

Lemma reserve_basics p r need w sel :
  let p' := reserve workers policies p r need w sel in
  pl_usage p' = add_to w need (pl_usage p) ∧
  pl_shares p' = add_to (share_key (rq_parent r)) need (pl_shares p) ∧
  (∀ w' u, u ∈ get_set w' (pl_devices p') ↔
     u ∈ get_set w' (pl_devices p) ∨ (w = w' ∧ u ∈ selected_uuids sel)) ∧
  pl_unknown p' = pl_unknown p.
Proof.
  assert (H : ∀ q, q = remember_place workers policies (rq_parent r) w p →
    pl_usage q = pl_usage p ∧ pl_shares q = pl_shares p ∧ pl_devices q = pl_devices p ∧ pl_unknown q = pl_unknown p).
  { intros q ->. unfold remember_place. by case_bool_decide. }
  destruct (H _ eq_refl) as (E1 & E2 & E3 & E4). unfold reserve. cbv zeta.
  cbn [pl_usage pl_shares pl_devices pl_unknown]. rewrite E1, E2, E3, E4.
  split; [done|]. split; [done|]. split; [|done]. intros w' u.
  destruct (decide (w = w')) as [<-|Hne].
  - destruct sel; cbn [selected_uuids]; unfold get_set at 1; [|rewrite lookup_insert_eq; set_solver..].
    split; [by left|]. intros [?|[_ ?%not_elem_of_empty]]; done.
  - split; [|intros [H'|[? _]]; [|done]]; destruct sel; unfold get_set; auto;
      rewrite lookup_insert_ne by done; auto.
Qed.

Lemma state_after_reserve p l placed r need w sel :
  state_after p l placed →
  state_after (reserve workers policies p r need w sel) l (placed ++ [Pm r need w sel]).
Proof.
  intros (H1 & H2 & H3 & H4). destruct (reserve_basics p r need w sel) as (E1 & E2 & E3 & E4).
  unfold state_after, total_placed. split_and!.
  - intros w'. rewrite E1, get_add_to, H1, map_app, <- add_amount_assoc. simpl map.
    rewrite sum_amounts_snoc. do 2 f_equal. repeat case_bool_decide; simplify_eq/=; done.
  - intros k. rewrite E2, get_add_to, H2, map_app, <- add_amount_assoc. simpl map.
    rewrite sum_amounts_snoc. do 2 f_equal. unfold pm_share. repeat case_bool_decide; simplify_eq/=; done.
  - intros w' u. rewrite E3, H3, exists_snoc. simpl. naive_solver.
  - intros w'. by rewrite E4, H4.
Qed.

Lemma run_state p pending placed waiting p' l done :
  run p pending placed waiting p' → state_after p l done → state_after p' l (done ++ placed).
Proof.
  intros H. revert done. induction H as [p|? ? ? ? ? ? ? ? ? ? ? ? ? IH|p pending r rest need w sel placed waiting p' _ _ _ _ IH];
    intros done Hst.
  - by rewrite app_nil_r.
  - by apply IH.
  - apply (state_after_reserve _ _ _ r need w sel) in Hst. apply IH in Hst.
    by rewrite <- app_assoc in Hst.
Qed.

(** Each placement, with the state it was decided in. *)
Lemma run_placed p pending placed waiting p' l done :
  run p pending placed waiting p' → state_after p l done →
  ∀ l1 m l2, placed = l1 ++ m :: l2 → ∃ q, state_after q l (done ++ l1) ∧
    requirements (rq_spec (pm_request m)) = Ok (pm_need m) ∧
    decide_request workers policies q (pm_request m) (pm_need m) = Placed (pm_worker m) (pm_sel m).
Proof.
  intros H. revert done. induction H as [p|? ? ? ? ? ? ? ? ? ? ? ? ? IH|p pending r rest need w sel placed waiting p' _ Hn Hd _ IH];
    intros done Hst l1 m l2 E.
  - by destruct l1.
  - by apply (IH done Hst l1 m l2).
  - destruct l1 as [|m1 l1]; simpl in E; injection E as <- E.
    + exists p. rewrite app_nil_r. done.
    + apply (state_after_reserve _ _ _ r need w sel) in Hst.
      destruct (IH _ Hst l1 m l2 E) as (q & Hq & Hrest). exists q. by rewrite <- app_assoc in Hq.
Qed.

Lemma fits_in_trans a b c : fits_in a b → fits_in b c → fits_in a c.
Proof. unfold fits_in. lia. Qed.

(** ** States only grow *)

Definition below (p p' : planning) : Prop :=
  (∀ w, fits_in (get_amount w (pl_usage p)) (get_amount w (pl_usage p'))) ∧
  (∀ k, fits_in (get_amount k (pl_shares p)) (get_amount k (pl_shares p'))) ∧
  (∀ w, get_set w (pl_devices p) ⊆ get_set w (pl_devices p')) ∧
  pl_unknown p = pl_unknown p'.

Lemma below_reserve p r need w sel :
  fits_in zero need → below p (reserve workers policies p r need w sel).
Proof.
  intros Hn. destruct (reserve_basics p r need w sel) as (E1 & E2 & E3 & E4). unfold below.
  rewrite E1, E2, E4. split_and!; [| | |done].
  - intros w'. rewrite get_add_to. unfold fits_in, add_amount, zero in *.
    destruct (bool_decide _); simpl in *; lia.
  - intros k. rewrite get_add_to. unfold fits_in, add_amount, zero in *.
    destruct (bool_decide _); simpl in *; lia.
  - intros w' u Hu. apply E3. by left.
Qed.

Lemma below_trans p q r : below p q → below q r → below p r.
Proof.
  intros (H1 & H2 & H3 & H4) (G1 & G2 & G3 & G4). split_and!; try congruence.
  - intros w. eapply fits_in_trans; eauto.
  - intros w. eapply fits_in_trans; eauto.
  - intros w. etrans; eauto.
Qed.

Lemma run_below p pending placed waiting p' : run p pending placed waiting p' → below p p'.
Proof.
  induction 1 as [p| |p pending r rest need w sel placed waiting p' _ Hn _ _ IH]; [|done|].
  - unfold below, fits_in. split_and!; try done; intros; lia.
  - eapply below_trans; [|exact IH]. apply below_reserve. by eapply requirements_nonneg.
Qed.

Lemma assess_mono p p' r need w sel :
  below p p' → assess policies p' r need w = Candidate sel → ∃ sel', assess policies p r need w = Candidate sel'.
Proof.
  intros (H1 & _ & H3 & H4) H. unfold assess in *. cbv zeta in *.
  destruct (match text (rq_only_worker r) with Some o => _ | None => false end); [done|].
  destruct (existsb _ _); [done|]. destruct (negb (bool_decide (f_runtime _ ∈ _))); [done|].
  destruct (kvm_required _ && _); [done|].
  assert (Hfit : ∀ s s', (if exceeds (add_amount (add_amount need (get_amount (wr_id w) (pl_usage p')))
      (wr_external w)) (wr_capacity w) then Reason "worker resources are reserved" else Candidate s)
      = Candidate sel → (if exceeds (add_amount (add_amount need (get_amount (wr_id w) (pl_usage p)))
      (wr_external w)) (wr_capacity w) then Reason "worker resources are reserved" else Candidate s') = Candidate s').
  { intros s s'. destruct (exceeds _ _) eqn:Ex at 1; [done|]. intros _.
    assert (exceeds (add_amount (add_amount need (get_amount (wr_id w) (pl_usage p))) (wr_external w))
      (wr_capacity w) = false) as ->; [|done].
    apply exceeds_false. apply exceeds_false in Ex. specialize (H1 (wr_id w)).
    unfold fits_in, add_amount in *. simpl in *. lia. }
  destruct (a_gpu need =? 0); [exists NoGpu; by eapply Hfit|].
  rewrite H4. destruct (_ || _); [done|].
  destruct (match_gpus _ _ (get_set (wr_id w) (pl_devices p) ∪ _)) as [m|] eqn:Em.
  - destruct (match_gpus _ _ (get_set (wr_id w) (pl_devices p') ∪ _)) as [m'|]; [|done].
    destruct (spec_services (rq_spec r)); eexists; by eapply Hfit.
  - rewrite (match_gpus_antimono _ _ _ (get_set (wr_id w) (pl_devices p') ∪ list_to_set (wr_external_uuids w))
      (union_mono_r _ _ _ (H3 (wr_id w))) Em) in H. done.
Qed.

Lemma over_quota_mono p p' r need :
  below p p' → over_quota policies p r need = true → over_quota policies p' r need = true.
Proof.
  intros (_ & H2 & _). unfold over_quota. destruct (po_quota _); [|done].
  rewrite !Z.ltb_lt. specialize (H2 (share_key (rq_parent r))). unfold fits_in in H2. lia.
Qed.

Lemma decide_waits p r need why :
  decide_request workers policies p r need = Waits why →
  over_quota policies p r need = true ∨
  ∀ w, w ∈ available workers → ∀ sel, assess policies p r need w ≠ Candidate sel.
Proof.
  unfold decide_request. destruct (over_quota policies p r need); [by left|].
  destruct (min_by cand_lt _) as [c|] eqn:Hc; [done|]. intros _. right.
  apply min_by_none in Hc. intros w Hw sel Ha.
  assert (Hin : candidate_of workers policies p r w sel ∈ candidates workers policies p r need).
  { apply list_elem_of_omap. exists w. by rewrite Ha. }
  rewrite Hc in Hin. by apply not_elem_of_nil in Hin.
Qed.

Lemma run_waiting p pending placed waiting p' :
  run p pending placed waiting p' → ∀ r why, (r, why) ∈ waiting →
  ∃ need, requirements (rq_spec r) = Ok need ∧
    (over_quota policies p' r need = true ∨
     ∀ w, w ∈ available workers → ∀ sel, assess policies p' r need w ≠ Candidate sel).
Proof.
  induction 1 as [p|p pending r rest need why placed waiting p' _ Hn Hd Hrun IH|? ? ? ? ? ? ? ? ? ? ? ? ? ? IH];
    intros r' why' Hin; [by apply not_elem_of_nil in Hin| |by eapply IH].
  apply elem_of_cons in Hin as [[= -> ->]|Hin]; [|by eapply IH].
  exists need. split; [done|]. apply run_below in Hrun.
  apply decide_waits in Hd as [Hq|Hno]; [left; by eapply over_quota_mono|right].
  intros w Hw sel Ha. eapply assess_mono in Ha as [sel' Ha]; [|done]. by eapply Hno.
Qed.

(** * The properties of planning *)

(** What every theorem says of the placements: they are those reported, of
    requests that were pending, with the needs of their definitions. *)
Definition reported (requests : list request) (assigned : list (string * string * selection))
    (placed : list placement) : Prop :=
  assigned = map show placed ∧
  ∀ m, m ∈ placed → pm_request m ∈ requests ∧ requirements (rq_spec (pm_request m)) = Ok (pm_need m).

Lemma run_reported p pending placed waiting p' l :
  run p pending placed waiting p' → state_after p l [] → reported pending (map show placed) placed.
Proof.
  intros Hr Hst. split; [done|]. intros m Hm. split.
  - rewrite <- (run_partition _ _ _ _ _ Hr). apply elem_of_app. left. apply list_elem_of_fmap. eauto.
  - apply list_elem_of_split in Hm as (l1 & l2 & ->).
    by destruct (run_placed _ _ _ _ _ _ _ Hr Hst l1 m l2 eq_refl) as (q & _ & ? & _).
Qed.

(** C9: placement never over-commits a worker. When [plan] returns, every worker
    that received a request is ready, not draining and eligible for it (asked-for
    worker, labels, runtime, KVM), and for each of memory, slots and GPUs the
    charged allocations, all new placements and the external use together stay
    within its capacity. *)
Theorem plan_capacity requests allocations assigned waiting :
  NoDup (map wr_id workers) →
  plan workers policies requests allocations = Ok (assigned, waiting) →
  ∃ placed, reported requests assigned placed ∧
    ∀ m, m ∈ placed → ∃ w, w ∈ workers ∧ wr_id w = pm_worker m ∧
      wr_state w = "ready"%string ∧ wr_draining w = false ∧ eligible (pm_request m) w ∧
      fits_in (add_amount (add_amount (total_held on_worker (wr_id w) allocations)
                                      (total_placed pm_worker (wr_id w) placed)) (wr_external w))
              (wr_capacity w).
Proof.
  intros Hnd (p & placed & wait & p' & Hacc & Hr & -> & ->)%plan_run.
  apply state_after_start in Hacc. exists placed. split; [by eapply run_reported|].
  intros m Hm.
  (* the last placement on the same worker decides *)
  destruct (list_find_last (λ m', pm_worker m' = pm_worker m) placed m Hm eq_refl)
    as (l1 & m' & l2 & -> & Hm' & Hl2).
  assert (Hown : ∃ w, w ∈ available workers ∧ wr_id w = pm_worker m ∧ eligible (pm_request m) w).
  { apply list_elem_of_split in Hm as (k1 & k2 & E).
    destruct (run_placed _ _ _ _ _ _ _ Hr Hacc k1 m k2 E) as (q & _ & _ & Hd).
    apply decide_placed in Hd as (_ & w & ? & ? & Ha). apply assess_candidate in Ha as (? & _). by exists w. }
  destruct Hown as (w & Hw & Hid & He). assert (Hav := Hw).
  apply list_elem_of_filter in Hw as [[Hrd Hdr] Hw].
  exists w. split_and!; try done. rewrite Hid.
  destruct (run_placed _ _ _ _ _ _ _ Hr Hacc l1 m' l2 eq_refl) as (q & Hq & Hn & Hd).
  apply decide_placed in Hd as (_ & w' & Hw' & Hid' & Ha).
  apply assess_candidate in Ha as (_ & Hf & _). destruct Hq as (Hu & _).
  assert (w' = w) as ->.
  { apply list_elem_of_filter in Hw' as [_ Hw']. eapply NoDup_map_inj; [exact Hnd|done|done|congruence]. }
  rewrite Hu in Hf. rewrite Hid in Hf. simpl in Hf.
  rewrite (total_placed_app _ _ l1), (total_placed_cons _ _ m'), (total_placed_none _ _ l2) by done.
  rewrite bool_decide_eq_true_2 by done. unfold fits_in, add_amount, zero in *. simpl in *. lia.
Qed.

(** The devices of a placement are devices of its worker, free of what was
    occupied before. *)
Lemma gpus_fit_uuids occupied r w sel u :
  gpus_fit occupied r w sel → u ∈ selected_uuids sel → (u ∉ occupied) ∧ ∃ d, d ∈ wr_gpus w ∧ dev_uuid d = u.
Proof.
  intros (m & [Hs _ _] & Hsel) Hu.
  assert (∃ n, m !! n = Some u) as [n Hn].
  { destruct (spec_services _); subst sel.
    - destruct (m !! "main"%string) as [v|] eqn:E; [|by apply not_elem_of_empty in Hu].
      simpl in Hu. apply elem_of_singleton in Hu as ->. eauto.
    - simpl in Hu. apply elem_of_list_to_set, list_elem_of_fmap in Hu as ([n v] & -> & Hin).
      apply elem_of_map_to_list in Hin. eauto. }
  destruct (Hs n u Hn) as (child & _ & g & d & _ & Hd & <- & _ & Hocc). eauto.
Qed.

(** GPUs are exclusive. A device [plan] selects belongs to the worker, is not
    used outside and is not named by any charged allocation; no worker with a
    charged allocation whose GPU is unknown receives a GPU request; two placements
    on the same worker never share a device; and every GPU request of a placed
    definition has a device of its own that serves it. *)
Theorem plan_exclusive_gpus requests allocations assigned waiting :
  plan workers policies requests allocations = Ok (assigned, waiting) →
  ∃ placed, reported requests assigned placed ∧
    (∀ m, m ∈ placed → a_gpu (pm_need m) ≠ 0 → ∃ w occupied, w ∈ available workers ∧
       wr_id w = pm_worker m ∧ gpus_fit occupied (pm_request m) w (pm_sel m) ∧
       ∀ u, u ∈ selected_uuids (pm_sel m) →
         (∃ d, d ∈ wr_gpus w ∧ dev_uuid d = u) ∧ (u ∉ wr_external_uuids w) ∧
         ∀ a, a ∈ allocations → ¬ names_device (wr_id w) u a ∧ ¬ hides_device (wr_id w) a) ∧
    (∀ l1 m1 l2 m2 l3, placed = l1 ++ m1 :: l2 ++ m2 :: l3 → pm_worker m1 = pm_worker m2 →
       selected_uuids (pm_sel m1) ## selected_uuids (pm_sel m2)).
Proof.
  intros (p & placed & wait & p' & Hacc & Hr & -> & ->)%plan_run.
  apply state_after_start in Hacc. exists placed. split; [by eapply run_reported|]. split.
  - intros m (l1 & l2 & ->)%list_elem_of_split Hg.
    destruct (run_placed _ _ _ _ _ _ _ Hr Hacc l1 m l2 eq_refl) as (q & (_ & _ & Hdev & Hunk) & _ & Hd).
    apply decide_placed in Hd as (_ & w & Hw & Hid & Ha).
    apply assess_candidate in Ha as (_ & _ & Ha). destruct (Z.eqb_spec (a_gpu (pm_need m)) 0); [done|].
    destruct Ha as (Hu & _ & Hfit). eexists w, _. split; [done|]. split; [done|]. split; [exact Hfit|].
    intros u Hsel. apply (gpus_fit_uuids _ _ _ _ _ Hfit) in Hsel as [Hocc Hdv].
    split; [done|]. apply not_elem_of_union in Hocc as [Hocc Hext].
    split; [by rewrite elem_of_list_to_set in Hext|]. intros a Hin. split; intros Hna.
    + apply Hocc, Hdev. left. eauto.
    + apply Hu, Hunk. eauto.
  - intros l1 m1 l2 m2 l3 -> Hw u Hu1 Hu2.
    assert (E : l1 ++ m1 :: l2 ++ m2 :: l3 = (l1 ++ m1 :: l2) ++ m2 :: l3) by by rewrite <- app_assoc.
    destruct (run_placed _ _ _ _ _ _ _ Hr Hacc _ m2 l3 E) as (q & (_ & _ & Hdev & _) & _ & Hd).
    apply decide_placed in Hd as (_ & w & _ & Hid & Ha).
    apply assess_candidate in Ha as (_ & _ & Ha). destruct (a_gpu (pm_need m2) =? 0).
    { rewrite Ha in Hu2. by apply not_elem_of_empty in Hu2. }
    destruct Ha as (_ & _ & Hfit). destruct (gpus_fit_uuids _ _ _ _ _ Hfit Hu2) as [Hocc _].
    apply Hocc, elem_of_union. left. apply Hdev. right. exists m1. split; [|split; [congruence|done]].
    rewrite app_nil_l. apply elem_of_app. right. by left.
Qed.

(** quotas hold. If [plan] places a request of a pool with a quota, the slots
    charged to the pool together with those of all its new placements stay within
    the quota. *)
Theorem plan_quota requests allocations assigned waiting pool limit :
  pool ≠ ""%string → pool ≠ "default"%string →
  po_quota (policy_of policies (Some pool)) = Some limit →
  plan workers policies requests allocations = Ok (assigned, waiting) →
  ∃ placed, reported requests assigned placed ∧
    ((∃ m, m ∈ placed ∧ rq_parent (pm_request m) = Some pool) →
     a_slots (total_held of_share pool allocations) + a_slots (total_placed pm_share pool placed) ≤ limit).
Proof.
  intros Hne Hnd Hq (p & placed & wait & p' & Hacc & Hr & -> & ->)%plan_run.
  apply state_after_start in Hacc. exists placed. split; [by eapply run_reported|].
  intros (m0 & Hm0 & Hp0).
  assert (Hkey : ∀ m, pm_share m = pool ↔ rq_parent (pm_request m) = Some pool).
  { intros m. unfold pm_share, share_key, text. destruct (rq_parent (pm_request m)) as [q|]; simpl.
    - case_bool_decide; simpl; [|naive_solver]. subst. split; [done|]. intros [= ?]. done.
    - split; [|done]. intros ?. done. }
  destruct (list_find_last (λ m, pm_share m = pool) placed m0 Hm0 (proj2 (Hkey m0) Hp0))
    as (l1 & m & l2 & -> & Hm & Hl2).
  destruct (run_placed _ _ _ _ _ _ _ Hr Hacc l1 m l2 eq_refl) as (q & (_ & Hs & _) & _ & Hd).
  apply decide_placed in Hd as (Hov & _). unfold over_quota in Hov.
  rewrite (proj1 (Hkey m) Hm), Hq, Hs in Hov. bool_prop.
  rewrite total_placed_app, total_placed_cons, (total_placed_none _ _ l2) by done.
  rewrite bool_decide_eq_true_2 by done. unfold share_key, text in Hov.
  rewrite bool_decide_eq_false_2 in Hov by done. simpl in *. lia.
Qed.

(** Planning is maximal. When [plan] returns, no waiting request could still
    be placed: in the final state, which accounts for the charged allocations and
    all placements, it is over its pool's quota or no available worker can take
    it, GPU rearrangement included. *)
Theorem plan_maximal requests allocations assigned waiting :
  plan workers policies requests allocations = Ok (assigned, waiting) →
  ∃ placed wait final, reported requests assigned placed ∧
    waiting = map (λ w, (rq_id w.1, w.2)) wait ∧
    map pm_request placed ++ map fst wait ≡ₚ requests ∧
    state_after final allocations placed ∧
    ∀ r why, (r, why) ∈ wait → ∃ need, requirements (rq_spec r) = Ok need ∧
      (over_quota policies final r need = true ∨
       ∀ w, w ∈ available workers → ∀ sel, assess policies final r need w ≠ Candidate sel).
Proof.
  intros (p & placed & wait & p' & Hacc & Hr & -> & ->)%plan_run.
  apply state_after_start in Hacc. exists placed, wait, p'. split; [by eapply run_reported|].
  split; [done|]. split; [by eapply run_partition|].
  split; [by apply (run_state _ _ _ _ _ _ [] Hr)|]. by eapply run_waiting.
Qed.

(** Planning never gets stuck on definitions that have requirements. *)
Lemma plan_loop_total turns p pending acc :
  (∀ r, r ∈ pending → is_ok (requirements (rq_spec r)) = true) →
  is_ok (plan_loop workers policies turns p pending acc) = true.
Proof.
  revert p pending acc. induction turns as [|turns IH]; intros p pending acc Hok; simpl; [done|].
  destruct (sort_by (rank_lt workers policies p) pending) as [|r rest] eqn:Hs; [done|].
  assert (Hr : ∀ x, x ∈ r :: rest → is_ok (requirements (rq_spec x)) = true).
  { intros x Hx. apply Hok. by rewrite (sort_by_cons_perm _ _ _ _ Hs). }
  pose proof (Hr r ltac:(by left)) as Hneed.
  destruct (requirements (rq_spec r)) as [need|]; [|done]. simpl.
  destruct (decide_request _ _ _ _ _); apply IH; intros x Hx; apply Hr; by right.
Qed.

Lemma initial_total allocations :
  (∀ a, a ∈ allocations → charged a = true → is_ok (requirements (ar_spec a)) = true) →
  is_ok (initial workers policies allocations) = true.
Proof.
  intros Hok. unfold initial.
  assert (H : ∀ l st, (∀ a, a ∈ l → charged a = true → is_ok (requirements (ar_spec a)) = true) →
    is_ok (res_fold (initial_step workers policies) st l) = true).
  { clear. intros l. induction l as [|a l IH]; intros [p s] Hok; simpl; [done|].
    assert (Ha := Hok a ltac:(by left)).
    destruct (text (ar_worker a)) as [w|]; [|apply IH; set_solver].
    destruct (charged a); [|apply IH; set_solver]. specialize (Ha eq_refl). unfold charge.
    destruct (requirements (ar_spec a)) as [need|]; [|done]. simpl.
    destruct (a_gpu need =? 0); [simpl; apply IH; set_solver|].
    destruct (occupy _ _ _ _). simpl. apply IH. set_solver. }
  specialize (H allocations (Planning ∅ ∅ ∅ ∅ ∅, ∅) Hok).
  destruct (res_fold _ _ _) as [[q s]|]; done.
Qed.

(** planning decides every request exactly once. If the definitions involved
    have a reservation, [plan] returns, and the identities it placed together with
    those it left waiting are a permutation of the pending ones. *)
Theorem plan_decides_all requests allocations :
  (∀ r, r ∈ requests → is_ok (requirements (rq_spec r)) = true) →
  (∀ a, a ∈ allocations → charged a = true → is_ok (requirements (ar_spec a)) = true) →
  ∃ assigned waiting, plan workers policies requests allocations = Ok (assigned, waiting) ∧
    map (λ a, a.1.1) assigned ++ map fst waiting ≡ₚ map rq_id requests.
Proof.
  intros Hreq Hall. apply initial_total in Hall. unfold plan.
  destruct (initial workers policies allocations) as [p|] eqn:E1; [|done].
  pose proof (plan_loop_total (length requests) p requests ([], []) Hreq) as Ht. simpl.
  destruct (plan_loop workers policies (length requests) p requests ([], [])) as [[assigned waiting]|] eqn:E2; [|done].
  exists assigned, waiting. split; [done|].
  apply plan_loop_run in E2 as (placed & wait & p' & Hr & [= -> ->]); [|done].
  rewrite <- (run_partition _ _ _ _ _ Hr), map_app, !map_map. done.
Qed.

End facts.

(** * Witnesses *)

Definition ex_need_memory : memory := Memory (VStr "1GiB") (VStr "256MiB") None None None false None.
Definition ex_fields (g : option gpu) : fields :=
  Fields "gvisor" ex_need_memory g None None VNone None false (VInt 300) None
    false false false false false false (Network "internet" None None) None false false false None None.
Definition ex_any : gpu := Gpu AnyModel None None false.
Definition ex_a100 : gpu := Gpu (OneModel "a100") None None false.
(** A group: the definition takes any GPU, its service needs an A100. *)
Definition ex_group : spec :=
  Spec (ex_fields (Some ex_any)) [("train", ("svc-1", None, Spec (ex_fields (Some ex_a100)) []))]%string.
Definition ex_wrec : wrec :=
  WRec "w1" "ready" false (Amount (2 * 4 * 1024 ^ 3) 4 2) ∅ None false None None zero []
    [Device "u1" "NVIDIA A100"; Device "u2" "NVIDIA T4"]%string.
Definition ex_requests : list request :=
  [Request "r1" (Some "pool-1"%string) 5 ex_group None; Request "r2" (Some "pool-1"%string) 6 ex_group None].
Definition ex_policies : gmap string policy :=
  {["pool-1"%string := Policy 0 1 (Some 3) [] "" "spread"]}.
Definition ex_selection : selection :=
  GroupGpus (<["main"%string := "u2"%string]> {["train"%string := "u1"%string]}).

Lemma ex_plan :
  plan [ex_wrec] ex_policies ex_requests [] =
    Ok ([("r1", "w1", ex_selection)], [("r2", "pool quota is fully reserved")])%string.
Proof. vm_compute. reflexivity. Qed.

Lemma plan_capacity_witness :
  ∃ placed, reported ex_requests [("r1", "w1", ex_selection)]%string placed ∧
    ∀ m, m ∈ placed → ∃ w, w ∈ [ex_wrec] ∧ wr_id w = pm_worker m ∧
      wr_state w = "ready"%string ∧ wr_draining w = false ∧ eligible ex_policies (pm_request m) w ∧
      fits_in (add_amount (add_amount (total_held on_worker (wr_id w) [])
                                      (total_placed pm_worker (wr_id w) placed)) (wr_external w))
              (wr_capacity w).
Proof.
  apply (plan_capacity [ex_wrec] ex_policies ex_requests [] _ [("r2", "pool quota is fully reserved")]%string).
  - repeat constructor. set_solver.
  - exact ex_plan.
Defined.

Lemma plan_exclusive_gpus_witness :
  ∃ placed, reported ex_requests [("r1", "w1", ex_selection)]%string placed.
Proof.
  destruct (plan_exclusive_gpus [ex_wrec] ex_policies ex_requests [] _ _ ex_plan) as (placed & H & _).
  exists placed. exact H.
Defined.

Lemma plan_quota_witness :
  ∃ placed, reported ex_requests [("r1", "w1", ex_selection)]%string placed.
Proof.
  destruct (plan_quota [ex_wrec] ex_policies ex_requests [] [("r1", "w1", ex_selection)]%string
    [("r2", "pool quota is fully reserved")]%string "pool-1" 3) as (placed & H & _).
  - discriminate.
  - discriminate.
  - reflexivity.
  - exact ex_plan.
  - exists placed. exact H.
Defined.

Lemma plan_maximal_witness :
  ∃ placed, reported ex_requests [("r1", "w1", ex_selection)]%string placed.
Proof.
  destruct (plan_maximal [ex_wrec] ex_policies ex_requests [] _ _ ex_plan) as (placed & _ & _ & H & _).
  exists placed. exact H.
Defined.

Lemma plan_decides_all_witness :
  ∃ assigned waiting, plan [ex_wrec] ex_policies ex_requests [] = Ok (assigned, waiting) ∧
    map (λ a, a.1.1) assigned ++ map fst waiting ≡ₚ map rq_id ex_requests.
Proof.
  apply plan_decides_all.
  - intros r Hr. unfold ex_requests in Hr.
    apply elem_of_cons in Hr as [->|Hr]; [vm_compute; reflexivity|].
    apply elem_of_cons in Hr as [->|Hr]; [vm_compute; reflexivity|]. by apply not_elem_of_nil in Hr.
  - intros a Ha. by apply not_elem_of_nil in Ha.
Defined.
