(* ===== verification/Values.v ===== *)
(** Values of records and messages ([sandbox/wire.py], [weave/state.py]): JSON-like
    trees with bytes, their copies and projections. Numbers are integers (times in
    microseconds). *)

From S2P Require Import Prelude OrderedDict.

(** A value a record holds. [Bytes true] is a [bytearray] or [memoryview],
    [Items true] a tuple; dictionaries have text keys. *)
Inductive value :=
  | Null
  | Bool (b : bool)
  | Num (n : Z)
  | Text (s : string)
  | Bytes (mutable : bool) (b : bytes)
  | Items (tuple : bool) (l : list value)
  | Dict (d : list (string * value)).

Section value_ind.
  Context (P : value → Prop).
  Context (HNull : P Null) (HBool : ∀ b, P (Bool b)) (HNum : ∀ n, P (Num n)) (HText : ∀ s, P (Text s)).
  Context (HBytes : ∀ m b, P (Bytes m b)).
  Context (HItems : ∀ t l, Forall P l → P (Items t l)).
  Context (HDict : ∀ d, Forall (λ p, P p.2) d → P (Dict d)).

Fixpoint value_induction (v : value) : P v :=
    match v with
    | Null => HNull
    | Bool b => HBool b
    | Num n => HNum n
    | Text s => HText s
    | Bytes m b => HBytes m b
    | Items t l =>
        HItems t l ((fix go (l : list value) : Forall P l :=
          match l with
          | [] => Forall_nil_2 _
          | v :: l => Forall_cons_2 _ _ _ (value_induction v) (go l)
          end) l)
    | Dict d =>
        HDict d ((fix go (d : list (string * value)) : Forall (λ p, P p.2) d :=
          match d with
          | [] => Forall_nil_2 _
          | p :: d => Forall_cons_2 (λ p, P p.2) p d (value_induction p.2) (go d)
          end) d)
    end.
End value_ind.

Fixpoint value_eqb (v w : value) {struct v} : bool :=
  match v, w with
  | Null, Null => true
  | Bool a, Bool b => Bool.eqb a b
  | Num a, Num b => (a =? b)%Z
  | Text a, Text b => bool_decide (a = b)
  | Bytes m a, Bytes m' b => Bool.eqb m m' && bool_decide (a = b)
  | Items t a, Items t' b =>
      Bool.eqb t t' &&
      (fix go (a b : list value) :=
         match a, b with
         | [], [] => true
         | x :: a, y :: b => value_eqb x y && go a b
         | _, _ => false
         end) a b
  | Dict a, Dict b =>
      (fix go (a b : list (string * value)) :=
         match a, b with
         | [], [] => true
         | (k, x) :: a, (k', y) :: b => bool_decide (k = k') && (value_eqb x y && go a b)
         | _, _ => false
         end) a b
  | _, _ => false
  end.

Lemma value_eqb_eq v w : value_eqb v w = true ↔ v = w.
Proof.
  revert w. induction v as [|b|n|s|m b|t l IH|d IH] using value_induction; intros w;
    destruct w as [|b'|n'|s'|m' b'|t' l'|d']; simpl; try done.
  - rewrite Bool.eqb_true_iff. naive_solver.
  - rewrite Z.eqb_eq. naive_solver.
  - rewrite bool_decide_eq_true. naive_solver.
  - rewrite andb_true_iff, Bool.eqb_true_iff, bool_decide_eq_true. naive_solver.
  - rewrite andb_true_iff, Bool.eqb_true_iff.
    enough (H : ∀ l', (fix go (a b : list value) :=
       match a, b with [], [] => true | x :: a, y :: b => value_eqb x y && go a b | _, _ => false end) l l' = true ↔ l = l').
    { rewrite H. naive_solver. }
    clear l'. induction IH as [|v l Hv _ IHl]; intros [|v' l']; try done.
    rewrite andb_true_iff, Hv, IHl. naive_solver.
  - enough (H : ∀ d', (fix go (a b : list (string * value)) :=
       match a, b with
       | [], [] => true
       | (k, x) :: a, (k', y) :: b => bool_decide (k = k') && (value_eqb x y && go a b)
       | _, _ => false end) d d' = true ↔ d = d').
    { rewrite H. naive_solver. }
    clear d'. induction IH as [|[k v] d Hv _ IHd]; intros [|[k' v'] d']; try done.
    simpl in Hv. rewrite !andb_true_iff, bool_decide_eq_true, Hv, IHd. naive_solver.
Qed.

#[export] Instance value_eq_dec : EqDecision value.
Proof.
  refine (λ v w, match value_eqb v w as b return value_eqb v w = b → Decision (v = w) with
                 | true => λ H, left (proj1 (value_eqb_eq v w) H)
                 | false => λ H, right _
                 end eq_refl).
  intros E. apply value_eqb_eq in E. congruence.
Defined.

(** Python truth *)
Definition truth (v : value) : bool :=
  match v with
  | Null => false
  | Bool b => b
  | Num n => negb (n =? 0)%Z
  | Text s => negb (bool_decide (s = ""%string))
  | Bytes _ b => negb (bool_decide (b = []))
  | Items _ l => negb (bool_decide (l = []))
  | Dict d => negb (bool_decide (d = []))
  end.

(** [clone]: plain copies; metadata leaves bytes out. *)
Fixpoint clone (metadata : bool) (v : value) : value :=
  match v with
  | Bytes true b => if metadata then Null else Bytes false b
  | Bytes false b => if metadata then Null else v
  | Items _ l => Items false (map (clone metadata) l)
  | Dict d => Dict (map (λ p, (p.1, clone metadata p.2)) d)
  | _ => v
  end.

(** [project]: dotted paths into a record. *)
Definition component (v : value) (name : string) : value :=
  match v with Dict d => default Null (od_get name d) | _ => Null end.
Definition path_value (v : value) (path : string) : value :=
  foldl component v (str_split "."%char path).
Definition project (v : value) (fields : option (list string)) : value :=
  match fields with
  | None => v
  | Some fields => Dict (foldl (λ d key, od_set key (path_value v key) d) [] fields)
  end.

Lemma Forall_map_ext {A B} (f g : A → B) l : Forall (λ x, f x = g x) l → map f l = map g l.
Proof. induction 1 as [|x l Hx _ IH]; simpl; congruence. Qed.

Lemma clone_idemp m v : clone m (clone m v) = clone m v.
Proof.
  induction v as [|b|n|s|mu b|t l IH|d IH] using value_induction; simpl; try done.
  - by destruct mu, m.
  - f_equal. rewrite map_map. by apply Forall_map_ext.
  - f_equal. rewrite map_map. simpl. apply Forall_map_ext.
    eapply Forall_impl; [exact IH|]. intros [k v] Hv. simpl in *. by rewrite Hv.
Qed.
