(* ===== verification/Json.v ===== *)
(** The part of Python's [json] that frames and journals use: [dumps] with
    separators [(',', ':')] and [loads], on the values of [Values]. Texts hold
    characters below 256 and numbers are integers: a message with other
    characters, with a fraction or with an exponent is outside the model and
    refused. *)

From S2P Require Import Prelude OrderedDict Values.
From Stdlib Require Import DecimalN DecimalZ DecimalPos.

#[local] Open Scope Z_scope.

(** * Printing *)

Fixpoint uint_chars (d : Decimal.uint) : list ascii :=
  match d with
  | Decimal.Nil => []
  | Decimal.D0 d => "0"%char :: uint_chars d
  | Decimal.D1 d => "1"%char :: uint_chars d
  | Decimal.D2 d => "2"%char :: uint_chars d
  | Decimal.D3 d => "3"%char :: uint_chars d
  | Decimal.D4 d => "4"%char :: uint_chars d
  | Decimal.D5 d => "5"%char :: uint_chars d
  | Decimal.D6 d => "6"%char :: uint_chars d
  | Decimal.D7 d => "7"%char :: uint_chars d
  | Decimal.D8 d => "8"%char :: uint_chars d
  | Decimal.D9 d => "9"%char :: uint_chars d
  end.

(** [int.__repr__] *)
Definition int_chars (n : Z) : list ascii :=
  match Z.to_int n with
  | Decimal.Pos d => uint_chars d
  | Decimal.Neg d => "-"%char :: uint_chars d
  end.

Definition quote_char : ascii := "034"%char.
Definition escape_char : ascii := "092"%char.

Definition hex_char (n : Z) : ascii :=
  ascii_of_N (Z.to_N (if n <? 10 then 48 + n else 87 + n)).

(** [ESCAPE_DCT]: the character that follows a backslash. *)
Definition short_escapes : list (ascii * ascii) :=
  [(escape_char, escape_char); (quote_char, quote_char); ("008", "b"); ("012", "f");
   ("010", "n"); ("013", "r"); ("009", "t")]%char.

Definition escape (c : ascii) : list ascii :=
  match od_get c short_escapes with
  | Some e => [escape_char; e]
  | None =>
      if (32 <=? code c) && (code c <=? 126) then [c]
      else [escape_char; "u"; "0"; "0"; hex_char (code c / 16); hex_char (code c mod 16)]%char
  end.

Definition quoted (s : string) : list ascii :=
  quote_char :: flat_map escape (chars s) ++ [quote_char].

Fixpoint comma_join (l : list (list ascii)) : list ascii :=
  match l with
  | [] => []
  | [x] => x
  | x :: l => x ++ ","%char :: comma_join l
  end.

Fixpoint dumps (v : value) : list ascii :=
  match v with
  | Null | Bytes _ _ => chars "null"
  | Bool true => chars "true"
  | Bool false => chars "false"
  | Num n => int_chars n
  | Text s => quoted s
  | Items _ l => ["["%char] ++ comma_join (map dumps l) ++ ["]"%char]
  | Dict d => ["{"%char] ++ comma_join (map (λ p, quoted p.1 ++ ":"%char :: dumps p.2) d) ++ ["}"%char]
  end.

(** [json] has no representation of bytes. *)
Fixpoint jsonable (v : value) : bool :=
  match v with
  | Bytes _ _ => false
  | Items _ l => forallb jsonable l
  | Dict d => forallb (λ p, jsonable p.2) d
  | _ => true
  end.

Definition json_dumps (v : value) : res (list ascii) :=
  if jsonable v then Ok (dumps v) else raise TypeError "Object of type bytes is not JSON serializable".

(** * Parsing *)

Fixpoint span {A} (p : A → bool) (l : list A) : list A * list A :=
  match l with
  | [] => ([], [])
  | x :: l' => if p x then let r := span p l' in (x :: r.1, r.2) else ([], l)
  end.

Definition is_blank (c : ascii) : bool := bool_decide (c ∈ [" "; "009"; "010"; "013"]%char).
Definition skip : list ascii → list ascii := drop_while is_blank.

Definition digit_uint (c : ascii) : Decimal.uint → Decimal.uint :=
  if decide (c = "0"%char) then Decimal.D0
  else if decide (c = "1"%char) then Decimal.D1
  else if decide (c = "2"%char) then Decimal.D2
  else if decide (c = "3"%char) then Decimal.D3
  else if decide (c = "4"%char) then Decimal.D4
  else if decide (c = "5"%char) then Decimal.D5
  else if decide (c = "6"%char) then Decimal.D6
  else if decide (c = "7"%char) then Decimal.D7
  else if decide (c = "8"%char) then Decimal.D8
  else Decimal.D9.
Definition chars_uint (l : list ascii) : Decimal.uint := foldr digit_uint Decimal.Nil l.

(** [0|[1-9][0-9]*], not followed by a fraction or an exponent *)
Definition scan_digits (l : list ascii) : option (Decimal.uint * list ascii) :=
  r ← match l with
      | [] => None
      | c :: l' =>
          if decide (c = "0"%char) then Some ([c], l')
          else if is_digit c then Some (span is_digit l)
          else None
      end;
  match r.2 with
  | c :: _ => if bool_decide (c ∈ ["."; "e"; "E"]%char) then None else Some (chars_uint r.1, r.2)
  | [] => Some (chars_uint r.1, [])
  end.

Definition scan_number (l : list ascii) : option (value * list ascii) :=
  match l with
  | c :: l' =>
      if decide (c = "-"%char) then
        r ← scan_digits l'; Some (Num (Z.of_int (Decimal.Neg r.1)), r.2)
      else r ← scan_digits l; Some (Num (Z.of_int (Decimal.Pos r.1)), r.2)
  | [] => None
  end.

Definition hex_value (c : ascii) : option Z :=
  let n := code c in
  if is_digit c then Some (n - 48)
  else if (97 <=? n) && (n <=? 102) then Some (n - 87)
  else if (65 <=? n) && (n <=? 70) then Some (n - 55)
  else None.

Definition hex4 (a b c d : ascii) : option Z :=
  w ← hex_value a; x ← hex_value b; y ← hex_value c; z ← hex_value d;
  Some (((w * 16 + x) * 16 + y) * 16 + z).

(** [BACKSLASH] *)
Definition unescapes : list (ascii * ascii) :=
  ("/", "/")%char :: map (λ p, (p.2, p.1)) short_escapes.

Fixpoint scan_string (l : list ascii) : option (list ascii * list ascii) :=
  match l with
  | [] => None
  | c :: l =>
      if decide (c = quote_char) then Some ([], l)
      else if decide (c = escape_char) then
        match l with
        | [] => None
        | e :: l =>
            if decide (e = "u"%char) then
              match l with
              | x :: y :: z :: t :: l =>
                  n ← hex4 x y z t;
                  if n <? 256 then
                    r ← scan_string l; Some (ascii_of_N (Z.to_N n) :: r.1, r.2)
                  else None
              | _ => None
              end
            else x ← od_get e unescapes; r ← scan_string l; Some (x :: r.1, r.2)
        end
      else if code c <? 32 then None
      else r ← scan_string l; Some (c :: r.1, r.2)
  end.

(** [dict(pairs)] *)
Definition od_of {K V} `{EqDecision K} (ps : list (K * V)) : list (K * V) :=
  foldl (λ d p, od_set p.1 p.2 d) [] ps.

Fixpoint strip_prefix (p l : list ascii) : option (list ascii) :=
  match p, l with
  | [], _ => Some l
  | x :: p, y :: l => if decide (x = y) then strip_prefix p l else None
  | _ :: _, [] => None
  end.

(** The scanner. The fuel bounds the calls in progress; see [scan_fuel]. *)
Fixpoint scan (fuel : nat) (l : list ascii) : option (value * list ascii) :=
  match fuel with
  | O => None
  | S fuel =>
      match l with
      | [] => None
      | c :: r =>
          if decide (c = quote_char) then
            s ← scan_string r; Some (Text (of_chars s.1), s.2)
          else if decide (c = "["%char) then
            match skip r with
            | [] => None
            | c :: r' =>
                if decide (c = "]"%char) then Some (Items false [], r')
                else s ← scan_items fuel (c :: r'); Some (Items false s.1, s.2)
            end
          else if decide (c = "{"%char) then
            match skip r with
            | [] => None
            | c :: r' =>
                if decide (c = "}"%char) then Some (Dict [], r')
                else s ← scan_members fuel (c :: r'); Some (Dict (od_of s.1), s.2)
            end
          else if decide (c = "n"%char) then r ← strip_prefix (chars "null") l; Some (Null, r)
          else if decide (c = "t"%char) then r ← strip_prefix (chars "true") l; Some (Bool true, r)
          else if decide (c = "f"%char) then r ← strip_prefix (chars "false") l; Some (Bool false, r)
          else scan_number l
      end
  end
with scan_items (fuel : nat) (l : list ascii) : option (list value * list ascii) :=
  match fuel with
  | O => None
  | S fuel =>
      v ← scan fuel l;
      match skip v.2 with
      | [] => None
      | c :: r =>
          if decide (c = "]"%char) then Some ([v.1], r)
          else if decide (c = ","%char) then
            s ← scan_items fuel (skip r); Some (v.1 :: s.1, s.2)
          else None
      end
  end
with scan_members (fuel : nat) (l : list ascii) : option (list (string * value) * list ascii) :=
  match fuel with
  | O => None
  | S fuel =>
      match l with
      | c :: r =>
          if decide (c = quote_char) then
            k ← scan_string r;
            match skip k.2 with
            | c :: r =>
                if decide (c = ":"%char) then
                  v ← scan fuel (skip r);
                  match skip v.2 with
                  | c :: r =>
                      if decide (c = "}"%char) then Some ([(of_chars k.1, v.1)], r)
                      else if decide (c = ","%char) then
                        s ← scan_members fuel (skip r); Some ((of_chars k.1, v.1) :: s.1, s.2)
                      else None
                  | [] => None
                  end
                else None
            | [] => None
            end
          else None
      | [] => None
      end
  end.

Definition json_fuel (l : list ascii) : nat := (2 * length l + 1)%nat.

Definition json_loads (data : bytes) : res value :=
  if negb (forallb (λ b, b <? 128) data) then raise UnicodeError "invalid utf-8"
  else
    let l := skip (map (λ b, ascii_of_N (Z.to_N b)) data) in
    match scan (json_fuel l) l with
    | Some (v, r) => if bool_decide (skip r = []) then Ok v else raise ValueError "invalid JSON"
    | None => raise ValueError "invalid JSON"
    end.

(** A text with single quotes for double ones *)
Definition json_text (s : string) : string :=
  of_chars (map (λ c, if decide (c = "'"%char) then quote_char else c) (chars s)).

Example json_loads_document :
  json_loads (bytes_of_string (json_text "{ 'a' : [1, -20,true,null ], 'b':{}, 'a':'x\u0041\n' } "))
  = Ok (Dict [("a", Text ("xA" ++ String "010" "")); ("b", Dict [])])%string.
Proof. vm_compute. reflexivity. Qed.

(** * Reading back what was printed *)

(** What can follow a value inside a document *)
Definition delimited (r : list ascii) : Prop :=
  match r with [] => True | c :: _ => c ∈ [","; "]"; "}"]%char end.

(** The values [loads] can return *)
Fixpoint json_form (v : value) : bool :=
  match v with
  | Bytes _ _ => false
  | Items t l => negb t && forallb json_form l
  | Dict d => bool_decide (od_wf d) && forallb (λ p, json_form p.2) d
  | _ => true
  end.

Lemma json_form_jsonable v : json_form v = true → jsonable v = true.
Proof.
  induction v as [|b|n|s|m b|t l IH|d IH] using value_induction; simpl; try done.
  - intros [_ Hl]%andb_true_iff. rewrite forallb_forall in Hl |- *. rewrite Forall_forall in IH.
    intros x Hx%list_elem_of_In. apply IH; [done|]. by apply Hl, list_elem_of_In.
  - intros [_ Hl]%andb_true_iff. rewrite forallb_forall in Hl |- *. rewrite Forall_forall in IH.
    intros x Hx%list_elem_of_In. apply IH; [done|]. by apply Hl, list_elem_of_In.
Qed.

Lemma foldl_od_set {K V} `{EqDecision K} (ps d : list (K * V)) :
  od_wf (d ++ ps) → foldl (λ d p, od_set p.1 p.2 d) d ps = d ++ ps.
Proof.
  revert d. induction ps as [|[k v] ps IH]; intros d Hwf; simpl; [by rewrite app_nil_r|].
  assert (Hk : od_set k v d = d ++ [(k, v)]).
  { unfold od_wf, keys in Hwf. rewrite fmap_app in Hwf. simpl in Hwf.
    apply NoDup_app in Hwf as (_ & Hd & _).
    clear IH. induction d as [|[k' v'] d IH]; simpl; [done|].
    rewrite decide_False; [|intros ->; apply (Hd k'); simpl; by left].
    rewrite IH; [done|]. intros x Hx. apply Hd. simpl. by right. }
  rewrite Hk, IH; rewrite <- app_assoc; [done|]. exact Hwf.
Qed.

Lemma od_of_wf {K V} `{EqDecision K} (ps : list (K * V)) : od_wf ps → od_of ps = ps.
Proof. apply (foldl_od_set ps []). Qed.

Lemma scan_string_cons c l :
  scan_string (escape c ++ l) = (r ← scan_string l; Some (c :: r.1, r.2)).
Proof. destruct c as [[] [] [] [] [] [] [] []]; reflexivity. Qed.

Lemma scan_string_escape s r : scan_string (flat_map escape s ++ quote_char :: r) = Some (s, r).
Proof.
  induction s as [|c s IH]; simpl; [done|].
  by rewrite <- app_assoc, scan_string_cons, IH.
Qed.

Lemma is_digit_uint d : Forall (λ c, is_digit c = true) (uint_chars d).
Proof. induction d; simpl; constructor; done. Qed.

Lemma chars_uint_chars d : chars_uint (uint_chars d) = d.
Proof. induction d; simpl; f_equal; done. Qed.

Lemma span_all {A} (p : A → bool) l r :
  Forall (λ c, p c = true) l → match r with [] => True | c :: _ => p c = false end →
  span p (l ++ r) = (l, r).
Proof.
  intros Hl Hr. induction Hl as [|c l Hc _ IH]; simpl.
  - destruct r; simpl; [done|]. by rewrite Hr.
  - by rewrite Hc, IH.
Qed.

(** The digits of a number have no leading zero. *)
Lemma uint_no_zero n : match N.to_uint n with
  | Decimal.Nil => False
  | Decimal.D0 d => d = Decimal.Nil
  | _ => True
  end.
Proof.
  pose proof (DecimalN.Unsigned.to_of (N.to_uint n)) as E. rewrite DecimalN.Unsigned.of_to in E.
  destruct (N.to_uint n) as [|d|d|d|d|d|d|d|d|d|d]; try done.
  unfold Decimal.unorm in E. simpl in E.
  assert (Hnz : ∀ u v, Decimal.nzhead u ≠ Decimal.D0 v) by (induction u; simpl; congruence).
  destruct (Decimal.nzhead d) eqn:F; try congruence. by apply Hnz in F.
Qed.

Lemma scan_digits_uint n r :
  delimited r → scan_digits (uint_chars (N.to_uint n) ++ r) = Some (N.to_uint n, r).
Proof.
  intros Hr. pose proof (uint_no_zero n) as Hz.
  set (d := N.to_uint n) in *. clearbody d.
  assert (Hd : match r with [] => True | c :: _ => is_digit c = false ∧ bool_decide (c ∈ ["."; "e"; "E"]%char) = false end).
  { destruct r as [|c r]; [done|]. simpl in Hr. rewrite !elem_of_cons, elem_of_nil in Hr.
    naive_solver. }
  assert (Hs : match d with Decimal.D0 _ => True | _ =>
      span is_digit (uint_chars d ++ r) = (uint_chars d, r) end).
  { destruct d; try done; (apply span_all; [apply is_digit_uint|by destruct r as [|? ?]; [|apply Hd]]). }
  unfold scan_digits. destruct d; try done; subst; simpl uint_chars in *; cbn [app] in *.
  1: { simpl. destruct r; [done|]. destruct Hd as [_ ->]. done. }
  all: rewrite decide_False by done;
    match goal with |- context [is_digit ?c] => change (is_digit c) with true end;
    cbv iota; rewrite Hs; simpl; rewrite chars_uint_chars; (destruct r; [done|]); by destruct Hd as [_ ->].
Qed.

Lemma scan_number_int n r : delimited r → scan_number (int_chars n ++ r) = Some (Num n, r).
Proof.
  intros Hr. unfold int_chars.
  assert (Hn : match Z.to_int n with Decimal.Pos d | Decimal.Neg d => ∃ m, d = N.to_uint m end).
  { destruct n as [|p|p]; simpl; [by exists 0%N|by exists (Npos p)..]. }
  pose proof (DecimalZ.of_to n) as E.
  destruct (Z.to_int n) as [d|d], Hn as [m ->]; unfold scan_number.
  - pose proof (scan_digits_uint m r Hr) as Hm. pose proof (uint_no_zero m).
    destruct (N.to_uint m); try done; cbn [uint_chars app] in *;
      rewrite decide_False by done; rewrite Hm; cbn [mbind option_bind fst snd]; by rewrite E.
  - cbn [app]. rewrite decide_True by done. rewrite scan_digits_uint by done.
    cbn [mbind option_bind fst snd]. by rewrite E.
Qed.

Lemma int_chars_head n : ∃ c l, int_chars n = c :: l ∧ (c = "-"%char ∨ is_digit c = true).
Proof.
  unfold int_chars. destruct n as [|p|p]; simpl; [by eexists _, _; eauto| |by eexists _, _; eauto].
  pose proof (is_digit_uint (Pos.to_uint p)) as Hd.
  pose proof (DecimalPos.Unsigned.to_uint_nonnil p) as Hn.
  destruct (uint_chars (Pos.to_uint p)) as [|c l] eqn:E; [by destruct (Pos.to_uint p)|].
  exists c, l. split; [done|]. right. by apply Forall_cons in Hd as [Hc _].
Qed.

Lemma dumps_head v : ∃ c l, dumps v = c :: l ∧ is_blank c = false ∧ c ≠ "]"%char.
Proof.
  destruct v as [|b|n|s|m b|t l|d]; simpl; [| | | | | |].
  3: { destruct (int_chars_head n) as (c & l & -> & Hc). exists c, l. split; [done|].
       destruct Hc as [->|Hc]; [done|]. by destruct c as [[] [] [] [] [] [] [] []]. }
  2: destruct b.
  all: eexists _, _; (split; [reflexivity|]); split; [reflexivity|discriminate].
Qed.

Lemma skip_head c l : is_blank c = false → skip (c :: l) = c :: l.
Proof. unfold skip. simpl. by intros ->. Qed.

Lemma scan_list fuel c r : is_blank c = false → c ≠ "]"%char →
  scan (S fuel) ("["%char :: c :: r) = (s ← scan_items fuel (c :: r); Some (Items false s.1, s.2)).
Proof.
  intros Hb Hc.
  change (scan (S fuel) ("["%char :: c :: r)) with
    (match skip (c :: r) with
     | [] => None
     | c :: r' => if decide (c = "]"%char) then Some (Items false [], r')
                  else s ← scan_items fuel (c :: r'); Some (Items false s.1, s.2)
     end).
  rewrite skip_head by done. by rewrite decide_False.
Qed.

Lemma scan_dict fuel r :
  scan (S fuel) ("{"%char :: quote_char :: r)
  = (s ← scan_members fuel (quote_char :: r); Some (Dict (od_of s.1), s.2)).
Proof. reflexivity. Qed.

Lemma scan_items_last fuel l v r :
  scan fuel l = Some (v, "]"%char :: r) → scan_items (S fuel) l = Some ([v], r).
Proof. simpl. by intros ->. Qed.

Lemma scan_items_more fuel l v c r : is_blank c = false →
  scan fuel l = Some (v, ","%char :: c :: r) →
  scan_items (S fuel) l = (s ← scan_items fuel (c :: r); Some (v :: s.1, s.2)).
Proof. intros Hc E. cbn [scan_items]. rewrite E. cbn [mbind option_bind fst snd].
  rewrite (skip_head ","%char) by done. cbn [mbind option_bind fst snd].
  rewrite decide_False, decide_True by done. by rewrite skip_head. Qed.

Lemma scan_members_last fuel k l v r : skip l = l →
  scan fuel l = Some (v, "}"%char :: r) →
  scan_members (S fuel) (quoted k ++ ":"%char :: l) = Some ([(k, v)], r).
Proof.
  intros Hl E. unfold quoted. simpl. rewrite <- app_assoc. cbn [app]. rewrite scan_string_escape.
  cbn -[skip scan scan_members]. rewrite (skip_head ":"%char) by done. cbn -[skip scan scan_members].
  rewrite Hl, E. simpl. by rewrite String.string_of_list_ascii_of_string.
Qed.

Lemma scan_members_more fuel k l v c r : skip l = l → is_blank c = false →
  scan fuel l = Some (v, ","%char :: c :: r) →
  scan_members (S fuel) (quoted k ++ ":"%char :: l) = (s ← scan_members fuel (c :: r); Some ((k, v) :: s.1, s.2)).
Proof.
  intros Hl Hc E. unfold quoted. simpl. rewrite <- app_assoc. cbn [app]. rewrite scan_string_escape.
  cbn -[skip scan scan_members]. rewrite (skip_head ":"%char) by done. cbn -[skip scan scan_members].
  rewrite Hl, E. cbn -[skip scan scan_members]. rewrite (skip_head ","%char) by done. cbn -[skip scan scan_members].
  rewrite skip_head by done. by rewrite String.string_of_list_ascii_of_string.
Qed.

Definition reads (v : value) : Prop := ∀ fuel r,
  (2 * length (dumps v) ≤ fuel)%nat → delimited r → scan fuel (dumps v ++ r) = Some (v, r).

Lemma scan_items_dumps l fuel r :
  l ≠ [] → Forall reads l →
  (2 * length (comma_join (map dumps l)) + 1 ≤ fuel)%nat →
  scan_items fuel (comma_join (map dumps l) ++ "]"%char :: r) = Some (l, r).
Proof.
  intros Hne Hl. revert fuel. induction Hl as [|v l Hv Hl IH]; intros fuel; [done|].
  destruct l as [|w l].
  - simpl. intros Hf. destruct fuel as [|fuel]; [lia|]. apply scan_items_last. apply Hv; [lia|].
    simpl. set_solver.
  - intros Hf. specialize (IH ltac:(done)).
    change (comma_join (map dumps (v :: w :: l)))
      with (dumps v ++ ","%char :: comma_join (map dumps (w :: l))) in *.
    rewrite length_app in Hf. cbn [length] in Hf. destruct fuel as [|fuel]; [lia|].
    rewrite <- app_assoc. cbn [app].
    destruct (dumps_head w) as (c & lw & Ew & Hc & _).
    assert (Ej : ∃ t, comma_join (map dumps (w :: l)) ++ "]"%char :: r = c :: t).
    { simpl. rewrite Ew. destruct (map dumps l); eexists; reflexivity. }
    destruct Ej as [t Ej].
    rewrite (scan_items_more fuel _ v c t); [|done|].
    + rewrite <- Ej, IH by lia. done.
    + rewrite Ej. apply Hv; [lia|]. simpl. set_solver.
Qed.

Definition member_text (p : string * value) : list ascii := quoted p.1 ++ ":"%char :: dumps p.2.

Lemma scan_members_dumps d fuel r :
  d ≠ [] → Forall (λ p, reads p.2) d →
  (2 * length (comma_join (map member_text d)) + 1 ≤ fuel)%nat →
  scan_members fuel (comma_join (map member_text d) ++ "}"%char :: r) = Some (d, r).
Proof.
  intros Hne Hd. revert fuel. induction Hd as [|[k v] d Hv Hd IH]; intros fuel; [done|]. simpl in Hv.
  assert (Hs : ∀ r', skip (dumps v ++ r') = dumps v ++ r').
  { intros r'. destruct (dumps_head v) as (c & lv & Ev & Hc & _). rewrite Ev. by apply skip_head. }
  destruct d as [|[k' w] d].
  - simpl. unfold member_text. simpl fst. simpl snd. rewrite length_app. cbn [length]. intros Hf.
    destruct fuel as [|fuel]; [lia|]. rewrite <- app_assoc. cbn [app].
    apply scan_members_last; [done|]. apply Hv; [lia|]. simpl. set_solver.
  - intros Hf. specialize (IH ltac:(done)).
    change (comma_join (map member_text ((k, v) :: (k', w) :: d)))
      with (member_text (k, v) ++ ","%char :: comma_join (map member_text ((k', w) :: d))) in *.
    rewrite length_app in Hf. unfold member_text at 1 in Hf. rewrite length_app in Hf. cbn [length fst snd] in Hf.
    destruct fuel as [|fuel]; [lia|].
    rewrite <- app_assoc. unfold member_text at 1. rewrite <- app_assoc. cbn [app fst snd].
    assert (Ej : ∃ t, comma_join (map member_text ((k', w) :: d)) ++ "}"%char :: r = quote_char :: t).
    { simpl. destruct (map member_text d); eexists; reflexivity. }
    destruct Ej as [t Ej].
    rewrite (scan_members_more fuel k _ v quote_char t); [|done|done|].
    + rewrite <- Ej, IH by lia. done.
    + rewrite Ej. apply Hv; [lia|]. simpl. set_solver.
Qed.

Lemma scan_dumps v : json_form v = true → reads v.
Proof.
  induction v as [|b|n|s|m b|t l IH|d IH] using value_induction; intros Hv fuel r Hf Hr;
    (destruct fuel as [|fuel];
      [match type of Hf with context [dumps ?v] =>
         destruct (dumps_head v) as (? & ? & E & _); rewrite E in Hf; simpl in Hf; lia end|]).
  - done.
  - by destruct b.
  - simpl dumps. rewrite <- (scan_number_int n r Hr).
    destruct (int_chars_head n) as (c & l & -> & Hc).
    destruct Hc as [->|Hc]; [done|]. cbn [app]. destruct c as [[] [] [] [] [] [] [] []]; done.
  - simpl. rewrite <- app_assoc. cbn [app]. rewrite scan_string_escape. simpl.
    by rewrite String.string_of_list_ascii_of_string.
  - done.
  - simpl in Hv. apply andb_true_iff in Hv as [Ht Hl]. apply negb_true_iff in Ht as ->.
    assert (HR : Forall reads l).
    { rewrite Forall_forall in IH |- *. intros x Hx. apply IH; [done|].
      rewrite forallb_forall in Hl. by apply Hl, list_elem_of_In. }
    clear IH Hl. cbn [dumps app length] in Hf |- *. rewrite length_app in Hf. cbn [length] in Hf.
    rewrite <- app_assoc. cbn [app].
    destruct l as [|v l]; [done|].
    pose proof (scan_items_dumps (v :: l) fuel r ltac:(done) HR ltac:(lia)) as E.
    destruct (dumps_head v) as (c & lv & Ev & Hc & Hb).
    assert (Ej : ∃ t, comma_join (map dumps (v :: l)) ++ "]"%char :: r = c :: t).
    { simpl. rewrite Ev. destruct (map dumps l); eexists; reflexivity. }
    destruct Ej as [t Ej]. rewrite Ej in E |- *. rewrite scan_list by done. by rewrite E.
  - simpl in Hv. apply andb_true_iff in Hv as [Ht Hl]. apply bool_decide_eq_true in Ht.
    assert (HR : Forall (λ p, reads p.2) d).
    { rewrite Forall_forall in IH |- *. intros x Hx. apply IH; [done|].
      rewrite forallb_forall in Hl. by apply (Hl x), list_elem_of_In. }
    clear IH Hl. cbn [dumps app length] in Hf |- *. rewrite length_app in Hf. cbn [length] in Hf.
    rewrite <- app_assoc. cbn [app].
    destruct d as [|p d]; [done|].
    pose proof (scan_members_dumps (p :: d) fuel r ltac:(done) HR ltac:(unfold member_text; lia)) as E.
    assert (Ej : ∃ t, comma_join (map member_text (p :: d)) ++ "}"%char :: r = quote_char :: t).
    { simpl. destruct (map member_text d); eexists; reflexivity. }
    destruct Ej as [t Ej]. unfold member_text in *. rewrite Ej in E |- *. rewrite scan_dict.
    rewrite E. cbn [mbind option_bind fst snd]. by rewrite od_of_wf.
Qed.

Lemma escape_ascii c : Forall (λ x, code x < 128) (escape c).
Proof. destruct c as [[] [] [] [] [] [] [] []]; repeat constructor. Qed.

Lemma quoted_ascii s : Forall (λ x, code x < 128) (quoted s).
Proof.
  unfold quoted. constructor; [done|]. apply Forall_app. split; [|by repeat constructor].
  induction (chars s) as [|c l IH]; simpl; [constructor|]. apply Forall_app. split; [apply escape_ascii|done].
Qed.

Lemma comma_join_ascii l :
  Forall (Forall (λ x, code x < 128)) l → Forall (λ x, code x < 128) (comma_join l).
Proof.
  induction 1 as [|x l Hx Hl IH]; [constructor|]. destruct l as [|y l]; [done|].
  change (comma_join (x :: y :: l)) with (x ++ ","%char :: comma_join (y :: l)).
  apply Forall_app. split; [done|]. by constructor.
Qed.

Lemma dumps_ascii v : Forall (λ x, code x < 128) (dumps v).
Proof.
  induction v as [|b|n|s|m b|t l IH|d IH] using value_induction; simpl.
  - by repeat constructor.
  - by destruct b; repeat constructor.
  - unfold int_chars. pose proof is_digit_uint as H.
    assert (Hu : ∀ d, Forall (λ x, code x < 128) (uint_chars d)).
    { intros d. eapply Forall_impl; [apply H|]. simpl. unfold is_digit. intros c ?. bool_prop. lia. }
    destruct (Z.to_int n); [done|]. by constructor.
  - apply quoted_ascii.
  - by repeat constructor.
  - constructor; [done|]. apply Forall_app. split; [|by repeat constructor].
    apply comma_join_ascii. by apply Forall_map.
  - constructor; [done|]. apply Forall_app. split; [|by repeat constructor].
    apply comma_join_ascii. apply Forall_map. eapply Forall_impl; [exact IH|]. intros [k v] Hv.
    apply (Forall_app _ (quoted k)). split; [apply quoted_ascii|]. by constructor.
Qed.

(** The bytes of a text of ASCII characters *)
Definition encode_ascii (l : list ascii) : bytes := map code l.

Lemma code_chars l : map (λ b, ascii_of_N (Z.to_N b)) (encode_ascii l) = l.
Proof.
  unfold encode_ascii. rewrite map_map. rewrite <- (map_id l) at 2. apply map_ext. intros c.
  unfold code. by rewrite N2Z.id, ascii_N_embedding.
Qed.

(** [loads] is the inverse of [dumps]. *)
Lemma json_loads_dumps v : json_form v = true → json_loads (encode_ascii (dumps v)) = Ok v.
Proof.
  intros Hv. unfold json_loads.
  assert (Ha : forallb (λ b, b <? 128) (encode_ascii (dumps v)) = true).
  { rewrite forallb_forall. intros b [c [<- Hc]]%in_map_iff. apply list_elem_of_In in Hc.
    apply Z.ltb_lt. eapply (Forall_forall (λ x, code x < 128)); [apply dumps_ascii|done]. }
  rewrite Ha, code_chars. cbn [negb].
  destruct (dumps_head v) as (c & l & E & Hb & _).
  assert (Hs : skip (dumps v) = dumps v) by (rewrite E; by apply skip_head).
  rewrite Hs. rewrite <- (app_nil_r (dumps v)) at 2.
  rewrite (scan_dumps v Hv); [done| |done]. unfold json_fuel. lia.
Qed.

(** * The fuel of the scanner suffices on every input *)

Lemma span_length {A} (p : A → bool) l : (length (span p l).2 ≤ length l)%nat.
Proof. induction l as [|x l IH]; simpl; [done|]. destruct (p x); simpl; lia. Qed.

Lemma skip_length l : (length (skip l) ≤ length l)%nat.
Proof. unfold skip. induction l as [|x l IH]; simpl; [done|]. destruct (is_blank x); simpl; lia. Qed.

Lemma strip_prefix_length p l r : p ≠ [] → strip_prefix p l = Some r → (length r < length l)%nat.
Proof.
  revert l. induction p as [|x p IH]; intros [|y l] Hp; simpl; try done.
  case_decide; [|done]. intros E. destruct p as [|x' p]; [simpl in E; naive_solver|].
  specialize (IH l ltac:(done) E). lia.
Qed.

Ltac unbind :=
  repeat match goal with
  | H : _ ≫= _ = Some _ |- _ => apply bind_Some in H as (? & ? & ?)
  | H : Some _ = Some _ |- _ => injection H as ?
  end; simplify_eq/=.

Lemma scan_digits_length l d r : scan_digits l = Some (d, r) → (length r < length l)%nat.
Proof.
  unfold scan_digits. intros H. unbind. destruct l as [|c l]; [done|].
  assert (length x.2 < length (c :: l))%nat as Hx.
  { case_decide; simplify_eq/=; [lia|]. destruct (is_digit c) eqn:Hc; [|done]. simplify_eq/=.
    pose proof (span_length is_digit l). lia. }
  destruct (x.2); simpl in *; [naive_solver lia|]. case_match; simplify_eq/=. lia.
Qed.

Lemma scan_number_length l v r : scan_number l = Some (v, r) → (length r < length l)%nat.
Proof.
  unfold scan_number. destruct l as [|c l]; [done|].
  case_decide; intros E; unbind;
    match goal with F : scan_digits _ = Some ?x |- _ => destruct x; apply scan_digits_length in F end;
    simpl in *; lia.
Qed.

Lemma scan_string_length l s r : scan_string l = Some (s, r) → (length r < length l)%nat.
Proof.
  revert s r. induction l as [l IH] using (induction_ltof1 _ (@length _)); unfold ltof in IH.
  intros s r. destruct l as [|c l]; simpl; [done|].
  assert (Hrec : ∀ l' (x : ascii) s r, (length l' < S (length l))%nat →
    (r0 ← scan_string l'; Some (x :: r0.1, r0.2)) = Some (s, r) → (length r < length l')%nat).
  { intros l' x s' r' Hl E. unbind. destruct x0 as [s0 r0]. eapply IH; eauto. }
  repeat case_decide; [intros [= <- <-]; lia| |].
  - destruct l as [|e l]; [done|]. case_decide.
    + destruct l as [|x [|y [|z [|t l]]]]; try done. intros E. apply bind_Some in E as (n & _ & E).
      destruct (n <? 256); [|done]. apply Hrec in E; simpl in *; lia.
    + intros E. apply bind_Some in E as (x & _ & E). apply Hrec in E; simpl in *; lia.
  - destruct (code c <? 32); [done|]. intros E. apply Hrec in E; simpl in *; lia.
Qed.

#[local] Arguments strip_prefix : simpl never.
#[local] Arguments scan_number : simpl never.
#[local] Arguments scan_string : simpl never.

Ltac lengths :=
  repeat match goal with
  | H : scan_string ?l = Some ?x |- _ => destruct x; apply scan_string_length in H
  | H : scan_number ?l = Some ?x |- _ => apply scan_number_length in H
  | H : strip_prefix _ _ = Some _ |- _ => apply strip_prefix_length in H; [|done]
  | H : skip ?l = _ :: ?r |- _ =>
      assert (length r < length l)%nat by (let K := fresh in pose proof (skip_length l) as K; rewrite H in K; simpl in K; lia);
      clear H
  end.

Lemma scan_shorter fuel :
  (∀ l v r, scan fuel l = Some (v, r) → (length r < length l)%nat)
  ∧ (∀ l v r, scan_items fuel l = Some (v, r) → (length r < length l)%nat)
  ∧ (∀ l v r, scan_members fuel l = Some (v, r) → (length r < length l)%nat).
Proof.
  induction fuel as [|fuel (IHs & IHi & IHm)]; [done|]. split_and!; intros l v r E; simpl in E.
  - destruct l as [|c l]; [done|]. simpl. repeat case_decide.
    + unbind. lengths. simpl. lia.
    + destruct (skip l) as [|c' r'] eqn:F; [done|]. case_decide; unbind; lengths; [lia|].
      match goal with G : scan_items _ _ = Some ?x |- _ => destruct x; apply IHi in G end. simpl in *. lia.
    + destruct (skip l) as [|c' r'] eqn:F; [done|]. case_decide; unbind; lengths; [lia|].
      match goal with G : scan_members _ _ = Some ?x |- _ => destruct x; apply IHm in G end. simpl in *. lia.
    + unbind. lengths. simpl in *. lia.
    + unbind. lengths. simpl in *. lia.
    + unbind. lengths. simpl in *. lia.
    + lengths. simpl in *. lia.
  - apply bind_Some in E as ([v1 r1] & Ev & E). apply IHs in Ev. simpl in E.
    destruct (skip r1) as [|c r2] eqn:F; [done|]. repeat case_decide; unbind; lengths; [lia|].
    match goal with G : scan_items _ _ = Some ?x |- _ => destruct x; apply IHi in G end.
    pose proof (skip_length r2). simpl in *. lia.
  - destruct l as [|c l]; [done|]. case_decide; [|done]. apply bind_Some in E as ([k r1] & Ek & E).
    apply scan_string_length in Ek. simpl in E.
    destruct (skip r1) as [|c2 r2] eqn:F; [done|]. case_decide; [|done].
    apply bind_Some in E as ([v2 r3] & Ev & E). apply IHs in Ev. simpl in E.
    pose proof (skip_length r2). lengths.
    destruct (skip r3) as [|c4 r4] eqn:F; [done|]. repeat case_decide; unbind; lengths; simpl in *; [lia|].
    match goal with G : scan_members _ _ = Some ?x |- _ => destruct x; apply IHm in G end.
    pose proof (skip_length r4). simpl in *. lia.
Qed.

Lemma scan_stable f g :
  (∀ l, (2 * length l + 1 ≤ f)%nat → (2 * length l + 1 ≤ g)%nat → scan f l = scan g l)
  ∧ (∀ l, (2 * length l + 2 ≤ f)%nat → (2 * length l + 2 ≤ g)%nat → scan_items f l = scan_items g l)
  ∧ (∀ l, (2 * length l + 2 ≤ f)%nat → (2 * length l + 2 ≤ g)%nat → scan_members f l = scan_members g l).
Proof.
  revert g. induction f as [|f IH]; intros g; [split_and!; lia|].
  destruct g as [|g]; [split_and!; lia|]. destruct (IH g) as (IHs & IHi & IHm).
  split_and!; intros l Hf Hg; simpl.
  - destruct l as [|c l]; [done|]. simpl in Hf, Hg. pose proof (skip_length l) as Hl.
    repeat case_decide; try done.
    + destruct (skip l) as [|c' r'] eqn:F; [done|]. by rewrite IHi by (simpl in *; lia).
    + destruct (skip l) as [|c' r'] eqn:F; [done|]. by rewrite IHm by (simpl in *; lia).
  - rewrite IHs by lia. destruct (scan g l) as [[v r]|] eqn:E; [|done]. simpl.
    apply (proj1 (scan_shorter g)) in E. destruct (skip r) as [|c r2] eqn:F; [done|].
    lengths. pose proof (skip_length r2). rewrite IHi by lia. done.
  - destruct l as [|c l]; [done|]. case_decide; [|done]. simpl in Hf, Hg.
    destruct (scan_string l) as [[k r1]|] eqn:E; [|done]. simpl. apply scan_string_length in E.
    destruct (skip r1) as [|c2 r2] eqn:F; [done|]. case_decide; [|done]. lengths.
    pose proof (skip_length r2). rewrite IHs by lia.
    destruct (scan g (skip r2)) as [[v r3]|] eqn:E3; [|done]. simpl. apply (proj1 (scan_shorter g)) in E3.
    destruct (skip r3) as [|c4 r4] eqn:F; [done|]. lengths. pose proof (skip_length r4).
    rewrite IHm by lia. done.
Qed.

(** More fuel than [json_fuel] changes nothing: the scanner never runs out. *)
Lemma scan_fuel f l : (json_fuel l ≤ f)%nat → scan f l = scan (json_fuel l) l.
Proof. intros Hf. apply scan_stable; [done|]. unfold json_fuel. lia. Qed.
