(* ===== verification/Wire.v ===== *)
(** Frames ([sandbox/wire.py]): a length, JSON metadata, and the bytes of a value
    one after another. [encode] replaces bytes by [None] and lists where they
    were; [decode] puts them back. *)

From S2P Require Import Prelude OrderedDict Values Json.

#[local] Open Scope Z_scope.

Definition MAX_BODY : Z := 64 * 1024 ^ 2.
Definition MAX_HEADER : Z := 4 * 1024 ^ 2.

(** * Encoding *)

Definition key_lt {A} (p q : string * A) : bool := str_ltb p.1 q.1.

(** Keys in order when the encoding is canonical *)
Definition in_order {A} (canonical : bool) (d : list (string * A)) : list (string * A) :=
  if canonical then sort_by key_lt d else d.

(** The metadata of a value at [path], and the bytes in it with their places in
    the order they were met. *)
Fixpoint walk (canonical : bool) (item : value) (path : list value) : value * list (list value * bytes) :=
  match item with
  | Bytes _ blob => (Null, [(path, blob)])
  | Dict d =>
      let parts := in_order canonical
        (map (λ p, (p.1, walk canonical p.2 (path ++ [Text p.1]))) d) in
      (Dict (map (λ p, (p.1, p.2.1)) parts), concat (map (λ p, p.2.2) parts))
  | Items _ l =>
      let parts :=
        (fix go (i : Z) (l : list value) :=
           match l with
           | [] => []
           | v :: l => walk canonical v (path ++ [Num i]) :: go (i + 1) l
           end) 0 l in
      (Items false (map fst parts), concat (map snd parts))
  | _ => (item, [])
  end.

Definition location (p : list value * bytes) : value :=
  Dict [("path", Items false p.1); ("size", Num (Z.of_nat (length p.2)))].

(** [struct.pack('!Q', n)] of a length *)
Definition pack_length (n : Z) : bytes := map (λ i, n / 256 ^ i mod 256) [7; 6; 5; 4; 3; 2; 1; 0].
(** [struct.unpack('!Q', data)] *)
Definition unpack_length (data : bytes) : Z := foldl (λ n b, n * 256 + b) 0 data.

Definition encode (value : value) (canonical : bool) : res bytes :=
  let '(message, blobs) := walk canonical value [] in
  header ← json_dumps (Dict [("message", message); ("blobs", Items false (map location blobs))]);
  _ ← raise_if (MAX_HEADER <? Z.of_nat (length header)) ValueError "wire metadata exceeds its limit";
  let result := pack_length (Z.of_nat (length header)) ++ encode_ascii header ++ concat (map snd blobs) in
  _ ← raise_if (MAX_BODY <? Z.of_nat (length result)) ValueError
        "wire payload exceeds its limit; use streaming chunks";
  Ok result.

(** * Decoding *)

(** [l[i]] for an integer of either sign *)
Definition list_index {A} (l : list A) (i : Z) : option nat :=
  let j := if i <? 0 then i + Z.of_nat (length l) else i in
  if (0 <=? j) && (j <? Z.of_nat (length l)) then Some (Z.to_nat j) else None.

Definition index_of (part : value) : option Z :=
  match part with Num i => Some i | Bool b => Some (if b then 1 else 0) | _ => None end.

Definition hashable (v : value) : bool :=
  match v with Items _ _ | Dict _ => false | _ => true end.

(** [parent[part]] *)
Definition getitem (parent part : value) : res value :=
  match parent with
  | Dict d =>
      match part with
      | Text k => match od_get k d with Some v => Ok v | None => raise KeyError "" end
      | _ => if hashable part then raise KeyError "" else raise TypeError "unhashable type"
      end
  | Items _ l =>
      match index_of part with
      | Some i => match i ← list_index l i; l !! i with Some v => Ok v | None => raise IndexError "list index out of range" end
      | None => raise TypeError "list indices must be integers or slices"
      end
  | Text s =>
      match index_of part with
      | Some i => match i ← list_index (chars s) i; chars s !! i with
                  | Some c => Ok (Text (String c ""))
                  | None => raise IndexError "string index out of range"
                  end
      | None => raise TypeError "string indices must be integers"
      end
  | Bytes _ b =>
      match index_of part with
      | Some i => match i ← list_index b i; b !! i with Some x => Ok (Num x) | None => raise IndexError "index out of range" end
      | None => raise TypeError "byte indices must be integers or slices"
      end
  | _ => raise TypeError "object is not subscriptable"
  end.

(** [parent[part] = child], where [parent[part]] was found to be [None] or to
    contain such a place. *)
Definition setitem (parent part child : value) : value :=
  match parent with
  | Dict d => match part with Text k => Dict (od_set k child d) | _ => parent end
  | Items t l =>
      match i ← index_of part; list_index l i with Some i => Items t (<[i := child]> l) | None => parent end
  | _ => parent
  end.

(** The place of a payload is followed from the top; what is there must be
    [None], and the payload replaces it. *)
Fixpoint fill (result : value) (path : list value) (payload : value) : res value :=
  match path with
  | [] => match result with Null => Ok payload | _ => raise ValueError "invalid binary placeholder" end
  | part :: path =>
      child ← getitem result part;
      child' ← fill child path payload;
      Ok (setitem result part child')
  end.

(** [for x in v] *)
Definition iterate (v : value) : res (list value) :=
  match v with
  | Items _ l => Ok l
  | Text s => Ok (map (λ c, Text (String c "")) (chars s))
  | Dict d => Ok (map Text d.*1)
  | Bytes _ b => Ok (map Num b)
  | _ => raise TypeError "object is not iterable"
  end.

(** [path[:-1]] and [path[-1]]: no dictionary has such keys. *)
Definition parts (path : value) : res (list value) :=
  match path with
  | Dict (_ :: _) => raise KeyError ""
  | _ => iterate path
  end.

(** Equality of the elements of tuples: [True == 1]. *)
Definition key_part (v : value) : value :=
  match v with Bool b => Num (if b then 1 else 0) | _ => v end.

Record cursor := Cursor { c_result : value; c_offset : Z; c_seen : list (list value) }.

(** One turn of the loop over [header['blobs']] *)
Definition decode_blob (data : bytes) (c : cursor) (blob : value) : res cursor :=
  path ← getitem blob (Text "path");
  size ← getitem blob (Text "size");
  size ← match size with
         | Num size =>
             if (size <? 0) || (Z.of_nat (length data) <? c_offset c + size)
             then raise ValueError "invalid binary payload length" else Ok size
         | _ => raise ValueError "invalid binary payload length"
         end;
  key ← iterate path;
  _ ← raise_if (negb (forallb hashable key)) TypeError "unhashable type";
  let key := map key_part key in
  _ ← raise_if (bool_decide (key ∈ c_seen c)) ValueError "duplicate binary payload location";
  let payload := Bytes false (slice data (Z.to_nat (c_offset c)) (Z.to_nat (c_offset c + size))) in
  places ← parts path;
  result ← fill (c_result c) places payload;
  Ok (Cursor result (c_offset c + size) (key :: c_seen c)).

Definition decode (data : bytes) : res value :=
  _ ← raise_if (negb ((8 <=? Z.of_nat (length data)) && (Z.of_nat (length data) <=? MAX_BODY))) ValueError
        "invalid wire body length";
  let length_ := unpack_length (take 8 data) in
  _ ← raise_if ((MAX_HEADER <? length_) || (Z.of_nat (length data) <? length_ + 8)) ValueError
        "invalid wire metadata length";
  header ← json_loads (slice data 8 (Z.to_nat (8 + length_)));
  result ← getitem header (Text "message");
  blobs ← getitem header (Text "blobs");
  blobs ← iterate blobs;
  c ← res_fold (decode_blob data) (Cursor result (8 + length_) []) blobs;
  _ ← raise_if (negb (c_offset c =? Z.of_nat (length data))) ValueError "trailing wire payload";
  Ok (c_result c).

Definition request_value : value :=
  Dict [("op", Text "file"); ("params", Dict [("data", Bytes true [1; 255; 0]); ("path", Text "/a")]);
        ("rest", Items true [Num (-7); Bytes false []; Bool true])].

Example request_travels :
  (data ← encode request_value false; decode data) = Ok (clone false request_value).
Proof. vm_compute. reflexivity. Qed.

(** * What arrives *)

(** The value [decode] gives back: bytes immutable, tuples as lists, and keys in
    order when the encoding is canonical. *)
Fixpoint arranged (canonical : bool) (v : value) : value :=
  match v with
  | Bytes _ b => Bytes false b
  | Items _ l => Items false (map (arranged canonical) l)
  | Dict d => Dict (in_order canonical (map (λ p, (p.1, arranged canonical p.2)) d))
  | _ => v
  end.

(** Dictionaries have each key once. *)
Fixpoint unique_keys (v : value) : bool :=
  match v with
  | Items _ l => forallb unique_keys l
  | Dict d => bool_decide (od_wf d) && forallb (λ p, unique_keys p.2) d
  | _ => true
  end.

Lemma arranged_clone v : arranged false v = clone false v.
Proof.
  induction v as [|b|n|s|m b|t l IH|d IH] using value_induction; simpl; try done.
  - by destruct m.
  - f_equal. by apply Forall_map_ext.
  - f_equal. apply Forall_map_ext. eapply Forall_impl; [exact IH|]. intros [k v]. simpl. by intros ->.
Qed.

Lemma insert_by_map {A B} (f : A → B) lt lt' x l :
  (∀ x y, lt' (f x) (f y) = lt x y) → insert_by lt' (f x) (map f l) = map f (insert_by lt x l).
Proof.
  intros Hf. induction l as [|y l IH]; simpl; [done|]. rewrite Hf. destruct (lt x y); [done|].
  simpl. by rewrite IH.
Qed.

Lemma sort_by_map {A B} (f : A → B) lt lt' l :
  (∀ x y, lt' (f x) (f y) = lt x y) → sort_by lt' (map f l) = map f (sort_by lt l).
Proof.
  intros Hf. unfold sort_by. change (@nil B) with (map f []). generalize (@nil A).
  induction l as [|x l IH]; intros acc; simpl; [done|].
  by rewrite (insert_by_map f lt lt'), IH by done.
Qed.

Lemma in_order_map {A B} c (f : string * A → B) (d : list (string * A)) :
  in_order c (map (λ p, (p.1, f p)) d) = map (λ p, (p.1, f p)) (in_order c d).
Proof. destruct c; [|done]. by apply sort_by_map. Qed.

Lemma in_order_perm {A} c (d : list (string * A)) : in_order c d ≡ₚ d.
Proof. destruct c; [apply sort_by_perm|done]. Qed.

(** The elements of a list with their positions *)
Fixpoint walk_list (c : bool) (l : list value) (i : Z) (path : list value) : list (value * list (list value * bytes)) :=
  match l with
  | [] => []
  | v :: l => walk c v (path ++ [Num i]) :: walk_list c l (i + 1) path
  end.

Lemma walk_items c t l path :
  walk c (Items t l) path
  = (Items false (map fst (walk_list c l 0 path)), concat (map snd (walk_list c l 0 path))).
Proof.
  simpl.
  assert (E : ∀ i, (fix go (i : Z) (l : list value) := match l with
     | [] => [] | v :: l => walk c v (path ++ [Num i]) :: go (i + 1) l end) i l = walk_list c l i path).
  { induction l as [|v l IH]; intros i; simpl; [done|]. by rewrite IH. }
  by rewrite E.
Qed.

Lemma walk_arranged c v path : walk c v path = walk false (arranged c v) path.
Proof.
  revert path. induction v as [|b|n|s|m b|t l IH|d IH] using value_induction; intros path; try done.
  - simpl arranged. rewrite !walk_items.
    assert (E : ∀ i, walk_list c l i path = walk_list false (map (arranged c) l) i path).
    { induction IH as [|v l Hv _ IHl]; intros i; simpl; [done|]. by rewrite Hv, IHl. }
    by rewrite E.
  - simpl. rewrite (in_order_map c (λ p, walk c p.2 (path ++ [Text p.1]))).
    rewrite (in_order_map c (λ p, arranged c p.2)). rewrite !map_map. simpl.
    assert (E : Forall (λ p, walk c p.2 (path ++ [Text p.1]) = walk false (arranged c p.2) (path ++ [Text p.1]))
                  (in_order c d)).
    { rewrite in_order_perm. eapply Forall_impl; [exact IH|]. intros [k v] Hv. simpl in *. by rewrite Hv. }
    f_equal; [f_equal|f_equal]; apply Forall_map_ext; (eapply Forall_impl; [exact E|]);
      intros [k v] Hv; simpl in *; by rewrite Hv.
Qed.

Definition pre (path : list value) (q : list value * bytes) : list value * bytes := (path ++ q.1, q.2).

Lemma pre_pre p q l : map (pre p) (map (pre q) l) = map (pre (p ++ q)) l.
Proof. rewrite map_map. apply map_ext. intros [x b]. unfold pre. simpl. by rewrite app_assoc. Qed.

(** Places are relative to the path of the value. *)
Lemma walk_pre v path : walk false v path = ((walk false v []).1, map (pre path) (walk false v []).2).
Proof.
  revert path. induction v as [|b|n|s|m b|t l IH|d IH] using value_induction; intros path; try done.
  - simpl. unfold pre. simpl. by rewrite app_nil_r.
  - rewrite !walk_items. simpl fst. simpl snd. rewrite concat_map. generalize 0.
    assert (E : ∀ i, walk_list false l i path = map (λ q, (q.1, map (pre path) q.2)) (walk_list false l i [])).
    { induction IH as [|v l Hv _ IHl]; intros i; simpl; [done|].
      rewrite (Hv [Num i]), (Hv (path ++ [Num i])), IHl. simpl. by rewrite pre_pre. }
    intros i. rewrite E, !map_map. done.
  - simpl. rewrite !map_map. simpl. rewrite concat_map, map_map.
    f_equal; [f_equal|f_equal]; apply Forall_map_ext; (eapply Forall_impl; [exact IH|]);
      intros [k v] Hv; simpl in *; rewrite (Hv [Text k]), (Hv (path ++ [Text k])); simpl; [done|].
    by rewrite pre_pre.
Qed.

(** * Filling the places *)

Definition fills (t : value) (bs : list (list value * bytes)) : res value :=
  res_fold (λ t q, fill t q.1 (Bytes false q.2)) t bs.

Lemma od_set_same {K V} `{EqDecision K} (k : K) (v : V) d : od_get k d = Some v → od_set k v d = d.
Proof.
  induction d as [|[k' v'] d IH]; simpl; [done|]. case_decide; [by intros [= ->]; subst|].
  intros Hg. by rewrite IH.
Qed.

Lemma od_set_set {K V} `{EqDecision K} (k : K) (v w : V) d : od_set k v (od_set k w d) = od_set k v d.
Proof.
  induction d as [|[k' v'] d IH]; simpl; [by rewrite decide_True|].
  destruct (decide (k = k')) as [->|Hk]; simpl; [by rewrite decide_True|]. by rewrite decide_False, IH.
Qed.

Lemma fills_cons t q bs : fills t (q :: bs) = (t' ← fill t q.1 (Bytes false q.2); fills t' bs).
Proof. reflexivity. Qed.

Lemma fills_dict k d x y bs :
  od_get k d = Some x → fills x bs = Ok y →
  fills (Dict d) (map (pre [Text k]) bs) = Ok (Dict (od_set k y d)).
Proof.
  revert d x. induction bs as [|[p b] bs IH]; intros d x Hg; simpl.
  - intros [= ->]. by rewrite od_set_same.
  - rewrite !fills_cons. cbn [pre fst snd app fill getitem]. rewrite Hg. cbn [mbind res_bind].
    destruct (fill x p (Bytes false b)) as [x'|e]; [|done]. cbn [mbind res_bind setitem]. intros E.
    rewrite (IH _ x'); [by rewrite od_set_set| |done]. rewrite od_get_set. by rewrite decide_True.
Qed.

Lemma list_index_in {A} (l : list A) (i : nat) x : l !! i = Some x → list_index l (Z.of_nat i) = Some i.
Proof.
  intros Hi%lookup_lt_Some. unfold list_index.
  rewrite (proj2 (Z.ltb_ge _ _)) by lia.
  rewrite (proj2 (Z.leb_le _ _)), (proj2 (Z.ltb_lt _ _)) by lia. simpl. by rewrite Nat2Z.id.
Qed.

Lemma fills_items (i : nat) l x y bs :
  l !! i = Some x → fills x bs = Ok y →
  fills (Items false l) (map (pre [Num (Z.of_nat i)]) bs) = Ok (Items false (<[i := y]> l)).
Proof.
  revert l x. induction bs as [|[p b] bs IH]; intros l x Hg; simpl.
  - intros [= ->]. by rewrite list_insert_id.
  - rewrite !fills_cons. cbn [pre fst snd app fill getitem index_of]. rewrite (list_index_in _ _ _ Hg).
    cbn [mbind option_bind]. rewrite Hg. cbn [mbind res_bind].
    destruct (fill x p (Bytes false b)) as [x'|e]; [|done]. cbn [mbind res_bind setitem index_of option_bind]. intros E.
    rewrite (list_index_in _ _ _ Hg).
    pose proof (lookup_lt_Some _ _ _ Hg).
    rewrite (IH _ x'); [by rewrite list_insert_insert_eq| |done]. by apply list_lookup_insert_eq.
Qed.

Definition meta (v : value) : value := (walk false v []).1.
Definition places (v : value) : list (list value * bytes) := (walk false v []).2.

Lemma walk_split v path : walk false v path = (meta v, map (pre path) (places v)).
Proof. apply walk_pre. Qed.

Lemma meta_dict d : meta (Dict d) = Dict (map (λ p, (p.1, meta p.2)) d).
Proof.
  unfold meta at 1. simpl. f_equal. rewrite map_map. apply map_ext. intros [k v]. simpl. by rewrite walk_split.
Qed.
Lemma places_dict d : places (Dict d) = concat (map (λ p, map (pre [Text p.1]) (places p.2)) d).
Proof.
  unfold places at 1. simpl. f_equal. rewrite map_map. apply map_ext. intros [k v]. simpl. by rewrite walk_split.
Qed.

Fixpoint places_list (i : Z) (l : list value) : list (list (list value * bytes)) :=
  match l with
  | [] => []
  | v :: l => map (pre [Num i]) (places v) :: places_list (i + 1) l
  end.

Lemma walk_list_split l i :
  walk_list false l i [] = zip (map meta l) (places_list i l).
Proof.
  revert i. induction l as [|v l IH]; intros i; simpl; [done|]. by rewrite walk_split, IH.
Qed.

Lemma length_places_list i l : length (places_list i l) = length l.
Proof. revert i. induction l as [|v l IH]; intros i; simpl; [done|]. by rewrite IH. Qed.

Lemma meta_items t l : meta (Items t l) = Items false (map meta l).
Proof.
  unfold meta at 1. rewrite walk_items. simpl. rewrite walk_list_split. f_equal.
  apply fst_zip. rewrite length_map, length_places_list. done.
Qed.
Lemma places_items t l : places (Items t l) = concat (places_list 0 l).
Proof.
  unfold places at 1. rewrite walk_items. simpl. rewrite walk_list_split. f_equal.
  apply snd_zip. rewrite length_map, length_places_list. done.
Qed.

Definition restored (v : value) : Prop := fills (meta v) (places v) = Ok (arranged false v).

Lemma fills_list l ds : Forall restored l →
  fills (Items false (ds ++ map meta l)) (concat (places_list (Z.of_nat (length ds)) l))
  = Ok (Items false (ds ++ map (arranged false) l)).
Proof.
  intros H. revert ds. induction H as [|v l Hv _ IHl]; intros ds; simpl; [done|].
  unfold fills. rewrite res_fold_app.
  match goal with |- context [res_fold ?f ?t (map ?g (places v))] =>
    change (res_fold f t (map g (places v))) with (fills t (map g (places v))) end.
  rewrite (fills_items _ _ (meta v) (arranged false v)); [|by apply list_lookup_middle|done].
  cbn [mbind res_bind].
  rewrite insert_app_r_alt, Nat.sub_diag by done. cbn [list_insert insert].
  specialize (IHl (ds ++ [arranged false v])). rewrite length_app, <- !app_assoc in IHl. cbn [app length] in IHl.
  replace (Z.of_nat (length ds + 1)) with (Z.of_nat (length ds) + 1) in IHl by lia. exact IHl.
Qed.

Lemma od_set_middle {K V} `{EqDecision K} (k : K) (v w : V) d d' :
  k ∉ d.*1 → od_set k w (d ++ (k, v) :: d') = d ++ (k, w) :: d'.
Proof.
  induction d as [|[k' v'] d IH]; simpl; [by rewrite decide_True|].
  intros [Hk Hd]%not_elem_of_cons. by rewrite decide_False, IH.
Qed.

Lemma od_get_middle {K V} `{EqDecision K} (k : K) (v : V) d d' :
  k ∉ d.*1 → od_get k (d ++ (k, v) :: d') = Some v.
Proof.
  induction d as [|[k' v'] d IH]; simpl; [by rewrite decide_True|].
  intros [Hk Hd]%not_elem_of_cons. by rewrite decide_False, IH.
Qed.

Lemma fills_entries d ds : Forall (λ p, restored p.2) d → NoDup (ds.*1 ++ d.*1) →
  fills (Dict (ds ++ map (λ p, (p.1, meta p.2)) d)) (concat (map (λ p, map (pre [Text p.1]) (places p.2)) d))
  = Ok (Dict (ds ++ map (λ p, (p.1, arranged false p.2)) d)).
Proof.
  intros H. revert ds. induction H as [|[k v] d Hv _ IHl]; intros ds Hd; simpl; [done|].
  unfold fills. rewrite res_fold_app. simpl in Hd, Hv.
  assert (Hnk : k ∉ ds.*1).
  { apply NoDup_app in Hd as (_ & Hd & _). intros Hin. apply (Hd k Hin). by left. }
  match goal with |- context [res_fold ?f ?t (map ?g (places v))] =>
    change (res_fold f t (map g (places v))) with (fills t (map g (places v))) end.
  rewrite (fills_dict _ _ (meta v) (arranged false v)); [|by rewrite od_get_middle|done].
  cbn [mbind res_bind]. rewrite od_set_middle by done.
  specialize (IHl (ds ++ [(k, arranged false v)])). rewrite fmap_app, <- !app_assoc in IHl. by apply IHl.
Qed.

(** Filling every place of the metadata gives the value back. *)
Lemma fills_places v : unique_keys v = true → restored v.
Proof.
  induction v as [|b|n|s|m b|t l IH|d IH] using value_induction; intros Hv; try done; simpl in Hv; unfold restored.
  - rewrite meta_items, places_items. apply (fills_list l []).
    rewrite forallb_forall in Hv. rewrite Forall_forall in IH |- *.
    intros x Hx. apply IH; [done|]. by apply Hv, list_elem_of_In.
  - rewrite meta_dict, places_dict. apply andb_true_iff in Hv as [Hk Hv]. apply bool_decide_eq_true in Hk.
    apply (fills_entries d []); [|done].
    rewrite forallb_forall in Hv. rewrite Forall_forall in IH |- *.
    intros x Hx. apply IH; [done|]. by apply Hv, list_elem_of_In.
Qed.

(** The metadata is what [json] can carry. *)
Lemma meta_json v : unique_keys v = true → json_form (meta v) = true.
Proof.
  induction v as [|b|n|s|m b|t l IH|d IH] using value_induction; intros Hv; try done; simpl in Hv.
  - rewrite meta_items. simpl. rewrite forallb_forall in Hv |- *. rewrite Forall_forall in IH.
    intros x [y [<- Hy]]%in_map_iff. apply IH; [by apply list_elem_of_In|]. by apply Hv.
  - rewrite meta_dict. simpl. apply andb_true_iff in Hv as [Hk Hv]. apply bool_decide_eq_true in Hk.
    apply andb_true_iff. split.
    + apply bool_decide_eq_true. unfold od_wf, keys in *. by rewrite <- list_fmap_compose.
    + rewrite forallb_forall in Hv |- *. rewrite Forall_forall in IH.
      intros x [y [<- Hy]]%in_map_iff. simpl. apply IH; [by apply list_elem_of_In|]. by apply Hv.
Qed.

(** Paths hold keys and positions only. *)
Definition plain_part (v : value) : bool := match v with Text _ | Num _ => true | _ => false end.

Lemma places_parts v q : q ∈ places v → forallb plain_part q.1 = true.
Proof.
  revert q. induction v as [|b|n|s|m b|t l IH|d IH] using value_induction; intros q;
    try (intros ?%not_elem_of_nil; done).
  - intros ->%list_elem_of_singleton. done.
  - rewrite places_items. generalize 0. induction IH as [|v l Hv _ IHl]; intros i; simpl; [by intros ?%not_elem_of_nil|].
    intros [Hq|Hq]%elem_of_app; [|by eapply IHl]. apply list_elem_of_fmap in Hq as (r & -> & Hr). simpl. by apply Hv.
  - rewrite places_dict. induction IH as [|[k v] d Hv _ IHl]; simpl; [by intros ?%not_elem_of_nil|].
    intros [Hq|Hq]%elem_of_app; [|by apply IHl]. apply list_elem_of_fmap in Hq as (r & -> & Hr). simpl. by apply Hv.
Qed.

Lemma NoDup_pre p bs : NoDup bs.*1 → NoDup (map (pre p) bs).*1.
Proof.
  intros H. replace ((map (pre p) bs).*1) with (app p <$> bs.*1).
  { apply NoDup_fmap_2; [|done]. intros x y E. by apply app_inv_head in E. }
  change (map (pre p) bs) with (pre p <$> bs). by rewrite <- !list_fmap_compose.
Qed.

Lemma places_list_first i l q : q ∈ concat (places_list i l) → ∃ j r, i ≤ j ∧ q.1 = Num j :: r.
Proof.
  revert i. induction l as [|v l IH]; intros i; simpl; [by intros ?%not_elem_of_nil|].
  intros [Hq|Hq]%elem_of_app.
  - apply list_elem_of_fmap in Hq as (r & -> & Hr). exists i, r.1. done.
  - apply IH in Hq as (j & r & Hj & ->). exists j, r. split; [lia|done].
Qed.

Lemma places_dict_first d q : q ∈ concat (map (λ p, map (pre [Text p.1]) (places p.2)) d) →
  ∃ k r, k ∈ d.*1 ∧ q.1 = Text k :: r.
Proof.
  induction d as [|[k v] d IH]; simpl; [by intros ?%not_elem_of_nil|].
  intros [Hq|Hq]%elem_of_app.
  - apply list_elem_of_fmap in Hq as (r & -> & Hr). exists k, r.1. split; [by left|done].
  - apply IH in Hq as (j & r & Hj & ->). exists j, r. split; [by right|done].
Qed.

(** No place is named twice. *)
Lemma places_distinct v : unique_keys v = true → NoDup (places v).*1.
Proof.
  induction v as [|b|n|s|m b|t l IH|d IH] using value_induction; intros Hv;
    try (by apply NoDup_nil_2); simpl in Hv.
  - apply NoDup_singleton.
  - rewrite places_items. generalize 0. induction IH as [|v l Hp _ IHl]; intros i; simpl in *; [by apply NoDup_nil_2|].
    apply andb_true_iff in Hv as [Hv Hl]. rewrite fmap_app. apply NoDup_app. split_and!; [by apply NoDup_pre, Hp| |by apply IHl].
    intros x Hx Hy. apply list_elem_of_fmap in Hx as (q & -> & Hq). apply list_elem_of_fmap in Hq as (r & -> & Hr).
    apply list_elem_of_fmap in Hy as (q & E & Hq). apply places_list_first in Hq as (j & r' & Hj & E').
    rewrite E' in E. injection E. lia.
  - rewrite places_dict. apply andb_true_iff in Hv as [Hk Hv]. apply bool_decide_eq_true in Hk.
    unfold od_wf, keys in Hk. induction IH as [|[k v] d Hp _ IHl]; simpl in *; [by apply NoDup_nil_2|].
    apply NoDup_cons in Hk as [Hk Hd].
    apply andb_true_iff in Hv as [Hv Hl]. rewrite fmap_app. apply NoDup_app. split_and!; [by apply NoDup_pre, Hp| |by apply IHl].
    intros x Hx Hy. apply list_elem_of_fmap in Hx as (q & -> & Hq). apply list_elem_of_fmap in Hq as (r & -> & Hr).
    apply list_elem_of_fmap in Hy as (q & E & Hq). apply places_dict_first in Hq as (j & r' & Hj & E').
    rewrite E' in E. injection E as <- _. done.
Qed.

(** * Round trip *)

Lemma key_parts q : forallb plain_part q = true → map key_part q = q ∧ forallb hashable q = true.
Proof.
  induction q as [|v q IH]; simpl; [done|]. intros [Hv Hq]%andb_true_iff.
  destruct (IH Hq) as [-> ->]. by destruct v.
Qed.

Lemma slice_middle {A} (front mid back : list A) :
  slice (front ++ mid ++ back) (length front) (length front + length mid) = mid.
Proof.
  unfold slice. rewrite drop_app_length.
  replace (length front + length mid - length front)%nat with (length mid) by lia. apply take_app_length.
Qed.

Lemma decode_blob_step front blob back c q :
  forallb plain_part q = true → q ∉ c_seen c → c_offset c = Z.of_nat (length front) →
  decode_blob (front ++ blob ++ back) c (location (q, blob))
  = (r ← fill (c_result c) q (Bytes false blob);
     Ok (Cursor r (c_offset c + Z.of_nat (length blob)) (q :: c_seen c))).
Proof.
  intros Hq Hseen Ho. destruct (key_parts q Hq) as [Hk Hh].
  unfold decode_blob, location. cbn [fst snd getitem]. simpl od_get. cbn [mbind res_bind].
  assert (Hn : (Z.of_nat (length blob) <? 0)
    || (Z.of_nat (length (front ++ blob ++ back)) <? c_offset c + Z.of_nat (length blob)) = false).
  { rewrite !length_app, Ho. apply orb_false_iff. split; apply Z.ltb_ge; lia. }
  rewrite Hn. cbn [mbind res_bind iterate]. rewrite Hh. cbn [negb raise_if mbind res_bind].
  rewrite Hk, bool_decide_eq_false_2 by done. cbn [raise_if mbind res_bind parts iterate].
  rewrite Ho, <- Nat2Z.inj_add, !Nat2Z.id, slice_middle. done.
Qed.

Lemma decode_blobs bs front back c r :
  Forall (λ q, forallb plain_part q.1 = true) bs → NoDup bs.*1 →
  (∀ q, q ∈ bs.*1 → q ∉ c_seen c) → c_offset c = Z.of_nat (length front) →
  fills (c_result c) bs = Ok r →
  ∃ seen, res_fold (decode_blob (front ++ concat (map snd bs) ++ back)) c (map location bs)
          = Ok (Cursor r (c_offset c + Z.of_nat (length (concat (map snd bs)))) seen).
Proof.
  intros Hp. revert front c. induction Hp as [|[q b] bs Hq _ IH]; intros front c Hnd Hseen Ho.
  - intros [= <-]. exists (c_seen c). simpl. rewrite Z.add_0_r. by destruct c.
  - simpl in Hnd. apply NoDup_cons in Hnd as [Hnq Hnd]. rewrite fills_cons. cbn [fst snd].
    intros (t & Et & E)%bind_ok. cbn [map concat res_fold]. rewrite <- app_assoc.
    rewrite decode_blob_step; [|done|apply Hseen; by left|done]. rewrite Et. cbn [mbind res_bind].
    destruct (IH (front ++ b) (Cursor t (c_offset c + Z.of_nat (length b)) (q :: c_seen c))) as [seen Hs].
    + done.
    + intros q' Hq'. simpl. rewrite not_elem_of_cons. split; [by intros ->|]. apply Hseen. by right.
    + simpl. rewrite length_app, Ho. lia.
    + done.
    + exists seen. cbn [fst snd]. rewrite <- app_assoc in Hs. rewrite Hs. simpl. rewrite length_app. do 2 f_equal. lia.
Qed.

Lemma unpack_pack n : 0 ≤ n ≤ MAX_HEADER → unpack_length (pack_length n) = n.
Proof.
  unfold MAX_HEADER. intros Hn. unfold pack_length, unpack_length. cbn [map foldl].
  assert (H : ∀ i, n / 256 ^ i mod 256 = n / 256 ^ i - 256 * (n / 256 ^ i / 256)).
  { intros i. pose proof (Z.div_mod (n / 256 ^ i) 256). lia. }
  rewrite !H, !Z.div_div by lia.
  rewrite (Z.div_small n (256 ^ 7 * 256)), (Z.div_small n (256 ^ 7)), (Z.div_small n (256 ^ 6 * 256)),
    (Z.div_small n (256 ^ 6)), (Z.div_small n (256 ^ 5 * 256)), (Z.div_small n (256 ^ 5)),
    (Z.div_small n (256 ^ 4 * 256)), (Z.div_small n (256 ^ 4)), (Z.div_small n (256 ^ 3 * 256)) by lia.
  change (256 ^ 2 * 256) with (256 ^ 3). change (256 ^ 1 * 256) with (256 ^ 2).
  change (256 ^ 0 * 256) with (256 ^ 1). change (256 ^ 0) with 1. rewrite Z.div_1_r. lia.
Qed.

Lemma length_pack n : length (pack_length n) = 8%nat.
Proof. done. Qed.

Lemma arranged_arranged c v : arranged false (arranged c v) = arranged c v.
Proof.
  induction v as [|b|n|s|m b|t l IH|d IH] using value_induction; simpl; try done.
  - f_equal. rewrite map_map. by apply Forall_map_ext.
  - f_equal. rewrite <- (in_order_map c (λ p, arranged false p.2)), map_map. f_equal.
    apply Forall_map_ext. eapply Forall_impl; [exact IH|]. intros [k v]. simpl. by intros ->.
Qed.

Lemma unique_arranged c v : unique_keys v = true → unique_keys (arranged c v) = true.
Proof.
  induction v as [|b|n|s|m b|t l IH|d IH] using value_induction; simpl; try done.
  - rewrite !forallb_forall. rewrite Forall_forall in IH. intros Hl x [y [<- Hy]]%in_map_iff.
    apply IH; [by apply list_elem_of_In|]. by apply Hl.
  - rewrite !andb_true_iff, !bool_decide_eq_true, !forallb_forall. rewrite Forall_forall in IH.
    unfold od_wf, keys. intros [Hk Hl]. split.
    + rewrite in_order_perm. by rewrite <- list_fmap_compose.
    + intros x Hx%list_elem_of_In. rewrite in_order_perm in Hx. apply list_elem_of_In, in_map_iff in Hx as [y [<- Hy]].
      simpl. apply IH; [by apply list_elem_of_In|]. by apply Hl.
Qed.

Lemma map_pre_nil bs : map (pre []) bs = bs.
Proof. rewrite <- (map_id bs) at 2. apply map_ext. by intros []. Qed.

Definition header_of (v : value) : value :=
  Dict [("message", meta v); ("blobs", Items false (map location (places v)))].

Lemma pair_wf {A} (a b : string) (x y : A) : a ≠ b → od_wf [(a, x); (b, y)].
Proof. intros Hab. unfold od_wf, keys. simpl. apply NoDup_cons. split; [|apply NoDup_singleton].
  by rewrite list_elem_of_singleton. Qed.

Lemma header_json v : unique_keys v = true → json_form (header_of v) = true.
Proof.
  intros Hv. cbn [header_of json_form forallb snd]. rewrite (meta_json v Hv), andb_true_r. cbn [negb].
  rewrite bool_decide_eq_true_2 by by apply pair_wf. cbn [andb].
  rewrite forallb_forall. intros x [[q b] [<- Hq]]%in_map_iff. apply list_elem_of_In, places_parts in Hq.
  unfold location. cbn [json_form forallb fst snd negb].
  rewrite bool_decide_eq_true_2 by by apply pair_wf. cbn [andb].
  rewrite !andb_true_r. rewrite forallb_forall in Hq |- *. intros y Hy. specialize (Hq y Hy). by destruct y.
Qed.

Lemma encode_frame canonical v data : encode v canonical = Ok data →
  ∃ header, header = dumps (header_of (arranged canonical v))
    ∧ Z.of_nat (length header) ≤ MAX_HEADER ∧ Z.of_nat (length data) ≤ MAX_BODY
    ∧ data = pack_length (Z.of_nat (length header)) ++ encode_ascii header
             ++ concat (map snd (places (arranged canonical v))).
Proof.
  unfold encode. rewrite walk_arranged, walk_split, map_pre_nil. unfold json_dumps, raise_if.
  fold (header_of (arranged canonical v)). destruct (jsonable _); [|done]. cbn [mbind res_bind].
  destruct (MAX_HEADER <? _) eqn:H1; [done|]. cbn [mbind res_bind].
  destruct (MAX_BODY <? _) eqn:H2; [done|]. cbn [mbind res_bind]. intros [= <-]. bool_prop.
  by eexists.
Qed.

Lemma decode_frame w data header :
  unique_keys w = true → arranged false w = w → header = dumps (header_of w) →
  Z.of_nat (length header) ≤ MAX_HEADER → Z.of_nat (length data) ≤ MAX_BODY →
  data = pack_length (Z.of_nat (length header)) ++ encode_ascii header ++ concat (map snd (places w)) →
  decode data = Ok w.
Proof.
  intros Hu' Hw Eh H1 H2 Ed.
  assert (Hlen : length (encode_ascii header) = length header) by apply length_map.
  assert (Hfill : fills (meta w) (places w) = Ok w) by (by rewrite (fills_places w Hu'), Hw).
  unfold decode, raise_if.
  assert (Hd : Z.of_nat (length data) = 8 + Z.of_nat (length header) + Z.of_nat (length (concat (map snd (places w))))).
  { rewrite Ed, !length_app, length_pack, Hlen. lia. }
  rewrite (proj2 (Z.leb_le 8 _)), (proj2 (Z.leb_le _ MAX_BODY)) by lia. cbn [andb negb mbind res_bind].
  assert (Ht : take 8 data = pack_length (Z.of_nat (length header))).
  { rewrite Ed. apply (take_app_length (pack_length _)). }
  rewrite Ht, unpack_pack by lia.
  rewrite (proj2 (Z.ltb_ge MAX_HEADER _)), (proj2 (Z.ltb_ge _ (Z.of_nat (length header) + 8))) by lia.
  cbn [orb mbind res_bind].
  assert (Hs : slice data 8 (Z.to_nat (8 + Z.of_nat (length header))) = encode_ascii header).
  { replace (Z.to_nat (8 + Z.of_nat (length header)))
      with (length (pack_length (Z.of_nat (length header))) + length (encode_ascii header))%nat
      by (rewrite length_pack, Hlen; lia).
    rewrite Ed. apply slice_middle. }
  rewrite Hs, Eh, (json_loads_dumps _ (header_json w Hu')), <- Eh. cbn [mbind res_bind].
  unfold header_of. cbn [getitem]. simpl od_get. cbn [mbind res_bind iterate].
  destruct (decode_blobs (places w) (pack_length (Z.of_nat (length header)) ++ encode_ascii header) []
              (Cursor (meta w) (8 + Z.of_nat (length header)) []) w) as [seen Hb].
  - apply Forall_forall. intros q Hq. by eapply places_parts.
  - by apply places_distinct.
  - intros q _ ?%not_elem_of_nil. done.
  - cbn [c_offset]. rewrite length_app, length_pack, Hlen. lia.
  - done.
  - rewrite app_nil_r, <- app_assoc, <- Ed in Hb. rewrite Hb. cbn [mbind res_bind c_offset].
    rewrite Hd, Z.eqb_refl. done.
Qed.

(** C40: A value survives the wire: whenever [encode] returns, [decode] of its bytes
    returns the value, with immutable bytes and lists for tuples, and with keys in
    order when the encoding is canonical. *)
Theorem decode_encode canonical v data :
  unique_keys v = true → encode v canonical = Ok data → decode data = Ok (arranged canonical v).
Proof.
  intros Hu (header & Eh & H1 & H2 & Ed)%encode_frame.
  by apply (decode_frame _ _ header); [apply unique_arranged|apply arranged_arranged|..].
Qed.

(** The hypotheses hold of a call. *)
Lemma decode_encode_witness :
  unique_keys request_value = true
  ∧ decode (default [] (res_option (encode request_value true))) = Ok (arranged true request_value).
Proof.
  split; [vm_compute; reflexivity|].
  apply (decode_encode true request_value); vm_compute; reflexivity.
Defined.

(** * Canonical encodings *)

(** Values that carry the same data: kinds of sequences and of bytes, and the
    order of keys, do not matter. *)
Inductive alike : value → value → Prop :=
  | alike_bytes m b : alike (Bytes m b) (Bytes false b)
  | alike_tuple l : alike (Items true l) (Items false l)
  | alike_order d d' : d ≡ₚ d' → alike (Dict d) (Dict d')
  | alike_item t l v w l' : alike v w → alike (Items t (l ++ v :: l')) (Items t (l ++ w :: l'))
  | alike_entry d k v w d' : alike v w → alike (Dict (d ++ (k, v) :: d')) (Dict (d ++ (k, w) :: d'))
  | alike_refl v : alike v v
  | alike_sym v w : alike v w → alike w v
  | alike_trans u v w : alike u v → alike v w → alike u w.

#[export] Instance alike_equivalence : Equivalence alike.
Proof. split; [exact alike_refl|exact alike_sym|exact alike_trans]. Qed.

(** Entries in order do not depend on the order they came in. *)
Lemma sort_by_perm_eq {A} (d d' : list (string * A)) :
  od_wf d → d ≡ₚ d' → sort_by key_lt d = sort_by key_lt d'.
Proof.
  unfold sort_by. generalize (@nil (string * A)). intros acc Hd Hp. revert acc Hd.
  induction Hp as [|p d d' _ IH|p q d|d d' d'' Hp IH1 _ IH2]; intros acc Hd; simpl.
  - done.
  - apply IH. unfold od_wf, keys in *. simpl in Hd. by apply NoDup_cons in Hd as [_ Hd].
  - f_equal. unfold od_wf, keys in Hd. simpl in Hd. apply NoDup_cons in Hd as [Hd _].
    apply not_elem_of_cons in Hd as [Hpq _].
    pose proof (str_ltb_total q.1 p.1 Hpq) as Ht.
    assert (Htrans : ∀ x y z : string * A, key_lt x y = true → key_lt y z = true → key_lt x z = true).
    { intros x y z. apply str_ltb_trans. }
    destruct (str_ltb p.1 q.1) eqn:E; simpl in Ht.
    + apply insert_by_swap; [exact Htrans|exact E|exact Ht].
    + symmetry. apply insert_by_swap; [exact Htrans|exact Ht|exact E].
  - rewrite IH1 by done. apply IH2. unfold od_wf, keys in *. by rewrite <- Hp.
Qed.

Lemma unique_middle {A} (f : A → bool) l x y l' :
  f x = f y → forallb f (l ++ x :: l') = forallb f (l ++ y :: l').
Proof. intros E. rewrite !forallb_app. simpl. by rewrite E. Qed.

Lemma alike_arranged v w : alike v w →
  unique_keys v = unique_keys w ∧ (unique_keys v = true → arranged true v = arranged true w).
Proof.
  induction 1 as [m b|l|d d' Hp|t l v w l' _ [Hu IH]|d k v w d' _ [Hu IH]|v|v w _ [Hu IH]|u v w _ [Hu1 IH1] _ [Hu2 IH2]];
    try done.
  - assert (Hb : unique_keys (Dict d) = unique_keys (Dict d')).
    { simpl. f_equal.
      - apply bool_decide_ext. unfold od_wf, keys. by rewrite Hp.
      - apply eq_true_iff_eq. rewrite !forallb_forall.
        split; intros Hf x Hx%list_elem_of_In; apply Hf, list_elem_of_In; [by rewrite Hp|by rewrite <- Hp]. }
    split; [done|]. simpl. intros [Hk _]%andb_true_iff. apply bool_decide_eq_true in Hk.
    f_equal. apply sort_by_perm_eq; [|by rewrite Hp].
    unfold od_wf, keys in *. by rewrite <- list_fmap_compose.
  - simpl. split; [by apply unique_middle|]. intros Hv. f_equal. rewrite !map_app. simpl. do 2 f_equal.
    apply IH. rewrite forallb_app in Hv. simpl in Hv. by bool_prop.
  - split.
    + simpl. f_equal; [|by apply unique_middle].
      apply bool_decide_ext. unfold od_wf, keys. by rewrite !fmap_app.
    + simpl. intros [_ Hv]%andb_true_iff. rewrite forallb_app in Hv. simpl in Hv. bool_prop.
      rewrite !map_app. simpl. by rewrite IH.
  - split; [done|]. intros Hw. symmetry. apply IH. by rewrite Hu.
  - split; [by rewrite Hu1|]. intros Hv. rewrite IH1 by done. apply IH2. by rewrite <- Hu1.
Qed.

Lemma alike_list t l m l' : Forall2 alike l l' → alike (Items t (m ++ l)) (Items t (m ++ l')).
Proof.
  intros H. revert m. induction H as [|v w l l' Hv _ IH]; intros m; [reflexivity|].
  etransitivity; [by apply alike_item|]. specialize (IH (m ++ [w])). by rewrite <- !app_assoc in IH.
Qed.

Lemma alike_dict f d m : Forall (λ p, alike p.2 (f p.2)) d →
  alike (Dict (m ++ d)) (Dict (m ++ map (λ p, (p.1, f p.2)) d)).
Proof.
  intros H. revert m. induction H as [|[k v] d Hv _ IH]; intros m; [reflexivity|].
  etransitivity; [by apply alike_entry|]. specialize (IH (m ++ [(k, f v)])). by rewrite <- !app_assoc in IH.
Qed.

Lemma alike_to_arranged c v : alike v (arranged c v).
Proof.
  induction v as [|b|n|s|m b|t l IH|d IH] using value_induction; simpl; try reflexivity.
  - apply alike_bytes.
  - transitivity (Items t (map (arranged c) l)).
    + apply (alike_list t l []). induction IH; simpl; constructor; done.
    + destruct t; [apply alike_tuple|reflexivity].
  - transitivity (Dict (map (λ p, (p.1, arranged c p.2)) d)).
    + by apply (alike_dict _ d []).
    + apply alike_order. by rewrite in_order_perm.
Qed.

(** Two values have the same canonical encoding exactly when they carry the
    same data, whatever the order of their keys and the kinds of their sequences. *)
Theorem canonical_encoding v w data :
  unique_keys v = true → unique_keys w = true → encode v true = Ok data →
  encode w true = Ok data ↔ alike v w.
Proof.
  intros Hv Hw E. split.
  - intros (h1 & Eh1 & H1 & H1' & E1)%encode_frame. apply encode_frame in E as (h2 & Eh2 & H2 & H2' & E2).
    pose proof (decode_frame _ _ h1 (unique_arranged true w Hw) (arranged_arranged true w) Eh1 H1 H1' E1) as F.
    rewrite (decode_frame _ _ h2 (unique_arranged true v Hv) (arranged_arranged true v) Eh2 H2 H2' E2) in F.
    transitivity (arranged true v); [apply alike_to_arranged|].
    injection F as ->.
    symmetry. apply alike_to_arranged.
  - intros [_ H]%alike_arranged. rewrite <- E. unfold encode. by rewrite !(walk_arranged true), H.
Qed.

Definition request_again : value :=
  Dict [("rest", Items false [Num (-7); Bytes true []; Bool true]);
        ("params", Dict [("path", Text "/a"); ("data", Bytes false [1; 255; 0])]); ("op", Text "file")].

(** The hypotheses hold of one record built in two ways. *)
Lemma canonical_encoding_witness :
  let data := default [] (res_option (encode request_value true)) in
  encode request_again true = Ok data ∧ alike request_value request_again.
Proof.
  intros data. assert (E : encode request_again true = Ok data) by (vm_compute; reflexivity).
  split; [exact E|].
  apply (canonical_encoding request_value request_again data); [vm_compute; reflexivity..|exact E].
Defined.
