(* ===== verification/Mesh.v ===== *)
(** Packets of service networks ([scripts/service_network.py]): checksums,
    the translation of addresses between members, and answers for service names. *)

From S2P Require Import Prelude OrderedDict Ipv4 Values Json.

#[local] Open Scope Z_scope.

Definition GUEST : bytes := packed (quad 10 0 2 15).
Definition DNS : bytes := packed (quad 10 0 2 3).
Definition GUEST_MAC : bytes := [2; 0; 0; 0; 0; 21].
Definition GATEWAY_MAC : bytes := [2; 0; 0; 0; 0; 2].
Definition DNS_FORWARD : bytes := [0; 83; 87; 68; 78; 83].

(** [str(IPv4Address(a))] *)
Definition dotted (a : Z) : string := str_join "." (map (λ b, of_chars (int_chars b)) (packed a)).

(** [struct.pack('!H', n)] *)
Definition be16 (n : Z) : bytes := [n / 256; n mod 256].

(** [packet[i:i+len(new)] = new] inside the packet *)
Definition splice (packet : bytes) (i : nat) (new : bytes) : bytes :=
  take i packet ++ new ++ drop (i + length new) packet.

(** The 16-bit words of some data, the last one completed by a zero byte. *)
Fixpoint words (data : bytes) : list Z :=
  match data with
  | a :: b :: data => a * 256 + b :: words data
  | [a] => [a * 256]
  | [] => []
  end.

(** [while total >> 16: total = (total & 0xffff) + (total >> 16)]; every turn takes
    at least 65535 away. *)
Fixpoint carry_loop (fuel : nat) (total : Z) : Z :=
  match fuel with
  | O => total
  | S fuel =>
      if Z.shiftr total 16 =? 0 then total
      else carry_loop fuel (Z.land total 65535 + Z.shiftr total 16)
  end.
Definition carry (total : Z) : Z := carry_loop (S (Z.to_nat (total / 65535))) total.

Definition checksum (data : bytes) : Z := Z.land (Z.lnot (carry (sumZ (words data)))) 65535.

(** The transport checksum of a translated packet, from the old one and the
    addresses on both sides *)
Definition adjusted (current : Z) (old new : bytes) (protocol : Z) : Z :=
  let total := Z.land (Z.lnot current) 65535
               + sumZ (map (λ word, Z.land (Z.lnot word) 65535) (words old))
               + sumZ (words new) in
  let value := Z.land (Z.lnot (carry total)) 65535 in
  if value =? 0 then (if protocol =? 17 then 65535 else 0) else value.

(** [(frame[14] & 15) * 4] and the end of the packet in its frame *)
Definition header_size (frame : bytes) : nat := Z.to_nat (Z.land (u8 frame 14) 15 * 4).
Definition packet_size (frame : bytes) : nat := (14 + Z.to_nat (u16 frame 16))%nat.

(** The Ethernet and IP headers on the other side *)
Definition readdress (packet : bytes) (header : nat) (source destination : bytes) : bytes :=
  let packet := splice packet 0 (GUEST_MAC ++ GATEWAY_MAC) in
  let packet := splice packet 26 (source ++ destination) in
  let packet := splice packet 24 [0; 0] in
  splice packet 24 (be16 (checksum (slice packet 14 (14 + header)))).

(** Where TCP and UDP keep their checksum *)
Definition checksum_at (packet : bytes) : nat :=
  (14 + header_size packet + (if (u8 packet 23 =? 6)%Z then 16 else 6))%nat.

Definition route (frame source destination : bytes) : option bytes :=
  if (length frame <? 34)%nat || negb (bool_decide (slice frame 12 14 = [8; 0]))
     || negb (Z.shiftr (u8 frame 14) 4 =? 4) then None
  else if (header_size frame <? 20)%nat || (packet_size frame <? 14 + header_size frame)%nat
          || (length frame <? packet_size frame)%nat || negb (bool_decide (slice frame 26 30 = GUEST)) then None
  else
    let packet := take (packet_size frame) frame in
    let old := slice packet 26 34 in
    let packet := readdress packet (header_size frame) source destination in
    let protocol := u8 packet 23 in
    if (Z.land (u16 packet 20) 8191 =? 0) && ((protocol =? 6) || (protocol =? 17)) then
      let offset := checksum_at packet in
      if (length packet <? offset + 2)%nat then None
      else if negb (u16 packet offset =? 0) || (protocol =? 6) then
        Some (splice packet offset (be16 (adjusted (u16 packet offset) old (source ++ destination) protocol)))
      else Some packet
    else Some packet.

(** * Service names *)

(** [label.decode('ascii').lower()] *)
Definition ascii_label (label : bytes) : option string :=
  if forallb (λ b, b <? 128) label
  then Some (str_lower (of_chars (map (λ b, ascii_of_N (Z.to_N b)) label))) else None.

(** The labels from [end] on, and the position of the zero that ends them. *)
Fixpoint labels_loop (fuel : nat) (query : bytes) (end_ : nat) (labels : list string) : option (list string * nat) :=
  match fuel with
  | O => None
  | S fuel =>
      if (end_ <? length query)%nat && negb (u8 query end_ =? 0) then
        let size := Z.to_nat (u8 query end_) in
        if (63 <? size)%nat || (length query <=? end_ + 1 + size)%nat then None
        else
          label ← ascii_label (slice query (end_ + 1) (end_ + size + 1));
          labels_loop fuel query (end_ + size + 1) (labels ++ [label])
      else Some (labels, end_)
  end.

(** The question a frame asks: its DNS message, the name, and where the name ends. *)
Definition dns_question (frame : bytes) : option (bytes * string * nat) :=
  if (length frame <? 54)%nat || negb (bool_decide (slice frame 12 14 = [8; 0]))
     || negb (u8 frame 14 =? 69) || negb (u8 frame 23 =? 17)
     || negb (bool_decide (slice frame 26 30 = GUEST)) || negb (bool_decide (slice frame 30 34 = DNS))
     || negb (Z.land (u16 frame 20) 16383 =? 0) || negb (u16 frame 36 =? 53) then None
  else
    let size := Z.to_nat (u16 frame 38) in
    if (size <? 20)%nat || (length frame <? 34 + size)%nat
       || negb (u16 frame 16 =? 20 + Z.of_nat size) then None
    else
      let query := slice frame 42 (34 + size) in
      if (length query <? 12)%nat || negb (Z.land (u8 query 2) 128 =? 0)
         || negb (bool_decide (slice query 4 6 = [0; 1])) then None
      else
        r ← labels_loop (S (length query)) query 12 [];
        let end_ := (r.2 + 1)%nat in
        if (length query <? end_ + 4)%nat then None
        else Some (query, str_join "." r.1, end_).

(** The answer to a question, with the address when it asks for one. *)
Definition dns_answer (query : bytes) (end_ : nat) (address : Z) : bytes :=
  let answer :=
    if (u16 query end_ =? 1) && (u16 query (end_ + 2) =? 1)
    then [192; 12; 0; 1; 0; 1; 0; 0; 0; 0; 0; 4] ++ packed address else [] in
  slice query 0 2 ++ [129; 128; 0; 1] ++ be16 (if bool_decide (answer = []) then 0 else 1) ++ [0; 0; 0; 0]
  ++ slice query 12 (end_ + 4) ++ answer.

(** The frame that brings an answer back to the guest. *)
Definition dns_frame (frame dns : bytes) : bytes :=
  let udp := slice frame 36 38 ++ slice frame 34 36 ++ be16 (8 + Z.of_nat (length dns)) ++ [0; 0] ++ dns in
  let ip := slice frame 14 34 in
  let ip := splice ip 2 (be16 (20 + Z.of_nat (length udp))) in
  let ip := splice ip 12 (slice frame 30 34 ++ GUEST) in
  let ip := splice ip 10 [0; 0] in
  let ip := splice ip 10 (be16 (checksum ip)) in
  slice frame 6 12 ++ slice frame 0 6 ++ [8; 0] ++ ip ++ udp.

(** [names] gives the address of a service name, as text. *)
Definition dns_reply (frame : bytes) (names : string → option string) : res (option bytes) :=
  match dns_question frame with
  | None => Ok None
  | Some (query, name, end_) =>
      match names name with
      | None => Ok None
      | Some address =>
          let asked := (u16 query end_ =? 1) && (u16 query (end_ + 2) =? 1) in
          match ip_of_string address with
          | Some a => Ok (Some (dns_frame frame (dns_answer query end_ a)))
          | None =>
              if asked then raise ValueError "IPv4 address"
              else Ok (Some (dns_frame frame (dns_answer query end_ 0)))
          end
      end
  end.

(** * Checksums *)

Lemma carry_loop_spec fuel t : 0 ≤ t → t / 65535 < Z.of_nat fuel →
  0 ≤ carry_loop fuel t < 65536 ∧ carry_loop fuel t mod 65535 = t mod 65535
  ∧ (carry_loop fuel t = 0 ↔ t = 0).
Proof.
  revert t. induction fuel as [|fuel IH]; intros t Ht Hf.
  { pose proof (Z.div_pos t 65535). lia. }
  assert (El : Z.land t 65535 = t mod 65536) by (change 65535 with (Z.ones 16); by rewrite Z.land_ones).
  simpl. rewrite El, Z.shiftr_div_pow2 by lia. change (2 ^ 16) with 65536. destruct (t / 65536 =? 0) eqn:E.
  - apply Z.eqb_eq in E. apply Z.div_small_iff in E; [|lia]. split; [lia|tauto].
  - apply Z.eqb_neq in E. pose proof (Z.div_mod t 65536 ltac:(lia)) as D.
    pose proof (Z.mod_pos_bound t 65536 ltac:(lia)). pose proof (Z.div_pos t 65536 Ht ltac:(lia)).
    set (q := t / 65536) in *. set (r := t mod 65536) in *.
    destruct (IH (r + q)) as (H1 & H2 & H3).
    + lia.
    + assert ((r + q) / 65535 ≤ (t - 65535) / 65535) by (apply Z.div_le_mono; lia).
      replace (t - 65535) with (t + -1 * 65535) in * by lia. rewrite Z.div_add in * by lia. lia.
    + split; [done|]. split.
      * rewrite H2. rewrite D. replace (65536 * q + r) with (r + q + q * 65535) by lia. by rewrite Z.mod_add.
      * rewrite H3. lia.
Qed.

Lemma carry_spec t : 0 ≤ t →
  0 ≤ carry t < 65536 ∧ carry t mod 65535 = t mod 65535 ∧ (carry t = 0 ↔ t = 0).
Proof. intros Ht. apply carry_loop_spec; [done|]. pose proof (Z.div_pos t 65535). lia. Qed.

(** A sum is complete when it is a positive multiple of 65535. *)
Lemma carry_full t : 0 < t → carry t = 65535 ↔ t mod 65535 = 0.
Proof.
  intros Ht. destruct (carry_spec t) as (H1 & H2 & H3); [lia|]. rewrite <- H2. split.
  - by intros ->.
  - intros H0. apply Z.mod_divide in H0 as [k Hk]; [|lia]. assert (carry t ≠ 0) by lia. lia.
Qed.

Lemma complement x : 0 ≤ x < 65536 → Z.land (Z.lnot x) 65535 = 65535 - x.
Proof.
  intros Hx. assert (El : ∀ y, Z.land y 65535 = y mod 65536).
  { intros y. change 65535 with (Z.ones 16). by rewrite Z.land_ones. }
  rewrite El. unfold Z.lnot. symmetry. apply (Z.mod_unique _ _ (-1)); [left; lia|lia].
Qed.

Lemma checksum_range d : Forall is_byte d → 0 ≤ sumZ (words d).
Proof.
  assert (H : ∀ n d, (length d ≤ n)%nat → Forall is_byte d → 0 ≤ sumZ (words d)); [|by eapply H].
  clear d. induction n as [|n IH]; intros [|a [|b d]] Hn Hd; simpl in *; try lia.
  - apply Forall_cons in Hd as [Ha _]. unfold is_byte in Ha. lia.
  - apply Forall_cons in Hd as [Ha Hd]. apply Forall_cons in Hd as [Hb Hd].
    unfold is_byte in *. specialize (IH d ltac:(lia) Hd). lia.
Qed.

Lemma words_app d e : Nat.even (length d) = true → words (d ++ e) = words d ++ words e.
Proof.
  assert (H : ∀ n d, (length d ≤ n)%nat → Nat.even (length d) = true → words (d ++ e) = words d ++ words e); [|by eapply H].
  clear d. induction n as [|n IH]; intros [|a [|b d]] Hn Hd; simpl in *; try done; try lia.
  rewrite IH; [done|lia|done].
Qed.

Lemma sumZ_app l m : sumZ (l ++ m) = sumZ l + sumZ m.
Proof. induction l as [|x l IH]; simpl; [done|]. rewrite IH. lia. Qed.

Lemma be16_word n : sumZ (words (be16 n)) = n.
Proof. unfold be16. simpl. pose proof (Z.div_mod n 256). lia. Qed.

Lemma be16_bytes n : 0 ≤ n < 65536 → Forall is_byte (be16 n).
Proof.
  intros Hn. unfold be16. pose proof (Z.mod_pos_bound n 256 ltac:(lia)).
  repeat constructor; unfold is_byte; try lia; Z.div_mod_to_equations; lia.
Qed.

(** * Splices *)

Lemma length_splice p i new : (i + length new ≤ length p)%nat → length (splice p i new) = length p.
Proof. intros H. unfold splice. rewrite !length_app, length_take, length_drop. lia. Qed.

Lemma lookup_splice_out p i new j : (i + length new ≤ length p)%nat →
  (j < i ∨ i + length new ≤ j)%nat → splice p i new !! j = p !! j.
Proof.
  intros H [Hj|Hj]; unfold splice.
  - rewrite lookup_app_l by (rewrite length_take; lia). by rewrite lookup_take_lt.
  - rewrite lookup_app_r by (rewrite length_take; lia). rewrite length_take.
    rewrite lookup_app_r by lia. rewrite lookup_drop. f_equal. lia.
Qed.

Lemma lookup_splice_in p i new j : (i + length new ≤ length p)%nat →
  (i ≤ j < i + length new)%nat → splice p i new !! j = new !! (j - i)%nat.
Proof.
  intros H Hj. unfold splice. rewrite lookup_app_r by (rewrite length_take; lia).
  rewrite length_take, Nat.min_l by lia. by rewrite lookup_app_l by lia.
Qed.

Lemma slice_splice_out p i new a b : (i + length new ≤ length p)%nat →
  (b ≤ i ∨ i + length new ≤ a)%nat → slice (splice p i new) a b = slice p a b.
Proof.
  intros H Hab. apply list_eq. intros j. unfold slice.
  destruct (decide (j < b - a)%nat) as [Hj|Hj].
  - rewrite !lookup_take_lt, !lookup_drop by lia. apply lookup_splice_out; [done|lia].
  - by rewrite !lookup_take_ge by lia.
Qed.

Lemma slice_splice_in p i new : (i + length new ≤ length p)%nat →
  slice (splice p i new) i (i + length new) = new.
Proof.
  intros H. unfold splice, slice. rewrite drop_app_ge by (rewrite length_take; lia).
  rewrite length_take. replace (i - i `min` length p)%nat with 0%nat by lia.
  replace (i + length new - i)%nat with (length new) by lia. apply take_app_length.
Qed.

Lemma slice_splice p i new a b : (a ≤ i)%nat → (i + length new ≤ b)%nat → (b ≤ length p)%nat →
  slice (splice p i new) a b = splice (slice p a b) (i - a) new.
Proof.
  intros Ha Hb Hp. apply list_eq. intros j. unfold slice.
  assert (Hl : length (take (b - a) (drop a p)) = (b - a)%nat) by (rewrite length_take, length_drop; lia).
  destruct (decide (j < b - a)%nat) as [Hj|Hj].
  - rewrite lookup_take_lt, lookup_drop by lia.
    destruct (decide (i - a ≤ j < i - a + length new)%nat) as [Hin|Hout].
    + rewrite !lookup_splice_in by lia. f_equal. lia.
    + rewrite !lookup_splice_out by lia. by rewrite lookup_take_lt, lookup_drop by lia.
  - rewrite lookup_take_ge by lia. symmetry. apply lookup_ge_None. rewrite length_splice by lia. lia.
Qed.

Lemma drop_splice p i new a : (a ≤ i)%nat → (i + length new ≤ length p)%nat →
  drop a (splice p i new) = splice (drop a p) (i - a) new.
Proof.
  intros Ha Hi. pose proof (slice_splice p i new a (length p) Ha Hi ltac:(lia)) as H.
  unfold slice in H.
  rewrite (take_ge (drop a (splice p i new))) in H by (rewrite length_drop, length_splice by lia; lia).
  by rewrite (take_ge (drop a p)) in H by (rewrite length_drop; lia).
Qed.

Lemma drop_splice_before p i new a : (i + length new ≤ length p)%nat → (i + length new ≤ a)%nat →
  drop a (splice p i new) = drop a p.
Proof.
  intros Hi Ha. apply list_eq. intros j. rewrite !lookup_drop. apply lookup_splice_out; [done|lia].
Qed.

(** Replacing a word at an even position changes the sum by the difference. *)
Lemma sum_splice d i v : Nat.even i = true → (i + 2 ≤ length d)%nat →
  sumZ (words (splice d i (be16 v))) = sumZ (words d) - u16 d i + v.
Proof.
  intros He Hi. unfold splice. change (length (be16 v)) with 2%nat.
  assert (Ed : d = take i d ++ [u8 d i; u8 d (S i)] ++ drop (i + 2) d).
  { rewrite <- (take_drop i d) at 1. f_equal.
    destruct (lookup_lt_is_Some_2 d i ltac:(lia)) as [x Hx]. destruct (lookup_lt_is_Some_2 d (S i) ltac:(lia)) as [y Hy].
    rewrite (drop_S d x i Hx), (drop_S d y (S i) Hy). unfold u8. rewrite Hx, Hy.
    simpl. by replace (i + 2)%nat with (S (S i)) by lia. }
  assert (Hev : Nat.even (length (take i d)) = true) by (rewrite length_take, Nat.min_l by lia; done).
  rewrite Ed at 3. rewrite !words_app, !sumZ_app by done. rewrite be16_word.
  change (words [u8 d i; u8 d (S i)]) with [u16 d i]. simpl. lia.
Qed.

Lemma splice_bytes p i new : Forall is_byte p → Forall is_byte new → Forall is_byte (splice p i new).
Proof. intros Hp Hn. unfold splice. rewrite !Forall_app. split_and!; [by apply Forall_take|done|by apply Forall_drop]. Qed.

Lemma slice_bytes p a b : Forall is_byte p → Forall is_byte (slice p a b).
Proof. intros Hp. unfold slice. by apply Forall_take, Forall_drop. Qed.

Lemma u8_slice p a b i : (a + i < b)%nat → u8 (slice p a b) i = u8 p (a + i).
Proof. intros H. unfold u8, slice. by rewrite lookup_take_lt, lookup_drop by lia. Qed.

Lemma u8_splice_out p i new j : (i + length new ≤ length p)%nat →
  (j < i ∨ i + length new ≤ j)%nat → u8 (splice p i new) j = u8 p j.
Proof. intros H Hj. unfold u8. by rewrite lookup_splice_out. Qed.

(** * Translation *)

Lemma sumZ_complement l : Forall (λ w, 0 ≤ w < 65536) l →
  sumZ (map (λ w, Z.land (Z.lnot w) 65535) l) = 65535 * Z.of_nat (length l) - sumZ l.
Proof. induction 1 as [|w l Hw _ IH]; simpl; [done|]. rewrite complement, IH by done. lia. Qed.

Lemma words_range d : Forall is_byte d → Forall (λ w, 0 ≤ w < 65536) (words d).
Proof.
  assert (H : ∀ n d, (length d ≤ n)%nat → Forall is_byte d → Forall (λ w, 0 ≤ w < 65536) (words d)); [|by eapply H].
  clear d. induction n as [|n IH]; intros [|a [|b d]] Hn Hd; simpl in *; try lia; try constructor.
  - apply Forall_cons in Hd as [Ha _]. unfold is_byte in Ha. lia.
  - constructor.
  - apply Forall_cons in Hd as [Ha Hd]. apply Forall_cons in Hd as [Hb Hd]. unfold is_byte in *. lia.
  - apply Forall_cons in Hd as [Ha Hd]. apply Forall_cons in Hd as [Hb Hd]. apply IH; [lia|done].
Qed.

(** The new checksum makes up for the new addresses. *)
Lemma adjusted_spec current old new protocol :
  0 ≤ current < 65536 → Forall is_byte old → Forall is_byte new →
  0 ≤ adjusted current old new protocol < 65536
  ∧ (adjusted current old new protocol + sumZ (words new)) mod 65535 = (current + sumZ (words old)) mod 65535.
Proof.
  intros Hc Ho Hn. unfold adjusted. rewrite (complement current) by done. rewrite sumZ_complement by by apply words_range.
  pose proof (checksum_range new Hn) as Hsn.
  pose proof (sumZ_complement _ (words_range old Ho)) as Hso.
  assert (Hpos : 0 ≤ 65535 * Z.of_nat (length (words old)) - sumZ (words old)).
  { rewrite <- Hso. clear - Ho. apply words_range in Ho. induction Ho as [|w l Hw _ IH]; simpl; [done|].
    rewrite complement by done. lia. }
  set (total := 65535 - current + _ + _). destruct (carry_spec total) as (H1 & H2 & _); [lia|].
  rewrite complement by done.
  assert (E : (65535 - carry total + sumZ (words new)) mod 65535 = (current + sumZ (words old)) mod 65535).
  { rewrite Zplus_mod, Zminus_mod, H2. rewrite <- Zminus_mod, <- Zplus_mod.
    replace (65535 - total + sumZ (words new))
      with (current + sumZ (words old) + (- Z.of_nat (length (words old))) * 65535) by lia.
    by rewrite Z.mod_add. }
  destruct (65535 - carry total =? 0) eqn:Ez; [|split; [lia|done]].
  apply Z.eqb_eq in Ez. rewrite Ez in E. split; [destruct (protocol =? 17); lia|].
  rewrite <- E. destruct (protocol =? 17); [|done].
  replace (65535 + sumZ (words new)) with (0 + sumZ (words new) + 1 * 65535) by lia. by rewrite Z.mod_add.
Qed.

(** ** What a valid packet is *)

Definition header_valid (p : bytes) : Prop :=
  carry (sumZ (words (slice p 14 (14 + header_size p)))) = 65535.

(** The sum of TCP and UDP: pseudo-header, then the segment. *)
Definition transport_sum (p : bytes) : Z :=
  sumZ (words (slice p 26 34)) + u8 p 23 + Z.of_nat (packet_size p - (14 + header_size p))
  + sumZ (words (drop (14 + header_size p) p)).
Definition transport_valid (p : bytes) : Prop := carry (transport_sum p) = 65535.

(** The first fragment of a TCP segment, or of a UDP datagram with a checksum *)
Definition checksummed (p : bytes) : bool :=
  (Z.land (u16 p 20) 8191 =? 0) && ((u8 p 23 =? 6) || (u8 p 23 =? 17))
  && (negb (u16 p (checksum_at p) =? 0) || (u8 p 23 =? 6)).

Lemma u16_splice_out p i new j : (i + length new ≤ length p)%nat →
  (S j < i ∨ i + length new ≤ j)%nat → u16 (splice p i new) j = u16 p j.
Proof. intros H Hj. unfold u16. by rewrite !u8_splice_out by lia. Qed.

Section readdressed.
  Context (f source destination : bytes) (h : nat).
  Context (Hf : Forall is_byte f) (Hs : Forall is_byte source) (Hd : Forall is_byte destination).
  Context (Hsl : length source = 4%nat) (Hdl : length destination = 4%nat).
  Context (Hlen : (34 ≤ length f)%nat) (Hh : (20 ≤ h)%nat) (Hhl : (14 + h ≤ length f)%nat).

  (** The packet before its header checksum is written *)
Let unsummed : bytes := splice (splice (splice f 0 (GUEST_MAC ++ GATEWAY_MAC)) 26 (source ++ destination)) 24 [0; 0].
Let sum : Z := checksum (slice unsummed 14 (14 + h)).

Lemma readdress_eq : readdress f h source destination = splice unsummed 24 (be16 sum).
  Proof. reflexivity. Qed.

Lemma macs_length : length (GUEST_MAC ++ GATEWAY_MAC) = 12%nat.
  Proof. done. Qed.

Lemma addresses_length : length (source ++ destination) = 8%nat.
  Proof. rewrite length_app. lia. Qed.

Lemma length_unsummed : length unsummed = length f.
  Proof.
    pose proof addresses_length. pose proof macs_length.
    unfold unsummed. rewrite !length_splice; rewrite ?length_splice; rewrite ?length_splice; simpl length in *; lia.
  Qed.

Lemma unsummed_bytes : Forall is_byte unsummed.
  Proof.
    unfold unsummed. repeat apply splice_bytes; [done|..|by apply Forall_app|];
      repeat constructor; unfold is_byte; lia.
  Qed.

Lemma sum_range : 0 ≤ sum < 65536 ∧ (sum + sumZ (words (slice unsummed 14 (14 + h)))) mod 65535 = 0.
  Proof.
    unfold sum, checksum. pose proof (checksum_range _ (slice_bytes unsummed 14 (14 + h) unsummed_bytes)) as Hp.
    set (S0 := sumZ _) in *. destruct (carry_spec S0 Hp) as (H1 & H2 & _). rewrite complement by done.
    split; [lia|]. rewrite Zplus_mod, Zminus_mod, H2, <- Zminus_mod, <- Zplus_mod.
    by replace (65535 - S0 + S0) with (1 * 65535) by lia.
  Qed.

Lemma length_readdress : length (readdress f h source destination) = length f.
  Proof.
    rewrite readdress_eq, length_splice, length_unsummed; [done|]. rewrite length_unsummed. simpl. lia.
  Qed.

Lemma readdress_bytes : Forall is_byte (readdress f h source destination).
  Proof.
    rewrite readdress_eq. apply splice_bytes; [apply unsummed_bytes|]. apply be16_bytes, sum_range.
  Qed.

Lemma readdress_lookup i : (14 ≤ i)%nat → (i < 24 ∨ 34 ≤ i)%nat →
    readdress f h source destination !! i = f !! i.
  Proof.
    intros Hi Hi'. pose proof addresses_length. pose proof macs_length. rewrite readdress_eq.
    rewrite lookup_splice_out; [|rewrite length_unsummed; simpl; lia|simpl; lia].
    unfold unsummed. rewrite !lookup_splice_out; rewrite ?length_splice; rewrite ?length_splice;
      simpl length in *; try done; try lia.
  Qed.

Lemma readdress_u8 i : (14 ≤ i)%nat → (i < 24 ∨ 34 ≤ i)%nat →
    u8 (readdress f h source destination) i = u8 f i.
  Proof. intros. unfold u8. by rewrite readdress_lookup. Qed.

Lemma readdress_addresses : slice (readdress f h source destination) 26 34 = source ++ destination.
  Proof.
    pose proof addresses_length as Ha. pose proof macs_length as Hm. rewrite readdress_eq.
    rewrite slice_splice_out; [|rewrite length_unsummed; simpl; lia|simpl; lia]. unfold unsummed.
    rewrite slice_splice_out; [|rewrite !length_splice; rewrite ?length_splice; simpl length in *; lia|simpl; lia].
    replace 34%nat with (26 + length (source ++ destination))%nat by lia.
    apply slice_splice_in. rewrite length_splice; lia.
  Qed.

Lemma readdress_macs : slice (readdress f h source destination) 0 14 = GUEST_MAC ++ GATEWAY_MAC ++ slice f 12 14.
  Proof.
    pose proof addresses_length as Ha. pose proof macs_length as Hm. rewrite readdress_eq.
    rewrite slice_splice_out; [|rewrite length_unsummed; simpl; lia|simpl; lia]. unfold unsummed.
    do 2 (rewrite slice_splice_out; [|rewrite !length_splice; rewrite ?length_splice; simpl length in *; lia|simpl; lia]).
    destruct f as [|b0 [|b1 [|b2 [|b3 [|b4 [|b5 [|b6 [|b7 [|b8 [|b9 [|b10 [|b11 [|b12 [|b13 g]]]]]]]]]]]]]];
      simpl in Hlen; try lia. reflexivity.
  Qed.

Lemma readdress_header : 0 < u8 f 14 →
    carry (sumZ (words (slice (readdress f h source destination) 14 (14 + h)))) = 65535.
  Proof.
    intros Hv. destruct sum_range as [Hr Hm]. rewrite readdress_eq.
    rewrite slice_splice; [|lia|simpl; lia|rewrite length_unsummed; lia].
    assert (Hsb : Forall is_byte (slice unsummed 14 (14 + h))) by apply slice_bytes, unsummed_bytes.
    assert (Hsum : sumZ (words (splice (slice unsummed 14 (14 + h)) (24 - 14) (be16 sum)))
                   = sumZ (words (slice unsummed 14 (14 + h))) + sum).
    { rewrite sum_splice; [|done|rewrite length_slice, length_unsummed; lia].
      unfold u16. rewrite !u8_slice by lia. unfold unsummed, u8.
      rewrite !lookup_splice_in; [simpl; lia|..];
        rewrite ?length_splice; rewrite ?length_splice; simpl length; rewrite ?addresses_length; lia. }
    rewrite carry_full; [rewrite Hsum, Z.add_comm; exact Hm|].
    assert (Hb : Forall is_byte (splice (slice unsummed 14 (14 + h)) (24 - 14) (be16 sum)))
      by (apply splice_bytes; [done|by apply be16_bytes]).
    assert (H0 : u8 (splice (slice unsummed 14 (14 + h)) (24 - 14) (be16 sum)) 0 = u8 f 14).
    { rewrite u8_splice_out; [|rewrite length_slice, length_unsummed; simpl; lia|lia].
      rewrite u8_slice by lia. rewrite <- (u8_splice_out unsummed 24 (be16 sum)) by (rewrite ?length_unsummed; simpl; lia).
      rewrite <- readdress_eq. apply readdress_u8; lia. }
    rewrite <- H0 in Hv. clear - Hv Hb.
    revert Hv Hb. generalize (splice (slice unsummed 14 (14 + h)) (24 - 14) (be16 sum)). intros d Hv Hb.
    destruct d as [|a [|b l]]; unfold u8 in Hv; simpl in Hv; [lia|simpl; lia|].
    apply Forall_cons in Hb as [_ Hb]. apply Forall_cons in Hb as [Hbb Hb]. apply checksum_range in Hb.
    unfold is_byte in Hbb. simpl. lia.
  Qed.
End readdressed.

Section route.
  Context (frame source destination p : bytes).
  Context (Hb : Forall is_byte frame) (Hs : Forall is_byte source) (Hd : Forall is_byte destination).
  Context (Hsl : length source = 4%nat) (Hdl : length destination = 4%nat).

  (** The packet in its frame, and with its headers rewritten *)
Let f : bytes := take (packet_size frame) frame.
Let q : bytes := readdress f (header_size f) source destination.

Lemma packet_u8 i : (i < packet_size frame)%nat → u8 f i = u8 frame i.
  Proof. intros Hi. unfold u8, f. by rewrite lookup_take_lt. Qed.

Lemma route_inv : route frame source destination = Some p →
    ((34 ≤ length f)%nat ∧ (20 ≤ header_size f)%nat ∧ (14 + header_size f ≤ length f)%nat
     ∧ length f = packet_size f ∧ packet_size f = packet_size frame ∧ 0 < u8 f 14
     ∧ slice f 12 14 = [8; 0])
    ∧ (if checksummed q
       then (checksum_at q + 2 ≤ length q)%nat
            ∧ p = splice q (checksum_at q)
                    (be16 (adjusted (u16 q (checksum_at q)) (slice f 26 34) (source ++ destination) (u8 q 23)))
       else p = q).
  Proof.
    unfold route. destruct (_ || _ || _) eqn:E1; [done|]. destruct (_ || _ || _ || _) eqn:E2; [done|].
    apply orb_false_iff in E1 as [E1 Ev]. apply orb_false_iff in E1 as [El Et].
    apply orb_false_iff in E2 as [E2 Eg]. apply orb_false_iff in E2 as [E2 Ep]. apply orb_false_iff in E2 as [Eh Eph].
    bool_prop. fold f.
    assert (Hl : (34 ≤ packet_size frame)%nat) by lia.
    assert (Hlf : length f = packet_size frame) by (unfold f; rewrite length_take; lia).
    assert (H14 : u8 f 14 = u8 frame 14) by (apply packet_u8; lia).
    assert (Hh : header_size f = header_size frame) by (unfold header_size; by rewrite H14).
    assert (Hp : packet_size f = packet_size frame).
    { unfold packet_size at 1, u16. rewrite !packet_u8 by lia. done. }
    rewrite <- Hh. fold q. intros E. split.
    - rewrite Hh, Hp, Hlf, H14. split_and!; try done; try lia.
      + destruct (Z.leb_spec (u8 frame 14) 0) as [Hz|]; [|lia].
        pose proof (u8_byte frame 14 Hb) as Hu. unfold is_byte in Hu.
        assert (Hz0 : u8 frame 14 = 0) by lia. by rewrite Hz0 in Ev.
      + unfold slice, f in *. rewrite skipn_firstn_comm, take_take. rewrite <- Et. f_equal; lia.
    - unfold checksummed. destruct ((Z.land _ _ =? 0) && _); [|by injection E as <-]. cbn [andb].
      destruct (length q <? checksum_at q + 2)%nat eqn:F; [done|]. bool_prop.
      destruct (negb _ || _); injection E as <-; [split; [lia|done]|done].
  Qed.
End route.

(** Positions that the translation of the headers leaves alone *)
Definition kept (i : nat) : Prop := (14 ≤ i)%nat ∧ (i < 24 ∨ 34 ≤ i)%nat.

Lemma kept_u16 f g i : (∀ i, kept i → u8 g i = u8 f i) → kept i → kept (S i) → u16 g i = u16 f i.
Proof. intros H Hi Hi'. unfold u16. by rewrite !H. Qed.

Lemma kept_sizes f g : (∀ i, kept i → u8 g i = u8 f i) → (20 ≤ header_size f)%nat →
  header_size g = header_size f ∧ packet_size g = packet_size f ∧ checksum_at g = checksum_at f
  ∧ checksummed g = checksummed f ∧ u8 g 23 = u8 f 23
  ∧ u16 g (checksum_at f) = u16 f (checksum_at f).
Proof.
  intros H Hh.
  assert (H14 : u8 g 14 = u8 f 14) by (apply H; split; lia).
  assert (H23 : u8 g 23 = u8 f 23) by (apply H; split; lia).
  assert (Hhs : header_size g = header_size f) by (unfold header_size; by rewrite H14).
  assert (H16 : u16 g 16 = u16 f 16) by (apply kept_u16; [done|split; lia..]).
  assert (H20 : u16 g 20 = u16 f 20) by (apply kept_u16; [done|split; lia..]).
  assert (Hc : checksum_at g = checksum_at f) by (unfold checksum_at; by rewrite Hhs, H23).
  assert (Hu : u16 g (checksum_at f) = u16 f (checksum_at f)).
  { apply kept_u16; [done|..]; unfold checksum_at, kept; destruct (u8 f 23 =? 6)%Z; lia. }
  split_and!; try done; [unfold packet_size; by rewrite H16|].
  unfold checksummed. by rewrite Hc, Hu, H20, H23.
Qed.

Lemma transport_positive f : Forall is_byte f → checksummed f = true → 0 < transport_sum f.
Proof.
  intros Hb H. unfold transport_sum.
  pose proof (checksum_range _ (slice_bytes f 26 34 Hb)).
  pose proof (checksum_range _ (Forall_drop _ (14 + header_size f) f Hb)).
  unfold checksummed in H. bool_prop. or_cases; lia.
Qed.

(** Only the sums of two valid packets matter. *)
Lemma transport_valid_mod f g : Forall is_byte f → Forall is_byte g →
  checksummed f = true → 0 < transport_sum g →
  transport_sum g mod 65535 = transport_sum f mod 65535 → transport_valid g ↔ transport_valid f.
Proof.
  intros Hf Hg Hc Hp E. unfold transport_valid.
  rewrite !carry_full by (try done; by apply transport_positive). by rewrite E.
Qed.

Section summed.
  Context (f source destination : bytes).
  Context (Hf : Forall is_byte f) (Hs : Forall is_byte source) (Hd : Forall is_byte destination).
  Context (Hsl : length source = 4%nat) (Hdl : length destination = 4%nat).
  Context (Hl : (34 ≤ length f)%nat) (Hh : (20 ≤ header_size f)%nat) (Hhl : (14 + header_size f ≤ length f)%nat).
  Context (Ho : (checksum_at f + 2 ≤ length f)%nat) (Hc : checksummed f = true).

Let q : bytes := readdress f (header_size f) source destination.
Let a : Z := adjusted (u16 f (checksum_at f)) (slice f 26 34) (source ++ destination) (u8 f 23).
Let p : bytes := splice q (checksum_at f) (be16 a).

Lemma checksum_at_bound : (checksum_at f = 14 + header_size f + 16 ∨ checksum_at f = 14 + header_size f + 6)%nat.
  Proof. unfold checksum_at. destruct (u8 f 23 =? 6)%Z; lia. Qed.

Lemma header_even : Nat.even (checksum_at f - (14 + header_size f)) = true.
  Proof.
    destruct checksum_at_bound as [E|E]; rewrite E;
      match goal with |- Nat.even ?n = true => match n with (?x + ?k - ?x)%nat => replace n with k by lia end end; done.
  Qed.

Lemma length_q : length q = length f.
  Proof. by apply length_readdress. Qed.

Lemma q_kept i : kept i → u8 q i = u8 f i.
  Proof. intros [Hi Hi']. by apply readdress_u8. Qed.

Lemma a_range : 0 ≤ a < 65536 ∧ (a + sumZ (words (source ++ destination))) mod 65535
      = (u16 f (checksum_at f) + sumZ (words (slice f 26 34))) mod 65535.
  Proof. apply adjusted_spec; [by apply u16_bound|by apply slice_bytes|by apply Forall_app]. Qed.

Lemma p_kept i : (14 ≤ i < 24)%nat → u8 p i = u8 f i.
  Proof.
    intros Hi. pose proof checksum_at_bound. unfold p. rewrite u8_splice_out.
    2: { rewrite length_q. change (length (be16 a)) with 2%nat. lia. }
    2: lia.
    apply q_kept. split; lia.
  Qed.

Lemma p_bytes : Forall is_byte p.
  Proof. apply splice_bytes; [by apply readdress_bytes|]. by apply be16_bytes, a_range. Qed.

  (** The new sum: the new addresses, and the new checksum for the old one. *)
Lemma transport_sum_p :
    transport_sum p = sumZ (words (source ++ destination)) + (transport_sum f - sumZ (words (slice f 26 34)))
                      - u16 f (checksum_at f) + a.
  Proof.
    pose proof checksum_at_bound as Hcb. pose proof length_q as Hlq. unfold transport_sum.
    assert (Hhp : header_size p = header_size f) by (unfold header_size; by rewrite p_kept by lia).
    assert (Hpp : packet_size p = packet_size f) by (unfold packet_size, u16; by rewrite !p_kept by lia).
    rewrite Hhp, Hpp, (p_kept 23) by lia.
    assert (Ha : slice p 26 34 = source ++ destination).
    { unfold p. rewrite slice_splice_out; [by apply readdress_addresses|rewrite Hlq; change (length (be16 a)) with 2%nat; lia|lia]. }
    assert (Hdrop : drop (14 + header_size f) q = drop (14 + header_size f) f).
    { apply list_eq. intros i. rewrite !lookup_drop. apply readdress_lookup; done || lia. }
    assert (Hsum : sumZ (words (drop (14 + header_size f) p))
      = sumZ (words (drop (14 + header_size f) f)) - u16 f (checksum_at f) + a).
    { unfold p. rewrite drop_splice; [|lia|rewrite Hlq; change (length (be16 a)) with 2%nat; lia]. rewrite Hdrop, sum_splice.
      - do 2 f_equal. unfold u16, u8. rewrite !lookup_drop. repeat f_equal; lia.
      - exact header_even.
      - rewrite length_drop. lia. }
    rewrite Ha, Hsum. lia.
  Qed.

Lemma transport_p : transport_valid p ↔ transport_valid f.
  Proof.
    pose proof transport_sum_p as E. destruct a_range as [Har Ham].
    apply transport_valid_mod; [done|exact p_bytes|done|..].
    - pose proof (checksum_range _ (slice_bytes p 26 34 p_bytes)).
      pose proof (checksum_range _ (Forall_drop _ (14 + header_size p) p p_bytes)).
      unfold transport_sum. rewrite (p_kept 23) by lia. unfold checksummed in Hc. bool_prop. or_cases; lia.
    - rewrite E.
      replace (sumZ (words (source ++ destination)) + (transport_sum f - sumZ (words (slice f 26 34))) -
                 u16 f (checksum_at f) + a)
        with (a + sumZ (words (source ++ destination)) + (transport_sum f - sumZ (words (slice f 26 34)) - u16 f (checksum_at f))) by lia.
      rewrite Zplus_mod, Ham, <- Zplus_mod. f_equal. lia.
  Qed.
End summed.

(** C20: A frame between two members of a service network arrives from the address
    of its sender at the guest address of the receiver, with a valid IP header. A
    transport checksum is valid after the translation exactly when it was before,
    and no other byte changes. *)
Theorem route_translates frame source destination p :
  Forall is_byte frame → Forall is_byte source → Forall is_byte destination →
  length source = 4%nat → length destination = 4%nat →
  route frame source destination = Some p →
  let f := take (packet_size frame) frame in
  length p = length f ∧ slice p 0 14 = GUEST_MAC ++ GATEWAY_MAC ++ [8; 0]
  ∧ slice p 26 34 = source ++ destination ∧ header_valid p
  ∧ (checksummed f = true → transport_valid p ↔ transport_valid f)
  ∧ (∀ i, (14 ≤ i)%nat → (i < 24 ∨ 34 ≤ i)%nat →
       (checksummed f = true → i < checksum_at f ∨ checksum_at f + 2 ≤ i)%nat → p !! i = f !! i).
Proof.
  intros Hb Hs Hd Hsl Hdl Er f.
  destruct (route_inv frame source destination p Hb Hsl Hdl Er) as [(Hl & Hh & Hhl & Hpl & _ & Hv & Ht) E].
  fold f in Hl, Hh, Hhl, Hpl, Hv, Ht, E.
  assert (Hfb : Forall is_byte f) by (by apply Forall_take). clearbody f. clear frame Hb Er.
  assert (Hk : ∀ i, kept i → u8 (readdress f (header_size f) source destination) i = u8 f i).
  { intros i [Hi Hi']. by apply readdress_u8. }
  destruct (kept_sizes f _ Hk Hh) as (Hqh & _ & Hqc & Hqk & Hq23 & Hqu).
  assert (Hheader : ∀ g, u8 g 14 = u8 f 14 →
    slice g 14 (14 + header_size f) = slice (readdress f (header_size f) source destination) 14 (14 + header_size f) →
    header_valid g).
  { intros g Hg Hgs. unfold header_valid.
    assert (Hhg : header_size g = header_size f) by (unfold header_size; by rewrite Hg).
    rewrite Hhg, Hgs. by apply readdress_header. }
  rewrite Hqk, Hqc, Hqu, Hq23 in E. destruct (checksummed f) eqn:Ec.
  - destruct E as [Ho ->]. pose proof (length_readdress f source destination (header_size f)) as Hlq.
    rewrite Hlq in Ho by done.
    assert (Hcb : (14 + header_size f + 6 ≤ checksum_at f)%nat)
      by (unfold checksum_at; destruct (u8 f 23 =? 6)%Z; lia).
    set (a := adjusted _ _ _ _).
    assert (Hn : (checksum_at f + length (be16 a) ≤ length (readdress f (header_size f) source destination))%nat).
    { rewrite Hlq by done. change (length (be16 a)) with 2%nat. lia. }
    split_and!.
    + by rewrite length_splice, Hlq.
    + rewrite slice_splice_out by (done || lia). rewrite readdress_macs by done. by rewrite Ht.
    + rewrite slice_splice_out by (done || lia). by apply readdress_addresses.
    + apply Hheader.
      * rewrite u8_splice_out by (done || lia). apply Hk. split; lia.
      * apply slice_splice_out; [done|lia].
    + intros _. by apply transport_p.
    + intros i Hi Hi' Hc. specialize (Hc eq_refl). rewrite lookup_splice_out by done. by apply readdress_lookup.
  - subst p. split_and!.
    + by apply length_readdress.
    + rewrite readdress_macs by done. by rewrite Ht.
    + by apply readdress_addresses.
    + apply Hheader; [apply Hk; split; lia|done].
    + done.
    + intros i Hi Hi' _. by apply readdress_lookup.
Qed.

(** A UDP datagram of four bytes from a guest to 10.231.0.7, and its translation *)
Definition udp_frame : bytes :=
  GATEWAY_MAC ++ GUEST_MAC ++ [8; 0] ++
  [69; 0; 0; 32; 0; 1; 64; 0; 64; 17; 35; 208; 10; 0; 2; 15; 10; 231; 0; 7] ++
  [31; 144; 0; 53; 0; 12; 197; 14; 1; 2; 3; 4].
Definition udp_routed : bytes :=
  default [] (route udp_frame (packed (quad 10 231 0 2)) GUEST).

(** The hypotheses hold of the datagram. *)
Lemma route_translates_witness :
  header_valid udp_routed ∧ (transport_valid udp_routed ↔ transport_valid udp_frame)
  ∧ slice udp_routed 26 34 = [10; 231; 0; 2; 10; 0; 2; 15].
Proof.
  assert (Hb : Forall is_byte udp_frame) by (repeat constructor; discriminate).
  assert (Hs : Forall is_byte (packed (quad 10 231 0 2))) by (repeat constructor; discriminate).
  assert (Hd : Forall is_byte GUEST) by (repeat constructor; discriminate).
  pose proof (route_translates udp_frame (packed (quad 10 231 0 2)) GUEST udp_routed Hb Hs Hd
                eq_refl eq_refl ltac:(vm_compute; reflexivity)) as (_ & _ & Ha & Hh & Ht & _).
  split; [exact Hh|]. split; [|exact Ha].
  assert (Ef : take (packet_size udp_frame) udp_frame = udp_frame) by (vm_compute; reflexivity).
  rewrite Ef in Ht. apply Ht. vm_compute. reflexivity.
Defined.

Example udp_frame_valid :
  header_valid udp_frame ∧ transport_valid udp_frame ∧ transport_valid udp_routed.
Proof. vm_compute. done. Qed.
