(* ===== verification/Hub.v ===== *)
(** The router of service networks on a worker ([scripts/service_network.py],
    [Hub]): who is a member of which network, under which aliases, and where each
    frame goes. An address is its integer (packed bytes compare in the same
    order); a socket is its resolved path. Opening and sending on sockets is
    outside the model: [receive] says which frame is sent to which socket. *)

From S2P Require Import Prelude OrderedDict Ipv4 Mesh.

#[local] Open Scope Z_scope.

(** What a client publishes about a member *)
Record entry := Entry {
  en_identity : string; en_address : string; en_socket : string;
  en_networks : list string; en_aliases : list string }.

Record route_to := RouteTo { rt_path : string; rt_networks : gset string }.
Record member := Member { mb_group : string; mb_address : Z; mb_networks : gset string }.

Record hub := MkHub {
  h_members : gmap string member;
  h_groups : gmap string (gmap Z route_to);
  h_names : gmap string (gmap string (gmap Z (gset string)));
  h_aliases : gmap string (list string);
  h_origins : gmap string string }.

#[export] Instance hub_updatable : Updatable hub :=
  λ h, MkHub (h_members h) (h_groups h) (h_names h) (h_aliases h) (h_origins h).

Definition empty_hub : hub := MkHub ∅ ∅ ∅ ∅ ∅.

Definition ipv4 (s : string) : res Z :=
  match ip_of_string s with Some a => Ok a | None => raise ValueError "IPv4 address" end.

Definition duplicate {A} : res A := raise ValueError "duplicate service network member".

Section hub.
  (** [str(Path(p).resolve())], as the file system answers it *)
  Context (resolve : string → string).

  (** One entry of the loop in [register]: the routes gathered so far *)
Definition register_entry (h : hub) (routes : gmap Z route_to) (e : entry) : res (gmap Z route_to) :=
    address ← ipv4 (en_address e);
    let path := resolve (en_socket e) in
    if bool_decide (is_Some (h_members h !! path))
       || bool_decide (path ∈ (λ r : Z * route_to, rt_path r.2) <$> map_to_list routes)
       || bool_decide (is_Some (routes !! address)) then duplicate
    else Ok (<[address := RouteTo path (list_to_set (en_networks e))]> routes).

Definition register (h : hub) (identity : string) (members : list entry) : res hub :=
    _ ← raise_if (bool_decide (is_Some (h_groups h !! identity))) ValueError "service network is already registered";
    routes ← res_fold (register_entry h) ∅ members;
    Ok (h <| h_groups := <[identity := routes]> (h_groups h) |>
          <| h_names := <[identity := ∅]> (h_names h) |>
          <| h_members := map_fold (λ address r, <[rt_path r := Member identity address (rt_networks r)]>)
                            (h_members h) routes |>).

  (** [any(networks.intersection(other) for other in names.get(alias, {}).values())] *)
Definition alias_taken (names : gmap string (gmap Z (gset string))) (networks : gset string) (alias : string) : bool :=
    existsb (λ r : Z * gset string, negb (bool_decide (networks ∩ r.2 = ∅)))
      (map_to_list (default ∅ (names !! alias))).

Definition add_alias (address : Z) (networks : gset string)
      (names : gmap string (gmap Z (gset string))) (alias : string) : gmap string (gmap Z (gset string)) :=
    <[alias := <[address := networks]> (default ∅ (names !! alias))]> names.

Definition add (h : hub) (identity : string) (e : entry) : res hub :=
    address ← ipv4 (en_address e);
    let path := resolve (en_socket e) in
    let networks : gset string := list_to_set (en_networks e) in
    let aliases := en_aliases e in
    match h_groups h !! identity, h_names h !! identity with
    | Some routes, Some names =>
        if bool_decide (is_Some (h_members h !! path)) || bool_decide (is_Some (routes !! address)) then duplicate
        else
          _ ← raise_if (existsb (alias_taken names networks) aliases) ValueError
                "service alias is already used on this named network: ";
          Ok (h <| h_groups := <[identity := <[address := RouteTo path networks]> routes]> (h_groups h) |>
                <| h_members := <[path := Member identity address networks]> (h_members h) |>
                <| h_aliases := <[path := aliases]> (h_aliases h) |>
                <| h_names := <[identity := foldl (add_alias address networks) names aliases]> (h_names h) |>)
    | _, _ => raise KeyError ""
    end.

  (** [origins = {key: value for key, value in origins.items() if value != path}] *)
Definition forget_origins (path : string) (origins : gmap string string) : gmap string string :=
    filter (λ o, o.2 ≠ path) origins.

Definition remove_alias (address : Z) (names : gmap string (gmap Z (gset string))) (alias : string) :
      res (gmap string (gmap Z (gset string))) :=
    match names !! alias with
    | None => raise KeyError ""
    | Some entries =>
        let entries := delete address entries in
        if bool_decide (entries = ∅) then Ok (delete alias names) else Ok (<[alias := entries]> names)
    end.

  (** What is left when an alias raises [KeyError] is not described; [remove_ok]
      shows that none does. *)
Definition remove (h : hub) (identity address : string) : res hub :=
    address ← ipv4 address;
    match h_groups h !! identity with
    | None => Ok h
    | Some routes =>
        match routes !! address with
        | None => Ok h
        | Some r =>
            let path := rt_path r in
            let h := h <| h_groups := <[identity := delete address routes]> (h_groups h) |>
                       <| h_members := delete path (h_members h) |> in
            let aliases := default [] (h_aliases h !! path) in
            let h := h <| h_aliases := delete path (h_aliases h) |> in
            names ←
              match aliases with
              | [] => Ok (h_names h)
              | _ =>
                  match h_names h !! identity with
                  | None => raise KeyError ""
                  | Some names =>
                      names ← res_fold (remove_alias address) names aliases;
                      Ok (<[identity := names]> (h_names h))
                  end
              end;
            Ok (h <| h_names := names |> <| h_origins := forget_origins path (h_origins h) |>)
        end
    end.

Definition unregister (h : hub) (identity : string) : hub :=
    let paths := (λ r : Z * route_to, rt_path r.2) <$> map_to_list (default ∅ (h_groups h !! identity)) in
    h <| h_groups := delete identity (h_groups h) |>
      <| h_members := foldl (λ m path, delete path m) (h_members h) paths |>
      <| h_aliases := foldl (λ m path, delete path m) (h_aliases h) paths |>
      <| h_names := delete identity (h_names h) |>
      <| h_origins := ∅ |>.

  (** The member a datagram comes from, and what is remembered of its address *)
Definition sender (h : hub) (origin : string) : hub * option (string * member) :=
    let path := default origin (h_origins h !! origin) in
    match h_members h !! path with
    | Some m => (h, Some (path, m))
    | None =>
        if negb (bool_decide (origin = ""%string)) && bool_decide (h_origins h !! origin = None) then
          let path := resolve origin in
          match h_members h !! path with
          | Some m => (h <| h_origins := <[origin := path]> (forget_origins path (h_origins h)) |>, Some (path, m))
          | None => (h, None)
          end
        else (h, None)
    end.

  (** [VisibleNames.get] *)
Definition visible (h : hub) (m : member) (name : string) : option string :=
    let entries := default ∅ (default ∅ (h_names h !! mb_group m) !! name) in
    let matches := omap (λ r : Z * gset string,
      if bool_decide (mb_networks m ∩ r.2 = ∅) then None else Some r.1) (map_to_list entries) in
    match min_by Z.ltb matches with Some a => Some (dotted a) | None => None end.

  (** One turn of [run]: the frame that is sent and the socket it is sent to. *)
Definition receive (h : hub) (frame : bytes) (origin : string) : hub * res (option (string * bytes)) :=
    if (length frame <? 34)%nat then (h, Ok None)
    else
      let '(h, from) := sender h origin in
      (h, match from with
          | None => Ok None
          | Some (path, m) =>
              let routes := default ∅ (h_groups h !! mb_group m) in
              if bool_decide (take 6 frame = DNS_FORWARD) then
                let query := drop 6 frame in
                reply ← dns_reply query (visible h m);
                match routes !! mb_address m with
                | None => raise KeyError ""
                | Some back => Ok (Some (rt_path back, default frame reply))
                end
              else
                match routes !! ip_of_bytes (slice frame 30 34) with
                | None => Ok None
                | Some target =>
                    if bool_decide (mb_networks m ∩ rt_networks target = ∅) then Ok None
                    else
                      match route frame (packed (mb_address m)) GUEST with
                      | None => Ok None
                      | Some translated => Ok (Some (rt_path target, translated))
                      end
                end
          end).
End hub.

(** * Dotted addresses read back *)

Lemma split_chars_app c l r : c ∉ l → split_chars c (l ++ c :: r) = l :: split_chars c r.
Proof.
  induction l as [|x l IH]; simpl; intros Hc; [by rewrite bool_decide_eq_true_2|].
  apply not_elem_of_cons in Hc as [Hx Hc]. rewrite bool_decide_eq_false_2 by done. by rewrite IH.
Qed.

Lemma split_chars_nil c l : c ∉ l → split_chars c l = [l].
Proof.
  induction l as [|x l IH]; simpl; intros Hc; [done|].
  apply not_elem_of_cons in Hc as [Hx Hc]. rewrite bool_decide_eq_false_2 by done. by rewrite IH.
Qed.

Definition octet (b : Z) : list ascii := Json.int_chars b.

Lemma octets_read : ∀ b, is_byte b → parse_octet (of_chars (octet b)) = Some b ∧ ("."%char ∉ octet b).
Proof.
  assert (H : forallb (λ n, bool_decide (parse_octet (of_chars (octet (Z.of_nat n))) = Some (Z.of_nat n))
                            && bool_decide ("."%char ∉ octet (Z.of_nat n))) (seq 0 256) = true)
    by (vm_compute; reflexivity).
  intros b Hb. unfold is_byte in Hb. rewrite forallb_forall in H.
  specialize (H (Z.to_nat b)). rewrite Z2Nat.id in H by lia.
  assert (Hin : In (Z.to_nat b) (seq 0 256)) by (apply in_seq; lia).
  apply H in Hin. by bool_prop.
Qed.

Lemma packed_bytes a : Forall is_byte (packed a).
Proof.
  unfold packed. change 255 with (Z.ones 8). repeat constructor;
    rewrite Z.land_ones by lia; apply Z.mod_pos_bound; lia.
Qed.

Lemma chars_app s t : chars (s ++ t)%string = chars s ++ chars t.
Proof. induction s as [|c s IH]; simpl; [done|]. by rewrite IH. Qed.

Lemma ip_of_dotted a : 0 ≤ a < 2 ^ 32 → ip_of_string (dotted a) = Some a.
Proof.
  intros Ha. pose proof (packed_bytes a) as Hb. pose proof (ip_of_bytes_packed a Ha) as Hr.
  unfold dotted. destruct (packed a) as [|w [|x [|y [|z [|? ?]]]]] eqn:E; try discriminate E.
  rewrite !Forall_cons in Hb. destruct Hb as (Hw & Hx & Hy & Hz & _).
  destruct (octets_read w Hw) as [Pw Nw]. destruct (octets_read x Hx) as [Px Nx].
  destruct (octets_read y Hy) as [Py Ny]. destruct (octets_read z Hz) as [Pz Nz].
  unfold ip_of_string, str_split. unfold octet in *. cbn [map str_join].
  rewrite !chars_app, !String.list_ascii_of_string_of_list_ascii. cbn [String.list_ascii_of_string app].
  rewrite !split_chars_app by done. rewrite split_chars_nil by done. cbn [map].
  rewrite Pw, Px, Py, Pz. cbn [mbind option_bind]. rewrite <- Hr.
  unfold ip_of_bytes, u32, u16, u8. simpl. f_equal. lia.
Qed.

(** * The invariant *)

Definition route_of (h : hub) (g : string) (a : Z) : option route_to :=
  routes ← h_groups h !! g; routes !! a.
Definition name_of (h : hub) (g alias : string) (a : Z) : option (gset string) :=
  names ← h_names h !! g; entries ← names !! alias; entries !! a.

(** Members and routes are two views of one table, aliases are published by a
    member and shared by none that can see it, and remembered origins lead to
    members. *)
Record hub_ok (h : hub) : Prop := {
  ok_route g a r : route_of h g a = Some r →
    h_members h !! rt_path r = Some (Member g a (rt_networks r)) ∧ 0 ≤ a < 2 ^ 32;
  ok_member p m : h_members h !! p = Some m →
    route_of h (mb_group m) (mb_address m) = Some (RouteTo p (mb_networks m));
  ok_group g : is_Some (h_groups h !! g) ↔ is_Some (h_names h !! g);
  ok_name g alias a n : name_of h g alias a = Some n →
    ∃ r l, route_of h g a = Some r ∧ rt_networks r = n ∧ h_aliases h !! rt_path r = Some l ∧ alias ∈ l;
  ok_alias p l : h_aliases h !! p = Some l →
    NoDup l ∧ ∃ m, h_members h !! p = Some m
      ∧ ∀ alias, alias ∈ l → name_of h (mb_group m) alias (mb_address m) = Some (mb_networks m);
  ok_distinct g alias a b n m : name_of h g alias a = Some n → name_of h g alias b = Some m → a ≠ b → n ∩ m = ∅;
  ok_origin o p : h_origins h !! o = Some p → is_Some (h_members h !! p) }.

Lemma empty_hub_ok : hub_ok empty_hub.
Proof.
  split; unfold route_of, name_of; cbn; intros *; rewrite ?lookup_empty; cbn; naive_solver.
Qed.

Lemma ip_range s a : ip_of_string s = Some a → 0 ≤ a < 2 ^ 32.
Proof.
  assert (Ho : ∀ t n, parse_octet t = Some n → 0 ≤ n ≤ 255).
  { intros t n. unfold parse_octet. case_match; [done|]. intros F.
    match type of F with (if ?b then _ else _) = _ => destruct b; [done|] end.
    apply bind_Some in F as (k & Hk & F). destruct (k <=? 255) eqn:E; [|done]. injection F as <-. bool_prop.
    split; [|lia]. unfold digits_value in Hk. destruct (_ && _) eqn:G; [|done]. injection Hk as <-. bool_prop.
    match goal with F : forallb _ ?l = true |- _ => revert F; generalize l end. clear.
    enough (G : ∀ l acc, 0 ≤ acc → forallb is_digit l = true → 0 ≤ foldl (λ n c, n * 10 + (code c - 48)) acc l)
      by (intros; by apply G).
    induction l as [|c l IH]; intros acc Ha; simpl; [done|]. intros [Hc Hl]%andb_true_iff. apply IH; [|done].
    unfold is_digit in Hc. bool_prop. lia. }
  unfold ip_of_string. destruct (str_split _ _) as [|x [|y [|z [|w [|]]]]]; try done. intros H.
  repeat (apply bind_Some in H as (? & ?%Ho & H)). injection H as <-. lia.
Qed.

(** ** Names *)

Definition find_name (names : gmap string (gmap Z (gset string))) (alias : string) (a : Z) : option (gset string) :=
  entries ← names !! alias; entries !! a.

Lemma find_add_alias a n names x alias b :
  find_name (add_alias a n names x) alias b
  = if decide (alias = x ∧ b = a) then Some n else find_name names alias b.
Proof.
  unfold find_name, add_alias. destruct (decide (alias = x)) as [->|Hx].
  - rewrite lookup_insert_eq. cbn [mbind option_bind]. destruct (decide (b = a)) as [->|Hb].
    + rewrite lookup_insert_eq. by rewrite decide_True.
    + rewrite lookup_insert_ne by done. rewrite decide_False by tauto. by destruct (names !! x).
  - rewrite lookup_insert_ne by done. by rewrite decide_False by tauto.
Qed.

Lemma find_add_aliases a n names l alias b :
  find_name (foldl (add_alias a n) names l) alias b
  = if decide (alias ∈ l ∧ b = a) then Some n else find_name names alias b.
Proof.
  revert names. induction l as [|x l IH]; intros names; cbn [foldl].
  - rewrite decide_False; [done|]. by intros [?%not_elem_of_nil _].
  - rewrite IH, find_add_alias. repeat case_decide; try done; set_solver.
Qed.

Lemma alias_not_taken names n alias b m :
  alias_taken names n alias = false → find_name names alias b = Some m → n ∩ m = ∅.
Proof.
  unfold alias_taken, find_name. intros H E. apply bind_Some in E as (entries & Ee & E).
  rewrite Ee in H. simpl in H. apply elem_of_map_to_list in E.
  apply not_true_iff_false in H. rewrite existsb_exists in H.
  destruct (decide (n ∩ m = ∅)) as [|Hn]; [done|]. destruct H. exists (b, m). split; [by apply list_elem_of_In|].
  simpl. by rewrite bool_decide_eq_false_2.
Qed.

Lemma find_remove_alias a names x names' alias b : remove_alias a names x = Ok names' →
  find_name names' alias b = if decide (alias = x ∧ b = a) then None else find_name names alias b.
Proof.
  unfold remove_alias, find_name. destruct (names !! x) as [entries|] eqn:Ex; [|done].
  destruct (decide (alias = x)) as [->|Hx].
  - rewrite Ex. cbn [mbind option_bind]. case_bool_decide as He; intros [= <-].
    + rewrite lookup_delete_eq. cbn [mbind option_bind]. destruct (decide (b = a)) as [->|Hb].
      * by rewrite decide_True.
      * rewrite decide_False by tauto. rewrite <- (lookup_delete_ne entries a b) by done.
        by rewrite He, lookup_empty.
    + rewrite lookup_insert_eq. cbn [mbind option_bind]. destruct (decide (b = a)) as [->|Hb].
      * rewrite decide_True by done. by rewrite lookup_delete_eq.
      * rewrite decide_False by tauto. by rewrite lookup_delete_ne.
  - rewrite decide_False by tauto. case_bool_decide; intros [= <-].
    + by rewrite lookup_delete_ne by congruence.
    + by rewrite lookup_insert_ne by congruence.
Qed.

Lemma find_remove_aliases a names l :
  NoDup l → (∀ alias, alias ∈ l → is_Some (find_name names alias a)) →
  ∃ names', res_fold (remove_alias a) names l = Ok names'
    ∧ ∀ alias b, find_name names' alias b = if decide (alias ∈ l ∧ b = a) then None else find_name names alias b.
Proof.
  revert names. induction l as [|x l IH]; intros names Hl Hn; cbn [res_fold].
  - exists names. split; [done|]. intros alias b. rewrite decide_False; [done|]. by intros [?%not_elem_of_nil _].
  - apply NoDup_cons in Hl as [Hx Hl]. destruct (Hn x ltac:(by left)) as [n Ex].
    assert (Hr : ∃ names1, remove_alias a names x = Ok names1).
    { unfold find_name in Ex. apply bind_Some in Ex as (entries & Ex & _). unfold remove_alias. rewrite Ex.
      case_bool_decide; eauto. }
    destruct Hr as [names1 Hr]. rewrite Hr. cbn [mbind res_bind].
    destruct (IH names1 Hl) as (names' & -> & H').
    { intros alias Ha. rewrite (find_remove_alias _ _ _ _ _ _ Hr). rewrite decide_False by (intros [-> _]; done).
      apply Hn. by right. }
    exists names'. split; [done|]. intros alias b. rewrite H', (find_remove_alias _ _ _ _ _ _ Hr).
    repeat case_decide; try done; set_solver.
Qed.

(** ** Joining *)

Section preserved.
  Context (resolve : string → string).

Lemma add_inv h g e h' : add resolve h g e = Ok h' →
    ∃ a path networks, ip_of_string (en_address e) = Some a ∧ path = resolve (en_socket e)
    ∧ networks = list_to_set (en_networks e)
    ∧ is_Some (h_groups h !! g) ∧ route_of h g a = None ∧ h_members h !! path = None
    ∧ (∀ alias b m, alias ∈ en_aliases e → name_of h g alias b = Some m → networks ∩ m = ∅)
    ∧ (∀ g' b, route_of h' g' b = if decide (g' = g ∧ b = a) then Some (RouteTo path networks) else route_of h g' b)
    ∧ (∀ g' alias b, name_of h' g' alias b
         = if decide (g' = g ∧ alias ∈ en_aliases e ∧ b = a) then Some networks else name_of h g' alias b)
    ∧ h_members h' = <[path := Member g a networks]> (h_members h)
    ∧ h_aliases h' = <[path := en_aliases e]> (h_aliases h) ∧ h_origins h' = h_origins h
    ∧ (∀ g', is_Some (h_groups h' !! g') ↔ is_Some (h_groups h !! g'))
    ∧ (∀ g', is_Some (h_names h' !! g') ↔ is_Some (h_names h !! g')).
  Proof.
    unfold add, ipv4. destruct (ip_of_string (en_address e)) as [a|] eqn:Ea; [|done]. cbn [mbind res_bind].
    destruct (h_groups h !! g) as [routes|] eqn:Eg; [|done]. destruct (h_names h !! g) as [names|] eqn:En; [|done].
    destruct (_ || _) eqn:Ed; [done|]. apply orb_false_iff in Ed as [Ep Ert].
    unfold raise_if. destruct (existsb _ _) eqn:Et; [done|]. cbn [mbind res_bind]. intros [= <-].
    apply bool_decide_eq_false, eq_None_not_Some in Ep, Ert.
    exists a, (resolve (en_socket e)), (list_to_set (en_networks e)).
    assert (Hr : ∀ g' b, route_of h g' b = if decide (g' = g) then routes !! b else route_of h g' b).
    { intros g' b. case_decide; [|done]. subst g'. unfold route_of. by rewrite Eg. }
    assert (Hn : ∀ g' alias b, name_of h g' alias b = if decide (g' = g) then find_name names alias b else name_of h g' alias b).
    { intros g' alias b. case_decide; [|done]. subst g'. unfold name_of. by rewrite En. }
    split_and!; try done; simpl.
    - rewrite Hr. by rewrite decide_True.
    - intros alias b m Hal. rewrite Hn, decide_True by done. apply alias_not_taken.
      apply not_true_iff_false in Et. rewrite existsb_exists in Et. apply not_true_iff_false. intros F.
      apply Et. exists alias. split; [by apply list_elem_of_In|done].
    - intros g' b. unfold route_of at 1. simpl. destruct (decide (g' = g)) as [->|Hg].
      + rewrite lookup_insert_eq. cbn [mbind option_bind]. destruct (decide (b = a)) as [->|Hb].
        * rewrite lookup_insert_eq. by rewrite decide_True.
        * rewrite lookup_insert_ne by done. rewrite decide_False by tauto. rewrite Hr. by rewrite decide_True.
      + rewrite lookup_insert_ne by done. by rewrite decide_False by tauto.
    - intros g' alias b. unfold name_of at 1. simpl. destruct (decide (g' = g)) as [->|Hg].
      + rewrite lookup_insert_eq. cbn [mbind option_bind]. change (_ ≫= _) with
          (find_name (foldl (add_alias a (list_to_set (en_networks e))) names (en_aliases e)) alias b).
        rewrite find_add_aliases, Hn. rewrite (decide_True (P := g = g)) by done.
        repeat case_decide; try done; tauto.
      + rewrite lookup_insert_ne by done. by rewrite decide_False by tauto.
    - intros g'. destruct (decide (g' = g)) as [->|Hg]; [|by rewrite lookup_insert_ne].
      rewrite lookup_insert_eq, Eg. split; eauto.
    - intros g'. destruct (decide (g' = g)) as [->|Hg]; [|by rewrite lookup_insert_ne].
      rewrite lookup_insert_eq, En. split; eauto.
  Qed.

Lemma add_ok h g e h' : hub_ok h → NoDup (en_aliases e) → add resolve h g e = Ok h' → hub_ok h'.
  Proof.
    intros Hok Hnd (a & path & n & Ea & _ & _ & Hg & Hfree & Hpath & Hdis & Hr & Hn & Hm & Hal & Ho & Hgs & Hns)%add_inv.
    split.
    - intros g' b r. rewrite Hr, Hm. case_decide as D.
      + intros [= <-]. destruct D as [-> ->]. simpl. rewrite lookup_insert_eq. split; [done|]. by eapply ip_range.
      + intros E. destruct (ok_route h Hok _ _ _ E) as [Em Hb]. rewrite lookup_insert_ne by congruence. done.
    - intros p m. rewrite Hm, Hr. intros [[<- <-]|[Hp E]]%lookup_insert_Some.
      + simpl. by rewrite decide_True.
      + pose proof (ok_member h Hok _ _ E) as Er. rewrite decide_False; [done|]. intros [<- <-].
        rewrite Hfree in Er. done.
    - intros g'. rewrite Hgs, Hns. apply (ok_group h Hok).
    - intros g' alias b m. rewrite Hn, Hr, Hal. case_decide as D.
      + intros [= <-]. destruct D as (-> & Hin & ->). exists (RouteTo path n), (en_aliases e).
        rewrite decide_True by done. simpl. by rewrite lookup_insert_eq.
      + intros E. destruct (ok_name h Hok _ _ _ _ E) as (r & l & Er & En & El & Hin). exists r, l.
        destruct (ok_route h Hok _ _ _ Er) as [Em _].
        rewrite lookup_insert_ne by congruence. rewrite decide_False; [done|]. intros [-> ->]. congruence.
    - intros p l. rewrite Hal, Hm. intros [[<- <-]|[Hp E]]%lookup_insert_Some.
      + split; [done|]. exists (Member g a n). rewrite lookup_insert_eq. split; [done|]. intros alias Hin. simpl.
        rewrite Hn. by rewrite decide_True.
      + destruct (ok_alias h Hok _ _ E) as (Hl & m & Em & Hall). split; [done|]. exists m.
        rewrite lookup_insert_ne by done. split; [done|]. intros alias Hin. rewrite Hn. rewrite decide_False; [by apply Hall|].
        intros (Eg & _ & Eb). pose proof (ok_member h Hok _ _ Em) as Er. rewrite Eg, Eb, Hfree in Er. done.
    - intros g' alias b c m m'. rewrite !Hn. repeat case_decide; intros E E' Hbc; simplify_eq.
      + destruct_and?. simplify_eq.
      + destruct_and?. simplify_eq. by eapply Hdis.
      + destruct_and?. simplify_eq. rewrite (intersection_comm_L m). by eapply Hdis.
      + by eapply (ok_distinct h Hok).
    - intros o p. rewrite Ho, Hm. intros E. destruct (ok_origin h Hok _ _ E) as [m Em].
      rewrite lookup_insert_ne by congruence. eauto.
  Qed.

  (** ** Leaving *)

Lemma forget_origins_lookup p os o q :
    forget_origins p os !! o = Some q ↔ os !! o = Some q ∧ q ≠ p.
  Proof. unfold forget_origins. by rewrite map_lookup_filter_Some. Qed.

Lemma insert_domain {A} (m : gmap string A) g x y g' :
    m !! g = Some x → is_Some (<[g := y]> m !! g') ↔ is_Some (m !! g').
  Proof.
    intros Ex. destruct (decide (g' = g)) as [->|Hg]; [|by rewrite lookup_insert_ne].
    rewrite lookup_insert_eq, Ex. split; eauto.
  Qed.

  (** The aliases of a member are the names it is known by. *)
Definition aliases_of (h : hub) (r : route_to) : list string := default [] (h_aliases h !! rt_path r).

Lemma published h g a r : hub_ok h → route_of h g a = Some r →
    ∃ names, h_names h !! g = Some names ∧ NoDup (aliases_of h r)
    ∧ (∀ alias, alias ∈ aliases_of h r → is_Some (find_name names alias a))
    ∧ (∀ alias n, name_of h g alias a = Some n → alias ∈ aliases_of h r).
  Proof.
    intros Hok Er. destruct (ok_route h Hok _ _ _ Er) as [Em _].
    destruct (proj1 (ok_group h Hok g)) as [names En].
    { unfold route_of in Er. apply bind_Some in Er as (routes & Eg & _). eauto. }
    exists names. split; [done|].
    assert (Hl : NoDup (aliases_of h r) ∧ ∀ alias, alias ∈ aliases_of h r → is_Some (find_name names alias a)).
    { unfold aliases_of. destruct (h_aliases h !! rt_path r) as [l|] eqn:El;
        [|split; [apply NoDup_nil_2|by intros ? ?%not_elem_of_nil]].
      destruct (ok_alias h Hok _ _ El) as (Hnd & m & Em' & Hall). split; [done|]. intros alias Hin.
      specialize (Hall alias Hin). rewrite Em in Em'. injection Em' as <-.
      unfold name_of in Hall. simpl in Hall. rewrite En in Hall. by exists (rt_networks r). }
    destruct Hl as [Hnd Hl]. split_and!; [done|done|]. intros alias n E.
    destruct (ok_name h Hok _ _ _ _ E) as (r' & l' & Er' & _ & El & Hin).
    rewrite Er in Er'. injection Er' as <-. unfold aliases_of. by rewrite El.
  Qed.

Lemma route_delete h g routes a g' b : h_groups h !! g = Some routes →
    (routes ← <[g := delete a routes]> (h_groups h) !! g'; routes !! b)
    = if decide (g' = g ∧ b = a) then None else route_of h g' b.
  Proof.
    intros Eg. unfold route_of. destruct (decide (g' = g)) as [->|Hg].
    - rewrite lookup_insert_eq, Eg. cbn [mbind option_bind]. destruct (decide (b = a)) as [->|Hb].
      + rewrite decide_True by done. by rewrite lookup_delete_eq.
      + rewrite decide_False by tauto. by rewrite lookup_delete_ne.
    - rewrite lookup_insert_ne by done. by rewrite decide_False by tauto.
  Qed.

Lemma name_delete h g names names' (l : list string) a g' alias b : h_names h !! g = Some names →
    (∀ alias b, find_name names' alias b = if decide (alias ∈ l ∧ b = a) then None else find_name names alias b) →
    (∀ alias n, name_of h g alias a = Some n → alias ∈ l) →
    (names ← <[g := names']> (h_names h) !! g'; entries ← names !! alias; entries !! b)
    = if decide (g' = g ∧ b = a) then None else name_of h g' alias b.
  Proof.
    intros En Hfind Hin. destruct (decide (g' = g)) as [->|Hg].
    - rewrite lookup_insert_eq. cbn [mbind option_bind].
      change (entries ← names' !! alias; entries !! b) with (find_name names' alias b). rewrite Hfind.
      assert (Eb : name_of h g alias b = find_name names alias b) by (unfold name_of; by rewrite En).
      rewrite <- Eb. destruct (decide (b = a)) as [->|Hb].
      + rewrite (decide_True (P := g = g ∧ a = a)) by done. case_decide as Hal; [done|].
        apply eq_None_not_Some. intros [n E]. apply Hal. split; [by eapply Hin|done].
      + rewrite (decide_False (P := alias ∈ l ∧ b = a)) by tauto. by rewrite decide_False by tauto.
    - rewrite lookup_insert_ne by done. by rewrite decide_False by tauto.
  Qed.

  (** What [remove] leaves; it raises nothing. *)
Lemma remove_effect h g s a r :
    hub_ok h → ip_of_string s = Some a → route_of h g a = Some r →
    ∃ h', remove h g s = Ok h'
    ∧ (∀ g' b, route_of h' g' b = if decide (g' = g ∧ b = a) then None else route_of h g' b)
    ∧ (∀ g' alias b, name_of h' g' alias b = if decide (g' = g ∧ b = a) then None else name_of h g' alias b)
    ∧ h_members h' = delete (rt_path r) (h_members h) ∧ h_aliases h' = delete (rt_path r) (h_aliases h)
    ∧ h_origins h' = forget_origins (rt_path r) (h_origins h)
    ∧ (∀ g', is_Some (h_groups h' !! g') ↔ is_Some (h_groups h !! g'))
    ∧ (∀ g', is_Some (h_names h' !! g') ↔ is_Some (h_names h !! g')).
  Proof.
    intros Hok Ea Er. destruct (published h g a r Hok Er) as (names & En & Hnd & Hl & Hin).
    unfold remove, ipv4. rewrite Ea. cbn [mbind res_bind].
    unfold route_of in Er. apply bind_Some in Er as (routes & Eg & Era). rewrite Eg, Era.
    change (default [] _) with (aliases_of h r). cbv zeta. simpl h_names. simpl h_origins.
    destruct (find_remove_aliases a names _ Hnd Hl) as (names' & Hf & Hfind).
    destruct (aliases_of h r) as [|x l] eqn:El.
    - eexists. split; [reflexivity|]. simpl. split_and!; try done.
      + intros g' b. by apply route_delete.
      + intros g' alias b. case_decide as D; [|done]. destruct D as [-> ->].
        apply eq_None_not_Some. intros [n E]. apply Hin in E. by apply not_elem_of_nil in E.
      + intros g'. by eapply insert_domain.
    - rewrite En, Hf. cbn [mbind res_bind].
      eexists. split; [reflexivity|]. simpl. split_and!; try done.
      + intros g' b. by apply route_delete.
      + intros g' alias b. by eapply name_delete.
      + intros g'. by eapply insert_domain.
      + intros g'. by eapply insert_domain.
  Qed.

  (** Removing exactly one member, or nothing *)
Lemma remove_ok h g s : hub_ok h → is_Some (ip_of_string s) → ∃ h', remove h g s = Ok h' ∧ hub_ok h'.
  Proof.
    intros Hok [a Ea]. destruct (route_of h g a) as [r|] eqn:Er.
    2: { exists h. split; [|done]. unfold remove, ipv4. rewrite Ea. cbn [mbind res_bind]. unfold route_of in Er.
         destruct (h_groups h !! g) as [routes|]; [|done]. simpl in Er. by rewrite Er. }
    destruct (remove_effect h g s a r Hok Ea Er) as (h' & E & Hr & Hn & Hm & Hal & Ho & Hgs & Hns).
    exists h'. split; [done|]. destruct (ok_route h Hok _ _ _ Er) as [Em Ha]. split.
    - intros g' b r'. rewrite Hr. case_decide as D; [done|]. intros E'.
      destruct (ok_route h Hok _ _ _ E') as [Em' Hb]. rewrite Hm, lookup_delete_ne; [done|].
      intros Ep. rewrite Ep in Em. rewrite Em in Em'. injection Em' as <- <- _. tauto.
    - intros p m. rewrite Hm. intros [Hp Ep]%lookup_delete_Some. rewrite Hr.
      pose proof (ok_member h Hok _ _ Ep) as Er'. rewrite decide_False; [done|]. intros [Eg Eb].
      rewrite Eg, Eb, Er in Er'. injection Er' as ->. done.
    - intros g'. rewrite Hgs, Hns. apply (ok_group h Hok).
    - intros g' alias b n. rewrite Hn. case_decide as D; [done|]. intros E'.
      destruct (ok_name h Hok _ _ _ _ E') as (r' & l & Er' & En & El & Hin). exists r', l.
      rewrite Hr, decide_False by done. rewrite Hal, lookup_delete_ne; [done|]. intros Ep.
      destruct (ok_route h Hok _ _ _ Er') as [Em' _]. rewrite <- Ep, Em in Em'. injection Em' as <- <- _. tauto.
    - intros p l. rewrite Hal, Hm. intros [Hp Ep]%lookup_delete_Some.
      destruct (ok_alias h Hok _ _ Ep) as (Hl & m & Em' & Hall). split; [done|]. exists m.
      rewrite lookup_delete_ne by done. split; [done|]. intros alias Hin. rewrite Hn, decide_False; [by apply Hall|].
      intros [Eg Eb]. pose proof (ok_member h Hok _ _ Em') as Er'. rewrite Eg, Eb, Er in Er'.
      injection Er' as ->. done.
    - intros g' alias b c n m. rewrite !Hn. case_decide; [done|]. case_decide; [done|]. by apply (ok_distinct h Hok).
    - intros o p. rewrite Ho, Hm, forget_origins_lookup. intros [Eo Hp].
      destruct (ok_origin h Hok _ _ Eo) as [m Em']. rewrite lookup_delete_ne by done. eauto.
  Qed.

  (** ** Groups *)

Lemma foldl_delete {A} (m : gmap string A) l p :
    foldl (λ m p, delete p m) m l !! p = if decide (p ∈ l) then None else m !! p.
  Proof.
    revert m. induction l as [|q l IH]; intros m; cbn [foldl].
    - by rewrite decide_False by apply not_elem_of_nil.
    - rewrite IH. destruct (decide (p = q)) as [->|Hp].
      + rewrite lookup_delete_eq. case_decide; by rewrite decide_True by set_solver.
      + rewrite lookup_delete_ne by done. repeat case_decide; try done; set_solver.
  Qed.

Lemma group_paths h g p : hub_ok h →
    p ∈ (λ r : Z * route_to, rt_path r.2) <$> map_to_list (default ∅ (h_groups h !! g))
    ↔ ∃ m, h_members h !! p = Some m ∧ mb_group m = g.
  Proof.
    intros Hok. rewrite list_elem_of_fmap. split.
    - intros ([a r] & -> & Hin). apply elem_of_map_to_list in Hin. simpl.
      destruct (h_groups h !! g) as [routes|] eqn:Eg; simpl in Hin; [|by rewrite lookup_empty in Hin].
      assert (Er : route_of h g a = Some r) by (unfold route_of; by rewrite Eg).
      destruct (ok_route h Hok _ _ _ Er) as [Em _]. by exists (Member g a (rt_networks r)).
    - intros (m & Em & <-). pose proof (ok_member h Hok _ _ Em) as Er.
      unfold route_of in Er. apply bind_Some in Er as (routes & Eg & Er).
      exists (mb_address m, RouteTo p (mb_networks m)). split; [done|]. rewrite Eg. by apply elem_of_map_to_list.
  Qed.

Lemma unregister_ok h g : hub_ok h → hub_ok (unregister h g).
  Proof.
    intros Hok. unfold unregister.
    set (paths := (λ r : Z * route_to, rt_path r.2) <$> map_to_list (default ∅ (h_groups h !! g))).
    assert (Hp : ∀ p, p ∈ paths ↔ ∃ m, h_members h !! p = Some m ∧ mb_group m = g) by (intros p; by apply group_paths).
    set (h' := h <| h_groups := _ |> <| h_members := _ |> <| h_aliases := _ |> <| h_names := _ |> <| h_origins := _ |>).
    assert (Hr : ∀ g' b, route_of h' g' b = if decide (g' = g) then None else route_of h g' b).
    { intros g' b. unfold route_of. simpl. case_decide; [subst; by rewrite lookup_delete_eq|by rewrite lookup_delete_ne]. }
    assert (Hn : ∀ g' alias b, name_of h' g' alias b = if decide (g' = g) then None else name_of h g' alias b).
    { intros g' alias b. unfold name_of. simpl. case_decide; [subst; by rewrite lookup_delete_eq|by rewrite lookup_delete_ne]. }
    assert (Hm : ∀ p m, h_members h' !! p = Some m ↔ h_members h !! p = Some m ∧ mb_group m ≠ g).
    { intros p m. simpl. rewrite foldl_delete. case_decide as D; rewrite Hp in D.
      - split; [done|]. intros [Em Hg]. destruct D as (m' & Em' & Eg). congruence.
      - split; [|tauto]. intros Em. split; [done|]. intros Eg. apply D. by exists m. }
    split.
    - intros g' a r. rewrite Hr. case_decide; [done|]. intros E. destruct (ok_route h Hok _ _ _ E) as [Em Ha].
      split; [|done]. by apply Hm.
    - intros p m [Em Hg]%Hm. rewrite Hr, decide_False by done. by apply (ok_member h Hok).
    - intros g'. simpl. destruct (decide (g' = g)) as [->|Hg]; [by rewrite !lookup_delete_eq|].
      rewrite !lookup_delete_ne by done. apply (ok_group h Hok).
    - intros g' alias b n. rewrite Hn. case_decide; [done|]. intros E.
      destruct (ok_name h Hok _ _ _ _ E) as (r & l & Er & En & El & Hin). exists r, l.
      rewrite Hr, decide_False by done. split_and!; try done. simpl. rewrite foldl_delete, decide_False; [done|].
      rewrite Hp. intros (m & Em & Eg). destruct (ok_route h Hok _ _ _ Er) as [Em' _]. rewrite Em in Em'. injection Em' as ->. done.
    - intros p l. simpl. rewrite foldl_delete. case_decide as D; [done|]. intros El.
      destruct (ok_alias h Hok _ _ El) as (Hl & m & Em & Hall). split; [done|]. exists m.
      assert (Hg : mb_group m ≠ g) by (intros Eg; apply D; rewrite Hp; by exists m).
      split; [by apply Hm|]. intros alias Hin. rewrite Hn, decide_False by done. by apply Hall.
    - intros g' alias b c n m. rewrite !Hn. case_decide; [done|]. by apply (ok_distinct h Hok).
    - intros o p. simpl. by rewrite lookup_empty.
  Qed.

  (** Routes gathered from entries: new paths, all different *)
Definition routes_new (h : hub) (routes : gmap Z route_to) : Prop :=
    (∀ a r, routes !! a = Some r → h_members h !! rt_path r = None ∧ 0 ≤ a < 2 ^ 32)
    ∧ (∀ a b r s, routes !! a = Some r → routes !! b = Some s → rt_path r = rt_path s → a = b).

Lemma register_entries h routes l routes' :
    routes_new h routes → res_fold (register_entry resolve h) routes l = Ok routes' → routes_new h routes'.
  Proof.
    revert routes. induction l as [|e l IH]; intros routes Hok; cbn [res_fold]; [by intros [= <-]|].
    intros (routes1 & E & F)%bind_ok. eapply IH; [|exact F]. clear IH F.
    unfold register_entry, ipv4 in E. destruct (ip_of_string (en_address e)) as [a|] eqn:Ea; [|done].
    cbn [mbind res_bind] in E. destruct (_ || _ || _) eqn:D; [done|]. injection E as <-.
    apply orb_false_iff in D as [D Da]. apply orb_false_iff in D as [Dm Dp]. bool_prop.
    apply eq_None_not_Some in Dm, Da.
    assert (Hnew : ∀ b r, routes !! b = Some r → rt_path r ≠ resolve (en_socket e)).
    { intros b r Er Ep. apply Dp. apply list_elem_of_fmap. exists (b, r). split; [done|]. by apply elem_of_map_to_list. }
    destruct Hok as [H1 H2]. split.
    - intros b r [[<- <-]|[Hb Er]]%lookup_insert_Some; [|by eapply H1]. split; [done|]. by eapply ip_range.
    - intros b c r s [[<- <-]|[Hb Er]]%lookup_insert_Some [[<- <-]|[Hc Es]]%lookup_insert_Some Ep; [done|..|by eapply H2].
      + simpl in Ep. symmetry in Ep. by destruct (Hnew _ _ Es Ep).
      + simpl in Ep. by destruct (Hnew _ _ Er Ep).
  Qed.

Definition publish (g : string) : Z → route_to → gmap string member → gmap string member :=
    λ address r, <[rt_path r := Member g address (rt_networks r)]>.

Lemma publish_lookup h g routes p m : routes_new h routes →
    map_fold (publish g) (h_members h) routes !! p = Some m ↔
    (h_members h !! p = Some m ∨ (mb_group m = g ∧ routes !! mb_address m = Some (RouteTo p (mb_networks m)))).
  Proof.
    revert p m. apply (map_fold_weak_ind (λ ms rs, ∀ p m, routes_new h rs →
      ms !! p = Some m ↔ h_members h !! p = Some m ∨ (mb_group m = g ∧ rs !! mb_address m = Some (RouteTo p (mb_networks m))))).
    - intros p m _. rewrite lookup_empty. naive_solver.
    - clear routes. intros a r rs ms Ha IH p m [H1 H2].
      assert (Hnew : routes_new h rs).
      { split.
        - intros b s Es. apply H1. by rewrite lookup_insert_ne by congruence.
        - intros b c s t Es Et. apply H2; by rewrite lookup_insert_ne by congruence. }
      unfold publish at 1. rewrite lookup_insert_Some, IH by done. clear IH.
      destruct (H1 a r) as [Hfree _]; [by rewrite lookup_insert_eq|].
      rewrite (lookup_insert_Some rs). split.
      + intros [[<- <-]|[Hp [Em|[Eg Er]]]].
        * right. simpl. split; [done|]. left. split; [done|]. by destruct r.
        * by left.
        * right. split; [done|]. right. split; [|done]. congruence.
      + intros [Em|[Eg [[Ea Er]|[Hm Er]]]].
        * right. split; [congruence|]. by left.
        * left. destruct m as [mg ma mn]; simpl in *; subst; simpl. done.
        * right. split; [|by right]. intros Ep. apply Hm.
          apply (H2 _ _ r (RouteTo p (mb_networks m))); [by rewrite lookup_insert_eq|by rewrite lookup_insert_ne|done].
  Qed.

Lemma register_ok h g l h' : hub_ok h → register resolve h g l = Ok h' → hub_ok h'.
  Proof.
    intros Hok. unfold register, raise_if. destruct (bool_decide _) eqn:Eg; [done|].
    apply bool_decide_eq_false, eq_None_not_Some in Eg. cbn [mbind res_bind].
    intros (routes & E & F)%bind_ok. injection F as <-.
    assert (Hnew : routes_new h routes).
    { eapply register_entries; [|exact E]. split; intros *; by rewrite lookup_empty. }
    match goal with |- hub_ok ?x => set (h' := x) end.
    assert (Hn0 : h_names h !! g = None).
    { apply eq_None_not_Some. rewrite <- (ok_group h Hok). by rewrite Eg. }
    assert (Hr : ∀ g' a, route_of h' g' a = if decide (g' = g) then routes !! a else route_of h g' a).
    { intros g' a. unfold route_of. simpl. case_decide; [subst; by rewrite lookup_insert_eq|by rewrite lookup_insert_ne]. }
    assert (Hn : ∀ g' alias a, name_of h' g' alias a = name_of h g' alias a).
    { intros g' alias a. unfold name_of. simpl. destruct (decide (g' = g)) as [->|Hg]; [|by rewrite lookup_insert_ne].
      rewrite lookup_insert_eq, Hn0. cbn [mbind option_bind]. by rewrite lookup_empty. }
    assert (Hm : ∀ p m, h_members h' !! p = Some m ↔ (h_members h !! p = Some m
      ∨ (mb_group m = g ∧ routes !! mb_address m = Some (RouteTo p (mb_networks m))))).
    { intros p m. simpl. by apply publish_lookup. }
    assert (Hold : ∀ g' a r, route_of h g' a = Some r → g' ≠ g).
    { intros g' a r Er ->. unfold route_of in Er. by rewrite Eg in Er. }
    split.
    - intros g' a r. rewrite Hr. rewrite Hm. case_decide as D; [subst|]; intros Er.
      + split; [right; simpl; split; [done|by destruct r]|]. by eapply Hnew.
      + destruct (ok_route h Hok _ _ _ Er) as [Em Ha]. split; [by left|done].
    - intros p m. rewrite Hm, Hr. intros [Em|[Egm Er]]; [|by rewrite decide_True].
      pose proof (ok_member h Hok _ _ Em) as Er. rewrite decide_False; [done|]. by eapply Hold.
    - intros g'. simpl. destruct (decide (g' = g)) as [->|Hg]; [rewrite !lookup_insert_eq; split; eauto|].
      rewrite !lookup_insert_ne by done. apply (ok_group h Hok).
    - intros g' alias a n. rewrite Hn. intros En. destruct (ok_name h Hok _ _ _ _ En) as (r & al & Er & Ern & El & Hin).
      exists r, al. rewrite Hr, decide_False by (by eapply Hold). done.
    - intros p al El. destruct (ok_alias h Hok _ _ El) as (Hnd & m & Em & Hall). split; [done|]. exists m.
      split; [rewrite Hm; by left|]. intros alias Hin. rewrite Hn. by apply Hall.
    - intros g' alias a b n m. rewrite !Hn. by apply (ok_distinct h Hok).
    - intros o p Eo. destruct (ok_origin h Hok _ _ Eo) as [m Em]. exists m. rewrite Hm. by left.
  Qed.

  (** ** Frames *)

Lemma sender_spec h origin h' from : sender resolve h origin = (h', from) →
    (h' = h ∨ ∃ p, is_Some (h_members h !! p)
       ∧ h' = h <| h_origins := <[origin := p]> (forget_origins p (h_origins h)) |>)
    ∧ (∀ p m, from = Some (p, m) → h_members h !! p = Some m
         ∧ (p = origin ∨ p = resolve origin ∨ h_origins h !! origin = Some p)).
  Proof.
    unfold sender. destruct (h_members h !! default origin (h_origins h !! origin)) as [m|] eqn:Em.
    - intros [= <- <-]. split; [by left|]. intros p m' [= <- <-]. split; [done|].
      destruct (h_origins h !! origin); simpl; auto.
    - destruct (_ && _); [|by intros [= <- <-]; split; [left|]].
      destruct (h_members h !! resolve origin) as [m|] eqn:Er; [|by intros [= <- <-]; split; [left|]].
      intros [= <- <-]. split; [right; eexists; by split; [by exists m|]|]. intros p m' [= <- <-]. auto.
  Qed.

Lemma receive_ok h frame origin : hub_ok h → hub_ok (receive resolve h frame origin).1.
  Proof.
    intros Hok. unfold receive. case_match; [done|].
    destruct (sender resolve h origin) as [h' from] eqn:E. simpl. apply sender_spec in E as [[->|(p & Hp & ->)] _]; [done|].
    destruct Hok as [H1 H2 H3 H4 H5 H6 H7]. split; try done. intros o q. simpl.
    intros [[<- <-]|[Ho Eo]]%lookup_insert_Some; [done|]. apply forget_origins_lookup in Eo as [Eo _]. by eapply H7.
  Qed.
End preserved.

(** * Every run *)

Inductive hub_event :=
  | Register (group : string) (members : list entry)
  | Add (group : string) (e : entry)
  | Remove (group address : string)
  | Unregister (group : string)
  | Receive (frame : bytes) (origin : string).

(** A refused operation changes nothing. Aliases are distinct, as [membership]
    makes them, and addresses to remove were once added. *)
Definition hub_valid (e : hub_event) : Prop :=
  match e with
  | Add _ e => NoDup (en_aliases e)
  | Remove _ address => is_Some (ip_of_string address)
  | _ => True
  end.

Definition keep_ok (h : hub) (r : res hub) : hub := match r with Ok h' => h' | Err _ => h end.

Definition hub_step (resolve : string → string) (h : hub) (e : hub_event) : hub :=
  match e with
  | Register g l => keep_ok h (register resolve h g l)
  | Add g e => keep_ok h (add resolve h g e)
  | Remove g address => keep_ok h (remove h g address)
  | Unregister g => unregister h g
  | Receive frame origin => (receive resolve h frame origin).1
  end.

Definition hub_run (resolve : string → string) : list hub_event → hub := foldl (hub_step resolve) empty_hub.

Lemma hub_step_ok resolve h e : hub_ok h → hub_valid e → hub_ok (hub_step resolve h e).
Proof.
  intros Hok Hv. destruct e as [g l|g e|g a|g|frame origin]; simpl in *.
  - destruct (register resolve h g l) eqn:E; simpl; [by eapply register_ok|done].
  - destruct (add resolve h g e) eqn:E; simpl; [by eapply add_ok|done].
  - destruct (remove_ok resolve h g a Hok Hv) as (h' & -> & H'). done.
  - by apply (unregister_ok resolve).
  - by apply receive_ok.
Qed.

Lemma hub_run_ok resolve events : Forall hub_valid events → hub_ok (hub_run resolve events).
Proof.
  unfold hub_run. generalize empty_hub_ok. generalize empty_hub.
  induction events as [|e events IH]; intros h Hok Hv; simpl; [done|].
  apply Forall_cons in Hv as [He Hv]. apply IH; [by apply hub_step_ok|done].
Qed.

(** ** What members see of each other *)

Lemma lookup_default h g a :
  default ∅ (h_groups h !! g) !! a = route_of h g a.
Proof. unfold route_of. destruct (h_groups h !! g); simpl; [done|by rewrite lookup_empty]. Qed.

Lemma visible_matches h m name a :
  a ∈ omap (λ r : Z * gset string, if bool_decide (mb_networks m ∩ r.2 = ∅) then None else Some r.1)
        (map_to_list (default ∅ (default ∅ (h_names h !! mb_group m) !! name)))
  ↔ ∃ n, name_of h (mb_group m) name a = Some n ∧ mb_networks m ∩ n ≠ ∅.
Proof.
  assert (Hn : ∀ b, default ∅ (default ∅ (h_names h !! mb_group m) !! name) !! b = name_of h (mb_group m) name b).
  { intros b. unfold name_of. destruct (h_names h !! mb_group m) as [names|]; simpl;
      [|by rewrite lookup_empty; simpl; rewrite lookup_empty].
    destruct (names !! name); simpl; [done|by rewrite lookup_empty]. }
  rewrite list_elem_of_omap. split.
  - intros ([b n] & Hin & E). simpl in E. case_bool_decide; [done|]. injection E as ->.
    apply elem_of_map_to_list in Hin. rewrite Hn in Hin. by exists n.
  - intros (n & En & Hm). exists (a, n). rewrite elem_of_map_to_list, Hn. split; [done|]. simpl.
    by rewrite bool_decide_eq_false_2.
Qed.

Lemma visible_address h m name t : hub_ok h → visible h m name = Some t →
  ∃ a n, name_of h (mb_group m) name a = Some n ∧ mb_networks m ∩ n ≠ ∅ ∧ t = dotted a ∧ ip_of_string t = Some a.
Proof.
  intros Hok. unfold visible. cbv zeta. destruct (min_by _ _) as [a|] eqn:E; [|done]. intros [= <-].
  apply min_by_elem, visible_matches in E as (n & En & Hm). exists a, n. split_and!; try done.
  destruct (ok_name h Hok _ _ _ _ En) as (r & l & Er & _). apply ip_of_dotted. by apply (ok_route h Hok _ _ _ Er).
Qed.

Lemma dns_reply_ok frame names : (∀ n t, names n = Some t → is_Some (ip_of_string t)) →
  ∃ r, dns_reply frame names = Ok r.
Proof.
  intros Hn. unfold dns_reply. destruct (dns_question frame) as [[[q name] e]|]; [|eauto].
  destruct (names name) as [t|] eqn:E; [|eauto]. destruct (Hn _ _ E) as [a ->]. eauto.
Qed.

Lemma origins_views h o : h_members (h <| h_origins := o |>) = h_members h
  ∧ (∀ g a, route_of (h <| h_origins := o |>) g a = route_of h g a)
  ∧ (∀ m name, visible (h <| h_origins := o |>) m name = visible h m name).
Proof. done. Qed.

Definition shares (m n : member) : Prop :=
  mb_group m = mb_group n ∧ ∃ network, network ∈ mb_networks m ∧ network ∈ mb_networks n.

(** C18: In every run of the router no frame raises, and a frame is only sent back to
    the member it came from, answering or returning its question for a name, or to
    the member of the same service network that has the address it asks for and
    shares a named network, translated from the address of its true sender. *)
Theorem frames_confined resolve events frame origin :
  Forall hub_valid events →
  let h := hub_run resolve events in
  ∃ sent, (receive resolve h frame origin).2 = Ok sent
  ∧ ∀ path payload, sent = Some (path, payload) →
    ∃ p from, h_members h !! p = Some from
      ∧ (p = origin ∨ p = resolve origin ∨ h_origins h !! origin = Some p)
      ∧ ((take 6 frame = DNS_FORWARD ∧ path = p)
         ∨ ∃ to, h_members h !! path = Some to ∧ shares from to
             ∧ mb_address to = ip_of_bytes (slice frame 30 34)
             ∧ route frame (packed (mb_address from)) GUEST = Some payload).
Proof.
  intros Hv h. pose proof (hub_run_ok resolve events Hv) as Hok. fold h in Hok. clearbody h.
  unfold receive. destruct (length frame <? 34)%nat; [by exists None|].
  destruct (sender resolve h origin) as [h' from] eqn:E. apply sender_spec in E as [Hh Hfrom].
  assert (Hview : (∀ g a, route_of h' g a = route_of h g a) ∧ ∀ m name, visible h' m name = visible h m name).
  { by destruct Hh as [->|(p & _ & ->)]. }
  destruct Hview as [Hr Hvis]. clear Hh. simpl. destruct from as [[p m]|]; [|by exists None].
  destruct (Hfrom p m eq_refl) as [Em Ho]. pose proof (ok_member h Hok _ _ Em) as Erm.
  case_bool_decide as Hd.
  - destruct (dns_reply_ok (drop 6 frame) (visible h' m)) as [reply Er].
    { intros n t. rewrite Hvis. intros Ht. apply visible_address in Ht as (a & _ & _ & _ & _ & Et); [by exists a|done]. }
    rewrite Er. cbn [mbind res_bind]. rewrite lookup_default, Hr, Erm.
    eexists. split; [reflexivity|]. intros path payload [= <- _]. exists p, m. split; [done|]. split; [done|]. by left.
  - rewrite lookup_default, Hr.
    destruct (route_of h (mb_group m) (ip_of_bytes (slice frame 30 34))) as [target|] eqn:Et; [|by exists None].
    case_bool_decide as Hs; [by exists None|].
    destruct (route frame (packed (mb_address m)) GUEST) as [translated|] eqn:Etr; [|by exists None].
    eexists. split; [reflexivity|]. intros path payload [= <- <-]. exists p, m. split; [done|]. split; [done|]. right.
    destruct (ok_route h Hok _ _ _ Et) as [Emt _]. eexists. split; [exact Emt|]. simpl.
    split_and!; try done. apply set_choose_L in Hs as [x Hx]. split; [done|]. exists x. simpl. set_solver.
Qed.

(** A member resolves a name exactly when a member of its service network that
    shares a named network with it has the name as an alias; the address is one of
    such a member, and within one named network there is only one. *)
Theorem names_resolve resolve events m name :
  Forall hub_valid events →
  let h := hub_run resolve events in
  let known to := ∃ p aliases, h_members h !! p = Some to ∧ h_aliases h !! p = Some aliases ∧ name ∈ aliases ∧ shares m to in
  ((∃ t, visible h m name = Some t) ↔ ∃ to, known to)
  ∧ (∀ t, visible h m name = Some t → ∃ to, known to ∧ ip_of_string t = Some (mb_address to))
  ∧ (∀ to to' network, known to → known to' → network ∈ mb_networks to → network ∈ mb_networks to' → to = to').
Proof.
  intros Hv h known. pose proof (hub_run_ok resolve events Hv) as Hok. fold h in Hok. clearbody h.
  assert (Hk : ∀ a n, name_of h (mb_group m) name a = Some n → mb_networks m ∩ n ≠ ∅ → known (Member (mb_group m) a n)).
  { intros a n En Hs. destruct (ok_name h Hok _ _ _ _ En) as (r & l & Er & <- & El & Hin).
    destruct (ok_route h Hok _ _ _ Er) as [Em _]. exists (rt_path r), l.
    do 3 (split; [done|]). split; [done|].
    apply set_choose_L in Hs as [x Hx]. exists x. simpl. set_solver. }
  assert (Hn : ∀ to, known to → name_of h (mb_group m) name (mb_address to) = Some (mb_networks to)
              ∧ mb_networks m ∩ mb_networks to ≠ ∅).
  { intros to (p & l & Em & El & Hin & Hg & x & Hx & Hx'). destruct (ok_alias h Hok _ _ El) as (_ & m' & Em' & Hall).
    rewrite Em in Em'. injection Em' as <-. rewrite Hg. split; [by apply Hall|]. set_solver. }
  split_and!.
  - split.
    + intros (t & Ht). apply visible_address in Ht as (a & n & En & Hs & _); [|done]. eexists. by apply Hk.
    + intros (to & Kt). destruct (Hn to Kt) as [En Hs]. unfold visible. cbv zeta. destruct (min_by _ _) as [a|] eqn:E; [eauto|].
      apply min_by_none in E. exfalso. eapply not_elem_of_nil. rewrite <- E. apply visible_matches. eauto.
  - intros t Ht. apply visible_address in Ht as (a & n & En & Hs & _ & Et); [|done]. eexists. split; [by apply Hk|done].
  - intros to to' network Kt Kt' Hin Hin'. destruct (Hn to Kt) as [En _]. destruct (Hn to' Kt') as [En' _].
    destruct Kt as (p & _ & _ & _ & _ & Hg & _). destruct Kt' as (p' & _ & _ & _ & _ & Hg' & _).
    destruct (decide (mb_address to = mb_address to')) as [Ea|Ea].
    + rewrite Ea, En' in En. destruct to, to'; simpl in *. congruence.
    + pose proof (ok_distinct h Hok _ _ _ _ _ _ En En' Ea). set_solver.
Qed.

(** ** A run *)

Definition hub_events : list hub_event :=
  [Register "net" [];
   Add "net" (Entry "a" "10.231.0.2" "/a" ["default"] ["web"]);
   Add "net" (Entry "b" "10.231.0.7" "/b" ["default"; "back"] ["db"]);
   Add "net" (Entry "c" "10.231.0.8" "/c" ["back"] ["web"])].

Lemma hub_events_valid : Forall hub_valid hub_events.
Proof. repeat constructor; set_solver. Qed.

(** The run exists, and its frames go where they should. *)
Lemma frames_confined_witness :
  let h := hub_run id hub_events in
  (receive id h udp_frame "/a").2 = Ok (Some ("/b"%string, udp_routed))
  ∧ ∃ from, h_members h !! "/a"%string = Some from ∧ mb_address from = quad 10 231 0 2.
Proof.
  assert (E : (receive id (hub_run id hub_events) udp_frame "/a").2 = Ok (Some ("/b"%string, udp_routed)))
    by (vm_compute; reflexivity).
  split; [exact E|].
  destruct (frames_confined id hub_events udp_frame "/a" hub_events_valid) as (sent & Es & H).
  rewrite E in Es. injection Es as <-.
  destruct (H _ _ eq_refl) as (p & from & Em & Hp & _).
  assert (Ep : p = "/a"%string).
  { destruct Hp as [Hp|[Hp|Hp]]; [exact Hp|exact Hp|]. vm_compute in Hp. discriminate Hp. }
  rewrite Ep in Em. exists from. split; [exact Em|]. vm_compute in Em. injection Em as <-. reflexivity.
Defined.

(** Two members are called [web]; each asker finds its own. *)
Lemma names_resolve_witness :
  let h := hub_run id hub_events in
  let m := Member "net" (quad 10 231 0 9) {["default"%string]} in
  visible h m "web" = Some "10.231.0.2"%string
  ∧ ∃ to, ip_of_string "10.231.0.2" = Some (mb_address to) ∧ shares m to.
Proof.
  assert (E : visible (hub_run id hub_events) (Member "net" (quad 10 231 0 9) {["default"%string]}) "web"
              = Some "10.231.0.2"%string) by (vm_compute; reflexivity).
  split; [exact E|].
  destruct (names_resolve id hub_events (Member "net" (quad 10 231 0 9) {["default"%string]}) "web" hub_events_valid)
    as (_ & H & _).
  destruct (H _ E) as (to & (p & l & _ & _ & _ & Hs) & Ht). exists to. split; [exact Ht|exact Hs].
Defined.
