(* ===== verification/MemberNetworks.v ===== *)
(** Service networks on a worker ([sandbox/networks.py]): each is one file of the
    worker, with its members and their addresses, and a group of the router. The
    file is written before a member is acknowledged; a new process rebuilds the
    router from the files. [writes] says whether the file system accepts a write. *)

From S2P Require Import Prelude OrderedDict Ipv4 Mesh Hub.

#[local] Open Scope Z_scope.

(** [network_id]: [net-] and 32 lower-case hexadecimal digits. *)
Definition hex_digit (c : ascii) : bool := is_digit c || ((97 <=? code c) && (code c <=? 102)).
Definition network_id (identity : string) : res () :=
  raise_if (negb (str_startswith "net-" identity && (String.length identity =? 36)%nat
                  && forallb hex_digit (drop 4 (chars identity)))) ValueError "invalid service network ID".

(** * Membership *)

(** [[a-zA-Z0-9][a-zA-Z0-9_.-]{0,99}] *)
Definition member_name (s : string) : bool :=
  match chars s with
  | [] => false
  | c :: l => is_alnum c && forallb (λ c, is_alnum c || bool_decide (c ∈ ["_"; "."; "-"]%char)) l
              && (length l <=? 99)%nat
  end.

(** Lower case, without repetitions *)
Definition add_name (label : string) (result : list string) (value : string) : res (list string) :=
  _ ← raise_if (negb (member_name value)) ValueError ("invalid " ++ label ++ " name");
  let value := str_lower value in
  Ok (if bool_decide (value ∈ result) then result else result ++ [value]).
Definition names (label : string) (values : list string) : res (list string) :=
  res_fold (add_name label) [] values.

Record membership_of := Membership { ms_id : string; ms_aliases : list string; ms_networks : list string }.

Definition membership (identity : string) (aliases networks : option (list string)) : res membership_of :=
  _ ← network_id identity;
  selected ← names "networks" (default ["default"%string] networks);
  _ ← raise_if (bool_decide (selected = [])) ValueError "service network membership needs at least one named network";
  aliases ← names "aliases" (default [] aliases);
  Ok (Membership identity aliases selected).

(** * The files of the worker and the router *)

Record network_file := NetworkFile {
  nf_state : string; nf_next : Z; nf_members : list (string * entry) }.

#[export] Instance network_file_updatable : Updatable network_file :=
  λ f, NetworkFile (nf_state f) (nf_next f) (nf_members f).

Record networks := Networks { nw_files : gmap string network_file; nw_hub : hub }.

#[export] Instance networks_updatable : Updatable networks := λ s, Networks (nw_files s) (nw_hub s).

Inductive network_op :=
  | NetworkCreate | NetworkDelete | NetworkLeave (member : string) | NetworkJoin (e : entry)
  | NetworkInfo | NetworkUnknown.

(** [public(record)], and a route to the hub *)
Inductive answer := Public (state : string) (members : list string) | Route (e : entry).

Definition public (f : network_file) : answer := Public (nf_state f) (nf_members f).*1.

Definition base_address : Z := quad 10 231 0 0.

(** [next_address] from [offset] on, skipping the addresses in use *)
Fixpoint pick_address (fuel : nat) (used : list string) (offset : Z) : option (string * Z) :=
  match fuel with
  | O => None
  | S fuel =>
      let offset := if 65535 <=? offset then 2 else offset in
      let address := dotted (base_address + offset) in
      if bool_decide (address ∈ used) then pick_address fuel used (offset + 1) else Some (address, offset + 1)
  end.
Definition address_attempts : nat := Z.to_nat 65533.

(** [previous.get(key) != value] for a key of the entry *)
Definition differs (previous e : entry) : bool :=
  negb (bool_decide (en_identity previous = en_identity e) && bool_decide (en_networks previous = en_networks e)
        && bool_decide (en_aliases previous = en_aliases e) && bool_decide (en_socket previous = en_socket e)).

Definition with_address (e : entry) (address : string) : entry :=
  Entry (en_identity e) address (en_socket e) (en_networks e) (en_aliases e).

Definition write_failed {A} : res A := raise OSError "".

Section networks.
  Context (resolve : string → string).

Definition create_network (writes : bool) (s : networks) (identity : string) : networks * res answer :=
    match nw_files s !! identity with
    | Some f =>
        if bool_decide (nf_state f = "ready"%string) then (s, Ok (public f))
        else (s, raise FileNotFoundError "service network was deleted")
    | None =>
        let f := NetworkFile "ready" 2 [] in
        if negb writes then (s, write_failed)
        else
          let s := s <| nw_files := <[identity := f]> (nw_files s) |> in
          match register resolve (nw_hub s) identity [] with
          | Err x => (s, Err x)
          | Ok h => (s <| nw_hub := h |>, Ok (public f))
          end
    end.

Definition delete_network (writes : bool) (s : networks) (identity : string) (f : network_file) : networks * res answer :=
    match nf_members f with
    | _ :: _ => (s, raise ResourceUnavailable "terminate the service network members before deleting the network")
    | [] =>
        let f := f <| nf_state := "deleted"%string |> in
        if negb writes then (s, write_failed)
        else (s <| nw_files := <[identity := f]> (nw_files s) |> <| nw_hub := unregister (nw_hub s) identity |>,
              Ok (public f))
    end.

Definition leave_network (writes : bool) (s : networks) (identity : string) (f : network_file) (member : string) :
      networks * res answer :=
    match od_get member (nf_members f) with
    | None => (s, Ok (public f))
    | Some e =>
        let f := f <| nf_members := od_del member (nf_members f) |> in
        if negb writes then (s, write_failed)
        else
          let s := s <| nw_files := <[identity := f]> (nw_files s) |> in
          match remove (nw_hub s) identity (en_address e) with
          | Err x => (s, Err x)
          | Ok h => (s <| nw_hub := h |>, Ok (public f))
          end
    end.

Definition join_network (writes : bool) (s : networks) (identity : string) (f : network_file) (e : entry) :
      networks * res answer :=
    match od_get (en_identity e) (nf_members f) with
    | Some previous =>
        if differs previous e then (s, raise ValueError "sandbox already has different network membership")
        else (s, Ok (Route previous))
    | None =>
        match pick_address address_attempts (map (λ p, en_address p.2) (nf_members f)) (nf_next f) with
        | None => (s, raise ResourceUnavailable "service network has no free member addresses")
        | Some (address, next) =>
            let e := with_address e address in
            match add resolve (nw_hub s) identity e with
            | Err x => (s, Err x)
            | Ok h =>
                let f := f <| nf_members := od_set (en_identity e) e (nf_members f) |> <| nf_next := next |> in
                if negb writes then
                  match remove h identity address with
                  | Ok h => (s <| nw_hub := h |>, write_failed)
                  | Err x => (s <| nw_hub := h |>, Err x)
                  end
                else (s <| nw_files := <[identity := f]> (nw_files s) |> <| nw_hub := h |>, Ok (Route e))
            end
        end
    end.

  (** [dispatch]. [remote] is the answer of the worker that owns the network, when
      the index of this host names one. *)
Definition dispatch (remote : option (res answer)) (writes : bool) (s : networks) (op : network_op) (identity : string) :
      networks * res answer :=
    match network_id identity with
    | Err x => (s, Err x)
    | Ok _ =>
        match nw_files s !! identity, remote with
        | None, Some answer => (s, answer)
        | file, _ =>
            match op with
            | NetworkCreate => create_network writes s identity
            | _ =>
                match file with
                | None => (s, raise FileNotFoundError "")
                | Some f =>
                    match op with
                    | NetworkDelete => delete_network writes s identity f
                    | NetworkLeave member => leave_network writes s identity f member
                    | _ =>
                        if negb (bool_decide (nf_state f = "ready"%string)) then
                          (s, raise FileNotFoundError "service network was deleted")
                        else
                          match op with
                          | NetworkJoin e => join_network writes s identity f e
                          | NetworkInfo => (s, Ok (public f))
                          | _ => (s, raise UnsupportedFeature "unknown service network operation")
                          end
                    end
                end
            end
        end
    end.

  (** [__init__]: the router of a new process, from the files in some order. *)
Definition restore_file (h : hub) (p : string * network_file) : res hub :=
    if bool_decide (nf_state p.2 = "ready"%string) then
      h ← register resolve h p.1 [];
      res_fold (λ h m, add resolve h p.1 m) h (map snd (nf_members p.2))
    else Ok h.
Definition restore (h : hub) (files : list (string * network_file)) : res hub := res_fold restore_file h files.
End networks.

(** * Addresses *)

Lemma pick_address_spec fuel used offset address next :
  2 ≤ offset ≤ 65535 → pick_address fuel used offset = Some (address, next) →
  (address ∉ used) ∧ 2 ≤ next ≤ 65535 ∧ ∃ o, 2 ≤ o < 65535 ∧ address = dotted (base_address + o).
Proof.
  revert offset. induction fuel as [|fuel IH]; intros offset Ho; simpl; [done|].
  set (o := if 65535 <=? offset then 2 else offset).
  assert (Hb : 2 ≤ o < 65535) by (unfold o; destruct (65535 <=? offset) eqn:E; bool_prop; lia).
  case_bool_decide as Hu.
  - intros E. apply (IH (o + 1)); [lia|done].
  - intros [= <- <-]. split; [done|]. split; [lia|]. by exists o.
Qed.

Lemma dotted_read o : 2 ≤ o < 65535 → ip_of_string (dotted (base_address + o)) = Some (base_address + o).
Proof. intros Ho. apply ip_of_dotted. unfold base_address, quad. lia. Qed.

(** * The router after single operations *)

Section effects.
  Context (resolve : string → string).

Lemma register_empty h g : h_groups h !! g = None →
    ∃ h', register resolve h g [] = Ok h' ∧ is_Some (h_groups h' !! g)
    ∧ (∀ g' a, route_of h' g' a = route_of h g' a) ∧ h_aliases h' = h_aliases h
    ∧ (∀ g', g' ≠ g → h_groups h' !! g' = h_groups h !! g').
  Proof.
    intros Eg. unfold register, raise_if. rewrite bool_decide_eq_false_2 by (by rewrite Eg; apply is_Some_None).
    cbn [mbind res_bind res_fold]. eexists. split; [reflexivity|]. simpl. split_and!; try done.
    - by rewrite lookup_insert_eq.
    - intros g' a. unfold route_of. simpl. destruct (decide (g' = g)) as [->|Hg]; [|by rewrite lookup_insert_ne].
      rewrite lookup_insert_eq, Eg. cbn [mbind option_bind]. by rewrite lookup_empty.
    - intros g' Hg. by rewrite lookup_insert_ne.
  Qed.

Lemma register_others h g l h' : register resolve h g l = Ok h' →
    h_groups h !! g = None ∧ (∀ g' a, g' ≠ g → route_of h' g' a = route_of h g' a) ∧ h_aliases h' = h_aliases h
    ∧ (∀ g', g' ≠ g → h_groups h' !! g' = h_groups h !! g').
  Proof.
    unfold register, raise_if. destruct (bool_decide _) eqn:Eg; [done|].
    apply bool_decide_eq_false, eq_None_not_Some in Eg. cbn [mbind res_bind].
    intros (routes & _ & F)%bind_ok. injection F as <-. split; [done|]. simpl. split_and!; try done.
    - intros g' a Hg. unfold route_of. simpl. by rewrite lookup_insert_ne.
    - intros g' Hg. by rewrite lookup_insert_ne.
  Qed.

Lemma unregister_others h g : hub_ok h →
    h_groups (unregister h g) !! g = None
    ∧ (∀ g' a, g' ≠ g → route_of (unregister h g) g' a = route_of h g' a)
    ∧ (∀ g' a r, g' ≠ g → route_of h g' a = Some r → h_aliases (unregister h g) !! rt_path r = h_aliases h !! rt_path r)
    ∧ (∀ g', g' ≠ g → h_groups (unregister h g) !! g' = h_groups h !! g').
  Proof.
    intros Hok. split_and!; simpl.
    - by rewrite lookup_delete_eq.
    - intros g' a Hg. unfold route_of. simpl. by rewrite lookup_delete_ne.
    - intros g' a r Hg Er. rewrite (foldl_delete resolve), decide_False; [done|]. rewrite group_paths by done.
      intros (m & Em & Eg). destruct (ok_route h Hok _ _ _ Er) as [Em' _]. rewrite Em in Em'. by injection Em' as ->.
    - intros g' Hg. by rewrite lookup_delete_ne.
  Qed.

Lemma add_succeeds h g e a : hub_ok h → is_Some (h_groups h !! g) → ip_of_string (en_address e) = Some a →
    h_members h !! resolve (en_socket e) = None → route_of h g a = None →
    (∀ alias b m, alias ∈ en_aliases e → name_of h g alias b = Some m → list_to_set (en_networks e) ∩ m = ∅) →
    ∃ h', add resolve h g e = Ok h'.
  Proof.
    intros Hok [routes Eg] Ea Em Er Hal. unfold add, ipv4. rewrite Ea. cbn [mbind res_bind]. rewrite Eg.
    destruct (proj1 (ok_group h Hok g)) as [names En]; [by rewrite Eg|]. rewrite En.
    unfold route_of in Er. rewrite Eg in Er. cbn [mbind option_bind] in Er.
    rewrite !bool_decide_eq_false_2 by (rewrite ?Em, ?Er; apply is_Some_None). cbn [orb].
    assert (Ht : existsb (alias_taken names (list_to_set (en_networks e))) (en_aliases e) = false).
    { apply not_true_iff_false. rewrite existsb_exists. intros (alias & Hin & Ht). apply list_elem_of_In in Hin.
      unfold alias_taken in Ht. apply existsb_exists in Ht as ([b m] & Hb & Hn). apply list_elem_of_In, elem_of_map_to_list in Hb.
      simpl in Hn. bool_prop. apply Hn. apply (Hal alias b m Hin). unfold name_of. rewrite En. cbn [mbind option_bind].
      destruct (names !! alias) as [entries|]; simpl in *; [done|by rewrite lookup_empty in Hb]. }
    rewrite Ht. cbn [raise_if mbind res_bind]. eauto.
  Qed.
End effects.

Lemma NoDup_od_del {K V A} `{EqDecision K} (f : K * V → A) k d : NoDup (map f d) → NoDup (map f (od_del k d)).
Proof.
  unfold od_del. induction d as [|p d IH]; [done|]. intros [Hx Hl]%NoDup_cons. rewrite filter_cons.
  case_decide; [|by apply IH]. apply NoDup_cons. split; [|by apply IH].
  intros (q & E & [_ Hq]%list_elem_of_filter)%list_elem_of_fmap. apply Hx. rewrite E. apply list_elem_of_fmap. eauto.
Qed.

Lemma od_set_fresh {K V} `{EqDecision K} (k : K) (v : V) d : od_get k d = None → od_set k v d = d ++ [(k, v)].
Proof. induction d as [|[k' v'] d IH]; simpl; [done|]. case_decide; [done|]. intros Ed. by rewrite IH. Qed.

(** * The files and the router agree *)

Section coherence.
  Context (resolve : string → string).

  (** An entry of a file is a member of the router with its aliases. *)
Definition placed (h : hub) (id : string) (e : entry) : Prop :=
    ∃ a, ip_of_string (en_address e) = Some a
      ∧ route_of h id a = Some (RouteTo (resolve (en_socket e)) (list_to_set (en_networks e)))
      ∧ h_aliases h !! resolve (en_socket e) = Some (en_aliases e) ∧ NoDup (en_aliases e).

Definition addressed (e : entry) : Prop := ∃ o, 2 ≤ o < 65535 ∧ en_address e = dotted (base_address + o).

  (** Members are keyed by their identities and have different addresses of the
      network 10.231.0.0. *)
Record shape (f : network_file) : Prop := {
    sh_state : nf_state f = "ready"%string ∨ nf_state f = "deleted"%string ∧ nf_members f = [];
    sh_keys : od_wf (nf_members f);
    sh_next : 2 ≤ nf_next f ≤ 65535;
    sh_member k e : (k, e) ∈ nf_members f → k = en_identity e ∧ addressed e;
    sh_distinct : NoDup (map (λ p, en_address p.2) (nf_members f)) }.

Record file_ok (h : hub) (id : string) (f : network_file) : Prop := {
    fo_group : is_Some (h_groups h !! id);
    fo_placed k e : (k, e) ∈ nf_members f → placed h id e;
    fo_routes a r : route_of h id a = Some r → ∃ k e, (k, e) ∈ nf_members f ∧ ip_of_string (en_address e) = Some a }.

Definition ready (f : network_file) : Prop := nf_state f = "ready"%string.

Record coherent (s : networks) : Prop := {
    co_hub : hub_ok (nw_hub s);
    co_file id f : nw_files s !! id = Some f → network_id id = Ok () ∧ shape f;
    co_ready id f : nw_files s !! id = Some f → ready f → file_ok (nw_hub s) id f;
    co_deleted id f : nw_files s !! id = Some f → ¬ ready f → h_groups (nw_hub s) !! id = None;
    co_missing id : network_id id = Ok () → nw_files s !! id = None → h_groups (nw_hub s) !! id = None }.

  (** What a network of the router looks like is the same in two states. *)
Definition same_for (h h' : hub) (id : string) : Prop :=
    (∀ a, route_of h' id a = route_of h id a)
    ∧ (∀ a r, route_of h id a = Some r → h_aliases h' !! rt_path r = h_aliases h !! rt_path r)
    ∧ (is_Some (h_groups h' !! id) ↔ is_Some (h_groups h !! id)).

Lemma file_ok_same h h' id f : same_for h h' id → file_ok h id f → file_ok h' id f.
  Proof.
    intros (Hr & Ha & Hg) [H1 H2 H3]. split.
    - by apply Hg.
    - intros k e Hin. destruct (H2 k e Hin) as (a & Ea & Er & Eal & Hnd). exists a.
      rewrite Hr. split_and!; try done. rewrite <- Eal. apply (Ha a _ Er).
    - intros a r. rewrite Hr. apply H3.
  Qed.

Lemma coherent_same s h' : coherent s → hub_ok h' →
    (∀ id, network_id id = Ok () → same_for (nw_hub s) h' id) → coherent (s <| nw_hub := h' |>).
  Proof.
    intros [H1 H2 H3 H4 H5] Hok Hsame.
    assert (Hn : ∀ id, network_id id = Ok () → h_groups (nw_hub s) !! id = None → h_groups h' !! id = None).
    { intros id Hid E. destruct (Hsame id Hid) as (_ & _ & Hg). apply eq_None_not_Some. rewrite Hg, E. apply is_Some_None. }
    split; simpl; try done.
    - intros id f E Hr. eapply file_ok_same; [apply Hsame; by eapply H2|by apply H3].
    - intros id f E Hr. apply Hn; [by eapply H2|by eapply H4].
    - intros id Hid E. apply Hn; [done|by apply H5].
  Qed.

Lemma coherent_update s id f' h' : coherent s → hub_ok h' → network_id id = Ok () → shape f' →
    (∀ id', id' ≠ id → same_for (nw_hub s) h' id') →
    (ready f' → file_ok h' id f') → (¬ ready f' → h_groups h' !! id = None) →
    coherent (s <| nw_files := <[id := f']> (nw_files s) |> <| nw_hub := h' |>).
  Proof.
    intros [H1 H2 H3 H4 H5] Hok Hid Hsh Hsame Hr Hd.
    assert (Hn : ∀ id', id' ≠ id → h_groups (nw_hub s) !! id' = None → h_groups h' !! id' = None).
    { intros id' Hne E. destruct (Hsame id' Hne) as (_ & _ & Hg). apply eq_None_not_Some. rewrite Hg, E. apply is_Some_None. }
    split; simpl; try done.
    - intros id' f [[<- <-]|[Hne E]]%lookup_insert_Some; [done|by apply H2].
    - intros id' f [[<- <-]|[Hne E]]%lookup_insert_Some Hf; [by apply Hr|].
      eapply file_ok_same; [by apply Hsame|by apply H3].
    - intros id' f [[<- <-]|[Hne E]]%lookup_insert_Some Hf; [by apply Hd|]. apply Hn; [done|by eapply H4].
    - intros id' Hid' [E Hne]%lookup_insert_None. apply Hn; [done|by apply H5].
  Qed.

Lemma address_inj e e' a : addressed e → addressed e' →
    ip_of_string (en_address e) = Some a → ip_of_string (en_address e') = Some a → en_address e = en_address e'.
  Proof.
    intros (o & Ho & Eo) (o' & Ho' & Eo'). rewrite Eo, Eo', !dotted_read by done. intros [= <-] [= E].
    do 2 f_equal. lia.
  Qed.

  (** ** Operations *)

Lemma create_coherent writes s id : network_id id = Ok () → coherent s →
    coherent (create_network resolve writes s id).1.
  Proof.
    intros Hid Hs. unfold create_network. destruct (nw_files s !! id) as [f|] eqn:Ef.
    { by case_bool_decide. }
    destruct writes; [|done]. simpl.
    pose proof (co_missing s Hs id Hid Ef) as Eg.
    destruct (register_empty resolve (nw_hub s) id Eg) as (h & E & Hg & Hr & Hal & Hgs). rewrite E. simpl.
    apply coherent_update; try done.
    - eapply register_ok; [by apply co_hub|exact E].
    - split; simpl; try done; [by left|apply NoDup_nil_2|by intros ? ? ?%not_elem_of_nil|apply NoDup_nil_2].
    - intros id' Hne. split; [done|]. split; [intros a r _; by rewrite Hal|]. by rewrite Hgs.
    - intros _. split; [done|by intros ? ? ?%not_elem_of_nil|]. intros a r. rewrite Hr. unfold route_of. by rewrite Eg.
  Qed.

Lemma delete_coherent writes s id f : coherent s → nw_files s !! id = Some f →
    coherent (delete_network writes s id f).1.
  Proof.
    intros Hs Ef. unfold delete_network. destruct (nf_members f) as [|m l] eqn:Em; [|done].
    destruct writes; [|done]. cbn [negb fst].
    destruct (co_file s Hs id f Ef) as [Hid Hsh].
    destruct (unregister_others resolve (nw_hub s) id (co_hub s Hs)) as (Hg & Hr & Hal & Hgs).
    apply coherent_update; try done.
    - apply (unregister_ok resolve). by apply co_hub.
    - destruct Hsh as [_ H2 H3 H4 H5]. split; simpl; [by right|done..].
    - intros id' Hne. split; [intros a; by apply Hr|]. split; [|by rewrite Hgs].
      intros a r Er. by eapply Hal.
  Qed.

Lemma leave_coherent writes s id f member : coherent s → nw_files s !! id = Some f →
    coherent (leave_network writes s id f member).1.
  Proof.
    intros Hs Ef. unfold leave_network. destruct (od_get member (nf_members f)) as [e|] eqn:Em; [|done].
    destruct writes; [|done]. cbn [negb].
    destruct (co_file s Hs id f Ef) as [Hid [[Hst|[_ Hnil]] H2 H3 H4 H5]]; [|by rewrite Hnil in Em].
    pose proof (co_hub s Hs) as Hok. destruct (co_ready s Hs id f Ef Hst) as [Hg Hpl Hro].
    pose proof (od_get_elem _ _ _ Em) as Hin. destruct (Hpl _ _ Hin) as (a & Ea & Er & Eal & Hnd).
    destruct (remove_effect resolve (nw_hub s) id (en_address e) a _ Hok Ea Er) as (h' & E & Hr & _ & _ & Hal & _ & Hgs & _).
    simpl nw_hub. rewrite E. simpl in Hal. cbn [fst]. apply coherent_update; try done.
    - destruct (remove_ok resolve (nw_hub s) id (en_address e) Hok ltac:(by rewrite Ea)) as (h2 & E2 & Hok2). congruence.
    - split; simpl; [by left|by apply od_wf_del|done|by intros k e' [? _]%elem_of_od_del; apply H4|by apply NoDup_od_del].
    - intros id' Hne. split; [intros b; by rewrite Hr, decide_False by tauto|]. split; [|by rewrite Hgs].
      intros b r Eb. rewrite Hal, lookup_delete_ne; [done|]. intros Ep.
      destruct (ok_route _ Hok _ _ _ Er) as [Em1 _]. destruct (ok_route _ Hok _ _ _ Eb) as [Em2 _].
      simpl in Em1. rewrite Ep, Em2 in Em1. by injection Em1 as ->.
    - intros _. split; [by apply Hgs|..].
      + intros k x [Hx Hk]%elem_of_od_del. simpl in Hk. destruct (Hpl _ _ Hx) as (b & Eb & Erb & Ealb & Hndb).
        destruct (H4 _ _ Hx) as [-> Hax]. destruct (H4 _ _ Hin) as [-> Hae].
        assert (Hab : b ≠ a).
        { intros ->. pose proof (address_inj _ _ _ Hax Hae Eb Ea) as Eadd. apply Hk.
          assert (Epair : (en_identity x, x) = (en_identity e, e)) by (by eapply (NoDup_map_inj (λ p, en_address p.2))).
          by injection Epair. }
        exists b. split; [done|]. rewrite Hr, decide_False by tauto. split_and!; try done.
        rewrite Hal, lookup_delete_ne; [done|]. intros Ep.
        destruct (ok_route _ Hok _ _ _ Er) as [Em1 _]. destruct (ok_route _ Hok _ _ _ Erb) as [Em2 _].
        simpl in Em1, Em2. rewrite Ep, Em2 in Em1. by injection Em1.
      + intros b r. rewrite Hr. case_decide as D; [done|]. intros Eb. destruct (Hro b r Eb) as (k & x & Hx & Ex).
        exists k, x. split; [|done]. apply elem_of_od_del. split; [done|]. simpl. intros ->.
        apply D. split; [done|]. pose proof (od_get_wf _ _ _ H2 Hx) as Eg. rewrite Em in Eg. injection Eg as <-. congruence.
  Qed.

Lemma join_coherent writes s id f e : coherent s → nw_files s !! id = Some f → ready f → NoDup (en_aliases e) →
    coherent (join_network resolve writes s id f e).1.
  Proof.
    intros Hs Ef Hst Hnd. unfold join_network. destruct (od_get (en_identity e) (nf_members f)) as [prev|] eqn:Em.
    { by destruct (differs prev e). }
    destruct (pick_address _ _ _) as [[address next]|] eqn:Ep; [|done].
    destruct (co_file s Hs id f Ef) as [Hid [_ H2 H3 H4 H5]].
    apply pick_address_spec in Ep as (Hfresh & Hnext & o & Ho & Eo); [|done].
    pose proof (co_hub s Hs) as Hok. pose proof (co_ready s Hs id f Ef Hst) as Hfo.
    destruct (add resolve (nw_hub s) id (with_address e address)) as [h|x] eqn:Eadd; [|done].
    pose proof (add_ok resolve _ _ (with_address e address) _ Hok Hnd Eadd) as Hok'.
    apply add_inv in Eadd as (a & path & n & Ea & -> & -> & Hg & Hfree & Hpath & _ & Hr & _ & Hm & Hal & _ & Hgs & _).
    simpl in Ea, Hpath, Hm, Hal, Hr.
    assert (Hother : ∀ id' b r, route_of (nw_hub s) id' b = Some r → rt_path r ≠ resolve (en_socket e)).
    { intros id' b r Er Epath. destruct (ok_route _ Hok _ _ _ Er) as [Em' _]. rewrite Epath, Hpath in Em'. done. }
    destruct writes; cbn [negb fst].
    2: { destruct (remove_effect resolve h id address a (RouteTo (resolve (en_socket e)) (list_to_set (en_networks e))) Hok' Ea)
           as (h2 & E2 & Hr2 & _ & _ & Hal2 & _ & Hgs2 & _); [by rewrite Hr, decide_True|].
         destruct (remove_ok resolve h id address Hok' ltac:(by rewrite Ea)) as (h3 & E3 & Hok3).
         rewrite E2 in E3. injection E3 as <-. rewrite E2. apply coherent_same; [done|done|].
         intros id' _. split.
         - intros b. rewrite Hr2, Hr. case_decide as D; [|done]. destruct D as [-> ->]. by rewrite Hfree.
         - split; [|by rewrite Hgs2, Hgs]. intros b r Er. apply Hother in Er. simpl in Hal2.
           rewrite Hal2, Hal, lookup_delete_ne, lookup_insert_ne by congruence. done. }
    pose proof (od_set_fresh (en_identity e) (with_address e address) _ Em) as Hset.
    apply coherent_update; try done.
    - split; simpl; [by left|by apply od_wf_set|done|..]; rewrite Hset.
      + intros k x [Hin|[= -> ->]%list_elem_of_singleton]%elem_of_app; [by apply H4|]. split; [done|]. by exists o.
      + rewrite map_app. apply NoDup_app. split_and!; [done| |apply NoDup_singleton].
        intros x Hx ->%list_elem_of_singleton. done.
    - intros id' Hne. split; [intros b; by rewrite Hr, decide_False by tauto|]. split; [|by rewrite Hgs].
      intros b r Er. apply Hother in Er. by rewrite Hal, lookup_insert_ne by congruence.
    - intros _. split; [by apply Hgs|..]; simpl; rewrite Hset.
      + intros k x [Hin|[= -> ->]%list_elem_of_singleton]%elem_of_app.
        * destruct (fo_placed _ _ _ Hfo k x Hin) as (b & Eb & Erb & Ealb & Hndb). exists b. rewrite Hr.
          rewrite decide_False by (intros [_ ->]; congruence). split_and!; try done.
          apply Hother in Erb. simpl in Erb. by rewrite Hal, lookup_insert_ne by congruence.
        * exists a. rewrite Hr, decide_True by done. split_and!; try done. simpl. by rewrite Hal, lookup_insert_eq.
      + intros b r. rewrite Hr. case_decide as D.
        * intros _. destruct D as [_ ->]. exists (en_identity e), (with_address e address). split; [|done].
          apply elem_of_app. right. by left.
        * intros Er. destruct (fo_routes _ _ _ Hfo b r Er) as (k & x & Hx & Ex). exists k, x. split; [|done].
          apply elem_of_app. by left.
  Qed.

Lemma dispatch_coherent remote writes s op id : coherent s →
    match op with NetworkJoin e => NoDup (en_aliases e) | _ => True end →
    coherent (dispatch resolve remote writes s op id).1.
  Proof.
    intros Hs Hv. unfold dispatch. destruct (network_id id) as [[]|x] eqn:Eid; [|done].
    destruct (nw_files s !! id) as [f|] eqn:Ef; [destruct remote|destruct remote; [done|]].
    3: destruct op; try done; by apply create_coherent.
    all: destruct op; try by apply create_coherent.
    all: try by apply delete_coherent.
    all: try by apply leave_coherent.
    all: case_bool_decide as Hr; try done.
    all: by apply join_coherent.
  Qed.

  (** ** A new process *)

  (** Part of a router: routes and aliases are among those of another. *)
Definition part_of (h H : hub) : Prop :=
    (∀ g a r, route_of h g a = Some r → route_of H g a = Some r)
    ∧ (∀ p l, h_aliases h !! p = Some l → h_aliases H !! p = Some l).

Lemma part_name h H g alias a n : hub_ok h → hub_ok H → part_of h H →
    name_of h g alias a = Some n → name_of H g alias a = Some n.
  Proof.
    intros Hh HH [Hr Ha] En. destruct (ok_name h Hh _ _ _ _ En) as (r & l & Er & <- & El & Hin).
    apply Hr in Er. apply Ha in El. destruct (ok_alias H HH _ _ El) as (_ & m & Em & Hall).
    destruct (ok_route H HH _ _ _ Er) as [Em' _]. rewrite Em in Em'. injection Em' as ->. by apply Hall.
  Qed.

  (** A member of the whole can be added to a part that lacks it. *)
Lemma add_part h H g e : hub_ok h → hub_ok H → part_of h H → is_Some (h_groups h !! g) → placed H g e →
    (∀ a, ip_of_string (en_address e) = Some a → route_of h g a = None) →
    ∃ h', add resolve h g e = Ok h' ∧ hub_ok h' ∧ part_of h' H ∧ placed h' g e
    ∧ (∀ g', is_Some (h_groups h' !! g') ↔ is_Some (h_groups h !! g'))
    ∧ (∀ g' e', placed h g' e' → placed h' g' e')
    ∧ (∀ g' b, ¬ (g' = g ∧ ip_of_string (en_address e) = Some b) → route_of h' g' b = route_of h g' b).
  Proof.
    intros Hh HH Hpart Hg (a & Ea & Er & Eal & Hnd) Hnew. specialize (Hnew a Ea). destruct Hpart as [Hpr Hpa].
    destruct (ok_route H HH _ _ _ Er) as [Em _]. simpl in Em.
    assert (Hpath : h_members h !! resolve (en_socket e) = None).
    { apply eq_None_not_Some. intros [m Em']. pose proof (ok_member h Hh _ _ Em') as Erm.
      pose proof (Hpr _ _ _ Erm) as ErH. destruct (ok_route H HH _ _ _ ErH) as [EmH _]. simpl in EmH.
      rewrite Em in EmH. injection EmH as Eg Eb _. rewrite <- Eg, <- Eb, Hnew in Erm. done. }
    destruct (add_succeeds resolve h g e a Hh Hg Ea Hpath Hnew) as [h' E].
    { intros alias b m Hin En. pose proof (part_name _ _ _ _ _ _ Hh HH (conj Hpr Hpa) En) as EnH.
      destruct (ok_alias H HH _ _ Eal) as (_ & m' & Em' & Hall). rewrite Em in Em'. injection Em' as <-.
      specialize (Hall alias Hin). simpl in Hall.
      eapply (ok_distinct H HH g alias a b); [done|done|]. intros <-.
      destruct (ok_name h Hh _ _ _ _ En) as (r & l & Err & _). by rewrite Hnew in Err. }
    exists h'. split; [done|]. split; [exact (add_ok resolve h g e h' Hh Hnd E)|].
    apply add_inv in E as (a' & path & n & Ea' & -> & -> & _ & _ & _ & _ & Hr & _ & Hm & Hal & _ & Hgs & _).
    rewrite Ea in Ea'. injection Ea' as <-. split_and!.
    - split.
      + intros g' b r. rewrite Hr. case_decide as D; [|apply Hpr]. destruct D as [-> ->]. intros [= <-]. done.
      + intros p l. rewrite Hal. intros [[<- <-]|[_ El]]%lookup_insert_Some; [done|by apply Hpa].
    - exists a. rewrite Hr, decide_True, Hal, lookup_insert_eq by done. done.
    - done.
    - intros g' e' (b & Eb & Erb & Ealb & Hndb). exists b. rewrite Hr.
      rewrite decide_False by (intros [-> ->]; congruence). split_and!; try done.
      rewrite Hal, lookup_insert_ne; [done|]. intros Ep. destruct (ok_route h Hh _ _ _ Erb) as [Emb _].
      simpl in Emb. rewrite <- Ep, Hpath in Emb. done.
    - intros g' b D. rewrite Hr, decide_False; [done|]. intros [-> ->]. tauto.
  Qed.

Lemma restore_members h H id l : hub_ok h → hub_ok H → part_of h H → is_Some (h_groups h !! id) →
    (∀ e, e ∈ l → placed H id e ∧ addressed e) → NoDup (map en_address l) →
    (∀ e a, e ∈ l → ip_of_string (en_address e) = Some a → route_of h id a = None) →
    ∃ h', res_fold (λ h m, add resolve h id m) h l = Ok h' ∧ hub_ok h' ∧ part_of h' H
    ∧ (∀ g', is_Some (h_groups h' !! g') ↔ is_Some (h_groups h !! g'))
    ∧ (∀ e, e ∈ l → placed h' id e) ∧ (∀ g' e', placed h g' e' → placed h' g' e')
    ∧ (∀ g' b r, route_of h' g' b = Some r →
         route_of h g' b = Some r ∨ g' = id ∧ ∃ e, e ∈ l ∧ ip_of_string (en_address e) = Some b).
  Proof.
    revert h. induction l as [|e l IH]; intros h Hh HH Hpart Hg Hpl Hnd Hnew; cbn [res_fold].
    { exists h. split_and!; try done; [by intros ? ?%not_elem_of_nil|by left]. }
    apply NoDup_cons in Hnd as [Hne Hnd]. destruct (Hpl e ltac:(by left)) as [Hple Hadde].
    destruct (add_part h H id e Hh HH Hpart Hg Hple) as (h1 & E & Hok1 & Hpart1 & Hpl1 & Hgs1 & Hkeep1 & Hr1).
    { intros a. by apply Hnew; left. }
    rewrite E. cbn [mbind res_bind]. destruct (IH h1) as (h' & E' & Hok' & Hpart' & Hgs' & Hall & Hkeep & Hr'); try done.
    - by apply Hgs1.
    - intros x Hx. apply Hpl. by right.
    - intros x a Hx Ea. rewrite Hr1; [by apply (Hnew x); [right|]|]. intros [_ Ea'].
      apply Hne. destruct (Hpl x ltac:(by right)) as [_ Haddx]. rewrite (address_inj e x a Hadde Haddx Ea' Ea).
      by apply list_elem_of_fmap_2.
    - exists h'. split; [done|]. split; [done|]. split; [done|]. split_and!.
      + intros g'. by rewrite Hgs', Hgs1.
      + intros x [->|Hx]%elem_of_cons; [by apply Hkeep|by apply Hall].
      + intros g' x Hx. by apply Hkeep, Hkeep1.
      + intros g' b r Er. destruct (Hr' g' b r Er) as [E1|[-> (x & Hx & Ex)]].
        * destruct (decide (g' = id ∧ ip_of_string (en_address e) = Some b)) as [[-> Eb]|D].
          -- right. split; [done|]. exists e. split; [by left|done].
          -- left. by rewrite <- Hr1.
        * right. split; [done|]. exists x. split; [by right|done].
  Qed.

  (** What a file needs to be restored into part of a router *)
Definition restorable (H : hub) (p : string * network_file) : Prop :=
    shape p.2 ∧ (ready p.2 → file_ok H p.1 p.2).

Lemma restore_file_ok h H p : hub_ok h → hub_ok H → part_of h H → h_groups h !! p.1 = None → restorable H p →
    ∃ h', restore_file resolve h p = Ok h' ∧ hub_ok h' ∧ part_of h' H ∧ (ready p.2 → file_ok h' p.1 p.2)
    ∧ (∀ g, is_Some (h_groups h' !! g) ↔ is_Some (h_groups h !! g) ∨ g = p.1 ∧ ready p.2)
    ∧ (∀ g e, placed h g e → placed h' g e)
    ∧ (∀ g b r, g ≠ p.1 → route_of h' g b = Some r → route_of h g b = Some r).
  Proof.
    destruct p as [id f]. simpl. intros Hh HH Hpart Hg [[Hst Hk Hx Hm Hd] Hfo]. simpl in Hfo. unfold restore_file. simpl.
    case_bool_decide as Hr.
    2: { exists h. split_and!; try done. intros g. tauto. }
    destruct (Hfo Hr) as [_ Hpl Hro].
    destruct (register_empty resolve h id Hg) as (h1 & E1 & Hg1 & Hr1 & Hal1 & Hgs1). rewrite E1. cbn [mbind res_bind].
    assert (Hok1 : hub_ok h1) by (eapply register_ok; [exact Hh|exact E1]).
    assert (Hmem : ∀ e, e ∈ map snd (nf_members f) → ∃ k, (k, e) ∈ nf_members f).
    { intros e He. apply list_elem_of_fmap in He as ([k x] & -> & Hin). by exists k. }
    destruct (restore_members h1 H id (map snd (nf_members f))) as (h' & E' & Hok' & Hpart' & Hgs' & Hall & Hkeep & Hr');
      try done.
    - split; intros *; [rewrite Hr1; apply Hpart|rewrite Hal1; apply Hpart].
    - intros e [k Hin]%Hmem. split; [by eapply Hpl|by apply (Hm k e)].
    - by rewrite map_map.
    - intros e a _ _. rewrite Hr1. unfold route_of. by rewrite Hg.
    - exists h'. split; [done|]. split; [done|]. split; [done|]. split_and!.
      + intros _. split; [by apply Hgs'|..].
        * intros k e Hin. apply Hall. apply list_elem_of_fmap. by exists (k, e).
        * intros a r Er. destruct (Hr' _ _ _ Er) as [E2|[_ (e & He & Ea)]].
          -- rewrite Hr1 in E2. unfold route_of in E2. by rewrite Hg in E2.
          -- apply Hmem in He as [k Hin]. by exists k, e.
      + intros g. rewrite Hgs'. destruct (decide (g = id)) as [->|Hne]; [rewrite Hg; split; [by right|done]|].
        rewrite Hgs1 by done. tauto.
      + intros g e (a & Ea & Er & Eal & Hnd). apply Hkeep. exists a. by rewrite Hr1, Hal1.
      + intros g b r Hne Er. destruct (Hr' _ _ _ Er) as [E2|[? _]]; [by rewrite Hr1 in E2|done].
  Qed.

Lemma restore_ok files h H : hub_ok h → hub_ok H → part_of h H → NoDup files.*1 →
    (∀ p, p ∈ files → h_groups h !! p.1 = None ∧ restorable H p) →
    ∃ h', restore resolve h files = Ok h' ∧ hub_ok h' ∧ (∀ p, p ∈ files → ready p.2 → file_ok h' p.1 p.2)
    ∧ (∀ g, is_Some (h_groups h' !! g) → is_Some (h_groups h !! g) ∨ ∃ p, p ∈ files ∧ p.1 = g ∧ ready p.2)
    ∧ (∀ g e, placed h g e → placed h' g e)
    ∧ (∀ g b r, g ∉ files.*1 → route_of h' g b = Some r → route_of h g b = Some r)
    ∧ (∀ g, is_Some (h_groups h !! g) → is_Some (h_groups h' !! g)).
  Proof.
    unfold restore. revert h. induction files as [|p files IH]; intros h Hh HH Hpart Hnd Hf; cbn [res_fold].
    { exists h. split_and!; try done; [by intros ? ?%not_elem_of_nil|by left]. }
    simpl in Hnd. apply NoDup_cons in Hnd as [Hnp Hnd]. destruct (Hf p ltac:(by left)) as [Hg Hres].
    destruct (restore_file_ok h H p Hh HH Hpart Hg Hres) as (h1 & E1 & Hok1 & Hpart1 & Hfo1 & Hgs1 & Hkeep1 & Hr1).
    rewrite E1. cbn [mbind res_bind].
    destruct (IH h1) as (h' & E' & Hok' & Hfo' & Hgs' & Hkeep' & Hr' & Hmono); try done.
    { intros q Hq. destruct (Hf q ltac:(by right)) as [Hgq Hrq]. split; [|done]. apply eq_None_not_Some. rewrite Hgs1.
      rewrite Hgq. intros [?%is_Some_None|[Eq _]]; [done|]. apply Hnp. rewrite <- Eq. by apply list_elem_of_fmap_2. }
    exists h'. split_and!; try done.
    - intros q [->|Hq]%elem_of_cons Hrq; [|by apply Hfo']. destruct (Hfo1 Hrq) as [F1 F2 F3]. split.
      + by apply Hmono.
      + intros k e Hin. by eapply Hkeep', F2.
      + intros a r Er. apply (F3 a r). by apply Hr'.
    - intros g Hgg. destruct (Hgs' g Hgg) as [[?|[-> ?]]%Hgs1|(q & Hq & ? & ?)]; [by left|right..].
      + exists p. split; [by left|done].
      + exists q. split; [by right|done].
    - intros g e He. by apply Hkeep', Hkeep1.
    - intros g b r Hng Er. simpl in Hng. apply not_elem_of_cons in Hng as [Hne Hng]. apply Hr1; [done|]. by apply Hr'.
    - intros g Hgg. apply Hmono, Hgs1. by left.
  Qed.
End coherence.

(** * Every run *)

(** The service groups of running sandboxes use the same router, under the
    identities of their sandboxes. A restart registers groups again, on part of
    the router there was, before it restores the networks. *)
Inductive network_step (resolve : string → string) (s : networks) : networks → Prop :=
  | step_dispatch remote writes op id :
      match op with NetworkJoin e => NoDup (en_aliases e) | _ => True end →
      network_step resolve s (dispatch resolve remote writes s op id).1
  | step_register g l h : network_id g ≠ Ok () → register resolve (nw_hub s) g l = Ok h →
      network_step resolve s (s <| nw_hub := h |>)
  | step_unregister g : network_id g ≠ Ok () →
      network_step resolve s (s <| nw_hub := unregister (nw_hub s) g |>)
  | step_frame frame origin :
      network_step resolve s (s <| nw_hub := (receive resolve (nw_hub s) frame origin).1 |>)
  | step_restart h0 files h :
      hub_ok h0 → part_of h0 (nw_hub s) → (∀ g, network_id g = Ok () → h_groups h0 !! g = None) →
      files ≡ₚ map_to_list (nw_files s) → restore resolve h0 files = Ok h →
      network_step resolve s (s <| nw_hub := h |>).

Definition network_reachable (resolve : string → string) : networks → Prop :=
  rtc (network_step resolve) (Networks ∅ empty_hub).

(** Restoring from the files gives a router that agrees with them. *)
Lemma restore_coherent resolve s h0 files : coherent resolve s → hub_ok h0 → part_of h0 (nw_hub s) →
  (∀ g, network_id g = Ok () → h_groups h0 !! g = None) → files ≡ₚ map_to_list (nw_files s) →
  ∃ h, restore resolve h0 files = Ok h ∧ coherent resolve (s <| nw_hub := h |>).
Proof.
  intros Hs H0 Hpart Hg Hf.
  assert (Hin : ∀ id f, (id, f) ∈ files ↔ nw_files s !! id = Some f).
  { intros id f. by rewrite Hf, elem_of_map_to_list. }
  destruct (restore_ok resolve files h0 (nw_hub s) H0 (co_hub _ s Hs) Hpart) as (h & E & Hok & Hfo & Hgs & _).
  - rewrite Hf. apply NoDup_fst_map_to_list.
  - intros [id f] Hp%Hin. destruct (co_file _ s Hs id f Hp) as [Hid Hsh]. split; [by apply Hg|]. split; [done|].
    intros Hr. by apply (co_ready _ s Hs).
  - exists h. split; [done|]. destruct Hs as [_ H2 _ H4 H5]. split; simpl; try done.
    + intros id f Ef Hr. by apply (Hfo (id, f)); [apply Hin|].
    + intros id f Ef Hr. apply eq_None_not_Some. intros [Hgg|([id' f'] & Hp & <- & Hr')]%Hgs.
      * rewrite Hg in Hgg; [by apply is_Some_None in Hgg|]. by eapply H2.
      * apply Hin in Hp. simpl in *. congruence.
    + intros id Hid Ef. apply eq_None_not_Some. intros [Hgg|([id' f'] & Hp & <- & Hr')]%Hgs.
      * rewrite Hg in Hgg; [by apply is_Some_None in Hgg|done].
      * apply Hin in Hp. simpl in *. congruence.
Qed.

Lemma step_coherent resolve s s' : coherent resolve s → network_step resolve s s' → coherent resolve s'.
Proof.
  intros Hs H. pose proof (co_hub _ s Hs) as Hok.
  destruct H as [remote writes op id Hv|g l h Hg E|g Hg|frame origin|h0 files h H0 Hpart Hg Hf E].
  - by apply dispatch_coherent.
  - apply coherent_same; [done|by eapply register_ok|]. apply register_others in E as (_ & Hr & Hal & Hgs).
    intros id Hid. assert (Hne : id ≠ g) by (by intros ->). split; [intros a; by apply Hr|].
    split; [intros a r _; by rewrite Hal|by rewrite Hgs].
  - apply coherent_same; [done|by apply (unregister_ok resolve)|].
    destruct (unregister_others resolve (nw_hub s) g Hok) as (_ & Hr & Hal & Hgs).
    intros id Hid. assert (Hne : id ≠ g) by (by intros ->). split; [intros a; by apply Hr|].
    split; [intros a r Er; by eapply Hal|by rewrite Hgs].
  - apply coherent_same; [done|by apply receive_ok|]. intros id _. unfold receive. case_match; [done|].
    destruct (sender resolve (nw_hub s) origin) as [h' from] eqn:E. simpl.
    apply sender_spec in E as [[->|(p & _ & ->)] _]; done.
  - destruct (restore_coherent resolve s h0 files Hs H0 Hpart Hg Hf) as (h' & E' & Hc). congruence.
Qed.

Lemma empty_coherent resolve : coherent resolve (Networks ∅ empty_hub).
Proof. split; simpl; intros *; rewrite ?lookup_empty; try done. apply empty_hub_ok. Qed.

Lemma reachable_coherent resolve s : network_reachable resolve s → coherent resolve s.
Proof.
  intros H. unfold network_reachable in H. remember (Networks ∅ empty_hub) as s0 eqn:E0.
  assert (Hc : coherent resolve s0) by (subst; apply empty_coherent). clear E0.
  induction H as [|x y z Hxy _ IH]; [done|]. apply IH. by eapply step_coherent.
Qed.

(** In every run, with failed writes, other groups on the router and restarts,
    the members of a ready network have different addresses of 10.231.0.0/16, and
    the router routes to exactly them and publishes exactly their aliases; a
    network that is deleted or unknown has no routes. *)
Theorem networks_agree resolve s id : network_reachable resolve s → network_id id = Ok () →
  match nw_files s !! id with
  | Some f =>
      if decide (nf_state f = "ready"%string) then
        NoDup (map (λ p, en_address p.2) (nf_members f))
        ∧ (∀ k e, (k, e) ∈ nf_members f → ∃ a, ip_of_string (en_address e) = Some a
             ∧ base_address + 2 ≤ a < base_address + 65535
             ∧ route_of (nw_hub s) id a = Some (RouteTo (resolve (en_socket e)) (list_to_set (en_networks e)))
             ∧ h_aliases (nw_hub s) !! resolve (en_socket e) = Some (en_aliases e))
        ∧ (∀ a, is_Some (route_of (nw_hub s) id a) → ∃ k e, (k, e) ∈ nf_members f ∧ ip_of_string (en_address e) = Some a)
      else nf_members f = [] ∧ ∀ a, route_of (nw_hub s) id a = None
  | None => ∀ a, route_of (nw_hub s) id a = None
  end.
Proof.
  intros Hs%reachable_coherent Hid. destruct (nw_files s !! id) as [f|] eqn:Ef.
  - destruct (co_file _ s Hs id f Ef) as [_ Hsh]. case_decide as Hr.
    + destruct (co_ready _ s Hs id f Ef Hr) as [_ Hpl Hro]. split; [apply Hsh|]. split.
      * intros k e Hin. destruct (Hpl k e Hin) as (a & Ea & Er & Eal & _). exists a. split; [done|]. split; [|done].
        destruct (sh_member _ Hsh k e Hin) as [_ (o & Ho & Eo)]. rewrite Eo, dotted_read in Ea by done.
        injection Ea as <-. lia.
      * intros a [r Er]. by eapply Hro.
    + split; [destruct (sh_state _ Hsh) as [?|[_ ?]]; done|]. intros a. unfold route_of.
      by rewrite (co_deleted _ s Hs id f Ef Hr).
  - intros a. unfold route_of. by rewrite (co_missing _ s Hs id Hid Ef).
Qed.

(** C19: A new process restores the router from the files, in whatever order it
    reads them and with whatever groups were registered before: nothing is
    refused, and every network routes and names its members as before. *)
Theorem restart_rebuilds resolve s h0 files :
  network_reachable resolve s → hub_ok h0 → part_of h0 (nw_hub s) →
  (∀ g, network_id g = Ok () → h_groups h0 !! g = None) → files ≡ₚ map_to_list (nw_files s) →
  ∃ h, restore resolve h0 files = Ok h
  ∧ ∀ id, network_id id = Ok () →
      (∀ a, route_of h id a = route_of (nw_hub s) id a)
      ∧ (∀ alias a, name_of h id alias a = name_of (nw_hub s) id alias a).
Proof.
  intros Hs%reachable_coherent H0 Hpart Hg Hf.
  destruct (restore_coherent resolve s h0 files Hs H0 Hpart Hg Hf) as (h & E & Hc). exists h. split; [done|].
  assert (Hr : ∀ s1 s2 id a r, coherent resolve s1 → coherent resolve s2 → nw_files s1 = nw_files s2 →
    network_id id = Ok () → route_of (nw_hub s1) id a = Some r →
    route_of (nw_hub s2) id a = Some r ∧ h_aliases (nw_hub s1) !! rt_path r = h_aliases (nw_hub s2) !! rt_path r).
  { clear. intros s1 s2 id a r H1 H2 Ef Hid Er. destruct (nw_files s1 !! id) as [f|] eqn:E.
    2: { unfold route_of in Er. by rewrite (co_missing _ _ H1 id Hid E) in Er. }
    destruct (decide (ready f)) as [Hr|Hr].
    2: { unfold route_of in Er. by rewrite (co_deleted _ _ H1 id f E Hr) in Er. }
    destruct (fo_routes _ _ _ _ (co_ready _ _ H1 id f E Hr) a r Er) as (k & e & Hin & Ea).
    destruct (fo_placed _ _ _ _ (co_ready _ _ H1 id f E Hr) k e Hin) as (a1 & Ea1 & Er1 & Eal1 & _). rewrite Ef in E.
    destruct (fo_placed _ _ _ _ (co_ready _ _ H2 id f E Hr) k e Hin) as (a2 & Ea2 & Er2 & Eal2 & _).
    rewrite Ea in Ea1, Ea2. injection Ea1 as <-. injection Ea2 as <-. rewrite Er in Er1. injection Er1 as ->.
    split; [done|]. simpl. congruence. }
  assert (Hn : ∀ s1 s2 id alias a n, coherent resolve s1 → coherent resolve s2 → nw_files s1 = nw_files s2 →
    network_id id = Ok () → name_of (nw_hub s1) id alias a = Some n → name_of (nw_hub s2) id alias a = Some n).
  { intros s1 s2 id alias a n H1 H2 Ef Hid En.
    destruct (ok_name _ (co_hub _ _ H1) _ _ _ _ En) as (r & l & Er & <- & El & Hin).
    destruct (Hr s1 s2 id a r H1 H2 Ef Hid Er) as [Er2 Eal]. rewrite El in Eal. symmetry in Eal.
    destruct (ok_alias _ (co_hub _ _ H2) _ _ Eal) as (_ & m & Em & Hall). specialize (Hall alias Hin).
    destruct (ok_route _ (co_hub _ _ H2) _ _ _ Er2) as [Em' _]. rewrite Em in Em'. by injection Em' as ->. }
  intros id Hid. split.
  - intros a. apply option_eq. intros r. split; intros Er.
    + by apply (Hr _ s id a r Hc Hs eq_refl Hid).
    + by apply (Hr s (s <| nw_hub := h |>) id a r Hs Hc eq_refl Hid).
  - intros alias a. apply option_eq. intros n. split; intros En.
    + by apply (Hn (s <| nw_hub := h |>) s id alias a n Hc Hs eq_refl Hid).
    + by apply (Hn s (s <| nw_hub := h |>) id alias a n Hs Hc eq_refl Hid).
Qed.

(** * Retries and names *)

(** [membership] makes aliases distinct, as the router needs them. *)
Lemma names_distinct label values l : names label values = Ok l → NoDup l.
Proof.
  unfold names. enough (H : ∀ acc, NoDup acc → res_fold (add_name label) acc values = Ok l → NoDup l)
    by (apply H; constructor).
  induction values as [|v values IH]; intros acc Hacc; cbn [res_fold]; [by intros [= <-]|].
  intros (acc' & E & F)%bind_ok. apply (IH acc'); [|done]. unfold add_name, raise_if in E.
  destruct (negb (member_name v)); [done|]. cbn [mbind res_bind] in E. injection E as <-.
  case_bool_decide as Hin; [done|]. apply NoDup_app. split_and!; [done| |apply NoDup_singleton].
  intros x Hx ->%list_elem_of_singleton. done.
Qed.

Lemma membership_distinct id aliases networks m : membership id aliases networks = Ok m → NoDup (ms_aliases m).
Proof.
  unfold membership. intros (? & _ & E)%bind_ok. apply bind_ok in E as (sel & _ & E).
  apply bind_ok in E as (? & _ & E). apply bind_ok in E as (al & Eal & E). injection E as <-.
  by eapply names_distinct.
Qed.

(** A join whose answer was lost can be sent again. *)
Lemma join_retry resolve remote writes writes' s s' id e e' :
  dispatch resolve remote writes s (NetworkJoin e) id = (s', Ok (Route e')) → is_Some (nw_files s !! id) →
  dispatch resolve remote writes' s' (NetworkJoin e) id = (s', Ok (Route e')).
Proof.
  intros E [f Ef]. unfold dispatch in *. destruct (network_id id); [|done]. rewrite Ef in E. cbv zeta in E.
  destruct (negb _) eqn:Hr in E; [by destruct remote|].
  assert (Ej : join_network resolve writes s id f e = (s', Ok (Route e'))) by (by destruct remote). clear E.
  unfold join_network in Ej. destruct (od_get (en_identity e) (nf_members f)) as [prev|] eqn:Em.
  - destruct (differs prev e) eqn:Ed; [done|]. injection Ej as <- <-.
    assert (G : join_network resolve writes' s id f e = (s, Ok (Route prev))) by (unfold join_network; by rewrite Em, Ed).
    rewrite Ef, Hr. by destruct remote.
  - destruct (pick_address _ _ _) as [[address next]|]; [|done].
    destruct (add _ _ _ _) as [h|x]; [|done]. destruct writes; cbn [negb] in Ej; [|by destruct (remove h id address)].
    injection Ej as <- <-. simpl nw_files. rewrite lookup_insert_eq.
    match goal with |- context [join_network _ _ _ _ ?g _] => set (f' := g) end.
    assert (Hr' : negb (bool_decide (nf_state f' = "ready"%string)) = false) by exact Hr. rewrite Hr'.
    match goal with |- context [join_network _ _ ?t _ _ _] => set (t' := t) end.
    assert (G : join_network resolve writes' t' id f' e = (t', Ok (Route (with_address e address)))).
    { unfold join_network. simpl nf_members. rewrite od_get_set, decide_True by done.
      unfold differs. simpl. rewrite !bool_decide_eq_true_2 by done. done. }
    by destruct remote.
Qed.

Lemma part_empty H : part_of empty_hub H.
Proof. split; [intros g a r|intros p l]; simpl; unfold route_of; simpl; by rewrite lookup_empty. Qed.

(** * A run *)

Definition first_network : string := "net-00000000000000000000000000000000".
Definition joining : list network_op :=
  [NetworkCreate; NetworkJoin (Entry "a" "" "/a" ["default"] ["web"]);
   NetworkJoin (Entry "b" "" "/b" ["default"; "back"] ["db"]); NetworkLeave "a";
   NetworkJoin (Entry "c" "" "/c" ["back"] ["web"])].
Definition joined : networks :=
  foldl (λ s op, (dispatch id None true s op first_network).1) (Networks ∅ empty_hub) joining.

Lemma joined_reachable : network_reachable id joined.
Proof.
  unfold joined, joining. cbn [foldl].
  repeat (eapply rtc_r; [|apply step_dispatch; first [exact I|apply NoDup_singleton]]). apply rtc_refl.
Qed.

(** The hypotheses hold of the run; its members are reached at their addresses. *)
Lemma networks_agree_witness :
  ∃ f, nw_files joined !! first_network = Some f
  ∧ (nf_members f).*1 = ["b"; "c"]%string
  ∧ ∀ k e, (k, e) ∈ nf_members f → ∃ a, ip_of_string (en_address e) = Some a
      ∧ is_Some (route_of (nw_hub joined) first_network a).
Proof.
  pose proof (networks_agree id joined first_network joined_reachable ltac:(vm_compute; reflexivity)) as H.
  destruct (nw_files joined !! first_network) as [f|] eqn:Ef; [|vm_compute in Ef; discriminate Ef].
  exists f. split; [reflexivity|]. vm_compute in Ef. injection Ef as <-. split; [reflexivity|].
  destruct (decide _) as [_|Hn]; [|exfalso; apply Hn; reflexivity]. destruct H as (_ & H & _).
  intros k e Hin. destruct (H k e Hin) as (a & Ea & _ & Er & _). exists a. split; [exact Ea|]. rewrite Er. eexists. reflexivity.
Defined.

(** The router of the run is restored from its file. *)
Lemma restart_rebuilds_witness :
  ∃ h, restore id empty_hub (map_to_list (nw_files joined)) = Ok h
  ∧ ∀ a, route_of h first_network a = route_of (nw_hub joined) first_network a.
Proof.
  destruct (restart_rebuilds id joined empty_hub (map_to_list (nw_files joined)) joined_reachable) as (h & E & H).
  - apply empty_hub_ok.
  - apply part_empty.
  - intros g _. apply lookup_empty.
  - reflexivity.
  - exists h. split; [exact E|]. apply H. vm_compute. reflexivity.
Defined.
