(* ===== verification/ServiceGroups.v ===== *)
(** Service groups of a worker ([sandbox/services.py]): a sandbox with member sandboxes that
    share volumes and named networks; the addresses, names and mounts each member gets, and
    what it can then reach through the router ([Hub]). *)

From S2P Require Import Prelude.
From S2P Require Import OrderedDict.
From S2P Require Import Ipv4.
From S2P Require Import Mesh.
From S2P Require Import Hub.
From S2P Require Import MemberNetworks.

#[local] Open Scope Z_scope.

(** * Requests *)

(** A mount of a shared volume *)
Record mount := Mount { mn_name : string; mn_target : string; mn_staging : option string; mn_read_only : bool }.

(** What a member says of its networks: its networks, its aliases, and its aliases by network *)
Record attachment := Attachment {
  at_networks : option (list string); at_aliases : option (list string); at_network_aliases : option (list (string * list string)) }.

(** The definition of a member: whether it has services of its own, and its runtime *)
Record service := Service { sv_nested : bool; sv_runtime : string; sv_attachment : attachment; sv_volumes : list mount }.

Record volume := Volume { vl_exclusive : bool; vl_file : bool }.

(** The parts of the record's [spec] *)
Record group_spec := GroupSpec {
  sp_services : list (string * service); sp_main : attachment; sp_mounts : list mount; sp_volumes : list (string * volume) }.

(** * Members *)

(** An entry of [services] *)
Record group_member := GroupMember {
  gm_identity : string; gm_networks : list string; gm_aliases : list string;
  gm_network_aliases : option (list (string * list string)); gm_address : string; gm_socket : string }.

(** A mount as the member's [spec] has it *)
Record bound_mount := BoundMount { bm_source : string; bm_destination : string; bm_read_only : bool; bm_exclusive : bool }.

(** What a member is launched with: its entry, the names it resolves, its volumes *)
Record placed := Placed { pl_member : group_member; pl_peers : gmap string string; pl_mounts : list bound_mount }.

(** The record of the group, its volumes, and the router *)
Record group := Group {
  gr_marked : bool; gr_volumes : gset string; gr_ready : option (list (string * placed)); gr_hub : hub }.

#[export] Instance group_updatable : Updatable group := λ g, Group (gr_marked g) (gr_volumes g) (gr_ready g) (gr_hub g).

(** * Checks *)

(** [[a-zA-Z0-9_-]{1,100}] *)
Definition volume_name (s : string) : bool :=
  (1 <=? String.length s)%nat && (String.length s <=? 100)%nat
  && forallb (λ c, is_alnum c || bool_decide (c ∈ ["_"; "-"]%char)) (chars s).

Definition check_service (x : string * service) : res () :=
  _ ← raise_if (negb (member_name x.1) || bool_decide (x.1 = "main"%string)) ValueError "invalid service name: ";
  _ ← raise_if (sv_nested x.2) ValueError "service groups cannot be nested";
  raise_if (negb (bool_decide (sv_runtime x.2 = "gvisor"%string))) UnsupportedFeature "service groups require the gVisor runtime".

(** All mounts of the group *)
Definition all_mounts (s : group_spec) : list mount := sp_mounts s ++ flat_map (λ x, sv_volumes x.2) (sp_services s).

Definition users (s : group_spec) (name : string) : nat := length (filter (λ m, mn_name m = name) (all_mounts s)).

Definition check_volume (s : group_spec) (x : string * volume) : res () :=
  raise_if (vl_exclusive x.2 && negb (users s x.1 =? 1)%nat) ValueError "an exclusive volume must have exactly one mount".

Definition check_group (s : group_spec) : res () :=
  _ ← raise_if (65000 <? Z.of_nat (length (sp_services s))) ValueError "invalid service group";
  _ ← res_map check_service (sp_services s);
  _ ← res_map (check_volume s) (sp_volumes s);
  Ok ().

(** * Preparation *)

Section Prepare.

(** [str(Path(p).resolve())], [self.local], and where the volumes of the record are *)
Variables (resolve : string → string) (local root : string).

(** The identities, [sw-] and a fresh [uuid4] each *)
Variable fresh_ids : list string.

(** [10.231.0.2] and on *)
Definition member_address (index : nat) : Z := quad 10 231 0 2 + Z.of_nat index.

Definition mesh_socket (identity : string) : string := (local ++ "/gvisor/network/" ++ identity ++ "/mesh.sock")%string.

Definition make_member (name identity : string) (a : attachment) (index : nat) : group_member :=
  GroupMember identity (default ["default"%string] (at_networks a)) (default [name] (at_aliases a)) (at_network_aliases a)
    (dotted (member_address index)) (mesh_socket identity).

(** [services]: [main] first *)
Definition members_of (identity : string) (s : group_spec) : list (string * group_member) :=
  imap (λ index x, (x.1.1, make_member x.1.1 x.1.2 x.2 index))
    ((("main"%string, identity), sp_main s) :: zip_with (λ x id, ((x.1, id), sv_attachment x.2)) (sp_services s) fresh_ids).

(** [set(service['networks']).intersection(other['networks'])] *)
Definition common (x y : group_member) : list string := filter (λ n, n ∈ gm_networks y) (gm_networks x).

(** The names by which a member that shares the networks knows the other *)
Definition aliases_for (networks : list string) (other : group_member) : list string :=
  match gm_network_aliases other with
  | Some ((_ :: _) as by_network) => flat_map (λ n, default [] (od_get n by_network)) networks
  | _ => gm_aliases other
  end.

(** The names of one other member, added to [peers] *)
Definition add_peer (x : group_member) (peers : gmap string string) (y : group_member) : gmap string string :=
  match common x y with
  | [] => peers
  | networks => foldl (λ peers alias, <[alias := gm_address y]> peers) peers (aliases_for networks y)
  end.

Definition peers_of (x : group_member) (all : list group_member) : gmap string string := foldl (add_peer x) ∅ all.

Definition volume_path (name : string) : string := (root ++ "/" ++ name)%string.

(** The mounts of a member, one per destination *)
Fixpoint bind_mounts (volumes : list (string * volume)) (staged : list string) (l : list mount) : res (list bound_mount) :=
  match l with
  | [] => Ok []
  | m :: l =>
      let destination := default (mn_target m) (mn_staging m) in
      if bool_decide (destination ∈ staged) then bind_mounts volumes staged l
      else match od_get (mn_name m) volumes with
      | None => raise KeyError (mn_name m)
      | Some v =>
          rest ← bind_mounts volumes (destination :: staged) l;
          Ok (BoundMount (volume_path (mn_name m)) destination
                (mn_read_only m && bool_decide (mn_staging m = None)) (vl_exclusive v) :: rest)
      end
  end.

Definition mounts_of (s : group_spec) (name : string) : list mount :=
  if bool_decide (name = "main"%string) then sp_mounts s
  else match od_get name (sp_services s) with Some x => sv_volumes x | None => [] end.

Definition place_member (s : group_spec) (all : list group_member) (x : string * group_member) : res (string * placed) :=
  mounts ← bind_mounts (sp_volumes s) [] (mounts_of s x.1);
  Ok (x.1, Placed x.2 (peers_of x.2 all) mounts).

(** The directories of the volumes *)
Fixpoint make_volumes (l : list (string * volume)) (g : group) : group * res () :=
  match l with
  | [] => (g, Ok ())
  | (name, _) :: l =>
      if negb (volume_name name) then (g, raise ValueError "invalid service volume name")
      else if bool_decide (name ∈ gr_volumes g) then (g, raise FileExistsError "")
      else make_volumes l (g <| gr_volumes := {[name]} ∪ gr_volumes g |>)
  end.

(** What the router is told *)
Definition hub_entry (m : group_member) : entry := Entry (gm_identity m) (gm_address m) (gm_socket m) (gm_networks m) (gm_aliases m).

(** [prepare]; the group is marked in the record before anything is made. *)
Definition prepare (identity : string) (s : group_spec) (g : group) : group * res () :=
  match check_group s with
  | Err e => (g, Err e)
  | Ok _ =>
      match make_volumes (sp_volumes s) (g <| gr_marked := true |>) with
      | (g, Err e) => (g, Err e)
      | (g, Ok _) =>
          let members := members_of identity s in
          match res_map (place_member s members.*2) members with
          | Err e => (g, Err e)
          | Ok ready =>
              let g := g <| gr_ready := Some ready |> in
              match register resolve (gr_hub g) identity (map hub_entry members.*2) with
              | Ok h => (g <| gr_hub := h |>, Ok ())
              | Err e => (g, Err e)
              end
          end
      end
  end.

(** [close]: [here] says which members have a record, [ended] how their termination ends; the
    router forgets the group in any case. *)
Definition close_failures (here : string → bool) (ended : string → res ()) (members : list (string * group_member)) : list exn :=
  omap (λ x, if bool_decide (x.1 = "main"%string) || negb (here (gm_identity x.2)) then None
             else match ended (gm_identity x.2) with Ok _ => None | Err e => Some e end) members.

Definition close_group (here : string → bool) (ended : string → res ()) (identity : string)
    (members : list (string * group_member)) (g : group) : group * res () :=
  (g <| gr_hub := unregister (gr_hub g) identity |>,
   raise_if (negb (bool_decide (close_failures here ended members = []))) ExceptionGroup "service group cleanup failed").

(** [discard] removes the volumes. *)
Definition discard_group (g : group) : group := g <| gr_volumes := ∅ |>.

(** [allowed] *)
Definition SERVICE_METHODS : list string :=
  ["describe"; "command_start"; "process_status"; "process_wait"; "process_output"; "process_stdin"; "process_terminate";
   "process_resize"; "file"; "terminate"; "network_policy"; "service_setup"; "runtime_profile"; "runtime_audit"].

(** [dispatch]: the sandbox that the call goes to *)
Definition service_dispatch (members : list (string * group_member)) (name method : string) : res string :=
  _ ← raise_if (negb (bool_decide (method ∈ SERVICE_METHODS))) UnsupportedFeature ("unsupported service operation: " ++ method);
  match od_get name members with
  | Some m => Ok (gm_identity m)
  | None => raise ValueError ("unknown service: " ++ name)
  end.

(** * Guests *)

(** What becomes of a frame of a guest ([Peer.send]): it is answered, sent to the router, or
    left to the public network. *)
Inductive sent := SForward (frame : bytes) | SReply (frame : bytes) | SRouter (frame : bytes) | SPublic.

Definition forwarded (frame : bytes) : bool :=
  (42 <=? length frame)%nat && bool_decide (slice frame 12 14 = [8; 0]) && (u8 frame 14 =? 69) && (u8 frame 23 =? 17)
  && bool_decide (slice frame 26 30 = GUEST) && bool_decide (slice frame 30 34 = DNS) && bool_decide (slice frame 36 38 = [0; 53]).

Definition peer_send (dynamic : bool) (peers : gmap string string) (frame : bytes) : res sent :=
  if dynamic && forwarded frame then Ok (SForward (DNS_FORWARD ++ frame))
  else
    reply ← dns_reply frame (λ name, peers !! name);
    Ok (match reply with
        | Some reply => SReply reply
        | None => if (length frame <? 34)%nat || negb (bool_decide (slice frame 12 14 = [8; 0]))
                     || negb (bool_decide (slice frame 30 32 = [10; 231])) then SPublic
                  else SRouter frame
        end).

End Prepare.

(** * Addresses *)

Section Laws.
Variables (resolve : string → string) (local root : string) (fresh_ids : list string).

Lemma members_lookup identity s i name m : members_of local fresh_ids identity s !! i = Some (name, m) →
  (i <= length (sp_services s))%nat ∧ gm_address m = dotted (member_address i) ∧ gm_socket m = mesh_socket local (gm_identity m).
Proof.
  unfold members_of. intros Hi. rewrite list_lookup_imap in Hi. apply fmap_Some in Hi as ([[n id] a] & Hi & [= -> ->]).
  split; [|done]. apply lookup_lt_Some in Hi. simpl in Hi. rewrite length_zip_with in Hi. lia.
Qed.

Lemma member_address_range i : Z.of_nat i <= 65000 → quad 10 231 0 2 <= member_address i <= quad 10 231 253 234.
Proof. unfold member_address. change (quad 10 231 0 2) with 182910978. change (quad 10 231 253 234) with 182975978. lia. Qed.

Lemma member_address_word i : Z.of_nat i <= 65000 → 0 ≤ member_address i < 2 ^ 32.
Proof.
  intros Hi%member_address_range. change (quad 10 231 0 2) with 182910978 in Hi. change (quad 10 231 253 234) with 182975978 in Hi. lia.
Qed.

Lemma check_group_size s : check_group s = Ok () → Z.of_nat (length (sp_services s)) <= 65000.
Proof. unfold check_group. intros (x & Hx%raise_if_ok & _)%bind_ok. by bool_prop. Qed.

(** The first two bytes of an address *)
Lemma member_prefix i : Z.of_nat i <= 65000 → take 2 (packed (member_address i)) = [10; 231].
Proof.
  intros Hi%member_address_range. change (quad 10 231 0 2) with 182910978 in Hi. change (quad 10 231 253 234) with 182975978 in Hi.
  unfold packed. simpl. change 255 with (Z.ones 8). rewrite !Z.land_ones, !Z.shiftr_div_pow2 by lia.
  change (2 ^ 24) with 16777216. change (2 ^ 16) with 65536. change (2 ^ 8) with 256.
  repeat f_equal; Z.div_mod_to_equations; lia.
Qed.

(** Every member of a group that is accepted has an address of its own in the private
    range: addresses lie between 10.231.0.2 and 10.231.253.234, no two members share one, and
    the guests send frames for them to the router, whatever the number of services. *)
Theorem group_addresses identity s : check_group s = Ok () →
  let members := members_of local fresh_ids identity s in
  (∀ i name m, members !! i = Some (name, m) → ∃ a, ip_of_string (gm_address m) = Some a ∧
     quad 10 231 0 2 <= a <= quad 10 231 253 234 ∧ take 2 (packed a) = [10; 231]) ∧
  (∀ i j x y, members !! i = Some x → members !! j = Some y → gm_address x.2 = gm_address y.2 → i = j).
Proof.
  intros Hc%check_group_size members. split.
  - intros i name m (Hi & Ha & _)%members_lookup. exists (member_address i). rewrite Ha.
    split; [apply ip_of_dotted, member_address_word; lia|]. split; [apply member_address_range; lia|apply member_prefix; lia].
  - intros i j [n x] [n' y] (Hi & Hx & _)%members_lookup (Hj & Hy & _)%members_lookup. simpl. rewrite Hx, Hy. intros He.
    apply (f_equal ip_of_string) in He. rewrite !ip_of_dotted in He by (apply member_address_word; lia).
    injection He as He. unfold member_address in He. lia.
Qed.

(** * Names and the router *)

(** They share a named network. *)
Definition share (x y : group_member) : Prop := ∃ n, n ∈ gm_networks x ∧ n ∈ gm_networks y.

Lemma share_common x y : share x y ↔ common x y ≠ [].
Proof.
  unfold common, share. split.
  - intros (n & Hx & Hy) He. assert (Hn : n ∈ filter (λ n, n ∈ gm_networks y) (gm_networks x)) by by apply list_elem_of_filter.
    rewrite He in Hn. by apply elem_of_nil in Hn.
  - intros Hn. destruct (filter _ _) as [|n l] eqn:Ef; [done|].
    assert (Hin : n ∈ n :: l) by by left. rewrite <- Ef in Hin. apply list_elem_of_filter in Hin as [? ?]. by exists n.
Qed.

Lemma fold_insert_lookup (l : list string) (t : string) (peers : gmap string string) a :
  foldl (λ peers alias, <[alias := t]> peers) peers l !! a = if bool_decide (a ∈ l) then Some t else peers !! a.
Proof.
  revert peers. induction l as [|x l IH]; intros peers; simpl; [done|]. rewrite IH.
  destruct (decide (x = a)) as [->|Hne]; [rewrite lookup_insert_eq|rewrite lookup_insert_ne by done]; repeat case_bool_decide; try done; exfalso; set_solver.
Qed.

Lemma add_peer_lookup x (peers : gmap string string) y a : add_peer x peers y !! a =
  if bool_decide (common x y ≠ [] ∧ a ∈ aliases_for (common x y) y) then Some (gm_address y) else peers !! a.
Proof.
  unfold add_peer. destruct (common x y) as [|n l]; [by rewrite bool_decide_false by naive_solver|].
  rewrite fold_insert_lookup. repeat case_bool_decide; try done; exfalso; naive_solver.
Qed.

(** The other member is known by the alias. *)
Definition known_as (x y : group_member) (alias : string) : Prop := share x y ∧ alias ∈ aliases_for (common x y) y.

Lemma known_common x y a : known_as x y a ↔ common x y ≠ [] ∧ a ∈ aliases_for (common x y) y.
Proof. unfold known_as. by rewrite share_common. Qed.

Lemma peers_lookup x all a t : peers_of x all !! a = Some t → ∃ y, y ∈ all ∧ t = gm_address y ∧ known_as x y a.
Proof.
  unfold peers_of. induction all as [|y all IH] using rev_ind; simpl; [by rewrite lookup_empty|].
  rewrite foldl_app. simpl. rewrite add_peer_lookup. case_bool_decide as Hk.
  - intros [= <-]. exists y. split; [apply elem_of_app; right; by left|]. split; [done|]. by apply known_common.
  - intros (z & ? & ?)%IH. exists z. split; [|done]. apply elem_of_app. by left.
Qed.

Lemma peers_known x all y a : y ∈ all → known_as x y a → is_Some (peers_of x all !! a).
Proof.
  unfold peers_of. induction all as [|z all IH] using rev_ind; [by intros ?%elem_of_nil|]. rewrite foldl_app. simpl.
  intros Hy Hk. rewrite add_peer_lookup. case_bool_decide as Hz; [by eexists|].
  apply elem_of_app in Hy as [Hy|Hy%list_elem_of_singleton]; [by apply IH|]. subst z. exfalso. by apply Hz, known_common.
Qed.

(** What the router knows of the entries it registered *)
Lemma register_fold h routes l routes' : res_fold (register_entry resolve h) routes l = Ok routes' →
  (∀ a r, routes !! a = Some r → routes' !! a = Some r) ∧
  ∀ e, e ∈ l → ∃ a, ip_of_string (en_address e) = Some a ∧ routes' !! a = Some (RouteTo (resolve (en_socket e)) (list_to_set (en_networks e))).
Proof.
  revert routes. induction l as [|e l IH]; intros routes; cbn [res_fold].
  - intros [= <-]. split; [done|]. by intros e ?%elem_of_nil.
  - intros (r1 & He & Hl)%bind_ok. destruct (IH _ Hl) as [H1 H2].
    unfold register_entry, ipv4 in He. destruct (ip_of_string (en_address e)) as [a|] eqn:Ea; [|done]. cbn [mbind res_bind] in He.
    destruct (_ || _ || _) eqn:Ed; [done|]. injection He as <-. apply orb_false_iff in Ed as [_ Ed]. bool_prop.
    split.
    + intros b r Hb. apply H1. rewrite lookup_insert_ne; [done|]. intros ->. apply Ed. by eexists.
    + intros e' [->|He']%elem_of_cons; [|by apply H2]. exists a. split; [done|]. apply H1. by rewrite lookup_insert_eq.
Qed.

Lemma registered h identity l h' : hub_ok h → register resolve h identity l = Ok h' →
  hub_ok h' ∧ ∀ e, e ∈ l → ∃ a, ip_of_string (en_address e) = Some a ∧
    route_of h' identity a = Some (RouteTo (resolve (en_socket e)) (list_to_set (en_networks e))) ∧
    h_members h' !! resolve (en_socket e) = Some (Member identity a (list_to_set (en_networks e))).
Proof.
  intros Hok Hr. pose proof (register_ok resolve h identity l h' Hok Hr) as Hok'. split; [done|]. intros e He.
  unfold register in Hr. apply bind_ok in Hr as (u & _ & (routes & Hf & Hh)%bind_ok). injection Hh as Hh.
  destruct (register_fold h ∅ l routes Hf) as [_ H2]. destruct (H2 e He) as (a & Ha & Hroute). exists a. split; [done|].
  assert (Hro : route_of h' identity a = Some (RouteTo (resolve (en_socket e)) (list_to_set (en_networks e)))).
  { rewrite <- Hh. unfold route_of. simpl. by rewrite lookup_insert_eq. }
  split; [done|]. by apply (ok_route h' Hok' _ _ _ Hro).
Qed.

Lemma place_all s all l ready : res_map (place_member root s all) l = Ok ready →
  (∀ n m, (n, m) ∈ l → ∃ x, x ∈ ready ∧ pl_member x.2 = m) ∧ ∀ x, x ∈ ready → ∃ m, (x.1, m) ∈ l ∧ pl_member x.2 = m ∧ pl_peers x.2 = peers_of m all.
Proof.
  revert ready. induction l as [|[n m] l IH]; intros ready; cbn [res_map]; [intros [= <-]; split; [by intros n m ?%elem_of_nil|]; by intros x ?%elem_of_nil|].
  intros (p & Hp & (ps & Hps & [= <-])%bind_ok)%bind_ok. destruct (IH _ Hps) as [H1 H2].
  unfold place_member in Hp. apply bind_ok in Hp as (mounts & _ & [= <-]). split.
  { intros n' m' [[= -> ->]|Hx]%elem_of_cons; [eexists; split; [by left|done]|]. destruct (H1 _ _ Hx) as (x & ? & ?). exists x. split; [by right|done]. }
  intros x [->|Hx]%elem_of_cons; [exists m; split; [by left|done]|]. destruct (H2 x Hx) as (m' & ? & ?). exists m'. split; [by right|done].
Qed.

(** What a successful preparation leaves *)
Lemma prepared identity s g g' ready : prepare resolve local root fresh_ids identity s g = (g', Ok ()) → gr_ready g' = Some ready →
  check_group s = Ok () ∧
  (∀ x, x ∈ ready → ∃ i, members_of local fresh_ids identity s !! i = Some (x.1, pl_member x.2) ∧
     pl_peers x.2 = peers_of (pl_member x.2) (members_of local fresh_ids identity s).*2) ∧
  (∀ n m, (n, m) ∈ members_of local fresh_ids identity s → ∃ x, x ∈ ready ∧ pl_member x.2 = m) ∧
  register resolve (gr_hub g) identity (map hub_entry (members_of local fresh_ids identity s).*2) = Ok (gr_hub g').
Proof.
  unfold prepare. destruct (check_group s) as [[]|] eqn:Ec; [|done].
  assert (Hhub : ∀ l g, gr_hub (make_volumes l g).1 = gr_hub g).
  { induction l as [|[n v] l IH]; intros g0; simpl; [done|]. destruct (negb (volume_name n)); [done|].
    case_bool_decide; [done|]. by rewrite IH. }
  specialize (Hhub (sp_volumes s) (g <| gr_marked := true |>)).
  destruct (make_volumes (sp_volumes s) (g <| gr_marked := true |>)) as [g1 [[]|]]; [|done].
  destruct (res_map _ _) as [ready0|] eqn:Ep; [|done].
  destruct (register resolve _ identity _) as [h|] eqn:Er; [|done]. intros [= <-] [= <-].
  destruct (place_all _ _ _ _ Ep) as [Hk Hx]. simpl in Hhub. split; [done|]. split; [|split].
  - intros x Hin. destruct (Hx x Hin) as (m & Hm & Hpm & Hpp). apply list_elem_of_lookup in Hm as [i Hi]. exists i. by rewrite Hpm.
  - exact Hk.
  - cbn [gr_hub]. simpl in *. by rewrite <- Hhub.
Qed.

Lemma prefix_packed frame a : 0 ≤ a < 2 ^ 32 → slice frame 30 34 = packed a → ip_of_bytes (slice frame 30 34) = a.
Proof. intros Ha ->. by apply ip_of_bytes_packed. Qed.


(** A group that could not be prepared leaves nothing in the router, and a record that marks
    it as a group before any of its volumes is made. *)
Theorem prepare_fails_clean identity s g g' e : prepare resolve local root fresh_ids identity s g = (g', Err e) →
  gr_hub g' = gr_hub g ∧ (gr_volumes g' ≠ gr_volumes g → gr_marked g' = true).
Proof.
  unfold prepare. destruct (check_group s); [|inversion 1; subst; naive_solver].
  assert (Hvol : ∀ l g, gr_hub (make_volumes l g).1 = gr_hub g ∧ gr_marked (make_volumes l g).1 = gr_marked g).
  { induction l as [|[n v] l IH]; intros g0; simpl; [done|]. destruct (negb (volume_name n)); [done|].
    case_bool_decide; [done|]. split; [by rewrite (proj1 (IH _))|by rewrite (proj2 (IH _))]. }
  destruct (Hvol (sp_volumes s) (g <| gr_marked := true |>)) as [Hh Hm].
  destruct (make_volumes (sp_volumes s) (g <| gr_marked := true |>)) as [g1 [[]|x]]; cbn [fst] in *; [|intros [= H _]; rewrite <- H; auto].
  destruct (res_map _ _); [|intros [= H _]; rewrite <- H; auto].
  destruct (register _ _ _ _); [done|]. intros [= H _]. rewrite <- H. auto.
Qed.

Lemma omap_none {A B} (f : A → option B) l : omap f l = [] ↔ ∀ x, x ∈ l → f x = None.
Proof.
  split.
  - intros Hn x Hx. destruct (f x) as [y|] eqn:E; [|done]. assert (Hy : y ∈ omap f l) by (apply list_elem_of_omap; by exists x).
    rewrite Hn in Hy. by apply elem_of_nil in Hy.
  - intros Hn. destruct (omap f l) as [|y r] eqn:E; [done|]. assert (Hy : y ∈ omap f l) by (rewrite E; by left).
    apply list_elem_of_omap in Hy as (x & Hx & Hf). by rewrite (Hn x Hx) in Hf.
Qed.

Lemma failures_none here ended members : close_failures here ended members = [] ↔
  ∀ name m, (name, m) ∈ members → name ≠ "main"%string → here (gm_identity m) = true → is_ok (ended (gm_identity m)) = true.
Proof.
  unfold close_failures. rewrite omap_none. split.
  - intros Hn name m Hin Hm Hh. specialize (Hn _ Hin). simpl in Hn. rewrite bool_decide_false, Hh in Hn by done. simpl in Hn.
    by destruct (ended _).
  - intros Hall [name m] Hin. simpl. case_bool_decide as Hm; [done|]. destruct (here _) eqn:Hh; [|done]. simpl.
    specialize (Hall _ _ Hin Hm Hh). by destruct (ended _).
Qed.

(** Closing a group reports the failed terminations and makes the router forget every member,
    whichever of them failed. *)
Theorem close_forgets here ended identity members g : hub_ok (gr_hub g) →
  let r := close_group here ended identity members g in
  (∀ path m, h_members (gr_hub r.1) !! path = Some m → mb_group m ≠ identity) ∧
  (r.2 = Ok () ↔ ∀ name m, (name, m) ∈ members → name ≠ "main"%string → here (gm_identity m) = true → is_ok (ended (gm_identity m)) = true).
Proof.
  intros Hok r. split.
  - intros path m Hm He. simpl in Hm. pose proof (ok_member _ (unregister_ok resolve _ identity Hok) path m Hm) as Hr.
    rewrite He in Hr. unfold route_of in Hr. simpl in Hr. by rewrite lookup_delete_eq in Hr.
  - simpl. rewrite <- failures_none. by destruct (close_failures here ended members).
Qed.

(** Names that guests ask for are lower case. *)
Lemma lower_char_twice c : lower_char (lower_char c) = lower_char c.
Proof. destruct c as [[] [] [] [] [] [] [] []]; reflexivity. Qed.

Lemma str_lower_twice t : str_lower (str_lower t) = str_lower t.
Proof.
  unfold str_lower. rewrite String.list_ascii_of_string_of_list_ascii, map_map. f_equal. apply map_ext, lower_char_twice.
Qed.

Lemma str_lower_app a b : str_lower (a ++ b)%string = (str_lower a ++ str_lower b)%string.
Proof.
  unfold str_lower. rewrite chars_app, map_app. generalize (map lower_char (chars a)), (map lower_char (chars b)). clear.
  intros l l'. induction l as [|x l IH]; [done|]. change (String.String x (of_chars (l ++ l')) = String.String x (of_chars l ++ of_chars l')%string).
  by rewrite IH.
Qed.

Lemma str_lower_join ps : Forall (λ p, str_lower p = p) ps → str_lower (str_join "." ps) = str_join "." ps.
Proof.
  induction 1 as [|p ps Hp Hps IH]; [done|]. destruct ps as [|q ps]; [done|].
  change (str_join "." (p :: q :: ps)) with (p ++ "." ++ str_join "." (q :: ps))%string. by rewrite !str_lower_app, Hp, IH.
Qed.

Lemma labels_lower fuel query end_ labels r : Forall (λ p, str_lower p = p) labels →
  labels_loop fuel query end_ labels = Some r → Forall (λ p, str_lower p = p) r.1.
Proof.
  revert end_ labels. induction fuel as [|fuel IH]; intros end_ labels Hl; cbn [labels_loop]; [done|].
  destruct (_ && _); [|by intros [= <-]]. destruct (_ || _); [done|].
  destruct (ascii_label _) as [label|] eqn:Ea; cbn [mbind option_bind]; [|done]. apply IH. apply Forall_app. split; [done|].
  constructor; [|done]. unfold ascii_label in Ea. destruct (forallb _ _); [|done]. injection Ea as <-. apply str_lower_twice.
Qed.

Lemma question_lower frame q name end_ : dns_question frame = Some (q, name, end_) → str_lower name = name.
Proof.
  unfold dns_question. destruct (_ || _); [done|]. cbv zeta. destruct (_ || _); [done|]. destruct (_ || _); [done|].
  destruct (labels_loop _ _ _ _) as [r|] eqn:El; cbn [mbind option_bind]; [|done]. destruct (_ <? _)%nat; [done|].
  intros [= _ <- _]. by eapply str_lower_join, labels_lower.
Qed.

(** An alias with a capital letter is known to nobody: [prepare] keeps it as it is, the name
    of a question is lower case, and what a guest's frames lead to is the same without it. *)
Theorem capitals_lost dynamic peers alias t frame : str_lower alias ≠ alias →
  peer_send dynamic (<[alias := t]> peers) frame = peer_send dynamic peers frame.
Proof.
  intros Ha. unfold peer_send. destruct (dynamic && forwarded frame); [done|].
  assert (He : dns_reply frame (λ name, <[alias := t]> peers !! name) = dns_reply frame (λ name, peers !! name)); [|by rewrite He].
  unfold dns_reply. destruct (dns_question frame) as [[[q name] end_]|] eqn:Eq; [|done].
  apply question_lower in Eq. by rewrite lookup_insert_ne by congruence.
Qed.

End Laws.

(** * Examples *)

Definition ex_service (networks : list string) (volumes : list mount) : service :=
  Service false "gvisor" (Attachment (Some networks) None None) volumes.

(** A web server, its database in a network of its own, and a cache that only the database sees *)
Definition ex_group : group_spec := GroupSpec
  [("web", ex_service ["default"; "back"] []); ("db", ex_service ["back"] [Mount "data" "/var/lib" None false]); ("cache", ex_service ["hidden"] [])]
  (Attachment None None None) [] [("data", Volume true false)].

Definition ex_ids : list string := ["sw-1"; "sw-2"; "sw-3"].

Definition ex_prepared : group * res () := prepare id "/local" "/local/service-data/g" ex_ids "g" ex_group (Group false ∅ None empty_hub).

Definition ex_ready : list (string * placed) := default [] (gr_ready ex_prepared.1).

Lemma ex_group_prepared : ex_prepared = (ex_prepared.1, Ok ()).
Proof. vm_compute. reflexivity. Qed.

Definition ex_placed (i : nat) : placed := match ex_ready !! i with Some x => x.2 | None => Placed (GroupMember "" [] [] None "" "") ∅ [] end.

Lemma ex_share : share (pl_member (ex_placed 1)) (pl_member (ex_placed 2)).
Proof.
  exists "back"%string. assert (gm_networks (pl_member (ex_placed 1)) = ["default"; "back"]%string) as -> by (vm_compute; reflexivity).
  assert (gm_networks (pl_member (ex_placed 2)) = ["back"]%string) as -> by (vm_compute; reflexivity). set_solver.
Qed.

Lemma ex_known : aliases_for (common (pl_member (ex_placed 1)) (pl_member (ex_placed 2))) (pl_member (ex_placed 2)) = ["db"%string].
Proof. vm_compute. reflexivity. Qed.

Lemma group_addresses_witness : ∃ m, members_of "/local" ex_ids "g" ex_group !! 2%nat = Some ("db"%string, m) ∧
  ip_of_string (gm_address m) = Some (quad 10 231 0 4).
Proof.
  assert (Hc : check_group ex_group = Ok ()) by (vm_compute; reflexivity).
  destruct (group_addresses id "/local" "/local/service-data/g" ex_ids "g" ex_group Hc) as [H _].
  destruct (members_of "/local" ex_ids "g" ex_group !! 2%nat) as [[n m]|] eqn:E; [|vm_compute in E; discriminate E].
  destruct (H 2%nat n m E) as (a & Ha & _). exists m. vm_compute in E. injection E as <- <-. split; [reflexivity|].
  rewrite Ha. vm_compute in Ha. injection Ha as <-. reflexivity.
Defined.

