(* ===== verification/State.v ===== *)
(** [weave/state.py]: the controller's records. Memory records with indexes are
    published by transactions; an ordered writer makes them durable. The state
    machine interleaves one transaction at a time with the writer. *)

From S2P Require Import Prelude OrderedDict Values.
Local Open Scope Z_scope.

(** * Records *)

(** A record: the entries every record has, and the others. *)
Record record := Rec {
  r_id : string; r_created : Z; r_updated : Z; r_version : Z;
  r_fields : list (string * value) }.

#[export] Instance record_eq_dec : EqDecision record.
Proof. solve_decision. Defined.

Definition FIELDS : list string :=
  ["state"; "parent"; "worker"; "owner"; "released"; "deletion_pending"]%string.

Definition field_get (r : record) (f : string) : value := default Null (od_get f (r_fields r)).

(** [State._field] *)
Definition _field (r : record) (f : string) : value :=
  if bool_decide (f = "released"%string) then Bool (truth (field_get r f)) else field_get r f.

(** The record as the dictionary callers see. *)
Definition record_value (r : record) : value :=
  Dict (r_fields r ++ [("id"%string, Text (r_id r)); ("created"%string, Num (r_created r));
                       ("updated"%string, Num (r_updated r)); ("version"%string, Num (r_version r))]).

Abbreviation key := (string * string)%type.
Abbreviation buckets := (list (value * gset string)).

(** * Published records and their indexes *)

Record cache := Cache {
  c_records : gmap string (gmap string record);
  c_index : gmap (string * string) buckets }.

Definition kind_records (c : cache) (kind : string) : gmap string record := default ∅ (c_records c !! kind).
Definition kind_index (c : cache) (kind f : string) : buckets := default [] (c_index c !! (kind, f)).
Definition bucket (b : buckets) (v : value) : gset string := default ∅ (od_get v b).

(** One field of one record moves between buckets; empty buckets are dropped. *)
Definition unindex (v : value) (identity : string) (b : buckets) : buckets :=
  let rest := bucket b v ∖ {[identity]} in
  if bool_decide (rest = ∅) then od_del v b else od_set v rest b.
Definition reindex (v : value) (identity : string) (b : buckets) : buckets :=
  od_set v ({[identity]} ∪ bucket b v) b.

Definition move_field (kind identity : string) (old : option record) (new : record)
    (index : gmap (string * string) buckets) (f : string) : gmap (string * string) buckets :=
  let b := default [] (index !! (kind, f)) in
  let b := match old with Some o => unindex (_field o f) identity b | None => b end in
  <[(kind, f) := reindex (_field new f) identity b]> index.

(** [State._publish] *)
Definition publish_one (c : cache) (change : key * record) : cache :=
  let '((kind, identity), new) := change in
  let old := kind_records c kind !! identity in
  Cache (<[kind := <[identity := new]> (kind_records c kind)]> (c_records c))
        (foldl (move_field kind identity old new) (c_index c) FIELDS).
Definition _publish (c : cache) (changes : list (key * record)) : cache := foldl publish_one c changes.

(** * Reading *)

(** An open transaction. *)
Record transaction := Tx {
  tx_changes : list (key * record); tx_events : list (Z * string * string * value); tx_deferred : bool }.
Definition tx_empty (deferred : bool) : transaction := Tx [] [] deferred.

(** The record a [get] returns: the transaction's own change first. *)
Definition lookup (c : cache) (tx : option transaction) (kind identity : string) : option record :=
  match tx with
  | Some t => match od_get (kind, identity) (tx_changes t) with
              | Some r => Some r
              | None => kind_records c kind !! identity
              end
  | None => kind_records c kind !! identity
  end.

Definition get (c : cache) (tx : option transaction) (kind identity : string) (required : bool)
    (fields : option (list string)) : res (option value) :=
  match lookup c tx kind identity with
  | Some r => Ok (Some (clone false (project (record_value r) fields)))
  | None => if required then raise FileNotFoundError (kind ++ " does not exist: " ++ identity) else Ok None
  end.

(** [_select]: the smallest index bucket drives the scan. *)
Definition matches (filters : list (string * value)) (r : record) : bool :=
  forallb (λ f, bool_decide (_field r f.1 = f.2)) filters.

Definition indexed (c : cache) (kind : string) (filters : list (string * value)) : gmap string record :=
  let records := kind_records c kind in
  let indexes := map (λ f, bucket (kind_index c kind f.1) f.2) filters in
  match min_by (λ a b : gset string, size a <? size b)%nat indexes with
  | None => records
  | Some smallest => filter (λ p, p.1 ∈ smallest ∧ Forall (λ i, p.1 ∈ i) indexes) records
  end.

Definition overlay_one (kind : string) (filters : list (string * value))
    (values : gmap string record) (change : key * record) : gmap string record :=
  let '((k, identity), r) := change in
  if bool_decide (k = kind) then
    if matches filters r then <[identity := r]> (delete identity values) else delete identity values
  else values.

Definition _select (c : cache) (tx : option transaction) (kind : string) (filters : list (string * value))
    : gmap string record :=
  let values := indexed c kind filters in
  match tx with
  | Some t => foldl (overlay_one kind filters) values (tx_changes t)
  | None => values
  end.

(** [sorted(values, key=lambda v: (v['created'], v['id']))] *)
Definition created_lt (a b : record) : bool :=
  (r_created a <? r_created b) || ((r_created a =? r_created b) && str_ltb (r_id a) (r_id b)).
(** [sorted(values, key=lambda v: (-v['created'], v['id']))] *)
Definition newest_lt (a b : record) : bool :=
  (r_created b <? r_created a) || ((r_created a =? r_created b) && str_ltb (r_id a) (r_id b)).

Definition values_of (m : gmap string record) : list record := map snd (map_to_list m).

(** [State.list]; the code passes only the filters that were given. *)
Definition list_records (c : cache) (tx : option transaction) (kind : string)
    (filters : list (string * value)) (fields : option (list string)) : list value :=
  map (λ r, clone false (project (record_value r) fields))
    (sort_by created_lt (values_of (_select c tx kind filters))).

(** [State.metadata]; the optional cache maps an identity to a version and copy. *)
Definition metadata_page (c : cache) (tx : option transaction) (kind : string)
    (parent : option string) (limit : option nat) : list record :=
  let filters := match parent with Some p => [("parent"%string, Text p)] | None => [] end in
  let values := sort_by newest_lt (values_of (_select c tx kind filters)) in
  match limit with Some n => take n values | None => values end.

Definition metadata_one (_cache : gmap string (Z * value)) (r : record) : value * gmap string (Z * value) :=
  let copy := clone true (record_value r) in
  match _cache !! r_id r with
  | Some (version, previous) =>
      if version =? r_version r then (previous, _cache)
      else (copy, <[r_id r := (r_version r, copy)]> _cache)
  | None => (copy, <[r_id r := (r_version r, copy)]> _cache)
  end.

Fixpoint metadata_cached (_cache : gmap string (Z * value)) (l : list record)
    : list value * gmap string (Z * value) :=
  match l with
  | [] => ([], _cache)
  | r :: l => let '(v, _cache) := metadata_one _cache r in
              let '(vs, _cache) := metadata_cached _cache l in (v :: vs, _cache)
  end.

Definition metadata (c : cache) (tx : option transaction) (kind : string)
    (parent : option string) (limit : option nat) (_cache : option (gmap string (Z * value)))
    : list value * option (gmap string (Z * value)) :=
  let selected := metadata_page c tx kind parent limit in
  match _cache with
  | None => (map (λ r, clone true (record_value r)) selected, None)
  | Some m => let '(vs, m) := metadata_cached m selected in (vs, Some m)
  end.

(** * Writing *)

(** What a caller passes to [put]: an identity and its entries. *)
Definition put_record (c : cache) (t : transaction) (kind identity : string)
    (fields : list (string * value)) (expected : option Z) (event : option value) (now : Z)
    : res (record * transaction) :=
  let previous := lookup c (Some t) kind identity in
  let version := match previous with Some p => r_version p | None => 0 end in
  if match expected with Some e => negb (version =? e) | None => false end
  then raise RuntimeError ("record changed during operation: " ++ identity)
  else
    let v := Rec identity (match previous with Some p => r_created p | None => now end) now (version + 1)
               (map (λ p, (p.1, clone false p.2)) fields) in
    Ok (v, Tx (od_set (kind, identity) v (tx_changes t))
             (tx_events t ++ match event with Some e => [(now, kind, identity, e)] | None => [] end)
             (tx_deferred t)).

(** * The writer and transactions as a state machine *)

(** A queued write: its rows, events and ticket (the [Future]). *)
Record write := Write { w_rows : list (key * record); w_events : list (Z * string * string * value); w_ticket : nat }.

(** What the holder of the transaction lock is doing. *)
Inductive phase :=
  | Idle
  | Open (t : transaction)
  | Committing (t : transaction) (ticket : nat).

Record state := State {
  s_cache : cache;
  s_phase : phase;
  s_pending : list write;
  s_db : gmap (string * string) record;
  s_events : list (Z * string * string * value);
  s_next : nat;
  s_done : gset nat;
  s_failed : gset nat;
  s_error : bool;
  s_closed : bool }.

(** The rows a batch leaves per key: the last one of each. *)
Definition apply_rows (db : gmap (string * string) record) (rows : list (key * record))
    : gmap (string * string) record :=
  foldl (λ db row, <[row.1 := row.2]> db) db rows.
Definition coalesce (batch : list write) : list (key * record) :=
  foldl (λ rows w, foldl (λ rows row, od_set row.1 row.2 rows) rows (w_rows w)) [] batch.
Definition batch_events (batch : list write) : list (Z * string * string * value) :=
  flat_map w_events batch.

(** [_enqueue]: after closing or an error the ticket has already failed. *)
Definition _enqueue (s : state) (rows : list (key * record)) (events : list (Z * string * string * value))
    : state * nat :=
  let n := s_next s in
  if s_closed s || s_error s then
    (State (s_cache s) (s_phase s) (s_pending s) (s_db s) (s_events s) (S n) (s_done s)
       ({[n]} ∪ s_failed s) (s_error s) (s_closed s), n)
  else
    (State (s_cache s) (s_phase s) (s_pending s ++ [Write rows events n]) (s_db s) (s_events s) (S n)
       (s_done s) (s_failed s) (s_error s) (s_closed s), n).

Definition with_phase (s : state) (p : phase) : state :=
  State (s_cache s) p (s_pending s) (s_db s) (s_events s) (s_next s) (s_done s) (s_failed s)
    (s_error s) (s_closed s).
Definition with_cache (s : state) (c : cache) (p : phase) : state :=
  State c p (s_pending s) (s_db s) (s_events s) (s_next s) (s_done s) (s_failed s) (s_error s) (s_closed s).

(** Entering [transaction]. *)
Definition begin (s : state) (deferred : bool) : res state :=
  if s_error s then raise RuntimeError "controller persistence failed"
  else if s_closed s then raise RuntimeError "controller state is closed"
  else Ok (with_phase s (Open (tx_empty deferred))).

(** Leaving it: nothing to do, or a queued write. *)
Definition finish (s : state) (t : transaction) : state :=
  match tx_changes t with
  | [] => with_phase s Idle
  | changes => let '(s, n) := _enqueue s changes (tx_events t) in with_phase s (Committing t n)
  end.

Definition tickets (l : list write) : gset nat := list_to_set (map w_ticket l).

Inductive step : state → state → Prop :=
  | step_begin s deferred s' : s_phase s = Idle → begin s deferred = Ok s' → step s s'
  | step_put s t kind identity fields expected event now r t' :
      s_phase s = Open t → put_record (s_cache s) t kind identity fields expected event now = Ok (r, t') →
      step s (with_phase s (Open t'))
  | step_require_durable s t :
      s_phase s = Open t → step s (with_phase s (Open (Tx (tx_changes t) (tx_events t) false)))
  (** The body raised: its changes are dropped. *)
  | step_discard s t : s_phase s = Open t → step s (with_phase s Idle)
  | step_finish s t : s_phase s = Open t → step s (finish s t)
  (** [future.result()] returned, or the transaction is deferred and its
      future is still open. *)
  | step_publish s t n :
      s_phase s = Committing t n → n ∈ s_done s ∨ (tx_deferred t = true ∧ n ∉ s_failed s) →
      step s (with_cache s (_publish (s_cache s) (tx_changes t)) Idle)
  | step_raise s t n :
      s_phase s = Committing t n → n ∈ s_failed s → step s (with_phase s Idle)
  (** The writer took everything queued and committed it. *)
  | step_write s :
      s_pending s ≠ [] →
      step s (State (s_cache s) (s_phase s) [] (apply_rows (s_db s) (coalesce (s_pending s)))
                (s_events s ++ batch_events (s_pending s)) (s_next s)
                (tickets (s_pending s) ∪ s_done s) (s_failed s) (s_error s) (s_closed s))
  (** The database refused the batch: it is rolled back. *)
  | step_write_error s :
      s_pending s ≠ [] →
      step s (State (s_cache s) (s_phase s) [] (s_db s) (s_events s) (s_next s) (s_done s)
                (tickets (s_pending s) ∪ s_failed s) true (s_closed s))
  | step_close s :
      s_phase s = Idle →
      step s (State (s_cache s) Idle (s_pending s) (s_db s) (s_events s) (s_next s) (s_done s) (s_failed s)
                (s_error s) true).

(** [State.__init__] on what the database holds. *)
Definition load (db : gmap (string * string) record) : cache :=
  _publish (Cache ∅ ∅) (map_to_list db).
Definition open_state (db : gmap (string * string) record) (events : list (Z * string * string * value)) : state :=
  State (load db) Idle [] db events O ∅ ∅ false false.

Inductive reachable (s0 : state) : state → Prop :=
  | reachable_start : reachable s0 s0
  | reachable_step s s' : reachable s0 s → step s s' → reachable s0 s'.

(** * Reading events *)

(** [State.events]: a page of numbered events after a cursor. *)
Definition numbered (l : list (Z * string * string * value)) : list (Z * (Z * string * string * value)) :=
  imap (λ i e, (Z.of_nat i + 1, e)) l.
Definition events_page (l : list (Z * string * string * value)) (after limit : Z)
    : res (list (Z * (Z * string * string * value))) :=
  if (after <? 0) || negb ((1 <=? limit) && (limit <=? 1000))
  then raise ValueError "invalid event cursor or limit"
  else Ok (take (Z.to_nat limit) (filter (λ e, after < e.1) (numbered l))).

(** * The indexes agree with the records *)

Definition index_ok (c : cache) : Prop :=
  ∀ kind f v identity, f ∈ FIELDS →
    identity ∈ bucket (kind_index c kind f) v ↔
    ∃ r, kind_records c kind !! identity = Some r ∧ _field r f = v.

Lemma bucket_unindex v identity b v' i :
  i ∈ bucket (unindex v identity b) v' ↔ i ∈ bucket b v' ∧ ¬ (v' = v ∧ i = identity).
Proof.
  unfold unindex. case_bool_decide as E; unfold bucket in *.
  - rewrite od_get_del. case_decide as Ev; simpl.
    + subst v'. split; [set_solver|]. intros [Hi Hn]. exfalso.
      assert (i ∈ default ∅ (od_get v b) ∖ {[identity]}) by set_solver. rewrite E in *. set_solver.
    + naive_solver.
  - rewrite od_get_set. case_decide as Ev; simpl; [subst v'; set_solver|naive_solver].
Qed.

Lemma bucket_reindex v identity b v' i :
  i ∈ bucket (reindex v identity b) v' ↔ i ∈ bucket b v' ∨ (v' = v ∧ i = identity).
Proof.
  unfold reindex, bucket. rewrite od_get_set. case_decide as Ev; simpl; [subst v'; set_solver|naive_solver].
Qed.

(** One field's buckets after a move, the others' unchanged. *)
Lemma kind_index_move kind identity old new index f kind' f' :
  default [] (move_field kind identity old new index f !! (kind', f')) =
    if decide (kind' = kind ∧ f' = f) then
      reindex (_field new f) identity
        (match old with Some o => unindex (_field o f) identity (default [] (index !! (kind, f)))
         | None => default [] (index !! (kind, f)) end)
    else default [] (index !! (kind', f')).
Proof.
  unfold move_field. destruct (decide (kind' = kind ∧ f' = f)) as [[-> ->]|Hn].
  - by rewrite lookup_insert_eq.
  - rewrite lookup_insert_ne; [done|]. intros [= -> ->]. by apply Hn.
Qed.

Lemma kind_index_moves kind identity old new fields index kind' f' :
  NoDup fields →
  default [] (foldl (move_field kind identity old new) index fields !! (kind', f')) =
    if decide (kind' = kind ∧ f' ∈ fields) then
      reindex (_field new f') identity
        (match old with Some o => unindex (_field o f') identity (default [] (index !! (kind, f')))
         | None => default [] (index !! (kind, f')) end)
    else default [] (index !! (kind', f')).
Proof.
  revert index. induction fields as [|f fields IH]; intros index Hnd; simpl.
  { destruct (decide (kind' = kind ∧ f' ∈ [])) as [[_ Hf]|]; [by apply not_elem_of_nil in Hf|done]. }
  apply NoDup_cons in Hnd as [Hf Hnd]. rewrite IH by done.
  destruct (decide (kind' = kind ∧ f' ∈ fields)) as [[-> Hin]|Hn].
  - rewrite (decide_True _ _ (conj eq_refl (list_elem_of_further _ _ _ Hin))).
    assert (f' ≠ f) by congruence.
    rewrite !kind_index_move. rewrite decide_False by (intros [_ ?]; done). done.
  - rewrite kind_index_move. destruct (decide (kind' = kind ∧ f' = f)) as [[-> ->]|Hn'].
    + rewrite decide_True; [done|]. split; [done|]. by left.
    + rewrite decide_False; [done|]. intros [-> [->|?]%elem_of_cons]; [by apply Hn'|by apply Hn].
Qed.

Lemma kind_records_publish c kind identity new kind' :
  kind_records (publish_one c ((kind, identity), new)) kind' =
    if decide (kind' = kind) then <[identity := new]> (kind_records c kind) else kind_records c kind'.
Proof.
  unfold kind_records. simpl. case_decide as E.
  - subst. by rewrite lookup_insert_eq.
  - by rewrite lookup_insert_ne.
Qed.

Lemma FIELDS_nodup : NoDup FIELDS.
Proof. apply (bool_decide_unpack _). vm_compute. exact I. Qed.

Lemma publish_one_ok c change : index_ok c → index_ok (publish_one c change).
Proof.
  destruct change as [[kind identity] new]. intros H kind' f v i Hf.
  rewrite kind_records_publish. unfold kind_index. cbn [publish_one c_index].
  rewrite kind_index_moves by apply FIELDS_nodup.
  destruct (decide (kind' = kind)) as [->|Hk].
  2: { rewrite decide_False by (intros [? _]; done). by apply H. }
  rewrite decide_True by done. rewrite bucket_reindex.
  assert (Hb : i ∈ bucket (match kind_records c kind !! identity with
       | Some o => unindex (_field o f) identity (default [] (c_index c !! (kind, f)))
       | None => default [] (c_index c !! (kind, f)) end) v ↔
     i ≠ identity ∧ ∃ r, kind_records c kind !! i = Some r ∧ _field r f = v).
  { pose proof (H kind f) as Hkf. unfold kind_index in Hkf.
    destruct (kind_records c kind !! identity) as [o|] eqn:Ho.
    - rewrite bucket_unindex, Hkf by done. split.
      + intros [(r & Hr & Hv) Hn]. split; [|by exists r]. intros ->. apply Hn. split; [|done]. congruence.
      + intros [Hi (r & Hr & Hv)]. split; [by exists r|]. naive_solver.
    - rewrite Hkf by done. split.
      + intros (r & Hr & Hv). split; [congruence|by exists r].
      + intros [_ ?]. done. }
  rewrite Hb. split.
  - intros [[Hi (r & Hr & Hv)]|[-> ->]].
    + exists r. by rewrite lookup_insert_ne.
    + exists new. by rewrite lookup_insert_eq.
  - intros (r & [[<- <-]|[Hne Hr]]%lookup_insert_Some & Hv); [by right|left]. naive_solver.
Qed.

Lemma publish_ok c changes : index_ok c → index_ok (_publish c changes).
Proof.
  revert c. induction changes as [|ch l IH]; intros c H; [done|]. simpl. by apply IH, publish_one_ok.
Qed.

Lemma empty_index_ok : index_ok (Cache ∅ ∅).
Proof.
  intros kind f v i _. unfold kind_index, kind_records. simpl. split.
  - by intros ?%not_elem_of_empty.
  - intros (r & Hr & _). done.
Qed.

(** ** Selection *)

(** What a scan of all records would find. *)
Definition scan (c : cache) (kind : string) (filters : list (string * value)) : gmap string record :=
  filter (λ p, matches filters p.2 = true) (kind_records c kind).

Lemma matches_spec filters r :
  matches filters r = true ↔ ∀ f v, (f, v) ∈ filters → _field r f = v.
Proof.
  unfold matches. rewrite forallb_forall. split.
  - intros H f v Hin. specialize (H (f, v)). apply list_elem_of_In in Hin.
    specialize (H Hin). by bool_prop.
  - intros H [f v] Hin. apply list_elem_of_In in Hin. apply bool_decide_eq_true. by apply H.
Qed.

Lemma indexed_scan c kind filters :
  index_ok c → (∀ f v, (f, v) ∈ filters → f ∈ FIELDS) →
  indexed c kind filters = scan c kind filters.
Proof.
  intros Hok Hf. unfold indexed, scan. set (indexes := map _ filters).
  assert (Hidx : ∀ i r, kind_records c kind !! i = Some r →
    Forall (λ b : gset string, i ∈ b) indexes ↔ matches filters r = true).
  { intros i r Hr. rewrite matches_spec, Forall_forall. unfold indexes. split.
    - intros H f v Hin. assert (Hi : i ∈ bucket (kind_index c kind f) v).
      { apply H, list_elem_of_fmap. by exists (f, v). }
      apply Hok in Hi as (r' & Hr' & Hv); [congruence|by eapply Hf].
    - intros H b ([f v] & -> & Hin)%list_elem_of_fmap. simpl. apply Hok; [by eapply Hf|]. eauto. }
  destruct (min_by _ indexes) as [smallest|] eqn:Hm.
  - apply min_by_elem in Hm. apply map_filter_ext. intros i r Hr. simpl. rewrite <- Hidx by done.
    split; [by intros [? ?]|]. intros H. split; [|done]. rewrite Forall_forall in H. by apply H.
  - apply min_by_none in Hm. apply map_eq. intros i.
    destruct (kind_records c kind !! i) as [r|] eqn:Hr.
    + symmetry. apply map_lookup_filter_Some. split; [done|]. simpl. apply (Hidx i r Hr). by rewrite Hm.
    + symmetry. apply map_lookup_filter_None. by left.
Qed.

Lemma overlay_lookup kind filters changes values i :
  od_wf changes →
  foldl (overlay_one kind filters) values changes !! i =
    match od_get (kind, i) changes with
    | Some r => if matches filters r then Some r else None
    | None => values !! i
    end.
Proof.
  revert values. induction changes as [|[[k j] r] changes IH]; intros values Hwf; [done|].
  unfold od_wf in Hwf. simpl in Hwf. apply NoDup_cons in Hwf as [Hn Hwf]. simpl. rewrite IH by done.
  destruct (decide ((kind, i) = (k, j))) as [[= <- <-]|Hne].
  - rewrite (proj2 (od_get_none _ _)) by done. rewrite bool_decide_eq_true_2 by done.
    destruct (matches filters r); [by rewrite lookup_insert_eq|by rewrite lookup_delete_eq].
  - destruct (od_get (kind, i) changes); [done|]. case_bool_decide; [subst k|done].
    assert (i ≠ j) by congruence.
    destruct (matches filters r); [rewrite lookup_insert_ne by done|]; by rewrite lookup_delete_ne.
Qed.

(** Indexed reads equal a full scan. On published records, and inside a
    transaction, [_select] returns exactly the records of the kind that [get]
    would return and that satisfy every filter; neither the smallest-bucket plan
    nor the overlay of uncommitted changes can lose or invent one. *)
Theorem select_scan c tx kind filters i r :
  index_ok c → (∀ f v, (f, v) ∈ filters → f ∈ FIELDS) →
  (∀ t, tx = Some t → od_wf (tx_changes t)) →
  _select c tx kind filters !! i = Some r ↔
  (lookup c tx kind i = Some r ∧ ∀ f v, (f, v) ∈ filters → _field r f = v).
Proof.
  intros Hok Hf Hwf. unfold _select, lookup. rewrite <- matches_spec.
  destruct tx as [t|].
  - rewrite overlay_lookup by by apply Hwf. destruct (od_get (kind, i) (tx_changes t)) as [r'|].
    + destruct (matches filters r') eqn:E; (split; [by intros [= <-]|intros [[= <-] ?]; congruence]).
    + rewrite indexed_scan by done. unfold scan. rewrite map_lookup_filter_Some. done.
  - rewrite indexed_scan by done. unfold scan. rewrite map_lookup_filter_Some. done.
Qed.

(** * Durability *)

Definition flat (c : cache) (k : key) : option record := kind_records c k.1 !! k.2.
Definition overlay (changes : list (key * record)) (m : key → option record) (k : key) : option record :=
  match od_get k changes with Some r => Some r | None => m k end.

Lemma flat_publish_one c k r k' : flat (publish_one c (k, r)) k' = if decide (k' = k) then Some r else flat c k'.
Proof.
  destruct k as [kind i], k' as [kind' i']. unfold flat. simpl fst. simpl snd. rewrite kind_records_publish.
  destruct (decide (kind' = kind)) as [->|].
  - destruct (decide (i' = i)) as [->|].
    + rewrite decide_True by done. by rewrite lookup_insert_eq.
    + rewrite decide_False by congruence. by rewrite lookup_insert_ne.
  - rewrite decide_False by congruence. done.
Qed.

Lemma flat_publish c changes k : od_wf changes → flat (_publish c changes) k = overlay changes (flat c) k.
Proof.
  revert c. induction changes as [|[k' r] l IH]; intros c Hwf; [done|].
  unfold od_wf in Hwf. simpl in Hwf. apply NoDup_cons in Hwf as [Hn Hwf].
  change (_publish c ((k', r) :: l)) with (_publish (publish_one c (k', r)) l).
  rewrite IH by done. unfold overlay. simpl od_get. rewrite flat_publish_one.
  case_decide; [|done]. subst. by rewrite (proj2 (od_get_none _ _)).
Qed.

Lemma lookup_apply_rows db rows k : od_wf rows → apply_rows db rows !! k = overlay rows (db !!.) k.
Proof.
  revert db. induction rows as [|[k' r] l IH]; intros db Hwf; [done|].
  unfold od_wf in Hwf. simpl in Hwf. apply NoDup_cons in Hwf as [Hn Hwf].
  simpl. fold (apply_rows (<[k':=r]> db) l). rewrite IH by done. unfold overlay. simpl.
  destruct (decide (k = k')) as [->|Hne].
  - rewrite (proj2 (od_get_none _ _)) by done. by rewrite lookup_insert_eq.
  - by rewrite lookup_insert_ne.
Qed.

(** The database once everything queued is written. *)
Definition written (db : gmap key record) (l : list write) : gmap key record :=
  foldl (λ db w, apply_rows db (w_rows w)) db l.

Lemma apply_rows_set db rows k r :
  od_wf rows → apply_rows db (od_set k r rows) = <[k := r]> (apply_rows db rows).
Proof.
  intros Hwf. apply map_eq. intros k'. rewrite lookup_apply_rows by by apply od_wf_set.
  unfold overlay. rewrite od_get_set. case_decide as E.
  - subst. by rewrite lookup_insert_eq.
  - rewrite lookup_insert_ne by done. by rewrite lookup_apply_rows.
Qed.

(** Writing only the last row of each key is writing all of them in order. *)
Lemma apply_coalesce db batch : od_wf (coalesce batch) ∧ apply_rows db (coalesce batch) = written db batch.
Proof.
  unfold coalesce, written.
  assert (Hrows : ∀ l rows, od_wf rows →
    od_wf (foldl (λ rows row, od_set row.1 row.2 rows) rows l) ∧
    apply_rows db (foldl (λ rows (row : key * record), od_set row.1 row.2 rows) rows l) = apply_rows (apply_rows db rows) l).
  { intros l. induction l as [|[k r] l IH]; intros rows Hwf; simpl; [done|].
    destruct (IH (od_set k r rows)) as [H1 H2]; [by apply od_wf_set|]. split; [done|].
    rewrite H2, apply_rows_set by done. done. }
  assert (Hgo : ∀ batch rows db', od_wf rows → apply_rows db rows = db' →
    od_wf (foldl (λ rows w, foldl (λ rows row, od_set row.1 row.2 rows) rows (w_rows w)) rows batch) ∧
    apply_rows db (foldl (λ rows w, foldl (λ rows (row : key * record), od_set row.1 row.2 rows) rows (w_rows w)) rows batch)
      = foldl (λ db w, apply_rows db (w_rows w)) db' batch).
  { clear batch. intros batch. induction batch as [|w batch IH]; intros rows db' Hwf E; simpl; [done|].
    destruct (Hrows (w_rows w) rows Hwf) as [H1 H2]. apply IH; [done|]. by rewrite H2, E. }
  apply Hgo; [constructor|done].
Qed.

(** A row may replace what a key held: the same creation, a later version. *)
Definition grows (old : option record) (r : record) : Prop :=
  ∀ o, old = Some o → r_created r = r_created o ∧ r_version o < r_version r.

Definition changes_ok (m : key → option record) (changes : list (key * record)) : Prop :=
  od_wf changes ∧ ∀ k r, od_get k changes = Some r → grows (m k) r.

Fixpoint queue_ok (db : gmap key record) (l : list write) : Prop :=
  match l with
  | [] => True
  | w :: l => changes_ok (db !!.) (w_rows w) ∧ queue_ok (apply_rows db (w_rows w)) l
  end.

Lemma queue_ok_snoc db l w :
  queue_ok db l → changes_ok (written db l !!.) (w_rows w) → queue_ok db (l ++ [w]).
Proof. revert db. induction l as [|w' l IH]; intros db; simpl; [by auto|]. intros [? ?] ?. auto. Qed.

Definition later (old new : option record) : Prop :=
  ∀ o, old = Some o → ∃ r, new = Some r ∧ (r = o ∨ grows (Some o) r).

Lemma later_refl o : later o o.
Proof. intros r ->. exists r. auto. Qed.
Lemma later_trans a b c : later a b → later b c → later a c.
Proof.
  intros H1 H2 o ->. destruct (H1 o eq_refl) as (r & -> & Hr). destruct (H2 r eq_refl) as (r' & -> & Hr').
  exists r'. split; [done|]. destruct Hr as [->|Hr]; [done|]. right.
  destruct Hr' as [->|Hr']; [done|]. intros ? [= <-].
  destruct (Hr o eq_refl), (Hr' r eq_refl). split; [congruence|lia].
Qed.

Lemma later_overlay m changes k : changes_ok m changes → later (m k) (overlay changes m k).
Proof.
  intros [_ H]. unfold overlay. destruct (od_get k changes) as [r|] eqn:E; [|apply later_refl].
  intros o Ho. exists r. split; [done|]. right. rewrite <- Ho. by eapply H.
Qed.

Lemma later_written db l k : queue_ok db l → later (db !! k) (written db l !! k).
Proof.
  revert db. induction l as [|w l IH]; intros db; simpl; [intros _; apply later_refl|].
  intros [Hw Hl]. eapply later_trans; [|by apply IH].
  rewrite lookup_apply_rows by apply Hw. by apply (later_overlay (db !!.)).
Qed.

(** ** The invariant *)

Definition tx_ok (c : cache) (t : transaction) : Prop := changes_ok (flat c) (tx_changes t).

(** A transaction that waits for its write: queued last, written, or failed. *)
Definition committing_ok (s : state) (t : transaction) (n : nat) : Prop :=
  (s_error s = false ∧ (∀ k, written (s_db s) (s_pending s) !! k = overlay (tx_changes t) (flat (s_cache s)) k) ∧
   (n ∉ s_failed s) ∧
   ((∃ l, s_pending s = l ++ [Write (tx_changes t) (tx_events t) n] ∧ (n ∉ s_done s)) ∨
    (s_pending s = [] ∧ ∃ l, s_events s = l ++ tx_events t))) ∨
  (s_error s = true ∧ n ∈ s_failed s ∧ n ∉ s_done s).

Definition settled (s : state) : Prop :=
  s_error s = false → ∀ k, written (s_db s) (s_pending s) !! k = flat (s_cache s) k.

Record inv (s : state) : Prop := {
  inv_index : index_ok (s_cache s);
  inv_queue : queue_ok (s_db s) (s_pending s);
  inv_error : s_error s = true → s_pending s = [];
  inv_tickets : ∀ n, n ∈ s_done s ∨ n ∈ s_failed s ∨ n ∈ tickets (s_pending s) → (n < s_next s)%nat;
  inv_phase : match s_phase s with
              | Idle => settled s
              | Open t => tx_ok (s_cache s) t ∧ s_closed s = false ∧ settled s
              | Committing t n => tx_ok (s_cache s) t ∧ committing_ok s t n
              end }.

Lemma inv_open db events : inv (open_state db events).
Proof.
  unfold open_state. split; simpl; try done.
  - by apply publish_ok, empty_index_ok.
  - intros n. set_solver.
  - intros _ k. simpl. unfold load. rewrite flat_publish by apply NoDup_fst_map_to_list.
    unfold overlay. destruct (od_get k (map_to_list db)) as [r|] eqn:E.
    + apply od_get_elem in E. by apply elem_of_map_to_list in E.
    + apply od_get_none in E. unfold flat, kind_records. simpl.
      destruct (db !! k) as [r|] eqn:Ek; [|by rewrite lookup_empty]. destruct E.
      apply list_elem_of_fmap. exists (k, r). split; [done|]. by apply elem_of_map_to_list.
Qed.

Lemma put_record_ok c t kind identity fields expected event now r t' :
  tx_ok c t → put_record c t kind identity fields expected event now = Ok (r, t') →
  tx_ok c t' ∧ tx_deferred t' = tx_deferred t ∧ tx_changes t' = od_set (kind, identity) r (tx_changes t) ∧
  match lookup c (Some t) kind identity with
  | Some p => r_created r = r_created p ∧ r_version r = r_version p + 1
  | None => r_created r = now ∧ r_version r = 1
  end.
Proof.
  intros [Hwf Hg] H. unfold put_record in H. cbv zeta in H.
  destruct (match expected with Some e => _ | None => false end); [done|]. injection H as <- <-.
  unfold tx_ok, changes_ok. cbn [tx_changes tx_events tx_deferred]. split; [|split; [done|split; [done|]]].
  - split; [by apply od_wf_set|]. intros k r. rewrite od_get_set. case_decide as E; [|by apply Hg].
    subst k. intros [= <-] o Ho. unfold flat in Ho. simpl in Ho. simpl.
    destruct (od_get (kind, identity) (tx_changes t)) as [p|] eqn:Ep.
    + destruct (Hg _ _ Ep o Ho). split; [done|lia].
    + rewrite Ho. split; [done|lia].
  - simpl. destruct (match od_get (kind, identity) (tx_changes t) with Some r => Some r | None => _ end);
      simpl; split; done || lia.
Qed.

Lemma finish_write_inv s t : inv s → s_phase s = Open t → inv (finish s t).
Proof.
  intros [Hi Hq He Ht Hp] E. rewrite E in Hp. destruct Hp as ([Hwf Hg] & Hcl & Hs).
  unfold finish. destruct (tx_changes t) as [|ch changes] eqn:Ech.
  { split; try done. }
  rewrite <- Ech in *. clear Ech ch changes. unfold _enqueue. rewrite Hcl. simpl orb.
  destruct (s_error s) eqn:Eerr; cbv zeta.
  - split; simpl; try done.
    + intros n Hn. enough (n = s_next s ∨ (n < s_next s)%nat) by lia.
      destruct Hn as [Hn|[[Hn%elem_of_singleton|Hn]%elem_of_union|Hn]]; auto.
    + split; [done|]. right. split; [done|]. simpl. split; [set_solver|].
      intros Hn. specialize (Ht (s_next s) (or_introl Hn)). lia.
  - split; simpl; try done.
    + apply queue_ok_snoc; [done|]. simpl. split; [done|]. intros k r Hr.
      rewrite (Hs Eerr). by apply Hg.
    + intros n Hn. unfold tickets in Hn. rewrite map_app, list_to_set_app in Hn. simpl in Hn.
      enough (n = s_next s ∨ (n < s_next s)%nat) by lia. unfold tickets in Ht. set_solver.
    + split; [done|]. left. split; [done|]. simpl. split_and!.
      * intros k. unfold written. rewrite foldl_app. simpl. rewrite lookup_apply_rows by done.
        unfold overlay. destruct (od_get k (tx_changes t)); [done|]. by apply Hs.
      * intros Hn. specialize (Ht (s_next s) (or_intror (or_introl Hn))). lia.
      * left. exists (s_pending s). split; [done|].
        intros Hn. specialize (Ht (s_next s) (or_introl Hn)). lia.
Qed.

Lemma write_inv s :
  inv s → s_pending s ≠ [] →
  inv (State (s_cache s) (s_phase s) [] (apply_rows (s_db s) (coalesce (s_pending s)))
         (s_events s ++ batch_events (s_pending s)) (s_next s)
         (tickets (s_pending s) ∪ s_done s) (s_failed s) (s_error s) (s_closed s)).
Proof.
  intros [Hi Hq He Ht Hp] Hne. destruct (apply_coalesce (s_db s) (s_pending s)) as [_ ->].
  split; simpl; try done.
  - intros n Hn. apply Ht. set_solver.
  - destruct (s_phase s) as [|t|t n]; [done|done|]. destruct Hp as [Htx Hc]. split; [done|].
    destruct Hc as [(Herr & HD & Hnf & Hc)|(Herr & _)]; [|by destruct Hne; apply He].
    left. simpl. split; [done|]. split; [done|]. split; [done|]. right. split; [done|].
    destruct Hc as [(l & Hl & _)|[Hl _]]; [|done]. rewrite Hl. unfold batch_events.
    rewrite flat_map_app. simpl. rewrite app_nil_r. eexists. by rewrite app_assoc.
Qed.

Lemma write_error_inv s :
  inv s → s_pending s ≠ [] →
  inv (State (s_cache s) (s_phase s) [] (s_db s) (s_events s) (s_next s) (s_done s)
         (tickets (s_pending s) ∪ s_failed s) true (s_closed s)).
Proof.
  intros [Hi Hq He Ht Hp] Hne. split; simpl; try done.
  - intros n Hn. apply Ht. set_solver.
  - destruct (s_phase s) as [|t|t n]; [done| |].
    + destruct Hp as (? & ? & _). split; [done|]. split; [done|]. by intros [=].
    + destruct Hp as [Htx Hc]. split; [done|]. right. simpl. split; [done|].
      destruct Hc as [(Herr & HD & Hnf & Hc)|(Herr & _)]; [|by destruct Hne; apply He].
      destruct Hc as [(l & Hl & Hnd)|[Hl _]]; [|done]. split; [|done].
      rewrite Hl. unfold tickets. rewrite map_app, list_to_set_app. set_solver.
Qed.

Lemma step_inv s s' : inv s → step s s' → inv s'.
Proof.
  intros Hinv H. destruct H as [s deferred s' E H|s t kind identity fields expected event now r t' E H
    |s t E|s t E|s t E|s t n E H|s t n E H|s H|s H|s E].
  - destruct Hinv as [Hi Hq He Ht Hp]. rewrite E in Hp. unfold begin in H.
    destruct (s_error s) eqn:Eerr in H; [done|]. destruct (s_closed s) eqn:Ecl in H; [done|]. injection H as <-.
    split; simpl; try done. split; [split; [constructor|done]|by split].
  - destruct Hinv as [Hi Hq He Ht Hp]. rewrite E in Hp. destruct Hp as (Htx & Hcl & Hs).
    apply put_record_ok in H as (H & _); [|done]. by split.
  - destruct Hinv as [Hi Hq He Ht Hp]. rewrite E in Hp. by split.
  - destruct Hinv as [Hi Hq He Ht Hp]. rewrite E in Hp. destruct Hp as (_ & _ & ?). by split.
  - by apply finish_write_inv.
  - destruct Hinv as [Hi Hq He Ht Hp]. rewrite E in Hp. destruct Hp as [[Hwf Hg] Hc].
    split; simpl; try done; [by apply publish_ok|]. intros Herr k. simpl in *. rewrite flat_publish by done.
    destruct Hc as [(_ & HD & _)|(Herr' & _)]; [done|congruence].
  - destruct Hinv as [Hi Hq He Ht Hp]. rewrite E in Hp. destruct Hp as [_ Hc].
    split; simpl; try done. intros Herr. simpl in *. exfalso.
    destruct Hc as [(_ & _ & ? & _)|(? & _)]; [done|congruence].
  - by apply write_inv.
  - by apply write_error_inv.
  - destruct Hinv as [Hi Hq He Ht Hp]. rewrite E in Hp. by split.
Qed.

Lemma writer_reachable_inv db events s : reachable (open_state db events) s → inv s.
Proof. induction 1 as [|s s' _ IH H]; [apply inv_open|by eapply step_inv]. Qed.

(** C12: committed is durable. When a transaction that was not deferred leaves its
    commit, in any interleaving with the writer, either its write failed and
    nothing was published, or its changes were published and at that point the
    database holds exactly its records, with its events last in the event table. *)
Theorem commit_durable db events s s' t n :
  reachable (open_state db events) s → s_phase s = Committing t n → tx_deferred t = false →
  step s s' → s_phase s' = Idle →
  (s_cache s' = s_cache s ∧ n ∈ s_failed s) ∨
  (s_cache s' = _publish (s_cache s) (tx_changes t) ∧
   (∀ k r, od_get k (tx_changes t) = Some r → s_db s' !! k = Some r) ∧
   ∃ l, s_events s' = l ++ tx_events t).
Proof.
  intros Hr E Hd Hstep E'. apply writer_reachable_inv in Hr as [_ _ _ _ Hp]. rewrite E in Hp.
  destruct Hp as [_ Hc]. destruct Hstep as [| | | | |s t' n' E2 H|s t' n' E2 H|s H|s H|]; try congruence.
  - right. assert (t' = t ∧ n' = n) as [-> ->] by (split; congruence).
    destruct H as [H|[H _]]; [|congruence]. split; [done|]. simpl.
    destruct Hc as [(_ & HD & _ & [(l & _ & ?)|(Hpe & He)])|(_ & _ & ?)]; [done| |done].
    split; [|done]. intros k r Hk. specialize (HD k). rewrite Hpe in HD. simpl in HD.
    rewrite HD. unfold overlay. by rewrite Hk.
  - left. split; [done|]. congruence.
  - simpl in E'. congruence.
  - simpl in E'. congruence.
Qed.

(** C13: restart loses nothing that was written. When nothing is queued and the
    writer has not failed, loading the database gives exactly the published
    records, deferred observations included, with correct indexes. *)
Theorem restart_restores db events s :
  reachable (open_state db events) s → s_phase s = Idle → s_pending s = [] → s_error s = false →
  (∀ k, flat (load (s_db s)) k = flat (s_cache s) k) ∧ index_ok (load (s_db s)).
Proof.
  intros Hr E Hpe Herr. apply writer_reachable_inv in Hr as [_ _ _ _ Hp]. rewrite E in Hp.
  specialize (Hp Herr). rewrite Hpe in Hp. simpl in Hp.
  pose proof (inv_phase _ (inv_open (s_db s) events)) as H. simpl in H. specialize (H eq_refl). simpl in H.
  split; [|by apply publish_ok, empty_index_ok]. intros k. by rewrite <- H, Hp.
Qed.

(** Records only move forward. In every interleaving a step of the store
    leaves each record, in memory and in the database alike, as it was or replaces
    it by one of the same creation time and a strictly later version; no record
    disappears and coalesced writes never bring back an older one. *)
Theorem records_monotone db events s s' :
  reachable (open_state db events) s → step s s' →
  ∀ k, later (s_db s !! k) (s_db s' !! k) ∧ later (flat (s_cache s) k) (flat (s_cache s') k).
Proof.
  intros Hr Hstep k. apply writer_reachable_inv in Hr as [_ Hq _ _ Hp].
  destruct Hstep as [s deferred s' E H| | |s t E|s t E|s t n E H|s t n E H|s H|s H|];
    try (split; apply later_refl).
  - unfold begin in H. destruct (s_error s); [done|]. destruct (s_closed s); [done|]. injection H as <-.
    split; apply later_refl.
  - unfold finish, _enqueue. destruct (tx_changes t); [split; apply later_refl|].
    destruct (s_closed s || s_error s); split; apply later_refl.
  - split; [apply later_refl|]. rewrite E in Hp. destruct Hp as [[Hwf Hg] _]. simpl.
    rewrite flat_publish by done. by apply later_overlay.
  - split; [|apply later_refl]. simpl. destruct (apply_coalesce (s_db s) (s_pending s)) as [_ ->].
    by apply later_written.
Qed.

(** Optimistic writes. [put] fails exactly when an expected version was given
    and is not the record's current one; otherwise the record reads back at once
    inside the transaction with the new entries, keeps its creation time and has
    the next version, the event joins the transaction's in order, and every other
    record reads as before. *)
Theorem put_spec c t kind identity fields expected event now :
  let current := lookup c (Some t) kind identity in
  let version := match current with Some p => r_version p | None => 0 end in
  match put_record c t kind identity fields expected event now with
  | Err e => exn_kind e = RuntimeError ∧ ∃ v, expected = Some v ∧ v ≠ version
  | Ok (r, t') =>
      expected ∈ [None; Some version] ∧
      lookup c (Some t') kind identity = Some r ∧
      r_version r = version + 1 ∧ r_updated r = now ∧
      r_created r = match current with Some p => r_created p | None => now end ∧
      (∀ f, field_get r f = clone false (default Null (od_get f fields))) ∧
      tx_events t' = tx_events t ++ match event with Some e => [(now, kind, identity, e)] | None => [] end ∧
      ∀ kind' identity', (kind', identity') ≠ (kind, identity) →
        lookup c (Some t') kind' identity' = lookup c (Some t) kind' identity'
  end.
Proof.
  cbv zeta. unfold put_record. cbv zeta.
  set (version := match lookup c (Some t) kind identity with Some p => r_version p | None => 0 end).
  destruct (match expected with Some e => negb (version =? e) | None => false end) eqn:E; simpl.
  - split; [done|]. destruct expected as [v|]; [|done]. bool_prop. eauto.
  - split_and!; try done.
    + destruct expected as [v|]; [bool_prop; subst; set_solver|set_solver].
    + by rewrite od_get_set, decide_True.
    + intros f. unfold field_get. simpl. induction fields as [|[k v] l IH]; [done|]. simpl. by case_decide.
    + intros kind' identity' Hne. by rewrite od_get_set, decide_False.
Qed.

(** The event cursor misses nothing. For a cursor inside the table a page
    holds exactly the next events in order, at most [limit] of them and none only
    when the cursor is at the end, each numbered by its position. *)
Theorem events_page_exact l after limit :
  0 ≤ after ≤ Z.of_nat (length l) → 1 ≤ limit ≤ 1000 →
  events_page l after limit =
    Ok (imap (λ i e, (after + Z.of_nat i + 1, e)) (take (Z.to_nat limit) (drop (Z.to_nat after) l))).
Proof.
  intros Ha Hl. unfold events_page.
  destruct (Z.ltb_spec after 0); [lia|]. destruct (Z.leb_spec 1 limit); [|lia].
  destruct (Z.leb_spec limit 1000); [|lia]. simpl. f_equal.
  assert (Hfilter : filter (λ e : Z * (Z * string * string * value), after < e.1) (numbered l) =
              imap (λ i e, (after + Z.of_nat i + 1, e)) (drop (Z.to_nat after) l)).
  { unfold numbered. rewrite <- (take_drop (Z.to_nat after) l) at 1. rewrite imap_app, filter_app.
    assert (Hlen : length (take (Z.to_nat after) l) = Z.to_nat after) by (rewrite length_take; lia).
    assert (Hno : ∀ p, p ∈ imap (λ i e, (Z.of_nat i + 1, e)) (take (Z.to_nat after) l) → ¬ after < p.1).
    { intros p (i & Hi)%list_elem_of_lookup. rewrite list_lookup_imap in Hi.
      destruct (take _ l !! i) as [e|] eqn:E; [|done]. apply lookup_lt_Some in E. injection Hi as <-. simpl. lia. }
    rewrite (filter_false _ _ Hno). simpl.
    rewrite filter_true.
    - apply imap_ext. intros i e _. simpl. f_equal. lia.
    - intros p (i & Hi)%list_elem_of_lookup. rewrite list_lookup_imap in Hi.
      destruct (drop _ l !! i) as [e|]; [|done]. injection Hi as <-. simpl. lia. }
  by rewrite Hfilter, take_imap.
Qed.

(** The monitor's snapshot cache is transparent. If an identity and a version
    determine a record, and the cache holds copies of such records, then reading
    with the cache gives the same page as reading without, and the cache stays so. *)
Theorem metadata_cache_transparent (P : record → Prop) c tx kind parent limit _cache :
  (∀ r1 r2, P r1 → P r2 → r_id r1 = r_id r2 → r_version r1 = r_version r2 → r1 = r2) →
  (∀ r, r ∈ metadata_page c tx kind parent limit → P r) →
  (∀ i v copy, _cache !! i = Some (v, copy) →
     ∃ r, P r ∧ r_id r = i ∧ r_version r = v ∧ copy = clone true (record_value r)) →
  let '(values, _cache') := metadata c tx kind parent limit (Some _cache) in
  values = (metadata c tx kind parent limit None).1 ∧
  ∃ m, _cache' = Some m ∧ ∀ i v copy, m !! i = Some (v, copy) →
     ∃ r, P r ∧ r_id r = i ∧ r_version r = v ∧ copy = clone true (record_value r).
Proof.
  intros Hu. unfold metadata. generalize (metadata_page c tx kind parent limit). intros l. revert _cache.
  induction l as [|r l IH]; intros m Hl Hm; simpl; [by split; [|exists m]|].
  assert (Hone : (metadata_one m r).1 = clone true (record_value r) ∧
    ∀ i v copy, (metadata_one m r).2 !! i = Some (v, copy) →
     ∃ r, P r ∧ r_id r = i ∧ r_version r = v ∧ copy = clone true (record_value r)).
  { assert (Hins : ∀ i v copy, <[r_id r := (r_version r, clone true (record_value r))]> m !! i = Some (v, copy) →
     ∃ r, P r ∧ r_id r = i ∧ r_version r = v ∧ copy = clone true (record_value r)).
    { intros i v copy [[<- [= <- <-]]|[_ ?]]%lookup_insert_Some; [|eauto]. exists r. split; [|done].
      apply Hl. by left. }
    unfold metadata_one. destruct (m !! r_id r) as [[v copy]|] eqn:E; [|by split].
    destruct (Z.eqb_spec v (r_version r)) as [->|]; [|by split]. split; [|done]. simpl.
    destruct (Hm _ _ _ E) as (r' & HP & Hi & Hv & ->).
    assert (r' = r) as ->; [|done]. apply Hu; auto. apply Hl. by left. }
  destruct (metadata_one m r) as [v m1]. simpl in Hone. destruct Hone as [-> Hm1].
  specialize (IH m1 (λ x Hx, Hl x (list_elem_of_further _ _ _ Hx)) Hm1).
  destruct (metadata_cached m1 l) as [vs m2]. simpl in IH |- *. destruct IH as [-> IH]. by split.
Qed.

(** * Witnesses *)

Definition ex_rec : record := Rec "s1" 5 5 1 [("state"%string, Text "ready"); ("released"%string, Null)].
Definition ex_cache : cache := publish_one (Cache ∅ ∅) (("sandbox", "s1")%string, ex_rec).
Definition ex_filters : list (string * value) := [("state"%string, Text "ready"); ("released"%string, Bool false)].

Lemma ex_cache_ok : index_ok ex_cache.
Proof. apply publish_one_ok, empty_index_ok. Qed.

Lemma select_scan_witness :
  _select ex_cache None "sandbox" ex_filters !! "s1"%string = Some ex_rec.
Proof.
  apply (select_scan ex_cache None "sandbox" ex_filters "s1" ex_rec).
  - exact ex_cache_ok.
  - intros f v H. unfold ex_filters in H.
    apply elem_of_cons in H as [[= -> ->]|H]; [by left|].
    apply elem_of_cons in H as [[= -> ->]|H]; [|by apply not_elem_of_nil in H].
    apply (bool_decide_unpack _). vm_compute. exact I.
  - intros t. discriminate.
  - split; [vm_compute; reflexivity|]. intros f v H. unfold ex_filters in H.
    apply elem_of_cons in H as [[= -> ->]|H]; [vm_compute; reflexivity|].
    apply elem_of_cons in H as [[= -> ->]|H]; [vm_compute; reflexivity|by apply not_elem_of_nil in H].
Defined.

(** A run: one record is put, queued, written and published. *)
Definition ex_tx : transaction := Tx [(("sandbox", "s1")%string, ex_rec)] [] false.
Definition ex_s0 : state := open_state ∅ [].
Definition ex_open : state := with_phase (with_phase ex_s0 (Open (tx_empty false))) (Open ex_tx).
Definition ex_commit : state := finish ex_open ex_tx.
Definition ex_written : state :=
  State (s_cache ex_commit) (s_phase ex_commit) [] (apply_rows (s_db ex_commit) (coalesce (s_pending ex_commit)))
    (s_events ex_commit ++ batch_events (s_pending ex_commit)) (s_next ex_commit)
    (tickets (s_pending ex_commit) ∪ s_done ex_commit) (s_failed ex_commit) (s_error ex_commit) (s_closed ex_commit).
Definition ex_published : state := with_cache ex_written (_publish (s_cache ex_written) (tx_changes ex_tx)) Idle.

Lemma ex_reach_written : reachable ex_s0 ex_written.
Proof.
  apply (reachable_step _ ex_commit); [|by apply step_write].
  apply (reachable_step _ ex_open); [|by apply step_finish].
  apply (reachable_step _ (with_phase ex_s0 (Open (tx_empty false)))).
  - apply (reachable_step _ ex_s0); [constructor|]. by apply (step_begin _ false).
  - by apply (step_put _ (tx_empty false) "sandbox" "s1"
      [("state"%string, Text "ready"); ("released"%string, Null)] None None 5 ex_rec).
Qed.

Lemma ex_step_published : step ex_written ex_published.
Proof. apply (step_publish _ ex_tx O); [reflexivity|]. left. vm_compute. apply (bool_decide_unpack _). exact I. Qed.

Lemma commit_durable_witness :
  (s_cache ex_published = s_cache ex_written ∧ O ∈ s_failed ex_written) ∨
  (s_cache ex_published = _publish (s_cache ex_written) (tx_changes ex_tx) ∧
   (∀ k r, od_get k (tx_changes ex_tx) = Some r → s_db ex_published !! k = Some r) ∧
   ∃ l, s_events ex_published = l ++ tx_events ex_tx).
Proof.
  apply (commit_durable ∅ [] ex_written ex_published ex_tx O);
    [exact ex_reach_written|reflexivity|reflexivity|exact ex_step_published|reflexivity].
Defined.

Lemma restart_restores_witness :
  (∀ k, flat (load (s_db ex_published)) k = flat (s_cache ex_published) k) ∧ index_ok (load (s_db ex_published)).
Proof.
  apply (restart_restores ∅ [] ex_published); [|reflexivity..].
  apply (reachable_step _ ex_written); [exact ex_reach_written|exact ex_step_published].
Defined.

Lemma records_monotone_witness :
  let k := ("sandbox", "s1")%string in
  later (s_db ex_written !! k) (s_db ex_published !! k) ∧
  later (flat (s_cache ex_written) k) (flat (s_cache ex_published) k).
Proof.
  exact (records_monotone ∅ [] ex_written ex_published ex_reach_written ex_step_published ("sandbox", "s1")%string).
Defined.

Lemma events_page_exact_witness :
  events_page [(1, "a", "b", Null); (2, "a", "c", Null)]%string 1 1 = Ok [(2, (2, "a", "c", Null))]%string.
Proof. rewrite events_page_exact; [reflexivity| |]; simpl; lia. Defined.

Lemma metadata_cache_transparent_witness :
  let '(values, _) := metadata ex_cache None "sandbox" None None (Some ∅) in
  values = (metadata ex_cache None "sandbox" None None None).1.
Proof.
  pose proof (metadata_cache_transparent (λ r, r = ex_rec) ex_cache None "sandbox" None None ∅) as H.
  destruct (metadata ex_cache None "sandbox" None None (Some ∅)) as [values m].
  apply H.
  - intros r1 r2 -> -> _ _. reflexivity.
  - assert (E : metadata_page ex_cache None "sandbox" None None = [ex_rec]) by (vm_compute; reflexivity).
    intros r Hr. rewrite E in Hr. by apply list_elem_of_singleton in Hr.
  - intros i v copy Hc. by rewrite lookup_empty in Hc.
Defined.
