(* ===== verification/CpuRates.v ===== *)
(** [scripts/cpu_broker.py], sharing: [_fill_rates] and [allocate_rates] divide the
    CPUs of a pool among jobs by weight, lending what observed demand leaves and
    never exceeding a quota. Rates are exact rationals. *)

From S2P Require Import Prelude.
From Stdlib Require Import QArith Qminmax Lqa.
Local Open Scope Q_scope.

Definition sumQ {A} (f : A → Q) (l : list A) : Q := foldr (λ x s, f x + s) 0 l.
Definition Qlt_bool (a b : Q) : bool := negb (Qle_bool b a).

Section rates.
  Context (weight : string → Q).

Definition rate_of (rates : gmap string Q) (j : string) : Q := default 0 (rates !! j).

(** [remaining.remove(job)] *)
Fixpoint remove_first (j : string) (l : list string) : list string :=
  match l with
  | [] => []
  | x :: l => if bool_decide (x = j) then l else x :: remove_first j l
  end.

Definition is_capped (caps : string → option Q) (capacity weights : Q) (rates : gmap string Q) (j : string) : bool :=
  match caps j with
  | Some c => Qlt_bool (c - rate_of rates j) (capacity * weight j / weights)
  | None => false
  end.

(** The loop over the capped jobs. *)
Definition cap_one (caps : string → option Q) (st : Q * gmap string Q * list string) (j : string)
    : Q * gmap string Q * list string :=
  let '(capacity, rates, remaining) := st in
  let c := default 0 (caps j) in
  (capacity - (c - rate_of rates j), <[j := c]> rates, remove_first j remaining).

Fixpoint _fill_rates (fuel : nat) (remaining : list string) (capacity : Q) (caps : string → option Q)
    (rates : gmap string Q) : gmap string Q :=
  match fuel, remaining with
  | S fuel, _ :: _ =>
      let weights := sumQ weight remaining in
      match filter (λ j, is_capped caps capacity weights rates j = true) remaining with
      | [] => foldl (λ rates j, <[j := rate_of rates j + capacity * weight j / weights]> rates) rates remaining
      | capped =>
          let '(capacity, rates, remaining) := foldl (cap_one caps) (capacity, rates, remaining) capped in
          _fill_rates fuel remaining capacity caps rates
      end
  | _, _ => rates
  end.

(** [min] of what is given. *)
Definition opt_min (a b : option Q) : option Q :=
  match a, b with
  | Some x, Some y => Some (Qmin x y)
  | Some x, None => Some x
  | None, o => o
  end.

Definition allocate_rates (demand quota : string → option Q) (active : list string) (capacity : Q)
    : gmap string Q :=
  let rates := list_to_map (map (λ j, (j, 0)) active) in
  let caps j := opt_min (demand j) (quota j) in
  let rates := _fill_rates (length active) active capacity caps rates in
  let spare := Qmax 0 (capacity - sumQ (rate_of rates) active) in
  if Qeq_bool spare 0 then rates else _fill_rates (length active) active spare quota rates.

(** * Sums *)

Lemma sumQ_ext {A} (f g : A → Q) l : (∀ x, x ∈ l → f x == g x) → sumQ f l == sumQ g l.
Proof.
  induction l as [|x l IH]; intros H; simpl; [reflexivity|].
  rewrite (H x) by (by left). rewrite IH; [reflexivity|]. intros y Hy. apply H. by right.
Qed.
Lemma sumQ_le {A} (f g : A → Q) l : (∀ x, x ∈ l → f x <= g x) → sumQ f l <= sumQ g l.
Proof.
  induction l as [|x l IH]; intros H; simpl; [lra|].
  pose proof (H x ltac:(by left)). specialize (IH (λ y Hy, H y (list_elem_of_further _ _ _ Hy))). lra.
Qed.
Lemma sumQ_add {A} (f g : A → Q) l : sumQ (λ x, f x + g x) l == sumQ f l + sumQ g l.
Proof. induction l as [|x l IH]; simpl; [reflexivity|]. rewrite IH. ring. Qed.
Lemma sumQ_scale {A} (f : A → Q) c l : sumQ (λ x, c * f x) l == c * sumQ f l.
Proof. induction l as [|x l IH]; simpl; [ring|]. rewrite IH. ring. Qed.
Lemma sumQ_split {A} (P : A → Prop) `{∀ x, Decision (P x)} (f : A → Q) l :
  sumQ f l == sumQ f (filter P l) + sumQ f (filter (λ x, ¬ P x) l).
Proof.
  induction l as [|x l IH]; [reflexivity|]. rewrite !filter_cons. simpl sumQ at 1. rewrite IH.
  destruct (decide (P x)).
  - rewrite decide_False by auto. simpl. ring.
  - rewrite decide_True by auto. simpl. ring.
Qed.
Lemma sumQ_nonneg {A} (f : A → Q) l : (∀ x, x ∈ l → 0 <= f x) → 0 <= sumQ f l.
Proof.
  intros H. assert (E : sumQ (λ _ : A, 0) l == 0) by (clear; induction l; simpl; lra).
  rewrite <- E. by apply sumQ_le.
Qed.
Lemma sumQ_pos (l : list string) : (∀ j, j ∈ l → 0 < weight j) → l ≠ [] → 0 < sumQ weight l.
Proof.
  destruct l as [|x l]; [done|]. intros H _. simpl. pose proof (H x ltac:(by left)).
  assert (0 <= sumQ weight l); [|lra].
  apply sumQ_nonneg. intros y Hy. apply Qlt_le_weak, H. by right.
Qed.

Lemma rate_of_insert rates j j' q :
  rate_of (<[j := q]> rates) j' = if decide (j' = j) then q else rate_of rates j'.
Proof.
  unfold rate_of. case_decide; [subst; by rewrite lookup_insert_eq|by rewrite lookup_insert_ne].
Qed.

Lemma Qlt_bool_iff a b : Qlt_bool a b = true ↔ a < b.
Proof.
  unfold Qlt_bool. rewrite negb_true_iff. split.
  - intros H. apply Qnot_le_lt. intros Hle. apply Qle_bool_iff in Hle. congruence.
  - intros H. destruct (Qle_bool b a) eqn:E; [|done]. apply Qle_bool_iff in E. lra.
Qed.

(** * One pass *)

Lemma remove_first_filter j l : NoDup l → remove_first j l = filter (λ x, x ≠ j) l.
Proof.
  induction l as [|x l IH]; intros Hnd; [done|]. apply NoDup_cons in Hnd as [Hx Hnd]. simpl.
  rewrite filter_cons. case_bool_decide as E.
  - subst. rewrite decide_False by auto. symmetry. apply filter_true. intros y Hy ->. done.
  - rewrite decide_True by done. by rewrite IH.
Qed.

(** What the loop over the capped jobs does. *)
Lemma cap_pass caps capped : NoDup capped → ∀ capacity rates remaining, NoDup remaining →
  ∃ capacity' rates', foldl (cap_one caps) (capacity, rates, remaining) capped =
    (capacity', rates', filter (λ j, j ∉ capped) remaining) ∧
  capacity' == capacity - sumQ (λ j, default 0 (caps j) - rate_of rates j) capped ∧
  ∀ j, rate_of rates' j = if decide (j ∈ capped) then default 0 (caps j) else rate_of rates j.
Proof.
  induction capped as [|c capped IH]; intros Hnd capacity rates remaining Hr; simpl.
  { exists capacity, rates. split; [|split; [ring|]].
    - f_equal. symmetry. apply filter_true. intros j _. apply not_elem_of_nil.
    - done. }
  apply NoDup_cons in Hnd as [Hc Hnd].
  rewrite remove_first_filter by done.
  destruct (IH Hnd (capacity - (default 0 (caps c) - rate_of rates c)) (<[c := default 0 (caps c)]> rates)
    (filter (λ x, x ≠ c) remaining)) as (cap' & rates' & E & Hcap & Hrates).
  { by apply NoDup_filter. }
  exists cap', rates'. split; [|split].
  - rewrite E. f_equal. clear. induction remaining as [|x l IHl]; [done|].
    rewrite !filter_cons. destruct (decide (x = c)) as [->|Hx].
    + rewrite decide_False by auto. rewrite IHl. symmetry. rewrite decide_False; [done|]. intros H. apply H. by left.
    + rewrite decide_True by done. rewrite filter_cons.
      destruct (decide (x ∉ capped)) as [Hin|Hin].
      * rewrite decide_True; [by rewrite IHl|]. by intros [->|?]%elem_of_cons.
      * rewrite decide_False; [done|]. intros H. apply Hin. intros ?. apply H. by right.
  - rewrite Hcap. rewrite (sumQ_ext _ (λ j, default 0 (caps j) - rate_of rates j) capped); [ring|].
    intros j Hj. rewrite rate_of_insert, decide_False; [reflexivity|]. by intros ->.
  - intros j. rewrite Hrates, rate_of_insert. destruct (decide (j ∈ capped)).
    + rewrite decide_True; [done|]. by right.
    + destruct (decide (j = c)) as [->|Hne].
      * rewrite decide_True; [done|]. by left.
      * rewrite decide_False; [done|]. by intros [->|?]%elem_of_cons.
Qed.

(** The last pass adds to every job its share. *)
Lemma share_pass (f : string → Q) l : NoDup l → ∀ rates,
  let rates' := foldl (λ rates j, <[j := rate_of rates j + f j]> rates) rates l in
  ∀ j, rate_of rates' j = if decide (j ∈ l) then rate_of rates j + f j else rate_of rates j.
Proof.
  induction l as [|x l IH]; intros Hnd rates; simpl; intros j; [done|].
  apply NoDup_cons in Hnd as [Hx Hnd]. rewrite (IH Hnd). rewrite rate_of_insert.
  destruct (decide (j = x)) as [->|Hne].
  - rewrite (decide_False (P := x ∈ l)) by done. rewrite decide_True; [done|]. by left.
  - destruct (decide (j ∈ l)).
    + rewrite decide_True; [done|]. by right.
    + rewrite decide_False; [done|]. by intros [->|?]%elem_of_cons.
Qed.

(** * Water filling *)

(** What a job gains at a given level per unit of weight. *)
Definition gain (caps : string → option Q) (rates : gmap string Q) (level : Q) (j : string) : Q :=
  match caps j with
  | Some c => Qmin (c - rate_of rates j) (level * weight j)
  | None => level * weight j
  end.

Definition full (caps : string → option Q) (rates : gmap string Q) (j : string) : Prop :=
  ∃ c, caps j = Some c ∧ rate_of rates j == c.

Definition under_caps (caps : string → option Q) (rates : gmap string Q) (l : list string) : Prop :=
  ∀ j c, j ∈ l → caps j = Some c → rate_of rates j <= c.

Lemma uncapped_gain caps capacity W rates j :
  ¬ W == 0 → is_capped caps capacity W rates j = false →
  gain caps rates (capacity / W) j == capacity * weight j / W.
Proof.
  intros HW H. assert (E : capacity / W * weight j == capacity * weight j / W) by (field; exact HW).
  unfold gain, is_capped in *. destruct (caps j) as [c|]; [|exact E].
  unfold Qlt_bool in H. apply negb_false_iff, Qle_bool_iff in H.
  rewrite Q.min_r; [exact E|]. rewrite E. exact H.
Qed.

Lemma capped_gain caps capacity W rates level j c :
  0 < W → 0 < weight j → capacity / W <= level → caps j = Some c →
  is_capped caps capacity W rates j = true → gain caps rates level j == c - rate_of rates j.
Proof.
  intros HW Hw Hl Hc H. unfold gain, is_capped in *. rewrite Hc in *. apply Qlt_bool_iff in H.
  assert (E : capacity / W * weight j == capacity * weight j / W) by (field; lra).
  apply Q.min_l. apply Qlt_le_weak. eapply Qlt_le_trans; [exact H|]. rewrite <- E.
  apply Qmult_le_compat_r; [exact Hl|lra].
Qed.

Lemma fill_rates_level fuel remaining capacity caps rates :
  NoDup remaining → (length remaining <= fuel)%nat → 0 <= capacity →
  (∀ j, j ∈ remaining → 0 < weight j) → under_caps caps rates remaining →
  let rates' := _fill_rates fuel remaining capacity caps rates in
  ∃ level, (remaining ≠ [] → capacity / sumQ weight remaining <= level) ∧ 0 <= level ∧
    (∀ j, j ∈ remaining → rate_of rates' j == rate_of rates j + gain caps rates level j) ∧
    (∀ j, j ∉ remaining → rate_of rates' j = rate_of rates j) ∧
    sumQ (rate_of rates') remaining <= sumQ (rate_of rates) remaining + capacity ∧
    (sumQ (rate_of rates') remaining == sumQ (rate_of rates) remaining + capacity ∨
     ∀ j, j ∈ remaining → full caps rates' j).
Proof.
  revert remaining capacity rates. induction fuel as [|fuel IH]; intros remaining capacity rates Hnd Hf Hc Hw Hu.
  { destruct remaining; [|simpl in Hf; lia]. exists 0. split; [done|]. split; [lra|]. simpl.
    split; [by intros j ?%not_elem_of_nil|]. split; [done|]. split; [lra|]. right. by intros j ?%not_elem_of_nil. }
  destruct (decide (remaining = [])) as [->|Hne].
  { exists 0. split; [done|]. split; [lra|]. simpl.
    split; [by intros j ?%not_elem_of_nil|]. split; [done|]. split; [lra|]. right. by intros j ?%not_elem_of_nil. }
  cbv zeta. assert (HW : 0 < sumQ weight remaining) by by apply sumQ_pos.
  assert (Hlam : 0 <= capacity / sumQ weight remaining) by (apply Qle_shift_div_l; lra).
  assert (Eunf : _fill_rates (S fuel) remaining capacity caps rates =
    match filter (λ j, is_capped caps capacity (sumQ weight remaining) rates j = true) remaining with
    | [] => foldl (λ rates j, <[j := rate_of rates j + capacity * weight j / sumQ weight remaining]> rates) rates remaining
    | capped => let '(capacity, rates, remaining) := foldl (cap_one caps) (capacity, rates, remaining) capped in
                _fill_rates fuel remaining capacity caps rates
    end) by by destruct remaining.
  rewrite Eunf. clear Eunf. set (W := sumQ weight remaining) in *.
  destruct (filter _ remaining) as [|c0 cs] eqn:Ecap.
  - assert (Hno : ∀ j, j ∈ remaining → is_capped caps capacity W rates j = false).
    { intros j Hj. destruct (is_capped caps capacity W rates j) eqn:E; [|done].
      assert (Hin : j ∈ filter (λ j, is_capped caps capacity W rates j = true) remaining) by by apply list_elem_of_filter.
      rewrite Ecap in Hin. by apply not_elem_of_nil in Hin. }
    pose proof (share_pass (λ j, capacity * weight j / W) remaining Hnd rates) as Hs. cbv zeta in Hs.
    assert (Hsum : sumQ (rate_of (foldl (λ rates j, <[j := rate_of rates j + capacity * weight j / W]> rates) rates remaining)) remaining
              == sumQ (rate_of rates) remaining + capacity).
    { rewrite (sumQ_ext _ (λ j, rate_of rates j + capacity / W * weight j)).
      - rewrite sumQ_add, sumQ_scale. fold W. field. lra.
      - intros j Hj. rewrite Hs, decide_True by done. field. lra. }
    exists (capacity / W). split; [intros _; lra|]. split; [done|]. split; [|split; [|split; [lra|by left]]].
    + intros j Hj. rewrite Hs, decide_True by done. rewrite uncapped_gain; [reflexivity|lra|by apply Hno].
    + intros j Hj. by rewrite Hs, decide_False.
  - set (capped := c0 :: cs) in *.
    assert (Hcap : ∀ j, j ∈ capped ↔ is_capped caps capacity W rates j = true ∧ j ∈ remaining).
    { intros j. by rewrite <- Ecap, list_elem_of_filter. }
    assert (Hndc : NoDup capped) by (rewrite <- Ecap; by apply NoDup_filter).
    destruct (cap_pass caps capped Hndc capacity rates remaining Hnd) as (capacity' & rates' & -> & Hcapacity & Hrates).
    set (rest := filter (λ j, j ∉ capped) remaining) in *.
    assert (Hsplit : ∀ f, sumQ f remaining == sumQ f capped + sumQ f rest).
    { intros f. rewrite (sumQ_split (λ j, is_capped caps capacity W rates j = true)), Ecap.
      assert (filter (λ x, ¬ is_capped caps capacity W rates x = true) remaining = rest) as ->; [|reflexivity].
      apply filter_ext_in. intros x Hx. rewrite Hcap. tauto. }
    assert (Hcaps : ∀ j, j ∈ capped → ∃ c, caps j = Some c ∧ rate_of rates j <= c ∧
      c - rate_of rates j <= capacity / W * weight j).
    { intros j Hj. apply Hcap in Hj as [Hj Hin]. assert (Hj' := Hj). unfold is_capped in Hj'.
      destruct (caps j) as [c|] eqn:Ecj; [|done]. apply Qlt_bool_iff in Hj'. exists c.
      split; [done|]. split; [by eapply Hu|].
      assert (E : capacity / W * weight j == capacity * weight j / W) by (field; lra). lra. }
    set (g := λ j, default 0 (caps j) - rate_of rates j) in *.
    assert (Hg : sumQ g capped <= capacity / W * sumQ weight capped).
    { rewrite <- sumQ_scale. apply sumQ_le. intros j Hj. destruct (Hcaps j Hj) as (c & E & _ & H).
      unfold g. rewrite E. exact H. }
    assert (Hrest : capacity / W * sumQ weight rest <= capacity').
    { assert (capacity == capacity / W * W) by (field; lra). pose proof (Hsplit weight) as Hsw. fold W in Hsw.
      rewrite Hsw in H at 2. lra. }
    assert (Hwr : ∀ j, j ∈ rest → 0 < weight j) by (intros j [_ Hj]%list_elem_of_filter; by apply Hw).
    assert (Hwn : 0 <= sumQ weight rest) by (apply sumQ_nonneg; intros j Hj; apply Qlt_le_weak; auto).
    assert (Hc' : 0 <= capacity').
    { pose proof (Qmult_le_0_compat _ _ Hlam Hwn). lra. }
    assert (Hrr : ∀ j, j ∈ rest → rate_of rates' j = rate_of rates j).
    { intros j [Hj _]%list_elem_of_filter. by rewrite Hrates, decide_False. }
    destruct (IH rest capacity' rates') as (level & Hl1 & Hl2 & Hl3 & Hl4 & Hl5 & Hl6).
    { by apply NoDup_filter. }
    { assert (length rest < length remaining)%nat; [|lia].
      assert (Hin0 : c0 ∈ capped) by by left.
      apply (length_filter_lt _ _ c0); [by apply Hcap in Hin0 as [_ ?]|]. by intros Hn. }
    { done. }
    { done. }
    { intros j c Hj Ec. rewrite Hrr by done. eapply Hu; [|exact Ec]. by apply list_elem_of_filter in Hj as [_ ?]. }
    set (final := _fill_rates fuel rest capacity' caps rates') in *.
    assert (Hfc : ∀ j, j ∈ capped → rate_of final j == rate_of rates j + g j ∧ full caps final j).
    { intros j Hj. assert (Hnr : j ∉ rest) by by intros [Hn _]%list_elem_of_filter.
      destruct (Hcaps j Hj) as (c & E & _ & _). assert (Ef : rate_of final j = c).
      { rewrite Hl4 by done. by rewrite Hrates, decide_True, E by done. }
      split; [|exists c; by rewrite Ef]. rewrite Ef. unfold g. rewrite E. simpl. ring. }
    assert (Hlev : ∃ level', capacity / W <= level' ∧ ∀ j, j ∈ rest → gain caps rates' level j == gain caps rates level' j).
    { destruct (decide (rest = [])) as [Er|Er].
      - exists (capacity / W). split; [lra|]. rewrite Er. by intros j ?%not_elem_of_nil.
      - exists level. split.
        + eapply Qle_trans; [|by apply Hl1]. apply Qle_shift_div_l; [by apply sumQ_pos|]. exact Hrest.
        + intros j Hj. unfold gain. destruct (caps j); [|reflexivity]. by rewrite Hrr. }
    destruct Hlev as (level' & Hle & Hgl). exists level'. split; [done|]. split; [lra|].
    assert (Hpart : ∀ j, j ∈ remaining → j ∈ capped ∨ j ∈ rest).
    { intros j Hj. destruct (decide (j ∈ capped)); [by left|right]. by apply list_elem_of_filter. }
    split; [|split; [|split]].
    + intros j Hj. destruct (Hpart j Hj) as [Hjc|Hjr].
      * rewrite (proj1 (Hfc j Hjc)). destruct (Hcaps j Hjc) as (c & E & _ & _).
        assert (Hjc' := Hjc). apply Hcap in Hjc' as [Hic _].
        rewrite (capped_gain caps capacity W rates level' j c); [|done|by apply Hw|done|done|done].
        unfold g. rewrite E. reflexivity.
      * rewrite Hl3 by done. rewrite Hrr by done. by rewrite Hgl.
    + intros j Hj. rewrite Hl4; [|by intros [_ ?]%list_elem_of_filter]. rewrite Hrates, decide_False; [done|].
      by intros [_ ?]%Hcap.
    + rewrite (Hsplit (rate_of final)), (Hsplit (rate_of rates)).
      rewrite (sumQ_ext (rate_of final) (λ j, rate_of rates j + g j) capped) by (intros; by apply Hfc).
      rewrite sumQ_add. rewrite (sumQ_ext (rate_of rates) (rate_of rates') rest) by (intros; by rewrite Hrr).
      lra.
    + destruct Hl6 as [Hl6|Hl6].
      * left. rewrite (Hsplit (rate_of final)), (Hsplit (rate_of rates)).
        rewrite (sumQ_ext (rate_of final) (λ j, rate_of rates j + g j) capped) by (intros; by apply Hfc).
        rewrite sumQ_add. rewrite (sumQ_ext (rate_of rates) (rate_of rates') rest) by (intros; by rewrite Hrr).
        lra.
      * right. intros j Hj. destruct (Hpart j Hj) as [Hjc|Hjr]; [by apply Hfc|by apply Hl6].
Qed.

Lemma rate_of_start active j : rate_of (list_to_map (map (λ j, (j, 0)) active)) j == 0.
Proof.
  unfold rate_of. destruct (list_to_map (map (λ j, (j, 0)) active) !! j) as [q|] eqn:E; [|reflexivity].
  apply elem_of_list_to_map_2, list_elem_of_fmap in E as (? & [= _ ->] & _). reflexivity.
Qed.

Lemma gain_nonneg caps rates level j :
  0 <= level → 0 < weight j → (∀ c, caps j = Some c → rate_of rates j <= c) → 0 <= gain caps rates level j.
Proof.
  intros Hl Hw Hc. assert (0 <= level * weight j) by (apply Qmult_le_0_compat; lra).
  unfold gain. destruct (caps j) as [c|]; [|done]. specialize (Hc c eq_refl).
  apply Q.min_glb; lra.
Qed.

Lemma gain_under_cap caps rates level j c : caps j = Some c → rate_of rates j + gain caps rates level j <= c.
Proof.
  intros E. unfold gain. rewrite E. pose proof (Q.le_min_l (c - rate_of rates j) (level * weight j)). lra.
Qed.

Lemma opt_min_le a b x : opt_min a b = Some x → ∀ y, b = Some y → x <= y.
Proof.
  destruct a, b; simpl; intros [= <-] y [= <-]; [apply Q.le_min_r|lra].
Qed.

Lemma allocate_rates_spec demand quota active capacity :
  NoDup active → 0 <= capacity → (∀ j, j ∈ active → 0 < weight j) →
  (∀ j d, j ∈ active → demand j = Some d → 0 <= d) → (∀ j q, j ∈ active → quota j = Some q → 0 <= q) →
  let rates := allocate_rates demand quota active capacity in
  let caps j := opt_min (demand j) (quota j) in
  sumQ (rate_of rates) active <= capacity ∧
  (∀ j q, j ∈ active → quota j = Some q → rate_of rates j <= q) ∧
  (sumQ (rate_of rates) active == capacity ∨ ∀ j, j ∈ active → full quota rates j) ∧
  (∃ level1 level2 first, (active ≠ [] → capacity / sumQ weight active <= level1) ∧ 0 <= level2 ∧
     ∀ j, j ∈ active → rate_of first j == gain caps ∅ level1 j ∧
       rate_of rates j == rate_of first j + gain quota first level2 j) ∧
  (∀ j, j ∈ active →
     match caps j with
     | Some c => Qmin c (capacity * weight j / sumQ weight active)
     | None => capacity * weight j / sumQ weight active
     end <= rate_of rates j).
Proof.
  intros Hnd Hc Hw Hd Hq. cbv zeta. unfold allocate_rates. cbv zeta.
  set (caps := λ j, opt_min (demand j) (quota j)).
  set (start := list_to_map (map (λ j, (j, 0)) active)).
  assert (Hcaps : ∀ j c, j ∈ active → caps j = Some c → 0 <= c).
  { intros j c Hj E. unfold caps in E. specialize (Hd j). specialize (Hq j).
    destruct (demand j), (quota j); simpl in E; try discriminate E; injection E as <-; [apply Q.min_glb; auto|auto..]. }
  destruct (fill_rates_level (length active) active capacity caps start) as (l1 & H1 & H2 & H3 & _ & H5 & H6);
    [done|lia|done|done|intros j c Hj E; unfold start; rewrite rate_of_start; by eapply Hcaps|].
  set (r1 := _fill_rates (length active) active capacity caps start) in *.
  assert (Hstart : sumQ (rate_of start) active == 0).
  { rewrite (sumQ_ext _ (λ _, 0) active) by (intros; apply rate_of_start). clear. induction active; simpl; lra. }
  assert (Hg : ∀ j, gain caps start l1 j == gain caps ∅ l1 j).
  { intros j. unfold gain. destruct (caps j); [|reflexivity]. unfold start. by rewrite rate_of_start. }
  assert (H3' : ∀ j, j ∈ active → rate_of r1 j == gain caps ∅ l1 j).
  { intros j Hj. rewrite H3, Hg by done. unfold start. rewrite rate_of_start. ring. }
  assert (Hquota : ∀ j q, j ∈ active → quota j = Some q → rate_of r1 j <= q).
  { intros j q Hj E. assert (∃ c, caps j = Some c ∧ c <= q) as (c & Ec & Hcq).
    { unfold caps. rewrite E. destruct (demand j); simpl; [|exists q; split; [done|lra]].
      eexists. split; [done|]. apply Q.le_min_r. }
    rewrite H3' by done. pose proof (gain_under_cap caps ∅ l1 j c Ec) as Hu.
    assert (rate_of ∅ j = 0) as E0 by done. rewrite E0 in Hu. lra. }
  assert (Hshare : ∀ j, j ∈ active → match caps j with
     | Some c => Qmin c (capacity * weight j / sumQ weight active)
     | None => capacity * weight j / sumQ weight active end <= rate_of r1 j).
  { intros j Hj. rewrite H3' by done. assert (Hne : active ≠ []) by (intros ->; by apply not_elem_of_nil in Hj).
    specialize (H1 Hne). pose proof (sumQ_pos active Hw Hne) as HW.
    assert (E : capacity * weight j / sumQ weight active <= l1 * weight j).
    { assert (E : capacity / sumQ weight active * weight j == capacity * weight j / sumQ weight active) by (field; lra).
      rewrite <- E. apply Qmult_le_compat_r; [done|]. apply Qlt_le_weak. auto. }
    unfold gain. destruct (caps j) as [c|]; [|done]. assert (rate_of ∅ j = 0) as -> by done.
    apply Q.min_le_compat; [lra|done]. }
  destruct (Qeq_bool (Qmax 0 (capacity - sumQ (rate_of r1) active)) 0) eqn:Espare.
  - apply Qeq_bool_iff in Espare. pose proof (Q.le_max_r 0 (capacity - sumQ (rate_of r1) active)) as Hm.
    rewrite Espare in Hm. split; [lra|]. split; [done|]. split; [left; lra|]. split; [|done].
    exists l1, 0, r1. split; [done|]. split; [lra|]. intros j Hj. split; [by apply H3'|].
    unfold gain. destruct (quota j) as [q|] eqn:E; [|ring]. specialize (Hquota j q Hj E).
    rewrite Q.min_r; [ring|lra].
  - set (spare := Qmax 0 (capacity - sumQ (rate_of r1) active)) in *.
    assert (Hs : spare == capacity - sumQ (rate_of r1) active) by (apply Q.max_r; lra).
    destruct (fill_rates_level (length active) active spare quota r1) as (l2 & G1 & G2 & G3 & _ & G5 & G6);
      [done|lia|apply Q.le_max_l|done|done|].
    set (r2 := _fill_rates (length active) active spare quota r1) in *.
    split; [lra|]. split.
    { intros j q Hj E. rewrite G3 by done. by apply gain_under_cap. }
    split; [destruct G6 as [G6|G6]; [left; lra|by right]|]. split.
    { exists l1, l2, r1. split; [done|]. split; [done|]. intros j Hj. split; [by apply H3'|by apply G3]. }
    intros j Hj. eapply Qle_trans; [by apply Hshare|]. rewrite G3 by done.
    pose proof (gain_nonneg quota r1 l2 j G2 (Hw j Hj) (λ c, Hquota j c Hj)). lra.
Qed.
Lemma rates_bounds demand quota active capacity :
  NoDup active → 0 <= capacity → (∀ j, j ∈ active → 0 < weight j) →
  (∀ j d, j ∈ active → demand j = Some d → 0 <= d) → (∀ j q, j ∈ active → quota j = Some q → 0 <= q) →
  sumQ (rate_of (allocate_rates demand quota active capacity)) active <= capacity ∧
  ∀ j q, j ∈ active → quota j = Some q → rate_of (allocate_rates demand quota active capacity) j <= q.
Proof.
  intros H1 H2 H3 H4 H5.
  destruct (allocate_rates_spec demand quota active capacity H1 H2 H3 H4 H5) as (A & B & _). done.
Qed.

Lemma fold_insert_dom (f : gmap string Q → string → Q) l rates :
  (∀ j, j ∈ l → j ∈ dom rates) → dom (foldl (λ r j, <[j := f r j]> r) rates l) = dom rates.
Proof.
  revert rates. induction l as [|j l IH]; intros rates H; [done|]. simpl.
  assert (Hd : dom (<[j := f rates j]> rates) = dom rates).
  { rewrite dom_insert_L. assert (j ∈ dom rates) by (apply H; by left). set_solver. }
  rewrite IH; [done|]. intros k Hk. rewrite Hd. apply H. by right.
Qed.

(** Exactly the active jobs have rates. *)
Lemma fill_dom fuel remaining capacity caps rates :
  (∀ j, j ∈ remaining → j ∈ dom rates) → dom (_fill_rates fuel remaining capacity caps rates) = dom rates.
Proof.
  revert remaining capacity rates. induction fuel as [|fuel IH]; intros remaining capacity rates H; [done|].
  destruct remaining as [|j0 remaining]; [done|]. cbn [_fill_rates]. set (l := j0 :: remaining) in *.
  destruct (filter _ l) as [|c cs] eqn:E.
  - by apply (fold_insert_dom (λ r j, rate_of r j + capacity * weight j / sumQ weight l)).
  - assert (Hc : ∀ k, k ∈ c :: cs → k ∈ dom rates).
    { intros k Hk. apply H. rewrite <- E in Hk. by apply list_elem_of_filter in Hk as [_ ?]. }
    clear E. assert (Hfold : ∀ cl cap r rem, (∀ k, k ∈ cl → k ∈ dom r) → (∀ k, k ∈ rem → k ∈ dom r) →
      let st := foldl (cap_one caps) (cap, r, rem) cl in dom st.1.2 = dom r ∧ ∀ k, k ∈ st.2 → k ∈ dom r).
    { clear. intros cl. induction cl as [|k cl IHc]; intros cap r rem H1 H2; simpl; [done|].
      assert (Hd : dom (<[k := default 0 (caps k)]> r) = dom r).
      { rewrite dom_insert_L. assert (k ∈ dom r) by (apply H1; by left). set_solver. }
      rewrite <- Hd. apply IHc; rewrite Hd.
      - intros k' Hk'. apply H1. by right.
      - intros k' Hk'. apply H2. clear -Hk'. induction rem as [|x rem IHr]; simpl in Hk'; [done|].
        case_bool_decide; [by right|]. apply elem_of_cons in Hk' as [->|Hk']; [by left|right; auto]. }
    specialize (Hfold (c :: cs) capacity rates l Hc H).
    destruct (foldl (cap_one caps) (capacity, rates, l) (c :: cs)) as [[cap' r'] rem']. simpl in Hfold.
    destruct Hfold as [Hd Hr]. rewrite IH; [done|]. by rewrite Hd.
Qed.

Lemma allocate_dom_eq demand quota active capacity :
  dom (allocate_rates demand quota active capacity) = list_to_set active.
Proof.
  unfold allocate_rates. cbv zeta. set (start := list_to_map _).
  assert (Hs : dom start = list_to_set active).
  { unfold start. rewrite dom_list_to_map_L. f_equal. induction active as [|j l IH]; simpl; [done|]. by f_equal. }
  assert (Hin : ∀ j, j ∈ active → j ∈ dom start) by (intros; rewrite Hs; by apply elem_of_list_to_set).
  destruct (Qeq_bool _ 0).
  - by rewrite fill_dom.
  - rewrite fill_dom; rewrite fill_dom; done.
Qed.

Lemma allocate_dom demand quota active capacity k :
  is_Some (allocate_rates demand quota active capacity !! k) → k ∈ active.
Proof.
  intros H. apply elem_of_dom in H. rewrite allocate_dom_eq in H. by apply elem_of_list_to_set in H.
Qed.

Lemma allocate_total demand quota active capacity k :
  k ∈ active → allocate_rates demand quota active capacity !! k =
    Some (rate_of (allocate_rates demand quota active capacity) k).
Proof.
  intros H. assert (Hd : k ∈ dom (allocate_rates demand quota active capacity)).
  { rewrite allocate_dom_eq. by apply elem_of_list_to_set. }
  apply elem_of_dom in Hd as [q Hq]. unfold rate_of. by rewrite Hq.
Qed.

(** C39: CPU sharing. For positive weights and nonnegative demands and quotas, the
    rates sum to at most the capacity, no job exceeds its quota, capacity is left
    over only when every job is at its quota, and the rates are two weighted
    water-fillings: up to demand and quota at one level, the rest up to quota at
    another. In particular every job gets at least the least of its demand, its
    quota and its weighted share of the whole capacity. *)
Theorem allocate_rates_fair demand quota active capacity :
  NoDup active → 0 <= capacity → (∀ j, j ∈ active → 0 < weight j) →
  (∀ j d, j ∈ active → demand j = Some d → 0 <= d) → (∀ j q, j ∈ active → quota j = Some q → 0 <= q) →
  let rates := allocate_rates demand quota active capacity in
  let caps j := opt_min (demand j) (quota j) in
  sumQ (rate_of rates) active <= capacity ∧
  (∀ j q, j ∈ active → quota j = Some q → rate_of rates j <= q) ∧
  (sumQ (rate_of rates) active == capacity ∨ ∀ j, j ∈ active → full quota rates j) ∧
  (∃ level1 level2 first, (active ≠ [] → capacity / sumQ weight active <= level1) ∧ 0 <= level2 ∧
     ∀ j, j ∈ active → rate_of first j == gain caps ∅ level1 j ∧
       rate_of rates j == rate_of first j + gain quota first level2 j) ∧
  (∀ j, j ∈ active →
     match caps j with
     | Some c => Qmin c (capacity * weight j / sumQ weight active)
     | None => capacity * weight j / sumQ weight active
     end <= rate_of rates j).
Proof. apply allocate_rates_spec. Qed.
End rates.

Lemma allocate_rates_fair_witness :
  let weight j := if bool_decide (j = "a"%string) then 2 else 1 in
  let rates := allocate_rates weight (λ j, if bool_decide (j = "a"%string) then Some (1#2) else None)
                 (λ j, if bool_decide (j = "b"%string) then Some 1 else None) ["a"; "b"; "c"]%string 4 in
  sumQ (rate_of rates) ["a"; "b"; "c"]%string <= 4 ∧
  Qeq_bool (rate_of rates "c"%string) (5#2) = true.
Proof.
  split; [|vm_compute; reflexivity].
  apply allocate_rates_fair.
  - apply (bool_decide_unpack _). vm_compute. exact I.
  - lra.
  - intros j _. case_bool_decide; lra.
  - intros j d _. case_bool_decide; [intros [= <-]; lra|discriminate].
  - intros j q _. case_bool_decide; [intros [= <-]; lra|discriminate].
Defined.
