(* ===== verification/CpuBroker.v ===== *)
(** [scripts/cpu_broker.py], accounting and decisions: process trees, the per-job
    credit account, one exchange with a sandbox's CPU control, and one turn of the
    broker loop. Process tables, replies and clocks are inputs; times and CPU
    seconds are exact rationals. *)

From S2P Require Import Prelude OrderedDict CpuRates.
From Stdlib Require Import QArith Qminmax Lqa.
Local Open Scope Q_scope.

(** * Constants *)

Definition TICK : Q := 2 # 100.
Definition BURST : Q := 10 # 100.
Definition DEMAND_WINDOW : Q := 10 # 100.
Definition RUNNABLE_WINDOW : Q := 4 # 100.
(** [2 / os.sysconf('SC_CLK_TCK')], with the usual 100 ticks per second. *)
Definition ACCOUNTING_BURST : Q := 2 # 100.

(** * Processes *)

(** One entry of [process_table]. *)
Record info := Info {
  p_running : bool; p_parent : Z; p_start : Z; p_threads : Z; p_self_cpu : Q; p_cpu : Q }.
Abbreviation table := (gmap Z info).

(** [descendants]: each round adds the children of what was found. *)
Definition children_in (t : table) (found : gset Z) : gset Z :=
  dom (filter (λ p : Z * info, p_parent p.2 ∈ found) t) ∖ found.
Fixpoint descendants_loop (fuel : nat) (t : table) (found : gset Z) : gset Z :=
  match fuel with
  | O => found
  | S fuel =>
      let extra := children_in t found in
      if bool_decide (extra = ∅) then found else descendants_loop fuel t (found ∪ extra)
  end.
Definition descendants (t : table) (root : Z) : gset Z := descendants_loop (S (size t)) t {[root]}.

(** [discover_trees] without the final table read: [children] is what the kernel
    lists for a process, [self] the broker. *)
Fixpoint discover (fuel : nat) (children : Z → list Z) (self : Z) (pending : list Z) (found : gset Z)
    : option (gset Z) :=
  match pending with
  | [] => Some found
  | pid :: pending =>
      match fuel with
      | O => None
      | S fuel =>
          if bool_decide (pid ∈ found) || bool_decide (pid = self)
          then discover fuel children self pending found
          else discover fuel children self (reverse (children pid) ++ pending) ({[pid]} ∪ found)
      end
  end.

(** [runnable_threads]: [threads] lists a process's threads and whether each
    runs, [None] when it cannot be read. *)
Definition runnable_of (t : table) (threads : Z → option (list (Z * bool))) (acc : option (gset Z)) (pid : Z)
    : option (gset Z) :=
  match acc with
  | None => None
  | Some runnable =>
      match t !! pid with
      | None => None
      | Some i =>
          if (p_threads i =? 1)%Z then Some (if p_running i then {[pid]} ∪ runnable else runnable)
          else
            match threads pid with
            | None => None
            | Some l =>
                if negb (Z.of_nat (length l) =? p_threads i)%Z then None
                else Some (list_to_set (map fst (filter (λ x : Z * bool, x.2 = true) l)) ∪ runnable)
            end
      end
  end.
Definition runnable_threads (t : table) (threads : Z → option (list (Z * bool))) (members : gset Z)
    : option (gset Z) :=
  foldl (runnable_of t threads) (Some ∅) (elements members).

(** * Jobs *)

Inductive backend := Runtime | Legacy.
#[export] Instance backend_eq_dec : EqDecision backend.
Proof. solve_decision. Defined.

Record job_config := JobConfig { cf_root : Z; cf_start : Z; cf_weight : Q; cf_quota : option Q }.

(** The state of a [Job]. *)
Record job := Job {
  j_config : job_config;
  j_credit : Q;
  j_previous : option Q;
  j_total : Q;
  j_active_until : Q;
  j_paused : bool;
  j_stops : Z;
  j_ready : bool;
  j_members : gset Z;
  j_demand : option Q;
  j_demand_elapsed : Q;
  j_demand_cpu : Q;
  j_demand_sample : option Q;
  j_observed_demand : option Q;
  j_runnable_since : gmap Z Q;
  j_previous_threads : gset Z;
  j_pending_threads : Z;
  j_rate : Q;
  j_backend : backend;
  j_desired_pause : bool;
  j_degraded : option string;
  j_last_sample : Q;
  j_helpers_cpu : Q;
  j_helper_samples : gmap (Z * Z) Q;
  j_runnable_floor : Z;
  j_runnable_time : Q;
  j_pending_pause : bool }.

(** [Job.__init__] *)
Definition job_init (config : job_config) (now : Q) : job :=
  Job config 0 None 0 (now + (2#10)) false 0 false {[cf_root config]} None 0 0 None None ∅ ∅ 0 0
    Runtime false None 0 0 ∅ 0 0 false.

Definition Qmax0 (q : Q) : Q := Qmax 0 q.
Definition Qtrue (q : Q) : bool := negb (Qeq_bool q 0).

(** [Job.update_helpers]: [identities] are the owned processes' start times. *)
Definition helper_one (identities : Z → Z) (old : gmap (Z * Z) Q) (st : Q * gmap (Z * Z) Q) (p : Z * info)
    : Q * gmap (Z * Z) Q :=
  let '(pid, i) := p in
  if negb (p_start i =? identities pid)%Z then st
  else
    let cpu := p_self_cpu i in
    (st.1 + Qmax0 (cpu - default cpu (old !! (pid, p_start i))), <[(pid, p_start i) := cpu]> st.2).
Definition update_helpers (j : job) (t : table) (identities : Z → Z) : job :=
  let '(cpu, samples) := foldl (helper_one identities (j_helper_samples j)) (j_helpers_cpu j, ∅) (map_to_list t) in
  Job (j_config j) (j_credit j) (j_previous j) (j_total j) (j_active_until j) (j_paused j) (j_stops j)
    (j_ready j) (j_members j) (j_demand j) (j_demand_elapsed j) (j_demand_cpu j) (j_demand_sample j)
    (j_observed_demand j) (j_runnable_since j) (j_previous_threads j) (j_pending_threads j) (j_rate j)
    (j_backend j) (j_desired_pause j) (j_degraded j) (j_last_sample j) cpu samples
    (j_runnable_floor j) (j_runnable_time j) (j_pending_pause j).

(** A reply of the runtime's CPU control. *)
Record sample := Sample {
  sm_cpu_ns : Z; sm_runnable : Z; sm_paused : bool; sm_disabled : bool; sm_reason : option string; sm_age_ns : Z }.

Definition Zmax0 (n : Z) : Z := Z.max 0 n.

(** [Job.update_sample] *)
Definition update_sample (j : job) (s : sample) (now : Q) : job :=
  let cpu := inject_Z (sm_cpu_ns s) / inject_Z 1000000000 + j_helpers_cpu j in
  let delta := match j_previous j with Some p => Qmax0 (cpu - p) | None => 0 end in
  let elapsed := if Qtrue (j_last_sample j) then Qmax0 (now - j_last_sample j) else 0 in
  let runnable := Zmax0 (sm_runnable s) in
  let active_until := if Qlt_bool (1#1000) delta || negb (runnable =? 0)%Z then now + (1#10) else j_active_until j in
  if j_paused j then
    Job (j_config j) (j_credit j - delta) (Some cpu) (j_total j + delta) active_until (sm_paused s) (j_stops j)
      (j_ready j) (j_members j) None (j_demand_elapsed j) (j_demand_cpu j) (j_demand_sample j)
      (j_observed_demand j) (j_runnable_since j) (j_previous_threads j) (j_pending_threads j) (j_rate j)
      (j_backend j) (j_desired_pause j) (j_degraded j) now (j_helpers_cpu j) (j_helper_samples j)
      0 now (j_pending_pause j)
  else
    let demand_cpu := j_demand_cpu j + delta in
    let demand_elapsed := j_demand_elapsed j + elapsed in
    let floor := Z.min (j_runnable_floor j) runnable in
    let '(pending_threads, floor, runnable_time) :=
      if Qle_bool RUNNABLE_WINDOW (now - j_runnable_time j) then (floor, runnable, now)
      else (j_pending_threads j, floor, j_runnable_time j) in
    let '(observed, demand_cpu, demand_elapsed) :=
      if Qle_bool DEMAND_WINDOW demand_elapsed then (Some (demand_cpu / demand_elapsed), 0, 0)
      else (j_observed_demand j, demand_cpu, demand_elapsed) in
    let demand := match observed with Some o => Some (Qmax o (inject_Z pending_threads)) | None => None end in
    Job (j_config j) (j_credit j - delta) (Some cpu) (j_total j + delta) active_until (sm_paused s) (j_stops j)
      (j_ready j) (j_members j) demand demand_elapsed demand_cpu (j_demand_sample j)
      observed (j_runnable_since j) (j_previous_threads j) pending_threads (j_rate j)
      (j_backend j) (j_desired_pause j) (j_degraded j) now (j_helpers_cpu j) (j_helper_samples j)
      floor runnable_time (j_pending_pause j).

(** [Job.update_demand] *)
Definition update_demand (j : job) (t : table) (threads : Z → option (list (Z * bool))) (delta now : Q) : job :=
  let with_demand d sample el cpu observed since prev pend :=
    Job (j_config j) (j_credit j) (j_previous j) (j_total j) (j_active_until j) (j_paused j) (j_stops j)
      (j_ready j) (j_members j) d el cpu sample observed since prev pend (j_rate j)
      (j_backend j) (j_desired_pause j) (j_degraded j) (j_last_sample j) (j_helpers_cpu j) (j_helper_samples j)
      (j_runnable_floor j) (j_runnable_time j) (j_pending_pause j) in
  match j_demand_sample j with
  | None => with_demand (j_demand j) (Some now) (j_demand_elapsed j) (j_demand_cpu j) (j_observed_demand j)
              (j_runnable_since j) (j_previous_threads j) (j_pending_threads j)
  | Some last =>
      if j_paused j then
        with_demand None (Some now) (j_demand_elapsed j) (j_demand_cpu j) (j_observed_demand j)
          (j_runnable_since j) (j_previous_threads j) (j_pending_threads j)
      else
        let cpu := j_demand_cpu j + delta in
        let elapsed := j_demand_elapsed j + (now - last) in
        let runnable := filter (λ p, default false (p_running <$> t !! p) = true) (j_members j) in
        let since : gmap Z Q := set_to_map (λ p, (p, default now (j_runnable_since j !! p))) runnable in
        let pending := Z.of_nat (size (filter (λ p : Z * Q, Qle_bool RUNNABLE_WINDOW (now - p.2) = true) since)) in
        let '(observed, pending_threads, previous, elapsed, cpu) :=
          if Qle_bool DEMAND_WINDOW elapsed then
            match runnable_threads t threads (j_members j) with
            | None => (None, 0%Z, ∅, 0, 0)
            | Some th => (Some (cpu / elapsed), Z.of_nat (size ((th ∩ j_previous_threads j) ∖ j_members j)), th, 0, 0)
            end
          else (j_observed_demand j, j_pending_threads j, j_previous_threads j, elapsed, cpu) in
        with_demand (match observed with Some o => Some (Qmax o (inject_Z (pending + pending_threads))) | None => None end)
          (Some now) elapsed cpu observed since previous pending_threads
  end.

#[global] Arguments update_demand : simpl never.

(** [Job.update] of the legacy backend: [running] is whether the state file says
    so; [None] when the process is gone. *)
Definition set_sample (j : job) (ready : bool) (members : gset Z) (previous : option Q) (credit total active_until : Q) : job :=
  Job (j_config j) credit previous total active_until (j_paused j) (j_stops j)
    ready members (j_demand j) (j_demand_elapsed j) (j_demand_cpu j) (j_demand_sample j)
    (j_observed_demand j) (j_runnable_since j) (j_previous_threads j) (j_pending_threads j) (j_rate j)
    (j_backend j) (j_desired_pause j) (j_degraded j) (j_last_sample j) (j_helpers_cpu j) (j_helper_samples j)
    (j_runnable_floor j) (j_runnable_time j) (j_pending_pause j).

Definition update (j : job) (t : table) (threads : Z → option (list (Z * bool))) (self : Z) (running : bool)
    (now interval : Q) : option job :=
  let root := cf_root (j_config j) in
  match t !! root with
  | None => None
  | Some i =>
      if negb (p_start i =? cf_start (j_config j))%Z then None
      else
        let members := descendants t root ∖ {[self]} in
        let cpu := sumQ (λ pid, match t !! pid with Some i => p_cpu i | None => 0 end) (elements members) in
        let ready := j_ready j || running in
        let previous := if j_ready j then j_previous j else Some cpu in
        if negb ready then Some (set_sample j ready members previous (j_credit j) (j_total j) (j_active_until j))
        else
          let delta := match previous with Some p => Qmax0 (cpu - p) | None => 0 end in
          let j1 := set_sample j ready members (Some (Qmax cpu (default 0 previous)))
                      (j_credit j - delta) (j_total j + delta) (j_active_until j) in
          let j2 := update_demand j1 t threads delta now in
          let busy := existsb (λ p, match t !! p with Some i => p_running i | None => false end)
                        (elements (members ∖ {[root]})) in
          Some (set_sample j2 (j_ready j2) (j_members j2) (j_previous j2) (j_credit j2) (j_total j2)
                  (if Qlt_bool (1#1000) delta || busy then now + Qmax (1#10) (2 * interval) else j_active_until j2))
  end.

(** [Job.refill] *)
Definition refill (j : job) (rate elapsed : Q) : job :=
  set_sample j (j_ready j) (j_members j) (j_previous j)
    (Qmin (Qmax (rate * BURST) ACCOUNTING_BURST) (j_credit j + rate * elapsed)) (j_total j) (j_active_until j).

(** * One exchange of [serve_job] *)

Definition set_control (j : job) (paused : bool) (stops : Z) (demand : option Q) (b : backend)
    (desired pending : bool) (degraded : option string) (rate : Q) : job :=
  Job (j_config j) (j_credit j) (j_previous j) (j_total j) (j_active_until j) paused stops
    (j_ready j) (j_members j) demand (j_demand_elapsed j) (j_demand_cpu j) (j_demand_sample j)
    (j_observed_demand j) (j_runnable_since j) (j_previous_threads j) (j_pending_threads j) rate
    b desired degraded (j_last_sample j) (j_helpers_cpu j) (j_helper_samples j)
    (j_runnable_floor j) (j_runnable_time j) pending.

(** What a turn talks to: the runtime's reply or the text of its error; for the
    legacy backend, a table (with [running]) and the result of pausing. *)
Record exchange := Exchange {
  x_reply : sample + string;
  x_table : table; x_threads : Z → option (list (Z * bool)); x_running : bool; x_self : Z;
  x_exists : bool; x_pause : option string; x_now : Q; x_failed_now : Q }.

Inductive served :=
  | Continue (j : job) (failed_since : option Q)
  | Ended (j : job).

(** The error path: after three seconds of failures the job is degraded. *)
Definition exchange_failed (j : job) (failed_since : option Q) (error : string) (unknown_method : bool) (now later : Q)
    : served :=
  if unknown_method && bool_decide (j_backend j = Runtime)
  then Continue (set_control j (j_paused j) (j_stops j) (j_demand j) Legacy (j_desired_pause j)
                   (j_pending_pause j) (j_degraded j) (j_rate j)) failed_since
  else
    let since := match failed_since with Some s => if Qtrue s then s else now | None => now end in
    let j' := set_control j (j_paused j) (j_stops j) None (j_backend j) false false in
    if Qle_bool 3 (later - since) then Ended (j' (Some error) (j_rate j))
    else Continue (j' (j_degraded j) (j_rate j)) (Some since).

Definition serve_turn (j : job) (failed_since : option Q) (x : exchange) (unknown_method : string → bool) : served :=
  let failed j e := exchange_failed j failed_since e (unknown_method e) (x_now x) (x_failed_now x) in
  if negb (j_ready j) then Continue j failed_since
  else match j_backend j with
  | Legacy =>
      match update j (x_table x) (x_threads x) (x_self x) (x_running x) (x_now x) (25#100) with
      | None => Ended j
      | Some j =>
          if negb (x_exists x) then Ended j
          else if Bool.eqb (j_desired_pause j) (j_paused j) then Continue j None
          else
            let j := set_control j (j_paused j) (j_stops j) (j_demand j) (j_backend j) (j_desired_pause j)
                       (j_desired_pause j) (j_degraded j) (j_rate j) in
            match x_pause x with
            | Some e => failed j e
            | None =>
                let paused := j_desired_pause j in
                Continue (set_control j paused (j_stops j + if paused then 1 else 0) (j_demand j) (j_backend j)
                            (j_desired_pause j) false (j_degraded j) (j_rate j)) None
            end
      end
  | Runtime =>
      let j := set_control j (j_paused j) (j_stops j) (j_demand j) (j_backend j) (j_desired_pause j)
                 (j_desired_pause j) (j_degraded j) (j_rate j) in
      match x_reply x with
      | inr e => failed j e
      | inl s =>
          if sm_disabled s then
            failed j (match sm_reason s with
                      | Some r => if bool_decide (r = ""%string) then "CPU control disabled by launcher"%string else r
                      | None => "CPU control disabled by launcher"%string
                      end)
          else if (500000000 <? sm_age_ns s)%Z then failed j "runtime CPU accounting stalled"%string
          else
            let was_paused := j_paused j in
            let j := update_sample j s (x_now x) in
            Continue (set_control j (j_paused j) (j_stops j + if j_paused j && negb was_paused then 1 else 0)
                        (j_demand j) (j_backend j) (j_desired_pause j) false (j_degraded j) (j_rate j)) None
      end
  end.

(** * One turn of [broker_loop] *)

Abbreviation jobs := (list (string * job)).

(** Registrations: known jobs stay while their file and process do, valid new
    ones join. *)
Definition accept (cpus : list Z) (now : Q) (js : jobs) (p : string * option (job_config * list Z)) : jobs :=
  match od_get p.1 js with
  | Some _ => js
  | None =>
      match p.2 with
      | Some (cfg, c) =>
          if negb (bool_decide (c = cpus)) || Qle_bool (cf_weight cfg) 0 then js
          else od_set p.1 (job_init cfg now) js
      | None => js
      end
  end.

Definition alive (roots : gmap Z info) (j : job) : bool :=
  match roots !! cf_root (j_config j) with
  | Some i => (p_start i =? cf_start (j_config j))%Z
  | None => false
  end.

(** What a refresh reads for one job: whether its state file says running, the
    owned helper processes and their table. *)
Record refresh_input := RefreshInput { ri_running : bool; ri_identities : Z → Z; ri_table : table }.

Definition refresh_job (input : refresh_input) (j : job) : job :=
  let ready := j_ready j || ri_running input in
  let j := set_sample j ready (j_members j) (j_previous j) (j_credit j) (j_total j) (j_active_until j) in
  update_helpers j (ri_table input) (ri_identities input).

Definition refresh (cpus : list Z) (now : Q) (paths : list (string * option (job_config * list Z)))
    (roots : gmap Z info) (inputs : string → refresh_input) (js : jobs) : jobs :=
  let js := foldl (accept cpus now) js paths in
  omap (λ kj : string * job,
    if bool_decide (kj.1 ∉ map fst paths) || negb (alive roots kj.2) then None
    else Some (kj.1, refresh_job (inputs kj.1) kj.2)) js.

Definition eligible (j : job) : bool := bool_decide (j_degraded j = None).
Definition active_job (suspended : gset string) (now : Q) (kj : string * job) : bool :=
  eligible kj.2 && j_ready kj.2 && bool_decide (kj.1 ∉ suspended)
  && (j_paused kj.2 || Qlt_bool now (j_active_until kj.2)).

Definition job_of (js : jobs) (k : string) : option job := od_get k js.
Definition weight_of (js : jobs) (k : string) : Q := match job_of js k with Some j => cf_weight (j_config j) | None => 0 end.
Definition demand_of (js : jobs) (k : string) : option Q := job_of js k ≫= j_demand.
Definition quota_of (js : jobs) (k : string) : option Q := job_of js k ≫= λ j, cf_quota (j_config j).
Definition active_keys (suspended : gset string) (now : Q) (js : jobs) : list string :=
  map fst (filter (λ kj, active_job suspended now kj = true) js).

(** The decision for one job. *)
Definition decide_job (cpus : Q) (total_weight elapsed : Q) (rates : gmap string Q) (kj : string * job) : string * job :=
  let '(k, j) := kj in
  let control j desired rate :=
    set_control j (j_paused j) (j_stops j) (j_demand j) (j_backend j) desired (j_pending_pause j) (j_degraded j) rate in
  if negb (eligible j) then (k, control j false (j_rate j))
  else
    match rates !! k with
    | None =>
        let idle := cpus * cf_weight (j_config j) / total_weight in
        let idle := match cf_quota (j_config j) with Some q => Qmin idle q | None => idle end in
        (k, control (refill j idle elapsed) false 0)
    | Some rate =>
        let j := refill j rate elapsed in
        (k, control j (Qlt_bool (j_credit j) 0) rate)
    end.

Definition broker_turn (cpus : Q) (suspended : gset string) (now elapsed : Q) (js : jobs) : jobs :=
  let rates := allocate_rates (weight_of js) (demand_of js) (quota_of js) (active_keys suspended now js) cpus in
  let total_weight := sumQ (λ kj : string * job, cf_weight (j_config kj.2)) (filter (λ kj, eligible kj.2 = true) js) in
  map (decide_job cpus total_weight elapsed rates) js.

(** * Process trees *)

(** [pid] is [root] or reached from it through parents in the table. *)
Inductive in_tree (t : table) (root : Z) : Z → Prop :=
  | tree_root : in_tree t root root
  | tree_child pid i : t !! pid = Some i → in_tree t root (p_parent i) → in_tree t root pid.

Lemma elem_of_children_in t found pid :
  pid ∈ children_in t found ↔ (pid ∉ found) ∧ ∃ i, t !! pid = Some i ∧ p_parent i ∈ found.
Proof.
  unfold children_in. rewrite elem_of_difference, elem_of_dom. split.
  - intros [[i Hi] Hn]. apply map_lookup_filter_Some in Hi as [Hi Hp]. split; [done|]. by exists i.
  - intros [Hn (i & Hi & Hp)]. split; [|done]. exists i. by apply map_lookup_filter_Some.
Qed.

Lemma descendants_loop_sound t root fuel found :
  (∀ pid, pid ∈ found → in_tree t root pid) →
  ∀ pid, pid ∈ descendants_loop fuel t found → in_tree t root pid.
Proof.
  revert found. induction fuel as [|fuel IH]; intros found H; [done|]. simpl.
  case_bool_decide; [done|]. apply IH. intros pid [Hp|Hp]%elem_of_union; [by apply H|].
  apply elem_of_children_in in Hp as (_ & i & Hi & Hp). eapply tree_child; [done|]. by apply H.
Qed.

Lemma descendants_loop_closed t fuel found :
  (size (dom t ∖ found) < fuel)%nat →
  let d := descendants_loop fuel t found in found ⊆ d ∧ children_in t d = ∅.
Proof.
  revert found. induction fuel as [|fuel IH]; intros found Hf; [lia|]. simpl.
  case_bool_decide as E; [done|].
  assert (Hlt : (size (dom t ∖ (found ∪ children_in t found)) < size (dom t ∖ found))%nat).
  { apply subset_size. split; [set_solver|]. intros Hs. apply E. apply leibniz_equiv. intros pid.
    split; [|set_solver]. intros Hp. assert (Hp' := Hp). apply elem_of_children_in in Hp' as (Hn & i & Hi & _).
    assert (Hd : pid ∈ dom t ∖ found) by (apply elem_of_difference; split; [by apply elem_of_dom_2 in Hi|done]).
    apply Hs in Hd. set_solver. }
  destruct (IH (found ∪ children_in t found)) as [H1 H2]; [lia|]. split; [set_solver|done].
Qed.

(** a job's process tree is exact. [descendants] terminates and returns the
    root with exactly the processes whose chain of parents in the table leads to
    it, whatever the order or shape of the table. *)
Theorem descendants_exact t root pid : pid ∈ descendants t root ↔ in_tree t root pid.
Proof.
  unfold descendants. split.
  - apply descendants_loop_sound. intros p Hp%elem_of_singleton. subst. constructor.
  - destruct (descendants_loop_closed t (S (size t)) {[root]}) as [H1 H2].
    { pose proof (subseteq_size (dom t ∖ {[root]}) (dom t) ltac:(set_solver)). rewrite size_dom in *. lia. }
    induction 1 as [|pid i Hi _ IH]; [set_solver|].
    destruct (decide (pid ∈ descendants_loop (S (size t)) t {[root]})) as [|Hn]; [done|].
    exfalso. assert (Hc : pid ∈ children_in t (descendants_loop (S (size t)) t {[root]})).
    { apply elem_of_children_in. split; [done|]. by exists i. }
    rewrite H2 in Hc. by apply not_elem_of_empty in Hc.
Qed.

(** * The credit account *)

Lemma update_demand_account j t threads delta now :
  let j' := update_demand j t threads delta now in
  j_credit j' = j_credit j ∧ j_total j' = j_total j ∧ j_config j' = j_config j ∧ j_paused j' = j_paused j.
Proof.
  unfold update_demand. cbv zeta. destruct (j_demand_sample j) as [last|]; [|done].
  destruct (j_paused j) eqn:E; [by rewrite <- E|].
  destruct (Qle_bool DEMAND_WINDOW _); [|by rewrite <- E].
  destruct (runnable_threads _ _ _); by rewrite <- E.
Qed.

(** The account after one observation or refill. *)
Inductive event :=
  | Observed (s : sample) (now : Q)
  | LegacyObserved (t : table) (threads : Z → option (list (Z * bool))) (self : Z) (running : bool) (now interval : Q)
  | Refilled (rate elapsed : Q).

Definition account (j : job) (e : event) : job :=
  match e with
  | Observed s now => update_sample j s now
  | LegacyObserved t threads self running now interval =>
      default j (update j t threads self running now interval)
  | Refilled rate elapsed => refill j rate elapsed
  end.

Definition granted (e : event) : Q :=
  match e with Refilled rate elapsed => rate * elapsed | _ => 0 end.

Lemma update_sample_account j s now :
  let j' := update_sample j s now in
  j_credit j' + j_total j' == j_credit j + j_total j ∧ j_total j <= j_total j' ∧ j_config j' = j_config j.
Proof.
  unfold update_sample. set (delta := match j_previous j with Some p => _ | None => 0 end).
  assert (Hd : 0 <= delta) by (unfold delta; destruct (j_previous j); [apply Q.le_max_l|lra]).
  clearbody delta. destruct (j_paused j); simpl.
  - split; [ring|]. split; [lra|done].
  - destruct (if Qle_bool RUNNABLE_WINDOW _ then _ else _) as [[? ?] ?].
    destruct (if Qle_bool DEMAND_WINDOW _ then _ else _) as [[? ?] ?]. simpl.
    split; [ring|]. split; [lra|done].
Qed.

Lemma update_account j t threads self running now interval j' :
  update j t threads self running now interval = Some j' →
  j_credit j' + j_total j' == j_credit j + j_total j ∧ j_total j <= j_total j' ∧ j_config j' = j_config j.
Proof.
  unfold update. destruct (t !! _) as [i|]; [|done]. destruct (negb (p_start i =? _)%Z); [done|].
  destruct (negb (j_ready j || running)).
  { intros [= <-]. simpl. split; [ring|]. split; [lra|done]. }
  intros [= <-]. simpl.
  match goal with |- context [update_demand _ _ _ ?d _] => set (delta := d) end.
  assert (Hd : 0 <= delta).
  { unfold delta. destruct (if j_ready j then _ else _); [apply Q.le_max_l|lra]. }
  match goal with |- context [update_demand ?j1 t threads delta now] =>
    destruct (update_demand_account j1 t threads delta now) as (E1 & E2 & E3 & _);
    rewrite E1, E2, E3 end.
  clear E1 E2 E3. simpl. clearbody delta. split; [ring|]. split; [lra|done].
Qed.

Lemma account_step j e :
  let j' := account j e in
  j_credit j' + j_total j' <= j_credit j + j_total j + granted e ∧ j_total j <= j_total j' ∧
  j_config j' = j_config j.
Proof.
  destruct e as [s now|t threads self running now interval|rate elapsed]; simpl.
  - destruct (update_sample_account j s now) as (H1 & H2 & H3). split; [lra|done].
  - destruct (update j t threads self running now interval) as [j'|] eqn:E; simpl.
    + apply update_account in E as (H1 & H2 & H3). split; [lra|done].
    + split; [lra|]. split; [lra|done].
  - pose proof (Q.le_min_r (Qmax (rate * BURST) ACCOUNTING_BURST) (j_credit j + rate * elapsed)).
    split; [lra|]. split; [lra|done].
Qed.

(** Consumption is paid for. Over any sequence of CPU samples (of either
    backend) and refills, the CPU time charged to a job never exceeds what its
    refills granted plus the credit it began with minus what it has left: debt is
    never erased, so a job whose rates stay within its quota consumes at most its
    quota over time plus its initial credit and its outstanding debt. *)
Theorem consumption_bounded events j quota :
  (∀ rate elapsed, Refilled rate elapsed ∈ events → rate <= quota ∧ 0 <= elapsed) →
  let j' := foldl account j events in
  j_total j <= j_total j' ∧
  j_total j' - j_total j <=
    quota * sumQ (λ e, match e with Refilled _ elapsed => elapsed | _ => 0 end) events
    + j_credit j - j_credit j'.
Proof.
  revert j. induction events as [|e events IH]; intros j H; simpl; [lra|].
  destruct (account_step j e) as (H1 & H2 & _).
  destruct (IH (account j e)) as [H3 H4]; [intros rate elapsed Hin; apply H; by right|].
  split; [lra|]. assert (Hg : granted e <= quota * match e with Refilled _ elapsed => elapsed | _ => 0 end).
  { destruct e as [| |rate elapsed]; simpl; [lra|lra|]. destruct (H rate elapsed) as [Hr He]; [by left|].
    by apply Qmult_le_compat_r. }
  lra.
Qed.

Lemma update_keeps j t threads self running now interval j' :
  update j t threads self running now interval = Some j' →
  j_stops j' = j_stops j ∧ j_paused j' = j_paused j ∧ j_degraded j' = j_degraded j.
Proof.
  unfold update. destruct (t !! _) as [i|]; [|done]. destruct (negb (p_start i =? _)%Z); [done|].
  destruct (negb (j_ready j || running)); [by intros [= <-]|]. intros [= <-].
  assert (Hk : ∀ j1 delta, let j2 := update_demand j1 t threads delta now in
    j_stops j2 = j_stops j1 ∧ j_paused j2 = j_paused j1 ∧ j_degraded j2 = j_degraded j1).
  { intros j1 delta. unfold update_demand. cbv zeta. destruct (j_demand_sample j1) as [last|]; [|done].
    destruct (j_paused j1) eqn:E; [by rewrite <- E|].
    destruct (Qle_bool DEMAND_WINDOW _); [|by rewrite <- E].
    destruct (runnable_threads _ _ _); by rewrite <- E. }
  match goal with |- context [update_demand ?j1 t threads ?delta now] => apply (Hk j1 delta) end.
Qed.

(** * Reachable brokers *)

Definition job_ok (j : job) : Prop :=
  0 < cf_weight (j_config j) ∧ (∀ q, cf_quota (j_config j) = Some q → 0 <= q) ∧
  (∀ d, j_demand j = Some d → 0 <= d) ∧ (0 <= j_pending_threads j)%Z ∧ (0 <= j_runnable_floor j)%Z.

Lemma inject_nonneg n : (0 <= n)%Z → 0 <= inject_Z n.
Proof. intros H. change 0 with (inject_Z 0). by rewrite <- Zle_Qle. Qed.

Lemma demand_ok o n d :
  (0 <= n)%Z → match o with Some o => Some (Qmax o (inject_Z n)) | None => None end = Some d → 0 <= d.
Proof.
  intros Hn. destruct o as [o|]; [|done]. intros [= <-].
  eapply Qle_trans; [by apply inject_nonneg|apply Q.le_max_r].
Qed.

Lemma update_sample_ok j s now : job_ok j → job_ok (update_sample j s now).
Proof.
  intros (H1 & H2 & H3 & H4 & H5). unfold update_sample.
  destruct (j_paused j); [done|].
  assert (Hz : (0 <= Zmax0 (sm_runnable s))%Z) by (unfold Zmax0; lia).
  destruct (Qle_bool RUNNABLE_WINDOW _), (Qle_bool DEMAND_WINDOW _);
    (split; [done|]; split; [done|]; cbn [j_demand j_pending_threads j_runnable_floor];
     split; [intros d; first [apply (demand_ok (Some _)); lia|apply demand_ok; lia|done]|lia]).
Qed.

Lemma update_demand_ok j t threads delta now : job_ok j → job_ok (update_demand j t threads delta now).
Proof.
  intros (H1 & H2 & H3 & H4 & H5). unfold update_demand. cbv zeta.
  destruct (j_demand_sample j) as [last|]; [|done]. destruct (j_paused j); [done|].
  destruct (Qle_bool DEMAND_WINDOW _); [destruct (runnable_threads _ _ _)|];
    (split; [done|]; split; [done|]; cbn [j_demand j_pending_threads j_runnable_floor];
     split; [intros d; first [apply (demand_ok (Some _)); lia|apply demand_ok; lia|done]|lia]).
Qed.

Lemma update_ok j t threads self running now interval j' :
  job_ok j → update j t threads self running now interval = Some j' → job_ok j'.
Proof.
  intros Hj. unfold update. destruct (t !! _) as [i|]; [|done]. destruct (negb (p_start i =? _)%Z); [done|].
  destruct (negb (j_ready j || running)); [by intros [= <-]|]. intros [= <-].
  match goal with |- context [update_demand ?j1 t threads ?delta now] =>
    assert (H : job_ok (update_demand j1 t threads delta now)) by by apply update_demand_ok end.
  exact H.
Qed.

Lemma exchange_failed_ok j f e u now late : job_ok j →
  match exchange_failed j f e u now late with Continue j' _ | Ended j' => job_ok j' end.
Proof.
  intros (H1 & H2 & H3 & H4 & H5). unfold exchange_failed.
  destruct (u && _); [done|]. by destruct (Qle_bool 3 _).
Qed.

Lemma serve_turn_ok j f x u : job_ok j →
  match serve_turn j f x u with Continue j' _ | Ended j' => job_ok j' end.
Proof.
  intros Hj. unfold serve_turn. destruct (negb (j_ready j)); [done|]. destruct (j_backend j).
  - destruct (x_reply x) as [s|e]; [|by apply exchange_failed_ok].
    destruct (sm_disabled s); [by apply exchange_failed_ok|].
    destruct (_ <? _)%Z; [by apply exchange_failed_ok|].
    match goal with |- context [update_sample ?j1 s ?now] =>
      assert (H : job_ok (update_sample j1 s now)) by by apply update_sample_ok end.
    exact H.
  - destruct (update j _ _ _ _ _ _) as [j'|] eqn:E; [|done]. eapply update_ok in E; [|done].
    destruct (negb (x_exists x)); [done|]. destruct (Bool.eqb _ _); [done|].
    destruct (x_pause x); [by apply exchange_failed_ok|exact E].
Qed.

(** The broker's jobs over time: refreshes, turns, and exchanges in any order.
    Launchers register nonnegative quotas. *)
Inductive broker_step (cpus : list Z) : jobs → jobs → Prop :=
  | broker_refresh js now paths roots inputs :
      (∀ k cfg c q, (k, Some (cfg, c)) ∈ paths → cf_quota cfg = Some q → 0 <= q) →
      broker_step cpus js (refresh cpus now paths roots inputs js)
  | broker_decide js suspended now elapsed :
      broker_step cpus js (broker_turn (inject_Z (Z.of_nat (length cpus))) suspended now elapsed js)
  | broker_serve js k j f x u j' :
      od_get k js = Some j → j_degraded j = None →
      (∃ f', serve_turn j f x u = Continue j' f') ∨ serve_turn j f x u = Ended j' →
      broker_step cpus js (od_set k j' js).

Inductive broker_reachable (cpus : list Z) : jobs → Prop :=
  | broker_start : broker_reachable cpus []
  | broker_next js js' : broker_reachable cpus js → broker_step cpus js js' → broker_reachable cpus js'.

Definition jobs_ok (js : jobs) : Prop := od_wf js ∧ ∀ k j, (k, j) ∈ js → job_ok j.

Lemma accept_ok cpus now js p :
  (∀ cfg c q, p.2 = Some (cfg, c) → cf_quota cfg = Some q → 0 <= q) →
  jobs_ok js → jobs_ok (accept cpus now js p).
Proof.
  intros Hq [Hwf Hj]. unfold accept. destruct (od_get p.1 js); [done|].
  destruct (p.2) as [[cfg c]|] eqn:E; [|done]. destruct (_ || _) eqn:Ev; [done|]. bool_prop.
  split; [by apply od_wf_set|]. intros k j [[= -> ->]|Hin]%elem_of_od_set; [|by eapply Hj].
  split; simpl; [|split; [intros q; by apply (Hq cfg c)|done]].
  apply Qnot_le_lt. intros Hle. apply Qle_bool_iff in Hle. congruence.
Qed.

Lemma decide_job_ok cpus total elapsed rates kj :
  job_ok kj.2 → job_ok (decide_job cpus total elapsed rates kj).2 ∧ (decide_job cpus total elapsed rates kj).1 = kj.1.
Proof.
  destruct kj as [k j]. intros H. unfold decide_job.
  destruct (negb (eligible j)); [done|]. by destruct (rates !! k).
Qed.

Lemma broker_step_ok cpus js js' : jobs_ok js → broker_step cpus js js' → jobs_ok js'.
Proof.
  intros Hok Hs. destruct Hs as [js now paths roots inputs Hq|js suspended now elapsed|js k j f x u j' Hg _ Hserve].
  - unfold refresh.
    assert (Hacc : jobs_ok (foldl (accept cpus now) js paths)).
    { revert js Hok. induction paths as [|p paths IH]; intros js Hok; simpl; [done|]. apply IH.
      - intros. eapply Hq; [by right|done].
      - apply accept_ok; [|done]. intros cfg c q E. destruct p as [k o]. simpl in E. subst o.
        eapply Hq. by left. }
    generalize dependent (foldl (accept cpus now) js paths). intros js' [Hwf Hj].
    set (g := λ kj : string * job, if bool_decide (kj.1 ∉ map fst paths) || negb (alive roots kj.2) then None
                                   else Some (kj.1, refresh_job (inputs kj.1) kj.2)).
    assert (Hg : ∀ kj r, g kj = Some r → r.1 = kj.1 ∧ (job_ok kj.2 → job_ok r.2)).
    { intros [k j] r. unfold g. simpl. destruct (_ || _); [done|]. intros [= <-]. split; [done|].
      intros Hjk. unfold refresh_job, update_helpers. by destruct (foldl _ _ _). }
    split.
    + unfold od_wf, keys in *. clear Hj. induction js' as [|kj l IH]; [constructor|].
      simpl in Hwf. apply NoDup_cons in Hwf as [Hn Hwf]. simpl. destruct (g kj) as [r|] eqn:E; [|by apply IH].
      simpl. constructor; [|by apply IH]. destruct (Hg _ _ E) as [-> _].
      intros (r' & E' & (kj' & Hin & Eg)%list_elem_of_omap)%list_elem_of_fmap. apply Hn.
      destruct (Hg _ _ Eg) as [Ek _]. rewrite E', Ek. apply list_elem_of_fmap. by exists kj'.
    + intros k j (kj & Hin & E)%list_elem_of_omap. destruct (Hg _ _ E) as [Ek Hjk]. simpl in *.
      apply Hjk. destruct kj as [k' j']. by eapply Hj.
  - destruct Hok as [Hwf Hj]. unfold broker_turn. cbv zeta.
    set (d := decide_job _ _ _ _).
    assert (Hd : ∀ kj, kj ∈ js → job_ok (d kj).2 ∧ (d kj).1 = kj.1).
    { intros [k j] Hin. apply decide_job_ok. by eapply Hj. }
    clearbody d. split.
    + unfold od_wf, keys in *.
      assert (E : (map d js).*1 = js.*1); [|by rewrite E].
      clear -Hd. induction js as [|kj l IH]; simpl; [done|].
      f_equal; [apply Hd; by left|]. apply IH. intros; apply Hd; by right.
    + intros k j ([k' j'] & E & Hin)%list_elem_of_fmap. specialize (Hd _ Hin). rewrite <- E in Hd. apply Hd.
  - destruct Hok as [Hwf Hj]. split; [by apply od_wf_set|].
    intros k' j0 [[= -> ->]|Hin]%elem_of_od_set; [|by eapply Hj].
    apply od_get_elem in Hg. specialize (Hj _ _ Hg). pose proof (serve_turn_ok j f x u Hj) as H.
    destruct Hserve as [[f' E]|E]; by rewrite E in H.
Qed.

Lemma broker_reachable_ok cpus js : broker_reachable cpus js → jobs_ok js.
Proof.
  induction 1 as [|js js' _ IH Hs]; [|by eapply broker_step_ok].
  split; [constructor|]. by intros k j ?%not_elem_of_nil.
Qed.

(** ** What a turn decides *)

Lemma active_keys_elem suspended now js k :
  od_wf js → k ∈ active_keys suspended now js ↔ ∃ j, od_get k js = Some j ∧ active_job suspended now (k, j) = true.
Proof.
  intros Hwf. unfold active_keys. rewrite list_elem_of_fmap. split.
  - intros ([k' j] & -> & [Ha Hin]%list_elem_of_filter). exists j. split; [|done]. by apply od_get_wf.
  - intros (j & Hj & Ha). exists (k, j). split; [done|]. apply list_elem_of_filter. split; [done|].
    by apply od_get_elem.
Qed.

Lemma active_keys_nodup suspended now js : od_wf js → NoDup (active_keys suspended now js).
Proof.
  unfold active_keys, od_wf, keys. generalize (λ kj : string * job, active_job suspended now kj). intros p.
  induction js as [|kj js IH]; simpl; [intros; constructor|]. intros [Hn Hwf]%NoDup_cons.
  rewrite filter_cons. case_decide; simpl; [|by apply IH]. constructor; [|by apply IH].
  intros (kj' & E & [_ Hin]%list_elem_of_filter)%list_elem_of_fmap. apply Hn.
  rewrite E. apply list_elem_of_fmap. eauto.
Qed.

Lemma broker_turn_get cpus suspended now elapsed js k :
  od_get k (broker_turn cpus suspended now elapsed js) =
    match od_get k js with
    | Some j =>
        Some (decide_job cpus
          (sumQ (λ kj : string * job, cf_weight (j_config kj.2)) (filter (λ kj, eligible kj.2 = true) js)) elapsed
          (allocate_rates (weight_of js) (demand_of js) (quota_of js) (active_keys suspended now js) cpus) (k, j)).2
    | None => None
    end.
Proof.
  unfold broker_turn. cbv zeta. generalize (sumQ (λ kj : string * job, cf_weight (j_config kj.2))
    (filter (λ kj, eligible kj.2 = true) js)).
  generalize (allocate_rates (weight_of js) (demand_of js) (quota_of js) (active_keys suspended now js) cpus).
  intros rates total. induction js as [|[k' j] js IH]; [done|]. cbn [map od_get].
  destruct (decide_job cpus total elapsed rates (k', j)) as [k'' j'] eqn:E.
  assert (k'' = k') as ->.
  { unfold decide_job in E. destruct (negb (eligible j)); [by injection E|]. by destruct (rates !! k'); injection E. }
  destruct (decide (k = k')) as [->|]; [by rewrite E|done].
Qed.

(** The rates of a turn, as sharing guarantees them. *)
Lemma turn_rates cpus js suspended now :
  0 <= cpus → jobs_ok js →
  let active := active_keys suspended now js in
  let rates := allocate_rates (weight_of js) (demand_of js) (quota_of js) active cpus in
  sumQ (rate_of rates) active <= cpus ∧
  ∀ k j q, k ∈ active → od_get k js = Some j → cf_quota (j_config j) = Some q → rate_of rates k <= q.
Proof.
  intros Hc [Hwf Hj]. cbv zeta.
  assert (Hin : ∀ k, k ∈ active_keys suspended now js → ∃ j, od_get k js = Some j ∧ job_ok j).
  { intros k (j & E & _)%active_keys_elem; [|done]. exists j. split; [done|]. eapply Hj. by apply od_get_elem. }
  destruct (rates_bounds (weight_of js) (demand_of js) (quota_of js) (active_keys suspended now js) cpus)
    as (H1 & H2).
  - by apply active_keys_nodup.
  - done.
  - intros k (j & E & Hok)%Hin. unfold weight_of, job_of. rewrite E. apply Hok.
  - intros k d (j & E & Hok)%Hin. unfold demand_of, job_of. rewrite E. apply Hok.
  - intros k q (j & E & Hok)%Hin. unfold quota_of, job_of. rewrite E. apply Hok.
  - split; [done|]. intros k j q Hk E Hq. apply H2; [done|]. unfold quota_of, job_of. by rewrite E.
Qed.

(** The broker's turn. In every reachable broker a turn keeps the jobs and
    what they consumed, asks to pause only a job that is registered, healthy,
    ready, not suspended, active and in debt after its refill, credits a job at
    most its rate over the elapsed time with the rate within its quota, and the
    rates of the active jobs sum to at most the pool's CPUs. *)
Theorem broker_turn_sound cpus js suspended now elapsed :
  broker_reachable cpus js → 0 <= elapsed →
  let n := inject_Z (Z.of_nat (length cpus)) in
  let js' := broker_turn n suspended now elapsed js in
  let active := active_keys suspended now js in
  map fst js' = map fst js ∧
  (∀ k j', od_get k js' = Some j' → ∃ j, od_get k js = Some j ∧
     j_total j' = j_total j ∧ j_config j' = j_config j ∧
     (j_desired_pause j' = true → active_job suspended now (k, j) = true ∧ j_credit j' < 0) ∧
     (j_credit j' = j_credit j ∨
      ∃ rate, j_credit j' <= j_credit j + rate * elapsed ∧
        j_credit j' <= Qmax (rate * BURST) ACCOUNTING_BURST ∧
        ∀ q, cf_quota (j_config j) = Some q → rate <= q)) ∧
  sumQ (λ k, match od_get k js' with Some j => j_rate j | None => 0 end) active <= n.
Proof.
  intros Hr He. cbv zeta. set (n := inject_Z _).
  assert (Hn : 0 <= n) by (apply inject_nonneg; lia).
  apply broker_reachable_ok in Hr as Hok. destruct (turn_rates n js suspended now Hn Hok) as [Hsum Hquota].
  assert (Hwf := proj1 Hok). set (rates := allocate_rates _ _ _ _ n) in *.
  assert (Hdom : ∀ k, is_Some (rates !! k) → k ∈ active_keys suspended now js) by by apply allocate_dom.
  assert (Hin : ∀ k, k ∈ active_keys suspended now js → rates !! k = Some (rate_of rates k)).
  { intros k Hk. by apply allocate_total. }
  split.
  { unfold broker_turn. rewrite map_map. apply map_ext. intros [k j]. unfold decide_job.
    destruct (negb (eligible j)); [done|]. by destruct (_ !! k). }
  split.
  - intros k j' Hk. rewrite broker_turn_get in Hk. fold rates in Hk.
    destruct (od_get k js) as [j|] eqn:Ej; [|done]. injection Hk as <-. exists j. split; [done|].
    unfold decide_job. destruct (negb (eligible j)) eqn:El; [by split_and!; [..|left]|].
    destruct (rates !! k) as [rate|] eqn:Er; simpl.
    + split; [done|]. split; [done|]. assert (Hk : k ∈ active_keys suspended now js) by (apply Hdom; eauto).
      split.
      * intros Hc. split; [|by apply Qlt_bool_iff].
        apply active_keys_elem in Hk as (j0 & E0 & Ha); [|done]. congruence.
      * right. exists rate. split; [apply Q.le_min_r|]. split; [apply Q.le_min_l|].
        intros q Hq. rewrite (Hin k Hk) in Er. injection Er as <-. by eapply Hquota.
    + split; [done|]. split; [done|]. split; [done|]. right.
      destruct (cf_quota (j_config j)) as [q|]; eexists;
        (split; [apply Q.le_min_r|]; split; [apply Q.le_min_l|]); [|done].
      intros q' [= <-]. apply Q.le_min_r.
  - eapply Qle_trans; [|exact Hsum]. apply sumQ_le. intros k Hk. rewrite broker_turn_get. fold rates.
    apply active_keys_elem in Hk as Hk'; [|done]. destruct Hk' as (j & Ej & Ha). rewrite Ej.
    unfold decide_job. unfold active_job in Ha. simpl in Ha. bool_prop.
    assert (eligible j = true) as -> by done. simpl. rewrite (Hin k Hk). simpl. apply Qle_refl.
Qed.

(** An exchange with a sandbox. Whatever the runtime or the legacy sampling
    answers, the account is conserved, the count of stops rises exactly when a
    running job is found or made paused, a failed exchange withdraws the pause and
    forgets the demand, and a job is given up only when its process is gone or its
    exchanges failed for three seconds. *)
Theorem serve_turn_sound j failed_since x unknown :
  match serve_turn j failed_since x unknown with
  | Continue j' f' =>
      j_credit j' + j_total j' == j_credit j + j_total j ∧ j_total j <= j_total j' ∧
      j_stops j' = (j_stops j + if j_paused j' && negb (j_paused j) then 1 else 0)%Z ∧
      (f' = None ∨ f' = failed_since ∨
       (j_desired_pause j' = false ∧ j_pending_pause j' = false ∧ j_demand j' = None ∧
        ∃ since, f' = Some since ∧ x_failed_now x - since < 3))
  | Ended j' =>
      j_degraded j' = j_degraded j ∨
      (is_Some (j_degraded j') ∧ j_desired_pause j' = false ∧ j_pending_pause j' = false ∧
       ∃ since, 3 <= x_failed_now x - since)
  end.
Proof.
  assert (Hfail : ∀ j1 e u, j_credit j1 + j_total j1 == j_credit j + j_total j → j_total j <= j_total j1 →
    j_stops j1 = j_stops j → j_paused j1 = j_paused j → j_degraded j1 = j_degraded j →
    match exchange_failed j1 failed_since e u (x_now x) (x_failed_now x) with
    | Continue j' f' =>
        j_credit j' + j_total j' == j_credit j + j_total j ∧ j_total j <= j_total j' ∧
        j_stops j' = (j_stops j + if j_paused j' && negb (j_paused j) then 1 else 0)%Z ∧
        (f' = None ∨ f' = failed_since ∨
         (j_desired_pause j' = false ∧ j_pending_pause j' = false ∧ j_demand j' = None ∧
          ∃ since, f' = Some since ∧ x_failed_now x - since < 3))
    | Ended j' =>
        j_degraded j' = j_degraded j ∨
        (is_Some (j_degraded j') ∧ j_desired_pause j' = false ∧ j_pending_pause j' = false ∧
         ∃ since, 3 <= x_failed_now x - since)
    end).
  { intros j1 e u H1 H2 H3 H4 H5. unfold exchange_failed.
    assert (Hst : (if j_paused j1 && negb (j_paused j) then 1 else 0)%Z = 0%Z).
    { rewrite H4. by destruct (j_paused j). }
    destruct (u && _); simpl.
    - split; [done|]. split; [done|]. split; [rewrite Hst; lia|]. auto.
    - destruct (Qle_bool 3 _) eqn:E; simpl.
      + right. split; [by eexists|]. split; [done|]. split; [done|]. eexists. by apply Qle_bool_iff.
      + split; [done|]. split; [done|]. split; [rewrite Hst; lia|]. right. right. split; [done|].
        split; [done|]. split; [done|]. eexists. split; [done|]. apply Qnot_le_lt.
        intros H. apply Qle_bool_iff in H. congruence. }
  unfold serve_turn. destruct (negb (j_ready j)) eqn:Er.
  { split; [reflexivity|]. split; [lra|]. split; [|auto]. destruct (j_paused j); simpl; lia. }
  destruct (j_backend j).
  - set (j1 := set_control _ _ _ _ _ _ _ _ _).
    destruct (x_reply x) as [s|e]; [|by apply Hfail; simpl; [reflexivity|lra|..]].
    destruct (sm_disabled s); [by apply Hfail; simpl; [reflexivity|lra|..]|].
    destruct (_ <? _)%Z; [by apply Hfail; simpl; [reflexivity|lra|..]|].
    destruct (update_sample_account j1 s (x_now x)) as (H1 & H2 & _).
    assert (Hs : j_stops (update_sample j1 s (x_now x)) = j_stops j).
    { unfold update_sample. destruct (j_paused j1); [done|].
      destruct (Qle_bool RUNNABLE_WINDOW _), (Qle_bool DEMAND_WINDOW _); done. }
    cbn [set_control j_credit j_total j_stops j_paused] in *.
    split; [exact H1|]. split; [exact H2|]. split; [by rewrite Hs|auto].
  - destruct (update j _ _ _ _ _ _) as [j'|] eqn:E; [|by left].
    assert (Hk := E). apply update_keeps in Hk as (K1 & K2 & K3). apply update_account in E as (H1 & H2 & _).
    destruct (negb (x_exists x)); [by left|].
    destruct (Bool.eqb (j_desired_pause j') (j_paused j')) eqn:Ed.
    { split; [done|]. split; [done|]. split; [|auto]. rewrite K1, K2. destruct (j_paused j); simpl; lia. }
    destruct (x_pause x) as [e|].
    + apply Hfail; simpl; done.
    + cbn [set_control j_credit j_total j_stops j_paused]. split; [done|]. split; [done|]. split; [|auto].
      rewrite K1. rewrite K2 in Ed. destruct (j_desired_pause j'), (j_paused j); simpl in *; done || lia.
Qed.

(** * Witnesses *)

Definition ex_job : job := job_init (JobConfig 10 1 1 (Some (1#2))) 0.

Lemma consumption_bounded_witness :
  let events := [Refilled (1#2) 1; Observed (Sample 100000000 1 false false None 0) 1;
                 Observed (Sample 300000000 1 false false None 0) 2] in
  Qeq_bool (j_total (foldl account ex_job events)) (2#10) = true ∧
  j_total ex_job <= j_total (foldl account ex_job events).
Proof.
  split; [vm_compute; reflexivity|].
  apply (consumption_bounded [Refilled (1#2) 1; Observed (Sample 100000000 1 false false None 0) 1;
                 Observed (Sample 300000000 1 false false None 0) 2] ex_job (1#2)).
  intros rate elapsed H. apply elem_of_cons in H as [[= -> ->]|H]; [split; lra|].
  apply elem_of_cons in H as [H|H]; [discriminate H|].
  apply elem_of_cons in H as [H|H]; [discriminate H|by apply not_elem_of_nil in H].
Defined.

Definition ex_refreshed : jobs :=
  refresh [0; 1]%Z 5 [("job-a"%string, Some (JobConfig 10 1 1 (Some (1#2)), [0; 1]%Z))]
    {[10%Z := Info true 0 1 1 0 0]} (λ _, RefreshInput true (λ _, 0%Z) ∅) [].

Lemma broker_turn_sound_witness :
  map fst (broker_turn 2 ∅ 5 (1#50) ex_refreshed) = ["job-a"%string] ∧
  map fst (broker_turn 2 ∅ 5 (1#50) ex_refreshed) = map fst ex_refreshed.
Proof.
  split; [vm_compute; reflexivity|].
  apply (broker_turn_sound [0; 1]%Z ex_refreshed ∅ 5 (1#50)); [|lra].
  apply (broker_next _ []); [constructor|]. apply broker_refresh.
  intros k cfg c q H. apply list_elem_of_singleton in H as [= -> -> ->]. intros [= <-]. lra.
Defined.
