(* ===== verification/Relay.v ===== *)
(** [weave/relay.py]: the controller's broker of calls to workers that poll. A call
    queues a request on its worker's channel, a poll hands requests out, a reply
    completes the call. Identities and clocks are arguments. *)

From S2P Require Import Prelude OrderedDict Values.
Local Open Scope Z_scope.

(** [PRIORITY] *)
Definition PRIORITY : list string := ["inventory"; "ping"]%string.

(** A request as a worker receives it, and the caller's side of it. [it_async]
    is the future of an asynchronous caller. *)
Record request := Request {
  q_id : string; q_channel : string; q_worker : string; q_method : string; q_parameters : list (string * value) }.
Record item := Item {
  it_request : request; it_size : Z; it_async : option nat; it_done : bool; it_response : option value }.

(** The broker. Waiters of asynchronous polls are futures; [b_woken] are the
    futures a wake-up was scheduled for. *)
Record broker := Broker {
  b_pending : list (string * item);
  b_queues : gmap string (list string);
  b_bytes : Z;
  b_closed : bool;
  b_lost : gset string;
  b_answered : gmap string Z;
  b_waiters : gmap string (list nat);
  b_woken : gset nat }.
Definition broker_init : broker := Broker [] ∅ 0 false ∅ ∅ ∅ ∅.

(** [Broker.validate]: 32 lower-case hexadecimal digits. *)
Definition is_hex (c : ascii) : bool := is_digit c || ((97 <=? code c) && (code c <=? 102)).
Definition validate (channel : string) : res () :=
  raise_if (negb ((String.length channel =? 32)%nat && forallb is_hex (chars channel)))
    ValueError "invalid worker channel".

Definition CAPACITY : Z := 128 * 1024 ^ 2.

Definition queue_of (b : broker) (channel : string) : list string := default [] (b_queues b !! channel).
(** A queue that became empty is dropped. *)
Definition put_queue (channel : string) (q : list string) (queues : gmap string (list string))
    : gmap string (list string) :=
  match q with [] => delete channel queues | _ => <[channel := q]> queues end.
Definition remove_id (identity : string) (q : list string) : list string := filter (λ i, i ≠ identity) q.

(** The first waiter that is not done is woken; those before it are dropped. *)
Fixpoint wake_first (waiters : list nat) (woken : gset nat) : list nat * gset nat :=
  match waiters with
  | [] => ([], woken)
  | w :: ws => if bool_decide (w ∈ woken) then wake_first ws woken else (ws, {[w]} ∪ woken)
  end.

Definition wake_async (a : option nat) (woken : gset nat) : gset nat :=
  match a with Some f => {[f]} ∪ woken | None => woken end.

(** [Broker._begin]; [size] is the encoded length of the request. *)
Definition _begin (b : broker) (r : request) (size : Z) (response : option nat) : res broker :=
  _ ← validate (q_channel r);
  if b_closed b then raise ResourceUnavailable "controller forwarding is stopping"
  else if bool_decide (q_worker r ∈ b_lost b) then raise ResourceUnavailable "worker was declared lost"
  else if CAPACITY <? b_bytes b + size then raise ResourceUnavailable "controller forwarding capacity is in use"
  else
    let channel := q_channel r in
    let q := queue_of b channel in
    let q := if bool_decide (q_method r ∈ PRIORITY) then q_id r :: q else q ++ [q_id r] in
    let '(waiters, woken) := wake_first (default [] (b_waiters b !! channel)) (b_woken b) in
    Ok (Broker (od_set (q_id r) (Item r size response false None) (b_pending b))
          (put_queue channel q (b_queues b)) (b_bytes b + size) (b_closed b) (b_lost b) (b_answered b)
          (<[channel := waiters]> (b_waiters b)) woken).

Definition lost_response : value :=
  Dict [("error", Dict [("kind", Text "ResourceUnavailable"); ("message", Text "worker was declared lost")])]%string.

(** [Broker.exclude] *)
Definition exclude_one (keys : gset string) (b : broker) (p : string * item) : broker :=
  let '(identity, i) := p in
  if bool_decide (q_worker (it_request i) ∈ keys) then
    let channel := q_channel (it_request i) in
    Broker (od_set identity (Item (it_request i) (it_size i) (it_async i) true (Some lost_response)) (b_pending b))
      (match b_queues b !! channel with
       | Some q => put_queue channel (remove_id identity q) (b_queues b)
       | None => b_queues b
       end)
      (b_bytes b) (b_closed b) (b_lost b) (b_answered b) (b_waiters b) (wake_async (it_async i) (b_woken b))
  else b.
Definition exclude (b : broker) (keys : gset string) : broker :=
  let b := Broker (b_pending b) (b_queues b) (b_bytes b) (b_closed b) (keys ∪ b_lost b) (b_answered b)
             (b_waiters b) (b_woken b) in
  foldl (exclude_one keys) b (b_pending b).

(** [Broker._finish], for a call that began. *)
Definition _finish (b : broker) (identity : string) (i : item) : broker :=
  let channel := q_channel (it_request i) in
  Broker (od_del identity (b_pending b))
    (match b_queues b !! channel with
     | Some q => put_queue channel (remove_id identity q) (b_queues b)
     | None => b_queues b
     end)
    (b_bytes b - it_size i) (b_closed b) (b_lost b) (b_answered b) (b_waiters b) (b_woken b).

(** [Broker._response]: [unwrap] is the connection's reading of a reply. *)
Definition _response {A} (unwrap : value → res A) (i : item) : res A :=
  match it_response i with
  | None => raise OperationUnknown (q_method (it_request i) ++ ": worker reply unavailable; delivery outcome unknown")
  | Some v => unwrap v
  end.

(** [Broker._take] and [_take_many]: the requests handed out and the broker. *)
Definition _take (b : broker) (channel : string) : option (string * broker) :=
  match b_queues b !! channel with
  | Some (i :: q) =>
      Some (i, Broker (b_pending b) (put_queue channel q (b_queues b)) (b_bytes b) (b_closed b) (b_lost b)
                 (b_answered b) (b_waiters b) (b_woken b))
  | _ => None
  end.
Fixpoint take_more (n : nat) (b : broker) (channel : string) : list string * broker :=
  match n with
  | O => ([], b)
  | S n => match _take b channel with
           | None => ([], b)
           | Some (i, b) => let '(l, b) := take_more n b channel in (i :: l, b)
           end
  end.
Definition _take_many (b : broker) (channel : string) (limit : option nat) : option (list string * broker) :=
  match _take b channel with
  | None => None
  | Some (i, b) =>
      let '(l, b) := take_more (match limit with Some n => n - 1 | None => 0 end)%nat b channel in
      Some (i :: l, b)
  end.

(** [Broker._limit] *)
Definition _limit (limit : option Z) : res () :=
  match limit with
  | None => Ok ()
  | Some n => raise_if (negb ((1 <=? n) && (n <=? 256))) ValueError "relay batch size must be between 1 and 256"
  end.

(** One look of [poll] at the queue. *)
Definition poll (b : broker) (channel : string) (limit : option Z) : res (option (list string) * broker) :=
  _ ← validate channel; _ ← _limit limit;
  if b_closed b then Ok (None, b)
  else match _take_many b channel (Z.to_nat <$> limit) with
       | Some (l, b) => Ok (Some l, b)
       | None => Ok (None, b)
       end.
(** [apoll]: the same look, registering a waiter when nothing is queued; then the
    waiter leaves. *)
Definition apoll (b : broker) (channel : string) (limit : option Z) (future : nat) : res (option (list string) * broker) :=
  r ← poll b channel limit;
  let '(l, b) := r in
  match l with
  | Some _ => Ok (l, b)
  | None =>
      if b_closed b then Ok (None, b)
      else Ok (None, Broker (b_pending b) (b_queues b) (b_bytes b) (b_closed b) (b_lost b) (b_answered b)
                       (<[channel := default [] (b_waiters b !! channel) ++ [future]]> (b_waiters b)) (b_woken b))
  end.
Definition apoll_leave (b : broker) (channel : string) (future : nat) : broker :=
  match b_waiters b !! channel with
  | Some ws =>
      let ws := filter (λ w, w ≠ future) ws in
      Broker (b_pending b) (b_queues b) (b_bytes b) (b_closed b) (b_lost b) (b_answered b)
        (match ws with [] => delete channel (b_waiters b) | _ => <[channel := ws]> (b_waiters b) end) (b_woken b)
  | None => b
  end.

Definition has_result (v : value) : bool :=
  match v with Dict d => bool_decide (is_Some (od_get "result"%string d)) | _ => false end.

(** [Broker.result] *)
Definition result (b : broker) (channel identity : string) (response : value) (now : Z) : res broker :=
  _ ← validate channel;
  match od_get identity (b_pending b) with
  | None => Ok b
  | Some i =>
      if bool_decide (q_channel (it_request i) = channel) && negb (it_done i) then
        Ok (Broker (od_set identity (Item (it_request i) (it_size i) (it_async i) true (Some response)) (b_pending b))
              (b_queues b) (b_bytes b) (b_closed b) (b_lost b)
              (if has_result response then <[channel := now]> (b_answered b) else b_answered b)
              (b_waiters b) (wake_async (it_async i) (b_woken b)))
      else Ok b
  end.

(** [Broker.results] *)
Definition reply_of (v : value) : option (value * value) :=
  match v with
  | Dict d =>
      match od_get "identity"%string d, od_get "response"%string d with
      | Some i, Some r => if bool_decide (list_to_set (keys d) = ({["identity"%string; "response"%string]} : gset string))
                          then Some (i, r) else None
      | _, _ => None
      end
  | _ => None
  end.
Definition results (b : broker) (channel : string) (responses : value) (now : Z) : res broker :=
  _ ← validate channel;
  match responses with
  | Items false l =>
      if negb ((1 <=? length l)%nat && (length l <=? 64)%nat)
      then raise ValueError "expected between 1 and 64 worker responses"
      else if existsb (λ v, match reply_of v with None => true | _ => false end) l
      then raise ValueError "invalid worker response batch"
      else res_fold (λ b v, match reply_of v with
                            | Some (Text i, r) => result b channel i r now
                            | _ => Ok b
                            end) b l
  | _ => raise ValueError "expected between 1 and 64 worker responses"
  end.

(** [Broker.answered_within] *)
Definition answered_within (b : broker) (channel : string) (seconds now : Z) : bool :=
  match b_answered b !! channel with Some last => now - last <? seconds | None => false end.

(** [Broker.close] *)
Definition close (b : broker) : broker :=
  Broker (map (λ p : string * item, (p.1, Item (it_request p.2) (it_size p.2) (it_async p.2) true (it_response p.2))) (b_pending b))
    (b_queues b) (b_bytes b) true (b_lost b) (b_answered b) (b_waiters b)
    (list_to_set (omap (λ p : string * item, it_async p.2) (b_pending b))
     ∪ list_to_set (concat (map snd (map_to_list (b_waiters b)))) ∪ b_woken b).

(** * Runs *)

(** What a step shows: the requests a poll hands out on a channel, and the
    outcome of a call. *)
Inductive label :=
  | Silent
  | Begun (r : request)
  | Handed (channel : string) (l : list string)
  | Finished (identity : string) (response : option value)
  | Replied (channel : string) (identity : string) (response : value).

(** Identities are UUIDs: a new call's was never used before ([used]). *)
Inductive step : broker * gset string → label → broker * gset string → Prop :=
  | step_begin b used r size response b' :
      q_id r ∉ used → 0 ≤ size → _begin b r size response = Ok b' →
      step (b, used) (Begun r) (b', {[q_id r]} ∪ used)
  | step_exclude b used keys : step (b, used) Silent (exclude b keys, used)
  | step_finish b used identity i :
      od_get identity (b_pending b) = Some i →
      step (b, used) (Finished identity (it_response i)) (_finish b identity i, used)
  | step_poll b used channel limit l b' :
      poll b channel limit = Ok (Some l, b') → step (b, used) (Handed channel l) (b', used)
  | step_apoll b used channel limit future b' :
      apoll b channel limit future = Ok (None, b') → step (b, used) Silent (b', used)
  | step_leave b used channel future : step (b, used) Silent (apoll_leave b channel future, used)
  | step_result b used channel identity response now b' :
      result b channel identity response now = Ok b' →
      step (b, used) (Replied channel identity response) (b', used)
  | step_close b used : step (b, used) Silent (close b, used).

Inductive run : list label → broker * gset string → Prop :=
  | run_start : run [] (broker_init, ∅)
  | run_step tr s l s' : run tr s → step s l s' → run (tr ++ [l]) s'.

(** * Invariant *)

Definition sizes (l : list (string * item)) : Z := sumZ (map (λ p, it_size p.2) l).

(** A queue holds distinct pending requests of its channel. *)
Definition queue_wf (pending : list (string * item)) (channel : string) (q : list string) : Prop :=
  q ≠ [] ∧ NoDup q ∧ ∀ i, i ∈ q → ∃ it, od_get i pending = Some it ∧ q_channel (it_request it) = channel.

Definition queued (b : broker) (i : string) : Prop := ∃ channel, i ∈ queue_of b channel.

Record inv (b : broker) (used : gset string) : Prop := {
  inv_wf : od_wf (b_pending b);
  inv_used : ∀ i it, od_get i (b_pending b) = Some it → i ∈ used ∧ q_id (it_request it) = i ∧ 0 ≤ it_size it;
  inv_bytes : b_bytes b = sizes (b_pending b) ∧ b_bytes b ≤ CAPACITY;
  inv_queues : ∀ channel q, b_queues b !! channel = Some q → queue_wf (b_pending b) channel q }.

Lemma sizes_set i it l : od_get i l = None → sizes (od_set i it l) = sizes l + it_size it.
Proof.
  unfold sizes, sumZ. induction l as [|[k v] l IH]; simpl; [lia|]. case_decide; [done|]. intros Hno.
  simpl. rewrite IH by done. lia.
Qed.
Lemma sizes_replace i it it' l : od_get i l = Some it' → it_size it = it_size it' → sizes (od_set i it l) = sizes l.
Proof.
  unfold sizes, sumZ. induction l as [|[k v] l IH]; simpl; [done|]. case_decide; simpl.
  - intros [= ->] ->. done.
  - intros Hg E. rewrite IH by done. done.
Qed.
Lemma sizes_del i it l : od_wf l → od_get i l = Some it → sizes (od_del i l) = sizes l - it_size it.
Proof.
  unfold sizes, sumZ, od_wf, od_del. induction l as [|[k v] l IH]; simpl; [done|].
  intros [Hk Hl]%NoDup_cons. rewrite filter_cons. simpl. case_decide as E.
  - intros [= ->]. subst k. rewrite decide_False by auto.
    rewrite filter_true; [lia|]. intros [k' v'] Hin. simpl. intros ->. apply Hk.
    apply list_elem_of_fmap. by exists (i, v').
  - intros Hg. rewrite decide_True by auto. simpl. rewrite IH by done. lia.
Qed.

Lemma queue_wf_mono pending pending' channel q :
  queue_wf pending channel q →
  (∀ i it, i ∈ q → od_get i pending = Some it → ∃ it', od_get i pending' = Some it' ∧ it_request it' = it_request it) →
  queue_wf pending' channel q.
Proof.
  intros (H1 & H2 & H3) H. split; [done|]. split; [done|]. intros i Hi.
  destruct (H3 i Hi) as (it & E & Hc). destruct (H i it Hi E) as (it' & E' & Er). exists it'. by rewrite Er.
Qed.

Lemma put_queue_lookup channel q queues channel' q' :
  put_queue channel q queues !! channel' = Some q' →
  (channel' = channel ∧ q' = q ∧ q ≠ []) ∨ (channel' ≠ channel ∧ queues !! channel' = Some q').
Proof.
  unfold put_queue. destruct q as [|x q].
  - intros [? ?]%lookup_delete_Some. right. auto.
  - intros [[<- <-]|[? ?]]%lookup_insert_Some; [left|right]; auto.
Qed.

Lemma queue_of_put channel q queues b :
  b_queues b = put_queue channel q queues →
  ∀ channel', queue_of b channel' = if decide (channel' = channel) then q else default [] (queues !! channel').
Proof.
  intros E channel'. unfold queue_of. rewrite E. unfold put_queue. destruct q as [|x q]; case_decide; subst.
  - by rewrite lookup_delete_eq.
  - by rewrite lookup_delete_ne.
  - by rewrite lookup_insert_eq.
  - by rewrite lookup_insert_ne.
Qed.

Lemma begin_spec b r size response b' :
  _begin b r size response = Ok b' →
  b_bytes b + size ≤ CAPACITY ∧ b_bytes b' = b_bytes b + size ∧ (q_worker r ∉ b_lost b) ∧
  b_pending b' = od_set (q_id r) (Item r size response false None) (b_pending b) ∧
  b_queues b' = put_queue (q_channel r)
    (if bool_decide (q_method r ∈ PRIORITY) then q_id r :: queue_of b (q_channel r)
     else queue_of b (q_channel r) ++ [q_id r]) (b_queues b).
Proof.
  unfold _begin. intros ([] & _ & H)%bind_ok. destruct (b_closed b); [done|].
  case_bool_decide as El; [done|]. destruct (Z.ltb_spec CAPACITY (b_bytes b + size)); [done|].
  destruct (wake_first _ _) as [ws wk]. injection H as <-. done.
Qed.

Lemma begin_inv b used r size response b' :
  inv b used → q_id r ∉ used → 0 ≤ size → _begin b r size response = Ok b' → inv b' ({[q_id r]} ∪ used).
Proof.
  intros [Hwf Hused [Hb Hc] Hq] Hnew Hs H. apply begin_spec in H as (H1 & H2 & _ & H3 & H4).
  assert (Hnone : od_get (q_id r) (b_pending b) = None).
  { destruct (od_get _ _) eqn:E; [|done]. by apply Hused in E as [? _]. }
  split.
  - rewrite H3. by apply od_wf_set.
  - intros i it. rewrite H3, od_get_set. destruct (decide (i = q_id r)) as [->|].
    + intros [= <-]. simpl. split; [set_solver|done].
    + intros (? & ? & ?)%Hused. split; [set_solver|done].
  - rewrite H2, H3, sizes_set by done. simpl. split; lia.
  - intros channel q. rewrite H4. intros [(-> & -> & Hne)|[Hne Hq']]%put_queue_lookup.
    + assert (Hold : NoDup (queue_of b (q_channel r)) ∧ ∀ i, i ∈ queue_of b (q_channel r) →
        ∃ it, od_get i (b_pending b) = Some it ∧ q_channel (it_request it) = q_channel r).
      { unfold queue_of. destruct (b_queues b !! q_channel r) eqn:E; simpl.
        - apply Hq in E as (_ & ? & ?). done.
        - split; [constructor|]. by intros i ?%not_elem_of_nil. }
      destruct Hold as [Hnd Hold].
      assert (Hni : q_id r ∉ queue_of b (q_channel r)) by (intros Hi; apply Hold in Hi as (? & ? & _); congruence).
      split; [done|]. split.
      * case_bool_decide; [by constructor|]. apply NoDup_app. split; [done|]. split; [|apply NoDup_singleton].
        intros x Hx ->%list_elem_of_singleton. done.
      * intros i Hi. assert (Hi' : i = q_id r ∨ i ∈ queue_of b (q_channel r)).
        { case_bool_decide; [by apply elem_of_cons in Hi|].
          apply elem_of_app in Hi as [?|?%list_elem_of_singleton]; auto. }
        rewrite H3, od_get_set. destruct (decide (i = q_id r)) as [->|]; [by eexists|].
        destruct Hi' as [->|Hi']; [done|]. by apply Hold.
    + eapply queue_wf_mono; [by apply Hq|]. intros i it _ E. rewrite H3, od_get_set.
      destruct (decide (i = q_id r)) as [->|]; [congruence|]. by exists it.
Qed.

(** Completing a pending item changes neither its request nor its size. *)
Lemma set_item_inv b used i it it' queues lost answered waiters woken closed :
  inv b used → od_get i (b_pending b) = Some it → it_request it' = it_request it → it_size it' = it_size it →
  (∀ channel q, queues !! channel = Some q → queue_wf (b_pending b) channel q) →
  inv (Broker (od_set i it' (b_pending b)) queues (b_bytes b) closed lost answered waiters woken) used.
Proof.
  intros [Hwf Hused [Hb Hc] Hq] E Er Es Hqs. split; simpl.
  - by apply od_wf_set.
  - intros j jt. rewrite od_get_set. destruct (decide (j = i)) as [->|]; [|by apply Hused]. intros [= <-].
    rewrite Er, Es. by apply Hused.
  - by rewrite (sizes_replace _ _ it).
  - intros channel q Hl. eapply queue_wf_mono; [by apply Hqs|]. intros j jt _ Ej. rewrite od_get_set.
    destruct (decide (j = i)) as [->|]; [|by exists jt]. exists it'. split; [done|]. congruence.
Qed.

Lemma remove_queue_wf pending queues channel identity :
  (∀ channel q, queues !! channel = Some q → queue_wf pending channel q) →
  ∀ channel' q', (match queues !! channel with
                  | Some q => put_queue channel (remove_id identity q) queues
                  | None => queues end) !! channel' = Some q' →
  queue_wf pending channel' q' ∧ (channel' = channel → identity ∉ q').
Proof.
  intros H channel' q' Hl. destruct (queues !! channel) as [q|] eqn:E.
  - apply put_queue_lookup in Hl as [(-> & -> & Hne)|[Hne Hl]].
    + destruct (H _ _ E) as (_ & Hnd & Hin). split.
      * split; [done|]. split; [by apply NoDup_filter|]. intros i [_ Hi]%list_elem_of_filter. auto.
      * intros _ [? _]%list_elem_of_filter. done.
    + split; [by apply H|done].
  - split; [by apply H|]. intros ->. congruence.
Qed.

Lemma exclude_inv b used keys : inv b used → inv (exclude b keys) used.
Proof.
  intros Hinv. unfold exclude.
  set (b0 := Broker _ _ _ _ (keys ∪ b_lost b) _ _ _).
  assert (H0 : inv b0 used) by (destruct Hinv; by split).
  assert (Hin : ∀ i it, (i, it) ∈ b_pending b → ∃ it', od_get i (b_pending b0) = Some it' ∧ it_request it' = it_request it ∧ it_size it' = it_size it).
  { intros i it Hi. exists it. split; [|done]. apply od_get_wf; [apply Hinv|done]. }
  change (inv (foldl (exclude_one keys) b0 (b_pending b)) used).
  clearbody b0. clear Hinv. revert b0 H0 Hin. generalize (b_pending b). intros l.
  induction l as [|[i it] l IH]; intros b0 H0 Hin; simpl; [done|].
  apply IH.
  - unfold exclude_one. case_bool_decide; [|done].
    destruct (Hin i it) as (it' & E & Er & Es); [by left|].
    eapply set_item_inv; [done|done|simpl; congruence|simpl; congruence|].
    intros ch q Hl. apply (remove_queue_wf (b_pending b0)) in Hl as [? _]; [done|apply H0].
  - intros j jt Hj. destruct (Hin j jt) as (jt' & E & Er & Es); [by right|].
    unfold exclude_one. case_bool_decide; [|by exists jt']. simpl. rewrite od_get_set.
    destruct (decide (j = i)) as [->|]; [|by exists jt']. eexists. split; [done|]. simpl.
    destruct (Hin i it) as (it' & E' & Er' & Es'); [by left|]. split; congruence.
Qed.

Lemma finish_inv b used identity i :
  inv b used → od_get identity (b_pending b) = Some i → inv (_finish b identity i) used.
Proof.
  intros [Hwf Hused [Hb Hc] Hq] E. destruct (Hused _ _ E) as (_ & _ & Hs). split; simpl.
  - by apply od_wf_del.
  - intros j jt. rewrite od_get_del. destruct (decide (j = identity)); [done|]. by apply Hused.
  - rewrite (sizes_del _ i) by done. lia.
  - intros channel q Hl. apply (remove_queue_wf (b_pending b)) in Hl as [Hl Hni]; [|done].
    eapply queue_wf_mono; [exact Hl|]. intros j jt Hj Ej. rewrite od_get_del.
    destruct (decide (j = identity)) as [->|]; [|by exists jt]. exfalso. destruct Hl as (_ & _ & Hl).
    destruct (Hl _ Hj) as (it & Eit & Hch). rewrite E in Eit. injection Eit as <-.
    by apply Hni.
Qed.

Lemma take_inv b used channel i b' :
  inv b used → _take b channel = Some (i, b') →
  inv b' used ∧ queue_of b channel = i :: queue_of b' channel ∧
  (∀ channel', channel' ≠ channel → queue_of b' channel' = queue_of b channel') ∧ b_pending b' = b_pending b.
Proof.
  intros [Hwf Hused Hb Hq] H. unfold _take in H. destruct (b_queues b !! channel) as [[|x q]|] eqn:E; try done.
  injection H as <- E'. assert (Hqs : b_queues b' = put_queue channel q (b_queues b)) by by rewrite <- E'.
  split; [|split; [|split; [|by rewrite <- E']]].
  - rewrite <- E'. split; simpl; try done. intros ch q' [(-> & -> & Hne)|[Hne Hl]]%put_queue_lookup; [|by apply Hq].
    destruct (Hq _ _ E) as (_ & [Hx Hnd]%NoDup_cons & Hin). split; [done|]. split; [done|].
    intros j Hj. apply Hin. by right.
  - rewrite (queue_of_put _ _ _ _ Hqs), decide_True by done. unfold queue_of. by rewrite E.
  - intros ch Hne. by rewrite (queue_of_put _ _ _ _ Hqs), decide_False by done.
Qed.

Lemma take_more_inv n b used channel l b' :
  inv b used → take_more n b channel = (l, b') →
  inv b' used ∧ queue_of b channel = l ++ queue_of b' channel ∧ (length l ≤ n)%nat ∧
  ((length l < n)%nat → queue_of b' channel = []) ∧
  (∀ channel', channel' ≠ channel → queue_of b' channel' = queue_of b channel') ∧ b_pending b' = b_pending b.
Proof.
  revert b l b'. induction n as [|n IH]; intros b l b' Hinv H; simpl in H.
  { injection H as <- <-. simpl. split; [done|]. split; [done|]. split; [lia|]. split; [lia|done]. }
  destruct (_take b channel) as [[i b1]|] eqn:E.
  - destruct (take_more n b1 channel) as [l1 b2] eqn:E2. injection H as <- <-.
    apply (take_inv _ used) in E as (H1 & H2 & H3 & H4); [|done].
    apply IH in E2 as (G1 & G2 & G3 & G4 & G5 & G6); [|done].
    split; [done|]. rewrite H2, G2. simpl. split; [done|]. split; [lia|].
    split; [intros; apply G4; lia|]. split; [|congruence]. intros ch Hne. rewrite G5, H3; done.
  - injection H as <- <-. simpl. unfold _take in E. unfold queue_of.
    split; [done|]. split; [done|]. split; [lia|]. split; [|done].
    intros _. by destruct (b_queues b !! channel) as [[|]|].
Qed.

Lemma take_many_inv b used channel limit l b' :
  inv b used → _take_many b channel limit = Some (l, b') →
  inv b' used ∧ queue_of b channel = l ++ queue_of b' channel ∧ l ≠ [] ∧
  (length l ≤ Nat.max 1 (default 1 limit))%nat ∧
  ((length l < default 1 limit)%nat → queue_of b' channel = []) ∧
  (∀ channel', channel' ≠ channel → queue_of b' channel' = queue_of b channel') ∧ b_pending b' = b_pending b.
Proof.
  intros Hinv H. unfold _take_many in H. destruct (_take b channel) as [[i b1]|] eqn:E; [|done].
  destruct (take_more _ b1 channel) as [l1 b2] eqn:E2. injection H as <- <-.
  apply (take_inv _ used) in E as (H1 & H2 & H3 & H4); [|done].
  apply (take_more_inv _ _ used) in E2 as (G1 & G2 & G3 & G4 & G5 & G6); [|done].
  split; [done|]. rewrite H2, G2. simpl. split; [done|]. split; [done|].
  split; [destruct limit; simpl; lia|]. split; [intros; apply G4; destruct limit; simpl in *; lia|].
  split; [|congruence]. intros ch Hne. rewrite G5, H3; done.
Qed.

(** * What a run has shown *)

(** A step that begins nothing and hands out nothing only drops queued requests
    and completes pending ones as lost. *)
Definition shrinks (b b' : broker) : Prop :=
  (∀ i it', od_get i (b_pending b') = Some it' →
     ∃ it, od_get i (b_pending b) = Some it ∧ it_request it' = it_request it ∧
       (it_response it' = it_response it ∨ it_response it' = Some lost_response)) ∧
  (∀ i, queued b' i → queued b i).

Lemma shrinks_refl b : shrinks b b.
Proof. split; [|done]. intros i it E. exists it. auto. Qed.
Lemma shrinks_trans a b c : shrinks a b → shrinks b c → shrinks a c.
Proof.
  intros [H1 H2] [G1 G2]. split; [|auto]. intros i it E. destruct (G1 i it E) as (it1 & E1 & R1 & V1).
  destruct (H1 i it1 E1) as (it0 & E0 & R0 & V0). exists it0. split; [done|]. split; [congruence|].
  destruct V1 as [->|]; [|by right]. done.
Qed.

Lemma remove_queued b channel identity queues' :
  queues' = match b_queues b !! channel with
            | Some q => put_queue channel (remove_id identity q) (b_queues b)
            | None => b_queues b end →
  ∀ ch i, i ∈ default [] (queues' !! ch) → i ∈ queue_of b ch.
Proof.
  intros -> ch i. unfold queue_of. destruct (b_queues b !! channel) as [q|] eqn:E; [|done].
  destruct (put_queue channel (remove_id identity q) (b_queues b) !! ch) as [q'|] eqn:E'; simpl;
    [|by intros ?%not_elem_of_nil].
  apply put_queue_lookup in E' as [(-> & -> & _)|[_ E']].
  - rewrite E. simpl. by intros [_ ?]%list_elem_of_filter.
  - by rewrite E'.
Qed.

Lemma exclude_shrinks b used keys : inv b used → shrinks b (exclude b keys).
Proof.
  intros Hinv. unfold exclude. set (b0 := Broker _ _ _ _ (keys ∪ b_lost b) _ _ _).
  assert (Hin : ∀ i it, (i, it) ∈ b_pending b → ∃ it', od_get i (b_pending b0) = Some it' ∧ it_request it' = it_request it).
  { intros i it Hi. exists it. split; [|done]. apply od_get_wf; [apply Hinv|done]. }
  change (shrinks b0 (foldl (exclude_one keys) b0 (b_pending b))).
  clearbody b0. clear Hinv. revert b0 Hin. generalize (b_pending b). intros l.
  induction l as [|[i it] l IH]; intros b0 Hin; simpl; [apply shrinks_refl|].
  destruct (Hin i it) as (it0 & E0 & R0); [by left|].
  assert (H1 : shrinks b0 (exclude_one keys b0 (i, it)) ∧
    ∀ j jt, od_get j (b_pending b0) = Some jt →
      ∃ jt', od_get j (b_pending (exclude_one keys b0 (i, it))) = Some jt' ∧ it_request jt' = it_request jt).
  { unfold exclude_one. case_bool_decide; [|by split; [apply shrinks_refl|eauto]]. split; [split|]; simpl.
    - intros j jt. rewrite od_get_set. destruct (decide (j = i)) as [->|]; [|intros; exists jt; auto].
      intros [= <-]. simpl. exists it0. auto.
    - intros j [ch Hj]. exists ch. by eapply remove_queued.
    - intros j jt Ej. rewrite od_get_set. destruct (decide (j = i)) as [->|]; [|by exists jt].
      eexists. split; [done|]. simpl. congruence. }
  destruct H1 as [H1 H2]. eapply shrinks_trans; [exact H1|]. apply IH. intros j jt Hj.
  destruct (Hin j jt) as (jt0 & Ej & Rj); [by right|]. destruct (H2 _ _ Ej) as (jt1 & Ej1 & Rj1).
  exists jt1. split; [done|congruence].
Qed.

Lemma finish_shrinks b identity i : shrinks b (_finish b identity i).
Proof.
  split; simpl.
  - intros j jt. rewrite od_get_del. destruct (decide (j = identity)); [done|]. intros; exists jt; auto.
  - intros j [ch Hj]. exists ch. unfold _finish, queue_of in Hj. simpl in Hj.
    eapply remove_queued; [reflexivity|exact Hj].
Qed.

Lemma od_get_map_value {V W} (f : V → W) (l : list (string * V)) i :
  od_get i (map (λ p, (p.1, f p.2)) l) = f <$> od_get i l.
Proof. induction l as [|[k v] l IH]; simpl; [done|]. by case_decide. Qed.

Lemma close_inv b used : inv b used → inv (close b) used ∧ shrinks b (close b).
Proof.
  intros [Hwf Hused [Hb Hc] Hq].
  set (f := λ it : item, Item (it_request it) (it_size it) (it_async it) true (it_response it)).
  assert (Hp : b_pending (close b) = map (λ p, (p.1, f p.2)) (b_pending b)) by done.
  assert (Hget : ∀ i it, od_get i (b_pending (close b)) = Some it →
    ∃ it0, od_get i (b_pending b) = Some it0 ∧ it = f it0).
  { intros i it. rewrite Hp, od_get_map_value. destruct (od_get i (b_pending b)) as [it0|]; [|done].
    intros [= <-]. by exists it0. }
  split; [split|split].
  - rewrite Hp. unfold od_wf, keys in *. assert (E : (map (λ p, (p.1, f p.2)) (b_pending b)).*1 = (b_pending b).*1); [|by rewrite E].
    clear. induction (b_pending b) as [|p l IH]; simpl; [done|]. f_equal. exact IH.
  - intros i it (it0 & E & ->)%Hget. by apply Hused in E.
  - rewrite Hp. simpl. split; [|done]. rewrite Hb. unfold sizes. rewrite map_map. done.
  - intros ch q Hl. eapply queue_wf_mono; [by apply Hq|]. intros i it _ E. rewrite Hp, od_get_map_value, E.
    eexists. done.
  - intros i it (it0 & E & ->)%Hget. exists it0. auto.
  - intros i [ch Hi]. by exists ch.
Qed.

Definition handed (tr : list label) : list string :=
  flat_map (λ l, match l with Handed _ ids => ids | _ => [] end) tr.

Record history (tr : list label) (b : broker) (used : gset string) : Prop := {
  h_begun : ∀ i it, od_get i (b_pending b) = Some it → Begun (it_request it) ∈ tr;
  h_reply : ∀ i it v, od_get i (b_pending b) = Some it → it_response it = Some v →
     v = lost_response ∨ Replied (q_channel (it_request it)) i v ∈ tr;
  h_once : NoDup (handed tr);
  h_queued : ∀ i, queued b i → i ∉ handed tr;
  h_used : ∀ i, i ∈ handed tr → i ∈ used;
  h_channel : ∀ ch l i, Handed ch l ∈ tr → i ∈ l →
     ∃ r, Begun r ∈ tr ∧ q_id r = i ∧ q_channel r = ch }.

Lemma handed_snoc tr l : handed (tr ++ [l]) = handed tr ++ match l with Handed _ ids => ids | _ => [] end.
Proof. unfold handed. rewrite flat_map_app. simpl. by rewrite app_nil_r. Qed.

Lemma history_shrinks tr b b' used l :
  history tr b used → shrinks b b' → (∀ ch ids, l ≠ Handed ch ids) → history (tr ++ [l]) b' used.
Proof.
  intros [H1 H2 H3 H4 H5 H6] [Hs Hq] Hl.
  assert (Hh : handed (tr ++ [l]) = handed tr).
  { rewrite handed_snoc. destruct l; try (by rewrite app_nil_r). by destruct (Hl channel l). }
  split; rewrite ?Hh; auto.
  - intros i it E. destruct (Hs _ _ E) as (it0 & E0 & -> & _). apply elem_of_app. left. eauto.
  - intros i it v E Ev. destruct (Hs _ _ E) as (it0 & E0 & R & [V|V]); [|left; congruence].
    rewrite R. destruct (H2 i it0 v E0) as [?|?]; [congruence|by left|right; apply elem_of_app; by left].
  - intros ch ids i [Hin|Hin%list_elem_of_singleton]%elem_of_app Hi.
    + destruct (H6 _ _ _ Hin Hi) as (r & ? & ?). exists r. split; [apply elem_of_app; by left|done].
    + by destruct (Hl ch ids).
Qed.

Lemma result_spec b channel identity response now b' :
  result b channel identity response now = Ok b' →
  b' = b ∨ ∃ it woken answered, od_get identity (b_pending b) = Some it ∧ q_channel (it_request it) = channel ∧
    it_done it = false ∧
    b' = Broker (od_set identity (Item (it_request it) (it_size it) (it_async it) true (Some response)) (b_pending b))
           (b_queues b) (b_bytes b) (b_closed b) (b_lost b) answered (b_waiters b) woken.
Proof.
  unfold result. intros ([] & _ & H)%bind_ok. destruct (od_get identity (b_pending b)) as [it|]; [|left; congruence].
  destruct (_ && _) eqn:E; [|left; congruence]. bool_prop. right. injection H as <-.
  exists it, (wake_async (it_async it) (b_woken b)), (if has_result response then <[channel := now]> (b_answered b) else b_answered b).
  done.
Qed.

Lemma poll_spec b channel limit l b' :
  poll b channel limit = Ok (l, b') →
  match l with
  | Some l => b_closed b = false ∧ _take_many b channel (Z.to_nat <$> limit) = Some (l, b')
  | None => b' = b
  end.
Proof.
  unfold poll. intros ([] & _ & ([] & _ & H)%bind_ok)%bind_ok. destruct (b_closed b); [by injection H as <- <-|].
  destruct (_take_many _ _ _) as [[l0 b0]|]; by injection H as <- <-.
Qed.

Lemma waiters_inv b used waiters woken :
  inv b used → inv (Broker (b_pending b) (b_queues b) (b_bytes b) (b_closed b) (b_lost b) (b_answered b) waiters woken) used.
Proof. intros []. by split. Qed.

Lemma waiters_shrinks b waiters woken :
  shrinks b (Broker (b_pending b) (b_queues b) (b_bytes b) (b_closed b) (b_lost b) (b_answered b) waiters woken).
Proof. split; [|done]. intros i it E. exists it. auto. Qed.

Lemma run_inv tr b used : run tr (b, used) → inv b used ∧ history tr b used.
Proof.
  intros Hrun. remember (b, used) as s eqn:Es. revert b used Es.
  induction Hrun as [|tr s l s' Hrun IH Hstep]; intros b' used' Es.
  { injection Es as <- <-. split; split; simpl; try done.
    - constructor.
    - constructor.
    - intros i [ch Hi]. by apply not_elem_of_nil in Hi.
    - by intros i ?%not_elem_of_nil.
    - by intros ch l i ?%not_elem_of_nil. }
  destruct s as [b used]. destruct (IH b used eq_refl) as [Hinv Hh]. clear IH Hrun. subst s'.
  inversion Hstep as [? ? r size response ? Hnew Hs H|? ? keys|? ? identity i E|? ? channel limit ids ? H
    |? ? channel limit future ? H|? ? channel future|? ? channel identity response now ? H|]; subst; clear Hstep.
  - split; [by eapply begin_inv|]. apply begin_spec in H as (_ & _ & _ & Hp & Hqs).
    destruct Hh as [H1 H2 H3 H4 H5 H6].
    assert (Hhd : handed (tr ++ [Begun r]) = handed tr) by (rewrite handed_snoc; by rewrite app_nil_r).
    split; rewrite ?Hhd.
    + intros i it. rewrite Hp, od_get_set. destruct (decide (i = q_id r)) as [->|].
      * intros [= <-]. apply elem_of_app. right. by left.
      * intros E. apply elem_of_app. left. eauto.
    + intros i it v. rewrite Hp, od_get_set. destruct (decide (i = q_id r)) as [->|]; [by intros [= <-]|].
      intros E Ev. destruct (H2 _ _ _ E Ev); [by left|right; apply elem_of_app; by left].
    + done.
    + intros i [ch Hi] Hin. apply H5 in Hin as Hu.
      rewrite (queue_of_put _ _ _ _ Hqs) in Hi. destruct (decide (ch = q_channel r)) as [->|].
      * assert (Hi' : i = q_id r ∨ i ∈ queue_of b (q_channel r)).
        { case_bool_decide; [by apply elem_of_cons in Hi|].
          apply elem_of_app in Hi as [?|?%list_elem_of_singleton]; auto. }
        destruct Hi' as [->|Hi']; [done|]. apply (H4 i); [by eexists|done].
      * apply (H4 i); [by exists ch|done].
    + intros i Hi. apply H5 in Hi. set_solver.
    + intros ch ids i [Hin|Hin%list_elem_of_singleton]%elem_of_app Hi; [|done].
      destruct (H6 _ _ _ Hin Hi) as (r' & ? & ?). exists r'. split; [apply elem_of_app; by left|done].
  - split; [by apply exclude_inv|]. eapply history_shrinks; [done|by eapply exclude_shrinks|done].
  - split; [by apply finish_inv|]. eapply history_shrinks; [done|apply finish_shrinks|done].
  - apply poll_spec in H as [_ H]. apply (take_many_inv _ used') in H as (Hi' & Hq & Hne & _ & _ & Hoth & Hpe); [|done].
    split; [done|]. destruct Hh as [H1 H2 H3 H4 H5 H6].
    assert (Hqw : NoDup (queue_of b channel) ∧ ∀ i, i ∈ queue_of b channel →
      ∃ it, od_get i (b_pending b) = Some it ∧ q_channel (it_request it) = channel).
    { unfold queue_of. destruct (b_queues b !! channel) eqn:E; simpl.
      - by apply (inv_queues _ _ Hinv) in E as (_ & ? & ?).
      - split; [constructor|]. by intros i ?%not_elem_of_nil. }
    destruct Hqw as [Hnd Hall]. rewrite Hq in Hnd. apply NoDup_app in Hnd as (Hnd1 & Hnd2 & _).
    assert (Hin : ∀ i, i ∈ ids → i ∈ queue_of b channel) by (intros i Hi; rewrite Hq; apply elem_of_app; by left).
    split; rewrite ?handed_snoc.
    + intros i it E. rewrite Hpe in E. apply elem_of_app. left. eauto.
    + intros i it v E Ev. rewrite Hpe in E. destruct (H2 _ _ _ E Ev); [by left|right; apply elem_of_app; by left].
    + apply NoDup_app. split; [done|]. split; [|done]. intros i Hi Hi2. apply (H4 i); [|done].
      exists channel. by apply Hin.
    + intros i [ch Hi] [Hh|Hh]%elem_of_app.
      * apply (H4 i); [|done]. exists ch. destruct (decide (ch = channel)) as [->|]; [|by rewrite <- Hoth].
        rewrite Hq. apply elem_of_app. by right.
      * destruct (decide (ch = channel)) as [->|Hne']; [by apply (Hnd2 i)|]. rewrite Hoth in Hi by done.
        destruct (Hall i (Hin i Hh)) as (it & E & Hch). unfold queue_of in Hi.
        destruct (b_queues b !! ch) as [q|] eqn:Eq; [|by apply not_elem_of_nil in Hi].
        apply (inv_queues _ _ Hinv) in Eq as (_ & _ & Hq'). destruct (Hq' i Hi) as (it' & E' & Hch'). congruence.
    + intros i [Hi|Hi]%elem_of_app; [by apply H5|]. destruct (Hall i (Hin i Hi)) as (it & E & _).
      by apply (inv_used _ _ Hinv) in E as [? _].
    + intros ch l i [Hl|Hl%list_elem_of_singleton]%elem_of_app Hi.
      * destruct (H6 _ _ _ Hl Hi) as (r & ? & ?). exists r. split; [apply elem_of_app; by left|done].
      * injection Hl as -> ->. destruct (Hall i (Hin i Hi)) as (it & E & Hch). exists (it_request it).
        split; [apply elem_of_app; left; eauto|]. split; [by apply (inv_used _ _ Hinv) in E as (_ & ? & _)|done].
  - unfold apoll in H. apply bind_ok in H as ([l b1] & Hp & H). apply poll_spec in Hp.
    destruct l as [l|]; [done|]. subst b1. destruct (b_closed b) eqn:Ecl; injection H as <-.
    + split; [done|]. eapply history_shrinks; [done|apply shrinks_refl|done].
    + rewrite <- Ecl. split; [by apply waiters_inv|]. eapply history_shrinks; [done|apply waiters_shrinks|done].
  - unfold apoll_leave. destruct (b_waiters b !! channel).
    + split; [by apply waiters_inv|]. eapply history_shrinks; [done|apply waiters_shrinks|done].
    + split; [done|]. eapply history_shrinks; [done|apply shrinks_refl|done].
  - apply result_spec in H as [->|(it & woken & answered & E & Hch & Hd & ->)].
    { split; [done|]. eapply history_shrinks; [done|apply shrinks_refl|done]. }
    split; [eapply set_item_inv; [done|done|done|done|apply Hinv]|].
    destruct Hh as [H1 H2 H3 H4 H5 H6].
    assert (Hhd : handed (tr ++ [Replied channel identity response]) = handed tr) by (rewrite handed_snoc; by rewrite app_nil_r).
    split; rewrite ?Hhd; try done; simpl.
    + intros i jt. rewrite od_get_set. destruct (decide (i = identity)) as [->|]; intros E'; apply elem_of_app; left.
      * injection E' as <-. simpl. eauto.
      * eauto.
    + intros i jt v. rewrite od_get_set. destruct (decide (i = identity)) as [->|].
      * intros [= <-]. simpl. intros [= <-]. right. rewrite Hch. apply elem_of_app. right. by left.
      * intros E' Ev. destruct (H2 _ _ _ E' Ev); [by left|right; apply elem_of_app; by left].
    + intros ch l i [Hl|Hl%list_elem_of_singleton]%elem_of_app Hi; [|done].
      destruct (H6 _ _ _ Hl Hi) as (r & ? & ?). exists r. split; [apply elem_of_app; by left|done].
  - destruct (close_inv b used' Hinv) as [? ?]. split; [done|]. by eapply history_shrinks.
Qed.

(** Delivery by the relay. In every run a request is handed out at most once,
    only on the channel of its worker and only after it was begun; the size
    account equals the sizes of the pending requests and stays within its limit;
    and every queued request is pending on the channel it waits in. *)
Theorem relay_delivery tr b used :
  run tr (b, used) →
  NoDup (handed tr) ∧
  (∀ ch l i, Handed ch l ∈ tr → i ∈ l → ∃ r, Begun r ∈ tr ∧ q_id r = i ∧ q_channel r = ch) ∧
  b_bytes b = sizes (b_pending b) ∧ 0 ≤ b_bytes b ≤ CAPACITY ∧
  (∀ ch i, i ∈ queue_of b ch →
     (i ∉ handed tr) ∧ ∃ it, od_get i (b_pending b) = Some it ∧ q_channel (it_request it) = ch).
Proof.
  intros [Hinv [H1 H2 H3 H4 H5 H6]]%run_inv. split; [done|]. split; [done|].
  destruct (inv_bytes _ _ Hinv) as [Hb Hc]. split; [done|]. split.
  - split; [|done]. rewrite Hb. unfold sizes.
    assert (Hall : ∀ p, p ∈ b_pending b → 0 ≤ it_size p.2).
    { intros [i it] Hp. apply (od_get_wf i it _ (inv_wf _ _ Hinv)) in Hp.
      by apply (inv_used _ _ Hinv) in Hp as (_ & _ & ?). }
    clear -Hall. induction (b_pending b) as [|p l IH]; simpl; [lia|].
    pose proof (Hall p ltac:(by left)). assert (0 ≤ sumZ (map (λ p, it_size p.2) l)); [|lia].
    apply IH. intros q Hq. apply Hall. by right.
  - intros ch i Hi. split; [apply H4; by exists ch|]. unfold queue_of in Hi.
    destruct (b_queues b !! ch) as [q|] eqn:E; [|by apply not_elem_of_nil in Hi].
    apply (inv_queues _ _ Hinv) in E as (_ & _ & Hq). by apply Hq.
Qed.

(** Replies are authentic. In every run the response a finished call gets is
    the notice that its worker was lost, or a reply delivered for its identity on
    the channel its request was addressed to; a reply from another channel, for an
    unknown call or for one already completed changes nothing. *)
Theorem relay_replies tr b used :
  run tr (b, used) →
  (∀ i it v, od_get i (b_pending b) = Some it → it_response it = Some v →
     v = lost_response ∨ (Begun (it_request it) ∈ tr ∧ Replied (q_channel (it_request it)) i v ∈ tr)) ∧
  (∀ channel i response now b', result b channel i response now = Ok b' →
     match od_get i (b_pending b) with
     | Some it => q_channel (it_request it) ≠ channel ∨ it_done it = true
     | None => True
     end → b' = b).
Proof.
  intros [Hinv [H1 H2 _ _ _ _]]%run_inv. split.
  - intros i it v E Ev. destruct (H2 _ _ _ E Ev); [by left|right]. split; [by eapply H1|done].
  - intros channel i response now b' H Hc.
    apply result_spec in H as [?|(it & woken & answered & E & Hch & Hd & _)]; [done|].
    rewrite E in Hc. destruct Hc; congruence.
Qed.

(** order on a channel. Beginning a call puts a health check before, any other
    request after, everything queued on its channel; a poll hands out a nonempty
    prefix of the queue, as long as its limit allows; other channels are untouched
    by both. *)
Theorem relay_order tr b used :
  run tr (b, used) →
  (∀ r size response b', _begin b r size response = Ok b' →
     queue_of b' (q_channel r) =
       (if bool_decide (q_method r ∈ PRIORITY) then q_id r :: queue_of b (q_channel r)
        else queue_of b (q_channel r) ++ [q_id r]) ∧
     ∀ ch, ch ≠ q_channel r → queue_of b' ch = queue_of b ch) ∧
  (∀ channel limit l b', poll b channel limit = Ok (Some l, b') →
     l ≠ [] ∧ queue_of b channel = l ++ queue_of b' channel ∧
     Z.of_nat (length l) ≤ default 1 limit ∧
     (Z.of_nat (length l) < default 1 limit → queue_of b' channel = []) ∧
     ∀ ch, ch ≠ channel → queue_of b' ch = queue_of b ch).
Proof.
  intros [Hinv _]%run_inv. split.
  - intros r size response b' H. apply begin_spec in H as (_ & _ & _ & _ & Hq). split.
    + by rewrite (queue_of_put _ _ _ _ Hq), decide_True.
    + intros ch Hne. by rewrite (queue_of_put _ _ _ _ Hq), decide_False.
  - intros channel limit l b' H. assert (Hlim : match limit with Some n => 1 ≤ n | None => True end).
    { unfold poll in H. apply bind_ok in H as ([] & _ & H). apply bind_ok in H as ([] & H & _).
      destruct limit as [n|]; [|done]. unfold _limit, raise_if in H. destruct (negb _) eqn:E in H; [done|].
      bool_prop. lia. }
    apply poll_spec in H as [_ H]. apply (take_many_inv _ used) in H as (_ & Hq & Hne & H1 & H2 & H3 & _); [|done].
    split; [done|]. split; [done|]. destruct limit as [n|]; simpl in *.
    + split; [lia|]. split; [intros; apply H2; lia|done].
    + split; [lia|]. split; [intros; apply H2; lia|done].
Qed.

(** * Witness *)

Definition ex_channel : string := "0123456789abcdef0123456789abcdef".
Definition ex_request (i m : string) : request := Request i ex_channel "w" m [].
Definition ex_b1 : broker := match _begin broker_init (ex_request "r1" "exec") 10 None with Ok b => b | Err _ => broker_init end.
Definition ex_b2 : broker := match _begin ex_b1 (ex_request "r2" "ping") 10 None with Ok b => b | Err _ => broker_init end.
Definition ex_b3 : broker := match poll ex_b2 ex_channel (Some 1) with Ok (_, b) => b | Err _ => broker_init end.

Lemma ex_run : run [Begun (ex_request "r1" "exec"); Begun (ex_request "r2" "ping"); Handed ex_channel ["r2"%string]]
  (ex_b3, {["r2"%string]} ∪ ({["r1"%string]} ∪ ∅)).
Proof.
  apply (run_step [Begun (ex_request "r1" "exec"); Begun (ex_request "r2" "ping")] (ex_b2, {["r2"%string]} ∪ ({["r1"%string]} ∪ ∅))).
  - apply (run_step [Begun (ex_request "r1" "exec")] (ex_b1, {["r1"%string]} ∪ ∅)).
    + apply (run_step [] (broker_init, ∅)); [constructor|]. apply (step_begin broker_init ∅ (ex_request "r1" "exec") 10 None ex_b1); [apply not_elem_of_empty|lia|reflexivity].
    + apply (step_begin ex_b1 ({["r1"%string]} ∪ ∅) (ex_request "r2" "ping") 10 None ex_b2); [simpl; set_solver|lia|reflexivity].
  - apply (step_poll _ _ _ (Some 1)). vm_compute. reflexivity.
Qed.

Lemma relay_delivery_witness : NoDup (handed [Begun (ex_request "r1" "exec"); Begun (ex_request "r2" "ping");
  Handed ex_channel ["r2"%string]]).
Proof. exact (proj1 (relay_delivery _ _ _ ex_run)). Defined.

Definition ex_b4 : broker := match poll ex_b3 ex_channel None with Ok (_, b) => b | Err _ => broker_init end.

Lemma relay_replies_witness :
  match result ex_b3 "fedcba9876543210fedcba9876543210" "r1" lost_response 0 with Ok b' => b' = ex_b3 | Err _ => False end.
Proof.
  destruct (result _ _ _ _ _) as [b'|] eqn:E; [|vm_compute in E; discriminate].
  apply (proj2 (relay_replies _ _ _ ex_run) _ _ _ _ _ E). vm_compute. left. discriminate.
Defined.

Lemma relay_order_witness : queue_of ex_b3 ex_channel = ["r1"%string] ++ queue_of ex_b4 ex_channel.
Proof.
  apply (proj2 (relay_order _ _ _ ex_run) ex_channel None ["r1"%string] ex_b4). vm_compute. reflexivity.
Defined.
