(* ===== verification/WorkerBridge.v ===== *)
(** The agent of a worker that the controller cannot reach ([weave/worker.py], [Bridge]): it
    polls the relay of its channel, forwards each request to a server of its machine, and
    sends the responses back in batches until the controller has acknowledged them. [world]
    composes it with [Relay]: messages may be lost, repeated and late, and the agent may end
    and start again at any moment. *)

From S2P Require Import Prelude.
From S2P Require Import OrderedDict.
From S2P Require Import Values.
From S2P Require Import Json.
From S2P Require Import Wire.
From S2P Require Import Relay.

#[local] Open Scope Z_scope.

(** * State *)

(** What [execute] waits for: to be scheduled; the answer of a server; the end of a connection
    that is closed, with the ports the loop has not looked at; without batches, the controller. *)
Inductive phase :=
  | Arrived
  | Calling (link : nat)
  | Closing (ports : list Z) (link : nat) (response : value)
  | Reporting (response : value).

Record task := Task { tk_request : request; tk_phase : phase }.

Record reply := Reply { rp_identity : string; rp_response : value }.

(** A link is the object [dict(connection, active)], known by a number: the tasks that use it
    hold it, and [br_links] leads to it from its port. [br_batch] is what the sender tries to
    deliver. *)
Record bridge := Bridge {
  br_links : list (Z * nat); br_active : gmap nat Z; br_closed : gset nat;
  br_tasks : gmap nat task; br_fresh : nat;
  br_responses : list (reply * Z); br_batch : option (list reply); br_carry : option (reply * Z) }.

#[export] Instance bridge_updatable : Updatable bridge := λ s,
  Bridge (br_links s) (br_active s) (br_closed s) (br_tasks s) (br_fresh s) (br_responses s) (br_batch s) (br_carry s).

Definition new_bridge : bridge := Bridge [] ∅ ∅ ∅ 0 [] None None.

(** * Responses *)

(** What the call to a server of the machine came to, or for [vnc_stream] the bridge to its
    stream: a value, or [type(error).__name__], its text and the attributes that are copied *)
Inductive outcome :=
  | Returned (v : value)
  | Raised (kind message : string) (operation sandbox phase : value).

Definition outcome_response (o : outcome) : value :=
  match o with
  | Returned v => Dict [("result", v)]%string
  | Raised kind message operation sandbox phase =>
      Dict [("error", Dict [("kind", Text kind); ("message", Text message);
        ("operation_id", operation); ("sandbox_id", sandbox); ("phase", phase)])]%string
  end.

Definition refused : value := outcome_response (Raised "PermissionError" "worker channel cannot forward to another machine" Null Null Null).

Definition reply_value (r : reply) : value := Dict [("identity", Text (rp_identity r)); ("response", rp_response r)]%string.

Definition rpc (operation : string) (parameters : list (string * value)) : res bytes :=
  encode (Dict [("op", Text operation); ("params", Dict parameters)])%string false.

Definition MAX_LINKS : nat := 4.
Definition BATCH : nat := 64.
Definition BATCH_BYTES : Z := 8 * 1024 ^ 2.

(** [while len(batch) < 64 and not responses.empty()]: the batch, what did not fit, the rest *)
Fixpoint fill_batch (room : nat) (size : Z) (queue : list (reply * Z)) : list reply * option (reply * Z) * list (reply * Z) :=
  match room, queue with
  | S room, (item, length) :: queue =>
      if BATCH_BYTES <? size + length then ([], Some (item, length), queue)
      else let '(batch, carry, queue) := fill_batch room (size + length) queue in (item :: batch, carry, queue)
  | _, _ => ([], None, queue)
  end.

Section WorkerBridge.
(** [batch_results] is what the controller's first [ping] said; [host_of] and [port_of] are the
    rest of the endpoint of a request. *)
Variables (hostname channel : string) (batch_results : bool) (host_of : request → string) (port_of : request → Z).

(** * Requests *)

(** The requests of one poll *)
Definition arrive_one (s : bridge) (r : request) : bridge :=
  s <| br_tasks := <[br_fresh s := Task r Arrived]> (br_tasks s) |> <| br_fresh := S (br_fresh s) |>.

Definition arrive (s : bridge) (l : list request) : bridge := foldl arrive_one s l.

(** [for port in list(links)], up to the first connection that is closed *)
Fixpoint evict (ports : list Z) (s : bridge) : res (bridge * option (list Z * nat)) :=
  match ports with
  | [] => Ok (s, None)
  | port :: ports =>
      if (length (br_links s) <=? MAX_LINKS)%nat then Ok (s, None)
      else
        match od_get port (br_links s) with
        | None => raise KeyError ""
        | Some link =>
            if bool_decide (br_active s !! link = Some 0)
            then Ok (s <| br_links := od_del port (br_links s) |> <| br_closed := {[link]} ∪ br_closed s |>, Some (ports, link))
            else evict ports s
        end
  end.

(** The end of [execute] *)
Definition report (t : nat) (r : request) (response : value) (s : bridge) : bridge :=
  if batch_results then
    match encode response false with
    | Ok data => s <| br_responses := br_responses s ++ [(Reply (q_id r) response, Z.of_nat (length data))] |> <| br_tasks := delete t (br_tasks s) |>
    | Err _ => s <| br_tasks := delete t (br_tasks s) |>
    end
  else s <| br_tasks := <[t := Task r (Reporting response)]> (br_tasks s) |>.

(** The loop of [finally] and what follows; an exception ends the task. *)
Definition finally (t : nat) (r : request) (response : value) (ports : list Z) (s : bridge) : bridge :=
  match evict ports s with
  | Err _ => s <| br_tasks := delete t (br_tasks s) |>
  | Ok (s, Some (ports, link)) => s <| br_tasks := <[t := Task r (Closing ports link response)]> (br_tasks s) |>
  | Ok (s, None) => report t r response s
  end.

(** [if port not in links]; making the object of a connection does not fail. *)
Definition open_link (port : Z) (s : bridge) : bridge :=
  if bool_decide (port ∈ keys (br_links s)) then s
  else s <| br_links := br_links s ++ [(port, br_fresh s)] |> <| br_active := <[br_fresh s := 0]> (br_active s) |> <| br_fresh := S (br_fresh s) |>.

Definition count_link (link : nat) (n : Z) (s : bridge) : bridge :=
  s <| br_active := <[link := default 0 (br_active s !! link) + n]> (br_active s) |>.

Definition allowed (r : request) : bool := bool_decide (host_of r = hostname) && bool_decide (q_channel r = channel).

Definition start_task (t : nat) (s : bridge) : option bridge :=
  match br_tasks s !! t with
  | Some (Task r Arrived) =>
      if negb (allowed r) then Some (finally t r refused (keys (br_links s)) s)
      else
        let s := open_link (port_of r) s in
        link ← od_get (port_of r) (br_links s);
        Some (count_link link 1 s <| br_links := od_to_end (port_of r) (br_links s) |>
          <| br_tasks := <[t := Task r (Calling link)]> (br_tasks s) |>)
  | _ => None
  end.

Definition task_answered (t : nat) (o : outcome) (s : bridge) : option bridge :=
  match br_tasks s !! t with
  | Some (Task r (Calling link)) => Some (let s := count_link link (-1) s in finally t r (outcome_response o) (keys (br_links s)) s)
  | _ => None
  end.

Definition task_closed (t : nat) (s : bridge) : option bridge :=
  match br_tasks s !! t with
  | Some (Task r (Closing ports link response)) => Some (finally t r response ports s)
  | _ => None
  end.

(** * Sending *)

(** [carry or await responses.get()] and the batch it begins *)
Definition next_batch (s : bridge) : option bridge :=
  if br_batch s then None
  else
    match match br_carry s with Some first => Some (first, br_responses s)
          | None => match br_responses s with first :: queue => Some (first, queue) | [] => None end end with
    | Some ((first, size), queue) =>
        let '(batch, carry, queue) := fill_batch (BATCH - 1) size queue in
        Some (s <| br_batch := Some (first :: batch) |> <| br_carry := carry |> <| br_responses := queue |>)
    | None => None
    end.

(** The message of what is to be delivered *)
Definition batch_message (batch : list reply) : res bytes :=
  rpc "relay_results" [("channel", Text channel); ("responses", Items false (map reply_value batch))]%string.

Definition single_message (r : reply) : res bytes :=
  rpc "relay_result" [("channel", Text channel); ("identity", Text (rp_identity r)); ("response", rp_response r)]%string.

Definition message_ok (batch : list reply) : bool :=
  if batch_results then is_ok (batch_message batch)
  else match batch with [r] => is_ok (single_message r) | _ => false end.

(** What the agent is trying to deliver: the batch, or the response of a task *)
Definition sending (s : bridge) (batch : list reply) : Prop :=
  br_batch s = Some batch ∨ ∃ t r response, br_tasks s !! t = Some (Task r (Reporting response)) ∧ batch = [Reply (q_id r) response].

(** What the controller does with a message *)
Definition controller_takes (b : broker) (batch : list reply) (now : Z) : res broker :=
  if batch_results then results b channel (Items false (map reply_value batch)) now
  else match batch with [r] => result b channel (rp_identity r) (rp_response r) now | _ => raise TypeError "" end.

(** * With the relay *)

(** [w_sent] are the messages that were ever sent, [w_done] those the controller has taken. *)
Record world := World {
  w_broker : broker; w_used : gset string; w_bridge : bridge; w_sent : list (list reply); w_done : list (list reply) }.

#[export] Instance world_updatable : Updatable world := λ w,
  World (w_broker w) (w_used w) (w_bridge w) (w_sent w) (w_done w).

Inductive event :=
  | AtRelay (l : label)
  | Came (l : list request)
  | Called (r : request)
  | Produced (r : request) (response : value)
  | Dropped (r : request)
  | Restarted.

(** Others on the relay neither poll nor answer on this channel, whose secret they lack. *)
Definition by_others (l : label) : bool :=
  match l with
  | Handed ch _ | Replied ch _ _ => negb (bool_decide (ch = channel))
  | _ => true
  end.

Definition requests_of (b : broker) (ids : list string) : list request := omap (λ i, it_request <$> od_get i (b_pending b)) ids.

(** [finally] ends without a response. *)
Definition drops (response : value) (ports : list Z) (s : bridge) : bool :=
  match evict ports s with
  | Err _ => true
  | Ok (_, Some _) => false
  | Ok (_, None) => batch_results && negb (is_ok (encode response false))
  end.

Definition drop_event (r : request) (response : value) (ports : list Z) (s : bridge) : list event :=
  if drops response ports s then [Dropped r] else [].

Inductive wstep (w : world) : list event → world → Prop :=
  | ws_relay l b used : step (w_broker w, w_used w) l (b, used) → by_others l = true →
      wstep w [AtRelay l] (w <| w_broker := b |> <| w_used := used |>)
  | ws_poll limit ids b delivered : poll (w_broker w) channel limit = Ok (Some ids, b) →
      let l := if delivered : bool then requests_of (w_broker w) ids else [] in
      wstep w [AtRelay (Handed channel ids); Came l] (w <| w_broker := b |> <| w_bridge := arrive (w_bridge w) l |>)
  | ws_start t r s : br_tasks (w_bridge w) !! t = Some (Task r Arrived) → start_task t (w_bridge w) = Some s →
      wstep w (if allowed r then [Called r] else Produced r refused :: drop_event r refused (keys (br_links (w_bridge w))) (w_bridge w))
        (w <| w_bridge := s |>)
  | ws_answered t r link o s : br_tasks (w_bridge w) !! t = Some (Task r (Calling link)) → task_answered t o (w_bridge w) = Some s →
      wstep w (Produced r (outcome_response o) ::
          drop_event r (outcome_response o) (keys (br_links (w_bridge w))) (count_link link (-1) (w_bridge w)))
        (w <| w_bridge := s |>)
  | ws_closed t r ports link response s : br_tasks (w_bridge w) !! t = Some (Task r (Closing ports link response)) →
      task_closed t (w_bridge w) = Some s →
      wstep w (drop_event r response ports (w_bridge w)) (w <| w_bridge := s |>)
  | ws_next s : next_batch (w_bridge w) = Some s → wstep w [] (w <| w_bridge := s |>)
  | ws_send batch : sending (w_bridge w) batch → message_ok batch = true → wstep w [] (w <| w_sent := batch :: w_sent w |>)
  | ws_take batch now b : batch ∈ w_sent w → controller_takes (w_broker w) batch now = Ok b →
      wstep w (map (λ r, AtRelay (Replied channel (rp_identity r) (rp_response r))) batch)
        (w <| w_broker := b |> <| w_done := batch :: w_done w |>)
  | ws_batch_ack batch : br_batch (w_bridge w) = Some batch → batch ∈ w_done w →
      wstep w [] (w <| w_bridge := (w_bridge w) <| br_batch := None |> |>)
  | ws_single_ack t r response : br_tasks (w_bridge w) !! t = Some (Task r (Reporting response)) →
      [Reply (q_id r) response] ∈ w_done w →
      wstep w [] (w <| w_bridge := (w_bridge w) <| br_tasks := delete t (br_tasks (w_bridge w)) |> |>)
  | ws_restart : wstep w [Restarted] (w <| w_bridge := new_bridge |>).

Inductive wrun : list event → world → Prop :=
  | wrun_start : wrun [] (World broker_init ∅ new_bridge [] [])
  | wrun_step tr w l w' : wrun tr w → wstep w l w' → wrun (tr ++ l) w'.

(** * The relay's side of a run *)

Definition relayed (tr : list event) : list label := omap (λ e, match e with AtRelay l => Some l | _ => None end) tr.
Definition came (tr : list event) : list request := flat_map (λ e, match e with Came l => l | _ => [] end) tr.
Definition called (tr : list event) : list request := omap (λ e, match e with Called r => Some r | _ => None end) tr.
Definition produced (tr : list event) : list (request * value) := omap (λ e, match e with Produced r v => Some (r, v) | _ => None end) tr.

Lemma relayed_app a b : relayed (a ++ b) = relayed a ++ relayed b.
Proof. apply omap_app. Qed.
Lemma came_app a b : came (a ++ b) = came a ++ came b.
Proof. apply flat_map_app. Qed.
Lemma called_app a b : called (a ++ b) = called a ++ called b.
Proof. apply omap_app. Qed.
Lemma produced_app a b : produced (a ++ b) = produced a ++ produced b.
Proof. apply omap_app. Qed.

Lemma reply_of_value r : reply_of (reply_value r) = Some (Text (rp_identity r), rp_response r).
Proof. destruct r. reflexivity. Qed.

Lemma takes_fold b batch now b' : controller_takes b batch now = Ok b' →
  res_fold (λ b r, result b channel (rp_identity r) (rp_response r) now) b batch = Ok b'.
Proof.
  unfold controller_takes. destruct batch_results.
  - unfold results. intros ([] & _ & H)%bind_ok. destruct (negb _); [done|]. destruct (existsb _ _); [done|]. rewrite <- H. clear.
    revert b. induction batch as [|r batch IH]; intros b; cbn [map res_fold]; [done|]. rewrite reply_of_value.
    destruct (result b channel (rp_identity r) (rp_response r) now); [apply IH|done].
  - destruct batch as [|r [|r' batch]]; intros H; simpl; [done| |done]. by rewrite H.
Qed.

Lemma run_replies tr used batch now : ∀ b b', run tr (b, used) →
  res_fold (λ b r, result b channel (rp_identity r) (rp_response r) now) b batch = Ok b' →
  run (tr ++ map (λ r, Replied channel (rp_identity r) (rp_response r)) batch) (b', used).
Proof.
  revert tr. induction batch as [|r batch IH]; intros tr b b' Hr; cbn [res_fold map].
  - intros [= <-]. by rewrite app_nil_r.
  - intros (b1 & H1 & H)%bind_ok. rewrite cons_middle, app_assoc. eapply IH; [|exact H]. econstructor; [done|]. by econstructor.
Qed.

Lemma relayed_replies batch : relayed (map (λ r, AtRelay (Replied channel (rp_identity r) (rp_response r))) batch)
  = map (λ r, Replied channel (rp_identity r) (rp_response r)) batch.
Proof. unfold relayed. induction batch as [|r batch IH]; [done|]. simpl. f_equal. exact IH. Qed.

(** [fill_batch] moves the queue into the batch. *)
Lemma fill_batch_spec room size queue : ∀ batch carry rest, fill_batch room size queue = (batch, carry, rest) →
  queue.*1 = batch ++ from_option (λ c, [c.1]) [] carry ++ rest.*1 ∧ (length batch ≤ room)%nat.
Proof.
  revert size queue. induction room as [|room IH]; intros size queue batch carry rest; simpl.
  { intros [= <- <- <-]. split; [done|simpl; lia]. }
  destruct queue as [|[item n] queue]; [intros [= <- <- <-]; split; [done|simpl; lia]|].
  destruct (_ <? _); [intros [= <- <- <-]; split; [done|simpl; lia]|].
  destruct (fill_batch room (size + n) queue) as [[batch' carry'] rest'] eqn:E. intros [= <- <- <-].
  apply IH in E as [E1 E2]. split; [by rewrite fmap_cons, E1|simpl; lia].
Qed.

(** The replies that wait to be delivered by the sender, in order *)
Definition waiting (s : bridge) : list reply :=
  default [] (br_batch s) ++ from_option (λ c, [c.1]) [] (br_carry s) ++ (br_responses s).*1.

Lemma next_batch_spec s s' : next_batch s = Some s' →
  br_batch s = None ∧ waiting s' = waiting s ∧ br_tasks s' = br_tasks s ∧ br_links s' = br_links s ∧ br_active s' = br_active s ∧
  br_closed s' = br_closed s ∧ br_fresh s' = br_fresh s ∧
  ∃ batch, br_batch s' = Some batch ∧ (1 ≤ length batch ≤ BATCH)%nat.
Proof.
  unfold next_batch, waiting. destruct (br_batch s) eqn:Eb; [done|].
  match goal with |- match ?m with _ => _ end = _ → _ => destruct m as [[[first size] queue]|] eqn:E; [|done] end.
  destruct (fill_batch (BATCH - 1) size queue) as [[batch carry] rest] eqn:Ef. apply fill_batch_spec in Ef as [Ef Hl].
  intros [= <-]. split; [done|]. split.
  - simpl. rewrite <- Ef. destruct (br_carry s) as [c|]; [injection E as -> ->; done|].
    destruct (br_responses s) as [|c q]; [done|]. by injection E as -> ->.
  - repeat (split; [done|]). exists (first :: batch). split; [done|]. unfold BATCH in *. simpl. lia.
Qed.

(** How [finally] ends *)
Lemma evict_same ports : ∀ s s' o, evict ports s = Ok (s', o) →
  br_tasks s' = br_tasks s ∧ br_active s' = br_active s ∧ br_fresh s' = br_fresh s ∧ waiting s' = waiting s ∧ br_batch s' = br_batch s ∧ br_responses s' = br_responses s ∧ br_carry s' = br_carry s ∧
  match o with
  | None => br_links s' = br_links s ∧ br_closed s' = br_closed s
  | Some (_, link) => ∃ port, od_get port (br_links s) = Some link ∧ br_active s !! link = Some 0 ∧
      br_links s' = od_del port (br_links s) ∧ br_closed s' = {[link]} ∪ br_closed s
  end.
Proof.
  induction ports as [|port ports IH]; intros s s' o; cbn [evict]; [intros [= <- <-]; by repeat split|].
  destruct (_ <=? _)%nat; [intros [= <- <-]; by repeat split|].
  destruct (od_get port (br_links s)) as [link|] eqn:El; [|done]. case_bool_decide as Ea; [|apply IH].
  intros [= <- <-]. repeat (split; [done|]). by exists port.
Qed.

Definition carries (p : phase) (response : value) : Prop :=
  match p with Closing _ _ v => v = response | Reporting v => v = response ∧ batch_results = false | _ => False end.

Lemma finally_cases t r response ports s : let s' := finally t r response ports s in
  br_fresh s' = br_fresh s ∧ br_batch s' = br_batch s ∧ br_carry s' = br_carry s ∧ br_active s' = br_active s ∧
  ((∃ p, br_tasks s' = <[t := Task r p]> (br_tasks s) ∧ br_responses s' = br_responses s ∧ carries p response) ∨
   (br_tasks s' = delete t (br_tasks s) ∧
    ((br_responses s' = br_responses s ∧ drops response ports s = true) ∨
     (batch_results = true ∧ ∃ size, br_responses s' = br_responses s ++ [(Reply (q_id r) response, size)])))).
Proof.
  unfold finally, drops. destruct (evict ports s) as [[s1 [[ports' link]|]]|e] eqn:E.
  - apply evict_same in E as (E1 & E2 & E3 & E4 & E5 & E6 & E7 & _). cbn. rewrite E1, E2, E3, E5, E6, E7.
    repeat (split; [done|]). left. by eexists.
  - apply evict_same in E as (E1 & E2 & E3 & E4 & E5 & E6 & E7 & _). unfold report. destruct batch_results eqn:Eb; simpl.
    + destruct (encode response false) as [data|] eqn:Ee; simpl; rewrite E1, E2, E3, E5, E6, E7; repeat (split; [done|]); right; (split; [done|]).
      * right. split; [done|]. by eexists.
      * by left.
    + rewrite E1, E2, E3, E5, E6, E7. repeat (split; [done|]). left. by exists (Reporting response).
  - simpl. repeat (split; [done|]). right. split; [done|]. by left.
Qed.

(** * What the tasks and replies stand for *)

Definition produced_ids (pr : list (request * value)) : list string := map (λ x, q_id x.1) pr.

Definition phase_ok (cl : list request) (pr : list (request * value)) (r : request) (p : phase) : Prop :=
  match p with
  | Arrived => q_id r ∉ map q_id cl ∧ q_id r ∉ produced_ids pr
  | Calling _ => r ∈ cl ∧ q_id r ∉ produced_ids pr
  | Closing _ _ v | Reporting v => (r, v) ∈ pr
  end.

(** A reply is one of the responses. *)
Definition answers (pr : list (request * value)) (x : reply) : Prop := ∃ r, q_id r = rp_identity x ∧ (r, rp_response x) ∈ pr.

(** The bridge after the requests [cm] came, the calls [cl] were made and the responses [pr] produced *)
Record tinv (cm cl : list request) (pr : list (request * value)) (s : bridge) : Prop := Tinv {
  ti_came : NoDup (map q_id cm);
  ti_task : ∀ t r p, br_tasks s !! t = Some (Task r p) → (t < br_fresh s)%nat ∧ r ∈ cm ∧ phase_ok cl pr r p;
  ti_distinct : ∀ t t' r r' p p', br_tasks s !! t = Some (Task r p) → br_tasks s !! t' = Some (Task r' p') → q_id r = q_id r' → t = t';
  ti_called : NoDup (map q_id cl) ∧ ∀ r, r ∈ cl → r ∈ cm ∧ allowed r = true;
  ti_produced : NoDup (produced_ids pr) ∧ ∀ r v, (r, v) ∈ pr → r ∈ cm ∧ (r ∈ cl ∨ v = refused);
  ti_replies : ∀ x, x ∈ waiting s → answers pr x }.

Lemma elem_of_ids r cm : r ∈ cm → q_id r ∈ map q_id cm.
Proof. intros H. apply list_elem_of_fmap. by exists r. Qed.

Lemma elem_of_produced_ids r v pr : (r, v) ∈ pr → q_id r ∈ produced_ids pr.
Proof. intros H. apply list_elem_of_fmap. by exists (r, v). Qed.

Lemma produced_ids_app a b : produced_ids (a ++ b) = produced_ids a ++ produced_ids b.
Proof. apply map_app. Qed.

Lemma answers_mono pr pr' x : answers pr x → answers (pr ++ pr') x.
Proof. intros (r & H1 & H2). exists r. split; [done|]. apply elem_of_app. by left. Qed.

Lemma tinv_arrive_one cm cl pr s r : tinv cm cl pr s → NoDup (map q_id (cm ++ [r])) → tinv (cm ++ [r]) cl pr (arrive_one s r).
Proof.
  intros [H1 H2 H3 H4 H5 H6] Hnd. rewrite map_app in Hnd. simpl in Hnd. pose proof Hnd as (_ & Hd & _)%NoDup_app.
  assert (Hnew : ∀ r', r' ∈ cm → q_id r' ≠ q_id r) by (intros r' Hr' He; apply (Hd (q_id r')); [by apply elem_of_ids|rewrite He; by left]).
  assert (Hl : br_tasks s !! br_fresh s = None).
  { destruct (br_tasks s !! br_fresh s) as [[r' p']|] eqn:E; [|done]. apply H2 in E as [E _]. lia. }
  split; simpl.
  - by rewrite map_app.
  - intros t r' p [[<- [= <- <-]]|[Hne E]]%lookup_insert_Some.
    + split; [lia|]. split; [apply elem_of_app; right; by left|]. simpl. split.
      * intros (r' & He & (Hr' & _)%H4)%list_elem_of_fmap. symmetry in He. by apply Hnew in He.
      * intros ([r' v] & He & (Hr' & _)%H5)%list_elem_of_fmap. symmetry in He. by apply Hnew in He.
    + apply H2 in E as (E1 & E2 & E3). split; [lia|]. split; [apply elem_of_app; by left|done].
  - intros t t' r1 r2 p p' [[<- [= <- <-]]|[Hne E]]%lookup_insert_Some [[<- [= <- <-]]|[Hne' E']]%lookup_insert_Some He; [done| | |by eapply H3].
    + apply H2 in E' as (_ & E' & _). by destruct (Hnew _ E').
    + apply H2 in E as (_ & E & _). by destruct (Hnew _ E).
  - destruct H4 as [H4 H4']. split; [done|]. intros r' (? & ?)%H4'. split; [apply elem_of_app; by left|done].
  - destruct H5 as [H5 H5']. split; [done|]. intros r' v (? & ?)%H5'. split; [apply elem_of_app; by left|done].
  - exact H6.
Qed.

Lemma tinv_arrive l : ∀ cm cl pr s, tinv cm cl pr s → NoDup (map q_id (cm ++ l)) → tinv (cm ++ l) cl pr (arrive s l).
Proof.
  unfold arrive. induction l as [|r l IH]; intros cm cl pr s H Hnd; simpl; [by rewrite app_nil_r|].
  rewrite cons_middle, app_assoc in Hnd |- *. apply IH; [|done]. apply tinv_arrive_one; [done|].
  rewrite map_app in Hnd. by apply NoDup_app in Hnd as [? _].
Qed.

(** The call of a task is made, or its response produced: the other tasks are not concerned. *)
Lemma tinv_step cm cl pr s s' t r p0 cl' pr' : tinv cm cl pr s → br_tasks s !! t = Some (Task r p0) →
  (cl' = [] ∨ cl' = [r] ∧ allowed r = true ∧ p0 = Arrived) → (pr' = [] ∨ ∃ v, pr' = [(r, v)] ∧ (r ∈ cl ∨ v = refused) ∧ match p0 with Arrived | Calling _ => True | _ => False end) →
  (br_fresh s ≤ br_fresh s')%nat → (∀ x, x ∈ waiting s' → x ∈ waiting s ∨ answers (pr ++ pr') x) →
  (br_tasks s' = delete t (br_tasks s) ∨ ∃ p, br_tasks s' = <[t := Task r p]> (br_tasks s) ∧ phase_ok (cl ++ cl') (pr ++ pr') r p) →
  tinv cm (cl ++ cl') (pr ++ pr') s'.
Proof.
  intros [H1 H2 H3 [H4 H4'] [H5 H5'] H6] Ht Hcl Hpr Hf Hw Htasks. destruct (H2 _ _ _ Ht) as (Hfr & Hcm & Hp0).
  assert (Hold : ∀ t' r' p', br_tasks s' !! t' = Some (Task r' p') → (t' = t ∧ r' = r ∧ phase_ok (cl ++ cl') (pr ++ pr') r p') ∨ (t' ≠ t ∧ br_tasks s !! t' = Some (Task r' p'))).
  { intros t' r' p' E. destruct Htasks as [Hd|(p & Hi & Hp)].
    - rewrite Hd in E. apply lookup_delete_Some in E as [? ?]. by right.
    - rewrite Hi in E. apply lookup_insert_Some in E as [[<- [= <- <-]]|[? ?]]; [by left|by right]. }
  assert (Hids : ∀ x, x ∈ map q_id cl' ∨ x ∈ produced_ids pr' → x = q_id r).
  { intros x [Hx|Hx].
    - destruct Hcl as [->|(-> & _)]; [by apply elem_of_nil in Hx|by apply list_elem_of_singleton in Hx].
    - destruct Hpr as [->|(v & -> & _)]; [by apply elem_of_nil in Hx|by apply list_elem_of_singleton in Hx]. }
  split.
  - done.
  - intros t' r' p' [(-> & -> & Hp)|[Hne E]]%Hold; [split; [lia|done]|]. pose proof (H2 _ _ _ E) as (E1 & E2 & E3).
    split; [lia|]. split; [done|]. assert (Hdiff : q_id r' ≠ q_id r) by (intros He; apply Hne; by eapply H3).
    destruct p' as [|link| |]; simpl in *.
    + rewrite map_app, produced_ids_app, !elem_of_app. naive_solver.
    + rewrite produced_ids_app, !elem_of_app. naive_solver.
    + apply elem_of_app. by left.
    + apply elem_of_app. by left.
  - intros t1 t2 r1 r2 p1 p2 [(-> & -> & _)|[Hn1 E1]]%Hold [(-> & -> & _)|[Hn2 E2]]%Hold He; [done|by eapply H3|by eapply H3|by eapply H3].
  - split.
    + destruct Hcl as [->|(-> & _ & ->)]; [by rewrite app_nil_r|]. rewrite map_app. apply NoDup_app. split; [done|]. simpl.
      split; [|apply NoDup_singleton]. destruct Hp0 as [Hp0 _]. by intros x Hx ->%list_elem_of_singleton.
    + intros r' [Hr|Hr]%elem_of_app; [by apply H4'|]. destruct Hcl as [->|(-> & Ha & _)]; [by apply elem_of_nil in Hr|].
      by apply list_elem_of_singleton in Hr as ->.
  - split.
    + destruct Hpr as [->|(v & -> & _ & Hp)]; [by rewrite app_nil_r|]. rewrite produced_ids_app. apply NoDup_app. split; [done|]. simpl.
      split; [|apply NoDup_singleton]. intros x Hx ->%list_elem_of_singleton. destruct p0; try done; by destruct Hp0.
    + intros r' v' [Hr|Hr]%elem_of_app; [apply H5' in Hr as [? [?|?]]; (split; [done|]); [left; apply elem_of_app; by left|by right]|].
      destruct Hpr as [->|(v & -> & Hv & _)]; [by apply elem_of_nil in Hr|].
      apply list_elem_of_singleton in Hr as [= -> ->]. split; [done|]. destruct Hv; [left; apply elem_of_app; by left|by right].
  - intros x [Hx|Hx]%Hw; [by apply answers_mono, H6|done].
Qed.

Lemma waiting_finally t r v ports s x : x ∈ waiting (finally t r v ports s) → x ∈ waiting s ∨ x = Reply (q_id r) v.
Proof.
  destruct (finally_cases t r v ports s) as (_ & E1 & E2 & _ & H). unfold waiting. rewrite E1, E2.
  destruct H as [(p & _ & -> & _)|(_ & [[-> _]|(_ & size & ->)])]; [by left|by left|].
  rewrite fmap_app, !elem_of_app. cbn [fmap list_fmap fst]. rewrite elem_of_cons, elem_of_nil. tauto.
Qed.

(** A response is produced, if it was not before, and [finally] runs. *)
Lemma tinv_finally cm cl pr s s0 t r p0 v pr' ports : tinv cm cl pr s → br_tasks s !! t = Some (Task r p0) →
  br_tasks s0 = br_tasks s → br_fresh s0 = br_fresh s → waiting s0 = waiting s →
  (pr' = [] ∧ (r, v) ∈ pr ∨ pr' = [(r, v)] ∧ (r ∈ cl ∨ v = refused) ∧ match p0 with Arrived | Calling _ => True | _ => False end) →
  tinv cm cl (pr ++ pr') (finally t r v ports s0).
Proof.
  intros H Ht E1 E2 E3 Hpr. assert (Hin : (r, v) ∈ pr ++ pr').
  { destruct Hpr as [[-> ?]|(-> & _)]; apply elem_of_app; [by left|right; by left]. }
  rewrite <- (app_nil_r cl). destruct (finally_cases t r v ports s0) as (F1 & F2 & F3 & _ & F). eapply tinv_step; [done|done|by left| | | |].
  - destruct Hpr as [[-> _]|(-> & ? & ?)]; [by left|right; by exists v].
  - rewrite F1, E2. done.
  - intros x [Hx| ->]%waiting_finally; [left; by rewrite <- E3|]. right. exists r. done.
  - rewrite E1 in F. destruct F as [(p & -> & _ & Hp)|(-> & _)]; [right|by left]. exists p. split; [done|].
    destruct p as [| | |]; try done; simpl in *; [by subst|by destruct Hp as [-> _]].
Qed.

(** * Runs *)

Lemma begun_unique tr b used : run tr (b, used) → (∀ r, Begun r ∈ tr → q_id r ∈ used) ∧
  ∀ r r', Begun r ∈ tr → Begun r' ∈ tr → q_id r = q_id r' → r = r'.
Proof.
  intros Hrun. remember (b, used) as s eqn:Es. revert b used Es. induction Hrun as [|tr s l s' Hrun IH Hstep]; intros b' used' Es.
  { split; [intros r Hr|intros r r' Hr]; by apply elem_of_nil in Hr. }
  destruct s as [b used]. destruct (IH b used eq_refl) as [H1 H2]. subst s'.
  assert (Hl : used' = used ∧ (∀ r, l ≠ Begun r) ∨ ∃ r, l = Begun r ∧ q_id r ∉ used ∧ used' = {[q_id r]} ∪ used)
    by (inversion Hstep; subst; naive_solver).
  assert (Hin : ∀ r, Begun r ∈ tr ++ [l] → Begun r ∈ tr ∨ l = Begun r).
  { intros r. rewrite elem_of_app, list_elem_of_singleton. naive_solver. }
  destruct Hl as [[-> Hl]|(r0 & -> & Hn & ->)].
  - split; [intros r [?|?]%Hin; naive_solver|]. intros r r' [?|?]%Hin [?|?]%Hin; naive_solver.
  - split; [intros r [?%H1|[= ->]]%Hin; set_solver|].
    intros r r' [Hr|[= <-]]%Hin [Hr'|[= <-]]%Hin He; [by apply H2| | |done]; exfalso; apply Hn; [rewrite <- He|rewrite He]; by apply H1.
Qed.

Lemma requests_of_sublist b used ids : inv b used → map q_id (requests_of b ids) `sublist_of` ids.
Proof.
  intros Hinv. unfold requests_of. induction ids as [|i ids IH]; [constructor|]. cbn [omap list_omap].
  destruct (od_get i (b_pending b)) as [it|] eqn:E; cbn [fmap option_fmap option_map]; [|by apply sublist_cons].
  apply (inv_used _ _ Hinv) in E as (_ & <- & _). by apply sublist_skip.
Qed.

Lemma requests_of_begun tr b used ids r : history tr b used → r ∈ requests_of b ids → Begun r ∈ tr.
Proof.
  intros Hh (i & _ & Hi)%list_elem_of_omap. destruct (od_get i (b_pending b)) as [it|] eqn:E; [|done].
  injection Hi as <-. by eapply h_begun.
Qed.

Record winv (tr : list event) (w : world) : Prop := Winv {
  wi_run : run (relayed tr) (w_broker w, w_used w);
  wi_tasks : tinv (came tr) (called tr) (produced tr) (w_bridge w);
  wi_came : map q_id (came tr) `sublist_of` handed (relayed tr);
  wi_begun : ∀ r, r ∈ came tr → Begun r ∈ relayed tr;
  wi_sent : ∀ batch, batch ∈ w_sent w → ∀ x, x ∈ batch → answers (produced tr) x;
  wi_done : ∀ batch, batch ∈ w_done w → ∀ x, x ∈ batch → Replied channel (rp_identity x) (rp_response x) ∈ relayed tr;
  wi_replied : ∀ i v, Replied channel i v ∈ relayed tr → answers (produced tr) (Reply i v) }.

(** A step of the agent that shows nothing at the relay *)
Lemma winv_bridge tr w l s : winv tr w → relayed l = [] → came l = [] →
  tinv (came tr) (called tr ++ called l) (produced tr ++ produced l) s → winv (tr ++ l) (w <| w_bridge := s |>).
Proof.
  intros [H1 H2 H3 H4 H5 H6 H7] Er Ec Ht. split; rewrite ?relayed_app, ?came_app, ?called_app, ?produced_app, ?Er, ?Ec, ?app_nil_r; try done.
  - intros batch Hb x Hx. apply answers_mono. by eapply H5.
  - intros i v Hi. by apply answers_mono, H7.
Qed.

Lemma drop_event_silent r response ports s : let l := drop_event r response ports s in
  relayed l = [] ∧ came l = [] ∧ called l = [] ∧ produced l = [].
Proof. unfold drop_event. by destruct (drops _ _ _). Qed.

Lemma produced_event r response response' ports s : let l := Produced r response :: drop_event r response' ports s in
  relayed l = [] ∧ came l = [] ∧ called l = [] ∧ produced l = [(r, response)].
Proof. unfold drop_event. by destruct (drops _ _ _). Qed.

Lemma winv_relay tr w l b used : winv tr w → step (w_broker w, w_used w) l (b, used) → by_others l = true →
  winv (tr ++ [AtRelay l]) (w <| w_broker := b |> <| w_used := used |>).
Proof.
  intros [H1 H2 H3 H4 H5 H6 H7] Hstep Hl.
  split; rewrite ?relayed_app, ?came_app, ?called_app, ?produced_app; cbn [relayed came called produced omap list_omap flat_map]; rewrite ?app_nil_r; try done.
  - by econstructor.
  - rewrite handed_snoc. by apply sublist_inserts_r.
  - intros r Hr. apply elem_of_app. left. by apply H4.
  - intros batch Hb x Hx. apply elem_of_app. left. by eapply H6.
  - intros i v [Hi|Hi%list_elem_of_singleton]%elem_of_app; [by apply H7|]. subst l. simpl in Hl. by rewrite bool_decide_true in Hl.
Qed.

Lemma winv_poll tr w limit ids b l : winv tr w → poll (w_broker w) channel limit = Ok (Some ids, b) →
  l = [] ∨ l = requests_of (w_broker w) ids →
  winv (tr ++ AtRelay (Handed channel ids) :: [Came l]) (w <| w_broker := b |> <| w_bridge := arrive (w_bridge w) l |>).
Proof.
  intros [H1 H2 H3 H4 H5 H6 H7] Hp Hl. assert (Hrun : run (relayed tr ++ [Handed channel ids]) (b, w_used w)) by (econstructor; [done|by econstructor]).
  pose proof (run_inv _ _ _ H1) as [Hinv Hh]. pose proof (run_inv _ _ _ Hrun) as [_ Hh'].
  assert (Hsub : map q_id (came tr ++ l) `sublist_of` handed (relayed tr ++ [Handed channel ids])).
  { rewrite handed_snoc, map_app. apply sublist_app; [done|]. destruct Hl as [->| ->]; [apply sublist_nil_l|by eapply requests_of_sublist]. }
  split; rewrite ?relayed_app, ?came_app, ?called_app, ?produced_app; cbn [relayed came called produced omap list_omap flat_map]; rewrite ?app_nil_r; try done.
  - apply tinv_arrive; [done|]. eapply sublist_NoDup; [exact (h_once _ _ _ Hh')|exact Hsub].
  - intros r [Hr|Hr]%elem_of_app; apply elem_of_app; left; [by apply H4|]. destruct Hl as [->| ->]; [by apply elem_of_nil in Hr|by eapply requests_of_begun].
  - intros batch Hb x Hx. apply elem_of_app. left. by eapply H6.
  - intros i v [Hi|Hi%list_elem_of_singleton]%elem_of_app; [by apply H7|done].
Qed.

Lemma winv_take tr w batch now b : winv tr w → batch ∈ w_sent w → controller_takes (w_broker w) batch now = Ok b →
  winv (tr ++ map (λ r, AtRelay (Replied channel (rp_identity r) (rp_response r))) batch)
    (w <| w_broker := b |> <| w_done := batch :: w_done w |>).
Proof.
  intros [H1 H2 H3 H4 H5 H6 H7] Hb H%takes_fold.
  assert (Hs : ∀ (l : list reply), came (map (λ r, AtRelay (Replied channel (rp_identity r) (rp_response r))) l) = [] ∧
    called (map (λ r, AtRelay (Replied channel (rp_identity r) (rp_response r))) l) = [] ∧ produced (map (λ r, AtRelay (Replied channel (rp_identity r) (rp_response r))) l) = [] ∧
    handed (map (λ r, Replied channel (rp_identity r) (rp_response r)) l) = []).
  { induction l as [|x l IH]; [done|exact IH]. }
  destruct (Hs batch) as (S1 & S2 & S3 & S4).
  split; rewrite ?relayed_app, ?came_app, ?called_app, ?produced_app, ?relayed_replies, ?S1, ?S2, ?S3, ?app_nil_r; try done.
  - by eapply run_replies.
  - unfold handed. rewrite flat_map_app. fold (handed (relayed tr)) (handed (map (λ r, Replied channel (rp_identity r) (rp_response r)) batch)).
    by rewrite S4, app_nil_r.
  - intros r Hr. apply elem_of_app. left. by apply H4.
  - intros batch' [->|Hb']%elem_of_cons x Hx; apply elem_of_app; [right|left; by eapply H6]. apply list_elem_of_fmap. by exists x.
  - intros i v [Hi|(x & [= -> ->] & Hx)%list_elem_of_fmap]%elem_of_app; [by apply H7|exact (H5 _ Hb x Hx)].
Qed.

Lemma open_link_same port s : let s' := open_link port s in br_tasks s' = br_tasks s ∧ waiting s' = waiting s ∧ (br_fresh s ≤ br_fresh s')%nat.
Proof. unfold open_link. destruct (bool_decide _); [done|]. simpl. split; [done|]. split; [done|lia]. Qed.

Lemma winv_start tr w t r s : winv tr w → br_tasks (w_bridge w) !! t = Some (Task r Arrived) → start_task t (w_bridge w) = Some s →
  winv (tr ++ if allowed r then [Called r] else Produced r refused :: drop_event r refused (keys (br_links (w_bridge w))) (w_bridge w)) (w <| w_bridge := s |>).
Proof.
  intros Hw Ht H. unfold start_task in H. rewrite Ht in H. pose proof (wi_tasks _ _ Hw) as Hti. destruct (allowed r) eqn:Ea; cbn [negb] in H.
  - destruct (open_link_same (port_of r) (w_bridge w)) as (E1 & E2 & E3). set (s1 := open_link (port_of r) (w_bridge w)) in *.
    destruct (od_get (port_of r) (br_links s1)) as [link|] eqn:El; [|done]. injection H as <-.
    apply winv_bridge; [done..|]. cbn [called produced omap list_omap].
    eapply tinv_step; [done|done|right; done|by left|exact E3| |].
    + intros x Hx. left. by rewrite <- E2.
    + right. exists (Calling link). simpl. split; [by rewrite E1|]. rewrite app_nil_r. split; [apply elem_of_app; right; by left|].
      by apply (ti_task _ _ _ _ Hti) in Ht as (_ & _ & _ & ?).
  - injection H as <-. destruct (produced_event r refused refused (keys (br_links (w_bridge w))) (w_bridge w)) as (D1 & D2 & D3 & D4).
    apply winv_bridge; [done|done|done|].
    rewrite D3, D4, app_nil_r. eapply tinv_finally; [done|done|done|done|done|]. right. split; [done|]. split; [by right|done].
Qed.

Lemma winv_step tr w l w' : winv tr w → wstep w l w' → winv (tr ++ l) w'.
Proof.
  intros Hw Hs. pose proof (wi_tasks _ _ Hw) as Hti.
  destruct Hs as [l b used Hst Hl|limit ids b delivered Hp l|t r s Ht H|t r link o s Ht H|t r ports link response s Ht H|s H|batch Hb Hm|batch now b Hb H
    |batch Hb Hd|t r response Ht Hd|].
  - by apply winv_relay.
  - eapply winv_poll; [done|exact Hp|]. unfold l. destruct delivered; [by right|by left].
  - by eapply winv_start.
  - unfold task_answered in H. rewrite Ht in H. injection H as <-.
    destruct (produced_event r (outcome_response o) (outcome_response o) (keys (br_links (w_bridge w))) (count_link link (-1) (w_bridge w))) as (D1 & D2 & D3 & D4).
    apply winv_bridge; [done|done|done|]. rewrite D3, D4, app_nil_r.
    eapply tinv_finally; [done|done|done|done|done|]. right. split; [done|]. split; [|done]. left.
    by apply (ti_task _ _ _ _ Hti) in Ht as (_ & _ & ? & _).
  - unfold task_closed in H. rewrite Ht in H. injection H as <-. destruct (drop_event_silent r response ports (w_bridge w)) as (D1 & D2 & D3 & D4).
    apply winv_bridge; [done|done|done|]. rewrite D3, D4, app_nil_r. eapply tinv_finally; [done|done|done|done|done|]. left. split; [done|].
    by apply (ti_task _ _ _ _ Hti) in Ht as (_ & _ & ?).
  - apply winv_bridge; [done|done|done|]. cbn [called produced omap list_omap]. rewrite !app_nil_r.
    apply next_batch_spec in H as (_ & E1 & E2 & _ & _ & _ & E3 & _). destruct Hti as [T1 T2 T3 T4 T5 T6].
    split; rewrite ?E1, ?E2, ?E3; done.
  - rewrite app_nil_r. destruct Hw as [H1 H2 H3 H4 H5 H6 H7]. split; try done. intros batch' [->|Hb']%elem_of_cons x Hx; [|by eapply H5].
    destruct Hb as [Hb|(t & r & response & Ht & ->)].
    + apply (ti_replies _ _ _ _ Hti). unfold waiting. rewrite Hb. apply elem_of_app. by left.
    + apply list_elem_of_singleton in Hx as ->. apply (ti_task _ _ _ _ Hti) in Ht as (_ & _ & ?). by exists r.
  - by eapply winv_take.
  - apply winv_bridge; [done|done|done|]. cbn [called produced omap list_omap]. rewrite !app_nil_r. destruct Hti as [T1 T2 T3 T4 T5 T6].
    split; try done. intros x Hx. apply T6. unfold waiting in *. simpl in Hx. apply elem_of_app. by right.
  - apply winv_bridge; [done|done|done|].
    eapply tinv_step; [done|exact Ht|by left|by left|done|intros x Hx; by left|by left].
  - apply winv_bridge; [done|done|done|]. cbn [called produced omap list_omap]. rewrite !app_nil_r. destruct Hti as [T1 T2 T3 T4 T5 T6].
    split; try done. intros x Hx. by apply elem_of_nil in Hx.
Qed.

Lemma winv_run tr w : wrun tr w → winv tr w.
Proof.
  induction 1 as [|tr w l w' _ IH Hs]; [|by eapply winv_step].
  assert (Hti : tinv [] [] [] new_bridge).
  { split; [apply NoDup_nil_2|intros t r p H; exact (False_ind _ (lookup_empty_Some (M := gmap nat) t _ H))|intros t t' r r' p p' H; exact (False_ind _ (lookup_empty_Some (M := gmap nat) t _ H))|..].
    - split; [apply NoDup_nil_2|]. intros r Hr. by apply elem_of_nil in Hr.
    - split; [apply NoDup_nil_2|]. intros r v Hr. by apply elem_of_nil in Hr.
    - intros x Hx. by apply elem_of_nil in Hx. }
  split; [constructor|exact Hti|constructor|intros r Hr|intros x Hx|intros x Hx|intros i v Hi]; exfalso; by eapply elem_of_nil.
Qed.

(** C14: a relayed call runs at most once, whatever messages are lost, repeated or late and
    however often the agent starts again: the calls that the agent makes have different
    identities, were begun at the relay for this channel and this machine; each has at most one
    response; and what the relay holds as the response of a call is the notice that the worker
    was lost, or the response that was produced for this very request, by its call or because
    the request was refused. *)
Theorem forwarded_once tr w : wrun tr w →
  NoDup (map q_id (called tr)) ∧ NoDup (produced_ids (produced tr)) ∧
  (∀ r, r ∈ called tr → Begun r ∈ relayed tr ∧ q_channel r = channel ∧ host_of r = hostname) ∧
  (∀ r v, (r, v) ∈ produced tr → r ∈ called tr ∨ v = refused) ∧
  (∀ i it v, od_get i (b_pending (w_broker w)) = Some it → it_response it = Some v → q_channel (it_request it) = channel →
     v = lost_response ∨ (it_request it, v) ∈ produced tr).
Proof.
  intros [H1 [T1 T2 T3 [T4 T4'] [T5 T5'] T6] H3 H4 H5 H6 H7]%winv_run. repeat (split; [done|]). split; [|split].
  - intros r [Hc Ha]%T4'. unfold allowed in Ha. apply andb_true_iff in Ha as [?%bool_decide_eq_true ?%bool_decide_eq_true]. auto.
  - intros r v Hr. by apply T5' in Hr as [_ ?].
  - intros i it v Hi Hv Hch. destruct (run_inv _ _ _ H1) as [Hinv Hh]. destruct (h_reply _ _ _ Hh i it v Hi Hv) as [?|Hrep]; [by left|right].
    rewrite Hch in Hrep. apply H7 in Hrep as (r & Hr & Hin). simpl in *.
    assert (r = it_request it) as <-; [|done]. eapply (proj2 (begun_unique _ _ _ H1)).
    + apply H4. by apply T5' in Hin as [? _].
    + by eapply h_begun.
    + apply (inv_used _ _ Hinv) in Hi as (_ & -> & _). done.
Qed.

(** * Nothing is lost while the agent runs *)

(** What came since the agent started *)
Definition came_now (tr : list event) : list request :=
  foldl (λ l e, match e with Came l' => l ++ l' | Restarted => [] | _ => l end) [] tr.

Definition quiet (e : event) : Prop := match e with Came _ | Restarted => False | _ => True end.

Lemma came_now_quiet tr l : Forall quiet l → came_now (tr ++ l) = came_now tr.
Proof.
  unfold came_now. rewrite foldl_app. generalize (foldl (λ l e, match e with Came l' => l ++ l' | Restarted => [] | _ => l end) [] tr).
  intros acc H. revert acc. induction H as [|e l He _ IH]; intros acc; simpl; [done|]. rewrite IH. by destruct e.
Qed.

Definition kept (tr : list event) (s : bridge) (r : request) : Prop :=
  (∃ t p, br_tasks s !! t = Some (Task r p)) ∨ Dropped r ∈ tr ∨
  ∃ v, (r, v) ∈ produced tr ∧ (Reply (q_id r) v ∈ waiting s ∨ Replied channel (q_id r) v ∈ relayed tr).

Lemma kept_mono tr l s s' r : (∀ t p, br_tasks s !! t = Some (Task r p) → ∃ t p, br_tasks s' !! t = Some (Task r p)) →
  (∀ v, Reply (q_id r) v ∈ waiting s → Reply (q_id r) v ∈ waiting s' ∨ Replied channel (q_id r) v ∈ relayed tr) →
  kept tr s r → kept (tr ++ l) s' r.
Proof.
  intros Ht Hw [(t & p & H)|[H|(v & Hv & H)]].
  - left. by eapply Ht.
  - right. left. apply elem_of_app. by left.
  - right. right. exists v. rewrite produced_app, relayed_app, !elem_of_app. split; [by left|].
    destruct H as [H|H]; [apply Hw in H as [?|?]; [by left|by right; left]|by right; left].
Qed.

Lemma waiting_finally_mono t r v ports s x : x ∈ waiting s → x ∈ waiting (finally t r v ports s).
Proof.
  destruct (finally_cases t r v ports s) as (_ & E1 & E2 & _ & H). unfold waiting. rewrite E1, E2.
  destruct H as [(p & _ & -> & _)|(_ & [[-> _]|(_ & size & ->)])]; [done|done|].
  rewrite fmap_app, !elem_of_app. tauto.
Qed.

Lemma kept_finally tr l s s0 t r p0 v ports r' : br_tasks s !! t = Some (Task r p0) → (r, v) ∈ produced (tr ++ l) →
  (drops v ports s0 = true → Dropped r ∈ l) → br_tasks s0 = br_tasks s → waiting s0 = waiting s →
  kept tr s r' → kept (tr ++ l) (finally t r v ports s0) r'.
Proof.
  intros Ht Hv Hdrop E1 E2 Hk. destruct (finally_cases t r v ports s0) as (_ & F1 & F2 & _ & F). rewrite E1 in F.
  destruct Hk as [(t' & p' & H)|[H|(v' & Hv' & H)]].
  - destruct (decide (t' = t)) as [->|Hne].
    + rewrite Ht in H. injection H as <- <-. destruct F as [(p & Ft & _)|(_ & [(_ & Hd)|(_ & size & Fr)])].
      * left. exists t, p. rewrite Ft. apply lookup_insert_eq.
      * right. left. apply elem_of_app. right. by apply Hdrop.
      * right. right. exists v. split; [done|]. left. unfold waiting. rewrite F1, F2, Fr, fmap_app, !elem_of_app. do 3 right. by left.
    + left. exists t', p'. destruct F as [(p & -> & _)|(-> & _)]; [by rewrite lookup_insert_ne|by rewrite lookup_delete_ne].
  - right. left. apply elem_of_app. by left.
  - right. right. exists v'. rewrite produced_app, relayed_app, !elem_of_app. split; [by left|].
    destruct H as [H|H]; [left; apply waiting_finally_mono; by rewrite E2|by right; left].
Qed.

Lemma arrive_kept l : ∀ s, (∀ t x, br_tasks s !! t = Some x → (t < br_fresh s)%nat) →
  (∀ t x, br_tasks s !! t = Some x → br_tasks (arrive s l) !! t = Some x) ∧
  (∀ r, r ∈ l → ∃ t p, br_tasks (arrive s l) !! t = Some (Task r p)).
Proof.
  unfold arrive. induction l as [|r0 l IH]; intros s Hf; simpl; [split; [done|intros r Hr; by apply elem_of_nil in Hr]|].
  destruct (IH (arrive_one s r0)) as [H1 H2].
  { intros t x. simpl. intros [[<- _]|[_ H]]%lookup_insert_Some; [lia|]. apply Hf in H. lia. }
  split.
  - intros t x H. apply H1. simpl. rewrite lookup_insert_ne; [done|]. apply Hf in H. lia.
  - intros r [->|Hr]%elem_of_cons; [|by apply H2]. exists (br_fresh s), Arrived. apply H1. simpl. apply lookup_insert_eq.
Qed.

Lemma arrive_waiting l : ∀ s, waiting (arrive s l) = waiting s.
Proof. unfold arrive. induction l as [|r l IH]; intros s; simpl; [done|]. by rewrite IH. Qed.

Lemma drop_event_quiet r response ports s : Forall quiet (drop_event r response ports s).
Proof. unfold drop_event. destruct (drops _ _ _); by repeat constructor. Qed.

Lemma drop_event_in r response ports s : drops response ports s = true → Dropped r ∈ drop_event r response ports s.
Proof. unfold drop_event. intros ->. by left. Qed.

(** A step with no requests *)
Ltac quietly Hk := rewrite came_now_quiet; [intros Hr0%Hk|].

Lemma kept_step tr w l w' : winv tr w → (∀ r, r ∈ came_now tr → kept tr (w_bridge w) r) → wstep w l w' →
  ∀ r, r ∈ came_now (tr ++ l) → kept (tr ++ l) (w_bridge w') r.
Proof.
  intros Hw Hk Hs r0. pose proof (wi_tasks _ _ Hw) as Hti.
  destruct Hs as [l b used Hst Hl|limit ids b delivered Hp l|t r s Ht H|t r link o s Ht H|t r ports link response s Ht H|s H|batch Hb Hm|batch now b Hb H
    |batch Hb Hd|t r response Ht Hd|];
    [quietly Hk| |quietly Hk|quietly Hk|quietly Hk|quietly Hk|quietly Hk|quietly Hk|quietly Hk|quietly Hk|].
  - eapply kept_mono; [| |exact Hr0]; [eauto|by left].
  - by repeat constructor.
  - unfold came_now. rewrite foldl_app. cbn [foldl]. fold (came_now tr). destruct (arrive_kept l (w_bridge w)) as [A1 A2].
    { intros t [r p] Ht. by apply (ti_task _ _ _ _ Hti) in Ht as [? _]. }
    intros [Hr0%Hk|Hr0]%elem_of_app; [|left; by apply A2]. eapply kept_mono; [| |exact Hr0].
    + intros t p Ht. exists t, p. by apply A1.
    + intros v Hv. left. simpl. by rewrite arrive_waiting.
  - unfold start_task in H. rewrite Ht in H. destruct (allowed r); cbn [negb] in H.
    + destruct (open_link_same (port_of r) (w_bridge w)) as (E1 & E2 & E3). destruct (od_get _ _) as [link|]; [|done]. injection H as <-.
      eapply kept_mono; [| |exact Hr0].
      * intros t' p' Ht'. simpl. rewrite E1. destruct (decide (t' = t)) as [->|Hne]; [rewrite Ht in Ht'; injection Ht' as <- <-; exists t; eexists; apply lookup_insert_eq|].
        exists t', p'. by rewrite lookup_insert_ne.
      * intros v Hv. left. rewrite <- E2 in Hv. exact Hv.
    + injection H as <-. eapply kept_finally; [done| | |done|done|done].
      * rewrite produced_app. apply elem_of_app. right. rewrite (proj2 (proj2 (proj2 (produced_event _ _ _ _ _)))). by left.
      * intros Hdr. right. by apply drop_event_in.
  - destruct (allowed r); [by repeat constructor|]. constructor; [done|apply drop_event_quiet].
  - unfold task_answered in H. rewrite Ht in H. injection H as <-. eapply kept_finally; [done| | |done|done|done].
    + rewrite produced_app. apply elem_of_app. right. rewrite (proj2 (proj2 (proj2 (produced_event _ _ _ _ _)))). by left.
    + intros Hdr. right. by apply drop_event_in.
  - constructor; [done|apply drop_event_quiet].
  - unfold task_closed in H. rewrite Ht in H. injection H as <-. eapply kept_finally; [done| | |done|done|done].
    + rewrite produced_app. apply elem_of_app. left. by apply (ti_task _ _ _ _ Hti) in Ht as (_ & _ & ?).
    + by apply drop_event_in.
  - apply drop_event_quiet.
  - apply next_batch_spec in H as (_ & E1 & E2 & _). eapply kept_mono; [| |exact Hr0]; simpl; [rewrite E2; eauto|rewrite E1; by left].
  - constructor.
  - eapply kept_mono; [| |exact Hr0]; [eauto|by left].
  - constructor.
  - eapply kept_mono; [| |exact Hr0]; [eauto|by left].
  - apply Forall_forall. intros e (x & -> & _)%list_elem_of_fmap. done.
  - eapply kept_mono; [| |exact Hr0]; [eauto|]. intros v. unfold waiting. rewrite Hb. simpl. rewrite elem_of_app. intros [Hv|Hv]; [right|by left].
    by apply (wi_done _ _ Hw _ Hd) in Hv.
  - constructor.
  - destruct Hr0 as [(t' & p' & Ht')|Hr0].
    + destruct (decide (t' = t)) as [->|Hne].
      * rewrite Ht in Ht'. injection Ht' as <- <-. right. right. exists response. rewrite app_nil_r. split; [by apply (ti_task _ _ _ _ Hti) in Ht as (_ & _ & ?)|].
        right. exact (wi_done _ _ Hw _ Hd _ ltac:(by left)).
      * left. exists t', p'. simpl. by rewrite lookup_delete_ne.
    + rewrite app_nil_r. by right.
  - constructor.
  - unfold came_now. rewrite foldl_app. simpl. intros Hr0. by apply elem_of_nil in Hr0.
Qed.

Lemma kept_run tr w : wrun tr w → ∀ r, r ∈ came_now tr → kept tr (w_bridge w) r.
Proof.
  induction 1 as [|tr w l w' Hrun IH Hs]; [intros r Hr; by apply elem_of_nil in Hr|]. eapply kept_step; [by apply winv_run|done|done].
Qed.

(** * Connections *)

Definition is_calling (link : nat) (x : task) : bool := match tk_phase x with Calling l => bool_decide (l = link) | _ => false end.

(** The calls in progress on a link *)
Definition calls (link : nat) (tasks : gmap nat task) : nat := size (filter (λ x : nat * task, is_calling link x.2 = true) tasks).

Lemma calls_insert link t x tasks : tasks !! t = None →
  calls link (<[t := x]> tasks) = (calls link tasks + if is_calling link x then 1 else 0)%nat.
Proof.
  intros Ht. unfold calls. rewrite map_filter_insert. simpl. case_decide as Hc.
  - rewrite Hc, map_size_insert_None; [lia|]. apply map_lookup_filter_None. by left.
  - destruct (is_calling link x); [done|]. rewrite delete_id by done. lia.
Qed.

Lemma calls_delete link t x tasks : tasks !! t = Some x →
  calls link tasks = (calls link (delete t tasks) + if is_calling link x then 1 else 0)%nat.
Proof. intros Ht. rewrite <- (calls_insert link t x (delete t tasks)) by apply lookup_delete_eq. by rewrite insert_delete_id. Qed.

Lemma calls_none link tasks t r : calls link tasks = 0%nat → tasks !! t ≠ Some (Task r (Calling link)).
Proof.
  intros Hc Ht. rewrite (calls_delete link t _ tasks Ht) in Hc. unfold is_calling in Hc. simpl in Hc. rewrite bool_decide_true in Hc by done. lia.
Qed.

(** The links of the bridge, whose calls are those of [tasks] and whose ports are among [ports] *)
Record linv (ports : list Z) (tasks : gmap nat task) (s : bridge) : Prop := Linv {
  li_wf : od_wf (br_links s);
  li_ports : ∀ p, p ∈ keys (br_links s) → p ∈ ports;
  li_inj : ∀ p p' link, od_get p (br_links s) = Some link → od_get p' (br_links s) = Some link → p = p';
  li_fresh : ∀ p link, od_get p (br_links s) = Some link → (link < br_fresh s)%nat ∧ link ∉ br_closed s;
  li_closed : ∀ link, link ∈ br_closed s → (link < br_fresh s)%nat;
  li_calling : ∀ t r link, tasks !! t = Some (Task r (Calling link)) → od_get (port_of r) (br_links s) = Some link;
  li_active : ∀ p link, od_get p (br_links s) = Some link → br_active s !! link = Some (Z.of_nat (calls link tasks)) }.

Lemma linv_evict l ports tasks s s' o : linv ports tasks s → evict l s = Ok (s', o) → linv ports tasks s'.
Proof.
  intros [H1 H2 H3 H4 H5 H6 H7] He. apply evict_same in He as (_ & E1 & E2 & _ & _ & _ & _ & He). destruct o as [[l' link]|].
  - destruct He as (port & Hg & Ha & El & Ec). rewrite (H7 _ _ Hg) in Ha. injection Ha as Ha.
    assert (Hcalls : calls link tasks = 0%nat) by lia.
    assert (Hget : ∀ p link', od_get p (br_links s') = Some link' ↔ p ≠ port ∧ od_get p (br_links s) = Some link').
    { intros p link'. rewrite El, od_get_del. case_decide; naive_solver. }
    split; rewrite ?E1, ?E2, ?Ec.
    + rewrite El. by apply od_wf_del.
    + intros p [link' [_ Hp]%Hget]%od_get_elem_keys. apply H2, od_get_elem_keys. by eexists.
    + intros p p' link' [_ Hp]%Hget [_ Hp']%Hget. by eapply H3.
    + intros p link' [Hne Hp]%Hget. destruct (H4 _ _ Hp) as [? ?]. split; [done|]. rewrite elem_of_union, elem_of_singleton. intros [->|?]; [|done].
      by apply Hne, (H3 _ _ link).
    + intros link' [->%elem_of_singleton|?]%elem_of_union; [by apply H4 in Hg as [? _]|by apply H5].
    + intros t r link' Ht. apply Hget. pose proof (H6 _ _ _ Ht) as Hp. split; [|done]. intros Hpt. rewrite Hpt in Hp.
      assert (link' = link) as -> by congruence. by apply (calls_none link tasks t r) in Hcalls.
    + intros p link' [_ Hp]%Hget. by eapply H7.
  - destruct He as [El Ec]. split; rewrite ?El, ?E1, ?E2, ?Ec; done.
Qed.

(** A task that does not call comes or goes. *)
Lemma linv_insert ports tasks s t r p : linv ports tasks s → tasks !! t = None → (match p with Calling _ => False | _ => True end) →
  linv ports (<[t := Task r p]> tasks) s.
Proof.
  intros [H1 H2 H3 H4 H5 H6 H7] Ht Hp. split; try done.
  - intros t' r' link [[<- [= <- ->]]|[_ H]]%lookup_insert_Some; [done|by eapply H6].
  - intros q link Hq. rewrite (H7 _ _ Hq), calls_insert by done. unfold is_calling. simpl. destruct p; try done; f_equal; lia.
Qed.

Lemma linv_delete ports tasks s t r p : linv ports tasks s → tasks !! t = Some (Task r p) → (match p with Calling _ => False | _ => True end) →
  linv ports (delete t tasks) s.
Proof.
  intros [H1 H2 H3 H4 H5 H6 H7] Ht Hp. split; try done.
  - intros t' r' link [_ H]%lookup_delete_Some. by eapply H6.
  - intros q link Hq. rewrite (H7 _ _ Hq), (calls_delete link t _ tasks Ht). unfold is_calling. simpl. destruct p; try done; f_equal; lia.
Qed.

(** Other fields do not matter. *)
Lemma linv_same ports tasks s s' : br_links s' = br_links s → br_active s' = br_active s → br_closed s' = br_closed s → br_fresh s' = br_fresh s →
  linv ports tasks s → linv ports tasks s'.
Proof. intros E1 E2 E3 E4 [H1 H2 H3 H4 H5 H6 H7]. split; rewrite ?E1, ?E2, ?E3, ?E4; done. Qed.

Lemma linv_finally ports t r v l s : linv ports (delete t (br_tasks s)) s → linv ports (br_tasks (finally t r v l s)) (finally t r v l s).
Proof.
  intros H. unfold finally. destruct (evict l s) as [[s1 o]|e] eqn:E.
  - pose proof (linv_evict _ _ _ _ _ _ H E) as H1. apply evict_same in E as (E1 & _).
    assert (Hins : ∀ p, (match p with Calling _ => False | _ => True end) → linv ports (<[t := Task r p]> (br_tasks s1)) s1).
    { intros p Hp. rewrite E1, <- insert_delete_eq. apply linv_insert; [done|apply lookup_delete_eq|done]. }
    destruct o as [[l' link]|]; [|unfold report; destruct batch_results; [destruct (encode v false)|]].
    + apply (linv_same _ _ s1); [done..|exact (Hins (Closing l' link v) I)].
    + apply (linv_same _ _ s1); [done..|]. simpl. by rewrite E1.
    + apply (linv_same _ _ s1); [done..|]. simpl. by rewrite E1.
    + apply (linv_same _ _ s1); [done..|exact (Hins (Reporting v) I)].
  - apply (linv_same _ _ s); [done..|exact H].
Qed.

Lemma linv_open ports tasks s port : linv ports tasks s → port ∈ ports → linv ports tasks (open_link port s).
Proof.
  intros [H1 H2 H3 H4 H5 H6 H7] Hp. unfold open_link. case_bool_decide as Hk; [done|].
  assert (Hget : ∀ p, od_get p (br_links s ++ [(port, br_fresh s)]) = if decide (p = port) then Some (br_fresh s) else od_get p (br_links s)).
  { intros p. rewrite od_get_app. destruct (od_get p (br_links s)) as [link|] eqn:E.
    - rewrite decide_False; [done|]. intros ->. apply Hk, od_get_elem_keys. by eexists.
    - simpl. by case_decide. }
  assert (Hnew : calls (br_fresh s) tasks = 0%nat).
  { destruct (calls (br_fresh s) tasks) as [|n] eqn:Ec; [done|]. exfalso. unfold calls in Ec.
    destruct (map_choose (filter (λ x : nat * task, is_calling (br_fresh s) x.2 = true) tasks)) as (t & [r p] & [Ht Hc]%map_lookup_filter_Some).
    { intros Hm. rewrite Hm in Ec. done. }
    unfold is_calling in Hc. simpl in Hc. destruct p as [|link| |]; try done. apply bool_decide_eq_true in Hc as ->. apply H6, H4 in Ht as [Ht _]. lia. }
  split; cbn [br_links br_active br_closed br_fresh update update_with].
  - unfold od_wf, keys. simpl. rewrite fmap_app. apply NoDup_app. split; [done|]. split; [|apply NoDup_singleton]. by intros p Hq ->%list_elem_of_singleton.
  - simpl. unfold keys. rewrite fmap_app. intros p [Hq| ->%list_elem_of_singleton]%elem_of_app; [by apply H2|done].
  - simpl. intros p p' link. rewrite !Hget. repeat case_decide; subst; try done; intros Ha Hb.
    + injection Ha as <-. apply H4 in Hb as [? _]. lia.
    + injection Hb as <-. apply H4 in Ha as [? _]. lia.
    + by eapply H3.
  - simpl. intros p link. rewrite Hget. case_decide; [intros [= <-]|intros [? ?]%H4; split; [lia|done]]. split; [lia|]. intros ?%H5. lia.
  - simpl. intros link ?%H5. lia.
  - simpl. intros t r link Ht%H6. rewrite Hget. case_decide as Hq; [|done]. exfalso. apply Hk, od_get_elem_keys. rewrite <- Hq. by eexists.
  - simpl. intros p link. rewrite Hget. case_decide; [intros [= <-]; by rewrite lookup_insert_eq, Hnew|]. intros Hq. rewrite lookup_insert_ne; [by eapply H7|].
    apply H4 in Hq as [? _]. lia.
Qed.

Lemma count_active link n s link' : br_active (count_link link n s) !! link' =
  if decide (link' = link) then Some (default 0 (br_active s !! link) + n) else br_active s !! link'.
Proof. simpl. case_decide; [subst; by rewrite lookup_insert_eq|by rewrite lookup_insert_ne]. Qed.

Lemma linv_uncount ports s t r link : linv ports (br_tasks s) s → br_tasks s !! t = Some (Task r (Calling link)) →
  linv ports (delete t (br_tasks s)) (count_link link (-1) s).
Proof.
  intros [H1 H2 H3 H4 H5 H6 H7] Ht. split; try done.
  - intros t' r' link' [_ H]%lookup_delete_Some. by eapply H6.
  - intros p link' Hp. change (br_links (count_link link (-1) s)) with (br_links s) in Hp. pose proof (H7 _ _ Hp) as Ha.
    rewrite (calls_delete link' t _ _ Ht) in Ha. rewrite count_active. unfold is_calling in Ha. simpl in Ha. destruct (decide (link' = link)) as [->|Hd].
    + rewrite Ha, bool_decide_true by done. cbn [default from_option id]. apply (f_equal Some). lia.
    + rewrite Ha, bool_decide_false by done. apply (f_equal Some). lia.
Qed.

Lemma linv_count ports s s' t r link : linv ports (br_tasks s) s → br_tasks s !! t = Some (Task r Arrived) → od_get (port_of r) (br_links s) = Some link →
  br_active s' = br_active (count_link link 1 s) → br_links s' = od_to_end (port_of r) (br_links s) → br_closed s' = br_closed s → br_fresh s' = br_fresh s →
  linv ports (<[t := Task r (Calling link)]> (br_tasks s)) s'.
Proof.
  intros [H1 H2 H3 H4 H5 H6 H7] Ht Hl Ea El Ec Ef.
  assert (Hget : ∀ p, od_get p (br_links s') = od_get p (br_links s)) by (intros p; by rewrite El, od_get_to_end).
  split; rewrite ?Ec, ?Ef.
  - rewrite El. by apply od_wf_to_end.
  - intros p Hp. apply H2, od_get_elem_keys. rewrite <- Hget. by apply od_get_elem_keys.
  - intros p p' l'. rewrite !Hget. apply H3.
  - intros p l'. rewrite Hget. apply H4.
  - done.
  - intros t' r' l' [[<- [= <- <-]]|[_ H]]%lookup_insert_Some; rewrite Hget; [done|by eapply H6].
  - intros p l'. rewrite Hget. intros Hp. pose proof (H7 _ _ Hp) as Ha. rewrite (calls_delete l' t _ _ Ht) in Ha. unfold is_calling in Ha. simpl in Ha.
    rewrite Ea, count_active, <- insert_delete_eq, calls_insert by apply lookup_delete_eq. unfold is_calling. simpl. destruct (decide (l' = link)) as [->|Hd].
    + rewrite Ha, !bool_decide_true by done. cbn [default from_option id]. apply (f_equal Some). lia.
    + rewrite Ha, bool_decide_false by done. apply (f_equal Some). lia.
Qed.

Lemma linv_ports ports ports' tasks s : (∀ p, p ∈ ports → p ∈ ports') → linv ports tasks s → linv ports' tasks s.
Proof. intros Hp [H1 H2 H3 H4 H5 H6 H7]. split; auto. Qed.

Lemma linv_arrive ports l : ∀ s, (∀ t x, br_tasks s !! t = Some x → (t < br_fresh s)%nat) → linv ports (br_tasks s) s →
  linv ports (br_tasks (arrive s l)) (arrive s l).
Proof.
  unfold arrive. induction l as [|r l IH]; intros s Hf H; cbn [foldl]; [done|]. apply IH.
  - intros t x. simpl. intros [[<- _]|[_ Ht]]%lookup_insert_Some; [lia|]. apply Hf in Ht. lia.
  - assert (Hn : br_tasks s !! br_fresh s = None) by (destruct (br_tasks s !! br_fresh s) as [x|] eqn:E; [apply Hf in E; lia|done]).
    assert (H' : linv ports (<[br_fresh s := Task r Arrived]> (br_tasks s)) s) by by apply linv_insert.
    destruct H' as [H1 H2 H3 H4 H5 H6 H7]. split; try done; simpl.
    + intros p link Hp. destruct (H4 _ _ Hp). split; [lia|done].
    + intros link Hl. apply H5 in Hl. lia.
Qed.

Lemma linv_step tr w l w' : winv tr w → linv (map port_of (came tr)) (br_tasks (w_bridge w)) (w_bridge w) → wstep w l w' →
  linv (map port_of (came (tr ++ l))) (br_tasks (w_bridge w')) (w_bridge w').
Proof.
  intros Hw Hl Hs. pose proof (wi_tasks _ _ Hw) as Hti.
  assert (Hmono : linv (map port_of (came (tr ++ l))) (br_tasks (w_bridge w)) (w_bridge w)).
  { eapply linv_ports; [|exact Hl]. intros p. rewrite came_app, map_app, elem_of_app. by left. }
  assert (Hcame : ∀ r, r ∈ came tr → port_of r ∈ map port_of (came (tr ++ l))).
  { intros r Hr. rewrite came_app, map_app. apply elem_of_app. left. apply list_elem_of_fmap. by exists r. }
  revert Hmono Hcame. generalize (map port_of (came (tr ++ l))). intros ports Hmono Hcame.
  assert (Hdel : ∀ t r p, br_tasks (w_bridge w) !! t = Some (Task r p) → (match p with Calling _ => False | _ => True end) →
    linv ports (delete t (br_tasks (w_bridge w))) (w_bridge w)) by (intros; by eapply linv_delete).
  destruct Hs as [l b used Hst Hb|limit ids b delivered Hp l|t r s Ht H|t r link o s Ht H|t r ports' link response s Ht H|s H|batch Hb Hm|batch now b Hb H
    |batch Hb Hd|t r response Ht Hd|]; try done.
  - apply linv_arrive; [|done]. intros t [r p] Ht. by apply (ti_task _ _ _ _ Hti) in Ht as [? _].
  - unfold start_task in H. rewrite Ht in H. destruct (allowed r); cbn [negb] in H.
    + assert (Hopen : linv ports (br_tasks (w_bridge w)) (open_link (port_of r) (w_bridge w))).
      { apply linv_open; [done|]. apply Hcame. by apply (ti_task _ _ _ _ Hti) in Ht as (_ & ? & _). }
      destruct (open_link_same (port_of r) (w_bridge w)) as (E1 & _). set (s1 := open_link (port_of r) (w_bridge w)) in *. rewrite <- E1 in Hopen, Ht.
      destruct (od_get (port_of r) (br_links s1)) as [link|] eqn:El; [|done]. injection H as <-.
      eapply linv_count; [exact Hopen|exact Ht|exact El|done..].
    + injection H as <-. apply linv_finally. by eapply Hdel.
  - unfold task_answered in H. rewrite Ht in H. injection H as <-. apply linv_finally. by apply (linv_uncount _ (w_bridge w) t r link).
  - unfold task_closed in H. rewrite Ht in H. injection H as <-. apply linv_finally. by eapply Hdel.
  - apply next_batch_spec in H as (_ & _ & E1 & E2 & E3 & E4 & E5 & _). simpl. rewrite E1. by apply (linv_same _ _ (w_bridge w)).
  - simpl. by apply (linv_same _ _ (w_bridge w)).
  - simpl. apply (linv_same _ _ (w_bridge w)); [done..|]. by eapply Hdel.
  - simpl. split; simpl; [apply NoDup_nil_2|intros p Hp; by apply elem_of_nil in Hp|done|done|intros link Hk; by apply elem_of_empty in Hk| |done].
    intros t r link Ht. exact (False_ind _ (lookup_empty_Some (M := gmap nat) t _ Ht)).
Qed.

Lemma linv_run tr w : wrun tr w → linv (map port_of (came tr)) (br_tasks (w_bridge w)) (w_bridge w).
Proof.
  induction 1 as [|tr w l w' Hrun IH Hs]; [|eapply linv_step; [by apply winv_run|done|done]].
  split; simpl; [apply NoDup_nil_2|intros p Hp; by apply elem_of_nil in Hp|done|done|intros link Hl; by apply elem_of_empty in Hl| |done].
  intros t r link Ht. exact (False_ind _ (lookup_empty_Some (M := gmap nat) t _ Ht)).
Qed.

(** No call loses its connection: while a call is in progress its connection is open, it
    is the one later calls to its port will use, and its count is that of the calls in
    progress; connections that are closed are in no link. *)
Theorem connections_kept tr w : wrun tr w →
  (∀ t r link, br_tasks (w_bridge w) !! t = Some (Task r (Calling link)) →
     link ∉ br_closed (w_bridge w) ∧ od_get (port_of r) (br_links (w_bridge w)) = Some link) ∧
  (∀ port link, od_get port (br_links (w_bridge w)) = Some link →
     link ∉ br_closed (w_bridge w) ∧ br_active (w_bridge w) !! link = Some (Z.of_nat (calls link (br_tasks (w_bridge w))))).
Proof.
  intros [H1 H2 H3 H4 H5 H6 H7]%linv_run. split.
  - intros t r link Ht. pose proof (H6 _ _ _ Ht) as Hp. by destruct (H4 _ _ Hp).
  - intros port link Hp. split; [by destruct (H4 _ _ Hp)|by eapply H7].
Qed.

(** * Lost responses *)

Lemma evict_error l : ∀ s e, evict l s = Err e → (MAX_LINKS < length (br_links s))%nat.
Proof.
  induction l as [|port l IH]; intros s e; cbn [evict]; [done|]. destruct (Nat.leb_spec (length (br_links s)) MAX_LINKS); [done|]. done.
Qed.

Definition port_count (tr : list event) : nat := size (list_to_set (map port_of (came tr)) : gset Z).

Lemma links_few ports tasks s : linv ports tasks s → (length (br_links s) ≤ size (list_to_set ports : gset Z))%nat.
Proof.
  intros [H1 H2 _ _ _ _ _]. assert (E : length (br_links s) = size (list_to_set (keys (br_links s)) : gset Z)).
  { rewrite size_list_to_set by exact H1. unfold keys. by rewrite length_fmap. }
  rewrite E. apply subseteq_size. intros p. rewrite !elem_of_list_to_set. apply H2.
Qed.

Definition lost_reason (tr : list event) (r : request) : Prop :=
  (∃ v, (r, v) ∈ produced tr ∧ is_ok (encode v false) = false) ∨ (MAX_LINKS < port_count tr)%nat.

Lemma drops_reason ports tasks s tr r v l : linv ports tasks s → drops v l s = true → (r, v) ∈ produced tr →
  (size (list_to_set ports : gset Z) ≤ port_count tr)%nat → lost_reason tr r.
Proof.
  intros Hl Hd Hv Hn. unfold drops in Hd. destruct (evict l s) as [[s1 [[l' link]|]]|e] eqn:E; [done| |].
  - left. exists v. split; [done|]. apply andb_true_iff in Hd as [_ Hd]. by apply negb_true_iff in Hd.
  - right. apply evict_error in E. apply links_few in Hl. lia.
Qed.

Lemma lost_reason_mono tr l r : lost_reason tr r → lost_reason (tr ++ l) r.
Proof.
  intros [(v & Hv & He)|H]; [left; exists v; split; [|done]; rewrite produced_app; apply elem_of_app; by left|right].
  eapply Nat.lt_le_trans; [exact H|]. unfold port_count. apply subseteq_size. intros p. rewrite !elem_of_list_to_set, came_app, map_app, elem_of_app. by left.
Qed.

Lemma lost_step tr w l w' r : winv tr w → linv (map port_of (came tr)) (br_tasks (w_bridge w)) (w_bridge w) → wstep w l w' →
  Dropped r ∈ l → lost_reason (tr ++ l) r.
Proof.
  intros Hw Hl Hs Hd. pose proof (wi_tasks _ _ Hw) as Hti.
  assert (Hcount : (size (list_to_set (map port_of (came tr)) : gset Z) ≤ port_count (tr ++ l))%nat).
  { unfold port_count. apply subseteq_size. intros p. rewrite !elem_of_list_to_set, came_app, map_app, elem_of_app. by left. }
  assert (Hev : ∀ r' v ports s, Dropped r ∈ drop_event r' v ports s → r' = r ∧ drops v ports s = true).
  { intros r' v ports s. unfold drop_event. destruct (drops v ports s); [|by intros ?%elem_of_nil]. by intros [= ->]%list_elem_of_singleton. }
  destruct Hs as [l b used Hst Hb|limit ids b delivered Hp l|t r' s Ht H|t r' link o s Ht H|t r' ports' link response s Ht H|s H|batch Hb Hm|batch now b Hb H
    |batch Hb Hd'|t r' response Ht Hd'|]; try (by apply elem_of_nil in Hd); try (by apply list_elem_of_singleton in Hd).
  - rewrite !elem_of_cons in Hd. by destruct Hd as [?|[?|?%elem_of_nil]].
  - destruct (allowed r'); [by apply list_elem_of_singleton in Hd|]. apply elem_of_cons in Hd as [?|[<- Hdr]%Hev]; [done|].
    eapply drops_reason; [exact Hl|exact Hdr| |exact Hcount]. rewrite produced_app. apply elem_of_app. right. by left.
  - apply elem_of_cons in Hd as [?|[<- Hdr]%Hev]; [done|]. eapply drops_reason; [by apply (linv_uncount _ (w_bridge w) t r' link)|exact Hdr| |exact Hcount].
    rewrite produced_app. apply elem_of_app. right. by left.
  - apply Hev in Hd as [<- Hdr]. eapply drops_reason; [exact Hl|exact Hdr| |exact Hcount]. rewrite produced_app. apply elem_of_app. left.
    by apply (ti_task _ _ _ _ Hti) in Ht as (_ & _ & ?).
  - by apply list_elem_of_fmap in Hd as (x & [=] & _).
Qed.

Lemma lost_run tr w r : wrun tr w → Dropped r ∈ tr → lost_reason tr r.
Proof.
  induction 1 as [|tr w l w' Hrun IH Hs]; [by intros ?%elem_of_nil|]. intros [Hd|Hd]%elem_of_app; [by apply lost_reason_mono, IH|].
  eapply lost_step; [by apply winv_run|by apply linv_run|done|done].
Qed.

(** * The sender *)

Definition batch_fits (batch : list reply) : Prop := (1 ≤ length batch ≤ BATCH)%nat.

Lemma finally_batch t r v l s : br_batch (finally t r v l s) = br_batch s.
Proof. by destruct (finally_cases t r v l s) as (_ & ? & _). Qed.

Lemma arrive_batch l : ∀ s, br_batch (arrive s l) = br_batch s.
Proof. unfold arrive. induction l as [|r l IH]; intros s; simpl; [done|]. by rewrite IH. Qed.

(** What the tasks do leaves the batch alone. *)
Lemma tasks_batch w l w' : wstep w l w' →
  br_batch (w_bridge w') = br_batch (w_bridge w) ∨
  (br_batch (w_bridge w) = None ∧ ∃ batch, br_batch (w_bridge w') = Some batch ∧ batch_fits batch) ∨
  (∃ batch, br_batch (w_bridge w) = Some batch ∧ batch ∈ w_done w ∧ br_batch (w_bridge w') = None) ∨ l = [Restarted] ∧ br_batch (w_bridge w') = None.
Proof.
  intros Hs. destruct Hs as [l b used Hst Hb|limit ids b delivered Hp l|t r s Ht H|t r link o s Ht H|t r ports' link response s Ht H|s H|batch Hb Hm|batch now b Hb H
    |batch Hb Hd|t r response Ht Hd|]; try by left.
  - left. apply arrive_batch.
  - left. unfold start_task in H. rewrite Ht in H. destruct (allowed r); cbn [negb] in H.
    + destruct (od_get _ _); [|done]. injection H as <-. unfold open_link. simpl. by destruct (bool_decide _).
    + injection H as <-. apply finally_batch.
  - left. unfold task_answered in H. rewrite Ht in H. injection H as <-. exact (finally_batch t r _ _ (count_link link (-1) (w_bridge w))).
  - left. unfold task_closed in H. rewrite Ht in H. injection H as <-. apply finally_batch.
  - right. left. apply next_batch_spec in H as (? & _ & _ & _ & _ & _ & _ & ?). done.
  - right. right. left. by exists batch.
  - right. right. by right.
Qed.

Definition sent_ok (w : world) : Prop :=
  (∀ batch, br_batch (w_bridge w) = Some batch → batch_fits batch) ∧
  ∀ batch, batch ∈ w_sent w → batch_fits batch ∧ (batch_results = false → length batch = 1%nat).

Lemma sent_run tr w : wrun tr w → sent_ok w.
Proof.
  induction 1 as [|tr w l w' Hrun [H1 H2] Hs]; [split; [done|intros b Hb; by apply elem_of_nil in Hb]|]. split.
  - intros batch Hb. apply tasks_batch in Hs as [He|[(_ & b & He & ?)|[(b & _ & _ & He)|(_ & He)]]]; rewrite He in Hb; [by apply H1|by injection Hb as <-|done..].
  - destruct Hs as [| | | | | |batch0 Hb Hm| | | |]; try done. simpl. intros batch [->|Hin]%elem_of_cons; [|by apply H2]. split.
    + destruct Hb as [Hb|(t & r & response & _ & ->)]; [by apply H1|]. unfold batch_fits, BATCH. simpl. lia.
    + unfold message_ok in Hm. intros Hbr. rewrite Hbr in Hm. by destruct batch0 as [|x [|y l]].
Qed.

Lemma result_total b identity response now : validate channel = Ok () → ∃ b', result b channel identity response now = Ok b'.
Proof. intros Hv. unfold result. rewrite Hv. cbn. destruct (od_get _ _); [|by eexists]. destruct (_ && _); by eexists. Qed.

Lemma takes_total b batch now : validate channel = Ok () → batch_fits batch → (batch_results = false → length batch = 1%nat) →
  ∃ b', controller_takes b batch now = Ok b'.
Proof.
  intros Hv [Hlo Hhi] Hone. unfold controller_takes. destruct batch_results eqn:Eb.
  - unfold results. rewrite Hv. cbn [mbind res_bind]. rewrite length_map.
    replace ((1 <=? length batch)%nat && (length batch <=? 64)%nat) with true by (symmetry; apply andb_true_iff; split; by apply Nat.leb_le).
    cbn [negb]. replace (existsb _ _) with false.
    + clear Hlo Hhi Hone. revert b. induction batch as [|r batch IH]; intros b; cbn [map res_fold]; [by eexists|]. rewrite reply_of_value.
      destruct (result_total b (rp_identity r) (rp_response r) now Hv) as [b' ->]. apply IH.
    + symmetry. apply not_true_iff_false. rewrite existsb_exists. intros (v & (r & <- & _)%in_map_iff & Hr). by rewrite reply_of_value in Hr.
  - destruct batch as [|r [|r' batch]]; [simpl in Hlo; lia|by apply result_total|specialize (Hone eq_refl); simpl in Hone; lia].
Qed.

(** C15: no response is lost while the agent runs: each request that came is with a task, or
    its response waits to be sent, or the relay was given it; otherwise the response cannot be
    encoded, or requests for more than four ports came. Whatever was sent the controller
    takes, in every state, as often as it arrives. *)
Theorem nothing_lost tr w : wrun tr w →
  (∀ r, r ∈ came_now tr →
     (∃ t p, br_tasks (w_bridge w) !! t = Some (Task r p)) ∨
     (∃ v, (r, v) ∈ produced tr ∧ (Reply (q_id r) v ∈ waiting (w_bridge w) ∨ Replied channel (q_id r) v ∈ relayed tr)) ∨
     (∃ v, (r, v) ∈ produced tr ∧ is_ok (encode v false) = false) ∨ (MAX_LINKS < port_count tr)%nat) ∧
  (∀ batch b now, validate channel = Ok () → batch ∈ w_sent w → ∃ b', controller_takes b batch now = Ok b').
Proof.
  intros Hw. split.
  - intros r Hr. destruct (kept_run _ _ Hw r Hr) as [?|[Hd|?]]; [by left| |by right; left]. right. right. by eapply lost_run.
  - intros batch b now Hv Hb. destruct (sent_run _ _ Hw) as [_ H]. destruct (H batch Hb). by apply takes_total.
Qed.

(** Several steps *)
Inductive wsteps : world → list event → world → Prop :=
  | wsteps_refl w : wsteps w [] w
  | wsteps_step w l w' l' w'' : wstep w l w' → wsteps w' l' w'' → wsteps w (l ++ l') w''.

(** Only an acknowledgement takes replies out of what waits. *)
Lemma waiting_step w l w' x : wstep w l w' → Restarted ∉ l → (∀ batch, br_batch (w_bridge w) = Some batch → batch ∉ w_done w) →
  x ∈ waiting (w_bridge w) → x ∈ waiting (w_bridge w').
Proof.
  intros Hs Hl Hd Hx. destruct Hs as [l b used Hst Hb|limit ids b delivered Hp l|t r s Ht H|t r link o s Ht H|t r ports' link response s Ht H|s H|batch Hb Hm|batch now b Hb H
    |batch Hb Hd'|t r response Ht Hd'|]; try exact Hx.
  - simpl. by rewrite arrive_waiting.
  - unfold start_task in H. rewrite Ht in H. destruct (allowed r); cbn [negb] in H.
    + destruct (open_link_same (port_of r) (w_bridge w)) as (_ & E2 & _). destruct (od_get _ _) as [link|]; [|done]. injection H as <-.
      rewrite <- E2 in Hx. exact Hx.
    + injection H as <-. by apply waiting_finally_mono.
  - unfold task_answered in H. rewrite Ht in H. injection H as <-. simpl. by apply waiting_finally_mono.
  - unfold task_closed in H. rewrite Ht in H. injection H as <-. by apply waiting_finally_mono.
  - apply next_batch_spec in H as (_ & E & _). simpl. by rewrite E.
  - by destruct (Hd batch Hb).
  - destruct Hl. by left.
Qed.

(** C16: a batch whose message is refused by the encoder holds the sender up for ever: it stays
    the batch that is tried, and it and every response that waits behind it keep waiting, until
    the agent ends. *)
Theorem sender_stuck w l w' batch : br_batch (w_bridge w) = Some batch → message_ok batch = false →
  batch ∉ w_sent w → batch ∉ w_done w → wsteps w l w' → Restarted ∉ l →
  br_batch (w_bridge w') = Some batch ∧ ∀ x, x ∈ waiting (w_bridge w) → x ∈ waiting (w_bridge w').
Proof.
  intros Hb Hm Hsent Hdone Hs. revert Hb Hsent Hdone. induction Hs as [w|w l w1 l' w2 Hstep _ IH]; [done|]. intros Hb Hsent Hdone Hl.
  rewrite elem_of_app in Hl. assert (Hnow : Restarted ∉ l) by tauto. assert (Hd : ∀ b, br_batch (w_bridge w) = Some b → b ∉ w_done w) by (intros b Hb'; congruence).
  assert (Hb1 : br_batch (w_bridge w1) = Some batch).
  { pose proof (tasks_batch _ _ _ Hstep) as [->|[(Hn & _)|[(b & Hn & Hin & _)|(-> & _)]]]; [done|congruence|by apply Hd in Hn|]. destruct Hnow. by left. }
  assert (Hrest : batch ∉ w_sent w1 ∧ batch ∉ w_done w1).
  { destruct Hstep as [| | | | | |b0 Hb0 Hm0|b0 now b Hin H| | |]; try done; simpl; rewrite elem_of_cons.
    - split; [|done]. intros [<-|?]; [congruence|done].
    - split; [done|]. intros [<-|?]; [done|done]. }
  destruct IH as [H1 H2]; [done|apply Hrest|apply Hrest|tauto|]. split; [done|]. intros x Hx. apply H2. by eapply waiting_step.
Qed.

End WorkerBridge.

(** * On concrete data *)

Section Examples.
Local Abbreviation host := (λ _ : request, "h"%string).
Local Abbreviation port := (λ r : request, Z.of_nat (String.length (q_id r))).
Local Abbreviation start := (start_task "h" ex_channel true host port).
Local Abbreviation answer := (task_answered true).
Local Abbreviation rstep := (wstep "h" ex_channel true host port).
Local Abbreviation rrun := (wrun "h" ex_channel true host port).

(** A request is polled, called, answered, sent, taken and acknowledged. *)
Definition ex_polled : broker := match poll ex_b1 ex_channel (Some 64) with Ok (_, b) => b | Err _ => ex_b1 end.
Definition ex_s1 : bridge := arrive new_bridge (requests_of ex_b1 ["r1"%string]).
Definition ex_s2 : bridge := default ex_s1 (start 0%nat ex_s1).
Definition ex_s3 : bridge := default ex_s1 (answer 0%nat (Returned (Text "ok")) ex_s2).
Definition ex_s4 : bridge := default ex_s1 (next_batch ex_s3).
Definition ex_batch : list reply := [Reply "r1" (Dict [("result", Text "ok")])]%string.
Definition ex_taken : broker := match controller_takes ex_channel true ex_polled ex_batch 5 with Ok b => b | Err _ => ex_polled end.
Definition ex_used : gset string := {["r1"%string]} ∪ ∅.

Definition ex_trace : list event :=
  [AtRelay (Begun (ex_request "r1" "exec"))] ++ [AtRelay (Handed ex_channel ["r1"%string]); Came [ex_request "r1" "exec"]] ++
  [Called (ex_request "r1" "exec")] ++ [Produced (ex_request "r1" "exec") (Dict [("result", Text "ok")])]%string ++
  [AtRelay (Replied ex_channel "r1" (Dict [("result", Text "ok")])%string)].

Definition ex_world : world := World ex_taken ex_used (ex_s4 <| br_batch := None |>) [ex_batch] [ex_batch].

Lemma ex_wrun : rrun ex_trace ex_world.
Proof.
  set (w1 := World ex_b1 ex_used new_bridge [] []). set (w2 := World ex_polled ex_used ex_s1 [] []).
  set (w3 := World ex_polled ex_used ex_s2 [] []). set (w4 := World ex_polled ex_used ex_s3 [] []).
  set (w5 := World ex_polled ex_used ex_s4 [] []). set (w6 := World ex_polled ex_used ex_s4 [ex_batch] []).
  set (w7 := World ex_taken ex_used ex_s4 [ex_batch] [ex_batch]).
  assert (H1 : rrun ([] ++ [AtRelay (Begun (ex_request "r1" "exec"))]) w1).
  { eapply wrun_step; [apply wrun_start|]. apply (ws_relay _ _ _ _ _ (World broker_init ∅ new_bridge [] [])); [|done].
    apply (step_begin broker_init ∅ (ex_request "r1" "exec") 10 None ex_b1); [apply not_elem_of_empty|lia|reflexivity]. }
  assert (H2 : rstep w1 [AtRelay (Handed ex_channel ["r1"%string]); Came [ex_request "r1" "exec"]] w2).
  { apply (ws_poll "h" ex_channel true host port w1 (Some 64) ["r1"%string] ex_polled true). vm_compute. reflexivity. }
  assert (H3 : rstep w2 [Called (ex_request "r1" "exec")] w3).
  { apply (ws_start "h" ex_channel true host port w2 0 (ex_request "r1" "exec") ex_s2); vm_compute; reflexivity. }
  assert (H4 : rstep w3 [Produced (ex_request "r1" "exec") (Dict [("result", Text "ok")])]%string w4).
  { apply (ws_answered "h" ex_channel true host port w3 0 (ex_request "r1" "exec") 1 (Returned (Text "ok")) ex_s3); vm_compute; reflexivity. }
  assert (H5 : rstep w4 [] w5) by (apply (ws_next "h" ex_channel true host port w4 ex_s4); vm_compute; reflexivity).
  assert (H6 : rstep w5 [] w6) by (apply (ws_send "h" ex_channel true host port w5 ex_batch); [left|]; vm_compute; reflexivity).
  assert (H7 : rstep w6 [AtRelay (Replied ex_channel "r1" (Dict [("result", Text "ok")])%string)] w7).
  { apply (ws_take "h" ex_channel true host port w6 ex_batch 5 ex_taken); [by left|vm_compute; reflexivity]. }
  assert (H8 : rstep w7 [] ex_world) by (apply (ws_batch_ack "h" ex_channel true host port w7 ex_batch); [vm_compute; reflexivity|by left]).
  pose proof (wrun_step _ _ _ _ _ _ _ _ _ (wrun_step _ _ _ _ _ _ _ _ _ (wrun_step _ _ _ _ _ _ _ _ _ (wrun_step _ _ _ _ _ _ _ _ _ (wrun_step _ _ _ _ _ _ _ _ _
    (wrun_step _ _ _ _ _ _ _ _ _ (wrun_step _ _ _ _ _ _ _ _ _ H1 H2) H3) H4) H5) H6) H7) H8) as H. exact H.
Qed.

Lemma forwarded_once_witness : rrun ex_trace ex_world ∧ NoDup (map q_id (called ex_trace)) ∧ called ex_trace = [ex_request "r1" "exec"] ∧
  ((Dict [("result", Text "ok")])%string = lost_response ∨ (ex_request "r1" "exec", (Dict [("result", Text "ok")])%string) ∈ produced ex_trace).
Proof.
  destruct (forwarded_once "h" ex_channel true host port ex_trace ex_world ex_wrun) as (H & _ & _ & _ & Hr).
  split; [exact ex_wrun|]. split; [exact H|]. split; [reflexivity|].
  apply (Hr "r1"%string (Item (ex_request "r1" "exec") 10 None true (Some (Dict [("result", Text "ok")])%string))); vm_compute; reflexivity.
Defined.

Lemma connections_kept_witness : ∃ link, od_get 2 (br_links ex_s4) = Some link ∧ link ∉ br_closed ex_s4.
Proof.
  exists 1%nat. split; [vm_compute; reflexivity|].
  apply (proj2 (connections_kept "h" ex_channel true host port ex_trace ex_world ex_wrun) 2 1%nat). vm_compute. reflexivity.
Defined.

Lemma nothing_lost_witness : validate ex_channel = Ok () ∧ ∃ b', controller_takes ex_channel true ex_taken ex_batch 7 = Ok b'.
Proof.
  split; [vm_compute; reflexivity|]. apply (proj2 (nothing_lost "h" ex_channel true host port ex_trace ex_world ex_wrun)); [vm_compute; reflexivity|by left].
Defined.

(** Two calls to different ports of seven end at once: the first one looks for a port that the
    second one took out meanwhile, and its response is lost with the exception. *)
Definition ex_ids : list string := ["1"; "22"; "333"; "4444"; "55555"; "666666"; "7777777"]%string.

Definition ex_race : option bridge :=
  s ← foldl (λ s t, s ← s; start t s) (Some (arrive new_bridge (map (λ i, ex_request i "exec") ex_ids))) [0; 1; 2; 3; 4; 5; 6]%nat;
  s ← answer 0%nat (Returned Null) s;
  s ← answer 1%nat (Returned Null) s;
  s ← task_closed true 1%nat s;
  task_closed true 0%nat s.

Example race_loses_response : (λ s, (map rp_identity (waiting s), br_tasks s !! 0%nat)) <$> ex_race = Some (["22"%string], None).
Proof. vm_compute. reflexivity. Qed.
End Examples.

(** * A batch that cannot be sent *)

(** A response of text only: its frame is all metadata. *)
Definition text_response (n : nat) : value := Dict [("result", Text (String.string_of_list_ascii (replicate n "a"%char)))]%string.

Lemma escape_plain n : flat_map escape (replicate n "a"%char) = replicate n "a"%char.
Proof. induction n as [|n IH]; [done|]. simpl. by rewrite IH. Qed.

Lemma quoted_length n : length (quoted (String.string_of_list_ascii (replicate n "a"%char))) = (n + 2)%nat.
Proof.
  unfold quoted. rewrite String.list_ascii_of_string_of_list_ascii, escape_plain. simpl. rewrite length_app, length_replicate. simpl. lia.
Qed.

Ltac count_chars := repeat first [rewrite length_app | progress cbn [length]]; rewrite ?quoted_length;
  repeat match goal with |- context [length (quoted ?s)] => let n := eval vm_compute in (length (quoted s)) in change (length (quoted s)) with n end.

(** The frame of a value whose metadata is [header] *)
Lemma encode_fits v header : walk false v [] = (v, []) → json_dumps (Dict [("message", v); ("blobs", Items false [])])%string = Ok header →
  Z.of_nat (length header) ≤ MAX_HEADER → ∃ data, encode v false = Ok data ∧ length data = (length header + 8)%nat.
Proof.
  intros Hw Hj Hn. unfold encode. rewrite Hw. cbn [map]. rewrite Hj. cbn [mbind res_bind].
  replace (MAX_HEADER <? Z.of_nat (length header)) with false by (symmetry; apply Z.ltb_ge; lia). cbn [raise_if mbind res_bind concat map].
  set (data := pack_length _ ++ _). assert (Hd : length data = (length header + 8)%nat).
  { unfold data, encode_ascii, pack_length. rewrite !length_app, !length_map. simpl. lia. }
  exists data. split; [|done]. replace (MAX_BODY <? Z.of_nat (length data)) with false; [done|]. symmetry. apply Z.ltb_ge.
  rewrite Hd. unfold MAX_BODY, MAX_HEADER in *. lia.
Qed.

Lemma encode_overflows v header : walk false v [] = (v, []) → json_dumps (Dict [("message", v); ("blobs", Items false [])])%string = Ok header →
  MAX_HEADER < Z.of_nat (length header) → is_ok (encode v false) = false.
Proof.
  intros Hw Hj Hn. unfold encode. rewrite Hw. cbn [map]. rewrite Hj. cbn [mbind res_bind].
  by replace (MAX_HEADER <? Z.of_nat (length header)) with true by (symmetry; apply Z.ltb_lt; lia).
Qed.

Lemma text_encode n : Z.of_nat n + 36 ≤ MAX_HEADER → ∃ data, encode (text_response n) false = Ok data ∧ length data = (n + 44)%nat.
Proof.
  intros Hn. unfold text_response. match goal with |- context [encode ?v _] => set (w := v) end.
  destruct (encode_fits w (dumps (Dict [("message", w); ("blobs", Items false [])])%string)) as (data & H1 & H2); [reflexivity|reflexivity| |].
  all: assert (Hl : length (dumps (Dict [("message", w); ("blobs", Items false [])])%string) = (n + 36)%nat)
    by (unfold w; cbn [dumps map fst snd comma_join app]; count_chars; lia).
  - lia.
  - exists data. split; [done|lia].
Qed.

(** Two responses that are sent together and cannot be *)
Definition long_batch (n : nat) : list reply := [Reply "r1" (text_response n); Reply "r2" (text_response n)].

Lemma long_batch_refused n : MAX_HEADER < 2 * Z.of_nat n → message_ok ex_channel true (long_batch n) = false.
Proof.
  intros Hn. unfold message_ok, batch_message, rpc, long_batch, reply_value, text_response. cbn [map rp_identity rp_response].
  match goal with |- context [encode ?v _] => set (w := v) end.
  apply (encode_overflows w (dumps (Dict [("message", w); ("blobs", Items false [])])%string)); [reflexivity|reflexivity|].
  unfold w. cbn [dumps map fst snd comma_join app]. count_chars. lia.
Qed.

(** 2.5 MiB of text *)
Definition long : nat := Z.to_nat 2621440.

(** Both can be encoded, and the sender takes them into one batch. *)
Lemma long_batch_made : ∃ data s, encode (text_response long) false = Ok data ∧
  next_batch (new_bridge <| br_responses := [(Reply "r1" (text_response long), Z.of_nat (length data)); (Reply "r2" (text_response long), Z.of_nat (length data))] |>) = Some s ∧
  br_batch s = Some (long_batch long).
Proof.
  assert (Hl : Z.of_nat long = 2621440) by (unfold long; by rewrite Z2Nat.id). revert Hl. generalize long. intros n Hl.
  destruct (text_encode n) as (data & Hd & Hn); [unfold MAX_HEADER; lia|]. exists data. eexists. split; [done|]. rewrite Hn.
  unfold next_batch. cbn. replace (BATCH_BYTES <? _) with false by (symmetry; apply Z.ltb_ge; unfold BATCH_BYTES; lia). split; reflexivity.
Qed.

Lemma sender_stuck_witness : ∃ s, br_batch s = Some (long_batch long) ∧ message_ok ex_channel true (long_batch long) = false ∧
  ∀ l w', wsteps "h" ex_channel true (λ _, "h"%string) (λ _, 1) (World broker_init ∅ s [] []) l w' → Restarted ∉ l → br_batch (w_bridge w') = Some (long_batch long).
Proof.
  destruct long_batch_made as (data & s & _ & _ & Hs). exists s. split; [exact Hs|].
  assert (Hm : message_ok ex_channel true (long_batch long) = false) by (apply long_batch_refused; unfold long; rewrite Z2Nat.id by done; done).
  split; [exact Hm|]. intros l w' Hsteps Hl.
  apply (sender_stuck "h" ex_channel true (λ _, "h"%string) (λ _, 1) (World broker_init ∅ s [] []) l w' (long_batch long));
    [exact Hs|exact Hm|apply not_elem_of_nil|apply not_elem_of_nil|exact Hsteps|exact Hl].
Defined.
