(* ===== verification/Ownership.v ===== *)
(** [sandbox/ownership.py]: leases of sandbox owners, kept by the worker. A lease
    ends when its process is seen dead or, when nothing is known of the process,
    when its heartbeats stop; the end is final. Clocks, what is known of a process
    and whether a write reaches the disk are inputs. *)

From S2P Require Import Prelude OrderedDict Values.
Local Open Scope Z_scope.

Definition HEARTBEAT_SECONDS : Z := seconds 5.
Definition GRACE_SECONDS : Z := seconds 600.

(** A process as a client names it. *)
Record process := Process { pr_pid : Z; pr_started : string; pr_scope : value }.
#[export] Instance process_eq_dec : EqDecision process.
Proof. solve_decision. Defined.

(** A persisted lease. *)
Record lease := Lease {
  l_id : string; l_process : option process; l_expires : Z; l_reason : option string }.

(** The leases on disk, the records in memory, and the leases of cluster clients. *)
Record owners := Owners {
  o_disk : gmap string lease;
  o_records : gmap string lease;
  o_managed : gmap string string }.

(** [Owners._path] *)
Definition is_hex (c : ascii) : bool := is_digit c || ((97 <=? code c) && (code c <=? 102)).
Definition valid_id (identity : string) : bool :=
  (String.length identity =? 32)%nat && forallb is_hex (chars identity).
Definition _path (identity : string) : res () :=
  raise_if (negb (valid_id identity)) ValueError "invalid owner ID".

(** [Owners._read]: the memory record, else the file, which is then remembered. *)
Definition _read (o : owners) (identity : string) : res lease * owners :=
  match o_records o !! identity with
  | Some l => (Ok l, o)
  | None =>
      match _path identity with
      | Err e => (Err e, o)
      | Ok _ =>
          match o_disk o !! identity with
          | Some l => (Ok l, Owners (o_disk o) (<[identity := l]> (o_records o)) (o_managed o))
          | None => (raise FileNotFoundError identity, o)
          end
      end
  end.

(** [Owners._write], when the disk takes it. *)
Definition _write (o : owners) (l : lease) : owners :=
  Owners (<[l_id l := l]> (o_disk o)) (<[l_id l := l]> (o_records o)) (o_managed o).

(** What the worker observes at the moment of a call: the time, what it knows of
    a process ([process_alive]), and whether the metadata disk takes a write. *)
Record world := World { w_now : Z; w_alive : option process → option bool; w_disk_ok : bool }.

(** [Owners.reason] *)
Definition reason (o : owners) (identity : option string) (w : world) : res (option string) * owners :=
  match identity with
  | None => (Ok None, o)
  | Some identity =>
      match _read o identity with
      | (Err e, o) => if bool_decide (exn_kind e = FileNotFoundError) then (Ok (Some "owner_lost"%string), o) else (Err e, o)
      | (Ok l, o) =>
          match l_reason l with
          | Some r => (Ok (Some r), o)
          | None =>
              let why := match w_alive w (l_process l) with
                         | Some false => Some "owner_exited"%string
                         | Some true => None
                         | None => if l_expires l <=? w_now w then Some "owner_heartbeat_expired"%string else None
                         end in
              match why with
              | None => (Ok None, o)
              | Some r =>
                  let expired := Lease (l_id l) (l_process l) (l_expires l) (Some r) in
                  let o := Owners (o_disk o) (<[identity := expired]> (o_records o)) (o_managed o) in
                  (Ok (Some r), if w_disk_ok w then _write o expired else o)
              end
          end
      end
  end.

(** [Owners.heartbeat]; a failed write raises. *)
Definition heartbeat (o : owners) (identity : string) (w : world) : res () * owners :=
  match reason o (Some identity) w with
  | (Err e, o) => (Err e, o)
  | (Ok (Some r), o) => (raise OwnerExpired ("sandbox owner is no longer active: " ++ r), o)
  | (Ok None, o) =>
      match _read o identity with
      | (Err e, o) => (Err e, o)
      | (Ok l, o) =>
          if w_disk_ok w
          then (Ok (), _write o (Lease (l_id l) (l_process l) (w_now w + GRACE_SECONDS) (l_reason l)))
          else (raise OSError "metadata disk", o)
      end
  end.

(** The identity check of [register]. *)
Definition valid_process (p : option process) : bool :=
  match p with
  | None => true
  | Some p => (0 <? pr_pid p) && (negb (bool_decide (pr_started p = ""%string)) && forallb is_digit (chars (pr_started p)))
              && match pr_scope p with Dict _ => true | _ => false end
  end.

(** [Owners.register] *)
Definition register (o : owners) (identity : string) (p : option process) (w : world) : res () * owners :=
  match _path identity with
  | Err e => (Err e, o)
  | Ok _ =>
      if negb (valid_process p) then (raise ValueError "invalid owner process identity", o)
      else if bool_decide (is_Some (o_disk o !! identity)) then
        match _read o identity with
        | (Err e, o) => (Err e, o)
        | (Ok l, o) =>
            if bool_decide (l_process l = p) then heartbeat o identity w
            else (raise ValueError "owner ID is already in use", o)
        end
      else if w_disk_ok w then (Ok (), _write o (Lease identity p (w_now w + GRACE_SECONDS) None))
      else (raise OSError "metadata disk", o)
  end.

(** [Owners.register_managed]; [fresh] is the new identity, should one be needed. *)
Definition register_managed (o : owners) (identity : string) (p : option process) (fresh : string) (w : world)
    : res string * owners :=
  match _path identity with
  | Err e => (Err e, o)
  | Ok _ =>
      let known := match o_managed o !! identity with
                   | Some l => Some l
                   | None => if bool_decide (is_Some (o_disk o !! identity)) then Some identity else None
                   end in
      let checked :=
        match known with
        | None => (Ok None, o)
        | Some l =>
            match _read o l with
            | (Err e, o) => (Err e, o)
            | (Ok r, o) =>
                if negb (bool_decide (l_process r = p)) then (raise ValueError "owner ID is already in use", o)
                else match reason o (Some l) w with
                     | (Err e, o) => (Err e, o)
                     | (Ok (Some _), o) => (Ok None, o)
                     | (Ok None, o) => (Ok (Some l), o)
                     end
            end
        end in
      match checked with
      | (Err e, o) => (Err e, o)
      | (Ok chosen, o) =>
          let l := default fresh chosen in
          match register o l p w with
          | (Err e, o) => (Err e, o)
          | (Ok _, o) => (Ok l, Owners (o_disk o) (o_records o) (<[identity := l]> (o_managed o)))
          end
      end
  end.

(** [Owners.heartbeat_managed] *)
Definition heartbeat_managed (o : owners) (identity : string) (w : world) : res () * owners :=
  match _path identity with
  | Err e => (Err e, o)
  | Ok _ => heartbeat o (default identity (o_managed o !! identity)) w
  end.

(** A restarted worker remembers only the disk. *)
Definition restart (o : owners) : owners := Owners (o_disk o) ∅ (o_managed o).

Inductive step : owners → owners → Prop :=
  | step_register o i p w : step o (register o i p w).2
  | step_reason o i w : step o (reason o i w).2
  | step_heartbeat o i w : step o (heartbeat o i w).2
  | step_managed o i p fresh w :
      fresh ∉ dom (o_disk o) → valid_id fresh = true → step o (register_managed o i p fresh w).2
  | step_heartbeat_managed o i w : step o (heartbeat_managed o i w).2.

Inductive reachable : owners → Prop :=
  | reachable_start : reachable (Owners ∅ ∅ ∅)
  | reachable_step o o' : reachable o → step o o' → reachable o'
  | reachable_restart o : reachable o → reachable (restart o).

(** * Facts *)

(** What the worker goes by for an identity. *)
Definition current (o : owners) (identity : string) : option lease :=
  match o_records o !! identity with Some l => Some l | None => o_disk o !! identity end.

Definition expired (o : owners) (identity r : string) : Prop :=
  ∃ l, current o identity = Some l ∧ l_reason l = Some r.

(** Memory and disk agree, but for an end that could not be written. *)
Record wf (o : owners) : Prop := {
  wf_ids : ∀ i l, o_disk o !! i = Some l → l_id l = i ∧ valid_id i = true;
  wf_records : ∀ i l, o_records o !! i = Some l → l_id l = i ∧
     ∃ d, o_disk o !! i = Some d ∧ l_process d = l_process l ∧
       (d = l ∨ (l_reason d = None ∧ is_Some (l_reason l) ∧ l_expires d = l_expires l)) }.

(** An operation leaves ended leases ended and every lease its process, and
    removes none. *)
Definition extends (o o' : owners) : Prop :=
  (∀ i r, expired o i r → expired o' i r) ∧
  (∀ i l, o_disk o !! i = Some l → ∃ l', o_disk o' !! i = Some l' ∧ l_process l' = l_process l ∧
     (is_Some (l_reason l) → l' = l)).

Lemma extends_refl o : extends o o.
Proof. split; [done|]. intros i l ->. by exists l. Qed.
Lemma extends_trans a b c : extends a b → extends b c → extends a c.
Proof.
  intros [H1 H2] [G1 G2]. split; [auto|]. intros i l E. destruct (H2 _ _ E) as (l1 & E1 & P1 & R1).
  destruct (G2 _ _ E1) as (l2 & E2 & P2 & R2). exists l2. split; [done|]. split; [congruence|].
  intros Hr. rewrite (R1 Hr) in *. auto.
Qed.

Lemma read_spec o i l o' :
  wf o → _read o i = (l, o') →
  wf o' ∧ extends o o' ∧ o_disk o' = o_disk o ∧ o_managed o' = o_managed o ∧
  (∀ j, current o' j = current o j) ∧
  match l with
  | Ok l => current o i = Some l ∧ o_records o' !! i = Some l
  | Err e => o' = o ∧ (exn_kind e = FileNotFoundError → current o i = None) ∧
      (exn_kind e = ValueError ∨ exn_kind e = FileNotFoundError)
  end.
Proof.
  intros Hwf H. unfold _read in H. destruct (o_records o !! i) as [l0|] eqn:E.
  { injection H as <- <-. split; [done|]. split; [apply extends_refl|]. split; [done|]. split; [done|].
    split; [done|]. unfold current. by rewrite E. }
  destruct (_path i) as [|e] eqn:Ep.
  2: { injection H as <- <-. split; [done|]. split; [apply extends_refl|]. do 3 (split; [done|]).
       split; [done|]. unfold _path, raise_if in Ep. destruct (negb _); [|done].
       injection Ep as <-. split; [done|by left]. }
  destruct (o_disk o !! i) as [l0|] eqn:Ed.
  2: { injection H as <- <-. split; [done|]. split; [apply extends_refl|]. do 3 (split; [done|]).
       split; [done|]. split; [|by right]. intros _. unfold current. by rewrite E. }
  injection H as <- <-.
  assert (Hcur : ∀ j, current (Owners (o_disk o) (<[i := l0]> (o_records o)) (o_managed o)) j = current o j).
  { intros j. unfold current. simpl. destruct (decide (j = i)) as [->|].
    - rewrite lookup_insert_eq. by rewrite E, Ed.
    - by rewrite lookup_insert_ne. }
  split; [|split; [|split; [done|split; [done|split; [done|]]]]].
  - destruct Hwf as [W1 W2]. split; [done|]. simpl. intros j l [[<- <-]|[Hne Hl]]%lookup_insert_Some; [|by apply W2].
    split; [by apply W1|]. exists l0. auto.
  - split; [|intros j l Ej; by exists l]. intros j r (l & El & Hr). exists l. by rewrite Hcur.
  - unfold current. rewrite E, Ed. simpl. by rewrite lookup_insert_eq.
Qed.

(** Writing a new state of the current, unended lease of an identity. *)
Lemma write_wf o i l :
  wf o → valid_id i = true → l_id l = i →
  (∀ c, current o i = Some c → l_reason c = None ∧ l_process c = l_process l) →
  (∀ d, o_disk o !! i = Some d → l_reason d = None ∧ l_process d = l_process l) →
  wf (_write o l) ∧ extends o (_write o l).
Proof.
  intros [W1 W2] Hv Hid Hc Hd. unfold _write. rewrite Hid. split; [split|split]; simpl.
  - intros j l' [[<- <-]|[_ Hl]]%lookup_insert_Some; [done|by apply W1].
  - intros j l' [[<- <-]|[Hne Hl]]%lookup_insert_Some.
    + split; [done|]. exists l. rewrite lookup_insert_eq. auto.
    + rewrite lookup_insert_ne by done. by apply W2.
  - intros j r (c & Ec & Hr). destruct (decide (j = i)) as [->|Hne].
    + destruct (Hc _ Ec). congruence.
    + exists c. split; [|done]. unfold current in *. simpl. by rewrite !lookup_insert_ne by done.
  - intros j d Ed. destruct (decide (j = i)) as [->|Hne].
    + exists l. rewrite lookup_insert_eq. destruct (Hd _ Ed) as [Hn Hp]. split; [done|]. split; [done|].
      rewrite Hn. by intros [? ?].
    + exists d. by rewrite lookup_insert_ne.
Qed.

Lemma reason_spec o i w r o' :
  wf o → reason o (Some i) w = (r, o') →
  wf o' ∧ extends o o' ∧ o_managed o' = o_managed o ∧
  match r with
  | Ok (Some why) =>
      (current o i = None ∧ why = "owner_lost"%string) ∨ expired o' i why
  | Ok None => ∃ l, current o' i = Some l ∧ current o i = Some l ∧ l_reason l = None ∧
      (w_alive w (l_process l) = Some true ∨ (w_alive w (l_process l) = None ∧ w_now w < l_expires l)) ∧
      o_disk o' = o_disk o ∧ o_records o' !! i = Some l
  | Err e => exn_kind e = ValueError
  end.
Proof.
  intros Hwf H. unfold reason in H. destruct (_read o i) as [[l|e] o1] eqn:Er.
  2: { apply read_spec in Er as (W & X & _ & Hm & _ & -> & Hk & Hv); [|done].
       destruct (bool_decide (exn_kind e = _)) eqn:Ek; injection H as <- <-; (split; [done|]; split; [done|]; split; [done|]); bool_prop; [left; auto|].
       destruct Hv; congruence. }
  apply read_spec in Er as (W & X & Hd & Hm & Hcur & Hl & Hrec); [|done].
  destruct (l_reason l) as [r0|] eqn:Hr.
  { injection H as <- <-. split; [done|]. split; [done|]. split; [done|]. right. exists l. split; [|done]. by rewrite Hcur. }
  set (why := match w_alive w (l_process l) with Some false => _ | Some true => None | None => _ end) in H.
  destruct why as [r0|] eqn:Ew.
  2: { injection H as <- <-. split; [done|]. split; [done|]. split; [done|]. exists l. rewrite Hcur.
       split; [done|]. split; [done|]. split; [done|]. split; [|done]. subst why.
       destruct (w_alive w (l_process l)) as [[]|]; [by left|done|right]. split; [done|].
       destruct (Z.leb_spec (l_expires l) (w_now w)); [done|lia]. }
  clear Ew why. set (ex := Lease (l_id l) (l_process l) (l_expires l) (Some r0)) in *.
  set (o2 := Owners (o_disk o1) (<[i := ex]> (o_records o1)) (o_managed o1)) in *.
  destruct (wf_records _ W i l Hrec) as (Hid & d & Ed & Pd & Sd).
  assert (Hdr : l_reason d = None) by (destruct Sd as [->|(? & _)]; done).
  assert (Hde : l_expires d = l_expires l) by (destruct Sd as [->|(_ & _ & ?)]; done).
  assert (W2 : wf o2 ∧ extends o1 o2).
  { split; [split|split]; simpl.
    - apply W.
    - intros j l' [[<- <-]|[Hne Hl']]%lookup_insert_Some; [|by apply W]. split; [done|].
      exists d. split; [done|]. split; [done|]. right. split; [done|]. split; [by eexists|done].
    - intros j q (c & Ec & Hc). destruct (decide (j = i)) as [->|Hne].
      + rewrite Hcur, Hl in Ec. congruence.
      + exists c. split; [|done]. unfold current in *. simpl. by rewrite lookup_insert_ne.
    - intros j l' Ej. by exists l'. }
  destruct W2 as [W2 X2].
  assert (Hex2 : expired o2 i r0).
  { exists ex. split; [|done]. unfold current, o2. simpl. by rewrite lookup_insert_eq. }
  injection H as <- <-. destruct (w_disk_ok w).
  - assert (Hw : wf (_write o2 ex) ∧ (∀ j r, expired o2 j r → expired (_write o2 ex) j r) ∧
      ∀ j l', o_disk o2 !! j = Some l' → ∃ l'', o_disk (_write o2 ex) !! j = Some l'' ∧ l_process l'' = l_process l' ∧
        (is_Some (l_reason l') → l'' = l')).
    { unfold _write. simpl l_id. rewrite Hid. split; [split|split]; simpl.
      - intros j l' [[<- <-]|[_ Hl']]%lookup_insert_Some; [|by apply W]. split; [done|].
        by apply (wf_ids _ W) in Ed as [_ ?].
      - intros j l' [[<- <-]|[Hne Hl']]%lookup_insert_Some.
        + split; [done|]. exists ex. rewrite lookup_insert_eq. auto.
        + rewrite lookup_insert_ne by done. rewrite lookup_insert_ne in Hl' by done. by apply W.
      - intros j q (c & Ec & Hc). exists c. split; [|done]. unfold current in *. simpl in *.
        destruct (decide (j = i)) as [->|Hne].
        + rewrite lookup_insert_eq in Ec |- *. done.
        + rewrite !lookup_insert_ne by done. by rewrite lookup_insert_ne in Ec.
      - intros j l' Ej. destruct (decide (j = i)) as [->|Hne].
        + rewrite lookup_insert_eq. exists ex. split; [done|]. assert (l' = d) as -> by congruence.
          split; [done|]. rewrite Hdr. by intros [? ?].
        + exists l'. by rewrite lookup_insert_ne. }
    destruct Hw as (W3 & X3 & Y3). split; [done|]. split; [|split; [done|]].
    + eapply extends_trans; [exact X|]. eapply extends_trans; [exact X2|]. by split.
    + right. auto.
  - split; [done|]. split; [by eapply extends_trans|]. split; [done|]. by right.
Qed.

Lemma current_disk o i l : wf o → current o i = Some l → ∃ d, o_disk o !! i = Some d ∧ l_process d = l_process l ∧
  l_id l = i ∧ valid_id i = true ∧ (l_reason l = None → d = l).
Proof.
  intros [W1 W2] H. unfold current in H. destruct (o_records o !! i) as [c|] eqn:E.
  - injection H as ->. destruct (W2 _ _ E) as (Hid & d & Ed & Pd & Sd). exists d.
    split; [done|]. split; [done|]. split; [done|]. split; [by apply (W1 _ _ Ed)|].
    intros Hn. destruct Sd as [?|(_ & Hs & _)]; [done|]. rewrite Hn in Hs. by destruct Hs.
  - exists l. destruct (W1 _ _ H). auto.
Qed.

Lemma heartbeat_spec o i w r o' :
  wf o → heartbeat o i w = (r, o') →
  wf o' ∧ extends o o' ∧ o_managed o' = o_managed o ∧
  match r with
  | Ok _ => ∃ l, current o i = Some l ∧ l_reason l = None ∧ w_alive w (l_process l) ≠ Some false ∧
      current o' i = Some (Lease (l_id l) (l_process l) (w_now w + GRACE_SECONDS) None)
  | Err e => exn_kind e = OwnerExpired → current o i = None ∨ ∃ why, expired o' i why
  end.
Proof.
  intros Hwf H. unfold heartbeat in H. destruct (reason o (Some i) w) as [[why|e] o1] eqn:E.
  2: { injection H as <- <-. apply reason_spec in E as (W & X & M & Hv); [|done].
       split; [done|]. split; [done|]. split; [done|]. intros Hk. congruence. }
  apply reason_spec in E as (W & X & M & Hr); [|done]. destruct why as [why|].
  { injection H as <- <-. split; [done|]. split; [done|]. split; [done|]. intros _.
    destruct Hr as [[? _]|?]; [by left|right; eauto]. }
  destruct Hr as (l & Hc' & Hc & Hn & Hal & Hd & Hrec).
  assert (Er : _read o1 i = (Ok l, o1)) by (unfold _read; by rewrite Hrec). rewrite Er in H.
  destruct (w_disk_ok w); injection H as <- <-.
  2: { split; [done|]. split; [done|]. split; [done|]. done. }
  destruct (current_disk o1 i l W Hc') as (d & Ed & Pd & Hid & Hv & Hdl). specialize (Hdl Hn). subst d.
  destruct (write_wf o1 i (Lease (l_id l) (l_process l) (w_now w + GRACE_SECONDS) (l_reason l))) as [W' X'];
    [done|done|done|intros c E; split; [congruence|simpl; congruence]|intros c E; split; [congruence|simpl; congruence]|].
  split; [done|]. split; [by eapply extends_trans|]. split; [done|]. exists l. split; [done|]. split; [done|].
  split; [by intros E0; rewrite E0 in Hal; destruct Hal as [?|[? _]]|]. unfold current, _write. simpl. rewrite Hid, Hn.
  by rewrite lookup_insert_eq.
Qed.

Lemma register_spec o i p w r o' :
  wf o → register o i p w = (r, o') →
  wf o' ∧ extends o o' ∧ o_managed o' = o_managed o ∧
  (r = Ok () → (∀ why, ¬ expired o i why) ∧ current o' i = Some (Lease i p (w_now w + GRACE_SECONDS) None)).
Proof.
  intros Hwf H. unfold register in H. destruct (_path i) as [[]|e] eqn:Ep.
  2: { injection H as <- <-. split; [done|]. split; [apply extends_refl|done]. }
  assert (Hv : valid_id i = true) by (unfold _path, raise_if in Ep; destruct (valid_id i); done).
  destruct (negb (valid_process p)).
  { injection H as <- <-. split; [done|]. split; [apply extends_refl|done]. }
  case_bool_decide as Eex.
  - destruct (_read o i) as [[l|e] o1] eqn:Er.
    2: { apply read_spec in Er as (W & X & _ & M & _ & -> & _); [|done]. injection H as <- <-. done. }
    apply read_spec in Er as (W & X & D & M & Hcur & Hl & Hrec); [|done].
    case_bool_decide as Epr.
    2: { injection H as <- <-. done. }
    apply heartbeat_spec in H as (W' & X' & M' & Hr); [|done].
    split; [done|]. split; [by eapply extends_trans|]. split; [congruence|]. intros ->.
    destruct Hr as (l' & Hc & Hn & _ & Hc'). rewrite Hcur, Hl in Hc. injection Hc as <-. split.
    + intros why (c & Ec & Hwhy). congruence.
    + rewrite Hc'. destruct (current_disk o i l Hwf Hl) as (_ & _ & _ & -> & _). by rewrite Epr.
  - assert (Ed : o_disk o !! i = None) by (by apply eq_None_not_Some).
    assert (Ec : current o i = None).
    { unfold current. destruct (o_records o !! i) as [c|] eqn:E; [|done].
      apply (wf_records _ Hwf) in E as (_ & d & E & _). congruence. }
    destruct (w_disk_ok w); injection H as <- <-; [|split; [done|]; split; [apply extends_refl|done]].
    destruct (write_wf o i (Lease i p (w_now w + GRACE_SECONDS) None)) as [W' X'];
      [done|done|done|intros c E; congruence|intros c E; congruence|].
    split; [done|]. split; [done|]. split; [done|]. intros _. split; [intros why (c & E & _); congruence|].
    unfold current, _write. simpl. by rewrite lookup_insert_eq.
Qed.

Lemma register_managed_spec o i p fresh w r o' :
  wf o → fresh ∉ dom (o_disk o) → register_managed o i p fresh w = (r, o') →
  wf o' ∧ extends o o' ∧
  (∀ l, r = Ok l → o_managed o' !! i = Some l ∧ (∀ why, ¬ expired o l why) ∧
     current o' l = Some (Lease l p (w_now w + GRACE_SECONDS) None) ∧
     (l = fresh ∨ o_managed o !! i = Some l ∨ (o_managed o !! i = None ∧ l = i))).
Proof.
  intros Hwf Hfresh H. unfold register_managed in H. destruct (_path i) as [[]|e].
  2: { injection H as <- <-. split; [done|]. split; [apply extends_refl|done]. }
  set (known := match o_managed o !! i with Some l => Some l | None => _ end) in H.
  set (checked := match known with None => (Ok None, o) | Some l => _ end) in H.
  assert (Hchk : ∃ res o1, checked = (res, o1) ∧ wf o1 ∧ extends o o1 ∧ o_managed o1 = o_managed o ∧
    ∀ c, res = Ok c → c = None ∨ c = known).
  { unfold checked. destruct known as [l|]; [|by exists (Ok None), o; split_and!; [..|apply extends_refl|done|naive_solver]].
    destruct (_read o l) as [[rec|e] o1] eqn:Er; apply read_spec in Er as (W & X & _ & M & _); try done.
    2: { exists (Err e), o1. done. }
    destruct (negb _); [by exists (raise ValueError "owner ID is already in use"), o1|].
    destruct (reason o1 (Some l) w) as [[why|e] o2] eqn:Ers; apply reason_spec in Ers as (W2 & X2 & M2 & _); try done.
    - assert (Hx : extends o o2) by by eapply extends_trans. assert (o_managed o2 = o_managed o) by congruence.
      destruct why; [exists (Ok None), o2|exists (Ok (Some l)), o2]; naive_solver.
    - exists (Err e), o2. split; [done|]. split; [done|]. split; [by eapply extends_trans|]. split; [congruence|done]. }
  destruct Hchk as (res & o1 & E & W & X & M & Hk). rewrite E in H. clear E checked.
  destruct res as [chosen|e]; [|injection H as <- <-; done].
  destruct (register o1 (default fresh chosen) p w) as [[[]|e] o2] eqn:Er.
  2: { apply register_spec in Er as (W2 & X2 & _ & _); [|done]. injection H as <- <-.
       split; [done|]. split; [by eapply extends_trans|done]. }
  apply register_spec in Er as (W2 & X2 & M2 & Hr); [|done]. injection H as <- <-.
  destruct (Hr eq_refl) as [Hne Hc]. split; [destruct W2; by split|]. split.
  { eapply extends_trans; [exact X|]. eapply extends_trans; [exact X2|]. split; [done|]. intros j l Ej. by exists l. }
  intros l [= <-]. simpl. rewrite lookup_insert_eq. split; [done|]. split.
  { intros why Hx. by apply (Hne why), X. }
  split; [exact Hc|]. destruct (Hk _ eq_refl) as [->| ->]; [by left|].
  unfold known. destruct (o_managed o !! i) as [l|] eqn:Em; simpl; [right; by left|].
  case_bool_decide; simpl; [right; right; done|by left].
Qed.

Lemma step_spec o o' : wf o → step o o' → wf o' ∧ extends o o'.
Proof.
  intros Hwf H. destruct H as [o i p w|o i w|o i w|o i p fresh w Hf Hv|o i w].
  - destruct (register o i p w) as [r o'] eqn:E. by apply register_spec in E as (? & ? & _).
  - destruct i as [i|]; [|split; [done|apply extends_refl]].
    destruct (reason o (Some i) w) as [r o'] eqn:E. by apply reason_spec in E as (? & ? & _).
  - destruct (heartbeat o i w) as [r o'] eqn:E. by apply heartbeat_spec in E as (? & ? & _).
  - destruct (register_managed o i p fresh w) as [r o'] eqn:E. by apply register_managed_spec in E as (? & ? & _).
  - unfold heartbeat_managed. destruct (_path i); [|split; [done|apply extends_refl]].
    destruct (heartbeat o _ w) as [r o'] eqn:E. by apply heartbeat_spec in E as (? & ? & _).
Qed.

Lemma reachable_wf o : reachable o → wf o.
Proof.
  induction 1 as [|o o' _ IH Hs|o _ IH]; [by split|by apply step_spec in Hs as [? _]|].
  destruct IH as [W1 W2]. by split.
Qed.

(** The end of a lease is final and justified. Once a lease has ended, no
    sequence of registrations, heartbeats and checks revives it: it keeps its
    reason, heartbeats are refused, and it survives restarts once on disk. A
    check reports an end only for an unknown lease, one that had ended, one whose
    process is known dead, or one of an unknown process past its deadline. *)
Theorem expiry_final o :
  reachable o →
  (∀ o' i why, rtc step o o' → expired o i why →
     expired o' i why ∧ ∀ w, (reason o' (Some i) w).1 = Ok (Some why) ∧
       ∃ msg, (heartbeat o' i w).1 = raise OwnerExpired msg) ∧
  (∀ o' i l, rtc step o o' → o_disk o !! i = Some l → is_Some (l_reason l) →
     current (restart o') i = Some l) ∧
  (∀ i w why, (reason o (Some i) w).1 = Ok (Some why) →
     match current o i with
     | None => why = "owner_lost"%string
     | Some l => l_reason l = Some why ∨ (l_reason l = None ∧
         match w_alive w (l_process l) with
         | Some alive => alive = false ∧ why = "owner_exited"%string
         | None => l_expires l ≤ w_now w ∧ why = "owner_heartbeat_expired"%string
         end)
     end).
Proof.
  intros Hwf%reachable_wf.
  assert (Hrtc : ∀ o', rtc step o o' → wf o' ∧ extends o o').
  { clear -Hwf. intros o' H. revert Hwf. induction H as [o|o o1 o' Hs _ IH]; intros Hwf; [split; [done|apply extends_refl]|].
    apply step_spec in Hs as [W X]; [|done]. destruct (IH W) as [W' X']. split; [done|by eapply extends_trans]. }
  assert (Hread : ∀ o l i, wf o → current o i = Some l → ∃ o', _read o i = (Ok l, o')).
  { clear. intros o l i Hwf Hc. destruct (current_disk o i l Hwf Hc) as (_ & _ & _ & _ & Hv & _).
    unfold _read, current in *. destruct (o_records o !! i); [injection Hc as ->; by eexists|].
    unfold _path. rewrite Hv. simpl. rewrite Hc. by eexists. }
  split; [|split].
  - intros o' i why [W X]%Hrtc Hx. apply X in Hx. split; [done|]. intros w. destruct Hx as (l & Hl & Hr).
    destruct (Hread _ _ _ W Hl) as [o1 E]. unfold heartbeat, reason. rewrite E, Hr. split; [done|by eexists].
  - intros o' i l [W [_ X]]%Hrtc Hd Hr. destruct (X _ _ Hd) as (l' & Hl' & _ & E). rewrite (E Hr) in Hl'.
    unfold current, restart. simpl. done.
  - intros i w why H. unfold reason in H. destruct (current o i) as [l|] eqn:Hc.
    + destruct (Hread _ _ _ Hwf Hc) as [o1 E]. rewrite E in H. destruct (l_reason l); [left; by injection H as ->|].
      right. split; [done|]. destruct (w_alive w (l_process l)) as [[]|]; [done|by injection H as <-|].
      destruct (Z.leb_spec (l_expires l) (w_now w)); [|done]. split; [done|]. by injection H as <-.
    + destruct (_read o i) as [[l|e] o1] eqn:E; apply read_spec in E as (_ & _ & _ & _ & _ & Hl); try done.
      * destruct Hl. congruence.
      * destruct (bool_decide _); [by injection H as <-|done].
Qed.

(** Managed leases. In every reachable state [register_managed] gives the
    cluster client a lease of its process that has not ended and runs for the
    whole grace period, remembers it for the client, and takes a new one when the
    old one ended; the old one stays ended. *)
Theorem managed_lease o i p fresh w l o' :
  reachable o → fresh ∉ dom (o_disk o) → register_managed o i p fresh w = (Ok l, o') →
  o_managed o' !! i = Some l ∧ (∀ why, ¬ expired o l why) ∧
  current o' l = Some (Lease l p (w_now w + GRACE_SECONDS) None) ∧
  (l = fresh ∨ o_managed o !! i = Some l ∨ (o_managed o !! i = None ∧ l = i)) ∧
  ∀ j why, expired o j why → expired o' j why.
Proof.
  intros Hwf%reachable_wf Hf H. apply register_managed_spec in H as (_ & [X _] & Hl); [|done|done].
  destruct (Hl l eq_refl) as (H1 & H2 & H3 & H4). done.
Qed.

(** * Witnesses *)

Definition ex_owner : string := "0123456789abcdef0123456789abcdef".
Definition ex_fresh : string := "fedcba9876543210fedcba9876543210".
Definition ex_world (now : Z) (alive : option bool) : world := World now (λ _, alive) true.
Definition ex_dead : owners :=
  (reason (register (Owners ∅ ∅ ∅) ex_owner None (ex_world 0 None)).2 (Some ex_owner) (ex_world (seconds 700) None)).2.

Lemma ex_dead_reachable : reachable ex_dead.
Proof.
  eapply reachable_step; [|apply step_reason]. eapply reachable_step; [constructor|apply step_register].
Qed.

Lemma expiry_final_witness :
  ∃ msg, (heartbeat ex_dead ex_owner (ex_world (seconds 701) None)).1 = raise OwnerExpired msg.
Proof.
  destruct (expiry_final ex_dead ex_dead_reachable) as [H _].
  apply (H ex_dead ex_owner "owner_heartbeat_expired"%string).
  - apply rtc_refl.
  - eexists. split; vm_compute; reflexivity.
Defined.

Lemma managed_lease_witness :
  current (register_managed ex_dead ex_owner None ex_fresh (ex_world (seconds 800) None)).2 ex_fresh =
    Some (Lease ex_fresh None (seconds 800 + GRACE_SECONDS) None).
Proof.
  apply (managed_lease ex_dead ex_owner None ex_fresh (ex_world (seconds 800) None)).
  - exact ex_dead_reachable.
  - apply (bool_decide_unpack _). vm_compute. exact I.
  - vm_compute. reflexivity.
Defined.
