(* ===== verification/Management.v ===== *)
(** [sandbox/management.py]: durable assignments of a worker's sandboxes to a
    controller. [apply] journals an operation under its generation before acting
    on the worker, so delayed and repeated requests are fenced; [authorize] limits
    a sandbox token to its own sandbox. The worker behind it is an interface. *)

From S2P Require Import Prelude Values Ownership.
Local Open Scope Z_scope.

(** * What management needs from the worker *)

(** A definition as the claim reads it: its time to live, if the key is present. *)
Record creation := Creation { cr_spec : value; cr_ttl : option Z }.

(** An operation as the controller sends it. *)
Record intent := Intent {
  in_action : string; in_spec : option creation; in_operation : option string;
  in_reference : option string; in_cache_key : option string; in_refresh : bool;
  in_owner : option string; in_process : option process }.

(** What the worker reports of a sandbox. *)
Record description := Description { de_id : string; de_state : string }.

(** The worker's operations management calls; each may fail and changes the
    worker. [wk_claim] is the record update of a claim, recording included. *)
Class Worker (W : Type) := {
  wk_exists : W → string → bool;
  wk_operation : W → string → res (option string);
  wk_describe : W → string → res description * W;
  wk_create : W → string → intent → option string → res description * W;
  wk_claim : W → string → option string → intent → res () * W;
  wk_terminate : W → string → res description * W }.

(** * The journal *)

Record assignment := Assignment {
  as_id : string; as_cluster : string; as_generation : Z; as_action : string;
  as_intent : string; as_canonical : option string; as_token : string;
  as_owner : option string; as_worker_owner : option (option string) }.

(** Python truth of an optional owner. *)
Definition text_owner (o : option string) : option string :=
  match o with Some s => if bool_decide (s = ""%string) then None else Some s | None => None end.

Section management.
  Context {W : Type} `{Wk : Worker W}.
  (** The SHA-256 of an encoded intent, plain and canonical. *)
  Context (digest canonical_digest : intent → string).

Record management := Management {
  mg_assignments : gmap string assignment; mg_owners : owners; mg_worker : W }.

Definition set_owners (m : management) (o : owners) : management := Management (mg_assignments m) o (mg_worker m).
Definition set_worker (m : management) (w : W) : management := Management (mg_assignments m) (mg_owners m) w.
Definition write (m : management) (a : assignment) : management :=
  Management (<[as_id a := a]> (mg_assignments m)) (mg_owners m) (mg_worker m).

Definition ACTIONS : list string := ["create"; "claim"; "terminate"]%string.

(** The checks of [apply] against the journal. *)
Definition fence (m : management) (identity cluster : string) (generation : Z) (i : intent) : res () :=
  let previous := mg_assignments m !! identity in
  _ ← raise_if (generation <? 1) ValueError "assignment generation must be positive";
  _ ← raise_if (negb (bool_decide (in_action i ∈ ACTIONS))) ValueError "unknown assignment action";
  _ ← raise_if (bool_decide (previous = None) && wk_exists (mg_worker m) identity) PermissionError
        "existing sandbox is not owned by this management assignment";
  _ ← raise_if (bool_decide (previous = None) && bool_decide (in_action i = "claim"%string)) FileNotFoundError
        "cannot claim an unassigned sandbox";
  match previous with
  | None => Ok ()
  | Some p =>
      _ ← raise_if (negb (bool_decide (as_cluster p = cluster))) PermissionError "sandbox belongs to another controller";
      _ ← raise_if (generation <? as_generation p) OperationUnknown "assignment was superseded";
      let matches := match as_canonical p with
                     | Some c => bool_decide (c = canonical_digest i)
                     | None => bool_decide (as_intent p = digest i)
                     end in
      _ ← raise_if ((generation =? as_generation p) && negb matches) ValueError
            "assignment generation already has a different operation";
      raise_if (bool_decide (as_action p = "terminate"%string) && negb (bool_decide (in_action i = "terminate"%string)))
        OperationUnknown "terminated assignment cannot be resurrected"
  end.

(** The owner's lease on this worker, for a create or claim with an owner. *)
Definition lease_for (m : management) (previous : option assignment) (generation : Z) (i : intent)
    (fresh : string) (w : world) : res (option string) * management :=
  match text_owner (in_owner i), bool_decide (in_action i ∈ ["create"; "claim"]%string) with
  | Some owner, true =>
      match previous with
      | Some p =>
          if generation =? as_generation p then
            let lease := default (Some owner) (as_worker_owner p) in
            match lease with
            | None => (raise ValueError "invalid owner ID", m)
            | Some l =>
                match register (mg_owners m) l (in_process i) w with
                | (Err e, o) => (Err e, set_owners m o)
                | (Ok _, o) => (Ok (Some l), set_owners m o)
                end
            end
          else
            match register_managed (mg_owners m) owner (in_process i) fresh w with
            | (Err e, o) => (Err e, set_owners m o)
            | (Ok l, o) => (Ok (Some l), set_owners m o)
            end
      | None =>
          match register_managed (mg_owners m) owner (in_process i) fresh w with
          | (Err e, o) => (Err e, set_owners m o)
          | (Ok l, o) => (Ok (Some l), set_owners m o)
          end
      end
  | _, _ => (Ok None, m)
  end.

(** What [apply] does on the worker once the intent is journaled. *)
Definition act (m : management) (identity : string) (i : intent) (lease : option string) : res description * management :=
  let run (r : res description * W) := (r.1, set_worker m r.2) in
  let w := mg_worker m in
  if bool_decide (in_action i = "create"%string) then
    match in_spec i with
    | None => (raise ValueError "creation requires a sandbox definition", m)
    | Some _ =>
        if wk_exists w identity then
          match wk_operation w identity with
          | Err e => (Err e, m)
          | Ok op =>
              if negb (bool_decide (op = in_operation i))
              then (raise FileExistsError "sandbox ID belongs to another operation", m)
              else match wk_describe w identity with
                   | (Err e, w) => (Err e, set_worker m w)
                   | (Ok d, w) =>
                       if bool_decide (de_state d ∈ ["creating"; "preparing"]%string)
                       then (raise OperationUnknown "worker creation was interrupted; inspect or terminate this attempt", set_worker m w)
                       else (Ok d, set_worker m w)
                   end
          end
        else run (wk_create w identity i lease)
    end
  else if bool_decide (in_action i = "claim"%string) then
    match wk_describe w identity with
    | (Err e, w) => (Err e, set_worker m w)
    | (Ok d, w) =>
        if negb (bool_decide (de_state d = "ready"%string))
        then (raise OperationUnknown "pool member is no longer ready", set_worker m w)
        else match wk_claim w identity lease i with
             | (Err e, w) => (Err e, set_worker m w)
             | (Ok _, w) => let r := wk_describe w identity in (r.1, set_worker m r.2)
             end
    end
  else if wk_exists w identity then run (wk_terminate w identity)
  else (Ok (Description identity "terminated"), m).

(** [Management.token] *)
Definition token (a : assignment) : string := ("sw1." ++ as_id a ++ "." ++ as_token a)%string.

Record applied := Applied { ap_sandbox : description; ap_token : string; ap_generation : Z }.

(** [Management.apply]; [secret] is the random token of a first assignment. *)
Definition apply (m : management) (identity cluster : string) (generation : Z) (i : intent)
    (secret fresh : string) (w : world) : res applied * management :=
  match fence m identity cluster generation i with
  | Err e => (Err e, m)
  | Ok _ =>
      let previous := mg_assignments m !! identity in
      match lease_for m previous generation i fresh w with
      | (Err e, m) => (Err e, m)
      | (Ok lease, m) =>
          let a := Assignment identity cluster generation (in_action i) (digest i) (Some (canonical_digest i))
                     (match previous with Some p => as_token p | None => secret end)
                     (if bool_decide (in_action i ∈ ["claim"; "create"]%string) then in_owner i
                      else previous ≫= as_owner)
                     (if bool_decide (in_action i = "terminate"%string)
                      then Some (default None (previous ≫= as_worker_owner)) else Some lease) in
          let m := write m a in
          match act m identity i lease with
          | (Err e, m) => (Err e, m)
          | (Ok d, m) => (Ok (Applied d (token a) generation), m)
          end
      end
  end.

(** * Authorization *)

(** The operations a sandbox token allows on its own sandbox. *)
Definition SCOPED : list string :=
  ["describe"; "command_start"; "process_status"; "process_wait"; "process_output"; "process_stdin";
   "process_terminate"; "process_resize"; "file"; "setup"; "pause"; "resume"; "terminate"; "capture"; "stop";
   "control"; "recording"; "image_capture"; "image_upload"; "network_policy"; "service_rpc";
   "service_volume_import"; "service_setup"; "vnc_stream"; "runtime_profile"; "runtime_audit"; "delete";
   "delete_status"]%string.

(** [authorize]; [source] is the sandbox a stored reference was captured from, if
    it resolves; a journal that cannot be read authorizes nothing. *)
Definition authorize (m : management) (source : string → option string) (token operation : string)
    (parameters : list (string * string)) : bool :=
  let parameter k := match list_find (λ p, p.1 = k) parameters with Some (_, p) => Some p.2 | None => None end in
  if negb (str_startswith "sw1." token) then false
  else match str_split "."%char token with
  | [_; identity; secret] =>
      match mg_assignments m !! identity with
      | None => false
      | Some a =>
          if negb (bool_decide (secret = as_token a)) then false
          else if bool_decide (operation = "owner_heartbeat"%string) then
            bool_decide (is_Some (as_owner a)) && bool_decide (parameter "identity"%string = as_owner a)
          else if bool_decide (operation ∈ ["snapshot_info"; "snapshot_spec"; "snapshot_verify"]%string) then
            match parameter "reference"%string with
            | None => false
            | Some r => bool_decide (source r = Some (as_id a))
            end
          else if negb (bool_decide (operation ∈ SCOPED)) then false
          else bool_decide (parameter "identity"%string = Some (as_id a))
      end
  | _ => false
  end.

(** * Fencing *)

Lemma act_assignments m identity i lease : mg_assignments (act m identity i lease).2 = mg_assignments m.
Proof.
  unfold act. destruct (bool_decide (in_action i = "create"%string)).
  - destruct (in_spec i); [|done]. destruct (wk_exists _ _); [|done].
    destruct (wk_operation _ _); [|done]. destruct (negb _); [done|].
    destruct (wk_describe _ _) as [[d|e] w]; [|done]. by destruct (bool_decide _).
  - destruct (bool_decide (in_action i = "claim"%string)); [|by destruct (wk_exists _ _)].
    destruct (wk_describe (mg_worker m) identity) as [[d|e] w]; [|done]. destruct (negb _); [done|].
    by destruct (wk_claim _ _ _ _) as [[u|e] w'].
Qed.

Lemma lease_for_assignments m previous generation i fresh w :
  mg_assignments (lease_for m previous generation i fresh w).2 = mg_assignments m.
Proof.
  unfold lease_for. destruct (text_owner (in_owner i)); [|done]. destruct (bool_decide _); [|done].
  destruct previous as [p|].
  - destruct (generation =? as_generation p).
    + destruct (default _ _); [|done]. by destruct (register _ _ _ _) as [[u|e] o].
    + by destruct (register_managed _ _ _ _ _) as [[l|e] o].
  - by destruct (register_managed _ _ _ _ _) as [[l|e] o].
Qed.

(** What passed the checks. *)
Lemma fence_ok m identity cluster generation i :
  fence m identity cluster generation i = Ok () →
  1 ≤ generation ∧ in_action i ∈ ACTIONS ∧
  match mg_assignments m !! identity with
  | None => wk_exists (mg_worker m) identity = false ∧ in_action i ≠ "claim"%string
  | Some p => as_cluster p = cluster ∧ as_generation p ≤ generation ∧
      (generation = as_generation p →
         match as_canonical p with Some c => c = canonical_digest i | None => as_intent p = digest i end) ∧
      (as_action p = "terminate"%string → in_action i = "terminate"%string)
  end.
Proof.
  unfold fence. intros ([] & H1%raise_if_ok & H)%bind_ok. apply bind_ok in H as ([] & H2%raise_if_ok & H).
  apply bind_ok in H as ([] & H3%raise_if_ok & H). apply bind_ok in H as ([] & H4%raise_if_ok & H).
  bool_prop. split; [lia|]. split; [done|].
  destruct (mg_assignments m !! identity) as [p|]; simpl in *; [|by bool_prop].
  apply bind_ok in H as ([] & H5%raise_if_ok & H). apply bind_ok in H as ([] & H6%raise_if_ok & H).
  apply bind_ok in H as ([] & H7%raise_if_ok & H8%raise_if_ok). bool_prop.
  split; [done|]. split; [lia|]. split.
  - intros ->. rewrite Z.eqb_refl in H7. simpl in H7. destruct (as_canonical p); by bool_prop.
  - intros E. rewrite E in H8. simpl in H8. by bool_prop.
Qed.

(** [p'] may replace [p] in the journal. *)
Definition supersedes (p p' : assignment) : Prop :=
  as_id p' = as_id p ∧ as_cluster p' = as_cluster p ∧ as_token p' = as_token p ∧
  as_generation p ≤ as_generation p' ∧
  (as_action p = "terminate"%string → as_action p' = "terminate"%string) ∧
  (∀ c, as_generation p = as_generation p' → as_canonical p = Some c → as_canonical p' = Some c).

Lemma supersedes_refl p : supersedes p p.
Proof. unfold supersedes. split_and!; try done; lia. Qed.

Lemma supersedes_trans p q r : supersedes p q → supersedes q r → supersedes p r.
Proof.
  intros (A1 & A2 & A3 & A4 & A5 & A6) (B1 & B2 & B3 & B4 & B5 & B6).
  unfold supersedes. split_and!; try congruence; try lia; [auto|]. intros c E Ec.
  apply B6; [lia|]. apply A6; [lia|done].
Qed.

Definition journal_ok (m : management) : Prop :=
  ∀ i a, mg_assignments m !! i = Some a → as_id a = i.

Lemma apply_journal m identity cluster generation i secret fresh w r m' :
  journal_ok m → apply m identity cluster generation i secret fresh w = (r, m') →
  journal_ok m' ∧
  (∀ j p, mg_assignments m !! j = Some p → ∃ p', mg_assignments m' !! j = Some p' ∧ supersedes p p') ∧
  (mg_assignments m' = mg_assignments m ∨
   (fence m identity cluster generation i = Ok () ∧
    ∃ a, mg_assignments m' = <[identity := a]> (mg_assignments m) ∧ as_id a = identity ∧
      as_cluster a = cluster ∧ as_generation a = generation ∧ as_action a = in_action i ∧
      as_canonical a = Some (canonical_digest i))) ∧
  (is_ok (fence m identity cluster generation i) = false → m' = m) ∧
  (∀ x, r = Ok x → ∃ a, mg_assignments m' !! identity = Some a ∧ ap_token x = token a ∧
     as_generation a = generation ∧ as_action a = in_action i).
Proof.
  intros Hj H. unfold apply in H. destruct (fence m identity cluster generation i) as [[]|e] eqn:Ef.
  2: { injection H as <- <-. split; [done|]. split; [intros j p E; exists p; split; [done|apply supersedes_refl]|].
       split; [by left|]. done. }
  destruct (lease_for m (mg_assignments m !! identity) generation i fresh w) as [l m1] eqn:El.
  assert (Hm1 : mg_assignments m1 = mg_assignments m).
  { pose proof (lease_for_assignments m (mg_assignments m !! identity) generation i fresh w) as E. by rewrite El in E. }
  destruct l as [lease|e].
  2: { injection H as <- <-. split; [intros j a; rewrite Hm1; by apply Hj|]. split.
       { intros j p E. exists p. rewrite Hm1. split; [done|apply supersedes_refl]. }
       split; [by left|]. done. }
  set (a := Assignment _ _ _ _ _ _ _ _ _) in H.
  pose proof (act_assignments (write m1 a) identity i lease) as Ha.
  destruct (act (write m1 a) identity i lease) as [d m2].
  assert (Hm2 : mg_assignments m2 = <[identity := a]> (mg_assignments m)).
  { simpl in Ha. rewrite Ha. by rewrite Hm1. }
  assert (Hm' : m2 = m') by (destruct d; by injection H).
  subst m2. apply fence_ok in Ef as Hf. destruct Hf as (Hg & Hin & Hf).
  split; [|split; [|split; [|split; [done|]]]].
  - intros j b. rewrite Hm2. intros [[<- <-]|[_ E]]%lookup_insert_Some; [done|by apply Hj].
  - intros j p E. rewrite Hm2. destruct (decide (j = identity)) as [->|Hne].
    + exists a. rewrite lookup_insert_eq. split; [done|]. rewrite E in Hf. destruct Hf as (H1 & H2 & H3 & H4).
      unfold supersedes, a. simpl. rewrite E. split_and!; auto.
      * symmetry. by apply Hj.
      * intros c E1 Ec. rewrite Ec in H3. by rewrite H3.
    + exists p. rewrite lookup_insert_ne by done. split; [done|apply supersedes_refl].
  - right. split; [done|]. by exists a.
  - intros x ->. destruct d as [d|e]; [|done]. injection H as <-. exists a. rewrite Hm2, lookup_insert_eq. done.
Qed.

(** The management's steps: any request of any controller. *)
Inductive requested : management → management → Prop :=
  | requested_apply m identity cluster generation i secret fresh w :
      requested m (apply m identity cluster generation i secret fresh w).2.

(** Assignments are fenced. From any journal, through any sequence of requests
    of any controllers, an assignment keeps its sandbox, cluster and token, its
    generation never decreases, a terminated one stays terminated, and within one
    generation the operation never changes; and a request the checks refuse
    changes nothing, worker included. *)
Theorem assignment_fencing m m' :
  journal_ok m → rtc requested m m' →
  (∀ j p, mg_assignments m !! j = Some p → ∃ p', mg_assignments m' !! j = Some p' ∧ supersedes p p') ∧
  (∀ identity cluster generation i secret fresh w e,
     fence m' identity cluster generation i = Err e →
     apply m' identity cluster generation i secret fresh w = (Err e, m')).
Proof.
  intros Hj Hr. split; [|intros; unfold apply; by rewrite H].
  revert Hj. induction Hr as [m|m m1 m2 Hs _ IH]; intros Hj j p E.
  - exists p. split; [done|apply supersedes_refl].
  - inversion Hs as [? identity cluster generation i secret fresh w]; subst.
    destruct (apply m identity cluster generation i secret fresh w) as [r m1] eqn:Ea. simpl in *.
    apply apply_journal in Ea as (Hj1 & Hk & _); [|done].
    destruct (Hk _ _ E) as (p1 & E1 & S1). destruct (IH Hj1 _ _ E1) as (p2 & E2 & S2).
    exists p2. split; [done|by eapply supersedes_trans].
Qed.

(** A retry is recognised and a late request refused. After an accepted
    request, successful on the worker or not, the same request passes the checks
    again; one of an older generation, of another cluster, of a different
    operation in the same generation, or anything but a termination after a
    termination, is refused. *)
Theorem apply_retry m identity cluster generation i secret fresh w r m' :
  journal_ok m → apply m identity cluster generation i secret fresh w = (r, m') →
  mg_assignments m' ≠ mg_assignments m →
  fence m' identity cluster generation i = Ok () ∧
  ∀ cluster' generation' i', fence m' identity cluster' generation' i' = Ok () →
    cluster' = cluster ∧ generation ≤ generation' ∧
    (generation' = generation → canonical_digest i' = canonical_digest i) ∧
    (in_action i = "terminate"%string → in_action i' = "terminate"%string).
Proof.
  intros Hj Ha Hne. apply apply_journal in Ha as (_ & _ & [?|(Hf & a & Hm' & H1 & H2 & H3 & H4 & H5)] & _); [done| |done].
  assert (El : mg_assignments m' !! identity = Some a) by (rewrite Hm'; apply lookup_insert_eq).
  apply fence_ok in Hf as (Hg & Hin & _). split.
  - unfold fence. rewrite El. destruct (Z.ltb_spec generation 1); [lia|].
    rewrite (bool_decide_eq_true_2 (in_action i ∈ ACTIONS)) by done. simpl.
    rewrite (bool_decide_eq_true_2 (as_cluster a = cluster)) by done. simpl. destruct (Z.ltb_spec generation (as_generation a)); [lia|].
    rewrite H5, H3, H4. rewrite (bool_decide_eq_true_2 (canonical_digest i = _)) by done.
    rewrite andb_false_r. simpl. by destruct (bool_decide (in_action i = "terminate"%string)).
  - intros cluster' generation' i' (_ & _ & Hf)%fence_ok. rewrite El in Hf.
    destruct Hf as (F1 & F2 & F3 & F4). rewrite H5 in F3. split; [congruence|]. split; [lia|].
    split; [|intros; apply F4; congruence]. intros ->. symmetry. apply F3. congruence.
Qed.

(** a sandbox token opens only its own sandbox. What [authorize] accepts
    carries the token of the assignment it names, and is a heartbeat of that
    assignment's owner, a read of a snapshot taken from that sandbox, or one of
    the listed operations on that sandbox; nothing that lists, creates, claims or
    assigns is among them. *)
Theorem token_scope m source t operation parameters :
  journal_ok m → authorize m source t operation parameters = true →
  ∃ prefix identity a, str_split "."%char t = [prefix; identity; as_token a] ∧
    mg_assignments m !! identity = Some a ∧ as_id a = identity ∧
    let parameter k := match list_find (λ p : string * string, p.1 = k) parameters with Some (_, p) => Some p.2 | None => None end in
    ((operation = "owner_heartbeat"%string ∧ is_Some (as_owner a) ∧ parameter "identity"%string = as_owner a) ∨
     (operation ∈ ["snapshot_info"; "snapshot_spec"; "snapshot_verify"]%string ∧
        ∃ r, parameter "reference"%string = Some r ∧ source r = Some identity) ∨
     (operation ∈ SCOPED ∧ parameter "identity"%string = Some identity)) ∧
    (operation ∉ ["list"; "create"; "apply"; "inventory"; "prepare"; "logs"]%string).
Proof.
  intros Hj H. unfold authorize in H. destruct (negb (str_startswith _ _)); [done|].
  destruct (str_split "."%char t) as [|prefix [|identity [|secret [|]]]]; try done.
  destruct (mg_assignments m !! identity) as [a|] eqn:Ea; [|done].
  destruct (negb (bool_decide (secret = as_token a))) eqn:Es; [done|]. bool_prop. subst secret.
  exists prefix, identity, a. split; [done|]. split; [done|]. split; [by apply Hj|]. cbv zeta in *.
  rewrite (Hj _ _ Ea) in H.
  set (parameter := λ k, match list_find _ parameters with Some (_, p) => Some p.2 | None => None end) in *.
  destruct (bool_decide (operation = "owner_heartbeat"%string)) eqn:E1; bool_prop.
  { split; [by left|]. subst operation. apply (bool_decide_unpack _). vm_compute. exact I. }
  destruct (bool_decide (operation ∈ ["snapshot_info"; "snapshot_spec"; "snapshot_verify"]%string)) eqn:E2; bool_prop.
  - match type of H with context [match ?o with Some r => _ | None => false end] => destruct o as [ref|] eqn:Er; [|done] end.
    bool_prop. split; [right; left; split; [done|]; by exists ref|].
    repeat match goal with H : operation ∈ _ :: _ |- _ => apply elem_of_cons in H as [->|H];
      [apply (bool_decide_unpack _); vm_compute; exact I|] end. by apply not_elem_of_nil in E2.
  - destruct (negb (bool_decide (operation ∈ SCOPED))) eqn:E3; [done|]. bool_prop.
    split; [by right; right|]. intros Hop. clear -E3 Hop.
    repeat (apply elem_of_cons in Hop as [->|Hop];
      [revert E3; apply (bool_decide_unpack (_ ∉ SCOPED)); vm_compute; exact I|]). by apply not_elem_of_nil in Hop.
Qed.
End management.

(** * Witnesses: a worker that only tracks the state of each sandbox *)

#[export] Instance state_worker : Worker (gmap string string) := {
  wk_exists w i := bool_decide (is_Some (w !! i));
  wk_operation w i := Ok None;
  wk_describe w i := match w !! i with
                     | Some s => (Ok (Description i s), w)
                     | None => (raise FileNotFoundError i, w)
                     end;
  wk_create w i intent owner := (Ok (Description i "ready"), <[i := "ready"%string]> w);
  wk_claim w i owner intent := (Ok (), w);
  wk_terminate w i := (Ok (Description i "terminated"), <[i := "terminated"%string]> w) }.

Definition ex_digest (i : intent) : string := in_action i.
Definition ex_intent (action : string) : intent :=
  Intent action (Some (Creation Null None)) None None None false None None.
Definition ex_m0 : management := Management ∅ (Owners ∅ ∅ ∅) (∅ : gmap string string).
Definition ex_now : world := World 0 (λ _, None) true.
Definition ex_created : management :=
  (apply ex_digest ex_digest ex_m0 "s1" "c" 1 (ex_intent "create") "t" ex_fresh ex_now).2.
Definition ex_terminated : management :=
  (apply ex_digest ex_digest ex_created "s1" "c" 2 (ex_intent "terminate") "u" ex_fresh ex_now).2.

Lemma ex_m0_ok : journal_ok ex_m0.
Proof. intros i a H. simpl in H. by rewrite lookup_empty in H. Qed.

Lemma ex_created_ok : journal_ok ex_created.
Proof.
  destruct (apply ex_digest ex_digest ex_m0 "s1" "c" 1 (ex_intent "create") "t" ex_fresh ex_now) as [r m] eqn:E.
  pose proof (apply_journal _ _ _ _ _ _ _ _ _ _ _ _ ex_m0_ok E) as [H _].
  unfold ex_created. by rewrite E.
Qed.

Lemma assignment_fencing_witness :
  ∃ p', mg_assignments ex_terminated !! "s1"%string = Some p' ∧ as_token p' = "t"%string.
Proof.
  destruct (assignment_fencing ex_digest ex_digest ex_created ex_terminated) as [H _].
  - exact ex_created_ok.
  - apply rtc_once. apply requested_apply.
  - destruct (H "s1"%string _ (eq_refl : mg_assignments ex_created !! "s1"%string = Some
      (Assignment "s1" "c" 1 "create" "create" (Some "create") "t" None (Some None))%string)) as (p' & E & S).
    exists p'. split; [exact E|]. apply S.
Defined.

Lemma apply_retry_witness :
  fence ex_digest ex_digest ex_created "s1" "c" 1 (ex_intent "create") = Ok ().
Proof.
  apply (apply_retry ex_digest ex_digest ex_m0 "s1" "c" 1 (ex_intent "create") "t" ex_fresh ex_now
    (apply ex_digest ex_digest ex_m0 "s1" "c" 1 (ex_intent "create") "t" ex_fresh ex_now).1).
  - exact ex_m0_ok.
  - reflexivity.
  - intros E. apply (f_equal (λ m, bool_decide (is_Some (m !! "s1"%string)))) in E. vm_compute in E. discriminate E.
Defined.

Lemma token_scope_witness :
  authorize ex_created (λ _, None) "sw1.s1.t" "describe" [("identity", "s1")]%string = true ∧
  ∃ prefix identity a, str_split "."%char "sw1.s1.t" = [prefix; identity; as_token a].
Proof.
  assert (H : authorize ex_created (λ _, None) "sw1.s1.t" "describe" [("identity", "s1")]%string = true)
    by (vm_compute; reflexivity).
  split; [exact H|]. destruct (token_scope _ _ _ _ _ ex_created_ok H) as (p & i & a & E & _).
  exists p, i, a. exact E.
Defined.
