(* ===== verification/Sandboxes.v ===== *)
(** Sandboxes on a worker ([sandbox/worker.py], [deletion.py]): the record of one
    sandbox, the operations that write it, and what they ask of the runtime. A
    lock per identity serialises the operations on a sandbox, so one record and
    one runtime are followed; the worker may end at any point of an operation.

    An operation is a program: it reads and replaces the record and asks. Answers
    are arbitrary, except for what the runtime documents: only a creation starts
    a sandbox, a status does not deny a running one, a termination that returns
    has ended it, and what is not running cannot be paused or resumed. *)

From S2P Require Import Prelude.

#[local] Open Scope Z_scope.

(** * Records *)

(** The part of a definition the lifecycle looks at *)
Record sspec := SSpec {
  sp_keep : bool; sp_ttl : option Z; sp_detached : bool; sp_discard : bool;
  sp_recording : bool; sp_on_claim : bool; sp_network : bool; sp_group : bool;
  sp_import : bool; sp_gpu : bool; sp_controls : bool; sp_proxy : bool; sp_setup : list string }.

Record record := SRecord {
  r_name : option string; r_state : string; r_operation : option string; r_owner : option string;
  r_spec : sspec; r_expires : option Z; r_agent : bool; r_group : bool; r_imports : list string;
  r_restored : option string; r_checkpoint : option string; r_reason : option string;
  r_error : option string; r_cleanup_error : option string;
  r_cleanup_complete : bool; r_deleted : bool }.

#[export] Instance sspec_updatable : Updatable sspec :=
  λ s, SSpec (sp_keep s) (sp_ttl s) (sp_detached s) (sp_discard s) (sp_recording s) (sp_on_claim s)
         (sp_network s) (sp_group s) (sp_import s) (sp_gpu s) (sp_controls s) (sp_proxy s) (sp_setup s).
#[export] Instance record_updatable : Updatable record :=
  λ r, SRecord (r_name r) (r_state r) (r_operation r) (r_owner r) (r_spec r) (r_expires r) (r_agent r)
         (r_group r) (r_imports r) (r_restored r) (r_checkpoint r) (r_reason r) (r_error r)
         (r_cleanup_error r) (r_cleanup_complete r) (r_deleted r).

Definition in_state (r : record) (l : list string) : bool := bool_decide (r_state r ∈ l).

Definition is_active (r : record) : bool :=
  negb (in_state r ["terminated"; "stopped"]%string) && negb (r_cleanup_complete r).

(** * Programs *)

(** What is asked: of the runtime, of the owners, and of everything else
    (controls, recordings, networks, images, child sandboxes, the store). *)
Inductive question :=
  | Status | Start | Pause | Resume | Stop | Discard | Delete | Capture | Policy
  | Reason (owner : option string) | Other (what : string).

#[export] Instance question_eq_dec : EqDecision question.
Proof. solve_decision. Defined.

(** An answer is a text, or none. *)
Abbreviation reply := (option string).

Inductive prog (A : Type) :=
  | Ret (a : A)
  | Read (k : option record → prog A)
  | Write (r : record) (k : prog A)
  | Clock (k : Z → prog A)
  | Ask (q : question) (k : res reply → prog A).
Arguments Ret {_} _.
Arguments Read {_} _.
Arguments Write {_} _ _.
Arguments Clock {_} _.
Arguments Ask {_} _ _.

Fixpoint prog_bind {A B} (p : prog A) (f : A → prog B) : prog B :=
  match p with
  | Ret a => f a
  | Read k => Read (λ o, prog_bind (k o) f)
  | Write r k => Write r (prog_bind k f)
  | Clock k => Clock (λ t, prog_bind (k t) f)
  | Ask q k => Ask q (λ x, prog_bind (k x) f)
  end.

(** Code that holds a record in memory, may change it, and returns or raises *)
Definition act (A : Type) : Type := record → prog (record * res A).

#[export] Instance act_ret : MRet act := λ A a r, Ret (r, Ok a).
#[export] Instance act_bind : MBind act := λ A B f m r,
  prog_bind (m r) (λ x, match x.2 with Ok a => f a x.1 | Err e => Ret (x.1, Err e) end).
Definition act_raise {A} (k : exn_class) (msg : string) : act A := λ r, Ret (r, raise k msg).
(** [try: m; except BaseException as e: h(e)] *)
Definition try {A} (m : act A) (h : exn → act A) : act A := λ r,
  prog_bind (m r) (λ x, match x.2 with Ok a => Ret x | Err e => h e x.1 end).
(** The outcome of [m], caught *)
Definition attempt {A} (m : act A) : act (res A) := λ r, prog_bind (m r) (λ x, Ret (x.1, Ok x.2)).

Definition the_record : act record := λ r, Ret (r, Ok r).
Definition change (f : record → record) : act () := λ r, Ret (f r, Ok ()).
Definition save : act () := λ r, Write r (Ret (r, Ok ())).
Definition ask (q : question) : act reply := λ r, Ask q (λ x, Ret (r, x)).
Definition do (q : question) : act () := λ r, Ask q (λ x, Ret (r, match x with Ok _ => Ok () | Err e => Err e end)).
Definition when (b : bool) (m : act ()) : act () := if b then m else mret ().
Definition refuse (b : bool) (k : exn_class) (msg : string) : act () := when b (act_raise k msg).
Definition now : act Z := λ r, Clock (λ t, Ret (r, Ok t)).

(** An operation on its own, without a record in memory *)
Definition op (A : Type) : Type := prog (res A).
#[export] Instance op_ret : MRet op := λ A a, Ret (Ok a).
#[export] Instance op_bind : MBind op := λ A B f m,
  prog_bind m (λ x, match x with Ok a => f a | Err e => Ret (Err e) end).
(** An operation called by code that goes on with its own record *)
Definition call {A} (m : op A) : act A := λ r, prog_bind m (λ x, Ret (r, x)).
Definition rethrow {A} (e : exn) : act A := λ r, Ret (r, Err e).
(** [record = self.read(identity)] *)
Definition with_record {A} (m : act A) : op A :=
  Read (λ o, match o with
             | None => Ret (raise FileNotFoundError "")
             | Some r => prog_bind (m r) (λ x, Ret x.2)
             end).

(** * Ending a sandbox *)

Definition live_status (s : reply) : bool :=
  match s with Some s => bool_decide (s ∈ ["running"; "paused"; "starting"]%string) | None => false end.

(** The last [try] of [_terminate_runtime] *)
Definition end_runtime : act () :=
  r ← the_record;
  _ ← when (sp_recording (r_spec r)) (do (Other "recordings.stop"));
  _ ← do (Other "detach_controls");
  s ← ask Status;
  _ ← when (live_status s) (do Stop);
  when (sp_discard (r_spec r)) (do Discard).

Definition unless_missing (x : res ()) : bool :=
  match x with Ok _ => true | Err e => bool_decide (exn_kind e = FileNotFoundError) end.

(** [terminate(child)] for every import that has a record *)
Fixpoint end_imports (l : list string) : act bool :=
  match l with
  | [] => mret true
  | child :: l =>
      x ← attempt (do (Other ("terminate " ++ child)));
      rest ← end_imports l;
      mret (is_ok x && rest)
  end.

(** Everything is tried, then the errors are raised together. *)
Definition terminate_runtime : act () :=
  r ← the_record;
  _ ← do (Other "streams.disconnect");
  network ← (if sp_network (r_spec r) then x ← attempt (do (Other "networks.leave")); mret (unless_missing x)
             else mret true);
  imports ← end_imports (r_imports r);
  group ← (if r_group r then x ← attempt (do (Other "services.close")); mret (is_ok x) else mret true);
  runtime ← attempt end_runtime;
  _ ← refuse (negb (network && imports && group && is_ok runtime)) ExceptionGroup "sandbox cleanup failed";
  when (r_group r) (do (Other "services.discard")).

Definition set_state (s : string) : act () := change (λ r, r <| r_state := s |>).

Definition fail_with (e : exn) : act () :=
  change (λ r, r <| r_state := "failed"%string |> <| r_error := Some (exn_text e) |>).

(** What [describe] answers *)
Record description := Describe { d_record : record; d_status : string }.

Definition lost (r : record) (s : reply) : bool :=
  in_state r ["ready"; "paused"]%string
  && negb match s with Some s => bool_decide (s ∈ ["running"; "paused"]%string) | None => false end.

Definition lost_text : string := "runtime was lost or exited outside a lifecycle operation".

(** The second look of [describe], under the lock *)
Definition mark_lost : op description :=
  with_record (
    r ← the_record;
    s ← ask Status;
    _ ← when (lost r s) (_ ← fail_with (Exn RuntimeError lost_text); save);
    r ← the_record;
    mret (Describe r (default "" s))).

Definition describe : op description :=
  with_record (
    r ← the_record;
    if r_deleted r then mret (Describe r "missing")
    else
      s ← ask Status;
      d ← (if lost r s then call mark_lost else mret (Describe r (default "" s)));
      _ ← when (sp_recording (r_spec (d_record d))) (do (Other "recordings.status"));
      mret d).

(** [terminate]: a failed cleanup is recorded and raised. *)
Definition terminate_record : act bool :=
  r ← the_record;
  if r_deleted r then mret true
  else
    _ ← try terminate_runtime (λ e,
      _ ← change (λ r, r <| r_cleanup_error := Some (exn_text e) |>);
      _ ← save;
      rethrow e);
    _ ← do (Other "retention.unpin");
    _ ← change (λ r, r <| r_state := "terminated"%string |> <| r_cleanup_complete := true |>
                       <| r_cleanup_error := None |>);
    _ ← save;
    mret false.

Definition terminate : op description := _ ← with_record terminate_record; describe.

Definition recorded (m : string) : act () :=
  r ← the_record; when (sp_recording (r_spec r)) (do (Other m)).

Definition pause : op description :=
  _ ← with_record (
    _ ← do (Other "streams.disconnect");
    _ ← recorded "recordings.stop";
    _ ← do (Other "detach_controls");
    _ ← do Pause;
    _ ← set_state "paused";
    save);
  describe.

Definition resume : op description :=
  _ ← with_record (
    _ ← do Resume;
    _ ← set_state "ready";
    _ ← save;
    _ ← do (Other "attach_controls");
    recorded "recordings.start");
  describe.

(** [capture]: what is asked for, and whether it is published under a name *)
Record capture_request := CaptureRequest { ca_state : string; ca_key : bool; ca_experimental : bool }.

Definition capture_refusals (c : capture_request) : act () :=
  r ← the_record;
  let memory := bool_decide (ca_state c = "memory"%string) in
  let s := r_spec r in
  _ ← refuse (r_group r) UnsupportedFeature
        "Capture individual service images before assembling a service group; group checkpoints are not supported";
  _ ← refuse (sp_network s && negb (bool_decide (ca_state c = "filesystem"%string))) UnsupportedFeature
        "service network members support filesystem snapshots; a live network cannot be rolled back independently";
  _ ← refuse (memory && sp_gpu s && (negb (ca_experimental c) || sp_controls s)) UnsupportedFeature
        "live GPU graphics checkpoints are unsupported; CUDA-only capture requires experimental_gpu_live=True";
  refuse (ca_experimental c && negb (memory && sp_gpu s)) ValueError
        "experimental GPU live capture requires GPU memory state".

Definition take_snapshot (c : capture_request) : act reply :=
  _ ← capture_refusals c;
  r ← the_record;
  _ ← do (Other "retention.capture");
  _ ← recorded "recordings.stop";
  taken ← attempt (_ ← do (Other "detach_controls"); do Capture);
  _ ← when (in_state r ["ready"]%string) (
    _ ← do (Other "attach_controls"); recorded "recordings.start");
  match taken with
  | Err e => rethrow e
  | Ok _ =>
      saved ← ask (Other "store.record");
      _ ← when (ca_key c) (do (Other "store.publish"));
      mret saved
  end.

Definition capture (c : capture_request) : op reply :=
  if ca_key c then
    Ask (Other "store.alias") (λ x, match x with Ok _ => with_record (take_snapshot c) | Err e => Ret (Err e) end)
  else with_record (take_snapshot c).

(** The outcome of an operation, caught *)
Definition caught {A} (m : op A) : op (res A) := prog_bind m (λ x, Ret (Ok x)).
Definition thrown {A} (e : exn) : op A := Ret (Err e).

Definition stop (c : capture_request) : op reply :=
  r ← with_record the_record;
  if in_state r ["stopped"]%string && bool_decide (is_Some (r_checkpoint r)) then
    with_record (_ ← do (Other "snapshot_info"); mret (r_checkpoint r))
  else
    _ ← pause;
    saved ← caught (capture c);
    match saved with
    | Err e =>
        _ ← (if in_state r ["ready"]%string then _ ← resume; mret () else mret ());
        thrown e
    | Ok saved =>
        _ ← terminate;
        with_record (
          _ ← change (λ r, r <| r_state := "stopped"%string |> <| r_checkpoint := saved |>);
          _ ← save;
          mret saved)
    end.

(** * Creation *)

Record creation := Creation {
  cr_name : option string; cr_spec : sspec; cr_operation : option string; cr_owner : option string;
  cr_reference : option string; cr_stopping : bool; cr_child : bool }.

Fixpoint run_setup (steps : list string) : act () :=
  match steps with
  | [] => mret ()
  | step :: steps => _ ← do (Other ("setup " ++ step)); run_setup steps
  end.

(** The snapshot to restore: its identity, and whether it holds memory. Each
    field of the resolved snapshot is one answer. *)
Definition restore (c : creation) : act (option (reply * bool)) :=
  if bool_decide (is_Some (cr_reference c)) then
    saved ← ask (Other "store.resolve");
    state ← ask (Other "snapshot state");
    _ ← do (Other "compatible");
    _ ← do (Other "store.materialize");
    mret (Some (saved, bool_decide (state = Some "memory"%string)))
  else mret None.

(** From the admission to the start of the runtime: [self.remaining] stands for the
    checks of the deadline and the owner. *)
Definition start_sandbox (c : creation) : act (option (reply * bool)) :=
  let s := cr_spec c in
  _ ← when (sp_network s) (_ ← do (Other "networks.join"); save);
  _ ← when (sp_group s) (
    _ ← do (Other "services.check");
    _ ← change (λ r, r <| r_group := true |>);
    _ ← save; _ ← save;
    _ ← do (Other "services.prepare");
    _ ← save;
    do (Other "hub.register"));
  _ ← do (Other "remaining");
  saved ← restore c;
  _ ← do (Other "remaining");
  _ ← do Start;
  _ ← change (λ r, r <| r_agent := true |>);
  mret saved.

Definition bring_up (c : creation) : act description :=
  let s := cr_spec c in
  saved ← start_sandbox c;
  _ ← do (Other "remaining");
  _ ← set_state "preparing";
  _ ← save;
  _ ← match saved with
      | None => run_setup (sp_setup s)
      | Some (id, _) => change (λ r, r <| r_restored := id |>)
      end;
  _ ← save;
  _ ← when (match saved with Some (_, memory) => negb memory | None => true end) (do (Other "start_services"));
  _ ← when (sp_group s) (do (Other "services.launch"));
  _ ← do (Other "attach_controls");
  _ ← do (Other "remaining");
  _ ← set_state "ready";
  t ← now;
  _ ← change (λ r, match sp_ttl s with Some ttl => r <| r_expires := Some (t + ttl) |> | None => r end);
  _ ← save;
  _ ← when (sp_recording s && negb (sp_on_claim s)) (_ ← do (Other "recordings.start"); save);
  call describe.

(** The [except] of [_create] *)
Definition creation_failed (c : creation) (e : exn) : act description :=
  _ ← fail_with e;
  _ ← save;
  reason ← ask (Reason (cr_owner c));
  _ ← when (bool_decide (is_Some reason)) (change (λ r, r <| r_reason := reason |>));
  _ ← when (bool_decide (is_Some reason) || negb (sp_keep (cr_spec c))) (
    x ← attempt terminate_runtime;
    _ ← match x with
        | Ok _ =>
            _ ← change (λ r, r <| r_cleanup_complete := true |>);
            when (bool_decide (is_Some reason)) (set_state "terminated")
        | Err e => change (λ r, r <| r_cleanup_error := Some (exn_text e) |>)
        end;
    save);
  rethrow e.

Definition new_record (c : creation) : record :=
  SRecord (cr_name c) "creating" (cr_operation c) (cr_owner c) (cr_spec c) None false false [] None None None
    None None false false.

(** [_create] *)
Definition create (c : creation) : op description :=
  Read (λ o,
    match o with
    | Some r =>
        if negb (bool_decide (r_operation r = cr_operation c)) then
          thrown (Exn FileExistsError "sandbox ID is already in use")
        else if in_state r ["ready"]%string then describe
        else thrown (Exn RuntimeError "previous creation did not finish")
    | None =>
        prog_bind
          ((_ ← do (Other "adapter");
            _ ← do (Other "external_mounts");
            _ ← refuse (cr_stopping c) RuntimeError "worker is shutting down";
            _ ← when (negb (cr_child c)) (do (Other "admit"));
            _ ← save;
            try (bring_up c) (creation_failed c)) (new_record c))
          (λ x, Ret x.2)
    end).

(** * Other writers *)

(** [expiry_reason] *)
Definition expiry_reason : act reply :=
  r ← the_record;
  if in_state r ["terminated"; "stopped"]%string || r_cleanup_complete r then mret None
  else if bool_decide (is_Some (r_cleanup_error r)) && negb (sp_keep (r_spec r)) then mret (Some "cleanup_retry"%string)
  else
    t ← now;
    if in_state r ["ready"; "paused"]%string && match r_expires r with Some e => e <=? t | None => false end
    then mret (Some "ttl"%string)
    else ask (Reason (r_owner r)).

(** One sandbox of [expire_once], when its lock is free; errors are logged. *)
Definition expire : op () :=
  first ← caught (with_record expiry_reason);
  match first with
  | Ok (Some _) =>
      _ ← caught (
        again ← with_record expiry_reason;
        match again with
        | None => mret ()
        | Some reason =>
            _ ← terminate;
            with_record (
              _ ← change (λ r, r <| r_reason := Some reason |>);
              save)
        end);
      mret ()
  | _ => mret ()
  end.

(** [network_policy] *)
Definition network_policy (proxy : bool) : op () :=
  if proxy then thrown (Exn UnsupportedFeature "changing proxy endpoints on a running sandbox is unsupported")
  else with_record (
    r ← the_record;
    _ ← refuse (sp_proxy (r_spec r)) UnsupportedFeature
          "changing a running proxy sandbox to a different network is unsupported";
    _ ← do (Other "runtime.for_identity");
    _ ← do Policy;
    save).

(** The record that [Management.apply] writes for a claim *)
Definition claim (owner : option string) (detached : bool) (spec : option (option Z)) : op description :=
  d ← describe;
  if negb (in_state (d_record d) ["ready"]%string) then
    thrown (Exn OperationUnknown "pool member is no longer ready")
  else
    _ ← with_record (
      t ← now;
      _ ← change (λ r, r <| r_owner := owner |>
                        <| r_spec := (r_spec r) <| sp_detached := detached |> |>);
      _ ← match spec with
          | None => mret ()
          | Some ttl => change (λ r, r <| r_spec := (r_spec r) <| sp_ttl := ttl |> |>
                                       <| r_expires := (λ ttl, t + ttl) <$> ttl |>)
          end;
      _ ← save;
      recorded "recordings.start");
    describe.

(** [image_import._capture]: the import is recorded on its parent first. *)
Definition import_image (child : string) : op () :=
  with_record (
    r ← the_record;
    _ ← refuse (negb (sp_import (r_spec r))) ValueError "Image import requires a builder memory reservation";
    _ ← change (λ r, r <| r_imports := r_imports r ++ [child] |>);
    _ ← save;
    do (Other "import image")).

(** The tombstone of [Deletions._purge] keeps the identity, the runtime and the
    resources. *)
Definition tombstone (r : record) : record :=
  SRecord (r_name r) "terminated" (r_operation r) None
    (SSpec false None true false false false false false false (sp_gpu (r_spec r)) false (sp_proxy (r_spec r)) [])
    None false false [] None None None None None true true.

Fixpoint purge_children (l : list string) : act () :=
  match l with
  | [] => mret ()
  | child :: l => _ ← do (Other ("purge " ++ child)); purge_children l
  end.

Definition purge : op () :=
  with_record (
    r ← the_record;
    if r_deleted r then mret ()
    else
      _ ← call terminate;
      _ ← purge_children (r_imports r);
      _ ← when (r_group r) (do (Other "purge services"));
      _ ← do Delete;
      _ ← when (sp_recording (r_spec r)) (do (Other "recordings.delete"));
      _ ← do (Other "remove uploads");
      _ ← change tombstone;
      save).
