(* ===== verification/SandboxRuns.v ===== *)
(** Runs of the operations of [Sandboxes]: what the runtime documents about its
    answers, the execution of an operation against a schedule of answers that may
    end anywhere, and a weakest-precondition calculus that reasons about every
    schedule at once. *)

From S2P Require Import Prelude Sandboxes.

#[local] Open Scope Z_scope.

(** * Executions *)

(** The record on disk, whether [Worker.active] holds the identity, and whether
    the runtime still runs the sandbox *)
Record world := World { w_record : option record; w_indexed : bool; w_running : bool }.

(** What happens at one step: the answer to a question, the clock, and whether the
    sandbox still runs after it. *)
Record event := Event { e_reply : res reply; e_time : Z; e_running : bool }.

(** What an answer says about a sandbox that was running or not: [None] for an answer
    the runtime does not give, or whether it may be running afterwards. *)
Definition after (q : question) (running : bool) (x : res reply) : option bool :=
  match q, x with
  | Start, _ => Some true
  | Status, Ok s => if live_status s then Some running else Some false
  | Stop, Ok _ => Some false
  | (Pause | Resume | Policy), Ok _ => if running then Some running else None
  | _, _ => Some running
  end.

(** The answers that are given: any, or only some where a property is about those *)
Class restriction := can : question → res reply → bool.
Definition any_answer : restriction := λ _ _, true.
Definition no_errors : restriction := λ _ x, is_ok x.
(** The leases can be read. *)
Definition owners_known : restriction := λ q x, match q with Reason _ => is_ok x | _ => true end.

Section Runs.
Context {C : restriction}.

Definition answers (q : question) (running : bool) (e : event) : bool :=
  can q (e_reply e) &&
  match after q running (e_reply e) with None => false | Some b => implb (e_running e) b end.

(** A sandbox may exit at any step. *)
Definition quiet (running : bool) (e : event) : bool := implb (e_running e) running.

(** [Worker.write] replaces the record and updates the index. *)
Definition written (r : record) (w : world) : world :=
  World (Some r) (is_active r) (w_running w).
Definition exits (running : bool) (w : world) : world := World (w_record w) (w_indexed w) running.

(** [exec p es w]: [p] against the schedule [es]; [None] when the schedule ends, or
    is not one the runtime allows, before [p] does. *)
Fixpoint exec {A} (p : prog A) (es : list event) (w : world) : world * option A :=
  match p, es with
  | Ret a, _ => (w, Some a)
  | _, [] => (w, None)
  | Read k, e :: es =>
      if quiet (w_running w) e then exec (k (w_record w)) es (exits (e_running e) w) else (w, None)
  | Write r p, e :: es =>
      if quiet (w_running w) e then exec p es (exits (e_running e) (written r w)) else (w, None)
  | Clock k, e :: es =>
      if quiet (w_running w) e then exec (k (e_time e)) es (exits (e_running e) w) else (w, None)
  | Ask q k, e :: es =>
      if answers q (w_running w) e then exec (k (e_reply e)) es (exits (e_running e) w) else (w, None)
  end.

(** The operations of one sandbox, results dropped *)
Inductive operation :=
  | OCreate (c : creation) | ODescribe | OPause | OResume | OTerminate | OStop (c : capture_request)
  | OCapture (c : capture_request) | OExpire | OPolicy (proxy : bool)
  | OClaim (owner : option string) (detached : bool) (spec : option (option Z)) | OImport (child : string) | OPurge.

Definition ignore {A} (m : op A) : prog () := prog_bind m (λ _, Ret tt).

Definition program (o : operation) : prog () :=
  match o with
  | OCreate c => ignore (create c)
  | ODescribe => ignore describe
  | OPause => ignore pause
  | OResume => ignore resume
  | OTerminate => ignore terminate
  | OStop c => ignore (stop c)
  | OCapture c => ignore (capture c)
  | OExpire => ignore expire
  | OPolicy b => ignore (network_policy b)
  | OClaim o d s => ignore (claim o d s)
  | OImport c => ignore (import_image c)
  | OPurge => ignore purge
  end.

(** What a worker that starts makes of the directory *)
Definition restarted (w : world) : world :=
  World (w_record w) (match w_record w with Some r => is_active r | None => false end) (w_running w).

(** A history of operations with their schedules; the worker is started again
    after an operation that was cut. *)
Fixpoint history (l : list (operation * list event)) (w : world) : world :=
  match l with
  | [] => w
  | (o, es) :: l =>
      match exec (program o) es w with
      | (w, Some _) => history l w
      | (w, None) => history l (restarted w)
      end
  end.

(** * Every schedule at once *)

Definition active (d : option record) : Prop := match d with Some r => is_active r = true | None => False end.

(** A deleted sandbox keeps nothing that another operation could act on. *)
Definition buried (r : record) : Prop :=
  r_state r = "terminated"%string ∧ r_cleanup_complete r = true ∧ sp_import (r_spec r) = false.

Definition tidy (d : option record) : Prop :=
  match d with Some r => r_deleted r = true → buried r | None => True end.

(** What holds of the record and of whether the sandbox may be running *)
Definition sound (d : option record) (b : bool) : Prop := (b = true → active d) ∧ tidy d.

(** A record may replace [d]. *)
Definition replaces (d : option record) (b : bool) (r : record) : Prop :=
  sound (Some r) b ∧ match d with Some r0 => r_deleted r0 = false | None => True end.

(** From record [d] and a sandbox that may be running when [b], every answer keeps
    [sound], no deleted record is replaced, and [p] ends with [Q]. *)
Fixpoint always {A} (p : prog A) (d : option record) (b : bool) (Q : A → option record → bool → Prop) : Prop :=
  match p with
  | Ret a => Q a d b
  | Read k => always (k d) d b Q
  | Write r p => replaces d b r ∧ always p (Some r) b Q
  | Clock k => ∀ t, always (k t) d b Q
  | Ask q k => (q = Start → active d) ∧
               ∀ x, can q x = true → match after q b x with None => True | Some b' => always (k x) d b' Q end
  end.

Lemma always_bind {A B} (p : prog A) (f : A → prog B) d b Q :
  always (prog_bind p f) d b Q ↔ always p d b (λ a d b, always (f a) d b Q).
Proof.
  revert d b. induction p as [|k IH|r p IH|k IH|q k IH]; intros d b; simpl.
  - reflexivity.
  - apply IH.
  - by rewrite IH.
  - split; intros H t; apply IH, H.
  - split; intros [Hs H]; (split; [exact Hs|]); intros x Hx; specialize (H x Hx);
      destruct (after q b x); [apply IH, H|exact I|apply IH, H|exact I].
Qed.

Lemma always_mono {A} (p : prog A) d b (Q Q' : A → option record → bool → Prop) :
  (∀ a d b, Q a d b → Q' a d b) → always p d b Q → always p d b Q'.
Proof.
  intros HQ. revert d b. induction p as [|k IH|r p IH|k IH|q k IH]; intros d b; simpl.
  - apply HQ.
  - apply IH.
  - intros [? ?]. split; [done|by apply IH].
  - intros H t. apply IH, H.
  - intros [? H]. split; [done|]. intros x Hx. specialize (H x Hx). destruct (after q b x); [by apply IH|done].
Qed.

(** ** A schedule is one of them *)

Lemma sound_le d b b' : implb b' b = true → sound d b → sound d b'.
Proof. intros Hle [H1 H2]. split; [|done]. intros ->. apply H1. by destruct b. Qed.

Definition kept (d d' : option record) : Prop :=
  match d with Some r => r_deleted r = true → d' = d | None => True end.

Lemma kept_refl d : kept d d.
Proof. destruct d; simpl; auto. Qed.

Lemma implb_trans a b c : implb a b = true → implb b c = true → implb a c = true.
Proof. by destruct a, b, c. Qed.

Lemma kept_trans d r d' : kept d (Some r) → kept (Some r) d' → kept d d'.
Proof. destruct d as [r0|]; simpl; [|done]. intros H1 H2 Hd. pose proof (H1 Hd) as [= <-]. auto. Qed.

Lemma replaces_kept d b r : replaces d b r → kept d (Some r).
Proof. intros [_ H]. destruct d; simpl; [congruence|done]. Qed.

Lemma after_status q b x b' : after q b x = Some b' → q ≠ Start → implb b' b = true.
Proof.
  intros H Hq. destruct q, x, b; simpl in H; repeat case_match; simplify_eq; done.
Qed.

(** The knowledge of [always] stays true of the world along a schedule. *)
Lemma answers_after q running b e :
  implb running b = true → answers q running e = true →
  can q (e_reply e) = true ∧ ∃ b', after q b (e_reply e) = Some b' ∧ implb (e_running e) b' = true.
Proof.
  unfold answers. intros Hle [Hc H]%andb_true_iff. split; [done|]. clear Hc.
  destruct (after q running (e_reply e)) as [c|] eqn:E; [|done].
  destruct q, (e_reply e), b, running, (e_running e); simpl in *; repeat case_match; simplify_eq; eauto.
Qed.

Lemma sound_after q b x b' d : sound d b → (q = Start → active d) → after q b x = Some b' → sound d b'.
Proof.
  intros Hs Ha H. destruct (decide (q = Start)) as [->|Hq].
  - split; [by intros; apply Ha|apply Hs].
  - eapply sound_le; [by eapply after_status|done].
Qed.

Definition indexed (w : world) : Prop :=
  w_indexed w = match w_record w with Some r => is_active r | None => false end.

(** What a schedule that began at record [d] has come to *)
Definition ends {A} (Q : A → option record → bool → Prop) (d : option record) (x : world * option A) : Prop :=
  ∃ b, sound (w_record x.1) b ∧ implb (w_running x.1) b = true ∧ indexed x.1 ∧ kept d (w_record x.1) ∧
       ∀ a, x.2 = Some a → Q a (w_record x.1) b.

Lemma ends_cut {A} (Q : A → option record → bool → Prop) w b :
  sound (w_record w) b → implb (w_running w) b = true → indexed w → ends Q (w_record w) (w, None).
Proof. intros Hs Hle Hi. exists b. repeat split; try apply Hs; try done. apply kept_refl. Qed.

#[local] Hint Resolve ends_cut : core.

(** [always] holds along every schedule, cut or not. *)
Lemma exec_sound {A} (p : prog A) es w b Q :
  always p (w_record w) b Q → sound (w_record w) b → implb (w_running w) b = true → indexed w →
  ends Q (w_record w) (exec p es w).
Proof.
  revert es w b. induction p as [a|k IH|r p IH|k IH|q k IH]; intros es w b Hp Hs Hle Hi.
  - replace (exec (Ret a) es w) with (w, Some a) by (by destruct es).
    exists b. repeat split; try apply Hs; try done; [apply kept_refl|]. by intros ? [= <-].
  - destruct es as [|e es]; simpl; [by eauto|]. destruct (quiet (w_running w) e) eqn:E; [|by eauto].
    by apply (IH (w_record w) es (exits (e_running e) w) b); simpl; eauto using implb_trans.
  - destruct es as [|e es]; simpl; [by eauto|]. destruct (quiet (w_running w) e) eqn:E; [|by eauto].
    destruct Hp as [Hr Hp].
    destruct (IH es (exits (e_running e) (written r w)) b) as (b' & H1 & H2 & H3 & H4 & H5);
      [exact Hp|apply Hr|exact (implb_trans _ _ _ E Hle)|done|].
    exists b'. repeat split; try apply H1; try done. exact (kept_trans _ _ _ (replaces_kept _ _ _ Hr) H4).
  - destruct es as [|e es]; simpl; [by eauto|]. destruct (quiet (w_running w) e) eqn:E; [|by eauto].
    by apply (IH (e_time e) es (exits (e_running e) w) b); simpl; eauto using implb_trans.
  - destruct es as [|e es]; simpl; [by eauto|]. destruct (answers q (w_running w) e) eqn:E; [|by eauto].
    destruct Hp as [Ha Hp]. destruct (answers_after _ _ _ _ Hle E) as (Hcan & c & Hc & Hle').
    specialize (Hp (e_reply e) Hcan). rewrite Hc in Hp.
    by apply (IH (e_reply e) es (exits (e_running e) w) c); simpl; eauto using sound_after.
Qed.

End Runs.
