(* ===== verification/SandboxSafety.v ===== *)
(** What the operations of [Sandboxes] do on every schedule: a sandbox that runs
    is recorded as active, a deleted one stays deleted, and how termination,
    creation and expiry end. *)

From S2P Require Import Prelude Sandboxes SandboxRuns.

#[local] Open Scope Z_scope.

Section Safety.
Context {C : restriction}.

(** * Code that writes nothing *)

(** [m] neither changes its record nor writes it, and starts nothing. *)
Definition silent {A} (m : act A) : Prop :=
  ∀ r d b (Q : record * res A → option record → bool → Prop),
    (∀ x b', implb b' b = true → Q (r, x) d b') → always (m r) d b Q.

Definition mute {A} (m : op A) : Prop :=
  ∀ d b (Q : res A → option record → bool → Prop),
    (∀ x b', implb b' b = true → Q x d b') → always m d b Q.

Lemma implb_refl b : implb b b = true.
Proof. by destruct b. Qed.
#[local] Hint Resolve implb_refl : core.

Lemma silent_bind {A B} (m : act A) (f : A → act B) :
  silent m → (∀ a, silent (f a)) → silent (m ≫= f).
Proof.
  intros Hm Hf r d b Q HQ. unfold mbind, act_bind. apply always_bind, Hm. intros x b' Hb. simpl.
  destruct x as [a|e]; simpl; [|by apply HQ]. apply Hf. intros x b'' Hb'. apply HQ. eauto using implb_trans.
Qed.

Lemma silent_ret {A} (a : A) : silent (mret a).
Proof. intros r d b Q HQ. apply HQ, implb_refl. Qed.

Lemma silent_rethrow {A} e : silent (rethrow (A := A) e).
Proof. intros r d b Q HQ. apply HQ, implb_refl. Qed.

Lemma silent_raise {A} k msg : silent (act_raise (A := A) k msg).
Proof. intros r d b Q HQ. apply HQ, implb_refl. Qed.

Lemma silent_record : silent the_record.
Proof. intros r d b Q HQ. apply HQ, implb_refl. Qed.

Lemma silent_now : silent now.
Proof. intros r d b Q HQ t. apply HQ, implb_refl. Qed.

Lemma silent_ask q : q ≠ Start → silent (ask q).
Proof.
  intros Hq r d b Q HQ. split; [done|]. intros x _. destruct (after q b x) as [b'|] eqn:E; [|done].
  eapply HQ, after_status; done.
Qed.

Lemma silent_do q : q ≠ Start → silent (do q).
Proof.
  intros Hq r d b Q HQ. split; [done|]. intros x _. destruct (after q b x) as [b'|] eqn:E; [|done].
  eapply HQ, after_status; done.
Qed.

Lemma silent_when c m : silent m → silent (when c m).
Proof. destruct c; [done|]. intros _. apply silent_ret. Qed.

Lemma silent_refuse c k msg : silent (refuse c k msg).
Proof. apply silent_when, silent_raise. Qed.

Lemma silent_attempt {A} (m : act A) : silent m → silent (attempt m).
Proof. intros Hm r d b Q HQ. apply always_bind, Hm. intros x b' Hb. by apply HQ. Qed.

Lemma silent_recorded m : silent (recorded m).
Proof. apply silent_bind; [apply silent_record|]. intros r. by apply silent_when, silent_do. Qed.

Create HintDb silent discriminated.
#[local] Hint Resolve silent_ret silent_rethrow silent_raise silent_record silent_now silent_when silent_refuse
  silent_attempt silent_recorded : silent.
#[local] Hint Extern 1 (silent (ask _)) => apply silent_ask; done : silent.
#[local] Hint Extern 1 (silent (do _)) => apply silent_do; done : silent.
#[local] Hint Extern 2 (silent (_ ≫= _)) => apply silent_bind; [|intros] : silent.
#[local] Hint Extern 3 (silent (match ?x with _ => _ end)) => destruct x : silent.

Lemma silent_end_imports l : silent (end_imports l).
Proof. induction l as [|c l IH]; simpl; [auto with silent|]. auto 10 with silent. Qed.
#[local] Hint Resolve silent_end_imports : silent.

Lemma silent_end_runtime : silent end_runtime.
Proof. unfold end_runtime. auto 10 with silent. Qed.

Lemma silent_capture c : silent (take_snapshot c).
Proof.
  unfold take_snapshot. apply silent_bind; [unfold capture_refusals; auto 10 with silent|intros _]. auto 20 with silent.
Qed.

Lemma silent_reason : silent expiry_reason.
Proof. unfold expiry_reason. auto 10 with silent. Qed.

Lemma mute_with {A} (m : act A) : silent m → mute (with_record m).
Proof.
  intros Hm d b Q HQ. simpl. destruct d as [r|]; [|by apply HQ]. apply always_bind, Hm. intros x b' Hb. by apply HQ.
Qed.

Lemma mute_capture c : mute (capture c).
Proof.
  unfold capture. pose proof (mute_with _ (silent_capture c)) as H. destruct (ca_key c); [|done].
  intros d b Q HQ. split; [done|]. intros [x|e] _; [by apply H|by apply HQ].
Qed.

(** ** Stepping through a sequence *)

Lemma always_act {A B} (m : act A) (f : A → act B) r d b Q :
  always (m r) d b (λ x d b, match x.2 with Ok a => always (f a x.1) d b Q | Err e => Q (x.1, Err e) d b end) →
  always ((m ≫= f) r) d b Q.
Proof.
  intros H. unfold mbind, act_bind. apply always_bind. eapply always_mono; [|exact H].
  intros [r' [a|e]] d' b'; simpl; auto.
Qed.

Lemma always_silent {A B} (m : act A) (f : A → act B) r d b Q :
  silent m →
  (∀ b' e, implb b' b = true → Q (r, Err e) d b') →
  (∀ b' a, implb b' b = true → always (f a r) d b' Q) →
  always ((m ≫= f) r) d b Q.
Proof. intros Hm He Ha. apply always_act, Hm. intros [a|e] b' Hb; simpl; auto. Qed.

(** Rules for the other steps *)
Lemma always_with {A} (m : act A) r b Q :
  always (m r) (Some r) b (λ x d b, Q x.2 d b) → always (with_record m) (Some r) b Q.
Proof. intros H. simpl. by apply always_bind. Qed.

Lemma always_with_none {A} (m : act A) b (Q : res A → option record → bool → Prop) :
  (∀ e, Q (Err e) None b) → always (with_record m) None b Q.
Proof. intros H. apply H. Qed.

Lemma always_call {A} (m : op A) r d b Q : always m d b (λ x d b, Q (r, x) d b) → always (call m r) d b Q.
Proof. intros H. by apply always_bind. Qed.

Lemma always_op {A B} (m : op A) (f : A → op B) d b Q :
  always m d b (λ x d b, match x with Ok a => always (f a) d b Q | Err e => Q (Err e) d b end) → always (m ≫= f) d b Q.
Proof. intros H. unfold mbind, op_bind. apply always_bind. eapply always_mono; [|exact H]. intros [a|e] d' b'; simpl; auto. Qed.

Lemma always_change {A} g (f : () → act A) r d b Q : always (f tt (g r)) d b Q → always ((change g ≫= f) r) d b Q.
Proof. auto. Qed.

Lemma always_save {A} (f : () → act A) r d b Q :
  replaces d b r → always (f tt r) (Some r) b Q → always ((save ≫= f) r) d b Q.
Proof. by split. Qed.

Lemma always_saved r d b Q : replaces d b r → Q (r, Ok tt) (Some r) b → always (save r) d b Q.
Proof. by split. Qed.

Lemma always_read {A} (f : record → act A) r d b Q : always (f r r) d b Q → always ((the_record ≫= f) r) d b Q.
Proof. auto. Qed.

(** Once the sandbox is known not to run, it does not start to in silence. *)
Lemma silent_stopped {A} (m : act A) r d : silent m → always (m r) d false (λ x d' b, x.1 = r ∧ d' = d ∧ b = false).
Proof. intros Hm. apply Hm. intros x b' Hb. by destruct b'. Qed.

(** Neither the record nor its copy changed, and a sandbox was ended if all went well. *)
Definition cleaned {A} (r : record) (d : option record) (b : bool) (x : record * res A) (d' : option record)
    (b' : bool) : Prop :=
  x.1 = r ∧ d' = d ∧ implb b' b = true ∧ (is_ok x.2 = true → b' = false).

Lemma cleaned_err {A} r d b b' e : implb b' b = true → cleaned (A := A) r d b (r, Err e) d b'.
Proof. by repeat split. Qed.

Lemma cleaned_le {A} r d b1 b2 (x : record * res A) d' b' :
  implb b1 b2 = true → cleaned r d b1 x d' b' → cleaned r d b2 x d' b'.
Proof. intros Hb (? & ? & ? & ?). repeat split; eauto using implb_trans. Qed.

Lemma cleaned_silent (m : act ()) r d b : silent m → always (m r) d false (cleaned r d b).
Proof. intros Hm. apply Hm. intros x b' Hb. destruct b'; [done|]. by repeat split. Qed.

(** A silent step before something that cleans *)
Lemma cleaned_after {A} (m : act A) (f : A → act ()) r d b :
  silent m → (∀ b' a, implb b' b = true → always (f a r) d b' (cleaned r d b')) →
  always ((m ≫= f) r) d b (cleaned r d b).
Proof.
  intros Hm Hf. apply always_silent; [done|by intros; apply cleaned_err|]. intros b' a Hb.
  eapply always_mono; [|by apply Hf]. intros x d' b'' H. exact (cleaned_le _ _ _ _ _ _ _ Hb H).
Qed.

Lemma end_runtime_ends r d b : always (end_runtime r) d b (cleaned r d b).
Proof.
  unfold end_runtime. apply cleaned_after; [auto with silent|]. intros b1 r1 _.
  apply cleaned_after; [auto with silent|]. intros b2 [] _. apply cleaned_after; [auto with silent|]. intros b3 [] _.
  apply always_act. simpl. split; [done|]. intros [s|e] _; [|by apply cleaned_err].
  destruct (live_status s); simpl.
  - split; [done|]. intros [x|e] _; simpl; [apply cleaned_silent; auto with silent|by apply cleaned_err].
  - apply cleaned_silent; auto with silent.
Qed.

Lemma terminate_runtime_ends r d b : always (terminate_runtime r) d b (cleaned r d b).
Proof.
  unfold terminate_runtime. apply cleaned_after; [auto with silent|]. intros b1 r1 _.
  apply cleaned_after; [auto with silent|]. intros b2 [] _.
  apply cleaned_after; [auto 10 with silent|]. intros b3 network _.
  apply cleaned_after; [auto with silent|]. intros b4 imports _.
  apply cleaned_after; [auto 10 with silent|]. intros b5 group _.
  apply always_act. unfold attempt. apply always_bind. eapply always_mono; [|apply end_runtime_ends].
  intros [r' x] d' b6 (-> & -> & Hb6 & Hx). apply always_act. destruct x as [[]|e]; simpl in *.
  - rewrite Hx by done. destruct (negb _); simpl; [by apply cleaned_err|]. apply cleaned_silent; auto with silent.
  - rewrite !andb_false_r. simpl. by apply cleaned_err.
Qed.

(** * The operations *)


Definition lost_record (r : record) : record := r <| r_state := "failed"%string |> <| r_error := Some lost_text |>.

(** What a description leaves: the record, or a failed one where the runtime was lost. *)
Definition described (d : option record) (b : bool) (x : res description) (d' : option record) (b' : bool) : Prop :=
  implb b' b = true ∧
  (d' = d ∨ ∃ r, d = Some r ∧ r_deleted r = false ∧ in_state r ["ready"; "paused"]%string = true ∧ d' = Some (lost_record r)) ∧
  match x with Ok s => d' = Some (d_record s) | Err _ => True end.

Lemma active_lost r : in_state r ["ready"; "paused"]%string = true → is_active (lost_record r) = negb (r_cleanup_complete r).
Proof. done. Qed.

Lemma in_state_cons r s l : in_state r (s :: l) = bool_decide (r_state r = s) || in_state r l.
Proof. unfold in_state. repeat case_bool_decide; set_solver. Qed.

Lemma in_state_nil r : in_state r [] = false.
Proof. apply bool_decide_eq_false. set_solver. Qed.

Lemma ready_active r : in_state r ["ready"; "paused"]%string = true → is_active r = negb (r_cleanup_complete r).
Proof.
  unfold is_active. rewrite !in_state_cons, !in_state_nil. intros H.
  apply orb_true_iff in H as [H|[H|?]%orb_true_iff]; [| |done]; apply bool_decide_eq_true in H; by rewrite H.
Qed.

(** A change that keeps a record active keeps what is known of it. *)
Lemma sound_change r r' b :
  sound (Some r) b → r_deleted r' = false → (is_active r = true → is_active r' = true) → sound (Some r') b.
Proof. intros [H1 H2] Hd Ha. split; simpl in *; [auto|congruence]. Qed.

Lemma replaces_change r r' b :
  sound (Some r) b → r_deleted r = false → r_deleted r' = false → (is_active r = true → is_active r' = true) →
  replaces (Some r) b r'.
Proof. intros Hs Hd Hd' Ha. split; [exact (sound_change _ _ _ Hs Hd' Ha)|exact Hd]. Qed.

Lemma described_err d b b' e : implb b' b = true → described d b (Err e) d b'.
Proof. by repeat split; auto. Qed.

Lemma mark_lost_ends r b : sound (Some r) b → r_deleted r = false → always mark_lost (Some r) b (described (Some r) b).
Proof.
  intros Hs Hd. apply always_with, always_read, always_silent; [auto with silent|by intros; apply described_err|]. intros b' s Hb.
  apply always_act. destruct (lost r s) eqn:E; simpl.
  - apply andb_true_iff in E as [E _]. split; [|by repeat split; eauto 10].
    apply replaces_change; [by eapply sound_le|done|done|]. by rewrite ready_active.
  - by repeat split; auto.
Qed.

Lemma described_le d b1 b2 x d' b' : implb b1 b2 = true → described d b1 x d' b' → described d b2 x d' b'.
Proof. intros Hb (? & ? & ?). repeat split; eauto using implb_trans. Qed.

Lemma describe_ends d b : sound d b → always describe d b (described d b).
Proof.
  intros Hs. destruct d as [r|]; [|by apply always_with_none; intros; apply described_err].
  apply always_with, always_read. destruct (r_deleted r) eqn:Hd; [by repeat split; auto|].
  apply always_silent; [auto with silent|by intros; apply described_err|]. intros b' s Hb. apply always_act.
  assert (Htail : ∀ x d' b'', described (Some r) b x d' b'' → always match x with
      | Ok a => (_ ← when (sp_recording (r_spec (d_record a))) (do (Other "recordings.status")); mret a) r
      | Err e => Ret (r, Err e) end d' b'' (λ x d' b'', described (Some r) b x.2 d' b'')).
  { intros [a|e] d' b'' Hx; [|done]. destruct Hx as (H1 & H2 & H3).
    apply always_silent; [auto with silent|intros; by split; eauto using implb_trans|].
    intros b3 [] Hb3. by repeat split; eauto using implb_trans. }
  destruct (lost r s).
  - apply always_call. eapply always_mono; [|apply mark_lost_ends; [by eapply sound_le|done]].
    intros x d' b'' Hx. specialize (Htail x d' b'' (described_le _ _ _ _ _ _ Hb Hx)).
    destruct x; [exact Htail|]. exact Htail.
  - apply (Htail (Ok (Describe r (default "" s)))). by repeat split; auto.
Qed.


Definition ended (r : record) : record :=
  r <| r_state := "terminated"%string |> <| r_cleanup_complete := true |> <| r_cleanup_error := None |>.
Definition to_retry (r : record) (e : exn) : record := r <| r_cleanup_error := Some (exn_text e) |>.

(** What a termination leaves: the sandbox ended, or a record to retry. *)
Definition terminated (d : option record) (b : bool) (x : res description) (d' : option record) (b' : bool) : Prop :=
  implb b' b = true ∧
  match d with
  | None => d' = None ∧ is_ok x = false
  | Some r =>
      if r_deleted r then d' = d
      else (d' = Some (ended r) ∧ b' = false) ∨
           (is_ok x = false ∧ (d' = Some r ∨ ∃ e, d' = Some (to_retry r e)))
  end ∧
  match x with Ok s => d' = Some (d_record s) | Err _ => True end.

Lemma ended_sound r : r_deleted r = false → sound (Some (ended r)) false.
Proof. intros Hd. split; [done|]. simpl. congruence. Qed.

Lemma to_retry_replaces r e b : sound (Some r) b → r_deleted r = false → replaces (Some r) b (to_retry r e).
Proof. intros Hs Hd. by apply replaces_change. Qed.

Lemma ended_replaces r : r_deleted r = false → replaces (Some r) false (ended r).
Proof. intros Hd. split; [by apply ended_sound|done]. Qed.

Lemma terminate_record_ends r b :
  sound (Some r) b → r_deleted r = false →
  always (terminate_record r) (Some r) b (λ x d' b', implb b' b = true ∧
    if is_ok x.2 then d' = Some (ended r) ∧ b' = false else d' = Some r ∨ ∃ e, d' = Some (to_retry r e)).
Proof.
  intros Hs Hd. apply always_read. rewrite Hd. apply always_act. unfold try. apply always_bind.
  eapply always_mono; [|apply terminate_runtime_ends]. intros [r' [[]|e]] d' b' (Hr & -> & Hb & Hx); simpl in Hr, Hx; subst r'.
  - rewrite Hx by done. split; [done|]. intros [x|e] _; simpl; [|by split; auto].
    split; [by apply ended_replaces|]. by repeat split.
  - split; [|by simpl; eauto]. apply to_retry_replaces; [by eapply sound_le|done].
Qed.

#[local] Opaque describe.

Lemma terminate_ends d b : sound d b → always terminate d b (terminated d b).
Proof.
  intros Hs. apply always_op. destruct d as [r|]; [|by apply always_with_none].
  apply always_with. destruct (r_deleted r) eqn:Hd.
  - apply always_read. rewrite Hd. simpl. eapply always_mono; [|by apply describe_ends].
    intros x d' b' (Hb & [->|(r0 & [= <-] & Hr & _)] & Hx); [|congruence]. split; [done|]. rewrite Hd. by split.
  - eapply always_mono; [|by apply terminate_record_ends]. intros [r' [a|e]] d' b'; simpl.
    + intros [Hb [-> ->]]. eapply always_mono; [|apply describe_ends; by apply ended_sound].
      intros x d' b' (Hb' & [->|(r0 & [= <-] & _ & Hst & _)] & Hx); [|done].
      repeat split; [by destruct b'|rewrite Hd; left; by destruct b'|done].
    + intros [Hb Hx]. split; [done|]. rewrite Hd. split; [|done]. by right.
Qed.

(** ** Every operation keeps what is known *)

Definition keeps {A} (m : op A) : Prop := ∀ d b, sound d b → always m d b (λ _ d b, sound d b).

#[local] Opaque terminate.

Lemma described_sound d b x d' b' : sound d b → described d b x d' b' → sound d' b'.
Proof.
  intros Hs (Hb & Hd & _). eapply sound_le; [exact Hb|]. destruct Hd as [->|(r & -> & Hr & Hst & ->)]; [done|].
  eapply sound_change; [done|done|]. by rewrite ready_active.
Qed.

Lemma terminated_sound d b x d' b' : sound d b → terminated d b x d' b' → sound d' b'.
Proof.
  intros Hs (Hb & Hd & _). destruct d as [r|].
  - destruct (r_deleted r) eqn:Er.
    + subst d'. by eapply sound_le.
    + destruct Hd as [[-> ->]|(_ & [->|[e ->]])]; [by apply ended_sound|by eapply sound_le|].
      eapply sound_le; [exact Hb|]. by apply (to_retry_replaces r e).
  - destruct Hd as [-> _]. by eapply sound_le.
Qed.

Lemma keeps_describe : keeps describe.
Proof. intros d b Hs. eapply always_mono; [|by apply describe_ends]. intros x d' b'. by apply described_sound. Qed.

Lemma keeps_terminate : keeps terminate.
Proof. intros d b Hs. eapply always_mono; [|by apply terminate_ends]. intros x d' b'. by apply terminated_sound. Qed.

Lemma keeps_op {A B} (m : op A) (f : A → op B) : keeps m → (∀ a, keeps (f a)) → keeps (m ≫= f).
Proof.
  intros Hm Hf d b Hs. apply always_op. eapply always_mono; [|by apply Hm]. intros [a|e] d' b' Hs'; [by apply Hf|done].
Qed.

Lemma keeps_return {A} (a : A) : keeps (mret a).
Proof. by intros d b Hs. Qed.

Lemma keeps_thrown {A} e : keeps (thrown (A := A) e).
Proof. by intros d b Hs. Qed.

Lemma keeps_caught {A} (m : op A) : keeps m → keeps (caught m).
Proof. intros Hm d b Hs. by apply always_bind, Hm. Qed.

Lemma keeps_mute {A} (m : op A) : mute m → keeps m.
Proof. intros Hm d b Hs. apply Hm. intros x b' Hb. by eapply sound_le. Qed.

Lemma keeps_silent {A} (m : act A) : silent m → keeps (with_record m).
Proof. intros Hm. by apply keeps_mute, mute_with. Qed.

(** An operation on the record it read: what it has to keep is about that record. *)
Lemma keeps_with {A} (m : act A) :
  (∀ r b, sound (Some r) b → always (m r) (Some r) b (λ _ d b, sound d b)) → keeps (with_record m).
Proof. intros Hm [r|] b Hs; [by apply always_with, Hm|by apply always_with_none]. Qed.

Lemma keeps_step {A B} (m : act A) (f : A → act B) r b :
  silent m → sound (Some r) b →
  (∀ b' a, sound (Some r) b' → always (f a r) (Some r) b' (λ _ d b, sound d b)) →
  always ((m ≫= f) r) (Some r) b (λ _ d b, sound d b).
Proof. intros Hm Hs Hf. apply always_silent; [done|intros; by eapply sound_le|intros; by apply Hf; eapply sound_le]. Qed.

(** What is running can be paused, resumed and given a policy, and is not deleted. *)
Lemma running_alive r : sound (Some r) true → is_active r = true ∧ r_deleted r = false.
Proof.
  intros [Ha Ht]. split; [by apply Ha|]. destruct (r_deleted r) eqn:E; [|done].
  destruct (Ht E) as (_ & Hc & _). specialize (Ha eq_refl). simpl in Ha. unfold is_active in Ha. rewrite Hc, andb_false_r in Ha. done.
Qed.

Lemma keeps_live {B} q (f : () → act B) r b :
  (q = Pause ∨ q = Resume ∨ q = Policy) → sound (Some r) b →
  (is_active r = true → r_deleted r = false → always (f tt r) (Some r) b (λ _ d b, sound d b)) →
  always ((do q ≫= f) r) (Some r) b (λ _ d b, sound d b).
Proof.
  intros Hq Hs Hf. apply always_act. destruct Hq as [->|[->| ->]]; simpl; (split; [done|]); intros [x|e] _;
    try done; destruct b; try done; destruct (running_alive r Hs); auto.
Qed.

Lemma save_same r b : sound (Some r) b → r_deleted r = false → replaces (Some r) b r.
Proof. done. Qed.

Lemma active_set r s :
  bool_decide (s ∈ ["terminated"; "stopped"]%string) = false → is_active r = true → is_active (r <| r_state := s |>) = true.
Proof. intros Hs [_ H]%andb_true_iff. unfold is_active, in_state. simpl. by rewrite Hs. Qed.

Lemma set_state_replaces r s b :
  bool_decide (s ∈ ["terminated"; "stopped"]%string) = false → sound (Some r) b → r_deleted r = false →
  replaces (Some r) b (r <| r_state := s |>).
Proof. intros Hs Hr Hd. apply replaces_change; [done|done|done|]. by apply active_set. Qed.

(** The record exists and is not a tombstone. *)
Definition alive (d : option record) : Prop := ∃ r, d = Some r ∧ r_deleted r = false.

(** A paused sandbox is not a tombstone. *)
Lemma pause_ends d b : sound d b → always pause d b (λ x d b, sound d b ∧ (is_ok x = true → alive d)).
Proof.
  intros Hs. apply always_op. destruct d as [r|]; [|by apply always_with_none]. apply always_with.
  apply always_silent; [auto with silent|intros; split; [by eapply sound_le|done]|]. intros b1 [] Hb1.
  apply always_silent; [auto with silent|intros; split; [eauto using sound_le, implb_trans|done]|]. intros b2 [] Hb2.
  apply always_silent; [auto with silent|intros; split; [eauto using sound_le, implb_trans|done]|]. intros b3 [] Hb3.
  apply (sound_le _ b b3) in Hs; [|eauto using implb_trans]. clear b b1 b2 Hb1 Hb2 Hb3.
  apply always_act. simpl. split; [done|]. intros [x|e] _; [|by split]. destruct b3; [|done].
  destruct (running_alive r Hs) as [Ha Hd]. split; [by apply (set_state_replaces r "paused")|].
  eapply always_mono; [|apply describe_ends; by apply (set_state_replaces r "paused")].
  intros y d' b' Hy. split; [eapply described_sound; [|exact Hy]; by apply (set_state_replaces r "paused")|].
  intros _. destruct Hy as (_ & [->|(r0 & [= <-] & _ & _ & ->)] & _); eexists; split; done.
Qed.

Lemma keeps_pause : keeps pause.
Proof. intros d b Hs. eapply always_mono; [|by apply pause_ends]. by intros x d' b' [? _]. Qed.

#[local] Opaque pause.

Lemma keeps_resume : keeps resume.
Proof.
  apply keeps_op; [|intros; apply keeps_describe]. apply keeps_with. intros r b Hs.
  apply keeps_live; [auto|done|]. intros Ha Hd. apply always_change, always_save.
  - by apply (set_state_replaces r "ready").
  - apply keeps_step; [auto with silent|by apply (set_state_replaces r "ready")|]. intros b' _ Hs'.
    apply silent_recorded. intros x b'' Hb. by eapply sound_le.
Qed.

#[local] Opaque resume.

(** ** Stopping *)

Definition stopped_at (saved : reply) (d : option record) : Prop :=
  ∃ r, d = Some r ∧ r_state r = "stopped"%string ∧ r_checkpoint r = saved.

Definition stop_tail (c : capture_request) (r : record) : op reply :=
  saved ← caught (capture c);
  match saved with
  | Err e =>
      _ ← (if in_state r ["ready"]%string then _ ← resume; mret () else mret ());
      thrown e
  | Ok saved =>
      _ ← terminate;
      with_record (
        _ ← change (λ r, r <| r_state := "stopped"%string |> <| r_checkpoint := saved |>);
        _ ← save;
        mret saved)
  end.

Lemma stop_tail_ends c r0 d b :
  sound d b → alive d →
  always (stop_tail c r0) d b (λ x d b, sound d b ∧ ∀ saved, x = Ok saved → stopped_at saved d ∧ b = false).
Proof.
  intros Hs Ha. apply always_op, always_bind, mute_capture. intros [saved|e] b1 Hb1; simpl;
    apply (sound_le _ b b1 Hb1) in Hs; clear b Hb1.
  - apply always_op. eapply always_mono; [|by apply terminate_ends].
    intros [x|e] d' b' Ht; [|split; [by eapply terminated_sound|done]]. destruct Ha as (r & -> & Hd).
    destruct Ht as (_ & Ht & _). simpl in Ht. rewrite Hd in Ht. destruct Ht as [[-> ->]|[? _]]; [|done].
    apply always_with, always_change, always_save.
    + split; [|done]. split; [done|]. simpl. congruence.
    + split; [split; [done|simpl; congruence]|]. intros ? [= <-]. split; [|done]. eexists. by repeat split.
  - apply (always_mono _ _ _ (λ x d b, sound d b ∧ ∃ e, x = Err e)); [by intros x d' b' (? & e' & ->)|].
    apply always_op. destruct (in_state r0 ["ready"%string]); [|by simpl; eauto].
    apply always_op. eapply always_mono; [|by apply keeps_resume].
    intros [x|e'] d' b' Hs'; simpl; eauto.
Qed.

Lemma stop_ends c d b :
  sound d b →
  always (stop c) d b (λ x d' b', sound d' b' ∧
    ∀ saved, x = Ok saved → stopped_at saved d' ∧ (b' = false ∨ (d' = d ∧ is_Some saved))).
Proof.
  intros Hs. apply always_op. destruct d as [r|]; [|by apply always_with_none]. apply always_with. simpl.
  destruct (in_state r ["stopped"%string] && bool_decide (is_Some (r_checkpoint r))) eqn:E.
  - apply andb_true_iff in E as [Est Eck]. apply bool_decide_eq_true in Eck.
    assert (Hst : r_state r = "stopped"%string) by (apply bool_decide_eq_true in Est; set_solver).
    apply always_with, always_silent; [auto with silent|by intros; split; [eapply sound_le|]|].
    intros b' [] Hb. split; [by eapply sound_le|]. intros saved [= <-]. split; [by exists r|by right].
  - apply always_op. eapply always_mono; [|by apply pause_ends]. intros [x|e] d' b' [Hs' Ha]; [|done].
    eapply always_mono; [|by apply (stop_tail_ends c r); auto]. intros y d2 b2 [Hs2 Hy]. split; [done|].
    intros saved Hx. destruct (Hy saved Hx). eauto.
Qed.

Lemma keeps_stop c : keeps (stop c).
Proof. intros d b Hs. eapply always_mono; [|by apply stop_ends]. by intros x d' b' [? _]. Qed.

Lemma keeps_policy p : keeps (network_policy p).
Proof.
  unfold network_policy. destruct p; [apply keeps_thrown|]. apply keeps_with. intros r b Hs. apply always_read.
  apply keeps_step; [auto with silent|done|]. intros b1 _ Hs1. apply keeps_step; [auto with silent|done|]. intros b2 _ Hs2.
  apply keeps_live; [auto|done|]. intros Ha Hd. by apply always_saved; [apply save_same|].
Qed.

Lemma import_replaces r child b :
  sound (Some r) b → r_deleted r = false → replaces (Some r) b (r <| r_imports := r_imports r ++ [child] |>).
Proof. intros Hs Hd. by apply replaces_change. Qed.

Lemma keeps_import child : keeps (import_image child).
Proof.
  apply keeps_with. intros r b Hs. apply always_read. destruct (sp_import (r_spec r)) eqn:E; [|done].
  assert (Hd : r_deleted r = false).
  { destruct (r_deleted r) eqn:Hd; [|done]. destruct Hs as [_ Ht]. destruct (Ht Hd) as (_ & _ & H). congruence. }
  apply (import_replaces r child) in Hs as Hr; [|done]. apply always_change, always_save; [done|].
  apply silent_do; [done|]. intros x b' Hb. eapply sound_le; [exact Hb|apply Hr].
Qed.

(** ** Claims and expiry *)

Lemma ready_alive r b s : sound (Some r) b → in_state r [s] = true → s ≠ "terminated"%string → r_deleted r = false.
Proof.
  intros [_ Ht] Hst Hne. destruct (r_deleted r) eqn:E; [|done]. destruct (Ht E) as (Hs & _).
  apply bool_decide_eq_true in Hst. set_solver.
Qed.

Lemma keeps_claim owner detached ttl : keeps (claim owner detached ttl).
Proof.
  intros d b Hs. apply always_op. eapply always_mono; [|by apply describe_ends].
  intros [s|e] d' b' Hx; [|by eapply described_sound].
  pose proof (described_sound _ _ _ _ _ Hs Hx) as Hs'. destruct Hx as (_ & _ & ->).
  destruct (in_state (d_record s) ["ready"%string]) eqn:E; [|done]. simpl negb. cbv iota.
  pose proof (ready_alive _ _ _ Hs' E ltac:(done)) as Hd.
  apply always_op. apply always_with. intros t. apply always_change. apply always_act.
  assert (Hr : ∀ r', is_active r' = is_active (d_record s) → r_deleted r' = false →
    always ((_ ← save; recorded "recordings.start") r') (Some (d_record s)) b'
      (λ x d b, match x.2 with Ok _ => always describe d b (λ _ d b, sound d b) | Err e => sound d b end)).
  { intros r' Ha Hd'. apply always_save; [by apply replaces_change; auto; rewrite Ha|].
    apply silent_recorded. intros x b'' Hb. assert (sound (Some r') b'').
    { eapply sound_le; [exact Hb|]. eapply sound_change; [exact Hs'|done|by rewrite Ha]. }
    destruct x; [by apply keeps_describe|done]. }
  destruct ttl as [ttl|]; apply Hr; done.
Qed.

(** A reason to end a sandbox is given only for a record that is not a tombstone. *)
Lemma reason_ends r b :
  sound (Some r) b →
  always (with_record expiry_reason) (Some r) b (λ x d' b', d' = Some r ∧ implb b' b = true ∧
    ∀ reason, x = Ok (Some reason) → r_deleted r = false).
Proof.
  intros [_ Ht]. apply always_with, always_read. destruct (r_deleted r) eqn:E.
  - destruct (Ht E) as (_ & Hc & _). rewrite Hc, orb_true_r. by repeat split.
  - assert (Hq : silent (if in_state r ["terminated"; "stopped"]%string || r_cleanup_complete r then mret None
      else if bool_decide (is_Some (r_cleanup_error r)) && negb (sp_keep (r_spec r)) then mret (Some "cleanup_retry"%string)
      else t ← now;
        if in_state r ["ready"; "paused"]%string && match r_expires r with Some e => e <=? t | None => false end
        then mret (Some "ttl"%string) else ask (Reason (r_owner r)))) by auto 10 with silent.
    apply Hq. intros x b' Hb. by repeat split.
Qed.

(** What an expiry leaves: the record as it was, or lost or to retry, or ended for a reason. *)
Definition expired (r : record) (d' : option record) (b' : bool) : Prop :=
  d' = Some r ∨ (∃ e, d' = Some (to_retry r e)) ∨
  (b' = false ∧ (d' = Some (ended r) ∨ ∃ reason, d' = Some (ended r <| r_reason := Some reason |>))).

Lemma expire_ends r b :
  sound (Some r) b → always expire (Some r) b (λ _ d' b', sound d' b' ∧ expired r d' b').
Proof.
  intros Hs. apply always_op, always_bind. eapply always_mono; [|by apply reason_ends].
  intros x d' b1 (-> & Hb1 & Hx). apply (sound_le _ _ _ Hb1) in Hs.
  assert (Hidle : sound (Some r) b1 ∧ expired r (Some r) b1) by (split; [done|by left]).
  destruct x as [[reason|]|e]; [|by simpl..]. specialize (Hx reason eq_refl).
  apply always_op, always_bind, always_op. eapply always_mono; [|by apply reason_ends].
  intros x d' b2 (-> & Hb2 & _). apply (sound_le _ _ _ Hb2) in Hs.
  assert (Hidle2 : sound (Some r) b2 ∧ expired r (Some r) b2) by (split; [done|by left]).
  destruct x as [[again|]|e]; [|by simpl..]. clear Hidle Hidle2.
  apply always_op. eapply always_mono; [|by apply terminate_ends]. intros x d' b3 Ht.
  pose proof (terminated_sound _ _ _ _ _ Hs Ht) as Hs3. destruct Ht as (_ & Ht & _). simpl in Ht. rewrite Hx in Ht.
  destruct x as [s|e].
  - destruct Ht as [[-> ->]|[? _]]; [|done]. apply always_with, always_change, always_saved.
    + split; [split; [done|simpl; congruence]|done].
    + split; [split; [done|simpl; congruence]|]. right; right. split; [done|]. right. by exists again.
  - split; [done|]. destruct Ht as [[-> ->]|(_ & [->|[e' ->]])]; [right; right; by split; auto|by left|right; left; eauto].
Qed.

Lemma keeps_expire : keeps expire.
Proof.
  intros [r|] b Hs.
  - eapply always_mono; [|by apply expire_ends]. by intros x d' b' [? _].
  - apply always_op, always_bind. by apply always_with_none.
Qed.

(** ** Deletion *)

Lemma silent_purge_children l : silent (purge_children l).
Proof. induction l as [|c l IH]; simpl; [auto with silent|]. auto 10 with silent. Qed.

Lemma tombstone_sound r b : sound (Some (tombstone r)) b ↔ b = false.
Proof.
  split; [intros [Ha _]; destruct b; [by specialize (Ha eq_refl)|done]|]. intros ->. split; [done|]. by repeat split.
Qed.

Definition purged (d d' : option record) (b' : bool) : Prop :=
  ∃ r, d = Some r ∧ ((r_deleted r = true ∧ d' = d) ∨ (d' = Some (tombstone r) ∧ b' = false)).

(** A silent step of a sandbox that does not run *)
Lemma always_off {A B} (m : act A) (f : A → act B) r d Q :
  silent m → (∀ e, Q (r, Err e) d false) → (∀ a, always (f a r) d false Q) → always ((m ≫= f) r) d false Q.
Proof. intros Hm He Hf. apply always_silent; [done|intros []|intros []]; auto; done. Qed.

Lemma purge_rest r r' (Q : res () → option record → bool → Prop) :
  sound (Some r') false → r_deleted r' = false →
  (∀ e, Q (Err e) (Some r') false) → Q (Ok tt) (Some (tombstone r)) false →
  always ((_ ← purge_children (r_imports r); _ ← when (r_group r) (do (Other "purge services"));
    _ ← do Delete; _ ← when (sp_recording (r_spec r)) (do (Other "recordings.delete"));
    _ ← do (Other "remove uploads"); _ ← change tombstone; save) r) (Some r') false (λ x, Q x.2).
Proof.
  intros Hs Hd He HQ. apply always_off; [apply silent_purge_children|done|]. intros _.
  do 4 (apply always_off; [auto with silent|done|]; intros _). apply always_change, always_saved; [|done].
  split; [by apply tombstone_sound|done].
Qed.

Lemma purge_ends d b : sound d b → always purge d b (λ x d' b', sound d' b' ∧ (is_ok x = true → purged d d' b')).
Proof.
  intros Hs. destruct d as [r|]; [|by apply always_with_none]. apply always_with, always_read.
  destruct (r_deleted r) eqn:Hd; [by split; [|exists r; auto]|]. apply always_act, always_call.
  eapply always_mono; [|by apply terminate_ends]. intros x d' b' Ht.
  pose proof (terminated_sound _ _ _ _ _ Hs Ht) as Hs'. destruct Ht as (_ & Ht & _). simpl in Ht. rewrite Hd in Ht.
  destruct x as [s|e]; [|by simpl]. destruct Ht as [[-> ->]|[? _]]; [|done]. simpl snd. cbv iota. simpl fst.
  apply (purge_rest r (ended r) (λ x d' b', sound d' b' ∧ (is_ok x = true → purged (Some r) d' b')));
    [by apply ended_sound|done| |].
  - intros e. by split; [apply ended_sound|].
  - split; [by apply tombstone_sound|]. intros _. exists r. auto.
Qed.

Lemma keeps_purge : keeps purge.
Proof. intros d b Hs. eapply always_mono; [|by apply purge_ends]. by intros x d' b' [? _]. Qed.

(** ** Creation *)

Definition live (r : record) : Prop := is_active r = true ∧ r_deleted r = false.

(** A creation under way: its copy and the record on disk are those of a live sandbox. *)
Definition underway (r : record) (d : option record) : Prop := live r ∧ ∃ r0, d = Some r0 ∧ live r0.

Lemma underway_sound r d b : underway r d → sound d b.
Proof. intros (_ & r0 & -> & Ha & Hd). split; simpl; [done|congruence]. Qed.

Lemma underway_replaces r d b : underway r d → replaces d b r.
Proof. intros ((Ha & Hd) & r0 & -> & _ & Hd0). split; [|done]. split; simpl; [done|congruence]. Qed.

Lemma underway_saved r d : underway r d → underway r (Some r).
Proof. intros [Hl _]. split; [done|]. by exists r. Qed.

(** A step of a creation that leaves the sandbox in its state *)
Definition steady {A} (m : act A) : Prop :=
  ∀ r d b, underway r d → always (m r) d b (λ x d' _, underway x.1 d' ∧ r_state x.1 = r_state r).

Lemma steady_silent {A} (m : act A) : silent m → steady m.
Proof. intros Hm r d b Hr. by apply Hm. Qed.

Lemma steady_bind {A B} (m : act A) (f : A → act B) : steady m → (∀ a, steady (f a)) → steady (m ≫= f).
Proof.
  intros Hm Hf r d b Hr. apply always_act. eapply always_mono; [|by apply Hm].
  intros [r' [a|e]] d' b' [Hr' Hst]; [|done]. simpl in *. rewrite <- Hst. by apply Hf.
Qed.

Lemma steady_save : steady save.
Proof. intros r d b Hr. apply always_saved; [by apply underway_replaces|]. split; [|done]. by eapply underway_saved. Qed.

Lemma steady_change f : (∀ r, live r → live (f r) ∧ r_state (f r) = r_state r) → steady (change f).
Proof. intros Hf r d b [Hl Hd]. destruct (Hf r Hl). by split. Qed.

Lemma steady_when c m : steady m → steady (when c m).
Proof. destruct c; [done|]. intros _. apply steady_silent, silent_ret. Qed.

Lemma steady_start : steady (do Start).
Proof.
  intros r d b Hr. split; [|by intros x _]. intros _. destruct Hr as (_ & r0 & -> & Ha & _). done.
Qed.

Lemma silent_setup steps : silent (run_setup steps).
Proof. induction steps as [|s steps IH]; simpl; auto with silent. Qed.

Lemma silent_restore c : silent (restore c).
Proof. unfold restore. auto 20 with silent. Qed.
#[local] Hint Resolve silent_setup silent_restore : silent.

#[local] Hint Resolve steady_save steady_when steady_start : silent.
#[local] Hint Extern 1 (steady (change _)) => apply steady_change; done : silent.
#[local] Hint Extern 5 (steady _) => apply steady_silent; solve [auto 20 with silent] : silent.
#[local] Hint Extern 2 (steady (_ ≫= _)) => apply steady_bind; [|intros] : silent.

Lemma steady_start_sandbox c : steady (start_sandbox c).
Proof. unfold start_sandbox. auto 30 with silent. Qed.

(** What a creation that returns leaves: a sandbox that is ready, or lost since. *)
Definition created (r : record) : Prop :=
  r_state r = "ready"%string ∨ (r_state r = "failed"%string ∧ r_error r = Some lost_text).

Definition brought (x : record * res description) (d : option record) (_ : bool) : Prop :=
  underway x.1 d ∧ match x.2 with Ok s => d = Some (d_record s) ∧ created (d_record s) | Err _ => True end.

Lemma brought_err r d b e : underway r d → brought (r, Err e) d b.
Proof. by split. Qed.

Lemma brought_steady {A} (m : act A) (f : A → act description) r d b :
  steady m → underway r d →
  (∀ a r' d' b', underway r' d' → r_state r' = r_state r → always (f a r') d' b' brought) → always ((m ≫= f) r) d b brought.
Proof.
  intros Hm Hr Hf. apply always_act. eapply always_mono; [|by apply Hm].
  intros [r' [a|e]] d' b' [Hr' Hst]; [by apply Hf|by apply brought_err].
Qed.

Lemma brought_state (f : () → act description) s r d b :
  bool_decide (s ∈ ["terminated"; "stopped"]%string) = false → underway r d →
  (underway (r <| r_state := s |>) d → always (f tt (r <| r_state := s |>)) d b brought) →
  always ((set_state s ≫= f) r) d b brought.
Proof. intros Hs [[Ha Hd] Hr] Hf. apply Hf. split; [|done]. split; [by apply active_set|done]. Qed.

(** The last description of [_create] *)
Lemma described_creation r b :
  live r → r_state r = "ready"%string → always (call describe r) (Some r) b brought.
Proof.
  intros Hl Hst. assert (Hu : underway r (Some r)) by (split; [done|by exists r]).
  apply always_call. eapply always_mono; [|apply describe_ends; by eapply underway_sound].
  intros x d' b' (_ & Hd & Hx). split.
  - split; [done|]. destruct Hd as [->|(r0 & [= <-] & Hd0 & Hst0 & ->)]; [by exists r|].
    exists (lost_record r). repeat split; [|done]. rewrite active_lost by done. rewrite <- ready_active by done. apply Hl.
  - destruct x as [s|e]; [|done]. split; [done|].
    destruct Hd as [->|(r0 & [= <-] & _ & _ & ->)]; injection Hx as <-; [by left|by right].
Qed.

Lemma brought_recording (c : bool) r d b :
  underway r d → r_state r = "ready"%string →
  always ((_ ← save; _ ← when c (_ ← do (Other "recordings.start"); save); call describe) r) d b brought.
Proof.
  intros Hr Hst. apply always_save; [by apply underway_replaces|]. apply underway_saved in Hr.
  destruct c; [|by apply described_creation; [apply Hr|]].
  apply always_act. change (when true ?m) with m. apply always_silent; [auto with silent|by intros; apply brought_err|].
  intros b' [] _. apply always_saved; [by apply underway_replaces|]. by apply described_creation; [apply Hr|].
Qed.

Lemma bring_up_ends c r d b : underway r d → always (bring_up c r) d b brought.
Proof.
  intros Hr. apply brought_steady; [apply steady_start_sandbox|done|]. clear Hr. intros saved r1 d1 b1 Hr _.
  apply brought_steady; [auto with silent|done|]. clear Hr. intros _ r2 d2 b2 Hr _.
  apply brought_state; [done|done|]. clear Hr. intros Hr.
  apply brought_steady; [auto with silent|done|]. clear Hr. intros _ r3 d3 b3 Hr _.
  apply brought_steady; [destruct saved as [[id memory]|]; auto with silent|done|]. clear Hr. intros _ r4 d4 b4 Hr _.
  apply brought_steady; [auto with silent|done|]. clear Hr. intros _ r5 d5 b5 Hr _.
  apply brought_steady; [auto 10 with silent|done|]. clear Hr. intros _ r6 d6 b6 Hr _.
  apply brought_steady; [auto 10 with silent|done|]. clear Hr. intros _ r7 d7 b7 Hr _.
  apply brought_steady; [auto 10 with silent|done|]. clear Hr. intros _ r8 d8 b8 Hr _.
  apply brought_steady; [auto 10 with silent|done|]. clear Hr. intros _ r9 d9 b9 Hr _.
  apply brought_state; [done|done|]. clear Hr. intros Hr. intros t. apply always_change.
  apply brought_recording; destruct (sp_ttl (cr_spec c)); done.
Qed.

(** How a creation is given up *)
Definition given_up (c : creation) (e : exn) (d : option record) (b : bool) : Prop :=
  ∃ r, d = Some r ∧ r_error r = Some (exn_text e) ∧
    if r_cleanup_complete r then b = false
    else r_state r = "failed"%string ∧ (sp_keep (cr_spec c) = true ∨ is_Some (r_cleanup_error r)).

Definition known : Prop := ∀ o x, can (Reason o) x = true → is_ok x = true.

Lemma failed_live r e : live r → live (r <| r_state := "failed"%string |> <| r_error := Some (exn_text e) |>).
Proof. intros [Ha Hd]. split; [|done]. by apply (active_set r "failed") in Ha. Qed.

Lemma live_incomplete r : live r → r_cleanup_complete r = false.
Proof. intros [Ha _]. unfold is_active in Ha. by destruct (r_cleanup_complete r); [rewrite andb_false_r in Ha|]. Qed.

Definition with_reason (reason : reply) : act () :=
  when (bool_decide (is_Some reason)) (change (λ r, r <| r_reason := reason |>)).

(** The end of a creation that failed, once its record says so *)
Definition abandon (c : creation) (reason : reply) (e : exn) : act description :=
  _ ← with_reason reason;
  _ ← when (bool_decide (is_Some reason) || negb (sp_keep (cr_spec c))) (
    x ← attempt terminate_runtime;
    _ ← match x with
        | Ok _ =>
            _ ← change (λ r, r <| r_cleanup_complete := true |>);
            when (bool_decide (is_Some reason)) (set_state "terminated")
        | Err e => change (λ r, r <| r_cleanup_error := Some (exn_text e) |>)
        end;
    save);
  rethrow e.

Definition quits (c : creation) (e : exn) (x : record * res description) (d : option record) (b : bool) : Prop :=
  sound d b ∧ x.2 = Err e ∧ given_up c e d b.

Lemma quits_cleaned c reason e r d b :
  underway r d → r_state r = "failed"%string → r_error r = Some (exn_text e) →
  always ((_ ← (
    x ← attempt terminate_runtime;
    _ ← match x with
        | Ok _ =>
            _ ← change (λ r, r <| r_cleanup_complete := true |>);
            when reason (set_state "terminated")
        | Err e => change (λ r, r <| r_cleanup_error := Some (exn_text e) |>)
        end;
    save); rethrow (A := description) e) r) d b (quits c e).
Proof.
  intros Hu Hst He. pose proof Hu as (Hl & r0 & -> & Ha0 & Hd0).
  apply always_act, always_act, always_bind. eapply always_mono; [|apply terminate_runtime_ends].
  intros [r' [[]|e']] d' b' (Hr & -> & Hb & Hx); simpl in Hr, Hx; subst r'.
  - rewrite Hx by done. destruct reason; (split; [split; [|done]|]);
      try (split; [done|intros Hd; exfalso; destruct Hl as [_ Hl]; simpl in Hd; congruence]);
      (split; [split; [done|intros Hd; exfalso; destruct Hl as [_ Hl]; simpl in Hd; congruence]|]);
      (split; [done|]); eexists; by repeat split.
  - split; [by apply underway_replaces|]. split; [apply (underway_sound r); split; [done|by eexists]|]. split; [done|].
    eexists. split; [done|]. split; [done|]. simpl. rewrite live_incomplete by done. split; [done|]. right. by eexists.
Qed.

Lemma abandon_ends c reason e r b :
  live r → r_state r = "failed"%string → r_error r = Some (exn_text e) →
  always (abandon c reason e r) (Some r) b (quits c e).
Proof.
  intros Hl Hst He. assert (Hu : underway r (Some r)) by (split; [done|by exists r]).
  unfold abandon, with_reason. destruct reason as [reason|].
  - by apply always_change, (quits_cleaned c true).
  - destruct (sp_keep (cr_spec c)) eqn:Hk; [|by apply (quits_cleaned c false)].
    split; [by eapply underway_sound|]. split; [done|]. exists r. rewrite live_incomplete by done. by repeat split; auto.
Qed.

Lemma creation_failed_ends c e r d b :
  underway r d →
  always (creation_failed c e r) d b (λ x d b, sound d b ∧ is_ok x.2 = false ∧
    (known → ∃ e, x.2 = Err e ∧ given_up c e d b)).
Proof.
  intros Hr. pose proof (failed_live r e (proj1 Hr)) as Hl. apply always_change, always_save.
  { apply underway_replaces. by split; [|apply Hr]. }
  assert (Hu : underway (r <| r_state := "failed"%string |> <| r_error := Some (exn_text e) |>)
                 (Some (r <| r_state := "failed"%string |> <| r_error := Some (exn_text e) |>)))
    by (split; [done|by eexists]).
  apply always_act. split; [done|]. intros [reason|e'] Hcan; simpl after; cbv iota beta.
  - apply (always_mono (abandon c reason e _) _ _ (quits c e)); [|by apply abandon_ends].
    intros x d' b' (Hs & Hx & Hg). split; [done|]. split; [by rewrite Hx|]. eauto.
  - split; [by eapply underway_sound|]. split; [done|]. intros Hk. by specialize (Hk _ _ Hcan).
Qed.

(** How a creation ends: a sandbox that is ready, nothing, or a record that says why. *)
Definition creation_ends (c : creation) (x : res description) (d : option record) (b : bool) : Prop :=
  sound d b ∧
  match x with
  | Ok s => d = Some (d_record s) ∧ created (d_record s)
  | Err e => d = None ∨ (known → given_up c e d b)
  end.

Lemma new_live c : live (new_record c).
Proof. done. Qed.

Lemma creation_none c e b : sound None b → creation_ends c (Err e) None b.
Proof. by split; [|left]. Qed.

#[local] Opaque bring_up creation_failed.

Lemma create_new_ends c b : sound None b → always (create c) None b (creation_ends c).
Proof.
  intros Hs. unfold create.
  assert (Hb : b = false) by (destruct b; [by destruct (proj1 Hs)|done]). subst b.
  apply always_bind. apply always_off; [auto with silent|intros; by apply creation_none|intros _].
  apply always_off; [auto with silent|intros; by apply creation_none|intros _].
  apply always_off; [auto with silent|intros; by apply creation_none|intros _].
  apply always_off; [auto with silent|intros; by apply creation_none|intros _].
  apply always_save; [by repeat split|].
  assert (Hu : underway (new_record c) (Some (new_record c))) by (split; [done|by exists (new_record c)]).
  unfold try. apply always_bind. eapply always_mono; [|by apply bring_up_ends].
  intros [r [s|e]] d' b' [Hr Hx]; simpl in *.
  - split; [by eapply underway_sound|done].
  - eapply always_mono; [|by apply creation_failed_ends]. intros [r' x] d2 b2 (Hs2 & Hx2 & Hg). simpl in *.
    destruct x as [|e2]; [done|]. split; [done|]. right. intros Hk. by destruct (Hg Hk) as (e3 & [= <-] & Hg').
Qed.

Lemma creation_keeps c : keeps (create c).
Proof.
  intros [r|] b Hs.
  - unfold create. simpl. destruct (negb _); [done|]. destruct (in_state r ["ready"%string]); [by apply keeps_describe|done].
  - eapply always_mono; [|by apply create_new_ends]. by intros x d' b' [? _].
Qed.

Lemma program_keeps o d b : sound d b → always (program o) d b (λ _ d b, sound d b).
Proof.
  intros Hs. destruct o; simpl; apply always_bind.
  - by apply creation_keeps.
  - by apply keeps_describe.
  - by apply keeps_pause.
  - by apply keeps_resume.
  - by apply keeps_terminate.
  - by apply keeps_stop.
  - exact (keeps_mute _ (mute_capture c) _ _ Hs).
  - by apply keeps_expire.
  - by apply keeps_policy.
  - by apply keeps_claim.
  - by apply keeps_import.
  - by apply keeps_purge.
Qed.

End Safety.

(** * Cleaning up when nothing fails *)

(** Without errors, [m] writes nothing and returns a value in [P]. *)
Definition grants {A} (m : act A) (P : A → Prop) : Prop :=
  ∀ r d b (Q : record * res A → option record → bool → Prop),
    (∀ a b', implb b' b = true → P a → Q (r, Ok a) d b') → always (C := no_errors) (m r) d b Q.

Definition anything {A} (_ : A) : Prop := True.

Lemma grants_bind {A B} (m : act A) (f : A → act B) P R :
  grants m P → (∀ a, P a → grants (f a) R) → grants (m ≫= f) R.
Proof.
  intros Hm Hf r d b Q HQ. apply always_act, Hm. intros a b' Hb Ha. apply Hf; [done|].
  intros x b'' Hb' Hx. apply HQ; [by eapply implb_trans|done].
Qed.

Lemma grants_any {A B} (m : act A) (f : A → act B) R :
  grants m anything → (∀ a, grants (f a) R) → grants (m ≫= f) R.
Proof. intros Hm Hf. eapply grants_bind; [exact Hm|auto]. Qed.

Lemma grants_ret {A} (a : A) (P : A → Prop) : P a → grants (mret a) P.
Proof. intros Ha r d b Q HQ. apply HQ; [by destruct b|done]. Qed.

Lemma grants_record P : (∀ r, P r) → grants the_record P.
Proof. intros HP r d b Q HQ. apply HQ; [by destruct b|done]. Qed.

Lemma grants_ask {A} (k : record → res reply → record * res A) q (P : A → Prop) :
  q ≠ Start → (∀ r x, ∃ a, k r (Ok x) = (r, Ok a) ∧ P a) → grants (λ r, Ask q (λ x, Ret (k r x))) P.
Proof.
  intros Hq Hk r d b Q HQ. split; [done|]. intros [x|e]; [|done]. intros _. destruct (Hk r x) as (a & Ha & HPa).
  destruct (after q b (Ok x)) as [b'|] eqn:E; [|done]. simpl. rewrite Ha. apply HQ; [by eapply after_status|done].
Qed.

Lemma grants_do q : q ≠ Start → grants (do q) anything.
Proof. intros Hq. apply (grants_ask (λ r x, (r, match x with Ok _ => Ok tt | Err e => Err e end))); [done|]. intros r x. by exists tt. Qed.

Lemma grants_when c m : grants m anything → grants (when c m) anything.
Proof. destruct c; [done|]. intros _. by apply grants_ret. Qed.

Lemma grants_attempt {A} (m : act A) P : grants m P → grants (attempt m) (λ x, ∃ a, x = Ok a ∧ P a).
Proof. intros Hm r d b Q HQ. apply always_bind, Hm. intros a b' Hb Ha. apply HQ; [done|eauto]. Qed.

Lemma grants_imports l : grants (end_imports l) (λ b, b = true).
Proof.
  induction l as [|c l IH]; simpl; [by apply grants_ret|].
  eapply grants_bind; [by apply grants_attempt, grants_do|]. intros x (a & -> & _).
  eapply grants_bind; [exact IH|]. intros rest ->. by apply grants_ret.
Qed.

Lemma grants_optional (c : bool) (m : act ()) (g : res () → bool) :
  g (Ok tt) = true → grants m anything → 
  grants ((if c then x ← attempt m; mret (g x) else mret true) : act bool) (λ b, b = true).
Proof.
  intros Hg Hm. destruct c; [|by apply grants_ret].
  eapply grants_bind; [by apply grants_attempt|]. intros x ([] & -> & _). by apply grants_ret.
Qed.

Lemma grants_status : grants (ask Status) anything.
Proof. apply (grants_ask (λ r x, (r, x))); [done|]. intros r x. by exists x. Qed.

Lemma grants_cleanup : grants terminate_runtime anything.
Proof.
  unfold terminate_runtime. apply grants_any; [by apply grants_record|]. intros r.
  apply grants_any; [by apply grants_do|]. intros _.
  eapply grants_bind; [by apply (grants_optional _ _ unless_missing), grants_do|]. intros network ->.
  eapply grants_bind; [apply grants_imports|]. intros imports ->.
  eapply grants_bind; [by apply (grants_optional _ _ is_ok), grants_do|]. intros group ->.
  eapply grants_bind.
  - apply (grants_attempt _ anything). unfold end_runtime. apply grants_any; [by apply grants_record|]. intros r'.
    apply grants_any; [by apply grants_when, grants_do|]. intros _.
    apply grants_any; [by apply grants_do|]. intros _. apply grants_any; [apply grants_status|]. intros s.
    apply grants_any; [by apply grants_when, grants_do|]. intros _. by apply grants_when, grants_do.
  - intros x ([] & -> & _). apply grants_any; [by apply grants_ret|]. intros _. by apply grants_when, grants_do.
Qed.

Lemma always_and {C : restriction} {A} (p : prog A) d b (Q R : A → option record → bool → Prop) :
  always p d b Q → always p d b R → always p d b (λ a d b, Q a d b ∧ R a d b).
Proof.
  revert d b. induction p as [|k IH|r p IH|k IH|q k IH]; intros d b; simpl; [done|apply IH| | |].
  - intros [? H1] [_ H2]. split; [done|by apply IH].
  - intros H1 H2 t. by apply IH.
  - intros [? H1] [_ H2]. split; [done|]. intros x Hx. specialize (H1 x Hx). specialize (H2 x Hx).
    destruct (after q b x); [by apply IH|done].
Qed.

Lemma cleanup_succeeds r d b :
  always (C := no_errors) (terminate_runtime r) d b (λ x d' b', x = (r, Ok tt) ∧ d' = d ∧ b' = false).
Proof.
  eapply always_mono; [|apply always_and; [apply terminate_runtime_ends|apply (grants_cleanup r d b (λ x _ _, is_ok x.2 = true)); by intros]].
  intros [r' [[]|e]] d' b' [(Hr & -> & _ & Hx) Hok]; [|done]. simpl in *. subst r'. by rewrite Hx.
Qed.

#[local] Transparent describe.

Lemma describe_succeeds r b :
  r_state r = "terminated"%string →
  always (C := no_errors) describe (Some r) b (λ x d b', is_ok x = true ∧ d = Some r ∧ implb b' b = true).
Proof.
  intros Hst. apply always_with, always_read. destruct (r_deleted r); [by repeat split; destruct b|].
  apply always_act, grants_status. intros s b1 Hb1 _. cbn [snd fst].
  assert (Hl : lost r s = false) by (unfold lost, in_state; rewrite Hst; done). rewrite Hl.
  apply always_act. cbn [snd fst]. apply always_act.
  assert (Hq : Other "recordings.status" ≠ Start) by done. apply (grants_when _ _ (grants_do _ Hq)).
  intros [] b2 Hb2 _. repeat split. by eapply implb_trans.
Qed.

#[local] Opaque describe.

Lemma terminate_succeeds r b :
  r_deleted r = false →
  always (C := no_errors) terminate (Some r) b (λ x d b', is_ok x = true ∧ d = Some (ended r) ∧ b' = false).
Proof.
  intros Hd. apply always_op, always_with, always_read. rewrite Hd. apply always_act. unfold try.
  apply always_bind. eapply always_mono; [|apply cleanup_succeeds]. intros x d' b' (-> & -> & ->).
  apply always_act, grants_do; [done|]. intros [] b' Hb' _. destruct b'; [done|].
  split; [by apply ended_replaces|]. simpl. eapply always_mono; [|by apply (describe_succeeds (ended r) false)].
  intros x d b' (Hx & -> & Hb). by destruct b'.
Qed.
