(* ===== verification/SandboxLife.v ===== *)
(** The life of one sandbox on a worker: what holds after any history of operations,
    worker failures included, and how creation, termination, expiry and stopping end.
    The theorems are about [Worker] of [sandbox/worker.py] and [Deletions._purge]. *)

From S2P Require Import Prelude Sandboxes SandboxRuns SandboxSafety.

#[local] Open Scope Z_scope.

(** Before the first operation *)
Definition nowhere : world := World None false false.

Definition consistent (w : world) : Prop := sound (w_record w) (w_running w) ∧ indexed w.

(** A running sandbox has a record that is active, and the cleanup loop looks at it. *)
Definition accounted (w : world) : Prop :=
  w_running w = true → ∃ r, w_record w = Some r ∧ is_active r = true ∧ w_indexed w = true.

(** Operations with any answers the runtime may give *)
Definition after_history (l : list (operation * list event)) : world := history (C := any_answer) l nowhere.

Lemma consistent_accounted w : consistent w → accounted w.
Proof.
  intros [[Ha _] Hi] Hr. specialize (Ha Hr). unfold indexed in Hi. destruct (w_record w) as [r|]; [|done].
  exists r. by rewrite Hi.
Qed.

Lemma consistent_restarted w : consistent w → consistent (restarted w).
Proof. by intros [? ?]. Qed.

Lemma exec_consistent {C : restriction} {A} (p : prog A) es w Q :
  consistent w → always p (w_record w) (w_running w) Q →
  consistent (exec p es w).1 ∧ kept (w_record w) (w_record (exec p es w).1) ∧
  ∀ a, (exec p es w).2 = Some a →
    ∃ b, implb (w_running (exec p es w).1) b = true ∧ Q a (w_record (exec p es w).1) b.
Proof.
  intros [Hs Hi] Hp. destruct (exec_sound p es w (w_running w) Q Hp Hs (implb_refl _) Hi) as (b & H1 & H2 & H3 & H4 & H5).
  split; [split; [by eapply sound_le|done]|]. split; [done|]. intros a Ha. exists b. auto.
Qed.

Lemma history_consistent {C : restriction} l w :
  consistent w → consistent (history l w) ∧ kept (w_record w) (w_record (history l w)).
Proof.
  revert w. induction l as [|[o es] l IH]; intros w Hw; simpl; [by split; [|apply kept_refl]|].
  destruct (exec_consistent (program o) es w _ Hw (program_keeps o _ _ (proj1 Hw))) as (Hw' & Hk & _).
  destruct (exec (program o) es w) as [w' [a|]]; simpl in *.
  - destruct (IH w' Hw') as [? Hk']. split; [done|]. clear -Hk Hk'. destruct (w_record w) as [r|]; simpl in *; [|done].
    intros Hd. specialize (Hk Hd). rewrite Hk in Hk'. simpl in Hk'. by rewrite Hk'.
  - destruct (IH (restarted w') (consistent_restarted _ Hw')) as [? Hk']. split; [done|]. simpl in Hk'. clear -Hk Hk'.
    destruct (w_record w) as [r|]; simpl in *; [|done]. intros Hd. specialize (Hk Hd). rewrite Hk in Hk'. simpl in Hk'.
    by rewrite Hk'.
Qed.

Lemma nowhere_consistent : consistent nowhere.
Proof. by repeat split. Qed.

Lemma after_consistent l : consistent (after_history l).
Proof. apply history_consistent, nowhere_consistent. Qed.

Lemma history_app {C : restriction} l1 l2 w : history (l1 ++ l2) w = history l2 (history l1 w).
Proof. revert w. induction l1 as [|[o es] l1 IH]; intros w; simpl; [done|]. destruct (exec _ _ _) as [w' [a|]]; apply IH. Qed.

(** C5: after any operations on a sandbox, with any answers and the worker ending
    anywhere, a sandbox that runs has a record that is active and that the cleanup
    loop looks at: nothing runs unaccounted for. *)
Theorem running_is_recorded l : accounted (after_history l).
Proof. apply consistent_accounted, after_consistent. Qed.

(** C6: the tombstone of a deleted sandbox is final: no later operation, a delayed
    creation included, replaces it, and nothing runs under that identity. *)
Theorem tombstones_final l l' r :
  w_record (after_history l) = Some r → r_deleted r = true →
  w_record (after_history (l ++ l')) = Some r ∧ w_running (after_history (l ++ l')) = false.
Proof.
  intros Hr Hd. unfold after_history. rewrite history_app. fold (after_history l).
  destruct (history_consistent (C := any_answer) l' _ (after_consistent l)) as [Hw Hk].
  rewrite Hr in Hk. specialize (Hk Hd). split; [done|].
  destruct Hw as [Hs _]. rewrite Hk in Hs. destruct (w_running _); [|done].
  destruct (running_alive r Hs). congruence.
Qed.

(** How an operation ends on the world it leaves *)
Definition settled {A} (P : A → world → Prop) (x : world * option A) : Prop :=
  match x.2 with Some a => P a x.1 | None => True end.

Lemma exec_settled {C : restriction} {A} (p : prog A) es w Q (P : A → world → Prop) :
  consistent w → always p (w_record w) (w_running w) Q →
  (∀ a w' b, consistent w' → implb (w_running w') b = true → Q a (w_record w') b → P a w') → settled P (exec p es w).
Proof.
  intros Hw Hp HP. destruct (exec_consistent p es w Q Hw Hp) as (Hw' & _ & Hq). unfold settled.
  destruct (exec p es w) as [w' [a|]]; simpl in *; [|done]. destruct (Hq a eq_refl) as (b & Hb & HQ). exact (HP _ _ _ Hw' Hb HQ).
Qed.

Lemma off w : implb (w_running w) false = true → w_running w = false.
Proof. by destruct (w_running w). Qed.

(** What a creation leaves behind when it raises [e] *)
Definition creation_left (c : creation) (e : exn) (w : world) : Prop :=
  w_record w = None ∨
  ∃ r, w_record w = Some r ∧ r_error r = Some (exn_text e) ∧
    ((r_cleanup_complete r = true ∧ w_running w = false) ∨
     (is_active r = true ∧ r_state r = "failed"%string ∧ (sp_keep (cr_spec c) = true ∨ is_Some (r_cleanup_error r)))).

Lemma failed_active r : r_state r = "failed"%string → r_cleanup_complete r = false → is_active r = true.
Proof. intros Hs Hc. unfold is_active, in_state. by rewrite Hs, Hc. Qed.


(** What an explicit termination leaves of record [r] *)
Definition termination_left (r : record) (x : res description) (w : world) : Prop :=
  (w_record w = Some (ended r) ∧ w_running w = false) ∨
  (is_ok x = false ∧ ∃ r', w_record w = Some r' ∧ (r' = r ∨ ∃ e, r' = to_retry r e)).

(** A termination that returns has ended the sandbox and says so; one that raises
    has either ended it or leaves the record as active as it was, for another attempt. *)
Theorem termination_outcome l es r :
  w_record (after_history l) = Some r → r_deleted r = false →
  settled (termination_left r) (exec (C := any_answer) terminate es (after_history l)).
Proof.
  intros Hr Hd. pose proof (after_consistent l) as Hw.
  eapply exec_settled; [done|apply terminate_ends, Hw|]. intros x w b Hw' Hb (_ & Hx & _).
  rewrite Hr, Hd in Hx. destruct Hx as [[Hx ->]|(Hx & Hr')]; [left; split; [done|by apply off]|right].
  split; [done|]. destruct Hr' as [Hr'|[e Hr']]; eauto 10.
Qed.

Lemma stopped_off w saved : consistent w → stopped_at saved (w_record w) → w_running w = false.
Proof.
  intros [[Ha _] _] (r & Hr & Hst & _). destruct (w_running w); [|done]. specialize (Ha eq_refl). rewrite Hr in Ha.
  simpl in Ha. unfold is_active, in_state in Ha. by rewrite Hst in Ha.
Qed.

(** A stop that returns has recorded the sandbox as stopped at the snapshot it
    returns, and nothing runs. *)
Theorem stop_outcome l c es :
  settled (λ x w, ∀ saved, x = Ok saved → stopped_at saved (w_record w) ∧ w_running w = false)
    (exec (C := any_answer) (stop c) es (after_history l)).
Proof.
  pose proof (after_consistent l) as Hw.
  eapply exec_settled; [done|apply stop_ends, Hw|]. intros x w b Hw' Hb [_ Hx] saved Hsaved.
  destruct (Hx saved Hsaved) as [Hst _]. split; [done|]. by eapply stopped_off.
Qed.

(** An expiry leaves the record as it was, or ends the sandbox, or notes the
    failure of its cleanup: it does nothing else to a record, whatever fails. *)
Theorem expiry_outcome l es r :
  w_record (after_history l) = Some r →
  settled (λ _ w, w_record w = Some r ∨ (∃ e, w_record w = Some (to_retry r e)) ∨
             (w_running w = false ∧ (w_record w = Some (ended r) ∨
                ∃ reason, w_record w = Some (ended r <| r_reason := Some reason |>))))
    (exec (C := any_answer) expire es (after_history l)).
Proof.
  intros Hr. pose proof (after_consistent l) as Hw.
  eapply exec_settled; [done|rewrite Hr; apply expire_ends; rewrite <- Hr; apply Hw|].
  intros x w b Hw' Hb [_ [Hx|[Hx|(-> & Hx)]]]; [by left|right; by left|right; right]. split; [by apply off|done].
Qed.

(** * A failed cleanup is retried *)

(** A record whose cleanup failed, and that is not to be kept *)
Definition retryable (r : record) : Prop :=
  is_active r = true ∧ r_deleted r = false ∧ is_Some (r_cleanup_error r) ∧ sp_keep (r_spec r) = false.

Definition retried (r : record) : record := ended r <| r_reason := Some "cleanup_retry"%string |>.

Lemma retry_reason r : retryable r → expiry_reason r = Ret (r, Ok (Some "cleanup_retry"%string)).
Proof.
  intros (Ha & _ & He & Hk). unfold is_active in Ha. apply andb_true_iff in Ha as [Hs Hc].
  apply negb_true_iff in Hs, Hc. unfold expiry_reason, mbind, act_bind, the_record. cbn [prog_bind fst snd]. by rewrite Hs, Hc, (bool_decide_eq_true_2 _ He), Hk.
Qed.

#[local] Opaque terminate.

Lemma expire_retries r b :
  retryable r →
  always (C := no_errors) expire (Some r) b (λ x d b', is_ok x = true ∧ d = Some (retried r) ∧ b' = false).
Proof.
  intros Hr. pose proof (retry_reason r Hr) as He. pose proof Hr as (_ & Hd & _).
  assert (Hreason : ∀ Q : res reply → option record → bool → Prop,
    Q (Ok (Some "cleanup_retry"%string)) (Some r) b → always (C := no_errors) (with_record expiry_reason) (Some r) b Q)
    by (intros Q HQ; apply always_with; by rewrite He).
  apply always_op, always_bind, Hreason. apply always_op, always_bind, always_op, Hreason. apply always_op.
  eapply always_mono; [|by apply terminate_succeeds]. intros [s|e] d' b' (Hx & -> & ->); [|done].
  apply always_with, always_change, always_saved; [|done].
  split; [|done]. split; [done|]. simpl. congruence.
Qed.

(** A sandbox whose cleanup failed, and that is not to be kept, is cleaned up by
    the next pass of the loop in which nothing fails: it is recorded as terminated
    with the reason, is no longer looked at, and does not run. *)
Theorem cleanup_retried l es r :
  w_record (after_history l) = Some r → retryable r →
  settled (λ _ w, w_record w = Some (retried r) ∧ w_indexed w = false ∧ w_running w = false)
    (exec (C := no_errors) expire es (after_history l)).
Proof.
  intros Hr Hy. pose proof (after_consistent l) as Hw.
  eapply exec_settled; [done|rewrite Hr; by apply expire_retries|].
  intros x w b [_ Hi] Hb (_ & Hx & ->). split; [done|]. split; [|by apply off]. unfold indexed in Hi. by rewrite Hx in Hi.
Qed.

(** * Concrete histories *)

(** Every question is answered, and the sandbox runs or does not. *)
Definition fine (running : bool) : event := Event (Ok (Some "running"%string)) 10 running.
Definition broken (running : bool) : event := Event (raise OSError "device is busy") 10 running.

Definition ex_spec : sspec := SSpec false (Some 3600) false false false false false false false false false false [].
Definition ex_creation : creation := Creation (Some "demo"%string) ex_spec (Some "op-1"%string) None None false false.

(** Seven steps come before the start. *)
Definition ex_create : operation * list event := (OCreate ex_creation, replicate 7 (fine false) ++ replicate 20 (fine true)).
(** The runtime fails to end the sandbox. *)
Definition ex_terminate_fails : operation * list event := (OTerminate, replicate 4 (fine true) ++ [broken true; fine true]).
Definition ex_delete : operation * list event := (OPurge, replicate 5 (fine true) ++ replicate 20 (fine false)).

Definition ex_record : record :=
  (new_record ex_creation) <| r_agent := true |> <| r_state := "ready"%string |> <| r_expires := Some 3610 |>.

Example ex_ready : after_history [ex_create] = World (Some ex_record) true true.
Proof. vm_compute. reflexivity. Qed.

Example ex_failed_cleanup :
  after_history [ex_create; ex_terminate_fails] = World (Some (to_retry ex_record (Exn ExceptionGroup "sandbox cleanup failed"))) true true.
Proof. vm_compute. reflexivity. Qed.

Example ex_deleted : after_history [ex_create; ex_delete] = World (Some (tombstone ex_record)) false false.
Proof. vm_compute. reflexivity. Qed.

Definition ex_pass : list event := replicate 6 (fine true) ++ replicate 20 (fine false).
Definition ex_stop : list event := replicate 13 (fine true) ++ replicate 20 (fine false).

Example running_is_recorded_example : w_running (after_history [ex_create; ex_terminate_fails]) = true.
Proof. vm_compute. reflexivity. Qed.

Example ex_stopped :
  (exec (C := any_answer) (stop (CaptureRequest "filesystem" false false)) ex_stop (after_history [ex_create])).2
  = Some (Ok (Some "running"%string)).
Proof. vm_compute. reflexivity. Qed.

Lemma tombstones_final_witness :
  w_record (after_history ([ex_create; ex_delete] ++ [ex_create])) = Some (tombstone ex_record) ∧
  w_running (after_history ([ex_create; ex_delete] ++ [ex_create])) = false.
Proof. apply (tombstones_final [ex_create; ex_delete] [ex_create] (tombstone ex_record)); vm_compute; reflexivity. Defined.

(** The runtime raises although the sandbox has started; it is cleaned up. *)
Definition ex_refused : list event := replicate 7 (fine false) ++ [broken true] ++ replicate 5 (fine true) ++ replicate 20 (fine false).


Lemma termination_outcome_witness :
  is_ok <$> (exec (C := any_answer) terminate (ex_terminate_fails.2) (after_history [ex_create])).2 = Some false ∧
  settled (termination_left ex_record) (exec (C := any_answer) terminate (ex_terminate_fails.2) (after_history [ex_create])).
Proof. split; [vm_compute; reflexivity|apply termination_outcome; vm_compute; reflexivity]. Defined.

Definition ex_dirty : record := to_retry ex_record (Exn ExceptionGroup "sandbox cleanup failed").

Lemma ex_dirty_retryable : retryable ex_dirty.
Proof. repeat split. by eexists. Qed.

Lemma expiry_outcome_witness :
  let x := exec (C := any_answer) expire ex_pass (after_history [ex_create; ex_terminate_fails]) in
  x.2 = Some (Ok tt) ∧
  settled (λ _ w, w_record w = Some ex_dirty ∨ (∃ e, w_record w = Some (to_retry ex_dirty e)) ∨
             (w_running w = false ∧ (w_record w = Some (ended ex_dirty) ∨
                ∃ reason, w_record w = Some (ended ex_dirty <| r_reason := Some reason |>)))) x.
Proof. split; [vm_compute; reflexivity|apply expiry_outcome; vm_compute; reflexivity]. Defined.

Lemma cleanup_retried_witness :
  let x := exec (C := no_errors) expire ex_pass (after_history [ex_create; ex_terminate_fails]) in
  x.2 = Some (Ok tt) ∧
  settled (λ _ w, w_record w = Some (retried ex_dirty) ∧ w_indexed w = false ∧ w_running w = false) x.
Proof. split; [vm_compute; reflexivity|apply cleanup_retried; [vm_compute; reflexivity|apply ex_dirty_retryable]]. Defined.
