(* ===== verification/LocalPools.v ===== *)
(** Local pools ([sandbox/pool.py]): bounded leases of sandboxes by the threads of
    one process. A state is what the lock protects, the control points of the client
    threads, the tasks of the executor, and the closing thread; an event is one
    section of code that holds the lock, or the end of one call outside it. Threads
    interleave at will. *)

From S2P Require Import Prelude.

#[local] Open Scope nat_scope.

(** Sandboxes, client threads and tasks are numbered. *)
Abbreviation env := N.

(** A client thread: in the loop of [_acquire]; creating a sandbox it counted as
    pending; in the body of the lease; about to release a sandbox it may not use;
    after [env.terminate()]; out of the scope. *)
Inductive client :=
  | Waiting (deadline : option Z) | Creating (target : nat) | Holding (e : env) | Refused (e : env)
  | Leaving (e : env) | Ended.

(** A task of the executor: in [_sandbox], or with a sandbox nobody wants. *)
Inductive task := Preparing (target : nat) | Unwanted (e : env).

(** [close]: not called; in [executor.shutdown]; at the head of the loop over
    [list(self.all)]; after the termination of [e]; done *)
Inductive closing := Open | Draining | Releasing (l : list env) | Dropping (e : env) (l : list env) | Finished.

Record pool := LocalPool {
  lp_size : nat; lp_warm : nat; lp_targets : nat;
  lp_idle : list env; lp_active : gset env; lp_all : gset env; lp_waiters : list N;
  lp_pending : nat; lp_cursor : nat; lp_started : bool; lp_failure : option exn;
  lp_clients : gmap N client; lp_tasks : gmap N task; lp_closing : closing;
  (** every sandbox created, every one handed to a client, every one terminated *)
  lp_created : gset env; lp_granted : list env; lp_tried : gset env }.

#[export] Instance pool_updatable : Updatable pool := λ s,
  LocalPool (lp_size s) (lp_warm s) (lp_targets s) (lp_idle s) (lp_active s) (lp_all s) (lp_waiters s)
    (lp_pending s) (lp_cursor s) (lp_started s) (lp_failure s) (lp_clients s) (lp_tasks s) (lp_closing s)
    (lp_created s) (lp_granted s) (lp_tried s).

(** [__init__] *)
Definition make_pool (size warm targets : nat) : res pool :=
  _ ← raise_if ((size <? 1) || negb (warm <=? size)) ValueError "pool size must be positive and warm must be in 0..size";
  _ ← raise_if (targets =? 0) ValueError "pool requires at least one target";
  Ok (LocalPool size warm targets [] ∅ ∅ [] 0 0 false None ∅ ∅ Open ∅ [] ∅).

Definition closed (s : pool) : bool := match lp_closing s with Open => false | _ => true end.

(** [_target] *)
Definition next_target (s : pool) : nat := lp_cursor s mod lp_targets s.

(** [_refill]: each turn submits [_prepare] as the task [lp_cursor s]. *)
Definition refill_more (s : pool) : bool :=
  negb (closed s) && (length (lp_idle s) + lp_pending s <? lp_warm s)
  && (size (lp_all s) + lp_pending s <? lp_size s).

Definition submit (s : pool) : pool :=
  s <| lp_tasks := <[N.of_nat (lp_cursor s) := Preparing (next_target s)]> (lp_tasks s) |>
    <| lp_cursor := S (lp_cursor s) |> <| lp_pending := S (lp_pending s) |>.

Fixpoint refill_loop (fuel : nat) (s : pool) : pool :=
  match fuel with
  | 0 => s
  | S fuel => if refill_more s then refill_loop fuel (submit s) else s
  end.

Definition refill (s : pool) : pool := refill_loop (lp_warm s) s.

Definition set_client (c : N) (x : client) (s : pool) : pool := s <| lp_clients := <[c := x]> (lp_clients s) |>.

(** [finally: self.waiters.remove(waiter)] *)
Definition leave (c : N) (s : pool) : pool :=
  s <| lp_waiters := filter (λ x, x ≠ c) (lp_waiters s) |>.

(** One turn of the loop of [_acquire] of client [c], at time [now] *)
Definition turn (c : N) (deadline : option Z) (cancelled : bool) (now : Z) (s : pool) : pool :=
  let quit := leave c (set_client c Ended s) in
  if cancelled then quit
  else if closed s then quit
  else if bool_decide (is_Some (lp_failure s)) then quit
  else
    let first := bool_decide (head (lp_waiters s) = Some c) in
    match first, lp_idle s with
    | true, e :: idle =>
        let s := s <| lp_idle := idle |> <| lp_active := {[e]} ∪ lp_active s |>
                   <| lp_granted := e :: lp_granted s |> in
        leave c (set_client c (Holding e) (refill s))
    | _, _ =>
        if first && (size (lp_all s) + lp_pending s <? lp_size s) then
          let target := next_target s in
          leave c (set_client c (Creating target)
            (s <| lp_pending := S (lp_pending s) |> <| lp_cursor := S (lp_cursor s) |>))
        else if match deadline with Some d => (d <=? now)%Z | None => false end then quit
        else s
    end.

(** The end of [_sandbox] in [_acquire]: the sandbox [e], or an exception *)
Definition created (c : N) (r : option env) (cancelled : bool) (s : pool) : pool :=
  match r with
  | None => set_client c Ended (s <| lp_pending := pred (lp_pending s) |>)
  | Some e =>
      let s := s <| lp_pending := pred (lp_pending s) |> <| lp_all := {[e]} ∪ lp_all s |>
                 <| lp_active := {[e]} ∪ lp_active s |> <| lp_created := {[e]} ∪ lp_created s |> in
      if closed s || cancelled then set_client c (Refused e) s
      else set_client c (Holding e) (s <| lp_granted := e :: lp_granted s |>)
  end.

(** The end of [_sandbox] in [_prepare] *)
Definition prepared (t : N) (r : res env) (s : pool) : pool :=
  let s := s <| lp_tasks := delete t (lp_tasks s) |> <| lp_pending := pred (lp_pending s) |> in
  match r with
  | Err error => s <| lp_failure := Some error |>
  | Ok e =>
      let s := s <| lp_created := {[e]} ∪ lp_created s |> in
      if closed s then s <| lp_tasks := <[t := Unwanted e]> (lp_tasks s) |>
      else s <| lp_all := {[e]} ∪ lp_all s |> <| lp_idle := lp_idle s ++ [e] |>
  end.

(** [env.terminate()] was called, whether or not it raised. *)
Definition tried (e : env) (s : pool) : pool := s <| lp_tried := {[e]} ∪ lp_tried s |>.

(** The lock section of [_release] *)
Definition discard (e : env) (s : pool) : pool :=
  refill (s <| lp_active := lp_active s ∖ {[e]} |> <| lp_all := lp_all s ∖ {[e]} |>).

Inductive event :=
  | EStart                                                    (* the end of [start], before it waits *)
  | ECheckout (c : N) (deadline : option Z) (cancelled : bool) (now : Z)
  | EWake (c : N) (cancelled : bool) (now : Z)
  | ECreated (c : N) (r : option env) (cancelled : bool)
  | EReturn (c : N)                                           (* the body ends, [env.terminate()] is called *)
  | EReleased (c : N)
  | EPrepared (t : N) (r : res env)
  | EDiscarded (t : N)
  | EClose
  | EDrained                                                  (* [executor.shutdown] returns *)
  | ECloseNext.                                               (* the next section of the loop of [close] *)

Definition new_env (s : pool) (r : option env) : bool :=
  match r with Some e => bool_decide (e ∉ lp_created s) | None => true end.

(** An event, where a thread stands at it; a sandbox that is created is a new one. *)
Definition step (e : event) (s : pool) : option pool :=
  match e with
  | EStart =>
      if negb (closed s) && negb (lp_started s) then Some (refill (s <| lp_started := true |>)) else None
  | ECheckout c deadline cancelled now =>
      match lp_clients s !! c with
      | None => if lp_started s then
                  Some (turn c deadline cancelled now
                    (set_client c (Waiting deadline) (s <| lp_waiters := lp_waiters s ++ [c] |>)))
                else None
      | Some _ => None
      end
  | EWake c cancelled now =>
      match lp_clients s !! c with Some (Waiting d) => Some (turn c d cancelled now s) | _ => None end
  | ECreated c r cancelled =>
      match lp_clients s !! c with
      | Some (Creating _) => if new_env s r then Some (created c r cancelled s) else None
      | _ => None
      end
  | EReturn c =>
      match lp_clients s !! c with
      | Some (Holding e | Refused e) => Some (set_client c (Leaving e) (tried e s))
      | _ => None
      end
  | EReleased c =>
      match lp_clients s !! c with Some (Leaving e) => Some (set_client c Ended (discard e s)) | _ => None end
  | EPrepared t r =>
      match lp_tasks s !! t with
      | Some (Preparing _) => if new_env s (res_option r) then Some (prepared t r s) else None
      | _ => None
      end
  | EDiscarded t =>
      match lp_tasks s !! t with
      | Some (Unwanted e) => Some (tried e s <| lp_tasks := delete t (lp_tasks s) |>)
      | _ => None
      end
  | EClose => if closed s then None else Some (s <| lp_closing := Draining |>)
  | EDrained =>
      match lp_closing s with
      | Draining => if bool_decide (lp_tasks s = ∅) then Some (s <| lp_closing := Releasing (elements (lp_all s)) |>) else None
      | _ => None
      end
  | ECloseNext =>
      match lp_closing s with
      | Releasing (e :: l) => Some (tried e s <| lp_closing := Dropping e l |>)
      | Dropping e l => Some (discard e s <| lp_closing := Releasing l |>)
      | Releasing [] => Some (s <| lp_closing := Finished |>)
      | _ => None
      end
  end.

Fixpoint run (l : list event) (s : pool) : option pool :=
  match l with
  | [] => Some s
  | e :: l => s ← step e s; run l s
  end.

Definition reaches (s s' : pool) : Prop := ∃ l, run l s = Some s'.

(** * Counting the entries of a map *)

Definition count {A} (f : A → bool) (m : gmap N A) : nat := size (filter (λ kv, f kv.2 = true) m).

Lemma count_new {A} (f : A → bool) (m : gmap N A) i x :
  m !! i = None → count f (<[i:=x]> m) = Nat.b2n (f x) + count f m.
Proof.
  intros Hi. unfold count. destruct (f x) eqn:E.
  - rewrite map_filter_insert_True by done. rewrite map_size_insert_None; [done|].
    apply map_lookup_filter_None. by left.
  - rewrite map_filter_insert_False by (by simpl; rewrite E). by rewrite delete_id.
Qed.

Lemma count_delete {A} (f : A → bool) (m : gmap N A) i x :
  m !! i = Some x → count f m = Nat.b2n (f x) + count f (delete i m).
Proof. intros Hi. rewrite <- (insert_delete_id m i x Hi) at 1. apply count_new, lookup_delete_eq. Qed.

Lemma count_set {A} (f : A → bool) (m : gmap N A) i x y :
  m !! i = Some y → Nat.b2n (f y) + count f (<[i:=x]> m) = Nat.b2n (f x) + count f m.
Proof.
  intros Hi. rewrite (count_delete f m i y Hi). rewrite <- insert_delete_eq, count_new by apply lookup_delete_eq. lia.
Qed.

Lemma count_positive {A} (f : A → bool) (m : gmap N A) : count f m ≠ 0 → ∃ i x, m !! i = Some x ∧ f x = true.
Proof.
  intros Hc. apply map_size_ne_0_lookup in Hc as (i & x & Hi). apply map_lookup_filter_Some in Hi. eauto.
Qed.

(** * The invariant *)

(** The sandbox a client thread has *)
Definition env_of (x : client) : option env :=
  match x with Holding e | Refused e | Leaving e => Some e | _ => None end.
(** ... and has yet to terminate *)
Definition owes (x : client) : option env := match x with Holding e | Refused e => Some e | _ => None end.
Definition unwanted (x : task) : option env := match x with Unwanted e => Some e | _ => None end.
Definition creating (x : client) : bool := match x with Creating _ => true | _ => false end.
Definition preparing (x : task) : bool := match x with Preparing _ => true | _ => false end.

Definition has {A} (f : A → option env) (m : gmap N A) (e : env) : Prop := ∃ i x, m !! i = Some x ∧ f x = Some e.

Definition holding (x : client) : option env := match x with Holding e => Some e | _ => None end.
Definition refused (x : client) : option env := match x with Refused e => Some e | _ => None end.

(** No two clients have the same sandbox. *)
Definition lone (m : gmap N client) : Prop :=
  ∀ i j x y e, m !! i = Some x → m !! j = Some y → env_of x = Some e → env_of y = Some e → i = j.

Lemma has_insert {A} (f : A → option env) m i x e :
  has f (<[i:=x]> m) e ↔ f x = Some e ∨ has f (delete i m) e.
Proof.
  split.
  - intros (j & y & Hj & Hy). apply lookup_insert_Some in Hj as [[<- <-]|[Hne Hj]]; [by left|right].
    exists j, y. by rewrite lookup_delete_ne.
  - intros [Hx|(j & y & Hj & Hy)]; [exists i, x; by rewrite lookup_insert_eq|].
    apply lookup_delete_Some in Hj as [Hne Hj]. exists j, y. by rewrite lookup_insert_ne.
Qed.

Lemma has_at {A} (f : A → option env) m i y :
  m !! i = Some y → ∀ e, has f m e ↔ f y = Some e ∨ has f (delete i m) e.
Proof. intros Hi e. rewrite <- (insert_id m i y Hi) at 1. apply has_insert. Qed.

Lemma has_delete {A} (f : A → option env) m i e : has f (delete i m) e → has f m e.
Proof. intros (j & y & [_ Hj]%lookup_delete_Some & Hy). by exists j, y. Qed.

Lemma has_absent {A} (f : A → option env) m i e : m !! i = None → has f (delete i m) e ↔ has f m e.
Proof. intros Hi. by rewrite delete_id. Qed.

Lemma lone_insert m i x :
  lone (delete i m) → (∀ e, env_of x = Some e → ¬ has env_of (delete i m) e) → lone (<[i:=x]> m).
Proof.
  intros Hl Hn j k y z e [[<- <-]|[Hj Hjy]]%lookup_insert_Some [[<- <-]|[Hk Hkz]]%lookup_insert_Some Hy Hz; [done| | |].
  - destruct (Hn e Hy). exists k, z. by rewrite lookup_delete_ne.
  - destruct (Hn e Hz). exists j, y. by rewrite lookup_delete_ne.
  - apply (Hl j k y z e); by rewrite ?lookup_delete_ne.
Qed.

Lemma lone_delete m i y :
  m !! i = Some y → lone m → lone (delete i m) ∧ ∀ e, env_of y = Some e → ¬ has env_of (delete i m) e.
Proof.
  intros Hi Hl. split.
  - intros j k z w e [_ Hj]%lookup_delete_Some [_ Hk]%lookup_delete_Some. by apply Hl.
  - intros e Hy (j & z & [Hne Hj]%lookup_delete_Some & Hz). by destruct Hne; apply (Hl i j y z e).
Qed.

Lemma has_weaken {A} (f g : A → option env) m e :
  (∀ x, f x = Some e → g x = Some e) → has f m e → has g m e.
Proof. intros Hf (i & x & Hi & Hx). exists i, x. auto. Qed.

Lemma refused_env m e : has refused m e → has env_of m e.
Proof. apply has_weaken. by intros []. Qed.

(** Where the closing thread will find an idle sandbox *)
Definition awaits (s : pool) (e : env) : Prop :=
  match lp_closing s with
  | Open | Draining => e ∈ lp_all s
  | Releasing l | Dropping _ l => e ∈ l
  | Finished => False
  end.

Record inv (s : pool) : Prop := Inv {
  inv_size : 1 ≤ lp_size s;
  inv_bound : size (lp_all s) + lp_pending s ≤ lp_size s;
  inv_pending : lp_pending s = count creating (lp_clients s) + count preparing (lp_tasks s);
  inv_idle : NoDup (lp_idle s);
  inv_granted : NoDup (lp_granted s);
  inv_lone : lone (lp_clients s);
  inv_fresh : ∀ e, e ∈ lp_granted s → e ∉ lp_idle s;
  inv_known : ∀ e, e ∈ lp_all s ∨ e ∈ lp_idle s ∨ e ∈ lp_granted s ∨ has env_of (lp_clients s) e → e ∈ lp_created s;
  inv_unwanted : ∀ e, has unwanted (lp_tasks s) e → e ∈ lp_created s ∧ e ∉ lp_all s;
  inv_out : ∀ e, has env_of (lp_clients s) e → e ∉ lp_idle s;
  inv_refused : ∀ e, has refused (lp_clients s) e → e ∉ lp_granted s;
  inv_holding : ∀ e, has holding (lp_clients s) e → e ∈ lp_granted s;
  inv_open : closed s = false → ∀ e, e ∈ lp_all s ↔ e ∈ lp_idle s ∨ has env_of (lp_clients s) e;
  inv_drained : match lp_closing s with Open | Draining => True | _ => lp_tasks s = ∅ end;
  inv_tasks : ∀ t, is_Some (lp_tasks s !! t) → (t < N.of_nat (lp_cursor s))%N;
  inv_owed : ∀ e, e ∈ lp_created s → e ∈ lp_tried s ∨ has owes (lp_clients s) e ∨ has unwanted (lp_tasks s) e ∨
               (e ∈ lp_idle s ∧ awaits s e);
  inv_waiters : ∀ c, c ∈ lp_waiters s → ∃ d, lp_clients s !! c = Some (Waiting d) }.

(** ** [_refill] *)

Lemma submit_inv s : inv s → refill_more s = true → inv (submit s).
Proof.
  intros Hs Hr. unfold refill_more in Hr. rewrite !andb_true_iff, negb_true_iff in Hr. destruct Hr as [[Hc _] Hb].
  apply Nat.ltb_lt in Hb. assert (Hn : lp_tasks s !! N.of_nat (lp_cursor s) = None).
  { destruct (lp_tasks s !! _) eqn:E; [|done]. pose proof (inv_tasks s Hs _ (ex_intro _ _ E)). lia. }
  assert (Hw : ∀ e, has unwanted (lp_tasks (submit s)) e ↔ has unwanted (lp_tasks s) e).
  { intros e. split; intros (t & x & Ht & Hx).
    - simpl in Ht. apply lookup_insert_Some in Ht as [[_ <-]|[_ Ht]]; [done|by exists t, x].
    - exists t, x. split; [|done]. simpl. rewrite lookup_insert_ne; [done|]. intros <-. congruence. }
  destruct Hs. split; try assumption.
  - simpl. lia.
  - simpl. rewrite count_new by done. simpl. lia.
  - intros e He. by apply inv_unwanted0, Hw.
  - unfold closed in Hc. simpl. by destruct (lp_closing s).
  - simpl. intros t [x Ht]. apply lookup_insert_Some in Ht as [[<- _]|[_ Ht]]; [lia|].
    specialize (inv_tasks0 t (ex_intro _ _ Ht)). lia.
  - intros e He. rewrite Hw. exact (inv_owed0 e He).
Qed.

Lemma refill_inv s : inv s → inv (refill s).
Proof.
  unfold refill. generalize (lp_warm s). intros fuel. revert s. induction fuel as [|fuel IH]; intros s Hs; simpl; [done|].
  destruct (refill_more s) eqn:E; [|done]. by apply IH, submit_inv.
Qed.

(** ** Moves of a client *)

(** What is known of a map is split at the client that moves. *)
Ltac split_at H :=
  match type of H with
  | ?m !! ?c = Some ?y =>
      repeat match goal with
      | I : context [has ?f m _] |- _ => setoid_rewrite (has_at f m c y H) in I
      end
  end.

Ltac moves H :=
  match goal with Hs : inv _ |- _ => destruct Hs end;
  match goal with
  | L : lone _ |- _ =>
      let L1 := fresh "Hlone" in let L2 := fresh "Hhere" in destruct (lone_delete _ _ _ H L) as [L1 L2]
  end;
  split_at H; simpl in *.

(** The cases of a move: what it adds is stated first. *)
Ltac cases :=
  unfold awaits, closed in *; simpl in *;
  repeat match goal with
  | |- context [has ?f (<[_:=_]> _) _] => setoid_rewrite has_insert
  end; simpl in *.
Tactic Notation "from" hyp(I) := clear - I; cases; set_solver.
Tactic Notation "from" hyp(I) hyp(J) := clear - I J; cases; set_solver.

Lemma counted s c y x :
  lp_clients s !! c = Some y →
  Nat.b2n (creating y) + count creating (<[c:=x]> (lp_clients s)) = Nat.b2n (creating x) + count creating (lp_clients s).
Proof. intros Hc. by apply count_set. Qed.

Lemma waiters_other s c x y :
  (∀ c, c ∈ lp_waiters s → ∃ d, lp_clients s !! c = Some (Waiting d)) →
  lp_clients s !! c = Some y → (∀ d, y ≠ Waiting d) →
  ∀ c', c' ∈ lp_waiters s → ∃ d, <[c:=x]> (lp_clients s) !! c' = Some (Waiting d).
Proof.
  intros Hw Hc Hy c' Hc'. destruct (Hw c' Hc') as [d Hd]. exists d. rewrite lookup_insert_ne; [done|]. intros <-.
  rewrite Hc in Hd. injection Hd as ->. by apply (Hy d).
Qed.

Lemma return_inv s c y e :
  inv s → lp_clients s !! c = Some y → owes y = Some e → inv (set_client c (Leaving e) (tried e s)).
Proof.
  intros Hs Hc Hy. pose proof (counted s c y (Leaving e) Hc) as Hn.
  destruct y; try done; injection Hy as <-; moves Hc; split; try assumption.
  - simpl. lia.
  - simpl. by apply lone_insert.
  - from inv_known0.
  - from inv_out0.
  - from inv_refused0.
  - from inv_holding0.
  - from inv_open0.
  - from inv_owed0.
  - by apply (waiters_other s c _ _ inv_waiters0 Hc).
  - simpl. lia.
  - simpl. by apply lone_insert.
  - from inv_known0.
  - from inv_out0.
  - from inv_refused0.
  - from inv_holding0.
  - from inv_open0.
  - from inv_owed0.
  - by apply (waiters_other s c _ _ inv_waiters0 Hc).
Qed.

(** A client that has no sandbox moves to a point where it has none, and stops waiting. *)
Lemma idle_move_inv s c y x waiters pending cursor s' :
  inv s → lp_clients s !! c = Some y → env_of y = None → env_of x = None →
  size (lp_all s) + pending ≤ lp_size s → lp_cursor s ≤ cursor →
  lp_pending s + Nat.b2n (creating x) = pending + Nat.b2n (creating y) →
  (∀ c', c' ∈ waiters → c' ∈ lp_waiters s ∧ c' ≠ c) →
  s' = set_client c x (s <| lp_waiters := waiters |> <| lp_pending := pending |> <| lp_cursor := cursor |>) → inv s'.
Proof.
  intros Hs Hc Hy Hx Hb Hcur Hp Hw ->. pose proof (counted s c y x Hc) as Hn.
  assert (Ho : owes y = None ∧ refused y = None ∧ holding y = None) by (by destruct y).
  assert (Ho' : owes x = None ∧ refused x = None ∧ holding x = None) by (by destruct x).
  destruct Ho as (Ho1 & Ho2 & Ho3), Ho' as (Ho1' & Ho2' & Ho3').
  moves Hc. rewrite ?Hy, ?Ho1, ?Ho2, ?Ho3 in *. split; try assumption.
  - simpl. lia.
  - simpl. apply lone_insert; [done|]. intros e. by rewrite Hx.
  - clear - inv_known0 Hx. cases. rewrite Hx. set_solver.
  - clear - inv_out0 Hx. cases. rewrite Hx. set_solver.
  - clear - inv_refused0 Ho2'. cases. rewrite Ho2'. set_solver.
  - clear - inv_holding0 Ho3'. cases. rewrite Ho3'. set_solver.
  - clear - inv_open0 Hx. cases. rewrite Hx. set_solver.
  - simpl. intros t Ht. specialize (inv_tasks0 t Ht). lia.
  - clear - inv_owed0 Ho1'. cases. rewrite Ho1'. set_solver.
  - simpl. intros c' Hc'. destruct (Hw c' Hc') as [Hc2 Hne]. destruct (inv_waiters0 c' Hc2) as [d Hd].
    exists d. by rewrite lookup_insert_ne.
Qed.

Lemma others s c : ∀ c', c' ∈ filter (λ x, x ≠ c) (lp_waiters s) → c' ∈ lp_waiters s ∧ c' ≠ c.
Proof. by intros c' [? ?]%list_elem_of_filter. Qed.

Lemma not_waiting s c y : inv s → lp_clients s !! c = Some y → (∀ d, y ≠ Waiting d) → ∀ c', c' ∈ lp_waiters s → c' ∈ lp_waiters s ∧ c' ≠ c.
Proof.
  intros Hs Hc Hy c' Hc'. split; [done|]. intros ->. destruct (inv_waiters s Hs c Hc') as [d Hd].
  rewrite Hc in Hd. injection Hd as ->. by apply (Hy d).
Qed.

Lemma quit_inv s c d : inv s → lp_clients s !! c = Some (Waiting d) → inv (leave c (set_client c Ended s)).
Proof.
  intros Hs Hc. apply (idle_move_inv s c _ Ended _ (lp_pending s) (lp_cursor s) _ Hs Hc eq_refl eq_refl
    (inv_bound s Hs) (le_n _) eq_refl (others s c)). by destruct s.
Qed.

Lemma pool_begin_inv s c d t :
  inv s → lp_clients s !! c = Some (Waiting d) → size (lp_all s) + lp_pending s < lp_size s →
  inv (leave c (set_client c (Creating t) (s <| lp_pending := S (lp_pending s) |> <| lp_cursor := S (lp_cursor s) |>))).
Proof.
  intros Hs Hc Hb. apply (idle_move_inv s c _ (Creating t) _ (S (lp_pending s)) (S (lp_cursor s)) _ Hs Hc eq_refl eq_refl
    ltac:(lia) ltac:(lia) ltac:(simpl; lia) (others s c)). done.
Qed.

Lemma creating_pending s c t : inv s → lp_clients s !! c = Some (Creating t) → lp_pending s ≠ 0.
Proof. intros Hs Hc. rewrite (inv_pending s Hs), (count_delete creating _ c _ Hc). simpl. lia. Qed.

Lemma failed_inv s c t :
  inv s → lp_clients s !! c = Some (Creating t) → inv (set_client c Ended (s <| lp_pending := pred (lp_pending s) |>)).
Proof.
  intros Hs Hc. pose proof (creating_pending s c t Hs Hc) as Hp. pose proof (inv_bound s Hs) as Hb.
  apply (idle_move_inv s c _ Ended _ (pred (lp_pending s)) (lp_cursor s) _ Hs Hc eq_refl eq_refl
    ltac:(lia) (le_n _) ltac:(simpl; lia) (not_waiting s c _ Hs Hc ltac:(done))). by destruct s.
Qed.

(** ** Sandboxes that change hands *)

(** An idle sandbox is leased. *)
Lemma grant_inv s c d e idle :
  inv s → lp_clients s !! c = Some (Waiting d) → lp_idle s = e :: idle → closed s = false →
  inv (leave c (set_client c (Holding e) (s <| lp_idle := idle |> <| lp_active := {[e]} ∪ lp_active s |>
         <| lp_granted := e :: lp_granted s |>))).
Proof.
  intros Hs Hc Hi Ho. pose proof (counted s c _ (Holding e) Hc) as Hn.
  assert (Hidle : ∀ x, x ∈ lp_idle s ↔ x = e ∨ x ∈ idle) by (rewrite Hi; set_solver).
  assert (He : e ∉ idle) by (pose proof (inv_idle s Hs) as Hnd; rewrite Hi in Hnd; by apply NoDup_cons in Hnd as [? _]).
  moves Hc. setoid_rewrite Hidle in inv_fresh0. setoid_rewrite Hidle in inv_known0.
  setoid_rewrite Hidle in inv_out0. setoid_rewrite Hidle in inv_open0. setoid_rewrite Hidle in inv_owed0.
  split; try assumption.
  - simpl. lia.
  - rewrite Hi in inv_idle0. by apply NoDup_cons in inv_idle0 as [_ ?].
  - simpl. apply NoDup_cons. split; [|done]. clear - inv_fresh0. set_solver.
  - simpl. apply lone_insert; [done|]. clear - inv_out0. intros e' [= <-]. set_solver.
  - clear - inv_fresh0 He. cases. set_solver.
  - clear - inv_known0. cases. set_solver.
  - clear - inv_out0 He. cases. set_solver.
  - clear - inv_refused0 inv_out0. cases. intros e' [?|Hr]; [done|]. pose proof (refused_env _ _ Hr). set_solver.
  - clear - inv_holding0. cases. set_solver.
  - clear - inv_open0. cases. set_solver.
  - clear - inv_owed0. cases. set_solver.
  - simpl. intros c' [Hne Hc']%list_elem_of_filter. destruct (inv_waiters0 c' Hc') as [d' Hd'].
    exists d'. by rewrite lookup_insert_ne.
Qed.

Lemma size_add (X : gset env) e : e ∉ X → size ({[e]} ∪ X) = S (size X).
Proof. intros He. rewrite size_union by set_solver. by rewrite size_singleton. Qed.

(** A sandbox is created for a client, to lease it or to release it. *)
Lemma created_inv s c t e x granted :
  inv s → lp_clients s !! c = Some (Creating t) → e ∉ lp_created s →
  (x = Holding e ∧ granted = e :: lp_granted s) ∨ (x = Refused e ∧ granted = lp_granted s) →
  inv (set_client c x (s <| lp_pending := pred (lp_pending s) |> <| lp_all := {[e]} ∪ lp_all s |>
         <| lp_active := {[e]} ∪ lp_active s |> <| lp_created := {[e]} ∪ lp_created s |> <| lp_granted := granted |>)).
Proof.
  intros Hs Hc Hnew Hx. pose proof (creating_pending s c t Hs Hc) as Hp. pose proof (counted s c _ x Hc) as Hn.
  pose proof (waiters_other s c x _ (inv_waiters s Hs) Hc ltac:(done)) as Hw.
  assert (Hnot : e ∉ lp_all s ∧ e ∉ lp_idle s ∧ e ∉ lp_granted s ∧ ¬ has env_of (lp_clients s) e)
    by (pose proof (inv_known s Hs e); naive_solver).
  destruct Hnot as (Ha & Hi & Hg & Hc').
  assert (Hh : ∀ e', has env_of (delete c (lp_clients s)) e' → e' ≠ e) by (intros e' H ->; by apply Hc'; apply has_delete in H).
  assert (Hu : ∀ e', has unwanted (lp_tasks s) e' → e' ≠ e) by (intros e' H ->; by apply (inv_unwanted s Hs) in H as [? _]).
  moves Hc. destruct Hx as [[-> ->]|[-> ->]]; split; try assumption; simpl in Hn.
  - simpl. rewrite size_add by done. lia.
  - simpl. lia.
  - by apply NoDup_cons.
  - simpl. apply lone_insert; [done|]. intros e' [= <-] H. by apply (Hh e).
  - clear - inv_fresh0 Hi. cases. set_solver.
  - from inv_known0.
  - clear - inv_unwanted0 Hu. cases. set_solver.
  - clear - inv_out0 Hi. cases. set_solver.
  - clear - inv_refused0 Hh. cases. intros e' [?|H]; [done|]. pose proof (Hh e' (refused_env _ _ H)). set_solver.
  - from inv_holding0.
  - from inv_open0.
  - clear - inv_owed0. cases. intros e' [->%elem_of_singleton|He]%elem_of_union; [by auto|].
    destruct (inv_owed0 e' He) as [?|[[?|?]|[?|[? Hx]]]]; [by auto|done|by auto|by auto|].
    right. right. right. split; [done|].
    destruct (lp_closing s); set_solver.
  - simpl. rewrite size_add by done. lia.
  - simpl. lia.
  - simpl. apply lone_insert; [done|]. intros e' [= <-] H. by apply (Hh e).
  - from inv_known0.
  - clear - inv_unwanted0 Hu. cases. set_solver.
  - clear - inv_out0 Hi. cases. set_solver.
  - clear - inv_refused0 Hg. cases. set_solver.
  - from inv_holding0.
  - from inv_open0.
  - clear - inv_owed0. cases. intros e' [->%elem_of_singleton|He]%elem_of_union; [by auto|].
    destruct (inv_owed0 e' He) as [?|[[?|?]|[?|[? Hx]]]]; [by auto|done|by auto|by auto|].
    right. right. right. split; [done|].
    destruct (lp_closing s); set_solver.
Qed.

Lemma size_remove (X : gset env) e : size (X ∖ {[e]}) ≤ size X.
Proof. apply subseteq_size. set_solver. Qed.

(** The lock section of a release, but for its [_refill] *)
Lemma released_inv s c e :
  inv s → lp_clients s !! c = Some (Leaving e) →
  inv (set_client c Ended (s <| lp_active := lp_active s ∖ {[e]} |> <| lp_all := lp_all s ∖ {[e]} |>)).
Proof.
  intros Hs Hc. pose proof (counted s c _ Ended Hc) as Hn.
  pose proof (waiters_other s c Ended _ (inv_waiters s Hs) Hc ltac:(done)) as Hw. pose proof (size_remove (lp_all s) e) as Hsz.
  moves Hc. split; try assumption; simpl in Hn.
  - simpl. lia.
  - simpl. lia.
  - simpl. by apply lone_insert.
  - from inv_known0.
  - from inv_unwanted0.
  - from inv_out0.
  - from inv_refused0.
  - from inv_holding0.
  - clear - inv_open0 inv_out0 Hhere. cases. intros Ho e'. specialize (inv_open0 Ho e'). specialize (Hhere e').
    destruct (decide (e' = e)) as [->|]; [|set_solver]. pose proof (inv_out0 e (or_introl eq_refl)). naive_solver set_solver.
  - clear - inv_owed0 inv_out0. cases. intros e' He. destruct (inv_owed0 e' He) as [?|[[?|?]|[?|[Hi Hx]]]]; [by auto|done|by auto|by auto|].
    right. right. right. split; [done|]. assert (e' ≠ e) by (intros ->; by apply (inv_out0 e); [left|]).
    destruct (lp_closing s); set_solver.
Qed.

(** ** Tasks and the closing thread *)

Lemma task_pending s t n : inv s → lp_tasks s !! t = Some (Preparing n) → lp_pending s ≠ 0.
Proof. intros Hs Ht. rewrite (inv_pending s Hs), (count_delete preparing _ t _ Ht). simpl. lia. Qed.

Lemma open_while_preparing s t x : inv s → lp_tasks s !! t = Some x → lp_closing s = Open ∨ lp_closing s = Draining.
Proof.
  intros Hs Ht. pose proof (inv_drained s Hs) as Hd. destruct (lp_closing s); auto; by rewrite Hd in Ht.
Qed.

(** A task ends without a sandbox. *)
Lemma prepared_none_inv s t n failure :
  inv s → lp_tasks s !! t = Some (Preparing n) →
  inv (s <| lp_tasks := delete t (lp_tasks s) |> <| lp_pending := pred (lp_pending s) |> <| lp_failure := failure |>).
Proof.
  intros Hs Ht. pose proof (task_pending s t n Hs Ht) as Hp. pose proof (count_delete preparing _ t _ Ht) as Hn.
  pose proof (open_while_preparing s t _ Hs Ht) as Hcl.
  destruct Hs. split_at Ht. simpl in *. split; try assumption.
  - simpl. lia.
  - simpl. lia.
  - from inv_unwanted0.
  - simpl. by destruct Hcl as [-> | ->].
  - simpl. intros t' [x [_ Hx]%lookup_delete_Some]. by apply inv_tasks0; exists x.
  - from inv_owed0.
Qed.

(** The new sandbox of a task becomes idle. *)
Lemma prepared_idle_inv s t n e :
  inv s → lp_tasks s !! t = Some (Preparing n) → e ∉ lp_created s → closed s = false →
  inv (s <| lp_tasks := delete t (lp_tasks s) |> <| lp_pending := pred (lp_pending s) |>
         <| lp_created := {[e]} ∪ lp_created s |> <| lp_all := {[e]} ∪ lp_all s |> <| lp_idle := lp_idle s ++ [e] |>).
Proof.
  intros Hs Ht Hnew Ho. pose proof (task_pending s t n Hs Ht) as Hp. pose proof (count_delete preparing _ t _ Ht) as Hn.
  assert (Hnot : e ∉ lp_all s ∧ e ∉ lp_idle s ∧ e ∉ lp_granted s ∧ ¬ has env_of (lp_clients s) e)
    by (pose proof (inv_known s Hs e); naive_solver).
  destruct Hnot as (Ha & Hi & Hg & Hc).
  assert (Hu : ∀ e', has unwanted (lp_tasks s) e' → e' ≠ e) by (intros e' H ->; by apply (inv_unwanted s Hs) in H as [? _]).
  assert (Hidle : ∀ x, x ∈ lp_idle s ++ [e] ↔ x ∈ lp_idle s ∨ x = e) by (intros x; rewrite elem_of_app; set_solver).
  assert (Hopen : lp_closing s = Open) by (unfold closed in Ho; by destruct (lp_closing s)).
  assert (Hh : ∀ e', has env_of (lp_clients s) e' → e' ≠ e) by (intros e' H ->; by apply Hc).
  destruct Hs. split_at Ht. simpl in *. split; try assumption.
  - simpl. rewrite size_add by done. lia.
  - simpl. lia.
  - simpl. apply NoDup_app. split; [done|]. split; [set_solver|apply NoDup_singleton].
  - clear - inv_fresh0 Hidle Hg. simpl. setoid_rewrite Hidle. set_solver.
  - clear - inv_known0 Hidle. simpl. setoid_rewrite Hidle. set_solver.
  - clear - inv_unwanted0 Hu. cases. set_solver.
  - clear - inv_out0 Hidle Hh. simpl. setoid_rewrite Hidle. set_solver.
  - clear - inv_open0 Hidle Ho. intros _. simpl. setoid_rewrite Hidle. specialize (inv_open0 Ho). set_solver.
  - simpl. by rewrite Hopen.
  - simpl. intros t' [x [_ Hx]%lookup_delete_Some]. by apply inv_tasks0; exists x.
  - clear - inv_owed0 Hidle Hopen. unfold awaits in *. simpl. rewrite Hopen in *. setoid_rewrite Hidle. set_solver.
Qed.

(** The new sandbox of a task is not wanted any more. *)
Lemma prepared_late_inv s t n e :
  inv s → lp_tasks s !! t = Some (Preparing n) → e ∉ lp_created s →
  inv (s <| lp_tasks := <[t := Unwanted e]> (delete t (lp_tasks s)) |> <| lp_pending := pred (lp_pending s) |>
         <| lp_created := {[e]} ∪ lp_created s |>).
Proof.
  intros Hs Ht Hnew. pose proof (task_pending s t n Hs Ht) as Hp.
  pose proof (count_set preparing _ t (Unwanted e) _ Ht) as Hn. rewrite <- insert_delete_eq in Hn.
  assert (Ha : e ∉ lp_all s) by (pose proof (inv_known s Hs e); naive_solver).
  assert (Hu : ∀ e', has unwanted (lp_tasks s) e' → e' ≠ e) by (intros e' H ->; by apply (inv_unwanted s Hs) in H as [? _]).
  pose proof (open_while_preparing s t _ Hs Ht) as Hcl.
  destruct Hs. split_at Ht. simpl in *. rewrite insert_delete_eq in *. split; try assumption.
  - simpl. lia.
  - simpl. lia.
  - from inv_known0.
  - clear - inv_unwanted0 Ha. cases. set_solver.
  - simpl. by destruct Hcl as [-> | ->].
  - simpl. intros t' [x Hx]. apply lookup_insert_Some in Hx as [[<- _]|[_ Hx]]; apply inv_tasks0; by eexists.
  - from inv_owed0.
Qed.

Lemma discarded_inv s t e :
  inv s → lp_tasks s !! t = Some (Unwanted e) → inv (tried e s <| lp_tasks := delete t (lp_tasks s) |>).
Proof.
  intros Hs Ht. pose proof (count_delete preparing _ t _ Ht) as Hn. pose proof (open_while_preparing s t _ Hs Ht) as Hcl.
  destruct Hs. split_at Ht. simpl in *. split; try assumption.
  - simpl. lia.
  - from inv_unwanted0.
  - simpl. by destruct Hcl as [-> | ->].
  - simpl. intros t' [x [_ Hx]%lookup_delete_Some]. by apply inv_tasks0; exists x.
  - from inv_owed0.
Qed.

(** The closing thread moves on. *)
Lemma closing_inv s x (all : gset env) (done : gset env) :
  inv s → x ≠ Open → all ⊆ lp_all s → lp_tried s ⊆ done →
  (match x with Open | Draining => True | _ => lp_tasks s = ∅ end) →
  (∀ e, awaits s e → e ∈ done ∨ match x with Open | Draining => e ∈ all | Releasing l | Dropping _ l => e ∈ l | Finished => False end) →
  inv (s <| lp_closing := x |> <| lp_all := all |> <| lp_tried := done |>).
Proof.
  intros Hs Hx Hall Hdone Ht Ha. pose proof (subseteq_size _ _ Hall) as Hsz. destruct Hs. split; try assumption.
  - simpl. lia.
  - clear - inv_known0 Hall. simpl. set_solver.
  - clear - inv_unwanted0 Hall. simpl. set_solver.
  - unfold closed. simpl. by destruct x.
  - clear - inv_owed0 Ha Hdone. simpl. intros e He. destruct (inv_owed0 e He) as [?|[?|[?|[Hi Hw]]]]; [by left; apply Hdone|by auto|by auto|].
    destruct (Ha e Hw) as [?|?]; [by left|]. right. right. right. by split.
Qed.

(** ** Every event *)

Lemma refill_client n c x s : refill_loop n (set_client c x s) = set_client c x (refill_loop n s).
Proof.
  revert s. induction n as [|n IH]; intros s; simpl; [done|].
  change (refill_more (set_client c x s)) with (refill_more s). destruct (refill_more s); [|done]. by rewrite <- IH.
Qed.

Lemma refill_leave n c s : refill_loop n (leave c s) = leave c (refill_loop n s).
Proof.
  revert s. induction n as [|n IH]; intros s; simpl; [done|].
  change (refill_more (leave c s)) with (refill_more s). destruct (refill_more s); [|done]. by rewrite <- IH.
Qed.

Lemma turn_inv c d cancelled now s :
  inv s → lp_clients s !! c = Some (Waiting d) → inv (turn c d cancelled now s).
Proof.
  intros Hs Hc. pose proof (quit_inv s c d Hs Hc) as Hq. unfold turn. destruct cancelled; [done|].
  destruct (closed s) eqn:Ho; [done|]. destruct (bool_decide (is_Some (lp_failure s))); [done|].
  assert (Hwait : inv (if match d with Some d => (d <=? now)%Z | None => false end then leave c (set_client c Ended s) else s))
    by (destruct d as [d|]; [destruct (d <=? now)%Z|]; done).
  assert (Hbegin : inv (if bool_decide (head (lp_waiters s) = Some c) && (size (lp_all s) + lp_pending s <? lp_size s)
    then leave c (set_client c (Creating (next_target s))
           (s <| lp_pending := S (lp_pending s) |> <| lp_cursor := S (lp_cursor s) |>))
    else if match d with Some d => (d <=? now)%Z | None => false end then leave c (set_client c Ended s) else s)).
  { destruct (_ && _) eqn:E; [|done]. apply andb_true_iff in E as [_ E]. apply Nat.ltb_lt in E. by eapply pool_begin_inv. }
  destruct (bool_decide (head (lp_waiters s) = Some c)); [|done].
  destruct (lp_idle s) as [|e idle] eqn:Hi; [done|].
  pose proof (refill_inv _ (grant_inv s c d e idle Hs Hc Hi Ho)) as Hg. unfold refill in Hg.
  by rewrite refill_leave, refill_client in Hg.
Qed.

Lemma checkout_inv c d s :
  inv s → lp_clients s !! c = None → inv (set_client c (Waiting d) (s <| lp_waiters := lp_waiters s ++ [c] |>)).
Proof.
  intros Hs Hc. assert (Hd : delete c (lp_clients s) = lp_clients s) by (by apply delete_id).
  destruct Hs. split; try assumption.
  - simpl. rewrite count_new by done. simpl. lia.
  - simpl. apply lone_insert; [by rewrite Hd|done].
  - clear - inv_known0 Hd. cases. rewrite Hd. set_solver.
  - clear - inv_out0 Hd. cases. rewrite Hd. set_solver.
  - clear - inv_refused0 Hd. cases. rewrite Hd. set_solver.
  - clear - inv_holding0 Hd. cases. rewrite Hd. set_solver.
  - clear - inv_open0 Hd. cases. rewrite Hd. set_solver.
  - clear - inv_owed0 Hd. cases. rewrite Hd. set_solver.
  - simpl. intros c' [Hw | ->%list_elem_of_singleton]%elem_of_app; [|exists d; apply lookup_insert_eq].
    destruct (inv_waiters0 c' Hw) as [d' Hd']. exists d'. rewrite lookup_insert_ne; [done|congruence].
Qed.

Lemma active_inv s active : inv s → inv (s <| lp_active := active |>).
Proof. intros []. by split. Qed.

Lemma refill_closed s : closed s = true → refill s = s.
Proof. intros Hc. unfold refill. destruct (lp_warm s); [done|]. simpl. unfold refill_more. by rewrite Hc. Qed.

Lemma start_inv s : inv s → inv (s <| lp_started := true |>).
Proof. intros []. by split. Qed.

Lemma pool_step_inv e s s' : inv s → step e s = Some s' → inv s'.
Proof.
  intros Hs He. destruct e; simpl in He.
  - destruct (_ && _); [|done]. injection He as <-. by apply refill_inv, start_inv.
  - destruct (lp_clients s !! c) eqn:Hc; [done|]. destruct (lp_started s) eqn:Est; [|done]. injection He as <-.
    eapply turn_inv; [|apply lookup_insert_eq]. pose proof (checkout_inv c deadline s Hs Hc) as H. destruct s. simpl in *. by subst.
  - destruct (lp_clients s !! c) as [[]|] eqn:Hc; try done. injection He as <-. by apply turn_inv.
  - destruct (lp_clients s !! c) as [[]|] eqn:Hc; try done. destruct (new_env s r) eqn:Hn; [|done]. injection He as <-.
    destruct r as [e|]; simpl in *; [|by eapply failed_inv]. apply bool_decide_eq_true in Hn.
    pose proof (created_inv s c target e (Refused e) _ Hs Hc Hn (or_intror (conj eq_refl eq_refl))) as Hr.
    pose proof (created_inv s c target e (Holding e) _ Hs Hc Hn (or_introl (conj eq_refl eq_refl))) as Hh.
    unfold created. destruct (_ || _); [destruct s; exact Hr|exact Hh].
  - destruct (lp_clients s !! c) as [[]|] eqn:Hc; try done; injection He as <-; by eapply return_inv.
  - destruct (lp_clients s !! c) as [[]|] eqn:Hc; try done. injection He as <-.
    pose proof (refill_inv _ (released_inv s c e Hs Hc)) as Hg. unfold refill in Hg. by rewrite refill_client in Hg.
  - destruct (lp_tasks s !! t) as [[]|] eqn:Ht; try done. destruct (new_env s (res_option r)) eqn:Hn; [|done].
    injection He as <-. destruct r as [e|e]; simpl in *; [|by eapply prepared_none_inv]. apply bool_decide_eq_true in Hn.
    pose proof (prepared_late_inv s t target e Hs Ht Hn) as Hlate.
    pose proof (prepared_idle_inv s t target e Hs Ht Hn) as Hidle.
    change (inv (if closed s then s <| lp_tasks := <[t := Unwanted e]> (delete t (lp_tasks s)) |>
        <| lp_pending := pred (lp_pending s) |> <| lp_created := {[e]} ∪ lp_created s |>
      else s <| lp_tasks := delete t (lp_tasks s) |> <| lp_pending := pred (lp_pending s) |>
        <| lp_created := {[e]} ∪ lp_created s |> <| lp_all := {[e]} ∪ lp_all s |> <| lp_idle := lp_idle s ++ [e] |>)).
    destruct (closed s); [exact Hlate|by apply Hidle].
  - destruct (lp_tasks s !! t) as [[]|] eqn:Ht; try done. injection He as <-. by apply discarded_inv.
  - destruct (closed s) eqn:Ho; [done|]. injection He as <-. destruct s, lp_closing0; try done.
    by apply (closing_inv _ Draining _ _ Hs); auto.
  - destruct (lp_closing s) eqn:Hcl; try done. destruct (bool_decide _) eqn:Ht; [|done]. apply bool_decide_eq_true in Ht.
    injection He as <-. assert (Ha : ∀ e, awaits s e → e ∈ elements (lp_all s))
      by (intros e He; unfold awaits in He; rewrite Hcl in He; by apply elem_of_elements).
    destruct s. by apply (closing_inv _ (Releasing _) _ _ Hs); auto.
  - pose proof (inv_drained s Hs) as Ht.
    destruct (lp_closing s) as [| |[|e l]|e l|] eqn:Hcl; try done; injection He as <-.
    + assert (Ha : ∀ e, ¬ awaits s e) by (unfold awaits; rewrite Hcl; set_solver).
      destruct s. apply (closing_inv _ Finished _ _ Hs); auto. by intros e' H%Ha.
    + assert (Ha : ∀ e', awaits s e' → e' = e ∨ e' ∈ l) by (unfold awaits; rewrite Hcl; set_solver).
      destruct s. apply (closing_inv _ (Dropping e l) _ ({[e]} ∪ lp_tried0) Hs); auto; [set_solver|].
      intros e' [-> |]%Ha; set_solver.
    + assert (Ha : ∀ e', awaits s e' → e' ∈ l) by (unfold awaits; rewrite Hcl; set_solver).
      unfold discard. rewrite refill_closed by (unfold closed; simpl; rewrite ?Hcl; done).
      assert (Hn : inv (s <| lp_closing := Releasing l |> <| lp_all := lp_all s ∖ {[e]} |> <| lp_tried := lp_tried s |>))
        by (apply closing_inv; auto; set_solver).
      apply (active_inv _ (lp_active s ∖ {[e]})) in Hn. destruct s. simpl in *. by subst.
Qed.

Lemma make_inv n warm targets s : make_pool n warm targets = Ok s → inv s.
Proof.
  unfold make_pool, raise_if. destruct ((n <? 1) || _) eqn:E; [done|]. destruct (targets =? 0); [done|].
  intros [= <-]. apply orb_false_iff in E as [E _]. apply Nat.ltb_ge in E.
  assert (Hn : ∀ A (f : A → option env) e, ¬ has f (∅ : gmap N A) e) by (intros A f e (i & x & Hi & _); by rewrite lookup_empty in Hi).
  split; simpl; try done; try (constructor; fail); try set_solver.
  - change (size (∅ : gset env) + 0 ≤ n). rewrite size_empty. lia.
  - intros t [x Hx]. by rewrite lookup_empty in Hx.
Qed.

Lemma pool_run_inv l s s' : inv s → run l s = Some s' → inv s'.
Proof.
  revert s. induction l as [|e l IH]; intros s Hs Hl; simpl in Hl; [by injection Hl as <-|].
  destruct (step e s) as [s1|] eqn:E; [|done]. eapply IH; [|exact Hl]. by eapply pool_step_inv.
Qed.

(** Reachable from a new pool *)
Definition reachable (s : pool) : Prop := ∃ n warm targets s0, make_pool n warm targets = Ok s0 ∧ reaches s0 s.

Lemma pool_reachable_inv s : reachable s → inv s.
Proof. intros (n & warm & targets & s0 & H0 & l & Hl). eapply pool_run_inv; [by eapply make_inv|exact Hl]. Qed.

(** * What holds of every pool *)

(** The sandboxes that are being created *)
Definition under_way (s : pool) : nat := count creating (lp_clients s) + count preparing (lp_tasks s).

(** In every interleaving of checkouts, releases, preparations and closing, the
    sandboxes of the pool and those being created never exceed its size, and
    [pending] counts exactly those being created. *)
Theorem pool_bounded s :
  reachable s → size (lp_all s) + under_way s ≤ lp_size s ∧ lp_pending s = under_way s.
Proof.
  intros Hs%pool_reachable_inv. unfold under_way. pose proof (inv_pending s Hs). pose proof (inv_bound s Hs). lia.
Qed.

(** A used sandbox is never used again: each is handed to at most one client, no
    two clients have the same one, and an idle one was never handed out. *)
Theorem local_leases_exclusive s :
  reachable s →
  NoDup (lp_granted s) ∧ lone (lp_clients s) ∧ (∀ e, has holding (lp_clients s) e → e ∈ lp_granted s) ∧
  ∀ e, e ∈ lp_idle s → e ∉ lp_granted s ∧ ¬ has env_of (lp_clients s) e.
Proof.
  intros Hs%pool_reachable_inv. split; [apply Hs|]. split; [apply Hs|]. split; [apply Hs|]. intros e He. split.
  - intros Hg. by apply (inv_fresh s Hs e).
  - intros Hc. by apply (inv_out s Hs e).
Qed.


(** A thread or a task is about to free or to provide a sandbox. *)
Definition busy (s : pool) : Prop :=
  (∃ e, has env_of (lp_clients s) e) ∨ (∃ c t, lp_clients s !! c = Some (Creating t)) ∨
  (∃ t n, lp_tasks s !! t = Some (Preparing n)).

Lemma under_way_busy s : under_way s ≠ 0 → busy s.
Proof.
  intros Hn. destruct (decide (count creating (lp_clients s) = 0)) as [Hc|Hc].
  - destruct (count_positive preparing (lp_tasks s)) as (t & [n|] & Ht & ?); [unfold under_way in Hn; lia| |done].
    right. right. by exists t, n.
  - destruct (count_positive creating (lp_clients s) Hc) as (c & [] & Hx & ?); try done. right. left. eauto.
Qed.

(** A pool does not deadlock: in an open pool that has not failed, the first
    client that waits is served when it next looks, or someone is about to free or to
    provide a sandbox. *)
Theorem first_is_served s c rest now :
  reachable s → closed s = false → lp_failure s = None → lp_waiters s = c :: rest →
  (∃ s' x, step (EWake c false now) s = Some s' ∧ lp_clients s' !! c = Some x ∧
           (creating x = true ∨ is_Some (holding x)) ∧ c ∉ lp_waiters s') ∨ busy s.
Proof.
  intros Hs%pool_reachable_inv Ho Hf Hw. destruct (inv_waiters s Hs c) as [d Hd]; [rewrite Hw; by left|].
  unfold step. rewrite Hd. unfold turn. rewrite Ho, Hf, Hw. simpl head.
  rewrite (bool_decide_eq_false_2 (is_Some None)) by (by intros []). rewrite (bool_decide_eq_true_2 (Some c = Some c)) by done.
  destruct (lp_idle s) as [|e idle] eqn:Hi.
  - destruct (size (lp_all s) + lp_pending s <? lp_size s) eqn:Hb; simpl.
    + left. eexists _, _. split; [done|]. split; [apply lookup_insert_eq|]. split; [by left|]. by intros [? _]%list_elem_of_filter.
    + right. apply Nat.ltb_ge in Hb. pose proof (inv_size s Hs) as H1. pose proof (inv_pending s Hs) as Hp.
      destruct (decide (under_way s = 0)) as [Hz|Hz]; [|by apply under_way_busy].
      destruct (set_choose_or_empty (lp_all s)) as [[e He]|He].
      * apply (inv_open s Hs Ho) in He as [He|He]; [rewrite Hi in He; set_solver|]. left. by exists e.
      * apply size_empty_iff in He. unfold under_way in Hz. lia.
  - left. eexists _, _. split; [done|]. split; [apply lookup_insert_eq|]. split; [right; by eexists|].
    by intros [? _]%list_elem_of_filter.
Qed.

(** * Concrete runs *)

(** Three clients of a pool of four, one of which is kept warm: the first is given the
    warm sandbox, the second creates one, the third is given the next warm one. *)
Definition ex_events : list event :=
  [EStart; EPrepared 0 (Ok 10%N); ECheckout 1 None false 0; ECheckout 2 None false 0; EPrepared 1 (Ok 11%N);
   ECheckout 3 (Some 5%Z) false 0; ECreated 2 (Some 12%N) false].

Definition ex_pool : pool := default (LocalPool 0 0 0 [] ∅ ∅ [] 0 0 false None ∅ ∅ Open ∅ [] ∅)
  (s ← res_option (make_pool 4 1 1); run ex_events s).

(** ... and the pool is closed while the first is still in its lease. *)
Definition ex_end : list event :=
  [EReturn 2; EReleased 2; EReturn 3; EClose; EReleased 3; EPrepared 3 (Ok 13%N); EDiscarded 3; EDrained; EReturn 1;
   ECloseNext; ECloseNext; ECloseNext; EReleased 1].

Definition ex_closed : pool := default ex_pool (run ex_end ex_pool).

Lemma reachable_run n warm targets l s0 s :
  make_pool n warm targets = Ok s0 → run l s0 = Some s → reachable s.
Proof. intros H0 Hl. exists n, warm, targets, s0. split; [done|]. by exists l. Qed.

Lemma run_app l1 l2 s : run (l1 ++ l2) s = s' ← run l1 s; run l2 s'.
Proof. revert s. induction l1 as [|e l1 IH]; intros s; simpl; [done|]. destruct (step e s); simpl; [apply IH|done]. Qed.

Lemma ex_pool_reachable : reachable ex_pool.
Proof. eapply (reachable_run 4 1 1 ex_events); [reflexivity|vm_compute; reflexivity]. Qed.

Lemma ex_closed_reachable : reachable ex_closed.
Proof. eapply (reachable_run 4 1 1 (ex_events ++ ex_end)); [reflexivity|vm_compute; reflexivity]. Qed.

Lemma pool_bounded_witness :
  size (lp_all ex_pool) + under_way ex_pool ≤ 4 ∧ lp_pending ex_pool = under_way ex_pool.
Proof. exact (pool_bounded ex_pool ex_pool_reachable). Defined.

Lemma local_leases_exclusive_witness :
  lp_granted ex_pool = [12; 11; 10]%N ∧ NoDup (lp_granted ex_pool) ∧ lone (lp_clients ex_pool) ∧
  (∀ e, has holding (lp_clients ex_pool) e → e ∈ lp_granted ex_pool) ∧
  ∀ e, e ∈ lp_idle ex_pool → e ∉ lp_granted ex_pool ∧ ¬ has env_of (lp_clients ex_pool) e.
Proof. split; [vm_compute; reflexivity|exact (local_leases_exclusive ex_pool ex_pool_reachable)]. Defined.

Lemma owes_none (m : gmap N client) :
  forallb (λ kv, bool_decide (owes kv.2 = None)) (map_to_list m) = true → ∀ e, ¬ has owes m e.
Proof.
  intros Hm e (i & x & Hi & Hx). rewrite forallb_forall in Hm. specialize (Hm (i, x)).
  apply elem_of_map_to_list in Hi. apply list_elem_of_In, Hm in Hi. apply bool_decide_eq_true in Hi. simpl in Hi. congruence.
Qed.


(** Two clients of a pool of one *)
Definition ex_waiting : pool := default ex_pool
  (s ← res_option (make_pool 1 0 1); run [EStart; ECheckout 1 None false 0; ECheckout 2 None false 0] s).

Lemma first_is_served_witness :
  (∃ s' x, step (EWake 2 false 0) ex_waiting = Some s' ∧ lp_clients s' !! 2%N = Some x ∧
           (creating x = true ∨ is_Some (holding x)) ∧ 2%N ∉ lp_waiters s') ∨ busy ex_waiting.
Proof.
  apply (first_is_served ex_waiting 2 [] 0); [|vm_compute; reflexivity..].
  eapply (reachable_run 1 0 1 [EStart; ECheckout 1 None false 0; ECheckout 2 None false 0]); [reflexivity|].
  vm_compute. reflexivity.
Defined.

(** The warm reserve is not kept: a sandbox that a client creates for itself is
    counted as if it were to become idle, so there is a run after which nothing is under
    way and the reserve is empty although the pool has room. *)
Theorem reserve_not_kept :
  ∃ s, reachable s ∧ lp_started s = true ∧ closed s = false ∧ lp_failure s = None ∧ under_way s = 0 ∧
       length (lp_idle s) < lp_warm s ∧ size (lp_all s) < lp_size s.
Proof.
  exists ex_pool. split; [exact ex_pool_reachable|]. vm_compute. repeat split; lia.
Qed.
