(* ===== verification/Retention.v ===== *)
(** Saved environments and their retention ([sandbox/snapshots.py],
    [sandbox/retention.py]): the revisions, cache names, pins, captures and markers in
    the store that workers share, and the release of a pool's files, which holds the
    pool's lock over many steps and may die between any two of them. *)

From S2P Require Import Prelude MemberNetworks.

#[local] Open Scope Z_scope.

(** [snap-] or [pool-] and 32 lower-case hexadecimal digits *)
Definition tagged (tag s : string) : bool :=
  str_startswith tag s && (String.length s =? String.length tag + 32)%nat
  && forallb hex_digit (drop (String.length tag) (chars s)).

Definition snapshot_id (s : string) : bool := tagged "snap-" s.

(** [validate] *)
Definition validate_pool (pool : string) : res () :=
  raise_if (negb (tagged "pool-" pool)) ValueError "invalid retention pool ID".

(** [guard] names the lock of a pool, and checks its ID. *)
Definition guard (pool : option string) : res () :=
  match pool with Some p => validate_pool p | None => Ok () end.

(** * The store *)

Record revision := Revision { rv_pool : option string; rv_source : string; rv_digest : string }.
Record alias := Alias { as_id : string; as_provenance : string; as_fingerprint : option string }.
Record marker := Marker { mk_references : gset string; mk_released : bool }.

Record store := Store {
  st_revisions : gmap string revision;
  st_names : gmap string alias;
  st_pins : gmap string (gset (string * string));      (* pool: workspaces and sandboxes *)
  st_captures : gmap string (gmap string string);      (* pool: snapshots and their sources *)
  st_markers : gmap string marker;
  st_files : gset (string * string) }.                 (* worker and snapshot: private payloads *)

#[export] Instance store_updatable : Updatable store := λ s,
  Store (st_revisions s) (st_names s) (st_pins s) (st_captures s) (st_markers s) (st_files s).

Definition empty_store : store := Store ∅ ∅ ∅ ∅ ∅ ∅.

Definition pins (s : store) (pool : string) : gset (string * string) := default ∅ (st_pins s !! pool).
Definition captures (s : store) (pool : string) : gmap string string := default ∅ (st_captures s !! pool).

(** [active] *)
Definition check_active (s : store) (pool : option string) : res () :=
  match pool with
  | Some pool => raise_if (bool_decide (is_Some (st_markers s !! pool))) CacheMiss "pool snapshot is being released: "
  | None => Ok ()
  end.

(** [Store.name_path] *)
Definition check_name (name : string) : res () :=
  raise_if ((String.length name =? 0)%nat || negb (String.length name <=? 256)%nat
            || existsb (λ c, code c =? 0) (chars name)) ValueError
    "cache name must be a nonempty string of at most 256 characters".

(** [Store.resolve] *)
Definition resolve (s : store) (reference : string) : res (string * revision) :=
  id ← (if snapshot_id reference then Ok reference
        else _ ← check_name reference;
             match st_names s !! reference with
             | Some a => Ok (as_id a)
             | None => raise CacheMiss "cache does not exist: "
             end);
  match st_revisions s !! id with
  | None => raise CacheMiss "saved revision does not exist: "
  | Some rev => _ ← check_active s (rv_pool rev); Ok (id, rev)
  end.

(** * Operations under the lock of a pool *)

Definition pin (s : store) (pool : option string) (workspace sandbox : string) : res store :=
  _ ← guard pool;
  match pool with
  | None => Ok s
  | Some p =>
      _ ← check_active s pool;
      Ok (s <| st_pins := <[p := {[(workspace, sandbox)]} ∪ pins s p]> (st_pins s) |>)
  end.

Definition unpin (s : store) (pool : option string) (workspace sandbox : string) : res store :=
  _ ← guard pool;
  match pool with
  | None => Ok s
  | Some p =>
      Ok (s <| st_pins := <[p := pins s p ∖ {[(workspace, sandbox)]}]> (st_pins s) |>)
  end.

Definition begin_capture (s : store) (pool : option string) (id source : string) : res store :=
  _ ← guard pool;
  match pool with
  | None => Ok s
  | Some p =>
      _ ← check_active s pool;
      Ok (s <| st_captures := <[p := <[id := source]> (captures s p)]> (st_captures s) |>)
  end.

(** [Store.record]: [os.link] never replaces a revision. *)
Definition record_revision (s : store) (id : string) (rev : revision) : res store :=
  _ ← guard (rv_pool rev);
  _ ← check_active s (rv_pool rev);
  if bool_decide (is_Some (st_revisions s !! id)) then raise FileExistsError ""
  else Ok (s <| st_revisions := <[id := rev]> (st_revisions s) |>).

(** [Artifacts._publish], which [dispatch] calls under the lock *)
Definition import_revision (s : store) (id : string) (rev : revision) : res store :=
  _ ← guard (rv_pool rev);
  _ ← check_active s (rv_pool rev);
  match st_revisions s !! id with
  | Some previous =>
      if bool_decide (rv_digest previous = rv_digest rev)
      then Ok (s <| st_revisions := <[id := rev]> (st_revisions s) |>)
      else raise IncompatibleSnapshot "snapshot ID has a different digest"
  | None => Ok (s <| st_revisions := <[id := rev]> (st_revisions s) |>)
  end.

(** [Store.publish]: the pool was read from the revision before the lock was taken. *)
Record publication := Publication {
  pu_pool : option string; pu_name : string; pu_id : string; pu_expected : option string;
  pu_provenance : string; pu_fingerprint : option string }.

Definition start_publication (s : store) (name id : string) (expected : option string) (provenance : string)
    (fingerprint : option string) : res publication :=
  x ← resolve s id;
  Ok (Publication (rv_pool x.2) name id expected provenance fingerprint).

Definition publish (s : store) (p : publication) : res store :=
  _ ← guard (pu_pool p);
  _ ← check_name (pu_name p);
  _ ← check_active s (pu_pool p);
  let current := st_names s !! pu_name p in
  if negb (bool_decide (as_id <$> current = pu_expected p)) then
    raise CacheConflict "cache name changed during publication: "
  else if match current with Some a => negb (bool_decide (as_provenance a = pu_provenance p)) | None => false end then
    raise CacheConflict "cache name has incompatible provenance: "
  else Ok (s <| st_names := <[pu_name p := Alias (pu_id p) (pu_provenance p) (pu_fingerprint p)]> (st_names s) |>).

(** * Release *)

Definition of_pool (s : store) (pool : string) : gmap string revision :=
  filter (λ kv, rv_pool kv.2 = Some pool) (st_revisions s).

Definition belongs (s : store) (pool r : string) : bool :=
  match st_revisions s !! r with Some rev => bool_decide (rv_pool rev = Some pool) | None => true end.

(** The checks of [release], up to the references to remove *)
Definition plan_release (s : store) (pool : string) (sources references : gset string) : res (gset string) :=
  _ ← validate_pool pool;
  _ ← raise_if (negb (bool_decide (pins s pool = ∅))) ResourceUnavailable "pool files are still used by a sandbox";
  let records := of_pool s pool in
  _ ← raise_if (negb (bool_decide (map_Forall (λ _ rev, rv_source rev ∈ sources) records))) ResourceUnavailable
        "pool files are retained by another saved snapshot";
  _ ← raise_if (negb (bool_decide (map_Forall (λ _ source, source ∈ sources) (captures s pool)))) ResourceUnavailable
        "pool files are retained by another snapshot capture";
  let previous := match st_markers s !! pool with Some m => mk_references m | None => ∅ end in
  let all := references ∪ previous ∪ dom records ∪ dom (captures s pool) in
  _ ← raise_if (negb (bool_decide (set_Forall (λ r, snapshot_id r = true) all))) ValueError "invalid snapshot ID";
  _ ← raise_if (negb (bool_decide (set_Forall (λ r, belongs s pool r = true) all))) ResourceUnavailable
        "snapshot does not belong to this retention pool";
  _ ← raise_if (negb (bool_decide (map_Forall (λ _ a, as_id a ∉ all) (st_names s)))) ResourceUnavailable
        "pool snapshot is retained by a cache name";
  Ok all.

(** What is left to do: the private files and the revision of each reference, and the
    directory of the pool *)
Inductive removal := RemoveFiles (r : string) | RemoveRevision (r : string) | RemovePool.

Definition remove_reference (r : string) : list removal := [RemoveFiles r; RemoveRevision r].

Definition removals (references : gset string) : list removal :=
  (elements references ≫= remove_reference) ++ [RemovePool].

Definition remove (worker pool : string) (r : removal) (s : store) : store :=
  match r with
  | RemoveFiles r => s <| st_files := st_files s ∖ {[(worker, r)]} |>
  | RemoveRevision r => s <| st_revisions := delete r (st_revisions s) |>
  | RemovePool => s <| st_pins := delete pool (st_pins s) |> <| st_captures := delete pool (st_captures s) |>
  end.

(** * Processes that share the store *)

(** A release under way holds the lock of its pool. *)
Record releasing := Releasing {
  rl_worker : string; rl_pool : string; rl_references : gset string; rl_left : list removal }.

Record system := System {
  sy_store : store;
  sy_publishing : gmap N publication;
  sy_releasing : gmap N releasing }.

#[export] Instance system_updatable : Updatable system := λ y,
  System (sy_store y) (sy_publishing y) (sy_releasing y).

Definition start_system : system := System empty_store ∅ ∅.

(** The lock of a pool is free. A process that dies gives it back. *)
Definition unlocked (y : system) (pool : option string) : bool :=
  match pool with
  | Some p => bool_decide (map_Forall (λ _ r, rl_pool r ≠ p) (sy_releasing y))
  | None => true
  end.

Inductive event :=
  | EPin (pool : option string) (workspace sandbox : string)
  | EUnpin (pool : option string) (workspace sandbox : string)
  | ECapture (pool : option string) (id source : string)
  | ERecord (id : string) (rev : revision)
  | EImport (id : string) (rev : revision)
  | EFile (worker id : string)                              (* a worker copies or captures a payload *)
  | EPublish (n : N) (name id : string) (expected : option string) (provenance : string) (fingerprint : option string)
  | ECommit (n : N)
  | ERelease (n : N) (worker pool : string) (sources references : gset string)
  | ERemove (n : N)
  | EDie (n : N).                                           (* a publication or a release dies *)

(** The outcome of an operation on the store; a refused one changes nothing. *)
Definition put (y : system) (x : res store) : option system :=
  match x with Ok s => Some (y <| sy_store := s |>) | Err _ => Some y end.

Definition under (pool : option string) (y : system) (x : res store) : option system :=
  if unlocked y pool then put y x else None.

Section Shared.

(** A snapshot is made for one pool, or for none: its ID is drawn at random, and its
    metadata never changes. *)
Variable pool_of : string → option string.

Definition made_for (id : string) (rev : revision) : bool := bool_decide (rv_pool rev = pool_of id).

Definition step (e : event) (y : system) : option system :=
  let s := sy_store y in
  match e with
  | EPin pool ws sb => under pool y (pin s pool ws sb)
  | EUnpin pool ws sb => under pool y (unpin s pool ws sb)
  | ECapture pool id source =>
      if bool_decide (pool = pool_of id) && snapshot_id id then under pool y (begin_capture s pool id source) else None
  | ERecord id rev =>
      if made_for id rev && snapshot_id id then under (rv_pool rev) y (record_revision s id rev) else None
  | EImport id rev =>
      if made_for id rev && snapshot_id id then under (rv_pool rev) y (import_revision s id rev) else None
  | EFile worker id => if unlocked y (pool_of id) then Some (y <| sy_store := s <| st_files := {[(worker, id)]} ∪ st_files s |> |>) else None
  | EPublish n name id expected provenance fingerprint =>
      match sy_publishing y !! n, start_publication s name id expected provenance fingerprint with
      | None, Ok p => if snapshot_id id then Some (y <| sy_publishing := <[n := p]> (sy_publishing y) |>) else None
      | None, Err _ => Some y
      | Some _, _ => None
      end
  | ECommit n =>
      match sy_publishing y !! n with
      | Some p => under (pu_pool p) (y <| sy_publishing := delete n (sy_publishing y) |>) (publish s p)
      | None => None
      end
  | ERelease n worker pool sources references =>
      match sy_releasing y !! n with
      | None =>
          if unlocked y (Some pool) && bool_decide (set_Forall (λ r, pool_of r = Some pool) references) then
            match plan_release s pool sources references with
            | Ok all =>
                Some (y <| sy_store := s <| st_markers := <[pool := Marker all false]> (st_markers s) |> |>
                        <| sy_releasing := <[n := Releasing worker pool all (removals all)]> (sy_releasing y) |>)
            | Err _ => Some y
            end
          else None
      | Some _ => None
      end
  | ERemove n =>
      match sy_releasing y !! n with
      | Some (Releasing worker pool references (r :: rest)) =>
          Some (y <| sy_store := remove worker pool r s |>
                  <| sy_releasing := <[n := Releasing worker pool references rest]> (sy_releasing y) |>)
      | Some (Releasing worker pool references []) =>
          Some (y <| sy_store := s <| st_markers := <[pool := Marker references true]> (st_markers s) |> |>
                  <| sy_releasing := delete n (sy_releasing y) |>)
      | None => None
      end
  | EDie n => Some (y <| sy_publishing := delete n (sy_publishing y) |> <| sy_releasing := delete n (sy_releasing y) |>)
  end.

Fixpoint run (l : list event) (y : system) : option system :=
  match l with
  | [] => Some y
  | e :: l => y ← step e y; run l y
  end.

Definition reachable (y : system) : Prop := ∃ l, run l start_system = Some y.

(** * The invariant *)

Definition retiring (y : system) (pool : string) : Prop := is_Some (st_markers (sy_store y) !! pool).

(** A reference of pool [p] *)
Definition reference_of (p r : string) : Prop := pool_of r = Some p ∧ snapshot_id r = true.

Definition removal_of (refs : gset string) (r : removal) : Prop :=
  match r with RemoveFiles x | RemoveRevision x => x ∈ refs | RemovePool => True end.

Record inv (y : system) : Prop := Inv {
  inv_revisions : ∀ id rev, st_revisions (sy_store y) !! id = Some rev → rv_pool rev = pool_of id ∧ snapshot_id id = true;
  inv_names : ∀ name a, st_names (sy_store y) !! name = Some a →
    is_Some (st_revisions (sy_store y) !! as_id a) ∧ ∀ p, pool_of (as_id a) = Some p → ¬ retiring y p;
  inv_publishing : ∀ n p, sy_publishing y !! n = Some p → pu_pool p = pool_of (pu_id p) ∧
    (is_Some (st_revisions (sy_store y) !! pu_id p) ∨ ∃ q, pool_of (pu_id p) = Some q ∧ retiring y q);
  inv_markers : ∀ p m, st_markers (sy_store y) !! p = Some m → ∀ r, r ∈ mk_references m → reference_of p r;
  inv_captures : ∀ p r, is_Some (captures (sy_store y) p !! r) → reference_of p r;
  inv_pins : ∀ p, retiring y p → pins (sy_store y) p = ∅;
  inv_locks : ∀ n n' r r', sy_releasing y !! n = Some r → sy_releasing y !! n' = Some r' → rl_pool r = rl_pool r' → n = n';
  inv_releasing : ∀ n r, sy_releasing y !! n = Some r → retiring y (rl_pool r) ∧
    (∀ x, x ∈ rl_references r → reference_of (rl_pool r) x) ∧
    (∀ x, x ∈ rl_left r → removal_of (rl_references r) x) ∧
    ∀ id, is_Some (st_revisions (sy_store y) !! id) → pool_of id = Some (rl_pool r) → RemoveRevision id ∈ rl_left r;
  inv_released : ∀ p m, st_markers (sy_store y) !! p = Some m → mk_released m = true →
    ∀ id, is_Some (st_revisions (sy_store y) !! id) → pool_of id ≠ Some p }.

(** ** What an operation that succeeds has checked *)

Lemma active_ok s pool : check_active s pool = Ok tt → ∀ p, pool = Some p → st_markers s !! p = None.
Proof.
  intros H p ->. simpl in H. apply raise_if_ok, bool_decide_eq_false in H. by destruct (st_markers s !! p); [destruct H|].
Qed.

Ltac succeed H :=
  repeat (let x := fresh "x" in let Hx := fresh "Hok" in apply bind_ok in H as (x & Hx & H); try destruct x).

Lemma pin_ok s pool ws sb s' :
  pin s pool ws sb = Ok s' → s' = s ∨ ∃ p, pool = Some p ∧ st_markers s !! p = None ∧
    s' = s <| st_pins := <[p := {[(ws, sb)]} ∪ pins s p]> (st_pins s) |>.
Proof.
  unfold pin. destruct pool as [p|]; intros H; succeed H; injection H as <-; [right; exists p|by left].
  split; [done|]. split; [by eapply active_ok|done].
Qed.

Lemma unpin_ok s pool ws sb s' :
  unpin s pool ws sb = Ok s' → s' = s ∨ ∃ p, pool = Some p ∧ s' = s <| st_pins := <[p := pins s p ∖ {[(ws, sb)]}]> (st_pins s) |>.
Proof. unfold unpin. destruct pool as [p|]; intros H; succeed H; injection H as <-; [right; by exists p|by left]. Qed.

Lemma capture_ok s pool id source s' :
  begin_capture s pool id source = Ok s' → s' = s ∨ ∃ p, pool = Some p ∧
    s' = s <| st_captures := <[p := <[id := source]> (captures s p)]> (st_captures s) |>.
Proof. unfold begin_capture. destruct pool as [p|]; intros H; succeed H; injection H as <-; [right; by exists p|by left]. Qed.

(** A revision that is added: its pool is not being released. *)
Lemma record_ok s id rev s' :
  record_revision s id rev = Ok s' → (∀ p, rv_pool rev = Some p → st_markers s !! p = None) ∧
    s' = s <| st_revisions := <[id := rev]> (st_revisions s) |>.
Proof.
  unfold record_revision. intros H. succeed H. destruct (bool_decide _); [done|]. injection H as <-.
  split; [|done]. by apply active_ok.
Qed.

Lemma import_ok s id rev s' :
  import_revision s id rev = Ok s' → (∀ p, rv_pool rev = Some p → st_markers s !! p = None) ∧
    s' = s <| st_revisions := <[id := rev]> (st_revisions s) |>.
Proof.
  unfold import_revision. intros H. succeed H.
  assert (s' = s <| st_revisions := <[id := rev]> (st_revisions s) |>) as ->.
  { destruct (st_revisions s !! id); [|by injection H]. destruct (bool_decide _); [by injection H|done]. }
  split; [|done]. by apply active_ok.
Qed.

Lemma named_ok s p s' :
  publish s p = Ok s' → (∀ q, pu_pool p = Some q → st_markers s !! q = None) ∧
    s' = s <| st_names := <[pu_name p := Alias (pu_id p) (pu_provenance p) (pu_fingerprint p)]> (st_names s) |>.
Proof.
  unfold publish. intros H. succeed H. destruct (negb _); [done|].
  destruct (match st_names s !! pu_name p with Some _ => _ | None => _ end); [done|]. injection H as <-.
  split; [|done]. by apply active_ok.
Qed.

Lemma resolve_ok s reference id rev :
  resolve s reference = Ok (id, rev) → st_revisions s !! id = Some rev ∧ (∀ p, rv_pool rev = Some p → st_markers s !! p = None) ∧
    (snapshot_id reference = true → id = reference).
Proof.
  unfold resolve. intros H. apply bind_ok in H as (id' & Hid & H). destruct (st_revisions s !! id') as [rev'|] eqn:E; [|done].
  succeed H. injection H as <- <-. split; [done|]. split; [by apply active_ok|]. intros Hs. rewrite Hs in Hid. by injection Hid.
Qed.

Lemma plan_ok s pool sources references all :
  plan_release s pool sources references = Ok all →
  pins s pool = ∅ ∧ (∀ r, r ∈ all ↔ r ∈ references ∨ (∃ m, st_markers s !! pool = Some m ∧ r ∈ mk_references m) ∨
    (∃ rev, st_revisions s !! r = Some rev ∧ rv_pool rev = Some pool) ∨ is_Some (captures s pool !! r)) ∧
  (∀ r, r ∈ all → snapshot_id r = true) ∧ ∀ name a, st_names s !! name = Some a → as_id a ∉ all.
Proof.
  unfold plan_release. intros H. succeed H. injection H as <-.
  apply raise_if_ok, negb_false_iff, bool_decide_eq_true in Hok0, Hok3, Hok5.
  split; [done|]. split; [|split; [exact Hok3|intros name a; exact (Hok5 name a)]].
  intros r. rewrite !elem_of_union, !elem_of_dom.
  assert (Hrec : is_Some (of_pool s pool !! r) ↔ ∃ rev, st_revisions s !! r = Some rev ∧ rv_pool rev = Some pool).
  { unfold of_pool. split; intros [rev Hrev]; exists rev; [by apply map_lookup_filter_Some in Hrev|by apply map_lookup_filter_Some]. }
  rewrite Hrec. destruct (st_markers s !! pool) as [m|]; set_solver.
Qed.

(** ** Preservation *)

Definition with_store (y : system) (s : store) : system := System s (sy_publishing y) (sy_releasing y).

Lemma pins_set s p q X : pins (s <| st_pins := <[p := X]> (st_pins s) |>) q = if decide (q = p) then X else pins s q.
Proof. unfold pins. simpl. destruct (decide (q = p)) as [->|]; [by rewrite lookup_insert_eq|by rewrite lookup_insert_ne]. Qed.

Lemma pins_inv y p X :
  inv y → (retiring y p → X = ∅) →
  inv (with_store y ((sy_store y) <| st_pins := <[p := X]> (st_pins (sy_store y)) |>)).
Proof.
  intros [] HX. split; try assumption. intros q Hq. change (retiring y q) in Hq.
  change (pins ((sy_store y) <| st_pins := <[p := X]> (st_pins (sy_store y)) |>) q = ∅). rewrite pins_set. destruct (decide (q = p)) as [->|].
  - by apply HX.
  - by apply inv_pins0.
Qed.

Lemma captures_inv y p id source :
  inv y → reference_of p id →
  inv (with_store y ((sy_store y) <| st_captures := <[p := <[id := source]> (captures (sy_store y) p)]> (st_captures (sy_store y)) |>)).
Proof.
  intros [] Hid. split; try assumption. intros q r. unfold captures. simpl. destruct (decide (q = p)) as [->|].
  - rewrite lookup_insert_eq. simpl. destruct (decide (r = id)) as [->|]; [done|]. rewrite lookup_insert_ne by done. apply inv_captures0.
  - rewrite lookup_insert_ne by done. apply inv_captures0.
Qed.

(** A new revision, of a pool that is not being released *)
Lemma revision_inv y id rev :
  inv y → rv_pool rev = pool_of id → snapshot_id id = true → (∀ p, pool_of id = Some p → ¬ retiring y p) →
  inv (with_store y ((sy_store y) <| st_revisions := <[id := rev]> (st_revisions (sy_store y)) |>)).
Proof.
  intros [] Hrev Hid Ha.
  assert (Hex : ∀ x, is_Some (st_revisions (sy_store y) !! x) → is_Some (<[id := rev]> (st_revisions (sy_store y)) !! x)).
  { intros x Hx. destruct (decide (x = id)) as [->|]; [rewrite lookup_insert_eq; by eexists|by rewrite lookup_insert_ne]. }
  assert (Hold : ∀ x p, retiring y p → is_Some (<[id := rev]> (st_revisions (sy_store y)) !! x) → pool_of x = Some p →
    is_Some (st_revisions (sy_store y) !! x)).
  { intros x p Hp Hx Hxp. destruct (decide (x = id)) as [->|]; [by destruct (Ha p)|by rewrite lookup_insert_ne in Hx]. }
  split; try assumption.
  - simpl. intros x r Hx. apply lookup_insert_Some in Hx as [[<- <-]|[_ Hx]]; [done|by apply inv_revisions0].
  - intros name a Hn. destruct (inv_names0 name a Hn). split; [by apply Hex|done].
  - intros n p Hp. destruct (inv_publishing0 n p Hp) as [? [?|?]]; split; auto.
  - intros n r Hr. destruct (inv_releasing0 n r Hr) as (H1 & H2 & H3 & H4). split; [done|]. split; [done|]. split; [done|].
    intros x Hx Hxp. apply H4; [by apply (Hold x _ H1)|done].
  - intros p m Hm Hr x Hx Hxp. apply (inv_released0 p m Hm Hr x); [|done]. apply (Hold x p); [by eexists|done|done].
Qed.

Lemma names_inv y name a :
  inv y → is_Some (st_revisions (sy_store y) !! as_id a) → (∀ p, pool_of (as_id a) = Some p → ¬ retiring y p) →
  inv (with_store y ((sy_store y) <| st_names := <[name := a]> (st_names (sy_store y)) |>)).
Proof.
  intros [] Hex Ha. split; try assumption. simpl. intros n b Hn.
  apply lookup_insert_Some in Hn as [[<- <-]|[_ Hn]]; [done|by apply (inv_names0 n b)].
Qed.

Lemma publishing_inv y m :
  inv y → (∀ n p, m !! n = Some p → pu_pool p = pool_of (pu_id p) ∧
    (is_Some (st_revisions (sy_store y) !! pu_id p) ∨ ∃ q, pool_of (pu_id p) = Some q ∧ retiring y q)) →
  inv (y <| sy_publishing := m |>).
Proof. intros [] Hm. by split. Qed.

Lemma releasing_subset_inv y m : inv y → m ⊆ sy_releasing y → inv (y <| sy_releasing := m |>).
Proof.
  intros [] Hm. split; try assumption.
  - intros n n' r r' Hn Hn'. eapply inv_locks0; by eapply lookup_weaken.
  - intros n r Hn. eapply (inv_releasing0 n r), lookup_weaken; [exact Hn|exact Hm].
Qed.

Lemma files_inv y files : inv y → inv (with_store y ((sy_store y) <| st_files := files |>)).
Proof. intros []. by split. Qed.

(** ** Release *)

Lemma release_inv y n worker pool sources references all :
  inv y → sy_releasing y !! n = None → unlocked y (Some pool) = true →
  (∀ r, r ∈ references → pool_of r = Some pool) →
  plan_release (sy_store y) pool sources references = Ok all →
  inv (System ((sy_store y) <| st_markers := <[pool := Marker all false]> (st_markers (sy_store y)) |>) (sy_publishing y)
         (<[n := Releasing worker pool all (removals all)]> (sy_releasing y))).
Proof.
  intros [] Hn Hlock Href Hplan. apply bool_decide_eq_true in Hlock.
  destruct (plan_ok _ _ _ _ _ Hplan) as (Hpins & Hall & Hids & Hnames).
  assert (Hof : ∀ r, r ∈ all → reference_of pool r).
  { intros r Hr. split; [|by apply Hids]. apply Hall in Hr as [Hr|[(m & Hm & Hr)|[(rev & Hrev & Hp)|Hr]]].
    - by apply Href.
    - by apply (inv_markers0 pool m Hm).
    - apply inv_revisions0 in Hrev as [<- _]. done.
    - by apply inv_captures0. }
  assert (Hret : ∀ p, retiring (System ((sy_store y) <| st_markers := <[pool := Marker all false]> (st_markers (sy_store y)) |>)
    (sy_publishing y) (<[n := Releasing worker pool all (removals all)]> (sy_releasing y))) p ↔ p = pool ∨ retiring y p).
  { intros p. unfold retiring. simpl. destruct (decide (p = pool)) as [->|].
    - rewrite lookup_insert_eq. split; [by left|by eexists].
    - rewrite lookup_insert_ne by done. naive_solver. }
  split; try assumption.
  - intros name a Ha. destruct (inv_names0 name a Ha) as [Hex Hp]. split; [done|]. intros p Hpa [->|Hr]%Hret; [|by apply (Hp p)].
    destruct Hex as [rev Hrev]. apply (Hnames name a Ha), Hall. right; right; left. exists rev. split; [done|].
    apply inv_revisions0 in Hrev as [-> _]. done.
  - intros n' p Hp. destruct (inv_publishing0 n' p Hp) as [? [?|(q & Hq & Hr)]]; split; auto. right. exists q. split; [done|].
    apply Hret. by right.
  - simpl. intros p m Hm. apply lookup_insert_Some in Hm as [[<- <-]|[_ Hm]]; [exact Hof|by apply inv_markers0].
  - intros p [->|Hp]%Hret; [done|by apply inv_pins0].
  - simpl. intros i j r r' Hi Hj Hrr. apply lookup_insert_Some in Hi as [[<- <-]|[Hi1 Hi]], Hj as [[<- <-]|[Hj1 Hj]]; try done.
    + simpl in Hrr. by destruct (Hlock j r' Hj).
    + simpl in Hrr. by destruct (Hlock i r Hi).
    + by apply (inv_locks0 i j r r').
  - simpl. intros i r Hi. apply lookup_insert_Some in Hi as [[<- <-]|[_ Hi]].
    + simpl. split; [apply Hret; by left|]. split; [exact Hof|]. split.
      * intros x Hx. unfold removals in Hx. rewrite elem_of_app, list_elem_of_bind in Hx.
        destruct Hx as [(r & Hx & Hr%elem_of_elements)|Hx].
        -- unfold remove_reference in Hx. apply elem_of_cons in Hx as [->|Hx]; [done|]. by apply list_elem_of_singleton in Hx as ->.
        -- by apply list_elem_of_singleton in Hx as ->.
      * intros id [rev Hrev] Hid. unfold removals. rewrite elem_of_app, list_elem_of_bind. left. exists id.
        split; [set_solver|]. apply elem_of_elements, Hall. right; right; left. exists rev. split; [done|].
        apply inv_revisions0 in Hrev as [-> _]. done.
    + destruct (inv_releasing0 i r Hi) as (H1 & H2 & H3 & H4). split; [apply Hret; by right|]. done.
  - simpl. intros p m Hm Hmr. apply lookup_insert_Some in Hm as [[<- <-]|[_ Hm]]; [done|by apply (inv_released0 p m)].
Qed.

(** What is left of a release shrinks, and what it removed is gone. *)
Lemma left_inv y n w p refs r rest s :
  inv y → sy_releasing y !! n = Some (Releasing w p refs (r :: rest)) → inv (with_store y s) →
  (∀ id, is_Some (st_revisions s !! id) → pool_of id = Some p → RemoveRevision id ∈ rest) →
  inv (System s (sy_publishing y) (<[n := Releasing w p refs rest]> (sy_releasing y))).
Proof.
  intros Hy Hn [] Hrest. pose proof (inv_releasing0 n _ Hn) as (H1 & H2 & H3 & _). simpl in *. split; try assumption.
  - simpl. intros i j x x' Hi Hj Hxx.
    assert (Hx : ∃ z, sy_releasing y !! i = Some z ∧ rl_pool z = rl_pool x)
      by (apply lookup_insert_Some in Hi as [[<- <-]|[_ Hi]]; eexists; split; eauto).
    assert (Hx' : ∃ z, sy_releasing y !! j = Some z ∧ rl_pool z = rl_pool x')
      by (apply lookup_insert_Some in Hj as [[<- <-]|[_ Hj]]; eexists; split; eauto).
    destruct Hx as (z & Hz & Hzx), Hx' as (z' & Hz' & Hzx'). apply (inv_locks0 i j z z'); [done|done|congruence].
  - simpl. intros i x Hi. apply lookup_insert_Some in Hi as [[<- <-]|[_ Hi]].
    + split; [done|]. split; [done|]. split; [|done]. intros x Hx. apply H3. by right.
    + by apply (inv_releasing0 i).
Qed.

Lemma without_inv y x p : inv y → reference_of p x → retiring y p →
  inv (with_store y ((sy_store y) <| st_revisions := delete x (st_revisions (sy_store y)) |>)).
Proof.
  intros [] [Hx Hid] Hp.
  assert (Hback : ∀ id, is_Some (delete x (st_revisions (sy_store y)) !! id) → is_Some (st_revisions (sy_store y) !! id))
    by (intros id [rev [_ Hrev]%lookup_delete_Some]; by eexists).
  split; try assumption.
  - simpl. intros id rev [_ Hrev]%lookup_delete_Some. by apply inv_revisions0.
  - simpl. intros name a Ha. destruct (inv_names0 name a Ha) as [[rev Hrev] Hr]. split; [|done]. exists rev.
    apply lookup_delete_Some. split; [|done]. intros Heq. apply (Hr p); [by rewrite <- Heq|done].
  - simpl. intros n q Hq. destruct (inv_publishing0 n q Hq) as [? [[rev Hrev]|?]]; split; auto.
    destruct (decide (x = pu_id q)) as [->|Hne]; [right; by exists p|]. left. exists rev. by apply lookup_delete_Some.
  - simpl. intros n r Hr. destruct (inv_releasing0 n r Hr) as (H1 & H2 & H3 & H4). repeat split; try done; try (by apply H2).
    intros id Hi. by apply H4, Hback.
  - simpl. intros q m Hm Hr id Hi. by apply (inv_released0 q m Hm Hr), Hback.
Qed.

Lemma pool_gone_inv y p : inv y → retiring y p →
  inv (with_store y ((sy_store y) <| st_pins := delete p (st_pins (sy_store y)) |>
         <| st_captures := delete p (st_captures (sy_store y)) |>)).
Proof.
  intros [] Hp. split; try assumption.
  - intros q r. unfold captures. simpl. destruct (decide (q = p)) as [->|]; [|rewrite lookup_delete_ne by done; apply inv_captures0].
    rewrite lookup_delete_eq. simpl. rewrite lookup_empty. by intros [].
  - intros q Hq. unfold pins. simpl. destruct (decide (q = p)) as [->|]; [by rewrite lookup_delete_eq|].
    rewrite lookup_delete_ne by done. by apply inv_pins0.
Qed.

Lemma remove_inv y n w p refs r rest :
  inv y → sy_releasing y !! n = Some (Releasing w p refs (r :: rest)) →
  inv (System (remove w p r (sy_store y)) (sy_publishing y) (<[n := Releasing w p refs rest]> (sy_releasing y))).
Proof.
  intros Hy Hn. pose proof (inv_releasing y Hy n _ Hn) as (H1 & H2 & H3 & H4). simpl in *.
  destruct r as [x|x|]; (eapply left_inv; [exact Hy|exact Hn| |]).
  - by apply files_inv.
  - simpl. intros id Hid Hp. specialize (H4 id Hid Hp). by apply elem_of_cons in H4 as [?|?].
  - apply (without_inv y x p); [done| |done]. apply H2, (H3 (RemoveRevision x)). by left.
  - simpl. intros id [rev [Hne Hrev]%lookup_delete_Some] Hp. specialize (H4 id (ex_intro _ _ Hrev) Hp).
    apply elem_of_cons in H4 as [[= <-]|?]; done.
  - by apply pool_gone_inv.
  - simpl. intros id Hid Hp. specialize (H4 id Hid Hp). by apply elem_of_cons in H4 as [?|?].
Qed.

Lemma done_inv y n w p refs :
  inv y → sy_releasing y !! n = Some (Releasing w p refs []) →
  inv (System ((sy_store y) <| st_markers := <[p := Marker refs true]> (st_markers (sy_store y)) |>) (sy_publishing y)
         (delete n (sy_releasing y))).
Proof.
  intros [] Hn. pose proof (inv_releasing0 n _ Hn) as (H1 & H2 & _ & H4). simpl in *.
  assert (Hret : ∀ q, retiring (System ((sy_store y) <| st_markers := <[p := Marker refs true]> (st_markers (sy_store y)) |>)
    (sy_publishing y) (delete n (sy_releasing y))) q ↔ retiring y q).
  { intros q. unfold retiring. simpl. destruct (decide (q = p)) as [->|]; [|by rewrite lookup_insert_ne].
    rewrite lookup_insert_eq. split; [done|by eexists]. }
  split; try assumption.
  - intros name a Ha. destruct (inv_names0 name a Ha) as [? Hr]. split; [done|]. intros q Hq. rewrite Hret. by apply Hr.
  - intros i q Hq. destruct (inv_publishing0 i q Hq) as [? [?|(z & Hz & ?)]]; split; auto. right. exists z. by rewrite Hret.
  - simpl. intros q m Hm. apply lookup_insert_Some in Hm as [[<- <-]|[_ Hm]]; [exact H2|by apply inv_markers0].
  - intros q. rewrite Hret. apply inv_pins0.
  - simpl. intros i j r r' [_ Hi]%lookup_delete_Some [_ Hj]%lookup_delete_Some. by apply inv_locks0.
  - simpl. intros i r [_ Hi]%lookup_delete_Some. destruct (inv_releasing0 i r Hi) as (? & ?). split; [by apply Hret|done].
  - simpl. intros q m Hm Hr id Hid. apply lookup_insert_Some in Hm as [[<- <-]|[_ Hm]]; [|by apply (inv_released0 q m Hm)].
    intros Hp. by specialize (H4 id Hid Hp); apply elem_of_nil in H4.
Qed.

Lemma put_safe y x y' :
  inv y → (∀ s, x = Ok s → inv (with_store y s)) → put y x = Some y' → inv y'.
Proof. intros Hy Hs. unfold put. destruct x as [s|e]; intros [= <-]; [by apply Hs|done]. Qed.

Lemma under_inv pool y x y' :
  inv y → (∀ s, x = Ok s → inv (with_store y s)) → under pool y x = Some y' → inv y'.
Proof. unfold under. destruct (unlocked y pool); [apply put_safe|done]. Qed.

Lemma not_retiring y p : st_markers (sy_store y) !! p = None → ¬ retiring y p.
Proof. intros H [m Hm]. congruence. Qed.

Lemma with_same y : with_store y (sy_store y) = y.
Proof. by destruct y. Qed.

Lemma step_keeps_inv e y y' : inv y → step e y = Some y' → inv y'.
Proof.
  intros Hy. destruct e as [pool ws sb|pool ws sb|pool id source|id rev|id rev|w id|n name id expected prov fp|n|n w pool sources refs|n|n]; simpl.
  - apply under_inv; [done|]. intros s [->|(p & _ & Hm & ->)]%pin_ok; [by rewrite with_same|].
    apply pins_inv; [done|]. by intros H%not_retiring.
  - apply under_inv; [done|]. intros s [->|(p & _ & ->)]%unpin_ok; [by rewrite with_same|].
    apply pins_inv; [done|]. intros H. rewrite (inv_pins y Hy p H). set_solver.
  - destruct (_ && _) eqn:E; [|done]. apply andb_true_iff in E as [Hp Hid]. apply bool_decide_eq_true in Hp.
    apply under_inv; [done|]. intros s [->|(p & -> & ->)]%capture_ok; [by rewrite with_same|]. by apply captures_inv.
  - destruct (_ && _) eqn:E; [|done]. apply andb_true_iff in E as [Hp Hid]. apply bool_decide_eq_true in Hp.
    apply under_inv; [done|]. intros s [Hm ->]%record_ok. apply revision_inv; [done|done|done|]. intros p Hpp.
    apply not_retiring, Hm. congruence.
  - destruct (_ && _) eqn:E; [|done]. apply andb_true_iff in E as [Hp Hid]. apply bool_decide_eq_true in Hp.
    apply under_inv; [done|]. intros s [Hm ->]%import_ok. apply revision_inv; [done|done|done|]. intros p Hpp.
    apply not_retiring, Hm. congruence.
  - destruct (unlocked y (pool_of id)); intros [= <-]. by apply files_inv.
  - destruct (sy_publishing y !! n) eqn:En; [done|].
    destruct (start_publication (sy_store y) name id expected prov fp) as [p|e] eqn:Ep; [|by intros [= <-]].
    destruct (snapshot_id id) eqn:Eid; intros [= <-]. apply publishing_inv; [done|]. intros m q Hm.
    apply lookup_insert_Some in Hm as [[<- <-]|[_ Hm]]; [|by apply (inv_publishing y Hy m)].
    unfold start_publication in Ep. apply bind_ok in Ep as ([id' rev] & Hr & [= <-]). simpl.
    destruct (resolve_ok _ _ _ _ Hr) as (Hrev & _ & Hsame). rewrite (Hsame Eid) in *.
    split; [by apply (inv_revisions y Hy id)|left; by eexists].
  - destruct (sy_publishing y !! n) as [p|] eqn:Ep; [|done]. destruct (inv_publishing y Hy n p Ep) as [Hp Hex].
    assert (Hd : inv (y <| sy_publishing := delete n (sy_publishing y) |>)).
    { apply publishing_inv; [done|]. intros m q [_ Hm]%lookup_delete_Some. by apply (inv_publishing y Hy m). }
    apply under_inv; [done|]. intros s [Hm ->]%named_ok.
    assert (Hno : ∀ q, pool_of (pu_id p) = Some q → ¬ retiring y q) by (intros q Hq; apply not_retiring, Hm; congruence).
    refine (names_inv (System (sy_store y) (delete n (sy_publishing y)) (sy_releasing y)) (pu_name p)
      (Alias (pu_id p) _ _) Hd _ Hno).
    destruct Hex as [Hex|(q & Hq & Hr)]; [done|]. by destruct (Hno q Hq).
  - destruct (sy_releasing y !! n) eqn:En; [done|]. destruct (_ && _) eqn:E; [|done].
    apply andb_true_iff in E as [Hl Href]. apply bool_decide_eq_true in Href.
    destruct (plan_release _ _ _ _) as [all|e] eqn:Ep; intros [= <-]; [|done]. by eapply release_inv.
  - destruct (sy_releasing y !! n) as [[w p refs [|r rest]]|] eqn:En; try done; intros [= <-].
    + by eapply done_inv.
    + by eapply remove_inv.
  - intros [= <-]. refine (releasing_subset_inv (System (sy_store y) (delete n (sy_publishing y)) (sy_releasing y)) _ _ (delete_subseteq _ n)).
    apply (publishing_inv y); [done|]. intros m q [_ Hm]%lookup_delete_Some. by apply (inv_publishing y Hy m).
Qed.

Lemma start_invariant : inv start_system.
Proof.
  split; simpl; try (by intros ? ? ?); try (by intros ? ? ? ?).
  - intros p r [x Hx]. unfold captures in Hx. simpl in Hx. by rewrite !lookup_empty in Hx.
  - done.
Qed.

Lemma run_keeps_inv l y y' : inv y → run l y = Some y' → inv y'.
Proof.
  revert y. induction l as [|e l IH]; intros y Hy Hl; simpl in Hl; [by injection Hl as <-|].
  destruct (step e y) as [y1|] eqn:E; [|done]. eapply IH; [by eapply step_keeps_inv|exact Hl].
Qed.

Lemma reachable_invariant y : reachable y → inv y.
Proof. intros [l Hl]. eapply run_keeps_inv; [exact start_invariant|exact Hl]. Qed.

(** * What holds in every history *)

Lemma active_none y pool : (∀ p, pool = Some p → ¬ retiring y p) → check_active (sy_store y) pool = Ok tt.
Proof.
  intros H. destruct pool as [p|]; [|done]. simpl. unfold raise_if. case_bool_decide as E; [|done]. by destruct (H p eq_refl).
Qed.

(** A cache name that was published leads to a saved environment until it is
    published again: no release takes the environment away, whatever dies half-way. *)
Theorem names_lead_somewhere y name a :
  reachable y → st_names (sy_store y) !! name = Some a → snapshot_id name = false → check_name name = Ok tt →
  ∃ rev, resolve (sy_store y) name = Ok (as_id a, rev).
Proof.
  intros Hy%reachable_invariant Ha Hname Hcheck. destruct (inv_names y Hy name a Ha) as [[rev Hrev] Hp]. exists rev.
  unfold resolve. rewrite Hname, Hcheck. simpl. rewrite Ha. simpl. rewrite Hrev. rewrite active_none; [done|].
  intros p Hpp. apply Hp. by rewrite <- (proj1 (inv_revisions y Hy _ _ Hrev)).
Qed.

(** Nothing of [s] is missing in [s']. *)
Definition keeps_all (s s' : store) : Prop :=
  st_files s ⊆ st_files s' ∧ ∀ i, is_Some (st_revisions s !! i) → is_Some (st_revisions s' !! i).

Lemma keeps_all_refl s : keeps_all s s.
Proof. by split. Qed.

Lemma keeps_all_revision s i rev : keeps_all s (s <| st_revisions := <[i := rev]> (st_revisions s) |>).
Proof.
  split; [done|]. intros j Hj. simpl. destruct (decide (j = i)) as [->|]; [rewrite lookup_insert_eq; by eexists|].
  by rewrite lookup_insert_ne.
Qed.

Lemma keeps_all_under pool z x y' s :
  under pool z x = Some y' → sy_store z = s → (∀ s', x = Ok s' → keeps_all s s') → keeps_all s (sy_store y').
Proof.
  unfold under, put. destruct (unlocked z pool); [|done]. intros Hx <- Hs.
  destruct x as [s'|e]; injection Hx as <-; [by apply Hs|apply keeps_all_refl].
Qed.

Lemma step_keeps_all e y y' : step e y = Some y' → (∀ n, e ≠ ERemove n) → keeps_all (sy_store y) (sy_store y').
Proof.
  intros Hstep Hne. destruct e as [pool ws sb|pool ws sb|pool i source|i rev|i rev|w' i|n name i expected prov fp|n|n w' pool sources refs|n|n];
    simpl in Hstep; try (destruct (_ && _); [|done]).
  - eapply keeps_all_under; [exact Hstep|done|]. by intros s [->|(p & _ & _ & ->)]%pin_ok.
  - eapply keeps_all_under; [exact Hstep|done|]. by intros s [->|(p & _ & ->)]%unpin_ok.
  - eapply keeps_all_under; [exact Hstep|done|]. by intros s [->|(p & _ & ->)]%capture_ok.
  - eapply keeps_all_under; [exact Hstep|done|]. intros s [_ ->]%record_ok. apply keeps_all_revision.
  - eapply keeps_all_under; [exact Hstep|done|]. intros s [_ ->]%import_ok. apply keeps_all_revision.
  - destruct (unlocked y (pool_of i)); [|done]. injection Hstep as <-. split; [simpl; set_solver|done].
  - destruct (sy_publishing y !! n); [done|].
    destruct (start_publication (sy_store y) name i expected prov fp); [destruct (snapshot_id i); [|done]|]; by injection Hstep as <-.
  - destruct (sy_publishing y !! n) as [p|]; [|done].
    eapply keeps_all_under; [exact Hstep|done|]. by intros s [_ ->]%named_ok.
  - destruct (sy_releasing y !! n); [done|]. destruct (_ && _); [|done].
    destruct (plan_release (sy_store y) pool sources refs); by injection Hstep as <-.
  - by destruct (Hne n).
  - by injection Hstep as <-.
Qed.

(** What a step takes away *)
Definition takes (s s' : store) (id w : string) : Prop :=
  (is_Some (st_revisions s !! id) ∧ st_revisions s' !! id = None) ∨ ((w, id) ∈ st_files s ∧ (w, id) ∉ st_files s').

Lemma keeps_all_takes s s' id w : keeps_all s s' → ¬ takes s s' id w.
Proof. intros [Hf Hr] [[Hs Hn]|[Hi Hn]]; [apply Hr in Hs as [x Hx]; congruence|set_solver]. Qed.

(** A step that takes a revision or a payload away is a removal of a release. *)
Lemma removed_by_release e y y' id w :
  step e y = Some y' → takes (sy_store y) (sy_store y') id w →
  ∃ n r, sy_releasing y !! n = Some r ∧ (RemoveRevision id ∈ rl_left r ∨ RemoveFiles id ∈ rl_left r).
Proof.
  intros Hstep Hgone. assert (He : (∃ n, e = ERemove n) ∨ ∀ n, e ≠ ERemove n) by (destruct e; eauto; by right).
  destruct He as [[n ->]|Hne].
  - simpl in Hstep. destruct (sy_releasing y !! n) as [[v p refs [|r rest]]|] eqn:En; try done; injection Hstep as <-.
    + by destruct (keeps_all_takes _ _ _ _ (keeps_all_refl (sy_store y)) Hgone).
    + exists n, (Releasing v p refs (r :: rest)). split; [done|]. simpl. unfold takes in Hgone. destruct r as [x|x|]; simpl in Hgone.
      * destruct Hgone as [[[z Hz] Hn]|[Hi Hn]]; [congruence|]. right.
        destruct (decide ((w, id) = (v, x))) as [Heq|Hne]; [injection Heq as _ ->; by left|].
        destruct Hn. apply elem_of_difference. split; [done|]. by intros ?%elem_of_singleton.
      * destruct Hgone as [[Hs Hn]|[Hi Hn]]; [|done]. left. apply lookup_delete_None in Hn as [->|Hn]; [by left|].
        destruct Hs. congruence.
      * destruct Hgone as [[[z Hz] Hn]|[Hi Hn]]; [congruence|done].
  - exfalso. eapply keeps_all_takes; [by eapply step_keeps_all|exact Hgone].
Qed.


(** ** A release is final, finishes, and can be retried *)

Lemma markers_stay e y y' p : step e y = Some y' → retiring y p → retiring y' p.
Proof.
  assert (Hu : ∀ pool z x, under pool z x = Some y' → st_markers (sy_store z) = st_markers (sy_store y) →
    (∀ s, x = Ok s → st_markers s = st_markers (sy_store y)) → retiring y p → retiring y' p).
  { intros pool z x Hx Hz Hs. unfold under, put in Hx. destruct (unlocked z pool); [|done].
    unfold retiring. destruct x as [s|e']; injection Hx as <-; [simpl; by rewrite (Hs s eq_refl)|by rewrite Hz]. }
  intros Hstep. destruct e as [pool ws sb|pool ws sb|pool i source|i rev|i rev|w' i|n name i expected prov fp|n|n w' pool sources refs|n|n];
    simpl in Hstep; try (destruct (_ && _); [|done]).
  - apply (Hu _ _ _ Hstep eq_refl). by intros s [->|(q & _ & _ & ->)]%pin_ok.
  - apply (Hu _ _ _ Hstep eq_refl). by intros s [->|(q & _ & ->)]%unpin_ok.
  - apply (Hu _ _ _ Hstep eq_refl). by intros s [->|(q & _ & ->)]%capture_ok.
  - apply (Hu _ _ _ Hstep eq_refl). by intros s [_ ->]%record_ok.
  - apply (Hu _ _ _ Hstep eq_refl). by intros s [_ ->]%import_ok.
  - destruct (unlocked y (pool_of i)); [|done]. by injection Hstep as <-.
  - destruct (sy_publishing y !! n); [done|].
    destruct (start_publication (sy_store y) name i expected prov fp); [destruct (snapshot_id i); [|done]|]; by injection Hstep as <-.
  - destruct (sy_publishing y !! n) as [q|]; [|done]. apply (Hu _ _ _ Hstep eq_refl). by intros s [_ ->]%named_ok.
  - destruct (sy_releasing y !! n); [done|]. destruct (_ && _); [|done].
    destruct (plan_release (sy_store y) pool sources refs); injection Hstep as <-; [|done]. unfold retiring. simpl.
    intros [m Hm]. destruct (decide (p = pool)) as [->|]; [rewrite lookup_insert_eq|rewrite lookup_insert_ne by done]; by eexists.
  - destruct (sy_releasing y !! n) as [[v q refs [|r rest]]|]; try done; injection Hstep as <-; unfold retiring; simpl.
    + intros [m Hm]. destruct (decide (p = q)) as [->|]; [rewrite lookup_insert_eq|rewrite lookup_insert_ne by done]; by eexists.
    + by destruct r.
  - by injection Hstep as <-.
Qed.

Lemma markers_last l y y' p : run l y = Some y' → retiring y p → retiring y' p.
Proof.
  revert y. induction l as [|e l IH]; intros y Hl; simpl in Hl; [by injection Hl as <-|].
  destruct (step e y) as [y1|] eqn:E; [|done]. intros Hp. by eapply IH; [|eapply markers_stay].
Qed.

Lemma run_reachable l y y' : reachable y → run l y = Some y' → reachable y'.
Proof.
  intros [l0 H0] Hl. exists (l0 ++ l). revert H0. generalize start_system. induction l0 as [|e l0 IH]; intros z H0; simpl in *.
  - by injection H0 as <-.
  - destruct (step e z); [by apply IH|done].
Qed.

(** Once the release of a pool has begun it is final: in every later history no
    snapshot of the pool resolves, under its ID or a name, and no sandbox can pin it. *)
Theorem release_is_final l y y' p :
  reachable y → retiring y p → run l y = Some y' →
  retiring y' p ∧ pins (sy_store y') p = ∅ ∧ (∀ workspace sandbox, is_ok (pin (sy_store y') (Some p) workspace sandbox) = false) ∧
  ∀ reference id rev, resolve (sy_store y') reference = Ok (id, rev) → pool_of id ≠ Some p.
Proof.
  intros Hy Hp Hl. pose proof (markers_last l y y' p Hl Hp) as Hp'.
  pose proof (reachable_invariant y' (run_reachable l y y' Hy Hl)) as Hi.
  split; [done|]. split; [by apply (inv_pins y' Hi)|]. split.
  - intros ws sb. unfold pin. simpl. destruct (validate_pool p); simpl; [|done].
    unfold raise_if. by rewrite bool_decide_eq_true_2.
  - intros reference id rev Hr. destruct (resolve_ok _ _ _ _ Hr) as (Hrev & Hm & _). intros Hpool.
    destruct (inv_revisions y' Hi id rev Hrev) as [Hrp _]. destruct Hp' as [m Hm']. rewrite (Hm p) in Hm' by congruence. done.
Qed.

Lemma release_runs k y n r :
  length (rl_left r) = k → sy_releasing y !! n = Some r →
  ∃ y', run (replicate (S k) (ERemove n)) y = Some y' ∧ sy_releasing y' !! n = None ∧
        st_markers (sy_store y') !! rl_pool r = Some (Marker (rl_references r) true).
Proof.
  revert y r. induction k as [|k IH]; intros y [w p refs rest] Hk Hr; simpl in Hk; destruct rest as [|x rest]; try done.
  - eexists. simpl. rewrite Hr. simpl. split; [done|]. simpl. by rewrite lookup_delete_eq, lookup_insert_eq.
  - destruct (IH (System (remove w p x (sy_store y)) (sy_publishing y) (<[n := Releasing w p refs rest]> (sy_releasing y)))
      (Releasing w p refs rest)) as (y' & Hy' & H1 & H2); [by injection Hk|apply lookup_insert_eq|].
    exists y'. split; [|done]. change (replicate (S (S k)) (ERemove n)) with (ERemove n :: replicate (S k) (ERemove n)).
    simpl. rewrite Hr. exact Hy'.
Qed.

(** A release that is under way, and does not die, finishes after the steps it has
    left: the marker says so and no revision of the pool is left. *)
Theorem release_finishes y n r :
  reachable y → sy_releasing y !! n = Some r →
  ∃ y', run (replicate (S (length (rl_left r))) (ERemove n)) y = Some y' ∧ sy_releasing y' !! n = None ∧
        st_markers (sy_store y') !! rl_pool r = Some (Marker (rl_references r) true) ∧
        ∀ id, is_Some (st_revisions (sy_store y') !! id) → pool_of id ≠ Some (rl_pool r).
Proof.
  intros Hy Hr.
  destruct (release_runs (length (rl_left r)) y n r eq_refl Hr) as (y' & Hy' & H1 & H2). exists y'. repeat split; try done.
  intros id Hid. apply (inv_released y' (reachable_invariant y' (run_reachable _ _ _ Hy Hy')) _ _ H2); done.
Qed.

Lemma plan_retry y p m sources :
  inv y → st_markers (sy_store y) !! p = Some m → validate_pool p = Ok tt →
  (∀ id rev, st_revisions (sy_store y) !! id = Some rev → rv_pool rev = Some p → rv_source rev ∈ sources) →
  (∀ id source, captures (sy_store y) p !! id = Some source → source ∈ sources) →
  ∃ all, plan_release (sy_store y) p sources ∅ = Ok all ∧ mk_references m ⊆ all.
Proof.
  intros Hy Hm Hp Hs Hc. assert (Hret : retiring y p) by (by exists m).
  set (all := ∅ ∪ mk_references m ∪ dom (of_pool (sy_store y) p) ∪ dom (captures (sy_store y) p)).
  assert (Hall : ∀ r, r ∈ all → reference_of p r).
  { intros r. unfold all, of_pool. rewrite !elem_of_union, !elem_of_dom.
    intros [[[Hr|Hr]|[rev [Hr Hrp]%map_lookup_filter_Some]]|Hr]; [set_solver|by apply (inv_markers y Hy p m)| |by apply (inv_captures y Hy)].
    destruct (inv_revisions y Hy r rev Hr) as [He Hid]. split; [by rewrite <- He|done]. }
  exists all. split; [|unfold all; set_solver]. unfold plan_release. rewrite Hp. simpl. rewrite (inv_pins y Hy p Hret). simpl.
  rewrite (bool_decide_eq_true_2 (map_Forall _ (of_pool _ _))).
  2: { intros id rev [Hr Hrp]%map_lookup_filter_Some. by apply (Hs id). }
  simpl. rewrite (bool_decide_eq_true_2 (map_Forall _ (captures _ _))) by (intros id; apply Hc). simpl. rewrite Hm. fold all.
  rewrite (bool_decide_eq_true_2 (set_Forall (λ r, snapshot_id r = true) all)) by (intros r Hr; by apply Hall). simpl.
  rewrite (bool_decide_eq_true_2 (set_Forall (λ r, belongs _ _ r = true) all)).
  2: { intros r Hr. unfold belongs. destruct (st_revisions (sy_store y) !! r) as [rev|] eqn:E; [|done].
       apply bool_decide_eq_true. destruct (inv_revisions y Hy r rev E) as [-> _]. by apply Hall. }
  simpl. rewrite bool_decide_eq_true_2; [done|]. intros name a Ha Hr. destruct (inv_names y Hy name a Ha) as [_ Hno].
  apply (Hno p); [by apply Hall|done].
Qed.

(** A release that died can be retried: whatever it had already removed, asked again
    for the same sources it is accepted, and finishes. *)
Theorem release_retried y worker p sources :
  reachable y → retiring y p → unlocked y (Some p) = true → validate_pool p = Ok tt →
  (∀ id rev, st_revisions (sy_store y) !! id = Some rev → rv_pool rev = Some p → rv_source rev ∈ sources) →
  (∀ id source, captures (sy_store y) p !! id = Some source → source ∈ sources) →
  ∃ n k y' m, run (ERelease n worker p sources ∅ :: replicate k (ERemove n)) y = Some y' ∧
    st_markers (sy_store y') !! p = Some m ∧ mk_released m = true.
Proof.
  intros Hy [m Hm] Hlock Hp Hs Hc. destruct (plan_retry y p m sources (reachable_invariant y Hy) Hm Hp Hs Hc) as (all & Hall & _).
  set (n := fresh (dom (sy_releasing y))). assert (Hn : sy_releasing y !! n = None) by (apply not_elem_of_dom, is_fresh).
  set (y1 := System ((sy_store y) <| st_markers := <[p := Marker all false]> (st_markers (sy_store y)) |>) (sy_publishing y)
    (<[n := Releasing worker p all (removals all)]> (sy_releasing y))).
  destruct (release_runs _ y1 n (Releasing worker p all (removals all)) eq_refl (lookup_insert_eq _ _ _)) as (y' & Hy' & _ & H2).
  exists n, (S (length (removals all))), y', (Marker all true). split; [|done].
  cbn [run]. replace (step (ERelease n worker p sources ∅) y) with (Some y1); [exact Hy'|].
  unfold step. rewrite Hn, Hlock, bool_decide_eq_true_2 by set_solver. cbn [andb]. by rewrite Hall.
Qed.

End Shared.


(** * Witnesses *)

Definition ex_pool : string := "pool-0123456789abcdef0123456789abcdef".
Definition ex_kept : string := "snap-00000000000000000000000000000000".
Definition ex_private : string := "snap-0123456789abcdef0123456789abcdef".

Definition ex_pool_of (id : string) : option string := if decide (id = ex_private) then Some ex_pool else None.

Definition ex_rev (id : string) : revision := Revision (ex_pool_of id) "sandbox-1" ("digest of " ++ id).

(** Two snapshots, one of a pool that a sandbox used; the other is published. *)
Definition ex_history : list event :=
  [EPin (Some ex_pool) "workspace" "sandbox-1"; ECapture (Some ex_pool) ex_private "sandbox-1";
   ERecord ex_private (ex_rev ex_private); EFile "worker" ex_private; ERecord ex_kept (ex_rev ex_kept);
   EPublish 1 "base" ex_kept None "captured" None; ECommit 1; EUnpin (Some ex_pool) "workspace" "sandbox-1"].

Definition ex_begin : event := ERelease 7 "worker" ex_pool {["sandbox-1"]} {[ex_private]}.

Definition after (l : list event) : system := default start_system (run ex_pool_of l start_system).

Lemma after_reachable l : is_Some (run ex_pool_of l start_system) → reachable ex_pool_of (after l).
Proof. intros [y Hy]. exists l. unfold after. by rewrite Hy. Qed.

Definition ex_used : system := after ex_history.
Definition ex_dying : system := after (ex_history ++ [ex_begin; ERemove 7]).
Definition ex_half : system := after (ex_history ++ [ex_begin; ERemove 7; ERemove 7; EDie 7]).

Lemma ex_used_reachable : reachable ex_pool_of ex_used.
Proof. apply after_reachable. vm_compute. eauto. Qed.

Lemma ex_dying_reachable : reachable ex_pool_of ex_dying.
Proof. apply after_reachable. vm_compute. eauto. Qed.

Lemma ex_half_reachable : reachable ex_pool_of ex_half.
Proof. apply after_reachable. vm_compute. eauto. Qed.

(** The published name leads to its snapshot. *)
Lemma names_lead_somewhere_witness : ∃ rev, resolve (sy_store ex_half) "base" = Ok (ex_kept, rev).
Proof.
  apply (names_lead_somewhere ex_pool_of ex_half "base" (Alias ex_kept "captured" None) ex_half_reachable);
    vm_compute; reflexivity.
Defined.


(** A release that died: the pool stays closed. *)
Lemma release_is_final_witness :
  retiring ex_half ex_pool ∧ pins (sy_store ex_half) ex_pool = ∅ ∧
  (∀ workspace sandbox, is_ok (pin (sy_store ex_half) (Some ex_pool) workspace sandbox) = false) ∧
  ∀ reference id rev, resolve (sy_store ex_half) reference = Ok (id, rev) → ex_pool_of id ≠ Some ex_pool.
Proof.
  apply (release_is_final ex_pool_of [ERemove 7; EDie 7; EPin (Some ex_pool) "other" "sandbox-2"] ex_dying).
  - exact ex_dying_reachable.
  - vm_compute. eauto.
  - vm_compute. reflexivity.
Defined.

(** The release that died with the revision already gone is accepted again and finishes. *)
Lemma release_retried_witness :
  ∃ n k y' m, run ex_pool_of (ERelease n "worker" ex_pool {["sandbox-1"]} ∅ :: replicate k (ERemove n)) ex_half = Some y' ∧
    st_markers (sy_store y') !! ex_pool = Some m ∧ mk_released m = true.
Proof.
  apply (release_retried ex_pool_of ex_half "worker" ex_pool {["sandbox-1"]} ex_half_reachable).
  - vm_compute. eauto.
  - vm_compute. reflexivity.
  - vm_compute. reflexivity.
  - assert (H : map_Forall (λ _ rev, rv_pool rev = Some ex_pool → rv_source rev ∈ ({["sandbox-1"]} : gset string))
      (st_revisions (sy_store ex_half))) by (apply (proj1 (bool_decide_eq_true _)); vm_compute; reflexivity).
    exact H.
  - assert (H : map_Forall (λ _ source, source ∈ ({["sandbox-1"]} : gset string)) (captures (sy_store ex_half) ex_pool))
      by (apply (proj1 (bool_decide_eq_true _)); vm_compute; reflexivity).
    exact H.
Defined.
