(* ===== verification/InputEvents.v ===== *)
(** Input for a desktop ([scripts/fast_io.py]): mouse and keyboard actions become a
    batch of events for the helper inside the guest, and the names of keys come from
    X11's definitions. *)

From S2P Require Import Prelude OrderedDict Values Wire.

#[local] Open Scope Z_scope.

(** * Names of keys *)

(** The part of a line after as many characters as [p] accepts, and that part *)
Definition span {A} (p : A → bool) (l : list A) : list A * list A :=
  (take (length l - length (drop_while p l)) l, drop_while p l).

Definition after_prefix (p l : list ascii) : option (list ascii) :=
  if bool_decide (take (length p) l = p) then Some (drop (length p) l) else None.

Definition is_word (c : ascii) : bool := is_alnum c || (code c =? 95).

Definition hex_code (c : ascii) : option Z :=
  if is_digit c then Some (code c - 48)
  else if (97 <=? code c) && (code c <=? 102) then Some (code c - 87)
  else if (65 <=? code c) && (code c <=? 70) then Some (code c - 55)
  else None.

Definition hex_number (l : list ascii) : Z := foldl (λ n c, n * 16 + default 0 (hex_code c)) 0 l.

(** [0x[0-9a-fA-F]+] *)
Definition hex_literal (l : list ascii) : option (Z * list ascii) :=
  l ← after_prefix (chars "0x") l;
  let '(d, l) := span (λ c, bool_decide (is_Some (hex_code c))) l in
  if bool_decide (d = []) then None else Some (hex_number d, l).

(** [\s+] *)
Definition spaces (l : list ascii) : option (list ascii) :=
  let '(s, l) := span is_space l in if bool_decide (s = []) then None else Some l.

Definition key_prefixes : list string := ["XF86XK_"; "SunXK_"; "hpXK_"; "osfXK_"; "apXK_"; "XK_"; "DXK_"].

(** One line of a header: [prefix[:-3] + name] and its value *)
Definition key_definition (line : string) : option (string * Z) :=
  l ← after_prefix (chars "#") (drop_while is_space (chars line));
  l ← after_prefix (chars "define") (drop_while is_space l);
  l ← spaces l;
  p ← list_find (λ p, is_Some (after_prefix (chars p) l)) key_prefixes;
  let vendor := chars p.2 in
  l ← after_prefix vendor l;
  let '(name, l) := span is_word l in
  _ ← guard (name ≠ []);
  l ← spaces l;
  value ← match hex_literal l with
          | Some (value, _) => Some value
          | None =>
              l ← after_prefix (chars "_EVDEVK(") l;
              x ← hex_literal (drop_while is_space l);
              _ ← after_prefix (chars ")") (drop_while is_space x.2);
              Some (x.1 + 0x10081000)
          end;
  Some (of_chars (take (length vendor - 3) vendor ++ name), value).

(** [names.setdefault(key, value)] *)
Definition setdefault {V} (d : list (string * V)) (x : string * V) : list (string * V) :=
  if bool_decide (is_Some (od_get x.1 d)) then d else od_set x.1 x.2 d.

(** [read_key_names], of the lines of the files that exist, in the order of the code *)
Definition read_key_names (files : list (list string)) : list (string * Z) :=
  foldl (λ names lines, foldl (λ names line, from_option (setdefault names) names (key_definition line)) names lines) [] files.

Definition KEYS : list (string * string) :=
  [("ctrl", "Control_L"); ("control", "Control_L"); ("shift", "Shift_L");
   ("alt", "Alt_L"); ("super", "Super_L"); ("meta", "Super_L"); ("win", "Super_L");
   ("enter", "Return"); ("return", "Return"); ("esc", "Escape"); ("escape", "Escape");
   ("tab", "Tab"); ("space", "space"); ("backspace", "BackSpace"); ("delete", "Delete");
   ("insert", "Insert"); ("home", "Home"); ("end", "End"); ("pageup", "Prior");
   ("pagedown", "Next"); ("left", "Left"); ("right", "Right"); ("up", "Up"); ("down", "Down");
   ("capslock", "Caps_Lock"); ("print", "Print"); ("pause", "Pause")]%string.

Definition quote : ascii := ascii_of_N 34.

(** The characters that need Shift, and their keys *)
Definition SHIFTED : list (ascii * ascii) :=
  zip (chars "~!@#$%^&*()_+{}|:" ++ [quote] ++ chars "<>?") (chars "`1234567890-=[]\;',./").

(** [str.isdigit] *)
Definition isdigit (c : ascii) : bool := is_digit c || bool_decide (code c ∈ [178; 179; 185]).

(** * Events *)

Record event := Event { ev_kind : Z; ev_code : Z; ev_x : Z; ev_y : Z }.

#[export] Instance event_eq_dec : EqDecision event.
Proof. solve_decision. Defined.

(** [key_names] are the definitions that were read, [x11] is [XStringToKeysym] of the
    host's library; 0 stands for no symbol, and for no library. *)
Section Keyboard.

Variable key_names : list (string * Z).
Variable x11 : string → Z.

Definition keysym (key : value) : res Z :=
  match key with
  | Text s =>
      match chars s with
      | [] => raise ValueError "key names must be nonempty strings"
      | [c] => Ok (if code c <? 256 then code c else Z.lor 0x01000000 (code c))
      | c :: rest =>
          let name := if bool_decide (lower_char c = "f"%char) && forallb isdigit rest then str_upper s
                      else default s (od_get (str_lower s) KEYS) in
          match od_get name key_names with
          | Some value => Ok value
          | None => if x11 name =? 0 then raise ValueError "unknown key: " else Ok (x11 name)
          end
      end
  | _ => raise ValueError "key names must be nonempty strings"
  end.

Definition key_event (key : value) (down : bool) : res (list event) :=
  symbol ← keysym key;
  Ok [Event (if down then 4 else 5) symbol 0 0].

Definition coordinate (v : value) : option Z :=
  match v with Num n => if (n <? 0) || (32767 <? n) then None else Some n | _ => None end.

Definition motion (position : value) : res (list event) :=
  match position with
  | Items _ [x; y] =>
      match coordinate x, coordinate y with
      | Some x, Some y => Ok [Event 1 0 x y]
      | _, _ => raise ValueError "coordinates must be integers in 0..32767"
      end
  | _ => raise ValueError "position requires [x, y]"
  end.

Definition button (number : Z) (down : bool) : list event := [Event (if down then 2 else 3) number 0 0].
Definition press (number : Z) : list event := button number true ++ button number false.

(** The events of a loop whose body may raise *)
Definition each {A} (f : A → res (list event)) (l : list A) : res (list event) :=
  events ← res_map f l; Ok (concat events).

(** [round(n / 8)]: the quotient is exact, and a half goes to the even neighbour. *)
Definition round8 (n : Z) : Z :=
  let q := n / 8 in
  let r := n mod 8 in
  if (4 <? r) || ((r =? 4) && Z.odd q) then q + 1 else q.

Definition point (position : value) : Z * Z :=
  match position with Items _ [Num x; Num y] => (x, y) | _ => (0, 0) end.

(** One leg of a drag: [motion(end)] only checks. *)
Definition drag_leg (leg : value * value) : res (list event) :=
  _ ← motion leg.2;
  let '(sx, sy) := point leg.1 in
  let '(ex, ey) := point leg.2 in
  each (λ step, motion (Items false [Num (round8 (8 * sx + (ex - sx) * step)); Num (round8 (8 * sy + (ey - sy) * step))]))
    [1; 2; 3; 4; 5; 6; 7; 8].

Definition drag (kind : string) (v : value) : res (list event) :=
  match v with
  | Items _ (first :: second :: more) =>
      let points := first :: second :: more in
      let number := if str_startswith "left" kind then 1 else 3 in
      start ← motion first;
      legs ← each drag_leg (zip points (tail points));
      Ok (start ++ button number true ++ legs ++ button number false)
  | _ => raise ValueError "drag requires at least two positions"
  end.

(** The ticks of one direction in one step of a scroll *)
Definition scroll_ticks (steps step ticks number : Z) : list event :=
  if step * Z.abs ticks / steps <? (step + 1) * Z.abs ticks / steps then press number else [].

Definition scroll_events (dx dy : Z) : list event :=
  let steps := Z.max (Z.abs dx) (Z.abs dy) in
  concat (map (λ step : nat,
    scroll_ticks steps (Z.of_nat step) dx (if 0 <? dx then 7 else 6) ++
    scroll_ticks steps (Z.of_nat step) dy (if 0 <? dy then 5 else 4)) (seq 0 (Z.to_nat steps))).

Definition tick_count (v : value) : option Z :=
  match v with Num n => if 1000 <? Z.abs n then None else Some n | _ => None end.

Definition scroll (v : value) : res (list event) :=
  let '(dx, dy) := match v with
                   | Dict d => if forallb (λ k, bool_decide (k ∈ ["dx"; "dy"]%string)) d.*1
                               then (default (Num 0) (od_get "dx" d), default (Num 0) (od_get "dy" d)) else (Num 0, v)
                   | _ => (Num 0, v)
                   end in
  match tick_count dx, tick_count dy with
  | Some dx, Some dy => Ok (scroll_events dx dy)
  | _, _ => raise ValueError "scroll requires an integer or {dx, dy} ticks in -1000..1000"
  end.

(** [entry.rsplit('_', 1)] *)
Definition rsplit (s : string) : option (string * string) :=
  match reverse (split_chars "_"%char (chars s)) with
  | last :: b :: before => Some (str_join "_" (map of_chars (reverse (b :: before))), of_chars last)
  | _ => None
  end.

Definition BUTTONS : list (string * Z) := [("left", 1); ("middle", 2); ("right", 3); ("back", 8); ("forward", 9)]%string.

Definition button_entry (entry : value) : res (list event) :=
  match entry with
  | Text s =>
      match rsplit s with
      | Some (name, direction) =>
          match od_get name BUTTONS with
          | Some number =>
              if bool_decide (direction ∈ ["down"; "up"]%string) then Ok (button number (bool_decide (direction = "down"%string)))
              else raise ValueError "buttons require left/middle/right/back/forward_down/up"
          | None => raise ValueError "buttons require left/middle/right/back/forward_down/up"
          end
      | None => raise ValueError "buttons require left/middle/right/back/forward_down/up"
      end
  | Bytes _ _ => raise TypeError "a bytes-like object is required"
  | _ => raise ValueError "buttons require left/middle/right/back/forward_down/up"
  end.

Definition clicks : list (string * (Z * nat)) :=
  [("left_click", (1, 1%nat)); ("middle_click", (2, 1%nat)); ("right_click", (3, 1%nat)); ("back_click", (8, 1%nat));
   ("forward_click", (9, 1%nat)); ("double_click", (1, 2%nat)); ("triple_click", (1, 3%nat))]%string.

Definition one_or_more (v : value) : res (list value) :=
  match v with Text _ => Ok [v] | _ => iterate v end.

Definition mouse_action (action : string * value) : res (list event) :=
  let '(kind, v) := action in
  if bool_decide (kind = "move"%string) then motion v
  else match od_get kind clicks with
  | Some (number, count) => start ← motion v; Ok (start ++ concat (replicate count (press number)))
  | None =>
      if bool_decide (kind ∈ ["left_click_drag"; "right_click_drag"]%string) then drag kind v
      else if bool_decide (kind = "scroll"%string) then scroll v
      else if bool_decide (kind = "buttons"%string) then entries ← one_or_more v; each button_entry entries
      else raise ValueError "unknown mouse action: "
  end.

(** ** Text *)

Definition controls : list (ascii * string) :=
  [(ascii_of_N 10, "Return"); (ascii_of_N 13, "Return"); (ascii_of_N 9, "Tab"); (ascii_of_N 8, "BackSpace")]%string.

Definition find_char {A} (c : ascii) (l : list (ascii * A)) : option A :=
  snd <$> head (filter (λ p, p.1 = c) l).

Definition type_char (c : ascii) : res (list event) :=
  match find_char c controls with
  | Some name =>
      down ← key_event (Text name) true; up ← key_event (Text name) false; Ok (down ++ up)
  | None =>
      let shift := bool_decide (is_Some (find_char c SHIFTED)) || is_upper c in
      let key := Text (String (default (if shift then lower_char c else c) (find_char c SHIFTED)) "") in
      before ← (if shift then key_event (Text "shift") true else Ok []);
      down ← key_event key true;
      up ← key_event key false;
      behind ← (if shift then key_event (Text "shift") false else Ok []);
      Ok (before ++ down ++ up ++ behind)
  end.

Definition keyboard_action (action : string * value) : res (list event) :=
  let '(kind, v) := action in
  if bool_decide (kind = "text"%string) then
    match v with
    | Text s => if 2048 <? Z.of_nat (String.length s) then raise ValueError "text must contain at most 2048 characters"
                else each type_char (chars s)
    | _ => raise ValueError "text must contain at most 2048 characters"
    end
  else if bool_decide (kind ∈ ["keys"; "keys_down"; "keys_up"]%string) then
    values ← match v with
             | Text _ => Ok [v]
             | Items _ l => Ok l
             | _ => raise ValueError "keys require a string or list of strings"
             end;
    downs ← (if bool_decide (kind = "keys_up"%string) then Ok [] else each (λ key, key_event key true) values);
    ups ← (if bool_decide (kind = "keys_down"%string) then Ok [] else each (λ key, key_event key false) (reverse values));
    Ok (downs ++ ups)
  else raise ValueError "unknown keyboard action: ".

(** One dictionary of the batch; [events] are those before it. *)
Definition item_events (events : list event) (item : value) : res (list event) :=
  match item with
  | Dict d =>
      _ ← raise_if (negb (forallb (λ k, bool_decide (k ∈ ["mouse"; "keyboard"]%string)) d.*1)) ValueError
            "actions support mouse and keyboard only";
      match default (Dict []) (od_get "mouse" d), default (Dict []) (od_get "keyboard" d) with
      | Dict mouse, Dict keyboard =>
          pointed ← each mouse_action mouse;
          typed ← each keyboard_action keyboard;
          let events := events ++ pointed ++ typed in
          if 8192 <? Z.of_nat (length events) then raise ValueError "action exceeds 8192 input events" else Ok events
      | _, _ => raise ValueError "mouse and keyboard must be dictionaries"
      end
  | _ => raise ValueError "actions support mouse and keyboard only"
  end.

Definition actions_of (action : value) : list value :=
  match action with Items false l => l | _ => [action] end.

Definition events_for_action (action : value) : res (list event) :=
  res_fold item_events [] (actions_of action).

End Keyboard.

(** * Batches *)

Lemma res_map_ok {A B} (f : A → res B) l r : res_map f l = Ok r → Forall2 (λ x y, f x = Ok y) l r.
Proof.
  revert r. induction l as [|x l IH]; intros r H; simpl in H; [by injection H as <-|].
  apply bind_ok in H as (y & Hy & H). apply bind_ok in H as (ys & Hys & H). injection H as <-. auto.
Qed.

Lemma each_ok {A} (f : A → res (list event)) l es :
  each f l = Ok es → ∃ ess, es = concat ess ∧ Forall2 (λ x e, f x = Ok e) l ess.
Proof. intros (ess & Hess & [= <-])%bind_ok. exists ess. split; [done|by apply res_map_ok]. Qed.

Lemma each_forall {A} (P : event → Prop) (f : A → res (list event)) l es :
  (∀ x e, x ∈ l → f x = Ok e → Forall P e) → each f l = Ok es → Forall P es.
Proof.
  intros Hf (ess & -> & H)%each_ok. apply Forall_concat. induction H as [|x e l ess Hx H IH]; [done|].
  constructor; [apply (Hf x); [left|done]|]. apply IH. intros y e' Hy. apply Hf. by right.
Qed.

Lemma res_map_all {A B} (f : A → res B) (g : A → B) l : (∀ x, x ∈ l → f x = Ok (g x)) → res_map f l = Ok (map g l).
Proof.
  induction l as [|x l IH]; intros Hf; [done|]. simpl. rewrite (Hf x) by left. simpl.
  rewrite IH; [done|]. intros y Hy. apply Hf. by right.
Qed.

Lemma each_all {A} (f : A → res (list event)) (g : A → list event) l :
  (∀ x, x ∈ l → f x = Ok (g x)) → each f l = Ok (concat (map g l)).
Proof. intros Hf. unfold each. by rewrite (res_map_all f g). Qed.

(** ** What is held down *)

Record held := Held { hd_buttons : gset Z; hd_keys : gset Z }.

Definition nothing_held : held := Held ∅ ∅.

Definition press_event (h : held) (e : event) : held :=
  let '(Event kind n _ _) := e in
  if kind =? 2 then Held ({[n]} ∪ hd_buttons h) (hd_keys h)
  else if kind =? 3 then Held (hd_buttons h ∖ {[n]}) (hd_keys h)
  else if kind =? 4 then Held (hd_buttons h) ({[n]} ∪ hd_keys h)
  else if kind =? 5 then Held (hd_buttons h) (hd_keys h ∖ {[n]})
  else h.

Definition play (h : held) (events : list event) : held := foldl press_event h events.

(** The events hold down at most [B] and [K] in the end. *)
Definition holds_at_most (B K : gset Z) (events : list event) : Prop :=
  ∀ h, hd_buttons (play h events) ⊆ hd_buttons h ∪ B ∧ hd_keys (play h events) ⊆ hd_keys h ∪ K.

Lemma holds_app B K B' K' a b :
  holds_at_most B K a → holds_at_most B' K' b → holds_at_most (B ∪ B') (K ∪ K') (a ++ b).
Proof.
  intros Ha Hb h. unfold play. rewrite foldl_app. destruct (Ha h) as [H1 H2], (Hb (play h a)) as [H3 H4].
  unfold play in *. set_solver.
Qed.

Lemma holds_nil : holds_at_most ∅ ∅ [].
Proof. intros h. set_solver. Qed.

Lemma holds_mono B K B' K' es : B ⊆ B' → K ⊆ K' → holds_at_most B K es → holds_at_most B' K' es.
Proof. intros ?? H h. destruct (H h). set_solver. Qed.

Lemma holds_both a b : holds_at_most ∅ ∅ a → holds_at_most ∅ ∅ b → holds_at_most ∅ ∅ (a ++ b).
Proof. intros Ha Hb. eapply holds_mono; [..|by apply holds_app]; set_solver. Qed.

Lemma holds_concat ess : Forall (holds_at_most ∅ ∅) ess → holds_at_most ∅ ∅ (concat ess).
Proof. induction 1 as [|es ess H _ IH]; [apply holds_nil|by apply holds_both]. Qed.

Lemma holds_each {A} (B K : A → gset Z) (f : A → res (list event)) l es :
  (∀ x e, x ∈ l → f x = Ok e → holds_at_most (B x) (K x) e) → each f l = Ok es →
  holds_at_most (⋃ (B <$> l)) (⋃ (K <$> l)) es.
Proof.
  intros Hf (ess & -> & H)%each_ok. induction H as [|x e l ess Hx H IH]; [apply holds_nil|].
  simpl. apply holds_app; [apply Hf; [left|done]|]. apply IH. intros y e' Hy. apply Hf. by right.
Qed.

Lemma holds_each_none {A} (f : A → res (list event)) l es :
  (∀ x e, x ∈ l → f x = Ok e → holds_at_most ∅ ∅ e) → each f l = Ok es → holds_at_most ∅ ∅ es.
Proof.
  intros Hf (ess & -> & H)%each_ok. apply holds_concat. induction H as [|x e l ess Hx H IH]; constructor.
  - apply (Hf x); [left|done].
  - apply IH. intros y e' Hy. apply Hf. by right.
Qed.

(** Between a press and its release, events that hold nothing *)
Lemma holds_around n es : holds_at_most ∅ ∅ es → holds_at_most ∅ ∅ (button n true ++ es ++ button n false).
Proof.
  intros H h. unfold play. rewrite !foldl_app. simpl.
  destruct (H (press_event h (Event 2 n 0 0))) as [H1 H2]. simpl in H1, H2. unfold play in *. set_solver.
Qed.

Lemma holds_press n : holds_at_most ∅ ∅ (press n).
Proof. apply (holds_around n []), holds_nil. Qed.

Lemma holds_motion v es : motion v = Ok es → holds_at_most ∅ ∅ es.
Proof.
  unfold motion. destruct v as [| | | | |t [|x [|y [|]]]|]; try done.
  destruct (coordinate x), (coordinate y); try done. intros [= <-] h. simpl. set_solver.
Qed.

Section Theorems.

Variable key_names : list (string * Z).
Variable x11 : string → Z.

Abbreviation symbol := (keysym key_names x11).

Lemma key_event_ok key down es :
  key_event key_names x11 key down = Ok es → ∃ n, symbol key = Ok n ∧ es = [Event (if down then 4 else 5) n 0 0].
Proof. intros (n & Hn & [= <-])%bind_ok. by exists n. Qed.

Lemma play_keys down h ns :
  play h (map (λ n, Event (if down : bool then 4 else 5) n 0 0) ns) =
    Held (hd_buttons h) (if down then list_to_set ns ∪ hd_keys h else hd_keys h ∖ list_to_set ns).
Proof.
  revert h. induction ns as [|n ns IH]; intros [B K]; [destruct down; simpl; f_equal; set_solver|].
  simpl. rewrite IH. destruct down; simpl; f_equal; set_solver.
Qed.

Lemma each_keys down l es :
  each (λ key, key_event key_names x11 key down) l = Ok es →
  ∃ ns, Forall2 (λ key n, symbol key = Ok n) l ns ∧ es = map (λ n, Event (if down : bool then 4 else 5) n 0 0) ns.
Proof.
  intros (ess & -> & H)%each_ok. induction H as [|key e l ess Hk _ (ns & Hns & IH)]; [by exists []|].
  apply key_event_ok in Hk as (n & Hn & ->). exists (n :: ns). split; [by constructor|]. simpl. by rewrite IH.
Qed.

Lemma symbols_unique l ns ns' :
  Forall2 (λ key n, symbol key = Ok n) l ns → Forall2 (λ key n, symbol key = Ok n) (reverse l) ns' → ns' = reverse ns.
Proof.
  intros H1 H2%Forall2_reverse. rewrite reverse_involutive in H2.
  enough (reverse ns' = ns) as <- by by rewrite reverse_involutive. revert H2. generalize (reverse ns'). clear ns'.
  induction H1 as [|key n l ns Hk _ IH]; intros ms H2; inversion H2 as [|? m ? ms' Hm Hms]; subst; [done|].
  rewrite Hk in Hm. injection Hm as <-. f_equal. by apply IH.
Qed.

(** What an action asks to hold down *)
Definition down_button (entry : value) : gset Z :=
  match button_entry entry with Ok [Event 2 n _ _] => {[n]} | _ => ∅ end.

Definition down_key (key : value) : gset Z := match symbol key with Ok n => {[n]} | Err _ => ∅ end.

Definition mouse_downs (action : string * value) : gset Z :=
  if bool_decide (action.1 = "buttons"%string)
  then match one_or_more action.2 with Ok entries => ⋃ (down_button <$> entries) | Err _ => ∅ end else ∅.

Definition keyboard_downs (action : string * value) : gset Z :=
  if bool_decide (action.1 = "keys_down"%string)
  then match action.2 with Text _ => down_key action.2 | Items _ l => ⋃ (down_key <$> l) | _ => ∅ end else ∅.

Definition part_of (name : string) (item : value) : list (string * value) :=
  match item with Dict d => match od_get name d with Some (Dict part) => part | _ => [] end | _ => [] end.

Definition buttons_down (action : value) : gset Z :=
  ⋃ ((λ item, ⋃ (mouse_downs <$> part_of "mouse" item)) <$> actions_of action).

Definition keys_down (action : value) : gset Z :=
  ⋃ ((λ item, ⋃ (keyboard_downs <$> part_of "keyboard" item)) <$> actions_of action).

Lemma holds_drag kind v es : drag kind v = Ok es → holds_at_most ∅ ∅ es.
Proof.
  unfold drag. destruct v as [| | | | |t [|first [|second more]]|]; try done.
  intros (start & Hs & (legs & Hl & [= <-])%bind_ok)%bind_ok. apply holds_both; [by eapply holds_motion|].
  apply holds_around. revert Hl. apply holds_each_none. intros [a b] e _. unfold drag_leg.
  intros (? & _ & He)%bind_ok. destruct (point _) as [sx sy], (point _) as [ex ey].
  revert He. apply holds_each_none. intros step e' _. apply holds_motion.
Qed.

Lemma holds_scroll dx dy : holds_at_most ∅ ∅ (scroll_events dx dy).
Proof.
  apply holds_concat, Forall_map, Forall_true. intros step. unfold scroll_ticks.
  apply holds_both; (destruct (_ <? _); [apply holds_press|apply holds_nil]).
Qed.

Lemma holds_buttons entry es : button_entry entry = Ok es → holds_at_most (down_button entry) ∅ es.
Proof.
  unfold down_button, button_entry. destruct entry as [| | |s| | |]; try done.
  destruct (rsplit s) as [[name direction]|]; [|done]. destruct (od_get name BUTTONS) as [n|]; [|done].
  destruct (bool_decide (direction ∈ _)); [|done]. intros [= <-] h. destruct (bool_decide _); simpl; set_solver.
Qed.

Lemma holds_mouse action es : mouse_action action = Ok es → holds_at_most (mouse_downs action) ∅ es.
Proof.
  destruct action as [kind v]. unfold mouse_action, mouse_downs. cbn [fst snd].
  destruct (bool_decide (kind = "move"%string)) eqn:Em.
  { intros H%holds_motion. by eapply holds_mono; [..|exact H]. }
  destruct (od_get kind clicks) as [[n k]|].
  { intros (start & Hs & [= <-])%bind_ok. eapply holds_mono with ∅ ∅; [done..|]. apply holds_both; [by eapply holds_motion|].
    apply holds_concat, Forall_replicate, holds_press. }
  destruct (bool_decide (kind ∈ _)); [intros H%holds_drag; by eapply holds_mono; [..|exact H]|].
  destruct (bool_decide (kind = "scroll"%string)).
  { unfold scroll. destruct (match v with Dict d => _ | _ => _ end) as [dx dy].
    destruct (tick_count dx), (tick_count dy); try done. intros [= <-]. eapply holds_mono; [..|apply holds_scroll]; done. }
  destruct (bool_decide (kind = "buttons"%string)); [|done].
  intros (entries & He & H)%bind_ok. rewrite He.
  eapply holds_mono; [..|eapply (holds_each down_button (λ _, ∅)); [|exact H]].
  - done.
  - clear. induction entries; set_solver.
  - intros x e _. apply holds_buttons.
Qed.
Lemma holds_char c es : type_char key_names x11 c = Ok es → holds_at_most ∅ ∅ es.
Proof.
  unfold type_char. destruct (find_char c controls) as [name|].
  { intros (down & (n & Hn & ->)%key_event_ok & (up & (n' & Hn' & ->)%key_event_ok & [= <-])%bind_ok)%bind_ok h.
    rewrite Hn in Hn'. injection Hn' as <-. simpl. set_solver. }
  intros (before & Hb & (down & (n & Hn & ->)%key_event_ok & (up & (n' & Hn' & ->)%key_event_ok & (behind & He & [= <-])%bind_ok)%bind_ok)%bind_ok)%bind_ok.
  rewrite Hn in Hn'. injection Hn' as <-. destruct (_ || _).
  - apply key_event_ok in Hb as (m & Hm & ->), He as (m' & Hm' & ->). rewrite Hm in Hm'. injection Hm' as <-.
    intros h. simpl. set_solver.
  - injection Hb as <-. injection He as <-. intros h. simpl. set_solver.
Qed.

Lemma downs_of l ns : Forall2 (λ key n, symbol key = Ok n) l ns → list_to_set ns ⊆ ⋃ (down_key <$> l).
Proof.
  induction 1 as [|key n l ns Hk _ IH]; [set_solver|]. simpl. unfold down_key at 1. rewrite Hk. set_solver.
Qed.

Lemma holds_keyboard action es :
  keyboard_action key_names x11 action = Ok es → holds_at_most ∅ (keyboard_downs action) es.
Proof.
  destruct action as [kind v]. unfold keyboard_action, keyboard_downs. cbn [fst snd].
  destruct (bool_decide (kind = "text"%string)) eqn:Et.
  { destruct v as [| | |s| | |]; try done. destruct (2048 <? _); [done|]. intros H.
    eapply holds_mono with ∅ ∅; [done..|]. revert H. apply holds_each_none. intros c e _. apply holds_char. }
  destruct (bool_decide (kind ∈ _)); [|done].
  intros (values & Hv & (downs & Hd & (ups & Hu & [= <-])%bind_ok)%bind_ok)%bind_ok.
  destruct (bool_decide (kind = "keys_up"%string)) eqn:Eup.
  { injection Hd as <-. assert (kind = "keys_up"%string) as -> by by apply bool_decide_eq_true in Eup.
    apply each_keys in Hu as (ns & _ & ->). intros h. simpl app. rewrite (play_keys false). simpl. set_solver. }
  apply each_keys in Hd as (ns & Hns & ->). destruct (bool_decide (kind = "keys_down"%string)).
  - injection Hu as <-. rewrite app_nil_r. intros h. rewrite (play_keys true). simpl. apply downs_of in Hns.
    destruct v as [| | |s| |t l|]; try done; injection Hv as <-; simpl in Hns |- *; set_solver.
  - apply each_keys in Hu as (ns' & Hns' & ->). rewrite (symbols_unique _ _ _ Hns Hns').
    intros h. unfold play. rewrite foldl_app. fold (play h (map (λ n, Event 4 n 0 0) ns)). rewrite (play_keys true).
    match goal with |- context [foldl press_event ?h0 ?es] => fold (play h0 es) end. rewrite (play_keys false). simpl.
    rewrite (list_to_set_perm_L (reverse ns) ns) by apply reverse_Permutation. set_solver.
Qed.

Lemma holds_item before item es :
  item_events key_names x11 before item = Ok es →
  ∃ more, es = before ++ more ∧ Z.of_nat (length es) ≤ 8192 ∧
    holds_at_most (⋃ (mouse_downs <$> part_of "mouse" item)) (⋃ (keyboard_downs <$> part_of "keyboard" item)) more.
Proof.
  unfold item_events, part_of. destruct item as [| | | | | |d]; try done. intros (? & _ & H)%bind_ok.
  assert (Hm : ∀ name mouse, default (Dict []) (od_get name d) = Dict mouse →
    match od_get name d with Some (Dict part) => part | _ => [] end = mouse).
  { intros name mouse. destruct (od_get name d) as [[| | | | | |]|]; simpl; congruence. }
  destruct (default (Dict []) (od_get "mouse" d)) as [| | | | | |mouse] eqn:E1; try done.
  destruct (default (Dict []) (od_get "keyboard" d)) as [| | | | | |keyboard] eqn:E2; try done.
  rewrite (Hm _ _ E1), (Hm _ _ E2). apply bind_ok in H as (pointed & Hp & H). apply bind_ok in H as (typed & Ht & H).
  destruct (8192 <? _) eqn:El; [done|]. injection H as <-. exists (pointed ++ typed). split; [done|]. split; [lia|].
  eapply holds_mono; [..|apply holds_app].
  3: { eapply (holds_each mouse_downs (λ _, ∅)); [|exact Hp]. intros action e _. apply holds_mouse. }
  3: { eapply (holds_each (λ _, ∅) keyboard_downs); [|exact Ht]. intros action e _. apply holds_keyboard. }
  - clear. induction keyboard; set_solver.
  - clear. induction mouse; set_solver.
Qed.
(** An accepted batch leaves nothing held down by accident: after it only the
    buttons its [buttons] entries press and the keys of its [keys_down] entries can be
    down; clicks, drags, scrolls, texts and chords release all they press. *)
Theorem nothing_stuck action es :
  events_for_action key_names x11 action = Ok es →
  hd_buttons (play nothing_held es) ⊆ buttons_down action ∧ hd_keys (play nothing_held es) ⊆ keys_down action.
Proof.
  unfold events_for_action, buttons_down, keys_down. intros H.
  assert (Hl : ∀ l before es B K, res_fold (item_events key_names x11) before l = Ok es → holds_at_most B K before →
    holds_at_most (B ∪ ⋃ ((λ item, ⋃ (mouse_downs <$> part_of "mouse" item)) <$> l))
                  (K ∪ ⋃ ((λ item, ⋃ (keyboard_downs <$> part_of "keyboard" item)) <$> l)) es).
  { clear. induction l as [|item l IH]; intros before es B K H Hb.
    - injection H as <-. eapply holds_mono; [..|exact Hb]; set_solver.
    - apply bind_ok in H as (next & Hn & H). apply holds_item in Hn as (more & -> & _ & Hm).
      eapply holds_mono; [..|eapply IH; [exact H|apply holds_app; [exact Hb|exact Hm]]]; simpl; set_solver. }
  destruct (Hl _ _ _ ∅ ∅ H holds_nil nothing_held) as [H1 H2]. unfold nothing_held in *. simpl in H1, H2. set_solver.
Qed.

(** ** Batches fit the helper's protocol *)

(** What [EVENT.pack] and [serve] accept *)
Definition valid_event (e : event) : Prop :=
  1 ≤ ev_kind e ≤ 5 ∧ 0 ≤ ev_code e < 2 ^ 32 ∧ 0 ≤ ev_x e ≤ 32767 ∧ 0 ≤ ev_y e ≤ 32767.

Lemma valid_motion v es : motion v = Ok es → Forall valid_event es.
Proof.
  unfold motion. destruct v as [| | | | |t [|x [|y [|]]]|]; try done. unfold coordinate.
  destruct x as [| |n| | | |]; try done. destruct y as [| |m| | | |]; try (by destruct (_ || _)).
  destruct (_ || _) eqn:Ex; [done|]. destruct ((m <? 0) || _) eqn:Ey; [done|]. intros [= <-].
  constructor; [|done]. unfold valid_event. simpl. lia.
Qed.

Lemma valid_button n down : 0 ≤ n < 10 → Forall valid_event (button n down).
Proof. intros Hn. constructor; [|done]. unfold valid_event. destruct down; simpl; lia. Qed.

Lemma valid_press n : 0 ≤ n < 10 → Forall valid_event (press n).
Proof. intros Hn. apply Forall_app. split; by apply valid_button. Qed.

Lemma button_number n name : od_get name BUTTONS = Some n → 0 ≤ n < 10.
Proof.
  intros H%od_get_elem. assert (Ha : Forall (λ p, 0 <= p.2 < 10) BUTTONS) by (apply (bool_decide_unpack _); vm_compute; exact I).
  rewrite Forall_forall in Ha. exact (Ha _ H).
Qed.

Lemma click_number n k name : od_get name clicks = Some (n, k) → 0 ≤ n < 10.
Proof.
  intros H%od_get_elem. assert (Ha : Forall (λ p, 0 <= p.2.1 < 10) clicks) by (apply (bool_decide_unpack _); vm_compute; exact I).
  rewrite Forall_forall in Ha. exact (Ha _ H).
Qed.

Lemma valid_drag kind v es : drag kind v = Ok es → Forall valid_event es.
Proof.
  unfold drag. destruct v as [| | | | |t [|first [|second more]]|]; try done.
  intros (start & Hs & (legs & Hl & [= <-])%bind_ok)%bind_ok.
  rewrite Forall_app, Forall_cons, Forall_app. split; [by eapply valid_motion|].
  assert (Hb : ∀ down, Forall valid_event (button (if str_startswith "left" kind then 1 else 3) down))
    by (intros down; apply valid_button; destruct (str_startswith _ _); lia).
  split; [exact (Forall_inv (Hb true))|]. split; [|apply (Hb false)].
  revert Hl. apply each_forall. intros [a b] e _. unfold drag_leg.
  intros (? & _ & He)%bind_ok. destruct (point _) as [sx sy], (point _) as [ex ey].
  revert He. apply each_forall. intros step e' _. apply valid_motion.
Qed.

Lemma valid_scroll dx dy : Forall valid_event (scroll_events dx dy).
Proof.
  apply Forall_concat, Forall_map, Forall_true. intros step. unfold scroll_ticks.
  rewrite Forall_app; split; (destruct (_ <? _ / _); [apply valid_press; destruct (0 <? _); lia|done]).
Qed.

Lemma valid_mouse action es : mouse_action action = Ok es → Forall valid_event es.
Proof.
  destruct action as [kind v]. unfold mouse_action.
  destruct (bool_decide (kind = "move"%string)); [apply valid_motion|].
  destruct (od_get kind clicks) as [[n k]|] eqn:Ec.
  { intros (start & Hs & [= <-])%bind_ok. apply Forall_app. split; [by eapply valid_motion|].
    apply Forall_concat, Forall_replicate, valid_press. by eapply click_number. }
  destruct (bool_decide (kind ∈ _)); [apply valid_drag|]. destruct (bool_decide (kind = "scroll"%string)).
  { unfold scroll. destruct (match v with Dict d => _ | _ => _ end) as [dx dy].
    destruct (tick_count dx), (tick_count dy); try done. intros [= <-]. apply valid_scroll. }
  destruct (bool_decide (kind = "buttons"%string)); [|done]. intros (entries & He & H)%bind_ok.
  revert H. apply each_forall. intros entry e _. unfold button_entry.
  destruct entry as [| | |s| | |]; try done. destruct (rsplit s) as [[name direction]|]; [|done].
  destruct (od_get name BUTTONS) as [n|] eqn:En; [|done]. destruct (bool_decide (direction ∈ _)); [|done].
  intros [= <-]. by apply valid_button, (button_number n name).
Qed.

Context (Hnames : ∀ name n, od_get name key_names = Some n → 0 ≤ n < 2 ^ 32).
Context (Hx11 : ∀ name, 0 ≤ x11 name < 2 ^ 32).

Lemma symbol_fits key n : symbol key = Ok n → 0 ≤ n < 2 ^ 32.
Proof.
  unfold keysym. destruct key as [| | |s| | |]; try done. destruct (chars s) as [|c [|d rest]]; [done| |].
  - intros [= <-]. pose proof (N_ascii_bounded c). unfold code. rewrite (proj2 (Z.ltb_lt _ _)) by lia. lia.
  - cbv zeta. match goal with |- context [od_get ?n key_names] => generalize n end. intros name H.
    destruct (od_get name key_names) as [m|] eqn:E; [injection H as <-; by apply (Hnames name)|].
    destruct (x11 name =? 0); [done|]. injection H as <-. apply Hx11.
Qed.

Lemma valid_key key down es : key_event key_names x11 key down = Ok es → Forall valid_event es.
Proof.
  intros (n & Hn%symbol_fits & ->)%key_event_ok. constructor; [|done]. unfold valid_event. destruct down; simpl; lia.
Qed.

Lemma valid_keys down l es : each (λ key, key_event key_names x11 key down) l = Ok es → Forall valid_event es.
Proof. apply each_forall. intros key e _. apply valid_key. Qed.

Lemma valid_char c es : type_char key_names x11 c = Ok es → Forall valid_event es.
Proof.
  unfold type_char. destruct (find_char c controls) as [name|].
  { intros (down & Hd & (up & Hu & [= <-])%bind_ok)%bind_ok. apply Forall_app. split; by eapply valid_key. }
  intros (before & Hb & (down & Hd & (up & Hu & (behind & He & [= <-])%bind_ok)%bind_ok)%bind_ok)%bind_ok.
  rewrite !Forall_app. destruct (_ || _); [|injection Hb as <-; injection He as <-]; split_and!;
    first [done|by eapply valid_key].
Qed.

Lemma valid_keyboard action es : keyboard_action key_names x11 action = Ok es → Forall valid_event es.
Proof.
  destruct action as [kind v]. unfold keyboard_action. destruct (bool_decide (kind = "text"%string)).
  { destruct v as [| | |s| | |]; try done. destruct (2048 <? _); [done|]. apply each_forall. intros c e _. apply valid_char. }
  destruct (bool_decide (kind ∈ _)); [|done].
  intros (values & Hv & (downs & Hd & (ups & Hu & [= <-])%bind_ok)%bind_ok)%bind_ok. apply Forall_app. split.
  - destruct (bool_decide (kind = "keys_up"%string)); [by injection Hd as <-|by eapply valid_keys].
  - destruct (bool_decide (kind = "keys_down"%string)); [by injection Hu as <-|by eapply valid_keys].
Qed.

(** An accepted batch fits the helper's protocol: at most 8192 events, of known
    kinds, with coordinates of a screen and codes of 32 bits. *)
Theorem batch_valid action es :
  events_for_action key_names x11 action = Ok es →
  Z.of_nat (length es) ≤ 8192 ∧ Forall valid_event es.
Proof.
  unfold events_for_action. intros H.
  assert (Hl : ∀ l before es, res_fold (item_events key_names x11) before l = Ok es →
    Z.of_nat (length before) ≤ 8192 → Forall valid_event before → Z.of_nat (length es) ≤ 8192 ∧ Forall valid_event es).
  { clear H es. induction l as [|item l IH]; intros before es H Hn Hb; [by injection H as <-|].
    apply bind_ok in H as (next & Hi & H). apply (IH next); [done|by apply holds_item in Hi as (more & _ & ? & _)|].
    unfold item_events in Hi. destruct item as [| | | | | |d]; try done. apply bind_ok in Hi as (? & _ & Hi).
    destruct (default (Dict []) (od_get "mouse" d)); try done. destruct (default (Dict []) (od_get "keyboard" d)); try done.
    apply bind_ok in Hi as (pointed & Hp & (typed & Ht & Hi)%bind_ok). destruct (8192 <? _); [done|]. injection Hi as <-.
    rewrite !Forall_app. split; [done|]. split.
    - revert Hp. apply each_forall. intros action' e _. apply valid_mouse.
    - revert Ht. apply each_forall. intros action' e _. apply valid_keyboard. }
  by apply (Hl _ _ _ H).
Qed.
End Theorems.

(** ** Scrolls *)

Definition is_press (n : Z) (e : event) : bool := (ev_kind e =? 2) && (ev_code e =? n).
Definition presses (n : Z) (es : list event) : Z := Z.of_nat (length (filter (λ e, is_press n e = true) es)).

Lemma presses_app n a b : presses n (a ++ b) = presses n a + presses n b.
Proof. unfold presses. rewrite filter_app, length_app. lia. Qed.

Lemma presses_press n m : presses n (press m) = if m =? n then 1 else 0.
Proof.
  unfold presses, press, button. simpl. rewrite filter_cons, filter_cons. unfold is_press. simpl. by destruct (m =? n).
Qed.

(** A direction of [ticks] whose button is [m] advances to the floor of its share. *)
Lemma presses_ticks n m steps step ticks : 0 < steps → 0 ≤ step → Z.abs ticks ≤ steps →
  presses n (scroll_ticks steps step ticks m) =
    if m =? n then (step + 1) * Z.abs ticks / steps - step * Z.abs ticks / steps else 0.
Proof.
  intros Hs Hk Ht. unfold scroll_ticks. set (a := Z.abs ticks) in *.
  assert (H : step * a / steps <= (step + 1) * a / steps <= step * a / steps + 1).
  { split; [apply Z.div_le_mono; lia|]. rewrite <- Z.div_add by lia. apply Z.div_le_mono; lia. }
  destruct (_ <? _) eqn:E; [rewrite presses_press|]; destruct (m =? n); try (unfold presses; simpl); lia.
Qed.

(** A scroll of [dx] and [dy] ticks presses the buttons of its directions exactly
    that often, and no other. *)
Theorem scroll_exact dx dy n :
  presses n (scroll_events dx dy) =
    if n =? 4 then Z.max 0 (- dy) else if n =? 5 then Z.max 0 dy
    else if n =? 6 then Z.max 0 (- dx) else if n =? 7 then Z.max 0 dx else 0.
Proof.
  unfold scroll_events. set (steps := Z.max (Z.abs dx) (Z.abs dy)).
  set (h := if 0 <? dx then 7 else 6). set (v := if 0 <? dy then 5 else 4).
  assert (Hk : ∀ k, 0 < steps → presses n (concat (map (λ step : nat,
      scroll_ticks steps (Z.of_nat step) dx h ++ scroll_ticks steps (Z.of_nat step) dy v) (seq 0 k))) =
    (if h =? n then Z.of_nat k * Z.abs dx / steps else 0) + (if v =? n then Z.of_nat k * Z.abs dy / steps else 0)).
  { intros k Hs. induction k as [|k IH]; [simpl; by destruct (h =? n), (v =? n)|].
    rewrite seq_S, map_app, concat_app, presses_app, IH. simpl. rewrite app_nil_r, presses_app, !presses_ticks by lia.
    replace (Z.of_nat (S k)) with (Z.of_nat k + 1) by lia. destruct (h =? n), (v =? n); lia. }
  destruct (decide (0 < steps)) as [Hs|Hs].
  - rewrite Hk, Z2Nat.id by lia. rewrite !(Z.mul_comm steps), !Z.div_mul by lia. unfold h, v.
    destruct (0 <? dx) eqn:E1, (0 <? dy) eqn:E2; repeat case_match; lia.
  - replace steps with 0 by lia. simpl. change (presses n []) with 0. repeat case_match; lia.
Qed.

(** ** Text *)

(** A US keyboard: what its keys print, alone and with Shift *)
Definition us_layout : list (ascii * ascii) :=
  zip (chars "abcdefghijklmnopqrstuvwxyz`1234567890-=[]\;',./")
      (chars "ABCDEFGHIJKLMNOPQRSTUVWXYZ~!@#$%^&*()_+{}|:" ++ [quote] ++ chars "<>?").

Record symbols := Symbols { sy_shift : Z; sy_return : Z; sy_tab : Z; sy_backspace : Z }.

Definition printed (y : symbols) (shift : bool) (symbol : Z) : option ascii :=
  if symbol =? sy_return y then Some (ascii_of_N 10)
  else if symbol =? sy_tab y then Some (ascii_of_N 9)
  else if symbol =? sy_backspace y then Some (ascii_of_N 8)
  else if symbol <? 256 then
    let c := ascii_of_N (Z.to_N symbol) in Some (if shift then default c (find_char c us_layout) else c)
  else None.

(** The state of Shift and what was printed *)
Definition type_event (y : symbols) (t : bool * list ascii) (e : event) : bool * list ascii :=
  if ev_kind e =? 4 then
    if ev_code e =? sy_shift y then (true, t.2)
    else (t.1, t.2 ++ option_list (printed y t.1 (ev_code e)))
  else if ev_kind e =? 5 then (if ev_code e =? sy_shift y then (false, t.2) else t)
  else t.

(** Both line ends are the Return key. *)
Definition newline (c : ascii) : ascii := if code c =? 13 then ascii_of_N 10 else c.

(** The key and the state of Shift for a character *)
Definition key_for (c : ascii) : bool * ascii :=
  let shift := bool_decide (is_Some (find_char c SHIFTED)) || is_upper c in
  (shift, default (if shift then lower_char c else c) (find_char c SHIFTED)).

(** On a US keyboard [key_for] prints the character. *)
Lemma key_for_prints c :
  (if (key_for c).1 then default (key_for c).2 (find_char (key_for c).2 us_layout) else (key_for c).2) = c.
Proof. destruct c as [[] [] [] [] [] [] [] []]; vm_compute; reflexivity. Qed.

Lemma code_ascii c : ascii_of_N (Z.to_N (code c)) = c.
Proof. unfold code. rewrite N2Z.id. apply ascii_N_embedding. Qed.

Lemma code_small c : 0 ≤ code c < 256.
Proof. pose proof (N_ascii_bounded c). unfold code. lia. Qed.

Section Typing.

Variable key_names : list (string * Z).
Variable x11 : string → Z.
Variable y : symbols.

Context (Hshift : keysym key_names x11 (Text "shift") = Ok (sy_shift y)).
Context (Hreturn : keysym key_names x11 (Text "Return") = Ok (sy_return y)).
Context (Htab : keysym key_names x11 (Text "Tab") = Ok (sy_tab y)).
Context (Hbackspace : keysym key_names x11 (Text "BackSpace") = Ok (sy_backspace y)).

(** The four keys are not characters, and differ. *)
Context (Hlarge : Forall (λ n, 256 ≤ n) [sy_shift y; sy_return y; sy_tab y; sy_backspace y]).
Context (Hdistinct : NoDup [sy_shift y; sy_return y; sy_tab y; sy_backspace y]).

Lemma key_event_is key n down :
  keysym key_names x11 key = Ok n → key_event key_names x11 key down = Ok [Event (if down then 4 else 5) n 0 0].
Proof. intros H. unfold key_event. by rewrite H. Qed.

Lemma keysym_char c : keysym key_names x11 (Text (String c "")) = Ok (code c).
Proof. simpl. pose proof (code_small c). by rewrite (proj2 (Z.ltb_lt _ _)) by lia. Qed.

Lemma control_cases c :
  (find_char c controls = Some "Return"%string ∧ newline c = ascii_of_N 10) ∨
  (find_char c controls = Some "Tab"%string ∧ newline c = ascii_of_N 9) ∨
  (find_char c controls = Some "BackSpace"%string ∧ newline c = ascii_of_N 8) ∨
  (find_char c controls = None ∧ newline c = c).
Proof.
  destruct c as [[] [] [] [] [] [] [] []]; vm_compute;
    first [right; right; right; by split|right; right; left; by split|right; left; by split|left; by split].
Qed.

Lemma neqb n m : n ≠ m → (n =? m) = false.
Proof. apply Z.eqb_neq. Qed.

(** The press of a key that prints *)
Lemma type_press shift text n c :
  n ≠ sy_shift y → printed y shift n = Some c →
  type_event y (shift, text) (Event 4 n 0 0) = (shift, text ++ [c]) ∧
  ∀ t, type_event y t (Event 5 n 0 0) = t.
Proof. intros Hn Hp. unfold type_event. simpl. by rewrite (neqb _ _ Hn), Hp. Qed.

Lemma types_control name n c d : keysym key_names x11 (Text name) = Ok n → find_char c controls = Some name →
  n ≠ sy_shift y → printed y false n = Some d → newline c = d →
  ∃ es, type_char key_names x11 c = Ok es ∧ (length es <= 4)%nat ∧
    ∀ text, foldl (type_event y) (false, text) es = (false, text ++ [newline c]).
Proof.
  intros Hk Hc Hn Hp <-. exists [Event 4 n 0 0; Event 5 n 0 0]. split.
  - unfold type_char. rewrite Hc, !(key_event_is _ _ _ Hk). done.
  - split; [simpl; lia|]. intros text. destruct (type_press false text n _ Hn Hp) as [H1 H2]. cbn [foldl]. by rewrite H1, H2.
Qed.

Lemma types_char c : ∃ es, type_char key_names x11 c = Ok es ∧ (length es <= 4)%nat ∧
  ∀ text, foldl (type_event y) (false, text) es = (false, text ++ [newline c]).
Proof.
  pose proof Hlarge as Hl. rewrite !Forall_cons in Hl. destruct Hl as (L1 & L2 & L3 & L4 & _).
  pose proof Hdistinct as Hd. rewrite !NoDup_cons, !not_elem_of_cons in Hd.
  destruct Hd as ((D1 & D2 & D3 & _) & (D4 & D5 & _) & (D6 & _) & _).
  destruct (control_cases c) as [[Hc Hn]|[[Hc Hn]|[[Hc Hn]|[Hc Hn]]]].
  - apply (types_control _ _ _ (ascii_of_N 10) Hreturn Hc); [done| |exact Hn]. unfold printed. by rewrite Z.eqb_refl.
  - apply (types_control _ _ _ (ascii_of_N 9) Htab Hc); [done| |exact Hn]. unfold printed. rewrite neqb by done. by rewrite Z.eqb_refl.
  - apply (types_control _ _ _ (ascii_of_N 8) Hbackspace Hc); [done| |exact Hn]. unfold printed. rewrite !neqb by done. by rewrite Z.eqb_refl.
  - assert (Hsmall : ∀ d shift, code d ≠ sy_shift y ∧ printed y shift (code d) =
      Some (if shift then default d (find_char d us_layout) else d)).
    { intros d shift. pose proof (code_small d). unfold printed. split; [lia|].
      rewrite !neqb by lia. rewrite (proj2 (Z.ltb_lt _ _)), code_ascii by lia. done. }
    pose proof (key_for_prints c) as Hkey. unfold type_char. rewrite Hc. fold (key_for c).1. unfold key_for in Hkey |- *. cbn [fst snd] in Hkey |- *.
    set (k := default _ (find_char c SHIFTED)) in *. rewrite !(key_event_is _ _ _ (keysym_char k)).
    destruct (_ || _); cbn [mbind res_bind].
    + rewrite !(key_event_is _ _ _ Hshift). eexists. split; [reflexivity|]. split; [simpl; lia|]. intros text.
      destruct (Hsmall k true) as [H1 H2]. rewrite Hkey in H2. cbn [app foldl].
      replace (type_event y (false, text) (Event 4 (sy_shift y) 0 0)) with (true, text) by (unfold type_event; simpl; by rewrite Z.eqb_refl).
      destruct (type_press true text _ _ H1 H2) as [-> H4]. rewrite H4. unfold type_event. simpl. by rewrite Z.eqb_refl, Hn.
    + eexists. split; [reflexivity|]. split; [simpl; lia|]. intros text.
      destruct (Hsmall k false) as [H1 H2]. rewrite Hkey in H1, H2 |- *. cbn [app foldl].
      destruct (type_press false text _ _ H1 H2) as [-> H4]. by rewrite H4, Hn.
Qed.

End Typing.

(** ** Drags *)

Definition on_screen (position : value) : Prop :=
  ∃ t x y, position = Items t [Num x; Num y] ∧ 0 ≤ x ≤ 32767 ∧ 0 ≤ y ≤ 32767.

Lemma round8_bounds n m : 0 ≤ n ≤ 8 * m → 0 ≤ round8 n ≤ m.
Proof.
  intros Hn. unfold round8. pose proof (Z.div_mod n 8 ltac:(lia)). pose proof (Z.mod_pos_bound n 8 ltac:(lia)).
  destruct (_ || _) eqn:E; [|lia]. assert (4 ≤ n mod 8) by (destruct (4 <? n mod 8) eqn:?; simpl in *; lia). lia.
Qed.

Lemma round8_whole n : round8 (8 * n) = n.
Proof. unfold round8. rewrite Z.mul_comm, Z.div_mul, Z.mod_mul by lia. done. Qed.

Lemma motion_accepted t x y : 0 ≤ x ≤ 32767 → 0 ≤ y ≤ 32767 → motion (Items t [Num x; Num y]) = Ok [Event 1 0 x y].
Proof.
  assert (H : ∀ n, 0 <= n <= 32767 → coordinate (Num n) = Some n).
  { intros n Hn. unfold coordinate. by rewrite (proj2 (Z.ltb_ge n 0)), (proj2 (Z.ltb_ge 32767 n)) by lia. }
  intros Hx Hy. unfold motion. by rewrite !H.
Qed.

Definition leg_point (a b : Z * Z) (k : Z) : event :=
  Event 1 0 (round8 (8 * a.1 + (b.1 - a.1) * k)) (round8 (8 * a.2 + (b.2 - a.2) * k)).

Lemma leg_accepted a b : on_screen a → on_screen b →
  drag_leg (a, b) = Ok (map (leg_point (point a) (point b)) [1; 2; 3; 4; 5; 6; 7; 8]).
Proof.
  intros (t & x & y & -> & Hx & Hy) (t' & x' & y' & -> & Hx' & Hy'). unfold drag_leg. cbn [fst snd point].
  rewrite motion_accepted by done. cbn [mbind res_bind].
  rewrite (each_all _ (λ k, [leg_point (x, y) (x', y') k])); [done|].
  intros k Hk. apply motion_accepted; apply round8_bounds; rewrite !elem_of_cons, elem_of_nil in Hk;
    destruct Hk as [->|[->|[->|[->|[->|[->|[->|[->|[]]]]]]]]]; lia.
Qed.

Lemma leg_ends a b : leg_point a b 8 = Event 1 0 b.1 b.2.
Proof.
  unfold leg_point. f_equal; (match goal with |- round8 ?n = ?m => replace n with (8 * m) by lia end); apply round8_whole.
Qed.

Definition leg (a b : Z * Z) : list event := map (leg_point a b) [1; 2; 3; 4; 5; 6; 7] ++ [Event 1 0 b.1 b.2].

Lemma each_cons {A} (f : A → res (list event)) x l e es :
  f x = Ok e → each f l = Ok es → each f (x :: l) = Ok (e ++ es).
Proof. unfold each. simpl. intros -> (ess & -> & [= <-])%bind_ok. done. Qed.

Lemma legs_accepted first rest : Forall on_screen (first :: rest) →
  each drag_leg (zip (first :: rest) rest) = Ok (concat (zip_with leg (map point (first :: rest)) (map point rest))).
Proof.
  revert first. induction rest as [|second rest IH]; intros first Hl; [done|].
  inversion Hl as [|? ? H1 H2]; subst. inversion H2 as [|? ? H3 _]; subst.
  cbn [zip zip_with map concat]. apply each_cons; [|exact (IH second H2)].
  rewrite (leg_accepted _ _ H1 H3). unfold leg. rewrite <- leg_ends with (a := point first). done.
Qed.

(** A drag through points of the screen is accepted whatever its points: the button
    goes down at the first, eight steps lead to each of the others, the last of them
    exactly there, and the button goes up at the last. *)
Theorem drag_follows kind t first second more :
  Forall on_screen (first :: second :: more) →
  let n := if str_startswith "left" kind then 1 else 3 in
  let stops := map point (first :: second :: more) in
  drag kind (Items t (first :: second :: more)) =
    Ok (Event 1 0 (point first).1 (point first).2 :: button n true ++
        concat (zip_with leg stops (tail stops)) ++ button n false).
Proof.
  intros Hl. cbv zeta. unfold drag.
  assert (Hs : motion first = Ok [Event 1 0 (point first).1 (point first).2]).
  { inversion Hl as [|? ? (t' & x & y & -> & Hx & Hy) _]. subst. by apply motion_accepted. }
  rewrite Hs. cbn [mbind res_bind]. change (tail (first :: second :: more)) with (second :: more).
  by rewrite (legs_accepted first (second :: more) Hl).
Qed.

(** * Witnesses *)

Definition ex_lines : list string :=
  ["#define XK_Return                        0xff0d  /* Return, enter */"; "#define XK_Tab 0xff09"; "#define XK_BackSpace 0xff08";
   "#ifndef XK_Shift"; "#define XK_Shift_L 0xffe1"; "#define XK_Control_L 0xffe3"; "#define XK_Tab 0x1"]%string.

Definition ex_names : list (string * Z) :=
  read_key_names [ex_lines; ["# define XF86XK_Display  _EVDEVK( 0x1AF )"]%string].

Definition no_x11 (name : string) : Z := 0.

(** A click, a scroll, a chord, and a key that stays down *)
Definition ex_action : value :=
  Items false
    [Dict [("mouse", Dict [("left_click", Items false [Num 10; Num 20]); ("scroll", Num (-2)); ("buttons", Text "right_down")])];
     Dict [("keyboard", Dict [("keys", Items false [Text "ctrl"; Text "c"]); ("keys_down", Text "shift")])]]%string.

Definition ex_events : list event :=
  match events_for_action ex_names no_x11 ex_action with Ok es => es | Err _ => [] end.

Example ex_names_read : ex_names =
  [("Return", 0xff0d); ("Tab", 0xff09); ("BackSpace", 0xff08); ("Shift_L", 0xffe1); ("Control_L", 0xffe3);
   ("XF86Display", 0x100811AF)]%string.
Proof. vm_compute. reflexivity. Qed.

Lemma nothing_stuck_witness :
  play nothing_held ex_events = Held {[3]} {[0xffe1]} ∧
  hd_buttons (play nothing_held ex_events) ⊆ buttons_down ex_action ∧
  hd_keys (play nothing_held ex_events) ⊆ keys_down ex_names no_x11 ex_action.
Proof. split; [vm_compute; reflexivity|]. apply nothing_stuck. vm_compute. reflexivity. Defined.

Lemma batch_valid_witness : Z.of_nat (length ex_events) ≤ 8192 ∧ Forall valid_event ex_events.
Proof.
  apply (batch_valid ex_names no_x11) with ex_action.
  - assert (H : Forall (λ p, 0 <= p.2 < 2 ^ 32) ex_names) by (apply (bool_decide_unpack _); vm_compute; exact I).
    intros name n Hn%od_get_elem. rewrite Forall_forall in H. exact (H _ Hn).
  - intros name. unfold no_x11. lia.
  - vm_compute. reflexivity.
Defined.

Definition ex_symbols : symbols := Symbols 0xffe1 0xff0d 0xff09 0xff08.


Lemma drag_follows_witness :
  drag "left_click_drag" (Items false [Items false [Num 0; Num 0]; Items true [Num 5; Num 12]]) =
    Ok (Event 1 0 0 0 :: button 1 true ++ concat [leg (0, 0) (5, 12)] ++ button 1 false).
Proof.
  apply (drag_follows "left_click_drag" false (Items false [Num 0; Num 0]) (Items true [Num 5; Num 12]) []).
  repeat constructor; [exists false, 0, 0|exists true, 5, 12]; repeat split; lia.
Defined.
