(* ===== verification/GuestProcesses.v ===== *)
(** The processes of a guest ([sandbox/guest_agent.py], class [Agent]): commands that are
    started once per identity, whose output threads copy into files up to a budget, and
    whose end is recorded after the last byte. *)

From S2P Require Import Prelude.

#[local] Open Scope Z_scope.

(** * Accounts *)

Record account := Account { ac_uid : Z; ac_gid : Z; ac_home : string; ac_login : string }.

Section Accounts.

(** The databases of the guest: [pwd], [grp] and [os.getgrouplist]. *)
Variable getpwuid : Z → option account.
Variable getpwnam : string → option account.
Variable getgrnam : string → option Z.
Variable getgrouplist : string → Z → list Z.

(** [name, separator, group = user.partition(':')]: the group, if there is a separator *)
Definition partition (c : ascii) (s : string) : string * option string :=
  match split_chars c (chars s) with
  | name :: p :: ps => (of_chars name, Some (str_join (String c "") (map of_chars (p :: ps))))
  | _ => (s, None)
  end.

Definition linux_id (n : Z) : bool := (0 <=? n) && (n <? 2 ^ 32 - 1).

(** [user_account] *)
Definition user_account (user : string) : res (account * list Z) :=
  let '(name, group) := partition ":"%char user in
  let number := digits_value (chars name) in
  a ← match (match number with Some n => getpwuid n | None => getpwnam name end) with
      | Some a => Ok a
      | None =>
          if bool_decide (number = None) && negb (bool_decide (name = "root"%string))
          then raise ValueError "guest user does not exist: "
          else Ok (Account (default 0 number) 0 "/" name)
      end;
  gid ← match group with
        | None => Ok (ac_gid a)
        | Some g =>
            if bool_decide (g = ""%string) then raise ValueError "guest group must not be empty"
            else match digits_value (chars g) with
                 | Some n => Ok n
                 | None => match getgrnam g with Some n => Ok n | None => raise KeyError "" end
                 end
        end;
  _ ← raise_if (negb (linux_id (ac_uid a) && linux_id gid)) ValueError "guest user and group IDs must be valid Linux IDs";
  Ok (Account (ac_uid a) gid (ac_home a) (ac_login a),
      match group with Some _ => [] | None => getgrouplist (ac_login a) gid end).

End Accounts.

(** * Processes *)

Inductive output_stream := Stdout | Stderr.

#[export] Instance output_stream_eq_dec : EqDecision output_stream.
Proof. solve_decision. Defined.

Record guest_request := GuestRequest {
  rq_argv : list string; rq_cwd : string; rq_env : gmap string string; rq_user : string;
  rq_timeout : option Z; rq_max_output : Z; rq_pty : option (Z * Z) }.

#[export] Instance guest_request_eq_dec : EqDecision guest_request.
Proof. solve_decision. Defined.

(** One output of a process: what it wrote into the pipe, what nobody read yet, whether
    the pipe still has a writer, the file, and whether its thread has ended. *)
Record channel := Channel {
  ch_written : bytes; ch_pipe : bytes; ch_open : bool; ch_file : bytes; ch_drained : bool }.

(** [exit.json] *)
Record exit_record := ExitRecord { ex_returncode : Z; ex_timed_out : bool; ex_limited : bool }.

(** The thread that waits for the end: for the process, for the output threads, to
    forget the process; [Gone] when the agent does not have the process. *)
Inductive finish := Waiting | Reaped | Recorded | Gone.

#[export] Instance finish_eq_dec : EqDecision finish.
Proof. solve_decision. Defined.

Record guest_process := GuestProcess {
  gp_request : guest_request; gp_maintenance : bool;
  gp_out : channel; gp_err : channel;
  gp_bytes : Z; gp_limited : bool;               (* output_state *)
  gp_returncode : option Z; gp_timed_out : bool; gp_killed : bool;
  gp_finish : finish; gp_exit : option exit_record;
  gp_stdin : bytes; gp_stdin_closed : bool }.

#[export] Instance guest_process_updatable : Updatable guest_process := λ p,
  GuestProcess (gp_request p) (gp_maintenance p) (gp_out p) (gp_err p) (gp_bytes p) (gp_limited p)
    (gp_returncode p) (gp_timed_out p) (gp_killed p) (gp_finish p) (gp_exit p) (gp_stdin p) (gp_stdin_closed p).

Record agent := Agent { ag_processes : gmap string guest_process; ag_service : option string }.

Definition start_agent : agent := Agent ∅ None.

Definition channel_of (p : guest_process) (s : output_stream) : channel :=
  match s with Stdout => gp_out p | Stderr => gp_err p end.

Definition with_channel (s : output_stream) (c : channel) (p : guest_process) : guest_process :=
  match s with Stdout => p <| gp_out := c |> | Stderr => p <| gp_err := c |> end.

Definition file_of (p : guest_process) (s : output_stream) : bytes := ch_file (channel_of p s).

Definition has_terminal (p : guest_process) : bool := bool_decide (is_Some (rq_pty (gp_request p))).

(** [identity in self.processes] *)
Definition registered (p : guest_process) : bool := negb (bool_decide (gp_finish p = Gone)).

(** [directory]: [[a-zA-Z0-9_-]{1,100}] *)
Definition check_process_id (identity : string) : res () :=
  raise_if (negb ((0 <? String.length identity)%nat && (String.length identity <=? 100)%nat
              && forallb (λ c, is_alnum c || (code c =? 95) || (code c =? 45)) (chars identity)))
    ValueError "invalid process ID".

Definition kill (p : guest_process) : guest_process :=
  if registered p then p <| gp_killed := true |> else p.

(** [_service_exited] *)
Definition service_exited (a : agent) : bool :=
  match ag_service a with
  | None => false
  | Some main =>
      match ag_processes a !! main with
      | Some p => negb (registered p) || bool_decide (is_Some (gp_returncode p))
      | None => true
      end
  end.

(** What it kills: the processes that are not transfers *)
Definition sweep (a : agent) : agent :=
  if service_exited a
  then Agent ((λ p, if gp_maintenance p then p else kill p) <$> ag_processes a) (ag_service a) else a.

(** ** Reports *)

Record report := Report {
  rp_returncode : option Z; rp_timed_out : bool; rp_limited : bool; rp_stdout_size : Z; rp_stderr_size : Z }.

Definition size_of (r : report) (s : output_stream) : Z :=
  match s with Stdout => rp_stdout_size r | Stderr => rp_stderr_size r end.

Definition report_of (p : guest_process) : report :=
  Report (ex_returncode <$> gp_exit p) (from_option ex_timed_out false (gp_exit p)) (from_option ex_limited false (gp_exit p))
    (Z.of_nat (length (ch_file (gp_out p)))) (Z.of_nat (length (ch_file (gp_err p)))).

(** [self.directory(identity) / ...]: the files of a process that was started *)
Definition lookup (a : agent) (identity : string) : res guest_process :=
  _ ← check_process_id identity;
  match ag_processes a !! identity with Some p => Ok p | None => raise FileNotFoundError "" end.

(** [status] *)
Definition process_status (a : agent) (identity : string) : res report :=
  p ← lookup a identity; Ok (report_of p).

(** [output] *)
Definition process_output (a : agent) (identity : string) (stream : output_stream) (offset size : Z) : res bytes :=
  _ ← raise_if (negb ((0 <=? size) && (size <=? 4 * 1024 ^ 2)) || (offset <? 0)) ValueError "invalid output request";
  p ← lookup a identity;
  Ok (take (Z.to_nat size) (drop (Z.to_nat offset) (file_of p stream))).

(** [wait]: it returns at some later moment, with the report of that moment. *)
Definition process_wait (a : agent) (identity : string) (timeout offset : Z) : res report :=
  _ ← raise_if (negb ((0 <=? timeout) && (timeout <=? 10)) || (offset <? 0)) ValueError "invalid process wait";
  process_status a identity.

(** ** Start *)

Inductive pty_option := NoTerminal | Terminal (rows cols : option Z).

Definition terminal_size (pty : pty_option) : res (option (Z * Z)) :=
  match pty with
  | NoTerminal => Ok None
  | Terminal rows cols =>
      let rows := default 24 rows in
      let cols := default 80 cols in
      _ ← raise_if (negb ((1 <=? rows) && (rows <=? 1000) && ((1 <=? cols) && (cols <=? 1000)))) ValueError
            "terminal rows/cols must be integers in 1..1000";
      Ok (Some (rows, cols))
  end.

Definition new_channel : channel := Channel [] [] true [] false.
Definition no_channel : channel := Channel [] [] false [] true.

(** A terminal has one output. *)
Definition new_process (r : guest_request) (maintenance : bool) : guest_process :=
  GuestProcess r maintenance new_channel (match rq_pty r with Some _ => no_channel | None => new_channel end) 0 false None false false Waiting None [] false.

(** [Popen] failed: the files are there, and the end is recorded. *)
Definition failed_process (r : guest_request) (maintenance : bool) : guest_process :=
  GuestProcess r maintenance no_channel no_channel 0 false None false false Gone (Some (ExitRecord 127 false false)) [] true.

Record spawning := Spawning {
  sp_argv : list string; sp_cwd : string; sp_env : gmap string string; sp_user : string;
  sp_timeout : option Z; sp_max_output : Z; sp_pty : pty_option; sp_maintenance : bool }.

(** The checks of [spawn], and [request]; [account] is the outcome of [user_account]. *)
Definition spawn_request (identity : string) (s : spawning) (account : res ()) : res guest_request :=
  _ ← raise_if (bool_decide (sp_argv s = []) || existsb (λ x, existsb (λ c, code c =? 0) (chars x)) (sp_argv s))
        ValueError "argv must contain literal strings";
  _ ← raise_if (match sp_timeout s with Some t => t <=? 0 | None => false end) ValueError "timeout must be positive";
  _ ← raise_if (sp_max_output s <=? 0) ValueError "max_output_bytes must be a positive integer";
  pty ← terminal_size (sp_pty s);
  _ ← account;
  _ ← check_process_id identity;
  Ok (GuestRequest (sp_argv s) (sp_cwd s) (sp_env s) (sp_user s) (sp_timeout s) (sp_max_output s) pty).

(** [spawn]: [launch] is the outcome of [Popen]. *)
Definition spawn (a : agent) (identity : string) (s : spawning) (account : res ()) (launch : res ()) : res report * agent :=
  match spawn_request identity s account with
  | Err e => (Err e, a)
  | Ok request =>
      match ag_processes a !! identity with
      | Some p =>
          if bool_decide (gp_request p = request) then (process_status a identity, a)
          else (raise ValueError "process ID was already used for another command", a)
      | None =>
          let a := if sp_maintenance s then a else sweep a in
          if negb (sp_maintenance s) && service_exited a then
            (raise RuntimeError "service entrypoint has exited; the service is stopped", a)
          else match launch with
          | Err e => (Err e, Agent (<[identity := failed_process request (sp_maintenance s)]> (ag_processes a)) (ag_service a))
          | Ok _ =>
              let p := new_process request (sp_maintenance s) in
              (Ok (report_of p), Agent (<[identity := p]> (ag_processes a)) (ag_service a))
          end
      end
  end.

(** ** Operations on a process *)

Definition set_process (identity : string) (p : guest_process) (a : agent) : agent :=
  Agent (<[identity := p]> (ag_processes a)) (ag_service a).

(** [stdin]: [room] is what the pipe takes now, [None] when its reader is gone; the end
    of a terminal's input is the character EOT, for which there may be no room. *)
Definition process_stdin (a : agent) (identity : string) (data : bytes) (close : bool) (room : option nat) (eot : bool) : res Z * agent :=
  match ag_processes a !! identity with
  | Some p =>
      if registered p && negb (gp_stdin_closed p) then
        match (if bool_decide (data = []) then Some 0%nat else room) with
        | Some room =>
            let taken := take room data in
            let p := p <| gp_stdin := gp_stdin p ++ taken |> in
            if close && has_terminal p && negb eot then (raise OSError "", set_process identity p a)
            else
              let p := if close && has_terminal p then p <| gp_stdin := gp_stdin p ++ [4] |> else p in
              (Ok (Z.of_nat (length taken)), set_process identity (p <| gp_stdin_closed := close |>) a)
        | None => (raise BrokenPipeError "", a)
        end
      else (if close && bool_decide (data = []) then Ok 0 else raise BrokenPipeError "process stdin is closed", a)
  | None => (if close && bool_decide (data = []) then Ok 0 else raise BrokenPipeError "process stdin is closed", a)
  end.

(** [resize] *)
Definition process_resize (a : agent) (identity : string) (rows cols : Z) : res (Z * Z) :=
  _ ← raise_if (negb ((1 <=? rows) && (rows <=? 1000) && ((1 <=? cols) && (cols <=? 1000)))) ValueError
        "terminal rows/cols must be integers in 1..1000";
  match ag_processes a !! identity with
  | Some p => if registered p then
                if has_terminal p then Ok (rows, cols) else raise ValueError "process does not have a terminal"
              else raise KeyError ""
  | None => raise KeyError ""
  end.

(** [terminate]: the signal kills or not. *)
Definition process_terminate (a : agent) (identity : string) (signal : Z) : res report * agent :=
  if negb ((1 <=? signal) && (signal <? 65)) then (raise ValueError "invalid signal number", a)
  else
    let a := match ag_processes a !! identity with
             | Some p => if signal =? 9 then set_process identity (kill p) a else a
             | None => a
             end in
    (process_status a identity, a).

(** [service_setup(watch_process=...)] *)
Definition watch_process (a : agent) (identity : string) : res () * agent :=
  match process_status a identity with
  | Err e => (Err e, a)
  | Ok _ =>
      if match ag_service a with Some main => negb (bool_decide (main = identity)) | None => false end
      then (raise ValueError "service entrypoint is already registered", a)
      else (Ok (), sweep (Agent (ag_processes a) (Some identity)))
  end.

(** * The threads of the agent, and the process itself *)

(** [drain]: one read of at most 64 KiB, under the lock of the outputs *)
Definition drain (s : output_stream) (n : nat) (p : guest_process) : guest_process :=
  let c := channel_of p s in
  let data := take n (ch_pipe c) in
  let remaining := rq_max_output (gp_request p) - gp_bytes p in
  let written := Z.min (Z.of_nat (length data)) remaining in
  let p := (with_channel s (Channel (ch_written c) (drop n (ch_pipe c)) (ch_open c)
                              (ch_file c ++ take (Z.to_nat written) data) (ch_drained c)) p)
             <| gp_bytes := gp_bytes p + written |> in
  if written <? Z.of_nat (length data) then (kill p) <| gp_limited := true |> else p.

Inductive guest_event :=
  | GWrite (s : output_stream) (data : bytes)          (* the process or a descendant writes *)
  | GClose (s : output_stream)                         (* no writer is left *)
  | GExit (code : Z)                                   (* the process ends *)
  | GDrain (s : output_stream) (n : nat)
  | GDrained (s : output_stream)                       (* the thread sees the end *)
  | GTimeout                                           (* the deadline of [finish] *)
  | GReap                                              (* [finish] sees the end of the process *)
  | GRecord                                            (* [exit.json] *)
  | GForget.

(** What [GReap] does to the others is in [agent_step]. *)
Definition process_step (e : guest_event) (p : guest_process) : option guest_process :=
  match e with
  | GWrite s data =>
      let c := channel_of p s in
      if registered p && ch_open c && negb (ch_drained c)
      then Some (with_channel s (Channel (ch_written c ++ data) (ch_pipe c ++ data) true (ch_file c) false) p) else None
  | GClose s =>
      let c := channel_of p s in
      Some (with_channel s (Channel (ch_written c) (ch_pipe c) false (ch_file c) (ch_drained c)) p)
  | GExit code =>
      if registered p && bool_decide (gp_returncode p = None) then Some (p <| gp_returncode := Some code |>) else None
  | GDrain s n =>
      let c := channel_of p s in
      if registered p && negb (ch_drained c) && negb (bool_decide (ch_pipe c = [])) && (0 <? n)%nat && (Z.of_nat n <=? 64 * 1024)
      then Some (drain s n p) else None
  | GDrained s =>
      let c := channel_of p s in
      if registered p && bool_decide (ch_pipe c = []) && (negb (ch_open c) || bool_decide (is_Some (gp_returncode p)))
      then Some (with_channel s (Channel (ch_written c) [] (ch_open c) (ch_file c) true) p) else None
  | GTimeout =>
      if bool_decide (gp_finish p = Waiting) && bool_decide (is_Some (rq_timeout (gp_request p)))
         && bool_decide (gp_returncode p = None) && negb (gp_timed_out p)
      then Some ((kill p) <| gp_timed_out := true |>) else None
  | GReap =>
      if bool_decide (gp_finish p = Waiting) && bool_decide (is_Some (gp_returncode p))
      then Some (p <| gp_finish := Reaped |>) else None
  | GRecord =>
      match gp_returncode p with
      | Some code =>
          if bool_decide (gp_finish p = Reaped) && ch_drained (gp_out p) && ch_drained (gp_err p)
          then Some (p <| gp_exit := Some (ExitRecord code (gp_timed_out p) (gp_limited p)) |> <| gp_finish := Recorded |>) else None
      | None => None
      end
  | GForget =>
      if bool_decide (gp_finish p = Recorded) then Some (p <| gp_finish := Gone |> <| gp_stdin_closed := true |>) else None
  end.

(** [Agent.__init__] after a cold boot: the files are kept, the processes are gone. *)
Definition cold_boot (p : guest_process) : guest_process :=
  p <| gp_finish := Gone |> <| gp_stdin_closed := true |>
    <| gp_exit := match gp_exit p with Some e => Some e | None => Some (ExitRecord (-128) false false) end |>.

Inductive agent_event :=
  | ASpawn (identity : string) (s : spawning) (account launch : res ())
  | AStdin (identity : string) (data : bytes) (close : bool) (room : option nat) (eot : bool)
  | ATerminate (identity : string) (signal : Z)
  | AWatch (identity : string)
  | AProcess (identity : string) (e : guest_event)
  | ASweep                                             (* [reap_orphans] *)
  | ABoot.

Definition agent_step (e : agent_event) (a : agent) : option agent :=
  match e with
  | ASpawn identity s account launch => Some (spawn a identity s account launch).2
  | AStdin identity data close room eot => Some (process_stdin a identity data close room eot).2
  | ATerminate identity signal => Some (process_terminate a identity signal).2
  | AWatch identity => Some (watch_process a identity).2
  | AProcess identity e =>
      p ← ag_processes a !! identity;
      p' ← process_step e p;
      let a' := set_process identity p' a in
      Some (match e with GReap => if bool_decide (ag_service a = Some identity) then sweep a' else a' | _ => a' end)
  | ASweep => Some (sweep a)
  | ABoot => Some (Agent (cold_boot <$> ag_processes a) None)
  end.

Fixpoint agent_run (l : list agent_event) (a : agent) : option agent :=
  match l with
  | [] => Some a
  | e :: l => a' ← agent_step e a; agent_run l a'
  end.

Definition agent_reachable (a : agent) : Prop := ∃ l, agent_run l start_agent = Some a.

(** * One process *)

Lemma channel_with s c p s' : channel_of (with_channel s c p) s' = if decide (s' = s) then c else channel_of p s'.
Proof. by destruct s, s'. Qed.

Lemma with_channel_fields s c p :
  gp_request (with_channel s c p) = gp_request p ∧ gp_bytes (with_channel s c p) = gp_bytes p ∧
  gp_limited (with_channel s c p) = gp_limited p ∧ gp_returncode (with_channel s c p) = gp_returncode p ∧
  gp_finish (with_channel s c p) = gp_finish p ∧ gp_exit (with_channel s c p) = gp_exit p ∧
  gp_killed (with_channel s c p) = gp_killed p ∧ gp_maintenance (with_channel s c p) = gp_maintenance p.
Proof. by destruct s. Qed.

#[local] Arguments with_channel : simpl never.

(** What is in the file is what was written, without what the budget dropped and what is
    still in the pipe. *)
Definition spooled (c : channel) (limited : bool) : Prop :=
  (∃ dropped, ch_written c = ch_file c ++ dropped ++ ch_pipe c ∧ (limited = false → dropped = [])) ∧
  (ch_drained c = true → ch_pipe c = []).

Definition files_size (p : guest_process) : Z := Z.of_nat (length (file_of p Stdout)) + Z.of_nat (length (file_of p Stderr)).

Definition cold : exit_record := ExitRecord (-128) false false.

Record process_ok (p : guest_process) : Prop := ProcessOk {
  ok_spooled : ∀ s, spooled (channel_of p s) (gp_limited p);
  ok_bytes : gp_bytes p = files_size p;
  ok_budget : 0 ≤ gp_bytes p ≤ rq_max_output (gp_request p);
  ok_limited : gp_limited p = true → gp_bytes p = rq_max_output (gp_request p);
  ok_waiting : gp_finish p = Waiting ∨ gp_finish p = Reaped → gp_exit p = None;
  ok_gone : gp_finish p = Gone ∨ gp_finish p = Recorded → is_Some (gp_exit p);
  ok_exit : ∀ e, gp_exit p = Some e → (e = cold ∧ gp_finish p = Gone) ∨
    (∀ s, ch_drained (channel_of p s) = true) ∧ ex_limited e = gp_limited p }.

(** A change that leaves the channels and the end alone *)
Lemma process_ok_same p p' :
  process_ok p → (∀ s, channel_of p' s = channel_of p s) → gp_bytes p' = gp_bytes p → gp_limited p' = gp_limited p →
  gp_request p' = gp_request p → gp_finish p' = gp_finish p → gp_exit p' = gp_exit p → process_ok p'.
Proof.
  intros [] Hc Hb Hl Hr Hf He. split; try (rewrite ?Hb, ?Hl, ?Hr, ?Hf, ?He; done).
  - intros s. by rewrite Hc, Hl.
  - rewrite Hb, ok_bytes0. unfold files_size, file_of. by rewrite !Hc.
  - intros e H. rewrite He in H. destruct (ok_exit0 e H) as [?|[Hd Hx]]; [left; by rewrite Hf|right].
    rewrite Hl. split; [intros s; by rewrite Hc|done].
Qed.

Lemma kill_ok p : process_ok p → process_ok (kill p).
Proof. intros Hp. unfold kill. destruct (registered p); [|done]. by apply (process_ok_same p). Qed.

(** A change of one channel that does not touch its file *)
Lemma with_channel_ok p s c :
  process_ok p → spooled c (gp_limited p) → ch_file c = file_of p s →
  (ch_drained (channel_of p s) = true → ch_drained c = true) → process_ok (with_channel s c p).
Proof.
  intros [] Hc Hf Hd. destruct (with_channel_fields s c p) as (Hr & Hb & Hl & _ & Hfin & He & _). split.
  - intros s'. rewrite channel_with, Hl. by destruct (decide (s' = s)).
  - rewrite Hb, ok_bytes0. unfold files_size, file_of in *. rewrite !channel_with. destruct s; simpl in *; by rewrite Hf.
  - by rewrite Hb, Hr.
  - by rewrite Hb, Hr, Hl.
  - by rewrite Hfin, He.
  - by rewrite Hfin, He.
  - intros e H. rewrite He in H. destruct (ok_exit0 e H) as [?|[Hx Hy]]; [left; by rewrite Hfin|right]. rewrite Hl. split; [|done].
    intros s'. rewrite channel_with. destruct (decide (s' = s)) as [->|]; [apply Hd, Hx|apply Hx].
Qed.

Lemma drain_ok s n p : process_ok p → ch_drained (channel_of p s) = false → process_ok (drain s n p).
Proof.
  intros Hp Hd. pose proof Hp as []. set (c := channel_of p s) in *. set (data := take n (ch_pipe c)).
  set (remaining := rq_max_output (gp_request p) - gp_bytes p).
  set (written := Z.min (Z.of_nat (length data)) remaining).
  assert (Hw : 0 <= written <= Z.of_nat (length data)) by (unfold written, remaining; lia).
  set (c' := Channel (ch_written c) (drop n (ch_pipe c)) (ch_open c) (ch_file c ++ take (Z.to_nat written) data) (ch_drained c)).
  set (cut := written <? Z.of_nat (length data)).
  assert (Hc : spooled c' (gp_limited p || cut)).
  { destruct (ok_spooled0 s) as [(dropped & Hwr & Hdr) _]. fold c in Hwr, Hdr. split; [|simpl; fold c; by rewrite Hd].
    exists (if gp_limited p then dropped ++ data else drop (Z.to_nat written) data). unfold c'. simpl. split.
    - rewrite Hwr. destruct (gp_limited p) eqn:El.
      + rewrite (ok_limited0 eq_refl) in *. replace written with 0 by (unfold written, remaining; lia).
        simpl. rewrite app_nil_r. unfold data. rewrite <- !app_assoc, take_drop. done.
      + rewrite (Hdr eq_refl). simpl. rewrite <- app_assoc, (app_assoc (take _ data)), take_drop. unfold data. by rewrite take_drop.
    - intros [H1 H2]%orb_false_iff. rewrite H1. unfold cut in H2. apply drop_ge. lia. }
  destruct (with_channel_fields s c' p) as (Hr & Hb & Hl & _ & Hfin & He & _).
  assert (Hsize : files_size (with_channel s c' p) = files_size p + written).
  { assert (Hlen : Z.of_nat (length (take (Z.to_nat written) data)) = written) by (rewrite length_take; lia).
    unfold files_size, file_of. rewrite !channel_with. destruct s; simpl; rewrite length_app; unfold c in *; simpl in *; lia. }
  assert (Hlim : ∀ b, b = gp_limited p || cut → process_ok ((with_channel s c' p) <| gp_bytes := gp_bytes p + written |> <| gp_limited := b |>)).
  { intros b ->. split; simpl.
    - intros s'. replace (channel_of _ s') with (channel_of (with_channel s c' p) s') by by destruct s'. rewrite channel_with.
      destruct (decide (s' = s)); [done|]. destruct (ok_spooled0 s') as [(dr & H1 & H2) H3]. split; [|done].
      exists dr. split; [done|]. intros [? _]%orb_false_iff. auto.
    - change (gp_bytes p + written = files_size (with_channel s c' p)). lia.
    - rewrite Hr. unfold written, remaining. lia.
    - rewrite Hr. intros [H| H]%orb_true_iff; [specialize (ok_limited0 H); unfold written, remaining; lia|].
      unfold cut, written, remaining in *. lia.
    - by rewrite Hfin, He.
    - by rewrite Hfin, He.
    - rewrite He, Hfin. intros e H. destruct (ok_exit0 e H) as [?|[Hx _]]; [by left|]. specialize (Hx s). fold c in Hx. congruence. }
  unfold drain. fold c data remaining written c' cut. destruct cut eqn:E.
  - specialize (Hlim true). rewrite orb_true_r in Hlim. specialize (Hlim eq_refl).
    unfold kill. destruct (registered _); [|by apply Hlim].
    refine (process_ok_same _ _ Hlim _ _ _ _ _ _); try done; by intros [].
  - specialize (Hlim (gp_limited p)). rewrite orb_false_r in Hlim. specialize (Hlim eq_refl).
    refine (process_ok_same _ _ Hlim _ _ _ _ _ _); try done; by intros [].
Qed.

Lemma new_process_ok r m : 0 <= rq_max_output r → process_ok (new_process r m).
Proof.
  intros Hr. split; try done; simpl.
  - intros s. split; [exists []; destruct s; simpl; [|destruct (rq_pty r)]; done|destruct s; simpl; [|destruct (rq_pty r)]; done].
  - unfold files_size, file_of. simpl. by destruct (rq_pty r).
  - by intros [?|?].
Qed.

Lemma failed_process_ok r m : 0 <= rq_max_output r → process_ok (failed_process r m).
Proof.
  intros Hr. split; try done; simpl.
  - intros s. split; [exists []; by destruct s|by destruct s].
  - by intros [?|?].
  - intros e [= <-]. right. split; [by intros []|done].
Qed.

Lemma cold_boot_ok p : process_ok p → process_ok (cold_boot p).
Proof.
  intros []. split; try done; simpl.
  - by intros [?|?].
  - intros _. by destruct (gp_exit p).
  - intros e H. destruct (gp_exit p) as [x|] eqn:E.
    + injection H as <-. destruct (ok_exit0 x eq_refl) as [[? _]|?]; [by left|by right].
    + injection H as <-. by left.
Qed.

Lemma process_step_ok e p p' : process_step e p = Some p' → process_ok p → process_ok p'.
Proof.
  intros Hs Hp. pose proof Hp as []. destruct e as [s data|s|code|s n|s| | | |]; simpl in Hs.
  - destruct (_ && _) eqn:E; [|done]. injection Hs as <-. bool_prop.
    apply with_channel_ok; [done| |done|simpl; congruence]. destruct (ok_spooled0 s) as [(dr & Hw & Hdr) _].
    split; [|done]. exists dr. simpl. split; [|done]. rewrite Hw, <- !app_assoc. done.
  - injection Hs as <-. apply with_channel_ok; [done| |done|done]. apply ok_spooled0.
  - destruct (_ && _); [|done]. injection Hs as <-. by apply (process_ok_same p).
  - destruct (_ && _) eqn:E; [|done]. injection Hs as <-. bool_prop. by apply drain_ok.
  - destruct (_ && _) eqn:E; [|done]. injection Hs as <-. bool_prop.
    apply with_channel_ok; [done| |done|done]. destruct (ok_spooled0 s) as [(dr & Hw & Hdr) _]. split; [|done].
    exists dr. simpl. split; [|done]. rewrite Hw. by f_equal; f_equal.
  - destruct (_ && _); [|done]. injection Hs as <-. apply kill_ok in Hp. by apply (process_ok_same (kill p)).
  - destruct (_ && _) eqn:E; [|done]. injection Hs as <-. bool_prop.
    split; try done; simpl.
    + intros _. apply ok_waiting0. by left.
    + by intros [?|?].
    + intros x Hx. rewrite ok_waiting0 in Hx by by left. done.
  - destruct (gp_returncode p) as [code|]; [|done]. destruct (_ && _) eqn:E; [|done]. injection Hs as <-.
    rewrite !andb_true_iff in E. destruct E as [[_ E1] E2]. split; try done; simpl.
    + by intros [?|?].
    + intros x [= <-]. right. split; [by intros []|done].
  - destruct (bool_decide _) eqn:E; [|done]. apply bool_decide_eq_true in E. injection Hs as <-. split; try done; simpl.
    + by intros [?|?].
    + intros _. apply ok_gone0. by right.
    + intros x H. destruct (ok_exit0 x H) as [[? ?]|?]; [by left|by right].
Qed.

(** ** What a process never loses *)

Record grows (p p' : guest_process) : Prop := Grows {
  gr_request : gp_request p' = gp_request p;
  gr_file : ∀ s, file_of p s `prefix_of` file_of p' s;
  gr_exit : ∀ e, gp_exit p = Some e → gp_exit p' = Some e ∧ ∀ s, file_of p' s = file_of p s;
  gr_gone : gp_finish p = Gone → gp_finish p' = Gone }.

Lemma grows_refl p : grows p p.
Proof. by split. Qed.

Lemma grows_trans p q r : grows p q → grows q r → grows p r.
Proof.
  intros [H1 H2 H3 H4] [K1 K2 K3 K4]. split; [congruence| |intros e He|auto].
  - intros s. by trans (file_of q s).
  - destruct (H3 e He) as [Hq Hf]. destruct (K3 e Hq) as [Hr Hg]. split; [done|]. intros s. by rewrite Hg, Hf.
Qed.

(** A change of neither a file nor the end *)
Lemma grows_same p p' :
  gp_request p' = gp_request p → (∀ s, file_of p' s = file_of p s) → gp_exit p' = gp_exit p →
  (gp_finish p = Gone → gp_finish p' = Gone) → grows p p'.
Proof. intros Hr Hf He Hg. split; [done|intros s; by rewrite Hf| |done]. intros e ?. by rewrite He. Qed.

Lemma kill_grows p : grows p (kill p).
Proof. unfold kill. destruct (registered p); [|apply grows_refl]. by apply grows_same. Qed.

Lemma with_channel_grows s c p : ch_file c = file_of p s → grows p (with_channel s c p).
Proof.
  intros Hc. destruct (with_channel_fields s c p) as (Hr & _ & _ & _ & Hfin & He & _). apply grows_same; [done| |done|congruence].
  intros s'. unfold file_of in *. rewrite channel_with. by destruct (decide (s' = s)) as [->|].
Qed.

Lemma cold_boot_grows p : grows p (cold_boot p).
Proof. split; try done. intros e He. simpl. by rewrite He. Qed.

Lemma drain_fields s n p :
  gp_request (drain s n p) = gp_request p ∧ gp_exit (drain s n p) = gp_exit p ∧ gp_finish (drain s n p) = gp_finish p ∧
  ∀ s', file_of p s' `prefix_of` file_of (drain s n p) s'.
Proof.
  unfold drain. destruct (_ <? _); [unfold kill; destruct (registered _)|]; destruct s; simpl; (split_and!; [done..|]);
    intros []; unfold file_of; simpl; first [done|by apply prefix_app_r].
Qed.

Lemma process_step_grows e p p' : process_step e p = Some p' → process_ok p → grows p p'.
Proof.
  intros Hs Hp. destruct e as [s data|s|code|s n|s| | | |]; simpl in Hs.
  - destruct (_ && _); [|done]. injection Hs as <-. by apply with_channel_grows.
  - injection Hs as <-. by apply with_channel_grows.
  - destruct (_ && _); [|done]. injection Hs as <-. by apply grows_same.
  - destruct (_ && _) eqn:E; [|done]. injection Hs as <-. bool_prop.
    destruct (drain_fields s n p) as (Hr & He & Hf & Hpre). split; [done|done| |by rewrite Hf].
    intros e Hx. exfalso. destruct (ok_exit p Hp e Hx) as [[_ Hg]|[Hd _]]; [|by rewrite Hd in *].
    unfold registered in *. by rewrite Hg in *.
  - destruct (_ && _); [|done]. injection Hs as <-. by apply with_channel_grows.
  - destruct (_ && _); [|done]. injection Hs as <-. eapply grows_trans; [apply kill_grows|]. by apply grows_same.
  - destruct (_ && _) eqn:E; [|done]. injection Hs as <-. bool_prop. apply grows_same; try done. simpl. congruence.
  - destruct (gp_returncode p) as [code|]; [|done]. destruct (_ && _) eqn:E; [|done]. injection Hs as <-. bool_prop.
    split; try done; simpl; [|congruence]. intros e He. rewrite (ok_waiting p Hp) in He by by right. done.
  - destruct (bool_decide _); [|done]. injection Hs as <-. by apply grows_same.
Qed.

(** * The agent *)

Definition agent_ok (a : agent) : Prop := map_Forall (λ _ p, process_ok p) (ag_processes a).

(** Every process of [a] is still there. *)
Definition agent_grows (a a' : agent) : Prop :=
  ∀ i p, ag_processes a !! i = Some p → ∃ p', ag_processes a' !! i = Some p' ∧ grows p p'.

Lemma agent_grows_refl a : agent_grows a a.
Proof. intros i p Hp. exists p. split; [done|apply grows_refl]. Qed.

Lemma agent_grows_trans a b c : agent_grows a b → agent_grows b c → agent_grows a c.
Proof.
  intros Hab Hbc i p Hp. destruct (Hab i p Hp) as (q & Hq & Hpq). destruct (Hbc i q Hq) as (r & Hr & Hqr).
  exists r. split; [done|by eapply grows_trans].
Qed.

(** An operation that keeps both *)
Definition improves (a a' : agent) : Prop := (agent_ok a → agent_ok a') ∧ (agent_ok a → agent_grows a a').

Lemma improves_refl a : improves a a.
Proof. split; [done|]. intros _. apply agent_grows_refl. Qed.

Lemma improves_trans a b c : improves a b → improves b c → improves a c.
Proof. intros [H1 H2] [K1 K2]. split; [auto|]. intros H. eapply agent_grows_trans; auto. Qed.

Lemma improves_map a f service : (∀ p, process_ok p → process_ok (f p) ∧ grows p (f p)) →
  improves a (Agent (f <$> ag_processes a) service).
Proof.
  intros Hf. split; intros Ha.
  - intros i p (q & <- & Hq)%lookup_fmap_Some. apply Hf, (Ha i q Hq).
  - intros i p Hp. exists (f p). simpl. rewrite lookup_fmap, Hp. split; [done|]. apply Hf, (Ha i p Hp).
Qed.

Lemma improves_set a i p : (∀ q, ag_processes a !! i = Some q → process_ok q → grows q p) → (agent_ok a → process_ok p) →
  improves a (set_process i p a).
Proof.
  intros Hg Hp. split; intros Ha.
  - apply map_Forall_insert_2; auto.
  - intros j q Hq. simpl. destruct (decide (j = i)) as [->|].
    + exists p. rewrite lookup_insert_eq. split; [done|]. apply Hg; [done|]. apply (Ha i q Hq).
    + exists q. rewrite lookup_insert_ne by done. split; [done|apply grows_refl].
Qed.

Lemma improves_change a i q p : ag_processes a !! i = Some q → (process_ok q → process_ok p ∧ grows q p) → improves a (set_process i p a).
Proof.
  intros Hq H. apply improves_set; [|intros Ha; by apply H, (Ha i q)]. intros q' Hq' Hok.
  rewrite Hq in Hq'. injection Hq' as <-. by apply H.
Qed.

Lemma sweep_improves a : improves a (sweep a).
Proof.
  unfold sweep. destruct (service_exited a); [|apply improves_refl]. apply improves_map. intros p Hp.
  destruct (gp_maintenance p); [by split; [|apply grows_refl]|]. split; [by apply kill_ok|apply kill_grows].
Qed.

Lemma service_improves a s : improves a (Agent (ag_processes a) s).
Proof. split; intros Ha; [done|]. intros i p Hp. exists p. split; [done|apply grows_refl]. Qed.

Lemma spawn_improves a i s acc l : improves a (spawn a i s acc l).2.
Proof.
  unfold spawn. destruct (spawn_request i s acc) as [r|e] eqn:Er; [|apply improves_refl].
  assert (Hr : 0 <= rq_max_output r).
  { unfold spawn_request in Er. repeat (apply bind_ok in Er as (? & ?%raise_if_ok & Er) || apply bind_ok in Er as (? & ? & Er)).
    injection Er as <-. simpl. bool_prop. lia. }
  destruct (ag_processes a !! i) as [p|] eqn:Hi; [by destruct (bool_decide (gp_request p = r)); apply improves_refl|]. cbv zeta.
  set (a1 := if sp_maintenance s then a else sweep a).
  assert (H1 : improves a a1) by (unfold a1; destruct (sp_maintenance s); [apply improves_refl|apply sweep_improves]).
  assert (Hnone : ag_processes a1 !! i = None).
  { unfold a1, sweep. destruct (sp_maintenance s); [done|]. destruct (service_exited a); [|done]. simpl. by rewrite lookup_fmap, Hi. }
  assert (Hnew : ∀ p, process_ok p → improves a (set_process i p a1)).
  { intros p Hp. eapply improves_trans; [exact H1|]. apply improves_set; [|done]. intros q Hq. congruence. }
  destruct (_ && _); [exact H1|]. destruct l; apply Hnew; [by apply new_process_ok|by apply failed_process_ok].
Qed.

Lemma stdin_improves a i data close room eot : improves a (process_stdin a i data close room eot).2.
Proof.
  unfold process_stdin. destruct (ag_processes a !! i) as [p|] eqn:Hi; [|apply improves_refl].
  destruct (_ && _); [|apply improves_refl]. destruct (if bool_decide _ then _ else _) as [n|]; [|apply improves_refl].
  cbv zeta. destruct (_ && _); [|destruct (_ && _)]; (eapply improves_change; [exact Hi|]); intros Hp;
    (split; [by apply (process_ok_same p)|by apply grows_same]).
Qed.

Lemma terminate_improves a i n : improves a (process_terminate a i n).2.
Proof.
  unfold process_terminate. destruct (negb _); [apply improves_refl|]. simpl.
  destruct (ag_processes a !! i) as [p|] eqn:Hi; [|apply improves_refl]. destruct (n =? 9); [|apply improves_refl].
  eapply improves_change; [exact Hi|]. intros Hp. split; [by apply kill_ok|apply kill_grows].
Qed.

Lemma agent_step_improves e a a' : agent_step e a = Some a' → improves a a'.
Proof.
  destruct e as [i s acc l|i data close room eot|i n|i|i e| |]; simpl; intros Hs.
  - injection Hs as <-. apply spawn_improves.
  - injection Hs as <-. apply stdin_improves.
  - injection Hs as <-. apply terminate_improves.
  - injection Hs as <-. unfold watch_process. destruct (process_status a i); [|apply improves_refl].
    destruct (match ag_service a with Some _ => _ | None => _ end); [apply improves_refl|].
    eapply improves_trans; [apply service_improves|apply sweep_improves].
  - destruct (ag_processes a !! i) as [p|] eqn:Hi; [|done]. simpl in Hs.
    destruct (process_step e p) as [p'|] eqn:Ep; [|done]. simpl in Hs.
    assert (H : improves a (set_process i p' a)).
    { eapply improves_change; [exact Hi|]. intros Hp. split; [by eapply process_step_ok|by eapply process_step_grows]. }
    destruct e; injection Hs as <-; try exact H. destruct (bool_decide _); [|exact H].
    eapply improves_trans; [exact H|apply sweep_improves].
  - injection Hs as <-. apply sweep_improves.
  - injection Hs as <-. apply improves_map. intros p Hp. split; [by apply cold_boot_ok|apply cold_boot_grows].
Qed.

Lemma agent_run_improves l a a' : agent_run l a = Some a' → improves a a'.
Proof.
  revert a. induction l as [|e l IH]; intros a Hl; simpl in Hl; [injection Hl as <-; apply improves_refl|].
  destruct (agent_step e a) as [a1|] eqn:E; [|done]. eapply improves_trans; [by eapply agent_step_improves|by apply IH].
Qed.

Lemma agent_reachable_ok a : agent_reachable a → agent_ok a.
Proof. intros [l Hl]. apply (agent_run_improves l start_agent a Hl). by apply map_Forall_empty. Qed.

(** * What holds *)

(** The output that is kept is what the process wrote: each file is a prefix of the
    bytes that entered its pipe, the files never exceed the budget, and once the end is
    recorded nothing is missing unless the budget is used up and the record says so (a
    cold boot may cut the files off). *)
Theorem output_spooled a i p :
  agent_reachable a → ag_processes a !! i = Some p →
  (∀ s, file_of p s `prefix_of` ch_written (channel_of p s)) ∧ files_size p ≤ rq_max_output (gp_request p) ∧
  ∀ e, gp_exit p = Some e → e ≠ cold →
       if ex_limited e then files_size p = rq_max_output (gp_request p)
       else ∀ s, file_of p s = ch_written (channel_of p s).
Proof.
  intros Ha Hp. pose proof (agent_reachable_ok a Ha i p Hp) as []. split_and!.
  - intros s. destruct (ok_spooled0 s) as [(dr & -> & _) _]. by apply prefix_app_r.
  - lia.
  - intros e He Hc. destruct (ok_exit0 e He) as [[? _]|[Hd Hl]]; [done|]. rewrite Hl. destruct (gp_limited p).
    + rewrite <- ok_bytes0. by apply ok_limited0.
    + intros s. destruct (ok_spooled0 s) as [(dr & -> & Hdr) Hpipe]. rewrite (Hdr eq_refl), (Hpipe (Hd s)).
      unfold file_of. by rewrite app_nil_r.
Qed.

(** A command runs once: in every later state of the agent, through cold boots, its
    identity keeps its request, its files only grow, a recorded end stays and freezes the
    files, and a further [spawn] starts nothing: it reports the same command and refuses
    another. *)
Theorem commands_run_once l a a' i p :
  agent_reachable a → ag_processes a !! i = Some p → agent_run l a = Some a' →
  ∃ p', ag_processes a' !! i = Some p' ∧ gp_request p' = gp_request p ∧
    (∀ s, file_of p s `prefix_of` file_of p' s) ∧
    (∀ e, gp_exit p = Some e → gp_exit p' = Some e ∧ ∀ s, file_of p' s = file_of p s) ∧
    ∀ s account launch r, spawn_request i s account = Ok r →
      spawn a' i s account launch = (if decide (r = gp_request p) then process_status a' i
                                     else raise ValueError "process ID was already used for another command", a').
Proof.
  intros Ha Hp Hl. destruct (agent_run_improves l a a' Hl) as [_ Hg].
  destruct (Hg (agent_reachable_ok a Ha) i p Hp) as (p' & Hp' & []). exists p'. split_and!; try done.
  intros s account launch r Hr. unfold spawn. rewrite Hr, Hp'. destruct (decide (r = gp_request p)) as [->|Hne].
  - by rewrite bool_decide_eq_true_2.
  - rewrite bool_decide_eq_false_2; [done|congruence].
Qed.

(** ** The end is recorded *)

Fixpoint process_run (l : list guest_event) (p : guest_process) : option guest_process :=
  match l with [] => Some p | e :: l => p' ← process_step e p; process_run l p' end.

Lemma process_run_app l l' p : process_run (l ++ l') p = process_run l p ≫= process_run l'.
Proof. revert p. induction l as [|e l IH]; intros p; [done|]. simpl. by destruct (process_step e p); simpl. Qed.

Definition is_reap (e : guest_event) : bool := match e with GReap => true | _ => false end.

Lemma process_run_lifts l a i p p' :
  process_run l p = Some p' → forallb (λ e, negb (is_reap e)) l = true → ag_processes a !! i = Some p →
  ∃ a', agent_run (map (AProcess i) l) a = Some a' ∧ ag_processes a' !! i = Some p'.
Proof.
  revert a p. induction l as [|e l IH]; intros a p Hl Hr Hp; simpl in *.
  - injection Hl as <-. by exists a.
  - destruct (process_step e p) as [p1|] eqn:E; [|done]. simpl in Hl. apply andb_true_iff in Hr as [Hr1 Hr2].
    rewrite Hp. simpl. rewrite E. simpl. destruct (IH (set_process i p1 a) p1 Hl Hr2) as (a' & Ha' & Hp'); [apply lookup_insert_eq|].
    exists a'. split; [|done]. destruct e; done.
Qed.

(** The state of the thread that waits, and of the other output *)
Definition same_end (s : output_stream) (p p' : guest_process) : Prop :=
  gp_returncode p' = gp_returncode p ∧ gp_finish p' = gp_finish p ∧
  ∀ s', s' ≠ s → channel_of p' s' = channel_of p s'.

Lemma drain_same s n p : same_end s p (drain s n p).
Proof.
  unfold same_end, drain. destruct (_ <? _); [unfold kill; destruct (registered _)|]; destruct s; (split_and!; [done..|]);
    by intros [].
Qed.

Lemma drain_pipe s n p : ch_pipe (channel_of (drain s n p) s) = drop n (ch_pipe (channel_of p s)) ∧
  ch_drained (channel_of (drain s n p) s) = ch_drained (channel_of p s).
Proof. unfold drain. destruct (_ <? _); [unfold kill; destruct (registered _)|]; by destruct s. Qed.

Lemma drains s p : registered p = true → is_Some (gp_returncode p) →
  ∃ l p', process_run l p = Some p' ∧ forallb (λ e, negb (is_reap e)) l = true ∧ same_end s p p' ∧
          ch_drained (channel_of p' s) = true.
Proof.
  remember (length (ch_pipe (channel_of p s))) as k eqn:Hk. revert p Hk.
  induction (lt_wf k) as [k _ IH]; intros p -> Hreg Hcode.
  destruct (decide (ch_drained (channel_of p s) = true)) as [Hd|Hd]; [by exists [], p|]. apply not_true_is_false in Hd.
  destruct (decide (ch_pipe (channel_of p s) = [])) as [He|He].
  - eexists [GDrained s], _. simpl. rewrite Hreg, (bool_decide_eq_true_2 _ He), (bool_decide_eq_true_2 _ Hcode), orb_true_r.
    split; [reflexivity|]. split; [done|]. split; [by destruct s; (split_and!; [done..|by intros []])|by destruct s].
  - destruct (drain_same s (N.to_nat 65536) p) as (Hc & Hf & Ho). destruct (drain_pipe s (N.to_nat 65536) p) as [Hp1 Hd1].
    destruct (IH (length (ch_pipe (channel_of (drain s (N.to_nat 65536) p) s)))) with (p := drain s (N.to_nat 65536) p)
      as (l & p' & Hl & Hr & (H1 & H2 & H3) & H4); [|done| | |].
    + rewrite Hp1, length_drop. destruct (ch_pipe (channel_of p s)); [done|]. simpl length. lia.
    + unfold registered in *. by rewrite Hf.
    + by rewrite Hc.
    + exists (GDrain s (N.to_nat 65536) :: l), p'. split; [|split; [done|]].
      * cbn [process_run process_step]. rewrite Hreg, Hd, (bool_decide_eq_false_2 _ He). exact Hl.
      * split; [|done]. split_and!; [congruence..|]. intros s' Hs'. by rewrite H3, Ho.
Qed.

Lemma reaps a i p returncode : ag_processes a !! i = Some p → gp_finish p = Waiting → gp_returncode p = Some returncode →
  ∃ a' p', agent_step (AProcess i GReap) a = Some a' ∧ ag_processes a' !! i = Some p' ∧ gp_finish p' = Reaped ∧
    gp_returncode p' = Some returncode.
Proof.
  intros Hp Hf Hc. set (p1 := p <| gp_finish := Reaped |>).
  assert (Hs : process_step GReap p = Some p1) by (unfold process_step; by rewrite !bool_decide_eq_true_2 by (rewrite ?Hf, ?Hc; by eauto)).
  assert (H1 : ag_processes (set_process i p1 a) !! i = Some p1) by apply lookup_insert_eq.
  cbn [agent_step]. rewrite Hp. cbn [mbind option_bind]. rewrite Hs. cbn [mbind option_bind]. destruct (bool_decide _).
  - unfold sweep. destruct (service_exited _); [|by exists (set_process i p1 a), p1].
    eexists _, _. split; [reflexivity|]. cbn [ag_processes]. rewrite lookup_fmap, H1. split; [reflexivity|]. simpl.
    by destruct (gp_maintenance p).
  - by exists (set_process i p1 a), p1.
Qed.

Lemma records a i p returncode : ag_processes a !! i = Some p → gp_finish p = Reaped → gp_returncode p = Some returncode →
  ∃ l a' p' e, agent_run (map (AProcess i) l) a = Some a' ∧ ag_processes a' !! i = Some p' ∧
    gp_exit p' = Some e ∧ ex_returncode e = returncode.
Proof.
  intros Hp Hf Hc.
  destruct (drains Stdout p) as (l1 & p1 & Hl1 & Hr1 & (C1 & F1 & _) & D1); [unfold registered; by rewrite Hf|by rewrite Hc|].
  destruct (drains Stderr p1) as (l2 & p2 & Hl2 & Hr2 & (C2 & F2 & O2) & D2);
    [unfold registered; by rewrite F1, Hf|by rewrite C1, Hc|].
  rewrite <- (O2 Stdout) in D1 by done.
  set (p3 := p2 <| gp_exit := Some (ExitRecord returncode (gp_timed_out p2) (gp_limited p2)) |> <| gp_finish := Recorded |>).
  assert (Hrec : process_step GRecord p2 = Some p3).
  { unfold process_step. replace (gp_returncode p2) with (Some returncode) by congruence.
    rewrite bool_decide_eq_true_2 by congruence. simpl in D1, D2. by rewrite D1, D2. }
  destruct (process_run_lifts ((l1 ++ l2) ++ [GRecord]) a i p p3) as (a' & Ha' & Hp'); [| |exact Hp|].
  - rewrite !process_run_app, Hl1. cbn [mbind option_bind]. rewrite Hl2. cbn [mbind option_bind process_run]. by rewrite Hrec.
  - rewrite !forallb_app, Hr1, Hr2. done.
  - eexists _, a', _, _. split; [exact Ha'|]. split; [exact Hp'|]. done.
Qed.

(** The end of a process is always recorded: whatever its descendants left in the
    pipes, once it has ended the threads of the agent can finish, and [exit.json] holds
    its return code. *)
Theorem end_recorded a i p returncode :
  agent_reachable a → ag_processes a !! i = Some p → gp_exit p = None → gp_returncode p = Some returncode →
  ∃ l a' p' e, agent_run (map (AProcess i) l) a = Some a' ∧ ag_processes a' !! i = Some p' ∧
    gp_exit p' = Some e ∧ ex_returncode e = returncode.
Proof.
  intros Ha Hp He Hc. pose proof (agent_reachable_ok a Ha i p Hp) as Hok. destruct (gp_finish p) eqn:Hf.
  - destruct (reaps a i p returncode Hp Hf Hc) as (a1 & p1 & Hs & Hp1 & Hf1 & Hc1).
    destruct (records a1 i p1 returncode Hp1 Hf1 Hc1) as (l & a' & p' & e & Hl & H). exists (GReap :: l), a', p', e.
    split; [|done]. cbn [map agent_run]. rewrite Hs. exact Hl.
  - by apply (records a i p).
  - destruct (ok_gone p Hok) as [e Hx]; [by right|congruence].
  - destruct (ok_gone p Hok) as [e Hx]; [by left|congruence].
Qed.

(** * Witnesses *)

Definition ex_spawning : spawning := Spawning ["sh"; "-c"; "echo hello"] "/workspace" ∅ "root" None 8 NoTerminal false.

Definition ex_request : guest_request := GuestRequest ["sh"; "-c"; "echo hello"] "/workspace" ∅ "root" None 8 None.

(** The command writes, and ends with bytes still in the pipe. *)
Definition ex_started : list agent_event :=
  [ASpawn "command" ex_spawning (Ok ()) (Ok ()); AProcess "command" (GWrite Stdout [104; 101]);
   AProcess "command" (GDrain Stdout 100); AProcess "command" (GWrite Stdout [108; 108; 111; 10]); AProcess "command" (GExit 0)].

Definition ex_finished : list agent_event :=
  map (AProcess "command") [GReap; GDrain Stdout 100; GDrained Stdout; GDrained Stderr; GRecord; GForget].

Definition agent_after (l : list agent_event) : agent := default start_agent (agent_run l start_agent).

Lemma agent_after_reachable l : is_Some (agent_run l start_agent) → agent_reachable (agent_after l).
Proof. intros [a Ha]. exists l. unfold agent_after. by rewrite Ha. Qed.

Definition ex_running : agent := agent_after ex_started.

Lemma ex_running_reachable : agent_reachable ex_running.
Proof. apply agent_after_reachable. vm_compute. eauto. Qed.

Definition ex_process : guest_process :=
  GuestProcess ex_request false (Channel [104; 101; 108; 108; 111; 10] [108; 108; 111; 10] true [104; 101] false)
    new_channel 2 false (Some 0) false false Waiting None [] false.

Lemma commands_run_once_witness :
  ∃ p', ag_processes (agent_after (ex_started ++ ex_finished)) !! "command" = Some p' ∧ gp_request p' = gp_request ex_process ∧
    (∀ s, file_of ex_process s `prefix_of` file_of p' s) ∧
    (∀ e, gp_exit ex_process = Some e → gp_exit p' = Some e ∧ ∀ s, file_of p' s = file_of ex_process s) ∧
    ∀ s account launch r, spawn_request "command" s account = Ok r →
      spawn (agent_after (ex_started ++ ex_finished)) "command" s account launch =
        (if decide (r = gp_request ex_process) then process_status (agent_after (ex_started ++ ex_finished)) "command"
         else raise ValueError "process ID was already used for another command", agent_after (ex_started ++ ex_finished)).
Proof.
  apply (commands_run_once ex_finished ex_running (agent_after (ex_started ++ ex_finished)) "command" ex_process);
    [exact ex_running_reachable|vm_compute; reflexivity|vm_compute; reflexivity].
Defined.

Lemma end_recorded_witness :
  ∃ l a' p' e, agent_run (map (AProcess "command") l) ex_running = Some a' ∧ ag_processes a' !! "command" = Some p' ∧
    gp_exit p' = Some e ∧ ex_returncode e = 0.
Proof.
  apply (end_recorded ex_running "command" ex_process 0); [exact ex_running_reachable|vm_compute; reflexivity..].
Defined.

Lemma output_spooled_witness :
  (∀ s, file_of ex_process s `prefix_of` ch_written (channel_of ex_process s)) ∧
  files_size ex_process ≤ rq_max_output (gp_request ex_process) ∧
  ∀ e, gp_exit ex_process = Some e → e ≠ cold →
       if ex_limited e then files_size ex_process = rq_max_output (gp_request ex_process)
       else ∀ s, file_of ex_process s = ch_written (channel_of ex_process s).
Proof. apply (output_spooled ex_running "command"); [exact ex_running_reachable|vm_compute; reflexivity]. Defined.
