(* ===== verification/ProcessStreams.v ===== *)
(** Process handles ([sandbox/process.py]): a client reads the files of a guest process by
    offset while the process runs, and may lose any call; what it returns is decoded by
    an incremental decoder. *)

From S2P Require Import Prelude.
From S2P Require Import GuestProcesses.

#[local] Open Scope Z_scope.

(** * Decoders *)

(** [codecs.getincrementaldecoder('utf-8')(errors='replace')], or none for binary
    streams: bytes become symbols, the rest of an incomplete one stays in the state, and
    [flush] is [decode(b'', final=True)], which leaves the initial state. *)
Class Decoder (S A : Type) := {
  dc_init : S;
  decode : S → bytes → S * list A;
  flush : S → list A;
  newline : A }.

Class DecoderLaws (S A : Type) `{Decoder S A} : Prop := {
  decode_nil s : decode s [] = (s, []);
  decode_app s a b : decode s (a ++ b) = ((decode (decode s a).1 b).1, (decode s a).2 ++ (decode (decode s a).1 b).2);
  flush_init : flush dc_init = [] }.

(** Binary streams *)
#[export] Instance binary : Decoder () Z := {|
  dc_init := (); decode := λ _ data, ((), data); flush := λ _, []; newline := 10 |}.

#[export] Instance binary_laws : DecoderLaws () Z.
Proof. by constructor; [intros []| |]. Qed.

(** * The reader *)

Section Reader.

Context {D A : Type} `{!EqDecision A, HD : !Decoder D A, HL : !DecoderLaws D A}.

(** [read()] and [read(-1)], [read(n)], [readline()] *)
Inductive goal := All | Size (n : nat) | Line.

(** Where a call of [read] or [readline] is: before its next chunk, before [_wait], or
    before the chunk after the end. *)
Inductive place := Idle | Chunk (g : goal) | Wait (g : goal) | Last (g : goal).

Record reader := Reader {
  rd_offset : nat; rd_buffer : list A; rd_decoder : D; rd_place : place;
  rd_final : option report;              (* [Process._final] *)
  rd_returned : list (list A) }.         (* what the calls returned so far *)

Definition start_reader : reader := Reader 0 [] dc_init Idle None [].

(** The buffer is enough: what to return, and what stays *)
Definition enough (g : goal) (buffer : list A) : option (list A * list A) :=
  match g with
  | All => None
  | Size n => if (n <=? length buffer)%nat then Some (take n buffer, drop n buffer) else None
  | Line => match list_find (λ x, x = newline) buffer with
            | Some (i, _) => Some (take (i + 1) buffer, drop (i + 1) buffer)
            | None => None
            end
  end.

(** The end of the stream: what to return, and what stays *)
Definition at_end (g : goal) (buffer : list A) : list A * list A :=
  match g with
  | All | Line => (buffer, [])
  | Size n => (take n buffer, drop n buffer)
  end.

Definition return_ (r : reader) (x : list A * list A) : reader :=
  Reader (rd_offset r) x.2 (rd_decoder r) Idle (rd_final r) (rd_returned r ++ [x.1]).

Definition at_place (r : reader) (p : place) : reader :=
  Reader (rd_offset r) (rd_buffer r) (rd_decoder r) p (rd_final r) (rd_returned r).

(** The head of the loop *)
Definition loop (g : goal) (r : reader) : reader :=
  match enough g (rd_buffer r) with Some x => return_ r x | None => at_place r (Chunk g) end.

(** [_finished] *)
Definition finished (stream : output_stream) (r : reader) : bool :=
  match rd_final r with Some final => size_of final stream <=? Z.of_nat (rd_offset r) | None => false end.

(** [_chunk], with the outcome of [process_output] *)
Definition chunk (a : agent) (identity : string) (stream : output_stream) (r : reader) : res bytes :=
  if finished stream r then Ok []
  else process_output a identity stream (Z.of_nat (rd_offset r)) (1024 ^ 2).

(** [_decode], and [self.buffer += chunk] *)
Definition received (data : bytes) (r : reader) : reader :=
  let '(s, symbols) := decode (rd_decoder r) data in
  Reader (rd_offset r + length data) (rd_buffer r ++ symbols) s (rd_place r) (rd_final r) (rd_returned r).

(** [_remember] *)
Definition remember (p : report) (r : reader) : reader :=
  Reader (rd_offset r) (rd_buffer r) (rd_decoder r) (rd_place r)
    (match rp_returncode p with Some _ => Some p | None => rd_final r end) (rd_returned r).

(** [_waiting]: one report, of [process_status] or [process_wait] *)
Definition waiting (a : agent) (identity : string) (r : reader) : res report :=
  match rd_final r with Some final => Ok final | None => process_status a identity end.

(** [self.decoder.decode(b'', final=True)] *)
Definition flushed (r : reader) : reader :=
  Reader (rd_offset r) (rd_buffer r ++ flush (rd_decoder r)) dc_init (rd_place r) (rd_final r) (rd_returned r).

Inductive reader_event :=
  | RStart (g : goal)      (* a call of [read] or [readline] *)
  | RNext                  (* its next request, answered *)
  | RFail                  (* a request raises, and so does the call *)
  | RPoll.                 (* [poll], [wait] or the other stream learns the state *)

Definition reader_step (a : agent) (identity : string) (stream : output_stream) (e : reader_event) (r : reader) : option reader :=
  match e, rd_place r with
  | RStart g, Idle =>
      Some (match g with Size 0 => return_ r ([], rd_buffer r) | _ => loop g r end)
  | RNext, Chunk g =>
      Some (match chunk a identity stream r with
            | Ok [] => at_place r (Wait g)
            | Ok data => loop g (received data r)
            | Err _ => at_place r Idle
            end)
  | RNext, Wait g =>
      Some (match waiting a identity r with
            | Ok p =>
                let r := remember p r in
                match rp_returncode p with Some _ => at_place r (Last g) | None => loop g r end
            | Err _ => at_place r Idle
            end)
  | RNext, Last g =>
      Some (match chunk a identity stream r with
            | Ok [] => let r := flushed r in return_ r (at_end g (rd_buffer r))
            | Ok data => loop g (received data r)
            | Err _ => at_place r Idle
            end)
  | RFail, Chunk _ | RFail, Wait _ | RFail, Last _ => Some (at_place r Idle)
  | RPoll, _ =>
      Some (match waiting a identity r with Ok p => remember p r | Err _ => r end)
  | _, _ => None
  end.

(** * A process and its reader *)

Inductive session_event := SAgent (e : agent_event) | SReader (e : reader_event).

Record session := Session { se_agent : agent; se_reader : reader }.

Definition session_step (identity : string) (stream : output_stream) (e : session_event) (s : session) : option session :=
  match e with
  | SAgent e => a ← agent_step e (se_agent s); Some (Session a (se_reader s))
  | SReader e => r ← reader_step (se_agent s) identity stream e (se_reader s); Some (Session (se_agent s) r)
  end.

Fixpoint session_run (identity : string) (stream : output_stream) (l : list session_event) (s : session) : option session :=
  match l with
  | [] => Some s
  | e :: l => s' ← session_step identity stream e s; session_run identity stream l s'
  end.

(** A session starts when the process has been started. *)
Definition session_reachable (identity : string) (stream : output_stream) (s : session) : Prop :=
  ∃ a l, agent_reachable a ∧ is_Some (ag_processes a !! identity) ∧
    session_run identity stream l (Session a start_reader) = Some s.

(** ** The invariant *)

Definition goal_of (p : place) : option goal :=
  match p with Idle => None | Chunk g | Wait g | Last g => Some g end.

(** What was returned and what is buffered *)
Definition so_far (r : reader) : list A := concat (rd_returned r) ++ rd_buffer r.

(** The symbols of a file, and those of a file that is complete *)
Definition symbols (file : bytes) : list A := (decode dc_init file).2.
Definition all_symbols (file : bytes) : list A := symbols file ++ flush (decode dc_init file).1.

Definition reader_at (p : guest_process) (file : bytes) (r : reader) : Prop :=
  (rd_decoder r = (decode dc_init (take (rd_offset r) file)).1 ∧ so_far r = symbols (take (rd_offset r) file)) ∨
  (is_Some (gp_exit p) ∧ rd_offset r = length file ∧ rd_decoder r = dc_init ∧ so_far r = all_symbols file).

Record reader_ok (stream : output_stream) (p : guest_process) (r : reader) : Prop := ReaderOk {
  rok_offset : (rd_offset r <= length (file_of p stream))%nat;
  rok_at : reader_at p (file_of p stream) r;
  rok_final : ∀ f, rd_final r = Some f → is_Some (rp_returncode f) ∧ is_Some (gp_exit p) ∧
    size_of f stream = Z.of_nat (length (file_of p stream));
  rok_last : ∀ g, rd_place r = Last g → is_Some (gp_exit p);
  rok_goal : ∀ g, goal_of (rd_place r) = Some g → g ≠ Size 0 }.

Lemma reader_ok_grows stream p p' r : grows p p' → reader_ok stream p r → reader_ok stream p' r.
Proof.
  intros Hg [Ho Ha Hf Hl Hgo]. pose proof (gr_file p p' Hg stream) as [more Hmore].
  assert (He : is_Some (gp_exit p) → is_Some (gp_exit p') ∧ file_of p' stream = file_of p stream).
  { intros [e He]. destruct (gr_exit p p' Hg e He) as [? Hs]. split; [by exists e|apply Hs]. }
  split.
  - rewrite Hmore, length_app. lia.
  - destruct Ha as [[H1 H2]|(H1 & H2 & H3 & H4)].
    + left. rewrite Hmore, take_app_le by done. done.
    + right. destruct (He H1) as [H5 H6]. rewrite H6. done.
  - intros f Hx. destruct (Hf f Hx) as (H1 & H2 & H3). destruct (He H2) as [H4 H5]. by rewrite H5.
  - intros g Hx. by apply He, (Hl g).
  - done.
Qed.

Lemma output_ok a i p stream offset data :
  ag_processes a !! i = Some p → process_output a i stream (Z.of_nat offset) (1024 ^ 2) = Ok data →
  data = take (Z.to_nat (1024 ^ 2)) (drop offset (file_of p stream)).
Proof.
  intros Hp H. unfold process_output in H. apply bind_ok in H as (? & _ & H). unfold lookup in H.
  apply bind_ok in H as (q & (? & _ & Hq)%bind_ok & H). rewrite Hp in Hq. injection Hq as <-. injection H as <-.
  rewrite Nat2Z.id. done.
Qed.

Lemma report_exit p : is_Some (rp_returncode (report_of p)) ↔ is_Some (gp_exit p).
Proof. simpl. by rewrite fmap_is_Some. Qed.

Lemma status_ok a i p x : ag_processes a !! i = Some p → process_status a i = Ok x → x = report_of p.
Proof.
  intros Hp H. unfold process_status, lookup in H. apply bind_ok in H as (q & (? & _ & Hq)%bind_ok & H).
  rewrite Hp in Hq. injection Hq as <-. by injection H as <-.
Qed.

Lemma remember_ok a i stream p r x :
  ag_processes a !! i = Some p → waiting a i r = Ok x → reader_ok stream p r →
  reader_ok stream p (remember x r) ∧ (is_Some (rp_returncode x) → is_Some (gp_exit p)).
Proof.
  intros Hp Hx [Ho Ha Hf Hl Hg]. unfold waiting in Hx. destruct (rd_final r) as [f|] eqn:Ef.
  - injection Hx as <-. destruct (Hf f eq_refl) as (H1 & H2 & H3). split; [|done].
    split; try done. simpl. intros f' Hf'. assert (f' = f) as -> by (destruct (rp_returncode f); congruence). done.
  - apply (status_ok a i p) in Hx as ->; [|done]. split; [|by apply report_exit].
    split; try done. simpl. destruct (gp_exit p) as [e|] eqn:He; simpl; [|intros f Hff; congruence].
    intros f [= <-]. simpl. rewrite He. split; [by eexists|]. split; [by eexists|]. by destruct stream.
Qed.

Lemma at_place_ok stream p r pl : reader_ok stream p r →
  (∀ g, pl = Last g → is_Some (gp_exit p)) → (∀ g, goal_of pl = Some g → g ≠ Size 0) → reader_ok stream p (at_place r pl).
Proof. intros [] Hl Hg. by split. Qed.

Lemma return_ok stream p r x : reader_ok stream p r → x.1 ++ x.2 = rd_buffer r → reader_ok stream p (return_ r x).
Proof.
  intros [Ho Ha Hf Hl Hg] Hx. split; try done.
  assert (Hs : so_far (return_ r x) = so_far r).
  { unfold so_far. simpl. rewrite concat_app, <- app_assoc. simpl. by rewrite app_nil_r, Hx. }
  unfold reader_at. by rewrite Hs.
Qed.

Lemma enough_split g b x : enough g b = Some x → x.1 ++ x.2 = b ∧ (g ≠ Size 0 → x.1 ≠ []).
Proof.
  unfold enough. destruct g as [|n|]; [done| |].
  - destruct (n <=? length b)%nat eqn:E; [|done]. intros [= <-]. simpl. split; [apply take_drop|]. bool_prop.
    intros Hn Hx%(f_equal length). rewrite length_take in Hx. simpl in Hx. destruct n; [done|lia].
  - destruct (list_find _ b) as [[i y]|] eqn:E; [|done]. intros [= <-]. simpl. split; [apply take_drop|].
    intros _ Hx%(f_equal length). apply list_find_Some in E as [E _]. apply lookup_lt_Some in E. rewrite length_take in Hx. simpl in Hx. lia.
Qed.

Lemma loop_ok stream p r g : reader_ok stream p r → g ≠ Size 0 → reader_ok stream p (loop g r).
Proof.
  intros Hr Hg. unfold loop. destruct (enough g (rd_buffer r)) as [x|] eqn:E.
  - apply return_ok; [done|]. by apply enough_split in E as [? _].
  - apply at_place_ok; [done|done|]. by intros ? [= <-].
Qed.

Lemma take_length_take (l : bytes) n : take (length (take n l)) l = take n l.
Proof.
  rewrite length_take. destruct (Nat.le_ge_cases n (length l)); [by rewrite Nat.min_l|by rewrite Nat.min_r, !take_ge by lia].
Qed.

Lemma received_ok stream p r data :
  reader_ok stream p r → data = take (Z.to_nat (1024 ^ 2)) (drop (rd_offset r) (file_of p stream)) → data ≠ [] →
  reader_ok stream p (received data r).
Proof.
  intros [Ho Ha Hf Hl Hg] Hd Hne. unfold received. destruct (decode (rd_decoder r) data) as [s x] eqn:Ex.
  set (file := file_of p stream) in *.
  assert (Hlen : (rd_offset r + length data <= length file)%nat) by (rewrite Hd, length_take, length_drop; lia).
  assert (Htake : take (rd_offset r + length data) file = take (rd_offset r) file ++ data).
  { rewrite <- take_take_drop. f_equal. rewrite Hd. apply take_length_take. }
  split; try done. destruct Ha as [[H1 H2]|(_ & H2 & _)].
  - left. change (file_of p stream) with file. cbn [rd_offset rd_decoder]. rewrite Htake. unfold symbols in *. rewrite decode_app, <- H1, Ex. simpl. split; [done|].
    unfold so_far in *. simpl. by rewrite app_assoc, H2.
  - destruct Hne. apply nil_length_inv. lia.
Qed.

(** Nothing more to read: the file has ended there. *)
Lemma chunk_end a i stream p r :
  ag_processes a !! i = Some p → reader_ok stream p r → is_Some (gp_exit p) → chunk a i stream r = Ok [] →
  rd_offset r = length (file_of p stream).
Proof.
  intros Hp Hr He. pose proof (rok_offset _ _ _ Hr). unfold chunk, finished. destruct (rd_final r) as [f|] eqn:Ef.
  - destruct (rok_final _ _ _ Hr f Ef) as (_ & _ & Hs). destruct (_ <=? _) eqn:E; [bool_prop; lia|].
    intros Hd%(output_ok a i p); [|done]. apply (f_equal length) in Hd. rewrite length_take, length_drop in Hd. simpl length in Hd. lia.
  - intros Hd%(output_ok a i p); [|done]. apply (f_equal length) in Hd. rewrite length_take, length_drop in Hd. simpl length in Hd. lia.
Qed.

Lemma flushed_ok stream p r : reader_ok stream p r → is_Some (gp_exit p) → rd_offset r = length (file_of p stream) →
  reader_ok stream p (flushed r) ∧ so_far (flushed r) = all_symbols (file_of p stream).
Proof.
  intros [Ho Ha Hf Hl Hg] He Hend.
  assert (Hs : so_far (flushed r) = all_symbols (file_of p stream)).
  { unfold so_far, flushed, all_symbols. simpl. rewrite app_assoc. destruct Ha as [[H1 H2]|(_ & _ & H3 & H4)].
    - unfold so_far in H2. rewrite H2, H1, Hend, take_ge by done. done.
    - unfold so_far in H4. rewrite H4, H3, flush_init, app_nil_r. done. }
  split; [|done]. split; try done. right. done.
Qed.

Lemma chunk_data a i stream p r data :
  ag_processes a !! i = Some p → chunk a i stream r = Ok data → data ≠ [] →
  data = take (Z.to_nat (1024 ^ 2)) (drop (rd_offset r) (file_of p stream)).
Proof.
  intros Hp. unfold chunk. destruct (finished stream r); [by intros [= <-]|]. intros Hd _. by eapply output_ok.
Qed.

(** A request for data is answered: at a place that reacts to the empty answer *)
Lemma chunk_step a i stream p r g (next : reader) :
  ag_processes a !! i = Some p → reader_ok stream p r → g ≠ Size 0 →
  (chunk a i stream r = Ok [] → reader_ok stream p next) →
  reader_ok stream p (match chunk a i stream r with
                      | Ok [] => next
                      | Ok data => loop g (received data r)
                      | Err _ => at_place r Idle
                      end).
Proof.
  intros Hp Hr Hg Hn. destruct (chunk a i stream r) as [[|b data]|e] eqn:E; [by apply Hn| |by apply at_place_ok].
  apply loop_ok; [|done]. apply received_ok; [done|by apply (chunk_data a i stream p r)|done].
Qed.

Lemma reader_step_ok a i stream e p r r' :
  ag_processes a !! i = Some p → reader_step a i stream e r = Some r' → reader_ok stream p r → reader_ok stream p r'.
Proof.
  intros Hp Hs Hr. pose proof (rok_goal _ _ _ Hr) as Hgoal. pose proof (rok_last _ _ _ Hr) as Hlast.
  unfold reader_step in Hs. destruct e as [g| | |].
  - destruct (rd_place r); try done. injection Hs as <-. destruct g as [|[|n]|]; try (by apply loop_ok).
    by apply return_ok.
  - destruct (rd_place r) as [|g|g|g] eqn:Epl; try done; injection Hs as <-.
    + apply chunk_step; [done|done|by apply Hgoal|]. intros _. apply at_place_ok; [done|done|]. intros ? [= <-]. by apply Hgoal.
    + destruct (waiting a i r) as [x|x] eqn:Ew; [|by apply at_place_ok]. destruct (remember_ok a i stream p r x Hp Ew Hr) as [Hm Hx].
      destruct (rp_returncode x) as [c|]; [|apply loop_ok; [done|by apply Hgoal]].
      apply at_place_ok; [done|intros ? _; apply Hx; by eexists|]. intros ? [= <-]. by apply Hgoal.
    + apply chunk_step; [done|done|by apply Hgoal|]. intros Hc. specialize (Hlast g eq_refl).
      destruct (flushed_ok stream p r Hr Hlast (chunk_end a i stream p r Hp Hr Hlast Hc)) as [Hf _].
      apply return_ok; [done|]. destruct g; simpl; [by rewrite app_nil_r|apply take_drop|by rewrite app_nil_r].
  - destruct (rd_place r); try done; injection Hs as <-; by apply at_place_ok.
  - injection Hs as <-. destruct (waiting a i r) as [x|x] eqn:Ew; [|done]. by apply (remember_ok a i stream p r x Hp Ew Hr).
Qed.

Lemma start_reader_ok stream p : reader_ok stream p start_reader.
Proof. split; try done; simpl; [lia|]. left. simpl. unfold symbols. by rewrite take_0, decode_nil. Qed.

Lemma session_ok i stream l a p r s :
  agent_ok a → ag_processes a !! i = Some p → reader_ok stream p r → session_run i stream l (Session a r) = Some s →
  agent_ok (se_agent s) ∧ ∃ p', ag_processes (se_agent s) !! i = Some p' ∧ reader_ok stream p' (se_reader s).
Proof.
  revert a p r. induction l as [|e l IH]; intros a p r Ha Hp Hr Hl; simpl in Hl; [injection Hl as <-; eauto|].
  destruct e as [e|e]; simpl in Hl.
  - destruct (agent_step e a) as [a'|] eqn:E; [|done]. simpl in Hl. destruct (agent_step_improves e a a' E) as [H1 H2].
    destruct (H2 Ha i p Hp) as (p' & Hp' & Hg). eapply IH; [by apply H1|exact Hp'|by eapply reader_ok_grows|exact Hl].
  - destruct (reader_step a i stream e r) as [r'|] eqn:E; [|done]. simpl in Hl.
    eapply IH; [done|exact Hp|by eapply reader_step_ok|exact Hl].
Qed.

Lemma session_reachable_ok i stream s : session_reachable i stream s →
  ∃ p, ag_processes (se_agent s) !! i = Some p ∧ reader_ok stream p (se_reader s).
Proof.
  intros (a & l & Ha & [p Hp] & Hl). eapply session_ok; [by apply agent_reachable_ok|exact Hp|apply start_reader_ok|exact Hl].
Qed.

(** C23: reading loses nothing and repeats nothing: at every moment, while the process
    runs and after it ended, through failed requests and repeated calls of [read] and
    [readline], what was returned and is buffered is the decoding of the file up to the
    offset, followed at most by the end of the decoding when the file is complete. *)
Theorem stream_exact i stream s :
  session_reachable i stream s →
  ∃ p, ag_processes (se_agent s) !! i = Some p ∧
    let r := se_reader s in let file := file_of p stream in
    (rd_offset r <= length file)%nat ∧
    (so_far r = symbols (take (rd_offset r) file) ∨
     is_Some (gp_exit p) ∧ rd_offset r = length file ∧ so_far r = all_symbols file).
Proof.
  intros (p & Hp & [Ho Ha _ _ _])%session_reachable_ok. exists p. split; [done|]. split; [done|].
  destruct Ha as [[_ ?]|(? & ? & _ & ?)]; [by left|by right].
Qed.

Lemma loop_returns g r x : rd_returned (loop g r) = rd_returned r ++ [x] → g ≠ All ∧ (g ≠ Size 0 → x ≠ []).
Proof.
  unfold loop. destruct (enough g (rd_buffer r)) as [y|] eqn:E; simpl.
  - intros [= <-]%app_inv_head. split; [by destruct g|]. by apply enough_split in E as [_ ?].
  - intros Hx%(f_equal length). rewrite length_app in Hx. simpl in Hx. lia.
Qed.

Lemma received_returned data r : rd_returned (received data r) = rd_returned r.
Proof. unfold received. by destruct (decode _ _). Qed.

(** C24: an end of the stream is the end: a [read()] that returns, and a [readline] or
    [read(n)] that returns nothing, only do so when the end of the process is recorded,
    and all calls together have then returned its whole output. *)
Theorem reads_complete i stream s s' g x :
  session_reachable i stream s → session_step i stream (SReader RNext) s = Some s' →
  goal_of (rd_place (se_reader s)) = Some g →
  rd_returned (se_reader s') = rd_returned (se_reader s) ++ [x] → g = All ∨ x = [] →
  ∃ p, ag_processes (se_agent s') !! i = Some p ∧ is_Some (gp_exit p) ∧
    concat (rd_returned (se_reader s')) = all_symbols (file_of p stream).
Proof.
  intros (p & Hp & Hr)%session_reachable_ok Hs Hg Hx Hend. exists p. destruct s as [a r]. cbn [se_agent se_reader session_step] in *.
  pose proof (rok_goal _ _ _ Hr g Hg) as Hg0. pose proof (rok_last _ _ _ Hr) as Hlast.
  destruct (reader_step a i stream RNext r) as [r'|] eqn:E; [|done]. injection Hs as <-. cbn [se_agent se_reader] in *. split; [done|].
  assert (Hno : ∀ (q : reader), rd_returned q = rd_returned r → rd_returned q = rd_returned r ++ [x] → False).
  { intros q -> Hq%(f_equal length). rewrite length_app in Hq. simpl in Hq. lia. }
  assert (Hloop : ∀ q : reader, rd_returned q = rd_returned r → rd_returned (loop g q) = rd_returned r ++ [x] → False).
  { intros q Hq Hx'. rewrite <- Hq in Hx'. apply loop_returns in Hx' as [? Hne]. by destruct Hend as [?|?]; [|apply Hne]. }
  unfold reader_step in E. destruct (rd_place r) as [|h|h|h] eqn:Epl; try done; injection Hg as ->; injection E as <-.
  - exfalso. destruct (chunk a i stream r) as [[|b data]|e]; [by eapply Hno; [|exact Hx]| |by eapply Hno; [|exact Hx]].
    eapply Hloop; [|exact Hx]. apply received_returned.
  - exfalso. destruct (waiting a i r) as [y|e]; [|by eapply Hno; [|exact Hx]].
    destruct (rp_returncode y); [by eapply Hno; [|exact Hx]|by eapply Hloop; [|exact Hx]].
  - destruct (chunk a i stream r) as [[|b data]|e] eqn:Ec.
    + specialize (Hlast g eq_refl). split; [done|].
      destruct (flushed_ok stream p r Hr Hlast (chunk_end a i stream p r Hp Hr Hlast Ec)) as [_ Hall].
      rewrite <- Hall. unfold so_far. simpl in Hx |- *. apply app_inv_head in Hx as [= Hout].
      rewrite concat_app. simpl. rewrite app_nil_r. f_equal.
      destruct g as [|n|]; [done| |done]. simpl in *. destruct Hend as [?|Hnil]; [done|]. rewrite Hout, Hnil. rewrite Hnil in Hout. symmetry.
      destruct n; [done|]. by destruct (rd_buffer r ++ flush (rd_decoder r)); simplify_eq/=.
    + exfalso. eapply Hloop; [|exact Hx]. apply received_returned.
    + exfalso. by eapply Hno; [|exact Hx].
Qed.

(** ** A call returns *)

(** Some requests later the call has returned. *)
Definition returns (a : agent) (i : string) (stream : output_stream) (before : list (list A)) (r : reader) : Prop :=
  ∃ k r' x, session_run i stream (replicate k (SReader RNext)) (Session a r) = Some (Session a r') ∧
    rd_place r' = Idle ∧ rd_returned r' = before ++ [x].

Lemma returns_step a i stream before r r' :
  reader_step a i stream RNext r = Some r' → returns a i stream before r' → returns a i stream before r.
Proof. intros Hs (k & q & x & Hk & H). exists (S k), q, x. split; [|done].
  cbn [replicate session_run session_step se_agent se_reader]. by rewrite Hs. Qed.

Lemma returns_loop a i stream before g r :
  rd_returned r = before → returns a i stream before (at_place r (Chunk g)) → returns a i stream before (loop g r).
Proof.
  intros <- H. unfold loop. destruct (enough g (rd_buffer r)) as [x|]; [|done]. by exists 0%nat, (return_ r x), x.1.
Qed.

Lemma chunk_answers a i stream p r :
  ag_processes a !! i = Some p → check_process_id i = Ok () → ∃ data, chunk a i stream r = Ok data.
Proof.
  intros Hp Hi. unfold chunk. destruct (finished stream r); [by eexists|]. unfold process_output, lookup. rewrite Hi, Hp.
  rewrite (proj2 (Z.ltb_ge (Z.of_nat _) 0)) by lia. by eexists.
Qed.

Lemma waiting_answers a i stream p r :
  ag_processes a !! i = Some p → check_process_id i = Ok () → is_Some (gp_exit p) → reader_ok stream p r →
  ∃ x c, waiting a i r = Ok x ∧ rp_returncode x = Some c.
Proof.
  intros Hp Hi He Hr. unfold waiting. destruct (rd_final r) as [f|] eqn:Ef.
  - destruct (rok_final _ _ _ Hr f Ef) as ([c Hc] & _ & _). by exists f, c.
  - unfold process_status, lookup. rewrite Hi, Hp. apply report_exit in He as [c Hc]. by exists (report_of p), c.
Qed.

Section Returning.

Context (a : agent) (i : string) (stream : output_stream) (p : guest_process).
Context (Hp : ag_processes a !! i = Some p) (Hi : check_process_id i = Ok ()) (He : is_Some (gp_exit p)).

(** An answer with data, then the rest *)
Lemma data_returns g r b data :
  reader_ok stream p r → g ≠ Size 0 → chunk a i stream r = Ok (b :: data) →
  (∀ q, reader_ok stream p q → rd_place q = Chunk g → (rd_offset r < rd_offset q)%nat → returns a i stream (rd_returned q) q) →
  returns a i stream (rd_returned r) (loop g (received (b :: data) r)).
Proof.
  intros Hr Hg Hc IH. pose proof (received_ok stream p r _ Hr (chunk_data a i stream p r _ Hp Hc ltac:(done)) ltac:(done)) as Hq.
  apply returns_loop; [apply received_returned|]. rewrite <- (received_returned (b :: data)).
  apply (IH (at_place (received (b :: data) r) (Chunk g))); [|done|].
  - apply at_place_ok; [done|done|]. by intros ? [= <-].
  - unfold received. destruct (decode _ _). simpl. lia.
Qed.

Lemma last_returns g r :
  reader_ok stream p r → rd_place r = Last g →
  (∀ q, reader_ok stream p q → rd_place q = Chunk g → (rd_offset r < rd_offset q)%nat → returns a i stream (rd_returned q) q) →
  returns a i stream (rd_returned r) r.
Proof.
  intros Hr Hl IH. destruct (chunk_answers a i stream p r Hp Hi) as [data Hc].
  eapply returns_step; [unfold reader_step; rewrite Hl, Hc; reflexivity|]. destruct data as [|b data].
  - by eexists 0%nat, _, _.
  - apply data_returns; try done. apply (rok_goal _ _ _ Hr). by rewrite Hl.
Qed.

Lemma wait_returns g r :
  reader_ok stream p r → rd_place r = Wait g →
  (∀ q, reader_ok stream p q → rd_place q = Chunk g → (rd_offset r < rd_offset q)%nat → returns a i stream (rd_returned q) q) →
  returns a i stream (rd_returned r) r.
Proof.
  intros Hr Hl IH. destruct (waiting_answers a i stream p r Hp Hi He Hr) as (x & c & Hw & Hc).
  eapply returns_step; [unfold reader_step; rewrite Hl, Hw, Hc; reflexivity|].
  destruct (remember_ok a i stream p r x Hp Hw Hr) as [Hm _].
  apply (last_returns g (at_place (remember x r) (Last g))); [|done|done].
  apply at_place_ok; [done|done|]. intros ? [= <-]. apply (rok_goal _ _ _ Hr). by rewrite Hl.
Qed.

Lemma chunk_returns n g r :
  (length (file_of p stream) - rd_offset r <= n)%nat → reader_ok stream p r → rd_place r = Chunk g → returns a i stream (rd_returned r) r.
Proof.
  revert r. induction n as [n IH] using lt_wf_ind. intros r Hn Hr Hl.
  assert (Hnext : ∀ q, reader_ok stream p q → rd_place q = Chunk g → (rd_offset r < rd_offset q)%nat → returns a i stream (rd_returned q) q).
  { intros q Hq Hlq Hlt. pose proof (rok_offset _ _ _ Hq). apply (IH (length (file_of p stream) - rd_offset q)%nat); try done; lia. }
  pose proof (rok_goal _ _ _ Hr g ltac:(by rewrite Hl)) as Hg.
  destruct (chunk_answers a i stream p r Hp Hi) as [data Hc].
  eapply returns_step; [unfold reader_step; rewrite Hl, Hc; reflexivity|]. destruct data as [|b data].
  - apply (wait_returns g (at_place r (Wait g))); [|done|done]. apply at_place_ok; [done|done|]. by intros ? [= <-].
  - by apply data_returns.
Qed.

End Returning.

(** A call returns: once the end of the process is recorded, a [read] or [readline]
    under way whose requests are answered returns after finitely many of them. *)
Theorem read_returns i stream s p g :
  session_reachable i stream s → ag_processes (se_agent s) !! i = Some p → check_process_id i = Ok () →
  is_Some (gp_exit p) → goal_of (rd_place (se_reader s)) = Some g →
  ∃ k s' x, session_run i stream (replicate k (SReader RNext)) s = Some s' ∧
    rd_place (se_reader s') = Idle ∧ rd_returned (se_reader s') = rd_returned (se_reader s) ++ [x].
Proof.
  intros (p' & Hp' & Hr)%session_reachable_ok Hp Hi He Hg. rewrite Hp in Hp'. injection Hp' as <-.
  destruct s as [a r]. cbn [se_agent se_reader] in *.
  assert (Hnext : ∀ h q, reader_ok stream p q → rd_place q = Chunk h → returns a i stream (rd_returned q) q)
    by (intros h q Hq Hl; by eapply chunk_returns).
  assert (H : returns a i stream (rd_returned r) r).
  { destruct (rd_place r) as [|h|h|h] eqn:El; [done|by eapply Hnext|eapply wait_returns|eapply last_returns]; eauto. }
  destruct H as (k & r' & x & Hk & H). by exists k, (Session a r'), x.
Qed.
End Reader.

(** * Results *)

Record command_result := CommandResult {
  cm_stdout : bytes; cm_stderr : bytes; cm_returncode : Z; cm_limited : bool;
  cm_truncated : output_stream → bool }.

(** [Process.result], binary; [state] is [_final] or a new report. *)
Definition process_result (a : agent) (identity : string) (final : option report) (limit : Z) : res command_result :=
  _ ← raise_if (negb ((0 <=? limit) && (limit <=? 4 * 1024 ^ 2))) ValueError "invalid output request";
  state ← match final with Some f => Ok f | None => process_status a identity end;
  match rp_returncode state with
  | None => raise RuntimeError "process has not completed"
  | Some code =>
      let output s := if negb (limit =? 0) && negb (size_of state s =? 0)
                      then process_output a identity s 0 limit else Ok [] in
      out ← output Stdout;
      err ← output Stderr;
      Ok (CommandResult out err code (rp_limited state) (λ s, limit <? size_of state s))
  end.

(** How [Process.wait] ends, once there is a return code *)
Inductive wait_outcome := Returned (code : Z) | LimitExceeded | DeadlineExceeded | CommandFailed (code : Z).

Definition wait_end (state : report) (check : bool) : option wait_outcome :=
  code ← rp_returncode state;
  Some (if rp_limited state then LimitExceeded
        else if rp_timed_out state then DeadlineExceeded
        else if check && negb (code =? 0) then CommandFailed code
        else Returned code).

Definition output_of (c : command_result) (s : output_stream) : bytes :=
  match s with Stdout => cm_stdout c | Stderr => cm_stderr c end.

Lemma result_output a i p limit c s :
  ag_processes a !! i = Some p → process_result a i None limit = Ok c →
  output_of c s = take (Z.to_nat limit) (file_of p s) ∧ cm_truncated c s = (limit <? Z.of_nat (length (file_of p s))) ∧
  is_Some (gp_exit p) ∧ cm_limited c = from_option ex_limited false (gp_exit p).
Proof.
  intros Hp H. unfold process_result in H. apply bind_ok in H as (? & _ & (x & Hx%(status_ok a i p) & H)%bind_ok); [|done]. subst x.
  destruct (gp_exit p) as [e|] eqn:He; [|by simpl in H; rewrite He in H]. simpl in H. rewrite He in H. simpl in H.
  apply bind_ok in H as (out & Hout & (err & Herr & [= <-])%bind_ok).
  assert (Hfile : ∀ s' d (b : bool), (if negb (limit =? 0) && negb (Z.of_nat (length (file_of p s')) =? 0)
      then process_output a i s' 0 limit else Ok []) = Ok d → d = take (Z.to_nat limit) (file_of p s')).
  { intros s' d _ Hd. destruct (negb (limit =? 0) && negb (Z.of_nat (length (file_of p s')) =? 0)) eqn:E.
    - unfold process_output in Hd. apply bind_ok in Hd as (? & _ & (q & Hq & Hd)%bind_ok). unfold lookup in Hq.
      apply bind_ok in Hq as (? & _ & Hq). rewrite Hp in Hq. injection Hq as <-. by injection Hd as <-.
    - injection Hd as <-. apply andb_false_iff in E as [E|E]; bool_prop; [by subst limit|].
      by rewrite (nil_length_inv (file_of p s')), take_nil by lia. }
  split; [|by destruct s]. destruct s; simpl; [by apply (Hfile Stdout out true)|by apply (Hfile Stderr err true)].
Qed.

(** A result is what the command wrote: when a result is returned that is neither
    marked truncated nor limited, its output is everything the process wrote (unless a
    cold boot cut it off). *)
Theorem result_complete a i p limit c s :
  agent_reachable a → ag_processes a !! i = Some p → process_result a i None limit = Ok c →
  gp_exit p ≠ Some cold → cm_truncated c s = false → cm_limited c = false →
  output_of c s = ch_written (channel_of p s).
Proof.
  intros Ha Hp Hc Hcold Ht Hl. destruct (result_output a i p limit c s Hp Hc) as (-> & Hs & [e He] & Hlim).
  rewrite He in Hlim. simpl in Hlim. rewrite take_ge by (rewrite Hs in Ht; bool_prop; lia).
  pose proof (agent_reachable_ok a Ha i p Hp) as Hok. destruct (ok_exit p Hok e He) as [[-> _]|[Hd Hx]]; [congruence|].
  destruct (ok_spooled p Hok s) as [(dr & -> & Hdr) Hpipe]. rewrite Hdr, (Hpipe (Hd s)) by congruence.
  unfold file_of. by rewrite app_nil_r.
Qed.

(** * Standard input *)

(** [InputStream.write] under way *)
Record writer := Writer { wr_data : bytes; wr_written : nat }.

(** One turn of its loop *)
Definition write_step (a : agent) (identity : string) (room : option nat) (w : writer) : res (writer * agent) :=
  let '(count, a) := process_stdin a identity (take (Z.to_nat (1024 ^ 2)) (drop (wr_written w) (wr_data w))) false room true in
  count ← count;
  Ok (Writer (wr_data w) (wr_written w + Z.to_nat count), a).

(** Turns of the loop, and everything else that happens in the guest *)
Inductive writing_event := WTurn (room : option nat) | WAgent (e : agent_event).

Definition touches_stdin (identity : string) (e : agent_event) : bool :=
  match e with AStdin i _ _ _ _ => bool_decide (i = identity) | _ => false end.

Fixpoint writing (identity : string) (l : list writing_event) (w : writer) (a : agent) : option (writer * agent) :=
  match l with
  | [] => Some (w, a)
  | WTurn room :: l =>
      if (wr_written w <? length (wr_data w))%nat then
        match write_step a identity room w with Ok (w, a) => writing identity l w a | Err _ => None end
      else None
  | WAgent e :: l =>
      if touches_stdin identity e then None else a ← agent_step e a; writing identity l w a
  end.

Definition stdin_of (a : agent) (i : string) : option bytes := gp_stdin <$> ag_processes a !! i.

Lemma stdin_map a (f : guest_process → guest_process) service i : (∀ p, gp_stdin (f p) = gp_stdin p) →
  stdin_of (Agent (f <$> ag_processes a) service) i = stdin_of a i.
Proof. intros Hf. unfold stdin_of. simpl. rewrite lookup_fmap. destruct (_ !! i); simpl; [by rewrite Hf|done]. Qed.

Lemma stdin_set a j q p i : ag_processes a !! j = Some q → gp_stdin p = gp_stdin q → stdin_of (set_process j p a) i = stdin_of a i.
Proof.
  intros Hq Hp. unfold stdin_of. simpl. destruct (decide (i = j)) as [->|]; [by rewrite lookup_insert_eq, Hq; simpl; rewrite Hp|].
  by rewrite lookup_insert_ne.
Qed.

Lemma kill_stdin p : gp_stdin (kill p) = gp_stdin p.
Proof. unfold kill. by destruct (registered p). Qed.

Lemma sweep_stdin a i : stdin_of (sweep a) i = stdin_of a i.
Proof.
  unfold sweep. destruct (service_exited a); [|done]. apply stdin_map. intros p. destruct (gp_maintenance p); [done|apply kill_stdin].
Qed.

Lemma process_step_stdin e p p' : process_step e p = Some p' → gp_stdin p' = gp_stdin p.
Proof.
  intros Hs. assert (Hc : ∀ s c, gp_stdin (with_channel s c p) = gp_stdin p) by by intros [].
  destruct e as [s data|s|code|s n|s| | | |]; simpl in Hs;
    try (destruct (_ && _); [|done]; injection Hs as <-; rewrite ?Hc; try done).
  - injection Hs as <-. apply Hc.
  - unfold drain. destruct (_ <? _); [unfold kill; destruct (registered _)|]; by destruct s.
  - change (gp_stdin (kill p) = gp_stdin p). apply kill_stdin.
  - destruct (gp_returncode p); [|done]. destruct (_ && _); [|done]. by injection Hs as <-.
  - destruct (bool_decide _); [|done]. by injection Hs as <-.
Qed.

Lemma agent_step_stdin e a a' i p : agent_step e a = Some a' → touches_stdin i e = false → ag_processes a !! i = Some p →
  stdin_of a' i = stdin_of a i.
Proof.
  intros Hs Ht Hp. destruct e as [j s acc l|j data close room eot|j n|j|j e| |]; simpl in Hs.
  - injection Hs as <-. unfold spawn. destruct (spawn_request j s acc) as [r|]; [|done].
    destruct (ag_processes a !! j) as [q|] eqn:Hj; [by destruct (bool_decide (gp_request q = r))|]. cbv zeta.
    set (a1 := if sp_maintenance s then a else sweep a).
    assert (H1 : stdin_of a1 i = stdin_of a i) by (unfold a1; destruct (sp_maintenance s); [done|apply sweep_stdin]).
    assert (Hne : i ≠ j) by congruence.
    destruct (_ && _); [done|]. destruct l; rewrite <- H1; unfold stdin_of; simpl; by rewrite lookup_insert_ne.
  - injection Hs as <-. simpl in Ht. apply bool_decide_eq_false in Ht. unfold process_stdin.
    destruct (ag_processes a !! j) as [q|]; [|done]. destruct (_ && _); [|done].
    destruct (if bool_decide _ then _ else _); [|done]. cbv zeta.
    destruct (_ && _); unfold stdin_of; simpl; by rewrite lookup_insert_ne.
  - injection Hs as <-. unfold process_terminate. destruct (negb _); [done|]. simpl.
    destruct (ag_processes a !! j) as [q|] eqn:Hj; [|done]. destruct (n =? 9); [|done]. apply (stdin_set a j q); [done|apply kill_stdin].
  - injection Hs as <-. unfold watch_process. destruct (process_status a j); [|done].
    destruct (match ag_service a with Some _ => _ | None => _ end); [done|]. simpl. by rewrite sweep_stdin.
  - destruct (ag_processes a !! j) as [q|] eqn:Hj; [|done]. simpl in Hs. destruct (process_step e q) as [q'|] eqn:Eq; [|done].
    assert (H : stdin_of (set_process j q' a) i = stdin_of a i) by (apply (stdin_set a j q); [done|by eapply process_step_stdin]).
    destruct e; injection Hs as <-; try exact H. destruct (bool_decide _); [|exact H]. by rewrite sweep_stdin.
  - injection Hs as <-. apply sweep_stdin.
  - injection Hs as <-. by apply stdin_map.
Qed.

Lemma write_step_stdin a i room w w' a' before :
  stdin_of a i = Some (before ++ take (wr_written w) (wr_data w)) → (wr_written w < length (wr_data w))%nat →
  write_step a i room w = Ok (w', a') →
  wr_data w' = wr_data w ∧ (wr_written w' <= length (wr_data w))%nat ∧
  stdin_of a' i = Some (before ++ take (wr_written w') (wr_data w)).
Proof.
  intros Hin Hlt H. unfold write_step, process_stdin in H. unfold stdin_of in Hin.
  destruct (ag_processes a !! i) as [p|] eqn:Hp; [|done]. injection Hin as Hin.
  destruct (registered p && _); [|done]. destruct (if bool_decide _ then _ else _) as [k|]; [|done]. cbv zeta in H. cbn [andb] in H.
  apply bind_ok in H as (count & [= <-] & [= <- <-]). set (more := take k (take _ _)). simpl. rewrite Nat2Z.id.
  assert (Hmore : more = take (length more) (drop (wr_written w) (wr_data w))).
  { unfold more. rewrite take_take. symmetry. apply take_length_take. }
  split; [done|]. split.
  - rewrite Hmore, length_take, length_drop. lia.
  - unfold stdin_of. simpl. rewrite lookup_insert_eq. simpl. rewrite Hin. f_equal. rewrite <- app_assoc. f_equal.
    rewrite Hmore at 1. apply take_take_drop.
Qed.

(** A write delivers its bytes in order, each once: while it runs, whatever else
    happens in the guest, the process has got exactly the part that was counted, and all
    of it when the write returns. *)
Theorem write_exact i l data w a a' before :
  stdin_of a i = Some before → writing i l (Writer data 0) a = Some (w, a') →
  stdin_of a' i = Some (before ++ take (wr_written w) data) ∧ (wr_written w <= length data)%nat.
Proof.
  intros Ha. set (w0 := Writer data 0). assert (H0 : wr_data w0 = data ∧ (wr_written w0 <= length data)%nat ∧
    stdin_of a i = Some (before ++ take (wr_written w0) data)) by (split_and!; [done|simpl; lia|simpl; by rewrite app_nil_r]).
  clearbody w0. clear Ha. revert w0 a H0. induction l as [|e l IH]; intros w0 a (Hd & Hle & Hin) Hl; simpl in Hl.
  - by injection Hl as <- <-.
  - destruct e as [room|e].
    + destruct (_ <? _)%nat eqn:E; [|done]. bool_prop. destruct (write_step a i room w0) as [[w1 a1]|] eqn:Ew; [|done].
      rewrite <- Hd in Hin. destruct (write_step_stdin a i room w0 w1 a1 before Hin E Ew) as (H1 & H2 & H3).
      apply (IH w1 a1); [|done]. rewrite Hd in *. done.
    + destruct (touches_stdin i e) eqn:Et; [done|]. destruct (agent_step e a) as [a1|] eqn:Ea; [|done].
      apply (IH w0 a1); [|done]. split; [done|]. split; [done|]. rewrite <- Hin.
      unfold stdin_of in Hin. destruct (ag_processes a !! i) as [p|] eqn:Hp; [|done]. by eapply agent_step_stdin.
Qed.

(** * Witnesses *)

(** A binary reader that starts before the process ends, and loses a request *)
Definition ex_reading : list session_event :=
  [SReader (RStart All); SReader RNext; SReader RFail; SReader (RStart All); SReader RNext; SReader RNext]
    ++ map SAgent ex_finished ++ [SReader RNext; SReader RNext; SReader RNext].

Definition ex_session : session :=
  default (Session start_agent start_reader) (session_run "command" Stdout ex_reading (Session ex_running start_reader)).

Lemma ex_session_reachable : session_reachable "command" Stdout ex_session.
Proof.
  exists ex_running, ex_reading. split; [exact ex_running_reachable|]. split; [vm_compute; eauto|]. vm_compute. reflexivity.
Qed.

Lemma stream_exact_witness :
  ∃ p, ag_processes (se_agent ex_session) !! "command" = Some p ∧
    let r := se_reader ex_session in let file := file_of p Stdout in
    (rd_offset r <= length file)%nat ∧
    (so_far r = symbols (take (rd_offset r) file) ∨
     is_Some (gp_exit p) ∧ rd_offset r = length file ∧ so_far r = all_symbols file).
Proof. apply stream_exact, ex_session_reachable. Defined.

(** The last request, and the call has returned. *)
Definition ex_read : session :=
  default (Session start_agent start_reader) (session_step "command" Stdout (SReader RNext) ex_session).

Lemma reads_complete_witness :
  rd_returned (se_reader ex_read) = [[104; 101; 108; 108; 111; 10]] ∧
  ∃ p, ag_processes (se_agent ex_read) !! "command" = Some p ∧ is_Some (gp_exit p) ∧
    concat (rd_returned (se_reader ex_read)) = all_symbols (file_of p Stdout).
Proof.
  split; [vm_compute; reflexivity|].
  apply (reads_complete "command" Stdout ex_session ex_read All [104; 101; 108; 108; 111; 10] ex_session_reachable);
    [vm_compute; reflexivity|vm_compute; reflexivity|vm_compute; reflexivity|left; reflexivity].
Defined.
