(* ===== verification/ArtifactImports.v ===== *)
(** Imports of snapshots ([sandbox/artifacts.py]): a manifest names the files of a
    snapshot, chunks are written into a private directory, and the whole is published
    after its sizes and digests were checked. *)

From S2P Require Import Prelude.
From S2P Require Import Paths.
From S2P Require Import OrderedDict.

#[local] Open Scope Z_scope.

(** * Names *)

(** [relative] *)
Definition relative (value : string) : res (list string) :=
  let parts := parts_of value in
  _ ← raise_if (str_startswith "/" value || bool_decide (".."%string ∈ parts) || bool_decide (parts = [])
                || existsb (λ c, code c =? 0) (chars value)) ValueError "artifact path escapes its workspace";
  Ok parts.

(** * Manifests and files *)

Inductive entry_kind := EFile (size : Z) (sha256 : string) | ELink (target : string) | EDirectory | EUnknown.

#[export] Instance entry_kind_eq_dec : EqDecision entry_kind.
Proof. solve_decision. Defined.

Record entry := Entry { en_kind : entry_kind; en_mode : Z }.

#[export] Instance entry_eq_dec : EqDecision entry.
Proof. solve_decision. Defined.

(** [mf_metadata] is the metadata without [workspace] and [location], see [content]. *)
Record manifest := Manifest { mf_metadata : string; mf_files : list (string * entry) }.

#[export] Instance manifest_eq_dec : EqDecision manifest.
Proof. solve_decision. Defined.

Definition is_link_entry (e : entry) : bool := match en_kind e with ELink _ => true | _ => false end.

(** A regular file is an inode: its bytes and mode are shared by its hard links. *)
Inductive node := NFile (i : N) | NLink (target : string) | NDir (mode : Z).

(** The import directory of one snapshot: what is in it, the descriptor and the marker;
    the inodes, and the files of the worker's own workspace by their relative paths; and
    the paths at which something beyond a symbolic link was created, changed or read. *)
Record import := Import {
  im_tree : gmap (list string) node;
  im_manifest : option manifest;
  im_complete : bool;
  im_inodes : gmap N (bytes * Z);
  im_local : gmap string N;
  im_outside : list (list string) }.

#[export] Instance import_updatable : Updatable import := λ s,
  Import (im_tree s) (im_manifest s) (im_complete s) (im_inodes s) (im_local s) (im_outside s).

Definition is_link (n : option node) : bool := match n with Some (NLink _) => true | _ => false end.

(** An operation on the path follows a symbolic link of the directory. *)
Definition escapes (t : gmap (list string) node) (path : list string) : bool :=
  existsb (λ q, is_link (t !! q)) (proper_prefixes path).

Definition put_node (path : list string) (n : node) (s : import) : import :=
  s <| im_tree := <[path := n]> (im_tree s) |>.

Definition set_inode (i : N) (b : bytes) (mode : Z) (s : import) : import :=
  s <| im_inodes := <[i := (b, mode)]> (im_inodes s) |>.

(** A new file *)
Definition put_new (path : list string) (b : bytes) (mode : Z) (s : import) : import :=
  let i := fresh (dom (im_inodes s)) in put_node path (NFile i) (set_inode i b mode s).

Definition outside (path : list string) (s : import) : import :=
  s <| im_outside := im_outside s ++ [path] |>.

(** * Begin *)

(** The checks of [_begin] *)
Definition check_entry (files : list (string * entry)) (x : string * entry) : res () :=
  parts ← relative x.1;
  _ ← raise_if (negb (bool_decide (head parts = Some "workspace"%string ∨ head parts = Some "snapshot"%string))) ValueError "unknown artifact root";
  _ ← raise_if (bool_decide (en_kind x.2 = EUnknown)) ValueError "unknown artifact entry type";
  raise_if (existsb (λ parent, match od_get (path_text parent) files with
                               | Some e => negb (bool_decide (en_kind e = EDirectory))
                               | None => false
                               end) (proper_prefixes parts)) ValueError "artifact has a non-directory parent".

(** [path.parent.mkdir(parents=True, exist_ok=True)] inside the directory *)
Fixpoint make_parents (l : list (list string)) (s : import) : res import :=
  match l with
  | [] => Ok s
  | q :: l =>
      match im_tree s !! q with
      | None => make_parents l (put_node q (NDir 511) s)
      | Some (NDir _) => make_parents l s
      | Some _ => raise FileExistsError ""
      end
  end.

Section Importing.

(** [sha256] *)
Variable sha : bytes → string.

(** What is beyond the links of the directory: whether an operation there succeeds, and
    whether it leaves the bytes missing; the files found there. The file systems may let
    a file be linked, or not. *)
Record surroundings := Surroundings {
  su_beyond : list string → res bool; su_found : list string → option bytes; su_linked : bool }.

(** The worker's own file that an entry may be staged from: [worker.root / name[10:]] *)
Definition own_file (name : string) (e : entry) (size : Z) (digest : string) (s : import) : option (N * bytes) :=
  _ ← guard (str_startswith "workspace/" name = true);
  i ← im_local s !! of_chars (drop 10 (chars name));
  f ← im_inodes s !! i;
  _ ← guard (Z.of_nat (length f.1) = size ∧ f.2 = en_mode e ∧ sha f.1 = digest);
  Some (i, f.1).

(** The bytes at a path *)
Definition content_at (s : import) (path : list string) : option bytes :=
  match im_tree s !! path with Some (NFile i) => fst <$> im_inodes s !! i | _ => None end.

(** [_immutable(existing, path)]: a hard link, or a copy, unless the bytes are there *)
Definition stage_own (w : surroundings) (path : list string) (i : N) (b : bytes) (mode : Z) (s : import) : import :=
  if bool_decide (sha <$> content_at s path = Some (sha b)) && bool_decide (length <$> content_at s path = Some (length b)) then s
  else if su_linked w then put_node path (NFile i) s else put_new path b mode s.

(** One entry: the state after it, and whether its bytes are missing *)
Definition create_entry (w : surroundings) (x : string * entry) (s : import) : res (import * bool) :=
  let '(name, e) := x in
  let path := parts_of name in
  if escapes (im_tree s) path then missing ← su_beyond w path; Ok (outside path s, missing)
  else
    s ← make_parents (tail (proper_prefixes path)) s;
    match en_kind e with
    | EDirectory =>
        match im_tree s !! path with
        | None => Ok (put_node path (NDir 511) s, false)
        | Some (NDir _) => Ok (s, false)
        | Some (NLink _) => _ ← su_beyond w path; Ok (s, false)
        | Some (NFile _) => raise FileExistsError ""
        end
    | ELink target =>
        match im_tree s !! path with
        | Some (NLink t) => if bool_decide (t = target) then Ok (s, false) else raise IncompatibleSnapshot "artifact symlink differs"
        | None => Ok (put_node path (NLink target) s, false)
        | Some _ => raise FileExistsError ""
        end
    | EFile size digest =>
        match own_file name e size digest s, im_tree s !! path with
        | Some (i, b), (None | Some (NFile _)) => Ok (stage_own w path i b (en_mode e) s, false)
        | Some (i, b), Some (NLink _) =>
            (* a link to an equal file stays *)
            if bool_decide (sha <$> su_found w path = Some digest) then Ok (outside path s, false)
            else Ok (stage_own w path i b (en_mode e) s, false)
        | None, Some (NLink _) => raise ValueError "artifact file cannot be a symlink"
        | None, None => Ok (put_new path [] 384 s, true)
        | _, Some _ => Ok (s, true)
        end
    | EUnknown => Ok (s, false)
    end.

Fixpoint create_entries (w : surroundings) (l : list (string * entry)) (s : import) : import * res (list string) :=
  match l with
  | [] => (s, Ok [])
  | x :: l =>
      match create_entry w x s with
      | Ok (s', missing) =>
          let '(s', r) := create_entries w l s' in
          (s', names ← r; Ok (if missing : bool then x.1 :: names else names))
      | Err e => (s, Err e)
      end
  end.

Definition by_depth (x y : string * entry) : bool := (length (parts_of x.1) <? length (parts_of y.1))%nat.

(** [_begin] *)
Definition begin (w : surroundings) (m : manifest) (s : import) : import * res (list string) :=
  match res_map (check_entry (mf_files m)) (mf_files m) with
  | Err e => (s, Err e)
  | Ok _ =>
      if match im_manifest s with Some d => negb (bool_decide (d = m)) | None => false end
      then (s, raise IncompatibleSnapshot "artifact import already has a different manifest")
      else if im_complete s then (s, Ok [])
      else create_entries w (sort_by by_depth (mf_files m)) (s <| im_manifest := Some m |>)
  end.

(** * Write *)

(** The file that [_write] opens *)
Definition write_target (name : string) (offset : Z) (data : bytes) (s : import) : res (N * bytes * Z) :=
  parts ← relative name;
  m ← match im_manifest s with Some m => Ok m | None => raise FileNotFoundError "" end;
  e ← match od_get (path_text parts) (mf_files m) with Some e => Ok e | None => raise KeyError "" end;
  _ ← raise_if (match en_kind e with
                | EFile size _ => (offset <? 0) || (1024 ^ 2 <? Z.of_nat (length data))
                                  || (size <? offset + Z.of_nat (length data))
                | _ => true
                end) ValueError "invalid artifact write range";
  _ ← raise_if (escapes (im_tree s) parts || is_link (im_tree s !! parts)) ValueError
        "artifact write cannot follow a symlink";
  match im_tree s !! parts with
  | Some (NFile i) => match im_inodes s !! i with Some (b, mode) => Ok (i, b, mode) | None => raise OSError "" end
  | _ => raise OSError ""
  end.

(** [_write] *)
Definition write (name : string) (offset : Z) (data : bytes) (s : import) : import * res Z :=
  match write_target name offset data s with
  | Err e => (s, Err e)
  | Ok (i, b, mode) =>
      if im_complete s then
        (s, if bool_decide (take (length data) (drop (Z.to_nat offset) b) = data) then Ok (Z.of_nat (length data))
            else raise IncompatibleSnapshot "published artifacts are immutable")
      else (set_inode i (write_at b (Z.to_nat offset) data) mode s, Ok (Z.of_nat (length data)))
  end.

(** * Finish *)

(** The size and the digest of a file *)
Definition check_content (e : entry) (b : bytes) : res () :=
  match en_kind e with
  | EFile size digest =>
      _ ← raise_if (negb (Z.of_nat (length b) =? size)) IncompatibleSnapshot "artifact size mismatch: ";
      raise_if (negb (bool_decide (sha b = digest))) IncompatibleSnapshot "artifact checksum mismatch: "
  | _ => Ok ()
  end.

(** One entry of [_finish] *)
Definition finish_entry (w : surroundings) (x : string * entry) (s : import) : res import :=
  let path := parts_of x.1 in
  if is_link_entry x.2 then Ok s
  else if escapes (im_tree s) path || is_link (im_tree s !! path) then
    match su_found w path with Some b => _ ← check_content x.2 b; Ok (outside path s) | None => raise FileNotFoundError "" end
  else match im_tree s !! path with
  | Some (NFile i) =>
      match im_inodes s !! i with
      | Some (b, mode) => _ ← check_content x.2 b; Ok (set_inode i b (en_mode x.2) s)
      | None => raise FileNotFoundError ""
      end
  | Some (NDir mode) =>
      match en_kind x.2 with EFile _ _ => raise IncompatibleSnapshot "artifact size mismatch: " | _ => Ok (put_node path (NDir (en_mode x.2)) s) end
  | _ => raise FileNotFoundError ""
  end.

Fixpoint finish_entries (w : surroundings) (l : list (string * entry)) (s : import) : import * res () :=
  match l with
  | [] => (s, Ok ())
  | x :: l => match finish_entry w x s with Ok s => finish_entries w l s | Err e => (s, Err e) end
  end.

(** [finish]: [verified] is the outcome of the verification of the store, [published] of
    the publication of the revision. *)
Definition finish (w : surroundings) (verified published : res ()) (s : import) : import * res () :=
  if im_complete s then (s, published)
  else match im_manifest s with
  | None => (s, raise FileNotFoundError "")
  | Some m =>
      match finish_entries w (mf_files m) s with
      | (s, Err e) => (s, Err e)
      | (s, Ok _) => match (_ ← verified; published) with
                     | Ok _ => (s <| im_complete := true |>, Ok ())
                     | Err e => (s, Err e)
                     end
      end
  end.

(** * Histories *)

Inductive import_event :=
  | IBegin (w : surroundings) (m : manifest)
  | IWrite (name : string) (offset : Z) (data : bytes)
  | IFinish (w : surroundings) (verified published : res ())
  | IOwn (name : string) (b : bytes) (mode : Z).          (* the worker gets a file of its own *)

Definition own (name : string) (b : bytes) (mode : Z) (s : import) : import :=
  let i := fresh (dom (im_inodes s)) in
  set_inode i b mode s <| im_local := <[name := i]> (im_local s) |>.

Definition import_step (s : import) (e : import_event) : import :=
  match e with
  | IBegin w m => (begin w m s).1
  | IWrite name offset data => (write name offset data s).1
  | IFinish w verified published => (finish w verified published s).1
  | IOwn name b mode => own name b mode s
  end.

Definition new_import : import := Import ∅ None false ∅ ∅ [].

Definition import_run (l : list import_event) : import := foldl import_step new_import l.

(** * Confinement *)

(** The names are those that [str(Path(name))] gives. *)
Definition normal (m : manifest) : Prop :=
  od_wf (mf_files m) ∧ ∀ x, x ∈ mf_files m → path_text (parts_of x.1) = x.1.

Definition checked (m : manifest) : Prop := ∀ x, x ∈ mf_files m → check_entry (mf_files m) x = Ok ().

(** Every symbolic link is one of the manifest, and nothing went beyond one. *)
Record confined (s : import) : Prop := Confined {
  cf_links : ∀ q t, im_tree s !! q = Some (NLink t) → ∃ m x, im_manifest s = Some m ∧ x ∈ mf_files m ∧ parts_of x.1 = q ∧ is_link_entry x.2 = true;
  cf_manifest : ∀ m, im_manifest s = Some m → normal m ∧ checked m;
  cf_outside : im_outside s = [] }.

Lemma entry_unique m x y : normal m → x ∈ mf_files m → y ∈ mf_files m → parts_of x.1 = parts_of y.1 → x = y.
Proof.
  intros [Hwf Hn] Hx Hy Heq. assert (Hname : x.1 = y.1) by (rewrite <- (Hn x Hx), <- (Hn y Hy); by rewrite Heq).
  destruct x as [n e], y as [n' e']. simpl in Hname. subst n'. f_equal.
  apply (od_get_wf n e) in Hx; [|done]. apply (od_get_wf n e') in Hy; [|done]. congruence.
Qed.

(** The parents of an entry are not links. *)
Lemma entry_inside s m x : confined s → im_manifest s = Some m → x ∈ mf_files m → escapes (im_tree s) (parts_of x.1) = false.
Proof.
  intros Hs Hm Hx. destruct (cf_manifest s Hs m Hm) as [Hn Hc]. apply not_true_is_false. intros Hesc.
  apply existsb_exists in Hesc as (q & Hq & Hl). destruct (im_tree s !! q) as [[| t |]|] eqn:Et; try done.
  destruct (cf_links s Hs q t Et) as (m' & y & Hm' & Hy & Hyq & Hyl). rewrite Hm in Hm'. injection Hm' as <-.
  specialize (Hc x Hx). unfold check_entry, relative in Hc.
  apply bind_ok in Hc as (parts & (? & _ & [= <-])%bind_ok & (? & _ & (? & _ & Hc%raise_if_ok)%bind_ok)%bind_ok).
  apply not_true_iff_false in Hc. apply Hc, existsb_exists. exists q. split; [done|].
  rewrite <- Hyq, (proj2 Hn y Hy). destruct y as [name e]. simpl in *. rewrite (od_get_wf name e) by (done || apply Hn).
  unfold is_link_entry in Hyl. by destruct (en_kind e).
Qed.

Lemma entry_not_link s m x : confined s → im_manifest s = Some m → x ∈ mf_files m → is_link_entry x.2 = false →
  is_link (im_tree s !! parts_of x.1) = false.
Proof.
  intros Hs Hm Hx Hk. destruct (im_tree s !! parts_of x.1) as [[| t |]|] eqn:Et; try done.
  destruct (cf_links s Hs _ t Et) as (m' & y & Hm' & Hy & Hyq & Hyl). rewrite Hm in Hm'. injection Hm' as <-.
  rewrite (entry_unique m y x) in Hyl; [congruence|by apply (cf_manifest s Hs)|done..].
Qed.

(** A node that is no link is put somewhere; inodes and the worker's files change. *)
Lemma confined_put s path n : confined s → is_link (Some n) = false → confined (put_node path n s).
Proof.
  intros [] Hn. split; try done. simpl. intros q t Ht. apply lookup_insert_Some in Ht as [[_ ->]|[_ Ht]]; [done|by apply cf_links0 with t].
Qed.

Lemma confined_inode s i b mode : confined s → confined (set_inode i b mode s).
Proof. intros []. by split. Qed.

Lemma confined_put_new s path b mode : confined s → confined (put_new path b mode s).
Proof. intros Hs. apply confined_put; [|done]. by apply confined_inode. Qed.

Lemma confined_put_link s m x path target : confined s → im_manifest s = Some m → x ∈ mf_files m → parts_of x.1 = path →
  is_link_entry x.2 = true → confined (put_node path (NLink target) s).
Proof.
  intros [] Hm Hx Hp Hl. split; try done. simpl. intros q t Ht.
  apply lookup_insert_Some in Ht as [[<- _]|[_ Ht]]; [by exists m, x|by apply cf_links0 with t].
Qed.

Lemma parents_confined l s s' : make_parents l s = Ok s' → confined s → confined s' ∧ im_manifest s' = im_manifest s ∧
  ∀ q, is_Some (im_tree s !! q) → im_tree s' !! q = im_tree s !! q.
Proof.
  revert s. induction l as [|q l IH]; intros s Hl Hs; simpl in Hl; [by injection Hl as <-|].
  destruct (im_tree s !! q) as [[| |mode]|] eqn:E; try done; [by apply IH|].
  destruct (IH _ Hl) as (H1 & H2 & H3); [by apply confined_put|]. split; [done|]. split; [done|]. intros r Hr.
  rewrite H3; simpl; (destruct (decide (q = r)) as [->|]; [rewrite E in Hr; by destruct Hr|by rewrite lookup_insert_ne]).
Qed.

Lemma stage_confined w path i b mode s : confined s → confined (stage_own w path i b mode s) ∧ im_manifest (stage_own w path i b mode s) = im_manifest s.
Proof.
  intros Hs. unfold stage_own. destruct (_ && _); [done|]. destruct (su_linked w); (split; [|done]);
    [by apply confined_put|by apply confined_put_new].
Qed.

Lemma create_confined w m x s s' missing :
  confined s → im_manifest s = Some m → x ∈ mf_files m → create_entry w x s = Ok (s', missing) →
  confined s' ∧ im_manifest s' = Some m.
Proof.
  intros Hs Hm Hx H. destruct x as [name e]. unfold create_entry in H.
  pose proof (entry_inside s m (name, e) Hs Hm Hx) as Hin. simpl in Hin. rewrite Hin in H. apply bind_ok in H as (s1 & Hs1 & H).
  destruct (parents_confined _ _ _ Hs1 Hs) as (Hc & Hm1 & _). rewrite Hm in Hm1. clear Hs1.
  pose proof (entry_not_link s1 m (name, e) Hc Hm1 Hx) as Hnl. simpl in Hnl. unfold is_link_entry in Hnl.
  destruct (en_kind e) as [size digest|target| |] eqn:Ek.
  - specialize (Hnl eq_refl). destruct (own_file name e size digest s1) as [[i b]|], (im_tree s1 !! parts_of name) as [[j|t|md]|] eqn:Et;
      try done; injection H as <- <-; try done; try (rewrite <- Hm1; by apply stage_confined).
    split; [by apply confined_put_new|done].
  - destruct (im_tree s1 !! parts_of name) as [[j|t|md]|] eqn:Et; try done.
    + destruct (bool_decide (t = target)); [|done]. by injection H as <- <-.
    + injection H as <- <-. split; [|done]. apply (confined_put_link s1 m (name, e)); try done. unfold is_link_entry. simpl. by rewrite Ek.
  - specialize (Hnl eq_refl). destruct (im_tree s1 !! parts_of name) as [[j|t|md]|] eqn:Et; try done; injection H as <- <-; try done.
    split; [by apply confined_put|done].
  - by injection H as <- <-.
Qed.

Lemma entries_confined w m l s : confined s → im_manifest s = Some m → (∀ x, x ∈ l → x ∈ mf_files m) →
  confined (create_entries w l s).1 ∧ im_manifest (create_entries w l s).1 = Some m.
Proof.
  revert s. induction l as [|x l IH]; intros s Hs Hm Hl; [done|]. simpl.
  destruct (create_entry w x s) as [[s' missing]|e] eqn:E; [|done].
  destruct (create_confined w m x s s' missing Hs Hm ltac:(apply Hl; by left) E) as [Hs' Hm'].
  specialize (IH s' Hs' Hm' ltac:(intros y Hy; apply Hl; by right)). by destruct (create_entries w l s').
Qed.

Lemma checked_all {B} (f : B → res ()) l us x : res_map f l = Ok us → x ∈ l → f x = Ok ().
Proof.
  revert us. induction l as [|y l IH]; intros us Hl Hx; [by apply elem_of_nil in Hx|]. simpl in Hl.
  apply bind_ok in Hl as ([] & Hy & (us' & Hus & _)%bind_ok). apply elem_of_cons in Hx as [->|Hx]; [done|by eapply IH].
Qed.

Lemma begin_confined w m s : confined s → normal m → confined (begin w m s).1.
Proof.
  intros Hs Hn. unfold begin. destruct (res_map _ _) as [us|e] eqn:E; [|done].
  destruct (match im_manifest s with Some d => _ | None => _ end) eqn:Ed; [done|]. destruct (im_complete s); [done|].
  assert (Hc : checked m) by (intros x Hx; by eapply checked_all).
  apply (entries_confined w m).
  - destruct Hs as [Hl Hm Ho]. split; [|by intros m' [= <-]|done]. simpl. intros q t Ht.
    destruct (Hl q t Ht) as (m' & x & Hm' & Hx). rewrite Hm' in Ed. apply negb_false_iff, bool_decide_eq_true in Ed as ->. by exists m, x.
  - done.
  - intros x Hx. by apply elem_of_sort_by in Hx.
Qed.

Lemma write_confined name offset data s : confined s → confined (write name offset data s).1.
Proof.
  intros Hs. unfold write. destruct (write_target name offset data s) as [[[i b] mode]|e]; [|done].
  destruct (im_complete s); [done|]. by apply confined_inode.
Qed.

Lemma finish_entry_confined w m x s s' : confined s → im_manifest s = Some m → x ∈ mf_files m → finish_entry w x s = Ok s' →
  confined s' ∧ im_manifest s' = Some m.
Proof.
  intros Hs Hm Hx H. unfold finish_entry in H. destruct (is_link_entry x.2) eqn:El; [by injection H as <-|].
  rewrite (entry_inside s m x Hs Hm Hx), (entry_not_link s m x Hs Hm Hx El) in H. simpl in H.
  destruct (im_tree s !! parts_of x.1) as [[i| |mode]|]; try done.
  - destruct (im_inodes s !! i) as [[b mode]|]; [|done]. apply bind_ok in H as (? & _ & [= <-]). split; [by apply confined_inode|done].
  - destruct (en_kind x.2); try done; injection H as <-; (split; [by apply confined_put|done]).
Qed.

Lemma finish_entries_confined w m l s : confined s → im_manifest s = Some m → (∀ x, x ∈ l → x ∈ mf_files m) →
  confined (finish_entries w l s).1 ∧ im_manifest (finish_entries w l s).1 = Some m.
Proof.
  revert s. induction l as [|x l IH]; intros s Hs Hm Hl; [done|]. simpl. destruct (finish_entry w x s) as [s'|e] eqn:E; [|done].
  destruct (finish_entry_confined w m x s s' Hs Hm ltac:(apply Hl; by left) E) as [Hs' Hm'].
  apply IH; [done|done|]. intros y Hy. apply Hl. by right.
Qed.

Lemma finish_confined w verified published s : confined s → confined (finish w verified published s).1.
Proof.
  intros Hs. unfold finish. destruct (im_complete s); [done|]. destruct (im_manifest s) as [m|] eqn:Em; [|done].
  destruct (finish_entries_confined w m (mf_files m) s Hs Em ltac:(done)) as [Hf _].
  destruct (finish_entries w (mf_files m) s) as [s' [u|e]]; [|done]. destruct (_ ← verified; published); [|done].
  destruct Hf. by split.
Qed.

Definition normal_event (e : import_event) : Prop := match e with IBegin _ m => normal m | _ => True end.

Lemma import_confined l : Forall normal_event l → confined (import_run l).
Proof.
  intros Hl. assert (H : ∀ s, confined s → confined (foldl import_step s l)).
  { induction Hl as [|e l He _ IH]; intros s Hs; [done|]. apply IH. destruct e; simpl.
    - by apply begin_confined.
    - by apply write_confined.
    - by apply finish_confined.
    - destruct Hs. by split. }
  apply H. by split.
Qed.

(** C25: an import stays in its directory: when the names of the manifests are normal,
    nothing is ever created, changed or read beyond a symbolic link, whatever links they
    contain and in whatever order importers begin, write and finish. *)
Theorem imports_confined l : Forall normal_event l → im_outside (import_run l) = [].
Proof. intros Hl. apply import_confined, Hl. Qed.

(** * Publication *)

(** No bytes change. *)
Definition same_bytes (s s' : import) : Prop := ∀ path b, content_at s path = Some b → content_at s' path = Some b.

Lemma same_bytes_trans s1 s2 s3 : same_bytes s1 s2 → same_bytes s2 s3 → same_bytes s1 s3.
Proof. intros H1 H2 path b H. by apply H2, H1. Qed.

Lemma mode_same_bytes s i b mode mode' : im_inodes s !! i = Some (b, mode) → same_bytes s (set_inode i b mode' s).
Proof.
  intros Hi path c. unfold content_at. simpl. destruct (im_tree s !! path) as [[j| |]|]; try done.
  destruct (decide (j = i)) as [->|]; [by rewrite Hi, lookup_insert_eq|by rewrite lookup_insert_ne].
Qed.

Lemma directory_same_bytes s path mode mode' : im_tree s !! path = Some (NDir mode) → same_bytes s (put_node path (NDir mode') s).
Proof.
  intros Hp q b. unfold content_at. simpl. destruct (decide (q = path)) as [->|]; [by rewrite Hp|by rewrite lookup_insert_ne].
Qed.

Lemma own_same_bytes name b mode s : same_bytes s (own name b mode s).
Proof.
  intros path c. unfold content_at. simpl. destruct (im_tree s !! path) as [[j| |]|]; try done.
  destruct (im_inodes s !! j) as [f|] eqn:Ej; [|done]. rewrite lookup_insert_ne; [by rewrite Ej|].
  intros <-. apply (is_fresh (dom (im_inodes s))), elem_of_dom. by exists f.
Qed.

(** The entry is there as the manifest says. *)
Definition entry_verified (s : import) (x : string * entry) : Prop :=
  ∀ size digest, en_kind x.2 = EFile size digest →
  ∃ b, content_at s (parts_of x.1) = Some b ∧ Z.of_nat (length b) = size ∧ sha b = digest.

Lemma verified_same s s' x : same_bytes s s' → entry_verified s x → entry_verified s' x.
Proof. intros Hs Hx size digest Hk. destruct (Hx size digest Hk) as (b & Hb & ?). exists b. split; [by apply Hs|done]. Qed.

Lemma finish_entry_verified w m x s s' : confined s → im_manifest s = Some m → x ∈ mf_files m → finish_entry w x s = Ok s' →
  same_bytes s s' ∧ entry_verified s' x.
Proof.
  intros Hs Hm Hx H. unfold finish_entry in H. destruct (is_link_entry x.2) eqn:El.
  { injection H as <-. split; [by intros ? ?|]. intros size digest Hk. unfold is_link_entry in El. by rewrite Hk in El. }
  rewrite (entry_inside s m x Hs Hm Hx), (entry_not_link s m x Hs Hm Hx El) in H. simpl in H.
  destruct (im_tree s !! parts_of x.1) as [[i| |mode]|] eqn:Et; try done.
  - destruct (im_inodes s !! i) as [[b mode]|] eqn:Ei; [|done]. apply bind_ok in H as ([] & Hc & [= <-]).
    split; [by apply mode_same_bytes with mode|]. intros size digest Hk. unfold check_content in Hc. rewrite Hk in Hc.
    apply bind_ok in Hc as (? & H1%raise_if_ok & H2%raise_if_ok). bool_prop.
    exists b. split; [|done]. unfold content_at. simpl. by rewrite Et, lookup_insert_eq.
  - destruct (en_kind x.2) eqn:Ek; try done; injection H as <-; (split; [by eapply directory_same_bytes|]); intros ? ?; congruence.
Qed.

Lemma finish_entries_verified w m l s s' u : confined s → im_manifest s = Some m → (∀ x, x ∈ l → x ∈ mf_files m) →
  finish_entries w l s = (s', Ok u) → same_bytes s s' ∧ im_manifest s' = Some m ∧ ∀ x, x ∈ l → entry_verified s' x.
Proof.
  revert s. induction l as [|x l IH]; intros s Hs Hm Hl H; simpl in H.
  { injection H as <- _. split; [by intros ? ?|]. split; [done|]. by intros x Hx%elem_of_nil. }
  destruct (finish_entry w x s) as [s1|e] eqn:E; [|done].
  assert (Hx : x ∈ mf_files m) by (apply Hl; by left).
  destruct (finish_entry_confined w m x s s1 Hs Hm Hx E) as [Hs1 Hm1]. destruct (finish_entry_verified w m x s s1 Hs Hm Hx E) as [Hb Hv].
  destruct (IH s1 Hs1 Hm1 ltac:(intros y Hy; apply Hl; by right) H) as (Hb' & Hm' & Hv'). split; [by eapply same_bytes_trans|].
  split; [done|]. intros y Hy. apply elem_of_cons in Hy as [->|Hy]; [by eapply verified_same|by apply Hv'].
Qed.

Definition all_verified (s : import) : Prop := ∃ m, im_manifest s = Some m ∧ ∀ x, x ∈ mf_files m → entry_verified s x.

(** A published import does not change. *)
Lemma published_step s e : im_complete s = true →
  im_complete (import_step s e) = true ∧ im_manifest (import_step s e) = im_manifest s ∧ same_bytes s (import_step s e).
Proof.
  intros Hc. assert (Hsame : same_bytes s s) by by intros ? ?. destruct e as [w m|name offset data|w v p|name b mode]; simpl.
  - unfold begin. destruct (res_map _ _); [|done]. destruct (match im_manifest s with Some d => _ | None => _ end); [done|]. by rewrite Hc.
  - unfold write. destruct (write_target name offset data s) as [[[i b] mode]|e]; [|done]. by rewrite Hc.
  - unfold finish. by rewrite Hc.
  - split; [done|]. split; [done|]. apply own_same_bytes.
Qed.

Lemma published_run l s : im_complete s = true →
  im_complete (foldl import_step s l) = true ∧ im_manifest (foldl import_step s l) = im_manifest s ∧ same_bytes s (foldl import_step s l).
Proof.
  revert s. induction l as [|e l IH]; intros s Hc; [by split_and!; [..|intros ? ?]|].
  destruct (published_step s e Hc) as (H1 & H2 & H3). destruct (IH _ H1) as (H4 & H5 & H6). simpl.
  split; [done|]. split; [congruence|by eapply same_bytes_trans].
Qed.

(** Neither [_begin] nor [_finish] sets the marker. *)
Lemma parents_complete l s s' : make_parents l s = Ok s' → im_complete s' = im_complete s.
Proof.
  revert s. induction l as [|q l IH]; intros s Hl; simpl in Hl; [by injection Hl as <-|].
  destruct (im_tree s !! q) as [[]|]; try done; by apply IH in Hl.
Qed.

Lemma create_complete w x s s' missing : create_entry w x s = Ok (s', missing) → im_complete s' = im_complete s.
Proof.
  destruct x as [name e]. unfold create_entry. destruct (escapes _ _); [by intros (? & _ & [= <- _])%bind_ok|].
  intros (s1 & Hs1%parents_complete & H)%bind_ok. rewrite <- Hs1. clear Hs1.
  assert (Hst : ∀ i b, im_complete (stage_own w (parts_of name) i b (en_mode e) s1) = im_complete s1)
    by (intros i b; unfold stage_own; destruct (_ && _); [done|]; by destruct (su_linked w)).
  destruct (en_kind e); [|destruct (im_tree s1 !! _) as [[]|]..|].
  - destruct (own_file _ _ _ _ _) as [[i b]|], (im_tree s1 !! _) as [[]|]; try done; try (injection H as <- _; by rewrite ?Hst).
    destruct (bool_decide _); injection H as <- _; by rewrite ?Hst.
  - done.
  - destruct (bool_decide _); by simplify_eq.
  - done.
  - by injection H as <- _.
  - done.
  - by apply bind_ok in H as (? & _ & [= <- _]).
  - by injection H as <- _.
  - by injection H as <- _.
  - by injection H as <- _.
Qed.

Lemma entries_complete w l s : im_complete (create_entries w l s).1 = im_complete s.
Proof.
  revert s. induction l as [|x l IH]; intros s; [done|]. simpl. destruct (create_entry w x s) as [[s' b]|] eqn:E; [|done].
  specialize (IH s'). apply create_complete in E. destruct (create_entries w l s'). simpl in *. congruence.
Qed.

Lemma finish_entries_complete w l s : im_complete (finish_entries w l s).1 = im_complete s.
Proof.
  revert s. induction l as [|x l IH]; intros s; [done|]. simpl. destruct (finish_entry w x s) as [s'|] eqn:E; [|done]. rewrite IH.
  unfold finish_entry in E. destruct (is_link_entry _); [by injection E as <-|].
  destruct (_ || _); [destruct (su_found _ _); [|done]; by apply bind_ok in E as (? & _ & [= <-])|].
  destruct (im_tree s !! _) as [[i| |]|]; try done.
  - destruct (im_inodes s !! i) as [[b mode]|]; [|done]. by apply bind_ok in E as (? & _ & [= <-]).
  - destruct (en_kind _); by simplify_eq.
Qed.

Lemma completes_verified s e : confined s → (im_complete s = true → all_verified s) →
  im_complete (import_step s e) = true → all_verified (import_step s e).
Proof.
  intros Hs Hv Hc'. destruct (im_complete s) eqn:Hc.
  { destruct (published_step s e Hc) as (_ & Hm & Hb). destruct (Hv eq_refl) as (m & Hm' & Hx). exists m. split; [congruence|].
    intros x Hin. eapply verified_same; [exact Hb|by apply Hx]. }
  destruct e as [w m|name offset data|w v p|name b mode]; simpl in *; try congruence.
  - exfalso. unfold begin in Hc'. destruct (res_map _ _); [|simpl in Hc'; congruence].
    destruct (match im_manifest s with Some d => _ | None => _ end); [simpl in Hc'; congruence|]. rewrite Hc in Hc'.
    rewrite entries_complete in Hc'. simpl in Hc'. congruence.
  - exfalso. unfold write in Hc'. destruct (write_target name offset data s) as [[[i b] mode]|]; [|simpl in Hc'; congruence].
    rewrite Hc in Hc'. simpl in Hc'. congruence.
  - unfold finish in *. rewrite Hc in *. destruct (im_manifest s) as [m|] eqn:Em; [|simpl in Hc'; congruence].
    pose proof (finish_entries_complete w (mf_files m) s) as Hfc.
    destruct (finish_entries w (mf_files m) s) as [s' [u|x]] eqn:Ef; simpl in Hfc; [|simpl in Hc'; congruence].
    destruct (finish_entries_verified w m (mf_files m) s s' u Hs Em ltac:(done) Ef) as (_ & Hm & Hx).
    destruct (_ ← v; p); [by exists m|simpl in Hc'; congruence].
Qed.

Lemma import_run_app l l' : import_run (l ++ l') = foldl import_step (import_run l) l'.
Proof. apply foldl_app. Qed.

Lemma import_verified l : Forall normal_event l → im_complete (import_run l) = true → all_verified (import_run l).
Proof.
  induction l as [|e l IH] using rev_ind; intros Hl Hc; [done|]. rewrite import_run_app in *. simpl in *.
  apply Forall_app in Hl as [Hl _]. apply completes_verified; [by apply import_confined|by apply IH|done].
Qed.


End Importing.

(** * Chunks *)

(** The chunks of a file, in whatever order and however often they arrive, rebuild it. *)
Theorem chunks_rebuild (c : nat) (source : bytes) (l : list nat) :
  (0 < c)%nat → (∀ k, (k * c < length source)%nat ↔ k ∈ l) →
  foldl (λ b k, write_at b (k * c) (take c (drop (k * c) source))) [] l = source.
Proof.
  intros Hc Hl.
  assert (H : ∀ l' b, (∀ k, k ∈ l' → k * c < length source)%nat → (length b <= length source)%nat →
    let b' := foldl (λ b k, write_at b (k * c) (take c (drop (k * c) source))) b l' in
    (length b' <= length source)%nat ∧
    ∀ j, (j < length source)%nat → b !! j = source !! j ∨ (j / c)%nat ∈ l' → b' !! j = source !! j).
  { clear Hl. induction l' as [|k l' IH]; intros b Hl' Hb; simpl.
    - split; [done|]. intros j Hj [H|H%elem_of_nil]; done.
    - assert (Hk : (k * c < length source)%nat) by (apply Hl'; by left).
      assert (Hd : length (take c (drop (k * c) source)) = Nat.min c (length source - k * c)) by by rewrite length_take, length_drop.
      assert (Hd0 : take c (drop (k * c) source) ≠ []) by (intros E; rewrite E in Hd; simpl in Hd; lia).
      destruct (IH (write_at b (k * c) (take c (drop (k * c) source)))) as [H1 H2].
      + intros k' Hk'. apply Hl'. by right.
      + rewrite length_write_at by done. lia.
      + split; [done|]. intros j Hj Hcase. apply H2; [done|].
        rewrite elem_of_cons in Hcase. rewrite lookup_write_at, Hd by done.
        destruct (decide (j < k * c)%nat) as [Hlt|Hge]; [|destruct (decide _) as [Hin|Hout]].
        * destruct Hcase as [He|[Heq|?]]; [left|exfalso|by right].
          -- rewrite lookup_app_l; [done|]. apply lookup_lt_is_Some. rewrite He. by apply lookup_lt_is_Some.
          -- subst k. pose proof (Nat.mul_div_le j c). lia.
        * left. rewrite lookup_take_lt by lia. rewrite lookup_drop. f_equal. lia.
        * destruct Hcase as [He|[Heq|?]]; [by left|exfalso|by right].
          subst k. pose proof (Nat.mul_succ_div_gt j c). lia. }
  destruct (H l [] ltac:(intros k; apply Hl) ltac:(simpl; lia)) as [H1 H2]. apply list_eq. intros j.
  destruct (decide (j < length source)%nat) as [Hj|Hj].
  - apply H2; [done|]. right. apply Hl. pose proof (Nat.mul_div_le j c). lia.
  - rewrite !lookup_ge_None_2 by lia. done.
Qed.

(** * Names that are not normal *)

(** A stand-in for a digest *)
Definition ex_sha (b : bytes) : string := of_chars (map (λ x, ascii_of_N (Z.to_N x)) b).

(** Beyond the links everything can be created; [job] is a file. *)
Definition ex_world (linked : bool) : surroundings := Surroundings (λ path, Ok (bool_decide (last path = Some "job"%string))) (λ _, None) linked.

(** A link under one spelling, and a file below it under another *)
Definition ex_escaping : manifest := Manifest "metadata"
  [("workspace/./host", Entry (ELink "/etc") 511); ("workspace/host/cron.d", Entry EDirectory 511);
   ("workspace/host/cron.d/job", Entry (EFile 4 "abcd") 420)].

(** The check of the parents compares [str(parent)] with the names as they were given: a
    manifest whose names are not normal leaves the directory. *)
Theorem names_escape :
  (begin ex_sha (ex_world true) ex_escaping new_import).2 = Ok ["workspace/host/cron.d/job"%string] ∧
  im_outside (begin ex_sha (ex_world true) ex_escaping new_import).1 =
    [["workspace"; "host"; "cron.d"]; ["workspace"; "host"; "cron.d"; "job"]]%string.
Proof. vm_compute. done. Qed.

Definition ex_manifest : manifest := Manifest "metadata"
  [("workspace/base", Entry (EFile 4 "base") 420); ("snapshot", Entry EDirectory 511);
   ("snapshot/latest", Entry (ELink "../../..") 511); ("snapshot/pages", Entry (EFile 4 "page") 420)]%string.

Definition ex_bytes (s : string) : bytes := bytes_of_string s.

(** The worker has the base; the pages arrive in two chunks. *)
Definition ex_import : list import_event :=
  [IOwn "base" (ex_bytes "base") 420; IBegin (ex_world true) ex_manifest;
   IWrite "snapshot/pages" 2 (ex_bytes "ge"); IWrite "snapshot/pages" 0 (ex_bytes "pa");
   IFinish (ex_world true) (Ok ()) (Ok ())].

(** A file that [begin] has linked to the worker's own, and did not report missing, can be
    written: the worker's own file changes. *)
Theorem own_file_written :
  let s := import_run ex_sha [IOwn "base" (ex_bytes "base") 420; IBegin (ex_world true) ex_manifest] in
  let s' := import_step ex_sha s (IWrite "workspace/base" 0 (ex_bytes "X")) in
  (begin ex_sha (ex_world true) ex_manifest s).2 = Ok ["snapshot/pages"%string] ∧
  (im_local s' !! "base"%string ≫= λ i, im_inodes s' !! i) = Some (ex_bytes "Xase", 420).
Proof. vm_compute. done. Qed.

Lemma ex_manifest_normal : normal ex_manifest.
Proof.
  split; [apply (bool_decide_unpack _); vm_compute; exact I|].
  assert (H : Forall (λ x, path_text (parts_of x.1) = x.1) (mf_files ex_manifest))
    by (apply (bool_decide_unpack _); vm_compute; exact I).
  intros x Hx. rewrite Forall_forall in H. by apply H.
Qed.

Lemma ex_normal : Forall normal_event ex_import.
Proof. apply Forall_cons. split; [exact I|]. apply Forall_cons. split; [exact ex_manifest_normal|]. by repeat constructor. Qed.

Lemma imports_confined_witness : im_outside (import_run ex_sha ex_import) = [].
Proof. apply imports_confined. exact ex_normal. Defined.

