(* ===== verification/GuestFiles.v ===== *)
(** Files of a guest: the [file] operation of the guest's agent ([sandbox/guest_agent.py]),
    on paths and on open files, and what it does to an abstract file system. *)

From S2P Require Import Prelude.
From S2P Require Import Paths.
From S2P Require Import GuestProcesses.

#[local] Open Scope Z_scope.

(** * File systems *)

Inductive fnode := FReg (i : N) | FDir (mode : Z) | FSym (target : string).

(** What is at each path, from the parts of it; the bytes and permissions of each inode *)
Record file_system := FileSystem { fs_nodes : gmap (list string) fnode; fs_inodes : gmap N (bytes * Z) }.

#[export] Instance file_system_updatable : Updatable file_system := λ s, FileSystem (fs_nodes s) (fs_inodes s).

(** The root is there. *)
Definition node_at (s : file_system) (p : list string) : option fnode :=
  match p with [] => Some (FDir 493) | _ => fs_nodes s !! p end.

Definition is_sym (n : option fnode) : bool := match n with Some (FSym _) => true | _ => false end.
Definition is_dir (n : option fnode) : bool := match n with Some (FDir _) => true | _ => false end.

Definition put_fnode (p : list string) (n : fnode) (s : file_system) : file_system :=
  s <| fs_nodes := <[p := n]> (fs_nodes s) |>.

Definition put_inode (i : N) (b : bytes) (mode : Z) (s : file_system) : file_system :=
  s <| fs_inodes := <[i := (b, mode)]> (fs_inodes s) |>.

(** A new file at the path *)
Definition create_file (p : list string) (b : bytes) (mode : Z) (s : file_system) : file_system :=
  let i := fresh (dom (fs_inodes s)) in put_fnode p (FReg i) (put_inode i b mode s).

(** No component is [..] or a symbolic link. *)
Definition plain (s : file_system) (p : list string) : bool :=
  forallb (λ c, negb (bool_decide (c = ".."%string))) p
  && forallb (λ q, negb (is_sym (node_at s q))) (p :: proper_prefixes p).

(** How the system follows the links and [..] of a path; a path without them is itself. *)
Class Resolver := follow : file_system → list string → list string.
Class ResolverLaws (R : Resolver) := follow_plain : ∀ s p, plain s p = true → follow s p = p.

(** [str(path)]: the root of an absolute path is [/] or [//]. *)
Definition root_text (path : string) : string :=
  if str_startswith "//" path && negb (str_startswith "///" path) then "//"
  else if str_startswith "/" path then "/" else "".
Definition path_str (path : string) : string :=
  match root_text path, parts_of path with EmptyString, ps => path_text ps | r, ps => (r ++ str_join "/" ps)%string end.

(** [str(Path(path) / name)], for a name without a slash *)
Definition path_child (path name : string) : string :=
  (root_text path ++ str_join "/" (parts_of path ++ parts_of name))%string.

(** * Requests *)

Inductive file_op := OpOpen | OpRead | OpWrite | OpSeek | OpTell | OpTruncate | OpClose | OpStat | OpList | OpMkdir | OpOther.

(** The arguments of [Agent.file]; [mode] is text for [open], a number for [write]. *)
Record file_call := FileCall {
  fc_op : file_op; fc_path : string; fc_data : bytes; fc_offset : Z; fc_size : Z; fc_truncate : bool;
  fc_mode : option Z; fc_open_mode : string; fc_handle : option string; fc_whence : Z }.

#[export] Instance file_call_updatable : Updatable file_call := λ c,
  FileCall (fc_op c) (fc_path c) (fc_data c) (fc_offset c) (fc_size c) (fc_truncate c) (fc_mode c) (fc_open_mode c)
    (fc_handle c) (fc_whence c).

(** The defaults *)
Definition file_call_of (op : file_op) (path : string) : file_call :=
  FileCall op path [] 0 (4 * 1024 ^ 2) false None "" None 0.

Record file_stat := FileStat { st_size : Z; st_mode : Z; st_directory : bool; st_symlink : bool }.

Inductive file_reply :=
  | RNone | RText (s : string) | RBytes (b : bytes) | RNumber (n : Z) | RStat (s : file_stat) | RNames (l : list string).

(** * The agent *)

(** An open file: its inode, its position, and what its mode allows *)
Record open_file := OpenFile { of_inode : N; of_position : Z; of_read : bool; of_write : bool; of_append : bool }.

#[export] Instance open_file_updatable : Updatable open_file := λ f,
  OpenFile (of_inode f) (of_position f) (of_read f) (of_write f) (of_append f).

(** The files of the guest, and [self.handles] *)
Record file_agent := FileAgent { fa_files : file_system; fa_handles : gmap string (string * string * open_file) }.

#[export] Instance file_agent_updatable : Updatable file_agent := λ a, FileAgent (fa_files a) (fa_handles a).

Definition open_modes : list string := ["rb"; "wb"; "ab"; "xb"; "r+b"; "w+b"; "a+b"; "x+b"].

(** [path.is_absolute()] *)
Definition is_absolute (path : string) : bool := str_startswith "/" path.

(** [0 <= size <= 4 * 1024**2] *)
Definition chunk_size (size : Z) : bool := (0 <=? size) && (size <=? 4 * 1024 ^ 2).

Section Agent.
Context `{R : Resolver}.

(** [umask] of the agent *)
Variable umask : Z.

Definition masked (mode : Z) : Z := Z.land mode (Z.lnot umask).

(** [path.mkdir(parents=True, exist_ok=True)], over the path and its parents *)
Fixpoint make_dirs (l : list (list string)) (s : file_system) : file_system * res () :=
  match l with
  | [] => (s, Ok ())
  | q :: l =>
      match node_at s (follow s q) with
      | None => if is_sym (node_at s q) then (s, raise FileExistsError "")
                else make_dirs l (put_fnode (follow s q) (FDir (masked 511)) s)
      | Some (FDir _) => make_dirs l s
      | Some _ => (s, match l with [] => raise FileExistsError "" | _ => raise OSError "Not a directory" end)
      end
  end.

Definition mkdir (p : list string) (s : file_system) : file_system * res () :=
  make_dirs (tail (proper_prefixes p) ++ [p]) s.

(** The last link of a path is not followed. *)
Definition follow_parent (s : file_system) (p : list string) : list string :=
  match last p with None => [] | Some c => follow s (removelast p) ++ [c] end.

(** The directory that a new file needs *)
Definition check_parent (p : list string) (s : file_system) : res () :=
  match node_at s (removelast p) with
  | Some (FDir _) => Ok ()
  | Some _ => raise OSError "Not a directory"
  | None => raise FileNotFoundError ""
  end.

(** The system call [open] on the path, with [O_CREAT], [O_EXCL] and [O_TRUNC] or not *)
Definition sys_open (p : list string) (creat excl trunc : bool) (mode : Z) (s : file_system) : res (file_system * N) :=
  let q := follow s p in
  _ ← raise_if (excl && bool_decide (is_Some (node_at s (follow_parent s p)))) FileExistsError "";
  match node_at s q with
  | Some (FReg i) =>
      let f := default ([], 0) (fs_inodes s !! i) in
      Ok (if trunc then put_inode i [] f.2 s else s, i)
  | Some (FDir _) => raise OSError "Is a directory"
  | Some (FSym _) => raise OSError "Too many levels of symbolic links"
  | None =>
      _ ← raise_if (negb creat) FileNotFoundError "";
      _ ← check_parent q s;
      Ok (create_file q [] (masked mode) s, fresh (dom (fs_inodes s)))
  end.

Definition inode_bytes (s : file_system) (i : N) : bytes := fst (default ([], 0) (fs_inodes s !! i)).
Definition inode_mode (s : file_system) (i : N) : Z := snd (default ([], 0) (fs_inodes s !! i)).

(** [open(path, mode, buffering=0)] *)
Definition open_raw (path mode : string) (s : file_system) : res (file_system * open_file) :=
  let base := head (chars mode) in
  let plus := bool_decide ("+"%char ∈ chars mode) in
  let base_is (c : ascii) := bool_decide (base = Some c) in
  '(s, i) ← sys_open (parts_of path) (negb (base_is "r"%char)) (base_is "x"%char) (base_is "w"%char) 438 s;
  Ok (s, OpenFile i (if base_is "a"%char then Z.of_nat (length (inode_bytes s i)) else 0)
           (base_is "r"%char || plus) (negb (base_is "r"%char) || plus) (base_is "a"%char)).

(** The operations of an open file: [stream.read(size)], [write], [seek], [truncate] *)
Definition raw_read (size : Z) (f : open_file) (s : file_system) : res (bytes * open_file) :=
  _ ← raise_if (negb (of_read f)) OSError "File not open for reading";
  let data := take (Z.to_nat size) (drop (Z.to_nat (of_position f)) (inode_bytes s (of_inode f))) in
  Ok (data, f <| of_position := of_position f + Z.of_nat (length data) |>).

Definition raw_write (data : bytes) (f : open_file) (s : file_system) : res (file_system * open_file) :=
  _ ← raise_if (negb (of_write f)) OSError "File not open for writing";
  let b := inode_bytes s (of_inode f) in
  let position := if of_append f then Z.of_nat (length b) else of_position f in
  Ok (put_inode (of_inode f) (write_at b (Z.to_nat position) data) (inode_mode s (of_inode f)) s,
      if bool_decide (data = []) then f else f <| of_position := position + Z.of_nat (length data) |>).

Definition raw_seek (offset whence : Z) (f : open_file) (s : file_system) : res open_file :=
  base ← (if whence =? 0 then Ok 0 else if whence =? 1 then Ok (of_position f)
          else if whence =? 2 then Ok (Z.of_nat (length (inode_bytes s (of_inode f))))
          else raise OSError "Invalid argument");
  _ ← raise_if (base + offset <? 0) OSError "Invalid argument";
  Ok (f <| of_position := base + offset |>).

Definition raw_truncate (size : Z) (f : open_file) (s : file_system) : res file_system :=
  _ ← raise_if (negb (of_write f)) OSError "File not open for writing";
  _ ← raise_if (size <? 0) OSError "Invalid argument";
  Ok (put_inode (of_inode f) (truncate_to (Z.to_nat size) (inode_bytes s (of_inode f))) (inode_mode s (of_inode f)) s).

(** [op == 'open'] *)
Definition file_open (c : file_call) (a : file_agent) : file_agent * res file_reply :=
  let handle := default "" (fc_handle c) in
  match (_ ← raise_if (negb (is_absolute (fc_path c)) || negb (bool_decide (fc_open_mode c ∈ open_modes))) ValueError "invalid file mode or path";
         match fc_handle c with Some handle => check_process_id handle | None => raise TypeError "" end) with
  | Err e => (a, Err e)
  | Ok _ =>
      match fa_handles a !! handle with
      | None =>
          match open_raw (fc_path c) (fc_open_mode c) (fa_files a) with
          | Ok (s, f) => (FileAgent s (<[handle := (fc_path c, fc_open_mode c, f)]> (fa_handles a)), Ok (RText handle))
          | Err e => (a, Err e)
          end
      | Some (path, mode, _) =>
          (a, if bool_decide (path = fc_path c ∧ mode = fc_open_mode c) then Ok (RText handle)
              else raise ValueError "file handle already used for another open")
      end
  end.

(** The operations of a handle *)
Definition file_handle (handle : string) (c : file_call) (a : file_agent) : file_agent * res file_reply :=
  if match fc_op c with OpClose => true | _ => false end then (a <| fa_handles := delete handle (fa_handles a) |>, Ok RNone)
  else match fa_handles a !! handle with
  | None => (a, raise KeyError "")
  | Some (path, mode, f) =>
      let keep (f : open_file) (s : file_system) := FileAgent s (<[handle := (path, mode, f)]> (fa_handles a)) in
      let s := fa_files a in
      match fc_op c with
      | OpRead =>
          if chunk_size (fc_size c) then
            match raw_read (fc_size c) f s with Ok (b, f) => (keep f s, Ok (RBytes b)) | Err e => (a, Err e) end
          else (a, raise ValueError "invalid open-file operation")
      | OpWrite =>
          if Z.of_nat (length (fc_data c)) <=? 4 * 1024 ^ 2 then
            match raw_write (fc_data c) f s with
            | Ok (s, f) => (keep f s, Ok (RNumber (Z.of_nat (length (fc_data c)))))
            | Err e => (a, Err e)
            end
          else (a, raise ValueError "invalid open-file operation")
      | OpSeek =>
          match raw_seek (fc_offset c) (fc_whence c) f s with Ok f => (keep f s, Ok (RNumber (of_position f))) | Err e => (a, Err e) end
      | OpTell => (a, Ok (RNumber (of_position f)))
      | OpTruncate =>
          match raw_truncate (fc_size c) f s with Ok s => (keep f s, Ok (RNumber (fc_size c))) | Err e => (a, Err e) end
      | _ => (a, raise ValueError "invalid open-file operation")
      end
  end.

(** [info.st_mode]: the kind of the file above its permissions *)
Definition lstat (p : list string) (s : file_system) : res file_stat :=
  match node_at s p with
  | Some (FReg i) => Ok (FileStat (Z.of_nat (length (inode_bytes s i))) (32768 + inode_mode s i) false false)
  | Some (FDir mode) => Ok (FileStat 4096 (16384 + mode) true false)
  | Some (FSym target) => Ok (FileStat (Z.of_nat (String.length target)) 41471 (is_dir (node_at s (follow s p))) true)
  | None => raise FileNotFoundError ""
  end.

(** [path.iterdir()], sorted *)
Definition children (p : list string) (s : file_system) : list string :=
  sort_by str_ltb (omap (λ x : list string * fnode, if bool_decide (removelast x.1 = p ∧ x.1 ≠ []) then last x.1 else None)
                        (map_to_list (fs_nodes s))).

(** [path.open('rb')]; [seek]; [read] *)
Definition file_read (path : string) (offset size : Z) (s : file_system) : res bytes :=
  '(_, i) ← sys_open (parts_of path) false false false 0 s;
  Ok (take (Z.to_nat size) (drop (Z.to_nat offset) (inode_bytes s i))).

Definition file_write (path : string) (data : bytes) (offset : Z) (truncate : bool) (mode : option Z) (s : file_system)
    : file_system * res file_reply :=
  let p := parts_of path in
  match mkdir (removelast p) s with
  | (s, Err e) => (s, Err e)
  | (s, Ok _) =>
      match sys_open p true false truncate 420 s with
      | Err e => (s, Err e)
      | Ok (s, i) =>
          let b := write_at (inode_bytes s i) (Z.to_nat offset) data in
          (put_inode i b (default (inode_mode s i) mode) s, Ok (RNumber (Z.of_nat (length data))))
      end
  end.

(** The operations of a path *)
Definition file_path (c : file_call) (a : file_agent) : file_agent * res file_reply :=
  let s := fa_files a in
  let p := parts_of (fc_path c) in
  if negb (is_absolute (fc_path c)) || (fc_offset c <? 0) || negb (chunk_size (fc_size c))
  then (a, raise ValueError "file paths must be absolute and chunks bounded")
  else match fc_op c with
  | OpRead => (a, RBytes <$> file_read (fc_path c) (fc_offset c) (fc_size c) s)
  | OpWrite =>
      let '(s, r) := file_write (fc_path c) (fc_data c) (fc_offset c) (fc_truncate c) (fc_mode c) s in (a <| fa_files := s |>, r)
  | OpStat => (a, RStat <$> lstat (follow_parent s p) s)
  | OpList =>
      match node_at s (follow s p) with
      | Some (FDir _) => (a, Ok (RNames (map (path_child (fc_path c)) (children (follow s p) s))))
      | Some _ => (a, raise OSError "Not a directory")
      | None => (a, raise FileNotFoundError "")
      end
  | OpMkdir => let '(s, r) := mkdir p s in (a <| fa_files := s |>, _ ← r; Ok RNone)
  | _ => (a, raise ValueError "unknown file operation")
  end.

(** [Agent.file] *)
Definition agent_file (c : file_call) (a : file_agent) : file_agent * res file_reply :=
  match fc_op c, fc_handle c with
  | OpOpen, _ => file_open c a
  | _, Some handle => file_handle handle c a
  | _, None => file_path c a
  end.

End Agent.

(** * What an operation does *)

(** What is at a path: the abstract file system *)
Inductive content := CDir | CFile (b : bytes) (mode : Z) | CLink.

Definition entry_at (s : file_system) (p : list string) : option content :=
  match node_at s p with
  | Some (FReg i) => Some (CFile (inode_bytes s i) (inode_mode s i))
  | Some (FDir _) => Some CDir
  | Some (FSym _) => Some CLink
  | None => None
  end.

#[export] Instance content_eq_dec : EqDecision content.
Proof. solve_decision. Defined.

(** The content is at the path, and its parents are directories. *)
Definition put_entry (p : list string) (c : content) (e : list string → option content) (q : list string) : option content :=
  if bool_decide (q = p) then Some c
  else if bool_decide (q ∈ proper_prefixes p) then Some CDir else e q.

(** No two paths share an inode, and every inode has its bytes. *)
Record fs_ok (s : file_system) : Prop := FsOk {
  ok_known : ∀ p i, node_at s p = Some (FReg i) → i ∈ dom (fs_inodes s);
  ok_single : ∀ p q i, node_at s p = Some (FReg i) → node_at s q = Some (FReg i) → p = q }.

(** A file or a directory may be made at the path. *)
Record reachable_path (s : file_system) (p : list string) : Prop := ReachablePath {
  rp_names : forallb name_ok p = true;
  rp_parents : ∀ q, q ∈ proper_prefixes p → entry_at s q = None ∨ entry_at s q = Some CDir;
  rp_last : entry_at s p ≠ Some CLink }.

Definition same_entries (s s' : file_system) : Prop := ∀ q, entry_at s' q = entry_at s q.

Lemma is_sym_entry s p : is_sym (node_at s p) = bool_decide (entry_at s p = Some CLink).
Proof. unfold entry_at. destruct (node_at s p) as [[| |]|]; simpl; try case_bool_decide; done. Qed.

Lemma name_not_up p : forallb name_ok p = true → forallb (λ c, negb (bool_decide (c = ".."%string))) p = true.
Proof.
  rewrite !forallb_forall. intros H c Hc. specialize (H c Hc). unfold name_ok in H. bool_prop.
  apply negb_true_iff, bool_decide_false. naive_solver.
Qed.

Lemma reachable_plain s p : reachable_path s p → plain s p = true.
Proof.
  intros [Hn Hp Hl]. unfold plain. rewrite name_not_up by done. simpl. rewrite is_sym_entry, bool_decide_false by done. simpl.
  apply forallb_forall. intros q Hq%list_elem_of_In. rewrite is_sym_entry, bool_decide_false; [done|].
  destruct (Hp q Hq) as [->| ->]; done.
Qed.

Lemma prefix_of_prefix {A} (p q r : list A) : q ∈ proper_prefixes p → r ∈ proper_prefixes q → r ∈ proper_prefixes p.
Proof.
  rewrite !elem_of_proper_prefixes. intros (x & Hx & ->) (y & Hy & ->). exists (y ++ x). rewrite <- app_assoc. split; [|done].
  by destruct y.
Qed.

Lemma reachable_prefix s p q : reachable_path s p → q ∈ proper_prefixes p → reachable_path s q.
Proof.
  intros [Hn Hp Hl] Hq. split.
  - apply elem_of_proper_prefixes in Hq as (r & _ & ->). rewrite forallb_app in Hn. by apply andb_true_iff in Hn as [? _].
  - intros r Hr. apply Hp. by eapply prefix_of_prefix.
  - destruct (Hp q Hq) as [->| ->]; done.
Qed.

Lemma prefixes_snoc {A} (p : list A) c : proper_prefixes (p ++ [c]) = proper_prefixes p ++ [p].
Proof.
  unfold proper_prefixes. rewrite length_app, Nat.add_1_r, seq_S, map_app. simpl. rewrite take_app_length. f_equal.
  apply map_ext_in. intros n Hn%in_seq. rewrite take_app_le by lia. done.
Qed.

Lemma elem_of_prefixes_snoc {A} (p q : list A) c : q ∈ proper_prefixes (p ++ [c]) ↔ q ∈ proper_prefixes p ∨ q = p.
Proof. rewrite prefixes_snoc, elem_of_app, list_elem_of_singleton. done. Qed.

Lemma not_own_prefix {A} (p : list A) : p ∉ proper_prefixes p.
Proof.
  rewrite elem_of_proper_prefixes. intros (r & Hr & He). apply (f_equal length) in He. rewrite length_app in He.
  destruct r; simpl in *; [done|lia].
Qed.

Section AgentLaws.
Context `{R : Resolver} `{!ResolverLaws R}.
Variable umask : Z.

Lemma node_put_fnode s p n q : p ≠ [] → node_at (put_fnode p n s) q = if bool_decide (q = p) then Some n else node_at s q.
Proof.
  intros Hp. unfold node_at, put_fnode. destruct q as [|c q]; [by rewrite bool_decide_false by congruence|].
  cbn [fs_nodes update update_with rebuild]. simpl. case_bool_decide as Hq.
  - rewrite Hq. by rewrite lookup_insert_eq.
  - by rewrite lookup_insert_ne by congruence.
Qed.

(** One directory more *)
Lemma put_dir s p mode : fs_ok s → p ≠ [] → entry_at s p = None →
  fs_ok (put_fnode p (FDir mode) s) ∧
  ∀ q, entry_at (put_fnode p (FDir mode) s) q = if bool_decide (q = p) then Some CDir else entry_at s q.
Proof.
  intros [H1 H2] Hp Hn. split.
  - split; [intros q i|intros q q' i]; rewrite ?node_put_fnode by done; repeat case_bool_decide; try done; [by apply H1|by apply H2].
  - intros q. unfold entry_at. rewrite node_put_fnode by done. by case_bool_decide.
Qed.

Lemma entry_root s : entry_at s [] = Some CDir.
Proof. done. Qed.

(** Paths stay reachable when directories are made. *)
Lemma reachable_grow s s' p : reachable_path s p →
  (∀ q, entry_at s' q = entry_at s q ∨ entry_at s' q = Some CDir) → reachable_path s' p.
Proof.
  intros [Hn Hp Hl] Hs. split; [done| |].
  - intros q Hq. destruct (Hs q) as [->| ->]; auto.
  - destruct (Hs p) as [->| ->]; done.
Qed.

Lemma node_of_entry_dir s p : entry_at s p = Some CDir → ∃ mode, node_at s p = Some (FDir mode).
Proof. unfold entry_at. destruct (node_at s p) as [[| |]|]; naive_solver. Qed.

Lemma node_of_entry_none s p : entry_at s p = None → node_at s p = None.
Proof. unfold entry_at. by destruct (node_at s p) as [[| |]|]. Qed.

Lemma make_dirs_ok l s : fs_ok s →
  (∀ q, q ∈ l → reachable_path s q ∧ (entry_at s q = None ∨ entry_at s q = Some CDir)) →
  ∃ s', make_dirs umask l s = (s', Ok ()) ∧ fs_ok s' ∧
        ∀ q, entry_at s' q = if bool_decide (q ∈ l) then Some CDir else entry_at s q.
Proof.
  revert s. induction l as [|p l IH]; intros s Hs Hl; simpl.
  { exists s. split; [done|]. split; [done|]. done. }
  destruct (Hl p) as [Hp He]; [by left|]. rewrite (follow_plain s p) by by apply reachable_plain.
  destruct He as [He|He].
  - rewrite (node_of_entry_none _ _ He). simpl.
    assert (Hne : p ≠ []) by (intros ->; done).
    destruct (put_dir s p (masked umask 511) Hs Hne He) as [Hs' He'].
    destruct (IH (put_fnode p (FDir (masked umask 511)) s)) as (s' & Hm & Hok & Hq); [done| |].
    + intros q Hq. destruct (Hl q) as [Hr Hc]; [by right|]. split.
      * eapply reachable_grow; [done|]. intros r. rewrite He'. case_bool_decide; auto.
      * rewrite He'. case_bool_decide; auto.
    + exists s'. split; [done|]. split; [done|]. intros q. rewrite Hq, He'.
      repeat case_bool_decide; set_solver.
  - destruct (node_of_entry_dir _ _ He) as [mode ->].
    destruct (IH s) as (s' & Hm & Hok & Hq); [done| |].
    + intros q Hq. apply Hl. by right.
    + exists s'. split; [done|]. split; [done|]. intros q. rewrite Hq.
      repeat case_bool_decide; set_solver.
Qed.

(** [mkdir(parents=True, exist_ok=True)] makes the directory. *)
Lemma mkdir_ok s p : fs_ok s → reachable_path s p → (entry_at s p = None ∨ entry_at s p = Some CDir) →
  ∃ s', mkdir umask p s = (s', Ok ()) ∧ fs_ok s' ∧ ∀ q, entry_at s' q = put_entry p CDir (entry_at s) q.
Proof.
  intros Hs Hp He. unfold mkdir.
  assert (Htail : ∀ q, q ∈ tail (proper_prefixes p) → q ∈ proper_prefixes p)
    by (intros q Hq; destruct (proper_prefixes p); [done|]; by right).
  destruct (make_dirs_ok (tail (proper_prefixes p) ++ [p]) s Hs) as (s' & Hm & Hok & Hq).
  - intros q [Hq| ->%list_elem_of_singleton]%elem_of_app; [|done].
    split; [by eapply reachable_prefix, Htail|by eapply rp_parents, Htail].
  - exists s'. split; [done|]. split; [done|]. intros q. rewrite Hq. unfold put_entry.
    case_bool_decide as H1; repeat case_bool_decide; try done.
    + exfalso. apply elem_of_app in H1 as [H1| H1%list_elem_of_singleton]; auto.
    + subst q. exfalso. apply H1, elem_of_app. right. by left.
    + destruct (decide (q = [])) as [->|Hne]; [done|]. exfalso. apply H1, elem_of_app. left.
      unfold proper_prefixes in *. destruct p as [|c p]; [by apply elem_of_nil in H0|]. simpl in *.
      apply elem_of_cons in H0 as [->|H0]; done.
Qed.

(** The bytes of one file change. *)
Lemma put_inode_entry s p i b mode : fs_ok s → node_at s p = Some (FReg i) →
  fs_ok (put_inode i b mode s) ∧
  ∀ q, entry_at (put_inode i b mode s) q = if bool_decide (q = p) then Some (CFile b mode) else entry_at s q.
Proof.
  intros [H1 H2] Hp. assert (Hnode : ∀ q, node_at (put_inode i b mode s) q = node_at s q) by by intros [|].
  split.
  - split; [intros q j|intros q q' j]; rewrite ?Hnode; [|by apply H2]. intros Hq. simpl. rewrite dom_insert. apply elem_of_union. right. eauto.
  - intros q. unfold entry_at. rewrite Hnode. case_bool_decide as Hq.
    + rewrite Hq, Hp. unfold inode_bytes, inode_mode. simpl. by rewrite lookup_insert_eq.
    + destruct (node_at s q) as [[j| |]|] eqn:Ej; try done. unfold inode_bytes, inode_mode. simpl.
      rewrite lookup_insert_ne; [done|]. intros ->. by apply Hq, (H2 q p j).
Qed.

(** One file more *)
Lemma create_file_entry s p b mode : fs_ok s → p ≠ [] →
  fs_ok (create_file p b mode s) ∧
  node_at (create_file p b mode s) p = Some (FReg (fresh (dom (fs_inodes s)))) ∧
  ∀ q, entry_at (create_file p b mode s) q = if bool_decide (q = p) then Some (CFile b mode) else entry_at s q.
Proof.
  intros [H1 H2] Hp. unfold create_file. set (i := fresh (dom (fs_inodes s))).
  pose proof (is_fresh (dom (fs_inodes s))) as Hi. fold i in Hi.
  assert (Hnode : ∀ q, node_at (put_fnode p (FReg i) (put_inode i b mode s)) q = if bool_decide (q = p) then Some (FReg i) else node_at s q)
    by (intros q; rewrite node_put_fnode by done; by destruct q).
  split; [|split].
  - split.
    + intros q j. rewrite Hnode. simpl. rewrite dom_insert. case_bool_decide; [intros [= <-]; set_solver|]. intros Hq%H1. set_solver.
    + intros q q' j. rewrite !Hnode. repeat case_bool_decide; try (by intros; congruence); [| |by apply H2].
      * intros [= <-] Hq%H1. done.
      * intros Hq%H1 [= <-]. done.
  - by rewrite Hnode, bool_decide_true.
  - intros q. unfold entry_at. rewrite Hnode. case_bool_decide as Hq.
    + unfold inode_bytes, inode_mode. simpl. by rewrite lookup_insert_eq.
    + destruct (node_at s q) as [[j| |]|] eqn:Ej; try done. unfold inode_bytes, inode_mode. simpl.
      rewrite lookup_insert_ne; [done|]. intros <-. by apply H1 in Ej.
Qed.

Definition old_bytes (e : option content) : bytes := match e with Some (CFile b _) => b | _ => [] end.
Definition old_mode (e : option content) : Z := match e with Some (CFile _ m) => m | _ => masked umask 420 end.

Lemma removelast_prefix {A} (p : list A) : p ≠ [] → removelast p ∈ proper_prefixes p.
Proof.
  intros Hp. destruct (exists_last Hp) as (q & c & ->). rewrite removelast_last. apply elem_of_prefixes_snoc. by right.
Qed.

Lemma sys_open_ok s p trunc : fs_ok s → reachable_path s p → p ≠ [] → entry_at s p ≠ Some CDir →
  (∀ q, q ∈ proper_prefixes p → entry_at s q = Some CDir) →
  ∃ s' i, sys_open umask p true false trunc 420 s = Ok (s', i) ∧ fs_ok s' ∧ node_at s' p = Some (FReg i) ∧
    ∀ q, entry_at s' q = if bool_decide (q = p)
                         then Some (CFile (if trunc then [] else old_bytes (entry_at s p)) (old_mode (entry_at s p))) else entry_at s q.
Proof.
  intros Hs Hp Hne Hd Hpre. unfold sys_open. rewrite (follow_plain s p) by by apply reachable_plain. simpl.
  destruct Hp as [_ _ Hl]. destruct (node_at s p) as [[i| |]|] eqn:Ep.
  - assert (He : entry_at s p = Some (CFile (inode_bytes s i) (inode_mode s i))) by (unfold entry_at; by rewrite Ep).
    rewrite He. eexists _, i. split; [done|]. simpl. destruct trunc.
    + destruct (put_inode_entry s p i [] (inode_mode s i) Hs Ep) as [H1 H2]. split; [done|]. split; [by destruct p|done].
    + split; [done|]. split; [done|]. intros q. case_bool_decide as Hq; [by rewrite Hq|done].
  - exfalso. apply Hd. unfold entry_at. by rewrite Ep.
  - exfalso. apply Hl. unfold entry_at. by rewrite Ep.
  - assert (He : entry_at s p = None) by (unfold entry_at; by rewrite Ep).
    unfold check_parent. destruct (node_of_entry_dir s (removelast p)) as [mode Hm]; [by apply Hpre, removelast_prefix|].
    rewrite Hm. simpl. destruct (create_file_entry s p [] (masked umask 420) Hs Hne) as (H1 & H2 & H3).
    eexists _, _. split; [done|]. split; [done|]. split; [done|]. intros q. rewrite H3, He. by destruct trunc.
Qed.

(** A chunk written at the path *)
Lemma file_write_ok s path data offset trunc mode : let p := parts_of path in
  fs_ok s → reachable_path s p → p ≠ [] → entry_at s p ≠ Some CDir →
  ∃ s', file_write umask path data offset trunc mode s = (s', Ok (RNumber (Z.of_nat (length data)))) ∧ fs_ok s' ∧
    ∀ q, entry_at s' q = put_entry p (CFile (write_at (if trunc then [] else old_bytes (entry_at s p)) (Z.to_nat offset) data)
                                         (default (old_mode (entry_at s p)) mode)) (entry_at s) q.
Proof.
  intros p Hs Hp Hne Hd. unfold file_write. fold p.
  pose proof (removelast_prefix p Hne) as Hr.
  destruct (mkdir_ok s (removelast p) Hs) as (s1 & -> & Hs1 & He1); [by eapply reachable_prefix|by apply rp_parents with p|].
  assert (Hgrow : ∀ q, entry_at s1 q = entry_at s q ∨ entry_at s1 q = Some CDir).
  { intros q. rewrite He1. unfold put_entry. repeat case_bool_decide; auto. }
  assert (Hown : entry_at s1 p = entry_at s p).
  { rewrite He1. unfold put_entry. rewrite !bool_decide_false; [done| |].
    - intros Hq. by eapply not_own_prefix, prefix_of_prefix.
    - intros Hq. rewrite <- Hq in Hr. by eapply not_own_prefix. }
  assert (Hpre : ∀ q, q ∈ proper_prefixes p ↔ q ∈ proper_prefixes (removelast p) ∨ q = removelast p).
  { intros q. destruct (exists_last Hne) as (p0 & c & Hpc). rewrite Hpc, removelast_last. apply elem_of_prefixes_snoc. }
  destruct (sys_open_ok s1 p trunc Hs1) as (s2 & i & -> & Hs2 & Hi & He2).
  - by eapply reachable_grow.
  - done.
  - by rewrite Hown.
  - intros q [Hq|Hq]%Hpre; rewrite He1; unfold put_entry; repeat case_bool_decide; done.
  - eexists. split; [done|]. destruct (put_inode_entry s2 p i (write_at (inode_bytes s2 i) (Z.to_nat offset) data)
      (default (inode_mode s2 i) mode) Hs2 Hi) as [Hs3 He3]. split; [done|]. intros q. rewrite He3.
    assert (Hf : entry_at s2 p = Some (CFile (inode_bytes s2 i) (inode_mode s2 i))) by (unfold entry_at; by rewrite Hi).
    rewrite He2, bool_decide_true, Hown in Hf by done. injection Hf as Hb Hm. rewrite <- Hb, <- Hm.
    unfold put_entry. case_bool_decide as Hq; [done|]. rewrite He2, bool_decide_false, He1 by done. unfold put_entry.
    repeat case_bool_decide; try done; exfalso; naive_solver.
Qed.

End AgentLaws.

(** An [open] that is repeated, because its answer was lost, opens nothing twice. *)
Theorem open_once `{Resolver} umask c a a1 r : fc_op c = OpOpen → agent_file umask c a = (a1, Ok r) →
  ∀ a2, (∃ f, fa_handles a2 !! default "" (fc_handle c) = Some (fc_path c, fc_open_mode c, f)) → agent_file umask c a2 = (a2, Ok r).
Proof.
  unfold agent_file. intros ->. unfold file_open. intros Ho a2 [f Hf]. rewrite Hf.
  destruct (raise_if _ _ _ ≫= _); [|done]. rewrite bool_decide_true by done.
  destruct (fa_handles a !! _) as [[[path mode] f']|].
  - case_bool_decide; [|done]. by injection Ho as _ <-.
  - destruct (open_raw _ _ _) as [[s g]|]; [|done]. by injection Ho as _ <-.
Qed.
