(* ===== verification/FileClients.v ===== *)
(** The clients of a guest's files ([sandbox/files.py]): reading, writing, uploads and
    downloads in chunks, against the agent, a connection that fails, and a hostile guest. *)

From S2P Require Import Prelude.
From S2P Require Import Paths.
From S2P Require Import GuestFiles.

#[local] Open Scope Z_scope.

(** * Clients *)

(** What came of a client's operation: a value, an exception, or it goes on *)
Inductive outcome (A : Type) := Done (a : A) | Raised (e : exn) | Running.
Arguments Done {_} _.
Arguments Raised {_} _.
Arguments Running {_}.

(** Code that changes a state *)
Definition comp (S A : Type) : Type := S → S * outcome A.

#[export] Instance comp_ret S : MRet (comp S) := λ A a s, (s, Done a).
#[export] Instance comp_bind S : MBind (comp S) := λ A B f m s,
  match m s with
  | (s, Done a) => f a s
  | (s, Raised e) => (s, Raised e)
  | (s, Running) => (s, Running)
  end.

Definition of_res {S A} (r : res A) : comp S A := λ s, (s, match r with Ok a => Done a | Err e => Raised e end).

(** [for x in l: f(x)] *)
Fixpoint each_of {S A} (f : A → comp S ()) (l : list A) : comp S () :=
  match l with [] => mret () | x :: l => f x ≫= λ _, each_of f l end.

(** Whoever answers the requests of the client: the agent through the worker, or anybody *)
Class FileService (G : Type) := serve : file_call → G → G * res file_reply.

Definition CHUNK : Z := 1024 ^ 2.

(** [range(0, stop, step)] *)
Definition range_by (stop step : Z) : list Z :=
  map (λ k, Z.of_nat k * step) (seq 0 (Z.to_nat ((stop + step - 1) / step))).

(** [data[offset:offset+CHUNK]] *)
Definition chunk_at (data : bytes) (offset : Z) : bytes := take (Z.to_nat CHUNK) (drop (Z.to_nat offset) data).

Section Client.
Context `{G : Type} `{!FileService G}.

(** [self.sandbox._call('file', ...)] *)
Definition file_ask (c : file_call) : comp G file_reply := λ g,
  let '(g, r) := serve c g in of_res r g.

Definition expect {A} (get : file_reply → option A) (r : file_reply) : res A :=
  match get r with Some a => Ok a | None => raise TypeError "" end.

Definition as_bytes (r : file_reply) : option bytes := match r with RBytes b => Some b | _ => None end.
Definition as_stat (r : file_reply) : option file_stat := match r with RStat s => Some s | _ => None end.
Definition as_names (r : file_reply) : option (list string) := match r with RNames l => Some l | _ => None end.
Definition as_number (r : file_reply) : option Z := match r with RNumber n => Some n | _ => None end.

Definition ask_as {A} (get : file_reply → option A) (c : file_call) : comp G A := file_ask c ≫= λ r, of_res (expect get r).

(** [Files.read_bytes] from an offset on *)
Fixpoint read_from (fuel : nat) (path : string) (offset : Z) : comp G bytes :=
  match fuel with
  | O => λ g, (g, Running)
  | S fuel =>
      chunk ← ask_as as_bytes ((file_call_of OpRead path) <| fc_offset := offset |> <| fc_size := CHUNK |>);
      if Z.of_nat (length chunk) <? CHUNK then mret chunk
      else rest ← read_from fuel path (offset + Z.of_nat (length chunk)); mret (chunk ++ rest)
  end.

Definition read_bytes (fuel : nat) (path : string) : comp G bytes := read_from fuel path 0.

Definition write_chunk (path : string) (data : bytes) (mode : option Z) (offset : Z) : comp G () :=
  file_ask ((file_call_of OpWrite path) <| fc_data := chunk_at data offset |> <| fc_offset := offset |>
         <| fc_truncate := offset =? 0 |> <| fc_mode := mode |>) ≫= λ _, mret ().

(** [Files.write_bytes] *)
Definition write_bytes (path : string) (data : bytes) (mode : option Z) : comp G Z :=
  each_of (write_chunk path data mode) (range_by (Z.max 1 (Z.of_nat (length data))) CHUNK) ≫= λ _, mret (Z.of_nat (length data)).

(** The loop of [upload], which reads the local file from an offset on *)
Fixpoint upload_from (fuel : nat) (data : bytes) (path : string) (mode : Z) (offset : Z) : comp G Z :=
  match fuel with
  | O => λ g, (g, Running)
  | S fuel =>
      let chunk := chunk_at data offset in
      if bool_decide (chunk = []) && negb (offset =? 0) then mret offset
      else _ ← file_ask ((file_call_of OpWrite path) <| fc_data := chunk |> <| fc_offset := offset |>
                      <| fc_truncate := offset =? 0 |> <| fc_mode := Some mode |>);
           if bool_decide (chunk = []) then mret offset
           else upload_from fuel data path mode (offset + Z.of_nat (length chunk))
  end.

(** [str(Path(destination) / path.relative_to(source))] *)
Definition path_join (path : string) (parts : list string) : string :=
  (root_text path ++ str_join "/" (parts_of path ++ parts))%string.

(** The order of paths *)
Fixpoint parts_lt (p q : list string) : bool :=
  match p, q with
  | _, [] => false
  | [], _ :: _ => true
  | x :: p, y :: q => str_ltb x y || (bool_decide (x = y) && parts_lt p q)
  end.

(** [sorted(source.rglob('*'))], relative to the source *)
Definition tree_paths (source : list string) (s : file_system) : list (list string) :=
  sort_by parts_lt (omap (λ x : list string * fnode,
    if bool_decide (take (length source) x.1 = source ∧ (length source < length x.1)%nat) then Some (drop (length source) x.1) else None)
    (map_to_list (fs_nodes s))).

Definition upload_file (fuel : nat) (local : file_system) (i : N) (path : string) : comp G Z :=
  upload_from fuel (inode_bytes local i) path (Z.land (inode_mode local i) 511) 0.

(** One path below the source *)
Definition upload_entry (fuel : nat) (local : file_system) (source : list string) (destination : string) (q : list string) : comp G () :=
  match node_at local (source ++ q) with
  | Some (FSym _) => of_res (raise ValueError "upload explicit files rather than symlinks")
  | Some (FReg i) => upload_file fuel local i (path_join destination q) ≫= λ _, mret ()
  | Some (FDir _) => file_ask (file_call_of OpMkdir (path_join destination q)) ≫= λ _, mret ()
  | None => mret ()
  end.

(** [Files.upload]; [source] is where the local system finds the path. *)
Definition upload (fuel : nat) (local : file_system) (source : list string) (destination : string) : comp G (option Z) :=
  match node_at local source with
  | Some (FSym _) => of_res (raise ValueError "upload explicit files rather than symlinks")
  | Some (FDir _) =>
      file_ask (file_call_of OpMkdir destination) ≫= λ _,
      each_of (upload_entry fuel local source destination) (tree_paths source local) ≫= λ _, mret None
  | Some (FReg i) => upload_file fuel local i destination ≫= λ n, mret (Some n)
  | None => of_res (raise FileNotFoundError "")
  end.

Context `{R : Resolver}.
Variable umask : Z.

(** Code about the local files, and code about the guest *)
Definition on_local (f : file_system → file_system * res ()) : comp (file_system * G) () := λ '(l, g),
  let '(l, r) := f l in of_res r (l, g).
Definition on_guest {A} (m : comp G A) : comp (file_system * G) A := λ '(l, g),
  let '(g, r) := m g in ((l, g), r).

(** [os.chmod(temporary, ...); os.replace(temporary, destination)] *)
Definition replace_file (p : list string) (b : bytes) (mode : Z) (l : file_system) : file_system * res () :=
  match node_at l (follow_parent l p) with
  | Some (FDir _) => (l, raise OSError "Is a directory")
  | _ => (create_file (follow_parent l p) b mode l, Ok ())
  end.

(** [Path(entry).name], checked against the directory it was listed in *)
Definition entry_name (source entry : string) : res string :=
  let name := default "" (last (parts_of entry)) in
  _ ← raise_if (bool_decide (name = "" ∨ name = "." ∨ name = "..") || negb (bool_decide (path_child source name = entry)))
        ValueError "invalid guest directory entry";
  Ok name.

(** Neither side is a symbolic link. *)
Definition check_download (info : file_stat) (destination : list string) : comp (file_system * G) () := λ s,
  of_res (raise_if (st_symlink info || is_sym (node_at s.1 (follow_parent s.1 destination)))
            ValueError "download explicit files rather than symlinks") s.

(** [Files.download]: the temporary file of a download is gone in the end. *)
Fixpoint download (fuel : nat) (source : string) (destination : list string) : comp (file_system * G) () :=
  match fuel with
  | O => λ s, (s, Running)
  | S fuel =>
      info ← on_guest (ask_as as_stat (file_call_of OpStat source));
      _ ← check_download info destination;
      if st_directory info then
        _ ← on_local (mkdir umask destination);
        names ← on_guest (ask_as as_names (file_call_of OpList source));
        each_of (λ entry, name ← of_res (entry_name source entry); download fuel entry (destination ++ [name])) names
      else
        _ ← on_local (mkdir umask (removelast destination));
        b ← on_guest (read_from fuel source 0);
        on_local (replace_file destination b (Z.land (st_mode info) 511))
  end.

End Client.

(** * Open files of clients *)

(** The mode [Files.open] asks the guest for *)
Definition binary_mode (mode : string) : res string :=
  let l := chars mode in
  let has c := bool_decide (c ∈ l) in
  _ ← raise_if (negb (forallb (λ c, bool_decide (c ∈ chars "rwax+bt")) l) || negb (bool_decide (NoDup l))) ValueError "invalid file mode";
  match filter (λ c, c ∈ l) (chars "rwax") with
  | [base] =>
      _ ← raise_if (has "b"%char && has "t"%char) ValueError "invalid file mode";
      Ok (of_chars (base :: (if has "+"%char then ["+"%char] else []) ++ ["b"%char]))
  | _ => raise ValueError "invalid file mode"
  end.

Section Remote.
Context {G : Type} `{!FileService G}.
Variable handle : string.

(** [RemoteFile._call] *)
Definition handle_call (op : file_op) : file_call := (file_call_of op "") <| fc_handle := Some handle |>.

(** [RemoteFile.__init__] *)
Definition remote_open (path mode : string) : comp G () :=
  file_ask ((file_call_of OpOpen path) <| fc_open_mode := mode |> <| fc_handle := Some handle |>) ≫= λ _, mret ().

Definition readinto (size : Z) : comp G bytes := ask_as as_bytes ((handle_call OpRead) <| fc_size := Z.min size CHUNK |>).
Definition remote_write (data : bytes) : comp G Z := ask_as as_number ((handle_call OpWrite) <| fc_data := chunk_at data 0 |>).
Definition remote_seek (offset whence : Z) : comp G Z :=
  ask_as as_number ((handle_call OpSeek) <| fc_offset := offset |> <| fc_whence := whence |>).
Definition remote_tell : comp G Z := ask_as as_number (handle_call OpTell).
Definition remote_truncate (size : option Z) : comp G Z :=
  n ← match size with Some n => mret n | None => remote_tell end;
  ask_as as_number ((handle_call OpTruncate) <| fc_size := n |>).
Definition remote_close : comp G () := file_ask (handle_call OpClose) ≫= λ _, mret ().

End Remote.

(** The modes that clients ask for are those the agent accepts. *)
Theorem mode_accepted mode m : binary_mode mode = Ok m → m ∈ open_modes.
Proof.
  unfold binary_mode. intros (_ & _ & H)%bind_ok.
  destruct (filter _ _) as [|base [|]] eqn:Ef; [done| |done]. apply bind_ok in H as (_ & _ & [= <-]).
  assert (Hb : base ∈ chars "rwax") by (eapply list_elem_of_filter; rewrite Ef; by left).
  repeat (apply elem_of_cons in Hb as [->|Hb]); try (by apply elem_of_nil in Hb); destruct (bool_decide _); unfold open_modes; simpl; set_solver.
Qed.

Section AgentClients.
Context `{R : Resolver} `{!ResolverLaws R}.
Variable umask : Z.

(** The agent answers. *)
#[local] Instance agent_service : FileService file_agent := agent_file umask.

(** A file may be written at the path. *)
Record writable (s : file_system) (path : string) : Prop := Writable {
  wr_absolute : is_absolute path = true;
  wr_ok : fs_ok s;
  wr_reachable : reachable_path s (parts_of path);
  wr_file : entry_at s (parts_of path) ≠ Some CDir }.

Lemma writable_nonempty s path : writable s path → parts_of path ≠ [].
Proof. intros [_ _ _ H] He. rewrite He in H. by apply H. Qed.

Definition chunk_len : nat := Z.to_nat CHUNK.

Lemma to_nat_CHUNK : Z.to_nat CHUNK = chunk_len.
Proof. unfold chunk_len. reflexivity. Qed.

Lemma chunk_at_eq data k : chunk_at data (Z.of_nat k * CHUNK) = take chunk_len (drop (k * chunk_len) data).
Proof. unfold chunk_at, chunk_len. do 2 f_equal. unfold CHUNK. lia. Qed.

Lemma chunk_len_eq : Z.of_nat chunk_len = CHUNK.
Proof. apply Z2Nat.id. unfold CHUNK. lia. Qed.

#[local] Opaque chunk_len.

Lemma chunk_len_pos : (0 < chunk_len)%nat.
Proof. apply Nat2Z.inj_lt. rewrite chunk_len_eq. unfold CHUNK. lia. Qed.

(** The first [k] chunks are written. *)
Record written (a0 a : file_agent) (path : string) (data : bytes) (mode : option Z) (k : nat) : Prop := Written {
  wn_ok : fs_ok (fa_files a);
  wn_handles : fa_handles a = fa_handles a0;
  wn_entries : ∀ q, entry_at (fa_files a) q =
    if bool_decide (k = O) then entry_at (fa_files a0) q
    else put_entry (parts_of path) (CFile (take (k * chunk_len) data) (default (old_mode umask (entry_at (fa_files a0) (parts_of path))) mode))
           (entry_at (fa_files a0)) q }.

Lemma put_entry_own p c e : put_entry p c e p = Some c.
Proof. unfold put_entry. by rewrite bool_decide_true. Qed.

Lemma put_entry_twice p c c' e e' : (∀ q, e' q = put_entry p c e q) → ∀ q, put_entry p c' e' q = put_entry p c' e q.
Proof. intros He q. unfold put_entry. repeat case_bool_decide; try done. rewrite He. unfold put_entry. by rewrite !bool_decide_false. Qed.

Lemma put_entry_ext p c e e' : (∀ q, e q = e' q) → ∀ q, put_entry p c e q = put_entry p c e' q.
Proof. intros He q. unfold put_entry. by rewrite He. Qed.

Lemma reachable_put s s' p b mode : reachable_path s p → (∀ q, entry_at s' q = put_entry p (CFile b mode) (entry_at s) q) →
  reachable_path s' p.
Proof.
  intros [Hn Hp Hl] Hs. split; [done| |].
  - intros q Hq. rewrite Hs. unfold put_entry. repeat case_bool_decide; auto. subst q. by apply not_own_prefix in Hq.
  - by rewrite Hs, put_entry_own.
Qed.

Lemma written_writable a0 a path data mode k : writable (fa_files a0) path → written a0 a path data mode k → writable (fa_files a) path.
Proof.
  intros [H1 H2 H3 H4] [Hok _ He]. case_bool_decide as Hk.
  - split; [done|done| |by rewrite He]. split; [by destruct H3| |].
    + intros q Hq. rewrite He. by apply H3.
    + rewrite He. by apply H3.
  - split; [done|done|by eapply reachable_put|]. by rewrite He, put_entry_own.
Qed.

Lemma written_zero a path data mode : fs_ok (fa_files a) → written a a path data mode 0.
Proof. by split. Qed.

(** One chunk *)
Lemma chunk_written a0 a path data mode k : writable (fa_files a0) path → written a0 a path data mode k →
  (k * chunk_len <= length data)%nat →
  ∃ a', file_ask ((file_call_of OpWrite path) <| fc_data := chunk_at data (Z.of_nat k * CHUNK) |> <| fc_offset := Z.of_nat k * CHUNK |>
               <| fc_truncate := Z.of_nat k * CHUNK =? 0 |> <| fc_mode := mode |>) a
          = (a', Done (RNumber (Z.of_nat (length (chunk_at data (Z.of_nat k * CHUNK)))))) ∧
        written a0 a' path data mode (S k).
Proof.
  intros Hw0 Hw Hlen. destruct (written_writable _ _ _ _ _ _ Hw0 Hw) as [H1 H2 H3 H4].
  assert (Hne : parts_of path ≠ []) by (intros He; rewrite He in H4; by apply H4).
  destruct (file_write_ok umask (fa_files a) path (chunk_at data (Z.of_nat k * CHUNK)) (Z.of_nat k * CHUNK)
              (Z.of_nat k * CHUNK =? 0) mode H2 H3 Hne H4) as (s' & Hf & Hok & He).
  eexists. split.
  - unfold file_ask, serve, agent_service, agent_file, file_path. cbn -[CHUNK Z.mul file_write chunk_at is_absolute chunk_size].
    rewrite H1. change (chunk_size (4 * 1024 ^ 2)) with true.
    replace (Z.of_nat k * CHUNK <? 0) with false by (symmetry; apply Z.ltb_ge; unfold CHUNK; lia).
    cbn -[CHUNK Z.mul file_write chunk_at]. rewrite Hf. done.
  - destruct Hw as [_ Hh Hen]. split; [done|done|]. intros q. simpl. rewrite He.
    assert (Hpos : (Z.of_nat k * CHUNK =? 0) = bool_decide (k = O)).
    { pose proof chunk_len_pos. pose proof chunk_len_eq. case_bool_decide; [subst; done|]. apply Z.eqb_neq. nia. }
    assert (Hz : Z.to_nat (Z.of_nat k * CHUNK) = (k * chunk_len)%nat) by (pose proof chunk_len_eq; lia).
    rewrite Hpos, Hz, chunk_at_eq. rewrite Hen. case_bool_decide as Hk.
    + subst k. simpl. rewrite Nat.add_0_r, drop_0.
      replace (write_at [] 0 (take chunk_len data)) with (take chunk_len data) by (symmetry; apply (write_at_end [])).
      apply put_entry_ext. intros x. by rewrite Hen.
    + rewrite put_entry_own. cbn [old_bytes old_mode].
      assert (Hw' : write_at (take (k * chunk_len) data) (k * chunk_len) (take chunk_len (drop (k * chunk_len) data))
                    = take (S k * chunk_len) data).
      { pose proof (write_at_end (take (k * chunk_len) data) (take chunk_len (drop (k * chunk_len) data))) as Hend.
        rewrite length_take_le in Hend by lia. rewrite Hend. simpl. rewrite (Nat.add_comm chunk_len).
        apply take_take_drop. }
      rewrite Hw'. assert (Hd : default (default (old_mode umask (entry_at (fa_files a0) (parts_of path))) mode) mode =
                                default (old_mode umask (entry_at (fa_files a0) (parts_of path))) mode) by by destruct mode.
      rewrite Hd. eapply put_entry_twice. intros x. rewrite Hen. done.
Qed.

Lemma bind_done {S A B} (m : comp S A) (f : A → comp S B) s s' a : m s = (s', Done a) → (m ≫= f) s = f a s'.
Proof. unfold mbind, comp_bind. by intros ->. Qed.

Lemma bind_raised {S A B} (m : comp S A) (f : A → comp S B) s s' x : m s = (s', Raised x) → (m ≫= f) s = (s', Raised x).
Proof. unfold mbind, comp_bind. by intros ->. Qed.

Lemma each_app {S A} (f : A → comp S ()) l l' s s' : each_of f l s = (s', Done ()) → each_of f (l ++ l') s = each_of f l' s'.
Proof.
  revert s. induction l as [|x l IH]; intros s H; [by injection H as ->|]. simpl in *.
  unfold mbind, comp_bind in *. destruct (f x s) as [s1 [[]| |]]; try done. by apply IH.
Qed.

Lemma written_chunks a0 path data mode n : writable (fa_files a0) path →
  ((n - 1) * chunk_len <= length data)%nat →
  ∃ a', each_of (write_chunk path data mode) (map (λ k, Z.of_nat k * CHUNK) (seq 0 n)) a0 = (a', Done ()) ∧
        written a0 a' path data mode n.
Proof.
  intros Hw. induction n as [|n IH]; intros Hn.
  - exists a0. split; [done|]. apply written_zero. by destruct Hw.
  - assert (Hn' : (n * chunk_len <= length data)%nat) by (replace n with (S n - 1)%nat by lia; done).
    destruct IH as (a' & He & Hwr); [nia|]. destruct (chunk_written a0 a' path data mode n Hw Hwr Hn') as (a2 & Hc & Hwr2).
    exists a2. split; [|done]. rewrite seq_S, map_app. simpl. rewrite (each_app _ _ _ _ _ He). simpl.
    unfold write_chunk at 1. erewrite bind_done; [|erewrite bind_done; [|exact Hc]; done]. done.
Qed.

(** How many chunks *)
Definition chunk_count (n : Z) : nat := Z.to_nat ((n + CHUNK - 1) / CHUNK).

Lemma chunks_bound (len : nat) : let n := chunk_count (Z.max 1 (Z.of_nat len)) in
  (1 <= n)%nat ∧ ((n - 1) * chunk_len <= len)%nat ∧ (len <= n * chunk_len)%nat.
Proof.
  intros n. pose proof chunk_len_eq as Hc. pose proof chunk_len_pos as Hp.
  assert (Hz : Z.of_nat n = (Z.max 1 (Z.of_nat len) + CHUNK - 1) / CHUNK)
    by (unfold n, chunk_count; rewrite Z2Nat.id; [done|]; apply Z.div_pos; lia).
  pose proof (Z.div_mod (Z.max 1 (Z.of_nat len) + CHUNK - 1) CHUNK) as Hd. rewrite <- Hz in Hd.
  pose proof (Z.mod_pos_bound (Z.max 1 (Z.of_nat len) + CHUNK - 1) CHUNK). nia.
Qed.

Lemma written_all a0 a path data mode n : (1 <= n)%nat → (length data <= n * chunk_len)%nat → written a0 a path data mode n →
  ∀ q, entry_at (fa_files a) q = put_entry (parts_of path)
    (CFile data (default (old_mode umask (entry_at (fa_files a0) (parts_of path))) mode)) (entry_at (fa_files a0)) q.
Proof. intros Hn Hl [_ _ H] q. rewrite H, bool_decide_false by lia. by rewrite take_ge by lia. Qed.

(** [write_bytes] puts the data at the path. *)
Lemma write_bytes_ok a path data mode : writable (fa_files a) path →
  ∃ a', write_bytes path data mode a = (a', Done (Z.of_nat (length data))) ∧ fs_ok (fa_files a') ∧ fa_handles a' = fa_handles a ∧
    ∀ q, entry_at (fa_files a') q = put_entry (parts_of path)
      (CFile data (default (old_mode umask (entry_at (fa_files a) (parts_of path))) mode)) (entry_at (fa_files a)) q.
Proof.
  intros Hw. destruct (chunks_bound (length data)) as (H1 & H2 & H3).
  destruct (written_chunks a path data mode _ Hw H2) as (a' & He & Hwr). exists a'.
  unfold write_bytes, range_by. fold (chunk_count (Z.max 1 (Z.of_nat (length data)))).
  erewrite bind_done by exact He. split; [done|]. split; [by destruct Hwr|]. split; [by destruct Hwr|]. by eapply written_all.
Qed.

(** So does the loop of [upload]. *)
Lemma upload_from_ok a0 path data mode fuel : writable (fa_files a0) path → ∀ k a, written a0 a path data (Some mode) k →
  k = O ∨ (0 < length data)%nat → (1 <= fuel)%nat → (length data < (k + fuel - 1) * chunk_len)%nat →
  ∃ a', upload_from fuel data path mode (Z.of_nat (Nat.min (k * chunk_len) (length data))) a = (a', Done (Z.of_nat (length data))) ∧
    fs_ok (fa_files a') ∧ fa_handles a' = fa_handles a0 ∧
    ∀ q, entry_at (fa_files a') q = put_entry (parts_of path) (CFile data mode) (entry_at (fa_files a0)) q.
Proof.
  intros Hw. pose proof chunk_len_pos as Hp. pose proof chunk_len_eq as Hc.
  induction fuel as [|fuel IH]; intros k a Hwr Hk Hf Hlen; [lia|]. cbn [upload_from].
  destruct (decide (k * chunk_len < length data ∨ k = O)%nat) as [Hmore|Hend].
  - assert (Hoff : Z.of_nat (Nat.min (k * chunk_len) (length data)) = Z.of_nat k * CHUNK) by (destruct Hmore; [|subst k]; lia).
    rewrite Hoff. assert (Hstop : bool_decide (chunk_at data (Z.of_nat k * CHUNK) = []) && negb (Z.of_nat k * CHUNK =? 0) = false).
    { apply andb_false_iff. destruct Hmore as [Hm|Hm].
      - left. apply bool_decide_false. rewrite chunk_at_eq. intros E. apply (f_equal length) in E.
        rewrite length_take, length_drop in E. simpl in E. lia.
      - right. subst k. done. }
    rewrite Hstop. destruct (chunk_written a0 a path data (Some mode) k Hw Hwr) as (a1 & Hask & Hwr1); [destruct Hmore; [|subst k]; lia|].
    erewrite bind_done by exact Hask. case_bool_decide as Hnil; rewrite chunk_at_eq in Hnil.
    + assert (Hz : length data = O ∧ k = O).
      { apply (f_equal length) in Hnil. rewrite length_take, length_drop in Hnil. simpl in Hnil. destruct Hmore, Hk; lia. }
      destruct Hz as [Hz ->]. exists a1. rewrite Hz. split; [done|]. split; [by destruct Hwr1|]. split; [by destruct Hwr1|].
      intros q. rewrite (written_all a0 a1 path data (Some mode) 1) by (lia || eassumption). done.
    + destruct (IH (S k) a1 Hwr1) as (a' & H1 & H2); [|nia|lia|].
      * right. destruct (decide (length data = O)); [|lia]. exfalso. apply Hnil, nil_length_inv. rewrite length_take, length_drop. lia.
      * exists a'. split; [|done]. rewrite <- H1. f_equal. rewrite chunk_at_eq, length_take, length_drop. lia.
  - assert (Hoff : Nat.min (k * chunk_len) (length data) = length data) by lia. rewrite Hoff.
    assert (Hnil : chunk_at data (Z.of_nat (length data)) = []) by (unfold chunk_at; rewrite Nat2Z.id, drop_all; apply take_nil).
    rewrite Hnil. replace (Z.of_nat (length data) =? 0) with false by (symmetry; apply Z.eqb_neq; lia).
    exists a. split; [done|]. split; [by destruct Hwr|]. split; [by destruct Hwr|].
    intros q. by rewrite (written_all a0 a path data (Some mode) k) by (lia || eassumption).
Qed.

(** ** Reading *)

Lemma node_of_entry_file s p b mode : entry_at s p = Some (CFile b mode) → ∃ i, node_at s p = Some (FReg i) ∧ inode_bytes s i = b ∧ inode_mode s i = mode.
Proof. unfold entry_at. destruct (node_at s p) as [[i| |]|]; naive_solver. Qed.

Record readable (s : file_system) (path : string) (b : bytes) : Prop := Readable {
  rd_absolute : is_absolute path = true;
  rd_plain : plain s (parts_of path) = true;
  rd_file : ∃ mode, entry_at s (parts_of path) = Some (CFile b mode) }.

Lemma ask_read a path b offset : readable (fa_files a) path b → 0 <= offset →
  ask_as as_bytes ((file_call_of OpRead path) <| fc_offset := offset |> <| fc_size := CHUNK |>) a
  = (a, Done (take chunk_len (drop (Z.to_nat offset) b))).
Proof.
  intros [H1 H2 (mode & (i & Hi & Hb & Hm)%node_of_entry_file)] Ho.
  unfold ask_as, file_ask, serve, agent_service, agent_file, file_path, file_read, sys_open, mbind, comp_bind.
  cbn -[CHUNK Z.mul chunk_at is_absolute chunk_size follow]. rewrite H1, (follow_plain _ _ H2), Hi.
  change (chunk_size CHUNK) with true. replace (offset <? 0) with false by (symmetry; by apply Z.ltb_ge).
  cbn -[CHUNK Z.to_nat]. rewrite Hb, to_nat_CHUNK. reflexivity.
Qed.

(** [read_bytes] gives what is there, with a turn per chunk. *)
Lemma read_from_ok a path b fuel k : readable (fa_files a) path b → (length b < (k + fuel) * chunk_len)%nat → (k * chunk_len <= length b)%nat →
  read_from fuel path (Z.of_nat (k * chunk_len)) a = (a, Done (drop (k * chunk_len) b)).
Proof.
  intros Hr. pose proof chunk_len_eq as Hc. pose proof chunk_len_pos as Hp. revert k.
  induction fuel as [|fuel IH]; intros k Hf Hk; [lia|]. cbn [read_from].
  erewrite bind_done by (apply ask_read; [done|lia]). rewrite Nat2Z.id.
  assert (Hl : length (take chunk_len (drop (k * chunk_len) b)) = Nat.min chunk_len (length b - k * chunk_len))
    by by rewrite length_take, length_drop.
  destruct (Z.ltb_spec (Z.of_nat (length (take chunk_len (drop (k * chunk_len) b)))) CHUNK) as [Hlt|Hge].
  - rewrite take_ge by (rewrite length_drop; lia). done.
  - assert (Hlen : length (take chunk_len (drop (k * chunk_len) b)) = chunk_len) by lia. rewrite Hlen.
    replace (Z.of_nat (k * chunk_len) + Z.of_nat chunk_len) with (Z.of_nat (S k * chunk_len)) by lia.
    erewrite bind_done; [|apply IH; lia]. unfold mret, comp_ret. do 2 f_equal.
    rewrite <- (take_drop chunk_len (drop (k * chunk_len) b)) at 2. f_equal. rewrite drop_drop. f_equal. lia.
Qed.

Lemma read_bytes_ok a path b fuel : readable (fa_files a) path b → (length b < fuel * chunk_len)%nat →
  read_bytes fuel path a = (a, Done b).
Proof. intros Hr Hf. apply (read_from_ok a path b fuel 0 Hr); lia. Qed.

(** ** Trees *)

(** What a copy keeps: the permissions of files, not of directories *)
Definition perms (c : content) : content := match c with CFile b m => CFile b (Z.land m 511) | c => c end.

Abbreviation entries := (list string → option content) (only parsing).

(** The tree at [src] is at [dst], and nothing else changed. *)
Record copied (e : entries) (src : list string) (e0 : entries) (dst : list string) (e1 : entries) : Prop := Copied {
  cp_tree : ∀ q, e1 (dst ++ q) = perms <$> e (src ++ q);
  cp_rest : ∀ x, (∀ q, x ≠ dst ++ q) → e1 x = if bool_decide (x ∈ proper_prefixes dst) then Some CDir else e0 x }.

(** What is at the destination is absent, or of the same kind. *)
Definition fits (c0 c : option content) : Prop :=
  match c0, c with
  | None, _ | Some CDir, Some CDir | Some (CFile _ _), Some (CFile _ _) => True
  | _, _ => False
  end.

(** Below the path are files and directories with proper names, in directories. *)
Record tree_ok (e : entries) (src : list string) : Prop := TreeOk {
  tr_links : ∀ q, e (src ++ q) ≠ Some CLink;
  tr_names : ∀ q, is_Some (e (src ++ q)) → forallb name_ok q = true;
  tr_parents : ∀ q r, r ≠ [] → is_Some (e (src ++ q ++ r)) → e (src ++ q) = Some CDir }.

Lemma prefixes_app {A} (d q x : list A) :
  x ∈ proper_prefixes (d ++ q) ↔ x ∈ proper_prefixes d ∨ ∃ q', x = d ++ q' ∧ q' ∈ proper_prefixes q.
Proof.
  induction q as [|c q IH] using rev_ind.
  - rewrite app_nil_r. split; [by left|]. intros [?|(q' & -> & Hq)]; [done|]. by apply elem_of_nil in Hq.
  - rewrite app_assoc, elem_of_prefixes_snoc, IH. split.
    + intros [[?|(q' & -> & ?)]| ->]; [by left|right|right; exists q; split; [done|]].
      * exists q'. split; [done|]. apply elem_of_prefixes_snoc. by left.
      * apply elem_of_prefixes_snoc. by right.
    + intros [?|(q' & -> & [?| ->]%elem_of_prefixes_snoc)]; [by left; left|left; right|by right]. eauto.
Qed.

(** A tree that is being copied: [D] is done, the rest still fits. *)
Record copying (e : entries) (src : list string) (e0 : entries) (dst : list string) (D : list string → Prop) (e1 : entries) : Prop := Copying {
  cy_done : ∀ q, D q → e1 (dst ++ q) = perms <$> e (src ++ q);
  cy_fits : ∀ q, fits (e1 (dst ++ q)) (e (src ++ q));
  cy_rest : ∀ x, (∀ q, x ≠ dst ++ q) → e1 x = if bool_decide (x ∈ proper_prefixes dst) then Some CDir else e0 x }.

Lemma copying_all e src e0 dst D e1 : (∀ q, is_Some (e (src ++ q)) → D q) → copying e src e0 dst D e1 → copied e src e0 dst e1.
Proof.
  intros Hall [H1 H2 H3]. split; [|done]. intros q. destruct (e (src ++ q)) as [c|] eqn:Eq.
  - rewrite H1, Eq; [done|]. apply Hall. by rewrite Eq.
  - specialize (H2 q). rewrite Eq in H2. by destruct (e1 (dst ++ q)) as [[| |]|].
Qed.

(** Paths below the destination are reachable. *)
Lemma copying_reachable e src e0 dst D s : tree_ok e src → forallb name_ok dst = true → copying e src e0 dst D (entry_at s) →
  ∀ q c, e (src ++ q) = Some c → reachable_path s (dst ++ q).
Proof.
  intros [Hl Hn Hp] Hd [H1 H2 H3] q c Hc. split.
  - rewrite forallb_app, Hd. apply Hn. by rewrite Hc.
  - intros x [Hx|(q' & -> & (r & Hr & ->)%elem_of_proper_prefixes)]%prefixes_app.
    + right. rewrite H3; [by rewrite bool_decide_true|]. intros q' ->. apply elem_of_proper_prefixes in Hx as (r & Hr & He).
      apply (f_equal length) in He. rewrite !length_app in He. destruct r; simpl in *; [done|lia].
    + specialize (H2 q'). rewrite (Hp q' r Hr) in H2 by (by rewrite Hc).
      destruct (entry_at s (dst ++ q')) as [[| |]|]; auto; done.
  - intros He. specialize (H2 q). rewrite He, Hc in H2. done.
Qed.

Lemma copying_ext e src e0 dst D e1 e2 : (∀ x, e2 x = e1 x) → copying e src e0 dst D e1 → copying e src e0 dst D e2.
Proof. intros He [H1 H2 H3]. split; intros x; rewrite ?He; auto. Qed.

Lemma perms_fits c : c ≠ CLink → fits (Some (perms c)) (Some c).
Proof. by destruct c. Qed.

(** One more entry is copied. *)
Lemma copying_step e src e0 dst D e1 q c : tree_ok e src → copying e src e0 dst D e1 → e (src ++ q) = Some c →
  copying e src e0 dst (λ x, D x ∨ x = q ∨ x ∈ proper_prefixes q) (put_entry (dst ++ q) (perms c) e1).
Proof.
  intros [Hl Hn Hp] [H1 H2 H3] Hc.
  assert (Hpre : ∀ x, x ∈ proper_prefixes q → e (src ++ x) = Some CDir).
  { intros x (r & Hr & ->)%elem_of_proper_prefixes. apply (Hp x r Hr). by rewrite Hc. }
  assert (Hput : ∀ x, put_entry (dst ++ q) (perms c) e1 (dst ++ x) =
    if bool_decide (x = q ∨ x ∈ proper_prefixes q) then perms <$> e (src ++ x) else e1 (dst ++ x)).
  { intros x. unfold put_entry. case_bool_decide as Hb.
    { apply app_inv_head in Hb as ->. by rewrite bool_decide_true, Hc by auto. }
    case_bool_decide as Hb2; case_bool_decide as H; try done.
    - destruct H as [->|Hx]; [done|]. by rewrite (Hpre x Hx).
    - exfalso. apply prefixes_app in Hb2 as [Hb2|(x' & Hx & Hb2)].
      + apply elem_of_proper_prefixes in Hb2 as (r & Hr & He). apply (f_equal length) in He. rewrite !length_app in He.
        destruct r; simpl in *; [done|lia].
      + apply app_inv_head in Hx as ->. auto.
    - exfalso. destruct H as [->|Hx]; [done|]. apply Hb2, prefixes_app. right. eauto. }
  split.
  - intros x Hx. rewrite Hput. case_bool_decide; [done|]. apply H1. naive_solver.
  - intros x. rewrite Hput. case_bool_decide as Hb; [|done]. destruct Hb as [->|Hb].
    + rewrite Hc. apply perms_fits. intros ->. by apply (Hl q).
    + by rewrite (Hpre x Hb).
  - intros x Hx. unfold put_entry. rewrite bool_decide_false by apply Hx. rewrite H3 by done.
    case_bool_decide as Hb; [|done]. apply prefixes_app in Hb as [Hb|(x' & -> & _)]; [by rewrite bool_decide_true|by destruct (Hx x')].
Qed.

(** ** Upload *)

Lemma path_join_ok d q : is_absolute d = true → forallb name_ok (parts_of d ++ q) = true →
  is_absolute (path_join d q) = true ∧ parts_of (path_join d q) = parts_of d ++ q.
Proof.
  unfold is_absolute, path_join, root_text. intros Ha Hn. rewrite Ha.
  assert (Hp : ∀ x, str_startswith "/" ("/" ++ x)%string = true) by by intros [].
  destruct (str_startswith "//" d && negb (str_startswith "///" d)); (split; [apply Hp|]).
  - change ("//" ++ ?x)%string with ("/" ++ ("/" ++ x))%string. rewrite !parts_of_slash. by apply parts_of_join.
  - rewrite parts_of_slash. by apply parts_of_join.
Qed.

Lemma descendants_spec q src s : q ∈ tree_paths src s ↔ q ≠ [] ∧ is_Some (entry_at s (src ++ q)).
Proof.
  assert (Hsome : ∀ p, p ≠ [] → is_Some (entry_at s p) ↔ is_Some (fs_nodes s !! p)).
  { intros [|c p] Hp; [done|]. unfold entry_at, node_at. destruct (fs_nodes s !! (c :: p)) as [[| |]|]; split; eauto; by intros [? [=]]. }
  unfold tree_paths. rewrite elem_of_sort_by, list_elem_of_omap. split.
  - intros ([p n] & Hin & Hq). simpl in Hq. case_bool_decide as Hb; [|done]. injection Hq as <-. destruct Hb as [Ht Hl].
    assert (Hp : p = src ++ drop (length src) p) by (rewrite <- Ht at 1; by rewrite take_drop).
    assert (Hne : drop (length src) p ≠ []) by (intros E; apply (f_equal length) in E; rewrite length_drop in E; simpl in E; lia).
    split; [done|]. apply Hsome; [by destruct src|]. rewrite <- Hp. exists n. by apply elem_of_map_to_list.
  - intros [Hne Hs]. apply Hsome in Hs as [n Hn]; [|by destruct src]. exists (src ++ q, n).
    split; [by apply elem_of_map_to_list|]. simpl. rewrite take_app_length, drop_app_length, bool_decide_true; [done|].
    split; [done|]. rewrite length_app. destruct q; simpl; [done|lia].
Qed.

(** Every file is read in fewer turns than the fuel. *)
Definition fuel_enough (fuel : nat) (e : entries) (src : list string) : Prop :=
  (1 <= fuel)%nat ∧ ∀ q b m, e (src ++ q) = Some (CFile b m) → (length b < (fuel - 1) * chunk_len)%nat.

Lemma ask_mkdir a path : is_absolute path = true → fs_ok (fa_files a) → reachable_path (fa_files a) (parts_of path) →
  (entry_at (fa_files a) (parts_of path) = None ∨ entry_at (fa_files a) (parts_of path) = Some CDir) →
  ∃ a', file_ask (file_call_of OpMkdir path) a = (a', Done RNone) ∧ fs_ok (fa_files a') ∧
        ∀ q, entry_at (fa_files a') q = put_entry (parts_of path) CDir (entry_at (fa_files a)) q.
Proof.
  intros Ha Hok Hr He. destruct (mkdir_ok umask (fa_files a) (parts_of path) Hok Hr He) as (s' & Hm & Hok' & He').
  exists (a <| fa_files := s' |>). split; [|done].
  unfold file_ask, serve, agent_service, agent_file, file_path. cbn -[is_absolute chunk_size mkdir parts_of]. rewrite Ha.
  change (chunk_size (4 * 1024 ^ 2)) with true. cbn -[mkdir parts_of]. by rewrite Hm.
Qed.

Lemma upload_file_ok a path local i fuel : writable (fa_files a) path → (1 <= fuel)%nat →
  (length (inode_bytes local i) < (fuel - 1) * chunk_len)%nat →
  ∃ a', upload_file fuel local i path a = (a', Done (Z.of_nat (length (inode_bytes local i)))) ∧ fs_ok (fa_files a') ∧
        ∀ q, entry_at (fa_files a') q = put_entry (parts_of path)
          (perms (CFile (inode_bytes local i) (inode_mode local i))) (entry_at (fa_files a)) q.
Proof.
  intros Hw Hf Hl. destruct (upload_from_ok a path (inode_bytes local i) (Z.land (inode_mode local i) 511) fuel Hw 0 a) as (a' & H1 & H2 & _ & H3).
  - apply written_zero. by destruct Hw.
  - by left.
  - done.
  - simpl. done.
  - exists a'. split; [|done]. unfold upload_file. rewrite Nat.mul_0_l, Nat.min_0_l in H1. exact H1.
Qed.

Section Upload.
Variables (fuel : nat) (local : file_system) (src : list string) (d : string) (e0 : entries).
Hypothesis Htree : tree_ok (entry_at local) src.
Hypothesis Hfuel : fuel_enough fuel (entry_at local) src.
Hypothesis Habs : is_absolute d = true.
Hypothesis Hnames : forallb name_ok (parts_of d) = true.

Lemma upload_entry_ok D a q : fs_ok (fa_files a) → copying (entry_at local) src e0 (parts_of d) D (entry_at (fa_files a)) →
  is_Some (entry_at local (src ++ q)) →
  ∃ a', upload_entry fuel local src d q a = (a', Done ()) ∧ fs_ok (fa_files a') ∧
        copying (entry_at local) src e0 (parts_of d) (λ x, D x ∨ x = q ∨ x ∈ proper_prefixes q) (entry_at (fa_files a')).
Proof using Htree Hfuel Habs Hnames ResolverLaws0.
  intros Hok Hcp [c Hc]. pose proof (copying_reachable _ _ _ _ _ _ Htree Hnames Hcp q c Hc) as Hr.
  destruct (path_join_ok d q Habs) as [Hja Hjp]; [by destruct Hr|].
  assert (Hext : ∀ e1, (∀ x, e1 x = put_entry (parts_of d ++ q) (perms c) (entry_at (fa_files a)) x) →
    copying (entry_at local) src e0 (parts_of d) (λ x, D x ∨ x = q ∨ x ∈ proper_prefixes q) e1).
  { intros e1 He. eapply copying_ext; [exact He|]. by apply copying_step. }
  assert (Hfit := cy_fits _ _ _ _ _ _ Hcp q). rewrite Hc in Hfit.
  unfold upload_entry. unfold entry_at in Hc. destruct (node_at local (src ++ q)) as [[i|m|t]|] eqn:En; [| |exfalso|done].
  - injection Hc as <-. destruct Hfuel as [Hf1 Hf2].
    destruct (upload_file_ok a (path_join d q) local i fuel) as (a' & H1 & H2 & H3); [split; rewrite ?Hjp; try done|done| |].
    + intros He. by rewrite He in Hfit.
    + apply (Hf2 q _ (inode_mode local i)). unfold entry_at. by rewrite En.
    + exists a'. erewrite bind_done by exact H1. split; [done|]. split; [done|]. apply Hext. by rewrite <- Hjp.
  - injection Hc as <-. destruct (ask_mkdir a (path_join d q)) as (a' & H1 & H2 & H3); rewrite ?Hjp; try done.
    + destruct (entry_at (fa_files a) (parts_of d ++ q)) as [[| |]|]; auto; done.
    + exists a'. erewrite bind_done by exact H1. split; [done|]. split; [done|]. apply Hext. by rewrite <- Hjp.
  - apply (tr_links _ _ Htree q). unfold entry_at. by rewrite En.
Qed.

Lemma upload_entries_ok l D a : fs_ok (fa_files a) → copying (entry_at local) src e0 (parts_of d) D (entry_at (fa_files a)) →
  (∀ q, q ∈ l → is_Some (entry_at local (src ++ q))) →
  ∃ a' D', each_of (upload_entry fuel local src d) l a = (a', Done ()) ∧ fs_ok (fa_files a') ∧
        copying (entry_at local) src e0 (parts_of d) D' (entry_at (fa_files a')) ∧ (∀ q, D q ∨ q ∈ l → D' q).
Proof using Htree Hfuel Habs Hnames ResolverLaws0.
  revert D a. induction l as [|q l IH]; intros D a Hok Hcp Hl.
  - exists a, D. split; [done|]. split; [done|]. split; [done|]. by intros q [?|?%elem_of_nil].
  - destruct (upload_entry_ok D a q Hok Hcp (Hl q ltac:(by left))) as (a1 & H1 & H2 & H3).
    destruct (IH _ a1 H2 H3) as (a' & D' & H4 & H5 & H6 & H7); [intros x Hx; apply Hl; by right|].
    exists a', D'. simpl. erewrite bind_done by exact H1. split; [done|]. split; [done|]. split; [done|].
    intros x [Hx|[-> |Hx]%elem_of_cons]; apply H7; auto.
Qed.

End Upload.

(** The tree may be copied to the path: nothing of another kind is there. *)
Record may_copy (e : entries) (src : list string) (s : file_system) (dst : list string) : Prop := MayCopy {
  mc_ok : fs_ok s;
  mc_path : reachable_path s dst;
  mc_fits : ∀ q, fits (entry_at s (dst ++ q)) (e (src ++ q)) }.

(** [Files.upload] copies a file or a directory. *)
Lemma upload_ok fuel local src d a : tree_ok (entry_at local) src → is_Some (entry_at local src) →
  fuel_enough fuel (entry_at local) src → is_absolute d = true →
  may_copy (entry_at local) src (fa_files a) (parts_of d) →
  ∃ a' r, upload fuel local src d a = (a', Done r) ∧ fs_ok (fa_files a') ∧
    copied (entry_at local) src (entry_at (fa_files a)) (parts_of d) (entry_at (fa_files a')).
Proof.
  intros Ht [c Hc] Hf Ha [Hok Hr Hfit]. set (e0 := put_entry (parts_of d) (perms c) (entry_at (fa_files a))).
  assert (Hone : copying (entry_at local) src (entry_at (fa_files a)) (parts_of d) (λ q, q = []) e0).
  { unfold e0. split.
    - intros q ->. rewrite !app_nil_r, put_entry_own, Hc. done.
    - intros q. unfold put_entry. case_bool_decide as Hq.
      + assert (q = []) as -> by (apply (app_inv_head (parts_of d)); by rewrite app_nil_r). rewrite app_nil_r, Hc.
        apply perms_fits. intros ->. apply (tr_links _ _ Ht []). by rewrite app_nil_r.
      + rewrite bool_decide_false; [apply Hfit|]. intros (r & Hr' & He)%elem_of_proper_prefixes.
        apply (f_equal length) in He. rewrite !length_app in He. destruct r; simpl in *; [done|lia].
    - intros x Hx. unfold put_entry. rewrite bool_decide_false; [done|]. intros ->. by apply (Hx []); rewrite app_nil_r. }
  assert (Hfit0 := Hfit []). rewrite !app_nil_r, Hc in Hfit0. destruct Hr as [Hn Hp Hl].
  unfold upload. assert (Hc' := Hc). unfold entry_at in Hc'. destruct (node_at local src) as [[i|m|t]|] eqn:En; [| |exfalso|done].
  - injection Hc' as <-. destruct Hf as [Hf1 Hf2].
    destruct (upload_file_ok a d local i fuel) as (a' & H1 & H2 & H3); [split; try done|done| |].
    + intros He. by rewrite He in Hfit0.
    + apply (Hf2 [] _ (inode_mode local i)). by rewrite app_nil_r.
    + eexists a', _. erewrite bind_done by exact H1. split; [done|]. split; [done|].
      apply (copying_all _ _ _ _ (λ q, q = [])).
      * intros q Hq. destruct q as [|x q]; [done|]. exfalso.
        pose proof (tr_parents _ _ Ht [] (x :: q) ltac:(done) Hq) as E. rewrite app_nil_r, Hc in E. done.
      * by eapply copying_ext.
  - injection Hc' as <-. destruct (ask_mkdir a d Ha Hok) as (a1 & H1 & H2 & H3); [done| |].
    { destruct (entry_at (fa_files a) (parts_of d)) as [[| |]|]; auto; done. }
    assert (Hcp : copying (entry_at local) src (entry_at (fa_files a)) (parts_of d) (λ q, q = []) (entry_at (fa_files a1))).
    { by eapply copying_ext. }
    destruct (upload_entries_ok fuel local src d (entry_at (fa_files a)) Ht Hf Ha Hn (tree_paths src local) _ a1 H2 Hcp) as (a' & D' & H4 & H5 & H6 & H7).
    { intros q Hq. by apply descendants_spec in Hq as [_ ?]. }
    exists a', None. erewrite bind_done by exact H1. erewrite bind_done by exact H4. split; [done|]. split; [done|].
    eapply copying_all; [|done]. intros q Hq. apply H7. destruct (decide (q = [])) as [->|Hne]; [by left|right].
    by apply descendants_spec.
  - apply (tr_links _ _ Ht []). rewrite app_nil_r. unfold entry_at. by rewrite En.
Qed.

(** ** Download *)

Lemma plain_prefix s p q : plain s p = true → q ∈ proper_prefixes p → plain s q = true.
Proof.
  unfold plain. intros [H1 H2]%andb_true_iff Hq. assert (Hq' := Hq). apply elem_of_proper_prefixes in Hq' as (r & _ & ->).
  rewrite forallb_app in H1. apply andb_true_iff in H1 as [-> _]. simpl.
  simpl in H2. apply andb_true_iff in H2 as [_ H2]. rewrite forallb_forall in H2. apply andb_true_iff. split.
  - apply H2. by apply list_elem_of_In.
  - apply forallb_forall. intros x Hx%list_elem_of_In. apply H2, list_elem_of_In. by eapply prefix_of_prefix.
Qed.

Lemma follow_parent_plain s p : plain s p = true → follow_parent s p = p.
Proof.
  intros Hp. unfold follow_parent. destruct (decide (p = [])) as [->|Hne]; [done|].
  destruct (exists_last Hne) as (q & c & ->). rewrite last_snoc, removelast_last, follow_plain; [done|].
  eapply plain_prefix; [done|]. apply elem_of_prefixes_snoc. by right.
Qed.

Lemma ask_stat a path c : is_absolute path = true → plain (fa_files a) (parts_of path) = true →
  entry_at (fa_files a) (parts_of path) = Some c → c ≠ CLink →
  ∃ info, ask_as as_stat (file_call_of OpStat path) a = (a, Done info) ∧ st_symlink info = false ∧
    match c with CFile b m => st_directory info = false ∧ Z.land (st_mode info) 511 = Z.land m 511 | _ => st_directory info = true end.
Proof.
  intros Ha Hp Hc Hl. unfold ask_as, file_ask, serve, agent_service, agent_file, file_path, mbind, comp_bind.
  cbn -[is_absolute chunk_size parts_of lstat]. rewrite Ha. change (chunk_size (4 * 1024 ^ 2)) with true.
  cbn -[parts_of lstat]. rewrite (follow_parent_plain _ _ Hp). unfold entry_at in Hc. unfold lstat.
  destruct (node_at (fa_files a) (parts_of path)) as [[i|m|t]|]; [| |congruence|done]; injection Hc as <-; eexists; (split; [done|]); (split; [done|]).
  - split; [done|]. cbn [st_mode]. change 511 with (Z.ones 9). rewrite !Z.land_ones by lia.
    replace (32768 + inode_mode (fa_files a) i) with (inode_mode (fa_files a) i + 64 * 2 ^ 9) by lia. by rewrite Z.mod_add.
  - done.
Qed.

Lemma children_spec c p s : c ∈ children p s ↔ is_Some (entry_at s (p ++ [c])).
Proof.
  assert (Hsome : is_Some (entry_at s (p ++ [c])) ↔ is_Some (fs_nodes s !! (p ++ [c]))).
  { unfold entry_at, node_at. destruct (p ++ [c]) as [|x l] eqn:E; [by destruct p|].
    destruct (fs_nodes s !! (x :: l)) as [[| |]|]; split; eauto; by intros [? [=]]. }
  rewrite Hsome. unfold children. rewrite elem_of_sort_by, list_elem_of_omap. split.
  - intros ([q n] & Hin & Hq). simpl in Hq. case_bool_decide as Hb; [|done]. destruct Hb as [<- Hne].
    destruct (exists_last Hne) as (q' & c' & Hq'). rewrite Hq' in *. rewrite last_snoc in Hq. injection Hq as ->.
    rewrite removelast_last. exists n. by apply elem_of_map_to_list.
  - intros [n Hn]. exists (p ++ [c], n). split; [by apply elem_of_map_to_list|]. simpl.
    rewrite removelast_last, last_snoc, bool_decide_true; [done|]. split; [done|]. by destruct p.
Qed.

Lemma ask_list a path : is_absolute path = true → plain (fa_files a) (parts_of path) = true →
  entry_at (fa_files a) (parts_of path) = Some CDir →
  ask_as as_names (file_call_of OpList path) a
  = (a, Done (map (path_child path) (children (parts_of path) (fa_files a)))).
Proof.
  intros Ha Hp (m & Hm)%node_of_entry_dir. unfold ask_as, file_ask, serve, agent_service, agent_file, file_path, mbind, comp_bind.
  cbn -[is_absolute chunk_size parts_of]. rewrite Ha. change (chunk_size (4 * 1024 ^ 2)) with true.
  cbn -[parts_of]. rewrite (follow_plain _ _ Hp), Hm. done.
Qed.

Lemma parts_of_name c : name_ok c = true → parts_of c = [c].
Proof. intros Hc. change c with (str_join "/" [c]) at 1. apply parts_of_join. simpl. by rewrite Hc. Qed.

Lemma path_child_join path c : name_ok c = true → path_child path c = path_join path [c].
Proof. intros Hc. unfold path_child, path_join. by rewrite (parts_of_name c). Qed.

Lemma entry_name_ok path c : is_absolute path = true → forallb name_ok (parts_of path ++ [c]) = true →
  entry_name path (path_child path c) = Ok c.
Proof.
  intros Ha Hn. assert (Hc : name_ok c = true) by (rewrite forallb_app in Hn; simpl in Hn; by bool_prop).
  assert (Hb : bool_decide (c = "" ∨ c = "." ∨ c = "..") = false).
  { unfold name_ok in Hc. by apply andb_true_iff in Hc as [Hc%negb_true_iff _]. }
  destruct (path_join_ok path [c] Ha Hn) as [_ Hp]. unfold entry_name. rewrite (path_child_join path c), Hp, last_snoc by done.
  cbv zeta. change (default "" (Some c)) with c. by rewrite Hb, path_child_join, bool_decide_true.
Qed.

(** Every level and every file takes its turns. *)
Definition depth_enough (fuel : nat) (t : entries) (src : list string) : Prop :=
  ∀ q c, t (src ++ q) = Some c → (length q < fuel)%nat ∧
    match c with CFile b _ => (length b < (fuel - length q - 1) * chunk_len)%nat | _ => True end.

Section Download.
Variables (umask' : Z) (a : file_agent).
Abbreviation e := (entry_at (fa_files a)).

(** [replace_file] puts the file at the path. *)
Lemma replace_file_ok p b mode l : fs_ok l → reachable_path l p → p ≠ [] → entry_at l p ≠ Some CDir →
  ∃ l', replace_file p b mode l = (l', Ok ()) ∧ fs_ok l' ∧
    ∀ q, entry_at l' q = if bool_decide (q = p) then Some (CFile b mode) else entry_at l q.
Proof.
  intros Hok Hr Hne Hd. unfold replace_file. rewrite follow_parent_plain by by apply reachable_plain.
  destruct (create_file_entry l p b mode Hok Hne) as (H1 & _ & H2). exists (create_file p b mode l). split; [|done].
  unfold entry_at in Hd. by destruct (node_at l p) as [[| |]|].
Qed.

(** A file of the guest, at the path *)
Lemma download_file_ok fuel path dst l b m : readable (fa_files a) path b → (length b < fuel * chunk_len)%nat →
  fs_ok l → reachable_path l dst → dst ≠ [] → entry_at l dst ≠ Some CDir →
  ∃ l', (on_local (mkdir umask' (removelast dst)) ≫= λ _, on_guest (read_from fuel path 0) ≫= λ b,
         on_local (replace_file dst b m)) (l, a) = ((l', a), Done ()) ∧ fs_ok l' ∧
    ∀ q, entry_at l' q = put_entry dst (CFile b m) (entry_at l) q.
Proof.
  intros Hrd Hf Hok Hr Hne Hd. pose proof (removelast_prefix dst Hne) as Hrl.
  destruct (mkdir_ok umask' l (removelast dst) Hok) as (l1 & Hm & Hok1 & He1); [by eapply reachable_prefix|by apply rp_parents with dst|].
  assert (Hown : entry_at l1 dst = entry_at l dst).
  { rewrite He1. unfold put_entry. rewrite !bool_decide_false; [done| |].
    - intros Hq. by eapply not_own_prefix, prefix_of_prefix.
    - intros Hq. rewrite <- Hq in Hrl. by eapply not_own_prefix. }
  destruct (replace_file_ok dst b m l1 Hok1) as (l2 & Hrep & Hok2 & He2); [|done|by rewrite Hown|].
  { eapply reachable_grow; [done|]. intros q. rewrite He1. unfold put_entry. repeat case_bool_decide; auto. }
  exists l2. split; [|split; [done|]].
  - unfold on_local, on_guest, mbind, comp_bind. rewrite Hm. simpl.
    pose proof (read_from_ok a path b fuel 0 Hrd) as Hread. rewrite Nat.mul_0_l, drop_0 in Hread. change (Z.of_nat 0) with 0 in Hread.
    rewrite Hread by lia. by rewrite Hrep.
  - intros q. rewrite He2. unfold put_entry. case_bool_decide as Hq; [done|]. rewrite He1. unfold put_entry.
    assert (Hpre : q ∈ proper_prefixes dst ↔ q ∈ proper_prefixes (removelast dst) ∨ q = removelast dst).
    { destruct (exists_last Hne) as (p0 & c & Hpc). rewrite Hpc, removelast_last. apply elem_of_prefixes_snoc. }
    repeat case_bool_decide; try done; exfalso; naive_solver.
Qed.

(** The path is in the guest, in directories, with a tree below it. *)
Record in_guest (path : string) : Prop := InGuest {
  ig_absolute : is_absolute path = true;
  ig_names : forallb name_ok (parts_of path) = true;
  ig_parents : ∀ x, x ∈ proper_prefixes (parts_of path) → e x = Some CDir;
  ig_there : is_Some (e (parts_of path));
  ig_tree : tree_ok e (parts_of path) }.

Lemma tree_ok_child src c : tree_ok e src → tree_ok e (src ++ [c]).
Proof.
  intros [H1 H2 H3]. split.
  - intros q. rewrite <- app_assoc. apply H1.
  - intros q. rewrite <- app_assoc. intros Hq%H2. simpl in Hq. by apply andb_true_iff in Hq as [_ ?].
  - intros q r Hr. rewrite <- !app_assoc. by apply (H3 (c :: q)).
Qed.

Lemma child_parts path c : in_guest path → is_Some (e (parts_of path ++ [c])) → parts_of (path_child path c) = parts_of path ++ [c] ∧
  forallb name_ok (parts_of path ++ [c]) = true ∧ is_absolute (path_child path c) = true.
Proof.
  intros [H1 H2 H3 H4 H5] Hc. assert (Hn : forallb name_ok (parts_of path ++ [c]) = true).
  { rewrite forallb_app, H2. exact (tr_names _ _ H5 [c] Hc). }
  assert (Hname : name_ok c = true) by (rewrite forallb_app in Hn; simpl in Hn; by bool_prop).
  destruct (path_join_ok path [c] H1 Hn) as [Ha Hp]. rewrite path_child_join by done. done.
Qed.

Lemma in_guest_child path c : in_guest path → e (parts_of path) = Some CDir → is_Some (e (parts_of path ++ [c])) → in_guest (path_child path c).
Proof.
  intros Hg Hd Hc. destruct (child_parts path c Hg Hc) as (Hp & Hn & Ha). split; rewrite ?Hp; try done.
  - intros x [Hx| ->]%elem_of_prefixes_snoc; [by apply Hg|done].
  - apply tree_ok_child, Hg.
Qed.

Lemma in_guest_plain path : in_guest path → plain (fa_files a) (parts_of path) = true.
Proof.
  intros [H1 H2 H3 H4 H5]. apply reachable_plain. split; [done|by right; apply H3|].
  pose proof (tr_links _ _ H5 []) as Hl. by rewrite app_nil_r in Hl.
Qed.

Lemma depth_child fuel src c : depth_enough (S fuel) e src → depth_enough fuel e (src ++ [c]).
Proof.
  intros Hd q x Hq. rewrite <- app_assoc in Hq. destruct (Hd (c :: q) x Hq) as [H1 H2]. simpl in H1. split; [lia|].
  by destruct x.
Qed.

(** The entries of a directory, given that each child is copied *)
Definition child_copied (fuel : nat) : Prop := ∀ path dst l, in_guest path → depth_enough fuel e (parts_of path) →
  may_copy e (parts_of path) l dst →
  ∃ l', download umask' fuel path dst (l, a) = ((l', a), Done ()) ∧ fs_ok l' ∧ copied e (parts_of path) (entry_at l) dst (entry_at l').

Definition handled (cs : list string) (q : list string) : Prop := q = [] ∨ ∃ c r, q = c :: r ∧ c ∈ cs.

Lemma child_step e0 src dst cs c l l' : tree_ok e src → e src = Some CDir → copying e src e0 dst (handled cs) (entry_at l) →
  copied e (src ++ [c]) (entry_at l) (dst ++ [c]) (entry_at l') → copying e src e0 dst (handled (c :: cs)) (entry_at l').
Proof.
  intros Ht Hd [C1 C2 C3] [D1 D2].
  assert (Hroot : entry_at l' dst = Some CDir).
  { rewrite D2, bool_decide_true; [done|apply elem_of_prefixes_snoc; by right|].
    intros q He. apply (f_equal length) in He. rewrite !length_app in He. simpl in He. lia. }
  assert (Hin : ∀ r, entry_at l' (dst ++ c :: r) = perms <$> e (src ++ c :: r))
    by (intros r; specialize (D1 r); by rewrite <- !app_assoc in D1).
  assert (Hout : ∀ c' r, c' ≠ c → entry_at l' (dst ++ c' :: r) = entry_at l (dst ++ c' :: r)).
  { intros c' r Hne. rewrite D2, bool_decide_false; [done| |].
    - intros [Hx|Hx]%elem_of_prefixes_snoc.
      + apply elem_of_proper_prefixes in Hx as (y & Hy & He). apply (f_equal length) in He. rewrite !length_app in He. simpl in He. lia.
      + apply (f_equal length) in Hx. rewrite length_app in Hx. simpl in Hx. lia.
    - intros q He. rewrite <- app_assoc in He. apply app_inv_head in He. simpl in He. congruence. }
  split.
  - intros q [->|(c' & r & -> & Hc)]; [by rewrite !app_nil_r, Hroot, Hd|].
    destruct (decide (c' = c)) as [->|Hne]; [apply Hin|]. rewrite Hout by done. apply C1. right.
    apply elem_of_cons in Hc as [?|?]; [done|]. eauto.
  - intros [|c' r]; [by rewrite !app_nil_r, Hroot, Hd|]. destruct (decide (c' = c)) as [->|Hne].
    + rewrite Hin. destruct (e (src ++ c :: r)) as [x|] eqn:Ex; [|done]. apply perms_fits. intros ->. by apply (tr_links _ _ Ht (c :: r)).
    + rewrite Hout by done. apply C2.
  - intros x Hx. rewrite D2 by (intros q ->; apply (Hx (c :: q)); by rewrite <- app_assoc). rewrite C3 by done.
    case_bool_decide as Hb; [|done]. apply elem_of_prefixes_snoc in Hb as [Hb| ->]; [by rewrite bool_decide_true|].
    exfalso. apply (Hx []). by rewrite app_nil_r.
Qed.

Lemma download_children fuel path dst e0 cs : child_copied fuel → in_guest path → e (parts_of path) = Some CDir →
  depth_enough (S fuel) e (parts_of path) → forallb name_ok dst = true → ∀ done' l,
  (∀ c, c ∈ cs → is_Some (e (parts_of path ++ [c]))) → fs_ok l → copying e (parts_of path) e0 dst (handled done') (entry_at l) →
  ∃ l' D, each_of (λ entry, name ← of_res (entry_name path entry); download umask' fuel entry (dst ++ [name])) (map (path_child path) cs) (l, a)
    = ((l', a), Done ()) ∧ fs_ok l' ∧ copying e (parts_of path) e0 dst (handled D) (entry_at l') ∧ (∀ c, c ∈ done' ∨ c ∈ cs → c ∈ D).
Proof.
  intros Hcc Hg Hd Hdep Hdst. induction cs as [|c cs IH]; intros done' l Hcs Hok Hcp.
  - exists l, done'. split; [done|]. split; [done|]. split; [done|]. by intros c [?|?%elem_of_nil].
  - assert (Hc : is_Some (e (parts_of path ++ [c]))) by (apply Hcs; by left). destruct (child_parts path c Hg Hc) as (Hp & Hn & Ha).
    destruct Hc as [x Hx].
    destruct (Hcc (path_child path c) (dst ++ [c]) l) as (l1 & H1 & H2 & H3).
    + by apply in_guest_child; [..|rewrite Hx].
    + rewrite Hp. by apply depth_child.
    + rewrite Hp. split; [done| |].
      * eapply copying_reachable; [apply Hg|done|done|exact Hx].
      * intros q. rewrite <- !app_assoc. apply (cy_fits _ _ _ _ _ _ Hcp (c :: q)).
    + rewrite Hp in H3. destruct (IH (c :: done') l1) as (l' & D & H4 & H5 & H6 & H7).
      * intros c' Hc'. apply Hcs. by right.
      * done.
      * eapply child_step; [apply Hg|done|done|done].
      * exists l', D. split; [|split; [done|split; [done|]]].
        -- simpl. erewrite bind_done; [exact H4|]. erewrite bind_done; [exact H1|]. by rewrite entry_name_ok by (done || apply Hg).
        -- intros c' [?|[-> |?]%elem_of_cons]; apply H7; [left; by right|left; by left|by right].
Qed.

(** [Files.download] copies what is at the path. *)
Lemma download_ok fuel : child_copied fuel.
Proof.
  induction fuel as [|fuel IH]; intros path dst l Hg Hdep [Hok Hr Hfit].
  { destruct (ig_there _ Hg) as [c Hc]. destruct (Hdep [] c) as [H _]; [by rewrite app_nil_r|]. simpl in H. lia. }
  destruct (ig_there _ Hg) as [c Hc]. assert (Hfit0 := Hfit []). rewrite !app_nil_r, Hc in Hfit0.
  pose proof (in_guest_plain path Hg) as Hplain.
  assert (Hlink : c ≠ CLink) by (intros ->; apply (tr_links _ _ (ig_tree _ Hg) []); by rewrite app_nil_r).
  destruct (ask_stat a path c (ig_absolute _ Hg) Hplain Hc Hlink) as (info & Hi & Hsym & Hkind).
  cbn [download]. erewrite bind_done by (unfold on_guest; by rewrite Hi).
  assert (Hchk : check_download info dst (l, a) = ((l, a), Done ())).
  { unfold check_download. rewrite Hsym. simpl. rewrite follow_parent_plain, is_sym_entry by by apply reachable_plain.
    rewrite bool_decide_false; [done|by apply Hr]. }
  erewrite bind_done by exact Hchk. destruct c as [|b m|]; [| |done].
  - rewrite Hkind. destruct (mkdir_ok umask' l dst Hok Hr) as (l1 & Hm & Hok1 & He1).
    { destruct (entry_at l dst) as [[| |]|]; auto; done. }
    erewrite bind_done by (unfold on_local; by rewrite Hm).
    erewrite bind_done by (unfold on_guest; by rewrite (ask_list a path (ig_absolute _ Hg) Hplain Hc)).
    assert (Hcp : copying e (parts_of path) (entry_at l) dst (handled []) (entry_at l1)).
    { split.
      - intros q [->|(c & r & _ & Hn)]; [|by apply elem_of_nil in Hn]. by rewrite !app_nil_r, He1, put_entry_own, Hc.
      - intros q. rewrite He1. unfold put_entry. case_bool_decide as Hq.
        + assert (q = []) as -> by (apply (app_inv_head dst); by rewrite app_nil_r). by rewrite app_nil_r, Hc.
        + rewrite bool_decide_false; [apply Hfit|]. intros (r & Hr' & He)%elem_of_proper_prefixes.
          apply (f_equal length) in He. rewrite !length_app in He. destruct r; simpl in *; [done|lia].
      - intros x Hx. rewrite He1. unfold put_entry. rewrite bool_decide_false; [done|]. intros ->. by apply (Hx []); rewrite app_nil_r. }
    destruct (download_children fuel path dst (entry_at l) (children (parts_of path) (fa_files a)) IH Hg Hc Hdep (rp_names _ _ Hr) [] l1)
      as (l' & D & H4 & H5 & H6 & H7); [by intros c ?%children_spec|done|done|].
    exists l'. split; [done|]. split; [done|]. eapply copying_all; [|done].
    intros [|c r] Hq; [by left|right]. exists c, r. split; [done|]. apply H7. right. apply children_spec.
    destruct r as [|c' r]; [done|]. exists CDir. apply (tr_parents _ _ (ig_tree _ Hg) [c] (c' :: r)); done.
  - destruct Hkind as [Hdir Hmode]. rewrite Hdir. destruct (Hdep [] (CFile b m)) as [_ Hlen]; [by rewrite app_nil_r|].
    assert (Hne : dst ≠ []) by (intros ->; done).
    destruct (download_file_ok fuel path dst l b (Z.land (st_mode info) 511)) as (l' & H1 & H2 & H3); try done.
    { split; [apply Hg|done|by eexists]. }
    { simpl in Hlen. replace (fuel - 0 - 0)%nat with fuel in Hlen by lia. lia. }
    { intros He. by rewrite He in Hfit0. }
    exists l'. split; [exact H1|]. split; [done|]. rewrite Hmode in H3. split.
    + intros q. rewrite H3. unfold put_entry. case_bool_decide as Hq.
      * assert (q = []) as -> by (apply (app_inv_head dst); by rewrite app_nil_r). by rewrite app_nil_r, Hc.
      * assert (Hnil : q ≠ []) by (intros ->; by rewrite app_nil_r in Hq).
        assert (Hnone : e (parts_of path ++ q) = None).
        { destruct (e (parts_of path ++ q)) as [x|] eqn:Ex; [|done]. exfalso.
          pose proof (tr_parents _ _ (ig_tree _ Hg) [] q Hnil) as E. rewrite !app_nil_l, app_nil_r, Ex, Hc in E. by discriminate E. }
        rewrite bool_decide_false.
        -- specialize (Hfit q). rewrite Hnone in *. by destruct (entry_at l (dst ++ q)) as [[| |]|].
        -- intros (r & Hr' & He)%elem_of_proper_prefixes. apply (f_equal length) in He. rewrite !length_app in He.
           destruct r; simpl in *; [done|lia].
    + intros x Hx. rewrite H3. unfold put_entry. rewrite bool_decide_false; [done|]. intros ->. by apply (Hx []); rewrite app_nil_r.
Qed.

End Download.

(** What is written to a file of a guest is read back: for every absolute path at which a
    file may be, [write_bytes] stores the data in chunks, [read_bytes] then returns exactly
    the data, and the files and directories that were at other paths are as they were. *)
Theorem bytes_roundtrip a path data mode fuel : writable (fa_files a) path → (length data < fuel * chunk_len)%nat →
  ∃ a', write_bytes path data mode a = (a', Done (Z.of_nat (length data))) ∧
    read_bytes fuel path a' = (a', Done data) ∧
    ∀ q c, q ≠ parts_of path → entry_at (fa_files a) q = Some c → entry_at (fa_files a') q = Some c.
Proof.
  intros Hw Hf. destruct (write_bytes_ok a path data mode Hw) as (a' & H1 & H2 & H3 & H4). exists a'. split; [done|].
  destruct Hw as [Ha Hok Hr Hd]. split.
  - apply read_bytes_ok; [|done]. split; [done| |].
    + apply reachable_plain. by eapply reachable_put.
    + eexists. by rewrite H4, put_entry_own.
  - intros q c Hq Hc. rewrite H4. unfold put_entry. rewrite bool_decide_false by done. case_bool_decide as Hpre; [|done].
    destruct Hr as [_ Hp _]. destruct (Hp q Hpre) as [E|E]; congruence.
Qed.


(** ** Lost connections *)

(** What becomes of a request: answered, carried out without an answer, or not delivered *)
Inductive fate := Answered | Unanswered | Undelivered.

(** A connection that may fail at every request *)
Record lossy_link := Link { lk_fates : list fate; lk_agent : file_agent }.

Definition unknown : res file_reply := raise OperationUnknown "transport failed; delivery outcome unknown".

#[local] Instance lossy_service : FileService lossy_link := λ c k,
  let '(a, r) := serve c (lk_agent k) in
  match lk_fates k with
  | [] => (Link [] a, r)
  | Answered :: l => (Link l a, r)
  | Unanswered :: l => (Link l a, unknown)
  | Undelivered :: l => (Link l (lk_agent k), unknown)
  end.

Lemma lossy_ask c g a r : file_ask c (lk_agent g) = (a, Done r) →
  file_ask c g = match lk_fates g with
            | [] => (Link [] a, Done r)
            | Answered :: l => (Link l a, Done r)
            | Unanswered :: l => (Link l a, Raised (Exn OperationUnknown "transport failed; delivery outcome unknown"))
            | Undelivered :: l => (Link l (lk_agent g), Raised (Exn OperationUnknown "transport failed; delivery outcome unknown"))
            end.
Proof.
  unfold file_ask, of_res, serve at 2, lossy_service. destruct (serve c (lk_agent g)) as [a2 [x|x]]; intros [= -> ->].
  by destruct (lk_fates g) as [|[| |] l].
Qed.

Lemma lossy_chunks a0 path data mode m k g : writable (fa_files a0) path → written a0 (lk_agent g) path data mode k →
  ((k + m - 1) * chunk_len <= length data)%nat →
  ∃ g' r k', each_of (write_chunk path data mode) (map (λ k, Z.of_nat k * CHUNK) (seq k m)) g = (g', r) ∧
    written a0 (lk_agent g') path data mode k' ∧ (k' <= k + m)%nat ∧ ∀ x, r = Done x → k' = (k + m)%nat.
Proof.
  intros Hw. revert k g. induction m as [|m IH]; intros k g Hwr Hm.
  - exists g, (Done ()), k. split; [done|]. split; [done|]. split; [lia|]. intros _ _. lia.
  - destruct (chunk_written a0 (lk_agent g) path data mode k Hw Hwr) as (a1 & Hc & Hwr1); [nia|].
    apply lossy_ask in Hc. simpl seq. simpl map. cbn [each_of].
    assert (Hgo : ∀ l, ∃ g' r k', each_of (write_chunk path data mode) (map (λ k, Z.of_nat k * CHUNK) (seq (S k) m)) (Link l a1) = (g', r) ∧
      written a0 (lk_agent g') path data mode k' ∧ (k' <= k + S m)%nat ∧ ∀ x, r = Done x → k' = (k + S m)%nat).
    { intros l. destruct (IH (S k) (Link l a1) Hwr1) as (g' & r & k' & H1 & H2 & H3 & H4); [nia|].
      exists g', r, k'. split; [done|]. split; [done|]. split; [lia|]. intros y Hy. rewrite (H4 y Hy). lia. }
    destruct (lk_fates g) as [|[| |] l].
    1, 2: erewrite bind_done by (unfold write_chunk; erewrite bind_done by exact Hc; done); apply Hgo.
    + erewrite bind_raised by (unfold write_chunk; by eapply bind_raised). by eexists _, _, (S k); repeat split; [apply Hwr1..|lia|].
    + erewrite bind_raised by (unfold write_chunk; by eapply bind_raised). by eexists _, _, k; repeat split; [apply Hwr..|lia|].
Qed.

(** C29: an interrupted write leaves a beginning of the data: whatever requests of
    [write_bytes] are lost on the way or answered in vain, the file is the one before, or the
    first chunks of the data with nothing of the old file after them; it is the whole data if
    the call returns, and no other file changes. *)
Theorem write_interrupted g path data mode : let e := entry_at (fa_files (lk_agent g)) in writable (fa_files (lk_agent g)) path →
  ∃ g' r, write_bytes path data mode g = (g', r) ∧
    let file n := put_entry (parts_of path) (CFile (take n data) (default (old_mode umask (e (parts_of path))) mode)) e in
    ((∀ q, entry_at (fa_files (lk_agent g')) q = e q) ∨ ∃ n, ∀ q, entry_at (fa_files (lk_agent g')) q = file n q) ∧
    ∀ n, r = Done n → n = Z.of_nat (length data) ∧ ∀ q, entry_at (fa_files (lk_agent g')) q = file (length data) q.
Proof.
  intros e Hw. destruct (chunks_bound (length data)) as (H1 & H2 & H3).
  destruct (lossy_chunks (lk_agent g) path data mode (chunk_count (Z.max 1 (Z.of_nat (length data)))) 0 g Hw) as (g' & r & k & Hr & Hwr & Hk & Hdone).
  - apply written_zero. by destruct Hw.
  - done.
  - unfold write_bytes, range_by. fold (chunk_count (Z.max 1 (Z.of_nat (length data)))). unfold mbind, comp_bind. rewrite Hr.
    assert (Hleft : (∀ q, entry_at (fa_files (lk_agent g')) q = e q) ∨ ∃ n, ∀ q, entry_at (fa_files (lk_agent g')) q =
      put_entry (parts_of path) (CFile (take n data) (default (old_mode umask (e (parts_of path))) mode)) e q).
    { destruct Hwr as [_ _ He]. destruct k; [left; by intros q; rewrite He|right]. eexists. intros q. by rewrite He. }
    destruct r as [[]|x|]; (eexists g', _; split; [done|]; split; [exact Hleft|]); [|done..].
    intros n [= <-]. split; [done|]. intros q. specialize (Hdone () eq_refl). simpl in Hdone. subst k.
    rewrite (written_all _ _ _ _ _ _ H1 H3 Hwr). by rewrite take_ge.
Qed.

End AgentClients.

(** * Downloads from a hostile guest *)

(** Nothing but below the destination changed, other than missing parents; no file that was
    there was written to, and no link was made. *)
Record within (dst : list string) (l l' : file_system) : Prop := Within {
  wi_nodes : ∀ x, (∀ q, x ≠ dst ++ q) → node_at l' x = node_at l x ∨
    (x ∈ proper_prefixes dst ∧ node_at l x = None ∧ is_dir (node_at l' x) = true);
  wi_inodes : ∀ i, i ∈ dom (fs_inodes l) → fs_inodes l' !! i = fs_inodes l !! i;
  wi_links : ∀ x, is_sym (node_at l' x) = true → is_sym (node_at l x) = true }.

Lemma within_refl dst l : within dst l l.
Proof. split; auto. Qed.

Lemma within_trans dst l1 l2 l3 : within dst l1 l2 → within dst l2 l3 → within dst l1 l3.
Proof.
  intros [A1 A2 A3] [B1 B2 B3]. split.
  - intros x Hx. destruct (A1 x Hx) as [E|(Hp & Hn & Hd)], (B1 x Hx) as [F|(Hp' & Hn' & Hd')].
    + left. congruence.
    + right. rewrite <- E. auto.
    + right. rewrite F. auto.
    + by rewrite Hn' in Hd.
  - intros i Hi. rewrite B2; [by apply A2|]. apply elem_of_dom. rewrite (A2 i Hi). by apply elem_of_dom.
  - auto.
Qed.

Lemma within_child dst c l l' : within (dst ++ [c]) l l' → within dst l l'.
Proof.
  intros [A1 A2 A3]. split; [|done|done]. intros x Hx.
  destruct (A1 x) as [?|(Hp & Hn & Hd)]; [|by left|].
  - intros q ->. apply (Hx (c :: q)). by rewrite <- app_assoc.
  - apply elem_of_prefixes_snoc in Hp as [Hp| ->]; [by right|]. exfalso. apply (Hx []). by rewrite app_nil_r.
Qed.

(** No link leads to the path. *)
Record no_links (l : file_system) (dst : list string) : Prop := NoLinks {
  nl_names : forallb name_ok dst = true;
  nl_parents : ∀ q, q ∈ proper_prefixes dst → is_sym (node_at l q) = false }.

Lemma no_links_within dst dst' l l' : within dst' l l' → no_links l dst → no_links l' dst.
Proof.
  intros Hw [H1 H2]. split; [done|]. intros q Hq. apply not_true_is_false. intros Hs%(wi_links _ _ _ Hw). by rewrite H2 in Hs.
Qed.

Lemma no_links_plain l dst : no_links l dst → is_sym (node_at l dst) = false → plain l dst = true.
Proof.
  intros [H1 H2] H3. unfold plain. rewrite name_not_up by done. simpl. rewrite H3. simpl.
  apply forallb_forall. intros q Hq%list_elem_of_In. by rewrite H2.
Qed.

Lemma no_links_prefix l dst q : no_links l dst → q ∈ proper_prefixes dst → plain l q = true.
Proof.
  intros [H1 H2] Hq. apply no_links_plain; [|by apply H2]. split.
  - apply elem_of_proper_prefixes in Hq as (r & _ & ->). rewrite forallb_app in H1. by apply andb_true_iff in H1 as [? _].
  - intros x Hx. apply H2. by eapply prefix_of_prefix.
Qed.

(** The names that [entry_name] accepts *)
Lemma entry_name_accepts source entry name : entry_name source entry = Ok name → name_ok name = true.
Proof.
  unfold entry_name. intros (x & Hx & [= <-])%bind_ok. apply raise_if_ok, orb_false_iff in Hx as [Hx _].
  unfold name_ok. rewrite Hx. simpl. destruct (last (parts_of entry)) as [c|] eqn:El; [|done].
  apply last_Some_elem_of in El. simpl. by eapply parts_of_slashless.
Qed.

Section Hostile.
Context `{R : Resolver} `{!ResolverLaws R}.
Context {G : Type} `{!FileService G}.
Variable umask : Z.

Lemma make_dirs_within l s : (∀ q, q ∈ l → plain s q = true) →
  let s' := (make_dirs umask l s).1 in
  fs_inodes s' = fs_inodes s ∧
  ∀ x, node_at s' x = node_at s x ∨ (x ∈ l ∧ node_at s x = None ∧ is_dir (node_at s' x) = true).
Proof.
  revert s. induction l as [|p l IH]; intros s Hl; simpl; [by auto|].
  assert (Hp : plain s p = true) by (apply Hl; by left). rewrite (follow_plain _ _ Hp).
  destruct (node_at s p) as [[i|m|t]|] eqn:Ep; [by auto|..|].
  - destruct (IH s) as [H1 H2]; [intros q Hq; apply Hl; by right|]. split; [done|]. intros x.
    destruct (H2 x) as [?|(Hx & ?)]; [by left|right]. split; [by right|done].
  - by auto.
  - simpl. assert (Hne : p ≠ []) by by intros ->.
    set (s1 := put_fnode p (FDir (masked umask 511)) s).
    assert (Hnode : ∀ x, node_at s1 x = if bool_decide (x = p) then Some (FDir (masked umask 511)) else node_at s x)
      by (intros x; by apply node_put_fnode).
    assert (Hplain : ∀ q, plain s q = true → plain s1 q = true).
    { unfold plain. intros q [-> Hq]%andb_true_iff. rewrite forallb_forall in Hq. apply forallb_forall. intros x Hx.
      rewrite Hnode. case_bool_decide; [done|]. by apply Hq. }
    destruct (IH s1) as [H1 H2]; [intros q Hq; apply Hplain, Hl; by right|]. split; [done|]. intros x.
    destruct (H2 x) as [E|(Hx & Hn & Hd)]; rewrite Hnode in *; case_bool_decide as Hxp.
    + right. rewrite Hxp. split; [by left|]. split; [done|]. by rewrite <- Hxp, E.
    + by left.
    + done.
    + right. split; [by right|done].
Qed.

Lemma mkdir_within dst q l : no_links l dst → (q ∈ proper_prefixes dst ∨ q = dst ∧ is_sym (node_at l dst) = false) →
  within dst l (mkdir umask q l).1.
Proof.
  intros Hn Hq. unfold mkdir.
  assert (Hin : ∀ x, x ∈ tail (proper_prefixes q) ++ [q] → x ∈ proper_prefixes q ∨ x = q).
  { intros x [Hx|Hx%list_elem_of_singleton]%elem_of_app; [left|by right]. destruct (proper_prefixes q); [done|]. by right. }
  assert (Hpre : ∀ x, x ∈ tail (proper_prefixes q) ++ [q] → x ∈ proper_prefixes dst ∨ x = dst ∧ is_sym (node_at l dst) = false).
  { intros x [Hx| ->]%Hin; [left|done]. destruct Hq as [Hq|[-> _]]; [by eapply prefix_of_prefix|done]. }
  destruct (make_dirs_within (tail (proper_prefixes q) ++ [q]) l) as [H1 H2].
  { intros x [Hx|[-> Hx]]%Hpre; [by eapply no_links_prefix|by apply no_links_plain]. }
  split.
  - intros x Hx. destruct (H2 x) as [?|(Hm & ?)]; [by left|right]. split; [|done].
    destruct (Hpre x Hm) as [?|[-> _]]; [done|]. exfalso. apply (Hx []). by rewrite app_nil_r.
  - intros i _. by rewrite H1.
  - intros x. destruct (H2 x) as [->|(_ & _ & Hd)]; [done|]. by destruct (node_at _ x) as [[| |]|].
Qed.

Lemma replace_within dst b m l : no_links l dst → is_sym (node_at l dst) = false → within dst l (replace_file dst b m l).1.
Proof.
  intros Hn Hs. destruct (decide (dst = [])) as [->|Hne]; [apply within_refl|]. unfold replace_file. rewrite follow_parent_plain by by apply no_links_plain.
  assert (Hc : within dst l (create_file dst b m l)).
  { unfold create_file. set (i := fresh _). pose proof (is_fresh (dom (fs_inodes l))) as Hi. fold i in Hi.
    assert (Hnode : ∀ x, node_at (put_fnode dst (FReg i) (put_inode i b m l)) x = if bool_decide (x = dst) then Some (FReg i) else node_at l x)
      by (intros x; rewrite node_put_fnode by done; by destruct x).
    split.
    - intros x Hx. left. rewrite Hnode, bool_decide_false; [done|]. intros ->. by apply (Hx []); rewrite app_nil_r.
    - intros j Hj. simpl. rewrite lookup_insert_ne; [done|]. by intros ->.
    - intros x. rewrite Hnode. by case_bool_decide. }
  destruct (node_at l dst) as [[| |]|]; [done|apply within_refl|done..].
Qed.

(** The code keeps to the destination. *)
Definition stays {A} (dst : list string) (m : comp (file_system * G) A) : Prop :=
  ∀ l g, no_links l dst → is_sym (node_at l dst) = false → within dst l (m (l, g)).1.1.

Lemma stays_bind {A B} dst (m : comp (file_system * G) A) (f : A → comp (file_system * G) B) :
  stays dst m → (∀ a, stays dst (f a)) → stays dst (m ≫= f).
Proof.
  intros Hm Hf l g Hn Hs. specialize (Hm l g Hn Hs). unfold mbind, comp_bind.
  destruct (m (l, g)) as [[l1 g1] [a|x|]]; [|done..]. simpl in *. eapply within_trans; [done|]. apply Hf; [by eapply no_links_within|].
  apply not_true_is_false. intros Hx%(wi_links _ _ _ Hm). by rewrite Hs in Hx.
Qed.

Lemma stays_guest {A} dst (m : comp G A) : stays dst (on_guest m).
Proof. intros l g _ _. unfold on_guest. destruct (m g). apply within_refl. Qed.

Lemma stays_res {A} dst (r : res A) : stays dst (of_res r).
Proof. intros l g _ _. apply within_refl. Qed.

Lemma stays_each {A} dst (f : A → comp (file_system * G) ()) l : (∀ a, stays dst (f a)) → stays dst (each_of f l).
Proof.
  intros Hf. induction l as [|a l IH]; simpl; [by intros l g _ _; apply within_refl|]. by apply stays_bind.
Qed.

Lemma stays_local dst (f : file_system → file_system * res ()) :
  (∀ l, no_links l dst → is_sym (node_at l dst) = false → within dst l (f l).1) → stays dst (on_local f).
Proof. intros Hf l g Hn Hs. specialize (Hf l Hn Hs). unfold on_local. by destruct (f l). Qed.

Lemma download_within fuel source dst l (g : G) : no_links l dst → within dst l (download umask fuel source dst (l, g)).1.1.
Proof.
  revert source dst l g. induction fuel as [|fuel IH]; intros source dst l g Hn; [apply within_refl|].
  cbn [download]. unfold mbind at 1, comp_bind at 1. unfold on_guest at 1.
  destruct (ask_as as_stat (file_call_of OpStat source) g) as [g1 [info|x|]]; [|apply within_refl..].
  unfold mbind at 1, comp_bind at 1. unfold check_download, of_res.
  destruct (raise_if _ _ _) eqn:Ec; [|apply within_refl]. apply raise_if_ok, orb_false_iff in Ec as [_ Hs]. simpl in Hs.
  assert (Hs' : is_sym (node_at l dst) = false).
  { unfold follow_parent in Hs. destruct (decide (dst = [])) as [->|Hne]; [done|].
    destruct (exists_last Hne) as (q & c & Hq). rewrite Hq in *. rewrite last_snoc, removelast_last in Hs.
    rewrite follow_plain in Hs; [done|]. eapply no_links_prefix; [done|]. apply elem_of_prefixes_snoc. by right. }
  match goal with |- within dst l (?m (l, g1)).1.1 => enough (Hk : stays dst m) by (by apply Hk) end.
  destruct (st_directory info).
  - apply stays_bind; [apply stays_local; intros; apply mkdir_within; auto|]. intros _.
    apply stays_bind; [apply stays_guest|]. intros names. apply stays_each. intros entry l1 g2 Hn1 Hs1.
    unfold mbind, comp_bind, of_res. destruct (entry_name source entry) as [name|x] eqn:En; [|apply within_refl].
    apply entry_name_accepts in En. apply (within_child dst name), IH. destruct Hn1 as [N1 N2]. split.
    + rewrite forallb_app, N1. simpl. by rewrite En.
    + intros q [Hq| ->]%elem_of_prefixes_snoc; auto.
  - assert (Hrl : removelast dst ∈ proper_prefixes dst ∨ removelast dst = dst)
      by (destruct (decide (dst = [])) as [->|]; [by right|left; by apply removelast_prefix]).
    apply stays_bind; [apply stays_local; intros; apply mkdir_within; [done|destruct Hrl; auto]|]. intros _.
    apply stays_bind; [apply stays_guest|]. intros b. apply stays_local. intros. by apply replace_within.
Qed.

(** C30: a hostile guest cannot write outside the destination of a download: whatever the
    answers to [stat], [list] and [read] are, [download] changes nothing outside the
    destination but to make its missing parents, writes to no file that was there, and makes
    no link, when no link leads to the destination. *)
Theorem download_confined fuel source dst l (g : G) : forallb name_ok dst = true →
  (∀ q, q ∈ proper_prefixes dst → is_sym (node_at l q) = false) →
  let l' := (download umask fuel source dst (l, g)).1.1 in
  (∀ x, (∀ q, x ≠ dst ++ q) → node_at l' x = node_at l x ∨
     (x ∈ proper_prefixes dst ∧ node_at l x = None ∧ is_dir (node_at l' x) = true)) ∧
  (∀ i, i ∈ dom (fs_inodes l) → fs_inodes l' !! i = fs_inodes l !! i) ∧
  (∀ x, is_sym (node_at l' x) = true → is_sym (node_at l x) = true).
Proof. intros H1 H2 l'. destruct (download_within fuel source dst l g) as [A B C]; [by split|]. done. Qed.

End Hostile.

(** * Examples *)

#[local] Opaque chunk_len.

(** Paths without links need no resolution. *)
#[local] Instance lexical : Resolver := λ s p, p.
#[local] Instance lexical_laws : ResolverLaws lexical.
Proof. by intros s p _. Qed.

Definition no_files : file_system := FileSystem ∅ ∅.

Lemma no_files_ok : fs_ok no_files.
Proof. split; intros []; naive_solver. Qed.

Lemma no_files_reachable p : forallb name_ok p = true → reachable_path no_files p.
Proof. intros Hp. split; [done|intros [|]; auto|by destruct p]. Qed.

Definition ex_guest : file_agent := FileAgent no_files ∅.

Lemma ex_writable : writable (fa_files ex_guest) "/home/user/notes.txt".
Proof. split; [done|apply no_files_ok|by apply no_files_reachable|done]. Qed.

Lemma bytes_roundtrip_witness : ∃ a',
  @write_bytes _ (agent_service 18) "/home/user/notes.txt" (bytes_of_string "hello") (Some 384) ex_guest = (a', Done 5) ∧
  @read_bytes _ (agent_service 18) 1 "/home/user/notes.txt" a' = (a', Done (bytes_of_string "hello")).
Proof.
  destruct (bytes_roundtrip 18 ex_guest "/home/user/notes.txt" (bytes_of_string "hello") (Some 384) 1 ex_writable) as (a' & H1 & H2 & _).
  - pose proof chunk_len_eq as Hc. unfold CHUNK in Hc. change (length (bytes_of_string "hello")) with 5%nat. lia.
  - by exists a'.
Defined.

(** The connection is lost in the first request. *)
Lemma write_interrupted_witness : ∃ g' r,
  @write_bytes _ (lossy_service 18) "/home/user/notes.txt" (bytes_of_string "hello") None (Link [Unanswered] ex_guest) = (g', r) ∧
  ((∀ q, entry_at (fa_files (lk_agent g')) q = entry_at no_files q) ∨
   ∃ n, ∀ q, entry_at (fa_files (lk_agent g')) q =
     put_entry ["home"; "user"; "notes.txt"] (CFile (take n (bytes_of_string "hello")) 420) (entry_at no_files) q).
Proof.
  destruct (write_interrupted 18 (Link [Unanswered] ex_guest) "/home/user/notes.txt" (bytes_of_string "hello") None ex_writable)
    as (g' & r & H1 & H2 & _).
  exists g', r. split; [exact H1|exact H2].
Defined.

(** Whether there is a tree, of at most [depth] levels with files of at most [size] bytes *)
Definition tree_check (s : file_system) (src : list string) (depth size : nat) : bool :=
  forallb (λ x : list string * fnode,
    let q := drop (length src) x.1 in
    negb (bool_decide (x.1 = src ++ q)) ||
    (forallb name_ok q && (length q <=? depth)%nat
     && forallb (λ y, bool_decide (entry_at s (src ++ y) = Some CDir)) (proper_prefixes q)
     && match entry_at s x.1 with Some CLink => false | Some (CFile b _) => (length b <=? size)%nat | _ => true end))
    (map_to_list (fs_nodes s)).

Lemma tree_check_entry s src depth size q c : src ≠ [] → tree_check s src depth size = true → entry_at s (src ++ q) = Some c →
  forallb name_ok q = true ∧ (length q <= depth)%nat ∧ (∀ y, y ∈ proper_prefixes q → entry_at s (src ++ y) = Some CDir) ∧
  c ≠ CLink ∧ ∀ b m, c = CFile b m → (length b <= size)%nat.
Proof.
  unfold tree_check. rewrite forallb_forall. intros Hsrc Hall Hc.
  assert (Hn : ∃ n, fs_nodes s !! (src ++ q) = Some n).
  { unfold entry_at, node_at in Hc. destruct (src ++ q) as [|x p] eqn:E; [by destruct src|].
    destruct (fs_nodes s !! (x :: p)) as [n|]; [by exists n|done]. }
  destruct Hn as [n Hn]. apply elem_of_map_to_list, list_elem_of_In, Hall in Hn. simpl in Hn.
  rewrite drop_app_length, bool_decide_true in Hn by done. simpl in Hn. rewrite Hc in Hn. bool_prop.
  split; [done|]. split; [done|]. split; [|split].
  - intros y Hy. match goal with H : forallb (λ y, bool_decide _) _ = true |- _ => rewrite forallb_forall in H; eapply bool_decide_eq_true, H end.
    by apply list_elem_of_In.
  - by intros ->.
  - intros b m ->. by apply Nat.leb_le.
Qed.

Lemma tree_check_ok s src depth size : src ≠ [] → tree_check s src depth size = true → tree_ok (entry_at s) src.
Proof.
  intros Hsrc Ht. split.
  - intros q Hq. by destruct (tree_check_entry s src depth size q _ Hsrc Ht Hq) as (_ & _ & _ & ? & _).
  - intros q [c Hc]. by destruct (tree_check_entry s src depth size q c Hsrc Ht Hc).
  - intros q r Hr [c Hc]. destruct (tree_check_entry s src depth size (q ++ r) c Hsrc Ht Hc) as (_ & _ & Hp & _).
    apply Hp, elem_of_proper_prefixes. eauto.
Qed.

Definition ex_local : file_system := FileSystem
  (list_to_map [(["src"], FDir 493); (["src"; "a.txt"], FReg 0); (["src"; "sub"], FDir 493); (["src"; "sub"; "b"], FReg 1)])
  (list_to_map [(0%N, (bytes_of_string "hello", 420)); (1%N, ([], 493))]).

Lemma ex_tree_check : tree_check ex_local ["src"] 3 5 = true.
Proof. vm_compute. reflexivity. Qed.

Lemma ex_fuel : fuel_enough 2 (entry_at ex_local) ["src"].
Proof.
  split; [lia|]. intros q b m Hq. destruct (tree_check_entry ex_local ["src"] 3 5 q _ ltac:(done) ex_tree_check Hq) as (_ & _ & _ & _ & Hb).
  specialize (Hb b m eq_refl). pose proof chunk_len_eq as Hc. unfold CHUNK in Hc. simpl. lia.
Qed.

Lemma ex_depth : depth_enough 5 (entry_at ex_local) ["src"].
Proof.
  intros q c Hc. destruct (tree_check_entry ex_local ["src"] 3 5 q _ ltac:(done) ex_tree_check Hc) as (_ & Hq & _ & _ & Hb). split; [lia|].
  destruct c as [|b m|]; try done. specialize (Hb b m eq_refl). pose proof chunk_len_eq as Hl. unfold CHUNK in Hl. nia.
Qed.

Lemma ex_may_copy p : forallb name_ok p = true → p ≠ [] → may_copy (entry_at ex_local) ["src"] no_files p.
Proof. intros Hp Hne. split; [apply no_files_ok|by apply no_files_reachable|]. intros q. by destruct p. Qed.


(** A guest that lists a path outside of the directory *)
#[local] Instance hostile_guest : FileService () := λ c g,
  (g, match fc_op c with
      | OpStat => Ok (RStat (FileStat 0 16877 true false))
      | OpList => Ok (RNames ["/x/sub"; "/x/../../etc"])
      | _ => Ok (RBytes [])
      end).

Lemma download_confined_witness :
  let l' := (download 18 3 "/x" ["home"; "copy"] (ex_local, ())).1.1 in
  node_at l' ["home"; "copy"; "sub"] = Some (FDir 493) ∧
  node_at l' ["src"; "a.txt"] = Some (FReg 0) ∧ fs_inodes l' !! 0%N = Some (bytes_of_string "hello", 420).
Proof.
  intros l'. split; [vm_compute; reflexivity|].
  destruct (download_confined 18 3 "/x" ["home"; "copy"] ex_local ()) as (H1 & H2 & _).
  - reflexivity.
  - intros q Hq. unfold proper_prefixes in Hq. simpl in Hq. repeat (apply elem_of_cons in Hq as [->|Hq]; [done|]). by apply elem_of_nil in Hq.
  - split.
    + destruct (H1 ["src"; "a.txt"]) as [E|(_ & E & _)]; [done|exact E|done].
    + assert (Hi : fs_inodes ex_local !! 0%N = Some (bytes_of_string "hello", 420)) by reflexivity.
      etrans; [apply (H2 0%N); apply elem_of_dom; by rewrite Hi|exact Hi].
Defined.
