(* ===== verification/DeletionJournal.v ===== *)
(** The journal of deletions of a worker ([sandbox/deletion.py]): requests that survive the
    worker, jobs that purge sandboxes and are retried, at most four at a time. *)

From S2P Require Import Prelude.
From S2P Require Import OrderedDict.

#[local] Open Scope Z_scope.

(** * State *)

Inductive deletion_state := DPending | DDeleted.

#[export] Instance deletion_state_eq_dec : EqDecision deletion_state.
Proof. solve_decision. Defined.

(** A request, as its file has it; times are in microseconds. *)
Record deletion := Deletion {
  dl_state : deletion_state; dl_requested : Z; dl_error : option string; dl_retry : option Z; dl_finished : option Z }.

#[export] Instance deletion_updatable : Updatable deletion := λ d,
  Deletion (dl_state d) (dl_requested d) (dl_error d) (dl_retry d) (dl_finished d).

(** The files of the journal and the tombstones of the worker stay when the worker ends;
    [pending], [running] with whether each future is done, and [closed] are its memory. *)
Record journal := Journal {
  dj_files : gmap string deletion;
  dj_tombs : gset string;
  dj_pending : list (string * deletion);
  dj_running : list (string * bool);
  dj_closed : bool }.

#[export] Instance journal_updatable : Updatable journal := λ j,
  Journal (dj_files j) (dj_tombs j) (dj_pending j) (dj_running j) (dj_closed j).

(** * Operations *)

(** [status]; [None] is [not_requested]. *)
Definition deletion_status (id : string) (j : journal) : option deletion := dj_files j !! id.

Definition is_deleted (d : deletion) : bool := bool_decide (dl_state d = DDeleted).

(** [time.time() >= request.get('retry_at', 0)] *)
Definition due (now : Z) (d : deletion) : bool := default 0 (dl_retry d) <=? now.

Definition LIMIT : nat := 4.

(** The loop of [tick] over the pending requests *)
Fixpoint start_jobs (now : Z) (l : list (string * deletion)) (running : list (string * bool)) : list (string * bool) :=
  match l with
  | [] => running
  | (id, d) :: l =>
      if (LIMIT <=? length running)%nat then running
      else start_jobs now l (if negb (bool_decide (id ∈ keys running)) && due now d then running ++ [(id, false)] else running)
  end.

(** [tick] *)
Definition deletion_tick (now : Z) (j : journal) : journal :=
  if dj_closed j then j
  else j <| dj_running := start_jobs now (dj_pending j) (filter (λ x, x.2 = false) (dj_running j)) |>.

(** [request]: [supported] is whether the record is deleted or its runtime can delete,
    [saved] whether [commit] writes the file. *)
Definition deletion_request (now : Z) (id : string) (supported saved : bool) (j : journal) : journal * res deletion :=
  if negb supported then (j, raise UnsupportedFeature "this runtime does not support sandbox deletion")
  else match deletion_status id j with
  | Some d => (deletion_tick now j, Ok d)
  | None =>
      if negb saved then (j, raise OSError "")
      else let d := Deletion DPending now None None None in
           (deletion_tick now (j <| dj_files := <[id := d]> (dj_files j) |> <| dj_pending := od_set id d (dj_pending j) |>), Ok d)
  end.

(** The future of a job is done. *)
Definition job_done (id : string) (j : journal) : journal :=
  j <| dj_running := od_set id true (dj_running j) |>.

(** The end of [_run]: [purged] is the outcome of [_purge]; the commits of the result and
    of the error may fail. *)
Definition deletion_run (now : Z) (id : string) (purged : res ()) (saved saved_error : bool) (j : journal) : journal :=
  job_done id
    match od_get id (dj_pending j) with
    | None => j
    | Some d =>
        let failed (text : string) :=
          let d := d <| dl_error := Some text |> <| dl_retry := Some (now + seconds 1) |> in
          if saved_error then j <| dj_files := <[id := d]> (dj_files j) |> <| dj_pending := od_set id d (dj_pending j) |> else j in
        match purged with
        | Err e => failed (exn_text e)
        | Ok _ =>
            if saved then
              let d := d <| dl_state := DDeleted |> <| dl_finished := Some now |> <| dl_error := None |> <| dl_retry := None |> in
              j <| dj_files := <[id := d]> (dj_files j) |> <| dj_pending := od_del id (dj_pending j) |>
            else failed ""
        end
    end.

(** [__init__], over the names that [glob] gives *)
Definition load_pending (files : gmap string deletion) (names : list string) : list (string * deletion) :=
  omap (λ id, d ← files !! id; if is_deleted d then None else Some (id, d)) names.

Definition deletion_restart (names : list string) (j : journal) : journal :=
  Journal (dj_files j) (dj_tombs j) (load_pending (dj_files j) names) [] false.

Definition deletion_close (j : journal) : journal := j <| dj_closed := true |>.

(** [_purge] has written the tombstone of the sandbox. *)
Definition purge_done (id : string) (j : journal) : journal := j <| dj_tombs := {[id]} ∪ dj_tombs j |>.

(** * Steps *)

Inductive deletion_event :=
  | DRequest (now : Z) (id : string) (supported saved : bool)
  | DTick (now : Z)
  | DPurged (id : string)
  | DRun (now : Z) (id : string) (purged : res ()) (saved saved_error : bool)
  | DClose
  | DRestart (names : list string).

(** What may happen: a job that runs ends; it ends without an error only when the tombstone
    is there; a new worker finds every file. *)
Definition may_happen (j : journal) (e : deletion_event) : Prop :=
  match e with
  | DPurged id => (id, false) ∈ dj_running j
  | DRun _ id purged _ _ => (id, false) ∈ dj_running j ∧ (purged = Ok () → id ∈ dj_tombs j)
  | DRestart names => NoDup names ∧ ∀ id, id ∈ names ↔ is_Some (dj_files j !! id)
  | _ => True
  end.

Definition deletion_step (j : journal) (e : deletion_event) : journal :=
  match e with
  | DRequest now id supported saved => (deletion_request now id supported saved j).1
  | DTick now => deletion_tick now j
  | DPurged id => purge_done id j
  | DRun now id purged saved saved_error => deletion_run now id purged saved saved_error j
  | DClose => deletion_close j
  | DRestart names => deletion_restart names j
  end.

Definition new_journal : journal := Journal ∅ ∅ [] [] false.

(** The states after some history *)
Inductive journal_reach : journal → Prop :=
  | jr_new : journal_reach new_journal
  | jr_step j e : journal_reach j → may_happen j e → journal_reach (deletion_step j e).

(** * Invariant *)

Record journal_ok (j : journal) : Prop := JournalOk {
  jo_wf : od_wf (dj_pending j);
  jo_pending : ∀ id d, od_get id (dj_pending j) = Some d ↔ dj_files j !! id = Some d ∧ is_deleted d = false;
  jo_running : od_wf (dj_running j);
  jo_limit : (length (dj_running j) <= LIMIT)%nat;
  jo_jobs : ∀ id, (id, false) ∈ dj_running j → id ∈ keys (dj_pending j);
  jo_deleted : ∀ id d, dj_files j !! id = Some d → is_deleted d = true → id ∈ dj_tombs j }.

Lemma start_jobs_spec now l running : od_wf running → (length running <= LIMIT)%nat →
  let running' := start_jobs now l running in
  od_wf running' ∧ (length running' <= LIMIT)%nat ∧ running `prefix_of` running' ∧
  ∀ x, x ∈ running' → x ∈ running ∨ (x.2 = false ∧ x.1 ∉ keys running ∧ ∃ d, (x.1, d) ∈ l ∧ due now d = true).
Proof.
  revert running. induction l as [|[id d] l IH]; intros running Hwf Hlen; cbn [start_jobs]; [split; [done|split; [done|split; [reflexivity|by left]]]|].
  destruct (Nat.leb_spec LIMIT (length running)) as [Hfull|Hfree]; [split; [done|split; [done|split; [reflexivity|by left]]]|].
  destruct (negb (bool_decide (id ∈ keys running)) && due now d) eqn:Estart.
  - bool_prop. destruct (IH (running ++ [(id, false)])) as (H1 & H2 & H3 & H4).
    + unfold od_wf, keys in *. rewrite fmap_app. apply NoDup_app. split; [done|]. split; [|apply NoDup_singleton].
      intros x Hx Hx2%list_elem_of_singleton. by subst x.
    + rewrite length_app. cbn [length]. lia.
    + split; [done|]. split; [done|]. split; [by eapply prefix_app_l|]. intros x Hx. destruct (H4 x Hx) as [Hx'|(Hf & Hk & d' & Hd & Hdue)].
      * apply elem_of_app in Hx' as [?| ->%list_elem_of_singleton]; [by left|right]. simpl. split; [done|]. split; [done|].
        exists d. split; [by left|done].
      * right. split; [done|]. split; [|exists d'; split; [by right|done]]. intros Hin. apply Hk. unfold keys in *. rewrite fmap_app. apply elem_of_app. by left.
  - destruct (IH running Hwf Hlen) as (H1 & H2 & H3 & H4). split; [done|]. split; [done|]. split; [done|].
    intros x Hx. destruct (H4 x Hx) as [?|(? & ? & d' & Hd & ?)]; [by left|right]. split; [done|]. split; [done|]. exists d'. split; [by right|done].
Qed.

Lemma running_filter j : journal_ok j → od_wf (filter (λ x, x.2 = false) (dj_running j)) ∧
  (length (filter (λ x : string * bool, x.2 = false) (dj_running j)) <= LIMIT)%nat.
Proof.
  intros Hj. split.
  - unfold od_wf, keys. eapply sublist_NoDup; [exact (jo_running j Hj)|]. apply fmap_sublist, sublist_filter.
  - etrans; [|exact (jo_limit j Hj)]. apply length_filter.
Qed.

Lemma tick_ok now j : journal_ok j → journal_ok (deletion_tick now j).
Proof.
  intros Hj. unfold deletion_tick. destruct (dj_closed j); [done|]. destruct (running_filter j Hj) as [Hwf Hlen].
  destruct (start_jobs_spec now (dj_pending j) _ Hwf Hlen) as (H1 & H2 & _ & H4). destruct Hj as [J1 J2 J3 J4 J5 J6].
  split; simpl; try done. intros id Hid. destruct (H4 _ Hid) as [Hx|(_ & _ & d & Hd & _)].
  - apply list_elem_of_filter in Hx as [_ Hx]. auto.
  - apply list_elem_of_fmap. by exists (id, d).
Qed.

Lemma od_set_jobs id (l : list (string * bool)) x : od_wf l → (x, false) ∈ od_set id true l → (x, false) ∈ l ∧ x ≠ id.
Proof.
  intros Hwf Hx. apply (od_get_wf x false) in Hx; [|by apply od_wf_set]. rewrite od_get_set in Hx.
  case_decide; [done|]. split; [by apply od_get_elem|done].
Qed.

(** One request changes on disk and in memory. *)
Lemma change_ok j id d : journal_ok j → is_deleted d = false →
  journal_ok (j <| dj_files := <[id := d]> (dj_files j) |> <| dj_pending := od_set id d (dj_pending j) |>).
Proof.
  intros [J1 J2 J3 J4 J5 J6] Hd. split; simpl; try done.
  - by apply od_wf_set.
  - intros x e. rewrite od_get_set. case_decide as Hx.
    + subst x. rewrite lookup_insert_eq. naive_solver.
    + rewrite lookup_insert_ne by done. apply J2.
  - intros x Hx. apply od_get_elem_keys. rewrite od_get_set. case_decide; [by eexists|]. apply od_get_elem_keys. auto.
  - intros x e. destruct (decide (x = id)) as [->|Hx]; [rewrite lookup_insert_eq; by intros [= <-] ?; congruence|].
    rewrite lookup_insert_ne by done. apply J6.
Qed.

Lemma pending_state j id d : journal_ok j → od_get id (dj_pending j) = Some d → dl_state d = DPending.
Proof. intros Hj [_ Hd]%Hj. unfold is_deleted in Hd. apply bool_decide_eq_false in Hd. by destruct (dl_state d). Qed.


Lemma run_ok now id purged saved saved_error j : journal_ok j → (id, false) ∈ dj_running j → (purged = Ok () → id ∈ dj_tombs j) →
  journal_ok (deletion_run now id purged saved saved_error j).
Proof.
  intros Hj Hrun Hp. assert (Hkey : id ∈ keys (dj_running j)) by (apply od_get_elem_keys; eexists; apply (od_get_wf id false); [apply Hj|done]).
  assert (Hdone : ∀ j', journal_ok j' → dj_running j' = dj_running j → journal_ok (job_done id j')).
  { intros j' [J1 J2 J3 J4 J5 J6] Hr. unfold job_done. split; simpl; try done.
    - by apply od_wf_set.
    - by rewrite length_od_set by by rewrite Hr.
    - intros x [Hx _]%od_set_jobs; auto. }
  unfold deletion_run. destruct (od_get id (dj_pending j)) as [d|] eqn:Ed; [|by apply Hdone].
  assert (Hfail : ∀ text, journal_ok (job_done id
    (if saved_error then
       j <| dj_files := <[id := d <| dl_error := Some text |> <| dl_retry := Some (now + seconds 1) |>]> (dj_files j) |>
         <| dj_pending := od_set id (d <| dl_error := Some text |> <| dl_retry := Some (now + seconds 1) |>) (dj_pending j) |>
     else j))).
  { intros text. destruct saved_error; [|by apply Hdone]. apply Hdone; [|done]. apply change_ok; [done|]. simpl.
    unfold is_deleted. simpl. by rewrite (pending_state j id d). }
  destruct purged as [[]|e]; [|apply Hfail]. destruct saved; [|apply Hfail].
  specialize (Hp eq_refl). pose proof Hj as [J1 J2 J3 J4 J5 J6]. unfold job_done. split; simpl.
  - by apply od_wf_del.
  - intros x e. rewrite od_get_del. case_decide as Hx.
    + subst x. rewrite lookup_insert_eq. split; [done|]. intros [[= <-] He]. done.
    + rewrite lookup_insert_ne by done. apply J2.
  - by apply od_wf_set.
  - by rewrite length_od_set.
  - intros x [Hx Hne]%od_set_jobs; [|done]. apply od_get_elem_keys. rewrite od_get_del, decide_False by done. apply od_get_elem_keys. auto.
  - intros x e. destruct (decide (x = id)) as [->|Hx]; [done|]. rewrite lookup_insert_ne by done. apply J6.
Qed.

Lemma keys_load files names id : id ∈ keys (load_pending files names) → id ∈ names.
Proof.
  unfold keys, load_pending. intros (x & -> & Hx)%list_elem_of_fmap. apply list_elem_of_omap in Hx as (y & Hy & Hx).
  destruct (files !! y) as [d|]; simpl in Hx; [|done]. destruct (is_deleted d); [done|]. by injection Hx as <-.
Qed.

Lemma load_pending_ok files names : NoDup names → (∀ id, id ∈ names ↔ is_Some (files !! id)) →
  od_wf (load_pending files names) ∧
  ∀ id d, od_get id (load_pending files names) = Some d ↔ files !! id = Some d ∧ is_deleted d = false.
Proof.
  intros Hn Hall.
  assert (Hwf : od_wf (load_pending files names)).
  { clear Hall. induction Hn as [|x l Hx Hl IH]; [apply NoDup_nil_2|]. unfold load_pending. simpl.
    destruct (files !! x) as [d|]; simpl; [|done]. destruct (is_deleted d); [done|].
    apply NoDup_cons. split; [|done]. intros Hin. by apply keys_load in Hin. }
  split; [done|]. intros id d. split.
  - intros Hg%od_get_elem. apply list_elem_of_omap in Hg as (x & Hx & Hg). destruct (files !! x) as [e|] eqn:Ee; simpl in Hg; [|done].
    destruct (is_deleted e) eqn:Ed; [done|]. by injection Hg as <- <-.
  - intros [Hf Hd]. apply od_get_wf; [done|]. apply list_elem_of_omap. exists id. split; [apply Hall; by eexists|].
    rewrite Hf. simpl. by rewrite Hd.
Qed.

Lemma reach_ok j : journal_reach j → journal_ok j.
Proof.
  induction 1 as [|j e Hr IH He].
  { split; simpl; try done; [apply NoDup_nil_2|naive_solver|apply NoDup_nil_2|unfold LIMIT; lia|by intros id ?%elem_of_nil]. }
  destruct e as [now id supported saved|now|id|now id purged saved saved_error| |names]; simpl in *.
  - unfold deletion_request. destruct supported; [|done]. simpl. destruct (deletion_status id j) as [d|] eqn:Es; [by apply tick_ok|].
    destruct saved; [|done]. by apply tick_ok, change_ok.
  - by apply tick_ok.
  - destruct IH as [J1 J2 J3 J4 J5 J6]. split; simpl; try done. intros x d Hx Hd. apply elem_of_union. right. eauto.
  - destruct He. by apply run_ok.
  - by destruct IH.
  - destruct He as [Hn Hall], IH as [J1 J2 J3 J4 J5 J6]. destruct (load_pending_ok (dj_files j) names Hn Hall).
    split; simpl; try done; [apply NoDup_nil_2|unfold LIMIT; lia|by intros id ?%elem_of_nil].
Qed.

(** * Properties *)

(** C31: at most four sandboxes are purged at once, each by one job: in every state that
    requests, ticks, ends of jobs, failed writes, closing and restarts lead to, the jobs that
    run are at most four, no sandbox has two, and each has a request that is not done. *)
Theorem deletions_bounded j : journal_reach j →
  (length (dj_running j) <= 4)%nat ∧ NoDup (dj_running j).*1 ∧
  ∀ id, (id, false) ∈ dj_running j → ∃ d, dj_files j !! id = Some d ∧ dl_state d = DPending.
Proof.
  intros Hj%reach_ok. split; [exact (jo_limit j Hj)|]. split; [exact (jo_running j Hj)|].
  intros id Hid. apply (jo_jobs j Hj), od_get_elem_keys in Hid as [d Hd]. exists d.
  split; [by apply (jo_pending j Hj)|by eapply pending_state].
Qed.

(** What a step does to the file of a request *)
Lemma step_file j e id d : journal_ok j → may_happen j e → dj_files j !! id = Some d →
  ∃ d', dj_files (deletion_step j e) !! id = Some d' ∧ dl_requested d' = dl_requested d ∧ (is_deleted d = true → d' = d).
Proof.
  intros Hj He Hd.
  assert (Htick : ∀ now j', dj_files (deletion_tick now j') = dj_files j') by (intros now j'; unfold deletion_tick; by destruct (dj_closed j')).
  destruct e as [now x supported saved|now|x|now x purged saved saved_error| |names]; simpl; rewrite ?Htick; eauto.
  - unfold deletion_request. destruct supported; simpl; [|eauto]. unfold deletion_status.
    destruct (dj_files j !! x) eqn:Ex; simpl; [rewrite Htick; eauto|]. destruct saved; simpl; [|eauto]. rewrite Htick. simpl.
    rewrite lookup_insert_ne by congruence. eauto.
  - unfold deletion_run, job_done. simpl. destruct (od_get x (dj_pending j)) as [p|] eqn:Ep; [|eauto].
    destruct (proj1 (jo_pending j Hj x p) Ep) as [Hf Hnot].
    assert (Hput : ∀ p', dl_requested p' = dl_requested p → ∃ d', <[x := p']> (dj_files j) !! id = Some d' ∧
      dl_requested d' = dl_requested d ∧ (is_deleted d = true → d' = d)).
    { intros p' Hp'. destruct (decide (x = id)) as [->|Hne].
      - rewrite lookup_insert_eq. exists p'. assert (p = d) as -> by congruence. split; [done|]. split; [done|congruence].
      - rewrite lookup_insert_ne by done. eauto. }
    destruct purged as [[]|err], saved, saved_error; simpl; eauto.
Qed.

Lemma steps_file j e j' : journal_ok j → may_happen j e → j' = deletion_step j e → dj_tombs j ⊆ dj_tombs j'.
Proof.
  intros _ _ ->. assert (Htick : ∀ now j', dj_tombs (deletion_tick now j') = dj_tombs j') by (intros now j'; unfold deletion_tick; by destruct (dj_closed j')).
  destruct e as [now x supported saved|now|x|now x purged saved saved_error| |names]; simpl; rewrite ?Htick; try done; [| set_solver |].
  - unfold deletion_request. destruct supported; simpl; [|done]. destruct (deletion_status x j); simpl; [by rewrite Htick|].
    destruct saved; simpl; [by rewrite Htick|done].
  - unfold deletion_run. destruct (od_get x (dj_pending j)); [|done]. by destruct purged, saved, saved_error.
Qed.

(** The states that follow a state *)
Inductive journal_leads (j : journal) : journal → Prop :=
  | jl_here : journal_leads j j
  | jl_step j' e : journal_leads j j' → may_happen j' e → journal_leads j (deletion_step j' e).

Lemma leads_reach j j' : journal_reach j → journal_leads j j' → journal_reach j'.
Proof. induction 2; [done|]. by constructor. Qed.

(** A deletion that was acknowledged is never forgotten: whatever follows a request that
    returned, crashes and restarts of the worker included, the journal has the request,
    either still pending, and then a running worker has it among its pending ones, or
    deleted; it says deleted only of a sandbox whose tombstone is written, and that is final. *)
Theorem deletions_remembered j now id supported saved d j1 j2 : journal_reach j →
  deletion_request now id supported saved j = (j1, Ok d) → journal_leads j1 j2 →
  ∃ d', dj_files j2 !! id = Some d' ∧ dl_requested d' = dl_requested d ∧
    (dl_state d' = DPending → od_get id (dj_pending j2) = Some d') ∧
    (dl_state d' = DDeleted → id ∈ dj_tombs j2 ∧ ∀ j3, journal_leads j2 j3 → dj_files j3 !! id = Some d' ∧ id ∈ dj_tombs j3).
Proof.
  intros Hr Hreq Hl.
  assert (Hr1 : journal_reach j1) by (change j1 with (j1, Ok d).1; rewrite <- Hreq; by apply (jr_step j (DRequest now id supported saved))).
  assert (H1 : dj_files j1 !! id = Some d).
  { assert (Htick : ∀ j', dj_files (deletion_tick now j') = dj_files j') by (intros j'; unfold deletion_tick; by destruct (dj_closed j')).
    unfold deletion_request in Hreq. destruct supported; simpl in Hreq; [|done]. unfold deletion_status in Hreq.
    destruct (dj_files j !! id) as [d0|] eqn:E; [injection Hreq as <- <-; by rewrite Htick|].
    destruct saved; simpl in Hreq; [|done]. injection Hreq as <- <-. rewrite Htick. simpl. by rewrite lookup_insert_eq. }
  assert (Hkeep : ∀ a b x, journal_reach a → journal_leads a b → dj_files a !! id = Some x →
    ∃ y, dj_files b !! id = Some y ∧ dl_requested y = dl_requested x ∧ (is_deleted x = true → y = x)).
  { intros a b x Ha Hb Hx. induction Hb as [|b e Hb IH He]; [eauto|]. destruct IH as (y & Hy & Hq & Hd).
    destruct (step_file b e id y) as (z & Hz & Hq' & Hd'); [by eapply reach_ok, leads_reach|done|done|].
    exists z. split; [done|]. split; [congruence|]. intros Hx'. assert (y = x) as -> by auto. auto. }
  destruct (Hkeep j1 j2 d Hr1 Hl H1) as (d' & Hd' & Hq & _). assert (Hr2 := leads_reach _ _ Hr1 Hl). assert (Hok2 := reach_ok _ Hr2).
  exists d'. split; [done|]. split; [done|]. split.
  - intros Hp. apply (jo_pending j2 Hok2). split; [done|]. unfold is_deleted. by rewrite Hp.
  - intros Hdel. assert (Hdel' : is_deleted d' = true) by (unfold is_deleted; by rewrite Hdel).
    split; [by eapply (jo_deleted j2 Hok2)|]. intros j3 H3. destruct (Hkeep j2 j3 d' Hr2 H3 Hd') as (y & Hy & _ & Hyd).
    rewrite (Hyd Hdel') in Hy. split; [done|]. eapply (jo_deleted j3); [by eapply reach_ok, leads_reach|done|done].
Qed.

(** ** Progress *)

(** The running jobs succeed, one after the other. *)
Fixpoint finish_jobs (now : Z) (l : list string) (j : journal) : journal :=
  match l with
  | [] => j
  | id :: l => finish_jobs now l (deletion_run now id (Ok ()) true true (purge_done id j))
  end.

Definition active_jobs (j : journal) : list string := (filter (λ x : string * bool, x.2 = false) (dj_running j)).*1.

(** A tick of the worker's loop, and the jobs it started *)
Definition round (now : Z) (j : journal) : journal :=
  let j := deletion_tick now j in finish_jobs now (active_jobs j) j.

Fixpoint rounds (n : nat) (now : Z) (j : journal) : journal :=
  match n with O => j | S n => rounds n now (round now j) end.

Lemma leads_trans a b c : journal_leads a b → journal_leads b c → journal_leads a c.
Proof. intros Hab. induction 1; [done|]. by constructor. Qed.

Lemma leads_one j e : may_happen j e → journal_leads j (deletion_step j e).
Proof. intros He. by apply (jl_step j j e (jl_here j)). Qed.

Lemma job_still id x j now : journal_ok j → (x, false) ∈ dj_running j → x ≠ id →
  (x, false) ∈ dj_running (deletion_run now id (Ok ()) true true (purge_done id j)).
Proof.
  intros Hj Hx Hne. unfold deletion_run, job_done. simpl.
  assert (Hset : (x, false) ∈ od_set id true (dj_running j)).
  { apply od_get_elem. rewrite od_get_set, decide_False by done. apply od_get_wf; [apply Hj|done]. }
  by destruct (od_get id (dj_pending j)).
Qed.

(** The jobs that succeed leave the list of pending requests. *)
Lemma finish_jobs_ok now l : ∀ j, journal_reach j → NoDup l → (∀ x, x ∈ l → (x, false) ∈ dj_running j) →
  let j' := finish_jobs now l j in
  journal_leads j j' ∧ dj_closed j' = dj_closed j ∧
  (length (dj_pending j') + length l <= length (dj_pending j))%nat ∧
  ∀ id d, od_get id (dj_pending j') = Some d → od_get id (dj_pending j) = Some d ∧ id ∉ l.
Proof.
  induction l as [|id l IH]; intros j Hr Hnd Hl; simpl.
  - split; [constructor|]. split; [done|]. split; [lia|]. intros id d Hd. split; [done|by apply not_elem_of_nil].
  - apply NoDup_cons in Hnd as [Hnid Hnd]. assert (Hid : (id, false) ∈ dj_running j) by (apply Hl; by left).
    assert (Hr1 : journal_reach (purge_done id j)) by by apply (jr_step j (DPurged id)).
    assert (He2 : may_happen (purge_done id j) (DRun now id (Ok ()) true true)) by (split; [done|]; intros _; simpl; set_solver).
    set (j2 := deletion_run now id (Ok ()) true true (purge_done id j)).
    assert (Hr2 : journal_reach j2) by by apply (jr_step _ (DRun now id (Ok ()) true true)).
    pose proof (reach_ok j Hr) as Hok. destruct (od_get id (dj_pending j)) as [d|] eqn:Ed.
    2:{ apply od_get_none in Ed. by apply (jo_jobs j Hok) in Hid. }
    assert (Hp2 : dj_pending j2 = od_del id (dj_pending j)) by (unfold j2, deletion_run, job_done; simpl; by rewrite Ed).
    assert (Hc2 : dj_closed j2 = dj_closed j) by (unfold j2, deletion_run, job_done; simpl; by rewrite Ed).
    destruct (IH j2 Hr2 Hnd) as (H1 & H2 & H3 & H4).
    { intros x Hx. apply job_still; [done|apply Hl; by right|]. by intros ->. }
    split; [|split; [by rewrite H2|split]].
    + eapply leads_trans; [apply (leads_one j (DPurged id) Hid)|]. eapply leads_trans; [by apply (leads_one _ (DRun now id (Ok ()) true true))|done].
    + rewrite Hp2 in H3. pose proof (length_od_del_lt id (dj_pending j)) as Hlt.
      assert (id ∈ keys (dj_pending j)) by (apply od_get_elem_keys; by eexists). specialize (Hlt H). lia.
    + intros x e Hx. apply H4 in Hx as [Hx Hnx]. rewrite Hp2, od_get_del in Hx. case_decide; [done|].
      split; [done|]. intros [->|?]%elem_of_cons; done.
Qed.

(** A tick with nothing to wait for fills the slots, or starts everything. *)
Lemma start_jobs_all now l running : (∀ x, x ∈ l → due now x.2 = true) →
  let running' := start_jobs now l running in
  (LIMIT <= length running')%nat ∨ ∀ x, x ∈ l → x.1 ∈ keys running'.
Proof.
  revert running. induction l as [|[id d] l IH]; intros running Hl; cbn [start_jobs]; [by right; intros x ?%elem_of_nil|].
  destruct (Nat.leb_spec LIMIT (length running)) as [Hfull|Hfree]; [by left|].
  assert (Hd : due now d = true) by (apply (Hl (id, d)); by left). rewrite Hd, andb_true_r.
  assert (Hmono : ∀ r x, x ∈ keys r → x ∈ keys (start_jobs now l r)).
  { clear. intros r. revert r. induction l as [|[id d] l IH]; intros r x Hx; cbn [start_jobs]; [done|].
    destruct (LIMIT <=? length r)%nat; [done|]. apply IH. destruct (negb _ && _); [|done].
    unfold keys in *. rewrite fmap_app. apply elem_of_app. by left. }
  set (r := if negb (bool_decide (id ∈ keys running)) then _ else _).
  assert (Hid : id ∈ keys r).
  { unfold r. destruct (bool_decide _) eqn:Eb; simpl; [by apply bool_decide_eq_true in Eb|].
    unfold keys. rewrite fmap_app. apply elem_of_app. right. by left. }
  destruct (IH r) as [?|Hall]; [intros x Hx; apply Hl; by right|by left|right].
  intros x [->|Hx]%elem_of_cons; [by apply Hmono|by apply Hall].
Qed.

Lemma filter_id {A} (P : A → Prop) `{∀ x, Decision (P x)} (l : list A) : (∀ x, x ∈ l → P x) → filter P l = l.
Proof.
  induction l as [|x l IH]; intros Hl; [done|]. rewrite filter_cons, decide_True by (apply Hl; by left).
  f_equal. apply IH. intros y Hy. apply Hl. by right.
Qed.

(** After a tick every future in [running] is of a job that runs. *)
Lemma tick_active now j : journal_ok j → dj_closed j = false → let j' := deletion_tick now j in
  (∀ x, x ∈ active_jobs j' → (x, false) ∈ dj_running j') ∧ active_jobs j' = keys (dj_running j').
Proof.
  intros Hj Hc j'. unfold active_jobs.
  assert (Hall : ∀ x, x ∈ dj_running j' → x.2 = false).
  { unfold j', deletion_tick. rewrite Hc. simpl. intros x Hx. destruct (running_filter j Hj) as [Hwf Hlen].
    destruct (start_jobs_spec now (dj_pending j) _ Hwf Hlen) as (_ & _ & _ & H4).
    destruct (H4 x Hx) as [Hx'|[? _]]; [|done]. by apply list_elem_of_filter in Hx' as [? _]. }
  rewrite filter_id by done. split; [|done]. intros x Hx. apply list_elem_of_fmap in Hx as ([y b] & -> & Hy).
  specialize (Hall _ Hy). simpl in *. by subst b.
Qed.

Lemma round_ok now j : journal_reach j → dj_closed j = false → (∀ id d, od_get id (dj_pending j) = Some d → due now d = true) →
  let j' := round now j in
  journal_leads j j' ∧ dj_closed j' = false ∧
  (length (dj_pending j') <= length (dj_pending j) - LIMIT)%nat ∧
  ∀ id d, od_get id (dj_pending j') = Some d → od_get id (dj_pending j) = Some d.
Proof.
  intros Hr Hc Hdue j'. pose proof (reach_ok j Hr) as Hok. set (j1 := deletion_tick now j) in *.
  assert (Hr1 : journal_reach j1) by by apply (jr_step j (DTick now)).
  assert (Hp1 : dj_pending j1 = dj_pending j) by (unfold j1, deletion_tick; by rewrite Hc).
  assert (Hc1 : dj_closed j1 = false) by (unfold j1, deletion_tick; by rewrite Hc).
  destruct (tick_active now j Hok Hc) as [Hact Hkeys]. fold j1 in Hact, Hkeys. pose proof (reach_ok j1 Hr1) as Hok1.
  destruct (finish_jobs_ok now (active_jobs j1) j1 Hr1) as (H1 & H2 & H3 & H4); [rewrite Hkeys; apply Hok1|done|].
  change (finish_jobs now (active_jobs j1) j1) with j' in *. rewrite Hp1 in *.
  split; [eapply leads_trans; [by apply (leads_one j (DTick now))|done]|]. split; [by rewrite H2|]. split; [|intros id d Hd; by apply H4 in Hd as [? _]].
  assert (Hstart : dj_running j1 = start_jobs now (dj_pending j) (filter (λ x, x.2 = false) (dj_running j)))
    by (unfold j1, deletion_tick; by rewrite Hc).
  destruct (start_jobs_all now (dj_pending j) (filter (λ x, x.2 = false) (dj_running j))) as [Hfull|Hall].
  - intros [id d] Hx. apply (Hdue id). apply od_get_wf; [apply Hok|done].
  - rewrite <- Hstart in Hfull. rewrite Hkeys in H3. unfold keys in H3. rewrite length_fmap in H3. lia.
  - rewrite <- Hstart in Hall. assert (Hnil : dj_pending j' = []); [|rewrite Hnil; simpl; lia].
    destruct (dj_pending j') as [|[id d] l] eqn:El; [done|]. exfalso. destruct (H4 id d) as [Hid Hn]; [simpl; by rewrite decide_True|].
    apply Hn. rewrite Hkeys. by apply (Hall (id, d)), od_get_elem.
Qed.

(** Deletions finish when they can: from any state of a worker that is not closing, with
    every retry due, if the purges and writes of the next rounds succeed, one round for
    each four pending requests deletes them all. *)
Theorem deletions_progress n now j : journal_reach j → dj_closed j = false →
  (∀ id d, od_get id (dj_pending j) = Some d → due now d = true) → (length (dj_pending j) <= n * 4)%nat →
  let j' := rounds n now j in
  journal_leads j j' ∧ ∀ id, is_Some (dj_files j !! id) → ∃ d, dj_files j' !! id = Some d ∧ dl_state d = DDeleted ∧ id ∈ dj_tombs j'.
Proof.
  revert j. induction n as [|n IH]; intros j Hr Hc Hdue Hn j'; unfold j'; cbn [rounds].
  - split; [constructor|]. intros id [d Hd]. exists d. split; [done|]. pose proof (reach_ok j Hr) as Hok.
    destruct (is_deleted d) eqn:E.
    + split; [by apply bool_decide_eq_true in E|by eapply (jo_deleted j Hok)].
    + assert (Hp : od_get id (dj_pending j) = Some d) by (apply (jo_pending j Hok); done). destruct (dj_pending j); [done|simpl in Hn; lia].
  - destruct (round_ok now j Hr Hc Hdue) as (H1 & H2 & H3 & H4). pose proof (leads_reach _ _ Hr H1) as Hr1.
    destruct (IH (round now j) Hr1 H2) as [H5 H6].
    + intros id d Hd. eapply Hdue. by apply H4.
    + unfold LIMIT in H3. lia.
    + split; [by eapply leads_trans|]. intros id [d Hd]. apply H6.
      clear IH H5 H6 Hn H3 H4 H2 Hdue. revert d Hd. induction H1 as [|j1 e Hl IH1 He]; intros d Hd; [by eexists|].
      destruct (IH1 (leads_reach _ _ Hr Hl) d Hd) as [x Hx].
      destruct (step_file j1 e id x) as (y & Hy & _); [exact (reach_ok _ (leads_reach _ _ Hr Hl))|done|done|by eexists].
Qed.

(** ** Starvation *)

(** The running jobs fail, with the text of the error. *)
Fixpoint fail_jobs (now : Z) (text : string) (l : list string) (j : journal) : journal :=
  match l with
  | [] => j
  | id :: l => fail_jobs now text l (deletion_run now id (raise OSError text) true true j)
  end.

(** The worker's loop ticks every quarter of a second; the jobs of one tick take ten seconds
    and fail, and the next tick is the first one after them. *)
Definition failing_cycle (text : string) (now : Z) (j : journal) : journal :=
  let j := deletion_tick now j in fail_jobs (now + seconds 10) text (active_jobs j) j.

Definition period : Z := seconds 10 + 250000.

Fixpoint failing_cycles (n : nat) (text : string) (now : Z) (j : journal) : journal :=
  match n with O => j | S n => failing_cycles n text (now + period) (failing_cycle text now j) end.

Lemma start_jobs_full now l r : (LIMIT <= length r)%nat → start_jobs now l r = r.
Proof. intros Hr. destruct l as [|[id d] l]; cbn [start_jobs]; [done|]. by rewrite (proj2 (Nat.leb_le _ _) Hr). Qed.

Lemma start_jobs_skip now A l r : (∀ x, x ∈ A → due now x.2 = false) → start_jobs now (A ++ l) r = start_jobs now l r.
Proof.
  induction A as [|[id d] A IH]; intros HA; [done|]. cbn [app start_jobs].
  assert (Hd : due now d = false) by (apply (HA (id, d)); by left). rewrite Hd, andb_false_r.
  destruct (Nat.leb_spec LIMIT (length r)); [by rewrite start_jobs_full|]. apply IH. intros x Hx. apply HA. by right.
Qed.

Lemma start_jobs_start now A l r : (∀ x, x ∈ A → due now x.2 = true) → NoDup (keys r ++ keys A) → (length r + length A <= LIMIT)%nat →
  start_jobs now (A ++ l) r = start_jobs now l (r ++ map (λ id, (id, false)) (keys A)).
Proof.
  revert r. induction A as [|[id d] A IH]; intros r HA Hnd Hlen; [by rewrite app_nil_r|]. cbn [app start_jobs]. simpl in Hlen.
  rewrite (proj2 (Nat.leb_gt _ _)) by lia. assert (Hd : due now d = true) by (apply (HA (id, d)); by left). rewrite Hd, andb_true_r.
  rewrite bool_decide_false; simpl.
  - rewrite IH; [by rewrite <- app_assoc|intros x Hx; apply HA; by right| |rewrite length_app; simpl; lia].
    unfold keys in *. simpl in *. by rewrite fmap_app, <- app_assoc.
  - apply NoDup_app in Hnd as (_ & Hd' & _). intros Hin. apply (Hd' _ Hin). by left.
Qed.

Definition failed_deletion (now : Z) (text : string) (d : deletion) : deletion :=
  d <| dl_error := Some text |> <| dl_retry := Some (now + seconds 1) |>.

Lemma od_set_map {V} (k : string) (f : V → V) v (l : list (string * V)) : od_wf l → od_get k l = Some v →
  od_set k (f v) l = map (λ x, if bool_decide (x.1 = k) then (x.1, f x.2) else x) l.
Proof.
  unfold od_wf. induction l as [|[k' v'] l IH]; intros Hwf Hg; [done|]. simpl in *. apply NoDup_cons in Hwf as [Hn Hwf].
  case_decide as Hk.
  - injection Hg as ->. subst k'. rewrite bool_decide_true by done. f_equal. symmetry. rewrite <- (map_id l) at 2. apply map_ext_in.
    intros [x y] Hx%list_elem_of_In. rewrite bool_decide_false; [done|]. simpl. intros ->. apply Hn, list_elem_of_fmap. by exists (k, y).
  - rewrite bool_decide_false by congruence. f_equal. by apply IH.
Qed.

Lemma fail_jobs_ok now text l : ∀ j, journal_reach j → NoDup l → (∀ x, x ∈ l → (x, false) ∈ dj_running j) →
  let j' := fail_jobs now text l j in
  journal_leads j j' ∧ dj_closed j' = dj_closed j ∧
  dj_pending j' = map (λ x, if bool_decide (x.1 ∈ l) then (x.1, failed_deletion now text x.2) else x) (dj_pending j) ∧
  (∀ x, (x, false) ∈ dj_running j' → (x, false) ∈ dj_running j ∧ x ∉ l).
Proof.
  induction l as [|id l IH]; intros j Hr Hnd Hl; cbn [fail_jobs].
  - split; [constructor|]. split; [done|]. split; [|intros x Hx; split; [done|by apply not_elem_of_nil]].
    rewrite <- (map_id (dj_pending j)) at 1. by apply map_ext.
  - apply NoDup_cons in Hnd as [Hnid Hnd]. assert (Hid : (id, false) ∈ dj_running j) by (apply Hl; by left).
    set (j2 := deletion_run now id (raise OSError text) true true j).
    assert (He : may_happen j (DRun now id (raise OSError text) true true)) by (split; [done|discriminate]).
    assert (Hr2 : journal_reach j2) by by apply (jr_step j (DRun now id (raise OSError text) true true)).
    pose proof (reach_ok j Hr) as Hok. destruct (od_get id (dj_pending j)) as [d|] eqn:Ed.
    2:{ apply od_get_none in Ed. by apply (jo_jobs j Hok) in Hid. }
    assert (Hp2 : dj_pending j2 = od_set id (failed_deletion now text d) (dj_pending j)) by (unfold j2, deletion_run, job_done; rewrite Ed; done).
    assert (Hru2 : dj_running j2 = od_set id true (dj_running j)) by (unfold j2, deletion_run, job_done; by rewrite Ed).
    assert (Hc2 : dj_closed j2 = dj_closed j) by (unfold j2, deletion_run, job_done; by rewrite Ed).
    destruct (IH j2 Hr2 Hnd) as (H1 & H2 & H3 & H4).
    { intros x Hx. rewrite Hru2. apply od_get_elem. rewrite od_get_set, decide_False by congruence.
      apply od_get_wf; [apply Hok|]. apply Hl. by right. }
    split; [eapply leads_trans; [by apply (leads_one j (DRun now id (raise OSError text) true true))|done]|].
    split; [by rewrite H2|]. split.
    + rewrite H3, Hp2, (od_set_map id (failed_deletion now text)) by (done || apply Hok). rewrite map_map. apply map_ext_in.
      intros [x e] _. cbn [fst snd]. destruct (decide (x = id)) as [->|Hne].
      * rewrite (bool_decide_true (id = id)) by done. cbn [fst snd]. by rewrite (bool_decide_false (id ∈ l)), (bool_decide_true (id ∈ id :: l)) by (try done; by left).
      * rewrite (bool_decide_false (x = id)) by done. cbn [fst snd]. repeat case_bool_decide; try done; exfalso; set_solver.
    + intros x Hx. apply H4 in Hx as [Hx Hnx]. rewrite Hru2 in Hx. apply od_set_jobs in Hx as [Hx Hne]; [|apply Hok].
      split; [done|]. intros [->|?]%elem_of_cons; done.
Qed.

(** The two groups of four whose purges fail, and when each is due: one of them starts now. *)
Record starving (now : Z) (C : list (string * deletion)) (ka kb : list string) (j : journal) : Prop := Starving {
  sv_reach : journal_reach j;
  sv_open : dj_closed j = false;
  sv_idle : active_jobs j = [];
  sv_pending : ∃ A B, dj_pending j = A ++ B ++ C ∧ keys A = ka ∧ keys B = kb ∧
    (∀ x, x ∈ A ++ B → due (now + period) x.2 = true) ∧
    ((∀ x, x ∈ A → due now x.2 = true) ∨ ((∀ x, x ∈ A → due now x.2 = false) ∧ ∀ x, x ∈ B → due now x.2 = true)) }.

Lemma due_later now now' d : now <= now' → due now d = true → due now' d = true.
Proof. unfold due. intros Hn Hd. bool_prop. apply Z.leb_le. lia. Qed.

Lemma due_failed now text d t : due t (failed_deletion now text d) = (now + seconds 1 <=? t).
Proof. done. Qed.

Definition fail_some (now : Z) (text : string) (l : list string) (x : string * deletion) : string * deletion :=
  if bool_decide (x.1 ∈ l) then (x.1, failed_deletion now text x.2) else x.

Lemma fail_some_none now text l (A : list (string * deletion)) : (∀ x, x ∈ l → x ∉ keys A) → map (fail_some now text l) A = A.
Proof.
  intros Hl. rewrite <- (map_id A) at 2. apply map_ext_in. intros x Hx%list_elem_of_In. unfold fail_some.
  rewrite bool_decide_false; [done|]. intros Hin. apply (Hl _ Hin), list_elem_of_fmap. by exists x.
Qed.

Lemma fail_some_all now text (A : list (string * deletion)) : map (fail_some now text (keys A)) A = map (λ x, (x.1, failed_deletion now text x.2)) A.
Proof.
  apply map_ext_in. intros x Hx%list_elem_of_In. unfold fail_some. rewrite bool_decide_true; [done|].
  apply list_elem_of_fmap. by exists x.
Qed.

Lemma keys_failed now text (A : list (string * deletion)) : keys (map (λ x, (x.1, failed_deletion now text x.2)) A) = keys A.
Proof. unfold keys. rewrite <- list_fmap_compose. by apply list_fmap_ext. Qed.

Lemma elem_of_failed now text (A : list (string * deletion)) x t : x ∈ map (λ x, (x.1, failed_deletion now text x.2)) A →
  due t x.2 = (now + seconds 1 <=? t).
Proof. intros Hx. apply list_elem_of_In, in_map_iff in Hx as (y & <- & _). done. Qed.

Lemma keys_jobs (l : list string) : keys (map (λ id, (id, false)) l) = l.
Proof. induction l as [|x l IH]; [done|]. change (x :: keys (map (λ id, (id, false)) l) = x :: l). by rewrite IH. Qed.

(** One cycle starts exactly the jobs [l], which come from the two groups. *)
Lemma cycle_started text now j l : journal_reach j → dj_closed j = false →
  dj_running (deletion_tick now j) = map (λ id, (id, false)) l →
  let j' := failing_cycle text now j in
  journal_leads j j' ∧ journal_reach j' ∧ dj_closed j' = false ∧ active_jobs j' = [] ∧
  dj_pending j' = map (fail_some (now + seconds 10) text l) (dj_pending j).
Proof.
  intros Hr Hc Hrun. pose proof (reach_ok j Hr) as Hok. destruct (tick_active now j Hok Hc) as [Hact Hkeys].
  assert (Hr1 : journal_reach (deletion_tick now j)) by by apply (jr_step j (DTick now)).
  assert (Hl : active_jobs (deletion_tick now j) = l).
  { rewrite Hkeys, Hrun. apply keys_jobs. }
  destruct (fail_jobs_ok (now + seconds 10) text l (deletion_tick now j) Hr1) as (H1 & H2 & H3 & H4).
  - rewrite <- Hl, Hkeys. by apply reach_ok.
  - by rewrite <- Hl.
  - intros j'. unfold j', failing_cycle. rewrite Hl.
    assert (Hlead : journal_leads j (fail_jobs (now + seconds 10) text l (deletion_tick now j)))
      by (eapply leads_trans; [by apply (leads_one j (DTick now))|done]).
    split; [done|]. split; [by eapply leads_reach|]. split; [rewrite H2; unfold deletion_tick; by rewrite Hc|]. split.
    + unfold active_jobs. destruct (filter _ _) as [|[x b] r] eqn:Ef; [done|]. exfalso.
      assert (Hx : (x, b) ∈ (x, b) :: r) by by left. rewrite <- Ef in Hx. apply list_elem_of_filter in Hx as [Hb Hx]. simpl in Hb. subst b.
      apply H4 in Hx as [Hx Hn]. rewrite Hrun in Hx. apply list_elem_of_In, in_map_iff in Hx as (y & [= ->] & Hy). by apply Hn, list_elem_of_In.
    + rewrite H3. unfold deletion_tick. rewrite Hc. done.
Qed.

Lemma starving_step text now C ka kb j : length ka = LIMIT → length kb = LIMIT → starving now C ka kb j →
  starving (now + period) C ka kb (failing_cycle text now j) ∧ journal_leads j (failing_cycle text now j) ∧
  ∀ x, x ∈ C → (x.1, false) ∉ dj_running (deletion_tick now j).
Proof.
  intros Ha Hb [Hr Hc Hidle (A & B & Hp & <- & <- & Hlater & Hnow)]. pose proof (reach_ok j Hr) as Hok.
  assert (Hnil : filter (λ x : string * bool, x.2 = false) (dj_running j) = []) by (unfold active_jobs in Hidle; by apply fmap_nil_inv in Hidle).
  assert (Hwf : NoDup (keys A ++ keys B ++ keys C)).
  { pose proof (jo_wf j Hok) as H. unfold od_wf in H. rewrite Hp in H. unfold keys in *. by rewrite !fmap_app in H. }
  apply NoDup_app in Hwf as (HA & HAB & HBC). pose proof HBC as (HB & HBC' & _)%NoDup_app.
  assert (Htick : dj_running (deletion_tick now j) = start_jobs now (A ++ B ++ C) []).
  { unfold deletion_tick. rewrite Hc. simpl. by rewrite Hnil, Hp. }
  assert (Hlen : ∀ l : list string, length (map (λ id, (id, false)) l) = length l) by (intros l; apply length_map).
  assert (HlA : length A = LIMIT) by (unfold keys in Ha; by rewrite length_fmap in Ha).
  assert (HlB : length B = LIMIT) by (unfold keys in Hb; by rewrite length_fmap in Hb).
  assert (Hper : now + seconds 10 + seconds 1 = now + 11000000 ∧ now + period = now + 10250000 ∧ now + period + period = now + 20500000)
    by (unfold period, seconds; lia).
  destruct Hper as (P1 & P2 & P3).
  assert (Hout : ∀ l, (∀ x, x ∈ C → x.1 ∉ l) → dj_running (deletion_tick now j) = map (λ id, (id, false)) l →
    ∀ x, x ∈ C → (x.1, false) ∉ dj_running (deletion_tick now j)).
  { intros l Hl -> x Hx Hin. apply list_elem_of_In, in_map_iff in Hin as (y & [= ->] & Hy). by apply (Hl x Hx), list_elem_of_In. }
  assert (HinC : ∀ x : string * deletion, x ∈ C → x.1 ∈ keys C) by (intros x Hx; apply list_elem_of_fmap; by exists x).
  destruct Hnow as [Hdue|[Hnot Hdue]].
  - assert (Hrun : dj_running (deletion_tick now j) = map (λ id, (id, false)) (keys A)).
    { rewrite Htick, start_jobs_start by (done || (simpl; lia)). simpl. apply start_jobs_full. rewrite Hlen. lia. }
    destruct (cycle_started text now j _ Hr Hc Hrun) as (H1 & H2 & H3 & H4 & H5). split; [|split; [done|]].
    + split; try done. eexists _, B. rewrite H5, Hp, !map_app, fail_some_all. split; [|split; [apply keys_failed|split; [done|]]].
      * f_equal. rewrite (fail_some_none _ _ _ B), (fail_some_none _ _ _ C); [done|..]; intros x Hx Hin; apply (HAB x Hx), elem_of_app; auto.
      * split; [intros x [Hx|Hx]%elem_of_app|right; split; [|intros x Hx; apply Hlater, elem_of_app; by right]].
        -- rewrite (elem_of_failed _ _ _ _ _ Hx). apply Z.leb_le. lia.
        -- eapply due_later; [|apply Hlater, elem_of_app; by right]. lia.
        -- intros x Hx. rewrite (elem_of_failed _ _ _ _ _ Hx). apply Z.leb_gt. lia.
    + apply (Hout (keys A)); [|done]. intros x Hx Hin. apply (HAB _ Hin), elem_of_app. right. auto.
  - assert (Hrun : dj_running (deletion_tick now j) = map (λ id, (id, false)) (keys B)).
    { rewrite Htick, start_jobs_skip, start_jobs_start by (done || (simpl; lia)). simpl. apply start_jobs_full. rewrite Hlen. lia. }
    destruct (cycle_started text now j _ Hr Hc Hrun) as (H1 & H2 & H3 & H4 & H5). split; [|split; [done|]].
    + split; try done. eexists A, _. rewrite H5, Hp, !map_app, fail_some_all. split; [|split; [done|split; [apply keys_failed|]]].
      * rewrite (fail_some_none _ _ _ A), (fail_some_none _ _ _ C); [done|..].
        -- intros x Hx. by apply HBC'.
        -- intros x Hx Hin. apply (HAB x Hin), elem_of_app. by left.
      * split; [intros x [Hx|Hx]%elem_of_app|left; intros x Hx; apply Hlater, elem_of_app; by left].
        -- eapply due_later; [|apply Hlater, elem_of_app; by left]. lia.
        -- rewrite (elem_of_failed _ _ _ _ _ Hx). apply Z.leb_le. lia.
    + apply (Hout (keys B)); [|done]. intros x Hx Hin. apply (HBC' _ Hin). auto.
Qed.

(** A deletion may never be tried: when the first eight pending requests fail after ten
    seconds each time, every free slot goes to one of them, and the requests behind them,
    which are due all the time, are never started, however many cycles pass. *)
Theorem deletion_starves text now A B C j n : journal_reach j → dj_closed j = false → active_jobs j = [] →
  dj_pending j = A ++ B ++ C → length A = 4%nat → length B = 4%nat → (∀ x, x ∈ A ++ B → due now x.2 = true) →
  let j' := failing_cycles n text now j in
  journal_leads j j' ∧ (∃ A' B', dj_pending j' = A' ++ B' ++ C) ∧
  ∀ x, x ∈ C → (x.1, false) ∉ dj_running (deletion_tick (now + Z.of_nat n * period) j').
Proof.
  intros Hr Hc Hi Hp HA HB Hdue.
  assert (Hs : starving now C (keys A) (keys B) j).
  { split; try done. exists A, B. split; [done|]. split; [done|]. split; [done|]. split.
    - intros x Hx. eapply due_later; [|by apply Hdue]. unfold period, seconds. lia.
    - left. intros x Hx. apply Hdue, elem_of_app. by left. }
  assert (Ha : length (keys A) = LIMIT) by (unfold keys; by rewrite length_fmap).
  assert (Hb : length (keys B) = LIMIT) by (unfold keys; by rewrite length_fmap).
  clear Hr Hc Hi Hp HA HB Hdue. revert now j Hs. induction n as [|n IH]; intros now j Hs; cbn [failing_cycles].
  - destruct (starving_step text now C _ _ j Ha Hb Hs) as (_ & _ & H). rewrite Z.add_0_r. split; [constructor|]. split; [|done].
    destruct Hs as [_ _ _ (A' & B' & -> & _)]. by exists A', B'.
  - destruct (starving_step text now C _ _ j Ha Hb Hs) as (Hs' & Hl & _). destruct (IH _ _ Hs') as (H1 & H2 & H3).
    split; [by eapply leads_trans|]. split; [done|]. intros x Hx. specialize (H3 x Hx).
    replace (now + Z.of_nat (S n) * period) with (now + period + Z.of_nat n * period) by lia. done.
Qed.

(** * Examples *)

Definition event_check (j : journal) (e : deletion_event) : bool :=
  match e with
  | DPurged id => bool_decide ((id, false) ∈ dj_running j)
  | DRun _ id purged _ _ => bool_decide ((id, false) ∈ dj_running j) && (if is_ok purged then bool_decide (id ∈ dj_tombs j) else true)
  | DRestart names => false
  | _ => true
  end.

Fixpoint history_check (j : journal) (l : list deletion_event) : bool :=
  match l with [] => true | e :: l => event_check j e && history_check (deletion_step j e) l end.

Lemma event_happens j e : event_check j e = true → may_happen j e.
Proof.
  intros He. destruct e as [| |id|now id [[]|x] saved saved_error| |names]; simpl in *; try done.
  - by bool_prop.
  - by bool_prop.
  - rewrite andb_true_r in He. bool_prop. split; [done|discriminate].
Qed.

Lemma history_leads l j : history_check j l = true → journal_leads j (foldl deletion_step j l).
Proof.
  revert j. induction l as [|e l IH]; intros j Hl; [constructor|]. simpl in *. apply andb_true_iff in Hl as [He Hl].
  eapply leads_trans; [by apply leads_one, event_happens|by apply IH].
Qed.

Lemma history_reach l j : journal_reach j → history_check j l = true → journal_reach (foldl deletion_step j l).
Proof. intros Hr Hl. by eapply leads_reach, history_leads. Qed.

Definition ex_names : list string := ["a"; "b"; "c"; "d"; "e"; "f"; "g"; "h"; "i"].

(** Nine requests; the first four jobs fail within a second. *)
Definition ex_requests : list deletion_event := map (λ id, DRequest 0 id true true) ex_names.
Definition ex_failures : list deletion_event := map (λ id, DRun (seconds 1) id (raise OSError "") true true) ["a"; "b"; "c"; "d"].

Definition ex_asked : journal := foldl deletion_step new_journal ex_requests.
Definition ex_failed : journal := foldl deletion_step new_journal (ex_requests ++ ex_failures).

Lemma ex_asked_reach : journal_reach ex_asked.
Proof. apply history_reach; [constructor|vm_compute; reflexivity]. Qed.

Lemma ex_failed_reach : journal_reach ex_failed.
Proof. apply history_reach; [constructor|vm_compute; reflexivity]. Qed.

Lemma deletions_bounded_witness : keys (dj_running ex_asked) = ["a"; "b"; "c"; "d"] ∧ (length (dj_running ex_asked) <= 4)%nat.
Proof. split; [vm_compute; reflexivity|]. by destruct (deletions_bounded ex_asked ex_asked_reach). Defined.

Definition ex_late : Z := seconds 3.

Lemma ex_due id d : od_get id (dj_pending ex_failed) = Some d → due ex_late d = true.
Proof.
  intros Hd%od_get_elem. assert (Hall : forallb (λ x, due ex_late x.2) (dj_pending ex_failed) = true) by (vm_compute; reflexivity).
  rewrite forallb_forall in Hall. by apply (Hall (id, d)), list_elem_of_In.
Qed.

Lemma deletions_progress_witness :
  ∃ d, dj_files (rounds 3 ex_late ex_failed) !! "i" = Some d ∧ dl_state d = DDeleted ∧ "i" ∈ dj_tombs (rounds 3 ex_late ex_failed).
Proof.
  destruct (deletions_progress 3 ex_late ex_failed ex_failed_reach) as [_ H].
  - vm_compute. reflexivity.
  - exact ex_due.
  - apply Nat.leb_le. vm_compute. reflexivity.
  - apply H. assert (He : bool_decide (is_Some (dj_files ex_failed !! "i")) = true) by (vm_compute; reflexivity).
    by apply bool_decide_eq_true in He.
Defined.

Lemma deletion_starves_witness n :
  ∃ x, x ∈ dj_pending ex_failed ∧ x.1 = "i" ∧
    (x.1, false) ∉ dj_running (deletion_tick (ex_late + Z.of_nat n * period) (failing_cycles n "busy" ex_late ex_failed)).
Proof.
  assert (Hp : dj_pending ex_failed = take 4 (dj_pending ex_failed) ++ take 4 (drop 4 (dj_pending ex_failed)) ++ drop 8 (dj_pending ex_failed))
    by (vm_compute; reflexivity).
  destruct (deletion_starves "busy" ex_late _ _ _ ex_failed n ex_failed_reach eq_refl ltac:(vm_compute; reflexivity) Hp eq_refl eq_refl) as (_ & _ & H).
  - intros [id d] Hx. apply (ex_due id). apply od_get_wf; [exact (jo_wf _ (reach_ok _ ex_failed_reach))|]. rewrite Hp.
    rewrite app_assoc. apply elem_of_app. by left.
  - exists ("i", Deletion DPending 0 None None None). assert (Hin : ("i", Deletion DPending 0 None None None) ∈ drop 8 (dj_pending ex_failed)).
    { assert (He : drop 8 (dj_pending ex_failed) = [("i", Deletion DPending 0 None None None)]) by (vm_compute; reflexivity). rewrite He. by left. }
    split; [rewrite Hp; apply elem_of_app; right; apply elem_of_app; by right|]. split; [done|]. by apply H.
Defined.

Lemma deletions_remembered_witness : ∃ d', dj_files ex_failed !! "a" = Some d' ∧ dl_requested d' = 0 ∧ dl_state d' = DPending.
Proof.
  set (j0 := new_journal). set (d := Deletion DPending 0 None None None).
  assert (Hl : journal_leads (deletion_request 0 "a" true true j0).1 ex_failed).
  { unfold ex_failed. change (foldl deletion_step new_journal (ex_requests ++ ex_failures))
      with (foldl deletion_step (deletion_request 0 "a" true true j0).1 (drop 1 (ex_requests ++ ex_failures))).
    apply history_leads. vm_compute. reflexivity. }
  destruct (deletions_remembered j0 0 "a" true true d _ ex_failed jr_new ltac:(reflexivity) Hl) as (d' & H1 & H2 & _).
  exists d'. split; [done|]. split; [done|]. assert (He : dl_state <$> (dj_files ex_failed !! "a") = Some DPending) by (vm_compute; reflexivity).
  rewrite H1 in He. by injection He.
Defined.
