(* ===== verification/ImageLayers.v ===== *)
(** Merging the layers of an image ([templates/layers.py]) and the archive a base is packed
    from ([templates/images.py]): a tree of guest paths with links, an index of the entries of
    each directory, whiteouts, hard links, and the archive that is written in the end. *)

From S2P Require Import Prelude.
From S2P Require Import Paths.

#[local] Open Scope Z_scope.

(** * Archives *)

(** The types of [tarfile] that the code tells apart *)
Inductive tar_kind := TDir | TReg | TSym | TLnk | TChr | TBlk | TFifo | TOther.

#[export] Instance tar_kind_eq_dec : EqDecision tar_kind.
Proof. solve_decision. Defined.

(** A member of an archive: its header, where [tm_meta] is the owner, times, device and
    extended attributes, and its content. *)
Record tar_member := TarMember {
  tm_name : string; tm_kind : tar_kind; tm_link : string; tm_sparse : bool; tm_mode : Z; tm_meta : string; tm_data : bytes }.

#[export] Instance tar_member_updatable : Updatable tar_member := λ m,
  TarMember (tm_name m) (tm_kind m) (tm_link m) (tm_sparse m) (tm_mode m) (tm_meta m) (tm_data m).

(** [path] *)
Definition image_path (value : string) : res string :=
  if existsb (λ c, bool_decide (c = "000"%char)) (chars value) || str_startswith "/" value
     || bool_decide (".."%string ∈ str_split "/"%char value)
  then raise ValueError "image archive contains an unsafe path: "
  else Ok (remove_prefix "./" (normpath value)).

(** * The tree *)

(** [Inode]: an object, which hard links share *)
Record layer_inode := LayerInode { li_id : N; li_info : tar_member }.

(** [Filesystem] *)
Record image_fs := ImageFs { ig_entries : gmap string layer_inode; ig_children : gmap string (gset string); ig_next : N }.

#[export] Instance image_fs_updatable : Updatable image_fs := λ fs, ImageFs (ig_entries fs) (ig_children fs) (ig_next fs).

Definition new_image : image_fs := ImageFs ∅ ∅ 0.

(** [dirname(name) or '.'] *)
Definition or_dot (s : string) : string := if bool_decide (s = ""%string) then "." else s.
Definition parent_dir (name : string) : string := or_dot (dirname name).

(** [put] *)
Definition put_inode (name : string) (inode : layer_inode) (fs : image_fs) : image_fs :=
  let fs := fs <| ig_entries := <[name := inode]> (ig_entries fs) |> in
  if bool_decide (name = "."%string) then fs
  else fs <| ig_children := <[parent_dir name := {[name]} ∪ default ∅ (ig_children fs !! parent_dir name)]> (ig_children fs) |>.

(** [put(name, Inode(info, archive))] *)
Definition put_new (name : string) (info : tar_member) (fs : image_fs) : image_fs :=
  put_inode name (LayerInode (ig_next fs) info) (fs <| ig_next := N.succ (ig_next fs) |>).

Definition is_dir_inode (i : layer_inode) : bool := bool_decide (tm_kind (li_info i) = TDir).
Definition is_reg_inode (i : layer_inode) : bool := bool_decide (tm_kind (li_info i) = TReg).

(** The target of a symbolic link that is an entry *)
Definition link_at (entries : gmap string layer_inode) (name : string) : option string :=
  match entries !! name with
  | Some i => if bool_decide (tm_kind (li_info i) = TSym) then Some (tm_link (li_info i)) else None
  | None => None
  end.

(** The loop of [resolve]; [hops] more links may be followed. *)
Fixpoint resolve_loop (entries : gmap string layer_inode) (follow : bool) (hops : nat) : list string → list string → res string :=
  fix loop (parts resolved : list string) : res string :=
    match parts with
    | [] => Ok (path_text resolved)
    | part :: parts =>
        if bool_decide (part = ""%string ∨ part = "."%string) then loop parts resolved
        else if bool_decide (part = ".."%string) then loop parts (removelast resolved)
        else
          match link_at entries (str_join "/" (resolved ++ [part])) with
          | Some target =>
              if bool_decide (parts ≠ []) || follow then
                match hops with
                | O => raise ValueError "image contains a symlink loop: "
                | S hops => resolve_loop entries follow hops (str_split "/"%char target ++ parts)
                              (if str_startswith "/" target then [] else resolved)
                end
              else loop parts (resolved ++ [part])
          | None => loop parts (resolved ++ [part])
          end
    end.

(** [resolve] *)
Definition image_resolve (fs : image_fs) (follow : bool) (name : string) : res string :=
  resolve_loop (ig_entries fs) follow 40 (str_split "/"%char name) [].

(** [self.children.get(key, ())] *)
Definition child_names (fs : image_fs) (key : string) : list string := elements (default ∅ (ig_children fs !! key)).

(** An entry is taken out of the tree and out of its directory. *)
Definition remove_entry (key : string) (fs : image_fs) : image_fs :=
  let fs := fs <| ig_children := delete key (ig_children fs) |> <| ig_entries := delete key (ig_entries fs) |> in
  let siblings := default ∅ (ig_children fs !! parent_dir key) in
  if bool_decide (siblings = ∅) then fs
  else let siblings := siblings ∖ {[key]} in
       if bool_decide (siblings = ∅) then fs <| ig_children := delete (parent_dir key) (ig_children fs) |>
       else fs <| ig_children := <[parent_dir key := siblings]> (ig_children fs) |>.

(** The loop of [remove] *)
Fixpoint remove_loop (fuel : nat) (pending : list string) (fs : image_fs) : option image_fs :=
  match pending, fuel with
  | [], _ => Some fs
  | _, O => None
  | key :: pending, S fuel => remove_loop fuel (child_names fs key ++ pending) (remove_entry key fs)
  end.

(** Every name that the index has makes at most one turn. *)
Definition remove_fuel (fs : image_fs) : nat := S (map_fold (λ _ s n, (size s + n)%nat) O (ig_children fs)).

(** [remove] *)
Definition remove_tree (name : string) (children_only : bool) (fs : image_fs) : image_fs :=
  let pending := child_names fs name ++ (if children_only then [] else [name]) in
  default fs (remove_loop (remove_fuel fs) pending (fs <| ig_children := delete name (ig_children fs) |>)).

(** [parents] makes the directories above a path from the root on. *)
Definition parents_of (name : string) : list string := map path_text (drop 1 (proper_prefixes (parts_of name))).

Definition plain_dir (name : string) : tar_member := TarMember name TDir "" false 493 "" [].

Definition make_parent (fs : image_fs) (parent : string) : res image_fs :=
  match ig_entries fs !! parent with
  | Some previous => if is_dir_inode previous then Ok fs else raise ValueError "image path traverses a non-directory: "
  | None => Ok (put_new parent (plain_dir parent) fs)
  end.

Definition make_parents (fs : image_fs) (name : string) : res image_fs :=
  name ← image_path name; res_fold make_parent fs (parents_of name).

(** * Layers *)

Definition WHITEOUT : string := ".wh.".
Definition OPAQUE : string := ".wh..wh..opq".

Definition is_whiteout (name : string) : bool := str_startswith WHITEOUT (basename name).

(** [names] *)
Definition named (prefix : string) (m : tar_member) : res (tar_member * string) :=
  name ← image_path (prefix ++ tm_name m); Ok (m, name).

(** The first loop of [apply]: what the layer takes away *)
Definition apply_whiteout (fs : image_fs) (x : tar_member * string) : res image_fs :=
  if negb (is_whiteout x.2) then Ok fs
  else
    parent ← image_resolve fs true (parent_dir x.2);
    if bool_decide (basename x.2 = OPAQUE) then Ok (remove_tree parent true fs)
    else Ok (remove_tree (remove_prefix "./" (posix_join parent (of_chars (drop 4 (chars (basename x.2)))))) false fs).

(** What is at a name makes room: a directory for a directory stays. *)
Definition make_room (name : string) (m : tar_member) (fs : image_fs) : image_fs :=
  match ig_entries fs !! name with
  | Some previous => if is_dir_inode previous && bool_decide (tm_kind m = TDir) then fs else remove_tree name false fs
  | None => fs
  end.

(** The second loop: the entries of the layer; a hard link to a later member waits. *)
Definition add_member (prefix : string) (st : image_fs * list (string * string)) (x : tar_member * string) :
    res (image_fs * list (string * string)) :=
  if is_whiteout x.2 then Ok st
  else
    let '(fs, pending) := st in
    let m := x.1 in
    _ ← raise_if (tm_sparse m) ValueError "sparse tar entries are not supported in image layers: ";
    _ ← raise_if (bool_decide (tm_kind m = TOther)) ValueError "unsupported image archive entry: ";
    name ← image_resolve fs false x.2;
    fs ← make_parents (make_room name m fs) name;
    if bool_decide (tm_kind m = TLnk) then
      target ← image_path (prefix ++ tm_link m);
      target ← image_resolve fs false target;
      match ig_entries fs !! target with
      | None => Ok (fs, pending ++ [(name, target)])
      | Some inode =>
          _ ← raise_if (negb (is_reg_inode inode)) ValueError "image hard link must refer to a regular file";
          Ok (put_inode name inode fs, pending)
      end
    else Ok (put_new name m fs, pending).

(** One turn of the last loop *)
Definition link_one (st : image_fs * list (string * string)) (x : string * string) : res (image_fs * list (string * string)) :=
  let '(fs, waiting) := st in
  match ig_entries fs !! x.2 with
  | None => Ok (fs, waiting ++ [x])
  | Some inode =>
      _ ← raise_if (negb (is_reg_inode inode)) ValueError "image hard link must refer to a regular file";
      Ok (put_inode x.1 inode fs, waiting)
  end.

(** The last loop: each turn makes a link, or it raises. *)
Fixpoint link_rounds (fuel : nat) (pending : list (string * string)) (fs : image_fs) : res image_fs :=
  match pending, fuel with
  | [], _ => Ok fs
  | _, O => raise ValueError "image contains an unresolved hard link"
  | _, S fuel =>
      st ← res_fold link_one (fs, []) pending;
      if (length st.2 =? length pending)%nat then raise ValueError "image contains an unresolved hard link"
      else link_rounds fuel st.2 st.1
  end.

(** [apply] *)
Definition apply_layer (prefix : string) (members : list tar_member) (fs : image_fs) : res image_fs :=
  names ← res_map (named prefix) members;
  fs ← res_fold apply_whiteout fs names;
  st ← res_fold (add_member prefix) (fs, []) names;
  link_rounds (length st.2) st.2 st.1.

(** * The merged archive *)

(** One entry of [write]; the content of a file is written once. *)
Definition write_entry (st : gmap N string * list tar_member) (x : string * layer_inode) : gmap N string * list tar_member :=
  let '(emitted, out) := st in
  let info := (li_info x.2) <| tm_name := x.1 |> in
  match tm_kind info, emitted !! li_id x.2 with
  | TReg, Some first => (emitted, out ++ [info <| tm_kind := TLnk |> <| tm_link := first |> <| tm_data := [] |>])
  | TReg, None => (<[li_id x.2 := x.1]> emitted, out ++ [info])
  | _, _ => (emitted, out ++ [info <| tm_data := [] |>])
  end.

(** [sorted(self.entries.items())] *)
Definition sorted_entries (fs : image_fs) : list (string * layer_inode) :=
  sort_by (λ a b, str_ltb a.1 b.1) (map_to_list (ig_entries fs)).

(** [write] *)
Definition write_image (fs : image_fs) : list tar_member := (foldl write_entry (∅, []) (sorted_entries fs)).2.

(** The part of [images.prepare] that merges: the layers, the interpreter the agent runs on,
    and the working directory. *)
Definition PRIVATE : string := ".sandweave-runtime".

Definition is_private (name : string) : bool := bool_decide (name = PRIVATE) || str_startswith (PRIVATE ++ "/") name.

Definition strip_slashes (s : string) : string :=
  of_chars (rdrop_while (λ c, bool_decide (c = "/"%char)) (drop_while (λ c, bool_decide (c = "/"%char)) (chars s))).

Definition merge_image (layers : list (list tar_member)) (control : list tar_member) (workdir : string) : res image_fs :=
  fs ← res_fold (λ fs layer, apply_layer "" layer fs) new_image layers;
  _ ← raise_if (existsb (λ x, is_private x.1) (map_to_list (ig_entries fs))) ValueError "image uses the reserved directory";
  fs ← apply_layer (PRIVATE ++ "/") control fs;
  workdir ← image_resolve fs true (or_dot (strip_slashes workdir));
  make_parents fs (workdir ++ "/.directory").

(** * Names *)

Lemma str_join_empty ps : forallb name_ok ps = true → str_join "/" ps = ""%string → ps = [].
Proof.
  destruct ps as [|p ps]; [done|]. simpl. intros [Hp _]%andb_true_iff He. exfalso. apply filter_name in Hp as [Hp _].
  destruct p; [done|]. by destruct ps.
Qed.

Lemma parent_dir_path ps x : forallb name_ok (ps ++ [x]) = true → parent_dir (path_text (ps ++ [x])) = path_text ps.
Proof.
  intros Hps. unfold parent_dir, or_dot. rewrite dirname_path by done. apply names_app in Hps as [Hps _].
  case_bool_decide as He; [by apply str_join_empty in He as ->|]. by destruct ps.
Qed.

Lemma path_text_join ps : ps ≠ [] → path_text ps = str_join "/" ps.
Proof. by destruct ps. Qed.

Lemma parents_of_path ps : forallb name_ok ps = true → parents_of (path_text ps) = map path_text (drop 1 (proper_prefixes ps)).
Proof. intros Hps. unfold parents_of. by rewrite parts_of_path. Qed.

(** What [path] accepts, and that it accepts its own results *)
Lemma image_path_ok value s : image_path value = Ok s →
  ∃ ps, forallb name_ok ps = true ∧ s = path_text ps ∧ ps = parts_of value.
Proof.
  unfold image_path. destruct (_ || _ || _) eqn:E; [done|]. intros [= <-]. apply orb_false_iff in E as [_ E].
  apply bool_decide_eq_false in E. apply parts_of_names in E. exists (parts_of value).
  split; [done|]. split; [|done]. unfold normpath. by rewrite path_no_dot.
Qed.

(** A name that [path] leaves alone *)
Definition clean (name : string) : Prop := image_path name = Ok name.

Lemma clean_parts name : clean name → ∃ ps, forallb name_ok ps = true ∧ name = path_text ps.
Proof. intros (ps & ? & ? & _)%image_path_ok. by exists ps. Qed.

Lemma image_path_own ps s : forallb name_ok ps = true → image_path (path_text ps) = Ok s → s = path_text ps ∧ clean s.
Proof.
  intros Hps Hs. pose proof Hs as (qs & Hq & -> & He)%image_path_ok. rewrite parts_of_path in He by done. subst qs. done.
Qed.

Lemma chars_join c sep ps : c ∈ chars (str_join sep ps) → c ∈ chars sep ∨ ∃ p, p ∈ ps ∧ c ∈ chars p.
Proof.
  induction ps as [|p ps IH]; [by intros ?%elem_of_nil|]. destruct ps as [|q ps].
  - simpl. intros Hc. right. exists p. split; [by left|done].
  - change (str_join sep (p :: q :: ps)) with (p ++ sep ++ str_join sep (q :: ps))%string. rewrite !chars_append.
    intros [Hc|[Hc|Hc]%elem_of_app]%elem_of_app; [right; exists p; split; [by left|done]|by left|].
    destruct (IH Hc) as [?|(r & Hr & ?)]; [by left|right]. exists r. split; [by right|done].
Qed.

Lemma chars_join_part c sep ps p : p ∈ ps → c ∈ chars p → c ∈ chars (str_join sep ps).
Proof.
  intros Hp Hc. induction ps as [|q ps IH]; [by apply elem_of_nil in Hp|]. destruct ps as [|r ps].
  - apply list_elem_of_singleton in Hp as ->. done.
  - change (str_join sep (q :: r :: ps)) with (q ++ sep ++ str_join sep (r :: ps))%string. rewrite !chars_append.
    apply elem_of_cons in Hp as [->|Hp]; [apply elem_of_app; by left|]. apply elem_of_app. right. apply elem_of_app. right. auto.
Qed.

Lemma image_path_names ps : forallb name_ok ps = true →
  (∀ p, p ∈ ps → "000"%char ∉ chars p) ↔ clean (path_text ps).
Proof.
  intros Hps. unfold clean, image_path.
  assert (Hslash : str_startswith "/" (path_text ps) = false).
  { apply not_true_is_false. intros [r E]%startswith_app. apply (f_equal (str_split "/"%char)) in E. rewrite path_split in E by done.
    unfold str_split in E. change (chars ("/" ++ r)) with ("/"%char :: chars r) in E. simpl in E.
    destruct ps as [|p ps]; [discriminate E|]. injection E as -> _. done. }
  assert (Hup : bool_decide (".."%string ∈ str_split "/"%char (path_text ps)) = false).
  { apply bool_decide_eq_false. rewrite path_split by done. intros Hin. destruct ps as [|p ps]; [by apply list_elem_of_singleton in Hin|].
    rewrite forallb_forall in Hps. apply list_elem_of_In in Hin. by specialize (Hps _ Hin). }
  rewrite Hslash, Hup, !orb_false_r. unfold normpath. rewrite parts_of_path, path_no_dot by done. split.
  - intros Hz. destruct (existsb _ _) eqn:E; [|done]. exfalso. apply existsb_exists in E as (c & Hc & E). apply bool_decide_eq_true in E. subst c.
    apply list_elem_of_In in Hc. destruct ps as [|p ps]; [by repeat (apply elem_of_cons in Hc as [?|Hc]; [done|]); apply elem_of_nil in Hc|].
    apply chars_join in Hc as [Hc|(q & Hq & Hc)]; [by repeat (apply elem_of_cons in Hc as [?|Hc]; [done|]); apply elem_of_nil in Hc|]. by apply (Hz q).
  - destruct (existsb _ _) eqn:E; [done|]. intros _ p Hp Hc. apply not_true_iff_false in E. apply E, existsb_exists. exists "000"%char.
    rewrite bool_decide_true by done. split; [|done]. apply list_elem_of_In. destruct ps as [|q ps]; [by apply elem_of_nil in Hp|].
    by eapply chars_join_part.
Qed.

Lemma clean_prefix ps qs : forallb name_ok (ps ++ qs) = true → clean (path_text (ps ++ qs)) → clean (path_text ps).
Proof.
  intros Hps Hc. pose proof Hps as [Hp _]%names_app. apply image_path_names; [done|]. intros p Hin.
  apply (image_path_names (ps ++ qs)); [done|done|]. apply elem_of_app. by left.
Qed.

(** * Resolution *)

Definition slashless (p : string) : bool := forallb (λ x, negb (bool_decide (x = "/"%char))) (chars p).

Lemma split_slashless s : forallb slashless (str_split "/"%char s) = true.
Proof.
  apply forallb_forall. intros p Hp. unfold str_split in Hp. apply in_map_iff in Hp as (l & <- & Hl). unfold slashless.
  rewrite String.list_ascii_of_string_of_list_ascii. by apply (split_chars_none "/"%char (chars s)), list_elem_of_In.
Qed.

Lemma name_intro p : slashless p = true → ¬ (p = ""%string ∨ p = "."%string) → p ≠ ".."%string → name_ok p = true.
Proof.
  intros Hs H1 H2. unfold name_ok. fold (slashless p). rewrite Hs, andb_true_r. apply negb_true_iff, bool_decide_eq_false.
  intros [H|[H|H]]; [apply H1; by left|apply H1; by right|done].
Qed.

Lemma name_elim p : name_ok p = true → ¬ (p = ""%string ∨ p = "."%string) ∧ p ≠ ".."%string.
Proof.
  unfold name_ok. intros [H%negb_true_iff%bool_decide_eq_false _]%andb_true_iff.
  split; [intros [?|?]; apply H; auto|intros ?; apply H; auto].
Qed.

(** No link is at a path or above it. *)
Definition clear (entries : gmap string layer_inode) (ps : list string) : Prop :=
  ∀ q, q ≠ [] → q `prefix_of` ps → link_at entries (path_text q) = None.

Lemma clear_prefix entries ps qs : clear entries (ps ++ qs) → clear entries ps.
Proof. intros Hc q Hq Hp. apply Hc; [done|]. by apply prefix_app_r. Qed.

Lemma clear_snoc entries ps x : clear entries ps → link_at entries (path_text (ps ++ [x])) = None → clear entries (ps ++ [x]).
Proof.
  intros Hc Hl q Hq [r Hr]. destruct (decide (r = [])) as [->|Hne]; [rewrite app_nil_r in Hr; by subst q|].
  destruct (exists_last Hne) as (r' & y & ->). rewrite app_assoc in Hr. apply app_inj_tail in Hr as [-> _].
  apply Hc; [done|]. by exists r'.
Qed.

Lemma clear_nil entries : clear entries [].
Proof. intros q Hq ->%prefix_nil_inv. done. Qed.

Lemma removelast_rest {A} (l : list A) : ∃ q, l = removelast l ++ q.
Proof. induction l as [|x [|y l] IH]; [by exists []|by exists [x]|]. destruct IH as [q Hq]. exists q. simpl in *. by f_equal. Qed.

(** A resolved path has no link above it, and if links are followed to the end none at it. *)
Definition resolved_path (entries : gmap string layer_inode) (follow : bool) (ps : list string) : Prop :=
  forallb name_ok ps = true ∧ (clear entries ps ∨ (follow = false ∧ ∃ qs x, ps = qs ++ [x] ∧ clear entries qs)).

Lemma resolve_loop_ok entries follow hops parts resolved s : forallb slashless parts = true → forallb name_ok resolved = true →
  clear entries resolved → resolve_loop entries follow hops parts resolved = Ok s →
  ∃ ps, s = path_text ps ∧ resolved_path entries follow ps.
Proof.
  revert parts resolved. induction hops as [|hops IHh]; intros parts; induction parts as [|part parts IH]; intros resolved Hs Hn Hc.
  1, 3: simpl; intros [= <-]; exists resolved; split; [done|]; split; [done|by left].
  all: simpl in Hs; apply andb_true_iff in Hs as [Hp Hs]; cbn [resolve_loop].
  all: case_bool_decide as Hdot; [by apply IH|]; case_bool_decide as Hup;
    [destruct (removelast_rest resolved) as [q Hq]; apply IH;
       [done|rewrite Hq in Hn; by apply names_app in Hn as [? _]|rewrite Hq in Hc; by eapply clear_prefix]|].
  all: assert (Hname : forallb name_ok (resolved ++ [part]) = true)
    by (apply names_app; split; [exact Hn|]; rewrite names_one; exact (name_intro part Hp Hdot Hup)).
  all: rewrite <- path_text_join by (by destruct resolved); destruct (link_at entries (path_text (resolved ++ [part]))) as [target|] eqn:El;
    [|apply IH; [done|done|by apply clear_snoc]].
  all: destruct (bool_decide (parts ≠ []) || follow) eqn:Ef.
  all: try (apply orb_false_iff in Ef as [Ef ->]; apply bool_decide_eq_false in Ef; destruct parts; [|by destruct Ef];
    simpl; intros [= <-]; exists (resolved ++ [part]); split; [done|]; split; [done|right; split; [done|]; by exists resolved, part]).
  - done.
  - apply IHh; [rewrite forallb_app, split_slashless; done| |]; destruct (str_startswith "/" target); done || apply clear_nil.
Qed.

Lemma image_resolve_ok fs follow name s : image_resolve fs follow name = Ok s →
  ∃ ps, s = path_text ps ∧ resolved_path (ig_entries fs) follow ps.
Proof. apply resolve_loop_ok; [apply split_slashless|done|apply clear_nil]. Qed.

(** A path without links on its way is resolved to itself. *)
Lemma resolve_loop_plain entries follow hops parts resolved : forallb name_ok (resolved ++ parts) = true →
  (∀ q x, resolved ++ parts = q ++ [x] → clear entries q) → (follow = true → clear entries (resolved ++ parts)) →
  resolve_loop entries follow hops parts resolved = Ok (path_text (resolved ++ parts)).
Proof.
  revert resolved. induction parts as [|part parts IH]; intros resolved Hn Hc Hf.
  { rewrite app_nil_r. by destruct hops. }
  assert (Hstep : resolve_loop entries follow hops (part :: parts) resolved = resolve_loop entries follow hops parts (resolved ++ [part])).
  { pose proof Hn as [_ Hp]%names_app. simpl in Hp. apply andb_true_iff in Hp as [Hp _].
    apply name_elim in Hp as [Hp1 Hp2].
    destruct hops; cbn [resolve_loop]; rewrite (bool_decide_false _ Hp1), (bool_decide_false _ Hp2); rewrite <- path_text_join by (by destruct resolved).
    all: destruct (link_at entries (path_text (resolved ++ [part]))) as [target|] eqn:El; [|done].
    all: assert (Hno : bool_decide (parts ≠ []) || follow = false); [|by rewrite Hno].
    all: apply not_true_iff_false; intros [Hb%bool_decide_eq_true|Hb]%orb_true_iff.
    1, 3: destruct (exists_last Hb) as (ps & x & ->);
      assert (Hcl := Hc (resolved ++ part :: ps) x ltac:(by rewrite <- app_assoc)).
    1, 2: rewrite (Hcl (resolved ++ [part])) in El; [done|by destruct resolved|exists ps; by rewrite <- app_assoc].
    all: rewrite (Hf Hb (resolved ++ [part])) in El; [done|by destruct resolved|exists parts; by rewrite <- app_assoc]. }
  rewrite Hstep, IH; rewrite <- app_assoc; done.
Qed.

Lemma resolve_plain fs follow ps : forallb name_ok ps = true → (∀ q x, ps = q ++ [x] → clear (ig_entries fs) q) →
  (follow = true → clear (ig_entries fs) ps) → image_resolve fs follow (path_text ps) = Ok (path_text ps).
Proof.
  intros Hn Hc Hf. unfold image_resolve. rewrite path_split by done. destruct ps as [|p ps]; [done|].
  by apply (resolve_loop_plain _ _ _ (p :: ps) []).
Qed.

(** * Subtrees *)

(** [name == top or name.startswith(top + '/')] *)
Definition covers (top name : string) : bool :=
  bool_decide (top = name) || bool_decide (top = "."%string) || str_startswith (top ++ "/") name.

Lemma startswith_appended p r : str_startswith p (p ++ r) = true.
Proof.
  unfold str_startswith. induction p as [|c p IH]; [by destruct r|].
  change (String.append (String c p) r) with (String c (p ++ r)). cbn [String.prefix].
  destruct (ascii_dec c c) as [_|H]; [exact IH|by destruct H].
Qed.

Lemma append_assoc (a b c : string) : ((a ++ b) ++ c)%string = (a ++ b ++ c)%string.
Proof. induction a as [|x a IH]; [done|]. change (String x ((a ++ b) ++ c) = String x (a ++ b ++ c))%string. by rewrite IH. Qed.

Lemma str_join_app ps q qs : ps ≠ [] → str_join "/" (ps ++ q :: qs) = (str_join "/" ps ++ "/" ++ str_join "/" (q :: qs))%string.
Proof.
  induction ps as [|p ps IH]; [done|]. intros _. destruct ps as [|p' ps]; [done|].
  change (str_join "/" ((p :: p' :: ps) ++ q :: qs)) with (p ++ "/" ++ str_join "/" ((p' :: ps) ++ q :: qs))%string.
  rewrite IH by done. change (str_join "/" (p :: p' :: ps)) with (p ++ "/" ++ str_join "/" (p' :: ps))%string.
  by rewrite !append_assoc.
Qed.

Lemma split_chars_app_sep c a b : split_chars c (a ++ c :: b) = split_chars c a ++ split_chars c b.
Proof.
  induction a as [|x a IH]; simpl; [by rewrite bool_decide_true|]. case_bool_decide; [by rewrite IH|]. rewrite IH.
  pose proof (split_chars_some c a). by destruct (split_chars c a).
Qed.

Lemma str_split_sep a b : str_split "/"%char (a ++ "/" ++ b) = str_split "/"%char a ++ str_split "/"%char b.
Proof.
  unfold str_split. rewrite !chars_append. change (chars "/" ++ ?l) with ("/"%char :: l). by rewrite split_chars_app_sep, map_app.
Qed.

Lemma str_join_split s : str_join "/" (str_split "/"%char s) = s.
Proof.
  unfold str_split. rewrite <- (of_chars_chars s) at 2. induction (chars s) as [|c l IH]; [done|]. simpl.
  pose proof (split_chars_some "/"%char l) as Hne. case_bool_decide as Hc.
  - subst c. destruct (split_chars "/"%char l) as [|p ps]; [done|]. simpl in *. by rewrite <- IH.
  - destruct (split_chars "/"%char l) as [|p ps]; [done|]. simpl in *. rewrite <- IH. by destruct ps.
Qed.

Lemma covers_path ps qs : forallb name_ok ps = true → forallb name_ok qs = true → covers (path_text ps) (path_text qs) = true ↔ ps `prefix_of` qs.
Proof.
  intros Hp Hq. unfold covers. split.
  - intros [[He%bool_decide_eq_true|He%bool_decide_eq_true]%orb_true_iff|[r Hr]%startswith_app]%orb_true_iff.
    + by rewrite (path_text_inj ps qs Hp Hq He).
    + change "."%string with (path_text []) in He. apply path_text_inj in He as ->; [|done|done]. apply prefix_nil.
    + rewrite append_assoc in Hr. apply (f_equal (str_split "/"%char)) in Hr. rewrite str_split_sep in Hr.
      rewrite !path_split in Hr by done. destruct ps as [|p ps]; [apply prefix_nil|]. destruct qs as [|q qs].
      * injection Hr as Hr1 Hr2. subst p. by simpl in Hp.
      * exists (str_split "/"%char r). done.
  - intros [r ->]. destruct r as [|q r]; [rewrite app_nil_r, bool_decide_true; done|].
    destruct ps as [|p ps]; [change (path_text []) with "."%string; by rewrite (bool_decide_true ("."%string = "."%string)), orb_true_r|].
    apply orb_true_iff. right. rewrite (path_text_join ((p :: ps) ++ q :: r)) by done. rewrite str_join_app by done.
    rewrite <- append_assoc. change (path_text (p :: ps)) with (str_join "/" (p :: ps)). apply startswith_appended.
Qed.

(** Only a path can cover one. *)
Lemma covers_odd top qs : forallb name_ok qs = true → covers top (path_text qs) = true → ∃ ps, forallb name_ok ps = true ∧ top = path_text ps.
Proof.
  intros Hq [[->%bool_decide_eq_true| ->%bool_decide_eq_true]%orb_true_iff|[r Hr]%startswith_app]%orb_true_iff; [by exists qs|by exists []|].
  rewrite append_assoc in Hr. apply (f_equal (str_split "/"%char)) in Hr. rewrite str_split_sep, path_split in Hr by done.
  assert (Hne : str_split "/"%char top ≠ []) by (unfold str_split; intros Hn%map_eq_nil; by apply split_chars_some in Hn).
  destruct qs as [|q qs].
  - destruct (str_split "/"%char top) as [|x l]; [done|]. injection Hr as _ Hr. symmetry in Hr. apply app_eq_nil in Hr as [_ Hr].
    unfold str_split in Hr. apply map_eq_nil in Hr. by apply split_chars_some in Hr.
  - exists (str_split "/"%char top). rewrite Hr in Hq. apply names_app in Hq as [Hq _]. split; [done|].
    by rewrite path_text_join, str_join_split by done.
Qed.

(** * The invariant *)

(** The index has exactly the entries of each directory. *)
Record index_ok (fs : image_fs) : Prop := IndexOk {
  ix_clean : ∀ name i, ig_entries fs !! name = Some i → clean name;
  ix_exact : ∀ p c, c ∈ default ∅ (ig_children fs !! p) ↔ is_Some (ig_entries fs !! c) ∧ c ≠ "."%string ∧ parent_dir c = p;
  ix_sets : ∀ p s, ig_children fs !! p = Some s → s ≠ ∅ }.

(** Every entry but the root is in a directory that is an entry. *)
Definition in_directory (entries : gmap string layer_inode) (name : string) : Prop :=
  ∀ ps x, forallb name_ok (ps ++ [x]) = true → name = path_text (ps ++ [x]) → ps ≠ [] →
    ∃ d, entries !! path_text ps = Some d ∧ is_dir_inode d = true.

Definition tree_ok (entries : gmap string layer_inode) : Prop := ∀ name i, entries !! name = Some i → in_directory entries name.

(** Only regular files are shared, and no entry is an unresolved link. *)
Record inodes_ok (fs : image_fs) : Prop := InodesOk {
  in_fresh : ∀ name i, ig_entries fs !! name = Some i → (li_id i < ig_next fs)%N;
  in_shared : ∀ n m i j, ig_entries fs !! n = Some i → ig_entries fs !! m = Some j → li_id i = li_id j →
    i = j ∧ (n ≠ m → is_reg_inode i = true);
  in_plain : ∀ name i, ig_entries fs !! name = Some i →
    tm_kind (li_info i) ≠ TLnk ∧ tm_kind (li_info i) ≠ TOther ∧ tm_sparse (li_info i) = false }.

Record image_ok (fs : image_fs) : Prop := ImageOk {
  io_index : index_ok fs; io_tree : tree_ok (ig_entries fs); io_inodes : inodes_ok fs }.

(** The paths on the way from [ps] to [qs] are entries. *)
Definition way_in (entries : gmap string layer_inode) (ps qs : list string) : Prop :=
  ∀ r, ps `prefix_of` r → r `prefix_of` qs → is_Some (entries !! path_text r).

Lemma tree_way fs ps qs : tree_ok (ig_entries fs) → forallb name_ok qs = true → is_Some (ig_entries fs !! path_text qs) →
  ps `prefix_of` qs → ps ≠ [] → way_in (ig_entries fs) ps qs.
Proof.
  intros Ht Hn Hq [t ->] Hps. revert Hn Hq. induction t as [|x t IH] using rev_ind; intros Hn Hq r Hr1 Hr2.
  - rewrite app_nil_r in *. by rewrite (anti_symm prefix ps r Hr1 Hr2) in Hq.
  - destruct (decide (r = ps ++ t ++ [x])) as [->|Hne]; [done|]. rewrite app_assoc in *.
    destruct Hq as [i Hi]. destruct (Ht _ _ Hi (ps ++ t) x Hn eq_refl ltac:(by destruct ps)) as (d & Hd & _).
    apply (IH ltac:(by apply names_app in Hn as [? _]) ltac:(by eexists) r Hr1).
    destruct Hr2 as [u Hu]. destruct (decide (u = [])) as [->|Hu']; [rewrite app_nil_r in Hu; by symmetry in Hu|].
    destruct (exists_last Hu') as (u' & y & ->). rewrite app_assoc in Hu. apply app_inj_tail in Hu as [Hu _]. by exists u'.
Qed.

(** * Putting entries *)

Lemma entries_put name i fs : ig_entries (put_inode name i fs) = <[name := i]> (ig_entries fs).
Proof. unfold put_inode. by case_bool_decide. Qed.

Lemma next_put name i fs : ig_next (put_inode name i fs) = ig_next fs.
Proof. unfold put_inode. by case_bool_decide. Qed.

Lemma put_index fs name i : index_ok fs → clean name → index_ok (put_inode name i fs).
Proof.
  intros [H1 H2 H3] Hn. split.
  - intros m j. rewrite entries_put. intros [[<- <-]|[Hne Hj]]%lookup_insert_Some; [done|eauto].
  - intros p c. rewrite entries_put. unfold put_inode. case_bool_decide as Hd.
    + subst name. simpl. rewrite H2. split; intros (Hc & Hc1 & Hc2); (split; [|done]); by rewrite lookup_insert_ne in *.
    + simpl. destruct (decide (p = parent_dir name)) as [->|Hp].
      * rewrite lookup_insert_eq. simpl. rewrite elem_of_union, elem_of_singleton, H2. split.
        -- intros [->|(Hc & Hc1 & Hc2)]; [by rewrite lookup_insert_eq|]. split; [|done].
           destruct (decide (c = name)) as [->|]; [by rewrite lookup_insert_eq|by rewrite lookup_insert_ne].
        -- intros (Hc & Hc1 & Hc2). destruct (decide (c = name)) as [->|]; [by left|right]. by rewrite lookup_insert_ne in Hc.
      * rewrite lookup_insert_ne, H2 by done. split; intros (Hc & Hc1 & Hc2); (split; [|done]).
        -- destruct (decide (c = name)) as [->|]; [by rewrite lookup_insert_eq|by rewrite lookup_insert_ne].
        -- destruct (decide (c = name)) as [->|]; [by destruct Hp|by rewrite lookup_insert_ne in Hc].
  - intros p s. unfold put_inode. case_bool_decide as Hd; simpl; [apply H3|].
    intros [[<- <-]|[_ Hs]]%lookup_insert_Some; [|by eapply H3]. set_solver.
Qed.

(** What may be put at a name without breaking the tree *)
Definition fits (entries : gmap string layer_inode) (name : string) (dir : bool) : Prop :=
  in_directory entries name ∧ (dir = true ∨ ∀ d, entries !! name = Some d → is_dir_inode d = false).

Lemma put_tree entries name i : tree_ok entries → fits entries name (is_dir_inode i) → tree_ok (<[name := i]> entries).
Proof.
  intros Ht [Hin Hd] c j Hc ps x Hn -> Hps.
  assert (Hpar : ∃ d, entries !! path_text ps = Some d ∧ is_dir_inode d = true).
  { apply lookup_insert_Some in Hc as [[-> _]|[_ Hc]]; [by eapply Hin|by eapply Ht]. }
  destruct Hpar as (d & Hl & Hdd). destruct (decide (path_text ps = name)) as [He|Hne].
  - exists i. rewrite He, lookup_insert_eq. split; [done|]. destruct Hd as [Hd|Hd]; [done|]. rewrite He in Hl. by rewrite (Hd d Hl) in Hdd.
  - exists d. by rewrite lookup_insert_ne.
Qed.

Lemma put_old_inodes fs name i : inodes_ok fs → (∃ n, ig_entries fs !! n = Some i) → is_reg_inode i = true → inodes_ok (put_inode name i fs).
Proof.
  intros [H1 H2 H3] [n Hn] Hr. split.
  - intros m j. rewrite entries_put, next_put. intros [[<- <-]|[_ Hj]]%lookup_insert_Some; eauto.
  - intros a b j k. rewrite entries_put. intros [[<- <-]|[Ha Hj]]%lookup_insert_Some [[<- <-]|[Hb Hk]]%lookup_insert_Some He; [done| | |].
    + destruct (H2 _ _ _ _ Hn Hk He) as [-> _]. done.
    + destruct (H2 _ _ _ _ Hj Hn He) as [-> _]. done.
    + eauto.
  - intros m j. rewrite entries_put. intros [[<- <-]|[_ Hj]]%lookup_insert_Some; eauto.
Qed.

Lemma put_new_inodes fs name m : inodes_ok fs → tm_kind m ≠ TLnk → tm_kind m ≠ TOther → tm_sparse m = false → inodes_ok (put_new name m fs).
Proof.
  intros [H1 H2 H3] Hk1 Hk2 Hs. unfold put_new. split.
  - intros n j. rewrite entries_put, next_put. cbn [ig_entries ig_next update]. simpl. intros [[<- <-]|[_ Hj]]%lookup_insert_Some; [simpl; lia|].
    specialize (H1 _ _ Hj). lia.
  - intros a b j k. rewrite entries_put. simpl. intros [[<- <-]|[Ha Hj]]%lookup_insert_Some [[<- <-]|[Hb Hk]]%lookup_insert_Some He.
    + done.
    + specialize (H1 _ _ Hk). simpl in He. lia.
    + specialize (H1 _ _ Hj). simpl in He. lia.
    + eauto.
  - intros n j. rewrite entries_put. simpl. intros [[<- <-]|[_ Hj]]%lookup_insert_Some; eauto.
Qed.

Lemma entries_put_new name m fs : ig_entries (put_new name m fs) = <[name := LayerInode (ig_next fs) m]> (ig_entries fs).
Proof. unfold put_new. by rewrite entries_put. Qed.

Lemma put_new_ok fs name m : image_ok fs → clean name → fits (ig_entries fs) name (bool_decide (tm_kind m = TDir)) →
  tm_kind m ≠ TLnk → tm_kind m ≠ TOther → tm_sparse m = false → image_ok (put_new name m fs).
Proof.
  intros [H1 H2 H3] Hc Hf Hk1 Hk2 Hs. split.
  - unfold put_new. apply put_index; [|done]. destruct H1. by split.
  - rewrite entries_put_new. by apply put_tree.
  - by apply put_new_inodes.
Qed.

Lemma put_old_ok fs name i : image_ok fs → clean name → fits (ig_entries fs) name false → (∃ n, ig_entries fs !! n = Some i) →
  is_reg_inode i = true → image_ok (put_inode name i fs).
Proof.
  intros [H1 H2 H3] Hc Hf Hn Hr. split; [by apply put_index| |by apply put_old_inodes].
  rewrite entries_put. apply put_tree; [done|]. destruct Hf as [? [?|?]]; [done|]. split; [done|by right].
Qed.

(** * Removing subtrees *)

Definition child_set (C : gmap string (gset string)) (p : string) : gset string := default ∅ (C !! p).

Definition index_total (C : gmap string (gset string)) : nat := map_fold (λ _ s n, (size s + n)%nat) O C.

Lemma index_total_delete C k : (index_total (delete k C) + size (child_set C k) = index_total C)%nat.
Proof.
  unfold index_total, child_set. destruct (C !! k) as [s|] eqn:E.
  - rewrite (map_fold_delete_L _ _ k s C) by (done || (intros; lia)). simpl. lia.
  - rewrite delete_id by done. cbn [default]. rewrite (size_empty (C := gset string)). lia.
Qed.

Lemma index_total_insert C k s : (index_total (<[k := s]> C) = index_total (delete k C) + size s)%nat.
Proof.
  rewrite <- (index_total_delete (<[k := s]> C) k), delete_insert_eq. f_equal. unfold child_set. by rewrite lookup_insert_eq.
Qed.

Lemma remove_entry_children key fs p : child_set (ig_children (remove_entry key fs)) p =
  if decide (p = key) then ∅ else if decide (p = parent_dir key) then child_set (ig_children fs) p ∖ {[key]} else child_set (ig_children fs) p.
Proof.
  unfold remove_entry. cbv zeta. simpl. set (C := ig_children fs). unfold child_set.
  case_bool_decide as H1; simpl.
  - destruct (decide (p = key)) as [->|Hp]; [by rewrite lookup_delete_eq|]. destruct (decide (p = parent_dir key)) as [->|Hq].
    + rewrite lookup_delete_ne in * by done. rewrite H1. set_solver.
    + by rewrite lookup_delete_ne.
  - destruct (decide (parent_dir key = key)) as [He|Hne]; [by rewrite He, lookup_delete_eq in H1|]. rewrite lookup_delete_ne in * by done.
    case_bool_decide as H2; simpl.
    + destruct (decide (p = parent_dir key)) as [->|Hq]; [by rewrite decide_False, lookup_delete_eq, H2 by done|].
      rewrite lookup_delete_ne by done. destruct (decide (p = key)) as [->|Hp]; [by rewrite lookup_delete_eq|by rewrite lookup_delete_ne].
    + destruct (decide (p = parent_dir key)) as [->|Hq]; [by rewrite decide_False, lookup_insert_eq by done|].
      rewrite lookup_insert_ne by done. destruct (decide (p = key)) as [->|Hp]; [by rewrite lookup_delete_eq|by rewrite lookup_delete_ne].
Qed.

Lemma remove_entry_entries key fs : ig_entries (remove_entry key fs) = delete key (ig_entries fs).
Proof. unfold remove_entry. cbv zeta. repeat case_bool_decide; done. Qed.

Lemma remove_entry_next key fs : ig_next (remove_entry key fs) = ig_next fs.
Proof. unfold remove_entry. cbv zeta. repeat case_bool_decide; done. Qed.

Lemma remove_entry_sets key fs : (∀ p s, ig_children fs !! p = Some s → s ≠ ∅) → ∀ p s, ig_children (remove_entry key fs) !! p = Some s → s ≠ ∅.
Proof.
  intros Hs p s. unfold remove_entry. cbv zeta. simpl. case_bool_decide as H1; simpl; [intros [_ Hp]%lookup_delete_Some; by eapply Hs|].
  case_bool_decide as H2; simpl; [intros [_ [_ Hp]%lookup_delete_Some]%lookup_delete_Some; by eapply Hs|].
  intros [[<- <-]|[_ [_ Hp]%lookup_delete_Some]]%lookup_insert_Some; [done|by eapply Hs].
Qed.

Lemma remove_entry_total key fs :
  (index_total (ig_children (remove_entry key fs)) + size (child_set (ig_children fs) key) ≤ index_total (ig_children fs))%nat.
Proof.
  rewrite <- (index_total_delete (ig_children fs) key). apply Nat.add_le_mono_r. unfold remove_entry. cbv zeta. simpl.
  set (C := delete key (ig_children fs)). case_bool_decide as H1; simpl; [done|]. pose proof (index_total_delete C (parent_dir key)) as Ht.
  case_bool_decide as H2; simpl; [lia|]. rewrite index_total_insert.
  assert (size (default ∅ (C !! parent_dir key) ∖ {[key]}) ≤ size (child_set C (parent_dir key)))%nat by (apply subseteq_size; unfold child_set; set_solver).
  lia.
Qed.

(** The names that a removal takes *)
Definition doomed (top : string) (children_only : bool) (name : string) : Prop :=
  covers top name = true ∧ (children_only = true → name ≠ top).

#[export] Instance doomed_dec top children_only name : Decision (doomed top children_only name).
Proof. unfold doomed. apply _. Defined.

Section Removing.
Variables (E0 : gmap string layer_inode) (top : string) (children_only : bool).

(** In the middle of a removal: what is left to do is below the pending names. *)
Record removing (pending : list string) (fs : image_fs) : Prop := Removing {
  re_sub : ∀ c i, ig_entries fs !! c = Some i → E0 !! c = Some i;
  re_kept : ∀ c i, E0 !! c = Some i → ig_entries fs !! c = None → doomed top children_only c;
  re_sound : ∀ p c, c ∈ child_set (ig_children fs) p → is_Some (ig_entries fs !! c) ∧ c ≠ "."%string ∧ parent_dir c = p;
  re_complete : ∀ c, is_Some (ig_entries fs !! c) → c ≠ "."%string → c ∈ child_set (ig_children fs) (parent_dir c) ∨ c ∈ pending;
  re_sets : ∀ p s, ig_children fs !! p = Some s → s ≠ ∅;
  re_names : ∀ k, k ∈ pending → ∃ ps, forallb name_ok ps = true ∧ k = path_text ps ∧ doomed top children_only k;
  re_way : ∀ qs, forallb name_ok qs = true → is_Some (ig_entries fs !! path_text qs) → doomed top children_only (path_text qs) →
    ∃ ps, path_text ps ∈ pending ∧ ps `prefix_of` qs ∧ forallb name_ok ps = true ∧ way_in (ig_entries fs) ps qs }.

Hypothesis E0_clean : ∀ name i, E0 !! name = Some i → clean name.
(** What is below a doomed name is doomed. *)
Hypothesis doomed_below : ∀ ps qs, forallb name_ok qs = true → ps `prefix_of` qs →
  doomed top children_only (path_text ps) → doomed top children_only (path_text qs).

Lemma child_below c p : clean c → c ≠ "."%string → parent_dir c = p → ∃ ps x, forallb name_ok (ps ++ [x]) = true ∧ c = path_text (ps ++ [x]) ∧ p = path_text ps.
Proof.
  intros (qs & Hq & ->)%clean_parts Hd <-. destruct (decide (qs = [])) as [->|Hne]; [done|].
  destruct (exists_last Hne) as (ps & x & ->). exists ps, x. split; [done|]. split; [done|]. by apply parent_dir_path.
Qed.

Lemma way_tail ps x qs entries : way_in entries ps qs → ps ++ [x] `prefix_of` qs → way_in entries (ps ++ [x]) qs.
Proof. intros Hw Hx r H1 H2. apply Hw; [etrans; [|exact H1]; by apply prefix_app_r|done]. Qed.

Lemma removing_step key pending fs : removing (key :: pending) fs → removing (child_names fs key ++ pending) (remove_entry key fs).
Proof.
  intros [H1 H2 H3 H4 H5 H6 H7]. destruct (H6 key ltac:(by left)) as (kp & Hkp & Hkey & Hdoom).
  assert (Hchild : ∀ c, c ∈ child_names fs key ↔ c ∈ child_set (ig_children fs) key) by (intros c; unfold child_names; by rewrite elem_of_elements).
  assert (Hclean : ∀ c, is_Some (ig_entries fs !! c) → clean c) by (intros c [i Hi]; eapply E0_clean, H1, Hi).
  split.
  - intros c i. rewrite remove_entry_entries. intros [_ Hc]%lookup_delete_Some. auto.
  - intros c i Hc. rewrite remove_entry_entries. intros [->|Hn]%lookup_delete_None; [apply Hdoom; by eexists|eauto].
  - intros p c. rewrite remove_entry_children, remove_entry_entries. intros Hc.
    assert (Hin : c ∈ child_set (ig_children fs) p ∧ c ≠ key).
    { destruct (decide (p = key)) as [|Hpk]; [set_solver|]. destruct (decide (p = parent_dir key)) as [|Hpp]; [set_solver|]. split; [done|].
      intros He. subst c. apply H3 in Hc as (_ & _ & Hc). done. }
    destruct Hin as [Hin Hne]. rewrite lookup_delete_ne by done. by apply H3.
  - intros c. rewrite remove_entry_entries, remove_entry_children. intros [i [Hne Hi]%lookup_delete_Some] Hd.
    destruct (H4 c ltac:(by eexists) Hd) as [Hc|[->|Hc]%elem_of_cons]; [|done|right; apply elem_of_app; by right].
    destruct (decide (parent_dir c = key)) as [He|Hp]; [right; apply elem_of_app; left; apply Hchild; by rewrite <- He|left].
    destruct (decide (parent_dir c = parent_dir key)); [set_solver|done].
  - by apply remove_entry_sets.
  - intros k [Hk|Hk]%elem_of_app; [|by apply H6; right]. apply Hchild in Hk. destruct (H3 _ _ Hk) as (Hs & Hd & Hp).
    destruct (child_below k key (Hclean _ Hs) Hd Hp) as (ps & x & Hn & -> & Hpk). exists (ps ++ [x]). split; [done|]. split; [done|].
    assert (kp = ps) as <- by (apply path_text_inj; [done|by apply names_app in Hn as [? _]|by rewrite <- Hkey]).
    apply (doomed_below kp); [done|by apply prefix_app_r|by rewrite <- Hkey].
  - intros qs Hq. rewrite remove_entry_entries. intros [i [Hne Hi]%lookup_delete_Some] Hdm.
    destruct (H7 qs Hq ltac:(by eexists) Hdm) as (ps & Hin & Hpre & Hn & Hw).
    assert (Hcase : kp `prefix_of` qs ∧ way_in (ig_entries fs) kp qs ∨ path_text ps ∈ pending ∧ ∀ r, ps `prefix_of` r → r `prefix_of` qs → path_text r ≠ key).
    { destruct (decide (ps `prefix_of` kp ∧ kp `prefix_of` qs)) as [[Hp1 Hp2]|Hno].
      - left. split; [done|]. intros r Hr1 Hr2. apply Hw; [by etrans|done].
      - right. split.
        + apply elem_of_cons in Hin as [Hin|Hin]; [|done]. exfalso. apply Hno. rewrite Hkey in Hin. by apply path_text_inj in Hin as ->.
        + intros r Hr1 Hr2 Hr. rewrite Hkey in Hr. apply path_text_inj in Hr as ->; [by apply Hno| |done].
          destruct Hr2 as [t ->]. by apply names_app in Hq as [? _]. }
    destruct Hcase as [[Hp Hway]|[Hpend Hout]].
    + destruct Hp as [t ->]. destruct t as [|x t]; [by rewrite app_nil_r in Hne|]. exists (kp ++ [x]).
      assert (Hnx : forallb name_ok (kp ++ [x]) = true) by (change (kp ++ x :: t) with (kp ++ [x] ++ t) in Hq; rewrite app_assoc in Hq; by apply names_app in Hq as [? _]).
      assert (Hpx : kp ++ [x] `prefix_of` kp ++ x :: t) by (exists t; by rewrite <- app_assoc).
      assert (Hne' : path_text (kp ++ [x]) ≠ key).
      { rewrite Hkey. intros He. apply path_text_inj in He; [|done|done]. apply (f_equal length) in He. rewrite length_app in He. simpl in He. lia. }
      assert (Hd : path_text (kp ++ [x]) ≠ "."%string).
      { change "."%string with (path_text []). intros He. apply path_text_inj in He; [by destruct kp|done|done]. }
      split; [|split; [done|split; [done|]]].
      * destruct (H4 (path_text (kp ++ [x]))) as [Hc|Hc]; [apply Hway; [by apply prefix_app_r|done]|done| |].
        -- rewrite parent_dir_path in Hc by done. apply elem_of_app. left. apply Hchild. by rewrite Hkey.
        -- apply elem_of_app. right. by apply elem_of_cons in Hc as [?|?].
      * intros r Hr1 Hr2. rewrite lookup_delete_ne; [apply Hway; [etrans; [|exact Hr1]; by apply prefix_app_r|done]|].
        rewrite Hkey. intros He. apply path_text_inj in He; [|done|destruct Hr2 as [u Hu]; rewrite Hu in Hq; by apply names_app in Hq as [? _]].
        subst r. apply prefix_length in Hr1. rewrite length_app in Hr1. simpl in Hr1. lia.
    + exists ps. split; [apply elem_of_app; by right|]. split; [done|]. split; [done|]. intros r Hr1 Hr2.
      rewrite lookup_delete_ne; [by apply Hw|]. intros He. by apply (Hout r Hr1 Hr2).
Qed.

Lemma removing_ends fuel pending fs : removing pending fs → (length pending + index_total (ig_children fs) ≤ fuel)%nat →
  ∃ fs', remove_loop fuel pending fs = Some fs' ∧ removing [] fs' ∧ ig_next fs' = ig_next fs.
Proof.
  revert pending fs. induction fuel as [|fuel IH]; intros pending fs Hr Hf.
  - destruct pending; [|simpl in Hf; lia]. by exists fs.
  - destruct pending as [|key pending]; [by exists fs|]. cbn [remove_loop].
    destruct (IH (child_names fs key ++ pending) (remove_entry key fs)) as (fs' & H1 & H2 & H3).
    + by apply removing_step.
    + pose proof (remove_entry_total key fs) as Ht. rewrite length_app. unfold child_names. fold (child_set (ig_children fs) key).
      assert (length (elements (child_set (ig_children fs) key)) = size (child_set (ig_children fs) key)) by done. simpl in Hf. lia.
    + exists fs'. split; [done|]. split; [done|]. by rewrite H3, remove_entry_next.
Qed.

End Removing.

Lemma doomed_down top children_only ps qs : forallb name_ok qs = true → ps `prefix_of` qs →
  doomed top children_only (path_text ps) → doomed top children_only (path_text qs).
Proof.
  intros Hq Hp [Hc Hne]. assert (Hn : forallb name_ok ps = true) by (destruct Hp as [t ->]; by apply names_app in Hq as [? _]).
  destruct (covers_odd _ _ Hn Hc) as (tp & Ht & ->). apply covers_path in Hc; [|done|done]. split.
  - apply covers_path; [done|done|by etrans].
  - intros Hb He. apply path_text_inj in He as ->; [|done|done]. apply (Hne Hb). f_equal. by apply (anti_symm prefix).
Qed.

Lemma children_of fs tp c : index_ok fs → c ∈ child_set (ig_children fs) (path_text tp) → forallb name_ok tp = true →
  ∃ x, forallb name_ok (tp ++ [x]) = true ∧ c = path_text (tp ++ [x]).
Proof.
  intros [H1 H2 _] Hc Ht. apply H2 in Hc as ([i Hi] & Hd & Hp).
  destruct (child_below c (path_text tp) (H1 _ _ Hi) Hd Hp) as (ps & x & Hn & -> & He).
  apply path_text_inj in He as <-; [by exists x|done|by apply names_app in Hn as [? _]].
Qed.

Lemma removing_starts fs tp children_only : let top := path_text tp in
  index_ok fs → tree_ok (ig_entries fs) → forallb name_ok tp = true →
  removing (ig_entries fs) top children_only (child_names fs top ++ (if children_only then [] else [top]))
    (fs <| ig_children := delete top (ig_children fs) |>).
Proof.
  intros top Hok Ht Htp. pose proof Hok as [H1 H2 H3].
  assert (Hcs : ∀ p, child_set (delete top (ig_children fs)) p = if decide (p = top) then ∅ else child_set (ig_children fs) p).
  { intros p. unfold child_set. destruct (decide (p = top)) as [->|Hp]; [by rewrite lookup_delete_eq|by rewrite lookup_delete_ne]. }
  assert (Hchild : ∀ c, c ∈ child_names fs top ↔ c ∈ child_set (ig_children fs) top) by (intros c; unfold child_names; by rewrite elem_of_elements).
  split; simpl.
  - done.
  - intros c i Hc. by rewrite Hc.
  - intros p c. rewrite Hcs. destruct (decide (p = top)); [set_solver|]. apply H2.
  - intros c Hc Hd. rewrite Hcs. assert (Hin : c ∈ child_set (ig_children fs) (parent_dir c)) by by apply H2.
    destruct (decide (parent_dir c = top)) as [He|]; [right|by left]. apply elem_of_app. left. apply Hchild. by rewrite <- He.
  - intros p s [_ Hs]%lookup_delete_Some. by eapply H3.
  - intros k [Hk|Hk]%elem_of_app.
    + apply Hchild in Hk. destruct (children_of fs tp k Hok Hk Htp) as (x & Hx & ->). exists (tp ++ [x]). split; [done|]. split; [done|].
      split; [apply covers_path; [done|done|by apply prefix_app_r]|]. intros _ He. apply path_text_inj in He; [|done|done].
      apply (f_equal length) in He. rewrite length_app in He. simpl in He. lia.
    + destruct children_only; [by apply elem_of_nil in Hk|]. apply list_elem_of_singleton in Hk as ->. exists tp. split; [done|]. split; [done|].
      split; [by apply covers_path|done].
  - intros qs Hq Hin [Hc Hne]. apply covers_path in Hc; [|done|done]. destruct (decide (qs = tp)) as [->|Hqt].
    + exists tp. split; [|split; [done|split; [done|]]].
      * apply elem_of_app. right. destruct children_only; [by destruct (Hne eq_refl)|by left].
      * intros r Hr1 Hr2. by rewrite (anti_symm prefix r tp Hr2 Hr1).
    + destruct Hc as [t ->]. destruct t as [|x t]; [by rewrite app_nil_r in Hqt|]. exists (tp ++ [x]).
      assert (Hpx : tp ++ [x] `prefix_of` tp ++ x :: t) by (exists t; by rewrite <- app_assoc).
      assert (Hnx : forallb name_ok (tp ++ [x]) = true) by (destruct Hpx as [u Hu]; rewrite Hu in Hq; by apply names_app in Hq as [? _]).
      assert (Hway : way_in (ig_entries fs) (tp ++ [x]) (tp ++ x :: t)) by (apply tree_way; [done|done|done|done|by destruct tp]).
      split; [|split; [done|split; [done|done]]].
      apply elem_of_app. left. apply Hchild, H2. split; [by apply Hway|]. split.
      * change "."%string with (path_text []). intros He. apply path_text_inj in He; [by destruct tp|done|done].
      * by apply parent_dir_path.
Qed.

Lemma remove_odd fs name children_only : index_ok fs → (¬ ∃ ps, forallb name_ok ps = true ∧ name = path_text ps) →
  remove_tree name children_only fs = fs.
Proof.
  intros [H1 H2 H3] Hodd.
  assert (Hnone : ig_children fs !! name = None).
  { destruct (ig_children fs !! name) as [s|] eqn:E; [exfalso|done]. destruct (set_choose_L s (H3 _ _ E)) as [c Hc].
    specialize (H2 name c). rewrite E in H2. destruct (proj1 H2 Hc) as ([i Hi] & Hd & Hp).
    destruct (child_below c name (H1 _ _ Hi) Hd Hp) as (ps & x & Hn & _ & ->). apply Hodd. exists ps. split; [|done]. by apply names_app in Hn as [? _]. }
  assert (He : ig_entries fs !! name = None).
  { destruct (ig_entries fs !! name) as [i|] eqn:E; [|done]. exfalso. by apply Hodd, clean_parts, (H1 _ _ E). }
  assert (Hfs : (fs <| ig_children := delete name (ig_children fs) |>) = fs) by (destruct fs; simpl in *; unfold update; simpl; by rewrite delete_id).
  unfold remove_tree, child_names. rewrite Hfs, Hnone. simpl.
  change (elements ∅) with (@nil string). unfold remove_fuel. destruct children_only; simpl; [done|]. unfold child_names. rewrite Hnone. simpl.
  assert (Hre : remove_entry name fs = fs); [|by rewrite Hre; destruct (map_fold _ _ _)].
  unfold remove_entry. cbv zeta. rewrite Hfs.
  assert (Hfe : (fs <| ig_entries := delete name (ig_entries fs) |>) = fs) by (destruct fs; simpl in *; unfold update; simpl; by rewrite delete_id).
  rewrite Hfe. case_bool_decide as Hs; [done|].
  assert (Hself : default ∅ (ig_children fs !! parent_dir name) ∖ {[name]} = default ∅ (ig_children fs !! parent_dir name)).
  { apply set_eq. intros c. rewrite elem_of_difference, elem_of_singleton. split; [by intros [? _]|]. intros Hc. split; [done|]. intros ->.
    apply H2 in Hc as ([i Hi] & _ & _). by rewrite He in Hi. }
  rewrite Hself, bool_decide_false by done. destruct (ig_children fs !! parent_dir name) as [s|] eqn:E; [|done]. simpl.
  destruct fs; simpl in *; unfold update; simpl. by rewrite insert_id.
Qed.

Lemma removed fs fs' top children_only : image_ok fs → removing (ig_entries fs) top children_only [] fs' → ig_next fs' = ig_next fs →
  ig_entries fs' = filter (λ x, ¬ doomed top children_only x.1) (ig_entries fs) ∧ image_ok fs'.
Proof.
  intros [[H1 H2 H3] Ht [I1 I2 I3]] [R1 R2 R3 R4 R5 R6 R7] Hnext.
  assert (He : ig_entries fs' = filter (λ x, ¬ doomed top children_only x.1) (ig_entries fs)).
  { apply map_eq. intros c. apply option_eq. intros i. rewrite map_lookup_filter_Some. simpl. split.
    - intros Hc. split; [by apply R1|]. intros Hd. destruct (clean_parts c (H1 _ _ (R1 _ _ Hc))) as (qs & Hq & ->).
      destruct (R7 qs Hq ltac:(by eexists) Hd) as (ps & Hps & _). by apply elem_of_nil in Hps.
    - intros [Hc Hd]. destruct (ig_entries fs' !! c) as [j|] eqn:E; [apply R1 in E; congruence|]. by destruct (Hd (R2 _ _ Hc E)). }
  split; [done|]. split; [split| |split].
  - intros c i Hc. by eapply H1, R1.
  - intros p c. split; [apply R3|]. intros (Hc & Hd & <-). by destruct (R4 c Hc Hd) as [?|?%elem_of_nil].
  - done.
  - intros c i Hc ps x Hx -> Hps. rewrite He in Hc. apply map_lookup_filter_Some in Hc as [Hc Hd].
    destruct (Ht _ _ Hc ps x Hx eq_refl Hps) as (d & Hl & Hdd). exists d. split; [|done]. rewrite He. apply map_lookup_filter_Some.
    split; [done|]. simpl in *. intros Hdm. apply Hd. eapply doomed_down; [done| |done]. by apply prefix_app_r.
  - intros c i Hc. rewrite Hnext. by eapply I1, R1.
  - intros n m i j Hi Hj. apply R1 in Hi, Hj. by apply I2.
  - intros c i Hc. by eapply I3, R1.
Qed.

Lemma remove_scan fs name children_only : image_ok fs →
  ig_entries (remove_tree name children_only fs) = filter (λ x, ¬ doomed name children_only x.1) (ig_entries fs) ∧
  image_ok (remove_tree name children_only fs).
Proof.
  intros [Hi Ht Hn]. assert (Hcase : (∃ ps, forallb name_ok ps = true ∧ name = path_text ps) ∨ ¬ ∃ ps, forallb name_ok ps = true ∧ name = path_text ps).
  { destruct (decide (forallb name_ok (parts_of name) = true ∧ name = path_text (parts_of name))) as [H|H]; [left; by eexists|right].
    intros (ps & Hps & ->). rewrite parts_of_path in H by done. naive_solver. }
  destruct Hcase as [(tp & Htp & ->)|Hodd].
  - destruct (removing_ends (ig_entries fs) (path_text tp) children_only (ix_clean fs Hi) (doomed_down _ _) (remove_fuel fs) _ _
      (removing_starts fs tp children_only Hi Ht Htp)) as (fs' & Hl & Hr & Hnext).
    + unfold remove_fuel. fold (index_total (ig_children fs)). simpl. rewrite <- (index_total_delete (ig_children fs) (path_text tp)), length_app.
      unfold child_names. fold (child_set (ig_children fs) (path_text tp)).
      assert (length (elements (child_set (ig_children fs) (path_text tp))) = size (child_set (ig_children fs) (path_text tp))) by done.
      destruct children_only; simpl; lia.
    + unfold remove_tree. rewrite Hl. by apply removed.
  - rewrite remove_odd by done. split; [|done]. apply map_eq. intros c. apply option_eq. intros i. rewrite map_lookup_filter_Some. simpl.
    split; [|by intros [? _]]. intros Hc. split; [done|]. intros [Hd _].
    destruct (clean_parts c (ix_clean fs Hi _ _ Hc)) as (qs & Hq & ->). by apply Hodd, (covers_odd name qs).
Qed.

(** * Adding members *)

Lemma elem_of_parents ps c : forallb name_ok ps = true →
  c ∈ parents_of (path_text ps) ↔ ∃ q x r, ps = q ++ x :: r ∧ q ≠ [] ∧ c = path_text q.
Proof.
  intros Hps. rewrite parents_of_path by done. rewrite list_elem_of_In, in_map_iff. split.
  - intros (q & <- & Hq%list_elem_of_In). assert (Hq' : q ∈ proper_prefixes ps ∧ q ≠ []).
    { unfold proper_prefixes in *. destruct ps as [|p ps]; [by apply elem_of_nil in Hq|]. simpl in Hq.
      rewrite drop_0 in Hq. split; [by right|]. apply list_elem_of_In, in_map_iff in Hq as (n & <- & Hn%in_seq). destruct n; [lia|]. done. }
    destruct Hq' as [(r & Hr & ->)%elem_of_proper_prefixes Hne]. destruct r as [|x r]; [done|]. by exists q, x, r.
  - intros (q & x & r & -> & Hq & ->). exists q. split; [done|]. apply list_elem_of_In.
    assert (Hin : q ∈ proper_prefixes (q ++ x :: r)) by (apply elem_of_proper_prefixes; by exists (x :: r)).
    unfold proper_prefixes in *. destruct (q ++ x :: r) as [|p l] eqn:E; [by destruct q|]. simpl in Hin.
    apply elem_of_cons in Hin as [->|Hin]; [done|]. simpl. by rewrite drop_0.
Qed.

(** The parents of the parents come first. *)
Lemma parents_snoc ps x : forallb name_ok (ps ++ [x]) = true →
  parents_of (path_text (ps ++ [x])) = match ps with [] => [] | _ => parents_of (path_text ps) ++ [path_text ps] end.
Proof.
  intros Hn. pose proof Hn as [Hp _]%names_app. rewrite !parents_of_path by done. unfold proper_prefixes. rewrite length_app. simpl.
  rewrite Nat.add_1_r, seq_S, !map_app. simpl. rewrite take_app_length. destruct ps as [|p ps]; [done|]. simpl length.
  rewrite drop_app_le by (rewrite length_map, length_seq; lia). rewrite map_app. f_equal. f_equal. f_equal.
  apply map_ext_in. intros n Hin%in_seq. rewrite take_app_le; [done|]. simpl in *. lia.
Qed.

(** What [parents] does to the tree *)
Record grown (fs fs' : image_fs) : Prop := Grown {
  gr_kept : ∀ c i, ig_entries fs !! c = Some i → ig_entries fs' !! c = Some i;
  gr_new : ∀ c i, ig_entries fs' !! c = Some i → ig_entries fs !! c = Some i ∨ (ig_entries fs !! c = None ∧ li_info i = plain_dir c) }.

Lemma parent_neq ps c : forallb name_ok ps = true → c ∈ parents_of (path_text ps) → c ≠ path_text ps.
Proof.
  intros Hps (q & x & r & Hq & _ & ->)%elem_of_parents He; [|done]. pose proof Hps as Hn. rewrite Hq in Hn. apply names_app in Hn as [Hn _].
  apply path_text_inj in He as He'; [|done|done]. rewrite Hq in He'. apply (f_equal length) in He'. rewrite length_app in He'. simpl in He'. lia.
Qed.

Lemma grown_refl fs : grown fs fs.
Proof. split; auto. Qed.

Lemma grown_trans a b c : grown a b → grown b c → grown a c.
Proof.
  intros [A1 A2] [B1 B2]. split; [auto|]. intros n i Hi. destruct (B2 _ _ Hi) as [Hb|[Hb Hk]]; [auto|right]. split; [|done].
  destruct (ig_entries a !! n) as [j|] eqn:E; [|done]. by rewrite (A1 _ _ E) in Hb.
Qed.

Lemma make_parents_list fs ps fs' : image_ok fs → forallb name_ok ps = true → clean (path_text ps) →
  res_fold make_parent fs (parents_of (path_text ps)) = Ok fs' →
  image_ok fs' ∧ grown fs fs' ∧ in_directory (ig_entries fs') (path_text ps) ∧
  ∀ c, c ∉ parents_of (path_text ps) → ig_entries fs' !! c = ig_entries fs !! c.
Proof.
  intros Hok. revert fs'. induction ps as [|x ps IH] using rev_ind; intros fs' Hn Hc.
  { intros [= <-]. split; [done|]. split; [apply grown_refl|]. split; [|done]. intros qs y Hq He. apply path_text_inj in He; [by destruct qs|done|done]. }
  pose proof Hn as [Hp _]%names_app. rewrite parents_snoc by done. destruct (decide (ps = [])) as [->|Hne].
  { intros [= <-]. split; [done|]. split; [apply grown_refl|]. split; [|done]. intros qs y Hq He Hqs. apply path_text_inj in He; [|done|done].
    apply (app_inj_tail []) in He as [<- _]. done. }
  assert (Hmatch : match ps with [] => [] | _ :: _ => parents_of (path_text ps) ++ [path_text ps] end = parents_of (path_text ps) ++ [path_text ps]) by by destruct ps.
  rewrite Hmatch. clear Hmatch. rewrite res_fold_app. intros (fs1 & H1 & H2)%bind_ok. cbn [res_fold] in H2. apply bind_ok in H2 as (fs2 & H2 & [= ->]).
  destruct (IH fs1 Hp ltac:(by eapply clean_prefix) H1) as (Hok1 & Hg & Hin & Hout).
  assert (Hdir : ∀ es d, es !! path_text ps = Some d → is_dir_inode d = true → in_directory es (path_text (ps ++ [x]))).
  { intros es d Hd Hdd qs y Hq He Hqs. apply path_text_inj in He; [|done|done]. apply app_inj_tail in He as [<- _]. by exists d. }
  unfold make_parent in H2. set (dir := path_text ps) in *. destruct (ig_entries fs1 !! dir) as [d|] eqn:Ed.
  - destruct (is_dir_inode d) eqn:Edd; [|done]. injection H2 as ->. split; [done|]. split; [done|]. split; [by eapply Hdir|].
    intros c Hc'. apply Hout. intros Hin'. apply Hc', elem_of_app. by left.
  - injection H2 as <-. assert (Hok2 : image_ok (put_new (path_text ps) (plain_dir (path_text ps)) fs1)).
    { apply put_new_ok; try done; [by eapply clean_prefix|]. split; [done|by left]. }
    split; [done|]. split.
    + eapply grown_trans; [done|]. split; intros c i; rewrite entries_put_new.
      * intros Hi. rewrite lookup_insert_ne; [done|]. intros ->. congruence.
      * intros [[<- <-]|[_ Hi]]%lookup_insert_Some; [by right|by left].
    + split; [eapply Hdir; [rewrite entries_put_new; apply lookup_insert_eq|done]|]. intros c Hc'. rewrite entries_put_new, lookup_insert_ne.
      * apply Hout. intros Hin'. apply Hc', elem_of_app. by left.
      * intros <-. apply Hc', elem_of_app. right. by left.
Qed.

Lemma make_parents_ok fs ps fs' : image_ok fs → forallb name_ok ps = true → make_parents fs (path_text ps) = Ok fs' →
  image_ok fs' ∧ grown fs fs' ∧ in_directory (ig_entries fs') (path_text ps) ∧
  ig_entries fs' !! path_text ps = ig_entries fs !! path_text ps ∧ clean (path_text ps).
Proof.
  intros Hok Hn (s & Hs & Hm)%bind_ok. pose proof (image_path_own ps s Hn Hs) as [-> Hc].
  destruct (make_parents_list fs ps fs' Hok Hn Hc Hm) as (H1 & H2 & H3 & H4). split; [done|]. split; [done|]. split; [done|]. split; [|done].
  apply H4. intros Hin. by apply (parent_neq ps _ Hn Hin).
Qed.

Lemma make_room_ok fs name m : image_ok fs → image_ok (make_room name m fs) ∧
  ∀ d, ig_entries (make_room name m fs) !! name = Some d → is_dir_inode d = true ∧ tm_kind m = TDir.
Proof.
  intros Hok. unfold make_room. destruct (ig_entries fs !! name) as [p|] eqn:E.
  - destruct (is_dir_inode p && bool_decide (tm_kind m = TDir)) eqn:Ed.
    + split; [done|]. intros d Hd. assert (d = p) as -> by congruence. apply andb_true_iff in Ed as [Ed ?%bool_decide_eq_true]. done.
    + destruct (remove_scan fs name false Hok) as [He Hok']. split; [done|]. intros d. rewrite He. intros [_ Hn]%map_lookup_filter_Some.
      destruct Hn. split; [|done]. unfold covers. by rewrite bool_decide_true.
  - split; [done|]. intros d Hd. congruence.
Qed.

Lemma whiteout_ok fs x fs' : image_ok fs → apply_whiteout fs x = Ok fs' → image_ok fs'.
Proof.
  intros Hok. unfold apply_whiteout. destruct (negb _); [by intros [= <-]|]. intros (parent & _ & H)%bind_ok.
  destruct (bool_decide _); injection H as <-; by apply remove_scan.
Qed.

(** Links that wait have names that [path] accepts. *)
Definition pending_ok (pending : list (string * string)) : Prop := ∀ x, x ∈ pending → clean x.1.

Lemma add_member_ok prefix st x st' : image_ok st.1 → pending_ok st.2 → add_member prefix st x = Ok st' → image_ok st'.1 ∧ pending_ok st'.2.
Proof.
  intros Hok Hp. unfold add_member. destruct (is_whiteout x.2); [by intros [= <-]|]. destruct st as [fs pending]. simpl in *.
  intros (u1 & Hs%raise_if_ok & H)%bind_ok. apply bind_ok in H as (u2 & Ho%raise_if_ok%bool_decide_eq_false & H).
  apply bind_ok in H as (name & (ps & -> & Hn & _)%image_resolve_ok & H). apply bind_ok in H as (fs1 & Hm & H).
  set (m := x.1) in *. destruct (make_room_ok fs (path_text ps) m Hok) as [Hr1 Hr2].
  destruct (make_parents_ok _ ps fs1 Hr1 Hn Hm) as (Hok1 & _ & Hin & Hsame & Hc). rewrite <- Hsame in Hr2.
  case_bool_decide as Hk.
  - apply bind_ok in H as (t1 & _ & H). apply bind_ok in H as (target & _ & H).
    destruct (ig_entries fs1 !! target) as [inode|] eqn:Et.
    + apply bind_ok in H as (u3 & Hreg%raise_if_ok%negb_false_iff & [= <-]). split; [|done]. simpl. apply put_old_ok; [done|done| |by eexists|done].
      split; [done|right]. intros d Hd. apply Hr2 in Hd as [_ Hd]. congruence.
    + injection H as <-. split; [done|]. intros y [Hy|Hy%list_elem_of_singleton]%elem_of_app; [by apply Hp|by subst y].
  - injection H as <-. split; [|done]. simpl. apply put_new_ok; [done|done| |done|done|done]. split; [done|].
    case_bool_decide as Hd; [by left|right]. intros d Hl. apply Hr2 in Hl as [_ Hl]. done.
Qed.


(** * Links that waited *)

(** Each waiting link still has its place: its parents are directories, no directory is there. *)
Definition places_ok (entries : gmap string layer_inode) (pending : list (string * string)) : Prop :=
  ∀ x, x ∈ pending → fits entries x.1 false.

Lemma link_one_ok fs w x fs' w' : image_ok fs → pending_ok [x] → fits (ig_entries fs) x.1 false →
  link_one (fs, w) x = Ok (fs', w') → image_ok fs' ∧ (w' = w ∨ w' = w ++ [x]) ∧
  ∀ n, fits (ig_entries fs) n false → fits (ig_entries fs') n false.
Proof.
  intros Hok Hp Hf. unfold link_one. destruct (ig_entries fs !! x.2) as [inode|] eqn:E; [|intros [= <- <-]; auto].
  intros (u & Hr%raise_if_ok%negb_false_iff & [= <- <-])%bind_ok. assert (Hx : clean x.1) by (apply Hp; by left).
  split; [apply put_old_ok; [done|done|done|by eexists|done]|]. split; [by left|]. intros n [Hin Hd]. rewrite entries_put. split.
  - intros ps y Hn He Hps. destruct (Hin ps y Hn He Hps) as (d & Hl & Hdd). exists d. split; [|done]. rewrite lookup_insert_ne; [done|].
    intros Heq. rewrite <- Heq in Hl. destruct Hf as [_ [?|Hf]]; [done|]. by rewrite (Hf d Hl) in Hdd.
  - right. intros d [[<- <-]|[_ Hl]]%lookup_insert_Some; [|destruct Hd as [?|Hd]; [done|by apply Hd]].
    unfold is_reg_inode in Hr. apply bool_decide_eq_true in Hr. unfold is_dir_inode. by rewrite Hr.
Qed.

Lemma link_fold_ok pending fs w st : image_ok fs → pending_ok pending → places_ok (ig_entries fs) pending → places_ok (ig_entries fs) w →
  res_fold link_one (fs, w) pending = Ok st →
  image_ok st.1 ∧ places_ok (ig_entries st.1) st.2 ∧ (∃ v, st.2 = w ++ v ∧ v ⊆ pending) ∧ (length st.2 ≤ length w + length pending)%nat.
Proof.
  revert fs w. induction pending as [|x pending IH]; intros fs w Hok Hp Hpl Hw; cbn [res_fold].
  - intros [= <-]. simpl. rewrite Nat.add_0_r. split; [done|]. split; [done|]. split; [|done]. exists []. by rewrite app_nil_r.
  - intros ([fs1 w1] & H1 & H2)%bind_ok.
    assert (Hp1 : pending_ok [x]) by (intros y ->%list_elem_of_singleton; apply Hp; by left).
    assert (Hpr : pending_ok pending) by (intros y Hy; apply Hp; by right).
    destruct (link_one_ok fs w x fs1 w1 Hok Hp1 (Hpl x ltac:(by left)) H1) as (Hok1 & Hcase & Hfit).
    assert (Hplr : places_ok (ig_entries fs1) pending) by (intros y Hy; apply Hfit, Hpl; by right).
    destruct (IH fs1 w1 Hok1 Hpr Hplr) with (2 := H2) as (G1 & G2 & (v & G3 & G4) & G5).
    + intros y Hy. apply Hfit. destruct Hcase as [->| ->]; [by apply Hw|]. apply elem_of_app in Hy as [Hy|Hy%list_elem_of_singleton]; [by apply Hw|].
      subst y. apply Hpl. by left.
    + split; [done|]. split; [done|]. destruct Hcase as [->| ->].
      * split; [|simpl; lia]. exists v. split; [done|]. intros y Hy. right. auto.
      * rewrite length_app in G5. simpl in *. split; [|lia]. exists (x :: v). rewrite G3, <- app_assoc. split; [done|].
        intros y [->|Hy]%elem_of_cons; [by left|right; auto].
Qed.

Lemma link_rounds_ok fuel pending fs fs' : image_ok fs → pending_ok pending → places_ok (ig_entries fs) pending →
  link_rounds fuel pending fs = Ok fs' → image_ok fs'.
Proof.
  revert pending fs. induction fuel as [|fuel IH]; intros pending fs Hok Hp Hpl; destruct pending as [|x pending]; try (by intros [= <-]).
  cbn [link_rounds]. intros (st & Hst & H)%bind_ok. destruct (length st.2 =? length (x :: pending))%nat; [done|].
  destruct (link_fold_ok (x :: pending) fs [] st Hok Hp Hpl ltac:(intros y Hy; by apply elem_of_nil in Hy) Hst) as (G1 & G2 & (v & G3 & G4) & _).
  apply (IH st.2 st.1); [done| |done|done]. intros y Hy. apply Hp, G4. by rewrite G3 in Hy.
Qed.

(** The turns given are enough: more of them change nothing. *)
Lemma waiting_shorter pending fs w st : res_fold link_one (fs, w) pending = Ok st → (length st.2 ≤ length w + length pending)%nat.
Proof.
  revert fs w. induction pending as [|x pending IH]; intros fs w; cbn [res_fold]; [intros [= <-]; simpl; lia|].
  intros ([fs1 w1] & H1 & H2)%bind_ok. specialize (IH _ _ H2). unfold link_one in H1. simpl.
  destruct (ig_entries fs !! x.2); [apply bind_ok in H1 as (u & _ & [= _ <-]); lia|]. injection H1 as _ <-. rewrite length_app in IH. simpl in IH. lia.
Qed.

Lemma link_rounds_enough fuel fuel' pending fs : (length pending ≤ fuel)%nat → (length pending ≤ fuel')%nat →
  link_rounds fuel pending fs = link_rounds fuel' pending fs.
Proof.
  revert fuel' pending fs. induction fuel as [|fuel IH]; intros fuel' pending fs Hf Hf'; destruct pending as [|x pending]; try (by destruct fuel'); [simpl in Hf; lia|].
  destruct fuel' as [|fuel']; [simpl in Hf'; lia|]. cbn [link_rounds]. destruct (res_fold link_one (fs, []) (x :: pending)) as [st|e] eqn:E; [|done].
  cbn [mbind res_bind]. destruct (length st.2 =? length (x :: pending))%nat eqn:El; [done|]. apply Nat.eqb_neq in El.
  apply waiting_shorter in E. simpl in *. apply IH; lia.
Qed.

(** * Images *)

(** [apply] before its last loop *)
Definition before_links (prefix : string) (members : list tar_member) (fs : image_fs) : res (image_fs * list (string * string)) :=
  names ← res_map (named prefix) members;
  fs ← res_fold apply_whiteout fs names;
  res_fold (add_member prefix) (fs, []) names.

Lemma apply_layer_links prefix members fs : apply_layer prefix members fs =
  (st ← before_links prefix members fs; link_rounds (length st.2) st.2 st.1).
Proof.
  unfold apply_layer, before_links. destruct (res_map _ _) as [names|]; [|done]. cbn [mbind res_bind].
  by destruct (res_fold apply_whiteout fs names) as [fs1|].
Qed.

(** No later member of the layer takes the place of a hard link that waits for its target. *)
Definition links_keep_places (prefix : string) (members : list tar_member) (fs : image_fs) : Prop :=
  ∀ st, before_links prefix members fs = Ok st → places_ok (ig_entries st.1) st.2.

Lemma before_links_ok prefix members fs st : image_ok fs → before_links prefix members fs = Ok st → image_ok st.1 ∧ pending_ok st.2.
Proof.
  intros Hok (names & _ & (fs1 & H1 & H2)%bind_ok)%bind_ok. assert (Hok1 : image_ok fs1).
  { clear H2. revert fs Hok H1. induction names as [|x names IH]; intros fs Hok; cbn [res_fold]; [by intros [= <-]|].
    intros (fs2 & H & Hf)%bind_ok. eapply IH; [|done]. by eapply whiteout_ok. }
  clear H1. assert (Hp : pending_ok (fs1, @nil (string * string)).2) by (intros y Hy; by apply elem_of_nil in Hy).
  change fs1 with (fs1, @nil (string * string)).1 in Hok1. revert Hok1 Hp H2. generalize (fs1, @nil (string * string)) as s.
  induction names as [|x names IH]; intros s Hs Hp; cbn [res_fold]; [by intros [= <-]|]. intros (s1 & H & Hf)%bind_ok.
  destruct (add_member_ok prefix s x s1 Hs Hp H). by apply (IH s1).
Qed.

(** An image that was merged from layers *)
Inductive merged : image_fs → Prop :=
  | merged_new : merged new_image
  | merged_layer prefix members fs fs' : merged fs → links_keep_places prefix members fs →
      apply_layer prefix members fs = Ok fs' → merged fs'.

Lemma new_image_ok : image_ok new_image.
Proof.
  split; [split| |split]; try done. intros p c. unfold new_image. simpl. rewrite lookup_empty. simpl. split; [set_solver|].
  intros ([i Hi] & _). by rewrite lookup_empty in Hi.
Qed.

Lemma merged_ok fs : merged fs → image_ok fs.
Proof.
  induction 1 as [|prefix members fs fs' _ IH Hl Ha]; [apply new_image_ok|]. rewrite apply_layer_links in Ha.
  apply bind_ok in Ha as (st & Hst & Hr). destruct (before_links_ok prefix members fs st IH Hst) as [H1 H2].
  by apply (link_rounds_ok (length st.2) st.2 st.1); [| |apply Hl|].
Qed.

(** * Reading the merged archive back *)

(** In a sorted list nothing comes before something smaller. *)
Lemma insert_by_sorted {A} (lt : A → A → bool) x l : (∀ a b, lt a b = true → lt b a = false) →
  (∀ a b c, lt b a = false → lt c b = false → lt c a = false) →
  Sorted.StronglySorted (λ a b, lt b a = false) l → Sorted.StronglySorted (λ a b, lt b a = false) (insert_by lt x l).
Proof.
  intros Has Htr. induction l as [|y l IH]; intros Hl; simpl; [by repeat constructor|]. inversion Hl as [|? ? Hl' Hy]; subst.
  destruct (lt x y) eqn:E.
  - constructor; [done|]. constructor; [by apply Has|]. eapply Forall_impl; [exact Hy|]. intros z Hz. simpl in Hz. eapply Htr; [by apply Has|done].
  - constructor; [by apply IH|]. apply Forall_forall. intros z Hz. rewrite insert_by_perm in Hz.
    apply elem_of_cons in Hz as [->|Hz]; [done|]. rewrite Forall_forall in Hy. by apply Hy.
Qed.

Lemma sort_by_sorted {A} (lt : A → A → bool) l : (∀ a b, lt a b = true → lt b a = false) →
  (∀ a b c, lt b a = false → lt c b = false → lt c a = false) → Sorted.StronglySorted (λ a b, lt b a = false) (sort_by lt l).
Proof.
  intros Has Htr. unfold sort_by. assert (H : Sorted.StronglySorted (λ a b : A, lt b a = false) []) by constructor. revert H.
  generalize (@nil A) as acc. induction l as [|x l IH]; intros acc Hacc; simpl; [done|]. by apply IH, insert_by_sorted.
Qed.

Lemma str_prefix_lt a b : b ≠ ""%string → str_ltb a (a ++ b) = true.
Proof.
  intros Hb. unfold str_ltb, String.ltb. induction a as [|c a IH]; [by destruct b|].
  change (String c a ++ b)%string with (String c (a ++ b)). cbn [String.compare].
  assert (Ascii.compare c c = Eq) as -> by (unfold Ascii.compare; apply N.compare_refl). exact IH.
Qed.

Lemma str_ltb_asym a b : str_ltb a b = true → str_ltb b a = false.
Proof. intros H. apply not_true_is_false. intros H'. pose proof (str_ltb_trans _ _ _ H H') as E. by rewrite str_ltb_irrefl in E. Qed.

Lemma str_ltb_le_trans a b c : str_ltb b a = false → str_ltb c b = false → str_ltb c a = false.
Proof.
  intros H1 H2. apply not_true_is_false. intros H3. destruct (decide (a = b)) as [->|Hne]; [congruence|].
  rewrite (str_ltb_total b a) in H1 by done. apply negb_false_iff in H1. rewrite (str_ltb_trans _ _ _ H3 H1) in H2. done.
Qed.

(** The entries before one in the archive: the directories above it are there. *)
Lemma sorted_entries_perm fs : sorted_entries fs ≡ₚ map_to_list (ig_entries fs).
Proof. apply sort_by_perm. Qed.

Lemma elem_of_sorted fs n i : (n, i) ∈ sorted_entries fs ↔ ig_entries fs !! n = Some i.
Proof. by rewrite sorted_entries_perm, elem_of_map_to_list. Qed.

Lemma sorted_keys fs : NoDup (sorted_entries fs).*1.
Proof. rewrite sorted_entries_perm. apply NoDup_fst_map_to_list. Qed.

Lemma parent_before fs l1 n i l2 p d : sorted_entries fs = l1 ++ (n, i) :: l2 → ig_entries fs !! p = Some d → str_ltb p n = true → (p, d) ∈ l1.
Proof.
  intros Hl Hp Hlt. apply elem_of_sorted in Hp. rewrite Hl in Hp. apply elem_of_app in Hp as [?|[[= -> ->]|Hp]%elem_of_cons]; [done|by rewrite str_ltb_irrefl in Hlt|].
  exfalso. assert (Hs : Sorted.StronglySorted (λ a b : string * layer_inode, str_ltb b.1 a.1 = false) (sorted_entries fs)).
  { apply sort_by_sorted; [intros ? ?; apply str_ltb_asym|intros ? ? ?; apply str_ltb_le_trans]. }
  rewrite Hl in Hs. apply StronglySorted_app_1_r in Hs. inversion Hs as [|? ? _ Hf]; subst. rewrite Forall_forall in Hf. specialize (Hf _ Hp). simpl in Hf. congruence.
Qed.

Lemma path_text_lt ps x : ps ≠ [] → str_ltb (path_text ps) (path_text (ps ++ [x])) = true.
Proof.
  intros Hps. rewrite !path_text_join by (done || by destruct ps). rewrite str_join_app by done. apply str_prefix_lt. done.
Qed.

(** Every directory above a path that is in one is there. *)
Lemma ancestors_dirs entries ps q x r : tree_ok entries → forallb name_ok ps = true → in_directory entries (path_text ps) →
  ps = q ++ x :: r → q ≠ [] → ∃ d, entries !! path_text q = Some d ∧ is_dir_inode d = true.
Proof.
  intros Ht. revert x r. induction ps as [|y ps IH] using rev_ind; intros x r Hn Hin He Hq; [by destruct q|].
  pose proof Hn as [Hp _]%names_app. destruct (decide (r = [])) as [->|Hr].
  - apply app_inj_tail in He as [-> _]. by apply (Hin q y).
  - destruct (exists_last Hr) as (r' & z & ->). assert (He' : ps ++ [y] = (q ++ x :: r') ++ [z]) by (rewrite He, <- app_assoc; done).
    apply app_inj_tail in He' as [-> _]. assert (Hne : q ++ x :: r' ≠ []) by by destruct q.
    destruct (Hin (q ++ x :: r') y Hn eq_refl Hne) as (d & Hd & _). by apply (IH x r' Hp (Ht _ _ Hd)).
Qed.

Lemma in_directory_clear entries ps : tree_ok entries → forallb name_ok ps = true → in_directory entries (path_text ps) →
  ∀ q x, ps = q ++ [x] → clear entries q.
Proof.
  intros Ht Hn Hin q x -> t Hne [u ->]. destruct (ancestors_dirs entries ((t ++ u) ++ [x]) t (default x (head u)) (match u with [] => [] | _ :: u => u ++ [x] end)) as (d & Hd & Hdd).
  - done.
  - done.
  - done.
  - destruct u; simpl; by rewrite <- ?app_assoc, ?app_nil_r.
  - done.
  - unfold link_at. rewrite Hd. unfold is_dir_inode in Hdd. apply bool_decide_eq_true in Hdd. by rewrite Hdd.
Qed.

Lemma make_parents_there fs ps : tree_ok (ig_entries fs) → forallb name_ok ps = true → clean (path_text ps) → in_directory (ig_entries fs) (path_text ps) →
  make_parents fs (path_text ps) = Ok fs.
Proof.
  intros Ht Hn Hc Hin. unfold make_parents. rewrite Hc. cbn [mbind res_bind].
  assert (Hall : ∀ c, c ∈ parents_of (path_text ps) → ∃ d, ig_entries fs !! c = Some d ∧ is_dir_inode d = true).
  { intros c (q & x & r & He & Hq & ->)%elem_of_parents; [|done]. by eapply ancestors_dirs. }
  induction (parents_of (path_text ps)) as [|c l IH]; [done|]. cbn [res_fold]. destruct (Hall c ltac:(by left)) as (d & Hd & Hdd).
  assert (make_parent fs c = Ok fs) as -> by (unfold make_parent; by rewrite Hd, Hdd). cbn [mbind res_bind]. apply IH. intros c' Hc'. apply Hall. by right.
Qed.

(** The same file: all of its header, and of a regular file its content *)
Definition same_file (a b : tar_member) : Prop :=
  tm_kind a = tm_kind b ∧ tm_link a = tm_link b ∧ tm_mode a = tm_mode b ∧ tm_meta a = tm_meta b ∧ (tm_kind a = TReg → tm_data a = tm_data b).

(** The same names, with the same files, and the same names share a file. *)
Record same_image (fs fs' : image_fs) : Prop := SameImage {
  si_names : ∀ n, is_Some (ig_entries fs !! n) ↔ is_Some (ig_entries fs' !! n);
  si_files : ∀ n i j, ig_entries fs !! n = Some i → ig_entries fs' !! n = Some j → same_file (li_info i) (li_info j);
  si_links : ∀ n m i i' j j', ig_entries fs !! n = Some i → ig_entries fs !! m = Some i' →
    ig_entries fs' !! n = Some j → ig_entries fs' !! m = Some j' → (li_id i = li_id i' ↔ li_id j = li_id j') }.

Section ReadBack.
Variable fs : image_fs.
Hypothesis fs_ok : image_ok fs.
Hypothesis no_whiteout : ∀ n, is_Some (ig_entries fs !! n) → is_whiteout n = false.

(** What was read of the entries written so far *)
Record read_back (l : list (string * layer_inode)) (emitted : gmap N string) (fs' : image_fs) : Prop := ReadBack {
  rb_ok : image_ok fs';
  rb_names : ∀ n, is_Some (ig_entries fs' !! n) ↔ n ∈ l.*1;
  rb_files : ∀ n i, (n, i) ∈ l → ∃ j, ig_entries fs' !! n = Some j ∧ same_file (li_info i) (li_info j) ∧
    (is_reg_inode i = true → ∃ first, emitted !! li_id i = Some first ∧ ig_entries fs' !! first = Some j);
  rb_emitted : ∀ k first, emitted !! k = Some first → ∃ i, (first, i) ∈ l ∧ li_id i = k ∧ is_reg_inode i = true;
  rb_links : ∀ n m i i' j, (n, i) ∈ l → (m, i') ∈ l → ig_entries fs' !! n = Some j → ig_entries fs' !! m = Some j → li_id i = li_id i' }.

Lemma add_written fs' n ps m : image_ok fs' → forallb name_ok ps = true → n = path_text ps → clean n → is_whiteout n = false →
  ig_entries fs' !! n = None → in_directory (ig_entries fs') n → tm_sparse m = false → tm_kind m ≠ TOther →
  add_member "" (fs', []) (m, n) =
    if bool_decide (tm_kind m = TLnk) then
      target ← image_path (tm_link m); target ← image_resolve fs' false target;
      match ig_entries fs' !! target with
      | None => Ok (fs', [(n, target)])
      | Some inode => _ ← raise_if (negb (is_reg_inode inode)) ValueError "image hard link must refer to a regular file"; Ok (put_inode n inode fs', [])
      end
    else Ok (put_new n m fs', []).
Proof.
  intros Hok Hn He Hc Hw Hnone Hin Hs Ho. unfold add_member. cbn [fst snd]. rewrite Hw, Hs, (bool_decide_false _ Ho).
  cbn [raise_if mbind res_bind]. pose proof (io_tree _ Hok) as Ht.
  assert (Hres : image_resolve fs' false n = Ok n).
  { subst n. apply resolve_plain; [done| |done]. by apply in_directory_clear. }
  rewrite Hres. cbn [mbind res_bind]. unfold make_room. rewrite Hnone.
  assert (make_parents fs' n = Ok fs') as -> by (subst n; by apply make_parents_there). done.
Qed.

(** The member that [write] makes of an entry *)
Definition written (n : string) (i : layer_inode) (first : option string) : tar_member :=
  match tm_kind (li_info i), first with
  | TReg, Some first => (li_info i) <| tm_name := n |> <| tm_kind := TLnk |> <| tm_link := first |> <| tm_data := [] |>
  | TReg, None => (li_info i) <| tm_name := n |>
  | _, _ => (li_info i) <| tm_name := n |> <| tm_data := [] |>
  end.

Lemma write_entry_eq emitted out n i : write_entry (emitted, out) (n, i) =
  (if is_reg_inode i && bool_decide (emitted !! li_id i = None) then <[li_id i := n]> emitted else emitted, out ++ [written n i (emitted !! li_id i)]).
Proof.
  unfold write_entry, written, is_reg_inode. cbn [fst snd]. destruct i as [id [name k link sp mode meta data]]. simpl.
  destruct k; simpl; [done|destruct (emitted !! id); [by rewrite bool_decide_false|by rewrite bool_decide_true]|done..].
Qed.

Lemma in_written_directory l1 n i l2 emitted fs' : sorted_entries fs = l1 ++ (n, i) :: l2 → read_back l1 emitted fs' → in_directory (ig_entries fs') n.
Proof.
  intros Hl Hr ps x Hx -> Hps. assert (Hi : ig_entries fs !! path_text (ps ++ [x]) = Some i) by (apply elem_of_sorted; rewrite Hl; apply elem_of_app; right; by left).
  destruct (io_tree _ fs_ok _ _ Hi ps x Hx eq_refl Hps) as (d & Hd & Hdd).
  assert (Hin : (path_text ps, d) ∈ l1) by (eapply parent_before; [done|done|by apply path_text_lt]).
  destruct (rb_files _ _ _ Hr _ _ Hin) as (j & Hj & (Hk & _) & _). exists j. split; [done|].
  unfold is_dir_inode in *. by rewrite <- Hk.
Qed.
Lemma not_yet l1 n i l2 : sorted_entries fs = l1 ++ (n, i) :: l2 → n ∉ l1.*1.
Proof.
  intros Hl. pose proof (sorted_keys fs) as Hk. rewrite Hl, fmap_app in Hk. apply NoDup_app in Hk as (_ & Hk & _).
  intros Hin. apply (Hk n Hin). by left.
Qed.

Lemma sorted_in l1 n i l2 : sorted_entries fs = l1 ++ (n, i) :: l2 → ig_entries fs !! n = Some i ∧ ∀ m k, (m, k) ∈ l1 → ig_entries fs !! m = Some k.
Proof.
  intros Hl. split; [apply elem_of_sorted; rewrite Hl; apply elem_of_app; right; by left|].
  intros m k Hin. apply elem_of_sorted. rewrite Hl. apply elem_of_app. by left.
Qed.

Lemma same_file_written n i : tm_kind (li_info i) ≠ TLnk → same_file (li_info i) (written n i None).
Proof. intros Hk. unfold same_file, written. destruct i as [id [name k link sp mode meta data]]. simpl in *. by destruct k. Qed.

(** Reading a later name of a file that was written before makes the same link. *)
Lemma read_link l1 n i l2 emitted fs' first : sorted_entries fs = l1 ++ (n, i) :: l2 → read_back l1 emitted fs' →
  is_reg_inode i = true → emitted !! li_id i = Some first →
  ∃ fs'', add_member "" (fs', []) (written n i (Some first), n) = Ok (fs'', []) ∧ read_back (l1 ++ [(n, i)]) emitted fs''.
Proof.
  intros Hl Hr Hreg Hf. pose proof (in_written_directory _ _ _ _ _ _ Hl Hr) as Hin. destruct (sorted_in _ _ _ _ Hl) as [Hi Hold].
  pose proof (ix_clean _ (io_index _ fs_ok) _ _ Hi) as Hc. destruct (clean_parts n Hc) as (ps & Hn & Hnp).
  pose proof Hr as [R1 R2 R3 R4 R5]. pose proof (not_yet _ _ _ _ Hl) as Hnot.
  assert (Hnone : ig_entries fs' !! n = None) by (destruct (ig_entries fs' !! n) eqn:E; [exfalso; apply Hnot, R2; by eexists|done]).
  destruct (R4 _ _ Hf) as (i0 & Hfi & Hid & _). destruct (in_shared _ (io_inodes _ fs_ok) _ _ _ _ (Hold _ _ Hfi) Hi Hid) as [-> _].
  destruct (R3 _ _ Hfi) as (j & Hj & Hsame & _).
  assert (Hjr : is_reg_inode j = true) by (destruct Hsame as [Hk _]; unfold is_reg_inode in *; by rewrite <- Hk).
  pose proof (ix_clean _ (io_index _ R1) _ _ Hj) as Hfc. destruct (clean_parts first Hfc) as (fp & Hfn & Hfp).
  assert (Hw : tm_kind (written n i (Some first)) = TLnk ∧ tm_link (written n i (Some first)) = first ∧ tm_sparse (written n i (Some first)) = tm_sparse (li_info i)).
  { unfold written. unfold is_reg_inode in Hreg. apply bool_decide_eq_true in Hreg. by rewrite Hreg. }
  destruct Hw as (Hw1 & Hw2 & Hw3). exists (put_inode n j fs'). split.
  - rewrite (add_written fs' n ps) by first [done | apply no_whiteout; by eexists | rewrite Hw3; by apply (in_plain _ (io_inodes _ fs_ok) _ _ Hi) | by rewrite Hw1].
    rewrite Hw1, Hw2, bool_decide_true by done. rewrite Hfc. cbn [mbind res_bind].
    assert (Hres : image_resolve fs' false first = Ok first).
    { rewrite Hfp. apply resolve_plain; [done| |done]. apply in_directory_clear; [apply (io_tree _ R1)|done|].
      rewrite <- Hfp. by apply (io_tree _ R1 _ _ Hj). }
    rewrite Hres. cbn [mbind res_bind]. by rewrite Hj, Hjr.
  - assert (Hfirst : first ≠ n) by (intros He; rewrite He in Hj; congruence).
    split.
    + apply put_old_ok; [done|done| |by eexists|done]. split; [done|right]. intros d Hd. congruence.
    + intros m. rewrite entries_put, fmap_app, elem_of_app. simpl. destruct (decide (m = n)) as [->|Hm].
      * rewrite lookup_insert_eq. split; [right; by left|by eexists].
      * rewrite lookup_insert_ne, R2 by done. split; [by left|]. by intros [?|?%list_elem_of_singleton].
    + intros m k [Hmk|[= -> ->]%list_elem_of_singleton]%elem_of_app; rewrite entries_put.
      * destruct (R3 _ _ Hmk) as (jm & Hjm & Hs & Hx). exists jm. assert (m ≠ n) by (intros ->; congruence).
        rewrite lookup_insert_ne by done. split; [done|]. split; [done|]. intros Hk. destruct (Hx Hk) as (f & Hf1 & Hf2). exists f. split; [done|].
        rewrite lookup_insert_ne; [done|]. intros <-. congruence.
      * exists j. rewrite lookup_insert_eq. split; [done|]. split; [done|]. intros _. exists first. split; [done|]. by rewrite lookup_insert_ne.
    + intros k f Hkf. destruct (R4 _ _ Hkf) as (i1 & ? & ? & ?). exists i1. split; [apply elem_of_app; by left|done].
    + assert (Hnew : ∀ m k, (m, k) ∈ l1 → <[n := j]> (ig_entries fs') !! m = Some j → li_id k = li_id i).
      { intros m k Hmk. destruct (R3 _ _ Hmk) as (jm & Hjm & _). assert (m ≠ n) by (intros ->; congruence). rewrite lookup_insert_ne by done.
        intros Hmj. by apply (R5 m first k i j). }
      intros a b ia ib ja [Ha|[= -> ->]%list_elem_of_singleton]%elem_of_app [Hb|[= -> ->]%list_elem_of_singleton]%elem_of_app; rewrite entries_put.
      * destruct (R3 _ _ Ha) as (x & Hx & _), (R3 _ _ Hb) as (y & Hy & _).
        rewrite !lookup_insert_ne by (intros ->; congruence). by apply R5.
      * rewrite lookup_insert_eq. intros Hja [= <-]. by apply (Hnew a).
      * rewrite lookup_insert_eq. intros [= <-] Hjb. symmetry. by apply (Hnew b).
      * done.
Qed.

(** Reading any other entry puts it anew. *)
Lemma read_new l1 n i l2 emitted fs' : sorted_entries fs = l1 ++ (n, i) :: l2 → read_back l1 emitted fs' →
  (is_reg_inode i = true → emitted !! li_id i = None) → let m := written n i None in
  ∃ fs'', add_member "" (fs', []) (m, n) = Ok (fs'', []) ∧
    read_back (l1 ++ [(n, i)]) (if is_reg_inode i then <[li_id i := n]> emitted else emitted) fs''.
Proof.
  intros Hl Hr Hem m. pose proof (in_written_directory _ _ _ _ _ _ Hl Hr) as Hin. destruct (sorted_in _ _ _ _ Hl) as [Hi Hold].
  pose proof (ix_clean _ (io_index _ fs_ok) _ _ Hi) as Hc. destruct (clean_parts n Hc) as (ps & Hn & Hnp).
  pose proof Hr as [R1 R2 R3 R4 R5]. pose proof (not_yet _ _ _ _ Hl) as Hnot.
  assert (Hnone : ig_entries fs' !! n = None) by (destruct (ig_entries fs' !! n) eqn:E; [exfalso; apply Hnot, R2; by eexists|done]).
  destruct (in_plain _ (io_inodes _ fs_ok) _ _ Hi) as (Hk1 & Hk2 & Hs).
  assert (Hm : tm_kind m = tm_kind (li_info i) ∧ tm_sparse m = tm_sparse (li_info i))
    by (unfold m, written; destruct i as [id [name k link sp mode meta data]]; simpl; by destruct k).
  destruct Hm as [Hm1 Hm2]. pose proof (same_file_written n i Hk1) as Hsame. fold m in Hsame. exists (put_new n m fs'). split.
  - rewrite (add_written fs' n ps) by first [done | apply no_whiteout; by eexists | congruence]. by rewrite bool_decide_false by congruence.
  - set (j := LayerInode (ig_next fs') m). assert (Hold' : ∀ a x, ig_entries fs' !! a = Some x → x ≠ j).
    { intros a x Hx ->. pose proof (in_fresh _ (io_inodes _ R1) _ _ Hx) as Hlt. simpl in Hlt. lia. }
    split.
    + apply put_new_ok; [done|done| |congruence|congruence|congruence]. split; [done|right]. intros d Hd. congruence.
    + intros a. rewrite entries_put_new, fmap_app, elem_of_app. simpl. destruct (decide (a = n)) as [->|Ha].
      * rewrite lookup_insert_eq. split; [right; by left|by eexists].
      * rewrite lookup_insert_ne, R2 by done. split; [by left|]. by intros [?|?%list_elem_of_singleton].
    + intros a k [Hak|[= -> ->]%list_elem_of_singleton]%elem_of_app; rewrite entries_put_new; fold j.
      * destruct (R3 _ _ Hak) as (ja & Hja & Hsa & Hx). exists ja. assert (a ≠ n) by (intros ->; congruence).
        rewrite lookup_insert_ne by done. split; [done|]. split; [done|]. intros Hk. destruct (Hx Hk) as (f & Hf1 & Hf2). exists f. split.
        -- destruct (is_reg_inode i) eqn:Ei; [|done]. rewrite lookup_insert_ne; [done|]. intros He. rewrite <- He, Hem in Hf1; done.
        -- rewrite lookup_insert_ne; [done|]. intros <-. congruence.
      * exists j. rewrite lookup_insert_eq. split; [done|]. split; [done|]. intros Hk. exists n. rewrite Hk, !lookup_insert_eq. done.
    + intros k f Hkf. assert (Hcase : (k = li_id i ∧ f = n ∧ is_reg_inode i = true) ∨ emitted !! k = Some f).
      { destruct (is_reg_inode i) eqn:Ei; [|by right]. apply lookup_insert_Some in Hkf as [[<- <-]|[_ Hkf]]; [by left|by right]. }
      destruct Hcase as [(-> & -> & Hreg)|Hold2]; [exists i; split; [apply elem_of_app; right; by left|done]|].
      destruct (R4 _ _ Hold2) as (i1 & ? & ? & ?). exists i1. split; [apply elem_of_app; by left|done].
    + intros a b ia ib ja [Ha|[= -> ->]%list_elem_of_singleton]%elem_of_app [Hb|[= -> ->]%list_elem_of_singleton]%elem_of_app; rewrite entries_put_new; fold j.
      * destruct (R3 _ _ Ha) as (x & Hx & _), (R3 _ _ Hb) as (y & Hy & _). rewrite !lookup_insert_ne by (intros ->; congruence). by apply R5.
      * destruct (R3 _ _ Ha) as (x & Hx & _). rewrite lookup_insert_eq, lookup_insert_ne by (intros ->; congruence). intros Hja [= <-]. by destruct (Hold' _ _ Hja).
      * destruct (R3 _ _ Hb) as (x & Hx & _). rewrite lookup_insert_eq, lookup_insert_ne by (intros ->; congruence). intros [= <-] Hjb. by destruct (Hold' _ _ Hjb).
      * done.
Qed.

(** All members of the archive so far *)
Lemma read_all l1 l2 : sorted_entries fs = l1 ++ l2 → let st := foldl write_entry (∅, []) l1 in
  map tm_name st.2 = l1.*1 ∧
  ∃ fs', res_fold (add_member "") (new_image, []) (map (λ m, (m, tm_name m)) st.2) = Ok (fs', []) ∧ read_back l1 st.1 fs'.
Proof.
  revert l2. induction l1 as [|[n i] l1 IH] using rev_ind; intros l2 Hl; cbn zeta.
  - split; [done|]. exists new_image. split; [done|]. split; [apply new_image_ok| | | |].
    + intros n. unfold new_image. simpl. rewrite lookup_empty. split; [by intros [? ?]|by intros ?%elem_of_nil].
    + by intros n i ?%elem_of_nil.
    + intros k f Hk. change ((∅ : gmap N string) !! k = Some f) in Hk. by rewrite lookup_empty in Hk.
    + by intros n m i i' j ?%elem_of_nil.
  - rewrite <- app_assoc in Hl. destruct (IH _ Hl) as (Hnames & fs1 & Hf & Hr). clear IH. rewrite foldl_app. cbn [foldl].
    destruct (foldl write_entry (∅, []) l1) as [emitted out]. cbn [fst snd] in *. rewrite write_entry_eq. cbn [fst snd].
    assert (Hname : tm_name (written n i (emitted !! li_id i)) = n).
    { unfold written. destruct i as [id [name k link sp mode meta data]]. simpl. by destruct k, (emitted !! id). }
    split; [rewrite map_app, fmap_app, Hnames; simpl; by rewrite Hname|]. rewrite map_app, res_fold_app, Hf. cbn [mbind res_bind map res_fold]. rewrite Hname.
    destruct (is_reg_inode i) eqn:Ereg; [destruct (emitted !! li_id i) as [first|] eqn:Ef|].
    + destruct (read_link l1 n i l2 emitted fs1 first Hl Hr Ereg Ef) as (fs2 & Ha & Hr2). exists fs2. rewrite Ha. split; [done|].
      rewrite bool_decide_false by done. done.
    + destruct (read_new l1 n i l2 emitted fs1 Hl Hr ltac:(done)) as (fs2 & Ha & Hr2). exists fs2. rewrite Ha. split; [done|].
      rewrite bool_decide_true by done. simpl. by rewrite Ereg in Hr2.
    + assert (Hw : written n i (emitted !! li_id i) = written n i None).
      { unfold written. unfold is_reg_inode in Ereg. apply bool_decide_eq_false in Ereg. by destruct (tm_kind (li_info i)). }
      rewrite Hw. destruct (read_new l1 n i l2 emitted fs1 Hl Hr ltac:(congruence)) as (fs2 & Ha & Hr2). exists fs2. rewrite Ha. split; [done|].
      simpl. by rewrite Ereg in Hr2.
Qed.

Lemma read_back_same emitted fs' : read_back (sorted_entries fs) emitted fs' → same_image fs fs'.
Proof.
  intros [R1 R2 R3 R4 R5]. split.
  - intros n. rewrite R2, list_elem_of_fmap. split.
    + intros [i Hi]. exists (n, i). split; [done|]. by apply elem_of_sorted.
    + intros ([n' i] & -> & Hi%elem_of_sorted). by eexists.
  - intros n i j Hi%elem_of_sorted Hj. destruct (R3 _ _ Hi) as (j' & Hj' & Hs & _). congruence.
  - intros n m i i' j j' Hi Hi' Hj Hj'. apply elem_of_sorted in Hi as Si, Hi' as Si'. split; intros Hid.
    + destruct (in_shared _ (io_inodes _ fs_ok) _ _ _ _ Hi Hi' Hid) as [<- Hreg]. destruct (decide (n = m)) as [->|Hne]; [congruence|].
      specialize (Hreg Hne). destruct (R3 _ _ Si) as (x & Hx & _ & Hfx), (R3 _ _ Si') as (y & Hy & _ & Hfy).
      destruct (Hfx Hreg) as (f & Hf1 & Hf2), (Hfy Hreg) as (g & Hg1 & Hg2). congruence.
    + destruct (in_shared _ (io_inodes _ R1) _ _ _ _ Hj Hj' Hid) as [<- _]. by eapply (R5 n m i i').
Qed.

Lemma write_read : ∃ fs', apply_layer "" (write_image fs) new_image = Ok fs' ∧ image_ok fs' ∧ same_image fs fs'.
Proof.
  destruct (read_all (sorted_entries fs) [] ltac:(by rewrite app_nil_r)) as (Hnames & fs' & Hf & Hr).
  fold (write_image fs) in *. exists fs'.
  assert (Hall : ∀ m, m ∈ write_image fs → clean (tm_name m) ∧ is_whiteout (tm_name m) = false).
  { intros m Hm. assert (Hin : tm_name m ∈ (sorted_entries fs).*1) by (rewrite <- Hnames; by apply list_elem_of_In, in_map, list_elem_of_In).
    apply list_elem_of_fmap in Hin as ([n i] & -> & Hi%elem_of_sorted). split; [by apply (ix_clean _ (io_index _ fs_ok) _ _ Hi)|apply no_whiteout; by eexists]. }
  assert (Hmap : res_map (named "") (write_image fs) = Ok (map (λ m, (m, tm_name m)) (write_image fs))).
  { clear Hf Hnames Hr. induction (write_image fs) as [|m l IH]; [done|]. cbn [res_map map]. destruct (Hall m ltac:(by left)) as [Hc _].
    assert (Hn : named "" m = Ok (m, tm_name m)) by (change (named "" m) with (name ← image_path (tm_name m); Ok (m, name)); by rewrite Hc).
    rewrite Hn. cbn [mbind res_bind]. rewrite IH; [done|]. intros x Hx. apply Hall. by right. }
  assert (Hwh : res_fold apply_whiteout new_image (map (λ m, (m, tm_name m)) (write_image fs)) = Ok new_image).
  { clear Hf Hnames Hr Hmap. induction (write_image fs) as [|m l IH]; [done|]. cbn [map res_fold]. destruct (Hall m ltac:(by left)) as [_ Hw].
    assert (Hn : apply_whiteout new_image (m, tm_name m) = Ok new_image) by (unfold apply_whiteout; cbn [snd]; by rewrite Hw).
    rewrite Hn. cbn [mbind res_bind]. apply IH. intros x Hx. apply Hall. by right. }
  split; [|split; [by eapply rb_ok|by eapply read_back_same]].
  rewrite apply_layer_links. unfold before_links. rewrite Hmap. cbn [mbind res_bind]. rewrite Hwh. cbn [mbind res_bind]. rewrite Hf. done.
Qed.
End ReadBack.

(** * The interpreter of the agent *)

(** [fs'] differs from [fs] in private names only, and has no private link. *)
Record apart (fs fs' : image_fs) : Prop := Apart {
  ap_same : ∀ n, is_private n = false → ig_entries fs' !! n = ig_entries fs !! n;
  ap_links : ∀ n i, is_private n = true → ig_entries fs' !! n = Some i → tm_kind (li_info i) ≠ TSym }.

Lemma private_parts ps : forallb name_ok ps = true → is_private (path_text ps) = true ↔ [PRIVATE] `prefix_of` ps.
Proof.
  intros Hn. rewrite <- covers_path by done. unfold is_private, covers. change (path_text [PRIVATE]) with PRIVATE.
  rewrite (bool_decide_false (PRIVATE = "."%string)) by done. rewrite orb_false_r. 
  assert (bool_decide (path_text ps = PRIVATE) = bool_decide (PRIVATE = path_text ps)) as -> by (apply bool_decide_ext; naive_solver). done.
Qed.

Lemma private_prefix ps qs : forallb name_ok qs = true → ps `prefix_of` qs → is_private (path_text ps) = true → is_private (path_text qs) = true.
Proof.
  intros Hq Hp Hi. assert (Hn : forallb name_ok ps = true) by (destruct Hp as [t ->]; by apply names_app in Hq as [? _]).
  apply private_parts in Hi; [|done]. apply private_parts; [done|by etrans].
Qed.

(** Names that an archive gets under the private directory are private. *)
Lemma private_named s name : image_path (PRIVATE ++ "/" ++ s) = Ok name → ∃ ps, forallb name_ok (PRIVATE :: ps) = true ∧ name = path_text (PRIVATE :: ps).
Proof.
  intros (ps & Hn & -> & He)%image_path_ok. unfold parts_of in He. rewrite str_split_sep in He.
  change (str_split "/"%char PRIVATE) with [PRIVATE] in He. cbn [app] in He. rewrite filter_cons, decide_True in He by done. subst ps. by eexists.
Qed.

Lemma private_resolve fs fs' ps follow : apart fs fs' → forallb name_ok (PRIVATE :: ps) = true →
  image_resolve fs' follow (path_text (PRIVATE :: ps)) = Ok (path_text (PRIVATE :: ps)).
Proof.
  intros Ha Hn. assert (Hc : clear (ig_entries fs') (PRIVATE :: ps)).
  { intros q Hq Hp. unfold link_at. destruct (ig_entries fs' !! path_text q) as [i|] eqn:E; [|done].
    assert (Hqn : forallb name_ok q = true) by (destruct Hp as [t Ht]; rewrite Ht in Hn; by apply names_app in Hn as [? _]).
    rewrite bool_decide_false; [done|]. apply (ap_links _ _ Ha (path_text q)); [|done]. apply private_parts; [done|].
    destruct Hp as [t Ht]. destruct q as [|x q]; [done|]. injection Ht as <- _. by exists q. }
  apply resolve_plain; [done| |done]. intros q x He. rewrite He in Hc. by eapply clear_prefix.
Qed.

Lemma apart_put fs fs' n i : apart fs fs' → is_private n = true → tm_kind (li_info i) ≠ TSym → apart fs (put_inode n i fs').
Proof.
  intros [H1 H2] Hn Hk. split.
  - intros m Hm. rewrite entries_put, lookup_insert_ne by (intros ->; congruence). auto.
  - intros m j Hm. rewrite entries_put. intros [[<- <-]|[_ Hj]]%lookup_insert_Some; [done|eauto].
Qed.

Lemma apart_put_new fs fs' n m : apart fs fs' → is_private n = true → tm_kind m ≠ TSym → apart fs (put_new n m fs').
Proof.
  intros H Hn Hk. unfold put_new. apply apart_put; [|done|done]. destruct H. by split.
Qed.

Lemma apart_room fs fs' ps m : image_ok fs' → apart fs fs' → forallb name_ok ps = true → is_private (path_text ps) = true →
  apart fs (make_room (path_text ps) m fs').
Proof.
  intros Hok Ha Hn Hp. unfold make_room. destruct (ig_entries fs' !! path_text ps) as [p|]; [|done]. destruct (_ && _); [done|].
  destruct (remove_scan fs' (path_text ps) false Hok) as [He _]. destruct Ha as [H1 H2]. split.
  - intros n Hnp. rewrite He, <- H1 by done. destruct (ig_entries fs' !! n) as [i|] eqn:E; [|apply map_lookup_filter_None; by left].
    apply map_lookup_filter_Some. split; [done|]. simpl. intros [Hc _].
    destruct (clean_parts n (ix_clean _ (io_index _ Hok) _ _ E)) as (qs & Hq & ->). apply covers_path in Hc; [|done|done].
    rewrite (private_prefix ps qs) in Hnp by done. done.
  - intros n i Hpn. rewrite He. intros [Hi _]%map_lookup_filter_Some. eauto.
Qed.

Lemma apart_parents fs fs' ps fs2 : image_ok fs' → apart fs fs' → forallb name_ok (PRIVATE :: ps) = true →
  make_parents fs' (path_text (PRIVATE :: ps)) = Ok fs2 → apart fs fs2.
Proof.
  intros Hok [H1 H2] Hn (s & Hs & Hm)%bind_ok. pose proof (image_path_own _ s Hn Hs) as [-> Hc].
  destruct (make_parents_list fs' _ fs2 Hok Hn Hc Hm) as (_ & [G1 G2] & _ & G4). split.
  - intros n Hnp. rewrite <- H1 by done. apply G4. intros (q & x & r & Hq & Hne & ->)%elem_of_parents; [|done].
    assert (Hqn : forallb name_ok q = true) by (rewrite Hq in Hn; by apply names_app in Hn as [? _]).
    destruct q as [|y q]; [done|]. injection Hq as <- _. assert (is_private (path_text (PRIVATE :: q)) = true); [|congruence].
    apply private_parts; [done|by exists q].
  - intros n i Hp Hi. destruct (G2 _ _ Hi) as [Hi'|[_ Hi']]; [eauto|]. by rewrite Hi'.
Qed.

(** An archive of files and directories, without whiteouts and symbolic links *)
Definition plain_archive (control : list tar_member) : Prop := ∀ m name, m ∈ control →
  image_path (PRIVATE ++ "/" ++ tm_name m) = Ok name → is_whiteout name = false ∧ tm_kind m ≠ TSym.

Definition private_pending (pending : list (string * string)) : Prop := ∀ x, x ∈ pending → is_private x.1 = true.

Lemma private_names ps : forallb name_ok (PRIVATE :: ps) = true → is_private (path_text (PRIVATE :: ps)) = true.
Proof. intros Hn. apply private_parts; [done|]. by exists ps. Qed.

Lemma apart_add fs st ps m st' : image_ok st.1 → apart fs st.1 → private_pending st.2 → forallb name_ok (PRIVATE :: ps) = true →
  is_whiteout (path_text (PRIVATE :: ps)) = false → tm_kind m ≠ TSym →
  add_member (PRIVATE ++ "/") st (m, path_text (PRIVATE :: ps)) = Ok st' → apart fs st'.1 ∧ private_pending st'.2.
Proof.
  intros Hok Ha Hp Hn Hw Hk. unfold add_member. cbn [fst snd]. rewrite Hw. destruct st as [fs1 pending]. cbn [fst snd] in *.
  intros (u1 & _ & H)%bind_ok. apply bind_ok in H as (u2 & _ & H). rewrite (private_resolve fs fs1 ps false Ha Hn) in H. cbn [mbind res_bind] in H.
  apply bind_ok in H as (fs2 & Hm & H). destruct (make_room_ok fs1 (path_text (PRIVATE :: ps)) m Hok) as [Hok1 _].
  pose proof (private_names ps Hn) as Hpn. pose proof (apart_room fs fs1 (PRIVATE :: ps) m Hok Ha Hn Hpn) as Ha1.
  pose proof (apart_parents fs _ ps fs2 Hok1 Ha1 Hn Hm) as Ha2. case_bool_decide as Hl.
  - apply bind_ok in H as (t & Ht & H). rewrite append_assoc in Ht. apply private_named in Ht as (tp & Htn & ->).
    rewrite (private_resolve fs fs2 tp false Ha2 Htn) in H. cbn [mbind res_bind] in H. revert H. set (target := path_text (PRIVATE :: tp)).
    destruct (ig_entries fs2 !! target) as [inode|] eqn:E.
    + intros (u3 & Hr%raise_if_ok%negb_false_iff & [= <-])%bind_ok. split; [|done]. apply apart_put; [done|done|].
      unfold is_reg_inode in Hr. apply bool_decide_eq_true in Hr. by rewrite Hr.
    + intros [= <-]. split; [done|]. intros y [Hy|Hy%list_elem_of_singleton]%elem_of_app; [by apply Hp|by subst y].
  - injection H as <-. split; [|done]. by apply apart_put_new.
Qed.

Lemma apart_rounds fs fuel pending fs1 fs2 : apart fs fs1 → private_pending pending → link_rounds fuel pending fs1 = Ok fs2 → apart fs fs2.
Proof.
  assert (Hfold : ∀ l fs1 w st, apart fs fs1 → private_pending l → private_pending w → res_fold link_one (fs1, w) l = Ok st → apart fs st.1 ∧ private_pending st.2).
  { induction l as [|x l IH]; intros fs3 w st Ha Hl Hw; cbn [res_fold]; [by intros [= <-]|]. intros ([fs4 w4] & H1 & H2)%bind_ok.
    assert (H : apart fs fs4 ∧ private_pending w4); [|apply (IH fs4 w4); [apply H|intros y Hy; apply Hl; by right|apply H|done]].
    unfold link_one in H1. destruct (ig_entries fs3 !! x.2) as [inode|] eqn:E.
    - apply bind_ok in H1 as (u & Hr%raise_if_ok%negb_false_iff & [= <- <-]). split; [|done]. apply apart_put; [done|apply Hl; by left|].
      unfold is_reg_inode in Hr. apply bool_decide_eq_true in Hr. by rewrite Hr.
    - injection H1 as <- <-. split; [done|]. intros y [Hy|Hy%list_elem_of_singleton]%elem_of_app; [by apply Hw|]. subst y. apply Hl. by left. }
  revert pending fs1. induction fuel as [|fuel IH]; intros pending fs1 Ha Hp; destruct pending as [|x pending]; try (by intros [= <-]).
  cbn [link_rounds]. intros (st & Hst & H)%bind_ok. destruct (length st.2 =? length (x :: pending))%nat; [done|].
  assert (Hnil : private_pending []) by (intros y Hy; by apply elem_of_nil in Hy).
  destruct (Hfold (x :: pending) fs1 [] st Ha Hp Hnil Hst) as [G1 G2]. by apply (IH st.2 st.1).
Qed.

Lemma apart_fold fs names s st : image_ok s.1 → apart fs s.1 → private_pending s.2 → pending_ok s.2 →
  (∀ x, x ∈ names → (∃ ps, forallb name_ok (PRIVATE :: ps) = true ∧ x.2 = path_text (PRIVATE :: ps)) ∧ is_whiteout x.2 = false ∧ tm_kind x.1 ≠ TSym) →
  res_fold (add_member (PRIVATE ++ "/")) s names = Ok st → apart fs st.1 ∧ private_pending st.2.
Proof.
  revert s. induction names as [|[m name] names IH]; intros s Hs Ha Hp Hpo Hall; cbn [res_fold]; [by intros [= <-]|].
  intros (s1 & H1 & Hf)%bind_ok. destruct (Hall (m, name) ltac:(by left)) as ((ps & Hn & He) & Hx & Hk). cbn [fst snd] in *. subst name.
  destruct (add_member_ok _ _ _ _ Hs Hpo H1) as [Hs1 Hpo1]. destruct (apart_add fs s ps m s1 Hs Ha Hp Hn Hx Hk H1) as [Ha1 Hp1].
  apply (IH s1); [done|done|done|done|intros y Hy; apply Hall; by right|done].
Qed.

Lemma apart_layer fs control fs' : image_ok fs → (∀ n, is_private n = true → ig_entries fs !! n = None) → plain_archive control →
  apply_layer (PRIVATE ++ "/") control fs = Ok fs' → apart fs fs'.
Proof.
  intros Hok Hno Hpl. unfold apply_layer. intros (names & Hnames & H)%bind_ok. apply bind_ok in H as (fs1 & Hw & H). apply bind_ok in H as (st & Hf & Hl).
  assert (Hall : ∀ x, x ∈ names → (∃ ps, forallb name_ok (PRIVATE :: ps) = true ∧ x.2 = path_text (PRIVATE :: ps)) ∧ is_whiteout x.2 = false ∧ tm_kind x.1 ≠ TSym).
  { clear Hw Hf Hl. revert names Hnames. induction control as [|m control IH]; intros names; cbn [res_map]; [intros [= <-] x Hx; by apply elem_of_nil in Hx|].
    intros (y & Hy & (ys & Hys & [= <-])%bind_ok)%bind_ok x [->|Hx]%elem_of_cons.
    - unfold named in Hy. apply bind_ok in Hy as (name & Hname & [= <-]). rewrite append_assoc in Hname. cbn [fst snd].
      split; [by eapply private_named|]. apply (Hpl m name); [by left|done].
    - apply (IH ltac:(intros a b Hin; apply Hpl; by right) ys Hys x Hx). }
  clear Hnames. assert (fs1 = fs) as ->.
  { clear Hf Hl. induction names as [|x names IH]; cbn [res_fold] in Hw; [by injection Hw|]. apply bind_ok in Hw as (fs2 & H2 & Hw).
    unfold apply_whiteout in H2. destruct (Hall x ltac:(by left)) as (_ & Hx & _). rewrite Hx in H2. injection H2 as <-.
    apply IH; [done|]. intros y Hy. apply Hall. by right. }
  clear Hw. assert (H0 : image_ok fs ∧ apart fs fs ∧ private_pending [] ∧ pending_ok []).
  { split; [done|]. split; [split; [done|]|split; intros y Hy; by apply elem_of_nil in Hy]. intros n i Hn Hi. by rewrite Hno in Hi. }
  assert (Hst : apart fs st.1 ∧ private_pending st.2); [|destruct Hst; by eapply apart_rounds].
  destruct H0 as (G1 & G2 & G3 & G4). by apply (apart_fold fs names (fs, []) st).
Qed.

Lemma parents_grown l fs fs' : res_fold make_parent fs l = Ok fs' → grown fs fs'.
Proof.
  revert fs. induction l as [|p l IH]; intros fs; cbn [res_fold]; [intros [= <-]; apply grown_refl|]. intros (fs1 & H1 & H2)%bind_ok.
  eapply grown_trans; [|by apply IH]. unfold make_parent in H1. destruct (ig_entries fs !! p) as [d|] eqn:E.
  - destruct (is_dir_inode d); [|done]. injection H1 as <-. apply grown_refl.
  - injection H1 as <-. split; intros c i; rewrite entries_put_new.
    + intros Hi. rewrite lookup_insert_ne; [done|]. intros ->. congruence.
    + intros [[<- <-]|[_ Hi]]%lookup_insert_Some; [by right|by left].
Qed.

(** * Properties *)




(** The agent's interpreter and the image do not mix: the image has nothing in the private
    directory, adding the interpreter changes, replaces and shadows nothing outside it, and
    the working directory only adds missing directories. *)
Theorem control_apart layers control workdir fs0 fs : res_fold (λ fs layer, apply_layer "" layer fs) new_image layers = Ok fs0 → merged fs0 →
  plain_archive control → merge_image layers control workdir = Ok fs →
  (∀ n, is_private n = true → ig_entries fs0 !! n = None) ∧
  ∀ n, is_private n = false → (∀ i, ig_entries fs0 !! n = Some i → ig_entries fs !! n = Some i) ∧
    ∀ i, ig_entries fs !! n = Some i → ig_entries fs0 !! n = Some i ∨ li_info i = plain_dir n.
Proof.
  intros H0 Hm%merged_ok Hpl. unfold merge_image. rewrite H0. cbn [mbind res_bind]. intros (u & Hu%raise_if_ok & H)%bind_ok.
  assert (Hno : ∀ n, is_private n = true → ig_entries fs0 !! n = None).
  { intros n Hn. destruct (ig_entries fs0 !! n) as [i|] eqn:E; [|done]. exfalso. apply not_true_iff_false in Hu. apply Hu, existsb_exists.
    exists (n, i). split; [by apply list_elem_of_In, elem_of_map_to_list|done]. }
  split; [done|]. apply bind_ok in H as (fs1 & H1 & H). apply bind_ok in H as (w & _ & (s & _ & H2)%bind_ok).
  destruct (apart_layer fs0 control fs1 Hm Hno Hpl H1) as [A1 _]. destruct (parents_grown _ _ _ H2) as [G1 G2].
  intros n Hn. split; intros i Hi.
  - apply G1. by rewrite A1.
  - destruct (G2 _ _ Hi) as [Hi'|[_ Hi']]; [left; by rewrite <- A1|by right].
Qed.

(** * Examples *)

Definition ex_member (name : string) (k : tar_kind) (link : string) (data : bytes) : tar_member :=
  TarMember name k link false 420 "" data.
Definition ex_file (name : string) (data : bytes) : tar_member := ex_member name TReg "" data.

Definition ex_base : list tar_member :=
  [ex_file "dir/old" [1]; ex_file "target" [3]; ex_member "alias" TLnk "target" []; ex_member "lib" TSym "/dir" []].
Definition ex_update : list tar_member := [ex_file "lib/new" [4]; ex_file "dir/.wh.old" []; ex_file ".wh.absent" []].

Definition or_new (r : res image_fs) : image_fs := match r with Ok fs => fs | Err _ => new_image end.
Definition ex_lower : image_fs := or_new (apply_layer "" ex_base new_image).
Definition ex_image : image_fs := or_new (apply_layer "" ex_update ex_lower).

(** Without waiting links nothing is asked of their places. *)
Lemma no_links_wait prefix members fs : (∀ st, before_links prefix members fs = Ok st → st.2 = []) → links_keep_places prefix members fs.
Proof. intros H st Hst x Hx. rewrite (H st Hst) in Hx. by apply elem_of_nil in Hx. Qed.

Definition waits (prefix : string) (members : list tar_member) (fs : image_fs) : bool :=
  match before_links prefix members fs with Ok st => negb (bool_decide (st.2 = [])) | Err _ => false end.

Lemma waits_not prefix members fs : waits prefix members fs = false → links_keep_places prefix members fs.
Proof.
  unfold waits. intros H. apply no_links_wait. intros st Hst. rewrite Hst in H. by apply negb_false_iff, bool_decide_eq_true in H.
Qed.

Lemma ex_lower_merged : merged ex_lower.
Proof.
  apply (merged_layer "" ex_base new_image); [constructor| |vm_compute; reflexivity]. apply waits_not. vm_compute. reflexivity.
Qed.

Lemma ex_image_merged : merged ex_image.
Proof.
  apply (merged_layer "" ex_update ex_lower); [apply ex_lower_merged| |vm_compute; reflexivity]. apply waits_not. vm_compute. reflexivity.
Qed.

(** The link [lib] is followed, the old file is gone, and the hard link still shares its file. *)
Lemma ex_written : map (λ m, (tm_name m, tm_kind m, tm_link m)) (write_image ex_image) =
  [("alias", TReg, ""); ("dir", TDir, ""); ("dir/new", TReg, ""); ("lib", TSym, "/dir"); ("target", TLnk, "alias")]%string.
Proof. vm_compute. reflexivity. Qed.




Definition ex_control : list tar_member := [ex_file "python/bin/python3.13" [7]; ex_file "python/lib/python3.13/os.py" [8]].

Lemma ex_control_plain : plain_archive ex_control.
Proof.
  intros m name Hm Hn. assert (Hall : forallb (λ m, match image_path (PRIVATE ++ "/" ++ tm_name m) with
    | Ok n => negb (is_whiteout n) && negb (bool_decide (tm_kind m = TSym)) | Err _ => true end) ex_control = true) by (vm_compute; reflexivity).
  rewrite forallb_forall in Hall. specialize (Hall m). rewrite <- list_elem_of_In in Hall. specialize (Hall Hm). rewrite Hn in Hall.
  apply andb_true_iff in Hall as [H1 H2]. split; [by apply negb_true_iff in H1|]. by apply negb_true_iff, bool_decide_eq_false in H2.
Qed.

Definition ex_merged : image_fs := or_new (merge_image [ex_base; ex_update] ex_control "/work").

Lemma control_apart_witness : ∃ i, ig_entries ex_image !! "target"%string = Some i ∧ ig_entries ex_merged !! "target"%string = Some i ∧
  is_Some (ig_entries ex_merged !! (PRIVATE ++ "/python/bin/python3.13")%string).
Proof.
  destruct (control_apart [ex_base; ex_update] ex_control "/work" ex_image ex_merged) as [_ H].
  - vm_compute. reflexivity.
  - exact ex_image_merged.
  - exact ex_control_plain.
  - vm_compute. reflexivity.
  - assert (He : is_Some (ig_entries ex_image !! "target"%string)) by (apply (bool_decide_eq_true_1 _); vm_compute; reflexivity).
    destruct He as [i Hi]. exists i. split; [exact Hi|]. split; [|apply (bool_decide_eq_true_1 _); vm_compute; reflexivity].
    destruct (H "target"%string ltac:(vm_compute; reflexivity)) as [H1 _]. by apply H1.
Defined.

(** * A defect *)

(** A hard link that waits for its target keeps the place that was found for it: when a later
    member of the layer puts a symbolic link or a file where its directory was, the link is
    made all the same, and the archive has an entry below a link. *)
Definition ex_swap : list tar_member := [ex_member "d/passwd" TLnk "late" []; ex_member "d" TSym "etc" []; ex_file "late" [1]].

Theorem links_lose_places :
  map (λ m, (tm_name m, tm_kind m)) (write_image (or_new (apply_layer "" ex_swap new_image))) =
    [("d", TSym); ("d/passwd", TReg); ("late", TLnk)]%string ∧
  ¬ image_ok (or_new (apply_layer "" ex_swap new_image)).
Proof.
  split; [vm_compute; reflexivity|]. intros [_ Ht _].
  set (fs := or_new (apply_layer "" ex_swap new_image)) in *.
  assert (He : is_Some (ig_entries fs !! "d/passwd"%string)) by (apply (bool_decide_eq_true_1 _); vm_compute; reflexivity).
  destruct He as [i Hi]. destruct (Ht _ _ Hi ["d"%string] "passwd"%string eq_refl eq_refl ltac:(discriminate)) as (d & Hd & Hdd).
  assert (Hk : (tm_kind ∘ li_info) <$> (ig_entries fs !! "d"%string) = Some TSym) by (vm_compute; reflexivity).
  change (path_text ["d"%string]) with "d"%string in Hd. rewrite Hd in Hk. injection Hk as Hk. unfold is_dir_inode in Hdd. by rewrite Hk in Hdd.
Qed.
