(* ===== verification/Compose.v ===== *)
(** Projects of several services ([benchmarks/harbor/compose.py]): the networks of a service,
    the order in which services start, what each is started with, and health checks. The
    definitions are what Docker's parser resolved; the answers of the sandboxes are arguments. *)

From S2P Require Import Prelude.
From S2P Require Import OrderedDict.
From S2P Require Import ServiceGroups.

#[local] Open Scope Z_scope.

(** * Definitions *)

Inductive depend_condition := DStarted | DHealthy | DCompleted.

#[export] Instance depend_condition_eq_dec : EqDecision depend_condition.
Proof. solve_decision. Defined.

Record dependency := Dependency { dp_required : bool; dp_condition : depend_condition }.

(** A service of the configuration; a mount is its volume and whether it is filled from the
    image. [None] is an entry that is missing. *)
Record compose_service := ComposeService {
  cs_offline : bool; cs_networks : option (list (string * list string)); cs_hostname : option string;
  cs_depends : list (string * dependency); cs_mounts : list (string * bool);
  cs_entrypoint : option (list string); cs_command : option (list string) }.

(** The settings of its image *)
Record image_settings := ImageSettings { is_entrypoint : list string; is_cmd : list string }.

(** [sorted(set)] *)
Definition sorted_names (l : list string) : list string := sort_by str_ltb (remove_dups l).

(** [service_network] *)
Definition service_network (name : string) (s : compose_service) : attachment :=
  let networks := if cs_offline s then [] else default [("default"%string, [])] (cs_networks s) in
  let common := [name; default name (cs_hostname s)] in
  Attachment (Some networks.*1) (Some (sorted_names common))
    (Some (map (λ n, (n.1, sorted_names (common ++ n.2))) networks)).

(** * Starting *)

(** What is done with the sandboxes, in order *)
Inductive compose_event :=
  | CSetup (name : string) (mounts : list (string * bool))
  | CExec (name : string) (argv : list string)
  | CHealthy (name : string)
  | CExited (name : string) (code : Z).

Record compose_state := ComposeState {
  co_started : gset string; co_visiting : gset string; co_initialized : gset string; co_log : list compose_event }.

#[export] Instance compose_state_updatable : Updatable compose_state := λ s,
  ComposeState (co_started s) (co_visiting s) (co_initialized s) (co_log s).

(** How the sandboxes answer: the preparation of a service with its supervisor, the start of
    its process and of its watch, its health check, and the end of its process. That the
    working directory is made belongs to the preparation: whatever raises ends the start of
    the project. *)
Record sandboxes := Sandboxes {
  sb_settings : string → image_settings;
  sb_setup : string → res (list string); sb_exec : string → res ();
  sb_health : string → res (); sb_exit : string → res Z }.

(** A computation that may need more depth than it has *)
Definition started (A : Type) : Type := compose_state → option (compose_state * res A).

#[export] Instance started_ret : MRet started := λ A a s, Some (s, Ok a).
#[export] Instance started_bind : MBind started := λ A B f m s,
  match m s with
  | None => None
  | Some (s, Ok a) => f a s
  | Some (s, Err e) => Some (s, Err e)
  end.

Definition answer {A} (r : res A) : started A := λ s, Some (s, r).
Definition logged (e : compose_event) : started () := λ s, Some (s <| co_log := co_log s ++ [e] |>, Ok ()).
Definition change (f : compose_state → compose_state) : started () := λ s, Some (f s, Ok ()).

Fixpoint each {A} (f : A → started ()) (l : list A) : started () :=
  match l with [] => mret () | x :: l => _ ← f x; each f l end.

(** [volume_mounts]: a volume is filled at its first use. *)
Fixpoint volume_mounts (initialized : gset string) (l : list (string * bool)) : list (string * bool) :=
  match l with
  | [] => []
  | (name, copy) :: l => (name, copy && negb (bool_decide (name ∈ initialized))) :: volume_mounts ({[name]} ∪ initialized) l
  end.

(** [arguments] *)
Definition arguments (s : compose_service) (settings : image_settings) : list string :=
  let entrypoint := default (is_entrypoint settings) (cs_entrypoint s) in
  let command := match cs_command s with
    | Some c => c
    | None => if bool_decide (cs_entrypoint s = None) then is_cmd settings else []
    end in
  entrypoint ++ command.

Section Starting.
Variables (definitions : list (string * compose_service)) (w : sandboxes).

(** What follows the start of a dependency *)
Definition await_condition (other : string) (c : depend_condition) : started () :=
  match c with
  | DStarted => mret ()
  | DHealthy => _ ← answer (sb_health w other); logged (CHealthy other)
  | DCompleted =>
      code ← answer (sb_exit w other);
      _ ← logged (CExited other code);
      answer (raise_if (negb (code =? 0)) RuntimeError "Compose dependency failed: ")
  end.

(** The service itself, once its dependencies are there *)
Definition start_process (name : string) (s : compose_service) : started () :=
  _ ← (λ st, logged (CSetup name (volume_mounts (co_initialized st) (cs_mounts s))) st);
  _ ← change (λ st, st <| co_initialized := list_to_set (cs_mounts s).*1 ∪ co_initialized st |>);
  supervisor ← answer (sb_setup w name);
  let argv := arguments s (sb_settings w name) in
  _ ← answer (raise_if (bool_decide (argv = [])) ValueError "Compose service has no command: ");
  _ ← answer (sb_exec w name);
  _ ← logged (CExec name (supervisor ++ argv));
  change (λ st, st <| co_started := {[name]} ∪ co_started st |> <| co_visiting := co_visiting st ∖ {[name]} |>).

(** [start_service] *)
Fixpoint start_service (depth : nat) (name : string) : started () := λ st,
  match depth with
  | O => None
  | S depth =>
      if bool_decide (name ∈ co_started st) then Some (st, Ok ())
      else if bool_decide (name ∈ co_visiting st) then Some (st, raise ValueError "Compose service dependency cycle")
      else
        let st := st <| co_visiting := {[name]} ∪ co_visiting st |> in
        match od_get name definitions with
        | None => Some (st, raise KeyError name)
        | Some s =>
            (_ ← each (λ d : string * dependency,
                if negb (bool_decide (d.1 ∈ keys definitions)) && negb (dp_required d.2) then mret ()
                else _ ← start_service depth d.1; await_condition d.1 (dp_condition d.2)) (cs_depends s);
             start_process name s) st
        end
  end.

Definition compose_depth : nat := S (length definitions).

Definition new_compose : compose_state := ComposeState ∅ ∅ ∅ [].

(** The end of [start] *)
Definition start_all : started () :=
  _ ← each (start_service compose_depth) (keys definitions);
  each (λ name, _ ← answer (sb_health w name); logged (CHealthy name)) (keys definitions).

End Starting.

(** * Health checks *)

(** A probe: how long it took, and whether it returned 0. Times are in microseconds, and only
    the probes and the pauses take time; a probe that timed out returned something else. *)
Record probe := Probe { pb_time : Z; pb_ok : bool }.

Record health_check := HealthCheck { hc_interval : Z; hc_start_interval : Z; hc_retries : Z }.

(** The loop of [wait_healthy] over the probes as they turn out *)
Fixpoint health_loop (check : health_check) (deadline start_end : Z) (now failures : Z) (probes : list probe) : option (res ()) :=
  if deadline <=? now then Some (raise TimeoutError "Compose service healthcheck timed out: ")
  else
    match probes with
    | [] => None
    | p :: probes =>
        let now := now + pb_time p in
        if pb_ok p then Some (Ok ())
        else
          let starting := now <? start_end in
          let failures := if starting then failures else failures + 1 in
          if negb starting && (hc_retries check <=? failures)
          then Some (raise RuntimeError "Compose service healthcheck failed: ")
          else
            let interval := if starting then hc_start_interval check else hc_interval check in
            health_loop check deadline start_end (now + Z.min interval (Z.max 0 (deadline - now))) failures probes
    end.

(** * The order of starts *)

Lemma started_bind_some {A B} (m : started A) (f : A → started B) st st' r : (m ≫= f) st = Some (st', r) →
  (∃ st1 a, m st = Some (st1, Ok a) ∧ f a st1 = Some (st', r)) ∨ (∃ e, m st = Some (st', Err e) ∧ r = Err e).
Proof.
  unfold mbind, started_bind. destruct (m st) as [[st1 [a|e]]|] eqn:E; [left; by exists st1, a| |done].
  intros [= <- <-]. right. by exists e.
Qed.

(** Both ways of a sequence: the second computation runs, or the first one raised. *)
Ltac bind_cases H := apply started_bind_some in H as [(?st1 & ?a & ?Hm & H)|(?e & ?Hm & ->)].

Definition is_exec (name : string) (e : compose_event) : Prop := ∃ argv, e = CExec name argv.

Definition execs (log : list compose_event) : list string := omap (λ e, match e with CExec name _ => Some name | _ => None end) log.
Definition uses (log : list compose_event) : list (string * bool) := flat_map (λ e, match e with CSetup _ mounts => mounts | _ => [] end) log.

(** The dependency is there, in the condition that was asked for. *)
Definition ready (log : list compose_event) (other : string) (c : depend_condition) : Prop :=
  other ∈ execs log ∧ match c with DStarted => True | DHealthy => CHealthy other ∈ log | DCompleted => CExited other 0 ∈ log end.

Section Order.
Variables (definitions : list (string * compose_service)) (w : sandboxes).

(** A dependency that counts *)
Definition depends_on (s : compose_service) (other : string) (d : dependency) : Prop :=
  (other, d) ∈ cs_depends s ∧ (other ∈ keys definitions ∨ dp_required d = true).

Definition ordered (log : list compose_event) : Prop := ∀ l1 name argv l2, log = l1 ++ CExec name argv :: l2 →
  ∃ s, od_get name definitions = Some s ∧ ∀ other d, depends_on s other d → ready l1 other (dp_condition d).

(** A volume is filled at its first use or never. *)
Definition filled_once (log : list compose_event) : Prop := ∀ l1 v l2, uses log = l1 ++ (v, true) :: l2 → v ∉ l1.*1.

Record start_ok (st : compose_state) : Prop := StartOk {
  so_started : ∀ n, n ∈ co_started st ↔ n ∈ execs (co_log st);
  so_once : NoDup (execs (co_log st));
  so_apart : ∀ n, n ∈ co_started st → n ∉ co_visiting st;
  so_order : ordered (co_log st);
  so_filled : filled_once (co_log st);
  so_used : ∀ v, v ∈ co_initialized st ↔ v ∈ (uses (co_log st)).*1 }.

Lemma execs_app a b : execs (a ++ b) = execs a ++ execs b.
Proof. unfold execs. apply omap_app. Qed.

Lemma uses_app a b : uses (a ++ b) = uses a ++ uses b.
Proof. unfold uses. apply flat_map_app. Qed.

Lemma ready_mono log log' other c : log `prefix_of` log' → ready log other c → ready log' other c.
Proof.
  intros [t ->] [H1 H2]. split; [rewrite execs_app; apply elem_of_app; by left|]. destruct c; [done|apply elem_of_app; by left..].
Qed.

(** An event that is neither a start nor a setup changes nothing of the invariant. *)
Lemma log_quiet st e : start_ok st → (match e with CHealthy _ | CExited _ _ => True | _ => False end) →
  start_ok (st <| co_log := co_log st ++ [e] |>).
Proof.
  intros [H1 H2 H3 H4 H5 H6] He.
  assert (Hx : execs (co_log st ++ [e]) = execs (co_log st)) by (rewrite execs_app; destruct e; try done; simpl; by rewrite app_nil_r).
  assert (Hu : uses (co_log st ++ [e]) = uses (co_log st)) by (rewrite uses_app; destruct e; try done; simpl; by rewrite app_nil_r).
  split; simpl; rewrite ?Hx, ?Hu; try done.
  - intros l1 n argv l2 Hl. destruct (decide (l2 = [])) as [->|Hne]; [apply app_inj_tail in Hl as [_ ->]; done|].
    destruct (exists_last Hne) as (l2' & y & ->). rewrite app_comm_cons, app_assoc in Hl. apply app_inj_tail in Hl as [Hl _]. by eapply H4.
  - unfold filled_once. by rewrite Hu.
Qed.

(** What a computation that starts services keeps, and how a good end leaves the state *)
Record advances (st st' : compose_state) (r : res ()) : Prop := Advances {
  ad_ok : start_ok st';
  ad_log : co_log st `prefix_of` co_log st';
  ad_started : r = Ok () → co_started st ⊆ co_started st';
  ad_visiting : r = Ok () → co_visiting st' = co_visiting st }.

Lemma advances_refl st r : start_ok st → advances st st r.
Proof. intros H. by split. Qed.

Lemma advances_trans a b c r r' : advances a b r → r = Ok () → advances b c r' → advances a c r'.
Proof.
  intros [A1 A2 A3 A4] Hr [B1 B2 B3 B4]. split; [done|by etrans| |].
  - intros H. etrans; [by apply A3|by apply B3].
  - intros H. rewrite B4 by done. by apply A4.
Qed.

Lemma quiet_advances st e r : start_ok st → (match e with CHealthy _ | CExited _ _ => True | _ => False end) →
  advances st (st <| co_log := co_log st ++ [e] |>) r.
Proof. intros H He. split; [by apply log_quiet| |done|done]. simpl. by apply prefix_app_r. Qed.

Lemma await_ok other c st st' r : start_ok st → other ∈ execs (co_log st) → await_condition w other c st = Some (st', r) →
  advances st st' r ∧ (r = Ok () → ready (co_log st') other c).
Proof.
  intros Hok Hin H. destruct c; cbn [await_condition] in H.
  - injection H as <- <-. split; [by apply advances_refl|]. done.
  - bind_cases H; unfold answer in Hm; injection Hm as <- Hr; [|split; [by apply advances_refl|done]].
    injection H as <- <-. split; [by apply quiet_advances|]. intros _. split; simpl.
    + rewrite execs_app. apply elem_of_app. by left.
    + apply elem_of_app. right. by left.
  - bind_cases H; unfold answer in Hm; injection Hm as <- Hr; [|split; [by apply advances_refl|done]].
    bind_cases H; injection Hm as <- Hr'; [|done]. unfold answer in H. injection H as <- <-. split; [by apply quiet_advances|].
    intros Hz%raise_if_ok%negb_false_iff%Z.eqb_eq. subst a. split; simpl.
    + rewrite execs_app. apply elem_of_app. by left.
    + apply elem_of_app. right. by left.
Qed.

(** The volumes of one setup *)
Lemma volume_mounts_keys init l : (volume_mounts init l).*1 = l.*1.
Proof. revert init. induction l as [|[v c] l IH]; intros init; simpl; [done|]. by rewrite IH. Qed.

Lemma volume_mounts_fill init l l1 v l2 : volume_mounts init l = l1 ++ (v, true) :: l2 → v ∉ init ∧ v ∉ l1.*1.
Proof.
  revert init l1. induction l as [|[x c] l IH]; intros init l1; simpl; [by destruct l1|]. destruct l1 as [|y l1]; simpl.
  - intros [= -> Hb _]. apply andb_true_iff in Hb as [_ Hb]. apply negb_true_iff, bool_decide_eq_false in Hb.
    split; [done|]. by intros ?%elem_of_nil.
  - intros [= <- H]. apply IH in H as [H1 H2]. split; [set_solver|]. simpl. intros [->|?]%elem_of_cons; [set_solver|done].
Qed.

Lemma filled_app log a init : filled_once log → (∀ v, v ∈ init ↔ v ∈ (uses log).*1) → ∀ n,
  filled_once (log ++ [CSetup n (volume_mounts init a)]).
Proof.
  intros H1 H2 n l1 v l2. rewrite uses_app. simpl. rewrite app_nil_r. intros He.
  apply app_eq_inv in He as [(k & Hl & Hr)|(k & Hl & Hr)].
  - destruct k as [|y k].
    + rewrite app_nil_r in Hl. subst l1. symmetry in Hr. apply (volume_mounts_fill init a [] v l2) in Hr as [Hr _]. by rewrite <- H2.
    + injection Hr as <- Hr. by eapply H1.
  - subst l1. apply volume_mounts_fill in Hr as [Hn Hk]. rewrite fmap_app, elem_of_app, <- H2. naive_solver.
Qed.

Lemma exec_ok name argv s st : start_ok st → name ∉ co_started st → od_get name definitions = Some s →
  (∀ other d, depends_on s other d → ready (co_log st) other (dp_condition d)) →
  start_ok (st <| co_log := co_log st ++ [CExec name argv] |> <| co_started := {[name]} ∪ co_started st |> <| co_visiting := co_visiting st ∖ {[name]} |>).
Proof.
  intros [H1 H2 H3 H4 H5 H6] Hn Hs Hready. split; simpl; rewrite ?execs_app, ?uses_app; simpl; rewrite ?app_nil_r.
  - intros n. rewrite elem_of_union, elem_of_singleton, elem_of_app, list_elem_of_singleton, H1. tauto.
  - apply NoDup_app. split; [exact H2|]. split; [|apply NoDup_singleton]. intros n Hin ->%list_elem_of_singleton. by apply Hn, H1.
  - intros n [->%elem_of_singleton|Hin]%elem_of_union; [set_solver|]. specialize (H3 n Hin). set_solver.
  - intros l1 n argv' l2 Hl. destruct (decide (l2 = [])) as [->|Hne].
    + apply app_inj_tail in Hl as [<- [= -> _]]. by exists s.
    + destruct (exists_last Hne) as (l2' & y & ->). rewrite app_comm_cons, app_assoc in Hl. apply app_inj_tail in Hl as [Hl _]. by eapply H4.
  - intros l1 v l2. rewrite uses_app. simpl. rewrite app_nil_r. apply H5.
  - apply H6.
Qed.

Lemma process_ok name s st st' r : start_ok st → name ∉ co_started st → od_get name definitions = Some s →
  (∀ other d, depends_on s other d → ready (co_log st) other (dp_condition d)) → start_process w name s st = Some (st', r) →
  start_ok st' ∧ co_log st `prefix_of` co_log st' ∧
  (r = Ok () → co_started st' = {[name]} ∪ co_started st ∧ co_visiting st' = co_visiting st ∖ {[name]}).
Proof.
  intros Hok Hn Hs Hd H. unfold start_process in H. bind_cases H; [|done]. injection Hm as <- _.
  bind_cases H; [|done]. injection Hm as <- _.
  set (setup := CSetup name (volume_mounts (co_initialized st) (cs_mounts s))) in *.
  assert (Hsetup : ∀ st1, co_log st1 = co_log st ++ [setup] → co_initialized st1 = list_to_set (cs_mounts s).*1 ∪ co_initialized st →
    co_started st1 = co_started st → co_visiting st1 = co_visiting st → start_ok st1).
  { intros st1 E1 E2 E3 E4. destruct Hok as [H1 H2 H3 H4 H5 H6]. split; rewrite ?E1, ?E2, ?E3, ?E4.
    - intros n. rewrite execs_app. simpl. by rewrite app_nil_r.
    - rewrite execs_app. simpl. by rewrite app_nil_r.
    - done.
    - intros l1 n argv l2 Hl. destruct (decide (l2 = [])) as [->|Hne]; [apply app_inj_tail in Hl as [_ Hl]; done|].
      destruct (exists_last Hne) as (l2' & y & ->). rewrite app_comm_cons, app_assoc in Hl. apply app_inj_tail in Hl as [Hl _]. by eapply H4.
    - by apply filled_app.
    - intros v. rewrite uses_app, fmap_app, elem_of_app, elem_of_union, elem_of_list_to_set. simpl. rewrite app_nil_r, volume_mounts_keys, <- H6. tauto. }
  match type of H with (_ ≫= _) ?x = _ => set (st1 := x) in H end. assert (Hst1 : start_ok st1) by by apply Hsetup.
  assert (Hpre : co_log st `prefix_of` co_log st1) by (simpl; by apply prefix_app_r).
  bind_cases H; unfold answer in Hm; injection Hm as <- _; [|done]. bind_cases H; injection Hm as <- _; [|done].
  bind_cases H; injection Hm as <- _; [|done]. bind_cases H; [|done]. injection Hm as <- _. injection H as <- <-.
  assert (Hready : ∀ other d, depends_on s other d → ready (co_log st1) other (dp_condition d)) by (intros other d Ho; eapply ready_mono; [done|by apply Hd]).
  split; [exact (exec_ok name _ s st1 Hst1 Hn Hs Hready)|]. split; [simpl; rewrite <- app_assoc; by apply prefix_app_r|done].
Qed.

Lemma service_ok depth : ∀ name st st' r, start_ok st → start_service definitions w depth name st = Some (st', r) →
  advances st st' r ∧ (r = Ok () → name ∈ execs (co_log st')).
Proof.
  induction depth as [|depth IH]; intros name st st' r Hok H; cbn [start_service] in H; [done|].
  case_bool_decide as Hst; [injection H as <- <-; split; [by apply advances_refl|intros _; by apply (so_started st Hok)]|].
  case_bool_decide as Hvi; [injection H as <- <-; split; [by apply advances_refl|done]|].
  set (st0 := st <| co_visiting := {[name]} ∪ co_visiting st |>) in *.
  assert (Hok0 : start_ok st0).
  { destruct Hok as [H1 H2 H3 H4 H5 H6]. split; try done. simpl. intros n Hn. specialize (H3 n Hn). set_solver. }
  destruct (od_get name definitions) as [s|] eqn:Es; [|injection H as <- <-; split; [by split|done]].
  match type of H with (each ?g _ ≫= _) _ = _ => set (f := g) in H end.
  assert (Hdeps : ∀ l st1 st2 r2, start_ok st1 → each f l st1 = Some (st2, r2) → advances st1 st2 r2 ∧
    (r2 = Ok () → ∀ other d, (other, d) ∈ l → other ∈ keys definitions ∨ dp_required d = true → ready (co_log st2) other (dp_condition d))).
  { clear H. induction l as [|[other d] l IHl]; intros st1 st2 r2 Hok1 H; cbn [each] in H.
    { injection H as <- <-. split; [by apply advances_refl|]. intros _ o d Hin. by apply elem_of_nil in Hin. }
    assert (Hone : ∀ st3 r3, f (other, d) st1 = Some (st3, r3) → advances st1 st3 r3 ∧
      (r3 = Ok () → other ∈ keys definitions ∨ dp_required d = true → ready (co_log st3) other (dp_condition d))).
    { intros st3 r3 Hf. unfold f in Hf. cbn [fst snd] in Hf. destruct (_ && _) eqn:Eo.
      - injection Hf as <- <-. split; [by apply advances_refl|]. apply andb_true_iff in Eo as [E1 E2].
        apply negb_true_iff, bool_decide_eq_false in E1. apply negb_true_iff in E2. intros _ [?|?]; [done|congruence].
      - bind_cases Hf.
        + destruct (IH other st1 st4 (Ok ()) Hok1) as [Ha Hx]; [by destruct a|]. destruct (await_ok other _ _ _ _ (ad_ok _ _ _ Ha) (Hx eq_refl) Hf) as [Hb Hy].
          split; [by eapply advances_trans|]. intros Hr _. by apply Hy.
        + destruct (IH other st1 st3 (Err e) Hok1 Hm) as [Ha _]. split; [done|done]. }
    bind_cases H.
    - destruct a. destruct (Hone _ _ Hm) as [Ha Hx]. destruct (IHl _ _ _ (ad_ok _ _ _ Ha) H) as [Hb Hy].
      split; [by eapply advances_trans|]. intros Hr o d' [[= -> ->]|Hin]%elem_of_cons Hc; [|by apply Hy].
      eapply ready_mono; [exact (ad_log _ _ _ Hb)|by apply Hx].
    - destruct (Hone _ _ Hm) as [Ha _]. done. }
  bind_cases H.
  - destruct a. destruct (Hdeps _ _ _ _ Hok0 Hm) as [Ha Hx]. pose proof (ad_visiting _ _ _ Ha eq_refl) as Hv. simpl in Hv.
    assert (Hn : name ∉ co_started st1) by (intros Hin; apply (so_apart _ (ad_ok _ _ _ Ha)) in Hin; rewrite Hv in Hin; set_solver).
    destruct (process_ok name s st1 st' r (ad_ok _ _ _ Ha) Hn Es) as (Hok' & Hpre & Hend); [intros o d [Hin Hc]; by apply Hx|done|].
    split; [split; [done| | |]|].
    + etrans; [exact (ad_log _ _ _ Ha)|done].
    + intros Hr. destruct (Hend Hr) as [-> _]. pose proof (ad_started _ _ _ Ha eq_refl). simpl in *. set_solver.
    + intros Hr. destruct (Hend Hr) as [_ ->]. rewrite Hv. apply set_eq. intros x. rewrite elem_of_difference, elem_of_union, elem_of_singleton.
      destruct (decide (x = name)) as [->|]; naive_solver.
    + intros Hr. destruct (Hend Hr) as [He _]. apply (so_started st' Hok'). rewrite He. set_solver.
  - destruct (Hdeps _ _ _ _ Hok0 Hm) as [Ha _]. split; [|done]. destruct Ha as [A1 A2 A3 A4]. by split.
Qed.
End Order.

(** * Every start ends *)

Section Ends.
Variables (definitions : list (string * compose_service)) (w : sandboxes).

(** The services that are not started and not on the way *)
Definition remaining (st : compose_state) : gset string := list_to_set (keys definitions) ∖ (co_visiting st ∪ co_started st).

Lemma started_bind_ends {A B} (m : started A) (f : A → started B) st : (∃ p, m st = Some p) →
  (∀ st1 a, m st = Some (st1, Ok a) → ∃ p, f a st1 = Some p) → ∃ p, (m ≫= f) st = Some p.
Proof.
  intros [[st1 [a|e]] Hm] Hf; unfold mbind, started_bind; rewrite Hm; [by apply Hf|by eexists].
Qed.

Lemma await_ends other c st : ∃ p, await_condition w other c st = Some p.
Proof.
  destruct c; [by eexists|..]; apply started_bind_ends; by eexists.
Qed.

Lemma process_ends name s st : ∃ p, start_process w name s st = Some p.
Proof. unfold start_process. do 6 (apply started_bind_ends; [by eexists|intros ? ? _]). by eexists. Qed.

Lemma service_ends depth : ∀ name st, start_ok definitions st → (size (remaining st) < depth)%nat →
  ∃ p, start_service definitions w depth name st = Some p.
Proof.
  induction depth as [|depth IH]; intros name st Hok Hs; [lia|]. cbn [start_service].
  case_bool_decide as Hst; [by eexists|]. case_bool_decide as Hvi; [by eexists|].
  set (st0 := st <| co_visiting := {[name]} ∪ co_visiting st |>).
  destruct (od_get name definitions) as [s|] eqn:Es; [|by eexists].
  assert (Hok0 : start_ok definitions st0).
  { destruct Hok as [H1 H2 H3 H4 H5 H6]. split; try done. simpl. intros n Hn. specialize (H3 n Hn). set_solver. }
  assert (Hkey : name ∈ keys definitions) by (apply od_get_elem_keys; by eexists).
  assert (Hlt : (size (remaining st0) < depth)%nat).
  { eapply Nat.lt_le_trans; [|apply Nat.lt_succ_r, Hs]. apply subset_size. unfold remaining. simpl. split; [set_solver|].
    intros Hsub. specialize (Hsub name). rewrite !elem_of_difference, elem_of_list_to_set, !elem_of_union, elem_of_singleton in Hsub. tauto. }
  apply started_bind_ends; [|intros st1 a _; apply process_ends].
  assert (Hdeps : ∀ l st1, start_ok definitions st1 → remaining st1 ⊆ remaining st0 → ∃ p, each (λ d : string * dependency,
    if negb (bool_decide (d.1 ∈ keys definitions)) && negb (dp_required d.2) then mret ()
    else _ ← start_service definitions w depth d.1; await_condition w d.1 (dp_condition d.2)) l st1 = Some p).
  { induction l as [|[o d] l IHl]; intros st1 Hok1 Hsub; cbn [each]; [by eexists|]. cbn [fst snd].
    assert (Hsize : (size (remaining st1) < depth)%nat) by (eapply Nat.le_lt_trans; [by apply subseteq_size|done]).
    assert (Hmore : ∀ st2, advances definitions st1 st2 (Ok ()) → remaining st2 ⊆ remaining st0).
    { intros st2 Ha. pose proof (ad_visiting _ _ _ _ Ha eq_refl) as Hv. pose proof (ad_started _ _ _ _ Ha eq_refl) as Hs2.
      unfold remaining in *. rewrite Hv. set_solver. }
    apply started_bind_ends.
    - destruct (_ && _); [by eexists|]. apply started_bind_ends; [by apply IH|]. intros st2 b _. apply await_ends.
    - intros st2 [] Hb. assert (Ha : advances definitions st1 st2 (Ok ())); [|apply IHl; [by eapply ad_ok|by apply Hmore]].
      destruct (_ && _); [injection Hb as <-; by apply advances_refl|].
      apply started_bind_some in Hb as [(st3 & [] & Hm & Hb)|(e & _ & He)]; [|done].
      destruct (service_ok definitions w depth o st1 _ _ Hok1 Hm) as [Ha Hx].
      destruct (await_ok definitions w _ _ _ _ _ (ad_ok _ _ _ _ Ha) (Hx eq_refl) Hb) as [Ha2 _]. by eapply advances_trans. }
  by apply Hdeps.
Qed.

Lemma new_compose_ok : start_ok definitions new_compose.
Proof.
  split; simpl.
  - set_solver.
  - constructor.
  - set_solver.
  - intros l1 n argv l2 H. by destruct l1.
  - intros l1 v l2 H. by destruct l1.
  - set_solver.
Qed.

(** Starting several services in turn *)
Lemma each_service depth l : ∀ st, start_ok definitions st → (∀ st1, start_ok definitions st1 → co_visiting st1 = co_visiting st → co_started st ⊆ co_started st1 → (size (remaining st1) < depth)%nat) →
  ∃ st' r, each (start_service definitions w depth) l st = Some (st', r) ∧ advances definitions st st' r ∧ (r = Ok () → ∀ n, n ∈ l → n ∈ execs (co_log st')).
Proof.
  induction l as [|name l IH]; intros st Hok Hs; cbn [each].
  { exists st, (Ok ()). split; [done|]. split; [by apply advances_refl|]. intros _ n Hn. by apply elem_of_nil in Hn. }
  destruct (service_ends depth name st Hok) as [[st1 r1] H1]; [by apply Hs|]. destruct (service_ok definitions w depth name st st1 r1 Hok H1) as [Ha Hx].
  unfold mbind, started_bind. rewrite H1. destruct r1 as [u|e].
  - destruct u. destruct (IH st1 (ad_ok _ _ _ _ Ha)) as (st2 & r2 & H2 & Ha2 & Hy).
    { intros st3 H3 E1 E2. apply Hs; [done| |].
      - rewrite E1. by apply (ad_visiting _ _ _ _ Ha).
      - etrans; [by apply (ad_started _ _ _ _ Ha)|done]. }
    exists st2, r2. split; [done|]. split; [by eapply advances_trans|]. intros Hr n [->|Hn]%elem_of_cons; [|by apply Hy].
    destruct (ad_log _ _ _ _ Ha2) as [t Ht]. rewrite Ht, execs_app. apply elem_of_app. left. by apply Hx.
  - exists st1, (Err e). split; [done|]. split; [|done]. by destruct Ha; split.
Qed.

Lemma each_health l : ∀ st, start_ok definitions st →
  ∃ st' r, each (λ name, _ ← answer (sb_health w name); logged (CHealthy name)) l st = Some (st', r) ∧ start_ok definitions st' ∧ execs (co_log st') = execs (co_log st).
Proof.
  induction l as [|name l IH]; intros st Hok; cbn [each]; [by exists st, (Ok ())|].
  unfold mbind, started_bind at 1. unfold mbind, started_bind at 1. unfold answer. destruct (sb_health w name) as [u|e]; [|by exists st, (Err e)].
  unfold logged at 1. destruct (IH (st <| co_log := co_log st ++ [CHealthy name] |>)) as (st' & r & H1 & H2 & H3); [by apply log_quiet|].
  exists st', r. split; [exact H1|]. split; [done|]. rewrite H3. simpl. rewrite execs_app. simpl. by rewrite app_nil_r.
Qed.

Lemma depth_enough_for st : (size (remaining st) < compose_depth definitions)%nat.
Proof.
  unfold compose_depth. assert (H1 : (size (remaining st) ≤ size (list_to_set (keys definitions) : gset string))%nat) by (apply subseteq_size; unfold remaining; set_solver).
  pose proof (size_list_to_set_le (keys definitions)) as H2. assert (length (keys definitions) = length definitions) by (unfold keys; by rewrite length_fmap). lia.
Qed.

Lemma elem_of_execs name log : name ∈ execs log ↔ ∃ argv, CExec name argv ∈ log.
Proof.
  unfold execs. rewrite list_elem_of_omap. split.
  - intros (e & He & Hn). destruct e; try done. injection Hn as ->. by eexists.
  - intros [argv He]. by exists (CExec name argv).
Qed.

Lemma ordered_keys log name : ordered definitions log → name ∈ execs log → name ∈ keys definitions.
Proof.
  intros Ho [argv (l1 & l2 & Hl)%list_elem_of_split]%elem_of_execs. destruct (Ho l1 name argv l2 Hl) as (s & Hs & _).
  apply od_get_elem_keys. by eexists.
Qed.

Lemma in_order log : ordered definitions log → ∀ l1 name argv l2, log = l1 ++ CExec name argv :: l2 →
  ∃ s, od_get name definitions = Some s ∧
    ∀ other d, (other, d) ∈ cs_depends s → other ∈ keys definitions ∨ dp_required d = true → ready l1 other (dp_condition d).
Proof. intros Ho l1 name argv l2 Hl. destruct (Ho l1 name argv l2 Hl) as (s & Hs & Hd). exists s. split; [done|]. intros o d H1 H2. by apply Hd. Qed.

Lemma start_all_ends : ∃ st r, start_all definitions w new_compose = Some (st, r) ∧ start_ok definitions st ∧
  (r = Ok () → ∀ n, n ∈ keys definitions → n ∈ execs (co_log st)).
Proof.
  unfold start_all. destruct (each_service (compose_depth definitions) (keys definitions) new_compose new_compose_ok) as (st1 & r1 & H1 & Ha & Hx).
  { intros st1 _ _ _. apply depth_enough_for. }
  unfold mbind, started_bind. rewrite H1. pose proof (ad_ok _ _ _ _ Ha) as Hok1. destruct r1 as [[]|e].
  - destruct (each_health (keys definitions) st1 Hok1) as (st2 & r2 & H2 & Hok2 & He). exists st2, r2. split; [exact H2|]. split; [done|].
    intros _ n Hn. rewrite He. by apply Hx.
  - exists st1, (Err e). done.
Qed.

(** C33: a project starts its services in order, whatever its definitions are and however the
    sandboxes answer: the start ends; each service is started at most once, and when it is
    started every dependency that counts was started before, was found healthy if that was
    asked for, and had ended with 0 if that was asked for; a volume is filled from an image
    at its first use only; and a start that returns has started every service. *)
Theorem starts_in_order : ∃ st r, start_all definitions w new_compose = Some (st, r) ∧
  NoDup (execs (co_log st)) ∧ filled_once (co_log st) ∧
  (∀ l1 name argv l2, co_log st = l1 ++ CExec name argv :: l2 → ∃ s, od_get name definitions = Some s ∧
     ∀ other d, (other, d) ∈ cs_depends s → other ∈ keys definitions ∨ dp_required d = true → ready l1 other (dp_condition d)) ∧
  (r = Ok () → ∀ name, name ∈ execs (co_log st) ↔ name ∈ keys definitions).
Proof.
  destruct start_all_ends as (st & r & H & [G1 G2 G3 G4 G5 G6] & Hall). exists st, r. split; [done|]. split; [done|]. split; [done|].
  split; [exact (in_order _ G4)|]. intros Hr name. split; [by apply ordered_keys|by apply Hall].
Qed.
End Ends.

Section Acyclic.
Variables (definitions : list (string * compose_service)) (w : sandboxes).

(** Nothing fails, and every dependency that is required is defined. *)
Record fine : Prop := Fine {
  fi_setup : ∀ n, is_ok (sb_setup w n) = true;
  fi_exec : ∀ n, sb_exec w n = Ok ();
  fi_health : ∀ n, sb_health w n = Ok ();
  fi_exit : ∀ n, sb_exit w n = Ok 0;
  fi_command : ∀ n s, od_get n definitions = Some s → arguments s (sb_settings w n) ≠ [];
  fi_known : ∀ n s other d, od_get n definitions = Some s → (other, d) ∈ cs_depends s → dp_required d = true → other ∈ keys definitions }.

(** The dependencies that count have no cycle. *)
Definition acyclic : Prop := ∃ rank : string → nat, ∀ n s other d, od_get n definitions = Some s → depends_on definitions s other d →
  (rank other < rank n)%nat.

Hypothesis Hfine : fine.

Lemma await_fine other c st : ∃ st', await_condition w other c st = Some (st', Ok ()).
Proof.
  destruct c; cbn [await_condition]; [by eexists|..]; unfold mbind, started_bind, answer.
  - rewrite (fi_health Hfine). by eexists.
  - rewrite (fi_exit Hfine). by eexists.
Qed.

Lemma process_fine name s st : od_get name definitions = Some s → ∃ st', start_process w name s st = Some (st', Ok ()).
Proof.
  intros Hs. unfold start_process, mbind, started_bind, answer, logged, change. pose proof (fi_setup Hfine name) as Hset.
  destruct (sb_setup w name) as [sup|]; [|done]. rewrite bool_decide_false by (by apply (fi_command Hfine)). cbn [raise_if].
  rewrite (fi_exec Hfine). by eexists.
Qed.

Lemma service_fine rank depth : (∀ n s other d, od_get n definitions = Some s → depends_on definitions s other d → (rank other < rank n)%nat) →
  ∀ name st st' r, start_ok definitions st → name ∈ keys definitions → (∀ v, v ∈ co_visiting st → (rank name < rank v)%nat) →
  start_service definitions w depth name st = Some (st', r) → r = Ok ().
Proof.
  intros Hrank. induction depth as [|depth IH]; intros name st st' r Hok Hkey Hv H; cbn [start_service] in H; [done|].
  case_bool_decide as Hst; [by injection H as _ <-|]. case_bool_decide as Hvi; [specialize (Hv _ Hvi); lia|].
  apply od_get_elem_keys in Hkey as [s Es]. rewrite Es in H. set (st0 := st <| co_visiting := {[name]} ∪ co_visiting st |>) in *.
  assert (Hok0 : start_ok definitions st0).
  { destruct Hok as [H1 H2 H3 H4 H5 H6]. split; try done. simpl. intros n Hn. specialize (H3 n Hn). set_solver. }
  assert (Hdeps : ∀ l st1 st2 r2, (∀ x, x ∈ l → x ∈ cs_depends s) → start_ok definitions st1 → co_visiting st1 = co_visiting st0 →
    each (λ d : string * dependency, if negb (bool_decide (d.1 ∈ keys definitions)) && negb (dp_required d.2) then mret ()
      else _ ← start_service definitions w depth d.1; await_condition w d.1 (dp_condition d.2)) l st1 = Some (st2, r2) → r2 = Ok ()).
  { clear H. induction l as [|[o d] l IHl]; intros st1 st2 r2 Hl Hok1 Hv1 H; cbn [each fst snd] in H; [by injection H as _ <-|].
    assert (Hin : (o, d) ∈ cs_depends s) by (apply Hl; by left).
    destruct (negb (bool_decide (o ∈ keys definitions)) && negb (dp_required d)) eqn:Eo.
    { unfold mbind, started_bind in H. cbn [mret started_ret] in H. eapply IHl; [|exact Hok1|done|exact H]. intros x Hx. apply Hl. by right. }
    assert (Hc : o ∈ keys definitions ∨ dp_required d = true).
    { apply andb_false_iff in Eo as [E|E]; apply negb_false_iff in E; [left; by apply bool_decide_eq_true in E|by right]. }
    assert (Hko : o ∈ keys definitions) by (destruct Hc as [|Hq]; [done|by eapply (fi_known Hfine)]).
    apply started_bind_some in H as [(st3 & [] & Hm & H)|(e & Hm & ->)].
    - apply started_bind_some in Hm as [(st4 & [] & Hm & Hw)|(e & Hm & He)]; [|done].
      destruct (service_ok definitions w depth o st1 st4 _ Hok1 Hm) as [Ha Hx]. destruct (await_ok definitions w _ _ _ _ _ (ad_ok _ _ _ _ Ha) (Hx eq_refl) Hw) as [Hb _].
      eapply IHl; [|by eapply ad_ok| |exact H]; [intros x Hx'; apply Hl; by right|].
      rewrite (ad_visiting _ _ _ _ Hb eq_refl), (ad_visiting _ _ _ _ Ha eq_refl). done.
    - exfalso. apply started_bind_some in Hm as [(st4 & [] & Hm & Hw)|(e' & Hm & He)].
      + destruct (await_fine o (dp_condition d) st4) as [st5 Hw']. congruence.
      + assert (Hr : (rank o < rank name)%nat) by (eapply Hrank; [done|]; by split).
        apply IH in Hm; [done|done|done|]. rewrite Hv1. simpl. intros v [->%elem_of_singleton|Hin']%elem_of_union; [done|].
        specialize (Hv v Hin'). lia. }
  apply started_bind_some in H as [(st1 & [] & Hm & H)|(e & Hm & ->)].
  - destruct (process_fine name s st1 Es) as [st2 H']. congruence.
  - apply Hdeps in Hm; [done|done|done|done].
Qed.

Lemma each_fine rank l : (∀ n s other d, od_get n definitions = Some s → depends_on definitions s other d → (rank other < rank n)%nat) →
  ∀ st st' r, start_ok definitions st → co_visiting st = ∅ → (∀ n, n ∈ l → n ∈ keys definitions) →
  each (start_service definitions w (compose_depth definitions)) l st = Some (st', r) → r = Ok ().
Proof.
  intros Hrank. induction l as [|name l IH]; intros st st' r Hok Hv Hl H; cbn [each] in H; [by injection H as _ <-|].
  apply started_bind_some in H as [(st1 & [] & Hm & H)|(e & Hm & ->)].
  - destruct (service_ok definitions w _ _ _ _ _ Hok Hm) as [Ha _]. eapply (IH st1); [by eapply ad_ok| |intros n Hn; apply Hl; by right|done].
    by rewrite (ad_visiting _ _ _ _ Ha eq_refl).
  - eapply (service_fine rank) in Hm; [done|done|done|apply Hl; by left|]. intros v. rewrite Hv. set_solver.
Qed.

Lemma health_fine l : ∀ st st' r, each (λ name, _ ← answer (sb_health w name); logged (CHealthy name)) l st = Some (st', r) → r = Ok ().
Proof.
  induction l as [|name l IH]; intros st st' r H; cbn [each] in H; [by injection H as _ <-|].
  apply started_bind_some in H as [(st1 & [] & Hm & H)|(e & Hm & ->)]; [by eapply IH|].
  unfold mbind, started_bind, answer in Hm. by rewrite (fi_health Hfine) in Hm.
Qed.
End Acyclic.

(** Where the log has the start of a service *)
Definition exec_index (name : string) (log : list compose_event) : nat :=
  match list_find (λ n, n = name) (execs log) with Some (i, _) => i | None => O end.

Lemma exec_index_at log l1 name argv l2 : NoDup (execs log) → log = l1 ++ CExec name argv :: l2 → exec_index name log = length (execs l1).
Proof.
  intros Hnd ->. rewrite execs_app in *. simpl in *. unfold exec_index. rewrite execs_app. simpl.
  apply NoDup_app in Hnd as (_ & Hnd & _). rewrite list_find_app_r.
  - simpl. rewrite decide_True by done. simpl. lia.
  - apply list_find_None, Forall_forall. intros x Hx ->. apply (Hnd _ Hx). by left.
Qed.

Lemma exec_index_before log l1 l2 name : NoDup (execs log) → log = l1 ++ l2 → name ∈ execs l1 → (exec_index name log < length (execs l1))%nat.
Proof.
  intros Hnd -> [argv (a & b & ->)%list_elem_of_split]%elem_of_execs. rewrite <- app_assoc in *. cbn [app] in *.
  rewrite (exec_index_at _ a name argv (b ++ l2)) by done. rewrite execs_app, length_app. simpl. lia.
Qed.

(** C34: a project starts exactly when its dependencies have no cycle: if nothing fails, every
    required dependency is defined and every service has a command, the start returns if
    and only if the dependencies can be ranked. *)
Theorem starts_iff_acyclic definitions w : fine definitions w →
  (∃ st, start_all definitions w new_compose = Some (st, Ok ())) ↔ acyclic definitions.
Proof.
  intros Hfine. destruct (start_all_ends definitions w) as (st & r & H & Hok & Hall). split.
  - intros [st' Hs]. rewrite H in Hs. injection Hs as -> ->. specialize (Hall eq_refl).
    exists (λ n, exec_index n (co_log st')). intros n s other d Hn Hd. pose proof (so_once _ _ Hok) as Hnd.
    assert (Hin : n ∈ execs (co_log st')) by (apply Hall, od_get_elem_keys; by eexists).
    apply elem_of_execs in Hin as [argv (l1 & l2 & Hl)%list_elem_of_split].
    destruct (so_order _ _ Hok l1 n argv l2 Hl) as (s' & Hs' & Ho). assert (s' = s) as -> by congruence.
    destruct (Ho other d Hd) as [Hb _]. rewrite (exec_index_at _ l1 n argv l2 Hnd Hl). by eapply exec_index_before.
  - intros [rank Hrank]. exists st. rewrite H. do 2 f_equal. unfold start_all in H.
    apply started_bind_some in H as [(st1 & [] & Hm & H)|(e & Hm & ->)]; [by eapply health_fine|].
    apply (each_fine definitions w Hfine rank) in Hm; [done|done|apply new_compose_ok|done|done].
Qed.

(** * Names on the networks *)

Lemma elem_of_sorted_names x l : x ∈ sorted_names l ↔ x ∈ l.
Proof. unfold sorted_names. by rewrite elem_of_sort_by, elem_of_remove_dups. Qed.

Lemma aliases_at networks y by_network n l a : gm_network_aliases y = Some by_network → n ∈ networks → od_get n by_network = Some l →
  a ∈ l → a ∈ aliases_for networks y.
Proof.
  intros Hb Hn Hget Ha. unfold aliases_for. rewrite Hb. destruct by_network as [|b t]; [done|].
  apply list_elem_of_In, in_flat_map. exists n. split; [by apply list_elem_of_In|]. rewrite Hget. by apply list_elem_of_In.
Qed.

(** The services of a project know each other as Compose says: a member made from the
    definition of another service is known to every member on one of its networks by the
    name of the service, its host name, and its aliases on that network. *)
Theorem compose_names local name s identity index x n aliases : cs_offline s = false →
  (n, aliases) ∈ default [("default"%string, [])] (cs_networks s) → NoDup (default [("default"%string, [])] (cs_networks s)).*1 → n ∈ gm_networks x →
  let y := make_member local name identity (service_network name s) index in
  ∀ alias, alias = name ∨ Some alias = cs_hostname s ∨ alias ∈ aliases → known_as x y alias.
Proof.
  intros Hoff Hin Hnd Hx y alias Ha. unfold known_as. split.
  - exists n. split; [done|]. unfold y, make_member, service_network. simpl. rewrite Hoff. apply list_elem_of_fmap. by exists (n, aliases).
  - unfold y, make_member, service_network. rewrite Hoff.
    set (networks := default [("default"%string, [])] (cs_networks s)) in *.
    set (by_network := map (λ m : string * list string, (m.1, sorted_names ([name; default name (cs_hostname s)] ++ m.2))) networks).
    assert (Hget : od_get n by_network = Some (sorted_names ([name; default name (cs_hostname s)] ++ aliases))).
    { apply od_get_wf.
      - unfold od_wf, keys, by_network. rewrite <- list_fmap_compose. exact Hnd.
      - apply list_elem_of_In, in_map_iff. exists (n, aliases). split; [done|by apply list_elem_of_In]. }
    eapply (aliases_at _ _ by_network n); [done| |exact Hget|].
    + unfold common. apply list_elem_of_filter. split; [|exact Hx]. apply list_elem_of_fmap. by exists (n, aliases).
    + apply elem_of_sorted_names, elem_of_app.
      destruct Ha as [->|[Hh|Hal]]; [left; by left| |by right]. left. rewrite <- Hh. right. by left.
Qed.

(** * Verdicts of health checks *)

(** A service is healthy because a probe succeeded, and failed because as many probes as
    the check allows failed in a row. *)
Lemma health_verdict check deadline start_end probes : ∀ now failures r,
  health_loop check deadline start_end now failures probes = Some r →
  (r = Ok () → ∃ l1 p l2, probes = l1 ++ p :: l2 ∧ pb_ok p = true ∧ Forall (λ q, pb_ok q = false) l1) ∧
  (r = raise RuntimeError "Compose service healthcheck failed: " →
   ∃ l1 l2, probes = l1 ++ l2 ∧ Forall (λ q, pb_ok q = false) l1 ∧ hc_retries check ≤ failures + Z.of_nat (length l1)).
Proof.
  induction probes as [|p probes IH]; intros now failures r H; cbn [health_loop] in H.
  { destruct (deadline <=? now); [|done]. injection H as <-. split; intros Hr; done. }
  destruct (deadline <=? now); [injection H as <-; split; intros Hr; done|].
  destruct (pb_ok p) eqn:Ep. { injection H as <-. split; [|done]. intros _. by exists [], p, probes. }
  destruct (negb _ && _) eqn:Ef.
  - injection H as <-. split; [done|]. intros _. apply andb_true_iff in Ef as [E1 E2%Z.leb_le]. apply negb_true_iff in E1. rewrite E1 in E2.
    exists [p], probes. split; [done|]. split; [by repeat constructor|]. simpl. lia.
  - apply IH in H as [H1 H2]. split.
    + intros Hr. destruct (H1 Hr) as (l1 & q & l2 & -> & Hq & Hl). exists (p :: l1), q, l2. split; [done|]. split; [done|by constructor].
    + intros Hr. destruct (H2 Hr) as (l1 & l2 & -> & Hl & Hn). exists (p :: l1), l2. split; [done|]. split; [by constructor|].
      simpl. destruct (_ <? _) in Hn; lia.
Qed.

(** Probes that take time use the time up. *)
Lemma health_ends check deadline start_end probes : 0 ≤ hc_interval check → 0 ≤ hc_start_interval check → Forall (λ p, 1 ≤ pb_time p) probes →
  ∀ now failures, deadline - now ≤ Z.of_nat (length probes) → is_Some (health_loop check deadline start_end now failures probes).
Proof.
  intros Hi Hs. induction 1 as [|p probes Hp _ IH]; intros now failures Hn; cbn [health_loop]; (destruct (Z.leb_spec deadline now); [by eexists|]);
    cbn [length] in Hn; [lia|].
  destruct (pb_ok p); [by eexists|]. destruct (negb _ && _); [by eexists|]. apply IH. destruct (_ <? start_end); lia.
Qed.

(** * A project on concrete data *)

(** [web] needs a healthy [db], which needs a completed [init]; the three share a volume. *)
Definition ex_service (depends : list (string * dependency)) : compose_service :=
  ComposeService false None None depends [("data", true)] None (Some ["run"]).

Definition ex_project : list (string * compose_service) :=
  [("web", ex_service [("db", Dependency true DHealthy); ("cache", Dependency false DStarted)]);
   ("db", ex_service [("init", Dependency true DCompleted)]); ("init", ex_service [])].

Definition ex_answers : sandboxes :=
  Sandboxes (λ _, ImageSettings [] []) (λ _, Ok []) (λ _, Ok ()) (λ _, Ok ()) (λ _, Ok 0).

Example ex_start : co_log <$> (fst <$> start_all ex_project ex_answers new_compose) = Some
  [CSetup "init" [("data", true)]; CExec "init" ["run"]; CExited "init" 0;
   CSetup "db" [("data", false)]; CExec "db" ["run"]; CHealthy "db";
   CSetup "web" [("data", false)]; CExec "web" ["run"];
   CHealthy "web"; CHealthy "db"; CHealthy "init"].
Proof. vm_compute. reflexivity. Qed.

(** A cycle raises. *)
Example ex_cycle : snd <$> start_all [("a", ex_service [("b", Dependency true DStarted)]); ("b", ex_service [("a", Dependency true DStarted)])]
  ex_answers new_compose = Some (raise ValueError "Compose service dependency cycle").
Proof. vm_compute. reflexivity. Qed.

Lemma ex_fine : fine ex_project ex_answers.
Proof.
  split; try done.
  - intros n s Hs. apply od_get_elem in Hs. unfold ex_project in Hs. rewrite !elem_of_cons in Hs.
    destruct Hs as [[= -> ->]|[[= -> ->]|[[= -> ->]|Hs%elem_of_nil]]]; done.
  - intros n s o d Hs Hd Hr. apply od_get_elem in Hs. unfold ex_project in Hs. rewrite !elem_of_cons in Hs.
    destruct Hs as [[= -> ->]|[[= -> ->]|[[= -> ->]|Hs%elem_of_nil]]]; simpl in Hd; rewrite ?elem_of_cons in Hd.
    + destruct Hd as [[= -> ->]|[[= -> ->]|Hd%elem_of_nil]]; [right; by left|done|done].
    + destruct Hd as [[= -> ->]|Hd%elem_of_nil]; [right; right; by left|done].
    + by apply elem_of_nil in Hd.
    + done.
Qed.

Lemma starts_iff_acyclic_witness :
  fine ex_project ex_answers ∧ (∃ st, start_all ex_project ex_answers new_compose = Some (st, Ok ())) ∧ acyclic ex_project.
Proof.
  assert (H : ∃ st, start_all ex_project ex_answers new_compose = Some (st, Ok ())) by (eexists; vm_compute; reflexivity).
  refine (conj ex_fine (conj H _)). by apply (starts_iff_acyclic ex_project ex_answers ex_fine).
Defined.

(** Another member of the network knows [db] by its name. *)
Lemma compose_names_witness :
  let x := make_member "/run" "web" "id-web" (service_network "web" (ex_service [])) 0 in
  let y := make_member "/run" "db" "id-db" (service_network "db" (ex_service [])) 1 in
  known_as x y "db".
Proof.
  intros x y. apply (compose_names "/run" "db" (ex_service []) "id-db" 1 x "default" []); [done| |apply NoDup_singleton| |by left].
  - simpl. by left.
  - simpl. by left.
Defined.
