(* ===== verification/Cluster.v ===== *)
(** The controller's data ([weave/controller.py], [pool.py], [jobs.py],
    [networks.py], [artifacts.py]): the records of each kind, the store that holds
    them, and transactions over it. A transaction sees its own writes and leaves
    nothing behind when it raises; the store below it is [State]. Entries a record
    may lack are options or flags; the time is read once per transaction. *)

From S2P Require Import Prelude OrderedDict Values Proxy Resources GpuMatching Scheduler Ownership.
Local Open Scope Z_scope.

(** [PROTOCOL] *)
Definition PROTOCOL : Z := 1.

(** * Workers *)

Record endpoint := Endpoint {
  ep_hostname : string; ep_port : Z; ep_token : string; ep_workspace : option string;
  ep_relay : option string; ep_ssh_host : option string; ep_ssh_port : option Z }.
#[export] Instance endpoint_updatable : Updatable endpoint := λ e,
  Endpoint (ep_hostname e) (ep_port e) (ep_token e) (ep_workspace e) (ep_relay e) (ep_ssh_host e) (ep_ssh_port e).
#[export] Instance endpoint_eq_dec : EqDecision endpoint.
Proof. solve_decision. Defined.

(** A serialized target: a name, or a dictionary with an endpoint or a host. *)
Inductive target :=
  | Named (s : string)
  | Described (endpoint : option endpoint) (host : option string).

(** A sandbox as a worker's inventory reports it. *)
Record live_report := LiveReport {
  lr_cluster : option string; lr_memory : Z; lr_slots : option Z; lr_gpu : Z; lr_gpu_uuids : list string }.

Record inventory := Inventory {
  iv_protocol : Z; iv_hostname : string; iv_workspace : string; iv_scope : value; iv_cpus : list Z;
  iv_memory : Z; iv_gpus : list device; iv_runtimes : list string; iv_kvm : bool;
  iv_live : list live_report; iv_telemetry : value }.

Record external := External { ex_amount : amount; ex_uuids : list string }.
Record instance := Instance { is_endpoint : endpoint; is_external : external; is_telemetry : value }.
Record capacity := Capacity { ca_slots : Z; ca_cpus : Z; ca_memory : Z; ca_gpu : Z }.
#[export] Instance capacity_updatable : Updatable capacity := λ c,
  Capacity (ca_slots c) (ca_cpus c) (ca_memory c) (ca_gpu c).
#[export] Instance instance_updatable : Updatable instance := λ i,
  Instance (is_endpoint i) (is_external i) (is_telemetry i).

Record worker := Worker {
  wk_id : string; wk_state : string; wk_target : target; wk_machine : option string; wk_name : string;
  wk_endpoint : endpoint; wk_labels : gmap string string; wk_inventory : inventory; wk_capacity : capacity;
  wk_cpu_ids : list Z; wk_gpus : list device; wk_runtimes : list string; wk_draining : bool; wk_seen : Z;
  wk_instances : list (string * instance); wk_external : external; wk_lost : bool; wk_error : option string }.
#[export] Instance worker_updatable : Updatable worker := λ w,
  Worker (wk_id w) (wk_state w) (wk_target w) (wk_machine w) (wk_name w) (wk_endpoint w) (wk_labels w)
    (wk_inventory w) (wk_capacity w) (wk_cpu_ids w) (wk_gpus w) (wk_runtimes w) (wk_draining w) (wk_seen w)
    (wk_instances w) (wk_external w) (wk_lost w) (wk_error w).

(** * Allocations *)

(** A sandbox as its worker describes it: [runtime_status]'s status, and whether
    the description names its definition. *)
Record info := Info { in_id : string; in_state : string; in_status : option string; in_spec : bool; in_body : value }.
#[export] Instance info_eq_dec : EqDecision info.
Proof. solve_decision. Defined.

(** The request of a sandbox, as [create] keeps it. *)
Record creation := Creation {
  cr_spec : spec; cr_operation : option string; cr_reference : option string;
  cr_cache_key : option string; cr_refresh : bool; cr_owner : option string }.
#[export] Instance creation_updatable : Updatable creation := λ c,
  Creation (cr_spec c) (cr_operation c) (cr_reference c) (cr_cache_key c) (cr_refresh c) (cr_owner c).
#[export] Instance creation_eq_dec : EqDecision creation.
Proof. solve_decision. Defined.

Record allocation := Allocation {
  al_id : string; al_state : string; al_desired : string; al_generation : Z; al_released : bool;
  al_request : creation; al_spec : spec; al_stamp : string; al_canonical : option string;
  al_owner : option string; al_parent : option string; al_ack : bool; al_deadline : Z;
  al_only_worker : option string; al_worker : option string; al_endpoint : option endpoint;
  al_token : option string; al_info : option info; al_reason : option string; al_error : option string;
  al_lease : option string; al_role : option string; al_prepared : bool; al_owner_route_ack : option string;
  al_delete_requested : bool; al_deletion_pending : bool; al_deletion_started : bool; al_deleted : bool;
  al_retention_unsupported : bool }.
#[export] Instance allocation_updatable : Updatable allocation := λ a,
  Allocation (al_id a) (al_state a) (al_desired a) (al_generation a) (al_released a) (al_request a)
    (al_spec a) (al_stamp a) (al_canonical a) (al_owner a) (al_parent a) (al_ack a) (al_deadline a)
    (al_only_worker a) (al_worker a) (al_endpoint a) (al_token a) (al_info a) (al_reason a) (al_error a)
    (al_lease a) (al_role a) (al_prepared a) (al_owner_route_ack a) (al_delete_requested a)
    (al_deletion_pending a) (al_deletion_started a) (al_deleted a) (al_retention_unsupported a).

(** * Pools, jobs, networks and snapshots *)

Record pool_policy := PoolPolicy {
  pp_size : Z; pp_warm : Z; pp_weight : pyval; pp_priority : Z; pp_labels : list (string * string);
  pp_placement : string; pp_affinity : option string }.
#[export] Instance pool_policy_updatable : Updatable pool_policy := λ p,
  PoolPolicy (pp_size p) (pp_warm p) (pp_weight p) (pp_priority p) (pp_labels p) (pp_placement p) (pp_affinity p).

Record pool := Pool {
  po_id : string; po_state : string; po_desired : string; po_name : option string; po_owner : option string;
  po_request : creation; po_rules : pool_policy; po_shared_cache : option string; po_retain_baseline : bool;
  po_baseline : option string; po_baseline_spec : option spec; po_builder : option string;
  po_proxy_state : option proxy_state; po_error : option string; po_artifacts_released : bool;
  po_cleanup_error : option string; po_cleanup_retry_at : option Z }.
#[export] Instance pool_updatable : Updatable pool := λ p,
  Pool (po_id p) (po_state p) (po_desired p) (po_name p) (po_owner p) (po_request p) (po_rules p)
    (po_shared_cache p) (po_retain_baseline p) (po_baseline p) (po_baseline_spec p) (po_builder p)
    (po_proxy_state p) (po_error p) (po_artifacts_released p) (po_cleanup_error p) (po_cleanup_retry_at p).

Record pool_lease := PoolLease {
  le_id : string; le_parent : string; le_state : string; le_owner : option string;
  le_sandbox : option string; le_generation : option Z; le_error : option string }.
#[export] Instance pool_lease_updatable : Updatable pool_lease := λ l,
  PoolLease (le_id l) (le_parent l) (le_state l) (le_owner l) (le_sandbox l) (le_generation l) (le_error l).

(** The outcome of an attempt. *)
Record outcome := Outcome {
  oc_failure : option string; oc_error : option string; oc_returncode : Z; oc_stdout : bytes; oc_stderr : bytes;
  oc_timed_out : bool; oc_output_limited : bool }.
Record job_request := JobRequest {
  jr_command : string; jr_files : list (string * bytes); jr_items : list value; jr_retries : Z;
  jr_retry_codes : list Z; jr_retry_infrastructure : bool; jr_timeout : option pyval;
  jr_max_output_bytes : pyval; jr_every : option pyval }.
#[export] Instance job_request_eq_dec : EqDecision job_request.
Proof. solve_decision. Defined.

Record job := Job {
  jo_id : string; jo_state : string; jo_pool : string; jo_owner : option string; jo_owned_pool : bool;
  jo_request : job_request; jo_error : option string }.
#[export] Instance job_updatable : Updatable job := λ j,
  Job (jo_id j) (jo_state j) (jo_pool j) (jo_owner j) (jo_owned_pool j) (jo_request j) (jo_error j).

Record task := Task {
  ta_id : string; ta_parent : string; ta_index : Z; ta_item : value; ta_state : string; ta_attempt : Z;
  ta_due : Z; ta_lease : option string; ta_process : option string; ta_sandbox : option string;
  ta_result : option outcome; ta_error : option string }.
#[export] Instance task_updatable : Updatable task := λ t,
  Task (ta_id t) (ta_parent t) (ta_index t) (ta_item t) (ta_state t) (ta_attempt t) (ta_due t) (ta_lease t)
    (ta_process t) (ta_sandbox t) (ta_result t) (ta_error t).

Record attempt := Attempt { at_id : string; at_parent : string; at_result : outcome }.

Record service_network := ServiceNetwork {
  sn_id : string; sn_worker : string; sn_endpoint : endpoint; sn_state : string; sn_error : option string }.
#[export] Instance service_network_updatable : Updatable service_network := λ n,
  ServiceNetwork (sn_id n) (sn_worker n) (sn_endpoint n) (sn_state n) (sn_error n).

(** What a worker knows of a snapshot, and the definition it gives for one. *)
Record saved := Saved { sa_id : string; sa_source : string; sa_state : string }.
Record snapshot := Snapshot { sp_reference : string; sp_spec : spec }.
Record artifact := Artifact {
  af_id : string; af_info : saved; af_spec : snapshot; af_locations : list endpoint; af_retiring : bool; af_released : bool }.
#[export] Instance artifact_updatable : Updatable artifact := λ a,
  Artifact (af_id a) (af_info a) (af_spec a) (af_locations a) (af_retiring a) (af_released a).
Record alias := Alias { ai_id : string; ai_reference : string }.

(** * The store *)

(** A stored record with what [State.put] adds to it. *)
Record row (A : Type) := Row { row_created : Z; row_updated : Z; row_version : Z; row_value : A }.
Arguments Row {_} _ _ _ _.
Arguments row_created {_} _.
Arguments row_updated {_} _.
Arguments row_version {_} _.
Arguments row_value {_} _.

Abbreviation records A := (gmap string (row A)).

Record store := Store {
  st_workers : records worker; st_allocations : records allocation; st_pools : records pool;
  st_leases : records pool_lease; st_jobs : records job; st_tasks : records task;
  st_attempts : records attempt; st_networks : records service_network;
  st_artifacts : records artifact; st_aliases : records alias;
  st_events : list (string * string * string) }.
#[export] Instance store_updatable : Updatable store := λ s,
  Store (st_workers s) (st_allocations s) (st_pools s) (st_leases s) (st_jobs s) (st_tasks s) (st_attempts s)
    (st_networks s) (st_artifacts s) (st_aliases s) (st_events s).

(** The records of a type are one kind of the store. *)
Class Table (A : Type) := {
  kind : string;
  ident : A → string;
  rows : store → records A;
  with_rows : store → records A → store;
  rows_with s t : rows (with_rows s t) = t;
  rows_events s l : rows (s <| st_events := l |>) = rows s }.

#[export] Instance worker_table : Table worker :=
  {| kind := "worker"; ident := wk_id; rows := st_workers; with_rows s t := s <| st_workers := t |>;
     rows_with _ _ := eq_refl; rows_events _ _ := eq_refl |}.
#[export] Instance allocation_table : Table allocation :=
  {| kind := "allocation"; ident := al_id; rows := st_allocations; with_rows s t := s <| st_allocations := t |>;
     rows_with _ _ := eq_refl; rows_events _ _ := eq_refl |}.
#[export] Instance pool_table : Table pool :=
  {| kind := "pool"; ident := po_id; rows := st_pools; with_rows s t := s <| st_pools := t |>;
     rows_with _ _ := eq_refl; rows_events _ _ := eq_refl |}.
#[export] Instance pool_lease_table : Table pool_lease :=
  {| kind := "lease"; ident := le_id; rows := st_leases; with_rows s t := s <| st_leases := t |>;
     rows_with _ _ := eq_refl; rows_events _ _ := eq_refl |}.
#[export] Instance job_table : Table job :=
  {| kind := "job"; ident := jo_id; rows := st_jobs; with_rows s t := s <| st_jobs := t |>;
     rows_with _ _ := eq_refl; rows_events _ _ := eq_refl |}.
#[export] Instance task_table : Table task :=
  {| kind := "task"; ident := ta_id; rows := st_tasks; with_rows s t := s <| st_tasks := t |>;
     rows_with _ _ := eq_refl; rows_events _ _ := eq_refl |}.
#[export] Instance attempt_table : Table attempt :=
  {| kind := "attempt"; ident := at_id; rows := st_attempts; with_rows s t := s <| st_attempts := t |>;
     rows_with _ _ := eq_refl; rows_events _ _ := eq_refl |}.
#[export] Instance network_table : Table service_network :=
  {| kind := "network"; ident := sn_id; rows := st_networks; with_rows s t := s <| st_networks := t |>;
     rows_with _ _ := eq_refl; rows_events _ _ := eq_refl |}.
#[export] Instance artifact_table : Table artifact :=
  {| kind := "artifact"; ident := af_id; rows := st_artifacts; with_rows s t := s <| st_artifacts := t |>;
     rows_with _ _ := eq_refl; rows_events _ _ := eq_refl |}.
#[export] Instance alias_table : Table alias :=
  {| kind := "alias"; ident := ai_id; rows := st_aliases; with_rows s t := s <| st_aliases := t |>;
     rows_with _ _ := eq_refl; rows_events _ _ := eq_refl |}.

(** * Transactions *)

(** What a transaction observes besides the store: the time, and the owners'
    answers ([Owners.reason], and the process of an owner that is active). *)
Record env := Env {
  now : Z;
  owner_reason : option string → res (option string);
  owner_process : string → res (option process) }.

(** A transaction returns with a changed store, or raises and changes nothing. *)
Definition txn (A : Type) : Type := env → store → res (A * store).

#[export] Instance txn_ret : MRet txn := λ A a e s, Ok (a, s).
#[export] Instance txn_bind : MBind txn := λ A B f t e s,
  match t e s with Ok (a, s) => f a e s | Err x => Err x end.
#[export] Instance txn_fmap : FMap txn := λ A B f t e s,
  match t e s with Ok (a, s) => Ok (f a, s) | Err x => Err x end.

Definition lift {A} (r : res A) : txn A := λ e s, match r with Ok a => Ok (a, s) | Err x => Err x end.
Definition throw {A} (k : exn_class) (msg : string) : txn A := lift (raise k msg).
Definition throw_if (test : bool) (k : exn_class) (msg : string) : txn () := lift (raise_if test k msg).
Definition the_time : txn Z := λ e s, Ok (now e, s).
Definition the_reason (owner : option string) : txn (option string) := λ e s, lift (owner_reason e owner) e s.
Definition the_process (owner : string) : txn (option process) := λ e s, lift (owner_process e owner) e s.
Definition when (test : bool) (t : txn ()) : txn () := if test then t else mret ().

Fixpoint for_each {A} (l : list A) (f : A → txn ()) : txn () :=
  match l with
  | [] => mret ()
  | x :: l => _ ← f x; for_each l f
  end.

Section store.
  Context {A : Type} `{Table A}.

(** [State.get] with [required=False] *)
Definition find (identity : string) : txn (option A) := λ e s, Ok (row_value <$> rows s !! identity, s).

(** [State.get] *)
Definition get (identity : string) : txn A := λ e s,
  match rows s !! identity with
  | Some r => Ok (row_value r, s)
  | None => raise FileNotFoundError (kind ++ " does not exist: " ++ identity)
  end.

(** [State.list]: by creation, then identity. *)
Definition row_lt (a b : row A) : bool :=
  (row_created a <? row_created b)
  || ((row_created a =? row_created b) && str_ltb (ident (row_value a)) (ident (row_value b))).
Definition list_rows (keep : A → bool) (s : store) : list (row A) :=
  sort_by row_lt (filter (λ r, Is_true (keep (row_value r))) (map snd (map_to_list (rows s)))).
Definition list_where (keep : A → bool) : txn (list A) := λ e s, Ok (map row_value (list_rows keep s), s).
Definition list_stored (keep : A → bool) : txn (list (row A)) := λ e s, Ok (list_rows keep s, s).
Definition list_all : txn (list A) := list_where (λ _, true).

(** [State.put] *)
Definition put_row (a : A) (at_time : Z) (s : store) : store :=
  let previous := rows s !! ident a in
  with_rows s (<[ident a := Row (match previous with Some r => row_created r | None => at_time end) at_time
                             (match previous with Some r => row_version r | None => 0 end + 1) a]> (rows s)).
Definition put (a : A) (event : option string) : txn A := λ e s,
  let s := put_row a (now e) s in
  Ok (a, match event with
         | Some m => s <| st_events := st_events s ++ [(kind, ident a, m)] |>
         | None => s
         end).
End store.

(** Puts without using the stored record. *)
Definition save {A} `{Table A} (a : A) (event : option string) : txn () := _ ← put a event; mret ().

(** [State.require_durable] concerns only when the writer reports a commit. *)
Definition require_durable : txn () := mret ().

(** Python truth of an optional text. *)
Definition given (o : option string) : bool := bool_decide (is_Some (text o)).

(** [spec.get('name')] and friends on the definition of an allocation *)
Definition definition (s : spec) : fields := spec_fields s.

(** [Controller._owner_process] *)
Definition _owner_process (owner : option string) : txn (option process) :=
  match owner with
  | None => mret None
  | Some o =>
      why ← the_reason owner;
      _ ← throw_if (given why) OwnerExpired "creator is no longer active";
      the_process o
  end.

(** * Reasoning about transactions *)

(** [wp t Q e s]: if [t] commits, [Q] holds of its result and the new store. *)
Definition wp {A} (t : txn A) (Q : A → store → Prop) (e : env) (s : store) : Prop :=
  match t e s with Ok (a, s') => Q a s' | Err _ => True end.

Lemma wp_ok {A} (t : txn A) Q e s a s' : wp t Q e s → t e s = Ok (a, s') → Q a s'.
Proof. unfold wp. intros H E. by rewrite E in H. Qed.

Lemma wp_mono {A} (t : txn A) (Q Q' : A → store → Prop) e s :
  wp t Q e s → (∀ a s', Q a s' → Q' a s') → wp t Q' e s.
Proof. unfold wp. intros H HQ. destruct (t e s) as [[a s']|]; auto. Qed.

Lemma wp_ret {A} (a : A) (Q : A → store → Prop) e s : Q a s → wp (mret a) Q e s.
Proof. done. Qed.

Lemma wp_bind {A B} (t : txn A) (f : A → txn B) Q e s :
  wp t (λ a s', wp (f a) Q e s') e s → wp (t ≫= f) Q e s.
Proof. unfold wp, mbind, txn_bind. by destruct (t e s) as [[a s']|]. Qed.

Lemma wp_lift {A} (r : res A) (Q : A → store → Prop) e s : (∀ a, r = Ok a → Q a s) → wp (lift r) Q e s.
Proof. unfold wp, lift. destruct r; auto. Qed.

Lemma wp_throw {A} k msg (Q : A → store → Prop) e s : wp (throw k msg) Q e s.
Proof. done. Qed.

Lemma wp_throw_if test k msg Q e s : (test = false → Q () s) → wp (throw_if test k msg) Q e s.
Proof. unfold throw_if, raise_if. intros H. destruct test; [done|]. by apply H. Qed.

Lemma wp_time (Q : Z → store → Prop) e s : Q (now e) s → wp the_time Q e s.
Proof. done. Qed.

Lemma wp_reason owner (Q : option string → store → Prop) e s :
  (∀ why, owner_reason e owner = Ok why → Q why s) → wp (the_reason owner) Q e s.
Proof. intros HQ. apply wp_lift, HQ. Qed.

Lemma wp_when test t Q e s : (test = true → wp t Q e s) → (test = false → Q () s) → wp (when test t) Q e s.
Proof. unfold when. destruct test; intros H1 H2; [by apply H1|by apply H2]. Qed.

Lemma wp_owner_process owner Q e s : (∀ p, Q p s) → wp (_owner_process owner) Q e s.
Proof.
  intros HQ. destruct owner as [o|]; [|apply HQ]. unfold _owner_process.
  apply wp_bind, wp_reason. intros why _. apply wp_bind, wp_throw_if. intros _.
  unfold wp, the_process, lift. destruct (owner_process e o); [apply HQ|done].
Qed.

(** An invariant of the loop body, kept by every turn. *)
Lemma wp_for_each {A} (l : list A) (f : A → txn ()) (P : store → Prop) e s :
  P s → (∀ x s, x ∈ l → P s → wp (f x) (λ _, P) e s) → wp (for_each l f) (λ _, P) e s.
Proof.
  revert s. induction l as [|x l IH]; intros s HP Hf; [done|]. simpl.
  apply wp_bind. eapply wp_mono; [apply Hf; [by left|done]|]. intros [] s' HP'.
  apply IH; [done|]. intros y s'' Hy. apply Hf. by right.
Qed.

Section store_rules.
  Context {A : Type} `{Table A}.

  (** The records of a kind, by identity. *)
Definition value_at (s : store) (identity : string) : option A := row_value <$> rows s !! identity.

Lemma wp_find identity (Q : option A → store → Prop) e s : Q (value_at s identity) s → wp (find identity) Q e s.
  Proof. done. Qed.

Lemma wp_get identity (Q : A → store → Prop) e s :
    (∀ a, value_at s identity = Some a → Q a s) → wp (get identity) Q e s.
  Proof. unfold wp, get, value_at. intros HQ. destruct (rows s !! identity); [by apply HQ|done]. Qed.

Lemma elem_of_list_rows keep s r :
    r ∈ list_rows keep s ↔ keep (row_value r) = true ∧ ∃ i, rows s !! i = Some r.
  Proof.
    unfold list_rows. rewrite elem_of_sort_by, list_elem_of_filter, Is_true_true. f_equiv.
    split.
    - intros ([i r'] & -> & Hi%elem_of_map_to_list)%list_elem_of_fmap. by exists i.
    - intros [i Hi]. apply list_elem_of_fmap. exists (i, r). split; [done|]. by apply elem_of_map_to_list.
  Qed.

Lemma wp_list_where keep (Q : list A → store → Prop) e s :
    (∀ l, (∀ a, a ∈ l ↔ keep a = true ∧ ∃ i, value_at s i = Some a) → Q l s) → wp (list_where keep) Q e s.
  Proof.
    intros HQ. unfold wp, list_where. apply HQ. intros a. rewrite list_elem_of_fmap. split.
    - intros (r & -> & [Hk [i Hi]]%elem_of_list_rows). split; [done|]. exists i. unfold value_at. by rewrite Hi.
    - intros [Hk [i Hi]]. unfold value_at in Hi. destruct (rows s !! i) as [r|] eqn:E; [|done].
      injection Hi as <-. exists r. split; [done|]. apply elem_of_list_rows. eauto.
  Qed.

Lemma wp_list_stored keep (Q : list (row A) → store → Prop) e s : Q (list_rows keep s) s → wp (list_stored keep) Q e s.
  Proof. done. Qed.

Lemma wp_put a event (Q : A → store → Prop) e s :
    (∀ ev, Q a ((put_row a (now e) s) <| st_events := ev |>)) → wp (put a event) Q e s.
  Proof.
    intros HQ. unfold wp, put. destruct event; [apply HQ|].
    specialize (HQ (st_events (put_row a (now e) s))). by destruct (put_row a (now e) s).
  Qed.

End store_rules.
