(* ===== verification/Connections.v ===== *)
(** [weave/connections.py]: which worker endpoints the controller may use. Keys
    identify transports and workers; a worker declared lost stays excluded. The
    event loop, transports and request futures are not modelled. *)

From S2P Require Import Prelude Scheduler Cluster.
Local Open Scope Z_scope.

(** [endpoint_key] *)
Record transport_key := TransportKey {
  tk_hostname : string; tk_workspace : option string; tk_port : Z;
  tk_relay : option string; tk_ssh_host : option string; tk_ssh_port : option Z }.
Definition endpoint_key (e : endpoint) : transport_key :=
  TransportKey (ep_hostname e) (ep_workspace e) (ep_port e) (ep_relay e) (ep_ssh_host e) (ep_ssh_port e).

(** [worker_key] *)
Inductive wkey :=
  | OfWorkspace (hostname workspace : string)
  | OfTransport (k : transport_key).
#[export] Instance transport_key_eq_dec : EqDecision transport_key.
Proof. solve_decision. Defined.
#[export] Instance wkey_eq_dec : EqDecision wkey.
Proof. solve_decision. Defined.
Definition worker_key (e : endpoint) : wkey :=
  match text (ep_workspace e) with
  | Some w => OfWorkspace (ep_hostname e) w
  | None => OfTransport (endpoint_key e)
  end.

(** The registry, without its transports. *)
Record connections := Connections { cn_lost : list wkey; cn_closed : bool }.

Definition is_lost (c : connections) (e : endpoint) : bool := bool_decide (worker_key e ∈ cn_lost c).
Definition available (c : connections) (e : endpoint) : bool := negb (cn_closed c) && negb (is_lost c e).
Definition check (c : connections) (e : endpoint) : res () :=
  if is_lost c e then raise ResourceUnavailable "worker was declared lost"
  else raise_if (cn_closed c) OperationUnknown "controller is stopping; worker request outcome is unknown".
Definition exclude (c : connections) (l : list endpoint) : connections :=
  Connections (map worker_key l ++ cn_lost c) (cn_closed c).
Definition stop (c : connections) : connections := Connections (cn_lost c) true.

(** [Connections.connection]: a relayed or direct connection to a usable endpoint. *)
Inductive connection := Relayed (e : endpoint) | Direct (e : endpoint).
Definition connect (c : connections) (e : endpoint) : res connection :=
  _ ← check c e; Ok (if given (ep_relay e) then Relayed e else Direct e).
Definition connection_endpoint (c : connection) : endpoint :=
  match c with Relayed e => e | Direct e => e end.

(** An endpoint of an excluded worker stays unusable under any port and token. *)
Lemma exclude_lost c l e e' :
  e ∈ l → worker_key e' = worker_key e → is_lost (exclude c l) e' = true ∧ available (exclude c l) e' = false.
Proof.
  intros He E. assert (H : is_lost (exclude c l) e' = true).
  { unfold is_lost, exclude. simpl. apply bool_decide_eq_true_2. rewrite E. apply elem_of_app. left.
    apply list_elem_of_fmap. by exists e. }
  split; [done|]. unfold available. rewrite H. apply andb_false_r.
Qed.

Lemma exclude_mono c l e : is_lost c e = true → is_lost (exclude c l) e = true.
Proof.
  unfold is_lost, exclude. simpl. rewrite !bool_decide_eq_true. intros H. apply elem_of_app. by right.
Qed.
