(* ===== verification/Lifecycle.v ===== *)
(** [weave/lifecycle.py]: lifecycle functions. They run transactions and, between
    them, wait for workers; [prog] is that alternation. [drive] is the direct,
    synchronous run; the interleaved execution of any number of lifecycles is a
    step relation, and [interleaving_safe] reduces a property of every
    interleaving to one of each transaction. *)

From S2P Require Import Prelude Values Resources Scheduler Ownership Cluster Connections.
Local Open Scope Z_scope.

(** * What the controller asks of workers *)

(** The reply of [ping]: the worker's address and its features. *)
Record pong := Pong {
  pg_hostname : string; pg_port : Z; pg_workspace : option string; pg_features : list string }.
Definition feature (p : pong) (f : string) : bool := bool_decide (f ∈ pg_features p).

Record prepared := Prepared { pr_hostname : string; pr_port : Z; pr_workspace : string; pr_token : string }.
Record applied := Applied { ap_token : string; ap_sandbox : info }.
Record deletion := Deletion { dl_state : string; dl_error : option string }.
Record verification := Verification { vf_status : option string; vf_error : string }.
Record process_state := ProcessState {
  ps_returncode : option Z; ps_timed_out : bool; ps_output_limited : bool; ps_cold_boot : bool;
  ps_stdout_size : Z; ps_stderr_size : Z }.

(** The action of [managed_apply]. *)
Inductive action :=
  | Create (request : creation) (process : option process)
  | Claim (owner : option string) (process : option process) (definition : spec)
  | Terminate.

(** The operations, each with the type of its reply. *)
Inductive rpc : Type → Type :=
  | ping : rpc pong
  | take_inventory : rpc inventory
  | managed_prepare (definition : spec) : rpc prepared
  | managed_apply (identity cluster : string) (generation : Z) (a : action) : rpc applied
  | describe (identity : string) : rpc info
  | delete_sandbox (identity : string) : rpc deletion
  | delete_status (identity : string) : rpc deletion
  | capture (identity : string) : rpc saved
  | snapshot_verify (reference : string) : rpc verification
  | snapshot_spec (reference : string) : rpc snapshot
  | snapshot_info (reference : string) : rpc saved
  | artifact_cached (reference : string) (shared_cache : option string) : rpc bool
  | artifact_cache_identity (shared_cache : option string) : rpc string
  | artifact_release (pool : string) (references sources : list string) (shared_cache : option string) : rpc ()
  | service_network_create (identity : string) : rpc string
  | service_network_delete (identity : string) : rpc string
  | file_write (identity path : string) (data : bytes) (offset : Z) (truncate : bool) : rpc ()
  | command_start (identity process_id command : string) (item : value) (task : string) (attempt : Z)
      (timeout : option pyval) (max_output_bytes : pyval) : rpc ()
  | process_stdin (identity process_id : string) : rpc ()
  | process_status (identity process_id : string) : rpc process_state
  | process_output (identity process_id stream : string) (offset size : Z) : rpc bytes.

(** * Programs *)

(** Where an image transfer writes: a shared cache, or a worker's own store. *)
Inductive destination := CacheStore (identity : string) | WorkerStore (k : wkey).
#[export] Instance destination_eq_dec : EqDecision destination.
Proof. solve_decision. Defined.

(** The image transfers: futures with their outcome once there is one, the future
    of each destination and snapshot, and the launches that wait for one. *)
Record preparation := Preparation {
  pn_futures : gmap nat (option (res string));
  pn_transfers : list ((destination * string) * nat);
  pn_waiters : gmap string (Z * nat) }.

(** Lifecycles the controller schedules, and the keys that serialize them. *)
Inductive work :=
  | LaunchWork (allocation : string)
  | ObserveWork (allocation : string)
  | TerminateWork (allocation : string)
  | ProbeWork (worker : string)
  | CaptureWork (pool builder : string)
  | ClaimWork (pool lease allocation : string)
  | ReleaseWork (pool : string)
  | StepWork (task : string).
Inductive work_key := AllocationKey (i : string) | WorkerKey (i : string) | PoolKey (i : string) | TaskKey (i : string).
#[export] Instance work_key_eq_dec : EqDecision work_key.
Proof. solve_decision. Defined.

(** What the controller keeps in memory only. [vo_pending] are the futures that
    are not done. *)
Record volatile := Volatile {
  vo_connections : connections; vo_stopping : bool; vo_pending : list (work_key * work);
  vo_inventoried : gmap string Z; vo_observed : gmap string Z; vo_next_probe : Z;
  vo_preparation : preparation;
  vo_answered : string → option Z }.
#[export] Instance volatile_updatable : Updatable volatile := λ v,
  Volatile (vo_connections v) (vo_stopping v) (vo_pending v) (vo_inventoried v) (vo_observed v) (vo_next_probe v) (vo_preparation v) (vo_answered v).

(** A program returns or raises, asks a worker, runs a transaction, or uses the
    memory of the controller. *)
Inductive prog (A : Type) : Type :=
  | Finished (r : res A)
  | Call {R : Type} (to : connection) (q : rpc R) (k : res R → prog A)
  | Atomic {B : Type} (t : txn B) (k : res B → prog A)
  | Local {B : Type} (f : env → volatile → res B * volatile) (k : res B → prog A).
Arguments Finished {_} _.
Arguments Call {_ _} _ _ _.
Arguments Atomic {_ _} _ _.
Arguments Local {_ _} _ _.

Fixpoint after {A B} (p : prog A) (f : res A → prog B) : prog B :=
  match p with
  | Finished r => f r
  | Call c q k => Call c q (λ r, after (k r) f)
  | Atomic t k => Atomic t (λ r, after (k r) f)
  | Local m k => Local m (λ r, after (k r) f)
  end.

#[export] Instance prog_ret : MRet prog := λ A a, Finished (Ok a).
#[export] Instance prog_bind : MBind prog := λ A B f p,
  after p (λ r, match r with Ok a => f a | Err x => Finished (Err x) end).

(** [try: p except: h] *)
Definition rescue {A} (p : prog A) (h : exn → prog A) : prog A :=
  after p (λ r, match r with Ok a => Finished (Ok a) | Err x => h x end).

Definition fail {A} (x : exn) : prog A := Finished (Err x).
Definition fails {A} (k : exn_class) (msg : string) : prog A := Finished (raise k msg).
Definition fail_if (test : bool) (k : exn_class) (msg : string) : prog () := Finished (raise_if test k msg).
Definition atomic {A} (t : txn A) : prog A := Atomic t Finished.
Definition request {R} (c : connection) (q : rpc R) : prog R := Call c q Finished.
Definition reads {A} (f : env → volatile → res A) : prog A := Local (λ e v, (f e v, v)) Finished.
Definition writes (f : env → volatile → volatile) : prog () := Local (λ e v, (Ok (), f e v)) Finished.
(** [Controller.connection] *)
Definition open_connection (e : endpoint) : prog connection := reads (λ _ v, connect (vo_connections v) e).

(** The key of [Controller._submit]: an observation shares its allocation's. *)
Definition key_of (w : work) : work_key :=
  match w with
  | LaunchWork i | ObserveWork i | TerminateWork i | ClaimWork _ _ i => AllocationKey i
  | ProbeWork i => WorkerKey i
  | CaptureWork p _ | ReleaseWork p => PoolKey p
  | StepWork t => TaskKey t
  end.

(** [Controller._submit]: nothing if the key's previous future is not done. *)
Definition submit_work (w : work) (v : volatile) : volatile :=
  if vo_stopping v || bool_decide (key_of w ∈ (vo_pending v).*1) then v
  else v <| vo_pending := vo_pending v ++ [(key_of w, w)] |>.
Definition _submit (w : work) : prog () := writes (λ _ v, submit_work w v).

Fixpoint in_turn {A} (l : list A) (f : A → prog ()) : prog () :=
  match l with
  | [] => mret ()
  | x :: l => _ ← f x; in_turn l f
  end.

(** What the controller relies on in a reply: a worker never reports a state that
    only the controller gives an allocation. *)
Definition CONTROLLER_STATES : list string := ["pending"; "reserved"; "claiming"; "leased"]%string.
Definition reported (i : info) : Prop := in_state i ∉ CONTROLLER_STATES.
Definition plausible {R} (q : rpc R) : res R → Prop :=
  match q in rpc R return res R → Prop with
  | describe _ => λ r, match r with Ok i => reported i | Err _ => True end
  | managed_apply _ _ _ _ => λ r, match r with Ok a => reported (ap_sandbox a) | Err _ => True end
  | _ => λ _, True
  end.

(** * Execution *)

(** The synchronous run of [lifecycle]: the worker answers at once. *)
Section drive.
  Context (answer : ∀ R : Type, connection → rpc R → store → res R) (e : env).
Fixpoint drive {A} (p : prog A) (s : store) (v : volatile) : res A * store * volatile :=
    match p with
    | Finished r => (r, s, v)
    | Call c q k => drive (k (answer _ c q s)) s v
    | Atomic t k => match t e s with
                    | Ok (b, s') => drive (k (Ok b)) s' v
                    | Err x => drive (k (Err x)) s v
                    end
    | Local f k => let '(r, v') := f e v in drive (k r) s v'
    end.
End drive.

(** One step of a lifecycle: [advance] to its next transaction or reply. *)
Inductive advance {A} : prog A → store → volatile → prog A → store → volatile → Prop :=
  | advance_reply {R} c (q : rpc R) k r s v : plausible q r → advance (Call c q k) s v (k r) s v
  | advance_commit {B} (t : txn B) k e s v b s' :
      t e s = Ok (b, s') → advance (Atomic t k) s v (k (Ok b)) s' v
  | advance_raise {B} (t : txn B) k e s v x : t e s = Err x → advance (Atomic t k) s v (k (Err x)) s v
  | advance_local {B} (f : env → volatile → res B * volatile) k e s v r v' :
      f e v = (r, v') → advance (Local f k) s v (k r) s v'.

(** What a crash leaves: everything but the recoverable observations of workers
    ([State.transaction(deferred=True)]) and their events. *)
Definition survives (s s' : store) : Prop := ∃ w l, s' = s <| st_workers := w |> <| st_events := l |>.

(** The controller: the lifecycles that run, the store and the memory. A new
    lifecycle starts, one of the running ones advances, the memory changes (a
    transfer ends, a request is answered, the controller stops), or the process
    ends and another one opens the store. *)
Record running := Running { rn_threads : list (prog ()); rn_store : store; rn_volatile : volatile }.
Inductive runs (starts : prog () → Prop) : running → running → Prop :=
  | runs_start p ts s v : starts p → runs starts (Running ts s v) (Running (p :: ts) s v)
  | runs_advance ts ts' p p' s v s' v' :
      advance p s v p' s' v' →
      runs starts (Running (ts ++ p :: ts') s v) (Running (ts ++ p' :: ts') s' v')
  | runs_memory ts s v v' : runs starts (Running ts s v) (Running ts s v')
  | runs_restart ts s v s' v' : survives s s' → runs starts (Running ts s v) (Running [] s' v').
Abbreviation interleaved starts := (rtc (runs starts)).

(** * Safety of every interleaving *)

(** Every transaction a program can reach relates the store before and after it. *)
Fixpoint safe {A} (R : store → store → Prop) (p : prog A) : Prop :=
  match p with
  | Finished _ => True
  | Call _ q k => ∀ r, plausible q r → safe R (k r)
  | Atomic t k => (∀ e s, wp t (λ _ s', R s s') e s) ∧ ∀ r, safe R (k r)
  | Local _ k => ∀ r, safe R (k r)
  end.

Lemma safe_after {A B} R (p : prog A) (f : res A → prog B) :
  safe R p → (∀ r, safe R (f r)) → safe R (after p f).
Proof. intros Hp Hf. induction p as [r|? c q k IH|? t k IH|? m k IH]; simpl in *; [done|..]; naive_solver. Qed.

Lemma safe_bind {A B} R (p : prog A) (f : A → prog B) :
  safe R p → (∀ a, safe R (f a)) → safe R (p ≫= f).
Proof. intros Hp Hf. apply safe_after; [done|]. by intros [a|x]. Qed.

Lemma safe_rescue {A} R (p : prog A) h : safe R p → (∀ x, safe R (h x)) → safe R (rescue p h).
Proof. intros Hp Hh. apply safe_after; [done|]. by intros [a|x]. Qed.

Lemma safe_atomic {A} R (t : txn A) : (∀ e s, wp t (λ _ s', R s s') e s) → safe R (atomic t).
Proof. done. Qed.

Lemma safe_request {A} R (c : connection) (q : rpc A) : safe R (request c q).
Proof. done. Qed.

(** The reply is plausible where it is used. *)
Lemma safe_reply {A B} R (c : connection) (q : rpc A) (f : A → prog B) :
  (∀ a, plausible q (Ok a) → safe R (f a)) → safe R (request c q ≫= f).
Proof. intros Hf. simpl. intros [a|x] Hr; [by apply Hf|done]. Qed.

Lemma safe_in_turn {A} R (l : list A) f : (∀ x, safe R (f x)) → safe R (in_turn l f).
Proof. intros Hf. induction l as [|x l IH]; simpl; [done|]. by apply safe_bind. Qed.

Lemma safe_advance {A} R (p p' : prog A) s v s' v' :
  PreOrder R → advance p s v p' s' v' → safe R p → R s s' ∧ safe R p'.
Proof.
  intros [Hrefl Htrans] Hstep.
  destruct Hstep as [R' c q k r s v Hr|B t k e s v b s' Hok|B t k e s v x Herr|B f k e s v r v' Hf]; simpl; intros Hsafe.
  - split; [apply Hrefl|by apply Hsafe].
  - destruct Hsafe as [Ht Hk]. split; [|done]. exact (wp_ok t _ e s b s' (Ht e s) Hok).
  - destruct Hsafe as [Ht Hk]. by split; [apply Hrefl|].
  - by split; [apply Hrefl|].
Qed.

Lemma interleaving_safe R starts c c' :
  PreOrder R → (∀ p, starts p → safe R p) → (∀ s s', survives s s' → R s s') →
  interleaved starts c c' → Forall (safe R) (rn_threads c) →
  R (rn_store c) (rn_store c') ∧ Forall (safe R) (rn_threads c').
Proof.
  intros HR Hstarts Hsurvives Hrun. induction Hrun as [c|c c1 c2 Hstep _ IH]; intros Hth; [by split; [apply HR|]|].
  enough (R (rn_store c) (rn_store c1) ∧ Forall (safe R) (rn_threads c1)) as [H1 H2].
  { destruct (IH H2) as [H3 H4]. split; [|done]. destruct HR as [_ Htrans]. by eapply Htrans. }
  destruct Hstep as [p ts s v Hp|ts ts' p p' s v s' v' Hadv|ts s v v'|ts s v s' v' Hs]; simpl in *;
    [| |by split; [apply HR|]|by split; [apply Hsurvives|]].
  - split; [apply HR|]. constructor; [by apply Hstarts|done].
  - apply Forall_app in Hth as [Ha [Hp Hb]%Forall_cons]. destruct (safe_advance R _ _ _ _ _ _ HR Hadv Hp) as [? ?].
    split; [done|]. apply Forall_app. split; [done|]. by constructor.
Qed.

(** * Schedules *)

(** A schedule directs an execution: it starts programs, moves one of them by some
    steps, changes the memory, or restarts. [answer] replies for the workers. *)
Inductive command := Begin (p : prog ()) | Move (k n : nat) | Remember (f : volatile → volatile) | Restart.

Section schedules.
  Context (answer : ∀ R : Type, rpc R → res R) (e : env).
  Context (Hanswer : ∀ R (q : rpc R), plausible q (answer R q)).

Definition move_once {A} (p : prog A) (s : store) (v : volatile) : prog A * store * volatile :=
    match p with
    | Finished r => (Finished r, s, v)
    | Call _ q k => (k (answer _ q), s, v)
    | Atomic t k => match t e s with Ok (b, s') => (k (Ok b), s', v) | Err x => (k (Err x), s, v) end
    | Local f k => let '(r, v') := f e v in (k r, s, v')
    end.
Fixpoint move {A} (n : nat) (p : prog A) (s : store) (v : volatile) : prog A * store * volatile :=
    match n with O => (p, s, v) | S n => let '(p, s, v) := move_once p s v in move n p s v end.

Definition obey (c : running) (x : command) : running :=
    match x with
    | Begin p => Running (p :: rn_threads c) (rn_store c) (rn_volatile c)
    | Move k n =>
        match rn_threads c !! k with
        | Some p => let '(p, s, v) := move n p (rn_store c) (rn_volatile c) in Running (<[k := p]> (rn_threads c)) s v
        | None => c
        end
    | Remember f => Running (rn_threads c) (rn_store c) (f (rn_volatile c))
    | Restart => Running [] (rn_store c) (rn_volatile c)
    end.
Definition follow (c : running) (l : list command) : running := foldl obey c l.

Lemma move_runs starts n ts ts' p s v :
    let '(p', s', v') := move n p s v in
    interleaved starts (Running (ts ++ p :: ts') s v) (Running (ts ++ p' :: ts') s' v').
  Proof.
    revert p s v. induction n as [|n IH]; intros p s v; cbn [move]; [reflexivity|].
    assert (Hstep : let '(p', s', v') := move_once p s v in
      interleaved starts (Running (ts ++ p :: ts') s v) (Running (ts ++ p' :: ts') s' v')).
    { destruct p as [r|R c q k|B t k|B f k]; cbn [move_once].
      - reflexivity.
      - apply rtc_once, runs_advance. by constructor.
      - destruct (t e s) as [[b s']|x] eqn:Et; apply rtc_once, runs_advance.
        + by apply (advance_commit t k e).
        + by apply (advance_raise t k e).
      - destruct (f e v) as [r v'] eqn:Ef. apply rtc_once, runs_advance. by apply (advance_local f k e). }
    destruct (move_once p s v) as [[p1 s1] v1]. specialize (IH p1 s1 v1).
    destruct (move n p1 s1 v1) as [[p' s'] v']. by etransitivity.
  Qed.

Lemma obey_runs starts c x : (∀ p, x = Begin p → starts p) → interleaved starts c (obey c x).
  Proof.
    intros Hx. destruct c as [ts s v], x as [p|k n|f|]; simpl.
    - apply rtc_once. constructor. by apply Hx.
    - destruct (ts !! k) as [p|] eqn:Ek; [|reflexivity]. pose proof (move_runs starts n (take k ts) (drop (S k) ts) p s v) as Hm.
      destruct (move n p s v) as [[p' s'] v']. rewrite take_drop_middle in Hm by done.
      rewrite insert_take_drop by (by eapply lookup_lt_Some). exact Hm.
    - apply rtc_once. constructor.
    - apply rtc_once. constructor. by exists (st_workers s), (st_events s); destruct s.
  Qed.

Lemma follow_runs starts c l : (∀ p, Begin p ∈ l → starts p) → interleaved starts c (follow c l).
  Proof.
    revert c. induction l as [|x l IH]; intros c Hl; [reflexivity|]. simpl. etransitivity.
    - apply obey_runs. intros p E. apply Hl. rewrite E. by left.
    - apply IH. intros p Hp. apply Hl. by right.
  Qed.
End schedules.
