(* ===== verification/Artifacts.v ===== *)
(** [weave/artifacts.py]: the cluster's snapshots. A snapshot is registered from a
    worker that has it, with that worker among its locations, and resolved by
    identity or cache name. Copying between workers ([transfer]) is not modelled. *)

From S2P Require Import Prelude OrderedDict Values Resources Scheduler Cluster Connections Lifecycle.
Local Open Scope Z_scope.

Definition retired (a : artifact) : bool := af_retiring a || af_released a.

(** The transaction of [register]: the snapshot, and the cache name if one is given.
    [expected] is the name's reference the caller compares with. *)
Definition register_commit (s : snapshot) (i : saved) (e : endpoint) (key : option string)
    (expected : option (option string)) : txn () :=
  old ← find (A := artifact) (sa_id i);
  _ ← throw_if (from_option retired false old) CacheMiss ("snapshot is being released: " ++ sa_id i);
  let locations := from_option af_locations [] old in
  let locations := if bool_decide (e ∈ locations) then locations else locations ++ [e] in
  _ ← save (Artifact (sa_id i) i s locations false false) None;
  match key with
  | None => mret ()
  | Some k =>
      current ← find (A := alias) k;
      _ ← throw_if (match expected with
                    | Some x => negb (bool_decide (ai_reference <$> current = x))
                    | None => false
                    end) CacheConflict ("cluster cache name changed during capture: " ++ k);
      save (Alias k (sa_id i)) None
  end.

(** [register] *)
Definition register (reference : string) (e : endpoint) (key : option string) (expected : option (option string))
    : prog snapshot :=
  c ← open_connection e;
  s ← request c (snapshot_spec reference);
  i ← request c (snapshot_info (sp_reference s));
  _ ← reads (λ _ v, check (vo_connections v) e);
  _ ← atomic (register_commit s i e key expected);
  mret s.

(** The errors after which [resolve] asks the next worker. *)
Definition try_next (x : exn) : bool :=
  bool_decide (exn_kind x ∈ [CacheMiss; OperationUnknown; ResourceUnavailable; OSError; FileNotFoundError;
                             FileExistsError; PermissionError; TimeoutError]).

Fixpoint resolve_from (reference : string) (workers : list worker) : prog artifact :=
  match workers with
  | [] => fails CacheMiss ("cluster has no saved revision or cache: " ++ reference)
  | w :: workers =>
      rescue (s ← register reference (wk_endpoint w)
                    (if str_startswith "snap-" reference then None else Some reference) None;
              atomic (get (sp_reference s)))
             (λ x, if try_next x then resolve_from reference workers else fail x)
  end.

(** [resolve] *)
Definition resolve (reference : string) : prog artifact :=
  a ← atomic (find (A := alias) reference);
  let identity := from_option ai_reference reference a in
  known ← atomic (find (A := artifact) identity);
  match known with
  | Some r =>
      if retired r then fails CacheMiss ("snapshot has been released or is being released: " ++ identity)
      else mret r
  | None =>
      workers ← atomic (list_where (λ w : worker, bool_decide (wk_state w = "ready"%string)));
      resolve_from reference workers
  end.

(** The operations of [dispatch] that answer from the store, or register. *)
Definition snapshot_alias (key : string) : prog (option string) :=
  a ← atomic (find (A := alias) key); mret (fmap (M := option) ai_reference a).
Definition snapshot_register (reference : string) (e : endpoint) (key : option string)
    (expected : option (option string)) : prog snapshot := register reference e key expected.
Definition snapshot_definition (reference : string) : prog snapshot := a ← resolve reference; mret (af_spec a).

(** The others are forwarded to the first location that answers. *)
Fixpoint forward {R : Type} (q : rpc R) (locations : list endpoint) : prog R :=
  match locations with
  | [] => fails CacheMiss "snapshot sources are unavailable: "
  | l :: locations =>
      usable ← reads (λ _ v, Ok (available (vo_connections v) l));
      if usable : bool then rescue (c ← open_connection l; request c q) (λ _, forward q locations)
      else forward q locations
  end.
Definition dispatch_snapshot {R : Type} (reference : string) (q : string → rpc R) : prog R :=
  r ← resolve reference; forward (q (af_id r)) (af_locations r).
