(* ===== verification/ServiceNetworks.v ===== *)
(** [weave/networks.py]: service networks, each pinned to a worker. [dispatch]
    creates and deletes; [placement] pins a member's allocation. *)

From S2P Require Import Prelude OrderedDict MemberNetworks Resources Scheduler Cluster Connections Lifecycle.
Local Open Scope Z_scope.

Inductive network_operation := CreateNetwork | DeleteNetwork.

(** What the reservation decided: an answer, or the record to act on. *)
Inductive reservation_result := Answered (worker : option string) (state : string) | Reserved (n : service_network).

(** The ready worker with the fewest networks. *)
Definition network_counts (l : list service_network) (w : string) : nat :=
  length (filter (λ n, sn_state n ≠ "deleted"%string ∧ sn_worker n = w) l).
Definition network_lt (l : list service_network) (a b : worker) : bool :=
  let m := network_counts l (wk_id a) in
  let n := network_counts l (wk_id b) in
  (m <? n)%nat || ((m =? n)%nat && str_ltb (wk_id a) (wk_id b)).

Definition new_network (identity : string) : txn service_network :=
  workers ← list_where (λ w : worker, bool_decide (wk_state w = "ready"%string) && negb (wk_draining w) && negb (wk_lost w));
  networks ← list_all (A := service_network);
  match min_by (network_lt networks) workers with
  | None => throw ResourceUnavailable "no ready worker is available for the service network"
  | Some w => put (ServiceNetwork identity (wk_id w) (wk_endpoint w) "creating" None) None
  end.

(** The first transaction of [dispatch]. *)
Definition reserve_network (op : network_operation) (identity : string) : txn reservation_result :=
  record ← find (A := service_network) identity;
  match op, record with
  | CreateNetwork, None => n ← new_network identity; mret (Reserved n)
  | CreateNetwork, Some n =>
      if bool_decide (sn_state n = "ready"%string) then mret (Answered (Some (sn_worker n)) "ready")
      else if bool_decide (sn_state n = "failed"%string) then
        n ← put (n <| sn_state := "creating"%string |>) None; mret (Reserved n)
      else
        _ ← throw_if (negb (bool_decide (sn_state n = "creating"%string))) FileNotFoundError
              "service network was deleted or is being deleted";
        mret (Reserved n)
  | DeleteNetwork, None => throw FileNotFoundError "unknown service network"
  | DeleteNetwork, Some n =>
      if bool_decide (sn_state n = "deleted"%string) then mret (Answered None "deleted")
      else
        _ ← throw_if (bool_decide (sn_state n = "creating"%string)) ResourceUnavailable
              "service network creation is still in progress";
        members ← list_where (λ a : allocation, negb (al_released a)
                    && bool_decide (f_network_id (spec_fields (al_spec a)) = Some identity));
        _ ← throw_if (negb (bool_decide (members = []))) ResourceUnavailable
              "terminate the service network members before deleting the network";
        n ← put (n <| sn_state := "deleting"%string |>) None; mret (Reserved n)
  end.

(** A failed request: a creation failed, a deletion left the network in place. *)
Definition network_failed (op : network_operation) (identity : string) (x : exn) : txn () :=
  current ← get (A := service_network) identity;
  let expected := match op with DeleteNetwork => "deleting"%string | CreateNetwork => "creating"%string end in
  when (bool_decide (sn_state current = expected))
    (save (current <| sn_state := match op with DeleteNetwork => "ready"%string | CreateNetwork => "failed"%string end |>
                   <| sn_error := Some (exn_text x) |>) None).

Definition network_settled (identity state : string) : txn () :=
  current ← get (A := service_network) identity;
  save (current <| sn_state := state |>) None.

(** [dispatch] *)
Definition dispatch_network (op : network_operation) (identity : string) : prog (option string * string) :=
  _ ← Finished (network_id identity);
  r ← atomic (reserve_network op identity);
  match r with
  | Answered w s => mret (w, s)
  | Reserved record =>
      w ← atomic (get (A := worker) (sn_worker record));
      if wk_lost w || bool_decide (wk_state w = "removed"%string) then
        match op with
        | DeleteNetwork =>
            _ ← atomic (save (record <| sn_state := "deleted"%string |>) None); mret (None, "deleted"%string)
        | CreateNetwork => fails ResourceUnavailable "service network worker is unavailable"
        end
      else
        c ← open_connection (sn_endpoint record);
        state ← rescue
          (p ← request c ping;
           _ ← fail_if (negb (feature p "service_networks")) UnsupportedFeature
                 "service networks require Sandweave 0.2.24 or newer on the worker";
           request c (match op with
                      | CreateNetwork => service_network_create identity
                      | DeleteNetwork => service_network_delete identity
                      end))
          (λ x, _ ← atomic (network_failed op identity x); fail x);
        _ ← atomic (network_settled identity state);
        mret (Some (sn_worker record), state)
  end.

(** [placement]: the worker a definition is pinned to. *)
Definition placement (s : spec) : txn (option string) :=
  match text (f_network_id (spec_fields s)) with
  | None => mret None
  | Some i =>
      _ ← lift (network_id i);
      record ← get (A := service_network) i;
      _ ← throw_if (negb (bool_decide (sn_state record = "ready"%string))) ResourceUnavailable
            ("service network is not ready: " ++ sn_state record);
      w ← get (A := worker) (sn_worker record);
      _ ← throw_if (wk_lost w || bool_decide (wk_state w = "removed"%string)) ResourceUnavailable
            "service network worker was lost; create a new network";
      mret (Some (sn_worker record))
  end.
