(* ===== verification/Preparation.v ===== *)
(** [weave/preparation.py]: one image transfer per destination; launches wait for
    its future and resume from it. The transfer itself runs elsewhere. *)

From S2P Require Import Prelude OrderedDict Values Resources Scheduler Cluster Connections Lifecycle.
From S2P Require Import Artifacts.
Local Open Scope Z_scope.

Definition future_done (p : preparation) (f : nat) : bool :=
  match pn_futures p !! f with Some (Some _) => true | _ => false end.

(** [Preparation.waiting] *)
Definition waiting (p : preparation) (identity : string) (generation : Z) : bool :=
  match pn_waiters p !! identity with
  | Some (g, f) => (g =? generation) && negb (future_done p f)
  | None => false
  end.

(** [Preparation.take] *)
Definition take_waiter (p : preparation) (identity : string) : option (Z * nat) * preparation :=
  (pn_waiters p !! identity, Preparation (pn_futures p) (pn_transfers p) (delete identity (pn_waiters p))).

(** [Preparation.reap]: the generations of the allocations that should run. *)
Definition reap (p : preparation) (active : gmap string Z) : preparation :=
  Preparation (pn_futures p) (filter (λ t, future_done p t.2 = false) (pn_transfers p))
    (filter (λ w : string * (Z * nat), active !! w.1 = Some w.2.1) (pn_waiters p)).

(** The end of [Preparation.request]: the launch waits for the transfer that is
    under way, or for a new one. *)
Definition join_transfer (p : preparation) (key : destination * string) (identity : string) (generation : Z)
    : preparation :=
  match od_get key (pn_transfers p) with
  | Some f =>
      if future_done p f then
        let f' := fresh (dom (pn_futures p)) in
        Preparation (<[f' := None]> (pn_futures p)) (od_set key f' (pn_transfers p)) (<[identity := (generation, f')]> (pn_waiters p))
      else Preparation (pn_futures p) (pn_transfers p) (<[identity := (generation, f)]> (pn_waiters p))
  | None =>
      let f' := fresh (dom (pn_futures p)) in
      Preparation (<[f' := None]> (pn_futures p)) (od_set key f' (pn_transfers p)) (<[identity := (generation, f')]> (pn_waiters p))
  end.

Definition on_preparation (f : preparation → preparation) : prog () :=
  writes (λ _ v, v <| vo_preparation := f (vo_preparation v) |>).

(** A revision the worker already has is registered, and satisfies the launch. *)
Definition native_revision (reference : string) (e : endpoint) : prog string :=
  a ← atomic (find (A := artifact) reference);
  if from_option retired false a then fails CacheMiss ("snapshot is being released: " ++ reference)
  else if from_option (λ a, bool_decide (e ∈ af_locations a)) false a then mret reference
  else s ← register reference e None None; mret (sp_reference s).

Definition storage_identity (c : connection) (e : endpoint) (cache : option string) : prog destination :=
  match cache with
  | None => mret (WorkerStore (worker_key e))
  | Some _ =>
      rescue (i ← request c (artifact_cache_identity cache); mret (CacheStore i))
        (λ x, if bool_decide (x = Exn ValueError "unknown artifact operation")
              then fails UnsupportedFeature "shared image preparation requires Sandweave 0.2.15 or newer on the worker"
              else fail x)
  end.

(** [Preparation.request]: the snapshot, or nothing while its transfer runs. *)
Definition request_image (identity : string) (generation : Z) (reference : string) (c : connection) (e : endpoint)
    (cache : option string) : prog (option string) :=
  after (request c (snapshot_info reference)) (λ r,
    match r with
    | Ok _ => s ← native_revision reference e; mret (Some s)
    | Err x =>
        if bool_decide (exn_kind x ∈ [CacheMiss; FileNotFoundError]) then
          d ← storage_identity c e cache;
          _ ← on_preparation (λ p, join_transfer p (d, reference) identity generation);
          mret None
        else fail x
    end).
