(* ===== verification/Workers.v ===== *)
(** [weave/controller.py], workers: registration, configuration, loss and the
    probe that keeps a worker's record current. Attaching to a target that is not
    a known endpoint starts processes and is an argument ([attach]). *)

From S2P Require Import Prelude OrderedDict Values Proxy Resources GpuMatching Scheduler Cluster Connections.
From S2P Require Import Lifecycle.
Local Open Scope Z_scope.

Definition INVENTORY_EVERY : Z := seconds 30.
Definition UNREACHABLE_AFTER : Z := seconds 60.

(** * Reading an inventory *)

(** [sorted(set(l))] *)
Definition sorted_set (l : list string) : list string := sort_by str_ltb (remove_dups l).

Definition boot_of (scope : value) : option string :=
  match scope with
  | Dict d => match od_get "boot"%string d with Some (Text b) => Some b | _ => None end
  | _ => None
  end.
Definition machine_of (i : inventory) : option string := machine (boot_of (iv_scope i)).

(** [Controller._external]: what runs on the worker for others than this cluster. *)
Definition _external (cluster : string) (i : inventory) : external :=
  let live := filter (λ r, lr_cluster r ≠ Some cluster) (iv_live i) in
  External (Amount (sumZ (map lr_memory live)) (sumZ (map (λ r, default 1 (lr_slots r)) live)) (sumZ (map lr_gpu live)))
           (sorted_set (concat (map lr_gpu_uuids live))).

(** [Controller._sum_external] *)
Definition _sum_external (instances : list (string * instance)) : external :=
  let values := map (λ i, is_external i.2) instances in
  External (foldr (λ v, add_amount (ex_amount v)) zero values) (sorted_set (concat (map ex_uuids values))).

(** [providers.endpoint] *)
Definition published (p : pong) (token : string) (t : target) : endpoint :=
  let base := Endpoint (pg_hostname p) (pg_port p) token (text (pg_workspace p)) None None None in
  match t with
  | Named s => if str_startswith "ssh://" s then base <| ep_ssh_host := Some (of_chars (drop 6 (chars s))) |> else base
  | Described e host =>
      let base := match e with
                  | Some e => base <| ep_relay := ep_relay e |> <| ep_ssh_host := ep_ssh_host e |> <| ep_ssh_port := ep_ssh_port e |>
                  | None => base
                  end in
      match text host with Some h => base <| ep_ssh_host := Some h |> | None => base end
  end.

(** [Controller._worker_endpoints] *)
Definition _worker_endpoints (w : worker) : list endpoint :=
  wk_endpoint w :: map (λ i, is_endpoint i.2) (wk_instances w)
  ++ match wk_target w with Described (Some e) _ => [e] | _ => [] end.

(** * Planning records *)

(** What the scheduler reads of a worker and of an allocation. *)
Definition wrec_of (w : worker) : wrec :=
  WRec (wk_id w) (wk_state w) (wk_draining w)
    (Amount (ca_memory (wk_capacity w)) (ca_slots (wk_capacity w)) (ca_gpu (wk_capacity w)))
    (wk_labels w) (Some (wk_runtimes w)) (iv_kvm (wk_inventory w)) (wk_machine w) (boot_of (iv_scope (wk_inventory w)))
    (ex_amount (wk_external w)) (ex_uuids (wk_external w)) (wk_gpus w).
Definition arec_of (created : Z) (a : allocation) : arec :=
  ARec (al_id a) (al_parent a) (al_worker a) (al_released a) (al_prepared a) created (al_spec a).
Definition al_charged (a : allocation) : bool := charged (arec_of 0 a).

(** * Registration *)

Definition same_set (a b : list Z) : bool := bool_decide ((list_to_set a : gset Z) = list_to_set b).
Definition same_uuids (a b : list device) : bool :=
  bool_decide ((list_to_set (map dev_uuid a) : gset string) = list_to_set (map dev_uuid b)).

(** The rest of a move of the worker's endpoint, in the records that hold it. *)
Definition reroute (identity : string) (i : inventory) (route : endpoint) : txn () :=
  allocations ← list_where (λ a : allocation, bool_decide (al_worker a = Some identity));
  _ ← for_each allocations (λ a,
        match al_endpoint a with
        | Some e => when (bool_decide (ep_workspace e = Some (iv_workspace i)) && negb (bool_decide (e = route)))
                      (save (a <| al_endpoint := Some route |>) None)
        | None => mret ()
        end);
  artifacts ← list_all (A := artifact);
  _ ← for_each artifacts (λ a,
        let locations := map (λ l, if bool_decide (ep_hostname l = iv_hostname i)
                                      && bool_decide (ep_workspace l = Some (iv_workspace i))
                                   then route else l) (af_locations a) in
        when (negb (bool_decide (locations = af_locations a))) (save (a <| af_locations := locations |>) None));
  networks ← list_where (λ n : service_network, bool_decide (sn_worker n = identity));
  for_each networks (λ n,
    when (bool_decide (ep_workspace (sn_endpoint n) = Some (iv_workspace i)) && negb (bool_decide (sn_endpoint n = route)))
      (save (n <| sn_endpoint := route |>) None)).

(** [Controller._accept_worker], the inventory and the address given. *)
Definition _accept_worker (cluster identity : string) (token : string) (i : inventory) (p : pong) (promote : bool)
    : txn endpoint :=
  record ← get (A := worker) identity;
  _ ← throw_if (bool_decide (wk_state record = "removed"%string)) ResourceUnavailable "worker has been removed";
  let old := wk_inventory record in
  _ ← throw_if (negb (iv_protocol i =? PROTOCOL) || negb (bool_decide (iv_scope old = iv_scope i))
                || negb (same_set (iv_cpus old) (iv_cpus i)) || negb (same_uuids (iv_gpus old) (iv_gpus i)))
        ResourceUnavailable "worker resource allocation changed; drain and register it separately";
  let route := published p token (wk_target record) in
  let previous_route := is_endpoint <$> od_get (iv_workspace i) (wk_instances record) in
  let instances := od_set (iv_workspace i) (Instance route (_external cluster i) (iv_telemetry i)) (wk_instances record) in
  let record := record <| wk_instances := instances |> in
  let record := if promote || bool_decide (iv_workspace old = iv_workspace i)
                then record <| wk_endpoint := route |> <| wk_inventory := i |> else record in
  let record := record <| wk_external := _sum_external instances |> <| wk_machine := machine_of i |> in
  _ ← save record None;
  _ ← (if bool_decide (previous_route = Some route) then mret () else reroute identity i route);
  mret route.

Class Digests := {
  stamp_of : creation → string;
  canonical_of : creation → string;
  worker_identity : string → string → string }.

(** What [worker_add] is called with, besides the target. *)
Record worker_options := WorkerOptions {
  wo_slots : option pyval; wo_memory : option pyval; wo_labels : option (gmap string string); wo_name : option string }.

Definition limits_of (o : worker_options) (i : inventory) : res (Z * Z) :=
  slots ← match wo_slots o with
          | None => Ok (Z.of_nat (length (iv_cpus i)))
          | Some v => match positive v "slots" true with Ok (VInt n) => Ok n | Ok _ => raise ValueError "slots" | Err x => Err x end
          end;
  memory ← match wo_memory o with None => Ok (iv_memory i) | Some v => memory_bytes v end;
  _ ← raise_if (iv_memory i <? memory) ValueError "worker memory reservation exceeds its eligible budget";
  Ok (slots, memory).

(** Another registered worker on the same host that shares a processor or a GPU. *)
Definition overlaps (identity : string) (i : inventory) (other : worker) : bool :=
  negb (bool_decide (wk_id other = identity)) && negb (bool_decide (wk_state other = "removed"%string))
  && bool_decide (iv_scope (wk_inventory other) = iv_scope i)
  && (existsb (λ c, bool_decide (c ∈ iv_cpus i)) (iv_cpus (wk_inventory other))
      || existsb (λ g, bool_decide (dev_uuid g ∈ map dev_uuid (iv_gpus i))) (wk_gpus other)).

Section workers.
  Context `{Digests} (cluster : string).

(** A registration that finds no record of the worker, or a removed one. *)
Definition new_worker (t : target) (o : worker_options) (i : inventory) (route : endpoint) (slots memory : Z)
    : txn worker :=
  let identity := worker_identity (iv_hostname i) (iv_workspace i) in
  others ← list_all (A := worker);
  _ ← throw_if (existsb (overlaps identity i) others) ValueError "worker CPU or GPU allocation overlaps registered worker";
  seen ← the_time;
  put (Worker identity "ready" t (machine_of i) (default (iv_hostname i) (text (wo_name o))) route
         (default ∅ (wo_labels o)) i
         (Capacity slots (Z.of_nat (length (iv_cpus i))) memory (Z.of_nat (length (iv_gpus i))))
         (iv_cpus i) (iv_gpus i) (iv_runtimes i) false seen
         [(iv_workspace i, Instance route (_external cluster i) (iv_telemetry i))] (_external cluster i) false None)
      (Some "worker registered"%string).

(** A registration that finds the worker: its limits are kept. *)
Definition rejoin_worker (w : worker) (t : target) (token : string) (o : worker_options) (i : inventory) (p : pong)
    (slots memory : Z) : txn worker :=
  _ ← throw_if (negb (ca_slots (wk_capacity w) =? slots) || negb (ca_memory (wk_capacity w) =? memory)
                || negb (bool_decide (wk_labels w = default ∅ (wo_labels o)))) ValueError
        "worker is already registered with different limits or labels; drain and remove it before rejoining";
  _ ← save (w <| wk_target := t |>) None;
  _ ← _accept_worker cluster (wk_id w) token i p false;
  get (wk_id w).

(** [Controller.worker_add] over an attached connection. *)
Definition worker_add (c : connection) (t : target) (o : worker_options) : prog worker :=
  i ← request c take_inventory;
  p ← request c ping;
  let token := ep_token (connection_endpoint c) in
  _ ← fail_if (negb (iv_protocol i =? PROTOCOL)) ResourceUnavailable
        "worker protocol differs; install the same Sandweave version on the worker";
  limits ← Finished (limits_of o i);
  let '(slots, memory) := limits : Z * Z in
  atomic (
    previous ← find (A := worker) (worker_identity (iv_hostname i) (iv_workspace i));
    _ ← throw_if (from_option wk_lost false previous) ResourceUnavailable
          "worker was declared lost; join with a new worker workspace after stopping the old allocation";
    match previous with
    | Some w => if bool_decide (wk_state w = "removed"%string)
                then new_worker t o i (published p token t) slots memory
                else rejoin_worker w t token o i p slots memory
    | None => new_worker t o i (published p token t) slots memory
    end).

(** * Configuration and loss *)

Record worker_changes := WorkerChanges {
  wc_draining : option bool; wc_slots : option pyval; wc_labels : option (gmap string string);
  wc_remove : bool; wc_lost : bool }.

Definition lost_error : string := "worker allocation was confirmed stopped by the operator".

(** A lost worker's copies are forgotten, its sandboxes ended, their leases failed. *)
Definition drop_locations (w : worker) : txn () :=
  let excluded := map worker_key (_worker_endpoints w) in
  artifacts ← list_all (A := artifact);
  for_each artifacts (λ a,
    let locations := filter (λ e, worker_key e ∉ excluded) (af_locations a) in
    when (negb (bool_decide (locations = af_locations a))) (save (a <| af_locations := locations |>) None)).

Definition lose_allocation (a : allocation) : txn () :=
  when (al_charged a) (
    _ ← save (a <| al_state := "failed"%string |> <| al_desired := "terminated"%string |> <| al_released := true |>
                <| al_generation := al_generation a + 1 |> <| al_error := Some lost_error |>) (Some lost_error);
    match text (al_lease a) with
    | None => mret ()
    | Some l =>
        lease ← get (A := pool_lease) l;
        when (bool_decide (le_state lease ∈ ["pending"; "claiming"; "ready"]%string))
          (save (lease <| le_state := "failed"%string |> <| le_error := Some lost_error |>) None)
    end).

(** The transaction of [Controller.worker_update]. *)
Definition update_worker (identity : string) (ch : worker_changes) : txn worker :=
  w ← get (A := worker) identity;
  mine ← list_where (λ a : allocation, bool_decide (al_worker a = Some identity));
  _ ← throw_if (wc_remove ch && negb (wc_lost ch) && existsb al_charged mine) ResourceUnavailable
        "worker still has reserved sandboxes; wait for cleanup, or use lost=True only after confirming its allocation has stopped";
  let w := match wc_draining ch with Some d => w <| wk_draining := d |> | None => w end in
  slots ← lift (match wc_slots ch with
                | None => Ok (ca_slots (wk_capacity w))
                | Some v => match positive v "slots" true with Ok (VInt n) => Ok n | Ok _ => raise ValueError "slots" | Err x => Err x end
                end);
  let w := w <| wk_capacity := (wk_capacity w) <| ca_slots := slots |> |> in
  let w := match wc_labels ch with Some l => w <| wk_labels := l |> | None => w end in
  let w := if wc_remove ch then w <| wk_state := "removed"%string |> else w in
  let w := if wc_remove ch && wc_lost ch then w <| wk_lost := true |> <| wk_draining := true |> else w in
  _ ← when (wc_remove ch && wc_lost ch) (_ ← drop_locations w; for_each mine lose_allocation);
  put w (Some "worker configuration updated"%string).

(** [Controller.worker_update] *)
Definition worker_update (identity : string) (ch : worker_changes) : prog worker :=
  _ ← fail_if (wc_lost ch && negb (wc_remove ch)) ValueError
        "lost=True is only valid when removing a worker whose allocation has stopped";
  w ← atomic (update_worker identity ch);
  _ ← (if wc_lost ch
       then writes (λ _ v, v <| vo_connections := exclude (vo_connections v) (_worker_endpoints w) |>)
       else mret ());
  mret w.

(** * The probe *)

(** [Connections.adopt] of a fresh attachment to the worker's target. *)
Context (attach : worker → prog connection).

Definition is_state (s : string) (w : worker) : bool := bool_decide (wk_state w = s).

Definition note_seen (identity : string) : txn worker :=
  current ← get (A := worker) identity;
  t ← the_time;
  _ ← when (is_state "ready" current) (save (current <| wk_seen := t |>) None);
  mret current.

(** The worker answers, and its inventory is due: [None] if it is not. *)
Definition probe_alive (identity : string) (record : worker) : prog (option (connection * inventory)) :=
  alive ← open_connection (wk_endpoint record);
  _ ← request alive ping;
  current ← atomic (note_seen identity);
  recent ← reads (λ e v, Ok (now e - default 0 (vo_inventoried v !! identity) <? INVENTORY_EVERY));
  if is_state "ready" current && recent then mret None
  else
    _ ← writes (λ e v, v <| vo_inventoried := <[identity := now e]> (vo_inventoried v) |>);
    c ← open_connection (wk_endpoint record);
    i ← request c take_inventory;
    mret (Some (c, i)).

(** No answer: a worker that dials out reconnects itself, another is attached again. *)
Definition probe_again (identity : string) (record : worker) (x : exn) : prog (option (connection * inventory)) :=
  current ← atomic (get (A := worker) identity);
  if is_state "removed" current then mret None
  else if given (ep_relay (wk_endpoint record)) then fail x
  else
    c ← attach record;
    i ← request c take_inventory;
    _ ← fail_if (negb (bool_decide (iv_workspace i = iv_workspace (wk_inventory record)))) ResourceUnavailable
          "worker workspace changed while disconnected; existing assignments remain reserved";
    mret (Some (c, i)).

Definition record_instance (identity workspace : string) (i : inventory) : txn bool :=
  current ← get (A := worker) identity;
  if is_state "removed" current then mret false
  else
    _ ← throw_if (bool_decide (od_get workspace (wk_instances current) = None)) KeyError workspace;
    _ ← save (current <| wk_instances := map (λ p,
                 if bool_decide (p.1 = workspace)
                 then (p.1, p.2 <| is_external := _external cluster i |> <| is_telemetry := iv_telemetry i |>)
                 else p) (wk_instances current) |>) None;
    mret true.

(** The worker's other workspaces; [false] once the worker was removed. *)
Fixpoint probe_instances (identity workspace : string) (l : list (string * instance)) : prog bool :=
  match l with
  | [] => mret true
  | (other, n) :: l =>
      if bool_decide (other = workspace) then probe_instances identity workspace l
      else
        c ← open_connection (is_endpoint n);
        going ← rescue (i ← request c take_inventory; atomic (record_instance identity other i)) (λ _, mret true);
        if going : bool then probe_instances identity workspace l else mret false
  end.

Definition mark_ready (identity : string) : txn () :=
  record ← get (A := worker) identity;
  if is_state "removed" record then mret ()
  else
    let recovered := negb (is_state "ready" record) in
    _ ← (if recovered then require_durable else mret ());
    t ← the_time;
    save (record <| wk_state := "ready"%string |> <| wk_seen := t |>
            <| wk_external := _sum_external (wk_instances record) |> <| wk_error := None |>)
         (if recovered then Some "worker reachable"%string else None).

(** A worker that answered lately stays ready. [answered] is what its relay channel says. *)
Definition mark_unreachable (identity : string) (answered : string → bool) (x : exn) : txn () :=
  record ← get (A := worker) identity;
  t ← the_time;
  let relayed := match text (ep_relay (wk_endpoint record)) with Some c => answered c | None => false end in
  if is_state "ready" record && ((t - wk_seen record <? UNREACHABLE_AFTER) || relayed) then mret ()
  else if is_state "removed" record then mret ()
  else save (record <| wk_state := "unreachable"%string |> <| wk_error := Some (exn_text x) |>)
         (if is_state "unreachable" record then None else Some "worker unreachable"%string).

(** [Relay.answered_within] *)
Definition answered_lately (e : env) (v : volatile) (channel : string) : bool :=
  match vo_answered v channel with Some t => now e - t <? UNREACHABLE_AFTER | None => false end.

(** [Controller._probe] *)
Definition _probe (identity : string) : prog () :=
  record ← atomic (get (A := worker) identity);
  if is_state "removed" record then mret ()
  else rescue
    (found ← rescue (probe_alive identity record) (probe_again identity record);
     match found with
     | None => mret ()
     | Some (c, i) =>
         p ← request c ping;
         _ ← atomic (_accept_worker cluster identity (ep_token (connection_endpoint c)) i p false);
         record ← atomic (get (A := worker) identity);
         going ← probe_instances identity (iv_workspace i) (wk_instances record);
         if going : bool then atomic (mark_ready identity) else mret ()
     end)
    (λ x, answered ← reads (λ e v, Ok (answered_lately e v)); atomic (mark_unreachable identity answered x)).
End workers.
