(* ===== verification/Allocations.v ===== *)
(** [weave/controller.py], allocations: creation, names, routes, acknowledgement,
    cancellation and deletion, and the lifecycles that launch, observe and end a
    sandbox on its worker. Every outcome is committed under the generation it was
    asked for. *)

From Stdlib Require Import QArith Qround.
From S2P Require Import Prelude OrderedDict MemberNetworks Values Proxy Resources GpuMatching Scheduler Ownership Cluster.
From S2P Require Import Connections Lifecycle Artifacts ServiceNetworks Preparation Workers.
Local Open Scope Z_scope.

(** * Creation *)

(** The pattern [[a-zA-Z0-9_-]{1,100}]. *)
Definition valid_identity (identity : string) : bool :=
  let l := chars identity in
  (1 <=? length l)%nat && (length l <=? 100)%nat
  && forallb (λ c, is_alnum c || bool_decide (c ∈ ["_"; "-"]%char)) l.

(** A validated number of seconds, on the clock. *)
Definition on_clock (v : pyval) : Z :=
  match v with
  | VInt n => seconds n
  | VFloat (Some q) => Qfloor (q * inject_Z 1000000)
  | _ => 0
  end.

Definition name_of (s : spec) : option string := f_name (spec_fields s).
Definition named (name : option string) (a : allocation) : bool :=
  negb (al_released a) && bool_decide (name_of (al_spec a) = name).

Section allocations.
  Context `{Digests} (cluster : string).

(** A retry finds the allocation of the same request. *)
Definition same_request (a : allocation) (r : creation) : bool :=
  match al_canonical a with
  | Some c => bool_decide (c = canonical_of r)
  | None => bool_decide (al_stamp a = stamp_of r)
  end.

Definition new_allocation (identity : string) (r : creation) (only_worker : option string) (t : Z) : allocation :=
  Allocation identity "pending" "running" 1 false r (cr_spec r) (stamp_of r) (Some (canonical_of r))
    (cr_owner r) None false (t + on_clock (f_startup_timeout (spec_fields (cr_spec r))))
    only_worker None None None None None None None None false None false false false false false.

(** The transaction of [Controller.create]. *)
Definition create_allocation (identity : string) (r : creation) : txn allocation :=
  old ← find (A := allocation) identity;
  match old with
  | Some a =>
      _ ← throw_if (negb (same_request a r)) FileExistsError "sandbox ID belongs to a different request";
      mret a
  | None =>
      image ← match text (cr_reference r) with Some i => find (A := artifact) i | None => mret None end;
      _ ← throw_if (from_option retired false image) ResourceUnavailable "snapshot is being released";
      holders ← list_where (named (name_of (cr_spec r)));
      _ ← throw_if (given (name_of (cr_spec r)) && negb (bool_decide (length holders = O))) FileExistsError
            "sandbox name is already in use";
      only ← placement (cr_spec r);
      t ← the_time;
      put (new_allocation identity r only t) (Some "sandbox requested"%string)
  end.

(** [Controller.create] *)
Definition create (identity : string) (r : creation) : txn allocation :=
  _ ← throw_if (negb (valid_identity identity)) ValueError "invalid sandbox ID";
  _ ← lift (positive (f_startup_timeout (spec_fields (cr_spec r))) "startup_timeout" false);
  _ ← _owner_process (cr_owner r);
  _ ← throw_if (negb (f_detached (spec_fields (cr_spec r))) && bool_decide (cr_owner r = None)) ValueError
        "an attached sandbox needs a process owner";
  create_allocation identity r.

(** [Controller._resolve]: an identity, or the one unreleased sandbox of that name. *)
Definition _resolve (identity : string) : txn allocation :=
  record ← find (A := allocation) identity;
  match record with
  | Some a => mret a
  | None =>
      matches ← list_where (named (Some identity));
      match matches with
      | [a] => get (al_id a)
      | _ => throw FileNotFoundError ("sandbox ID or unique name is missing: " ++ identity)
      end
  end.

(** * Routes *)

Record route := Route { ro_id : string; ro_endpoint : endpoint; ro_owner : option string; ro_info : option info }.

(** [Controller._route] *)
Definition _route (v : volatile) (a : allocation) : res route :=
  match al_endpoint a, text (al_token a) with
  | Some e, Some t =>
      _ ← check (vo_connections v) e;
      Ok (Route (al_id a) (e <| ep_token := t |>) (al_owner a) (al_info a))
  | _, _ => raise ResourceUnavailable ("sandbox has no acknowledged worker route: " ++ al_state a)
  end.

(** [Controller.allocation_route], and [sandbox_endpoint] which is its endpoint. *)
Definition allocation_route (identity : string) : prog route :=
  a ← atomic (_resolve identity); reads (λ _ v, _route v a).
Definition sandbox_endpoint (identity : string) : prog endpoint :=
  r ← allocation_route identity; mret (ro_endpoint r).

(** [Controller.sandbox_rpc]: a client's request goes to the route the store has. *)
Definition sandbox_rpc {R : Type} (identity : string) (q : rpc R) : prog R :=
  r ← allocation_route identity;
  c ← open_connection (ro_endpoint r);
  request c q.

(** [Controller.owner_routes] *)
Definition owner_routes (identity : string) (sandboxes : list string) : txn () :=
  _ ← _owner_process (Some identity);
  for_each sandboxes (λ sandbox,
    record ← get (A := allocation) sandbox;
    _ ← throw_if (negb (bool_decide (al_owner record = Some identity))) PermissionError
          "sandbox belongs to another process owner";
    when (negb (bool_decide (al_owner_route_ack record = Some identity)))
      (save (record <| al_owner_route_ack := Some identity |>) None)).

(** * Client operations *)

Definition available_states : list string := ["ready"; "leased"; "paused"]%string.

Definition acknowledge (identity : string) : txn () :=
  record ← _resolve identity;
  _ ← throw_if (negb (bool_decide (al_state record ∈ available_states)) || negb (bool_decide (al_desired record = "running"%string)))
        ResourceUnavailable ("sandbox is no longer available: " ++ al_state record);
  save (record <| al_ack := true |>) None.

(** [Controller.allocation_ack] *)
Definition allocation_ack (identity : string) : prog route :=
  _ ← atomic (acknowledge identity); allocation_route identity.

(** [Controller.allocation_cancel] *)
Definition allocation_cancel (identity : string) : txn allocation :=
  record ← _resolve identity;
  if bool_decide (al_desired record = "terminated"%string) then mret record
  else
    let record := record <| al_desired := "terminated"%string |> <| al_generation := al_generation record + 1 |> in
    let record := if given (al_worker record) then record
                  else record <| al_state := "terminated"%string |> <| al_released := true |> in
    put record (Some "termination requested"%string).

(** [Controller.allocation_delete] *)
Definition allocation_delete (identity : string) : txn allocation :=
  record ← _resolve identity;
  if al_delete_requested record then mret record
  else
    let record := record <| al_delete_requested := true |> <| al_deletion_pending := true |>
                         <| al_desired := "terminated"%string |> <| al_released := false |>
                         <| al_generation := al_generation record + 1 |> in
    let record := if given (al_worker record) then record
                  else record <| al_state := "terminated"%string |> <| al_released := true |>
                              <| al_deleted := true |> <| al_deletion_pending := false |> in
    put record (Some "deletion requested"%string).

(** [Controller._uncertain] *)
Definition _uncertain (identity : string) (x : exn) (generation : Z) : txn () :=
  record ← get (A := allocation) identity;
  if negb (al_generation record =? generation) || (al_released record && negb (al_deletion_pending record)) then mret ()
  else save (record <| al_state := "unknown"%string |>
               <| al_error := Some (default (exn_text x) (text (al_error record))) |>) None.

(** * Launch *)

Definition the_worker (a : allocation) : txn worker :=
  match al_worker a with Some w => get w | None => throw KeyError "worker" end.

(** The instance a launch uses: one the worker's record has, or one to accept. *)
Definition known_instance (w : worker) (route : endpoint) : option endpoint :=
  match ep_workspace route with
  | Some ws =>
      match od_get ws (wk_instances w) with
      | Some n =>
          if bool_decide (wk_endpoint w = is_endpoint n)
             && bool_decide (ep_hostname (is_endpoint n) = ep_hostname route) && (ep_port (is_endpoint n) =? ep_port route)
             && bool_decide (ep_workspace (is_endpoint n) = ep_workspace route)
             && bool_decide (ep_token (is_endpoint n) = ep_token route)
          then Some (is_endpoint n) else None
      | None => None
      end
  | None => None
  end.

(** The route of a launch and a connection to it. *)
Definition launch_route (record : allocation) : prog (endpoint * connection) :=
  w ← atomic (the_worker record);
  match al_endpoint record with
  | Some route => c ← open_connection route; mret (route, c)
  | None =>
      preparer ← open_connection (wk_endpoint w);
      p ← request preparer (managed_prepare (al_spec record));
      let route := (wk_endpoint w) <| ep_hostname := pr_hostname p |> <| ep_port := pr_port p |>
                                   <| ep_workspace := Some (pr_workspace p) |> <| ep_token := pr_token p |> in
      c ← open_connection route;
      match known_instance w route with
      | Some known => mret (known, c)
      | None =>
          i ← request c take_inventory;
          g ← request c ping;
          route ← atomic (_accept_worker cluster (wk_id w) (ep_token route) i g true);
          mret (route, c)
      end
  end.

(** The record moves to [starting], unless the sandbox should not run any more. *)
Definition start_launch (identity : string) (route : endpoint) : txn (allocation * bool) :=
  record ← get (A := allocation) identity;
  if negb (bool_decide (al_desired record = "running"%string)) || given (al_lease record) then mret (record, false)
  else r ← put (record <| al_endpoint := Some route |> <| al_state := "starting"%string |>) None; mret (r, true).

(** A feature the definition needs, asked of the worker. *)
Definition require_feature (c : connection) (needed : bool) (f message : string) : prog () :=
  if needed then p ← request c ping; fail_if (negb (feature p f)) UnsupportedFeature message else mret ().

Definition mark_retention (identity : string) : txn () :=
  current ← get (A := allocation) identity; save (current <| al_retention_unsupported := true |>) None.

Definition check_features (c : connection) (identity : string) (s : spec) : prog () :=
  let f := spec_fields s in
  _ ← (if uses_memory_reservations false s
       then p ← request c ping; Finished (check_memory_reservations s (feature p)) else mret ());
  _ ← require_feature c (f_recording f) "desktop_recording"
        "desktop recording requires Sandweave 0.2.14 or newer on the worker";
  _ ← require_feature c (f_service_group f) "native_services"
        "Harbor service groups require an updated Sandweave worker";
  _ ← require_feature c (given (f_network_id f)) "service_networks"
        "service networks require Sandweave 0.2.24 or newer on the worker";
  _ ← require_feature c (f_audit f) "proc_audit" "hidepid and audit require an updated worker";
  _ ← require_feature c (f_clock f) "guest_clock" "clock settings require Sandweave 0.2.45 or newer on the worker";
  _ ← require_feature c (truthy (f_kvm f)) "kvm_platform" "kvm requires Sandweave 0.2.48 or newer on the worker";
  _ ← require_feature c (f_disk_storage f) "disk_storage"
        "disk-backed storage requires Sandweave 0.2.32 or newer on the worker";
  _ ← (if f_discard_workspace f
       then p ← request c ping;
            if feature p "pool_retention" then mret ()
            else _ ← atomic (mark_retention identity);
                 fails UnsupportedFeature "retain_baseline=False requires Sandweave 0.2.13 or newer on every participating worker"
       else mret ());
  require_feature c (requires_policy (f_network f)) "proxy_policy"
    "proxy policies require Sandweave 0.2.10 or newer on every participating worker".

(** [dict.fromkeys]: first occurrences, in order. *)
Definition unique (l : list string) : list string := reverse (remove_dups (reverse l)).

(** The snapshots a request and its services start from. *)
Definition references_of (r : creation) : list string :=
  omap text (cr_reference r :: map (λ s, s.2.1.2) (spec_services (cr_spec r))).

(** [retention.validate] and [retention.shared_path] *)
Definition valid_pool (p : string) : bool :=
  str_startswith "pool-" p && (String.length p =? 37)%nat && forallb hex_digit (drop 5 (chars p)).
Definition shared_path (path : option string) (p : string) : res (option string) :=
  match path with
  | None => Ok None
  | Some d => _ ← raise_if (negb (valid_pool p)) ValueError "invalid retention pool ID"; Ok (Some (d ++ "/pools/" ++ p)%string)
  end.

(** Where the images of an allocation are shared. *)
Definition image_cache (record : allocation) : txn (option string) :=
  p ← match text (al_parent record) with Some i => find (A := pool) i | None => mret None end;
  match p with
  | Some p => if po_retain_baseline p then mret (po_shared_cache p) else lift (shared_path (po_shared_cache p) (po_id p))
  | None => mret None
  end.

(** The result of the transfer a launch waited for. *)
Definition transfer_result (f : nat) : prog string :=
  reads (λ _ v, match pn_futures (vo_preparation v) !! f with
                | Some (Some r) => r
                | _ => raise RuntimeError "transfer is not done"
                end).

Fixpoint request_images (record : allocation) (c : connection) (route : endpoint) (cache : option string)
    (completed : option string) (l : list string) : prog bool :=
  match l with
  | [] => mret true
  | r :: l =>
      if bool_decide (completed = Some r) then request_images record c route cache completed l
      else
        ready ← request_image (al_id record) (al_generation record) r c route cache;
        match ready : option string with
        | None => mret false
        | Some _ => request_images record c route cache completed l
        end
  end.

(** The images of a launch: [false] if it has to wait for one. *)
Definition launch_images (record : allocation) (c : connection) (route : endpoint) (image : option nat) : prog bool :=
  let l := references_of (al_request record) in
  if bool_decide (l = []) then mret true
  else
    cache ← atomic (image_cache record);
    completed ← match image with
                | None => mret None
                | Some f =>
                    r ← transfer_result f;
                    _ ← (if bool_decide (cache = None) then mret () else _ ← request c (artifact_cached r cache); mret ());
                    mret (Some r)
                end;
    request_images record c route cache completed (unique l).

Definition live_status (s : option string) : bool :=
  match s with Some s => bool_decide (s ∈ ["running"; "paused"; "starting"]%string) | None => false end.

(** The worker's answer to a creation, if nothing superseded it. *)
Definition commit_launch (identity : string) (generation : Z) (r : applied) : txn () :=
  current ← get (A := allocation) identity;
  if negb (al_generation current =? generation) || al_released current then mret ()
  else
    let i := ap_sandbox r in
    let current := current <| al_token := Some (ap_token r) |> <| al_info := Some i |> in
    let current :=
      if bool_decide (al_desired current = "running"%string) then
        let current := current <| al_state := in_state i |> in
        let current := if bool_decide (in_state i = "ready"%string)
                       then current <| al_prepared := true |> <| al_error := None |> else current in
        if bool_decide (in_state i ∈ TERMINAL) then
          let current := current <| al_released := negb (live_status (in_status i)) |> in
          if f_discard_workspace (spec_fields (al_spec current)) && negb (bool_decide (in_state i = "terminated"%string))
          then current <| al_desired := "terminated"%string |> <| al_released := false |>
                       <| al_generation := al_generation current + 1 |>
          else current
        else current
      else current in
    save current (Some "worker acknowledged creation"%string).

Definition launch_failed (identity : string) (generation : Z) (x : exn) : txn () :=
  current ← get (A := allocation) identity;
  if negb (al_generation current =? generation) || negb (bool_decide (al_desired current = "running"%string)) then mret ()
  else save (current <| al_error := Some (exn_text x) |> <| al_state := "failed"%string |>
               <| al_desired := "terminated"%string |> <| al_generation := al_generation current + 1 |>)
         (Some "creation failed"%string).

(** The exception handlers of [_launch]: an unknown outcome is kept as such. *)
Definition launch_handler (identity : string) (generation : Z) (x : exn) : prog () :=
  if bool_decide (exn_kind x = OperationUnknown) then atomic (_uncertain identity x generation)
  else
    stopping ← reads (λ _ v, Ok (vo_stopping v));
    if stopping : bool then atomic (_uncertain identity x generation)
    else atomic (launch_failed identity generation x).

(** [_launch] from the record in state [starting] on. *)
Definition run_launch (identity : string) (record : allocation) (c : connection) (route : endpoint) (image : option nat)
    : prog () :=
  _ ← check_features c identity (cr_spec (al_request record));
  ready ← launch_images record c route image;
  if negb ready then mret ()
  else
    c ← open_connection route;
    process ← atomic (_owner_process (al_owner record));
    r ← request c (managed_apply identity cluster (al_generation record) (Create (al_request record) process));
    atomic (commit_launch identity (al_generation record) r).

Definition launchable (a : allocation) : bool :=
  bool_decide (al_desired a = "running"%string) && negb (given (al_lease a))
  && bool_decide (al_state a ∈ ["reserved"; "starting"; "unknown"]%string).

(** [Controller._launch] *)
Definition _launch (identity : string) : prog () :=
  record ← atomic (get (A := allocation) identity);
  if negb (launchable record) then mret ()
  else
    waits ← reads (λ _ v, Ok (waiting (vo_preparation v) identity (al_generation record)));
    if waits : bool then mret ()
    else
      image ← Local (λ _ v, let '(w, p) := take_waiter (vo_preparation v) identity in
                            (Ok w, v <| vo_preparation := p |>)) Finished;
      let image := match image with
                   | Some (g, f) => if g =? al_generation record then Some f else None
                   | None => None
                   end in
      after (r ← launch_route record;
             let '(route, c) := r : endpoint * connection in
             s ← atomic (start_launch identity route);
             mret (s, route, c))
        (λ r, match r with
              | Err x => launch_handler identity (al_generation record) x
              | Ok (record, false, _, _) => mret ()
              | Ok (record, true, route, c) =>
                  rescue (run_launch identity record c route image)
                    (launch_handler identity (al_generation record))
              end).

(** * Observation *)

(** What a worker reports of a settled sandbox, if nothing superseded it. *)
Definition commit_observation (identity : string) (generation : Z) (i : info) : txn () :=
  current ← get (A := allocation) identity;
  if negb (al_generation current =? generation) || bool_decide (al_state current = "claiming"%string) || al_released current
  then mret ()
  else
    status ← lift (match in_status i with Some s => Ok s | None => raise KeyError "runtime_status" end);
    let released := negb (live_status (Some status)) && negb (bool_decide (in_state i ∈ ["creating"; "preparing"]%string)) in
    if released && f_discard_workspace (spec_fields (al_spec current)) && negb (bool_decide (in_state i = "terminated"%string))
    then _ ← allocation_cancel identity; mret ()
    else
      let state := if given (al_lease current) && bool_decide (in_state i = "ready"%string) then "leased"%string else in_state i in
      let changed := negb (bool_decide (al_state current = state)) in
      if bool_decide (al_info current = Some i) && negb changed && Bool.eqb (al_released current) released then mret ()
      else
        let current := current <| al_info := Some i |> <| al_state := state |> <| al_released := released |> in
        let current := if bool_decide (state ∈ available_states) && bool_decide (al_desired current = "running"%string)
                       then current <| al_prepared := true |> <| al_error := None |> else current in
        save current (if changed then Some "sandbox state changed"%string else None).

(** [Controller._observe] *)
Definition _observe (identity : string) : prog () :=
  record ← atomic (get (A := allocation) identity);
  match al_endpoint record with
  | None => mret ()
  | Some e =>
      if bool_decide (al_state record = "claiming"%string) || al_released record then mret ()
      else if negb (given (al_token record)) && bool_decide (al_desired record = "running"%string) then _launch identity
      else rescue (c ← open_connection e;
                   i ← request c (describe identity);
                   atomic (commit_observation identity (al_generation record) i))
             (λ x, atomic (_uncertain identity x (al_generation record)))
  end.

(** * Termination *)

(** A deletion that has begun releases the sandbox and keeps the route. *)
Definition deletion_begun (identity : string) (generation : Z) (r : applied) (route : endpoint) : txn bool :=
  current ← get (A := allocation) identity;
  if negb (al_generation current =? generation) then mret false
  else
    _ ← when (negb (al_deletion_started current))
          (save (current <| al_deletion_started := true |> <| al_released := true |> <| al_state := "terminated"%string |>
                   <| al_info := Some (ap_sandbox r) |> <| al_token := Some (ap_token r) |>
                   <| al_endpoint := Some route |>) None);
    mret true.

Definition commit_termination (identity : string) (generation : Z) (deleting : bool) (r : applied) (route : endpoint)
    : txn () :=
  current ← get (A := allocation) identity;
  if negb (al_generation current =? generation) || (al_released current && negb (al_deletion_pending current)) then mret ()
  else
    let current := current <| al_state := "terminated"%string |> <| al_released := true |>
                           <| al_info := Some (ap_sandbox r) |> <| al_token := Some (ap_token r) |>
                           <| al_endpoint := Some route |> in
    let current := if deleting then current <| al_deleted := true |> <| al_deletion_pending := false |> <| al_error := None |>
                   else current in
    save current (Some "termination confirmed"%string).

(** The worker ends the sandbox, or already has. *)
Definition end_sandbox (identity : string) (record : allocation) (c : connection) : prog applied :=
  _ ← (if al_delete_requested record && negb (al_deletion_started record)
       then p ← request c ping;
            fail_if (negb (feature p "sandbox_deletion")) RuntimeError
              "sandbox deletion requires upgrading the worker to Sandweave 0.2.40"
       else mret ());
  if al_deletion_started record then
    match al_info record, al_token record with
    | Some i, Some t => mret (Applied t i)
    | None, _ => fails TypeError "info"
    | _, None => fails KeyError "token"
    end
  else request c (managed_apply identity cluster (al_generation record) Terminate).

Definition finish_terminate (identity : string) (record : allocation) (c : connection) (route : endpoint) (r : applied)
    : prog () :=
  if al_delete_requested record && in_spec (ap_sandbox r) then
    d ← request c (if al_deletion_started record then delete_status identity else delete_sandbox identity);
    if negb (bool_decide (dl_state d = "deleted"%string)) then
      going ← atomic (deletion_begun identity (al_generation record) r route);
      match (going : bool), text (dl_error d) with
      | true, Some x => atomic (_uncertain identity (Exn RuntimeError x) (al_generation record))
      | _, _ => mret ()
      end
    else
      i ← request c (describe identity);
      atomic (commit_termination identity (al_generation record) (al_delete_requested record) (Applied (ap_token r) i) route)
  else atomic (commit_termination identity (al_generation record) (al_delete_requested record) r route).

(** [Controller._terminate] *)
Definition _terminate (identity : string) : prog () :=
  record ← atomic (get (A := allocation) identity);
  if negb (bool_decide (al_desired record = "terminated"%string)) || (al_released record && negb (al_deletion_pending record))
  then mret ()
  else
    route ← match al_endpoint record with
            | Some e => mret e
            | None => w ← atomic (the_worker record); mret (wk_endpoint w)
            end;
    rescue (c ← open_connection route;
            r ← end_sandbox identity record c;
            finish_terminate identity record c route r)
      (λ x, atomic (_uncertain identity x (al_generation record))).
End allocations.
