(* ===== verification/Pools.v ===== *)
(** [weave/pool.py], the controller's side of pools: policies, leases, members, the
    baseline they start from, and their reconciliation. Identities made with
    [uuid4] and random choices are arguments. *)

From Stdlib Require Import QArith.
From S2P Require Import Prelude OrderedDict Values Proxy Resources GpuMatching Scheduler Ownership Cluster.
From S2P Require Import Connections Lifecycle Artifacts ServiceNetworks Preparation Workers Allocations.
Local Open Scope Z_scope.

(** * Policies *)

(** [artifacts.cache_path] *)
Definition cache_path (value : option string) : res () :=
  match value with
  | None => Ok ()
  | Some p => raise_if (bool_decide ("000"%char ∈ chars p) || negb (str_startswith "/" p)
                        || bool_decide (".."%string ∈ str_split "/" p))
                ValueError "shared_cache must be an absolute path on the workers"
  end.

(** [pool.validate] *)
Definition validate (p : pool_policy) (shared_cache : option string) : res () :=
  _ ← raise_if (pp_size p <? 1) ValueError "size must be a positive integer";
  _ ← raise_if (negb ((0 <=? pp_warm p) && (pp_warm p <=? pp_size p))) ValueError "warm must be in 0..size";
  _ ← Resources.positive (pp_weight p) "weight" false;
  _ ← raise_if (negb (bool_decide (pp_placement p ∈ ["spread"; "pack"]%string))) ValueError "placement must be spread or pack";
  _ ← raise_if (negb (bool_decide (pp_affinity p ∈ [None; Some "worker"; Some "machine"]%string))) ValueError
        "affinity must be worker, machine or None";
  cache_path shared_cache.

(** [pool.resolve]: an identity, or the one open pool of that name. *)
Definition open_named (name : option string) (p : pool) : bool :=
  bool_decide (po_name p = name) && negb (bool_decide (po_state p = "closed"%string)).
Definition resolve_pool (identity : string) : txn pool :=
  record ← find (A := pool) identity;
  match record with
  | Some p => mret p
  | None =>
      matches ← list_where (open_named (Some identity));
      match matches with
      | [p] => get (po_id p)
      | _ => throw FileNotFoundError ("pool ID or unique name is missing: " ++ identity)
      end
  end.

(** * Status *)

Definition is_idle (a : allocation) : bool :=
  bool_decide (al_state a = "ready"%string) && negb (given (al_lease a))
  && negb (bool_decide (al_role a = Some "builder"%string)) && bool_decide (al_desired a = "running"%string).
Definition is_preparing (a : allocation) : bool :=
  bool_decide (al_state a ∈ ["pending"; "reserved"; "starting"; "unknown"]%string).
Definition live_in (identity : string) (a : allocation) : bool :=
  bool_decide (al_parent a = Some identity) && negb (al_released a).
Definition in_pool (identity : string) (a : allocation) : bool := bool_decide (al_parent a = Some identity).
Definition lease_in (identity : string) (l : pool_lease) : bool := bool_decide (le_parent l = identity).
Definition lease_state (s : string) (l : pool_lease) : bool := bool_decide (le_state l = s).
Definition count {A} (f : A → bool) (l : list A) : Z := Z.of_nat (length (filter (λ x, Is_true (f x)) l)).

(** [pool.status] *)
Record pool_status := PoolStatus {
  su_pool : pool; su_ready : Z; su_active : Z; su_pending : Z; su_waiting : Z;
  su_reason : option string; su_sandboxes : list string }.
Definition status (identity : string) : txn pool_status :=
  p ← resolve_pool identity;
  live ← list_where (live_in (po_id p));
  waiting ← list_where (λ l, lease_in (po_id p) l && lease_state "pending" l);
  mret (PoolStatus p (count is_idle live) (count (λ a, given (al_lease a)) live) (count is_preparing live)
          (Z.of_nat (length waiting))
          (head (omap (λ a, match text (al_reason a) with Some r => Some r | None => text (al_error a) end) live))
          (map al_id live)).

(** [pool.lease_status] *)
Record lease_view := LeaseView { lv_state : string; lv_sandbox : option string; lv_error : option string; lv_route : option route }.
Definition lease_status (identity lease_id : string) : prog lease_view :=
  r ← atomic (p ← resolve_pool identity;
              l ← get (A := pool_lease) lease_id;
              _ ← throw_if (negb (bool_decide (le_parent l = po_id p))) PermissionError "lease belongs to another pool";
              mret (p, l));
  let '(p, l) := r : pool * pool_lease in
  if bool_decide (po_state p = "failed"%string) && bool_decide (le_state l ∈ ["pending"; "claiming"]%string) then
    mret (LeaseView "failed" (le_sandbox l) (Some (default "pool failed"%string (text (po_error p)))) None)
  else if lease_state "ready" l then
    ro ← match le_sandbox l with Some s => allocation_route s | None => fails FileNotFoundError "sandbox" end;
    mret (LeaseView (le_state l) (le_sandbox l) (le_error l) (Some ro))
  else mret (LeaseView (le_state l) (le_sandbox l) (le_error l) None).

(** * Operations *)

Record pool_request := PoolRequest {
  pq_identity : string; pq_name : option string; pq_owner : option string; pq_request : creation;
  pq_rules : pool_policy; pq_shared_cache : option string; pq_retain_baseline : bool }.

(** The checks of [pool_create] before its transaction. *)
Definition check_pool (q : pool_request) : prog () :=
  let f := spec_fields (cr_spec (pq_request q)) in
  _ ← Finished (cache_path (pq_shared_cache q));
  _ ← Finished (validate (pq_rules q) (pq_shared_cache q));
  _ ← (if pq_retain_baseline q then mret ()
       else
         _ ← fail_if (negb (valid_pool (pq_identity q))) ValueError "invalid retention pool ID";
         fail_if (given (cr_reference (pq_request q)) || given (cr_cache_key (pq_request q)) || f_keep_on_error f
                  || negb (bool_decide (f_runtime f = "gvisor"%string)))
           ValueError "retain_baseline=False requires a new gvisor baseline without cache, cache_key or keep_on_error");
  _ ← atomic (_owner_process (pq_owner q));
  if requires_policy (f_network f) then
    v ← match nw_proxy (f_network f) with Some v => mret v | None => fails KeyError "proxy" end;
    let policy := default default_policy (nw_policy (f_network f)) in
    _ ← Finished (policy_check policy);
    _ ← Finished (Proxy.candidates v policy);
    match text (cr_reference (pq_request q)) with
    | None => mret ()
    | Some r =>
        a ← Artifacts.resolve r;
        fail_if (bool_decide (sa_state (af_info a) = "memory"%string)) ValueError
          "pool proxy policies require a filesystem cache; memory snapshots retain their assigned proxy"
    end
  else mret ().

Definition new_pool (q : pool_request) : pool :=
  Pool (pq_identity q) "preparing" "running" (pq_name q) (pq_owner q) (pq_request q) (pq_rules q)
    (pq_shared_cache q) (pq_retain_baseline q) (cr_reference (pq_request q)) None None None None false None None.

(** The transaction of [pool_create]. *)
Definition create_pool (q : pool_request) : txn () :=
  image ← match text (cr_reference (pq_request q)) with Some i => find (A := artifact) i | None => mret None end;
  _ ← throw_if (from_option retired false image) ResourceUnavailable "pool baseline is being released";
  existing ← find (A := pool) (pq_identity q);
  match existing with
  | None =>
      holders ← list_where (open_named (pq_name q));
      _ ← throw_if (given (pq_name q) && negb (bool_decide (length holders = O))) FileExistsError "pool name is already in use";
      save (new_pool q) (Some "pool requested"%string)
  | Some p =>
      throw_if (negb (bool_decide (po_request p = pq_request q)) || negb (bool_decide (po_owner p = pq_owner q))
                || negb (bool_decide (po_shared_cache p = pq_shared_cache q))
                || negb (Bool.eqb (po_retain_baseline p) (pq_retain_baseline q)))
        FileExistsError "pool ID is already in use"
  end.
Definition pool_create (q : pool_request) : prog () := _ ← check_pool q; atomic (create_pool q).

Record pool_changes := PoolChanges {
  pc_size : option Z; pc_warm : option Z; pc_weight : option pyval; pc_priority : option Z;
  pc_labels : option (list (string * string)); pc_placement : option string; pc_affinity : option (option string) }.
Definition change_policy (c : pool_changes) (p : pool_policy) : pool_policy :=
  PoolPolicy (default (pp_size p) (pc_size c)) (default (pp_warm p) (pc_warm c)) (default (pp_weight p) (pc_weight c))
    (default (pp_priority p) (pc_priority c)) (default (pp_labels p) (pc_labels c))
    (default (pp_placement p) (pc_placement c)) (default (pp_affinity p) (pc_affinity c)).

(** [pool_update] *)
Definition pool_update (identity : string) (c : pool_changes) : txn () :=
  p ← resolve_pool identity;
  let p := p <| po_rules := change_policy c (po_rules p) |> in
  _ ← lift (validate (po_rules p) None);
  save p (Some "pool policy updated"%string).

Definition lease_done (l : pool_lease) : bool := bool_decide (le_state l ∈ ["released"; "cancelled"; "failed"]%string).

(** [pool_close] *)
Definition pool_close (identity : string) : txn () :=
  p ← resolve_pool identity;
  _ ← save (p <| po_desired := "closed"%string |>) (Some "pool closure requested"%string);
  members ← list_where (in_pool (po_id p));
  _ ← for_each members (λ a, _ ← allocation_cancel (al_id a); mret ());
  leases ← list_where (lease_in (po_id p));
  for_each leases (λ l, when (negb (lease_done l)) (save (l <| le_state := "cancelled"%string |>) None)).

(** [pool_checkout] *)
Definition pool_checkout (identity lease_id : string) (owner : option string) : txn () :=
  _ ← _owner_process owner;
  p ← resolve_pool identity;
  _ ← throw_if (negb (bool_decide (po_desired p = "running"%string)) || bool_decide (po_state p = "failed"%string))
        ResourceUnavailable (default "pool is closed or failed"%string (text (po_error p)));
  old ← find (A := pool_lease) lease_id;
  match old with
  | None => save (PoolLease lease_id (po_id p) "pending" owner None None None) None
  | Some l => throw_if (negb (bool_decide (le_parent l = po_id p)) || negb (bool_decide (le_owner l = owner)))
                FileExistsError "lease ID belongs to another request"
  end.

(** [pool_release] *)
Definition pool_release (identity lease_id : string) : txn () :=
  p ← resolve_pool identity;
  l ← get (A := pool_lease) lease_id;
  _ ← throw_if (negb (bool_decide (le_parent l = po_id p))) PermissionError "lease belongs to another pool";
  _ ← match text (le_sandbox l) with Some s => _ ← allocation_cancel s; mret () | None => mret () end;
  when (negb (lease_state "failed" l))
    (save (l <| le_state := if given (le_sandbox l) then "released"%string else "cancelled"%string |>) None).

(** [pool._fail] *)
Definition _fail (identity error : string) : txn () :=
  p ← resolve_pool identity;
  _ ← when (negb (bool_decide (po_state p = "failed"%string)))
        (save (p <| po_state := "failed"%string |> <| po_error := Some error |>) (Some "pool failed"%string));
  leases ← list_where (lease_in identity);
  _ ← for_each leases (λ l, when (bool_decide (le_state l ∈ ["pending"; "claiming"]%string))
        (save (l <| le_state := "failed"%string |> <| le_error := Some error |>) None));
  leases ← list_where (lease_in identity);
  let issued := map le_sandbox (filter (λ l, le_state l = "ready"%string) leases) in
  members ← list_where (in_pool identity);
  for_each members (λ a,
    when (negb (al_released a) && negb (bool_decide (Some (al_id a) ∈ issued))) (_ ← allocation_cancel (al_id a); mret ())).

(** * Members *)

Section members.
  Context `{Digests} (cluster : string).

(** The definition a pool's builder or member is created from. *)
Definition member_request (p : pool) (builder : bool) : creation :=
  let r := po_request p in
  let r := if builder then r
           else r <| cr_spec := default (cr_spec r) (po_baseline_spec p) |> <| cr_reference := po_baseline p |>
                  <| cr_cache_key := None |> <| cr_refresh := false |> in
  let recorded := f_recording (spec_fields (cr_spec (po_request p))) in
  let adjust (f : fields) :=
    let f := f <| f_detached := true |> <| f_ttl := None |> <| f_name := None |> in
    let f := if builder then f <| f_recording := false |>
             else if recorded then f <| f_recording := true |> <| f_recording_on_claim := true |> else f in
    if po_retain_baseline p then f
    else f <| f_discard_workspace := true |> <| f_retention_pool := Some (po_id p) |> in
  r <| cr_spec := map_fields adjust (cr_spec r) |>.

(** The proxy of a new member, and the pool's rotation after it. *)
Definition assign_proxy (randbelow : nat → nat) (p : pool) (builder : bool) (r : creation) : res (creation * option proxy_state) :=
  let n := f_network (spec_fields (cr_spec (po_request p))) in
  if requires_policy n then
    match nw_proxy n with
    | None => raise KeyError "proxy"
    | Some v =>
        x ← select randbelow n v (Some (default no_proxy_state (po_proxy_state p))) (negb builder);
        Ok (r <| cr_spec := map_fields (λ f, f <| f_network := n |> <| f_proxy_assignment := Some x.1 |>) (cr_spec r) |>,
            Some x.2)
    end
  else Ok (r, None).

(** The identity of a new member. *)
Definition member_identity (r : creation) (uuid : string) : string :=
  ((if f_vr (spec_fields (cr_spec r)) then "vr-sw-" else "sw-") ++ uuid)%string.

(** The created allocation joins the pool. *)
Definition join_pool (identity : string) (p : pool) (builder : bool) : txn () :=
  record ← get (A := allocation) identity;
  _ ← save (record <| al_parent := Some (po_id p) |>
              <| al_role := Some (if builder then "builder"%string else "member"%string) |> <| al_ack := true |>) None;
  when builder (save (p <| po_builder := Some identity |>) None).

(** [pool._new_member] *)
Definition _new_member (randbelow : nat → nat) (uuid operation : string) (p : pool) (builder : bool) : txn () :=
  let r := member_request p builder in
  let identity := member_identity r uuid in
  p ← resolve_pool (po_id p);
  if negb (bool_decide (po_desired p = "running"%string)) || bool_decide (po_state p = "failed"%string) then mret ()
  else
    x ← lift (assign_proxy randbelow p builder r);
    let '(r, rotated) := x : creation * option proxy_state in
    p ← match rotated with Some s => put (p <| po_proxy_state := Some s |>) None | None => mret p end;
    _ ← create identity (r <| cr_owner := None |> <| cr_operation := Some operation |>);
    join_pool identity p builder.

(** * The baseline *)

(** Whether a capture of the builder is still wanted. *)
Definition wants_baseline (p : pool) (builder : string) : bool :=
  bool_decide (po_desired p = "running"%string) && bool_decide (po_baseline p = None)
  && bool_decide (po_builder p = Some builder).

Definition commit_capture (pool_id builder : string) (generation : Z) (s : saved) (d : spec) : txn () :=
  p ← resolve_pool pool_id;
  current ← get (A := allocation) builder;
  if negb (wants_baseline p builder) || bool_decide (po_state p = "failed"%string) || negb (al_generation current =? generation)
  then mret ()
  else
    _ ← save (p <| po_baseline := Some (sa_id s) |> <| po_baseline_spec := Some d |> <| po_state := "ready"%string |>) None;
    _ ← allocation_cancel builder; mret ().

Definition capture_failed (pool_id builder : string) (generation : Z) (x : exn) : txn () :=
  p ← resolve_pool pool_id;
  current ← get (A := allocation) builder;
  if negb (wants_baseline p builder) || negb (al_generation current =? generation) then mret ()
  else _ ← _fail pool_id (exn_text x); _ ← allocation_cancel builder; mret ().

(** [pool._capture] *)
Definition _capture (pool_id builder : string) : prog () :=
  r ← atomic (p ← resolve_pool pool_id; a ← get (A := allocation) builder; mret (p, a));
  let '(p, record) := r : pool * allocation in
  if negb (wants_baseline p builder) || bool_decide (po_state p = "failed"%string)
     || negb (bool_decide (al_desired record = "running"%string)) || al_released record
  then mret ()
  else rescue
    (e ← match al_endpoint record with Some e => mret e | None => fails KeyError "endpoint" end;
     c ← open_connection e;
     s ← request c (capture builder);
     v ← request c (snapshot_verify (sa_id s));
     _ ← fail_if (negb (bool_decide (vf_status v = Some "passed"%string))) ResourceUnavailable
           ("pool baseline verification failed: " ++ vf_error v);
     d ← register (sa_id s) e None None;
     atomic (commit_capture pool_id builder (al_generation record) s (sp_spec d)))
    (λ x, stopping ← reads (λ _ v, Ok (vo_stopping v));
          if stopping : bool then mret () else atomic (capture_failed pool_id builder (al_generation record) x)).

(** * Claims *)

Definition claim_current (l : pool_lease) (a : allocation) (generation : Z) : bool :=
  (al_generation a =? generation) && lease_state "claiming" l && bool_decide (al_desired a = "running"%string).

Definition commit_claim (lease_id sandbox : string) (generation : Z) (r : applied) : txn () :=
  l ← get (A := pool_lease) lease_id;
  a ← get (A := allocation) sandbox;
  if negb (claim_current l a generation) then mret ()
  else
    _ ← save (l <| le_state := "ready"%string |>) None;
    save (a <| al_token := Some (ap_token r) |> <| al_info := Some (ap_sandbox r) |> <| al_owner := le_owner l |>
            <| al_error := None |> <| al_state := "leased"%string |>) None.

Definition claim_failed (lease_id sandbox : string) (generation : Z) (x : exn) : txn () :=
  l ← get (A := pool_lease) lease_id;
  a ← get (A := allocation) sandbox;
  if negb (al_generation a =? generation) || negb (lease_state "claiming" l) then mret ()
  else
    _ ← save (l <| le_state := "failed"%string |> <| le_error := Some (exn_text x) |>) None;
    _ ← allocation_cancel sandbox; mret ().

(** [pool._claim] *)
Definition _claim (pool_id lease_id sandbox : string) : prog () :=
  r ← atomic (l ← get (A := pool_lease) lease_id; a ← get (A := allocation) sandbox; p ← resolve_pool pool_id; mret (l, a, p));
  let '(l, a, p) := r : pool_lease * allocation * pool in
  let generation := default (al_generation a) (le_generation l) in
  if negb (lease_state "claiming" l) || negb (bool_decide (al_lease a = Some lease_id))
     || negb (bool_decide (al_desired a = "running"%string)) || negb (bool_decide (po_desired p = "running"%string))
     || bool_decide (po_state p = "failed"%string) || negb (al_generation a =? generation)
  then mret ()
  else rescue
    (e ← match al_endpoint a with Some e => mret e | None => fails KeyError "endpoint" end;
     c ← open_connection e;
     process ← atomic (_owner_process (le_owner l));
     r ← request c (managed_apply sandbox cluster generation (Claim (le_owner l) process (cr_spec (po_request p))));
     atomic (commit_claim lease_id sandbox generation r))
    (λ x, if bool_decide (exn_kind x = OperationUnknown) then mret ()
          else
            stopping ← reads (λ _ v, Ok (vo_stopping v));
            if stopping : bool then mret () else atomic (claim_failed lease_id sandbox generation x)).
End members.

(** * Releasing a closed pool's images *)

Definition names_any (l : list string) (o : option string) : bool :=
  match o with Some r => bool_decide (r ∈ l) | None => false end.

(** The images of the pool that nobody else uses retire: those records, and every
    reference to release. *)
Definition retire_images (pool_id : string) (p : pool) (sources : list string) : txn (list artifact * list string) :=
  found ← list_where (λ a : artifact, bool_decide (Some (af_id a) = po_baseline p) || bool_decide (sa_source (af_info a) ∈ sources));
  let references := sorted_set (map af_id found ++ match text (po_baseline p) with Some b => [b] | None => [] end) in
  pools ← list_all (A := pool);
  allocations ← list_where (λ a : allocation, negb (al_released a));
  aliases ← list_all (A := alias);
  _ ← throw_if (negb (bool_decide (references = [])) &&
        (existsb (λ q, negb (bool_decide (po_id q = pool_id)) && negb (bool_decide (po_state q = "closed"%string))
                       && (names_any references (po_baseline q) || names_any references (cr_reference (po_request q)))) pools
         || existsb (λ a, negb (bool_decide (al_parent a = Some pool_id))
                          && names_any references (cr_reference (al_request a))) allocations
         || existsb (λ a, bool_decide (ai_reference a ∈ references)) aliases))
        ResourceUnavailable "pool baseline is retained by another cluster user";
  _ ← for_each found (λ a, save (a <| af_retiring := true |>) None);
  mret (found, references).

(** The last route of each worker that may hold an image. *)
Definition release_routes (allocations : list allocation) (found : list artifact) : list endpoint :=
  let endpoints := omap (λ a, if al_retention_unsupported a then None else al_endpoint a) allocations
                   ++ concat (map af_locations found) in
  map snd (foldl (λ d e, od_set (ep_hostname e, ep_workspace e) e d) [] endpoints).

Definition release_on (pool_id : string) (references sources : list string) (shared_cache : option string) (e : endpoint)
    : prog () :=
  lost ← reads (λ _ v, Ok (is_lost (vo_connections v) e));
  if lost : bool then mret ()
  else rescue (c ← open_connection e; request c (artifact_release pool_id references sources shared_cache))
         (λ x, lost ← reads (λ _ v, Ok (is_lost (vo_connections v) e));
               if lost : bool then mret () else fail x).

Definition images_released (pool_id : string) (found : list artifact) : txn () :=
  current ← resolve_pool pool_id;
  _ ← save (current <| po_cleanup_error := None |> <| po_cleanup_retry_at := None |> <| po_artifacts_released := true |>)
        (Some "pool artifacts released"%string);
  for_each found (λ a,
    now ← get (A := artifact) (af_id a);
    save (now <| af_released := true |> <| af_locations := [] |>) None).

Definition cleanup_failed (pool_id : string) (x : exn) : txn () :=
  current ← resolve_pool pool_id;
  t ← the_time;
  save (current <| po_cleanup_error := Some (exn_text x) |> <| po_cleanup_retry_at := Some (t + seconds 5) |>)
    (Some "pool artifact cleanup will retry"%string).

(** [pool._release_artifacts] *)
Definition _release_artifacts (pool_id : string) : prog () :=
  p ← atomic (resolve_pool pool_id);
  allocations ← atomic (list_where (in_pool pool_id));
  if negb (bool_decide (po_desired p = "closed"%string)) || existsb (λ a, negb (al_released a)) allocations then mret ()
  else
    let sources := map al_id allocations in
    rescue
      (r ← atomic (retire_images pool_id p sources);
       let '(found, references) := r : list artifact * list string in
       _ ← in_turn (release_routes allocations found)
             (release_on pool_id references (sorted_set sources) (po_shared_cache p));
       atomic (images_released pool_id found))
      (λ x, atomic (cleanup_failed pool_id x)).

(** * Reconciliation *)

Section reconcile.
  Context `{Digests}.
  (** Identities of the members made in one pass, and their random choices. *)
  Context (uuids : nat → string) (operations : nat → string) (randbelow : nat → nat → nat).

Definition is_prepared (a : allocation) : bool :=
  al_prepared a || match al_info a with Some i => bool_decide (in_state i = "ready"%string) | None => false end.
Definition member_failed (a : allocation) : bool :=
  given (al_error a) && al_released a && bool_decide (al_role a = Some "member"%string).

(** Three failed members since the last one that got ready. *)
Definition failing (history : list (row allocation)) : option string :=
  let failed := filter (λ r, Is_true (member_failed (row_value r))) history in
  let latest := foldr Z.max 0 (map row_created (filter (λ r, Is_true (is_prepared (row_value r))) history)) in
  if 3 <=? count (λ r, latest <? row_created r) failed
  then Some ("pool preparation failed three times: " ++ default ""%string (r ← last failed; al_error (row_value r)))%string
  else None.

(** A waiting lease takes an idle member, under a new generation. *)
Definition hand_over (x : pool_lease * allocation) : txn () :=
  let '(l, a) := x in
  _ ← save (l <| le_sandbox := Some (al_id a) |> <| le_state := "claiming"%string |>
              <| le_generation := Some (al_generation a + 1) |>) None;
  save (a <| al_lease := Some (le_id l) |> <| al_state := "claiming"%string |>
          <| al_generation := al_generation a + 1 |>) None.

(** Idle members in excess, or on a draining worker, end. *)
Fixpoint retire_idle (excess : Z) (l : list allocation) : txn () :=
  match l with
  | [] => mret ()
  | a :: l =>
      w ← the_worker a;
      if (0 <? excess) || wk_draining w
      then _ ← allocation_cancel (al_id a); retire_idle (Z.max 0 (excess - 1)) l
      else retire_idle excess l
  end.

(** How many members the pool lacks. *)
Definition missing (p : pool) (live ready : list allocation) (waiting : list pool_lease) : Z :=
  let n {A} (l : list A) := Z.of_nat (length l) in
  let waiting_count := Z.max 0 (n waiting - n ready) in
  let ready_count := Z.max 0 (n ready - n waiting) in
  let preparing := count (λ a, is_preparing a && negb (given (al_lease a))) live in
  Z.min (pp_size (po_rules p) - n live) (Z.max (pp_warm (po_rules p) - ready_count) waiting_count - preparing).

(** The last transaction of [reconcile] for a pool: leases, members and excess. *)
Definition balance (identity : string) : txn () :=
  p ← resolve_pool identity;
  if negb (bool_decide (po_desired p = "running"%string)) || bool_decide (po_state p = "failed"%string) then mret ()
  else
    live ← list_where (live_in (po_id p));
    let ready := filter (λ a, Is_true (is_idle a)) live in
    waiting ← list_where (λ l, lease_in (po_id p) l && lease_state "pending" l);
    _ ← for_each (zip waiting ready) hand_over;
    _ ← for_each (seq 0 (Z.to_nat (missing p live ready waiting)))
          (λ k, _new_member (randbelow k) (uuids k) (operations k) p false);
    retire_idle (Z.max 0 (Z.of_nat (length live) - pp_size (po_rules p))) (drop (length waiting) ready).

(** A pool without a baseline: its builder is made, captured, or has failed. *)
Definition reconcile_builder (p : pool) : prog () :=
  match text (po_builder p) with
  | None => atomic (_new_member (randbelow O) (uuids O) (operations O) p true)
  | Some b =>
      a ← atomic (get (A := allocation) b);
      if bool_decide (al_state a = "ready"%string) then _submit (CaptureWork (po_id p) (al_id a))
      else if bool_decide (al_state a ∈ ["failed"; "terminated"]%string)
      then atomic (_fail (po_id p) (default "baseline preparation failed"%string (text (al_error a))))
      else mret ()
  end.

Definition reconcile_lease (p : pool) (l : pool_lease) : prog () :=
  why ← atomic (the_reason (le_owner l));
  if given why then atomic (pool_release (po_id p) (le_id l))
  else if lease_state "claiming" l
  then _submit (ClaimWork (po_id p) (le_id l) (default ""%string (le_sandbox l)))
  else mret ().

(** A pool that is to close: its members end, then its images, then the record. *)
Definition reconcile_closing (p : pool) (live : list allocation) : prog () :=
  _ ← in_turn live (λ a, _ ← atomic (allocation_cancel (al_id a)); mret ());
  if negb (bool_decide (live = [])) then mret ()
  else if negb (po_retain_baseline p) && negb (po_artifacts_released p) then
    t ← reads (λ e _, Ok (now e));
    if default 0 (po_cleanup_retry_at p) <=? t then _submit (ReleaseWork (po_id p)) else mret ()
  else atomic (save (p <| po_state := "closed"%string |>) None).

Definition reconcile_ready (p : pool) : prog () :=
  p ← (if bool_decide (po_state p = "ready"%string) then mret p
       else atomic (put (p <| po_state := "ready"%string |>) None));
  ready ← atomic (list_where (λ l, lease_in (po_id p) l && lease_state "ready" l));
  claiming ← atomic (list_where (λ l, lease_in (po_id p) l && lease_state "claiming" l));
  pending ← atomic (list_where (λ l, lease_in (po_id p) l && lease_state "pending" l));
  _ ← in_turn (ready ++ claiming ++ pending) (reconcile_lease p);
  atomic (balance (po_id p)).

(** [pool.reconcile], one pool as it was listed. *)
Definition reconcile_pool (p : pool) : prog () :=
  if bool_decide (po_state p = "closed"%string) then mret ()
  else
    why ← atomic (the_reason (po_owner p));
    p ← (if given why then _ ← atomic (pool_close (po_id p)); atomic (resolve_pool (po_id p)) else mret p);
    live ← atomic (list_where (live_in (po_id p)));
    if bool_decide (po_desired p = "closed"%string) then reconcile_closing p live
    else if bool_decide (po_state p = "failed"%string)
    then atomic (_fail (po_id p) (default "pool failed"%string (text (po_error p))))
    else
      history ← atomic (list_stored (in_pool (po_id p)));
      match failing history with
      | Some e => atomic (_fail (po_id p) e)
      | None => if bool_decide (po_baseline p = None) then reconcile_builder p else reconcile_ready p
      end.

Definition reconcile_pools : prog () :=
  pools ← atomic (list_all (A := pool)); in_turn pools reconcile_pool.
End reconcile.
