(* ===== verification/Jobs.v ===== *)
(** [weave/jobs.py], the controller's side of jobs: tasks run on leased sandboxes,
    each attempt under the identity of one process; outcomes are recorded once and
    retried by policy. Identities made with [uuid4] are arguments. *)

From Stdlib Require Import QArith.
From stdpp Require Import pretty.
From S2P Require Import Prelude OrderedDict Values Proxy Resources GpuMatching Scheduler Ownership Cluster.
From S2P Require Import Connections Lifecycle Artifacts ServiceNetworks Preparation Workers Allocations Pools.
Local Open Scope Z_scope.

Definition JOB_TERMINAL : list string := ["succeeded"; "failed"; "cancelled"]%string.
Definition task_done (t : task) : bool := bool_decide (ta_state t ∈ JOB_TERMINAL).
Definition task_of (identity : string) (t : task) : bool := bool_decide (ta_parent t = identity).

(** * Submission *)

(** [jobs.validate] *)
Definition validate_job (r : job_request) : res () :=
  _ ← raise_if (bool_decide (jr_command r = ""%string) || bool_decide ("000"%char ∈ chars (jr_command r))) ValueError
        "job command must be a nonempty command string";
  _ ← raise_if (jr_retries r <? 0) ValueError "retries must be a nonnegative integer";
  _ ← match jr_timeout r with Some t => Resources.positive t "timeout" false | None => Ok VNone end;
  m ← Resources.positive (jr_max_output_bytes r) "max_output_bytes" true;
  _ ← raise_if (match m with VInt n => 16 * MiB <? n | _ => false end) ValueError
        "durable job output is limited to 16 MiB per attempt";
  _ ← match jr_every r with Some t => Resources.positive t "every" false | None => Ok VNone end;
  Ok ().

(** A file destination outside the workspace. *)
Definition bad_destination (name : string) : bool :=
  let parts := str_split "/" name in
  forallb (λ p, bool_decide (p ∈ [""; "."]%string)) parts || str_startswith "/" name || bool_decide (".."%string ∈ parts).

Record job_params := JobParams {
  jp_identity : string; jp_pool : string; jp_owner : option string; jp_owned_pool : bool;
  jp_pool_request : option pool_request; jp_request : job_request }.

Definition check_job (q : job_params) : prog () :=
  _ ← Finished (validate_job (jp_request q));
  _ ← fail_if (bool_decide (jr_items (jp_request q) = [])) ValueError "job items must be a nonempty list";
  _ ← fail_if (existsb (λ f, bad_destination f.1) (jr_files (jp_request q))) ValueError
        "job files must map relative file destinations to bytes";
  _ ← atomic (_owner_process (jp_owner q)); mret ().

Definition new_task (identity : string) (index : nat) (item : value) (t : Z) : task :=
  Task (identity ++ "-" ++ pretty index) identity (Z.of_nat index) item "pending" 0 t None None None None None.

(** The transaction of [job_create]: the pool, the job and its tasks at once. *)
Definition create_job (q : job_params) : txn () :=
  let identity := jp_identity q in
  old ← find (A := job) identity;
  match old with
  | Some j =>
      throw_if (negb (bool_decide (jo_request j = jp_request q)) || negb (bool_decide (jo_owner j = jp_owner q))
                || negb (bool_decide (jo_pool j = jp_pool q))) FileExistsError "job ID is already in use"
  | None =>
      _ ← match jp_pool_request q with
          | Some p =>
              _ ← throw_if (negb (bool_decide (pq_identity p = jp_pool q))) ValueError "job and pool identities disagree";
              create_pool p
          | None => mret ()
          end;
      p ← get (A := pool) (jp_pool q);
      _ ← throw_if (negb (bool_decide (po_desired p = "running"%string)) || bool_decide (po_state p = "failed"%string))
            ResourceUnavailable "job pool is closed";
      _ ← save (Job identity "running" (po_id p) (jp_owner q) (jp_owned_pool q) (jp_request q) None) (Some "job submitted"%string);
      t ← the_time;
      for_each (imap pair (jr_items (jp_request q))) (λ i, save (new_task identity i.1 i.2 t) None)
  end.

(** [job_create]; the checks of a pool it brings run before its transaction. *)
Definition job_create (q : job_params) : prog () :=
  _ ← check_job q;
  old ← atomic (find (A := job) (jp_identity q));
  _ ← match old, jp_pool_request q with
      | None, Some p =>
          _ ← fail_if (negb (bool_decide (pq_identity p = jp_pool q))) ValueError "job and pool identities disagree";
          check_pool p
      | _, _ => mret ()
      end;
  atomic (create_job q).

(** * Status, results and cancellation *)

Definition release_lease (j : job) (t : task) : txn () :=
  match text (ta_lease t) with Some l => pool_release (jo_pool j) l | None => mret () end.
Definition close_owned (j : job) : txn () := when (jo_owned_pool j) (pool_close (jo_pool j)).
Definition job_done (j : job) : bool := bool_decide (jo_state j ∈ JOB_TERMINAL).

(** [job_cancel] *)
Definition job_cancel (identity : string) : txn () :=
  j ← get (A := job) identity;
  if job_done j then mret ()
  else
    _ ← save (j <| jo_state := "cancelled"%string |>) (Some "job cancelled"%string);
    tasks ← list_where (task_of identity);
    _ ← for_each tasks (λ t, _ ← release_lease j t;
                              when (negb (task_done t)) (save (t <| ta_state := "cancelled"%string |>) None));
    close_owned j.

(** [job_results]: by index; an unfinished task has none yet. *)
Definition no_result (t : task) : outcome :=
  Outcome (Some "infrastructure"%string) (Some (default "task was cancelled"%string (text (ta_error t)))) (-1) [] [] false false.
Definition job_results (identity : string) : txn (list outcome) :=
  tasks ← list_where (task_of identity);
  _ ← throw_if (existsb (λ t, negb (task_done t)) tasks) ResourceUnavailable "job has unfinished tasks";
  mret (map (λ t, default (no_result t) (ta_result t)) (sort_by (λ a b, ta_index a <? ta_index b) tasks)).

(** * Attempts *)

(** The number of an attempt that follows, and when it is due, if one does. *)
Definition retries (j : job) (t : task) (o : outcome) : bool :=
  let r := jo_request j in
  (ta_attempt t <? jr_retries r)
  && (bool_decide (oc_failure o = Some "infrastructure"%string) && jr_retry_infrastructure r
      || bool_decide (oc_returncode o ∈ jr_retry_codes r)).
Definition repeating (j : job) : bool :=
  bool_decide (is_Some (jr_every (jo_request j))) && bool_decide (jo_state j = "running"%string).
Definition next_delay (j : job) (t : task) : Z :=
  if repeating j then match jr_every (jo_request j) with Some v => on_clock v | None => 0 end
  else seconds (Z.min 30 (2 ^ ta_attempt t)).

Definition attempt_id (t : task) : string := (ta_id t ++ "-" ++ pretty (ta_attempt t))%string.

(** [jobs._finish] *)
Definition _finish (task_id : string) (o : outcome) : txn () :=
  t ← get (A := task) task_id;
  if task_done t then mret ()
  else
    j ← get (A := job) (ta_parent t);
    _ ← save (Attempt (attempt_id t) task_id o) None;
    clock ← the_time;
    let next :=
      if retries j t o || repeating j
      then t <| ta_state := "pending"%string |> <| ta_attempt := ta_attempt t + 1 |> <| ta_due := clock + next_delay j t |>
      else t <| ta_state := if oc_returncode o =? 0 then "succeeded"%string else "failed"%string |> <| ta_result := Some o |> in
    _ ← save next (Some "attempt completed"%string);
    match ta_lease t with Some l => pool_release (jo_pool j) l | None => throw KeyError "lease" end.

(** [range(0, max(1, len(data)), 1024**2)] and the pieces at those offsets. *)
Fixpoint chunks (n : nat) (offset : Z) (data : bytes) : list (Z * bytes) :=
  match n with
  | O => []
  | S n => (offset, take (Z.to_nat MiB) data) :: chunks n (offset + MiB) (drop (Z.to_nat MiB) data)
  end.
Definition pieces (data : bytes) : list (Z * bytes) :=
  chunks (Z.to_nat ((Z.max 1 (Z.of_nat (length data)) + MiB - 1) / MiB)) 0 data.

Definition write_files (c : connection) (sandbox : string) (files : list (string * bytes)) : prog () :=
  in_turn files (λ f,
    _ ← fail_if (str_startswith "/" f.1 || bool_decide (".."%string ∈ str_split "/" f.1)) ValueError "job file escapes /workspace";
    in_turn (pieces f.2) (λ p, request c (file_write sandbox ("/workspace/" ++ f.1) p.2 p.1 (p.1 =? 0)))).

(** The attempt moves on, unless it was superseded. *)
Definition move_task (task_id from to : string) (sandbox : option string) : txn (option task) :=
  t ← get (A := task) task_id;
  if negb (bool_decide (ta_state t = from)) then mret None
  else
    let t := t <| ta_state := to |> in
    let t := match sandbox with Some s => t <| ta_sandbox := Some s |> | None => t end in
    t ← put t None; mret (Some t).

(** Reading a recorded stream; every read returns something. *)
Fixpoint read_stream (fuel : nat) (c : connection) (sandbox process stream : string) (size : Z) (got : bytes) : prog bytes :=
  let offset := Z.of_nat (length got) in
  if size <=? offset then mret got
  else match fuel with
       | O => fails RuntimeError "fuel"
       | S fuel =>
           data ← request c (process_output sandbox process stream offset MiB);
           if bool_decide (data = []) then fails OSError "job output ended before its recorded size"
           else read_stream fuel c sandbox process stream size (got ++ data)
       end.

Definition process_of (t : task) : prog string :=
  match ta_process t with Some p => mret p | None => fails KeyError "process" end.

(** The owner of an attached job may have to renew its worker directly first. *)
Definition owner_ready (j : job) (sandbox : string) : txn bool :=
  match text (jo_owner j) with
  | None => mret true
  | Some owner =>
      a ← get (A := allocation) sandbox;
      process ← _owner_process (Some owner);
      w ← the_worker a;
      mret (bool_decide (al_owner_route_ack a = Some owner)
            || match process with Some p => bool_decide (pr_scope p = iv_scope (wk_inventory w)) | None => false end)
  end.

Definition reach_worker (e : endpoint) : prog connection :=
  rescue (open_connection e) (λ x,
    if bool_decide (exn_kind x ∈ [OSError; FileNotFoundError; FileExistsError; PermissionError; TimeoutError; ResourceUnavailable])
    then fails OperationUnknown "job worker cannot be reached" else fail x).

(** The result of an ended process, its output read. *)
Definition collect (c : connection) (sandbox process task_id : string) (o : Lifecycle.process_state) : prog () :=
  match ps_returncode o with
  | None => mret ()
  | Some code =>
      out ← read_stream (Z.to_nat (ps_stdout_size o)) c sandbox process "stdout" (ps_stdout_size o) [];
      err ← read_stream (Z.to_nat (ps_stderr_size o)) c sandbox process "stderr" (ps_stderr_size o) [];
      atomic (_finish task_id
        (Outcome (if ps_cold_boot o then Some "infrastructure"%string
                  else if code =? 0 then None else Some "application"%string)
                 None code out err (ps_timed_out o) (ps_output_limited o)))
  end.

(** The attempt on a reachable sandbox, from wherever it stands. *)
Definition run_attempt (t : task) (j : job) (c : connection) (sandbox : string) : prog () :=
  let r := jo_request j in
  t ← (if bool_decide (ta_state t = "waiting"%string)
       then _ ← write_files c sandbox (jr_files r); atomic (move_task (ta_id t) "waiting" "starting" (Some sandbox))
       else mret (Some t));
  match t with
  | None => mret ()
  | Some t =>
      process ← process_of t;
      t ← (if bool_decide (ta_state t = "starting"%string)
           then _ ← request c (command_start sandbox process (jr_command r) (ta_item t) (ta_id t) (ta_attempt t)
                                 (jr_timeout r) (jr_max_output_bytes r));
                _ ← request c (process_stdin sandbox process);
                atomic (move_task (ta_id t) "starting" "running" None)
           else mret (Some t));
      match t with
      | None => mret ()
      | Some t => o ← request c (process_status sandbox process); collect c sandbox process (ta_id t) o
      end
  end.

Definition infrastructure (error : string) : outcome :=
  Outcome (Some "infrastructure"%string) (Some error) (-1) [] [] false false.

(** A failed step: active work of an unreachable worker is kept. *)
Definition step_failed (task_id : string) (x : exn) : prog () :=
  if bool_decide (exn_kind x = OperationUnknown) then mret ()
  else
    t ← atomic (get (A := task) task_id);
    a ← atomic (find (A := allocation) (default ""%string (ta_sandbox t)));
    if bool_decide (exn_kind x = ResourceUnavailable) && from_option (λ a, negb (al_released a)) false a
    then atomic (t ← get (A := task) task_id; when (negb (task_done t)) (save (t <| ta_error := Some (exn_text x) |>) None))
    else atomic (_finish task_id (infrastructure (exn_text x))).

(** [jobs._step] *)
Definition _step (task_id : string) : prog () :=
  t ← atomic (get (A := task) task_id);
  j ← atomic (get (A := job) (ta_parent t));
  if negb (bool_decide (jo_state j = "running"%string)) || task_done t then mret ()
  else rescue
    (l ← match ta_lease t with Some l => lease_status (jo_pool j) l | None => fails KeyError "lease" end;
     if bool_decide (lv_state l ∈ ["pending"; "claiming"]%string) then mret ()
     else
       r ← match lv_route l with
           | Some r => mret r
           | None => fails ResourceUnavailable (default "job lease was lost"%string (text (lv_error l)))
           end;
       ready ← atomic (owner_ready j (ro_id r));
       if negb ready then mret ()
       else c ← reach_worker (ro_endpoint r); run_attempt t j c (ro_id r))
    (step_failed task_id).

(** * Reconciliation *)

Definition pool_gone : string := "job pool was closed".

(** The pool of a job failed or closed: what is left of the job fails. *)
Definition fail_job (j : job) (p : pool) : txn () :=
  let error := default pool_gone (text (po_error p)) in
  tasks ← list_where (task_of (jo_id j));
  _ ← for_each tasks (λ t,
        if task_done t then mret ()
        else
          _ ← release_lease j t;
          save (t <| ta_state := "failed"%string |> <| ta_error := Some error |> <| ta_result := Some (infrastructure error) |>) None);
  current ← get (A := job) (jo_id j);
  _ ← when (bool_decide (jo_state current = "running"%string))
        (save (current <| jo_state := "failed"%string |> <| jo_error := Some error |>) None);
  close_owned j.

(** Every task ended: so does the job. *)
Definition end_job (j : job) (tasks : list task) : txn () :=
  current ← get (A := job) (jo_id j);
  when (bool_decide (jo_state current = "running"%string)) (
    _ ← save (current <| jo_state := if forallb (λ t, bool_decide (ta_state t = "succeeded"%string)) tasks
                                     then "succeeded"%string else "failed"%string |>) None;
    close_owned j).

(** A due task checks a sandbox out for its next attempt. *)
Definition begin_attempt (j : job) (task_id lease_id process : string) : txn () :=
  t ← get (A := task) task_id;
  current ← get (A := job) (jo_id j);
  if negb (bool_decide (ta_state t = "pending"%string)) || negb (bool_decide (jo_state current = "running"%string)) then mret ()
  else
    _ ← pool_checkout (jo_pool j) lease_id (jo_owner j);
    save (t <| ta_state := "waiting"%string |> <| ta_lease := Some lease_id |> <| ta_process := Some process |>) None.

Section reconcile.
  (** Identities for the lease and the process of each task's next attempt. *)
Context (lease_ids process_ids : string → string).

Definition reconcile_task (j : job) (t : task) : prog () :=
  clock ← reads (λ e _, Ok (now e));
  if bool_decide (ta_state t = "pending"%string) && (ta_due t <=? clock) then
    previous ← atomic (find (A := allocation) (default ""%string (ta_sandbox t)));
    if from_option (λ a, negb (al_released a)) false previous then mret ()
    else atomic (begin_attempt j (ta_id t) (lease_ids (ta_id t)) (process_ids (ta_id t)))
  else if bool_decide (ta_state t ∈ ["waiting"; "starting"; "running"]%string) then _submit (StepWork (ta_id t))
  else mret ().

(** [jobs.reconcile], one running job. *)
Definition reconcile_job (j : job) : prog () :=
  why ← atomic (the_reason (jo_owner j));
  if given why then atomic (job_cancel (jo_id j))
  else
    tasks ← atomic (list_where (task_of (jo_id j)));
    p ← atomic (get (A := pool) (jo_pool j));
    if bool_decide (po_state p = "failed"%string) || negb (bool_decide (po_desired p = "running"%string))
    then atomic (fail_job j p)
    else if forallb task_done tasks then atomic (end_job j tasks)
    else in_turn tasks (reconcile_task j).

Definition reconcile_jobs : prog () :=
  jobs ← atomic (list_where (λ j : job, bool_decide (jo_state j = "running"%string)));
  in_turn jobs reconcile_job.
End reconcile.
