(* ===== verification/Reconcile.v ===== *)
(** [weave/controller.py], the control loop: [tick] reconciles pools and jobs,
    cancels what its owner left, schedules lifecycles under each worker's launch
    limit, and places what is pending. [body] is the lifecycle of each scheduled
    work. *)

From Stdlib Require Import QArith.
From S2P Require Import Prelude OrderedDict Values Proxy Resources GpuMatching Scheduler Ownership Cluster.
From S2P Require Import Connections Lifecycle Artifacts ServiceNetworks Preparation Workers Allocations Pools.
From S2P Require Import Jobs.
Local Open Scope Z_scope.

Definition OBSERVE_EVERY : Z := seconds 30.
Definition SETTLED : list string := ["ready"; "leased"; "paused"]%string.
Definition MIN_STARTING : Z := 16.

(** * Launch limits *)

(** [configured_starting] on the text of [SANDWEAVE_MAX_STARTING]; [int] accepts
    a sign, spaces around and single underscores, of which only plain digits are
    modelled. *)
Definition configured_starting (value : option string) : res (option Z) :=
  match text value with
  | None => Ok None
  | Some s => match digits_value (chars (str_strip s)) with
              | Some n => if n <? 1 then raise ValueError "SANDWEAVE_MAX_STARTING must be a positive integer" else Ok (Some n)
              | None => raise ValueError "SANDWEAVE_MAX_STARTING must be a positive integer"
              end
  end.

(** [starting_limit] *)
Definition starting_limit (w : option worker) (configured : option Z) : Z :=
  match configured with
  | Some n => n
  | None => Z.max MIN_STARTING (from_option (λ w, ca_cpus (wk_capacity w)) 0 w)
  end.

(** The launches counted for each worker, and the limits looked up so far. *)
Record launches := Launches { ls_starting : gmap string Z; ls_limits : gmap string Z }.

Definition launching (v : volatile) (identity : string) : bool := bool_decide (AllocationKey identity ∈ (vo_pending v).*1).
Definition worker_of (a : allocation) : string := default ""%string (al_worker a).
Definition starting_of (ls : launches) (w : string) : Z := default 0 (ls_starting ls !! w).

(** The counter over the launches in progress. *)
Definition count_launches (v : volatile) (active : list allocation) : gmap string Z :=
  foldl (λ m a, if bool_decide (al_state a ∈ ["reserved"; "starting"]%string) && launching v (al_id a)
                then <[worker_of a := default 0 (m !! worker_of a) + 1]> m else m) ∅ active.

(** [admitted] *)
Definition admitted (configured : option Z) (v : volatile) (workers : string → option worker) (ls : launches) (a : allocation)
    : bool * launches :=
  if launching v (al_id a) then (true, ls)
  else
    let w := worker_of a in
    let ls := match ls_limits ls !! w with
              | Some _ => ls
              | None => Launches (ls_starting ls) (<[w := starting_limit (workers w) configured]> (ls_limits ls))
              end in
    if default 0 (ls_limits ls !! w) <=? starting_of ls w then (false, ls)
    else (true, Launches (<[w := starting_of ls w + 1]> (ls_starting ls)) (ls_limits ls)).

(** * Placement *)

(** The scheduler's view of a pool. *)
Definition policy_of_pool (p : pool) : policy :=
  let r := po_rules p in
  Policy (pp_priority r)
    (match pp_weight r with VInt n => inject_Z n | VFloat (Some q) => q | _ => 1%Q end)
    None (pp_labels r) (default ""%string (pp_affinity r)) (pp_placement r).
Definition request_of (r : row allocation) : Scheduler.request :=
  let a := row_value r in
  Scheduler.Request (al_id a) (al_parent a) (row_created r) (al_spec a) (al_only_worker a).

(** A released builder still anchors its pool's locality. *)
Definition anchor (s : store) (p : pool) : option (row allocation) :=
  match text (pp_affinity (po_rules p)), text (po_builder p) with
  | Some _, Some b =>
      match st_allocations s !! b with
      | Some r => if al_released (row_value r) && al_prepared (row_value r) then Some r else None
      | None => None
      end
  | _, _ => None
  end.

Definition assign_one (x : string * string * selection) : txn () :=
  let '(identity, w, sel) := x in
  a ← get (A := allocation) identity;
  let a := match sel with
           | NoGpu => a
           | _ => a <| al_spec := assign_gpus (al_spec a) sel |>
                    <| al_request := (al_request a) <| cr_spec := assign_gpus (cr_spec (al_request a)) sel |> |>
           end in
  save (a <| al_worker := Some w |> <| al_state := "reserved"%string |> <| al_reason := None |>)
    (Some "resources reserved"%string).

Definition explain_one (x : string * string) : txn () :=
  a ← get (A := allocation) x.1;
  when (negb (bool_decide (al_reason a = Some x.2))) (save (a <| al_reason := Some x.2 |>) (Some x.2)).

(** The plan of the pending allocations over the store. *)
Definition plan_pending (s : store) : res (list (string * string * selection) * list (string * string)) :=
  let active := list_rows (λ a : allocation, negb (al_released a)) s in
  let pools := map row_value (list_rows (λ _ : pool, true) s) in
  let workers := map (λ r, wrec_of (row_value r)) (list_rows (λ _ : worker, true) s) in
  let pending := filter (λ r, Is_true (bool_decide (al_state (row_value r) = "pending"%string)
                                       && bool_decide (al_desired (row_value r) = "running"%string))) active in
  plan workers (list_to_map (map (λ p, (po_id p, policy_of_pool p)) pools)) (map request_of pending)
    (map (λ r, arec_of (row_created r) (row_value r)) (active ++ omap (anchor s) pools)).

(** The placement transaction of [tick]. *)
Definition place : txn () :=
  r ← (λ e s, lift (plan_pending s) e s : res (_ * store));
  _ ← for_each r.1 assign_one;
  for_each r.2 explain_one.

(** * The control loop *)

Section tick.
  Context `{Digests} (cluster : string) (attach : worker → prog connection).
  (** [SANDWEAVE_MAX_STARTING], and the identities and random choices of a pass. *)
  Context (configured : option Z).
  Context (uuids operations : nat → string) (randbelow : nat → nat → nat) (lease_ids process_ids : string → string).

(** The lifecycle of a scheduled work. *)
Definition body (w : work) : prog () :=
  match w with
  | LaunchWork i => _launch cluster i
  | ObserveWork i => _observe cluster i
  | TerminateWork i => _terminate cluster i
  | ProbeWork i => _probe cluster attach i
  | CaptureWork p b => _capture p b
  | ClaimWork p l a => _claim cluster p l a
  | ReleaseWork p => _release_artifacts p
  | StepWork t => _step t
  end.

(** What one pass over the allocations has gathered: the owners' answers, the
    launches admitted, and the allocations to observe. *)
Record pass := Pass { ps_reasons : gmap (option string) (option string); ps_launches : launches; ps_observations : list string }.

Definition ask_owner (owner : option string) (st : pass) : prog (option string * pass) :=
  match ps_reasons st !! owner with
  | Some why => mret (why, st)
  | None =>
      why ← atomic (the_reason owner);
      mret (why, Pass (<[owner := why]> (ps_reasons st)) (ps_launches st) (ps_observations st))
  end.

(** A launch is scheduled if its worker's limit admits it. *)
Definition schedule_launch (a : allocation) (st : pass) : prog pass :=
  w ← atomic (find (A := worker) (worker_of a));
  r ← reads (λ _ v, Ok (admitted configured v (λ _, w) (ps_launches st) a));
  let '(yes, ls) := r : bool * launches in
  _ ← (if yes then _submit (LaunchWork (al_id a)) else mret ());
  mret (Pass (ps_reasons st) ls (ps_observations st)).

Definition observation_due (t : Z) (a : allocation) (v : volatile) : bool :=
  negb (bool_decide (al_state a ∈ SETTLED)) || (OBSERVE_EVERY <=? t - default 0 (vo_observed v !! al_id a)).

(** One allocation in the pass of [tick]. *)
Definition supervise (t : Z) (probe : bool) (a : allocation) (st : pass) : prog pass :=
  r ← ask_owner (al_owner a) st;
  let '(why, st) := r : option string * pass in
  a ← (if given why || (negb (given (al_parent a)) && negb (al_ack a) && (al_deadline a <=? t))
       then _ ← atomic (allocation_cancel (al_id a)); atomic (get (A := allocation) (al_id a))
       else mret a);
  if bool_decide (al_desired a = "terminated"%string) && given (al_worker a)
  then _ ← _submit (TerminateWork (al_id a)); mret st
  else
    waits ← reads (λ _ v, Ok (waiting (vo_preparation v) (al_id a) (al_generation a)));
    if waits : bool then mret st
    else if bool_decide (al_state a = "reserved"%string) then schedule_launch a st
    else if probe && bool_decide (is_Some (al_endpoint a)) && negb (bool_decide (al_state a ∈ ["starting"; "pending"]%string)) then
      due ← reads (λ _ v, Ok (observation_due t a v));
      if due : bool then
        _ ← writes (λ _ v, v <| vo_observed := <[al_id a := t]> (vo_observed v) |>);
        mret (Pass (ps_reasons st) (ps_launches st) (ps_observations st ++ [al_id a]))
      else mret st
    else if bool_decide (al_state a = "starting"%string) then schedule_launch a st
    else mret st.

Fixpoint supervise_all (t : Z) (probe : bool) (l : list allocation) (st : pass) : prog pass :=
  match l with
  | [] => mret st
  | a :: l => st ← supervise t probe a st; supervise_all t probe l st
  end.

(** The probes and observations of a probing pass. *)
Definition schedule_probes (active : list allocation) (observations : list string) : prog () :=
  _ ← writes (λ _ v, v <| vo_observed := filter (λ p : string * Z, p.1 ∈ map al_id active) (vo_observed v) |>);
  workers ← atomic (list_all (A := worker));
  _ ← in_turn workers (λ w, if is_state "removed" w then mret () else _submit (ProbeWork (wk_id w)));
  in_turn observations (λ i, _submit (ObserveWork i)).

(** Whether this pass probes; the next one that does is two seconds later. *)
Definition probe_due : prog (Z * bool) :=
  Local (λ e v, let due := vo_next_probe v <=? now e in
                (Ok (now e, due), if due then v <| vo_next_probe := now e + seconds 2 |> else v)) Finished.

(** [Controller.tick] *)
Definition tick : prog () :=
  r ← probe_due;
  let '(t, probe) := r : Z * bool in
  _ ← reconcile_pools uuids operations randbelow;
  _ ← reconcile_jobs lease_ids process_ids;
  active ← atomic (list_where (λ a : allocation, negb (al_released a)));
  starting ← reads (λ _ v, Ok (count_launches v active));
  deleting ← atomic (list_where (λ a : allocation, al_released a && al_deletion_pending a));
  _ ← in_turn deleting (λ a, _submit (TerminateWork (al_id a)));
  _ ← on_preparation (λ p, reap p (list_to_map (map (λ a, (al_id a, al_generation a))
                                                 (filter (λ a, al_desired a = "running"%string) active))));
  st ← supervise_all t probe active (Pass ∅ (Launches starting ∅) []);
  _ ← (if probe then schedule_probes active (ps_observations st) else mret ());
  waiting ← atomic (list_where (λ a : allocation, bool_decide (al_state a = "pending"%string) && negb (al_released a)));
  if bool_decide (length waiting = O) then mret () else atomic place.
End tick.
