(* ===== verification/Evolution.v ===== *)
(** How the controller's records may change: [wf] is the invariant of the store,
    [evolves] the order in which allocations, leases, jobs and tasks move, and
    [good] a transaction's obligation. The rules for single puts and loops. *)

From stdpp Require Import pretty.
From S2P Require Import Prelude Values Scheduler Cluster Connections Lifecycle Workers Allocations Pools Jobs.
Local Open Scope Z_scope.

(** * The order of records *)

(** An allocation keeps its identity, its request's stamps, and its worker and
    lease once it has them. Its generation never decreases and grows with every
    change of what is desired; termination is final; it is released for good, but
    for the one deletion that may follow. *)
Record alloc_le (a a' : allocation) : Prop := {
  al_same_id : al_id a' = al_id a;
  al_same_stamp : al_stamp a' = al_stamp a;
  al_same_canonical : al_canonical a' = al_canonical a;
  al_generation_le : al_generation a ≤ al_generation a';
  al_fenced : al_desired a' ≠ al_desired a ∨ text (al_lease a') ≠ text (al_lease a) → al_generation a < al_generation a';
  al_ended : al_desired a = "terminated"%string → al_desired a' = "terminated"%string;
  al_worker_once w : text (al_worker a) = Some w → text (al_worker a') = Some w;
  al_lease_once l : text (al_lease a) = Some l → text (al_lease a') = Some l;
  al_deleting : al_delete_requested a = true → al_delete_requested a' = true;
  al_released_once : al_released a = true →
    al_released a' = true ∨ (al_delete_requested a = false ∧ al_delete_requested a' = true) }.

Definition lease_le (l l' : pool_lease) : Prop :=
  le_id l' = le_id l ∧ le_parent l' = le_parent l
  ∧ (lease_done l = true → lease_done l' = true)
  ∧ (le_state l = "failed"%string → le_state l' = "failed"%string)
  ∧ ∀ b, le_sandbox l = Some b → le_sandbox l' = Some b.

Definition task_le (t t' : task) : Prop :=
  ta_id t' = ta_id t ∧ ta_parent t' = ta_parent t ∧ ta_index t' = ta_index t ∧ ta_attempt t ≤ ta_attempt t'
  ∧ (task_done t = true → ta_state t' = ta_state t ∧ ta_result t' = ta_result t ∧ ta_attempt t' = ta_attempt t).

Definition job_le (j j' : job) : Prop :=
  jo_id j' = jo_id j ∧ jo_pool j' = jo_pool j ∧ jo_request j' = jo_request j ∧ jo_owner j' = jo_owner j
  ∧ (job_done j = true → jo_state j' = jo_state j).

#[export] Instance alloc_le_preorder : PreOrder alloc_le.
Proof.
  split.
  - intros a. split; try done; intros H; [by destruct H|by left].
  - intros a b c Hab Hbc. destruct Hab as [A1 A2 A3 A4 A5 A6 A7 A8 A9 A10], Hbc as [B1 B2 B3 B4 B5 B6 B7 B8 B9 B10].
    split; try congruence; auto; [lia| |].
    + intros H. destruct (decide (al_desired b = al_desired a)) as [E1|E1];
        [|assert (al_generation a < al_generation b) by auto; lia].
      destruct (decide (text (al_lease b) = text (al_lease a))) as [E2|E2];
        [|assert (al_generation a < al_generation b) by auto; lia].
      rewrite <- E1, <- E2 in H. apply B5 in H. lia.
    + intros H. destruct (A10 H) as [H'|[H1 H2]].
      * destruct (B10 H') as [?|[H1 H2]]; [by left|]. right. split; [|done].
        destruct (al_delete_requested a) eqn:E; [|done]. rewrite A9 in H1 by done. done.
      * right. split; [done|by apply B9].
Qed.

#[export] Instance lease_le_preorder : PreOrder lease_le.
Proof. split; [done|]. unfold lease_le. intros a b c (?&?&?&?&?) (?&?&?&?&?). split_and!; try congruence; auto. Qed.

#[export] Instance task_le_preorder : PreOrder task_le.
Proof.
  split; [done|]. unfold task_le. intros a b c (?&?&?&?&Ha) (?&?&?&?&Hb). split_and!; try congruence; try lia.
  intros Hda. destruct (Ha Hda) as (E1 & E2 & E3). assert (Hd : task_done b = true) by (unfold task_done in *; by rewrite E1).
  destruct (Hb Hd) as (E4 & E5 & E6). by rewrite E4, E5, E6.
Qed.

#[export] Instance job_le_preorder : PreOrder job_le.
Proof.
  split; [done|]. unfold job_le. intros a b c (?&?&?&?&Ha) (?&?&?&?&Hb). split_and!; try congruence.
  intros Hda. assert (Hd : job_done b = true) by (unfold job_done in *; by rewrite Ha).
  rewrite Hb by done. by apply Ha.
Qed.

(** The records of a kind never disappear and move along the order. *)
Definition moves {A} `{Table A} (le : A → A → Prop) (s s' : store) : Prop :=
  ∀ i a, value_at s i = Some a → ∃ a', value_at s' i = Some a' ∧ le a a'.

Record evolves (s s' : store) : Prop := {
  ev_allocations : moves alloc_le s s';
  ev_leases : moves lease_le s s';
  ev_tasks : moves task_le s s';
  ev_jobs : moves job_le s s' }.

Lemma moves_refl {A} `{Table A} (le : A → A → Prop) `{!PreOrder le} s : moves le s s.
Proof. intros i a E. exists a. split; [done|]. reflexivity. Qed.
Lemma moves_same {A} `{Table A} (le : A → A → Prop) `{!PreOrder le} s s' :
  (∀ i, value_at (A := A) s' i = value_at s i) → moves le s s'.
Proof. intros E i a Ea. exists a. rewrite E. split; [done|reflexivity]. Qed.
Lemma moves_trans {A} `{Table A} (le : A → A → Prop) `{!PreOrder le} s1 s2 s3 :
  moves le s1 s2 → moves le s2 s3 → moves le s1 s3.
Proof.
  intros H1 H2 i a E. destruct (H1 i a E) as (b & E' & Hab). destruct (H2 i b E') as (c & E'' & Hbc).
  exists c. split; [done|]. by transitivity b.
Qed.

#[export] Instance evolves_preorder : PreOrder evolves.
Proof.
  split.
  - intros s. split; apply moves_refl; apply _.
  - intros s1 s2 s3 [? ? ? ?] [? ? ? ?]. split; eapply moves_trans; eauto; apply _.
Qed.

(** * The invariant *)

(** The leases that hold a sandbox. *)
Definition held (l : pool_lease) : bool := bool_decide (le_state l ∈ ["claiming"; "ready"]%string).

Definition task_name (identity : string) (index : nat) : string := (identity ++ "-" ++ pretty index)%string.

(** The retries of a job that does not repeat bound the attempts of its tasks. *)
Definition bounded (j : job) (t : task) : Prop :=
  jr_every (jo_request j) = None → 0 ≤ ta_attempt t ≤ Z.max 0 (jr_retries (jo_request j)).

(** Records are kept under their identity; an allocation that waits for placement
    has no worker, a waiting lease no sandbox; a lease that holds a sandbox is the
    lease of that allocation; a task belongs to a job, is named after it and has
    no more attempts than the job allows. *)
Record wf (s : store) : Prop := {
  wf_allocation i (a : allocation) : value_at s i = Some a → al_id a = i;
  wf_lease i (l : pool_lease) : value_at s i = Some l → le_id l = i ∧ i ≠ ""%string;
  wf_job i (j : job) : value_at s i = Some j → jo_id j = i;
  wf_task i (t : task) : value_at s i = Some t → ta_id t = i ∧
    (∃ k : nat, i = task_name (ta_parent t) k) ∧ ∃ j : job, value_at s (ta_parent t) = Some j;
  wf_attempts i (t : task) (j : job) : value_at s i = Some t → value_at s (ta_parent t) = Some j → bounded j t;
  wf_pending i (a : allocation) : value_at s i = Some a → al_state a = "pending"%string → text (al_worker a) = None;
  wf_waiting i (l : pool_lease) : value_at s i = Some l → le_state l = "pending"%string → le_sandbox l = None;
  wf_held i (l : pool_lease) : value_at s i = Some l → held l = true →
    ∃ b (a : allocation), le_sandbox l = Some b ∧ value_at s b = Some a ∧ text (al_lease a) = Some i }.

(** What a transaction owes: from a well-formed store it leads to one, along the order. *)
Definition good (s s' : store) : Prop := wf s → wf s' ∧ evolves s s'.

#[export] Instance good_preorder : PreOrder good.
Proof.
  split; [intros s; split; [done|reflexivity]|].
  intros s1 s2 s3 H1 H2 Hw. destruct (H1 Hw) as [Hw2 ?]. destruct (H2 Hw2) as [? ?].
  split; [done|]. by transitivity s2.
Qed.

(** * Puts *)

Section puts.
  Context {A : Type} `{Table A}.

Definition stored (a : A) (t : Z) (ev : list (string * string * string)) (s : store) : store :=
  (put_row a t s) <| st_events := ev |>.

Lemma value_at_stored a t ev s i :
    value_at (stored a t ev s) i = if decide (ident a = i) then Some a else value_at s i.
  Proof.
    unfold value_at, stored. rewrite rows_events. unfold put_row. rewrite rows_with.
    destruct (decide (ident a = i)) as [<-|]; [by rewrite lookup_insert_eq|by rewrite lookup_insert_ne].
  Qed.

Lemma moves_stored (le : A → A → Prop) `{!PreOrder le} a t ev s :
    (∀ b, value_at s (ident a) = Some b → le b a) → moves le s (stored a t ev s).
  Proof.
    intros Hle i b E. rewrite value_at_stored. destruct (decide (ident a = i)) as [<-|].
    - exists a. split; [done|by apply Hle].
    - exists b. split; [done|reflexivity].
  Qed.

Lemma wp_store a event (Q : A → store → Prop) e s : (∀ ev, Q a (stored a (now e) ev s)) → wp (put a event) Q e s.
  Proof. intros HQ. apply wp_put. exact HQ. Qed.
Lemma wp_save a event (Q : () → store → Prop) e s : (∀ ev, Q () (stored a (now e) ev s)) → wp (save a event) Q e s.
  Proof. intros HQ. apply wp_bind, wp_store. intros ev. apply HQ. Qed.
End puts.

(** Kinds that play no part in the order or the invariant. *)
Class Unrelated A `{Table A} := {
  un_allocation (a : A) t ev s : st_allocations (stored a t ev s) = st_allocations s;
  un_lease (a : A) t ev s : st_leases (stored a t ev s) = st_leases s;
  un_task (a : A) t ev s : st_tasks (stored a t ev s) = st_tasks s;
  un_job (a : A) t ev s : st_jobs (stored a t ev s) = st_jobs s }.
#[export] Instance unrelated_worker : Unrelated worker.
Proof. by split. Qed.
#[export] Instance unrelated_pool : Unrelated pool.
Proof. by split. Qed.
#[export] Instance unrelated_attempt : Unrelated attempt.
Proof. by split. Qed.
#[export] Instance unrelated_network : Unrelated service_network.
Proof. by split. Qed.
#[export] Instance unrelated_artifact : Unrelated artifact.
Proof. by split. Qed.
#[export] Instance unrelated_alias : Unrelated alias.
Proof. by split. Qed.

(** Two stores that agree on the four related kinds. *)
Definition agree (s s' : store) : Prop :=
  st_allocations s' = st_allocations s ∧ st_leases s' = st_leases s ∧ st_tasks s' = st_tasks s ∧ st_jobs s' = st_jobs s.

Lemma good_agree s s' : agree s s' → good s s'.
Proof.
  intros (Ea & El & Et & Ej) Hw.
  assert (Va : ∀ i, value_at (A := allocation) s' i = value_at s i) by (intros; unfold value_at; simpl; by rewrite Ea).
  assert (Vl : ∀ i, value_at (A := pool_lease) s' i = value_at s i) by (intros; unfold value_at; simpl; by rewrite El).
  assert (Vt : ∀ i, value_at (A := task) s' i = value_at s i) by (intros; unfold value_at; simpl; by rewrite Et).
  assert (Vj : ∀ i, value_at (A := job) s' i = value_at s i) by (intros; unfold value_at; simpl; by rewrite Ej).
  split.
  - destruct Hw as [W1 W2 W3 W4 WA W5 W6 W7]. split; intros i r; rewrite ?Va, ?Vl, ?Vt, ?Vj; [auto..| | | | |].
    + intros E. destruct (W4 i r E) as (? & ? & j & Hj). split; [done|]. split; [done|]. by exists j.
    + by apply WA.
    + by apply W5.
    + by apply W6.
    + intros E Hh. destruct (W7 i r E Hh) as (b & a & ? & Hb & ?). exists b, a. by rewrite Va.
  - split; intros i r E; exists r; rewrite ?Va, ?Vl, ?Vt, ?Vj; (split; [done|reflexivity]).
Qed.

Lemma good_unrelated `{Unrelated A} (a : A) t ev s : good s (stored a t ev s).
Proof. apply good_agree. split_and!; [apply un_allocation|apply un_lease|apply un_task|apply un_job]. Qed.

Lemma good_allocation (a' : allocation) t ev s :
  (∀ a, value_at s (al_id a') = Some a → alloc_le a a') →
  (al_state a' = "pending"%string → text (al_worker a') = None) → good s (stored a' t ev s).
Proof.
  intros Hle Hp Hw.
  assert (Vl : ∀ i, value_at (A := pool_lease) (stored a' t ev s) i = value_at s i) by done.
  assert (Vt : ∀ i, value_at (A := task) (stored a' t ev s) i = value_at s i) by done.
  assert (Vj : ∀ i, value_at (A := job) (stored a' t ev s) i = value_at s i) by done.
  split.
  - destruct Hw as [W1 W2 W3 W4 WA W5 W6 W7]. split; intros i r; rewrite ?value_at_stored, ?Vl, ?Vt, ?Vj; [ |auto..| | | |].
    + destruct (decide (ident a' = i)) as [<-|]; [by intros [= <-]|apply W1].
    + by apply WA.
    + destruct (decide (ident a' = i)) as [<-|]; [by intros [= <-]|apply W5].
    + by apply W6.
    + intros E Hh. destruct (W7 i r E Hh) as (b & a & Hb & Ha & Hl). exists b. rewrite value_at_stored.
      destruct (decide (ident a' = b)) as [<-|]; [|by exists a].
      exists a'. split; [done|]. split; [done|]. by apply (Hle a Ha).
  - split; [by apply moves_stored; [apply _|]|by apply moves_same; [apply _|]..].
Qed.

Lemma good_lease (l' : pool_lease) t ev s :
  (wf s → le_id l' ≠ ""%string) →
  (∀ l, value_at s (le_id l') = Some l → lease_le l l') →
  (le_state l' = "pending"%string → le_sandbox l' = None) →
  (wf s → held l' = true → ∃ b (a : allocation), le_sandbox l' = Some b ∧ value_at s b = Some a ∧ text (al_lease a) = Some (le_id l')) →
  good s (stored l' t ev s).
Proof.
  intros Hne Hle Hp Hh Hw.
  assert (Va : ∀ i, value_at (A := allocation) (stored l' t ev s) i = value_at s i) by done.
  assert (Vt : ∀ i, value_at (A := task) (stored l' t ev s) i = value_at s i) by done.
  assert (Vj : ∀ i, value_at (A := job) (stored l' t ev s) i = value_at s i) by done.
  split.
  - specialize (Hne Hw). specialize (Hh Hw). destruct Hw as [W1 W2 W3 W4 WA W5 W6 W7].
    split; intros i r; rewrite ?value_at_stored, ?Va, ?Vt, ?Vj; [auto| |auto..| | | |].
    + destruct (decide (ident l' = i)) as [<-|]; [by intros [= <-]|apply W2].
    + by apply WA.
    + by apply W5.
    + destruct (decide (ident l' = i)) as [<-|]; [by intros [= <-]|apply W6].
    + destruct (decide (ident l' = i)) as [<-|]; [by intros [= <-]|apply W7].
  - split; [by apply moves_same; [apply _|]|by apply moves_stored; [apply _|]|by apply moves_same; [apply _|]..].
Qed.

Lemma good_job (j' : job) t ev s :
  (∀ j, value_at s (jo_id j') = Some j → job_le j j') → good s (stored j' t ev s).
Proof.
  intros Hle Hw.
  assert (Va : ∀ i, value_at (A := allocation) (stored j' t ev s) i = value_at s i) by done.
  assert (Vl : ∀ i, value_at (A := pool_lease) (stored j' t ev s) i = value_at s i) by done.
  assert (Vt : ∀ i, value_at (A := task) (stored j' t ev s) i = value_at s i) by done.
  split.
  - destruct Hw as [W1 W2 W3 W4 WA W5 W6 W7]. split; intros i r; rewrite ?value_at_stored, ?Va, ?Vl, ?Vt; [auto|auto| | | | | |].
    + destruct (decide (ident j' = i)) as [<-|]; [by intros [= <-]|apply W3].
    + intros E. destruct (W4 i r E) as (? & ? & j & Hj). split; [done|]. split; [done|].
      destruct (decide (ident j' = ta_parent r)); eauto.
    + intros j Hr. rewrite ?value_at_stored. destruct (decide (ident j' = ta_parent r)) as [E|]; [|by apply (WA i)].
      intros [= <-]. destruct (W4 i r Hr) as (_ & _ & j & Hj). pose proof (WA i r j Hr Hj) as Hb.
      destruct (Hle j) as (_ & _ & Eq & _); [simpl in E; by rewrite E|]. unfold bounded. by rewrite Eq.
    + by apply W5.
    + by apply W6.
    + apply W7.
  - split; [by apply moves_same; [apply _|]..|by apply moves_stored; [apply _|]].
Qed.

Lemma good_task (t' : task) t ev s :
  (∀ r, value_at s (ta_id t') = Some r → task_le r t') →
  (wf s → (∃ k : nat, ta_id t' = task_name (ta_parent t') k) ∧ ∃ j : job, value_at s (ta_parent t') = Some j ∧ bounded j t') →
  good s (stored t' t ev s).
Proof.
  intros Hle Hn Hw.
  assert (Va : ∀ i, value_at (A := allocation) (stored t' t ev s) i = value_at s i) by done.
  assert (Vl : ∀ i, value_at (A := pool_lease) (stored t' t ev s) i = value_at s i) by done.
  assert (Vj : ∀ i, value_at (A := job) (stored t' t ev s) i = value_at s i) by done.
  split.
  - specialize (Hn Hw). destruct Hw as [W1 W2 W3 W4 WA W5 W6 W7].
    split; intros i r; rewrite ?value_at_stored, ?Va, ?Vl, ?Vj; [auto..| | | | |].
    + destruct (decide (ident t' = i)) as [<-|]; [|apply W4]. intros [= <-]. split; [done|].
      destruct Hn as (? & j & Hj & _). split; [done|by exists j].
    + intros j. rewrite ?Vj. destruct (decide (ident t' = i)) as [<-|]; [|by apply WA].
      intros [= <-] Hj. destruct Hn as (_ & j' & Hj' & Hb). rewrite Hj' in Hj. by injection Hj as <-.
    + by apply W5.
    + by apply W6.
    + apply W7.
  - split; [by apply moves_same; [apply _|]..|by apply moves_stored; [apply _|]|by apply moves_same; [apply _|]].
Qed.

(** * Transactions *)

(** A transaction meets its obligation in every environment and store. *)
Definition keeps {A} (t : txn A) : Prop := ∀ e s, wp t (λ _ s', good s s') e s.

(** The invariant may be assumed of the store a transaction starts from. *)
Lemma wp_assume_wf {A} (t : txn A) e s : (wf s → wp t (λ _ s', good s s') e s) → wp t (λ _ s', good s s') e s.
Proof. unfold wp. destruct (t e s) as [[a s']|]; [|done]. intros Hg Hw. by apply (Hg Hw). Qed.

Lemma wp_good_trans {A} (t : txn A) (Q : A → store → Prop) e s0 s :
  good s0 s → wp t (λ a s', good s s' ∧ Q a s') e s → wp t (λ a s', good s0 s' ∧ Q a s') e s.
Proof. intros Hg Ht. eapply wp_mono; [exact Ht|]. intros a s' [? ?]. split; [|done]. by transitivity s. Qed.

Lemma keeps_from {A} (t : txn A) e s0 s : good s0 s → keeps t → wp t (λ _ s', good s0 s') e s.
Proof. intros Hg Ht. eapply wp_mono; [apply Ht|]. intros a s' H'. simpl in H'. by transitivity s. Qed.

Lemma keeps_ret {A} (a : A) : keeps (mret a).
Proof. intros e s. by apply wp_ret. Qed.
Lemma keeps_bind {A B} (t : txn A) (f : A → txn B) : keeps t → (∀ a, keeps (f a)) → keeps (t ≫= f).
Proof.
  intros Ht Hf e s. apply wp_bind. eapply wp_mono; [apply Ht|]. intros a s' Hg. simpl in Hg. by apply keeps_from.
Qed.
(** Reading changes nothing. *)
Lemma keeps_reader {A} (t : txn A) : (∀ e s, wp t (λ _ s', s' = s) e s) → keeps t.
Proof. intros Ht e s. eapply wp_mono; [apply Ht|]. intros a s' ->. reflexivity. Qed.
Lemma keeps_lift {A} (r : res A) : keeps (lift r).
Proof. apply keeps_reader. intros e s. by apply wp_lift. Qed.
Lemma keeps_throw {A} k msg : keeps (throw (A := A) k msg).
Proof. intros e s. apply wp_throw. Qed.
Lemma keeps_throw_if b k msg : keeps (throw_if b k msg).
Proof. apply keeps_lift. Qed.
Lemma keeps_time : keeps the_time.
Proof. apply keeps_reader. by intros e s. Qed.
Lemma keeps_reason o : keeps (the_reason o).
Proof. apply keeps_reader. intros e s. by apply wp_reason. Qed.
Lemma keeps_owner_process o : keeps (_owner_process o).
Proof. apply keeps_reader. intros e s. by apply wp_owner_process. Qed.
Lemma keeps_durable : keeps require_durable.
Proof. apply keeps_ret. Qed.
Lemma keeps_when b t : keeps t → keeps (when b t).
Proof. intros Ht. unfold when. destruct b; [done|apply keeps_ret]. Qed.
Lemma keeps_for_each {A} (l : list A) f : (∀ x, keeps (f x)) → keeps (for_each l f).
Proof. intros Hf. induction l as [|x l IH]; simpl; [apply keeps_ret|by apply keeps_bind]. Qed.

Section keeps.
  Context {A : Type} `{Table A}.
Lemma keeps_find i : keeps (find (A := A) i).
  Proof. apply keeps_reader. intros e s. by apply wp_find. Qed.
Lemma keeps_get i : keeps (get (A := A) i).
  Proof. apply keeps_reader. intros e s. by apply wp_get. Qed.
Lemma keeps_list keep : keeps (list_where (A := A) keep).
  Proof. apply keeps_reader. intros e s. by apply wp_list_where. Qed.
Lemma keeps_stored keep : keeps (list_stored (A := A) keep).
  Proof. apply keeps_reader. intros e s. by apply wp_list_stored. Qed.
End keeps.
Lemma keeps_put `{Unrelated A} (a : A) ev : keeps (put a ev).
Proof. intros e s. apply wp_store. intros l. apply good_unrelated. Qed.
Lemma keeps_save `{Unrelated A} (a : A) ev : keeps (save a ev).
Proof. intros e s. apply wp_save. intros l. apply good_unrelated. Qed.

Create HintDb keeps discriminated.
#[export] Hint Constants Opaque : keeps.
#[export] Hint Variables Opaque : keeps.
#[export] Hint Resolve keeps_ret keeps_lift keeps_throw keeps_throw_if keeps_time keeps_reason keeps_owner_process
  keeps_durable keeps_find keeps_get keeps_list keeps_stored keeps_put keeps_save : keeps.

(** Splits a transaction into its reads and the puts that are known to be good. *)
Ltac keeps :=
  repeat lazymatch goal with
  | |- ∀ _, _ => intros ?
  | |- keeps (mbind _ _) => apply keeps_bind
  | |- keeps (mret _) => apply keeps_ret
  | |- keeps (when _ _) => apply keeps_when
  | |- keeps (for_each _ _) => apply keeps_for_each
  | |- keeps (if ?b then _ else _) => destruct b eqn:?
  | |- keeps (match ?x with _ => _ end) => destruct x eqn:?
  | |- keeps (save _ _) => first [apply keeps_save | solve [eauto with keeps]]
  | |- keeps (put _ _) => first [apply keeps_put | solve [eauto with keeps]]
  | |- _ => solve [eauto with keeps]
  end.

(** * Loops over records that were read before the loop *)

Section rows.
  Context {A : Type} `{Table A}.

Definition keyed (s : store) : Prop := ∀ i (a : A), value_at s i = Some a → ident a = i.

Lemma wp_list_rows keep (Q : list A → store → Prop) e s :
    keyed s →
    (∀ l, NoDup (map ident l) → (∀ a, a ∈ l → keep a = true ∧ value_at s (ident a) = Some a) → Q l s) →
    wp (list_where keep) Q e s.
  Proof.
    intros Hk HQ. unfold wp, list_where. apply HQ.
    - assert (Hperm : map ident (map row_value (list_rows keep s))
                      ≡ₚ map ident (map row_value (filter (λ r, Is_true (keep (row_value r))) (map snd (map_to_list (rows s)))))).
      { unfold list_rows. by rewrite sort_by_perm. }
      rewrite Hperm, map_map. clear Hperm HQ.
      assert (Hnd : NoDup (map (λ p : string * row A, ident (row_value p.2)) (map_to_list (rows s)))).
      { rewrite (map_ext_in _ fst); [apply NoDup_fst_map_to_list|].
        intros [i r] Hin%list_elem_of_In%elem_of_map_to_list. simpl. apply Hk. unfold value_at. by rewrite Hin. }
      rewrite <- (map_map snd (λ r : row A, ident (row_value r))) in Hnd.
      induction (map snd (map_to_list (rows s))) as [|r l IH]; [apply NoDup_nil_2|].
      simpl in Hnd. apply NoDup_cons in Hnd as [Hr Hnd]. rewrite filter_cons.
      destruct (decide _); [|by apply IH]. simpl. constructor; [|by apply IH].
      intros Hin. apply Hr. apply list_elem_of_fmap in Hin as (r' & -> & [_ Hr']%list_elem_of_filter).
      apply list_elem_of_fmap. by exists r'.
    - intros a (r & -> & [Hkeep [i Hi]]%elem_of_list_rows)%list_elem_of_fmap. split; [done|].
      assert (Hv : value_at s i = Some (row_value r)) by (unfold value_at; by rewrite Hi).
      by rewrite (Hk i _ Hv).
  Qed.

Lemma for_rows_good (l : list A) f e s0 s :
    wf s0 → good s0 s → NoDup (map ident l) → (∀ a, a ∈ l → value_at s (ident a) = Some a) →
    (∀ a s, a ∈ l → wf s → value_at s (ident a) = Some a →
       wp (f a) (λ _ s', good s s' ∧ ∀ i, i ≠ ident a → value_at (A := A) s' i = value_at s i) e s) →
    wp (for_each l f) (λ _ s', good s0 s') e s.
  Proof.
    intros Hw0. revert s. induction l as [|a l IH]; intros s Hg Hnd Hv Hf; [done|]. simpl in *.
    apply NoDup_cons in Hnd as [Ha Hnd]. apply wp_bind.
    eapply wp_mono; [apply Hf; [by left|by apply Hg|apply Hv; by left]|]. intros [] s' [Hg' Hs']. simpl.
    apply IH; [by transitivity s|done| |].
    - intros b Hb. rewrite Hs'; [apply Hv; by right|]. intros E. apply Ha. rewrite <- E. apply list_elem_of_fmap. by exists b.
    - intros b s'' Hb. apply Hf. by right.
  Qed.
End rows.

Lemma keyed_allocation s : wf s → keyed (A := allocation) s.
Proof. intros Hw i a E. by apply (wf_allocation s Hw). Qed.
Lemma keyed_lease s : wf s → keyed (A := pool_lease) s.
Proof. intros Hw i a E. by apply (wf_lease s Hw). Qed.
Lemma keyed_job s : wf s → keyed (A := job) s.
Proof. intros Hw i a E. by apply (wf_job s Hw). Qed.
Lemma keyed_task s : wf s → keyed (A := task) s.
Proof. intros Hw i a E. by apply (wf_task s Hw). Qed.

(** * Names of tasks *)

Fixpoint dashless (s : string) : bool :=
  match s with
  | EmptyString => true
  | String c s => negb (bool_decide (c = "-"%char)) && dashless s
  end.

Lemma dashless_app s d : dashless (s ++ String "-" d)%string = false.
Proof. induction s as [|c s IH]; simpl; [done|]. rewrite IH. apply andb_false_r. Qed.

Lemma dash_split s1 s2 d1 d2 :
  (s1 ++ String "-" d1)%string = (s2 ++ String "-" d2)%string → dashless d1 = true → dashless d2 = true → s1 = s2 ∧ d1 = d2.
Proof.
  revert s2. induction s1 as [|c s1 IH]; intros [|c' s2]; simpl; intros E H1 H2; injection E; clear E.
  - by intros ->.
  - intros -> _. by rewrite dashless_app in H1.
  - intros <- _. by rewrite dashless_app in H2.
  - intros E ->. destruct (IH _ E H1 H2) as [-> ->]. done.
Qed.

Lemma dashless_go n s : dashless s = true → dashless (pretty_N_go n s) = true.
Proof.
  revert s. induction (N.lt_wf_0 n) as [n _ IH]; intros s Hs. destruct (decide (n = 0%N)) as [->|Hn].
  { by rewrite pretty_N_go_0. }
  rewrite pretty_N_go_step by lia. apply IH; [apply N.div_lt; lia|]. cbn [dashless]. rewrite Hs, andb_true_r.
  unfold pretty_N_char. by repeat case_match.
Qed.

Lemma dashless_pretty (k : nat) : dashless (pretty k) = true.
Proof. unfold pretty, pretty_nat, pretty, pretty_N. case_decide; [done|by apply dashless_go]. Qed.

Lemma task_name_inj i j k l : task_name i k = task_name j l → i = j ∧ k = l.
Proof.
  unfold task_name. intros E. destruct (dash_split i j (pretty k) (pretty l)) as [Ei Ek].
  - done.
  - apply dashless_pretty.
  - apply dashless_pretty.
  - split; [done|]. by apply (inj pretty).
Qed.
