(* ===== verification/Controller.v ===== *)
(** The controller as a whole: its operations, lifecycles and control loop as the
    programs that may run, and what every interleaving of them preserves. *)

From Stdlib Require Import QArith.
From stdpp Require Import pretty.
From S2P Require Import Prelude OrderedDict Values Proxy Resources GpuMatching Scheduler Ownership Cluster.
From S2P Require Import Connections Lifecycle Artifacts ServiceNetworks Preparation Workers Allocations Pools.
From S2P Require Import Jobs Reconcile Evolution.
Local Open Scope Z_scope.

(** * Allocations *)

(** Proves that an allocation moved along the order. *)
Ltac alloc_le :=
  split; simpl; try done; try lia; try congruence;
  try (intros; by left); try (intros [?|?]; first [done | lia | congruence]).

(** Splits the reads of a transaction up to its next put. *)
Ltac reads :=
  repeat lazymatch goal with
  | |- wp (mbind _ _) _ _ _ => apply wp_bind
  | |- wp (mret _) _ _ _ => apply wp_ret
  | |- wp (get _) _ _ _ => apply wp_get; intros ? ?
  | |- wp (find _) _ _ _ => apply wp_find
  | |- wp the_time _ _ _ => apply wp_time
  | |- wp (the_reason _) _ _ _ => apply wp_reason; intros ? ?
  | |- wp (throw _ _) _ _ _ => apply wp_throw
  | |- wp (throw_if _ _ _) _ _ _ => apply wp_throw_if; intros ?
  | |- wp (lift _) _ _ _ => apply wp_lift; intros ? ?
  | |- wp (_owner_process _) _ _ _ => apply wp_owner_process; intros ?
  | |- wp (when _ _) _ _ _ => apply wp_when; intros ?
  | |- wp (if ?b then _ else _) _ _ _ => destruct b eqn:?
  | |- wp (match ?x with _ => _ end) _ _ _ => destruct x eqn:?
  end; simpl.

Lemma wp_resolve i (Q : allocation → store → Prop) e s :
  wf s → (∀ a, value_at s (al_id a) = Some a → Q a s) → wp (_resolve i) Q e s.
Proof.
  intros Hw HQ. unfold _resolve. apply wp_bind, wp_find.
  destruct (value_at s i) as [a|] eqn:E.
  - apply HQ. by rewrite (wf_allocation s Hw _ _ E).
  - apply wp_bind, wp_list_where. intros l Hl. destruct l as [|a [|b l]]; [done| |done].
    apply wp_get. intros b Hb. apply HQ. by rewrite (wf_allocation s Hw _ _ Hb).
Qed.

Lemma wp_get_allocation i (Q : allocation → store → Prop) e s :
  wf s → (∀ a, value_at s (al_id a) = Some a → al_id a = i → Q a s) → wp (get i) Q e s.
Proof.
  intros Hw HQ. apply wp_get. intros a Ha. pose proof (wf_allocation s Hw _ _ Ha) as E.
  apply HQ; [by rewrite E|done].
Qed.

(** An update of a stored allocation that leaves its state of placement alone. *)
Lemma good_update s (a a' : allocation) t ev :
  wf s → value_at s (al_id a) = Some a → alloc_le a a' →
  (al_state a' = "pending"%string → al_state a = "pending"%string ∧ al_worker a' = al_worker a) →
  good s (stored a' t ev s).
Proof.
  intros Hw Ha Hle Hp. apply good_allocation.
  - rewrite (al_same_id _ _ Hle), Ha. by intros b [= <-].
  - intros E. destruct (Hp E) as [E' ->]. by apply (wf_pending s Hw _ _ Ha).
Qed.

(** Proves one update of an allocation that was just read. *)
Ltac update_allocation :=
  apply wp_save; intros ?; eapply good_update; [eassumption|eassumption|alloc_le|simpl; try done].

(** Only allocations changed. *)
Definition only_allocations (s s' : store) : Prop :=
  st_leases s' = st_leases s ∧ st_tasks s' = st_tasks s ∧ st_jobs s' = st_jobs s.

Lemma cancel_good i e s : wf s → wp (allocation_cancel i) (λ _ s', good s s' ∧ only_allocations s s') e s.
Proof.
  intros Hw. unfold allocation_cancel. apply wp_bind, wp_resolve; [done|]. intros a Ha.
  destruct (bool_decide _) eqn:Ed; bool_prop; [by split; [reflexivity|]|].
  apply wp_store. intros ev. split; [|done].
  eapply good_update; [done|exact Ha|..]; simpl; destruct (given (al_worker a)); simpl; [alloc_le|alloc_le|done..].
Qed.

Lemma keeps_cancel i : keeps (allocation_cancel i).
Proof.
  intros e s. apply wp_assume_wf. intros Hw. eapply wp_mono; [by apply cancel_good|]. by intros a s' [? _].
Qed.

Lemma keeps_delete i : keeps (allocation_delete i).
Proof.
  intros e s. apply wp_assume_wf. intros Hw. unfold allocation_delete. apply wp_bind, wp_resolve; [done|]. intros a Ha.
  destruct (al_delete_requested a) eqn:Ed; [by apply wp_ret|].
  apply wp_store. intros ev. eapply good_update; [done|exact Ha|..]; simpl; destruct (given (al_worker a)); simpl;
    [alloc_le; by right|alloc_le|done..].
Qed.

Lemma keeps_acknowledge i : keeps (acknowledge i).
Proof.
  intros e s. apply wp_assume_wf. intros Hw. unfold acknowledge. apply wp_bind, wp_resolve; [done|]. intros a Ha.
  apply wp_bind, wp_throw_if. intros _. update_allocation.
Qed.

#[export] Hint Resolve keeps_cancel keeps_delete keeps_acknowledge : keeps.

Lemma keeps_owner_routes i l : keeps (owner_routes i l).
Proof.
  unfold owner_routes. apply keeps_bind; [auto with keeps|]. intros _. apply keeps_for_each. intros x e s.
  apply wp_assume_wf. intros Hw. apply wp_bind, wp_get_allocation; [done|]. intros a Ha _.
  reads; [update_allocation|by apply wp_ret].
Qed.

Lemma keeps_uncertain i x g : keeps (_uncertain i x g).
Proof.
  intros e s. apply wp_assume_wf. intros Hw. unfold _uncertain. apply wp_bind, wp_get_allocation; [done|]. intros a Ha _.
  destruct (_ || _); [by apply wp_ret|]. update_allocation.
Qed.

(** Splits the tests an update depends on. *)
Ltac branches :=
  repeat (simpl; match goal with |- context [if ?b then _ else _] => destruct b eqn:? end); simpl.

(** Splits the test a transaction starts with. *)
Ltac branch :=
  cbv zeta; match goal with
  | |- wp (if ?b then _ else _) _ _ _ => destruct b eqn:?
  | |- keeps (if ?b then _ else _) => destruct b eqn:?
  end.

Lemma reported_state i s : reported i → s ∈ CONTROLLER_STATES → in_state i ≠ s.
Proof. intros Hr Hs E. apply Hr. by rewrite E. Qed.

Section allocations.
  Context `{Digests} (cluster : string).

Lemma keeps_mark_retention i : keeps (mark_retention i).
Proof.
  intros e s. apply wp_assume_wf. intros Hw. apply wp_bind, wp_get_allocation; [done|]. intros a Ha _. update_allocation.
Qed.

Lemma keeps_start_launch i route : keeps (start_launch i route).
Proof.
  intros e s. apply wp_assume_wf. intros Hw. apply wp_bind, wp_get_allocation; [done|]. intros a Ha _.
  destruct (_ || _) eqn:Ed; [by apply wp_ret|]. bool_prop. apply wp_bind, wp_store. intros ev. apply wp_ret.
  eapply good_update; [done|exact Ha|alloc_le|done].
Qed.

Lemma keeps_commit_launch i g r : reported (ap_sandbox r) → keeps (commit_launch i g r).
Proof.
  intros Hr e s. apply wp_assume_wf. intros Hw. apply wp_bind, wp_get_allocation; [done|]. intros a Ha _.
  destruct (_ || _) eqn:Ed; [by apply wp_ret|]. bool_prop. apply wp_save. intros ev.
  pose proof (reported_state _ "pending" Hr ltac:(set_solver)) as Hp.
  eapply good_update; [done|exact Ha|..]; branches; try alloc_le; done.
Qed.

Lemma keeps_launch_failed i g x : keeps (launch_failed i g x).
Proof.
  intros e s. apply wp_assume_wf. intros Hw. apply wp_bind, wp_get_allocation; [done|]. intros a Ha _.
  destruct (_ || _) eqn:Ed; [by apply wp_ret|]. bool_prop. update_allocation.
Qed.

Lemma keeps_commit_observation i g f : reported f → keeps (commit_observation i g f).
Proof.
  intros Hr e s. apply wp_assume_wf. intros Hw. apply wp_bind, wp_get_allocation; [done|]. intros a Ha _.
  pose proof (reported_state _ "pending" Hr ltac:(set_solver)) as Hp.
  destruct (_ || _) eqn:Ed; [by apply wp_ret|]. bool_prop. apply wp_bind, wp_lift. intros status _.
  branch; [apply keeps_bind; [apply keeps_cancel|intros; apply keeps_ret]|].
  branch; [by apply wp_ret|]. apply wp_save. intros ev.
  eapply good_update; [done|exact Ha|..]; branches; try alloc_le; done.
Qed.

Lemma keeps_deletion_begun i g r route : keeps (deletion_begun i g r route).
Proof.
  intros e s. apply wp_assume_wf. intros Hw. apply wp_bind, wp_get_allocation; [done|]. intros a Ha _.
  destruct (negb _); [by apply wp_ret|]. apply wp_bind, wp_when; intros _.
  - update_allocation.
  - by apply wp_ret.
Qed.

Lemma keeps_commit_termination i g d r route : keeps (commit_termination i g d r route).
Proof.
  intros e s. apply wp_assume_wf. intros Hw. apply wp_bind, wp_get_allocation; [done|]. intros a Ha _.
  destruct (_ || _) eqn:Ed; [by apply wp_ret|]. apply wp_save. intros ev.
  eapply good_update; [done|exact Ha|..]; branches; try alloc_le; done.
Qed.

(** A creation finds the identity free, or changes nothing. *)
Lemma keeps_placement p : keeps (placement p).
Proof. unfold placement. keeps. Qed.

Lemma keeps_create_allocation i r : keeps (create_allocation i r).
Proof.
  intros e s. unfold create_allocation. apply wp_bind, wp_find. destruct (value_at s i) as [a|] eqn:E.
  { apply wp_bind, wp_throw_if. intros _. by apply wp_ret. }
  apply wp_bind. eapply (wp_mono _ (λ _ s', s' = s)).
  { destruct (text _); [by apply wp_find|by apply wp_ret]. }
  intros image s' ->. apply wp_bind, wp_throw_if. intros _. apply wp_bind, wp_list_where. intros holders _.
  apply wp_bind, wp_throw_if. intros _. apply wp_bind. eapply (wp_mono _ (λ _ s', s' = s)).
  { unfold placement. reads; done. }
  intros only s' ->. apply wp_bind, wp_time, wp_store. intros ev. apply good_allocation; simpl; [|done].
  intros a Ha. by rewrite E in Ha.
Qed.

Lemma keeps_create i r : keeps (create i r).
Proof.
  pose proof keeps_create_allocation. unfold create. keeps.
Qed.
End allocations.

#[export] Hint Resolve keeps_owner_routes keeps_uncertain keeps_mark_retention keeps_start_launch keeps_commit_launch
  keeps_launch_failed keeps_commit_observation keeps_deletion_begun keeps_commit_termination keeps_placement
  keeps_create_allocation keeps_create : keeps.

(** Splits membership in a literal list. *)
Ltac in_cases H :=
  repeat (apply elem_of_cons in H as [H|H]); try (by apply not_elem_of_nil in H).

(** * Leases *)

Lemma wp_get_lease i (Q : pool_lease → store → Prop) e s :
  wf s → (∀ l, value_at s (le_id l) = Some l → le_id l = i → Q l s) → wp (get i) Q e s.
Proof.
  intros Hw HQ. apply wp_get. intros l Hl. destruct (wf_lease s Hw _ _ Hl) as [E _]. apply HQ; [by rewrite E|done].
Qed.

Lemma good_lease_update s (l l' : pool_lease) t ev :
  wf s → value_at s (le_id l) = Some l → lease_le l l' →
  (le_state l' = "pending"%string → le_sandbox l' = None) →
  (held l' = true → ∃ b (a : allocation), le_sandbox l' = Some b ∧ value_at s b = Some a ∧ text (al_lease a) = Some (le_id l')) →
  good s (stored l' t ev s).
Proof.
  intros Hw Hl Hle Hp Hh. destruct Hle as [E Hle]. apply good_lease; [..|done|by intros _].
  - intros _. rewrite E. by apply (wf_lease s Hw _ _ Hl).
  - rewrite E, Hl. by intros r [= <-].
Qed.

(** A lease that ends needs nothing of its sandbox. *)
Lemma good_lease_end s (l l' : pool_lease) t ev :
  wf s → value_at s (le_id l) = Some l → lease_le l l' → lease_done l' = true → good s (stored l' t ev s).
Proof.
  intros Hw Hl Hle Hd. unfold lease_done in Hd. eapply good_lease_update; [done|done|done|..].
  - intros E. by rewrite E in Hd.
  - unfold held. intros Hh%bool_decide_eq_true. in_cases Hh; by rewrite Hh in Hd.
Qed.

(** * Workers, networks and snapshots *)

Lemma keeps_register_commit s i e k x : keeps (register_commit s i e k x).
Proof. unfold register_commit. keeps. Qed.
Lemma keeps_new_network i : keeps (new_network i).
Proof. unfold new_network, list_all. keeps. Qed.
#[export] Hint Resolve keeps_register_commit keeps_new_network : keeps.
Lemma keeps_reserve_network o i : keeps (reserve_network o i).
Proof. unfold reserve_network. keeps. Qed.
Lemma keeps_network_failed o i x : keeps (network_failed o i x).
Proof. unfold network_failed. keeps. Qed.
Lemma keeps_network_settled i x : keeps (network_settled i x).
Proof. unfold network_settled. keeps. Qed.

Lemma keeps_reroute i v route : keeps (reroute i v route).
Proof.
  intros e s. apply wp_assume_wf. intros Hw. unfold reroute.
  apply wp_bind, wp_list_rows; [by apply keyed_allocation|]. intros l Hnd Hl. apply wp_bind.
  eapply wp_mono; [apply (for_rows_good l _ e s s); [done|reflexivity|done|intros a Ha; by apply Hl|]|].
  - intros a s' Ha Hw' Hv. destruct (al_endpoint a) as [x|]; [|by split].
    apply wp_when; intros _; [|by split].
    apply wp_save. intros ev. split; [|intros k Hk; rewrite value_at_stored; by rewrite decide_False].
    by eapply good_update; [done|exact Hv|alloc_le|].
  - intros [] s' Hg. simpl in Hg. eapply keeps_from; [exact Hg|]. unfold list_all. keeps.
Qed.

Lemma keeps_accept_worker c i tok v p promote : keeps (_accept_worker c i tok v p promote).
Proof. pose proof keeps_reroute. unfold _accept_worker. keeps. Qed.
#[export] Hint Resolve keeps_reserve_network keeps_network_failed keeps_network_settled keeps_reroute keeps_accept_worker : keeps.

Section workers.
  Context `{Digests} (cluster : string).
Lemma keeps_new_worker t o i r x y : keeps (new_worker cluster t o i r x y).
  Proof. unfold new_worker, list_all. keeps. Qed.
Lemma keeps_rejoin_worker w t tok o i p x y : keeps (rejoin_worker cluster w t tok o i p x y).
  Proof. unfold rejoin_worker. keeps. Qed.
Lemma keeps_drop_locations w : keeps (drop_locations w).
  Proof. unfold drop_locations, list_all. keeps. Qed.

Lemma lose_good (a : allocation) e s :
    wf s → value_at s (ident a) = Some a →
    wp (lose_allocation a) (λ _ s', good s s' ∧ ∀ i, i ≠ ident a → value_at (A := allocation) s' i = value_at s i) e s.
  Proof.
    intros Hw Ha. unfold lose_allocation. apply wp_when; intros _; [|by split; [reflexivity|]].
    apply wp_bind, wp_save. intros ev. set (a' := _ <| al_error := _ |>). set (s1 := stored _ _ _ _).
    assert (Hg : good s s1) by (eapply good_update; [done|exact Ha|alloc_le; by left|done]).
    assert (Hf : ∀ i, i ≠ ident a → value_at (A := allocation) s1 i = value_at s i).
    { intros i Hi. unfold s1. rewrite value_at_stored. by rewrite decide_False. }
    destruct (text (al_lease a)) as [l|]; [|by split].
    apply wp_bind, wp_get_lease; [by apply Hg|]. intros r Hr _. apply wp_when; intros Hst; [|by split].
    apply wp_save. intros ev'. split; [|done]. transitivity s1; [done|]. intros Hw1. bool_prop.
    eapply good_lease_end; [exact Hw1|exact Hr|by split_and!|done|exact Hw1].
  Qed.

Lemma keeps_update_worker i ch : keeps (update_worker i ch).
  Proof.
    pose proof keeps_drop_locations as Hdrop.
    intros e s. apply wp_assume_wf. intros Hw. unfold update_worker. apply wp_bind, wp_get. intros w _.
    apply wp_bind, wp_list_rows; [by apply keyed_allocation|]. intros l Hnd Hl.
    apply wp_bind, wp_throw_if. intros _. apply wp_bind, wp_lift. intros slots _. apply wp_bind, wp_when; intros _.
    - apply wp_bind. unfold drop_locations, list_all. apply wp_bind, wp_list_where. intros artifacts _.
      eapply wp_mono.
      { apply (wp_for_each _ _ (λ s', good s s' ∧ st_allocations s' = st_allocations s)); [by split|].
        intros x s' _ [Hg E]. apply wp_when; intros _; [|by split]. apply wp_save. intros ev.
        split; [transitivity s'; [done|apply good_unrelated]|]. done. }
      intros [] s' [Hg E]. eapply wp_mono.
      { apply (for_rows_good l _ e s s'); [done|done|done| |].
        - intros a Ha. unfold value_at. simpl. rewrite E. by apply Hl.
        - intros a s'' _ Hw'' Hv. by apply lose_good. }
      intros [] s'' Hg''. simpl in Hg''. eapply keeps_from; [exact Hg''|]. apply keeps_put.
    - apply keeps_put.
  Qed.
End workers.

Section probing.
  Context `{Digests} (cluster : string).
Lemma keeps_note_seen i : keeps (note_seen i).
  Proof. unfold note_seen. keeps. Qed.
Lemma keeps_record_instance i w v : keeps (record_instance cluster i w v).
  Proof. unfold record_instance. keeps. Qed.
Lemma keeps_mark_ready i : keeps (mark_ready i).
  Proof. unfold mark_ready. keeps. Qed.
Lemma keeps_mark_unreachable i f x : keeps (mark_unreachable i f x).
  Proof. unfold mark_unreachable. keeps. Qed.
End probing.
#[export] Hint Resolve keeps_new_worker keeps_rejoin_worker keeps_drop_locations keeps_update_worker keeps_note_seen
  keeps_record_instance keeps_mark_ready keeps_mark_unreachable : keeps.

(** * Lifecycles of allocations *)

(** Programs whose every transaction meets its obligation. *)
Abbreviation safely := (safe good).

Create HintDb safely discriminated.
#[export] Hint Constants Opaque : safely.
#[export] Hint Variables Opaque : safely.

Lemma safely_atomic {A} (t : txn A) : keeps t → safely (atomic t).
Proof. done. Qed.
Lemma safely_finished {A} (r : res A) : safely (Finished r).
Proof. done. Qed.
Lemma safely_fail {A} x : safely (fail (A := A) x).
Proof. done. Qed.
Lemma safely_fails {A} k msg : safely (fails (A := A) k msg).
Proof. done. Qed.
Lemma safely_fail_if b k msg : safely (fail_if b k msg).
Proof. done. Qed.
Lemma safely_ret {A} (a : A) : safely (mret (M := prog) a).
Proof. done. Qed.
Lemma safely_reads {A} (f : env → volatile → res A) : safely (Lifecycle.reads f).
Proof. done. Qed.
Lemma safely_writes f : safely (writes f).
Proof. done. Qed.
Lemma safely_open e : safely (open_connection e).
Proof. done. Qed.
Lemma safely_submit w : safely (_submit w).
Proof. done. Qed.
Lemma safely_preparation f : safely (on_preparation f).
Proof. done. Qed.
#[export] Hint Resolve safely_finished safely_fail safely_fails safely_fail_if safely_ret safely_reads safely_writes safely_open safely_submit safely_preparation
  safe_request : safely.

(** Splits a program into its transactions. *)
Ltac safely :=
  repeat lazymatch goal with
  | |- ∀ _, _ => intros ?
  | |- safe _ (mbind _ _) => apply safe_bind
  | |- safe _ (mret _) => apply safely_ret
  | |- safe _ (rescue _ _) => apply safe_rescue
  | |- safe _ (after _ _) => apply safe_after
  | |- safe _ (in_turn _ _) => apply safe_in_turn
  | |- safe _ (atomic _) => apply safely_atomic; solve [keeps]
  | |- safe _ (if ?b then _ else _) => destruct b eqn:?
  | |- safe _ (match ?x with _ => _ end) => destruct x eqn:?
  | |- safe _ (Local _ _) => intros ?; simpl
  | |- _ => solve [eauto with safely]
  end.

Lemma safely_register r e k x : safely (register r e k x).
Proof. unfold register. safely. Qed.
#[export] Hint Resolve safely_register : safely.
Lemma safely_resolve_from r l : safely (resolve_from r l).
Proof. induction l; cbn [resolve_from]; safely. Qed.
#[export] Hint Resolve safely_resolve_from : safely.
Lemma safely_resolve r : safely (Artifacts.resolve r).
Proof. unfold Artifacts.resolve. safely. Qed.
Lemma safely_forward {R} (q : rpc R) l : safely (forward q l).
Proof. induction l; cbn [forward]; safely. Qed.
#[export] Hint Resolve safely_resolve safely_forward : safely.
Lemma safely_dispatch_snapshot {R} r (q : string → rpc R) : safely (dispatch_snapshot r q).
Proof. unfold dispatch_snapshot. safely. Qed.
Lemma safely_dispatch_network o i : safely (dispatch_network o i).
Proof. unfold dispatch_network. safely. Qed.
Lemma safely_native_revision r e : safely (native_revision r e).
Proof. unfold native_revision. safely. Qed.
Lemma safely_storage_identity c e x : safely (storage_identity c e x).
Proof. unfold storage_identity. safely. Qed.
#[export] Hint Resolve safely_dispatch_snapshot safely_dispatch_network safely_native_revision safely_storage_identity : safely.
Lemma safely_request_image i g r c e x : safely (request_image i g r c e x).
Proof. unfold request_image. safely. Qed.
Lemma safely_allocation_route i : safely (allocation_route i).
Proof.
  unfold allocation_route. apply safe_bind; [|safely]. apply safely_atomic. unfold _resolve. keeps.
Qed.
#[export] Hint Resolve safely_request_image safely_allocation_route : safely.

Section launch.
  Context `{Digests} (cluster : string).

Lemma keeps_the_worker a : keeps (the_worker a).
  Proof. unfold the_worker. keeps. Qed.
Lemma safely_launch_route a : safely (launch_route cluster a).
  Proof. pose proof keeps_the_worker. unfold launch_route. safely. Qed.
Lemma safely_check_features c i s : safely (check_features c i s).
  Proof. unfold check_features, require_feature. safely. Qed.
Lemma safely_request_images a c e x y l : safely (request_images a c e x y l).
  Proof. induction l; cbn [request_images]; safely. Qed.
Lemma keeps_image_cache a : keeps (image_cache a).
  Proof. unfold image_cache. keeps. Qed.
Lemma safely_launch_images a c e i : safely (launch_images a c e i).
  Proof.
    pose proof keeps_image_cache. pose proof safely_request_images. unfold launch_images, transfer_result. safely.
  Qed.
Lemma safely_launch_handler i g x : safely (launch_handler i g x).
  Proof. unfold launch_handler. safely. Qed.

Lemma safely_run_launch i a c e x : safely (run_launch cluster i a c e x).
  Proof.
    unfold run_launch. apply safe_bind; [apply safely_check_features|]. intros _.
    apply safe_bind; [apply safely_launch_images|]. intros ready. destruct (negb ready); [apply safely_ret|].
    apply safe_bind; [apply safely_open|]. intros c'. apply safe_bind; [safely|]. intros p.
    apply safe_reply. intros r Hr. apply safely_atomic. auto with keeps.
  Qed.

Lemma safely_launch i : safely (_launch cluster i).
  Proof.
    pose proof safely_launch_route. pose proof safely_launch_handler. pose proof safely_run_launch.
    unfold _launch. safely.
  Qed.

Lemma safely_observe i : safely (_observe cluster i).
  Proof.
    pose proof safely_launch as Hl. unfold _observe. apply safe_bind; [safely|]. intros a.
    destruct (al_endpoint a); [|done]. destruct (_ || _); [done|]. destruct (_ && _); [done|].
    apply safe_rescue; [|safely]. apply safe_bind; [safely|]. intros c.
    apply safe_reply. intros f Hf. apply safely_atomic. auto with keeps.
  Qed.

Lemma safely_terminate i : safely (_terminate cluster i).
  Proof. pose proof keeps_the_worker. unfold _terminate, end_sandbox, finish_terminate. safely. Qed.
End launch.
#[export] Hint Resolve keeps_the_worker safely_launch safely_observe safely_terminate : safely keeps.

Section worker_programs.
  Context `{Digests} (cluster : string) (attach : worker → prog connection).
  Context (Hattach : ∀ w, safely (attach w)).

Lemma safely_worker_add c t o : safely (worker_add cluster c t o).
  Proof. unfold worker_add. safely. Qed.
Lemma safely_worker_update i ch : safely (worker_update i ch).
  Proof. unfold worker_update. safely. Qed.
Lemma safely_probe_instances i w l : safely (probe_instances cluster i w l).
  Proof. induction l as [|[x n] l IH]; cbn [probe_instances]; safely. Qed.
Lemma safely_probe i : safely (_probe cluster attach i).
  Proof.
    pose proof safely_probe_instances. unfold _probe, probe_alive, probe_again. safely.
  Qed.
End worker_programs.

(** * Pools *)

Lemma lease_le_end (l l' : pool_lease) :
  le_id l' = le_id l → le_parent l' = le_parent l → le_sandbox l' = le_sandbox l → lease_done l' = true →
  (le_state l = "failed"%string → le_state l' = "failed"%string) → lease_le l l'.
Proof. intros ? ? E ? ?. split_and!; [done..|]. by rewrite E. Qed.

(** A loop that ends leases. *)
Lemma keeps_end_leases {B} keep (test : pool_lease → bool) (f : pool_lease → pool_lease) (k : txn B) :
  (∀ l, test l = true → lease_le l (f l) ∧ lease_done (f l) = true) → keeps k →
  keeps (leases ← list_where keep; _ ← for_each leases (λ l, when (test l) (save (f l) None)); k).
Proof.
  intros Hf Hk e s. apply wp_assume_wf. intros Hw. apply wp_bind, wp_list_rows; [by apply keyed_lease|]. intros l Hnd Hl.
  apply wp_bind. eapply wp_mono; [apply (for_rows_good l _ e s s); [done|reflexivity|done|intros r Hr; by apply Hl|]|].
  - intros r s' _ Hw' Hv. apply wp_when; intros Ht; [|by split; [reflexivity|]].
    destruct (Hf r Ht) as [Hle Hd]. apply wp_save. intros ev. split.
    + by eapply good_lease_end.
    + intros i Hi. rewrite value_at_stored. rewrite decide_False; [done|]. destruct Hle as [E _]. simpl in *. congruence.
  - intros [] s' Hg. simpl in Hg. by apply keeps_from.
Qed.

(** Transactions that do the same do equally well. *)
Lemma keeps_same {A} (t t' : txn A) : (∀ e s, t e s = t' e s) → keeps t' → keeps t.
Proof. intros E Ht e s. unfold wp. rewrite E. apply Ht. Qed.
Lemma bind_cong {A B} (t : txn A) (f g : A → txn B) e s : (∀ a e s, f a e s = g a e s) → (t ≫= f) e s = (t ≫= g) e s.
Proof. intros E. unfold mbind, txn_bind. destruct (t e s) as [[a s']|]; [apply E|done]. Qed.
Lemma bind_unit (t : txn ()) e s : t e s = (_ ← t; mret ()) e s.
Proof. unfold mbind, txn_bind, mret, txn_ret. by destruct (t e s) as [[[] s']|]. Qed.

Lemma keeps_resolve_pool i : keeps (resolve_pool i).
Proof. unfold resolve_pool. keeps. Qed.
Lemma resolve_pool_reads i e s : wp (resolve_pool i) (λ _ s', s' = s) e s.
Proof.
  apply wp_bind, wp_find. destruct (value_at s i); [done|]. apply wp_bind, wp_list_where. intros l _.
  destruct l as [|p [|q l]]; [done|by apply wp_get|done].
Qed.
Lemma keeps_create_pool q : keeps (create_pool q).
Proof. unfold create_pool. keeps. Qed.
#[export] Hint Resolve keeps_resolve_pool keeps_create_pool : keeps.
Lemma keeps_pool_update i c : keeps (pool_update i c).
Proof. unfold pool_update. keeps. Qed.

Lemma keeps_pool_close i : keeps (pool_close i).
Proof.
  unfold pool_close. apply keeps_bind; [keeps|]. intros p. apply keeps_bind; [keeps|]. intros _.
  apply keeps_bind; [keeps|]. intros members. apply keeps_bind; [keeps|]. intros _.
  eapply (keeps_same _ (leases ← list_where (lease_in (po_id p));
    _ ← for_each leases (λ l, when (negb (lease_done l)) (save (l <| le_state := "cancelled"%string |>) None)); mret ())).
  - intros e s. apply bind_cong. intros l e' s'. apply bind_unit.
  - apply keeps_end_leases; [|apply keeps_ret]. intros l Hl. bool_prop. split; [|done]. apply lease_le_end; [done..|].
    intros E. unfold lease_done in Hl. by rewrite E in Hl.
Qed.

(** Only allocations and leases changed. *)
Definition jobs_alone (s s' : store) : Prop := st_tasks s' = st_tasks s ∧ st_jobs s' = st_jobs s.

Lemma pool_checkout_good i l o e s :
  l ≠ ""%string → wp (pool_checkout i l o) (λ _ s', good s s' ∧ jobs_alone s s') e s.
Proof.
  intros Hne. unfold pool_checkout. apply wp_bind, wp_owner_process. intros _.
  apply wp_bind. eapply wp_mono; [apply resolve_pool_reads|].
  intros p s' ->. apply wp_bind, wp_throw_if. intros _. apply wp_bind, wp_find.
  destruct (value_at s l) as [r|] eqn:E; [by apply wp_throw_if|].
  apply wp_save. intros ev. split; [|done]. apply good_lease; simpl; [done| |done|done].
  intros r Hr. by rewrite E in Hr.
Qed.

Lemma pool_release_good i l e s :
  wf s → wp (pool_release i l) (λ _ s', good s s' ∧ jobs_alone s s') e s.
Proof.
  intros Hw. unfold pool_release. apply wp_bind. eapply wp_mono; [apply resolve_pool_reads|]. intros p s' ->.
  apply wp_bind, wp_get_lease; [done|]. intros r Hr _. apply wp_bind, wp_throw_if. intros _. apply wp_bind.
  eapply (wp_mono _ (λ _ s', good s s' ∧ only_allocations s s')).
  { destruct (text (le_sandbox r)) as [b|]; [|by apply wp_ret]. apply wp_bind.
    eapply wp_mono; [by apply cancel_good|]. intros a s' Hs'. by apply wp_ret. }
  intros [] s' (Hg & El & Ej). apply wp_when; intros Hf; [|done].
  apply wp_save. intros ev. split; [|done]. transitivity s'; [done|]. intros Hw'. unfold lease_state in Hf. bool_prop.
  eapply good_lease_end; [done| |apply lease_le_end; simpl; try done|simpl; by destruct (given _)|done].
  - unfold value_at. simpl. rewrite El. exact Hr.
  - by destruct (given _).
Qed.

Lemma keeps_pool_checkout i l o : l ≠ ""%string → keeps (pool_checkout i l o).
Proof. intros Hne e s. eapply wp_mono; [by apply pool_checkout_good|]. by intros a s' [? _]. Qed.
Lemma keeps_pool_release i l : keeps (pool_release i l).
Proof.
  intros e s. apply wp_assume_wf. intros Hw. eapply wp_mono; [by apply pool_release_good|]. by intros a s' [? _].
Qed.
#[export] Hint Resolve keeps_pool_update keeps_pool_close keeps_pool_checkout keeps_pool_release : keeps.


Lemma keeps_fail i x : keeps (_fail i x).
Proof.
  unfold _fail. apply keeps_bind; [keeps|]. intros p. apply keeps_bind; [keeps|]. intros _.
  apply keeps_end_leases; [|keeps]. intros l Hl. split; [|done]. apply lease_le_end; done.
Qed.
#[export] Hint Resolve keeps_fail : keeps.

Section members.
  Context `{Digests} (cluster : string).

Lemma keeps_join identity p builder : keeps (join_pool identity p builder).
  Proof.
    intros e s. apply wp_assume_wf. intros Hw. apply wp_bind, wp_get_allocation; [done|]. intros a Ha _.
    apply wp_bind, wp_save. intros ev. eapply keeps_from; [eapply good_update; [done|exact Ha|alloc_le|done]|]. keeps.
  Qed.

Lemma keeps_new_member rb u o p b : keeps (_new_member rb u o p b).
  Proof. pose proof keeps_join. unfold _new_member. keeps. Qed.

Lemma keeps_commit_capture p b g s d : keeps (commit_capture p b g s d).
  Proof. unfold commit_capture. keeps. Qed.
Lemma keeps_capture_failed p b g x : keeps (capture_failed p b g x).
  Proof. unfold capture_failed. keeps. Qed.

Lemma keeps_commit_claim l b g r : keeps (commit_claim l b g r).
  Proof.
    intros e s. apply wp_assume_wf. intros Hw. apply wp_bind, wp_get_lease; [done|]. intros x Hx Ex.
    apply wp_bind, wp_get_allocation; [done|]. intros a Ha _.
    destruct (negb _) eqn:Ec; [by apply wp_ret|]. unfold claim_current, lease_state in Ec. bool_prop.
    apply wp_bind, wp_save. intros ev. set (s1 := stored _ _ _ _).
    assert (Hg : good s s1).
    { eapply good_lease_update; [done|exact Hx| |done|].
      - unfold lease_le, lease_done. simpl. split_and!; try done; [|congruence]. rewrite H2. done.
      - intros _. destruct (wf_held s Hw _ _ Hx) as (b' & a' & ? & ? & ?); [unfold held; by rewrite H2|]. by exists b', a'. }
    apply wp_save. intros ev'. transitivity s1; [done|].
    eapply good_update; [by apply Hg|exact Ha|alloc_le|done].
  Qed.

Lemma keeps_claim_failed l b g x : keeps (claim_failed l b g x).
  Proof.
    intros e s. apply wp_assume_wf. intros Hw. apply wp_bind, wp_get_lease; [done|]. intros y Hy _.
    apply wp_bind, wp_get_allocation; [done|]. intros a Ha _. destruct (_ || _); [by apply wp_ret|].
    apply wp_bind, wp_save. intros ev. eapply keeps_from; [|keeps].
    eapply good_lease_end; [done|exact Hy|by apply lease_le_end|done].
  Qed.
End members.
#[export] Hint Resolve keeps_new_member keeps_commit_capture keeps_capture_failed keeps_commit_claim keeps_claim_failed : keeps.

Lemma keeps_retire_images i p l : keeps (retire_images i p l).
Proof. unfold retire_images, list_all. keeps. Qed.
Lemma keeps_images_released i l : keeps (images_released i l).
Proof. unfold images_released. keeps. Qed.
Lemma keeps_cleanup_failed i x : keeps (cleanup_failed i x).
Proof. unfold cleanup_failed. keeps. Qed.
#[export] Hint Resolve keeps_retire_images keeps_images_released keeps_cleanup_failed : keeps.

(** A waiting lease and an idle allocation become each other's. *)
Lemma hand_over_good (l : pool_lease) (a : allocation) e s :
  wf s → value_at s (ident l) = Some l → value_at s (ident a) = Some a →
  le_state l = "pending"%string → given (al_lease a) = false →
  wp (hand_over (l, a)) (λ _ s', good s s'
    ∧ (∀ i, i ≠ ident l → value_at (A := pool_lease) s' i = value_at s i)
    ∧ (∀ i, i ≠ ident a → value_at (A := allocation) s' i = value_at s i)) e s.
Proof.
  intros Hw Hl Ha Hp Hn. destruct (wf_lease s Hw _ _ Hl) as [_ Hne]. pose proof (wf_waiting s Hw _ _ Hl Hp) as Hs.
  assert (Hn' : text (al_lease a) = None).
  { unfold given in Hn. destruct (text (al_lease a)); [done|done]. }
  unfold hand_over. apply wp_bind, wp_save. intros ev. apply wp_save. intros ev'.
  set (l' := _ <| le_generation := _ |>). set (a' := a <| al_lease := _ |> <| al_state := _ |> <| al_generation := _ |>).
  set (s1 := stored l' _ _ s). split; [|split].
  - intros _. assert (Hle : alloc_le a a').
    { split; simpl; try done; try lia; try (by left). rewrite Hn'. done. }
    (* The two puts commute: the allocation first leaves the invariant intact. *)
    assert (Hg1 : good s (stored a' (now e) ev' s)) by (by eapply good_update; [done|exact Ha|exact Hle|]).
    assert (Hw1 := proj1 (Hg1 Hw)).
    assert (Hg2 : good (stored a' (now e) ev' s) (stored l' (now e) ev' (stored a' (now e) ev' s))).
    { eapply good_lease_update; [done| | |done|].
      - exact Hl.
      - unfold lease_le, lease_done. simpl. split_and!; try done; rewrite ?Hp, ?Hs; done.
      - intros _. exists (al_id a), a'. split; [done|]. rewrite value_at_stored. rewrite decide_True by done.
        split; [done|]. simpl. by rewrite bool_decide_eq_false_2. }
    exact ((transitivity Hg1 Hg2 : good _ _) Hw).
  - intros i Hi. change (value_at (A := pool_lease) (stored a' (now e) ev' s1) i) with (value_at (A := pool_lease) s1 i).
    unfold s1. rewrite value_at_stored. by rewrite decide_False.
  - intros i Hi. rewrite value_at_stored. rewrite decide_False by done. done.
Qed.

Lemma hand_overs_good (leases : list pool_lease) (idle : list allocation) e s :
  wf s → NoDup (map ident leases) → NoDup (map ident idle) →
  (∀ l, l ∈ leases → value_at s (ident l) = Some l ∧ le_state l = "pending"%string) →
  (∀ a, a ∈ idle → value_at s (ident a) = Some a ∧ given (al_lease a) = false) →
  wp (for_each (zip leases idle) hand_over) (λ _ s', good s s') e s.
Proof.
  revert idle s. induction leases as [|l leases IH]; intros [|a idle] s Hw Hnl Hna Hl Ha; simpl;
    try (apply wp_ret; reflexivity).
  apply NoDup_cons in Hnl as [Hl0 Hnl]. apply NoDup_cons in Hna as [Ha0 Hna]. apply wp_bind.
  destruct (Hl l ltac:(by left)) as [Vl Pl]. destruct (Ha a ltac:(by left)) as [Va Na].
  eapply wp_mono; [by apply hand_over_good|]. intros [] s' (Hg & Fl & Fa). simpl.
  eapply wp_mono; [apply IH; [by apply Hg|done|done| |]|].
  - intros x Hx. destruct (Hl x ltac:(by right)) as [V P]. split; [|done]. rewrite Fl; [done|].
    intros E. apply Hl0. rewrite <- E. apply list_elem_of_fmap. by exists x.
  - intros x Hx. destruct (Ha x ltac:(by right)) as [V P]. split; [|done]. rewrite Fa; [done|].
    intros E. apply Ha0. rewrite <- E. apply list_elem_of_fmap. by exists x.
  - intros [] s'' Hg'. simpl in Hg'. by transitivity s'.
Qed.

Lemma keeps_retire_idle n l : keeps (retire_idle n l).
Proof.
  pose proof keeps_the_worker. revert n. induction l as [|a l IH]; intros n; cbn [retire_idle]; keeps.
Qed.

Lemma NoDup_map_filter {A B} (f : A → B) (P : A → Prop) `{∀ x, Decision (P x)} (l : list A) :
  NoDup (map f l) → NoDup (map f (filter P l)).
Proof.
  intros Hnd. induction l as [|x l IH]; [done|]. simpl in Hnd. apply NoDup_cons in Hnd as [Hx Hnd].
  rewrite filter_cons. destruct (decide (P x)); [|by apply IH]. simpl. constructor; [|by apply IH].
  intros Hin. apply Hx. apply list_elem_of_fmap in Hin as (y & -> & [_ Hy]%list_elem_of_filter).
  apply list_elem_of_fmap. by exists y.
Qed.

Section pools.
  Context `{Digests} (cluster : string) (uuids operations : nat → string) (randbelow : nat → nat → nat).

Lemma keeps_balance i : keeps (balance uuids operations randbelow i).
  Proof.
    pose proof keeps_retire_idle as Hretire.
    intros e s. apply wp_assume_wf. intros Hw. unfold balance. apply wp_bind.
    eapply wp_mono; [apply resolve_pool_reads|]. intros p s' ->.
    destruct (_ || _); [by apply wp_ret|].
    apply wp_bind, wp_list_rows; [by apply keyed_allocation|]. intros live Hnd Hlive.
    apply wp_bind, wp_list_rows; [by apply keyed_lease|]. intros waiting Hndw Hwaiting.
    apply wp_bind. eapply wp_mono.
    { apply hand_overs_good; [done|done|by apply NoDup_map_filter|..].
      - intros l Hl. destruct (Hwaiting l Hl) as [Hk Hv]. split; [done|]. unfold lease_state in Hk. by bool_prop.
      - intros a [Hi%Is_true_true Hl]%list_elem_of_filter. destruct (Hlive a Hl) as [_ Hv]. split; [done|].
        unfold is_idle in Hi. by bool_prop. }
    intros [] s' Hg. simpl in Hg. eapply keeps_from; [exact Hg|]. keeps.
  Qed.

Lemma safely_capture p b : safely (_capture p b).
  Proof. unfold _capture. safely. Qed.
Lemma safely_claim p l b : safely (_claim cluster p l b).
  Proof. unfold _claim. safely. Qed.
Lemma safely_release_on p l l' c e : safely (release_on p l l' c e).
  Proof. unfold release_on. safely. Qed.
Lemma safely_release_artifacts p : safely (_release_artifacts p).
  Proof. pose proof safely_release_on. unfold _release_artifacts. safely. Qed.

Lemma safely_reconcile_lease p l : safely (reconcile_lease p l).
  Proof. unfold reconcile_lease. safely. Qed.
Lemma safely_reconcile_builder p : safely (reconcile_builder uuids operations randbelow p).
  Proof. unfold reconcile_builder. safely. Qed.
Lemma safely_reconcile_closing p l : safely (reconcile_closing p l).
  Proof. unfold reconcile_closing. safely. Qed.
Lemma safely_reconcile_ready p : safely (reconcile_ready uuids operations randbelow p).
  Proof. pose proof keeps_balance. pose proof safely_reconcile_lease. unfold reconcile_ready. safely. Qed.
Lemma safely_reconcile_pool p : safely (reconcile_pool uuids operations randbelow p).
  Proof.
    pose proof safely_reconcile_ready. pose proof safely_reconcile_builder. pose proof safely_reconcile_closing.
    unfold reconcile_pool. safely.
  Qed.
Lemma safely_reconcile_pools : safely (reconcile_pools uuids operations randbelow).
  Proof. pose proof safely_reconcile_pool. unfold reconcile_pools, list_all. safely. Qed.
Lemma safely_check_pool q : safely (check_pool q).
  Proof. unfold check_pool. safely. Qed.
Lemma safely_pool_create q : safely (pool_create q).
  Proof. pose proof safely_check_pool. unfold pool_create. safely. Qed.
Lemma safely_lease_status i l : safely (lease_status i l).
  Proof. unfold lease_status. safely. Qed.
End pools.
#[export] Hint Resolve safely_capture safely_claim safely_release_artifacts safely_reconcile_pools safely_check_pool
  safely_pool_create safely_lease_status : safely.

(** * Jobs *)

Lemma wp_get_task i (Q : task → store → Prop) e s :
  wf s → (∀ t, value_at s (ta_id t) = Some t → ta_id t = i → Q t s) → wp (get i) Q e s.
Proof.
  intros Hw HQ. apply wp_get. intros t Ht. destruct (wf_task s Hw _ _ Ht) as [E _]. apply HQ; [by rewrite E|done].
Qed.

Lemma good_task_change s (t t' : task) c ev :
  wf s → value_at s (ta_id t) = Some t → task_le t t' →
  (∀ j, value_at s (ta_parent t) = Some j → bounded j t → bounded j t') → good s (stored t' c ev s).
Proof.
  intros Hw Ht Hle Hb. destruct Hle as (Ei & Ep & Hle). destruct (wf_task s Hw _ _ Ht) as (_ & Hn & j & Hj). apply good_task.
  - rewrite Ei, Ht. intros r [= <-]. by split.
  - intros _. rewrite Ei, Ep. split; [done|]. exists j. split; [done|]. apply Hb; [done|]. by eapply wf_attempts.
Qed.

Lemma good_task_update s (t t' : task) c ev :
  wf s → value_at s (ta_id t) = Some t → task_le t t' → ta_attempt t' = ta_attempt t → good s (stored t' c ev s).
Proof. intros ??? E. eapply good_task_change; [done..|]. intros j _. unfold bounded. by rewrite E. Qed.

(** A task that has not ended may change in any way but its identity. *)
Lemma task_le_open (t t' : task) :
  task_done t = false → ta_id t' = ta_id t → ta_parent t' = ta_parent t → ta_index t' = ta_index t →
  ta_attempt t ≤ ta_attempt t' → task_le t t'.
Proof. intros Hd ????. unfold task_le. rewrite Hd. do 4 (split; [done|]). by intros ?. Qed.

Lemma good_job_update s (j j' : job) c ev :
  wf s → value_at s (jo_id j) = Some j → job_le j j' → good s (stored j' c ev s).
Proof. intros Hw Hj Hle. apply good_job. destruct Hle as [E Hle]. rewrite E, Hj. intros r [= <-]. by split. Qed.

Lemma wp_get_job i (Q : job → store → Prop) e s :
  wf s → (∀ j, value_at s (jo_id j) = Some j → jo_id j = i → Q j s) → wp (get i) Q e s.
Proof.
  intros Hw HQ. apply wp_get. intros j Hj. pose proof (wf_job s Hw _ _ Hj) as E. apply HQ; [by rewrite E|done].
Qed.

Lemma new_tasks_good identity items start c e s :
  wf s → (∃ j : job, value_at s identity = Some j) →
  (∀ k, (start ≤ k)%nat → value_at (A := task) s (task_name identity k) = None) →
  wp (for_each (imap (λ k x, (start + k, x)%nat) items) (λ i, save (new_task identity i.1 i.2 c) None)) (λ _ s', good s s') e s.
Proof.
  revert start s. induction items as [|x items IH]; intros start s Hw Hj Hf; [by apply wp_ret|].
  rewrite imap_cons. cbn [for_each]. apply wp_bind, wp_save. intros ev. rewrite Nat.add_0_r. cbn [fst snd].
  assert (Hg : good s (stored (new_task identity start x c) (now e) ev s)).
  { apply good_task; simpl; [|intros _; split; [by exists start|]].
    2: { destruct Hj as [j Hj]. exists j. split; [done|]. intros _. simpl. lia. }
    intros r.
    change (identity +:+ "-" +:+ pretty start)%string with (task_name identity start). by rewrite Hf. }
  eapply wp_mono.
  { rewrite (imap_ext _ (λ k x, (S start + k, x)%nat)) by (intros; simpl; f_equal; lia).
    apply IH; [by apply Hg|done|]. intros k Hk. rewrite value_at_stored. rewrite decide_False; [by apply Hf; lia|].
    intros E. change (task_name identity start = task_name identity k) in E. apply task_name_inj in E as [_ ?]. lia. }
  intros [] s' Hg'. simpl in Hg'. by etransitivity.
Qed.

Lemma keeps_create_job q : keeps (create_job q).
Proof.
  intros e s. apply wp_assume_wf. intros Hw. unfold create_job. apply wp_bind, wp_find.
  destruct (value_at s (jp_identity q)) as [j|] eqn:E; [by apply wp_throw_if|].
  apply wp_bind. eapply (wp_mono _ (λ _ s', agree s s')).
  { destruct (jp_pool_request q) as [p|]; [|by apply wp_ret]. apply wp_bind, wp_throw_if. intros _.
    unfold create_pool. apply wp_bind. eapply (wp_mono _ (λ _ s', s' = s)).
    { destruct (text _); [by apply wp_find|by apply wp_ret]. }
    intros image s' ->. apply wp_bind, wp_throw_if. intros _. apply wp_bind, wp_find.
    destruct (value_at s (pq_identity p)); [by apply wp_throw_if|].
    apply wp_bind, wp_list_where. intros l _. apply wp_bind, wp_throw_if. intros _. by apply wp_save. }
  intros [] s1 Hag. assert (Hg : good s s1) by (by apply good_agree). destruct Hag as (_ & _ & Et & Ej).
  apply wp_bind, wp_get. intros p _. apply wp_bind, wp_throw_if. intros _. apply wp_bind, wp_save. intros ev.
  set (s2 := stored _ _ _ _). assert (Hg2 : good s1 s2).
  { apply good_job. simpl. intros j. unfold value_at. simpl. rewrite Ej. unfold value_at in E. simpl in E. by rewrite E. }
  apply wp_bind, wp_time. eapply wp_mono.
  { apply (new_tasks_good _ _ 0).
    - by apply Hg2, Hg.
    - eexists. unfold s2. rewrite value_at_stored. by rewrite decide_True.
    - intros k _. change (value_at (A := task) s1 (task_name (jp_identity q) k) = None).
      destruct (value_at s1 (task_name (jp_identity q) k)) as [t|] eqn:Et'; [|done].
      destruct (wf_task s1 (proj1 (Hg Hw)) _ _ Et') as (_ & (k' & Hk') & j & Hj).
      apply task_name_inj in Hk' as [Hk' _]. rewrite <- Hk' in Hj. unfold value_at in Hj, E. simpl in Hj, E.
      rewrite Ej, E in Hj. done. }
  intros [] s' Hg'. simpl in Hg'. etransitivity; [exact Hg|]. by etransitivity.
Qed.

Lemma safely_check_job q : safely (check_job q).
Proof. unfold check_job. safely. Qed.
Lemma safely_job_create q : safely (job_create q).
Proof. pose proof safely_check_job. pose proof keeps_create_job. unfold job_create. safely. Qed.

Lemma keeps_close_owned j : keeps (close_owned j).
Proof. unfold close_owned. keeps. Qed.
Lemma keeps_job_results i : keeps (job_results i).
Proof. unfold job_results. keeps. Qed.
#[export] Hint Resolve keeps_close_owned keeps_job_results : keeps.

Lemma release_lease_good j t e s :
  wf s → wp (release_lease j t) (λ _ s', good s s' ∧ jobs_alone s s') e s.
Proof. intros Hw. unfold release_lease. destruct (text _); [by apply pool_release_good|by apply wp_ret]. Qed.

(** An open task is closed together with its lease. *)
Lemma close_task_good j (t t' : task) b e s :
  wf s → value_at s (ident t) = Some t → ta_attempt t' = ta_attempt t → (b = true → task_le t t') →
  wp (_ ← release_lease j t; when b (save t' None))
    (λ _ s', good s s' ∧ ∀ i, i ≠ ident t → value_at (A := task) s' i = value_at s i) e s.
Proof.
  intros Hw Ht Ha Hle. apply wp_bind. eapply wp_mono; [by apply release_lease_good|]. intros [] s1 (Hg & Et & _).
  assert (E : ∀ i, value_at (A := task) s1 i = value_at s i) by (intros; unfold value_at; simpl; by rewrite Et).
  apply wp_when; intros Hb; [|by split; [|intros; apply E]]. specialize (Hle Hb).
  apply wp_save. intros ev. split.
  - transitivity s1; [done|]. eapply (good_task_update _ t); [by apply Hg| |done|done]. by rewrite E.
  - intros i Hi. rewrite value_at_stored, decide_False; [apply E|]. destruct Hle as [Ei _]. simpl in *. congruence.
Qed.

(** A loop that closes the tasks of a job. *)
Lemma close_tasks_good {B} identity (f : task → txn ()) (k : txn B) e s :
  wf s →
  (∀ t e s, wf s → value_at s (ident t) = Some t →
     wp (f t) (λ _ s', good s s' ∧ ∀ i, i ≠ ident t → value_at (A := task) s' i = value_at s i) e s) →
  keeps k → wp (tasks ← list_where (task_of identity); _ ← for_each tasks f; k) (λ _ s', good s s') e s.
Proof.
  intros Hw Hf Hk. apply wp_bind, wp_list_rows; [by apply keyed_task|]. intros l Hnd Hl.
  apply wp_bind. eapply wp_mono; [apply (for_rows_good l _ e s s); [done|reflexivity|done|intros r Hr; by apply Hl|]|].
  - intros t s' _ Hw' Hv. by apply Hf.
  - intros [] s' Hg. simpl in Hg. by apply keeps_from.
Qed.

Lemma keeps_job_cancel i : keeps (job_cancel i).
Proof.
  intros e s. apply wp_assume_wf. intros Hw. unfold job_cancel. apply wp_bind, wp_get_job; [done|]. intros j Hj _.
  destruct (job_done j) eqn:Hd; [by apply wp_ret|]. apply wp_bind, wp_save. intros ev. set (s1 := stored _ _ _ _).
  assert (Hg : good s s1).
  { eapply good_job_update; [done|exact Hj|]. unfold job_le. rewrite Hd. by repeat split. }
  eapply wp_mono; [apply close_tasks_good; [by apply Hg| |apply keeps_close_owned]|].
  - intros t e' s' Hw' Ht. apply close_task_good; [done..|]. intros Ho%negb_true_iff. apply task_le_open; simpl; (done || lia).
  - intros [] s' Hg'. simpl in Hg'. by transitivity s1.
Qed.

Lemma keeps_fail_job j p : keeps (fail_job j p).
Proof.
  intros e s. apply wp_assume_wf. intros Hw. unfold fail_job. cbv zeta. apply close_tasks_good; [done|..].
  - intros t e' s' Hw' Ht. destruct (task_done t) eqn:Ho; [by apply wp_ret|].
    apply (close_task_good j t _ true); [done..|]. intros _. apply task_le_open; simpl; (done || lia).
  - clear. intros e s. apply wp_assume_wf. intros Hw. apply wp_bind, wp_get_job; [done|]. intros c Hc _.
    apply wp_bind, wp_when; intros Hr; [|apply keeps_close_owned]. bool_prop.
    apply wp_save. intros ev. eapply keeps_from; [|apply keeps_close_owned].
    eapply good_job_update; [done|exact Hc|]. unfold job_le, job_done. rewrite Hr. by repeat split.
Qed.

Lemma running_open j : jo_state j = "running"%string → job_done j = false.
Proof. intros E. unfold job_done. by rewrite E. Qed.

Lemma keeps_end_job j l : keeps (end_job j l).
Proof.
  intros e s. apply wp_assume_wf. intros Hw. apply wp_bind, wp_get_job; [done|]. intros c Hc _.
  apply wp_when; intros Hr; [|done]. bool_prop. apply wp_bind, wp_save. intros ev.
  eapply keeps_from; [|apply keeps_close_owned]. eapply good_job_update; [done|exact Hc|].
  unfold job_le. rewrite running_open by done. by repeat split.
Qed.

Lemma keeps_begin_attempt j t l x : l ≠ ""%string → keeps (begin_attempt j t l x).
Proof.
  intros Hne e s. apply wp_assume_wf. intros Hw. apply wp_bind, wp_get_task; [done|]. intros r Hr _.
  apply wp_bind, wp_get_job; [done|]. intros c _ _. destruct (_ || _) eqn:Ep; [by apply wp_ret|]. bool_prop.
  apply wp_bind. eapply wp_mono; [by apply pool_checkout_good|]. intros [] s1 (Hg & Et & _).
  apply wp_save. intros ev. transitivity s1; [done|]. eapply (good_task_update _ r); [by apply Hg| | |done].
  - unfold value_at. simpl. rewrite Et. exact Hr.
  - apply task_le_open; simpl; try done. unfold task_done. by rewrite H.
Qed.

Lemma keeps_finish i o : keeps (_finish i o).
Proof.
  intros e s. apply wp_assume_wf. intros Hw. apply wp_bind, wp_get_task; [done|]. intros t Ht _.
  destruct (task_done t) eqn:Hd; [by apply wp_ret|]. apply wp_bind, wp_get_job; [done|]. intros j Hj Ej.
  apply wp_bind, wp_save. intros ev1. set (s1 := stored _ _ _ _). assert (Hg1 : good s s1) by apply good_unrelated.
  apply wp_bind, wp_time. cbv zeta. apply wp_bind, wp_save. intros ev2. set (s2 := stored _ _ _ _).
  assert (Hg2 : good s1 s2).
  { eapply good_task_change; [by apply Hg1|exact Ht|destruct (_ || _); apply task_le_open; simpl; (done || lia)|].
    intros j' Hj' Hb He. change (value_at s (ta_parent t) = Some j') in Hj'. rewrite <- Ej, Hj in Hj'. injection Hj' as <-.
    specialize (Hb He). destruct (_ || _) eqn:Er; [|exact Hb]. simpl. unfold retries, repeating in Er.
    rewrite He in Er. simpl in Er. bool_prop. lia. }
  destruct (ta_lease t); [|apply wp_throw]. eapply keeps_from; [by etransitivity|apply keeps_pool_release].
Qed.

Lemma keeps_move_task i from to sandbox : bool_decide (from ∈ JOB_TERMINAL) = false → keeps (move_task i from to sandbox).
Proof.
  intros Hf e s. apply wp_assume_wf. intros Hw. apply wp_bind, wp_get_task; [done|]. intros t Ht _.
  destruct (negb _) eqn:Es; [by apply wp_ret|]. bool_prop. cbv zeta. apply wp_bind, wp_store. intros ev. apply wp_ret.
  assert (task_done t = false) by (unfold task_done; rewrite Es; by apply bool_decide_eq_false_2).
  destruct sandbox; (eapply good_task_update; [done|exact Ht|by apply task_le_open|done]).
Qed.
#[export] Hint Resolve keeps_job_cancel keeps_fail_job keeps_end_job keeps_begin_attempt keeps_finish : keeps.

Lemma safely_write_files c b l : safely (write_files c b l).
Proof. unfold write_files. safely. Qed.
Lemma safely_read_stream n c b p x z got : safely (read_stream n c b p x z got).
Proof. revert got. induction n as [|n IH]; intros got; cbn [read_stream]; safely. Qed.
Lemma safely_collect c b p t o : safely (collect c b p t o).
Proof. pose proof safely_read_stream. unfold collect. safely. Qed.
Lemma safely_reach e : safely (reach_worker e).
Proof. unfold reach_worker. safely. Qed.

Lemma safely_run_attempt t j c b : safely (run_attempt t j c b).
Proof.
  pose proof safely_write_files. pose proof safely_collect. unfold run_attempt, process_of.
  assert (M : ∀ i to x, keeps (move_task i "waiting" to x)) by (intros; by apply keeps_move_task).
  assert (M' : ∀ i to x, keeps (move_task i "starting" to x)) by (intros; by apply keeps_move_task).
  safely.
Qed.

Lemma keeps_note_error i x :
  keeps (t ← get (A := task) i; when (negb (task_done t)) (save (t <| ta_error := Some (exn_text x) |>) None)).
Proof.
  intros e s. apply wp_assume_wf. intros Hw. apply wp_bind, wp_get_task; [done|]. intros t Ht _.
  apply wp_when; intros Hd%negb_true_iff || intros Hd; [|done]. apply wp_save. intros ev.
  eapply good_task_update; [done|exact Ht| |done]. apply task_le_open; simpl; (done || lia).
Qed.

Lemma safely_step_failed i x : safely (step_failed i x).
Proof.
  pose proof keeps_note_error as Hn. unfold step_failed. destruct (bool_decide _); [done|]. apply safe_bind; [safely|]. intros t.
  apply safe_bind; [safely|]. intros a. destruct (_ && _); [apply safely_atomic, Hn|safely].
Qed.

Lemma keeps_owner_ready j b : keeps (owner_ready j b).
Proof. pose proof keeps_the_worker. unfold owner_ready. keeps. Qed.

Lemma safely_step i : safely (_step i).
Proof.
  pose proof safely_step_failed. pose proof safely_run_attempt. pose proof safely_reach. pose proof keeps_owner_ready.
  unfold _step. safely.
Qed.

Section job_programs.
  Context (lease_ids process_ids : string → string) (Hleases : ∀ i, lease_ids i ≠ ""%string).

Lemma safely_reconcile_task j t : safely (reconcile_task lease_ids process_ids j t).
  Proof. unfold reconcile_task. safely. Qed.
Lemma safely_reconcile_job j : safely (reconcile_job lease_ids process_ids j).
  Proof. pose proof safely_reconcile_task. unfold reconcile_job. safely. Qed.
Lemma safely_reconcile_jobs : safely (reconcile_jobs lease_ids process_ids).
  Proof. pose proof safely_reconcile_job. unfold reconcile_jobs. safely. Qed.
End job_programs.
#[export] Hint Resolve safely_job_create safely_step safely_reconcile_jobs : safely.

(** * Placement *)

(** A plan names pending requests, each at most once. *)
Lemma plan_ids workers policies requests allocations assigned waiting :
  NoDup (map rq_id requests) → plan workers policies requests allocations = Ok (assigned, waiting) →
  NoDup (map (λ x : string * string * selection, x.1.1) assigned)
  ∧ ∀ i, i ∈ map (λ x : string * string * selection, x.1.1) assigned → ∃ r, r ∈ requests ∧ rq_id r = i.
Proof.
  intros Hnd (p & placed & wait & p' & _ & Hr & -> & _)%plan_run. apply run_partition in Hr.
  rewrite map_map. simpl. rewrite <- (map_map pm_request rq_id).
  assert (Hs : map rq_id (map pm_request placed) ++ map rq_id (map fst wait) ≡ₚ map rq_id requests).
  { rewrite <- map_app. by rewrite Hr. }
  split.
  - rewrite <- Hs in Hnd. by apply NoDup_app in Hnd as [? _].
  - intros i Hi. assert (Hin : i ∈ map rq_id requests) by (rewrite <- Hs; apply elem_of_app; by left).
    apply list_elem_of_fmap in Hin as (r & -> & Hin). by exists r.
Qed.

Lemma wp_list_rows_stored {A} `{Table A} keep s :
  keyed s → NoDup (map (λ r, ident (row_value r)) (list_rows keep s))
  ∧ ∀ r, r ∈ list_rows keep s → keep (row_value r) = true ∧ value_at s (ident (row_value r)) = Some (row_value r).
Proof.
  intros Hk. pose proof (wp_list_rows keep (λ l s', s' = s ∧ NoDup (map ident l)
    ∧ ∀ a, a ∈ l → keep a = true ∧ value_at s (ident a) = Some a) (Env 0 (λ _, Ok None) (λ _, Ok None)) s Hk) as HQ.
  destruct HQ as (_ & Hnd & Hl); [done|]. rewrite map_map in Hnd. split; [done|].
  intros r Hr. apply Hl, list_elem_of_fmap. by exists r.
Qed.

(** The requests of the pending allocations are theirs alone. *)
Definition pending_rows (s : store) : list (row allocation) :=
  filter (λ r, Is_true (bool_decide (al_state (row_value r) = "pending"%string)
                        && bool_decide (al_desired (row_value r) = "running"%string)))
    (list_rows (λ a : allocation, negb (al_released a)) s).

Lemma pending_ids s : wf s →
  NoDup (map rq_id (map request_of (pending_rows s)))
  ∧ ∀ r, r ∈ map request_of (pending_rows s) → ∃ a : allocation,
      value_at s (rq_id r) = Some a ∧ al_state a = "pending"%string ∧ al_id a = rq_id r.
Proof.
  intros Hw. destruct (wp_list_rows_stored (A := allocation) (λ a, negb (al_released a)) s) as [Hnd Hl];
    [by apply keyed_allocation|]. split.
  - rewrite map_map. simpl. by apply NoDup_map_filter.
  - intros r (x & -> & [Hp Hx]%list_elem_of_filter)%list_elem_of_fmap. apply Is_true_true in Hp. bool_prop.
    exists (row_value x). simpl. by destruct (Hl x Hx).
Qed.

Lemma assign_good x e s a :
  wf s → value_at s x.1.1 = Some a → al_state a = "pending"%string →
  wp (assign_one x) (λ _ s', good s s' ∧ ∀ i, i ≠ x.1.1 → value_at (A := allocation) s' i = value_at s i) e s.
Proof.
  destruct x as [[i w] sel]. simpl. intros Hw Ha Hp. apply wp_bind, wp_get_allocation; [done|]. intros b Hb Eb.
  rewrite Eb, Ha in Hb. injection Hb as <-. pose proof (wf_pending s Hw _ _ Ha Hp) as Hn.
  cbv zeta. apply wp_save. intros ev. split.
  - rewrite <- Eb in Ha. apply good_allocation; [|by destruct sel].
    intros b. replace (al_id _) with (al_id a) by (by destruct sel). rewrite Ha. intros [= <-].
    destruct sel; split; simpl; try done; try (by left); try (by rewrite Hn); intros [?|?]; done.
  - intros k Hk. rewrite value_at_stored, decide_False; [done|]. destruct sel; simpl; congruence.
Qed.

Lemma assigns_good l e s :
  wf s → NoDup (map (λ x : string * string * selection, x.1.1) l) →
  (∀ x, x ∈ l → ∃ a, value_at s x.1.1 = Some a ∧ al_state a = "pending"%string) →
  wp (for_each l assign_one) (λ _ s', good s s') e s.
Proof.
  revert s. induction l as [|x l IH]; intros s Hw Hnd Hl; [by apply wp_ret|]. apply NoDup_cons in Hnd as [Hx Hnd].
  cbn [for_each]. apply wp_bind. destruct (Hl x ltac:(by left)) as (a & Ha & Hp).
  eapply wp_mono; [by eapply assign_good|]. intros [] s' [Hg Hf]. simpl.
  eapply wp_mono; [apply IH; [by apply Hg|done|]|intros [] s'' Hg'; simpl in Hg'; by transitivity s'].
  intros y Hy. destruct (Hl y ltac:(by right)) as (b & Hb & Hq). exists b. split; [|done]. rewrite Hf; [done|].
  intros E. apply Hx. rewrite <- E. apply list_elem_of_fmap. by exists y.
Qed.

Lemma keeps_explain x : keeps (explain_one x).
Proof.
  intros e s. apply wp_assume_wf. intros Hw. apply wp_bind, wp_get_allocation; [done|]. intros a Ha _.
  apply wp_when; intros _; [|done]. update_allocation.
Qed.

Lemma keeps_place : keeps place.
Proof.
  intros e s. apply wp_assume_wf. intros Hw. unfold place. apply wp_bind.
  apply (wp_lift (plan_pending s) _ e s). intros [assigned waiting] Hp. cbn [fst snd].
  destruct (pending_ids s Hw) as [Hnd Hpend].
  apply (plan_ids _ _ _ _ _ _ Hnd) in Hp as [Hnd' Hids]. apply wp_bind.
  eapply wp_mono; [apply assigns_good; [done|done|]|].
  - intros x Hx. destruct (Hids x.1.1) as (r & Hr & Er); [apply list_elem_of_fmap; by exists x|].
    destruct (Hpend r Hr) as (a & Ha & Hst & _). exists a. by rewrite <- Er.
  - intros [] s' Hg. simpl in Hg. eapply keeps_from; [exact Hg|]. apply keeps_for_each, keeps_explain.
Qed.
#[export] Hint Resolve keeps_place : keeps.

(** * The control loop *)

Section control_loop.
  Context `{Digests} (cluster : string) (attach : worker → prog connection) (configured : option Z).
  Context (uuids operations : nat → string) (randbelow : nat → nat → nat) (lease_ids process_ids : string → string).
  Context (Hattach : ∀ w, safely (attach w)) (Hleases : ∀ i, lease_ids i ≠ ""%string).

Lemma safely_body w : safely (body cluster attach w).
  Proof. pose proof (safely_probe cluster attach Hattach). destruct w; cbn [body]; safely.
  Qed.

Lemma safely_ask_owner o st : safely (ask_owner o st).
  Proof. unfold ask_owner. safely. Qed.
Lemma safely_schedule_launch a st : safely (schedule_launch configured a st).
  Proof. unfold schedule_launch. safely. Qed.
Lemma safely_supervise t probe a st : safely (supervise configured t probe a st).
  Proof. pose proof safely_ask_owner. pose proof safely_schedule_launch. unfold supervise. safely. Qed.
Lemma safely_supervise_all t probe l st : safely (supervise_all configured t probe l st).
  Proof. pose proof safely_supervise. revert st. induction l as [|a l IH]; intros st; cbn [supervise_all]; safely. Qed.
Lemma safely_schedule_probes l o : safely (schedule_probes l o).
  Proof. unfold schedule_probes, list_all. safely. Qed.

Lemma safely_tick : safely (tick configured uuids operations randbelow lease_ids process_ids).
  Proof.
    pose proof safely_supervise_all. pose proof safely_schedule_probes.
    unfold tick, probe_due. safely.
  Qed.
End control_loop.
