(* ===== verification/Outcomes.v ===== *)
(** What single operations of the controller achieve: creation on every branch and
    its retries, names, the end of a task's attempts, and the launch limit of a
    pass of the control loop. *)

From stdpp Require Import pretty.
From S2P Require Import Prelude OrderedDict Values Proxy Resources GpuMatching Scheduler Ownership Cluster.
From S2P Require Import Connections Lifecycle Artifacts ServiceNetworks Preparation Workers Allocations Pools.
From S2P Require Import Jobs Reconcile Evolution Controller.
Local Open Scope Z_scope.

(** * Running a transaction *)

Lemma bind_ok_inv {A B} (t : txn A) (f : A → txn B) e s b s' :
  (t ≫= f) e s = Ok (b, s') → ∃ a s1, t e s = Ok (a, s1) ∧ f a e s1 = Ok (b, s').
Proof. unfold mbind, txn_bind. destruct (t e s) as [[a s1]|]; [|done]. by exists a, s1. Qed.

Lemma throw_if_inv b k msg e s u s' : throw_if b k msg e s = Ok (u, s') → b = false ∧ s' = s.
Proof. unfold throw_if, lift, raise_if. destruct b; [done|]. by intros [= _ <-]. Qed.

Lemma list_where_elem `{Table A} keep e s (l : list A) s' a :
  list_where keep e s = Ok (l, s') → a ∈ l ↔ keep a = true ∧ ∃ i, value_at s i = Some a.
Proof.
  intros Hl. pose proof (wp_list_where keep (λ l _, ∀ a, a ∈ l ↔ keep a = true ∧ ∃ i, value_at s i = Some a) e s) as Hw.
  apply (wp_ok _ _ _ _ _ _ (Hw (λ _ Hx, Hx)) Hl).
Qed.

Lemma find_value `{Table A} i e s : find (A := A) i e s = Ok (value_at s i, s).
Proof. done. Qed.

Lemma put_inv `{Table A} (a : A) m e s a' s' :
  put a (Some m) e s = Ok (a', s') → a' = a ∧ ∃ l, s' = stored a (now e) l s.
Proof. intros [= <- <-]. split; [done|]. by eexists. Qed.

(** * Creation *)

(** No unreleased allocation holds the name. *)
Definition name_free (name : option string) (s : store) : Prop :=
  ∀ n j b, text name = Some n → value_at s j = Some b → al_released b = false → name_of (al_spec b) ≠ name.

(** An unreleased allocation of the store holds the name. *)
Definition holds_name (n : string) (a : allocation) (s : store) : Prop :=
  value_at s (al_id a) = Some a ∧ named (Some n) a = true.

Section creation.
  Context `{Digests}.

Lemma same_request_new i r only t : same_request (new_allocation i r only t) r = true.
  Proof. unfold same_request. simpl. by apply bool_decide_eq_true_2. Qed.

Lemma create_existing i r (a : allocation) e s :
    value_at s i = Some a →
    create_allocation i r e s =
      if same_request a r then Ok (a, s) else raise FileExistsError "sandbox ID belongs to a different request".
  Proof.
    intros Ha. unfold create_allocation. unfold mbind at 1, txn_bind at 1. rewrite find_value, Ha. unfold mbind, txn_bind.
    by destruct (same_request a r).
  Qed.

Lemma placement_reads p e s only s' : placement p e s = Ok (only, s') → s' = s.
  Proof.
    intros Hp. assert (Hw : wp (placement p) (λ _ s', s' = s) e s) by (unfold placement; reads; done).
    exact (wp_ok _ _ _ _ _ _ Hw Hp).
  Qed.

(** Creation by identity. An identity that is taken answers with its record if
    the request is the same, changing nothing, and is refused otherwise. A new one
    becomes a pending allocation of generation 1, and nothing else changes; its
    name was held by no unreleased allocation; and the same request, repeated at
    any time after, finds the record. *)
Theorem creation_outcomes i r e s :
    match value_at s i with
    | Some a =>
        create_allocation i r e s =
          if same_request a r then Ok (a, s) else raise FileExistsError "sandbox ID belongs to a different request"
    | None => ∀ a s', create_allocation i r e s = Ok (a, s') →
        (∃ only, a = new_allocation i r only (now e)) ∧ value_at s' i = Some a
        ∧ (∀ j, j ≠ i → value_at (A := allocation) s' j = value_at s j)
        ∧ name_free (name_of (cr_spec r)) s
        ∧ ∀ e', create_allocation i r e' s' = Ok (a, s')
    end.
  Proof.
    destruct (value_at (A := allocation) s i) as [a|] eqn:E; [by apply create_existing|]. intros a s' Hc.
    unfold create_allocation in Hc. apply bind_ok_inv in Hc as (old & s1 & Hf & Hc). rewrite find_value, E in Hf. injection Hf as <- <-.
    apply bind_ok_inv in Hc as (image & s1 & Hi & Hc).
    assert (s1 = s) as -> by (destruct (text (cr_reference r)); by injection Hi as _ <-).
    apply bind_ok_inv in Hc as (? & s1 & [_ ->]%throw_if_inv & Hc).
    apply bind_ok_inv in Hc as (holders & s1 & Hl & Hc). assert (s1 = s) as -> by (by injection Hl as _ <-).
    apply bind_ok_inv in Hc as (? & s1 & [Hn ->]%throw_if_inv & Hc).
    apply bind_ok_inv in Hc as (only & s1 & ->%placement_reads & Hc).
    apply bind_ok_inv in Hc as (t & s1 & Ht & Hc). injection Ht as <- <-.
    apply put_inv in Hc as [-> [ev ->]]. set (s' := stored _ _ _ _).
    assert (Hi' : value_at (A := allocation) s' i = Some (new_allocation i r only (now e))).
    { unfold s'. rewrite value_at_stored. by rewrite decide_True. }
    split; [by exists only|]. split; [done|]. split; [|split].
    - intros j Hj. unfold s'. rewrite value_at_stored. by rewrite decide_False.
    - intros n j b Hname Hb Hrel Heq. unfold given in Hn. rewrite Hname in Hn. simpl in Hn. bool_prop.
      assert (Hin : b ∈ holders).
      { apply (list_where_elem _ _ _ _ _ b Hl). split; [|by exists j]. unfold named. rewrite Hrel, Heq. simpl.
        by apply bool_decide_eq_true_2. }
      destruct holders; [by apply elem_of_nil in Hin|done].
    - intros e'. rewrite (create_existing _ _ _ _ _ Hi'). by rewrite same_request_new.
  Qed.
End creation.

(** * Names *)

Lemma resolve_ambiguous n e s (a b : allocation) :
  value_at (A := allocation) s n = None → a ≠ b →
  (∃ i, value_at s i = Some a) → (∃ i, value_at s i = Some b) → named (Some n) a = true → named (Some n) b = true →
  _resolve n e s = raise FileNotFoundError ("sandbox ID or unique name is missing: " ++ n).
Proof.
  intros Hn Hab Ha Hb Hna Hnb. unfold _resolve. unfold mbind at 1, txn_bind at 1. rewrite find_value, Hn.
  unfold mbind, txn_bind. destruct (list_where (named (Some n)) e s) as [[l s1]|x] eqn:Hl; [|done].
  pose proof (list_where_elem _ _ _ _ _ a Hl) as Hla. pose proof (list_where_elem _ _ _ _ _ b Hl) as Hlb.
  assert (s1 = s) as -> by (by injection Hl as _ <-).
  destruct l as [|x [|y l]]; [done| |done].
  assert (Hax : a ∈ [x]) by (by apply Hla). assert (Hbx : b ∈ [x]) by (by apply Hlb).
  apply list_elem_of_singleton in Hax, Hbx. congruence.
Qed.

(** A deletion can hide a running sandbox's name. While a sandbox holds a name,
    an ended one that held it before may be deleted; its record counts as not
    released until its files are gone, and until then the name finds neither. *)
Theorem deletion_hides_name n (a b : allocation) e s :
  value_at (A := allocation) s n = None →
  holds_name n a s →
  value_at s (al_id b) = Some b → name_of (al_spec b) = Some n → al_released b = true →
  given (al_worker b) = true → al_delete_requested b = false →
  ∃ b' s', allocation_delete (al_id b) e s = Ok (b', s')
    ∧ holds_name n a s'
    ∧ _resolve n e s' = raise FileNotFoundError ("sandbox ID or unique name is missing: " ++ n).
Proof.
  intros Hn [Ha Hna] Hb Hnb Hrel Hw Hd.
  assert (Hne : al_id b ≠ al_id a).
  { intros E. rewrite E, Ha in Hb. injection Hb as <-. unfold named in Hna. by rewrite Hrel in Hna. }
  assert (Hnn : al_id b ≠ n) by (intros E; by rewrite E, Hn in Hb).
  unfold allocation_delete. unfold mbind, txn_bind. unfold _resolve at 1. unfold mbind at 1, txn_bind at 1.
  rewrite find_value, Hb. cbv [mret txn_ret]. rewrite Hd. simpl. rewrite Hw.
  set (b' := b <| al_delete_requested := true |> <| al_deletion_pending := true |> <| al_desired := "terminated"%string |>
               <| al_released := false |> <| al_generation := al_generation b + 1 |>).
  assert (Hput : ∃ ev, put b' (Some "deletion requested"%string) e s = Ok (b', stored b' (now e) ev s)) by (by eexists).
  destruct Hput as [ev Hput]. exists b', (stored b' (now e) ev s). split; [exact Hput|]. split.
  - split; [|done]. rewrite value_at_stored. by rewrite decide_False.
  - apply (resolve_ambiguous n e _ a b').
    + rewrite value_at_stored. by rewrite decide_False.
    + intros E. apply Hne. by rewrite E.
    + exists (al_id a). rewrite value_at_stored. by rewrite decide_False.
    + exists (al_id b). rewrite value_at_stored. by rewrite decide_True.
    + done.
    + unfold named, b'. simpl. by apply bool_decide_eq_true_2.
Qed.

(** * The attempts of a task *)

(** The reports of a task's attempts, each committed while the task is open, with
    any other activity of the controller in between. *)
Inductive reports (i : string) : nat → store → store → Prop :=
  | no_report s s' : good s s' → reports i 0 s s'
  | one_report n s s1 t o e s2 s' :
      good s s1 → value_at s1 i = Some t → task_done t = false → Jobs._finish i o e s1 = Ok ((), s2) →
      reports i n s2 s' → reports i (S n) s s'.

Lemma cancel_tasks i e s : wp (allocation_cancel i) (λ _ s', st_tasks s' = st_tasks s) e s.
Proof.
  unfold allocation_cancel. apply wp_bind. eapply (wp_mono _ (λ _ s', s' = s)).
  - unfold _resolve. apply wp_bind, wp_find. destruct (value_at s i); [done|]. apply wp_bind, wp_list_where. intros l _.
    destruct l as [|a [|b l]]; [done|by apply wp_get|done].
  - intros a s' ->. destruct (bool_decide _); [done|]. by apply wp_put.
Qed.

Lemma pool_release_tasks i l e s : wp (pool_release i l) (λ _ s', st_tasks s' = st_tasks s) e s.
Proof.
  unfold pool_release. apply wp_bind. eapply wp_mono; [apply resolve_pool_reads|]. intros p s' ->.
  apply wp_bind, wp_get. intros r _. apply wp_bind, wp_throw_if. intros _. apply wp_bind.
  eapply (wp_mono _ (λ _ s', st_tasks s' = st_tasks s)).
  - destruct (text (le_sandbox r)); [|done]. apply wp_bind. eapply wp_mono; [apply cancel_tasks|]. by intros a s' E.
  - intros [] s' E. apply wp_when; intros _; [|done]. apply wp_save. by intros ev.
Qed.

Lemma finish_moves i o e s s' (t : task) (j : job) :
  wf s → value_at s i = Some t → value_at s (ta_parent t) = Some j → task_done t = false →
  jr_every (jo_request j) = None → Jobs._finish i o e s = Ok ((), s') →
  ∃ t' : task, value_at s' i = Some t' ∧
    (task_done t' = true ∨ (ta_attempt t' = ta_attempt t + 1 ∧ ta_attempt t < jr_retries (jo_request j))).
Proof.
  intros Hw Ht Hj Hd He Hf. assert (Hi : ta_id t = i) by apply (wf_task s Hw _ _ Ht). unfold Jobs._finish in Hf.
  apply bind_ok_inv in Hf as (t0 & s1 & Hg & Hf). unfold get in Hg. unfold value_at in Ht.
  destruct (rows s !! i) as [r|] eqn:Er; [|done]. injection Ht as Et. injection Hg as <- <-. rewrite Et in Hf.
  rewrite Hd in Hf. apply bind_ok_inv in Hf as (j0 & s1 & Hg & Hf). unfold get in Hg. unfold value_at in Hj.
  destruct (rows s !! ta_parent t) as [rj|] eqn:Ej; [|done]. injection Hj as Ej'. injection Hg as <- <-. rewrite Ej' in Hf.
  apply bind_ok_inv in Hf as (u & s1 & Ha & Hf). apply bind_ok_inv in Hf as (c & s2 & Hc & Hf). injection Hc as <- <-.
  cbv zeta in Hf. apply bind_ok_inv in Hf as (u' & s2 & Hs & Hf). unfold save in Hs.
  apply bind_ok_inv in Hs as (next & s3 & Hp & Hs). injection Hs as _ <-. apply put_inv in Hp as [-> [ev ->]].
  set (next := if retries j t o || repeating j then _ else _) in *.
  set (s2 := stored next _ _ _) in *.
  assert (Hnext : value_at s2 i = Some next).
  { unfold s2. rewrite value_at_stored, decide_True; [done|]. unfold next. rewrite <- Hi. by destruct (_ || _). }
  assert (Hrel : wp (match ta_lease t with Some l => pool_release (jo_pool j) l | None => throw KeyError "lease" end)
                    (λ _ s', st_tasks s' = st_tasks s2) e s2).
  { destruct (ta_lease t) as [l|]; [|apply wp_throw]. apply pool_release_tasks. }
  pose proof (wp_ok _ _ _ _ _ _ Hrel Hf) as Htasks. simpl in Htasks.
  exists next. split; [unfold value_at; simpl; by rewrite Htasks|].
  unfold next. destruct (retries j t o || repeating j) eqn:Ec; simpl.
  - right. split; [done|]. unfold retries, repeating in Ec. rewrite He in Ec. simpl in Ec. bool_prop. lia.
  - left. unfold task_done. simpl. by destruct (_ =? _).
Qed.

(** A task that ended reports nothing more. *)
Lemma reports_done i n s s' (t : task) :
  reports i n s s' → wf s → value_at s i = Some t → task_done t = true → n = 0%nat.
Proof.
  intros [s0 s0' _|m s0 s1 t1 o e s2 s0' Hg Ht1 Hd _ _] Hw Ht Hdone; [done|].
  destruct (Hg Hw) as [_ [_ _ Et _]]. destruct (Et i t Ht) as (t' & Ht' & (_ & _ & _ & _ & Hend)).
  rewrite Ht1 in Ht'. injection Ht' as <-. destruct (Hend Hdone) as [Es _]. unfold task_done in Hd, Hdone. by rewrite Es, Hdone in Hd.
Qed.

(** C11: a task's attempts end. Whatever else happens between them, a task of a job
    that does not repeat reports at most one outcome more than it has retries left;
    after the last of them it has ended. *)
Theorem task_reports_end i n s s' (t : task) (j : job) :
  wf s → value_at s i = Some t → value_at s (ta_parent t) = Some j → jr_every (jo_request j) = None →
  reports i n s s' → Z.of_nat n ≤ Z.max 0 (jr_retries (jo_request j)) - ta_attempt t + 1.
Proof.
  intros Hw Ht Hj He Hr. revert t j Hw Ht Hj He.
  induction Hr as [s s' _|n s s1 t1 o e s2 s' Hg Ht1 Hd Hf Hr IH]; intros t j Hw Ht Hj He.
  - pose proof (wf_attempts s Hw i t j Ht Hj He). lia.
  - destruct (Hg Hw) as [Hw1 [_ _ Et Ej]].
    destruct (Et i t Ht) as (t1' & Ht1' & (_ & Ep & _ & Ha & Hend)). rewrite Ht1 in Ht1'. injection Ht1' as <-.
    destruct (Ej _ j Hj) as (j1 & Hj1 & (_ & _ & Eq & _ & _)). rewrite <- Ep in Hj1. rewrite <- Eq in He |- *.
    destruct (finish_moves i o e s1 s2 t1 j1 Hw1 Ht1 Hj1 Hd He Hf) as (t2 & Ht2 & Hcase).
    assert (Hg2 : good s1 s2) by exact (wp_ok _ _ _ _ _ _ (keeps_finish i o e s1) Hf).
    destruct (Hg2 Hw1) as [Hw2 [_ _ Et2 Ej2]].
    destruct (Et2 i t1 Ht1) as (t2' & Ht2' & (_ & Ep2 & _ & Ha2 & _)). rewrite Ht2 in Ht2'. injection Ht2' as <-.
    destruct (Ej2 _ j1 Hj1) as (j2 & Hj2 & (_ & _ & Eq2 & _ & _)). rewrite <- Ep2 in Hj2.
    destruct Hcase as [Hdone|[Hatt Hlt]].
    + pose proof (wf_attempts s1 Hw1 i t1 j1 Ht1 Hj1 He). pose proof (reports_done i n s2 s' t2 Hr Hw2 Ht2 Hdone). lia.
    + rewrite <- Eq2 in He. specialize (IH t2 j2 Hw2 Ht2 Hj2 He). rewrite Eq2 in IH. lia.
Qed.

(** * The launch limit *)

(** The launches a pass asks for, in order: the memory and the worker's record at
    each question, and whether a new launch was granted. *)
Fixpoint admissions (configured : option Z) (ls : launches) (l : list (volatile * option worker * allocation))
    : list (allocation * bool) * launches :=
  match l with
  | [] => ([], ls)
  | (v, w, a) :: l =>
      let '(yes, ls1) := admitted configured v (λ _, w) ls a in
      let '(rest, ls2) := admissions configured ls1 l in
      ((a, yes && negb (launching v (al_id a))) :: rest, ls2)
  end.
Definition granted_to (w : string) (l : list (allocation * bool)) : Z :=
  Z.of_nat (length (filter (λ x : allocation * bool, x.2 = true ∧ worker_of x.1 = w) l)).

(** One question: a grant counts once, and a worker's limit is that of its record. *)
Lemma admitted_spec configured v w ls a yes ls' :
  admitted configured v (λ _, w) ls a = (yes, ls') →
  let new := yes && negb (launching v (al_id a)) in
  (∀ i, starting_of ls' i = starting_of ls i + (if new && bool_decide (worker_of a = i) then 1 else 0))
  ∧ (∀ i, ls_limits ls' !! i = ls_limits ls !! i
          ∨ (i = worker_of a ∧ ls_limits ls !! i = None ∧ ls_limits ls' !! i = Some (starting_limit w configured)))
  ∧ (new = true → ∃ n, ls_limits ls' !! worker_of a = Some n ∧ starting_of ls (worker_of a) < n).
Proof.
  unfold admitted. destruct (launching v (al_id a)) eqn:El.
  { intros [= <- <-]. cbv zeta. simpl. split; [intros i; lia|]. split; [by left|done]. }
  set (i0 := worker_of a). set (ls1 := match ls_limits ls !! i0 with Some _ => ls | None => _ end).
  assert (Hl : ∀ i, ls_limits ls1 !! i = ls_limits ls !! i
    ∨ (i = i0 ∧ ls_limits ls !! i = None ∧ ls_limits ls1 !! i = Some (starting_limit w configured))).
  { intros i. unfold ls1. destruct (ls_limits ls !! i0) eqn:E; [by left|]. simpl.
    destruct (decide (i = i0)) as [->|]; [right; by rewrite lookup_insert_eq|left; by rewrite lookup_insert_ne]. }
  assert (Hs : ls_starting ls1 = ls_starting ls) by (unfold ls1; by destruct (ls_limits ls !! i0)).
  assert (Hk : ∃ n, ls_limits ls1 !! i0 = Some n).
  { unfold ls1. destruct (ls_limits ls !! i0) as [n|] eqn:E; [by exists n|]. simpl. rewrite lookup_insert_eq. by eexists. }
  destruct Hk as [n Hn]. cbv zeta. fold i0 ls1. rewrite Hn. simpl. destruct (n <=? starting_of ls1 i0) eqn:Ele.
  - intros [= <- <-]. simpl. split; [|split; [done|done]]. intros i. unfold starting_of. rewrite Hs. lia.
  - intros [= <- <-]. simpl. split; [|split; [done|]].
    + intros i. unfold starting_of. simpl. destruct (decide (i0 = i)) as [<-|].
      * rewrite lookup_insert_eq, Hs. simpl. by rewrite bool_decide_eq_true_2.
      * rewrite lookup_insert_ne, Hs by done. rewrite bool_decide_eq_false_2 by done. lia.
    + intros _. exists n. split; [done|]. apply Z.leb_gt in Ele. unfold starting_of in *. by rewrite Hs in Ele.
Qed.

Lemma granted_cons w a b l : granted_to w ((a, b) :: l) = (if b && bool_decide (worker_of a = w) then 1 else 0) + granted_to w l.
Proof.
  unfold granted_to. rewrite filter_cons. cbn [fst snd]. destruct b; cbn [andb].
  - destruct (decide (worker_of a = w)) as [E|E].
    + rewrite decide_True, bool_decide_eq_true_2 by done. cbn [length]. lia.
    + rewrite decide_False, bool_decide_eq_false_2 by naive_solver. lia.
  - rewrite decide_False by naive_solver. lia.
Qed.

(** Launches stay within the limit. In a pass of the control loop, however the
    launches in progress change during it, the counter of a worker is what it was
    plus the launches granted to it; launches are granted only below the limit of
    the worker's record, so the counter ends within it unless it began above. *)
Theorem launch_limit configured l ls rs ls' i :
  ls_limits ls = ∅ → admissions configured ls l = (rs, ls') →
  starting_of ls' i = starting_of ls i + granted_to i rs
  ∧ (0 < granted_to i rs → ∃ v w a, (v, w, a) ∈ l ∧ worker_of a = i ∧ starting_of ls' i ≤ starting_limit w configured).
Proof.
  intros He. assert (Hgen : ∀ P : Z → Prop, (∀ n, ls_limits ls !! i = Some n → P n) →
    (∀ v w a, (v, w, a) ∈ l → worker_of a = i → P (starting_limit w configured)) →
    admissions configured ls l = (rs, ls') →
    starting_of ls' i = starting_of ls i + granted_to i rs
    ∧ (0 < granted_to i rs → ∃ n, P n ∧ starting_of ls' i ≤ n)).
  { clear He. revert ls rs. induction l as [|[[v w] a] l IH]; intros ls rs P HP Hl Ha; cbn [admissions] in Ha.
    { injection Ha as <- <-. unfold granted_to. simpl. split; lia. }
    destruct (admitted configured v (λ _, w) ls a) as [yes ls1] eqn:E1.
    destruct (admissions configured ls1 l) as [rest ls2] eqn:E2. injection Ha as <- <-.
    apply admitted_spec in E1 as (Hs & Hlim & Hnew). set (new := yes && _) in *.
    assert (HP1 : ∀ n, ls_limits ls1 !! i = Some n → P n).
    { intros n Hn. destruct (Hlim i) as [E|(-> & _ & E)]; [apply HP; congruence|].
      rewrite E in Hn. injection Hn as <-. by apply (Hl v w a); [left|]. }
    destruct (IH ls1 rest P HP1) as [IH1 IH2]; [intros ???? ; eapply Hl; by right|done|].
    rewrite granted_cons. rewrite IH1, (Hs i). split; [lia|]. intros Hpos.
    destruct (decide (0 < granted_to i rest)) as [Hr|Hr].
    { destruct (IH2 Hr) as (n & Hn & Hle). exists n. split; [done|]. rewrite IH1, (Hs i) in Hle. lia. }
    assert (Hz : granted_to i rest = 0) by (unfold granted_to in *; lia).
    destruct (new && bool_decide (worker_of a = i)) eqn:En; [|lia]. bool_prop.
    destruct (Hnew ltac:(done)) as (n & Hn & Hlt). subst i. exists n. split; [by apply HP1|]. rewrite Hz. lia. }
  intros Ha. destruct (Hgen (λ n, ∃ v w a, (v, w, a) ∈ l ∧ worker_of a = i ∧ n = starting_limit w configured)) as [H1 H2].
  - intros n Hn. by rewrite He, lookup_empty in Hn.
  - intros v w a Hin Hw. by exists v, w, a.
  - done.
  - split; [done|]. intros Hp. destruct (H2 Hp) as (n & (v & w & a & ? & ? & ->) & ?). by exists v, w, a.
Qed.

(** * Examples *)

#[local] Instance ex_digests : Digests :=
  {| stamp_of c := default "" (cr_operation c); canonical_of c := default "" (cr_operation c);
     worker_identity h w := h ++ ":" ++ w |}%string.
Definition ex_named (identity : string) : allocation :=
  new_allocation identity
    (Creation (Spec ((ex_fields None) <| f_name := Some "n"%string |>) []) None None None false None) None 0.
Definition ex_running : allocation := (ex_named "a") <| al_state := "ready"%string |>.
Definition ex_ended : allocation :=
  (ex_named "b") <| al_state := "terminated"%string |> <| al_desired := "terminated"%string |>
                 <| al_worker := Some "w"%string |> <| al_released := true |>.
Definition ex_empty : store := Store ∅ ∅ ∅ ∅ ∅ ∅ ∅ ∅ ∅ ∅ [].
Definition ex_names : store := stored ex_running 1 [] (stored ex_ended 0 [] ex_empty).
Definition ex_now : env := Env 5 (λ _, Ok None) (λ _, Ok None).

Lemma deletion_hides_name_witness : ∃ b' s',
  (∃ a, _resolve "n"%string ex_now ex_names = Ok (a, ex_names))
  ∧ allocation_delete "b"%string ex_now ex_names = Ok (b', s')
  ∧ ∃ x, _resolve "n"%string ex_now s' = Err x.
Proof.
  destruct (deletion_hides_name "n" ex_running ex_ended ex_now ex_names) as (b' & s' & Hd & _ & Hr);
    [by vm_compute..|].
  exists b', s'. split; [eexists; vm_compute; reflexivity|]. split; [exact Hd|]. eexists. exact Hr.
Defined.

(** One retry: the first attempt fails with a listed code, the second succeeds. *)
Definition ex_job_record : job :=
  Job "j" "running" "p" None false (JobRequest "run" [] [] 1 [3] false None (VInt 1000) None) None.
Definition ex_open_task : task := Task "j-0" "j" 0 Null "running" 0 0 (Some "l"%string) None None None None.
Definition ex_pool_record : pool :=
  Pool "p" "ready" "running" None None (Creation (Spec (ex_fields None) []) None None None false None)
    (PoolPolicy 1 0 (VInt 1) 0 [] "spread" None) None true None None None None None false None None.
Definition ex_tasks : store :=
  stored ex_open_task 0 [] (stored ex_job_record 0 [] (stored (PoolLease "l" "p" "released" None None None None) 0 []
    (stored ex_pool_record 0 [] ex_empty))).
Definition ex_outcome : outcome := Outcome (Some "application"%string) None 3 [] [] false false.
Definition ex_after : store := match Jobs._finish "j-0" ex_outcome ex_now ex_tasks with Ok (_, s) => s | Err _ => ex_tasks end.

Lemma ex_tasks_wf : wf ex_tasks.
Proof.
  assert (Ea : ∀ i, value_at (A := allocation) ex_tasks i = None) by (intros i; unfold value_at; simpl; by rewrite lookup_empty).
  assert (Et : ∀ i, value_at (A := task) ex_tasks i = if decide ("j-0"%string = i) then Some ex_open_task else None).
  { intros i. unfold ex_tasks. rewrite value_at_stored. simpl. destruct (decide _); [done|]. unfold value_at. simpl. by rewrite lookup_empty. }
  assert (Ej : ∀ i, value_at (A := job) ex_tasks i = if decide ("j"%string = i) then Some ex_job_record else None).
  { intros i. change (value_at (A := job) ex_tasks i) with (value_at (A := job) (stored ex_job_record 0 [] ex_empty) i).
    rewrite value_at_stored. simpl. destruct (decide _); [done|]. unfold value_at. simpl. by rewrite lookup_empty. }
  assert (El : ∀ i, value_at (A := pool_lease) ex_tasks i
    = if decide ("l"%string = i) then Some (PoolLease "l" "p" "released" None None None None) else None).
  { intros i. change (value_at (A := pool_lease) ex_tasks i)
      with (value_at (A := pool_lease) (stored (PoolLease "l" "p" "released" None None None None) 0 [] ex_empty) i).
    rewrite value_at_stored. simpl. destruct (decide _); [done|]. unfold value_at. simpl. by rewrite lookup_empty. }
  split; intros i r; rewrite ?Ea, ?Et, ?Ej, ?El; try done; destruct (decide _) as [<-|]; try done.
  - by intros [= <-].
  - by intros [= <-].
  - intros [= <-]. split; [done|]. split; [by exists 0%nat|]. exists ex_job_record. done.
  - intros j [= <-] _ _. simpl. lia.
  - by intros [= <-].
  - by intros [= <-].
Qed.

Lemma task_reports_end_witness : Z.of_nat 1 ≤ 2 ∧ reports "j-0" 1 ex_tasks ex_after.
Proof.
  assert (Hr : reports "j-0" 1 ex_tasks ex_after).
  { apply (one_report _ 0 ex_tasks ex_tasks ex_open_task ex_outcome ex_now ex_after); [reflexivity|by vm_compute..|].
    by apply no_report. }
  split; [|exact Hr].
  exact (task_reports_end "j-0" 1 ex_tasks ex_after ex_open_task ex_job_record ex_tasks_wf eq_refl eq_refl eq_refl Hr).
Defined.

Definition ex_volatile : volatile :=
  Volatile (Connections [] false) false [] ∅ ∅ 0 (Preparation ∅ [] ∅) (λ _, None).
Definition ex_questions : list (volatile * option worker * allocation) :=
  map (λ i : string, (ex_volatile, None, (ex_named i) <| al_worker := Some "w"%string |>)) ["a"; "b"; "c"]%string.

Lemma ex_grants : granted_to "w" (admissions (Some 2) (Launches ∅ ∅) ex_questions).1 = 2.
Proof. by vm_compute. Qed.

Lemma launch_limit_witness : ∃ rs ls',
  admissions (Some 2) (Launches ∅ ∅) ex_questions = (rs, ls') ∧ granted_to "w" rs = 2 ∧ starting_of ls' "w" = 2.
Proof.
  destruct (admissions (Some 2) (Launches ∅ ∅) ex_questions) as [rs ls'] eqn:E. exists rs, ls'.
  assert (Hg : granted_to "w" rs = 2).
  { pose proof ex_grants as Hc. by rewrite E in Hc. }
  split; [done|]. split; [exact Hg|]. destruct (launch_limit (Some 2) ex_questions (Launches ∅ ∅) _ _ "w" eq_refl E) as [-> _]. by rewrite Hg.
Defined.
