(* ===== verification/System.v ===== *)
(** The controller as one system ([weave/controller.py], [dispatch], [status],
    [start]): the client operations, the lifecycles and the control loop are the
    programs that may start, in any order and number, each advancing one
    transaction or reply at a time. The theorems hold of every such execution. *)

From stdpp Require Import pretty.
From S2P Require Import Prelude OrderedDict Values Proxy Resources GpuMatching Scheduler Ownership Cluster.
From S2P Require Import Connections Lifecycle Artifacts ServiceNetworks Preparation Workers Allocations Pools.
From S2P Require Import Jobs Reconcile Evolution Controller Outcomes.
Local Open Scope Z_scope.

(** * Reports *)

Fixpoint collect_all {A B} (f : A → prog B) (l : list A) : prog (list B) :=
  match l with
  | [] => mret []
  | x :: l => y ← f x; ys ← collect_all f l; mret (y :: ys)
  end.

(** [jobs.status] *)
Record job_report := JobReport { rp_job : job; rp_tasks : list task; rp_succeeded : Z; rp_failed : Z }.
Definition in_state_of (s : string) (t : task) : bool := bool_decide (ta_state t = s).
Definition job_report_of (identity : string) : prog job_report :=
  j ← atomic (get (A := job) identity);
  tasks ← atomic (list_where (task_of identity));
  mret (JobReport j tasks (Pools.count (in_state_of "succeeded") tasks) (Pools.count (in_state_of "failed") tasks)).

(** The route of a task's lease, once it is ready. *)
Definition task_route (t : task) : prog (list route) :=
  l ← atomic (find (A := pool_lease) (default ""%string (ta_lease t)));
  match l with
  | Some l => if lease_state "ready" l
              then match le_sandbox l with
                   | Some b => r ← allocation_route b; mret [r]
                   | None => fails FileNotFoundError "sandbox"
                   end
              else mret []
  | None => mret []
  end.

(** [job_status]: an owned job also lists the routes its owner renews. *)
Definition job_status (identity : string) : prog (job_report * list route) :=
  report ← job_report_of identity;
  j ← atomic (get (A := job) identity);
  routes ← (if given (jo_owner j)
            then tasks ← atomic (list_where (task_of identity)); collect_all task_route tasks
            else mret []);
  mret (report, concat routes).

(** The routes of [Controller.owner_heartbeat]. *)
Definition heartbeat_routes (identity : string) : prog (list route) :=
  held ← atomic (list_where (λ a : allocation, bool_decide (al_owner a = Some identity) && negb (al_released a)));
  collect_all (λ a, reads (λ _ v, _route v a)) (filter (λ a, Is_true (given (al_token a))) held).

(** [STATUS_ENDED] *)
Definition STATUS_ENDED : nat := 50.

Record cluster_status := ClusterStatus {
  cs_workers : list worker; cs_sandboxes : list allocation; cs_omitted : Z;
  cs_pools : list pool_status; cs_jobs : list job_report }.

(** The ended allocations, the latest first. *)
Definition latest_first (l : list (row allocation)) : list (row allocation) :=
  sort_by (λ a b, row_updated b <? row_updated a) l.

(** [Controller.status] *)
Definition cluster_report : prog cluster_status :=
  ended ← atomic (list_stored (A := allocation) al_released);
  live ← atomic (list_where (λ a : allocation, negb (al_released a)));
  recent ← collect_all (λ r, atomic (get (A := allocation) (al_id (row_value r)))) (take STATUS_ENDED (latest_first ended));
  workers ← atomic (list_all (A := worker));
  pools ← atomic (list_all (A := pool));
  pools ← collect_all (λ p, atomic (status (po_id p))) pools;
  jobs ← atomic (list_all (A := job));
  jobs ← collect_all (λ j, job_report_of (jo_id j)) jobs;
  mret (ClusterStatus workers (live ++ recent) (Z.max 0 (Z.of_nat (length ended) - Z.of_nat STATUS_ENDED)) pools jobs).

(** * Operations *)

(** The operations of [Controller.dispatch], with those of the pools, jobs,
    snapshots and networks it forwards to. *)
Inductive operation :=
  | Op_create (identity : string) (r : creation)
  | Op_allocation_get (identity : string)
  | Op_allocation_route (identity : string)
  | Op_allocation_ack (identity : string)
  | Op_allocation_cancel (identity : string)
  | Op_allocation_delete (identity : string)
  | Op_worker_add (c : connection) (t : target) (o : worker_options)
  | Op_worker_get (identity : string)
  | Op_worker_list
  | Op_worker_update (identity : string) (ch : worker_changes)
  | Op_owner_heartbeat (identity : string)
  | Op_owner_routes (identity : string) (sandboxes : list string)
  | Op_status
  | Op_sandbox_rpc {R : Type} (identity : string) (q : rpc R)
  | Op_pool_create (q : pool_request)
  | Op_pool_status (identity : string)
  | Op_pool_update (identity : string) (c : pool_changes)
  | Op_pool_close (identity : string)
  | Op_pool_checkout (identity lease_id : string) (owner : option string)
  | Op_pool_lease (identity lease_id : string)
  | Op_pool_release (identity lease_id : string)
  | Op_job_create (q : job_params)
  | Op_job_status (identity : string)
  | Op_job_cancel (identity : string)
  | Op_job_results (identity : string)
  | Op_snapshot_alias (key : string)
  | Op_snapshot_register (identity reference : string) (key : option string) (expected : option (option string))
  | Op_snapshot_spec (reference : string)
  | Op_snapshot {R : Type} (reference : string) (q : string → rpc R)
  | Op_service_network (op : network_operation) (identity : string).

Definition ignoring {A} (p : prog A) : prog () := _ ← p; mret ().

Section system.
  Context `{Digests} (cluster : string) (attach : worker → prog connection) (configured : option Z).

(** [Controller.dispatch], results apart. *)
Definition dispatch (o : operation) : prog () :=
  match o with
  | Op_create i r => ignoring (atomic (create i r))
  | Op_allocation_get i => ignoring (atomic (_resolve i))
  | Op_allocation_route i => ignoring (allocation_route i)
  | Op_allocation_ack i => ignoring (allocation_ack i)
  | Op_allocation_cancel i => ignoring (atomic (allocation_cancel i))
  | Op_allocation_delete i => ignoring (atomic (allocation_delete i))
  | Op_worker_add c t o => ignoring (worker_add cluster c t o)
  | Op_worker_get i => ignoring (atomic (get (A := worker) i))
  | Op_worker_list => ignoring (atomic (list_all (A := worker)))
  | Op_worker_update i ch => ignoring (worker_update i ch)
  | Op_owner_heartbeat i => ignoring (heartbeat_routes i)
  | Op_owner_routes i l => atomic (owner_routes i l)
  | Op_status => ignoring cluster_report
  | Op_sandbox_rpc i q => ignoring (sandbox_rpc i q)
  | Op_pool_create q => _ ← pool_create q; ignoring (atomic (status (pq_identity q)))
  | Op_pool_status i => ignoring (atomic (status i))
  | Op_pool_update i c => _ ← atomic (pool_update i c); ignoring (atomic (status i))
  | Op_pool_close i => _ ← atomic (pool_close i); ignoring (atomic (status i))
  | Op_pool_checkout i l o => _ ← atomic (pool_checkout i l o); ignoring (lease_status i l)
  | Op_pool_lease i l => ignoring (lease_status i l)
  | Op_pool_release i l => atomic (pool_release i l)
  | Op_job_create q => _ ← job_create q; ignoring (job_report_of (jp_identity q))
  | Op_job_status i => ignoring (job_status i)
  | Op_job_cancel i => _ ← atomic (job_cancel i); ignoring (job_report_of i)
  | Op_job_results i => ignoring (atomic (job_results i))
  | Op_snapshot_alias k => ignoring (snapshot_alias k)
  | Op_snapshot_register i r k x =>
      a ← atomic (_resolve i);
      match al_endpoint a with
      | Some e => ignoring (snapshot_register r e k x)
      | None => fails TypeError "endpoint"
      end
  | Op_snapshot_spec r => ignoring (snapshot_definition r)
  | Op_snapshot r q => ignoring (dispatch_snapshot r q)
  | Op_service_network op i => ignoring (dispatch_network op i)
  end.

(** What may start: an operation of a client, a lifecycle, a pass of the control
    loop. A lease has an identity, as its storage demands. *)
Inductive starts : prog () → Prop :=
  | starts_operation o : (∀ i l w, o = Op_pool_checkout i l w → l ≠ ""%string) → starts (dispatch o)
  | starts_lifecycle w : starts (body cluster attach w)
  | starts_tick uuids operations randbelow lease_ids process_ids :
      (∀ i, lease_ids i ≠ ""%string) →
      starts (tick configured uuids operations randbelow lease_ids process_ids).
End system.

(** * Answers of another generation *)

Lemma get_stored {A} `{Table A} i (a : A) e s : value_at s i = Some a → get i e s = Ok (a, s).
Proof. unfold value_at, get. destruct (rows s !! i); [by intros [= ->]|done]. Qed.

Lemma bind_stored {A B} `{Table A} i (a : A) (f : A → txn B) e s :
  value_at s i = Some a → (a ← get i; f a) e s = f a e s.
Proof. intros Ha. unfold mbind, txn_bind. by rewrite (get_stored _ _ _ _ Ha). Qed.

Lemma stale_generation i g (a : allocation) e s :
  value_at s i = Some a → al_generation a ≠ g →
  (∀ r, commit_launch i g r e s = Ok ((), s)) ∧ (∀ x, launch_failed i g x e s = Ok ((), s))
  ∧ (∀ f, commit_observation i g f e s = Ok ((), s)) ∧ (∀ x, _uncertain i x g e s = Ok ((), s))
  ∧ (∀ d r route, commit_termination i g d r route e s = Ok ((), s))
  ∧ (∀ r route, deletion_begun i g r route e s = Ok (false, s))
  ∧ (∀ l (m : pool_lease), value_at s l = Some m →
       (∀ r, commit_claim l i g r e s = Ok ((), s)) ∧ (∀ x, claim_failed l i g x e s = Ok ((), s))).
Proof.
  intros Ha Hg%Z.eqb_neq.
  assert (Hget : ∀ B (f : allocation → txn B), (a ← get (A := allocation) i; f a) e s = f a e s).
  { intros B f. by apply bind_stored. }
  unfold commit_launch, launch_failed, commit_observation, _uncertain, commit_termination, deletion_begun.
  repeat split; intros; rewrite ?Hget, ?Hg; try done.
  all: unfold commit_claim, claim_failed, claim_current.
  all: erewrite bind_stored by eassumption; by rewrite Hget, Hg.
Qed.

(** * Every program is safe *)

Lemma safely_collect_all {A B} (f : A → prog B) l : (∀ x, safely (f x)) → safely (collect_all f l).
Proof. intros Hf. induction l as [|x l IH]; cbn [collect_all]; safely. Qed.
Lemma keeps_status i : keeps (status i).
Proof. unfold status. keeps. Qed.
Lemma keeps_resolve i : keeps (_resolve i).
Proof. unfold _resolve. keeps. Qed.
#[export] Hint Resolve safely_collect_all keeps_status keeps_resolve : safely keeps.
Lemma keeps_list_all `{Table A} : keeps (list_all (A := A)).
Proof. unfold list_all. keeps. Qed.
#[export] Hint Resolve keeps_list_all : keeps.

Lemma safely_job_report i : safely (job_report_of i).
Proof. unfold job_report_of. safely. Qed.
Lemma safely_task_route t : safely (task_route t).
Proof. unfold task_route. safely. Qed.
#[export] Hint Resolve safely_job_report safely_task_route : safely.
Lemma safely_job_status i : safely (job_status i).
Proof. unfold job_status. safely. Qed.
Lemma safely_heartbeat i : safely (heartbeat_routes i).
Proof. unfold heartbeat_routes. apply safe_bind; [safely|]. intros l. apply safely_collect_all. safely. Qed.
Lemma safely_report : safely cluster_report.
Proof. unfold cluster_report. repeat (apply safe_bind; [try apply safely_collect_all; safely|intros ?]). safely. Qed.
#[export] Hint Resolve safely_job_status safely_heartbeat safely_report : safely.

Lemma safely_ignoring {A} (p : prog A) : safely p → safely (ignoring p).
Proof. unfold ignoring. intros Hp. safely. Qed.

Section safety.
  Context `{Digests} (cluster : string) (attach : worker → prog connection) (configured : option Z).
  Context (Hattach : ∀ w, safely (attach w)).

Lemma safely_allocation_ack i : safely (allocation_ack i).
  Proof. unfold allocation_ack. safely. Qed.
Lemma safely_sandbox_rpc {R} i (q : rpc R) : safely (sandbox_rpc i q).
  Proof. unfold sandbox_rpc. safely. Qed.
Lemma safely_snapshot_definition r : safely (snapshot_definition r).
  Proof. unfold snapshot_definition. safely. Qed.

Lemma safely_dispatch o : (∀ i l w, o = Op_pool_checkout i l w → l ≠ ""%string) → safely (dispatch cluster o).
  Proof.
    intros Hl. pose proof safely_allocation_ack. pose proof @safely_sandbox_rpc. pose proof safely_snapshot_definition.
    pose proof safely_worker_add. pose proof safely_worker_update.
    destruct o; cbn [dispatch]; try apply safely_ignoring; try (specialize (Hl _ _ _ eq_refl)); safely.
    all: try apply safely_ignoring; try unfold snapshot_register, snapshot_alias; safely.
  Qed.

Lemma safely_starts p : starts cluster attach configured p → safely p.
  Proof.
    intros [o Ho|w|uuids operations randbelow lease_ids process_ids Hl].
    - by apply safely_dispatch.
    - by apply safely_body.
    - by apply safely_tick.
  Qed.

(** Executions from an empty store, with any number of restarts. *)
Definition initial : store := Store ∅ ∅ ∅ ∅ ∅ ∅ ∅ ∅ ∅ ∅ [].
Definition follows (c c' : running) : Prop := interleaved (starts cluster attach configured) c c'.
Definition reachable (c : running) : Prop := ∃ v, follows (Running [] initial v) c.

Lemma wf_initial : wf initial.
  Proof. split; intros i r; unfold value_at; simpl; by rewrite lookup_empty. Qed.

Lemma survives_good s s' : survives s s' → good s s'.
  Proof. intros (w & l & ->). by apply good_agree. Qed.

Lemma follows_good c c' :
    follows c c' → Forall safely (rn_threads c) → good (rn_store c) (rn_store c') ∧ Forall safely (rn_threads c').
  Proof. apply interleaving_safe; [apply _|apply safely_starts|apply survives_good]. Qed.

Lemma reachable_well_formed c : reachable c → wf (rn_store c) ∧ Forall safely (rn_threads c).
  Proof.
    intros (v & Hf). apply follows_good in Hf as [Hg Ht]; [|by constructor]. split; [|done]. by apply Hg, wf_initial.
  Qed.

Lemma reachable_evolves c c' : reachable c → follows c c' → wf (rn_store c') ∧ evolves (rn_store c) (rn_store c').
  Proof.
    intros [Hw Ht]%reachable_well_formed Hf. apply follows_good in Hf as [Hg _]; [|done]. by apply Hg.
  Qed.

(** * Properties *)


(** C1: sandboxes only move forward. However client operations, lifecycles, passes
    of the control loop, failures and restarts interleave, an allocation is never
    forgotten; its generation never decreases and grows whenever what is desired
    of it or the lease it serves changes; a termination is final; the worker and
    the lease it was given stay; and it is released once, but for the one deletion
    that may follow. *)
Theorem sandboxes_move_forward c c' i a :
    reachable c → follows c c' → value_at (rn_store c) i = Some a →
    ∃ a', value_at (rn_store c') i = Some a' ∧ alloc_le a a'.
  Proof. intros Hr Hf. destruct (reachable_evolves c c' Hr Hf) as [_ [Ha _ _ _]]. apply Ha. Qed.


(** C4: results are recorded once. A task that ended keeps its state, its result
    and its attempt, and a job that ended keeps its state, whatever happens later;
    every task belongs to a stored job. *)
Theorem results_are_final c c' i (t : task) :
    reachable c → follows c c' → value_at (rn_store c) i = Some t →
    ∃ (t' : task) (j j' : job), value_at (rn_store c') i = Some t'
      ∧ value_at (rn_store c) (ta_parent t) = Some j ∧ value_at (rn_store c') (ta_parent t) = Some j'
      ∧ ta_attempt t ≤ ta_attempt t'
      ∧ (task_done t = true → ta_state t' = ta_state t ∧ ta_result t' = ta_result t ∧ ta_attempt t' = ta_attempt t)
      ∧ jo_request j' = jo_request j ∧ (job_done j = true → jo_state j' = jo_state j).
  Proof.
    intros Hr Hf Ht. destruct (reachable_evolves c c' Hr Hf) as [_ [_ _ Et Ej]]. destruct (reachable_well_formed c Hr) as [Hw _].
    destruct (wf_task _ Hw _ _ Ht) as (_ & _ & j & Hj). destruct (Et i t Ht) as (t' & Ht' & (_ & _ & _ & ? & ?)).
    destruct (Ej _ j Hj) as (j' & Hj' & (_ & _ & ? & _ & ?)). by exists t', j, j'.
  Qed.

(** C3: a late answer is ignored. Once what is desired of a sandbox or the lease it
    serves has changed, the answers asked for before that (the outcomes of a launch,
    an observation, a termination, a deletion or a claim, and their failures)
    commit nothing. *)
Theorem late_answers_ignored c c' i a a' e :
    reachable c → follows c c' → value_at (rn_store c) i = Some a → value_at (rn_store c') i = Some a' →
    al_desired a' ≠ al_desired a ∨ text (al_lease a') ≠ text (al_lease a) →
    let g := al_generation a in
    let s := rn_store c' in
    (∀ r, commit_launch i g r e s = Ok ((), s)) ∧ (∀ x, launch_failed i g x e s = Ok ((), s))
    ∧ (∀ f, commit_observation i g f e s = Ok ((), s)) ∧ (∀ x, _uncertain i x g e s = Ok ((), s))
    ∧ (∀ d r route, commit_termination i g d r route e s = Ok ((), s))
    ∧ (∀ r route, deletion_begun i g r route e s = Ok (false, s))
    ∧ (∀ l (m : pool_lease), value_at s l = Some m →
         (∀ r, commit_claim l i g r e s = Ok ((), s)) ∧ (∀ x, claim_failed l i g x e s = Ok ((), s))).
  Proof.
    intros Hr Hf Ha Ha' Hs. cbv zeta. destruct (reachable_evolves c c' Hr Hf) as [_ [He _ _ _]].
    destruct (He i a Ha) as (b & Hb & Hle). rewrite Ha' in Hb. injection Hb as <-.
    apply (al_fenced _ _ Hle) in Hs. apply (stale_generation _ _ a'); [done|lia].
  Qed.
End safety.

(** * An execution *)

(** A worker that answers at once, and the way from its registration to a lease:
    a pool from a snapshot, the member it makes, its placement and launch, the
    checkout and the claim. *)
#[local] Existing Instance ex_digests.
Definition ex_endpoint : endpoint := Endpoint "h" 1 "t" (Some "ws"%string) None None None.
Definition ex_attach (w : worker) : prog connection := mret (Direct (wk_endpoint w)).
Definition ex_inventory : inventory :=
  Inventory 1 "h" "ws" Null [0; 1; 2; 3] (16 * 1024 ^ 3) [] ["gvisor"%string] false [] Null.
Definition ex_info : info := Info "b" "ready" (Some "running"%string) true Null.

Definition ex_answer (R : Type) (q : rpc R) : res R :=
  match q in rpc R return res R with
  | ping => Ok (Pong "h" 1 (Some "ws"%string) [])
  | take_inventory => Ok ex_inventory
  | managed_prepare _ => Ok (Prepared "h" 1 "ws" "t")
  | managed_apply _ _ _ _ => Ok (Applied "token" ex_info)
  | describe _ => Ok ex_info
  | artifact_cached _ _ => Ok true
  | _ => raise RuntimeError "not in this example"
  end.

Definition ex_creation (reference : option string) : creation :=
  Creation (Spec (ex_fields None) []) None reference None false None.
Definition ex_pool : pool_request :=
  PoolRequest "p" None None (ex_creation (Some "snap-1"%string))
    (PoolPolicy 2 1 (VInt 1) 0 [] "spread" None) None true.

Definition ex_tick : prog () :=
  tick None (λ n, "m" ++ pretty.pretty n)%string (λ n, "op" ++ pretty.pretty n)%string (λ _ _, O) (λ _, "l")%string (λ _, "x")%string.
Definition ex_member : string := "sw-m0".
Definition ex_begin (o : operation) : command := Begin (dispatch "c" o).
Definition ex_prepared (v : volatile) : volatile :=
  v <| vo_preparation := Preparation {[0%nat := Some (Ok "snap-1"%string)]} [] {[ex_member := (1, 0%nat)]} |>.

Definition ex_schedule : list command :=
  [ex_begin (Op_worker_add (Direct ex_endpoint) (Named "local") (WorkerOptions None None None None)); Move 0 20;
   ex_begin (Op_pool_create ex_pool); Move 0 40;
   Begin ex_tick; Move 0 60;
   Remember ex_prepared; Begin (body "c" ex_attach (LaunchWork ex_member)); Move 0 60;
   ex_begin (Op_pool_checkout "p" "lease" None); Move 0 20;
   Begin ex_tick; Move 0 60;
   Begin (body "c" ex_attach (ClaimWork "p" "lease" ex_member)); Move 0 20].
Definition ex_run (l : list command) : running := follow ex_answer ex_now (Running [] initial ex_volatile) l.

Lemma ex_attach_safe w : safely (ex_attach w).
Proof. done. Qed.
Lemma ex_plausible R (q : rpc R) : plausible q (ex_answer R q).
Proof. destruct q; simpl; try done; unfold reported, CONTROLLER_STATES; intros Hs; by in_cases Hs. Qed.

Lemma begin_inj p q : Begin p = Begin q → p = q.
Proof. congruence. Qed.
Lemma ex_starts p : Begin p ∈ ex_schedule → starts "c" ex_attach None p.
Proof.
  unfold ex_schedule, ex_begin, ex_tick. intros Hp. in_cases Hp; try done; apply begin_inj in Hp as ->;
    first [apply starts_lifecycle | apply starts_tick; done | apply starts_operation; intros i l w E; try done; by injection E as <- <- <-].
Qed.

Lemma ex_run_reachable l : (∀ p, Begin p ∈ l → Begin p ∈ ex_schedule) → reachable "c" ex_attach None (ex_run l).
Proof.
  intros Hl. exists ex_volatile. apply follow_runs; [exact ex_plausible|]. intros p Hp. by apply ex_starts, Hl.
Qed.
Lemma ex_follows l l' :
  (∀ p, Begin p ∈ l' → starts "c" ex_attach None p) → follows "c" ex_attach None (ex_run l) (ex_run (l ++ l')).
Proof. intros Hl. unfold ex_run, follow. rewrite foldl_app. by apply follow_runs; [exact ex_plausible|]. Qed.

Lemma take_subset {A} n (l : list A) x : x ∈ take n l → x ∈ l.
Proof. intros Hx. rewrite <- (take_drop n l). apply elem_of_app. by left. Qed.
Lemma drop_subset {A} n (l : list A) x : x ∈ drop n l → x ∈ l.
Proof. intros Hx. rewrite <- (take_drop n l). apply elem_of_app. by right. Qed.

Definition ex_ready : running := ex_run (take 9 ex_schedule).
Definition ex_leased : running := ex_run ex_schedule.
Lemma ex_ready_reachable : reachable "c" ex_attach None ex_ready.
Proof. apply ex_run_reachable. intros p Hp. by apply take_subset in Hp. Qed.
Lemma ex_leased_reachable : reachable "c" ex_attach None ex_leased.
Proof. by apply ex_run_reachable. Qed.
Lemma ex_ready_leased : follows "c" ex_attach None ex_ready ex_leased.
Proof.
  unfold ex_leased. rewrite <- (take_drop 9 ex_schedule). apply ex_follows.
  intros p Hp%drop_subset. by apply ex_starts.
Qed.

Lemma field_of {A B} (f : A → B) (o : option A) a b : o = Some a → (f <$> o) = Some b → f a = b.
Proof. intros -> [= ->]. done. Qed.


Lemma ex_route : match value_at (A := allocation) (rn_store ex_leased) ex_member with
                 | Some a => is_Some (match _route (rn_volatile ex_leased) a with Ok r => Some r | Err _ => None end)
                 | None => False
                 end.
Proof. vm_compute. by eexists. Qed.

Lemma sandboxes_move_forward_witness : ∃ a a' : allocation,
  value_at (rn_store ex_ready) ex_member = Some a ∧ value_at (rn_store ex_leased) ex_member = Some a'
  ∧ al_state a = "ready"%string ∧ alloc_le a a'.
Proof.
  destruct (value_at (A := allocation) (rn_store ex_ready) ex_member) as [a|] eqn:E; [|by vm_compute in E].
  destruct (sandboxes_move_forward "c" ex_attach None ex_attach_safe _ _ _ a ex_ready_reachable ex_ready_leased E) as (a' & E' & Hle).
  exists a, a'. refine (conj eq_refl (conj E' (conj _ Hle))). by apply (field_of al_state _ _ _ E).
Defined.


Lemma late_answers_ignored_witness : ∃ a a' : allocation,
  value_at (rn_store ex_ready) ex_member = Some a ∧ value_at (rn_store ex_leased) ex_member = Some a'
  ∧ ∀ x, launch_failed ex_member (al_generation a) x ex_now (rn_store ex_leased) = Ok ((), rn_store ex_leased).
Proof.
  destruct (value_at (A := allocation) (rn_store ex_ready) ex_member) as [a|] eqn:E; [|by vm_compute in E].
  destruct (value_at (A := allocation) (rn_store ex_leased) ex_member) as [a'|] eqn:E'; [|by vm_compute in E'].
  assert (Hs : text (al_lease a') ≠ text (al_lease a)).
  { rewrite (field_of al_lease _ _ None E), (field_of al_lease _ _ (Some "lease"%string) E'); [done|by vm_compute..]. }
  destruct (late_answers_ignored "c" ex_attach None ex_attach_safe _ _ _ a a' ex_now ex_ready_reachable ex_ready_leased E E'
    (or_intror Hs)) as (_ & Hx & _). exists a, a'. exact (conj eq_refl (conj eq_refl Hx)).
Defined.

(** A checkout can be served. From an empty store there is an execution in which
    a worker registers, a pool is made from a snapshot, its member is placed and
    launched, a client checks out a lease, and the lease becomes ready on that
    member with a route for the client. *)
Theorem checkout_served : ∃ c (l : pool_lease) (a : allocation) r,
  reachable "c" ex_attach None c ∧ value_at (rn_store c) "lease"%string = Some l ∧ le_state l = "ready"%string
  ∧ le_sandbox l = Some (al_id a) ∧ value_at (rn_store c) (al_id a) = Some a ∧ al_state a = "leased"%string
  ∧ al_lease a = Some "lease"%string ∧ _route (rn_volatile c) a = Ok r.
Proof.
  exists ex_leased.
  destruct (value_at (A := pool_lease) (rn_store ex_leased) "lease") as [l|] eqn:E; [|by vm_compute in E].
  destruct (value_at (A := allocation) (rn_store ex_leased) ex_member) as [a|] eqn:Ea; [|by vm_compute in Ea].
  destruct (_route (rn_volatile ex_leased) a) as [r|] eqn:Er.
  2: { pose proof ex_route as Hr. rewrite Ea in Hr. cbv beta iota in Hr. rewrite Er in Hr. destruct Hr as [? Hr]. discriminate Hr. }
  pose proof (field_of le_state _ _ "ready"%string E ltac:(by vm_compute)) as H1.
  pose proof (field_of le_sandbox _ _ (Some ex_member) E ltac:(by vm_compute)) as H2.
  pose proof (field_of al_id _ _ ex_member Ea ltac:(by vm_compute)) as H3.
  pose proof (field_of al_state _ _ "leased"%string Ea ltac:(by vm_compute)) as H4.
  pose proof (field_of al_lease _ _ (Some "lease"%string) Ea ltac:(by vm_compute)) as H5.
  exists l, a, r. rewrite H3. exact (conj ex_leased_reachable (conj eq_refl (conj H1 (conj H2 (conj Ea (conj H4 (conj H5 Er))))))).
Qed.

(** A job of two tasks on the pool, cancelled, then cancelled again after a restart. *)
Definition ex_job : job_params :=
  JobParams "j" "p" None false None
    (JobRequest "run" [] [Text "one"; Text "two"] 2 [] true None (VInt 1000) None).
Definition ex_jobs : list command :=
  [ex_begin (Op_pool_create ex_pool); Move 0 40; ex_begin (Op_job_create ex_job); Move 0 20;
   ex_begin (Op_job_cancel "j"); Move 0 20; Restart; ex_begin (Op_job_cancel "j"); Move 0 20].
Definition ex_task : string := "j-1".
Definition ex_cancelled : running := ex_run (take 6 ex_jobs).
Definition ex_again : running := ex_run ex_jobs.

Lemma ex_jobs_starts p : Begin p ∈ ex_jobs → starts "c" ex_attach None p.
Proof.
  unfold ex_jobs, ex_begin. intros Hp. in_cases Hp; try done; apply begin_inj in Hp as ->; by apply starts_operation.
Qed.
Lemma ex_cancelled_reachable : reachable "c" ex_attach None ex_cancelled.
Proof. exists ex_volatile. apply follow_runs; [exact ex_plausible|]. intros p Hp%take_subset. by apply ex_jobs_starts. Qed.
Lemma ex_cancelled_again : follows "c" ex_attach None ex_cancelled ex_again.
Proof.
  unfold ex_again. rewrite <- (take_drop 6 ex_jobs). apply ex_follows. intros p Hp%drop_subset. by apply ex_jobs_starts.
Qed.

Lemma results_are_final_witness : ∃ t t' : task,
  value_at (rn_store ex_cancelled) ex_task = Some t ∧ value_at (rn_store ex_again) ex_task = Some t'
  ∧ ta_state t = "cancelled"%string ∧ ta_state t' = ta_state t.
Proof.
  destruct (value_at (A := task) (rn_store ex_cancelled) ex_task) as [t|] eqn:E; [|by vm_compute in E].
  destruct (results_are_final "c" ex_attach None ex_attach_safe _ _ _ t ex_cancelled_reachable ex_cancelled_again E)
    as (t' & j & j' & E' & _ & _ & _ & Hd & _).
  assert (Hs : ta_state t = "cancelled"%string) by (by apply (field_of ta_state _ _ _ E)).
  exists t, t'. refine (conj eq_refl (conj E' (conj Hs _))). apply Hd. unfold task_done. by rewrite Hs.
Defined.

(** * A closure that is lost *)

(** The pass listed the pool before it was closed and writes that record back. *)
Definition ex_race : list command :=
  [ex_begin (Op_pool_create ex_pool); Move 0 40; Begin ex_tick; Move 0 5; ex_begin (Op_pool_close "p"); Move 0 10].
Definition ex_closed : running := ex_run ex_race.
Definition ex_reopened : running := ex_run (ex_race ++ [Move 1 40]).

Lemma ex_race_starts p : Begin p ∈ ex_race → starts "c" ex_attach None p.
Proof.
  unfold ex_race, ex_begin, ex_tick. intros Hp. in_cases Hp; try done; apply begin_inj in Hp as ->;
    first [by apply starts_tick | by apply starts_operation].
Qed.

(** A closure can be lost. There is an execution in which a client closes a
    pool while a pass of the control loop is under way, and in which, with no
    further operation, that pass makes the pool run again: it writes back the
    record it listed before the closure, and a new member is requested. *)
Theorem pool_closure_lost : ∃ c1 c2 (p1 p2 : pool) (a : allocation),
  reachable "c" ex_attach None c1 ∧ follows "c" ex_attach None c1 c2 ∧ length (rn_threads c1) = length (rn_threads c2)
  ∧ value_at (rn_store c1) "p"%string = Some p1 ∧ po_desired p1 = "closed"%string
  ∧ value_at (A := allocation) (rn_store c1) ex_member = None
  ∧ value_at (rn_store c2) "p"%string = Some p2 ∧ po_desired p2 = "running"%string
  ∧ value_at (rn_store c2) ex_member = Some a ∧ al_parent a = Some "p"%string ∧ al_desired a = "running"%string.
Proof.
  exists ex_closed, ex_reopened.
  destruct (value_at (A := pool) (rn_store ex_closed) "p") as [p1|] eqn:E1; [|by vm_compute in E1].
  destruct (value_at (A := pool) (rn_store ex_reopened) "p") as [p2|] eqn:E2; [|by vm_compute in E2].
  destruct (value_at (A := allocation) (rn_store ex_reopened) ex_member) as [a|] eqn:E3; [|by vm_compute in E3].
  pose proof (field_of po_desired _ _ "closed"%string E1 ltac:(by vm_compute)) as H1.
  pose proof (field_of po_desired _ _ "running"%string E2 ltac:(by vm_compute)) as H2.
  pose proof (field_of al_parent _ _ (Some "p"%string) E3 ltac:(by vm_compute)) as H3.
  pose proof (field_of al_desired _ _ "running"%string E3 ltac:(by vm_compute)) as H4.
  exists p1, p2, a. split; [|split; [|split; [by vm_compute|refine (conj eq_refl (conj H1 (conj _ (conj eq_refl (conj H2
    (conj eq_refl (conj H3 H4)))))))]]].
  - exists ex_volatile. apply follow_runs; [exact ex_plausible|]. apply ex_race_starts.
  - apply (ex_follows ex_race [Move 1 40]). intros p Hp%list_elem_of_singleton. discriminate Hp.
  - by vm_compute.
Qed.
